(* ===== verification/_CoqProject ===== *)
-Q . S2P
Prelude.v
Wp.v
Key.v
Core.v
Page.v
Superblock.v
Format.v
FormatLaws.v
Reference.v
Cache.v
Overlay.v
Tree.v
OverlayReads.v
TreeSearch.v
SplitRoom.v
TreeInsert.v
TreeValue.v
OverlayPages.v
TreeOps.v
TreeTxn.v
MemStore.v
TreeScan.v
TreeTheorems.v
DurableFile.v
CrashFile.v
Wal.v
WalFrames.v
WalReplay.v
WalRecovery.v
WalAppend.v
WalCrash.v
WalReset.v
WalSound.v
WalTheorems.v
StoreFile.v
Checker.v
Store.v
StoreSpec.v
StorePublish.v
StoreTxn.v
StoreNew.v
CheckerSpec.v
Redo.v
Recovery.v
Reopen.v
Durability.v
CheckpointFile.v
CheckpointSteps.v
Checkpoint.v
StoreTheorems.v
DurabilityTheorems.v
Service.v
Protocol.v
ProtocolLaws.v
ProtocolTheorems.v
Lockstep.v
ReadView.v
ReadViewLaws.v
ReadViewSpec.v
ReadViewLoad.v
Coordinator.v
CoordinatorSpec.v
CoordinatorSim.v
CoordinatorTheorems.v
Transport.v
TransportLaws.v
Client.v
ClientTheorems.v
Server.v
ServerTheorems.v
Tenant.v
TenantTheorems.v
