(* ===== verification/Prelude.v ===== *)
(** * dodb: a verification library for the dodb storage engine

    dodb is a transactional document store.  A shard is one data file of 4 KiB pages
    and one write-ahead log.  A transaction runs against a copy-on-write overlay of
    the committed B+Tree; finishing it yields the page images of one commit, which
    are appended to the log and synced before the store takes the new pages over; the
    data file is written later, by flushes and checkpoints, and repaired from the log
    when the shard is opened.  A shard is owned by one coordinator task, which commits
    the queued mutations in groups and publishes the changed pages to a read view that
    answers plain reads.  A process serves many tenants, each with its own shard, to
    clients over QUIC streams.  This library models the system in the order of its layers
    and proves that each layer keeps what the next one relies on: the coordinator refines
    a sequential shard over the in-memory reference database, the tenant service gives
    every tenant such a shard of its own, and client and server carry requests and answers
    between a caller and the service.

    ** Files

    - Prelude.v, Wp.v: results ([Ok], [Err], [Stuck] for a panic or exhausted fuel),
      the state-and-error monad, bytes and bounded integers, and a total-correctness
      calculus [wp] for the monad.
    - Key.v (crates/dodb-core/src/key.rs): the order-preserving key codec.
    - Core.v (crates/dodb-core/src/{error,identifiers,revision,transaction}.rs): errors,
      revision states, transaction requests and their validation.
    - Page.v, Superblock.v (crates/dodb-storage/src/{page,superblock}.rs): the page
      header codec and the double superblock.  [crc32c] is a third-party crate: it is
      the class [Crc32c] with the law that its result is a [u32], and [Castagnoli]
      is an executable instance.
    - Format.v, FormatLaws.v (btree/format.rs): leaf, internal, overflow and free page
      bodies, their round trips and the exact capacity of a leaf.
    - Cache.v (btree/cache.rs): the page cache.
    - Reference.v (crates/dodb-testkit/src/reference.rs): the reference database, which
      is the abstract specification of the engine.
    - Overlay.v ([Overlay] in btree/mod.rs): every operation on the tree.  What it
      needs of the store is the class [CommittedStore]; the laws it relies on are
      [CommittedStoreSpec] of Tree.v.  MemStore.v is a small instance, StoreSpec.v the
      instance for the real store.
    - Tree.v: the tree invariant [inv], a ghost labelling of the pages; TreeSearch.v,
      SplitRoom.v, TreeInsert.v, TreeValue.v, TreeOps.v, TreeScan.v: descent, the room that
      a split finds for bounded keys, splits, overflow values, point operations and ordered
      reads under the invariant; TreeTxn.v: transactions and groups; OverlayReads.v, OverlayPages.v: what the overlay reads from the file
      and which pages it changes;
      TreeTheorems.v: the properties with concrete instances.
    - DurableFile.v (durable_file.rs, fault.rs): the file and fault-injection traits as
      classes, with the documented contract of a file ([DurableFileSpec]: short counts,
      volatile writes, durable after a sync) as laws; CrashFile.v
      (crates/dodb-testkit/src/{crashable_file,crash}.rs) is the instance with scheduled
      faults and crashes.
    - Wal.v (wal.rs): the log.  WalFrames.v, WalReplay.v, WalRecovery.v, WalAppend.v,
      WalCrash.v, WalReset.v, WalSound.v: frames, the two scan passes, opening after a
      crash, group append and what a crash leaves of it, reset, and what a scan of
      arbitrary bytes accepts; WalTheorems.v: the properties.
    - StoreFile.v, Store.v (btree/mod.rs), Checker.v (btree/checker.rs): the data file
      with its redo pass, the store with publication, flush, checkpoint, opening and
      the request entry points, and the invariant checker.  StorePublish.v, StoreTxn.v,
      StoreNew.v: publication, transaction groups and creation; CheckerSpec.v: the
      checker accepts a file that holds a tree; StoreTheorems.v: the properties.
    - Redo.v, Recovery.v: the redo pass, and what a data file and a log must have for it
      to complete the file ([recoverable]); Reopen.v: opening such files.  Durability.v:
      the store keeps its files so ([kept]) through transaction groups, and what is
      found in them after a crash.  CheckpointFile.v, CheckpointSteps.v, Checkpoint.v:
      the states of the data file in a checkpoint, the steps that lead through them,
      and opening what a crash leaves of them.  DurabilityTheorems.v: the properties.
    - ReadView.v ([CommittedReadView] in btree/coordinator.rs): the pages in memory that
      plain reads use.  ReadViewLaws.v: its lookups do what the overlay does on the same
      pages; Lockstep.v: a group runs in the same way on two stores that have the pages
      it needs; ReadViewSpec.v, ReadViewLoad.v: loading gives a view that follows the
      store, and publishing a group keeps it so.
    - Coordinator.v (btree/coordinator.rs): the queue, the task as a state machine whose
      phases are its await points and the points between them at which a client can see a
      difference: a segment (the requests of one group commit) is processed, then published
      to the read view, and then its answers are sent one by one.  The tokio channel is the class
      [Mpsc] with the documented behaviour as its laws [MpscSpec]; [Fifo] is an
      instance.  CoordinatorSpec.v: the sequential shard; CoordinatorSim.v: every step
      of the task is a run of the sequential shard; CoordinatorTheorems.v: the
      properties.
    - Service.v, Protocol.v (crates/dodb-service, crates/dodb-protocol): the requests
      and responses and their wire codec; ProtocolLaws.v: a small algebra of codecs;
      ProtocolTheorems.v: the properties.
    - Transport.v: the streams of the QUIC library as the class [BiStream] of the four
      operations that are used, with their documented behaviour as [BiStreamSpec]; [Wire]
      is an instance.  TransportLaws.v: reading a frame.
    - Client.v (crates/dodb-client/src/lib.rs): the errors, the exchange of one request,
      and the connection manager: each critical section of its mutex is a function, the
      tasks that use it are a step relation.  ClientTheorems.v: the properties.
    - Server.v (crates/dodb-server/src/lib.rs, transport half): configuration, metrics, the
      service of one stream, and the accepting tasks with the permits they take and drop as
      a step relation.  The semaphore of tokio is the class [Semaphore] with its documented
      behaviour as [SemaphoreSpec]; the service behind the server is the class
      [DodbService].  ServerTheorems.v: the
      properties, client and server composed included.
    - Tenant.v (crates/dodb-server/src/lib.rs, [LocalTenantService]): identities and files
      of tenants, shards opened on first use and shared by handle, and every request up to
      its one call of a shard and from its result to the response.  The file system is the
      class [FileSystem] with its documented behaviour as [FileSystemSpec].
      TenantTheorems.v: the properties, with a disk in memory as instance.

    ** What is shown

    - Codecs: keys, pages, superblocks, page bodies and log frames decode to what was
      encoded, decoders are total on arbitrary bytes, and key order is byte order.
    - Tree: put and delete keep the invariant; get, scan and query agree with the
      reference; a transaction commits or conflicts exactly as the reference says and is
      rejected only for sizes beyond the documented limits, and the batch it prepares is
      the difference between the two trees; descents terminate.
    - Log: whatever interrupts an append or a reset, the file reopens with the commits
      acknowledged so far; a scan of arbitrary bytes that succeeds accepts, byte for byte,
      a sequence of records and returns exactly its complete commits, with their page
      counts, record numbers and digests.
    - Store: a transaction group on the store with its log refines the reference
      database, in memory and in the durable log; under arbitrary faults of the log it is
      fail-stop; a broken store refuses work; two empty files open as an empty
      database.
    - Recovery: after a crash in a transaction group, under any faults of the log and with
      any prefix of its unsynced bytes, opening succeeds and gives the reference database
      after some first requests of the group, all of them if it was acknowledged; after
      a crash in a checkpoint, with any of the unsynced pages written or torn, it gives
      the same database as before; the store that was opened passes its own check and
      is as recoverable as the old one.  A checkpoint without faults after
      a commit succeeds and leaves a data file that needs nothing of the log.
    - Coordinator: on a store without faults, under any scheduling of transactions, puts,
      deletes, transactional reads and observations, the answers are those of serving the
      accepted requests one at a time; a read from the view sees the answered requests
      and those of a published segment whose answers are under way; every accepted request
      is answered unless the shard is shut down; queue and groups are bounded (a single
      request may be larger than a group); and after a persistence failure nothing is read
      from the view.
    - Protocol: requests and responses survive the wire, only canonical frames decode,
      no input makes a decoder panic, and a decoded request is within the limits of the
      storage engine.
    - Client: at most one task dials, and without cancellation a task that waits is woken by
      the task that dials; a late failure
      never closes a newer connection; a mutation is reported as failed only if nothing
      was sent or the server said so.
    - Server: a stream makes the service run its one valid request once and nothing
      otherwise; every permit is free or held by a running task; on any transport that
      obeys the laws of streams a call by the client returns what the service answered, or
      an error that does not claim to know the outcome of a mutation.
    - Tenants: every shard has one owner, whose files and requests are its own; a tenant
      that had no files gets a shard that refines the empty reference database, whatever
      the other tenants do; a tenant that does not exist reads as the empty database.
    - Behaviours of the code that contradict its intent: every store that was just created
      fails its own check, and a client call that is dropped while it dials blocks the
      connection for good (both proved); a rejected transaction whose entry does not fit a
      leaf can be committed in part by the next transaction of its group (an evaluated
      example).

    ** Conventions and bounds

    Integers are [Z] with the ranges [u16], [u32], [u64] as predicates; [checked_add]
    and the other checked operations are written out, and arithmetic that would
    overflow is [Stuck].  Byte strings are lists of [Z].  A method with [&mut self] is a
    computation in the state monad; an error keeps the state that the source leaves
    behind.  Formatted error messages are kept as their literals.

    Loops that the source bounds by a set of visited pages take fuel: the number of
    pages up to the high-water mark, which the termination lemmas show to be enough.
    The refinement theorems assume room for the remaining writes ([capacity],
    [wal_room]): LSNs, generations and batch numbers below 2^64 and fewer than 2^32
    pages, so that no counter runs out.  An empty store certainly has that room for
    [FRESH_WRITES] writes, of values of any size.  They also assume that the keys have at
    most [SPLIT_KEY_LIMIT] = 1464 encoded bytes ([short_keys], [keys_fit]), or, in a
    request, more than the documented limit, which is rejected: with such keys every
    page can be split, and longer ones that the code accepts may not fit a page.  Connection
    generations are 64-bit and wrap: the client theorem counts fewer dials than that.

    ** Not modelled

    The timings of the storage and log metrics, which nothing reads back;
    [ProductionFile] (system calls); the QUIC endpoint, the handshake and the TLS
    configuration built for it (their results are inputs of the client and the server);
    the interleaving of two requests inside the service of a stream, which is one step of
    the server; the contents of a file that is opened a second time by the same process;
    the soak driver, benchmarks and tests.  Of the coordinator, the requests for a
    checkpoint and for a check and reads through the queue are modelled and not part of the
    simulation.  The recovery
    theorems assume that the data file itself does not fail (the log may), that a page of
    the data file that was torn fails its checksum, and that the page of a superblock is
    written as a whole. *)

From stdpp Require Export base numbers list gmap strings sorting.
From Stdlib Require Export ZArith Lia.

#[export] Set Default Goal Selector "!".
Open Scope Z_scope.

Declare Scope dodb_scope.
Delimit Scope dodb_scope with dodb.
Open Scope dodb_scope.

#[global] Arguments Z.compare : simpl never.

(** ** Results

    A Rust [Result<A, E>] is [Ok] or [Err].  A call that does not return at all
    is [Stuck]: it panicked (slice index out of range, failed [unwrap],
    overflowing arithmetic), or the fuel that bounds a modelled loop ran out.
    The theorems that say a function returns exclude both. *)

Inductive stuck : Type := Panicked | OutOfFuel.

Inductive Result (E A : Type) : Type :=
  | Ok (a : A)
  | Err (e : E)
  | Stuck (s : stuck).
Arguments Ok {E A} a.
Arguments Err {E A} e.
Arguments Stuck {E A} s.

#[global] Instance Result_ret {E} : MRet (Result E) := λ A a, Ok a.
#[global] Instance Result_bind {E} : MBind (Result E) := λ A B f r,
  match r with Ok a => f a | Err e => Err e | Stuck s => Stuck s end.
#[global] Instance Result_fmap {E} : FMap (Result E) := λ A B f r,
  match r with Ok a => Ok (f a) | Err e => Err e | Stuck s => Stuck s end.

Definition is_ok {E A} (r : Result E A) : bool :=
  match r with Ok _ => true | _ => false end.

(** [Option::ok_or]. *)
Definition ok_or {E A} (o : option A) (e : E) : Result E A :=
  match o with Some a => Ok a | None => Err e end.

(** [Result::map_err]. *)
Definition map_err {E F A} (f : E → F) (r : Result E A) : Result F A :=
  match r with Ok a => Ok a | Err e => Err (f e) | Stuck s => Stuck s end.

(** [if bad { return Err(e) }] in front of the rest of a body. *)
Definition fail_if {E} (bad : bool) (e : E) : Result E unit :=
  if bad then Err e else Ok tt.

(** A call that returns: no panic and enough fuel. *)
Definition returns {E A} (r : Result E A) : Prop :=
  match r with Stuck _ => False | _ => True end.

(** ** State and errors

    A method with [&mut self] that returns a [Result]: the state is kept on the
    error path too, as Rust keeps it. *)

Definition St (S E A : Type) : Type := S → Result E A * S.

#[global] Instance St_ret {S E} : MRet (St S E) := λ A a s, (Ok a, s).
#[global] Instance St_bind {S E} : MBind (St S E) := λ A B f m s,
  match m s with
  | (Ok a, s') => f a s'
  | (Err e, s') => (Err e, s')
  | (Stuck k, s') => (Stuck k, s')
  end.
#[global] Instance St_fmap {S E} : FMap (St S E) := λ A B f m s,
  let '(r, s') := m s in (f <$> r, s').

Definition lift_r {S E A} (r : Result E A) : St S E A := λ s, (r, s).
Definition get_st {S E} : St S E S := λ s, (Ok s, s).
Definition modify_st {S E} (f : S → S) : St S E unit := λ s, (Ok tt, f s).
Definition throw {S E A} (e : E) : St S E A := lift_r (Err e).
Definition fail_when {S E} (bad : bool) (e : E) : St S E unit := lift_r (fail_if bad e).

(** Runs an operation on a component of the state. *)
Definition zoom {S T E A} (get : S → T) (put : T → S → S) (m : St T E A) : St S E A :=
  λ s, let '(r, t) := m (get s) in (r, put t s).

(** [for x in l { body(x)? }]. *)
Fixpoint for_each {S E A} (body : A → St S E unit) (l : list A) : St S E unit :=
  match l with
  | [] => mret tt
  | x :: l' => body x;; for_each body l'
  end.

(** [l.iter().map(f).collect::<Result<Vec<_>>>()]. *)
Fixpoint map_each {S E A B} (f : A → St S E B) (l : list A) : St S E (list B) :=
  match l with
  | [] => mret []
  | x :: l' => y ← f x; ys ← map_each f l'; mret (y :: ys)
  end.

(** ** Machine integers

    An unsigned [w]-bit integer is a [Z] with its range; [usize] has 64 bits. *)

Definition u8 (z : Z) : Prop := 0 ≤ z < 2 ^ 8.
Definition u16 (z : Z) : Prop := 0 ≤ z < 2 ^ 16.
Definition u32 (z : Z) : Prop := 0 ≤ z < 2 ^ 32.
Definition u64 (z : Z) : Prop := 0 ≤ z < 2 ^ 64.
Definition usize (z : Z) : Prop := u64 z.

Definition U16_MAX : Z := 2 ^ 16 - 1.
Definition U32_MAX : Z := 2 ^ 32 - 1.
Definition U64_MAX : Z := 2 ^ 64 - 1.
Definition USIZE_MAX : Z := U64_MAX.

Definition checked_add (a b : Z) : option Z :=
  if a + b <=? U64_MAX then Some (a + b) else None.
Definition checked_mul (a b : Z) : option Z :=
  if a * b <=? U64_MAX then Some (a * b) else None.
Definition checked_sub (a b : Z) : option Z :=
  if b <=? a then Some (a - b) else None.
Definition saturating_add (a b : Z) : Z := Z.min (a + b) U64_MAX.
Definition saturating_sub (a b : Z) : Z := Z.max (a - b) 0.
Definition wrapping_add (a b : Z) : Z := (a + b) mod 2 ^ 64.

(** [value as u16]. *)
Definition as_u16 (z : Z) : Z := z mod 2 ^ 16.

Ltac unfold_ints :=
  unfold u8, u16, u32, u64, usize, U16_MAX, U32_MAX, U64_MAX, USIZE_MAX in *.
Ltac ulia := unfold_ints; lia.

Lemma checked_add_Some a b c :
  checked_add a b = Some c ↔ c = a + b ∧ a + b ≤ U64_MAX.
Proof.
  unfold checked_add. destruct (Z.leb_spec (a + b) U64_MAX); split.
  - intros [= <-]. lia.
  - by intros [-> _].
  - done.
  - intros [_ ?]. lia.
Qed.

Lemma checked_add_ok a b : a + b ≤ U64_MAX → checked_add a b = Some (a + b).
Proof. intros. by apply checked_add_Some. Qed.

(** ** Byte strings

    A byte is a [Z] below 256, a [Vec<u8>] or [\[u8; N\]] is a list of them, and
    lengths are [Z] so that the 64 MiB limits stay symbolic. *)

Abbreviation bytes := (list Z).

Definition is_bytes (b : bytes) : Prop := Forall u8 b.

Definition len {A} (l : list A) : Z := Z.of_nat (length l).

Definition zeros (n : Z) : bytes := replicate (Z.to_nat n) 0.

(** [l\[a..b\]] of an in-range slice. *)
Definition slice {A} (l : list A) (a b : Z) : list A :=
  take (Z.to_nat (b - a)) (drop (Z.to_nat a) l).

Notation "l .[ a ; b )" := (slice l a b)
  (at level 1, left associativity, format "l .[ a ;  b )") : dodb_scope.

(** [&l\[a..b\]], which panics when the range is not inside the slice. *)
Definition index_range {E A} (l : list A) (a b : Z) : Result E (list A) :=
  if (0 <=? a) && (a <=? b) && (b <=? len l) then Ok (l.[a; b)) else Stuck Panicked.

(** [l\[i\]]. *)
Definition index {E A} (l : list A) (i : Z) : Result E A :=
  if 0 <=? i then
    match l !! Z.to_nat i with Some x => Ok x | None => Stuck Panicked end
  else Stuck Panicked.

Fixpoint overwrite {A} (l s : list A) : list A :=
  match l, s with
  | _ :: l', y :: s' => y :: overwrite l' s'
  | l, _ => l
  end.

(** [l\[o..o + s.len()\].copy_from_slice(s)]; every use in the model is in range. *)
Definition copy_at {A} (l : list A) (o : Z) (s : list A) : list A :=
  take (Z.to_nat o) l ++ overwrite (drop (Z.to_nat o) l) s.

(** [to_le_bytes], [from_le_bytes], [to_be_bytes] and [from_be_bytes]. *)
Fixpoint to_le (n : nat) (z : Z) : bytes :=
  match n with
  | O => []
  | S n' => z mod 256 :: to_le n' (z / 256)
  end.
Fixpoint from_le (b : bytes) : Z :=
  match b with
  | [] => 0
  | x :: b' => x + 256 * from_le b'
  end.
Definition to_be (n : nat) (z : Z) : bytes := reverse (to_le n z).
Definition from_be (b : bytes) : Z := from_le (reverse b).

Definition bytes_eqb (a b : bytes) : bool := bool_decide (a = b).

(** [iter().any(|byte| *byte != 0)]. *)
Definition any_nonzero (b : bytes) : bool := existsb (λ x, negb (x =? 0)) b.

(** Lexicographic comparison, [Ord] on [Vec<u8>]. *)
Fixpoint lex_cmp (a b : bytes) : comparison :=
  match a, b with
  | [], [] => Eq
  | [], _ :: _ => Lt
  | _ :: _, [] => Gt
  | x :: a', y :: b' =>
      match x ?= y with Eq => lex_cmp a' b' | c => c end
  end.
Definition bytes_ltb (a b : bytes) : bool :=
  match lex_cmp a b with Lt => true | _ => false end.
Definition bytes_leb (a b : bytes) : bool :=
  match lex_cmp a b with Gt => false | _ => true end.
Definition bytes_lt (a b : bytes) : Prop := lex_cmp a b = Lt.

#[global] Arguments len : simpl never.
#[global] Arguments zeros : simpl never.
#[global] Arguments slice : simpl never.
#[global] Arguments copy_at : simpl never.
#[global] Arguments index_range : simpl never.
#[global] Arguments index : simpl never.
#[global] Arguments to_be : simpl never.
#[global] Arguments from_be : simpl never.
#[global] Arguments bytes_eqb : simpl never.
#[global] Arguments any_nonzero : simpl never.

(** ** Lemmas on lists, slices and integers *)

Create HintDb dodb discriminated.
Create HintDb consts.
Create Rewrite HintDb blen.

Section lists.
Context {A : Type}.
Implicit Types (l s : list A).

Lemma len_nonneg l : 0 ≤ len l.
Proof. unfold len. lia. Qed.
Lemma len_nil : len (@nil A) = 0.
Proof. done. Qed.
Lemma len_cons x l : len (x :: l) = 1 + len l.
Proof. unfold len. simpl. lia. Qed.
Lemma len_app l s : len (l ++ s) = len l + len s.
Proof. unfold len. rewrite length_app. lia. Qed.
Lemma len_reverse l : len (reverse l) = len l.
Proof. unfold len. by rewrite length_reverse. Qed.
Lemma len_zero_nil l : len l = 0 → l = [].
Proof. unfold len. destruct l; simpl; [done | lia]. Qed.

Lemma length_overwrite l s : length (overwrite l s) = length l.
Proof. revert s. induction l; destruct s; simpl; auto. Qed.
Lemma len_copy_at l o s : len (copy_at l o s) = len l.
Proof.
  unfold len, copy_at.
  rewrite length_app, length_overwrite, length_take, length_drop. lia.
Qed.
Lemma len_slice l a b :
  0 ≤ a → a ≤ b → b ≤ len l → len (l.[a; b)) = b - a.
Proof. unfold len, slice. intros. rewrite length_take, length_drop. lia. Qed.

Lemma overwrite_lookup l s i :
  overwrite l s !! i =
  if decide (i < length s)%nat
  then (if decide (i < length l)%nat then s !! i else None) else l !! i.
Proof.
  revert s i. induction l as [|x l IH]; intros [|y s] i; cbn [overwrite length].
  - repeat case_decide; try done; lia.
  - repeat case_decide; try done; lia.
  - repeat case_decide; try done; lia.
  - destruct i as [|i].
    + by rewrite !decide_True by lia.
    + change (overwrite l s !! i = if decide (S i < S (length s))%nat
        then (if decide (S i < S (length l))%nat then s !! i else None) else l !! i).
      rewrite IH. repeat case_decide; try done; lia.
Qed.

Lemma copy_at_lookup l o s (i : nat) :
  0 ≤ o → o + len s ≤ len l →
  copy_at l o s !! i =
  if decide (o ≤ Z.of_nat i < o + len s) then s !! Z.to_nat (Z.of_nat i - o) else l !! i.
Proof.
  unfold copy_at, len. intros Ho Hl.
  destruct (decide (Z.of_nat i < o)).
  - rewrite decide_False by lia.
    rewrite lookup_app_l by (rewrite length_take; lia).
    by rewrite lookup_take_lt by lia.
  - rewrite lookup_app_r by (rewrite length_take; lia).
    rewrite length_take, overwrite_lookup, length_drop, lookup_drop.
    repeat case_decide; try lia.
    + f_equal. lia.
    + f_equal. lia.
Qed.

Lemma slice_lookup l a b (i : nat) :
  0 ≤ a → l.[a; b) !! i = if decide (Z.of_nat i < b - a) then l !! (Z.to_nat a + i)%nat else None.
Proof.
  intros. unfold slice. rewrite lookup_take, lookup_drop. repeat case_decide; try done; lia.
Qed.

Lemma slice_copy_at_eq l o s a b :
  0 ≤ o → o + len s ≤ len l → a = o → b = o + len s → (copy_at l o s).[a; b) = s.
Proof.
  intros ? ? -> ->. apply list_eq. intros i.
  rewrite slice_lookup, copy_at_lookup by done. unfold len in *.
  repeat case_decide; try lia.
  - f_equal. lia.
  - symmetry. apply lookup_ge_None. lia.
Qed.

Lemma slice_copy_at_ne l o s a b :
  0 ≤ o → o + len s ≤ len l → 0 ≤ a → b ≤ o ∨ o + len s ≤ a →
  (copy_at l o s).[a; b) = l.[a; b).
Proof.
  intros ? ? ? Hd. apply list_eq. intros i.
  rewrite !slice_lookup by done. case_decide; [|done].
  rewrite copy_at_lookup by done. rewrite decide_False; [done | lia].
Qed.

Lemma copy_at_twice l o s t :
  0 ≤ o → o + len t ≤ len l → len s = len t → copy_at (copy_at l o s) o t = copy_at l o t.
Proof.
  intros ? ? Hst. apply list_eq. intros i.
  rewrite !copy_at_lookup by (rewrite ?len_copy_at; lia). rewrite Hst. by case_decide.
Qed.

Lemma copy_at_id l o b : 0 ≤ o → o ≤ b → b ≤ len l → copy_at l o (l.[o; b)) = l.
Proof.
  intros. apply list_eq. intros i. rewrite copy_at_lookup; rewrite ?len_slice by lia; [|lia..].
  case_decide; [|done]. rewrite slice_lookup by lia. rewrite decide_True by lia. f_equal. lia.
Qed.

Lemma slice_slice l a b c d :
  0 ≤ a → 0 ≤ c → d ≤ b - a → (l.[a; b)).[c; d) = l.[a + c; a + d).
Proof.
  intros. apply list_eq. intros i. rewrite !slice_lookup by lia.
  case_decide; rewrite ?decide_True by lia; [|by rewrite decide_False by lia].
  f_equal. lia.
Qed.

Lemma slice_full l b : len l ≤ b → l.[0; b) = l.
Proof. unfold slice, len. intros. rewrite drop_0. apply take_ge. lia. Qed.

Lemma slice_nil l a : l.[a; a) = [].
Proof. unfold slice. by rewrite Z.sub_diag. Qed.

Lemma slice_app_l l s a b : 0 ≤ a → b ≤ len l → (l ++ s).[a; b) = l.[a; b).
Proof.
  unfold len. intros. apply list_eq. intros i. rewrite !slice_lookup by lia.
  case_decide; [|done]. by rewrite lookup_app_l by lia.
Qed.

Lemma slice_app_r l s a b :
  len l ≤ a → (l ++ s).[a; b) = s.[a - len l; b - len l).
Proof.
  unfold len. intros. apply list_eq. intros i. rewrite !slice_lookup by lia.
  repeat case_decide; try lia; [|done].
  rewrite lookup_app_r by lia. f_equal. lia.
Qed.

Lemma slice_split l a b c : 0 ≤ a → a ≤ b → b ≤ c → l.[a; c) = l.[a; b) ++ l.[b; c).
Proof.
  intros. unfold slice.
  rewrite <-(take_drop (Z.to_nat (b - a)) (take (Z.to_nat (c - a)) (drop (Z.to_nat a) l))).
  f_equal.
  - rewrite take_take. f_equal. lia.
  - rewrite skipn_firstn_comm, drop_drop. f_equal; [lia|]. f_equal. lia.
Qed.

Lemma index_range_ok {E} l a b :
  0 ≤ a → a ≤ b → b ≤ len l → index_range (E:=E) l a b = Ok (l.[a; b)).
Proof.
  intros. unfold index_range.
  rewrite (proj2 (Z.leb_le 0 a)), (proj2 (Z.leb_le a b)), (proj2 (Z.leb_le b (len l))) by lia.
  done.
Qed.

Lemma slices_eq l s a b c :
  0 ≤ a → a ≤ b → b ≤ c →
  l.[a; b) = s.[a; b) → l.[b; c) = s.[b; c) → l.[a; c) = s.[a; c).
Proof. intros ? ? ? H1 H2. by rewrite (slice_split l a b c), (slice_split s a b c), H1, H2. Qed.

Lemma eq_by_slices l s : len l = len s → l.[0; len l) = s.[0; len l) → l = s.
Proof. intros Hl. rewrite !slice_full by lia. done. Qed.

Lemma index_in_range {E} l i :
  0 ≤ i < len l → ∃ x, index (E:=E) l i = Ok x ∧ l.[i; i + 1) = [x].
Proof.
  intros Hi. unfold index. rewrite (proj2 (Z.leb_le 0 i)) by lia.
  destruct (lookup_lt_is_Some_2 l (Z.to_nat i)) as [x Hx]; [unfold len in Hi; lia|].
  exists x. rewrite Hx. split; [done|]. apply list_eq. intros j.
  rewrite slice_lookup by lia. case_decide; destruct j; try lia; simpl.
  - by rewrite Nat.add_0_r.
  - done.
Qed.

Lemma index_ok {E} l i x : 0 ≤ i → l.[i; i + 1) = [x] → index (E:=E) l i = Ok x.
Proof.
  intros Hi Hs. unfold index. rewrite (proj2 (Z.leb_le 0 i)) by lia.
  assert (Hx : l.[i; i + 1) !! 0%nat = Some x) by (by rewrite Hs).
  rewrite slice_lookup in Hx by done. rewrite decide_True in Hx by lia.
  replace (Z.to_nat i + 0)%nat with (Z.to_nat i) in Hx by lia. by rewrite Hx.
Qed.
End lists.

Lemma len_zeros n : 0 ≤ n → len (zeros n) = n.
Proof. unfold len, zeros. rewrite length_replicate. lia. Qed.

Lemma slice_zeros n a b : 0 ≤ a → a ≤ b → b ≤ n → (zeros n).[a; b) = zeros (b - a).
Proof.
  intros. unfold slice, zeros. rewrite drop_replicate, take_replicate. f_equal. lia.
Qed.

Lemma any_nonzero_zeros n : any_nonzero (zeros n) = false.
Proof. unfold any_nonzero, zeros. induction (Z.to_nat n); simpl; auto. Qed.

Lemma any_nonzero_false b : any_nonzero b = false ↔ b = zeros (len b).
Proof.
  unfold any_nonzero, zeros, len. rewrite Nat2Z.id. induction b as [|x b IH]; simpl; [done|].
  rewrite orb_false_iff, negb_false_iff, Z.eqb_eq, IH. split; [intros [-> ->]|intros [= -> ->]].
  - by rewrite length_replicate.
  - by rewrite length_replicate.
Qed.

(** *** Little- and big-endian integers *)

Lemma length_to_le n z : length (to_le n z) = n.
Proof. revert z. induction n; intros; cbn [to_le length]; auto. Qed.
Lemma len_to_le n z : len (to_le n z) = Z.of_nat n.
Proof. unfold len. by rewrite length_to_le. Qed.
Lemma len_to_be n z : len (to_be n z) = Z.of_nat n.
Proof. unfold to_be. by rewrite len_reverse, len_to_le. Qed.

Lemma to_le_bytes n z : is_bytes (to_le n z).
Proof.
  revert z. induction n as [|n IH]; intros; cbn [to_le]; constructor; [|apply IH].
  unfold u8. apply Z.mod_pos_bound. lia.
Qed.

Lemma from_le_to_le n z : from_le (to_le n z) = z mod 256 ^ Z.of_nat n.
Proof.
  revert z. induction n as [|n IH]; intros z; cbn [to_le from_le].
  - by rewrite Z.mod_1_r.
  - rewrite IH, Nat2Z.inj_succ, Z.pow_succ_r by lia.
    rewrite Z.rem_mul_r; [done | lia | lia].
Qed.

Lemma from_to_le n z : 0 ≤ z < 256 ^ Z.of_nat n → from_le (to_le n z) = z.
Proof. intros. rewrite from_le_to_le. by apply Z.mod_small. Qed.

Lemma to_from_le b : is_bytes b → to_le (length b) (from_le b) = b.
Proof.
  induction 1 as [|x b Hx Hb IH]; cbn [to_le from_le length]; [done|]. unfold u8 in Hx.
  rewrite (Z.mul_comm 256), Z.mod_add, Z.div_add, Z.mod_small, Z.div_small, Z.add_0_l by lia.
  by rewrite IH.
Qed.

Lemma from_le_bound b : is_bytes b → 0 ≤ from_le b < 256 ^ len b.
Proof.
  intros Hb. assert (from_le b = from_le b mod 256 ^ len b) as ->.
  { rewrite <-(to_from_le b Hb) at 1. apply from_le_to_le. }
  apply Z.mod_pos_bound. apply Z.pow_pos_nonneg; [lia|apply len_nonneg].
Qed.

Lemma from_to_be n z : 0 ≤ z < 256 ^ Z.of_nat n → from_be (to_be n z) = z.
Proof. intros. unfold from_be, to_be. rewrite reverse_involutive. by apply from_to_le. Qed.

Lemma from_to_le2 z : u16 z → from_le (to_le 2 z) = z.
Proof. intros Hz. apply from_to_le. exact Hz. Qed.
Lemma from_to_le4 z : u32 z → from_le (to_le 4 z) = z.
Proof. intros Hz. apply from_to_le. exact Hz. Qed.
Lemma from_to_le8 z : u64 z → from_le (to_le 8 z) = z.
Proof. intros Hz. apply from_to_le. exact Hz. Qed.
Lemma from_to_be2 z : u16 z → from_be (to_be 2 z) = z.
Proof. intros Hz. apply from_to_be. exact Hz. Qed.
Lemma from_to_be4 z : u32 z → from_be (to_be 4 z) = z.
Proof. intros Hz. apply from_to_be. exact Hz. Qed.
Lemma from_to_be8 z : u64 z → from_be (to_be 8 z) = z.
Proof. intros Hz. apply from_to_be. exact Hz. Qed.

Lemma from_le_u16 b : is_bytes b → len b = 2 → u16 (from_le b).
Proof. intros Hb Hl. pose proof (from_le_bound b Hb). by rewrite Hl in *. Qed.
Lemma from_le_u32 b : is_bytes b → len b = 4 → u32 (from_le b).
Proof. intros Hb Hl. pose proof (from_le_bound b Hb). by rewrite Hl in *. Qed.
Lemma from_le_u64 b : is_bytes b → len b = 8 → u64 (from_le b).
Proof. intros Hb Hl. pose proof (from_le_bound b Hb). by rewrite Hl in *. Qed.

Lemma to_from_le_slice n b : is_bytes b → len b = Z.of_nat n → to_le n (from_le b) = b.
Proof. unfold len. intros Hb Hl. apply Nat2Z.inj in Hl. subst n. by apply to_from_le. Qed.

#[global] Arguments to_le : simpl never.
#[global] Arguments from_le : simpl never.

(** *** Byte-ness of the list operations *)

Lemma is_bytes_zeros n : is_bytes (zeros n).
Proof. apply Forall_replicate. by unfold u8. Qed.
Lemma is_bytes_app a b : is_bytes (a ++ b) ↔ is_bytes a ∧ is_bytes b.
Proof. apply Forall_app. Qed.
Lemma is_bytes_slice b i j : is_bytes b → is_bytes (b.[i; j)).
Proof. intros. unfold slice. by apply Forall_take, Forall_drop. Qed.
Lemma is_bytes_copy_at l o s : is_bytes l → is_bytes s → is_bytes (copy_at l o s).
Proof.
  intros Hl Hs. apply Forall_app. split; [by apply Forall_take|].
  pose proof (Forall_drop _ (Z.to_nat o) _ Hl) as Hd. revert s Hs.
  induction Hd; intros [|y s] Hs; simpl; try done; [by constructor|].
  inversion_clear Hs. constructor; auto.
Qed.
#[export] Hint Resolve is_bytes_zeros is_bytes_slice is_bytes_copy_at to_le_bytes : dodb.

(** *** Lexicographic order *)

Lemma lex_cmp_refl a : lex_cmp a a = Eq.
Proof. induction a; simpl; rewrite ?Z.compare_refl; auto. Qed.

Lemma lex_cmp_eq a b : lex_cmp a b = Eq ↔ a = b.
Proof.
  split; [|intros ->; apply lex_cmp_refl].
  revert b. induction a as [|x a IH]; intros [|y b]; simpl; try done.
  destruct (Z.compare_spec x y) as [->| |]; try done. intros. f_equal. auto.
Qed.

Lemma lex_cmp_antisym a b : lex_cmp b a = CompOpp (lex_cmp a b).
Proof.
  revert b. induction a as [|x a IH]; intros [|y b]; simpl; try done.
  rewrite Z.compare_antisym. by destruct (x ?= y); simpl.
Qed.

Lemma lex_cmp_trans a b c : lex_cmp a b = Lt → lex_cmp b c = Lt → lex_cmp a c = Lt.
Proof.
  revert b c. induction a as [|x a IH]; intros [|y b] [|z c]; simpl; try done.
  intros H1 H2. destruct (Z.compare_spec x y), (Z.compare_spec y z), (Z.compare_spec x z);
    try done; try lia; eauto.
Qed.

#[global] Instance bytes_lt_strict : StrictOrder bytes_lt.
Proof.
  split.
  - intros a. unfold complement, bytes_lt. by rewrite lex_cmp_refl.
  - intros a b c. apply lex_cmp_trans.
Qed.

#[global] Instance bytes_lt_dec : RelDecision bytes_lt.
Proof. intros a b. unfold bytes_lt. apply _. Defined.

Lemma bytes_ltb_spec a b : bytes_ltb a b = true ↔ bytes_lt a b.
Proof. unfold bytes_ltb, bytes_lt. by destruct (lex_cmp a b). Qed.
Lemma bytes_ltb_false a b : bytes_ltb a b = false ↔ ¬ bytes_lt a b.
Proof. rewrite <-bytes_ltb_spec. by destruct (bytes_ltb a b). Qed.

Lemma bytes_leb_ltb a b : bytes_leb a b = negb (bytes_ltb b a).
Proof. unfold bytes_leb, bytes_ltb. rewrite (lex_cmp_antisym a b). by destruct (lex_cmp a b). Qed.

Lemma bytes_lt_total a b : bytes_lt a b ∨ a = b ∨ bytes_lt b a.
Proof.
  unfold bytes_lt. rewrite (lex_cmp_antisym a b).
  destruct (lex_cmp a b) eqn:E; [|by left|by right; right].
  right; left. by apply lex_cmp_eq.
Qed.

Lemma bytes_leb_spec a b : bytes_leb a b = true ↔ bytes_lt a b ∨ a = b.
Proof.
  unfold bytes_leb, bytes_lt. rewrite <-lex_cmp_eq. destruct (lex_cmp a b); naive_solver.
Qed.
Lemma bytes_leb_false a b : bytes_leb a b = false ↔ bytes_lt b a.
Proof. rewrite bytes_leb_ltb, negb_false_iff. apply bytes_ltb_spec. Qed.

Lemma bytes_eqb_spec a b : bytes_eqb a b = true ↔ a = b.
Proof. unfold bytes_eqb. apply bool_decide_eq_true. Qed.

(** ** Ordered maps and sets

    A [BTreeMap<PageId, _>] or [BTreeSet<PageId>] is a finite map or set over [Z];
    iterating over it visits the identifiers in ascending order. *)

Definition id_le {A} (x y : Z * A) : Prop := x.1 ≤ y.1.
#[global] Instance id_le_dec {A} : RelDecision (@id_le A).
Proof. intros x y. unfold id_le. apply _. Defined.
#[global] Instance id_le_trans {A} : Transitive (@id_le A).
Proof. intros x y z. unfold id_le. lia. Qed.
#[global] Instance id_le_total {A} : Total (@id_le A).
Proof. intros x y. unfold id_le. lia. Qed.

Definition map_iter {A} (m : gmap Z A) : list (Z * A) := merge_sort id_le (map_to_list m).
Definition set_iter (s : gset Z) : list Z := merge_sort Z.le (elements s).

Lemma elem_of_map_iter {A} (m : gmap Z A) k x : (k, x) ∈ map_iter m ↔ m !! k = Some x.
Proof. unfold map_iter. by rewrite merge_sort_Permutation, elem_of_map_to_list. Qed.
Lemma elem_of_set_iter s k : k ∈ set_iter s ↔ k ∈ s.
Proof. unfold set_iter. by rewrite merge_sort_Permutation, elem_of_elements. Qed.
Lemma map_iter_Sorted {A} (m : gmap Z A) : Sorted id_le (map_iter m).
Proof. apply Sorted_merge_sort, _. Qed.
Lemma NoDup_set_iter s : NoDup (set_iter s).
Proof. unfold set_iter. rewrite merge_sort_Permutation. apply NoDup_elements. Qed.

(** *** Calls that return *)

Create HintDb returns.

Section returns.
Context {E : Type}.

Lemma returns_bind {A B} (m : Result E A) (f : A → Result E B) :
  returns m → (∀ a, m = Ok a → returns (f a)) → returns (m ≫= f).
Proof. destruct m; simpl; auto. Qed.
Lemma returns_fmap {A B} (m : Result E A) (f : A → B) : returns m → returns (f <$> m).
Proof. by destruct m. Qed.
Lemma returns_map_err {F A} (m : Result E A) (f : E → F) : returns m → returns (map_err f m).
Proof. by destruct m. Qed.
Lemma returns_fail_if b (e : E) : returns (fail_if b e).
Proof. by destruct b. Qed.
Lemma returns_ok_or {A} (o : option A) (e : E) : returns (ok_or o e).
Proof. by destruct o. Qed.
Lemma returns_index_range {A} (l : list A) a b :
  0 ≤ a → a ≤ b → b ≤ len l → returns (index_range (E:=E) l a b).
Proof. intros. by rewrite index_range_ok. Qed.
Lemma returns_index {A} (l : list A) i : 0 ≤ i < len l → returns (index (E:=E) l i).
Proof. intros (x & -> & _)%(index_in_range (E:=E)). done. Qed.
Lemma returns_not_stuck {A} (m : Result E A) s : returns m → m ≠ Stuck s.
Proof. by destruct m. Qed.
Lemma fail_if_Ok b (e : E) u : fail_if b e = Ok u → b = false.
Proof. by destruct b. Qed.
Lemma bind_Ok {A B} (m : Result E A) (f : A → Result E B) b :
  m ≫= f = Ok b ↔ ∃ a, m = Ok a ∧ f a = Ok b.
Proof. destruct m; simpl; naive_solver. Qed.
Lemma ok_or_Ok {A} (o : option A) (e : E) a : ok_or o e = Ok a ↔ o = Some a.
Proof. destruct o; simpl; naive_solver. Qed.
End returns.

#[export] Hint Resolve returns_fmap returns_map_err returns_fail_if returns_ok_or : returns.
#[export] Hint Resolve returns_index_range returns_index : returns.
#[export] Hint Extern 1 (_ ≤ _) => lia : returns.
#[export] Hint Extern 1 (_ ≤ _ < _) => lia : returns.

(** ** Automation

    [blen] solves arithmetic about lengths and layout constants, [bslice] reads
    slices out of a page written field by field, [bstep] runs a decoder whose
    reads are all in range. *)

#[export] Hint Rewrite @len_copy_at @len_app @len_cons @len_nil @len_reverse len_to_le len_to_be : blen.
#[export] Hint Rewrite len_zeros using lia : blen.
#[export] Hint Rewrite @len_slice using (unfold len in *; lia) : blen.

Ltac pose_len_nonneg :=
  repeat match goal with
  | |- context [len ?l] =>
      lazymatch goal with H : 0 ≤ len l |- _ => fail | _ => pose proof (len_nonneg l) end
  | H : context [len ?l] |- _ =>
      lazymatch goal with H : 0 ≤ len l |- _ => fail | _ => pose proof (len_nonneg l) end
  end.
Ltac blen :=
  autounfold with consts in *; autorewrite with blen in *; pose_len_nonneg; unfold_ints; lia.

Ltac bslice :=
  repeat match goal with
  | |- context [slice (copy_at ?l ?o ?s) ?a ?b] =>
      first [ rewrite (slice_copy_at_eq l o s a b) by blen
            | rewrite (slice_copy_at_ne l o s a b) by blen ]
  | |- context [slice (zeros ?n) ?a ?b] => rewrite (slice_zeros n a b) by blen
  end.

(** Reduces the error monad and nothing else. *)
Ltac rsimpl :=
  cbn [mbind mret fmap Result_bind Result_ret Result_fmap fail_if ok_or map_err negb andb orb fst snd].

(** Splits the equality tests on naturals, integers and decidable propositions
    that a guard is made of. *)
Ltac split_guard :=
  match goal with
  | |- context [?a =? ?b] => destruct (Z.eqb_spec a b)
  | |- context [?a <=? ?b] => destruct (Z.leb_spec a b)
  | |- context [?a <? ?b] => destruct (Z.ltb_spec a b)
  | |- context [bool_decide ?P] => destruct (bool_decide_reflect P)
  end.
