(* ===== verification/Wp.v ===== *)
(** * Total-correctness reasoning about the state-and-error monad

    [wp m Q X s] says that running [m] from [s] returns: either with a value and a
    state in [Q], or with an error and a state in [X].  A panic or an exhausted
    fuel satisfies no [wp]. *)

From S2P Require Import Prelude.

Definition wp {S E A} (m : St S E A) (Q : A → S → Prop) (X : E → S → Prop) (s : S) : Prop :=
  match m s with
  | (Ok a, s') => Q a s'
  | (Err e, s') => X e s'
  | (Stuck _, _) => False
  end.

(** No error is allowed. *)
Definition noerr {S E} : E → S → Prop := λ _ _, False.

Section wp.
Context {S E : Type}.
Implicit Types (s : S) (X : E → S → Prop).

Lemma wp_mono {A} (m : St S E A) (Q Q' : A → S → Prop) X X' s :
  wp m Q X s → (∀ a s', Q a s' → Q' a s') → (∀ e s', X e s' → X' e s') → wp m Q' X' s.
Proof. unfold wp. destruct (m s) as [[a|e|k] s']; auto. Qed.

(** Adds what is known of the outcome by other means. *)
Lemma wp_ok {A} (m : St S E A) (Q R : A → S → Prop) X s :
  wp m Q X s → (∀ a s', m s = (Ok a, s') → R a s') → wp m (λ a s', Q a s' ∧ R a s') X s.
Proof. unfold wp. destruct (m s) as [[a|e|k] s']; auto. Qed.

Lemma wp_bind {A B} (m : St S E A) (f : A → St S E B) Q X s :
  wp m (λ a s', wp (f a) Q X s') X s → wp (m ≫= f) Q X s.
Proof. unfold wp, mbind, St_bind. by destruct (m s) as [[a|e|k] s']. Qed.

Lemma wp_unbind {A B} (m : St S E A) (f : A → St S E B) Q X s :
  wp (m ≫= f) Q X s → wp m (λ a s', wp (f a) Q X s') X s.
Proof. unfold wp, mbind, St_bind. by destruct (m s) as [[a|e|k] s']. Qed.

Lemma wp_ret {A} (a : A) (Q : A → S → Prop) X s : Q a s → wp (mret a) Q X s.
Proof. done. Qed.

Lemma wp_get (Q : S → S → Prop) X s : Q s s → wp get_st Q X s.
Proof. done. Qed.

Lemma wp_modify f (Q : unit → S → Prop) X s : Q tt (f s) → wp (modify_st f) Q X s.
Proof. done. Qed.

Lemma wp_lift {A} (r : Result E A) (Q : A → S → Prop) X s :
  match r with Ok a => Q a s | Err e => X e s | Stuck _ => False end → wp (lift_r r) Q X s.
Proof. unfold wp, lift_r. by destruct r. Qed.

Lemma wp_lift_ok {A} (r : Result E A) a (Q : A → S → Prop) X s :
  r = Ok a → Q a s → wp (lift_r r) Q X s.
Proof. by intros ->. Qed.

Lemma wp_throw {A} e (Q : A → S → Prop) X s : X e s → wp (throw e) Q X s.
Proof. done. Qed.

Lemma wp_fail_when b e (Q : unit → S → Prop) X s :
  (b = true → X e s) → (b = false → Q tt s) → wp (fail_when b e) Q X s.
Proof. unfold wp, fail_when, lift_r, fail_if. destruct b; auto. Qed.

Lemma wp_fmap {A B} (f : A → B) (m : St S E A) Q X s :
  wp m (λ a s', Q (f a) s') X s → wp (f <$> m) Q X s.
Proof. unfold wp, fmap, St_fmap. by destruct (m s) as [[a|e|k] s']. Qed.

Lemma wp_zoom {T A} (get : S → T) (put : T → S → S) (m : St T E A) Q X s :
  wp m (λ a t, Q a (put t s)) (λ e t, X e (put t s)) (get s) → wp (zoom get put m) Q X s.
Proof. unfold wp, zoom. by destruct (m (get s)) as [[a|e|k] t]. Qed.

(** An invariant carried through a [for] loop. *)
Lemma wp_for_each {A} (body : A → St S E unit) (I : list A → S → Prop) X l s :
  I l s → (∀ x l' s', I (x :: l') s' → wp (body x) (λ _ s'', I l' s'') X s') →
  wp (for_each body l) (λ _ s', I [] s') X s.
Proof.
  intros Hs Hbody. revert s Hs. induction l as [|x l IH]; intros s Hs; simpl; [done|].
  apply wp_bind. eapply wp_mono; [by apply Hbody| |done]. auto.
Qed.

(** [l.iter().map(f).collect()] with a relation between inputs and outputs. *)
Lemma wp_map_each {A B} (f : A → St S E B) (I : S → Prop) (R : A → B → Prop) X l s :
  I s → (∀ x s', x ∈ l → I s' → wp (f x) (λ y s'', R x y ∧ I s'') X s') →
  wp (map_each f l) (λ ys s', Forall2 R l ys ∧ I s') X s.
Proof.
  intros Hs Hf. revert s Hs Hf. induction l as [|x l IH]; intros s Hs Hf; simpl.
  { apply wp_ret. split; [constructor|done]. }
  apply wp_bind. eapply wp_mono; [apply Hf; [left|done]| |done]. intros y s1 [HR H1].
  apply wp_bind. eapply wp_mono; [apply IH; [done|]| |done].
  { intros. apply Hf; [by right|done]. }
  intros ys s2 [HF H2]. apply wp_ret. split; [by constructor|done].
Qed.
End wp.

#[global] Arguments wp : simpl never.

(** Runs a computation whose first step is one of the primitive operations. *)
Ltac wp_step :=
  lazymatch goal with
  | |- wp (mbind _ _) _ _ _ => apply wp_bind
  | |- wp (fmap _ _) _ _ _ => apply wp_fmap
  | |- wp (mret _) _ _ _ => apply wp_ret
  | |- wp get_st _ _ _ => apply wp_get
  | |- wp (modify_st _) _ _ _ => apply wp_modify
  | |- wp (throw _) _ _ _ => apply wp_throw
  | |- wp (zoom _ _ _) _ _ _ => apply wp_zoom
  end.
Ltac wp_steps := repeat (wp_step; cbv beta).

(** Uses the specification [H] of the computation at the head of the goal. *)
Ltac wp_use H := eapply wp_mono; [eapply H| |].
