(* ===== verification/Key.v ===== *)
(** * Document keys and their order-preserving codec

    Models src/crates/dodb-core/src/key.rs: the composite key [(pk, sk)], the
    escaped two-component encoding ([00 FF] for a zero byte, [00 00] as the
    terminator), its length, and the decoder with its four errors.  The theorems:
    the codec round-trips, accepts only canonical encodings, and turns the key
    order into bytewise lexicographic order, which is what lets the B+Tree
    compare encoded keys only. *)

From S2P Require Import Prelude.

Module Key.

Abbreviation PrimaryKey := bytes.
Abbreviation SortKey := bytes.

Record DocumentKey : Type := new { pk : PrimaryKey; sk : SortKey }.

#[global] Instance DocumentKey_eq_dec : EqDecision DocumentKey.
Proof. solve_decision. Defined.

#[global] Instance DocumentKey_countable : Countable DocumentKey.
Proof.
  apply (inj_countable' (λ k, (pk k, sk k)) (λ p, new p.1 p.2)). by intros [].
Defined.

(** The derived [Ord]: [pk] first, then [sk]. *)
Definition cmp (a b : DocumentKey) : comparison :=
  match lex_cmp (pk a) (pk b) with Eq => lex_cmp (sk a) (sk b) | c => c end.

Inductive KeyCodecError : Type :=
  | TruncatedEscape (offset : Z)
  | InvalidEscape (offset : Z) (byte : Z)
  | MissingComponent (offset : Z)
  | TrailingBytes (offset : Z).

Fixpoint encode_component (b : bytes) (output : bytes) : bytes :=
  match b with
  | [] => output ++ [0; 0]
  | byte :: b' =>
      encode_component b' (if byte =? 0 then output ++ [0; 255] else output ++ [byte])
  end.

Definition encoded_component_len (b : bytes) : Z :=
  len b + len (filter (λ x, x = 0) b) + 2.

(** The [while] loop of [decode_component]: [rest] is [encoded\[offset..\]] and
    [acc] the bytes pushed so far, last one first. *)
Fixpoint decode_loop (rest : bytes) (offset : Z) (acc : bytes)
    : Result KeyCodecError (bytes * Z) :=
  match rest with
  | [] => Err (TruncatedEscape offset)
  | byte :: rest' =>
      if negb (byte =? 0) then decode_loop rest' (offset + 1) (byte :: acc)
      else match rest' with
           | [] => Err (TruncatedEscape offset)
           | escape :: rest'' =>
               if escape =? 0 then Ok (reverse acc, offset + 2)
               else if escape =? 255 then decode_loop rest'' (offset + 2) (0 :: acc)
               else Err (InvalidEscape offset escape)
           end
  end.

Definition decode_component (encoded : bytes) (start : Z)
    : Result KeyCodecError (bytes * Z) :=
  if len encoded <=? start then Err (MissingComponent start)
  else decode_loop (drop (Z.to_nat start) encoded) start [].

Definition encode (k : DocumentKey) : bytes :=
  encode_component (sk k) (encode_component (pk k) []).

Definition encoded_len (k : DocumentKey) : Z :=
  encoded_component_len (pk k) + encoded_component_len (sk k).

Definition decode (encoded : bytes) : Result KeyCodecError DocumentKey :=
  '(p, next) ← decode_component encoded 0;
  '(s, end_) ← decode_component encoded next;
  fail_if (negb (end_ =? len encoded)) (TrailingBytes end_);;
  Ok (new p s).

(** A key whose components are byte strings. *)
Definition wf (k : DocumentKey) : Prop := is_bytes (pk k) ∧ is_bytes (sk k).

(** ** The escaped component *)

Definition escape (byte : Z) : bytes := if byte =? 0 then [0; 255] else [byte].
Definition enc (b : bytes) : bytes := flat_map escape b ++ [0; 0].

Lemma encode_component_enc b out : encode_component b out = out ++ enc b.
Proof.
  revert out. induction b as [|x b IH]; intros out; simpl; [done|].
  rewrite IH. unfold enc, escape. simpl. destruct (x =? 0); by rewrite <-!app_assoc.
Qed.

Lemma encode_enc k : encode k = enc (pk k) ++ enc (sk k).
Proof. unfold encode. by rewrite !encode_component_enc. Qed.

Lemma enc_cons x b : enc (x :: b) = escape x ++ enc b.
Proof. unfold enc. simpl. by rewrite <-app_assoc. Qed.

Lemma decode_loop_enc b r off acc :
  decode_loop (enc b ++ r) off acc = Ok (reverse acc ++ b, off + len (enc b)).
Proof.
  revert off acc. induction b as [|x b IH]; intros off acc.
  - simpl. by rewrite app_nil_r.
  - rewrite enc_cons. unfold escape. destruct (Z.eqb_spec x 0) as [->|Hx]; simpl.
    + rewrite IH. rewrite reverse_cons, <-app_assoc, !len_cons.
      f_equal. f_equal. lia.
    + rewrite (proj2 (Z.eqb_neq x 0) Hx). simpl.
      rewrite IH, reverse_cons, <-app_assoc, !len_cons. f_equal. f_equal. lia.
Qed.

Lemma decode_loop_Ok rest off acc b e :
  decode_loop rest off acc = Ok (b, e) →
  ∃ b' r, b = reverse acc ++ b' ∧ rest = enc b' ++ r ∧ e = off + len (enc b').
Proof.
  remember (length rest) as n eqn:Hn. revert rest off acc Hn.
  induction n as [n IH] using lt_wf_ind. intros [|x rest] off acc Hn; simpl; [done|].
  simpl in Hn. destruct (Z.eqb_spec x 0) as [->|Hx]; simpl.
  - destruct rest as [|y rest]; [done|]. simpl in Hn.
    destruct (Z.eqb_spec y 0) as [->|]; [|destruct (Z.eqb_spec y 255) as [->|]; [|done]].
    + intros [= <- <-]. exists [], rest. by rewrite app_nil_r.
    + intros (b' & r & -> & -> & ->)%(IH (length rest)); [|lia|done].
      exists (0 :: b'), r. rewrite enc_cons, reverse_cons, <-app_assoc, len_app.
      split_and!; [done..|]. change (len (escape 0)) with 2. lia.
  - intros (b' & r & -> & -> & ->)%(IH (length rest)); [|lia|done].
    exists (x :: b'), r. rewrite enc_cons, reverse_cons, <-app_assoc, len_app.
    unfold escape. rewrite (proj2 (Z.eqb_neq x 0) Hx). split_and!; [done..|].
    change (len [x]) with 1. lia.
Qed.

Lemma len_enc b : len (enc b) = encoded_component_len b.
Proof.
  unfold encoded_component_len. induction b as [|x b IH]; [done|].
  rewrite enc_cons, len_app, IH, filter_cons, len_cons. unfold escape.
  destruct (Z.eqb_spec x 0); case_decide; try done.
  - change (len [0; 255]) with 2. rewrite len_cons. lia.
  - change (len [x]) with 1. lia.
Qed.

Lemma len_enc_pos b : 2 ≤ len (enc b).
Proof. unfold enc. rewrite len_app. change (len [0; 0]) with 2. pose proof (len_nonneg (flat_map escape b)). lia. Qed.

Lemma is_bytes_enc b : is_bytes b → is_bytes (enc b).
Proof.
  unfold is_bytes. induction 1 as [|x b Hx Hb IH].
  - repeat apply Forall_cons_2; try apply Forall_nil; done.
  - rewrite enc_cons. apply Forall_app. split; [|done]. unfold escape.
    destruct (x =? 0); repeat apply Forall_cons_2; try apply Forall_nil; done.
Qed.

(** Comparing two encoded components followed by anything. *)
Lemma enc_cmp a b r1 r2 :
  is_bytes a → is_bytes b →
  lex_cmp (enc a ++ r1) (enc b ++ r2) =
  match lex_cmp a b with Eq => lex_cmp r1 r2 | c => c end.
Proof.
  intros Ha. revert b. induction Ha as [|x a Hx Ha IH]; intros b Hb;
    destruct Hb as [|y b Hy Hb]; unfold u8 in *.
  - done.
  - rewrite enc_cons. unfold escape. simpl. destruct (Z.eqb_spec y 0) as [->|]; [done|].
    simpl. destruct (Z.compare_spec 0 y); try done; lia.
  - rewrite enc_cons. unfold escape. simpl. destruct (Z.eqb_spec x 0) as [->|]; [done|].
    simpl. destruct (Z.compare_spec x 0); try done; lia.
  - rewrite !enc_cons. unfold escape.
    destruct (Z.eqb_spec x 0) as [->|], (Z.eqb_spec y 0) as [->|]; simpl.
    + by apply IH.
    + destruct (Z.compare_spec 0 y); try done; lia.
    + destruct (Z.compare_spec x 0); try done; lia.
    + destruct (x ?= y); [by apply IH|done..].
Qed.

Lemma decode_component_enc b r : decode_component (enc b ++ r) 0 = Ok (b, len (enc b)).
Proof.
  unfold decode_component. rewrite len_app, drop_0, decode_loop_enc.
  pose proof (len_enc_pos b). pose proof (len_nonneg r).
  by destruct (Z.leb_spec (len (enc b) + len r) 0); [lia|].
Qed.

Lemma decode_component_enc2 a b :
  decode_component (enc a ++ enc b) (len (enc a)) = Ok (b, len (enc a ++ enc b)).
Proof.
  unfold decode_component. rewrite len_app. pose proof (len_enc_pos b).
  destruct (Z.leb_spec (len (enc a) + len (enc b)) (len (enc a))); [lia|].
  unfold len at 1. rewrite Nat2Z.id, drop_app_length.
  rewrite <-(app_nil_r (enc b)) at 1. by rewrite decode_loop_enc.
Qed.

Lemma decode_encode k : decode (encode k) = Ok k.
Proof.
  rewrite encode_enc. unfold decode. rewrite decode_component_enc. simpl.
  rewrite decode_component_enc2. simpl. rewrite Z.eqb_refl. by destruct k.
Qed.

Lemma decode_Ok_encode e k : decode e = Ok k → encode k = e.
Proof.
  unfold decode. destruct (decode_component e 0) as [[p n]| |] eqn:E1; try done. simpl.
  destruct (decode_component e n) as [[s m]| |] eqn:E2; try done. simpl.
  destruct (Z.eqb_spec m (len e)) as [Hm|]; [|done]. simpl. intros [= <-].
  unfold decode_component in E1, E2.
  destruct (Z.leb_spec (len e) 0); [done|]. destruct (Z.leb_spec (len e) n); [done|].
  apply decode_loop_Ok in E1 as (p' & r & -> & He & ->). rewrite drop_0 in He.
  apply decode_loop_Ok in E2 as (s' & r' & -> & He' & ->). simpl in *.
  subst e. unfold len in He' at 1. rewrite Z.add_0_l, Nat2Z.id, drop_app_length in He'. subst r.
  rewrite !len_app in Hm. assert (len r' = 0) as ->%len_zero_nil by lia.
  by rewrite encode_enc, app_nil_r.
Qed.

Lemma decode_loop_returns rest off acc : returns (decode_loop rest off acc).
Proof.
  remember (length rest) as n eqn:Hn. revert rest off acc Hn.
  induction n as [n IH] using lt_wf_ind. intros [|x rest] off acc ->; simpl; [done|].
  destruct (x =? 0); simpl; [|by eapply IH; [|done]; simpl; lia].
  destruct rest as [|y rest]; [done|]. destruct (y =? 0); [done|].
  destruct (y =? 255); [|done]. by eapply IH; [|done]; simpl; lia.
Qed.

Lemma decode_returns e : returns (decode e).
Proof.
  assert (H : ∀ s, returns (decode_component e s)).
  { intros s. unfold decode_component. destruct (_ <=? _); [done|]. apply decode_loop_returns. }
  unfold decode. apply returns_bind; [done|]. intros [p n] _. apply returns_bind; [done|].
  intros [q m] _. apply returns_bind; [auto with returns|done].
Qed.
#[global] Hint Resolve decode_returns : returns.

Lemma encode_inj a b : encode a = encode b → a = b.
Proof. intros H. pose proof (decode_encode a) as Ha. rewrite H, decode_encode in Ha. by inversion Ha. Qed.

Lemma is_bytes_encode k : wf k → is_bytes (encode k).
Proof. intros [Hp Hs]. rewrite encode_enc. apply is_bytes_app. split; by apply is_bytes_enc. Qed.

Lemma encode_cmp a b : wf a → wf b → lex_cmp (encode a) (encode b) = cmp a b.
Proof.
  intros [Ha Hsa] [Hb Hsb]. rewrite !encode_enc, enc_cmp by done. unfold cmp.
  destruct (lex_cmp (pk a) (pk b)); [|done..].
  rewrite <-(app_nil_r (enc (sk a))), <-(app_nil_r (enc (sk b))), enc_cmp by done.
  by destruct (lex_cmp (sk a) (sk b)).
Qed.

(** ** Properties *)

(** Decoding the canonical encoding of any document key gives the key back,
    for arbitrary binary components, empty ones included. *)
Theorem decode_encode_roundtrip k : decode (encode k) = Ok k.
Proof. apply decode_encode. Qed.

(** C40: the encoding preserves order: bytewise lexicographic comparison of two
    encoded keys is the [(pk, sk)] comparison of the keys. *)
Theorem encode_preserves_order a b :
  wf a → wf b → lex_cmp (encode a) (encode b) = cmp a b.
Proof. apply encode_cmp. Qed.

Lemma encode_preserves_order_witness :
  lex_cmp (encode (new [0; 1] [])) (encode (new [0] [255])) = Gt.
Proof.
  rewrite encode_preserves_order.
  - reflexivity.
  - split; repeat apply Forall_cons_2; try apply Forall_nil; done.
  - split; repeat apply Forall_cons_2; try apply Forall_nil; done.
Defined.

(** The decoder accepts nothing but canonical encodings: a byte string that
    decodes to a key is that key's encoding, so no two strings name one key. *)
Theorem decode_canonical e k : decode e = Ok k → encode k = e.
Proof. apply decode_Ok_encode. Qed.

Lemma decode_canonical_witness : encode (new [0; 7] [9]) = [0; 255; 7; 0; 0; 9; 0; 0].
Proof. apply decode_canonical. reflexivity. Defined.

(** The length computed without allocating is the length of the encoding. *)
Lemma encoded_len_correct k : encoded_len k = len (encode k).
Proof. rewrite encode_enc, len_app, !len_enc. done. Qed.

End Key.
