(* ===== verification/Core.v ===== *)
(** * Semantic contracts: identifiers, errors, revisions and transactions

    Models src/crates/dodb-core/src/{identifiers,error,revision,transaction}.rs.
    The seven identifier newtypes over [u64] are [Z] under their own names.  The
    error enum has the source's twelve constructors; a message built with
    [format!] is kept as its literal, placeholders included.  [BTreeMap]s and
    [BTreeSet]s are finite maps and sets, listed in key order where the source
    iterates over them. *)

From S2P Require Import Prelude Key.

Module Core.

Abbreviation TenantId := Z.
Abbreviation ShardId := Z.
Abbreviation ShardEpoch := Z.
Abbreviation PageId := Z.
Abbreviation Lsn := Z.
Abbreviation TxnId := Z.
Abbreviation Revision := Z.
Abbreviation DocumentKey := Key.DocumentKey.

(** [::ZERO] of every identifier. *)
Definition ZERO : Z := 0.

(** ** Revision states *)

Inductive RevisionState : Type :=
  | Present (value : bytes) (revision : Revision)
  | Missing (revision : Revision).

Inductive ObservedState : Type :=
  | ObservedPresent (revision : Revision)
  | ObservedMissing (revision : Revision).

Definition observed_revision (s : ObservedState) : Revision :=
  match s with ObservedPresent r | ObservedMissing r => r end.
Definition observed_is_missing (s : ObservedState) : bool :=
  match s with ObservedMissing _ => true | _ => false end.

Definition revision (s : RevisionState) : Revision :=
  match s with Present _ r | Missing r => r end.
Definition value (s : RevisionState) : option bytes :=
  match s with Present v _ => Some v | Missing _ => None end.
Definition is_missing (s : RevisionState) : bool :=
  match s with Missing _ => true | _ => false end.
Definition observed (s : RevisionState) : ObservedState :=
  match s with
  | Present _ r => ObservedPresent r
  | Missing r => ObservedMissing r
  end.

(** [impl From<Lsn> for Revision]. *)
Definition Revision_from (lsn : Lsn) : Revision := lsn.

(** ** Transactions *)

Inductive WriteIntent : Type := WPut (v : bytes) | WDelete.

Inductive TransactionCondition : Type :=
  | RevisionEquals (key : DocumentKey) (expected_revision : Revision)
  | Exists (key : DocumentKey)
  | NotExists (key : DocumentKey).

Inductive ConditionExpectation : Type :=
  | ExpectRevisionEquals (r : Revision)
  | ExpectExists
  | ExpectNotExists.

Definition condition_key (c : TransactionCondition) : DocumentKey :=
  match c with RevisionEquals k _ | Exists k | NotExists k => k end.

Definition expectation (c : TransactionCondition) : ConditionExpectation :=
  match c with
  | RevisionEquals _ r => ExpectRevisionEquals r
  | Exists _ => ExpectExists
  | NotExists _ => ExpectNotExists
  end.

Inductive TransactionMutation : Type :=
  | Put (key : DocumentKey) (v : bytes)
  | Delete (key : DocumentKey).

Definition mutation_key (m : TransactionMutation) : DocumentKey :=
  match m with Put k _ | Delete k => k end.

Record TransactionRequest : Type := mkRequest {
  conditions : list TransactionCondition;
  mutations : list TransactionMutation;
}.

Record TransactionResult : Type := mkResult { commit_lsn : option Lsn }.

Record TransactionConflict : Type := mkConflict {
  conflict_key : DocumentKey;
  conflict_expected : ConditionExpectation;
  conflict_actual : ObservedState;
}.

(** ** Errors *)

Inductive ErrorKind : Type := UnexpectedEof | WriteZero | OtherKind (name : string).

Inductive Error : Type :=
  | InvalidInput (m : string)
  | InvalidRequest (m : string)
  | Overloaded (m : string)
  | ResponseTooLarge (m : string)
  | Conflict (c : TransactionConflict)
  | Corruption (m : string)
  | Io (kind : ErrorKind) (m : string)
  | UnsupportedFormat (m : string)
  | DurabilityFailure (m : string)
  | RecoveryFailure (m : string)
  | CheckpointFailure (m : string)
  | InternalInvariantViolation (m : string).

Abbreviation result := (Result Error).

(** [Display]. *)
Definition to_string (e : Error) : string :=
  match e with
  | InvalidInput m => "invalid input: " +:+ m
  | InvalidRequest m => "invalid request: " +:+ m
  | Overloaded m => "overloaded: " +:+ m
  | ResponseTooLarge m => "response too large: " +:+ m
  | Conflict _ => "conflict: key {:?}: expected {:?}, actual {:?}"
  | Corruption m => "corruption: " +:+ m
  | Io _ m => "I/O error: " +:+ m
  | UnsupportedFormat m => "unsupported format: " +:+ m
  | DurabilityFailure m => "durability failure: " +:+ m
  | RecoveryFailure m => "recovery failure: " +:+ m
  | CheckpointFailure m => "checkpoint failure: " +:+ m
  | InternalInvariantViolation m => "internal invariant violation: " +:+ m
  end.

(** ** Request validation *)

(** [for key in keys { if !set.insert(key) { return Err(invalid_request) } }]. *)
Fixpoint insert_all_distinct (seen : gset DocumentKey) (keys : list DocumentKey)
    (message : string) : result unit :=
  match keys with
  | [] => Ok tt
  | k :: keys' =>
      if decide (k ∈ seen) then Err (InvalidRequest message)
      else insert_all_distinct ({[k]} ∪ seen) keys' message
  end.

Definition validate (r : TransactionRequest) : result unit :=
  fail_if (bool_decide (conditions r = []) && bool_decide (mutations r = []))
    (InvalidRequest "a transaction must contain at least one condition or mutation");;
  insert_all_distinct ∅ (mutation_key <$> mutations r)
    "a transaction contains multiple mutations for one key";;
  insert_all_distinct ∅ (condition_key <$> conditions r)
    "a transaction contains multiple conditions for one key".

(** Whether a condition holds in an observed state: the [match] that the storage
    engine, the reference model and the local service all evaluate. *)
Definition condition_matches (c : TransactionCondition) (actual : ObservedState) : bool :=
  match c with
  | RevisionEquals _ expected => observed_revision actual =? expected
  | Exists _ => negb (observed_is_missing actual)
  | NotExists _ => observed_is_missing actual
  end.

(** ** Read and write sets of the interactive transaction helper *)

Definition ReadSet : Type := gmap DocumentKey Revision.
Definition WriteSet : Type := gmap DocumentKey WriteIntent.

Definition record (s : ReadSet) (key : DocumentKey) (r : Revision) : ReadSet :=
  match (s : gmap DocumentKey Revision) !! key with
  | Some _ => s
  | None => <[key := r]> (s : gmap DocumentKey Revision)
  end.
Definition read_get (s : ReadSet) (key : DocumentKey) : option Revision :=
  (s : gmap DocumentKey Revision) !! key.
Definition write_put (s : WriteSet) (key : DocumentKey) (v : bytes) : WriteSet :=
  <[key := WPut v]> (s : gmap DocumentKey WriteIntent).
Definition write_delete (s : WriteSet) (key : DocumentKey) : WriteSet :=
  <[key := WDelete]> (s : gmap DocumentKey WriteIntent).
Definition write_get (s : WriteSet) (key : DocumentKey) : option WriteIntent :=
  (s : gmap DocumentKey WriteIntent) !! key.

(** In-order iteration of a [BTreeMap] keyed by document keys. *)
Definition key_le (a b : DocumentKey) : Prop := Key.cmp a b ≠ Gt.
#[global] Instance key_le_dec : RelDecision key_le.
Proof. intros a b. unfold key_le. apply _. Defined.
Definition entry_le {A} (x y : DocumentKey * A) : Prop := key_le x.1 y.1.
#[global] Instance entry_le_dec {A} : RelDecision (@entry_le A).
Proof. intros a b. unfold entry_le. apply _. Defined.
Definition btree_iter {A} (m : gmap DocumentKey A) : list (DocumentKey * A) :=
  merge_sort entry_le (map_to_list m).

(** ** Lemmas *)

#[global] Instance RevisionState_eq_dec : EqDecision RevisionState.
Proof. solve_decision. Defined.
#[global] Instance ObservedState_eq_dec : EqDecision ObservedState.
Proof. solve_decision. Defined.
#[global] Instance TransactionMutation_eq_dec : EqDecision TransactionMutation.
Proof. solve_decision. Defined.
#[global] Instance TransactionCondition_eq_dec : EqDecision TransactionCondition.
Proof. solve_decision. Defined.

Lemma insert_all_distinct_Ok seen keys m :
  insert_all_distinct seen keys m = Ok tt ↔ NoDup keys ∧ ∀ k, k ∈ keys → k ∉ seen.
Proof.
  revert seen. induction keys as [|k keys IH]; intros seen; simpl.
  - split; [|done]. intros _. split; [constructor|]. by intros k ?%not_elem_of_nil.
  - case_decide as Hk.
    + split; [done|]. intros [_ H]. destruct (H k); [left|done].
    + rewrite IH, NoDup_cons. set_solver.
Qed.

Lemma validate_Ok r :
  validate r = Ok tt ↔
  ¬ (conditions r = [] ∧ mutations r = []) ∧
  NoDup (mutation_key <$> mutations r) ∧ NoDup (condition_key <$> conditions r).
Proof.
  unfold validate, fail_if.
  destruct (bool_decide (conditions r = []) && bool_decide (mutations r = [])) eqn:E.
  - apply andb_true_iff in E as [?%bool_decide_eq_true ?%bool_decide_eq_true]. simpl. naive_solver.
  - simpl. apply andb_false_iff in E. rewrite !bool_decide_eq_false in E.
    destruct (insert_all_distinct ∅ (mutation_key <$> mutations r) _) as [[]| |] eqn:E1; simpl.
    + apply insert_all_distinct_Ok in E1. rewrite insert_all_distinct_Ok. set_solver.
    + split; [done|]. intros (_ & Hn & _). exfalso.
      assert (H : insert_all_distinct ∅ (mutation_key <$> mutations r)
        "a transaction contains multiple mutations for one key" = Ok tt)
        by (apply insert_all_distinct_Ok; set_solver). congruence.
    + split; [done|]. intros (_ & Hn & _). exfalso.
      assert (H : insert_all_distinct ∅ (mutation_key <$> mutations r)
        "a transaction contains multiple mutations for one key" = Ok tt)
        by (apply insert_all_distinct_Ok; set_solver). congruence.
Qed.

Lemma insert_all_distinct_Err seen keys m r :
  insert_all_distinct seen keys m = r → r = Ok tt ∨ r = Err (InvalidRequest m).
Proof.
  revert seen. induction keys as [|k keys IH]; intros seen; simpl; [naive_solver|].
  case_decide; [naive_solver|]. apply IH.
Qed.

(** ** Properties *)

(** A request is accepted exactly when it has a condition or a mutation, no
    two mutations for one key and no two conditions for one key. *)
Lemma validate_spec r :
  validate r = Ok tt ↔
  ¬ (conditions r = [] ∧ mutations r = []) ∧
  NoDup (mutation_key <$> mutations r) ∧ NoDup (condition_key <$> conditions r).
Proof. apply validate_Ok. Qed.

End Core.
