(* ===== verification/Page.v ===== *)
(** * Fixed-size page codec

    Models src/crates/dodb-storage/src/page.rs: the 32-byte header, the CRC32C
    over the page with the checksum field zeroed, and the checked decoder.  The
    [crc32c] crate is not part of the repository: it is the operation of the
    class [Crc32c], and the only thing relied on is that it returns a [u32].
    Every slice the decoder takes is the panicking slice, so that the theorem
    that no input makes it panic says something. *)

From S2P Require Import Prelude Key Core.

(** The [crc32c::crc32c] function of the external crate. *)
Class Crc32c : Type := crc32c : bytes → Z.
Class Crc32cSpec (C : Crc32c) : Prop := crc32c_u32 : ∀ b, u32 (crc32c b).

(** CRC-32C (Castagnoli), reflected, as the crate documents it: the concrete
    function the witnesses instantiate the class with. *)
Module Castagnoli.
Fixpoint shift_bits (n : nat) (crc : Z) : Z :=
  match n with
  | O => crc
  | S n' =>
      shift_bits n' (if Z.testbit crc 0 then Z.lxor (Z.shiftr crc 1) 2197175160
                     else Z.shiftr crc 1)
  end.
Fixpoint update (crc : Z) (b : bytes) : Z :=
  match b with
  | [] => crc
  | x :: b' => update (shift_bits 8 (Z.lxor crc x)) b'
  end.
Definition crc (b : bytes) : Z := Z.lxor (update U32_MAX b) U32_MAX mod 2 ^ 32.
Definition instance : Crc32c := crc.
Lemma spec : Crc32cSpec instance.
Proof. intros b. unfold crc32c, instance, crc. split; apply Z.mod_pos_bound; lia. Qed.
End Castagnoli.

Module Page.
Import Core.

Definition PAGE_SIZE : Z := 4096.
Definition PAGE_HEADER_SIZE : Z := 32.
Definition PAGE_FORMAT_VERSION : Z := 1.
(** [*b"DBPG"]. *)
Definition PAGE_MAGIC : bytes := [68; 66; 80; 71].
Definition CHECKSUM_OFFSET : Z := 28.
#[export] Hint Unfold PAGE_SIZE PAGE_HEADER_SIZE PAGE_FORMAT_VERSION PAGE_MAGIC
  CHECKSUM_OFFSET : consts.

Inductive PageType : Type := Internal | Leaf | Overflow | Free | Test.
#[global] Instance PageType_eq_dec : EqDecision PageType.
Proof. solve_decision. Defined.

(** [page_type as u8]. *)
Definition page_type_code (t : PageType) : Z :=
  match t with Internal => 1 | Leaf => 2 | Overflow => 3 | Free => 4 | Test => 255 end.

Definition PageType_decode (v : Z) : result PageType :=
  if v =? 1 then Ok Internal
  else if v =? 2 then Ok Leaf
  else if v =? 3 then Ok Overflow
  else if v =? 4 then Ok Free
  else if v =? 255 then Ok Test
  else Err (UnsupportedFormat "unknown page type {other}").

Record PageHeader : Type := mkHeader {
  format_version : Z;
  page_type : PageType;
  page_id : PageId;
  page_lsn : Lsn;
  flags : Z;
  checksum : Z;
}.

Definition PageHeader_new (t : PageType) (id : PageId) (lsn : Lsn) : PageHeader :=
  mkHeader PAGE_FORMAT_VERSION t id lsn 0 0.

Record DecodedPage : Type := mkDecoded { header : PageHeader; body : bytes }.

Section codec.
Context `{C : Crc32c}.

Definition page_checksum (page : bytes) : Z :=
  crc32c (copy_at page CHECKSUM_OFFSET (zeros 4)).

Definition encode_page (h : PageHeader) (b : bytes) : result bytes :=
  fail_if (negb (format_version h =? PAGE_FORMAT_VERSION))
    (UnsupportedFormat "cannot encode page version {}");;
  fail_if (PAGE_SIZE - PAGE_HEADER_SIZE <? len b)
    (InvalidInput "page body is {} bytes, maximum is {}");;
  let page := zeros PAGE_SIZE in
  let page := copy_at page 0 PAGE_MAGIC in
  let page := copy_at page 4 (to_le 2 (format_version h)) in
  let page := copy_at page 6 [page_type_code (page_type h)] in
  let page := copy_at page 8 (to_le 8 (page_id h)) in
  let page := copy_at page 16 (to_le 8 (page_lsn h)) in
  let page := copy_at page 24 (to_le 4 (flags h)) in
  let page := copy_at page PAGE_HEADER_SIZE b in
  Ok (copy_at page CHECKSUM_OFFSET (to_le 4 (page_checksum page))).

Definition decode_page_at (b : bytes) (expected_page_id : option PageId) : result DecodedPage :=
  fail_if (negb (len b =? PAGE_SIZE)) (Corruption "page has {} bytes, expected {PAGE_SIZE}");;
  magic ← index_range b 0 4;
  fail_if (negb (bytes_eqb magic PAGE_MAGIC)) (Corruption "page magic mismatch");;
  version ← index_range b 4 6;
  let format_version := from_le version in
  fail_if (negb (format_version =? PAGE_FORMAT_VERSION))
    (UnsupportedFormat "page version {format_version}, supported {PAGE_FORMAT_VERSION}");;
  reserved ← index b 7;
  fail_if (negb (reserved =? 0)) (Corruption "page reserved byte is non-zero");;
  type_code ← index b 6;
  page_type ← PageType_decode type_code;
  id ← index_range b 8 16;
  let page_id := from_le id in
  match expected_page_id with
  | Some expected =>
      fail_if (negb (page_id =? expected))
        (Corruption "page id mismatch: encoded {}, expected {}")
  | None => Ok tt
  end;;
  lsn ← index_range b 16 24;
  flags ← index_range b 24 28;
  stored ← index_range b CHECKSUM_OFFSET (CHECKSUM_OFFSET + 4);
  let stored_checksum := from_le stored in
  fail_if (negb (stored_checksum =? page_checksum b))
    (Corruption "page checksum mismatch: stored {stored_checksum:#010x}, calculated {calculated_checksum:#010x}");;
  body ← index_range b PAGE_HEADER_SIZE (len b);
  Ok (mkDecoded
        (mkHeader format_version page_type page_id (from_le lsn) (from_le flags) stored_checksum)
        body).

Definition decode_page (b : bytes) : result DecodedPage := decode_page_at b None.

End codec.

(** Field values that fit their widths. *)
Definition wf_header (h : PageHeader) : Prop :=
  format_version h = PAGE_FORMAT_VERSION ∧ u64 (page_id h) ∧ u64 (page_lsn h) ∧ u32 (flags h).

Definition pad (b : bytes) : bytes := b ++ zeros (PAGE_SIZE - PAGE_HEADER_SIZE - len b).

(** ** Lemmas *)

Lemma PageType_decode_code t : PageType_decode (page_type_code t) = Ok t.
Proof. by destruct t. Qed.

Lemma PageType_decode_Ok v t : PageType_decode v = Ok t → v = page_type_code t.
Proof. unfold PageType_decode. repeat split_guard; try done; intros [= <-]; done. Qed.

Section proofs.
Context `{C : Crc32c} {CS : Crc32cSpec C}.
Implicit Types (h : PageHeader) (b p : bytes).

(** The page image before its checksum is filled in. *)
Definition image h b : bytes :=
  copy_at (copy_at (copy_at (copy_at (copy_at (copy_at (copy_at
    (zeros PAGE_SIZE) 0 PAGE_MAGIC)
    4 (to_le 2 (format_version h))) 6 [page_type_code (page_type h)])
    8 (to_le 8 (page_id h))) 16 (to_le 8 (page_lsn h))) 24 (to_le 4 (flags h)))
    PAGE_HEADER_SIZE b.

Definition sealed h b : bytes :=
  copy_at (image h b) CHECKSUM_OFFSET (to_le 4 (page_checksum (image h b))).

Lemma encode_page_eq h b :
  format_version h = PAGE_FORMAT_VERSION → len b ≤ PAGE_SIZE - PAGE_HEADER_SIZE →
  encode_page h b = Ok (sealed h b).
Proof.
  intros Hv Hb. unfold encode_page. rewrite Hv, Z.eqb_refl. simpl.
  destruct (Z.ltb_spec (PAGE_SIZE - PAGE_HEADER_SIZE) (len b)); [lia|]. simpl.
  unfold sealed, image. by rewrite Hv.
Qed.

Lemma encode_page_Ok h b p :
  encode_page h b = Ok p →
  p = sealed h b ∧ format_version h = PAGE_FORMAT_VERSION ∧ len b ≤ PAGE_SIZE - PAGE_HEADER_SIZE.
Proof.
  unfold encode_page, fail_if. repeat split_guard; simpl; try done. intros [= <-]. done.
Qed.

Lemma len_page_image h b : len (image h b) = PAGE_SIZE.
Proof. unfold image. blen. Qed.
Lemma len_sealed_page h b : len (sealed h b) = PAGE_SIZE.
Proof. unfold sealed. rewrite len_copy_at. apply len_page_image. Qed.

Lemma is_bytes_sealed_page h b : is_bytes b → is_bytes (sealed h b).
Proof.
  intros Hb. assert (is_bytes PAGE_MAGIC) by (repeat constructor; done).
  assert (is_bytes [page_type_code (page_type h)])
    by (constructor; [by destruct (page_type h)|constructor]).
  unfold sealed, image. auto 20 with dodb.
Qed.

(** Zeroing the checksum field of a sealed page gives back the image. *)
Lemma sealed_page_checksum h b :
  len b ≤ PAGE_SIZE - PAGE_HEADER_SIZE → page_checksum (sealed h b) = page_checksum (image h b).
Proof.
  intros Hb. unfold page_checksum. f_equal. unfold sealed. pose proof (len_page_image h b).
  apply copy_at_twice; blen.
Qed.

Lemma slice_sealed_body h b :
  len b ≤ PAGE_SIZE - PAGE_HEADER_SIZE → (sealed h b).[PAGE_HEADER_SIZE; PAGE_SIZE) = pad b.
Proof.
  intros Hb. unfold sealed, image.
  rewrite slice_copy_at_ne by blen.
  rewrite (slice_split _ PAGE_HEADER_SIZE (PAGE_HEADER_SIZE + len b)) by blen.
  rewrite slice_copy_at_eq by blen. unfold pad. f_equal.
  bslice. f_equal. blen.
Qed.

(** What a successful decode establishes, and that decoding always returns. *)
Lemma decode_page_at_inv b e :
  (∃ err, decode_page_at b e = Err err) ∨
  ∃ t, decode_page_at b e =
       Ok (mkDecoded (mkHeader PAGE_FORMAT_VERSION t (from_le (b.[8; 16))) (from_le (b.[16; 24)))
             (from_le (b.[24; 28))) (from_le (b.[28; 32)))) (b.[32; 4096))) ∧
       len b = PAGE_SIZE ∧ b.[0; 4) = PAGE_MAGIC ∧ from_le (b.[4; 6)) = PAGE_FORMAT_VERSION ∧
       b.[6; 7) = [page_type_code t] ∧ b.[7; 8) = [0] ∧
       from_le (b.[28; 32)) = page_checksum b ∧
       (∀ i, e = Some i → i = from_le (b.[8; 16))).
Proof.
  unfold decode_page_at, fail_if, CHECKSUM_OFFSET, PAGE_HEADER_SIZE.
  destruct (Z.eqb_spec (len b) PAGE_SIZE) as [Hl|]; simpl; [|eauto].
  unfold PAGE_SIZE in Hl. rewrite Hl, !index_range_ok by blen. simpl. unfold bytes_eqb.
  change (28 + 4) with 32.
  destruct (bool_decide_reflect (b.[0; 4) = PAGE_MAGIC)) as [Hm|]; simpl; [|eauto].
  destruct (Z.eqb_spec (from_le (b.[4; 6))) PAGE_FORMAT_VERSION) as [Hv|]; simpl; [|eauto].
  destruct (index_in_range (E:=Error) b 7) as (r & -> & Hr); [blen|]. simpl.
  destruct (Z.eqb_spec r 0) as [->|]; simpl; [|eauto].
  destruct (index_in_range (E:=Error) b 6) as (c & -> & Hc); [blen|]. simpl.
  destruct (PageType_decode c) as [t| |] eqn:Ht; simpl; [|eauto|]; last first.
  { unfold PageType_decode in Ht. by repeat case_match. }
  apply PageType_decode_Ok in Ht as ->.
  destruct (Z.eqb_spec (from_le (b.[28; 32))) (page_checksum b)) as [Hs|]; simpl.
  - destruct e as [i|]; [destruct (Z.eqb_spec (from_le (b.[8; 16))) i)|]; simpl; eauto;
      right; exists t; rewrite Hv; split_and!; try done; intros; by simplify_eq.
  - destruct e as [i|]; [destruct (Z.eqb_spec (from_le (b.[8; 16))) i)|]; simpl; eauto.
Qed.

Lemma decode_sealed_page h b e :
  wf_header h → len b ≤ PAGE_SIZE - PAGE_HEADER_SIZE → e = None ∨ e = Some (page_id h) →
  decode_page_at (sealed h b) e =
  Ok (mkDecoded (mkHeader (format_version h) (page_type h) (page_id h) (page_lsn h) (flags h)
        (page_checksum (image h b))) (pad b)).
Proof.
  intros (Hv & Hi & Hlsn & Hf) Hb He. pose proof (len_sealed_page h b) as Hl.
  unfold decode_page_at. rewrite Hl, Z.eqb_refl. rsimpl.
  rewrite !index_range_ok by blen. rsimpl.
  rewrite slice_sealed_body, sealed_page_checksum by done.
  rewrite (index_ok _ 7 0), (index_ok _ 6 (page_type_code (page_type h)));
    [|lia|unfold sealed, image; by bslice|lia|unfold sealed, image; by bslice].
  pose proof (crc32c_u32 (copy_at (image h b) CHECKSUM_OFFSET (zeros 4))).
  unfold sealed, image. bslice. rsimpl.
  rewrite from_to_le2, from_to_le8, from_to_le8, !from_to_le4 by (done || by rewrite Hv).
  rewrite Hv, Z.eqb_refl. rsimpl. rewrite PageType_decode_code. rsimpl.
  destruct He as [-> | ->]; rsimpl; rewrite ?Z.eqb_refl; done.
Qed.

(** A page that decodes is the sealed image of what it decodes to. *)
Lemma page_canonical b e d :
  is_bytes b → decode_page_at b e = Ok d → sealed (header d) (body d) = b.
Proof.
  intros Hb. destruct (decode_page_at_inv b e) as [[err ->]|(t & -> & Hl & Hm & Hv & Ht & Hr & Hs & _)];
    [done|intros [= <-]]. simpl.
  assert (Him : image (mkHeader PAGE_FORMAT_VERSION t (from_le (b.[8; 16))) (from_le (b.[16; 24)))
             (from_le (b.[24; 28))) (from_le (b.[28; 32)))) (b.[32; 4096)) =
          copy_at b CHECKSUM_OFFSET (zeros 4)).
  { apply eq_by_slices; [rewrite len_page_image, len_copy_at; done|].
    rewrite len_page_image. unfold PAGE_SIZE in *. unfold image. simpl.
    assert (len (b.[32; 4096)) = 4064) by blen.
    rewrite !to_from_le_slice by (auto with dodb; blen).
    apply (slices_eq _ _ 0 4); [lia..|by bslice|].
    apply (slices_eq _ _ 4 6); [lia..|bslice; rewrite <-Hv; apply to_from_le_slice; [auto with dodb|blen]|].
    apply (slices_eq _ _ 6 7); [lia..|by bslice|].
    apply (slices_eq _ _ 7 8); [lia..|by bslice|].
    apply (slices_eq _ _ 8 16); [lia..|by bslice|].
    apply (slices_eq _ _ 16 24); [lia..|by bslice|].
    apply (slices_eq _ _ 24 28); [lia..|by bslice|].
    apply (slices_eq _ _ 28 32); [lia..|by bslice|]. by bslice. }
  unfold sealed. rewrite Him. unfold page_checksum.
  rewrite (copy_at_twice b CHECKSUM_OFFSET (zeros 4) (zeros 4)) by blen.
  change (crc32c (copy_at b CHECKSUM_OFFSET (zeros 4))) with (page_checksum b).
  rewrite <-Hs, to_from_le_slice by (auto with dodb; blen).
  rewrite copy_at_twice by (autorewrite with blen; blen). apply copy_at_id; blen.
Qed.

Lemma encode_of_decoded b e d :
  is_bytes b → decode_page_at b e = Ok d → encode_page (header d) (body d) = Ok b.
Proof.
  intros Hb Hd. rewrite encode_page_eq.
  - f_equal. by eapply page_canonical.
  - by destruct (decode_page_at_inv b e) as [[err E]|(t & E & _)]; rewrite E in Hd; inversion Hd.
  - destruct (decode_page_at_inv b e) as [[err E]|(t & E & Hl & _)]; rewrite E in Hd; inversion Hd.
    simpl. blen.
Qed.

(** ** Properties *)

(** An encoded page decodes, in its own slot or without a slot check, to the
    header that was encoded (with the calculated checksum) and the body padded
    with zeros to 4064 bytes. *)
Theorem page_roundtrip h b p e :
  wf_header h → encode_page h b = Ok p → e = None ∨ e = Some (page_id h) →
  decode_page_at p e =
  Ok (mkDecoded (mkHeader (format_version h) (page_type h) (page_id h) (page_lsn h) (flags h)
        (page_checksum p)) (pad b)).
Proof.
  intros Hh (-> & _ & Hb)%encode_page_Ok He. rewrite sealed_page_checksum by done.
  by apply decode_sealed_page.
Qed.

(** The decoder accepts only images the encoder produces: re-encoding what a
    page decoded to gives back the same 4096 bytes, so a page whose bytes are not
    an encoder image is never accepted. *)
Theorem page_decode_sound b e d :
  is_bytes b → decode_page_at b e = Ok d →
  encode_page (header d) (body d) = Ok b ∧ (∀ i, e = Some i → page_id (header d) = i).
Proof.
  intros Hb Hd. split; [by eapply encode_of_decoded|]. intros i ->.
  destruct (decode_page_at_inv b (Some i)) as [[err E]|(t & E & H)]; rewrite E in Hd; inversion Hd.
  symmetry. by apply H.
Qed.

(** No byte string makes the page decoder panic or diverge: it returns a page
    or an error. *)
Lemma page_decode_total b e s : decode_page_at b e ≠ Stuck s.
Proof. by destruct (decode_page_at_inv b e) as [[err ->]|(t & -> & _)]. Qed.

End proofs.

Lemma page_roundtrip_witness :
  let C := Castagnoli.instance in
  ∃ p, encode_page (PageHeader_new Leaf 7 42) [98; 111; 100; 121] = Ok p ∧
       is_ok (decode_page_at p (Some 7)) = true.
Proof.
  intros C. eexists. split; [apply encode_page_eq; [done|vm_compute; discriminate]|].
  rewrite (page_roundtrip (CS:=Castagnoli.spec) (PageHeader_new Leaf 7 42) [98; 111; 100; 121]).
  - reflexivity.
  - split_and!; vm_compute; split; congruence.
  - apply encode_page_eq; [done|vm_compute; discriminate].
  - by right.
Defined.

Lemma page_decode_sound_witness :
  let C := Castagnoli.instance in
  let p := sealed (PageHeader_new Test 3 9) [1; 2] in
  ∃ d, decode_page_at p None = Ok d ∧ encode_page (header d) (body d) = Ok p.
Proof.
  intros C p. assert (Hok : is_ok (decode_page_at p None) = true) by (vm_compute; reflexivity).
  destruct (decode_page_at p None) as [d| |] eqn:E; [|discriminate Hok..].
  exists d. split; [reflexivity|]. apply (page_decode_sound p None d); [|exact E].
  apply is_bytes_sealed_page. repeat constructor; done.
Defined.

End Page.
