(* ===== verification/Superblock.v ===== *)
(** * Double superblock codec and selection

    Models src/crates/dodb-storage/src/superblock.rs: the full-page superblock
    codec, the nullable page references ([u64::MAX] for [None]) and the choice
    between the two copies on open.  The theorems: the codec round-trips, accepts
    only its own images and never panics, and the choice returns the valid copy
    with the highest generation and never skips an unsupported format. *)

From S2P Require Import Prelude Key Core Page.

Module Superblock.
Import Core.

Definition SUPERBLOCK_FORMAT_VERSION : Z := 1.
(** [*b"DSBK"]. *)
Definition SUPERBLOCK_MAGIC : bytes := [68; 83; 66; 75].
Definition ROOT_OFFSET : Z := 58.
Definition FREE_LIST_OFFSET : Z := 66.
Definition HIGH_WATER_OFFSET : Z := 74.
Definition CHECKPOINT_OFFSET : Z := 82.
Definition CHECKSUM_OFFSET : Z := 90.
Definition NULL_PAGE_ID : Z := U64_MAX.
Abbreviation PAGE_SIZE := Page.PAGE_SIZE.
#[export] Hint Unfold SUPERBLOCK_FORMAT_VERSION SUPERBLOCK_MAGIC ROOT_OFFSET FREE_LIST_OFFSET
  HIGH_WATER_OFFSET CHECKPOINT_OFFSET CHECKSUM_OFFSET NULL_PAGE_ID Page.PAGE_SIZE : consts.

Record Superblock : Type := mkSuperblock {
  format_version : Z;
  generation : Z;
  database_uuid : bytes;
  tenant_id : TenantId;
  shard_id : ShardId;
  shard_epoch : ShardEpoch;
  page_size : Z;
  root_page_id : option PageId;
  free_list_head : option PageId;
  high_water_page_id : option PageId;
  checkpoint_lsn : Lsn;
  checksum : Z;
}.

#[global] Instance Superblock_eq_dec : EqDecision Superblock.
Proof. solve_decision. Defined.

(** [Superblock::new]. *)
Definition new (generation : Z) (uuid : bytes) (t : TenantId) (s : ShardId) (e : ShardEpoch)
    : Superblock :=
  mkSuperblock SUPERBLOCK_FORMAT_VERSION generation uuid t s e PAGE_SIZE None None None 0 0.

Inductive SuperblockSlot : Type := A | B.
#[global] Instance SuperblockSlot_eq_dec : EqDecision SuperblockSlot.
Proof. solve_decision. Defined.

Record SelectedSuperblock : Type := mkSelected { slot : SuperblockSlot; superblock : Superblock }.

Definition encode_page_id (p : option PageId) : Z :=
  match p with Some i => i | None => NULL_PAGE_ID end.
Definition decode_page_id (v : Z) : option PageId :=
  if negb (v =? NULL_PAGE_ID) then Some v else None.

Section codec.
Context `{C : Crc32c}.

Definition superblock_checksum (page : bytes) : Z :=
  crc32c (copy_at page CHECKSUM_OFFSET (zeros 4)).

Definition encode_superblock (s : Superblock) : result bytes :=
  fail_if (negb (format_version s =? SUPERBLOCK_FORMAT_VERSION))
    (UnsupportedFormat "cannot encode superblock version {}");;
  fail_if (negb (page_size s =? PAGE_SIZE))
    (InvalidInput "superblock page size is {}, expected {PAGE_SIZE}");;
  let page := zeros PAGE_SIZE in
  let page := copy_at page 0 SUPERBLOCK_MAGIC in
  let page := copy_at page 4 (to_le 2 (format_version s)) in
  let page := copy_at page 6 (to_le 8 (generation s)) in
  let page := copy_at page 14 (database_uuid s) in
  let page := copy_at page 30 (to_le 8 (tenant_id s)) in
  let page := copy_at page 38 (to_le 8 (shard_id s)) in
  let page := copy_at page 46 (to_le 8 (shard_epoch s)) in
  let page := copy_at page 54 (to_le 4 (page_size s)) in
  let page := copy_at page ROOT_OFFSET (to_le 8 (encode_page_id (root_page_id s))) in
  let page := copy_at page FREE_LIST_OFFSET (to_le 8 (encode_page_id (free_list_head s))) in
  let page := copy_at page HIGH_WATER_OFFSET (to_le 8 (encode_page_id (high_water_page_id s))) in
  let page := copy_at page CHECKPOINT_OFFSET (to_le 8 (checkpoint_lsn s)) in
  Ok (copy_at page CHECKSUM_OFFSET (to_le 4 (superblock_checksum page))).

Definition decode_superblock (b : bytes) : result Superblock :=
  fail_if (negb (len b =? PAGE_SIZE)) (Corruption "superblock has {} bytes, expected {PAGE_SIZE}");;
  magic ← index_range b 0 4;
  fail_if (negb (bytes_eqb magic SUPERBLOCK_MAGIC)) (Corruption "superblock magic mismatch");;
  version ← index_range b 4 6;
  let format_version := from_le version in
  fail_if (negb (format_version =? SUPERBLOCK_FORMAT_VERSION))
    (UnsupportedFormat "superblock version {format_version}, supported {SUPERBLOCK_FORMAT_VERSION}");;
  stored ← index_range b CHECKSUM_OFFSET (CHECKSUM_OFFSET + 4);
  let stored_checksum := from_le stored in
  fail_if (negb (stored_checksum =? superblock_checksum b))
    (Corruption "superblock checksum mismatch: stored {stored_checksum:#010x}, calculated {calculated_checksum:#010x}");;
  size ← index_range b 54 58;
  let page_size := from_le size in
  fail_if (negb (page_size =? PAGE_SIZE))
    (UnsupportedFormat "superblock page size {page_size}, supported {PAGE_SIZE}");;
  generation ← index_range b 6 14;
  uuid ← index_range b 14 30;
  tenant ← index_range b 30 38;
  shard ← index_range b 38 46;
  epoch ← index_range b 46 54;
  root ← index_range b ROOT_OFFSET (ROOT_OFFSET + 8);
  free ← index_range b FREE_LIST_OFFSET (FREE_LIST_OFFSET + 8);
  high ← index_range b HIGH_WATER_OFFSET (HIGH_WATER_OFFSET + 8);
  checkpoint ← index_range b CHECKPOINT_OFFSET (CHECKPOINT_OFFSET + 8);
  Ok (mkSuperblock format_version (from_le generation) uuid (from_le tenant) (from_le shard)
        (from_le epoch) page_size (decode_page_id (from_le root)) (decode_page_id (from_le free))
        (decode_page_id (from_le high)) (from_le checkpoint) stored_checksum).

Definition choose_superblock (slot_a slot_b : bytes) : result SelectedSuperblock :=
  match decode_superblock slot_a, decode_superblock slot_b with
  | Stuck k, _ | _, Stuck k => Stuck k
  | Err (UnsupportedFormat message), _ => Err (UnsupportedFormat message)
  | _, Err (UnsupportedFormat message) => Err (UnsupportedFormat message)
  | Ok s, Err _ => Ok (mkSelected A s)
  | Err _, Ok s => Ok (mkSelected B s)
  | Ok a, Ok b =>
      if generation b <=? generation a then Ok (mkSelected A a) else Ok (mkSelected B b)
  | Err _, Err _ => Err (Corruption "both superblock copies are invalid")
  end.

End codec.

(** A page reference that is not the null sentinel. *)
Definition wf_ref (p : option PageId) : Prop :=
  match p with Some i => 0 ≤ i < NULL_PAGE_ID | None => True end.

Definition wf (s : Superblock) : Prop :=
  format_version s = SUPERBLOCK_FORMAT_VERSION ∧ page_size s = PAGE_SIZE ∧
  u64 (generation s) ∧ is_bytes (database_uuid s) ∧ len (database_uuid s) = 16 ∧
  u64 (tenant_id s) ∧ u64 (shard_id s) ∧ u64 (shard_epoch s) ∧
  wf_ref (root_page_id s) ∧ wf_ref (free_list_head s) ∧ wf_ref (high_water_page_id s) ∧
  u64 (checkpoint_lsn s).

Definition with_checksum (s : Superblock) (c : Z) : Superblock :=
  mkSuperblock (format_version s) (generation s) (database_uuid s) (tenant_id s) (shard_id s)
    (shard_epoch s) (page_size s) (root_page_id s) (free_list_head s) (high_water_page_id s)
    (checkpoint_lsn s) c.

(** ** Lemmas *)

Lemma decode_encode_page_id p : wf_ref p → decode_page_id (encode_page_id p) = p.
Proof.
  unfold decode_page_id, encode_page_id. destruct p as [i|]; simpl; intros.
  - destruct (Z.eqb_spec i NULL_PAGE_ID); [lia|done].
  - done.
Qed.
Lemma encode_decode_page_id v : encode_page_id (decode_page_id v) = v.
Proof. unfold decode_page_id. by destruct (Z.eqb_spec v NULL_PAGE_ID). Qed.
Lemma encode_page_id_u64 p : wf_ref p → u64 (encode_page_id p).
Proof. destruct p; simpl; unfold NULL_PAGE_ID; ulia. Qed.
Lemma decode_page_id_wf v : u64 v → wf_ref (decode_page_id v).
Proof.
  unfold decode_page_id. destruct (Z.eqb_spec v NULL_PAGE_ID); simpl; unfold NULL_PAGE_ID in *; ulia.
Qed.

Section proofs.
Context `{C : Crc32c} {CS : Crc32cSpec C}.
Implicit Types (s : Superblock) (b p : bytes).

Definition image s : bytes :=
  let page := copy_at (zeros PAGE_SIZE) 0 SUPERBLOCK_MAGIC in
  let page := copy_at page 4 (to_le 2 (format_version s)) in
  let page := copy_at page 6 (to_le 8 (generation s)) in
  let page := copy_at page 14 (database_uuid s) in
  let page := copy_at page 30 (to_le 8 (tenant_id s)) in
  let page := copy_at page 38 (to_le 8 (shard_id s)) in
  let page := copy_at page 46 (to_le 8 (shard_epoch s)) in
  let page := copy_at page 54 (to_le 4 (page_size s)) in
  let page := copy_at page ROOT_OFFSET (to_le 8 (encode_page_id (root_page_id s))) in
  let page := copy_at page FREE_LIST_OFFSET (to_le 8 (encode_page_id (free_list_head s))) in
  let page := copy_at page HIGH_WATER_OFFSET (to_le 8 (encode_page_id (high_water_page_id s))) in
  copy_at page CHECKPOINT_OFFSET (to_le 8 (checkpoint_lsn s)).

Definition sealed s : bytes :=
  copy_at (image s) CHECKSUM_OFFSET (to_le 4 (superblock_checksum (image s))).

Lemma encode_superblock_eq s :
  format_version s = SUPERBLOCK_FORMAT_VERSION → page_size s = PAGE_SIZE →
  encode_superblock s = Ok (sealed s).
Proof.
  intros Hv Hp. unfold encode_superblock, sealed, image. by rewrite Hv, Hp, !Z.eqb_refl.
Qed.

Lemma encode_superblock_Ok s p :
  encode_superblock s = Ok p →
  p = sealed s ∧ format_version s = SUPERBLOCK_FORMAT_VERSION ∧ page_size s = PAGE_SIZE.
Proof.
  unfold encode_superblock. repeat split_guard; rsimpl; try done.
  intros [= <-]. done.
Qed.

Lemma len_superblock_image s : len (image s) = PAGE_SIZE.
Proof. unfold image. cbv zeta. rewrite !len_copy_at. by rewrite len_zeros by blen. Qed.
Lemma len_sealed_superblock s : len (sealed s) = PAGE_SIZE.
Proof. unfold sealed. rewrite len_copy_at. apply len_superblock_image. Qed.

Lemma sealed_superblock_checksum s : superblock_checksum (sealed s) = superblock_checksum (image s).
Proof.
  unfold superblock_checksum. f_equal. unfold sealed. pose proof (len_superblock_image s).
  apply copy_at_twice; blen.
Qed.

Lemma is_bytes_sealed_superblock s : wf s → is_bytes (sealed s).
Proof.
  intros (_ & _ & _ & Hu & _). assert (is_bytes SUPERBLOCK_MAGIC) by (repeat constructor; done).
  unfold sealed, image. cbv zeta. auto 30 with dodb.
Qed.

(** What a page that passes the decoder's checks decodes to. *)
Definition decoded b : Superblock :=
  mkSuperblock SUPERBLOCK_FORMAT_VERSION (from_le (b.[6; 14))) (b.[14; 30))
    (from_le (b.[30; 38))) (from_le (b.[38; 46))) (from_le (b.[46; 54))) PAGE_SIZE
    (decode_page_id (from_le (b.[58; 66)))) (decode_page_id (from_le (b.[66; 74))))
    (decode_page_id (from_le (b.[74; 82)))) (from_le (b.[82; 90))) (from_le (b.[90; 94))).

Definition passes b : Prop :=
  len b = PAGE_SIZE ∧ b.[0; 4) = SUPERBLOCK_MAGIC ∧
  from_le (b.[4; 6)) = SUPERBLOCK_FORMAT_VERSION ∧ from_le (b.[54; 58)) = PAGE_SIZE ∧
  from_le (b.[90; 94)) = superblock_checksum b.

Lemma decode_superblock_inv b :
  (∃ err, decode_superblock b = Err err) ∧ ¬ passes b ∨
  decode_superblock b = Ok (decoded b) ∧ passes b.
Proof.
  unfold decode_superblock, fail_if, passes.
  destruct (Z.eqb_spec (len b) PAGE_SIZE) as [Hl|]; rsimpl; [|naive_solver].
  rewrite !index_range_ok by blen. rsimpl. unfold bytes_eqb.
  destruct (bool_decide_reflect (b.[0; 4) = SUPERBLOCK_MAGIC)) as [Hm|]; rsimpl; [|naive_solver].
  destruct (Z.eqb_spec (from_le (b.[4; 6))) SUPERBLOCK_FORMAT_VERSION) as [Hv|]; rsimpl;
    [|naive_solver].
  change (CHECKSUM_OFFSET + 4) with 94. change CHECKSUM_OFFSET with 90.
  destruct (Z.eqb_spec (from_le (b.[90; 94))) (superblock_checksum b)) as [Hs|]; rsimpl;
    [|naive_solver].
  destruct (Z.eqb_spec (from_le (b.[54; 58))) PAGE_SIZE) as [Hp|]; rsimpl; [|naive_solver].
  right. split; [|done]. unfold decoded. by rewrite Hv, Hp.
Qed.

Lemma decode_passes b : passes b → decode_superblock b = Ok (decoded b).
Proof. intros Hp. by destruct (decode_superblock_inv b) as [[_ []]|[-> _]]. Qed.

Lemma image_fields s :
  len (database_uuid s) = 16 →
  ((image s).[0; 4) = SUPERBLOCK_MAGIC ∧ (image s).[4; 6) = to_le 2 (format_version s) ∧
   (image s).[6; 14) = to_le 8 (generation s) ∧ (image s).[14; 30) = database_uuid s ∧
   (image s).[30; 38) = to_le 8 (tenant_id s) ∧ (image s).[38; 46) = to_le 8 (shard_id s)) ∧
  ((image s).[46; 54) = to_le 8 (shard_epoch s) ∧ (image s).[54; 58) = to_le 4 (page_size s) ∧
   (image s).[58; 66) = to_le 8 (encode_page_id (root_page_id s)) ∧
   (image s).[66; 74) = to_le 8 (encode_page_id (free_list_head s)) ∧
   (image s).[74; 82) = to_le 8 (encode_page_id (high_water_page_id s)) ∧
   (image s).[82; 90) = to_le 8 (checkpoint_lsn s) ∧
   (image s).[90; 94) = zeros 4 ∧ (image s).[94; 4096) = zeros 4002).
Proof. intros Hu. unfold image. cbv zeta. split_and!; bslice; reflexivity. Qed.

Lemma sealed_slice s (i j : Z) :
  0 ≤ i → j ≤ 90 ∨ 94 ≤ i → (sealed s).[i; j) = (image s).[i; j).
Proof.
  intros. pose proof (len_superblock_image s). unfold sealed. apply slice_copy_at_ne; blen.
Qed.

Lemma sealed_stored s : (sealed s).[90; 94) = to_le 4 (superblock_checksum (image s)).
Proof. pose proof (len_superblock_image s). unfold sealed. apply slice_copy_at_eq; blen. Qed.

Lemma decode_sealed_superblock s :
  wf s → decode_superblock (sealed s) = Ok (with_checksum s (superblock_checksum (image s))).
Proof.
  intros (Hv & Hp & Hg & Hu & Hul & Ht & Hsh & He & Hr & Hf & Hh & Hc).
  pose proof (crc32c_u32 (copy_at (image s) CHECKSUM_OFFSET (zeros 4))) as Hcrc.
  destruct (image_fields s Hul) as [(F0 & F1 & F2 & F3 & F4 & F5) (F6 & F7 & F8 & F9 & F10 & F11 & _)].
  rewrite decode_passes.
  - unfold decoded, with_checksum. f_equal. rewrite !sealed_slice, sealed_stored by lia.
    rewrite F2, F3, F4, F5, F6, F8, F9, F10, F11, !from_to_le8, !from_to_le4
      by (done || by apply encode_page_id_u64).
    by rewrite !decode_encode_page_id, Hv, Hp by done.
  - unfold passes. rewrite !sealed_slice, sealed_stored, sealed_superblock_checksum, F0, F1, F7 by lia.
    split_and!; [apply len_sealed_superblock|done|..].
    + rewrite from_to_le2; [done|by rewrite Hv].
    + rewrite from_to_le4; [done|by rewrite Hp].
    + by apply from_to_le4.
Qed.

Lemma superblock_canonical b s :
  is_bytes b → decode_superblock b = Ok s →
  b.[94; 4096) = zeros 4002 →
  wf s ∧ sealed s = b.
Proof.
  intros Hb Hd Hz. destruct (decode_superblock_inv b) as [[[err E] _]|(E & Hl & Hm & Hv & Hp & Hs)];
    rewrite E in Hd; [done|]. injection Hd as <-. set (s := decoded b).
  assert (Hw : wf s).
  { unfold wf, s, decoded. cbn [format_version generation database_uuid tenant_id shard_id shard_epoch
      page_size root_page_id free_list_head high_water_page_id checkpoint_lsn].
    split_and!; try done; try apply decode_page_id_wf;
      try (apply from_le_u64; [auto with dodb|blen]); [auto with dodb|blen]. }
  split; [done|].
  assert (Hul : len (database_uuid s) = 16) by apply Hw. subst s.
  assert (Him : image (decoded b) = copy_at b CHECKSUM_OFFSET (zeros 4)).
  { pose proof (len_superblock_image (decoded b)) as Hli.
    destruct (image_fields (decoded b) Hul) as
      [(F0 & F1 & F2 & F3 & F4 & F5) (F6 & F7 & F8 & F9 & F10 & F11 & F12 & F13)].
    set (im := image (decoded b)) in *. clearbody im. clear Hw Hul E.
    unfold decoded in *. cbn [format_version generation database_uuid tenant_id shard_id
      shard_epoch page_size root_page_id free_list_head high_water_page_id checkpoint_lsn] in *.
    rewrite encode_decode_page_id in F8, F9, F10. rewrite <-Hv in F1. rewrite <-Hp in F7.
    rewrite to_from_le_slice in F1, F2, F4, F5, F6, F7, F8, F9, F10, F11 by (auto with dodb; blen).
    apply eq_by_slices; [rewrite Hli, len_copy_at; done|].
    rewrite Hli. change PAGE_SIZE with 4096. unfold CHECKSUM_OFFSET.
    apply (slices_eq _ _ 0 4); [lia..|rewrite F0; by bslice|].
    apply (slices_eq _ _ 4 6); [lia..|rewrite F1; by bslice|].
    apply (slices_eq _ _ 6 14); [lia..|rewrite F2; by bslice|].
    apply (slices_eq _ _ 14 30); [lia..|rewrite F3; by bslice|].
    apply (slices_eq _ _ 30 38); [lia..|rewrite F4; by bslice|].
    apply (slices_eq _ _ 38 46); [lia..|rewrite F5; by bslice|].
    apply (slices_eq _ _ 46 54); [lia..|rewrite F6; by bslice|].
    apply (slices_eq _ _ 54 58); [lia..|rewrite F7; by bslice|].
    apply (slices_eq _ _ 58 66); [lia..|rewrite F8; by bslice|].
    apply (slices_eq _ _ 66 74); [lia..|rewrite F9; by bslice|].
    apply (slices_eq _ _ 74 82); [lia..|rewrite F10; by bslice|].
    apply (slices_eq _ _ 82 90); [lia..|rewrite F11; by bslice|].
    apply (slices_eq _ _ 90 94); [lia..|rewrite F12; by bslice|].
    rewrite F13. bslice. by rewrite Hz. }
  unfold sealed. rewrite Him. unfold superblock_checksum.
  rewrite (copy_at_twice b CHECKSUM_OFFSET (zeros 4) (zeros 4)) by blen.
  change (crc32c (copy_at b CHECKSUM_OFFSET (zeros 4))) with (superblock_checksum b).
  rewrite <-Hs, to_from_le_slice by (auto with dodb; blen).
  rewrite copy_at_twice by blen. apply copy_at_id; blen.
Qed.

Lemma decode_superblock_not_stuck b k : decode_superblock b ≠ Stuck k.
Proof. by destruct (decode_superblock_inv b) as [[[err ->] _]|[-> _]]. Qed.

Lemma decode_encoded s p :
  wf s → encode_superblock s = Ok p →
  decode_superblock p = Ok (with_checksum s (superblock_checksum p)).
Proof.
  intros Hw (-> & _)%encode_superblock_Ok. rewrite sealed_superblock_checksum. by apply decode_sealed_superblock.
Qed.

(** ** Properties *)

Definition slot_bytes (slot_a slot_b : bytes) (sl : SuperblockSlot) : bytes :=
  match sl with A => slot_a | B => slot_b end.

(** An encoded superblock decodes to itself, its checksum field filled in,
    null page references included. *)
Theorem superblock_roundtrip s p :
  wf s → encode_superblock s = Ok p →
  decode_superblock p = Ok (with_checksum s (superblock_checksum p)).
Proof. apply decode_encoded. Qed.

(** The selected superblock is a valid copy, no valid copy has a higher
    generation, and neither copy has an unsupported format (such a copy is
    reported, never skipped). *)
Theorem choose_superblock_highest a b sel :
  choose_superblock a b = Ok sel →
  decode_superblock (slot_bytes a b (slot sel)) = Ok (superblock sel) ∧
  (∀ sl s, decode_superblock (slot_bytes a b sl) = Ok s → generation s ≤ generation (superblock sel)) ∧
  (∀ sl m, decode_superblock (slot_bytes a b sl) ≠ Err (UnsupportedFormat m)).
Proof.
  unfold choose_superblock.
  destruct (decode_superblock a) as [x|ea|] eqn:Ha, (decode_superblock b) as [y|eb|] eqn:Hb;
    try done; try (destruct ea; try done); try (destruct eb; try done);
    try (destruct (Z.leb_spec (generation y) (generation x)));
    intros [= <-]; simpl; (split; [done|]);
    (split; [intros [] s; simpl; rewrite ?Ha, ?Hb; intros [= <-]; lia|]);
    intros [] ?; simpl; rewrite ?Ha, ?Hb; done.
Qed.

(** Writing the next generation to the other slot is atomic: a complete
    write is selected, and a torn one, which decodes as corruption, leaves the
    old superblock selected, whichever slot holds it. *)
Theorem alternate_slot_write_atomic old p :
  wf old → encode_superblock old = Ok p →
  (∀ new q, wf new → encode_superblock new = Ok q → generation old < generation new →
     choose_superblock p q = Ok (mkSelected B (with_checksum new (superblock_checksum q))) ∧
     choose_superblock q p = Ok (mkSelected A (with_checksum new (superblock_checksum q)))) ∧
  (∀ torn m, decode_superblock torn = Err (Corruption m) →
     choose_superblock p torn = Ok (mkSelected A (with_checksum old (superblock_checksum p))) ∧
     choose_superblock torn p = Ok (mkSelected B (with_checksum old (superblock_checksum p)))).
Proof.
  intros Hw Hp. pose proof (decode_encoded _ _ Hw Hp) as Hd. unfold choose_superblock. split.
  - intros new q Hn Hq Hg. rewrite Hd, (decode_encoded _ _ Hn Hq). simpl.
    rewrite (proj2 (Z.leb_gt _ _) Hg), (proj2 (Z.leb_le _ _) (Z.lt_le_incl _ _ Hg)). done.
  - intros torn m Ht. by rewrite Hd, Ht.
Qed.

End proofs.

(** A concrete superblock for the witnesses. *)
Definition sample (g : Z) : Superblock :=
  mkSuperblock 1 g (zeros 16) 3 4 5 4096 (Some 8) None (Some 10) 11 0.

Lemma sample_wf g : u64 g → wf (sample g).
Proof.
  intros Hg. unfold wf, sample, wf_ref. cbn -[zeros is_bytes len u64].
  split_and!; try done; try ulia; try (unfold NULL_PAGE_ID; ulia).
  - apply is_bytes_zeros.
Qed.

Lemma superblock_roundtrip_witness :
  let C := Castagnoli.instance in
  ∃ p, encode_superblock (sample 7) = Ok p ∧ is_ok (decode_superblock p) = true.
Proof.
  intros C. exists (sealed (sample 7)). split; [by apply encode_superblock_eq|].
  rewrite (superblock_roundtrip (CS:=Castagnoli.spec) (sample 7)); [done| |].
  - apply sample_wf. ulia.
  - by apply encode_superblock_eq.
Defined.

Lemma choose_superblock_highest_witness :
  let C := Castagnoli.instance in
  ∃ sel, choose_superblock (sealed (sample 2)) (sealed (sample 1)) = Ok sel ∧
         decode_superblock (sealed (sample 2)) = Ok (superblock sel).
Proof.
  intros C. set (a := sealed (sample 2)). set (b := sealed (sample 1)).
  assert (Hok : (match choose_superblock a b with Ok sel => bool_decide (slot sel = A) | _ => false end)
                = true) by (vm_compute; reflexivity).
  destruct (choose_superblock a b) as [sel| |] eqn:E; [|discriminate Hok..].
  exists sel. split; [reflexivity|].
  pose proof (choose_superblock_highest a b sel E) as [Hd _].
  apply bool_decide_eq_true in Hok. rewrite Hok in Hd. exact Hd.
Defined.

Lemma alternate_slot_write_atomic_witness :
  let C := Castagnoli.instance in
  choose_superblock (sealed (sample 1)) (zeros 4096) =
  Ok (mkSelected A (with_checksum (sample 1) (superblock_checksum (sealed (sample 1))))).
Proof.
  intros C.
  refine (proj1 (proj2 (alternate_slot_write_atomic (CS:=Castagnoli.spec) (sample 1) _ _ _) _
    "superblock magic mismatch" _)).
  - apply sample_wf. ulia.
  - by apply encode_superblock_eq.
  - vm_compute. reflexivity.
Defined.

End Superblock.
