(* ===== verification/Format.v ===== *)
(** * B+Tree page bodies

    Models src/crates/dodb-storage/src/btree/format.rs: the four page bodies
    (leaf, internal, overflow, free), the slotted layout with its slot array
    growing upward and its records growing downward, and the checked decoders.
    The two slotted encoders run the same placement loop over different records;
    the loop is one definition, given the record encoder. *)

From S2P Require Import Prelude Key Core Page Superblock.

Module Format.
Import Core.

Definition BODY_SIZE : Z := Page.PAGE_SIZE - Page.PAGE_HEADER_SIZE.
Definition NULL_PAGE_ID : Z := U64_MAX.
Definition LAYOUT_VERSION : Z := 1.
Definition INLINE_VALUE_LIMIT : Z := 512.
Definition MAX_VALUE_SIZE : Z := 64 * 1024 * 1024.
Definition OVERFLOW_DATA_OFFSET : Z := 32.
Definition OVERFLOW_DATA_SIZE : Z := BODY_SIZE - OVERFLOW_DATA_OFFSET.
Definition div_ceil (a b : Z) : Z := (a + b - 1) / b.
Definition MAX_OVERFLOW_PAGES : Z := div_ceil MAX_VALUE_SIZE OVERFLOW_DATA_SIZE.
(** [*b"LEAF"], [*b"INTN"], [*b"OVFL"], [*b"FREE"]. *)
Definition LEAF_MAGIC : bytes := [76; 69; 65; 70].
Definition INTERNAL_MAGIC : bytes := [73; 78; 84; 78].
Definition OVERFLOW_MAGIC : bytes := [79; 86; 70; 76].
Definition FREE_MAGIC : bytes := [70; 82; 69; 69].
Definition LEAF_HEADER_SIZE : Z := 32.
Definition INTERNAL_HEADER_SIZE : Z := 32.
Definition SLOT_SIZE : Z := 8.
Definition LEAF_RECORD_HEADER_SIZE : Z := 32.
Definition INTERNAL_RECORD_HEADER_SIZE : Z := 12.
#[export] Hint Unfold BODY_SIZE NULL_PAGE_ID LAYOUT_VERSION INLINE_VALUE_LIMIT MAX_VALUE_SIZE
  OVERFLOW_DATA_OFFSET OVERFLOW_DATA_SIZE LEAF_MAGIC INTERNAL_MAGIC OVERFLOW_MAGIC FREE_MAGIC
  LEAF_HEADER_SIZE INTERNAL_HEADER_SIZE SLOT_SIZE LEAF_RECORD_HEADER_SIZE
  INTERNAL_RECORD_HEADER_SIZE Page.PAGE_SIZE Page.PAGE_HEADER_SIZE : consts.

Inductive ValueRef : Type :=
  | Inline (v : bytes)
  | OverflowRef (head : PageId) (length : Z).

Record LeafEntry : Type := mkLeafEntry {
  key : bytes;
  revision : Revision;
  value : option ValueRef;
}.

Record InternalEntry : Type := mkInternalEntry {
  separator : bytes;
  right_child : PageId;
}.

Inductive PageData : Type :=
  | Leaf (lsn : Lsn) (next_leaf : option PageId) (entries : list LeafEntry)
  | Internal (lsn : Lsn) (leftmost_child : PageId) (entries : list InternalEntry)
  | Overflow (lsn : Lsn) (next : option PageId) (total_length : Z) (chunk : bytes)
  | Free (lsn : Lsn) (next : option PageId).

#[global] Instance ValueRef_eq_dec : EqDecision ValueRef.
Proof. solve_decision. Defined.
#[global] Instance LeafEntry_eq_dec : EqDecision LeafEntry.
Proof. solve_decision. Defined.
#[global] Instance InternalEntry_eq_dec : EqDecision InternalEntry.
Proof. solve_decision. Defined.
#[global] Instance PageData_eq_dec : EqDecision PageData.
Proof. solve_decision. Defined.

Definition page_type (p : PageData) : Page.PageType :=
  match p with
  | Leaf _ _ _ => Page.Leaf
  | Internal _ _ _ => Page.Internal
  | Overflow _ _ _ _ => Page.Overflow
  | Free _ _ => Page.Free
  end.

Definition page_lsn (p : PageData) : Lsn :=
  match p with Leaf l _ _ | Internal l _ _ | Overflow l _ _ _ | Free l _ => l end.

Definition restamp (p : PageData) (provisional : Revision) (committed : Lsn) : PageData :=
  match p with
  | Leaf _ next entries =>
      Leaf committed next
        ((λ e, if revision e =? provisional
               then mkLeafEntry (key e) (Revision_from committed) (value e) else e) <$> entries)
  | Internal _ leftmost entries => Internal committed leftmost entries
  | Overflow _ next total chunk => Overflow committed next total chunk
  | Free _ next => Free committed next
  end.

(** ** Shared readers and checks *)

Definition encode_page_id := Superblock.encode_page_id.
Definition decode_page_id := Superblock.decode_page_id.

(** [read_array::<N>]: [bytes.get(offset..end)], so no panic. *)
Definition read_array (n : Z) (b : bytes) (offset : Z) : result bytes :=
  end_ ← ok_or (checked_add offset n) (Corruption "fixed-field offset overflows");
  if (offset <=? end_) && (end_ <=? len b) then Ok (b.[offset; end_))
  else Err (Corruption "fixed field is truncated").
Definition read_u16 (b : bytes) (offset : Z) : result Z := from_le <$> read_array 2 b offset.
Definition read_u64 (b : bytes) (offset : Z) : result Z := from_le <$> read_array 8 b offset.

Definition check_body_size (b : bytes) : result unit :=
  fail_if (negb (len b =? BODY_SIZE)) (Corruption "page body has {} bytes, expected {BODY_SIZE}").

Definition check_version (b : bytes) : result unit :=
  version ← read_u16 b 0;
  fail_if (negb (version =? LAYOUT_VERSION))
    (UnsupportedFormat "page layout version {version}, supported {LAYOUT_VERSION}").

Definition validate_slot_region (count slot_end records_start header_size body_len : Z)
    : result unit :=
  slots ← ok_or (checked_mul count SLOT_SIZE) (Corruption "slot count overflows");
  expected ← ok_or (checked_add header_size slots) (Corruption "slot count overflows");
  fail_if (negb (slot_end =? expected) || (records_start <? slot_end)
           || (body_len <? records_start) || (body_len <? slot_end))
    (Corruption "invalid slotted-page boundaries").

(** [ranges.sort_unstable()]: pairs in lexicographic order. *)
Definition range_le (a b : Z * Z) : Prop := a.1 < b.1 ∨ a.1 = b.1 ∧ a.2 ≤ b.2.
#[global] Instance range_le_dec : RelDecision range_le.
Proof. intros a b. unfold range_le. apply _. Defined.

(** [for pair in ranges.windows(2) { if pair[0].1 > pair[1].0 ... }]. *)
Fixpoint disjoint_windows (ranges : list (Z * Z)) : bool :=
  match ranges with
  | a :: ((b :: _) as rest) => (a.2 <=? b.1) && disjoint_windows rest
  | _ => true
  end.
Definition ensure_non_overlapping (ranges : list (Z * Z)) (kind : string) : result unit :=
  fail_if (negb (disjoint_windows (merge_sort range_le ranges)))
    (Corruption ("overlapping " +:+ kind)).

(** [windows(2)] with [pair[0].key >= pair[1].key]. *)
Fixpoint strictly_ordered (keys : list bytes) : bool :=
  match keys with
  | a :: ((b :: _) as rest) => bytes_ltb a b && strictly_ordered rest
  | _ => true
  end.
Definition ensure_sorted_leaf (entries : list LeafEntry) : result unit :=
  fail_if (negb (strictly_ordered (key <$> entries)))
    (Corruption "leaf keys are not strictly ordered").
Definition ensure_sorted_internal (entries : list InternalEntry) : result unit :=
  fail_if (negb (strictly_ordered (separator <$> entries)))
    (Corruption "internal separators are not strictly ordered").

(** ** Slotted placement *)

(** The [for entry in entries.iter().rev()] loop: [rev_entries] is the reversed
    slice; [slots] is the slot list in the entries' own order. *)
Fixpoint place_records {T} (encode_record : T → result bytes) (key_of : T → bytes)
    (message : string) (slot_bytes : Z) (rev_entries : list T)
    (body : bytes) (upper : Z) (slots : list (Z * Z * Z))
    : result (bytes * Z * list (Z * Z * Z)) :=
  match rev_entries with
  | [] => Ok (body, upper, slots)
  | entry :: rest =>
      record ← encode_record entry;
      upper' ← ok_or (checked_sub upper (len record)) (InvalidInput message);
      fail_if (upper' <? slot_bytes) (InvalidInput message);;
      place_records encode_record key_of message slot_bytes rest
        (copy_at body upper' record) upper' ((upper', len record, len (key_of entry)) :: slots)
  end.

(** [for (index, (offset, length, key_length)) in slots.into_iter().enumerate()]. *)
Fixpoint write_slots (body : bytes) (slot : Z) (slots : list (Z * Z * Z)) : bytes :=
  match slots with
  | [] => body
  | (offset, length, key_length) :: rest =>
      let body := copy_at body slot (to_le 2 (as_u16 offset)) in
      let body := copy_at body (slot + 2) (to_le 2 (as_u16 length)) in
      let body := copy_at body (slot + 4) (to_le 2 (as_u16 key_length)) in
      write_slots body (slot + SLOT_SIZE) rest
  end.

Definition slot_array_size (header count : Z) (message : string) : result Z :=
  slots ← ok_or (checked_mul count SLOT_SIZE) (InvalidInput message);
  ok_or (checked_add header slots) (InvalidInput message).

(** The slot loop of a slotted decoder, [for index in 0..count]: the slot's three
    fields, the record range check, the record itself.  It returns the entries and
    the record ranges. *)
Fixpoint decode_slots {T} (decode_record : bytes → Z → result T) (min_length : Z) (kind : string)
    (count : nat) (b : bytes) (slot records_start : Z) : result (list T * list (Z * Z)) :=
  match count with
  | O => Ok ([], [])
  | S count' =>
      offset ← read_u16 b slot;
      length ← read_u16 b (slot + 2);
      key_length ← read_u16 b (slot + 4);
      end_ ← ok_or (checked_add offset length) (Corruption (kind +:+ " record range overflows"));
      fail_if ((offset <? records_start) || (len b <? end_) || (length <? min_length))
        (Corruption (kind +:+ " record range is outside free space"));;
      record ← index_range b offset end_;
      entry ← decode_record record key_length;
      '(entries, ranges) ←
         decode_slots decode_record min_length kind count' b (slot + SLOT_SIZE) records_start;
      Ok (entry :: entries, (offset, end_) :: ranges)
  end.

(** ** Leaf pages *)

Definition encode_leaf_record (entry : LeafEntry) : result bytes :=
  fail_if (U16_MAX <? len (key entry)) (InvalidInput "encoded document key is too large");;
  map_err (λ _, InvalidInput "document key is not canonical: {error}") (Key.decode (key entry));;
  let '(flags, value_length, aux, inline) :=
    match value entry with
    | None => (0, 0, NULL_PAGE_ID, [])
    | Some (Inline v) => (1, len v, 0, v)
    | Some (OverflowRef head length) => (2, length, head, [])
    end in
  record_length ← ok_or (l ← checked_add LEAF_RECORD_HEADER_SIZE (len (key entry));
                          checked_add l (len inline))
                        (InvalidInput "leaf record size overflow");
  let record := zeros record_length in
  let record := copy_at record 0 (to_le 8 (revision entry)) in
  let record := copy_at record 8 (to_le 8 value_length) in
  let record := copy_at record 16 (to_le 8 aux) in
  let record := copy_at record 24 [flags] in
  let record := copy_at record 26 (to_le 2 (as_u16 (len (key entry)))) in
  let record := copy_at record LEAF_RECORD_HEADER_SIZE (key entry) in
  Ok (copy_at record (LEAF_RECORD_HEADER_SIZE + len (key entry)) inline).

Definition encode_leaf (next_leaf : option PageId) (entries : list LeafEntry) : result bytes :=
  slot_bytes ← slot_array_size LEAF_HEADER_SIZE (len entries) "leaf slot array size overflow";
  fail_if ((U16_MAX <? len entries) || (BODY_SIZE <? slot_bytes))
    (InvalidInput "too many entries for one leaf page");;
  ensure_sorted_leaf entries;;
  let body := zeros BODY_SIZE in
  let body := copy_at body 0 LEAF_MAGIC in
  let body := copy_at body 4 (to_le 2 LAYOUT_VERSION) in
  let body := copy_at body 6 (to_le 2 (as_u16 (len entries))) in
  let body := copy_at body 8 (to_le 2 (as_u16 slot_bytes)) in
  let body := copy_at body 12 (to_le 8 (encode_page_id next_leaf)) in
  '(body, upper, slots) ←
     place_records encode_leaf_record key "leaf records exceed page capacity" slot_bytes
       (reverse entries) body BODY_SIZE [];
  let body := copy_at body 10 (to_le 2 (as_u16 upper)) in
  Ok (write_slots body LEAF_HEADER_SIZE slots).

Definition leaf_fits (entries : list LeafEntry) : bool := is_ok (encode_leaf None entries).

Definition decode_leaf_value (b : bytes) (flags value_length aux key_end : Z)
    : result (option ValueRef) :=
  if flags =? 0 then
    fail_if (negb (value_length =? 0) || negb (aux =? NULL_PAGE_ID) || negb (len b =? key_end))
      (Corruption "invalid tombstone leaf record");;
    Ok None
  else if flags =? 1 then
    value_end ← ok_or (checked_add key_end value_length)
      (Corruption "inline value length overflows");
    fail_if (negb (value_end =? len b) || negb (aux =? 0))
      (Corruption "invalid inline leaf record");;
    v ← index_range b key_end value_end;
    Ok (Some (Inline v))
  else if flags =? 2 then
    fail_if (negb (len b =? key_end) || (aux =? NULL_PAGE_ID) || (value_length =? 0))
      (Corruption "invalid overflow leaf record");;
    Ok (Some (OverflowRef aux value_length))
  else Err (Corruption "unknown leaf value state {other}").

Definition decode_leaf_record (b : bytes) (slot_key_length : Z) : result LeafEntry :=
  revision ← read_u64 b 0;
  value_length ← read_u64 b 8;
  fail_if (MAX_VALUE_SIZE <? value_length) (Corruption "leaf value exceeds supported maximum");;
  aux ← read_u64 b 16;
  flags ← index b 24;
  reserved ← index b 25;
  reserved4 ← index_range b 28 32;
  fail_if (negb (reserved =? 0) || any_nonzero reserved4)
    (Corruption "leaf record reserved bytes are non-zero");;
  key_length ← read_u16 b 26;
  fail_if (negb (key_length =? slot_key_length))
    (Corruption "leaf slot key length does not match record");;
  key_end ← ok_or (checked_add LEAF_RECORD_HEADER_SIZE key_length)
    (Corruption "leaf key length overflows");
  fail_if (len b <? key_end) (Corruption "leaf key exceeds record");;
  key ← index_range b LEAF_RECORD_HEADER_SIZE key_end;
  map_err (λ _, Corruption "leaf key is not canonical: {error}") (Key.decode key);;
  value ← decode_leaf_value b flags value_length aux key_end;
  Ok (mkLeafEntry key revision value).

Definition decode_leaf (lsn : Lsn) (b : bytes) : result PageData :=
  check_body_size b;;
  magic ← index_range b 0 4;
  fail_if (negb (bytes_eqb magic LEAF_MAGIC)) (Corruption "leaf layout magic mismatch");;
  version ← index_range b 4 6;
  check_version version;;
  count ← read_u16 b 6;
  slot_end ← read_u16 b 8;
  records_start ← read_u16 b 10;
  next ← read_u64 b 12;
  reserved ← index_range b 20 32;
  fail_if (any_nonzero reserved) (Corruption "leaf reserved bytes are non-zero");;
  validate_slot_region count slot_end records_start LEAF_HEADER_SIZE (len b);;
  '(entries, ranges) ←
     decode_slots decode_leaf_record LEAF_RECORD_HEADER_SIZE "leaf" (Z.to_nat count) b
       LEAF_HEADER_SIZE records_start;
  ensure_non_overlapping ranges "leaf records";;
  ensure_sorted_leaf entries;;
  Ok (Leaf lsn (decode_page_id next) entries).

(** ** Internal pages *)

Definition encode_internal_record (entry : InternalEntry) : result bytes :=
  fail_if ((U16_MAX <? len (separator entry)) || (right_child entry <? 2))
    (InvalidInput "invalid internal entry");;
  map_err (λ _, InvalidInput "internal separator is not canonical: {error}")
    (Key.decode (separator entry));;
  record_length ← ok_or (checked_add INTERNAL_RECORD_HEADER_SIZE (len (separator entry)))
    (InvalidInput "internal record size overflow");
  let record := zeros record_length in
  let record := copy_at record 0 (to_le 2 (as_u16 (len (separator entry)))) in
  let record := copy_at record 4 (to_le 8 (right_child entry)) in
  Ok (copy_at record INTERNAL_RECORD_HEADER_SIZE (separator entry)).

Definition encode_internal (leftmost_child : PageId) (entries : list InternalEntry)
    : result bytes :=
  fail_if (leftmost_child <? 2) (InvalidInput "internal leftmost child is invalid");;
  slot_bytes ← slot_array_size INTERNAL_HEADER_SIZE (len entries)
    "internal slot array size overflow";
  fail_if ((U16_MAX <? len entries) || (BODY_SIZE <? slot_bytes))
    (InvalidInput "too many entries for one internal page");;
  ensure_sorted_internal entries;;
  let body := zeros BODY_SIZE in
  let body := copy_at body 0 INTERNAL_MAGIC in
  let body := copy_at body 4 (to_le 2 LAYOUT_VERSION) in
  let body := copy_at body 6 (to_le 2 (as_u16 (len entries))) in
  let body := copy_at body 8 (to_le 2 (as_u16 slot_bytes)) in
  let body := copy_at body 12 (to_le 8 leftmost_child) in
  '(body, upper, slots) ←
     place_records encode_internal_record separator "internal records exceed page capacity"
       slot_bytes (reverse entries) body BODY_SIZE [];
  let body := copy_at body 10 (to_le 2 (as_u16 upper)) in
  Ok (write_slots body INTERNAL_HEADER_SIZE slots).

Definition internal_fits (leftmost_child : PageId) (entries : list InternalEntry) : bool :=
  is_ok (encode_internal leftmost_child entries).

Definition decode_internal_record (record : bytes) (key_length : Z) : result InternalEntry :=
  record_key_length ← read_u16 record 0;
  reserved ← index_range record 2 4;
  fail_if (any_nonzero reserved || negb (record_key_length =? key_length))
    (Corruption "internal record key length is invalid");;
  fail_if (negb (len record =? INTERNAL_RECORD_HEADER_SIZE + key_length))
    (Corruption "internal record length is invalid");;
  right_child ← read_u64 record 4;
  fail_if (right_child <? 2) (Corruption "internal child page id is invalid");;
  key ← index_range record INTERNAL_RECORD_HEADER_SIZE (len record);
  map_err (λ _, Corruption "internal separator is not canonical: {error}") (Key.decode key);;
  Ok (mkInternalEntry key right_child).

Definition decode_internal (lsn : Lsn) (b : bytes) : result PageData :=
  check_body_size b;;
  magic ← index_range b 0 4;
  fail_if (negb (bytes_eqb magic INTERNAL_MAGIC)) (Corruption "internal layout magic mismatch");;
  version ← index_range b 4 6;
  check_version version;;
  count ← read_u16 b 6;
  slot_end ← read_u16 b 8;
  records_start ← read_u16 b 10;
  leftmost_child ← read_u64 b 12;
  reserved ← index_range b 20 32;
  fail_if ((leftmost_child <? 2) || any_nonzero reserved) (Corruption "invalid internal header");;
  validate_slot_region count slot_end records_start INTERNAL_HEADER_SIZE (len b);;
  '(entries, ranges) ←
     decode_slots decode_internal_record INTERNAL_RECORD_HEADER_SIZE "internal" (Z.to_nat count) b
       INTERNAL_HEADER_SIZE records_start;
  ensure_non_overlapping ranges "internal records";;
  ensure_sorted_internal entries;;
  Ok (Internal lsn leftmost_child entries).

(** ** Overflow and free pages *)

Definition encode_overflow (next : option PageId) (total_length : Z) (chunk : bytes)
    : result bytes :=
  fail_if ((total_length =? 0) || (MAX_VALUE_SIZE <? total_length))
    (InvalidInput "overflow value length is outside limits");;
  fail_if ((OVERFLOW_DATA_SIZE <? len chunk) || (U16_MAX <? len chunk) || (len chunk =? 0))
    (InvalidInput "overflow chunk length is invalid");;
  let body := zeros BODY_SIZE in
  let body := copy_at body 0 OVERFLOW_MAGIC in
  let body := copy_at body 4 (to_le 2 LAYOUT_VERSION) in
  let body := copy_at body 8 (to_le 8 (encode_page_id next)) in
  let body := copy_at body 16 (to_le 8 total_length) in
  let body := copy_at body 24 (to_le 2 (as_u16 (len chunk))) in
  Ok (copy_at body OVERFLOW_DATA_OFFSET chunk).

Definition decode_overflow (lsn : Lsn) (b : bytes) : result PageData :=
  check_body_size b;;
  magic ← index_range b 0 4;
  fail_if (negb (bytes_eqb magic OVERFLOW_MAGIC)) (Corruption "overflow layout magic mismatch");;
  version ← index_range b 4 6;
  check_version version;;
  reserved ← index_range b 6 8;
  reserved' ← index_range b 26 32;
  fail_if (any_nonzero reserved || any_nonzero reserved')
    (Corruption "overflow reserved bytes are non-zero");;
  next ← read_u64 b 8;
  total_length ← read_u64 b 16;
  chunk_length ← read_u16 b 24;
  fail_if ((total_length =? 0) || (MAX_VALUE_SIZE <? total_length) || (chunk_length =? 0))
    (Corruption "overflow length is invalid");;
  fail_if (len b <? OVERFLOW_DATA_OFFSET + chunk_length) (Corruption "overflow chunk exceeds page");;
  chunk ← index_range b OVERFLOW_DATA_OFFSET (OVERFLOW_DATA_OFFSET + chunk_length);
  Ok (Overflow lsn (decode_page_id next) total_length chunk).

Definition encode_free (next : option PageId) : result bytes :=
  let body := zeros BODY_SIZE in
  let body := copy_at body 0 FREE_MAGIC in
  let body := copy_at body 4 (to_le 2 LAYOUT_VERSION) in
  Ok (copy_at body 8 (to_le 8 (encode_page_id next))).

Definition decode_free (lsn : Lsn) (b : bytes) : result PageData :=
  check_body_size b;;
  magic ← index_range b 0 4;
  fail_if (negb (bytes_eqb magic FREE_MAGIC)) (Corruption "free-page layout magic mismatch");;
  version ← index_range b 4 6;
  check_version version;;
  reserved ← index_range b 6 8;
  reserved' ← index_range b 16 (len b);
  fail_if (any_nonzero reserved || any_nonzero reserved')
    (Corruption "free-page reserved bytes are non-zero");;
  next ← read_u64 b 8;
  Ok (Free lsn (decode_page_id next)).

(** ** Pages *)

Definition encode_body (p : PageData) : result bytes :=
  match p with
  | Leaf _ next entries => encode_leaf next entries
  | Internal _ leftmost entries => encode_internal leftmost entries
  | Overflow _ next total chunk => encode_overflow next total chunk
  | Free _ next => encode_free next
  end.

Section pages.
Context `{C : Crc32c}.

Definition encode (p : PageData) (page_id : PageId) : result bytes :=
  body ← encode_body p;
  Page.encode_page (Page.PageHeader_new (page_type p) page_id (page_lsn p)) body.

Definition decode (page : Page.DecodedPage) : result PageData :=
  let h := Page.header page in
  fail_if (negb (Page.flags h =? 0)) (Corruption "page {} has unsupported flags {:#x}");;
  match Page.page_type h with
  | Page.Leaf => decode_leaf (Page.page_lsn h) (Page.body page)
  | Page.Internal => decode_internal (Page.page_lsn h) (Page.body page)
  | Page.Overflow => decode_overflow (Page.page_lsn h) (Page.body page)
  | Page.Free => decode_free (Page.page_lsn h) (Page.body page)
  | Page.Test => Err (Corruption "test pages are not valid database pages")
  end.
End pages.

End Format.
