(* ===== verification/FormatLaws.v ===== *)
(** * Laws of the page bodies

    The slotted layout as a closed form (the records are laid out back to back at
    the end of the body, one slot per record), the round trips of the four page
    bodies and of whole pages, and the exact capacity of a leaf. *)

From S2P Require Import Prelude Key Core Page Superblock Format.

Module FormatLaws.
Import Core Format.

(** ** Placement of slotted records *)

Lemma copy_at_app_front {A} (l s t : list A) o :
  0 ≤ o → o + len s + len t ≤ len l →
  copy_at (copy_at l (o + len s) t) o s = copy_at l o (s ++ t).
Proof.
  intros. pose proof (len_nonneg s). pose proof (len_nonneg t). apply list_eq. intros i.
  rewrite !copy_at_lookup by (rewrite ?len_copy_at, ?len_app; lia). rewrite len_app.
  repeat case_decide; try lia; try done.
  - rewrite lookup_app_l by (unfold len in *; lia). done.
  - rewrite lookup_app_r by (unfold len in *; lia). f_equal. unfold len in *. lia.
Qed.

Section slotted.
Context {T : Type} (encode_record : T → result bytes) (key_of : T → bytes) (message : string).

Fixpoint slots_of (off : Z) (es : list T) (recs : list bytes) : list (Z * Z * Z) :=
  match es, recs with
  | e :: es, r :: recs => (off, len r, len (key_of e)) :: slots_of (off + len r) es recs
  | _, _ => []
  end.

Lemma slots_of_snoc off es recs e r :
  length es = length recs →
  slots_of off (es ++ [e]) (recs ++ [r]) =
  slots_of off es recs ++ [(off + len (concat recs), len r, len (key_of e))].
Proof.
  revert off recs. induction es as [|e' es IH]; intros off [|r' recs] Hl; simplify_eq/=.
  - by rewrite Z.add_0_r.
  - rewrite IH by done. rewrite len_app. by rewrite Z.add_assoc.
Qed.

Lemma place_records_Ok sb rev body upper slots body' upper' slots' :
  0 ≤ sb → sb ≤ upper → upper ≤ len body →
  place_records encode_record key_of message sb rev body upper slots = Ok (body', upper', slots') →
  ∃ recs, Forall2 (λ e r, encode_record e = Ok r) (reverse rev) recs ∧
    upper' = upper - len (concat recs) ∧ sb ≤ upper' ∧
    body' = copy_at body upper' (concat recs) ∧
    slots' = slots_of upper' (reverse rev) recs ++ slots.
Proof.
  intros Hsb. revert body upper slots. induction rev as [|e rev IH]; intros body upper slots Hu Hb; simpl.
  - intros [= <- <- <-]. exists []. split_and!; try done; [simpl; blen|].
    unfold copy_at. simpl. destruct (drop _ _) eqn:E; simpl; rewrite <-E; by rewrite take_drop.
  - destruct (encode_record e) as [r| |] eqn:He; try done. simpl. unfold checked_sub.
    destruct (Z.leb_spec (len r) upper); [|done]. simpl.
    destruct (Z.ltb_spec (upper - len r) sb); [done|]. simpl. pose proof (len_nonneg r).
    intros (recs & HF & -> & Hs & -> & ->)%IH; [|lia|rewrite len_copy_at; lia].
    pose proof (len_nonneg (concat recs)).
    exists (recs ++ [r]). rewrite reverse_cons, concat_app. simpl. rewrite app_nil_r, len_app.
    split_and!; try lia.
    + apply Forall2_app; [done|]. by constructor.
    + rewrite <-copy_at_app_front by lia.
      replace (upper - (len (concat recs) + len r)) with (upper - len r - len (concat recs)) by lia.
      by replace (upper - len r - len (concat recs) + len (concat recs)) with (upper - len r) by lia.
    + rewrite slots_of_snoc by (by eapply Forall2_length). rewrite <-app_assoc. simpl.
      replace (upper - (len (concat recs) + len r)) with (upper - len r - len (concat recs)) by lia.
      by replace (upper - len r - len (concat recs) + len (concat recs)) with (upper - len r) by lia.
Qed.

(** Enough room: the loop succeeds. *)
Lemma place_records_fits sb rev body upper slots recs :
  Forall2 (λ e r, encode_record e = Ok r) (reverse rev) recs →
  sb ≤ upper - len (concat recs) → 0 ≤ sb →
  is_ok (place_records encode_record key_of message sb rev body upper slots) = true.
Proof.
  revert body upper slots recs. induction rev as [|e rev IH]; intros body upper slots recs HF Hs Hsb; [done|].
  rewrite reverse_cons in HF. apply Forall2_app_inv_l in HF as (recs' & r' & HF & Hr & ->).
  inversion Hr as [|? r ? ? He Hn]; subst. inversion Hn; subst. simpl.
  rewrite concat_app, len_app in Hs. simpl in Hs. rewrite app_nil_r in Hs. rewrite He. simpl.
  pose proof (len_nonneg r). pose proof (len_nonneg (concat recs')). unfold checked_sub.
  destruct (Z.leb_spec (len r) upper); [|lia]. simpl.
  destruct (Z.ltb_spec (upper - len r) sb); [lia|]. simpl. eapply IH; [done|lia..].
Qed.
End slotted.

Lemma len_write_slots body slot slots : len (write_slots body slot slots) = len body.
Proof.
  revert body slot. induction slots as [|[[o l] k] slots IH]; intros body slot; simpl; [done|].
  by rewrite IH, !len_copy_at.
Qed.

Lemma write_slots_slice_ne body slot slots a b :
  0 ≤ slot → slot + 8 * len slots ≤ len body → 0 ≤ a → b ≤ slot ∨ slot + 8 * len slots ≤ a →
  (write_slots body slot slots).[a; b) = body.[a; b).
Proof.
  revert body slot. induction slots as [|[[o l] k] slots IH]; intros body slot; simpl; [done|].
  rewrite len_cons. pose proof (len_nonneg slots). intros.
  unfold SLOT_SIZE. rewrite IH by (rewrite ?len_copy_at; lia).
  rewrite !slice_copy_at_ne; [done|..]; rewrite ?len_copy_at, ?len_to_le; lia.
Qed.

Lemma write_slots_lookup body slot slots i o l k :
  0 ≤ slot → slot + 8 * len slots ≤ len body → slots !! i = Some (o, l, k) →
  let s := slot + 8 * Z.of_nat i in
  (write_slots body slot slots).[s; s + 2) = to_le 2 (as_u16 o) ∧
  (write_slots body slot slots).[s + 2; s + 4) = to_le 2 (as_u16 l) ∧
  (write_slots body slot slots).[s + 4; s + 6) = to_le 2 (as_u16 k).
Proof.
  revert body slot i. induction slots as [|[[o' l'] k'] slots IH]; intros body slot i; [done|].
  rewrite len_cons. pose proof (len_nonneg slots). intros Hs Hb Hi. destruct i as [|i]; simpl in Hi.
  - injection Hi as -> -> ->. rewrite Z.mul_0_r, Z.add_0_r. cbn [write_slots]. cbv zeta. unfold SLOT_SIZE.
    rewrite !write_slots_slice_ne by (rewrite ?len_copy_at; lia).
    split_and!; bslice; reflexivity.
  - cbv zeta. cbn [write_slots]. cbv zeta. unfold SLOT_SIZE.
    replace (slot + 8 * Z.of_nat (S i)) with ((slot + 8) + 8 * Z.of_nat i) by lia.
    apply IH; [lia|rewrite !len_copy_at; lia|done].
Qed.

(** ** Reading back *)

Lemma read_array_ok n b o :
  0 ≤ n → 0 ≤ o → o + n ≤ len b → o + n ≤ U64_MAX → read_array n b o = Ok (b.[o; o + n)).
Proof.
  intros. unfold read_array. rewrite checked_add_ok by done. rsimpl.
  destruct (Z.leb_spec o (o + n)); [|lia]. destruct (Z.leb_spec (o + n) (len b)); [done|lia].
Qed.

Lemma read_u16_ok b o z :
  0 ≤ o → o + 2 ≤ len b → o + 2 ≤ U64_MAX → b.[o; o + 2) = to_le 2 z → u16 z → read_u16 b o = Ok z.
Proof.
  intros ? ? ? Hs Hz. unfold read_u16. rewrite read_array_ok by lia. rsimpl. by rewrite Hs, from_to_le2.
Qed.

Lemma read_u64_ok b o z :
  0 ≤ o → o + 8 ≤ len b → o + 8 ≤ U64_MAX → b.[o; o + 8) = to_le 8 z → u64 z → read_u64 b o = Ok z.
Proof.
  intros ? ? ? Hs Hz. unfold read_u64. rewrite read_array_ok by lia. rsimpl. by rewrite Hs, from_to_le8.
Qed.

Lemma as_u16_small z : u16 z → as_u16 z = z.
Proof. intros. unfold as_u16. apply Z.mod_small. ulia. Qed.

Fixpoint ranges_of (off : Z) (recs : list bytes) : list (Z * Z) :=
  match recs with
  | [] => []
  | r :: recs => (off, off + len r) :: ranges_of (off + len r) recs
  end.

Lemma decode_slots_ok {T} (encode_record : T → result bytes) (decode_record : bytes → Z → result T)
    (key_of : T → bytes) min_length kind es recs b slot off rs :
  Forall2 (λ e r, encode_record e = Ok r) es recs →
  (∀ e r, e ∈ es → encode_record e = Ok r →
     decode_record r (len (key_of e)) = Ok e ∧ min_length ≤ len r ∧ len (key_of e) ≤ len r) →
  0 ≤ slot → slot + 8 * len es ≤ len b → len b ≤ U16_MAX → 0 ≤ rs → rs ≤ off →
  off + len (concat recs) ≤ len b → b.[off; off + len (concat recs)) = concat recs →
  (∀ i o l k, slots_of key_of off es recs !! i = Some (o, l, k) →
     let s := slot + 8 * Z.of_nat i in
     b.[s; s + 2) = to_le 2 (as_u16 o) ∧ b.[s + 2; s + 4) = to_le 2 (as_u16 l) ∧
     b.[s + 4; s + 6) = to_le 2 (as_u16 k)) →
  decode_slots decode_record min_length kind (length es) b slot rs = Ok (es, ranges_of off recs).
Proof.
  intros HF. revert slot off. induction HF as [|e r es recs He HF IH];
    intros slot off Hdec Hslot Hsl Hb Hrs Hoff Hcat Hrec Hs; [done|].
  cbn [concat] in *. rewrite len_app in *. rewrite len_cons in Hsl.
  pose proof (len_nonneg r). pose proof (len_nonneg (concat recs)). pose proof (len_nonneg es).
  destruct (Hdec e r) as (Hd & Hmin & Hk); [left|done|]. pose proof (len_nonneg (key_of e)).
  destruct (Hs 0%nat off (len r) (len (key_of e))) as (S1 & S2 & S3); [done|]. cbv zeta in *.
  rewrite Z.mul_0_r, Z.add_0_r in *. rewrite as_u16_small in S1, S2, S3 by ulia.
  cbn [decode_slots length].
  rewrite (read_u16_ok b slot off) by (done || ulia). rsimpl.
  rewrite (read_u16_ok b (slot + 2) (len r));
    [|ulia..|by replace (slot + 2 + 2) with (slot + 4) by lia|ulia]. rsimpl.
  rewrite (read_u16_ok b (slot + 4) (len (key_of e)));
    [|ulia..|by replace (slot + 4 + 2) with (slot + 6) by lia|ulia]. rsimpl.
  rewrite checked_add_ok by ulia. rsimpl.
  destruct (Z.ltb_spec off rs); [lia|]. destruct (Z.ltb_spec (len b) (off + len r)); [lia|].
  destruct (Z.ltb_spec (len r) min_length); [lia|]. rsimpl.
  rewrite index_range_ok by lia. rsimpl.
  assert (b.[off; off + len r) = r) as ->.
  { rewrite (slice_split _ off (off + len r)) in Hrec by lia.
    apply app_inj_1 in Hrec as [? _]; [done|]. apply Nat2Z.inj. fold (len (b.[off; off + len r))).
    rewrite len_slice by lia. unfold len. lia. }
  rewrite Hd. rsimpl. unfold SLOT_SIZE. rewrite (IH (slot + 8) (off + len r)); [done|..]; try lia.
  - intros. apply Hdec; [by right|done].
  - rewrite (slice_split _ off (off + len r)) in Hrec by lia.
    apply app_inj_1 in Hrec as [_ Hrec].
    + by replace (off + len r + len (concat recs)) with (off + (len r + len (concat recs))) by lia.
    + apply Nat2Z.inj. fold (len (b.[off; off + len r))). rewrite len_slice by lia. unfold len. lia.
  - intros i o l k Hi. cbv zeta.
    replace (slot + 8 + 8 * Z.of_nat i) with (slot + 8 * Z.of_nat (S i)) by lia.
    apply (Hs (S i)). done.
Qed.

Lemma ranges_of_lb off recs x : x ∈ ranges_of off recs → off ≤ x.1 ∧ x.1 ≤ x.2.
Proof.
  revert off. induction recs as [|r recs IH]; intros off; simpl; [by intros ?%not_elem_of_nil|].
  pose proof (len_nonneg r). intros [->|Hx]%elem_of_cons; simpl; [lia|]. apply IH in Hx. lia.
Qed.

#[local] Instance range_le_trans : Transitive range_le.
Proof. intros x y z. unfold range_le. lia. Qed.
#[local] Instance range_le_antisym : AntiSymm (=) range_le.
Proof. intros [] []. unfold range_le. simpl. intros. f_equal; lia. Qed.
#[local] Instance range_le_total : Total range_le.
Proof. intros x y. unfold range_le. lia. Qed.

Lemma ranges_of_sorted off recs : Sorted range_le (ranges_of off recs).
Proof.
  apply StronglySorted_Sorted. revert off. induction recs as [|r recs IH]; intros off; simpl;
    [constructor|]. constructor; [apply IH|]. apply Forall_forall. intros x Hx%ranges_of_lb.
  pose proof (len_nonneg r). unfold range_le. simpl. lia.
Qed.

Lemma ranges_of_disjoint off recs : disjoint_windows (ranges_of off recs) = true.
Proof.
  revert off. induction recs as [|r recs IH]; intros off; [done|].
  destruct recs as [|r' recs]; [done|].
  change ((off + len r <=? off + len r) && disjoint_windows (ranges_of (off + len r) (r' :: recs)) = true).
  by rewrite Z.leb_refl, IH.
Qed.

Lemma ranges_of_non_overlapping off recs kind : ensure_non_overlapping (ranges_of off recs) kind = Ok tt.
Proof.
  unfold ensure_non_overlapping.
  rewrite (Sorted_unique range_le (merge_sort range_le (ranges_of off recs)) (ranges_of off recs)).
  - by rewrite ranges_of_disjoint.
  - apply Sorted_merge_sort, _.
  - apply ranges_of_sorted.
  - apply merge_sort_Permutation.
Qed.

(** ** Records *)

(** The type invariant of a leaf entry: what the Rust types and the engine's own
    constructors guarantee. *)
Definition wf_value (v : option ValueRef) : Prop :=
  match v with
  | None => True
  | Some (Inline v) => len v ≤ MAX_VALUE_SIZE
  | Some (OverflowRef head length) => u64 head ∧ head ≠ NULL_PAGE_ID ∧ 0 < length ≤ MAX_VALUE_SIZE
  end.
Definition wf_leaf_entry (e : LeafEntry) : Prop := u64 (revision e) ∧ wf_value (value e).
Definition wf_internal_entry (e : InternalEntry) : Prop := u64 (right_child e).

Definition leaf_flags (e : LeafEntry) : Z :=
  match value e with None => 0 | Some (Inline _) => 1 | Some (OverflowRef _ _) => 2 end.
Definition leaf_value_length (e : LeafEntry) : Z :=
  match value e with None => 0 | Some (Inline v) => len v | Some (OverflowRef _ l) => l end.
Definition leaf_aux (e : LeafEntry) : Z :=
  match value e with None => NULL_PAGE_ID | Some (Inline _) => 0 | Some (OverflowRef h _) => h end.
Definition leaf_inline (e : LeafEntry) : bytes :=
  match value e with Some (Inline v) => v | _ => [] end.

Definition leaf_record_size (e : LeafEntry) : Z :=
  LEAF_RECORD_HEADER_SIZE + len (key e) + len (leaf_inline e).

(** The fields of an encoded leaf record. *)
Record leaf_record_fields (e : LeafEntry) (r : bytes) : Prop := {
  lr_len : len r = leaf_record_size e;
  lr_revision : r.[0; 8) = to_le 8 (revision e);
  lr_length : r.[8; 16) = to_le 8 (leaf_value_length e);
  lr_aux : r.[16; 24) = to_le 8 (leaf_aux e);
  lr_flags : r.[24; 25) = [leaf_flags e];
  lr_reserved : r.[25; 26) = [0];
  lr_key_length : r.[26; 28) = to_le 2 (as_u16 (len (key e)));
  lr_reserved4 : r.[28; 32) = zeros 4;
  lr_key : r.[32; 32 + len (key e)) = key e;
  lr_inline : r.[32 + len (key e); len r) = leaf_inline e;
}.

Lemma encode_leaf_record_Ok e r :
  encode_leaf_record e = Ok r →
  len (key e) ≤ U16_MAX ∧ is_ok (Key.decode (key e)) = true ∧ leaf_record_fields e r.
Proof.
  unfold encode_leaf_record. destruct (Z.ltb_spec U16_MAX (len (key e))); [done|]. rsimpl.
  destruct (Key.decode (key e)) as [k| |] eqn:Hk; try done. rsimpl.
  assert (match value e with
    | None => (0, 0, NULL_PAGE_ID, []) | Some (Inline v) => (1, len v, 0, v)
    | Some (OverflowRef h l) => (2, l, h, []) end
    = (leaf_flags e, leaf_value_length e, leaf_aux e, leaf_inline e)) as ->.
  { unfold leaf_flags, leaf_value_length, leaf_aux, leaf_inline. by destruct (value e) as [[]|]. }
  pose proof (len_nonneg (key e)). pose proof (len_nonneg (leaf_inline e)).
  destruct (checked_add LEAF_RECORD_HEADER_SIZE (len (key e))) as [n|] eqn:Hc1; [|done]. simpl.
  apply checked_add_Some in Hc1 as [-> _].
  destruct (checked_add _ (len (leaf_inline e))) as [n|] eqn:Hc2; [|done]. cbn [ok_or]. rsimpl.
  apply checked_add_Some in Hc2 as [-> _]. intros [= <-]. split; [done|]. split; [done|].
  unfold LEAF_RECORD_HEADER_SIZE in *.
  split; unfold leaf_record_size, LEAF_RECORD_HEADER_SIZE; rewrite ?len_copy_at, ?len_zeros by lia;
    bslice; try done.
Qed.

Lemma encode_leaf_record_is_ok e :
  len (key e) + len (leaf_inline e) ≤ U16_MAX → is_ok (Key.decode (key e)) = true →
  is_ok (encode_leaf_record e) = true.
Proof.
  intros Hl Hk. pose proof (len_nonneg (leaf_inline e)). pose proof (len_nonneg (key e)).
  unfold encode_leaf_record. destruct (Z.ltb_spec U16_MAX (len (key e))); [lia|]. rsimpl.
  destruct (Key.decode (key e)); try done. rsimpl. unfold leaf_inline in *.
  destruct (value e) as [[v|h l]|]; rsimpl; unfold LEAF_RECORD_HEADER_SIZE;
    (rewrite checked_add_ok by ulia); simpl; (rewrite checked_add_ok by (rewrite ?len_nil; ulia)); done.
Qed.

Lemma decode_leaf_value_ok e r :
  wf_leaf_entry e → leaf_record_fields e r → len r ≤ U16_MAX →
  decode_leaf_value r (leaf_flags e) (leaf_value_length e) (leaf_aux e) (32 + len (key e))
  = Ok (value e).
Proof.
  intros [_ Hv] F Hr. pose proof (lr_len _ _ F) as Hl. pose proof (lr_inline _ _ F) as Hi.
  unfold leaf_record_size, LEAF_RECORD_HEADER_SIZE in Hl. pose proof (len_nonneg (key e)).
  unfold decode_leaf_value, leaf_flags, leaf_value_length, leaf_aux, leaf_inline in *.
  destruct (value e) as [[v|h l]|]; simpl in Hv.
  - change (1 =? 0) with false. change (1 =? 1) with true. cbv iota. pose proof (len_nonneg v).
    rewrite checked_add_ok by ulia. rsimpl. rewrite Hl, Z.eqb_refl. rsimpl.
    rewrite index_range_ok by lia. rsimpl. by rewrite <-Hl, Hi.
  - change (2 =? 0) with false. change (2 =? 1) with false. change (2 =? 2) with true. cbv iota.
    rewrite len_nil in Hl. destruct Hv as (_ & Hh & Hlen).
    destruct (Z.eqb_spec (len r) (32 + len (key e))); [|lia].
    destruct (Z.eqb_spec h NULL_PAGE_ID); [done|]. destruct (Z.eqb_spec l 0); [lia|]. done.
  - change (0 =? 0) with true. cbv iota. rewrite len_nil in Hl. rewrite Z.eqb_refl.
    destruct (Z.eqb_spec (len r) (32 + len (key e))); [|lia]. done.
Qed.

Lemma decode_encode_leaf_record e r :
  wf_leaf_entry e → encode_leaf_record e = Ok r → len r ≤ U16_MAX →
  decode_leaf_record r (len (key e)) = Ok e ∧ LEAF_RECORD_HEADER_SIZE ≤ len r ∧ len (key e) ≤ len r.
Proof.
  intros Hwf (Hkl & Hk & F)%encode_leaf_record_Ok Hr. pose proof (lr_len _ _ F) as Hl.
  pose proof (decode_leaf_value_ok e r Hwf F Hr) as Hv. destruct Hwf as [Hrev Hval].
  unfold leaf_record_size in Hl. unfold LEAF_RECORD_HEADER_SIZE in *.
  pose proof (len_nonneg (key e)). pose proof (len_nonneg (leaf_inline e)).
  split; [|lia]. unfold decode_leaf_record.
  assert (Hvl : 0 ≤ leaf_value_length e ≤ MAX_VALUE_SIZE).
  { unfold leaf_value_length. destruct (value e) as [[v|]|]; simpl in Hval; unfold MAX_VALUE_SIZE in *;
      pose_len_nonneg; lia. }
  assert (Haux : u64 (leaf_aux e)).
  { unfold leaf_aux. destruct (value e) as [[v|]|]; simpl in Hval; unfold NULL_PAGE_ID; ulia. }
  rewrite (read_u64_ok r 0 (revision e)) by (apply F || done || ulia). rsimpl.
  rewrite (read_u64_ok r 8 (leaf_value_length e))
    by (apply F || done || (unfold MAX_VALUE_SIZE in *; ulia)). rsimpl.
  destruct (Z.ltb_spec MAX_VALUE_SIZE (leaf_value_length e)); [lia|]. rsimpl.
  rewrite (read_u64_ok r 16 (leaf_aux e)) by (apply F || done || ulia). rsimpl.
  rewrite (index_ok r 24 (leaf_flags e)) by (apply F || lia). rsimpl.
  rewrite (index_ok r 25 0) by (apply F || lia). rsimpl.
  rewrite index_range_ok by lia. rewrite (lr_reserved4 _ _ F). rsimpl.
  rewrite any_nonzero_zeros. rsimpl. rewrite Z.eqb_refl. rsimpl.
  rewrite (read_u16_ok r 26 (len (key e)));
    [|ulia..|rewrite <-(as_u16_small (len (key e))) by ulia; apply F|ulia]. rsimpl.
  rewrite Z.eqb_refl. rsimpl. unfold LEAF_RECORD_HEADER_SIZE. rewrite checked_add_ok by ulia. rsimpl.
  destruct (Z.ltb_spec (len r) (32 + len (key e))); [lia|]. rsimpl.
  rewrite index_range_ok by lia. rsimpl. rewrite (lr_key _ _ F).
  destruct (Key.decode (key e)); try done. rsimpl. rewrite Hv. rsimpl. by destruct e.
Qed.

Record internal_record_fields (e : InternalEntry) (r : bytes) : Prop := {
  ir_len : len r = INTERNAL_RECORD_HEADER_SIZE + len (separator e);
  ir_key_length : r.[0; 2) = to_le 2 (as_u16 (len (separator e)));
  ir_reserved : r.[2; 4) = zeros 2;
  ir_child : r.[4; 12) = to_le 8 (right_child e);
  ir_separator : r.[12; len r) = separator e;
}.

Lemma encode_internal_record_Ok e r :
  encode_internal_record e = Ok r →
  len (separator e) ≤ U16_MAX ∧ 2 ≤ right_child e ∧ is_ok (Key.decode (separator e)) = true ∧
  internal_record_fields e r.
Proof.
  unfold encode_internal_record. destruct (Z.ltb_spec U16_MAX (len (separator e))); [done|].
  destruct (Z.ltb_spec (right_child e) 2); [done|]. rsimpl.
  destruct (Key.decode (separator e)) as [k| |] eqn:Hk; try done. rsimpl.
  pose proof (len_nonneg (separator e)). unfold INTERNAL_RECORD_HEADER_SIZE in *.
  rewrite checked_add_ok by ulia. rsimpl. intros [= <-]. do 3 (split; [done|]).
  split; unfold INTERNAL_RECORD_HEADER_SIZE; rewrite ?len_copy_at, ?len_zeros by lia; bslice; done.
Qed.

Lemma decode_encode_internal_record e r :
  wf_internal_entry e → encode_internal_record e = Ok r → len r ≤ U16_MAX →
  decode_internal_record r (len (separator e)) = Ok e ∧
  INTERNAL_RECORD_HEADER_SIZE ≤ len r ∧ len (separator e) ≤ len r.
Proof.
  intros Hwf (Hkl & Hc & Hk & F)%encode_internal_record_Ok Hr. pose proof (ir_len _ _ F) as Hl.
  unfold INTERNAL_RECORD_HEADER_SIZE, wf_internal_entry in *. pose proof (len_nonneg (separator e)).
  split; [|lia]. unfold decode_internal_record.
  rewrite (read_u16_ok r 0 (len (separator e)));
    [|ulia..|rewrite <-(as_u16_small (len (separator e))) by ulia; apply F|ulia]. rsimpl.
  rewrite (index_range_ok r 2 4) by lia. rsimpl. rewrite (ir_reserved _ _ F), any_nonzero_zeros, Z.eqb_refl.
  rsimpl. unfold INTERNAL_RECORD_HEADER_SIZE. rewrite <-Hl, Z.eqb_refl. rsimpl.
  rewrite (read_u64_ok r 4 (right_child e)) by (apply F || done || ulia). rsimpl.
  destruct (Z.ltb_spec (right_child e) 2); [lia|]. rsimpl. rewrite index_range_ok by lia. rsimpl.
  rewrite (ir_separator _ _ F). destruct (Key.decode (separator e)); try done. by destruct e.
Qed.

(** ** Slotted bodies *)

Lemma len_slots_of {T} (key_of : T → bytes) off es recs :
  length es = length recs → len (slots_of key_of off es recs) = len es.
Proof.
  revert off recs. induction es as [|e es IH]; intros off [|r recs] Hl; simplify_eq/=; [done|].
  by rewrite !len_cons, IH.
Qed.

(** What the two slotted encoders leave in the body: the header they were given,
    the offset of the first record, the records back to back up to the end of the
    body, and one slot per record. *)
Record slotted {T} (key_of : T → bytes) (es : list T) (recs : list bytes) (body0 b : bytes) : Prop := {
  sl_len : len b = BODY_SIZE;
  sl_room : 32 + 8 * len es ≤ BODY_SIZE - len (concat recs);
  sl_header : ∀ i j, 0 ≤ i → j ≤ 32 → j ≤ 10 ∨ 12 ≤ i → b.[i; j) = body0.[i; j);
  sl_start : b.[10; 12) = to_le 2 (BODY_SIZE - len (concat recs));
  sl_records : b.[BODY_SIZE - len (concat recs); BODY_SIZE) = concat recs;
  sl_slots : ∀ i o l k, slots_of key_of (BODY_SIZE - len (concat recs)) es recs !! i = Some (o, l, k) →
     let s := 32 + 8 * Z.of_nat i in
     b.[s; s + 2) = to_le 2 (as_u16 o) ∧ b.[s + 2; s + 4) = to_le 2 (as_u16 l) ∧
     b.[s + 4; s + 6) = to_le 2 (as_u16 k);
}.

Lemma slotted_placed {T} (encode_record : T → result bytes) (key_of : T → bytes) message es body0 b :
  len body0 = BODY_SIZE →
  ('(body, upper, slots) ←
     place_records encode_record key_of message (32 + 8 * len es) (reverse es) body0 BODY_SIZE [];
   Ok (write_slots (copy_at body 10 (to_le 2 (as_u16 upper))) 32 slots)) = Ok b →
  32 + 8 * len es ≤ BODY_SIZE →
  ∃ recs, Forall2 (λ e r, encode_record e = Ok r) es recs ∧ slotted key_of es recs body0 b.
Proof.
  intros Hl Hb Hroom. pose proof (len_nonneg es).
  destruct (place_records _ _ _ _ _ _ _ _) as [[[body upper] slots]| |] eqn:Hp; [|done..].
  apply place_records_Ok in Hp as (recs & HF & -> & Hs & -> & ->); [|lia..].
  rewrite reverse_involutive in *. rewrite app_nil_r in *. injection Hb as <-. exists recs. split; [done|].
  pose proof (len_slots_of key_of (BODY_SIZE - len (concat recs)) es recs ltac:(by eapply Forall2_length)) as Hls.
  pose proof (len_nonneg (concat recs)). unfold BODY_SIZE, Page.PAGE_SIZE, Page.PAGE_HEADER_SIZE in *.
  assert (len (to_le 2 (as_u16 (4096 - 32 - len (concat recs)))) = 2) by (by rewrite len_to_le).
  split; unfold BODY_SIZE, Page.PAGE_SIZE, Page.PAGE_HEADER_SIZE; try lia.
  - by rewrite len_write_slots, !len_copy_at.
  - intros i j Hi Hj Hd. rewrite write_slots_slice_ne by (rewrite ?len_copy_at; lia).
    rewrite slice_copy_at_ne by (rewrite ?len_copy_at; lia). by rewrite slice_copy_at_ne by lia.
  - rewrite write_slots_slice_ne by (rewrite ?len_copy_at; lia).
    rewrite slice_copy_at_eq by (rewrite ?len_copy_at; lia). rewrite as_u16_small by ulia. done.
  - rewrite write_slots_slice_ne by (rewrite ?len_copy_at; lia).
    rewrite slice_copy_at_ne by (rewrite ?len_copy_at; lia). apply slice_copy_at_eq; lia.
  - intros i o l k Hi. apply write_slots_lookup; [lia|rewrite !len_copy_at; lia|done].
Qed.

Lemma concat_in_le (recs : list bytes) r : r ∈ recs → len r ≤ len (concat recs).
Proof.
  induction recs as [|r' recs IH]; [by intros ?%not_elem_of_nil|]. simpl. rewrite len_app.
  pose proof (len_nonneg r'). pose proof (len_nonneg (concat recs)).
  intros [->|?%IH]%elem_of_cons; lia.
Qed.

(** The slot loop reads every record of a slotted body back. *)
Lemma decode_slotted {T} (encode_record : T → result bytes) decode_record (key_of : T → bytes) min_length kind es recs body0 b :
  Forall2 (λ e r, encode_record e = Ok r) es recs → slotted key_of es recs body0 b →
  (∀ e r, e ∈ es → encode_record e = Ok r → len r ≤ U16_MAX →
     decode_record r (len (key_of e)) = Ok e ∧ min_length ≤ len r ∧ len (key_of e) ≤ len r) →
  decode_slots decode_record min_length kind (length es) b 32 (BODY_SIZE - len (concat recs)) =
  Ok (es, ranges_of (BODY_SIZE - len (concat recs)) recs).
Proof.
  intros HF S Hdec. pose proof (sl_len _ _ _ _ _ S) as Hl. pose proof (sl_room _ _ _ _ _ S) as Hr.
  pose proof (len_nonneg es). pose proof (len_nonneg (concat recs)).
  assert (BODY_SIZE = 4064) as HB by done.
  eapply decode_slots_ok; rewrite ?Hl; try done; try ulia.
  - intros e r He Hok. apply Hdec; [done..|].
    apply list_elem_of_lookup in He as [i He]. eapply Forall2_lookup_l in He as (r' & Hr' & Hok'); [|done].
    assert (r' = r) as -> by congruence. apply list_elem_of_lookup_2, concat_in_le in Hr'. ulia.
  - replace (BODY_SIZE - len (concat recs) + len (concat recs)) with BODY_SIZE by lia.
    apply S.
  - apply S.
Qed.

Lemma slot_array_size_Ok header count m n :
  slot_array_size header count m = Ok n → n = header + 8 * count.
Proof.
  unfold slot_array_size, checked_mul, checked_add, SLOT_SIZE.
  destruct (count * 8 <=? U64_MAX); [|done]. simpl.
  destruct (header + count * 8 <=? U64_MAX); [|done]. intros [= <-]. lia.
Qed.

Lemma validate_slot_region_ok count rs :
  0 ≤ count → 32 + 8 * count ≤ rs → rs ≤ BODY_SIZE →
  validate_slot_region count (32 + 8 * count) rs 32 BODY_SIZE = Ok tt.
Proof.
  intros.
  unfold validate_slot_region, SLOT_SIZE, checked_mul.
  assert (BODY_SIZE = 4064) by done.
  destruct (Z.leb_spec (count * 8) U64_MAX); [|ulia]. simpl. rewrite checked_add_ok by ulia. rsimpl.
  destruct (Z.eqb_spec (32 + 8 * count) (32 + count * 8)); [|lia].
  destruct (Z.ltb_spec rs (32 + 8 * count)), (Z.ltb_spec BODY_SIZE rs),
    (Z.ltb_spec BODY_SIZE (32 + 8 * count)); (lia || done).
Qed.

(** ** Leaf and internal bodies *)

Definition leaf_header (next_leaf : option PageId) (count : Z) : bytes :=
  let body := zeros BODY_SIZE in
  let body := copy_at body 0 LEAF_MAGIC in
  let body := copy_at body 4 (to_le 2 LAYOUT_VERSION) in
  let body := copy_at body 6 (to_le 2 (as_u16 count)) in
  let body := copy_at body 8 (to_le 2 (as_u16 (32 + 8 * count))) in
  copy_at body 12 (to_le 8 (encode_page_id next_leaf)).

Definition internal_header (leftmost_child : PageId) (count : Z) : bytes :=
  let body := zeros BODY_SIZE in
  let body := copy_at body 0 INTERNAL_MAGIC in
  let body := copy_at body 4 (to_le 2 LAYOUT_VERSION) in
  let body := copy_at body 6 (to_le 2 (as_u16 count)) in
  let body := copy_at body 8 (to_le 2 (as_u16 (32 + 8 * count))) in
  copy_at body 12 (to_le 8 leftmost_child).

Lemma encode_leaf_Ok next es b :
  encode_leaf next es = Ok b →
  strictly_ordered (key <$> es) = true ∧
  ∃ recs, Forall2 (λ e r, encode_leaf_record e = Ok r) es recs ∧
          slotted key es recs (leaf_header next (len es)) b.
Proof.
  unfold encode_leaf. destruct (slot_array_size _ _ _) as [n| |] eqn:Hn; [|done..].
  apply slot_array_size_Ok in Hn as ->. rsimpl. unfold LEAF_HEADER_SIZE.
  destruct (Z.ltb_spec U16_MAX (len es)); [done|].
  destruct (Z.ltb_spec BODY_SIZE (32 + 8 * len es)); [done|]. rsimpl. unfold ensure_sorted_leaf.
  destruct (strictly_ordered (key <$> es)); [|done]. rsimpl. intros Hb. split; [done|].
  eapply slotted_placed; [|exact Hb|lia]. unfold leaf_header. blen.
Qed.

Lemma encode_internal_Ok leftmost es b :
  encode_internal leftmost es = Ok b →
  2 ≤ leftmost ∧ strictly_ordered (separator <$> es) = true ∧
  ∃ recs, Forall2 (λ e r, encode_internal_record e = Ok r) es recs ∧
          slotted separator es recs (internal_header leftmost (len es)) b.
Proof.
  unfold encode_internal. destruct (Z.ltb_spec leftmost 2); [done|]. rsimpl.
  destruct (slot_array_size _ _ _) as [n| |] eqn:Hn; [|done..].
  apply slot_array_size_Ok in Hn as ->. rsimpl. unfold INTERNAL_HEADER_SIZE.
  destruct (Z.ltb_spec U16_MAX (len es)); [done|].
  destruct (Z.ltb_spec BODY_SIZE (32 + 8 * len es)); [done|]. rsimpl. unfold ensure_sorted_internal.
  destruct (strictly_ordered (separator <$> es)); [|done]. rsimpl. intros Hb. do 2 (split; [done|]).
  eapply slotted_placed; [|exact Hb|lia]. unfold internal_header. blen.
Qed.

(** The seven header fields that the two slotted decoders share. *)
Lemma leaf_header_fields next count :
  let h := leaf_header next count in
  h.[0; 4) = LEAF_MAGIC ∧ h.[4; 6) = to_le 2 LAYOUT_VERSION ∧ h.[6; 8) = to_le 2 (as_u16 count) ∧
  h.[8; 10) = to_le 2 (as_u16 (32 + 8 * count)) ∧ h.[12; 20) = to_le 8 (encode_page_id next) ∧
  h.[20; 32) = zeros 12.
Proof. unfold leaf_header. split_and!; bslice; done. Qed.

Lemma internal_header_fields leftmost count :
  let h := internal_header leftmost count in
  h.[0; 4) = INTERNAL_MAGIC ∧ h.[4; 6) = to_le 2 LAYOUT_VERSION ∧ h.[6; 8) = to_le 2 (as_u16 count) ∧
  h.[8; 10) = to_le 2 (as_u16 (32 + 8 * count)) ∧ h.[12; 20) = to_le 8 leftmost ∧
  h.[20; 32) = zeros 12.
Proof. unfold internal_header. split_and!; bslice; done. Qed.

Lemma check_version_ok : check_version (to_le 2 LAYOUT_VERSION) = Ok tt.
Proof. reflexivity. Qed.

Lemma check_body_size_ok b : len b = BODY_SIZE → check_body_size b = Ok tt.
Proof. unfold check_body_size. intros ->. by rewrite Z.eqb_refl. Qed.

Lemma decode_encode_leaf lsn next es b :
  Superblock.wf_ref next → Forall wf_leaf_entry es → encode_leaf next es = Ok b →
  decode_leaf lsn b = Ok (Leaf lsn next es).
Proof.
  intros Hn Hes (Hsort & recs & HF & S)%encode_leaf_Ok.
  pose proof (sl_len _ _ _ _ _ S) as Hl. pose proof (sl_room _ _ _ _ _ S) as Hroom.
  pose proof (sl_header _ _ _ _ _ S) as Hh. assert (HB : BODY_SIZE = 4064) by done.
  destruct (leaf_header_fields next (len es)) as (F1 & F2 & F3 & F4 & F5 & F6).
  pose proof (len_nonneg es). pose proof (len_nonneg (concat recs)).
  rewrite !as_u16_small in * by ulia.
  unfold decode_leaf. rewrite check_body_size_ok by done. rsimpl.
  rewrite (index_range_ok b 0 4) by lia. rsimpl. rewrite (Hh 0 4), F1 by lia.
  rewrite (proj2 (bytes_eqb_spec _ _)) by done. rsimpl.
  rewrite (index_range_ok b 4 6) by lia. rsimpl. rewrite (Hh 4 6), F2, check_version_ok by lia. rsimpl.
  rewrite (read_u16_ok b 6 (len es)); [|lia|lia|ulia|rewrite Hh by lia; done|ulia]. rsimpl.
  rewrite (read_u16_ok b 8 (32 + 8 * len es)); [|lia|lia|ulia|rewrite Hh by lia; done|ulia]. rsimpl.
  rewrite (read_u16_ok b 10 (BODY_SIZE - len (concat recs))); [|lia|lia|ulia|apply S|ulia]. rsimpl.
  rewrite (read_u64_ok b 12 (encode_page_id next));
    [|lia|lia|ulia|rewrite Hh by lia; done|by apply Superblock.encode_page_id_u64]. rsimpl.
  rewrite (index_range_ok b 20 32) by lia. rsimpl. rewrite (Hh 20 32), F6, any_nonzero_zeros by lia. rsimpl.
  unfold LEAF_HEADER_SIZE. rewrite Hl, validate_slot_region_ok by lia. rsimpl.
  replace (Z.to_nat (len es)) with (length es) by (unfold len; lia).
  rewrite (decode_slotted encode_leaf_record decode_leaf_record key _ _ _ _ _ _ HF S).
  - rsimpl. rewrite ranges_of_non_overlapping. rsimpl. unfold ensure_sorted_leaf. rewrite Hsort. rsimpl.
    unfold decode_page_id, encode_page_id. by rewrite Superblock.decode_encode_page_id.
  - intros e r He. rewrite Forall_forall in Hes. by apply decode_encode_leaf_record, Hes.
Qed.

Lemma decode_encode_internal lsn leftmost es b :
  u64 leftmost → Forall wf_internal_entry es → encode_internal leftmost es = Ok b →
  decode_internal lsn b = Ok (Internal lsn leftmost es).
Proof.
  intros Hn Hes (Hlm & Hsort & recs & HF & S)%encode_internal_Ok.
  pose proof (sl_len _ _ _ _ _ S) as Hl. pose proof (sl_room _ _ _ _ _ S) as Hroom.
  pose proof (sl_header _ _ _ _ _ S) as Hh. assert (HB : BODY_SIZE = 4064) by done.
  destruct (internal_header_fields leftmost (len es)) as (F1 & F2 & F3 & F4 & F5 & F6).
  pose proof (len_nonneg es). pose proof (len_nonneg (concat recs)).
  rewrite !as_u16_small in * by ulia.
  unfold decode_internal. rewrite check_body_size_ok by done. rsimpl.
  rewrite (index_range_ok b 0 4) by lia. rsimpl. rewrite (Hh 0 4), F1 by lia.
  rewrite (proj2 (bytes_eqb_spec _ _)) by done. rsimpl.
  rewrite (index_range_ok b 4 6) by lia. rsimpl. rewrite (Hh 4 6), F2, check_version_ok by lia. rsimpl.
  rewrite (read_u16_ok b 6 (len es)); [|lia|lia|ulia|rewrite Hh by lia; done|ulia]. rsimpl.
  rewrite (read_u16_ok b 8 (32 + 8 * len es)); [|lia|lia|ulia|rewrite Hh by lia; done|ulia]. rsimpl.
  rewrite (read_u16_ok b 10 (BODY_SIZE - len (concat recs))); [|lia|lia|ulia|apply S|ulia]. rsimpl.
  rewrite (read_u64_ok b 12 leftmost); [|lia|lia|ulia|rewrite Hh by lia; done|done]. rsimpl.
  rewrite (index_range_ok b 20 32) by lia. rsimpl. rewrite (Hh 20 32), F6, any_nonzero_zeros by lia.
  destruct (Z.ltb_spec leftmost 2); [lia|]. rsimpl.
  unfold INTERNAL_HEADER_SIZE. rewrite Hl, validate_slot_region_ok by lia. rsimpl.
  replace (Z.to_nat (len es)) with (length es) by (unfold len; lia).
  rewrite (decode_slotted encode_internal_record decode_internal_record separator _ _ _ _ _ _ HF S).
  - rsimpl. rewrite ranges_of_non_overlapping. rsimpl. unfold ensure_sorted_internal. by rewrite Hsort.
  - intros e r He. rewrite Forall_forall in Hes. by apply decode_encode_internal_record, Hes.
Qed.

(** ** Overflow and free bodies *)

Lemma encode_overflow_Ok next total chunk b :
  encode_overflow next total chunk = Ok b →
  0 ≠ total ∧ total ≤ MAX_VALUE_SIZE ∧ 0 < len chunk ≤ OVERFLOW_DATA_SIZE ∧ len b = BODY_SIZE ∧
  b.[0; 4) = OVERFLOW_MAGIC ∧ b.[4; 6) = to_le 2 LAYOUT_VERSION ∧ b.[6; 8) = zeros 2 ∧
  b.[8; 16) = to_le 8 (encode_page_id next) ∧ b.[16; 24) = to_le 8 total ∧
  b.[24; 26) = to_le 2 (len chunk) ∧ b.[26; 32) = zeros 6 ∧ b.[32; 32 + len chunk) = chunk.
Proof.
  unfold encode_overflow. destruct (Z.eqb_spec total 0); [done|].
  destruct (Z.ltb_spec MAX_VALUE_SIZE total); [done|]. rsimpl.
  destruct (Z.ltb_spec OVERFLOW_DATA_SIZE (len chunk)); [done|].
  destruct (Z.ltb_spec U16_MAX (len chunk)); [done|].
  destruct (Z.eqb_spec (len chunk) 0); [done|]. rsimpl. intros [= <-]. pose proof (len_nonneg chunk).
  rewrite as_u16_small by ulia. split_and!; try lia; try (bslice; done). blen.
Qed.

Lemma decode_encode_overflow lsn next total chunk b :
  Superblock.wf_ref next → 0 ≤ total → encode_overflow next total chunk = Ok b →
  decode_overflow lsn b = Ok (Overflow lsn next total chunk).
Proof.
  intros Hn H0 (Ht & Hm & Hc & Hl & F1 & F2 & F3 & F4 & F5 & F6 & F7 & F8)%encode_overflow_Ok.
  assert (HB : BODY_SIZE = 4064) by done. assert (HO : OVERFLOW_DATA_SIZE = 4032) by done.
  unfold MAX_VALUE_SIZE in *.
  unfold decode_overflow. rewrite check_body_size_ok by done. rsimpl.
  rewrite (index_range_ok b 0 4) by lia. rsimpl. rewrite F1, (proj2 (bytes_eqb_spec _ _)) by done. rsimpl.
  rewrite (index_range_ok b 4 6) by lia. rsimpl. rewrite F2, check_version_ok. rsimpl.
  rewrite (index_range_ok b 6 8), (index_range_ok b 26 32) by lia. rsimpl.
  rewrite F3, F7, !any_nonzero_zeros. rsimpl.
  rewrite (read_u64_ok b 8 (encode_page_id next));
    [|lia|lia|ulia|done|by apply Superblock.encode_page_id_u64]. rsimpl.
  rewrite (read_u64_ok b 16 total); [|lia|lia|ulia|done|ulia]. rsimpl.
  rewrite (read_u16_ok b 24 (len chunk)); [|lia|lia|ulia|done|ulia]. rsimpl.
  destruct (Z.eqb_spec total 0); [lia|]. destruct (Z.ltb_spec MAX_VALUE_SIZE total); [unfold MAX_VALUE_SIZE in *; lia|].
  destruct (Z.eqb_spec (len chunk) 0); [lia|]. rsimpl. unfold OVERFLOW_DATA_OFFSET.
  destruct (Z.ltb_spec (len b) (32 + len chunk)); [lia|]. rsimpl.
  rewrite index_range_ok by lia. rsimpl. rewrite F8.
  unfold decode_page_id, encode_page_id. by rewrite Superblock.decode_encode_page_id.
Qed.

Lemma decode_encode_free lsn next b :
  Superblock.wf_ref next → encode_free next = Ok b → decode_free lsn b = Ok (Free lsn next).
Proof.
  intros Hn [= <-]. set (b := copy_at _ 8 _).
  assert (len b = BODY_SIZE ∧ b.[0; 4) = FREE_MAGIC ∧ b.[4; 6) = to_le 2 LAYOUT_VERSION ∧
    b.[6; 8) = zeros 2 ∧ b.[8; 16) = to_le 8 (encode_page_id next) ∧ b.[16; 4064) = zeros 4048)
    as (Hl & F1 & F2 & F3 & F4 & F5).
  { unfold b. split_and!; [blen|bslice; done..]. }
  clearbody b. assert (HB : BODY_SIZE = 4064) by done.
  unfold decode_free. rewrite check_body_size_ok by done. rsimpl.
  rewrite (index_range_ok b 0 4) by lia. rsimpl. rewrite F1, (proj2 (bytes_eqb_spec _ _)) by done. rsimpl.
  rewrite (index_range_ok b 4 6) by lia. rsimpl. rewrite F2, check_version_ok. rsimpl.
  rewrite (index_range_ok b 6 8), (index_range_ok b 16 (len b)) by lia. rsimpl.
  rewrite Hl, HB, F3, F5, !any_nonzero_zeros. rsimpl.
  rewrite (read_u64_ok b 8 (encode_page_id next));
    [|lia|lia|ulia|done|by apply Superblock.encode_page_id_u64]. rsimpl.
  unfold decode_page_id, encode_page_id. by rewrite Superblock.decode_encode_page_id.
Qed.

(** ** Whole pages *)

Definition wf_page (p : PageData) : Prop :=
  u64 (page_lsn p) ∧
  match p with
  | Leaf _ next es => Superblock.wf_ref next ∧ Forall wf_leaf_entry es
  | Internal _ leftmost es => u64 leftmost ∧ Forall wf_internal_entry es
  | Overflow _ next total _ => Superblock.wf_ref next ∧ 0 ≤ total
  | Free _ next => Superblock.wf_ref next
  end.

Lemma len_encode_body p b : encode_body p = Ok b → len b = BODY_SIZE.
Proof.
  destruct p; simpl.
  - intros (_ & recs & _ & S)%encode_leaf_Ok. apply S.
  - intros (_ & _ & recs & _ & S)%encode_internal_Ok. apply S.
  - intros (_ & _ & _ & ? & _)%encode_overflow_Ok. done.
  - intros [= <-]. blen.
Qed.

Section pages.
Context `{C : Crc32c} {CS : Crc32cSpec C}.

Lemma decode_encode_page p id page :
  wf_page p → u64 id → encode p id = Ok page →
  ∃ d, Page.decode_page_at page (Some id) = Ok d ∧ decode d = Ok p.
Proof.
  intros [Hlsn Hp] Hid. unfold encode. destruct (encode_body p) as [b| |] eqn:Hb; [|done..]. rsimpl.
  intros He. pose proof (len_encode_body _ _ Hb) as Hl.
  apply Page.encode_page_Ok in He as (-> & _ & Hlen). eexists. split.
  - apply Page.decode_sealed_page; [|done|by right]. unfold Page.wf_header; split_and!; simpl; done.
  - unfold decode. rsimpl. cbn [Page.header Page.flags Page.page_type Page.page_lsn Page.body Page.PageHeader_new].
    change (negb (0 =? 0)) with false. rsimpl.
    assert (Page.pad b = b) as ->.
    { unfold Page.pad. rewrite Hl. change (zeros _) with (@nil Z). apply app_nil_r. }
    destruct p; cbn [page_type page_lsn]; [destruct Hp|destruct Hp|destruct Hp|].
    + by apply decode_encode_leaf.
    + by apply decode_encode_internal.
    + by apply decode_encode_overflow.
    + by apply decode_encode_free.
Qed.
End pages.

(** ** Capacity *)

Definition encodable_key (k : bytes) : bool := (len k <=? U16_MAX) && is_ok (Key.decode k).

Definition leaf_space (es : list LeafEntry) : Z :=
  foldr (λ e n, SLOT_SIZE + leaf_record_size e + n) LEAF_HEADER_SIZE es.
Definition internal_space (es : list InternalEntry) : Z :=
  foldr (λ e n, SLOT_SIZE + INTERNAL_RECORD_HEADER_SIZE + len (separator e) + n) INTERNAL_HEADER_SIZE es.

Lemma leaf_space_records es recs :
  Forall2 (λ e r, encode_leaf_record e = Ok r) es recs →
  leaf_space es = 32 + 8 * len es + len (concat recs).
Proof.
  induction 1 as [|e r es recs He HF IH]; [done|]. cbn [leaf_space foldr concat]. fold (leaf_space es).
  rewrite IH, len_cons, len_app. apply encode_leaf_record_Ok in He as (_ & _ & F).
  rewrite (lr_len _ _ F). unfold SLOT_SIZE. lia.
Qed.

Lemma leaf_space_ge es : 32 + 8 * len es ≤ leaf_space es ∧
  Forall (λ e, len (key e) + len (leaf_inline e) + 32 ≤ leaf_space es) es.
Proof.
  induction es as [|e es [IH1 IH2]]; [done|]. cbn [leaf_space foldr]. fold (leaf_space es).
  unfold leaf_record_size, SLOT_SIZE, LEAF_RECORD_HEADER_SIZE. rewrite len_cons. pose_len_nonneg.
  split; [lia|]. constructor; [lia|]. eapply Forall_impl; [done|]. simpl. lia.
Qed.

Lemma leaf_records_encodable n es :
  n ≤ U16_MAX → Forall (λ e, len (key e) + len (leaf_inline e) + 32 ≤ n) es →
  Forall (λ e, is_ok (Key.decode (key e)) = true) es →
  ∃ recs, Forall2 (λ e r, encode_leaf_record e = Ok r) es recs.
Proof.
  intros Hn H2 Hk. induction es as [|e es IH]; [exists []; constructor|].
  inversion_clear Hk. inversion_clear H2. destruct IH as [recs HF]; [done..|].
  pose proof (encode_leaf_record_is_ok e ltac:(lia) ltac:(done)) as Hok.
  destruct (encode_leaf_record e) as [r| |] eqn:Hr; [|done..]. exists (r :: recs). by constructor.
Qed.

(** The slotted leaf is full exactly when the header, the slots and the records
    exceed the 4064 bytes of the body. *)
Lemma leaf_fits_iff es :
  strictly_ordered (key <$> es) = true → Forall (λ e, is_ok (Key.decode (key e)) = true) es →
  leaf_fits es = bool_decide (leaf_space es ≤ BODY_SIZE).
Proof.
  intros Hsort Hk. apply eq_true_iff_eq. rewrite bool_decide_eq_true. split.
  - unfold leaf_fits. destruct (encode_leaf None es) as [b| |] eqn:E; [|done..]. intros _.
    apply encode_leaf_Ok in E as (_ & recs & HF & S). rewrite (leaf_space_records _ _ HF).
    pose proof (sl_room _ _ _ _ _ S). lia.
  - intros Hs. destruct (leaf_space_ge es) as [H1 H2]. assert (HB : BODY_SIZE = 4064) by done.
    pose proof (len_nonneg es).
    assert (∃ recs, Forall2 (λ e r, encode_leaf_record e = Ok r) es recs) as [recs HF].
    { apply (leaf_records_encodable (leaf_space es)); [ulia|done..]. }
    rewrite (leaf_space_records _ _ HF) in Hs. pose proof (len_nonneg (concat recs)).
    unfold leaf_fits, encode_leaf, slot_array_size, LEAF_HEADER_SIZE, SLOT_SIZE, checked_mul.
    destruct (Z.leb_spec (len es * 8) U64_MAX); [|ulia]. rsimpl. rewrite checked_add_ok by ulia. rsimpl.
    destruct (Z.ltb_spec U16_MAX (len es)); [ulia|].
    destruct (Z.ltb_spec BODY_SIZE (32 + len es * 8)); [lia|]. rsimpl.
    unfold ensure_sorted_leaf. rewrite Hsort. rsimpl.
    match goal with |- context [place_records ?a ?b ?c ?d ?e ?f ?g ?h] =>
      pose proof (place_records_fits a b c d e f g h recs) as Hp;
      destruct (place_records a b c d e f g h) as [[[]]| |] end; [done|..];
      (rewrite reverse_involutive in Hp; exfalso; by discriminate Hp; [done|lia..]).
Qed.

(** ** The decoders return on every input *)

Lemma read_array_returns n b o : returns (read_array n b o).
Proof.
  unfold read_array. apply returns_bind; [auto with returns|]. intros a _. by destruct (_ && _).
Qed.
Lemma read_u16_returns b o : returns (read_u16 b o).
Proof. apply returns_fmap, read_array_returns. Qed.
Lemma read_u64_returns b o : returns (read_u64 b o).
Proof. apply returns_fmap, read_array_returns. Qed.
Lemma check_version_returns b : returns (check_version b).
Proof. apply returns_bind; [apply read_u16_returns|auto with returns]. Qed.
Lemma validate_slot_region_returns a b c d e : returns (validate_slot_region a b c d e).
Proof. unfold validate_slot_region. repeat (apply returns_bind; intros; auto with returns). Qed.
Lemma ensure_non_overlapping_returns r k : returns (ensure_non_overlapping r k).
Proof. apply returns_fail_if. Qed.
#[local] Hint Resolve read_u16_returns read_u64_returns check_version_returns
  validate_slot_region_returns ensure_non_overlapping_returns : returns.

Lemma read_u16_nonneg b o z : is_bytes b → read_u16 b o = Ok z → 0 ≤ z.
Proof.
  intros Hb. unfold read_u16, read_array. destruct (checked_add o 2) as [e|]; [|done]. rsimpl.
  destruct (_ && _); [|done]. rsimpl. intros [= <-].
  pose proof (from_le_bound (b.[o; e)) ltac:(auto with dodb)). lia.
Qed.
Lemma read_u64_nonneg b o z : is_bytes b → read_u64 b o = Ok z → 0 ≤ z.
Proof.
  intros Hb. unfold read_u64, read_array. destruct (checked_add o 8) as [e|]; [|done]. rsimpl.
  destruct (_ && _); [|done]. rsimpl. intros [= <-].
  pose proof (from_le_bound (b.[o; e)) ltac:(auto with dodb)). lia.
Qed.

(** One step of a decoder: its first call returns, and the guard it checks or the
    range of the integer it reads is kept. *)
Ltac dec_step :=
  apply returns_bind; [solve [auto with returns]|intros ? ?];
  repeat match goal with
  | H : fail_if _ _ = Ok _ |- _ => apply fail_if_Ok in H
  | H : ok_or _ _ = Ok _ |- _ => apply ok_or_Ok in H
  | H : checked_add _ _ = Some _ |- _ => apply checked_add_Some in H as [-> ?]
  | H : _ || _ = false |- _ => apply orb_false_iff in H as [? ?]
  | H : negb _ = false |- _ => apply negb_false_iff in H
  | H : (_ <? _) = false |- _ => apply Z.ltb_ge in H
  | H : (_ =? _) = true |- _ => apply Z.eqb_eq in H
  | Hb : is_bytes ?b, H : read_u16 ?b _ = Ok _ |- _ => apply read_u16_nonneg in H; [|exact Hb]
  | Hb : is_bytes ?b, H : read_u64 ?b _ = Ok _ |- _ => apply read_u64_nonneg in H; [|exact Hb]
  end.

Lemma decode_leaf_value_returns b f l a k :
  0 ≤ k ≤ len b → 0 ≤ l → returns (decode_leaf_value b f l a k).
Proof.
  intros Hk Hl. unfold decode_leaf_value.
  destruct (f =? 0); [|destruct (f =? 1); [|destruct (f =? 2); [|done]]]; repeat dec_step; done.
Qed.

Lemma decode_leaf_record_returns b k : is_bytes b → 32 ≤ len b → returns (decode_leaf_record b k).
Proof.
  intros Hb Hl. unfold decode_leaf_record, LEAF_RECORD_HEADER_SIZE. repeat dec_step.
  apply returns_bind; [|done]. apply decode_leaf_value_returns; lia.
Qed.

Lemma decode_internal_record_returns b k : 12 ≤ len b → returns (decode_internal_record b k).
Proof. intros Hl. unfold decode_internal_record, INTERNAL_RECORD_HEADER_SIZE. repeat dec_step. done. Qed.

Lemma decode_slots_returns {T} (decode_record : bytes → Z → result T) m kind count b slot rs :
  is_bytes b → 0 ≤ rs → (∀ r k, is_bytes r → m ≤ len r → returns (decode_record r k)) →
  returns (decode_slots decode_record m kind count b slot rs).
Proof.
  intros Hb Hrs Hr. revert slot. induction count as [|count IH]; intros slot; [done|]. cbn [decode_slots].
  do 5 dec_step. rewrite index_range_ok by lia. rsimpl.
  apply returns_bind; [apply Hr; [auto with dodb|rewrite len_slice; lia]|]. intros e _.
  apply returns_bind; [done|]. by intros [].
Qed.

Lemma decode_leaf_returns lsn b : is_bytes b → returns (decode_leaf lsn b).
Proof.
  intros Hb. unfold decode_leaf, check_body_size, LEAF_HEADER_SIZE. assert (BODY_SIZE = 4064) by done.
  repeat dec_step.
  apply returns_bind; [|intros [] _; dec_step; apply returns_bind; [apply returns_fail_if|done]].
  apply decode_slots_returns; [done..|]. intros. by apply decode_leaf_record_returns.
Qed.

Lemma decode_internal_returns lsn b : is_bytes b → returns (decode_internal lsn b).
Proof.
  intros Hb. unfold decode_internal, check_body_size, INTERNAL_HEADER_SIZE. assert (BODY_SIZE = 4064) by done.
  repeat dec_step.
  apply returns_bind; [|intros [] _; dec_step; apply returns_bind; [apply returns_fail_if|done]].
  apply decode_slots_returns; [done..|]. intros. by apply decode_internal_record_returns.
Qed.

Lemma decode_overflow_returns lsn b : is_bytes b → returns (decode_overflow lsn b).
Proof.
  intros Hb. unfold decode_overflow, check_body_size, OVERFLOW_DATA_OFFSET. assert (BODY_SIZE = 4064) by done.
  repeat dec_step. done.
Qed.

Lemma decode_free_returns lsn b : returns (decode_free lsn b).
Proof.
  unfold decode_free, check_body_size. assert (BODY_SIZE = 4064) by done. repeat dec_step. done.
Qed.

Lemma page_data_decode_returns d : is_bytes (Page.body d) → returns (decode d).
Proof.
  intros Hb. unfold decode. dec_step. destruct (Page.page_type _).
  - by apply decode_internal_returns.
  - by apply decode_leaf_returns.
  - by apply decode_overflow_returns.
  - apply decode_free_returns.
  - done.
Qed.

(** ** Properties *)

(** Every page the engine can encode reads back, from its own slot, as the
    page that was written: leaf, internal, overflow or free, through the page
    header, the checksum and the slotted layout. *)
Theorem page_data_roundtrip `{C : Crc32c} {CS : Crc32cSpec C} p id page :
  wf_page p → u64 id → encode p id = Ok page →
  ∃ d, Page.decode_page_at page (Some id) = Ok d ∧ decode d = Ok p.
Proof. apply decode_encode_page. Qed.

(** A sorted list of entries with canonical keys fits one leaf exactly when
    the 32-byte header, an 8-byte slot and a 32-byte record header per entry, the
    keys and the inline values take at most 4064 bytes. *)
Theorem leaf_capacity es :
  strictly_ordered (key <$> es) = true → Forall (λ e, is_ok (Key.decode (key e)) = true) es →
  leaf_fits es = bool_decide (leaf_space es ≤ BODY_SIZE).
Proof. apply leaf_fits_iff. Qed.

(** No page body makes a decoder panic: whatever the slots, lengths and
    offsets in the bytes are, decoding returns a page or an error. *)
Theorem page_data_decode_total d s : is_bytes (Page.body d) → decode d ≠ Stuck s.
Proof. intros. by apply returns_not_stuck, page_data_decode_returns. Qed.

Definition sample_leaf : PageData :=
  Leaf 9 (Some 4)
    [mkLeafEntry (Key.encode (Key.new [97] [])) 3 (Some (Inline [1; 2; 3]));
     mkLeafEntry (Key.encode (Key.new [97] [0; 5])) 5 None;
     mkLeafEntry (Key.encode (Key.new [98] [7])) 8 (Some (OverflowRef 6 9000))].

Lemma sample_leaf_wf : wf_page sample_leaf ∧ u64 3.
Proof. repeat split; try done; repeat constructor; vm_compute; congruence. Qed.

Lemma page_data_roundtrip_witness :
  let C := Castagnoli.instance in
  ∃ page d, encode sample_leaf 3 = Ok page ∧ Page.decode_page_at page (Some 3) = Ok d ∧
            decode d = Ok sample_leaf.
Proof.
  intros C. assert (Hok : is_ok (encode sample_leaf 3) = true) by (vm_compute; reflexivity).
  destruct (encode sample_leaf 3) as [page| |] eqn:E; [|discriminate Hok..].
  destruct (page_data_roundtrip (CS:=Castagnoli.spec) sample_leaf 3 page) as (d & H1 & H2).
  - apply sample_leaf_wf.
  - apply sample_leaf_wf.
  - exact E.
  - exists page, d. exact (conj eq_refl (conj H1 H2)).
Defined.

Lemma leaf_capacity_witness :
  let es := [mkLeafEntry (Key.encode (Key.new [97] [])) 3 (Some (Inline (zeros 4000)))] in
  leaf_fits es = bool_decide (leaf_space es ≤ BODY_SIZE) ∧ leaf_space es = 4077.
Proof.
  intros es. split; [|vm_compute; reflexivity]. apply (leaf_capacity es); [vm_compute; reflexivity|].
  repeat constructor.
Defined.

Lemma page_data_decode_total_witness :
  let d := Page.mkDecoded (Page.PageHeader_new Page.Leaf 3 1) (zeros 4064) in
  decode d ≠ Stuck Panicked.
Proof. intros d. apply (page_data_decode_total d Panicked). apply is_bytes_zeros. Defined.

End FormatLaws.
