(* ===== verification/Reference.v ===== *)
(** * The in-memory reference database

    Models src/crates/dodb-testkit/src/reference.rs, the executable specification
    the repository's differential tests compare the engine with: a map from keys to
    revision states, atomic conditional transactions at a commit LSN, ordered scans
    and queries, and the interactive transaction helper with its read and write
    sets. *)

From S2P Require Import Prelude Key Core.

Module Reference.
Import Core.

Record Document : Type := mkDocument {
  key : DocumentKey;
  doc_value : bytes;
  doc_revision : Revision;
}.

Record ReferenceDb : Type := mkDb {
  states : gmap DocumentKey RevisionState;
  next_lsn : Lsn;
  next_txn_id : TxnId;
}.

Definition set_states (x : gmap DocumentKey RevisionState) (db : ReferenceDb) : ReferenceDb :=
  mkDb x (next_lsn db) (next_txn_id db).
Definition set_next_lsn (x : Lsn) (db : ReferenceDb) : ReferenceDb :=
  mkDb (states db) x (next_txn_id db).
Definition set_next_txn_id (x : TxnId) (db : ReferenceDb) : ReferenceDb :=
  mkDb (states db) (next_lsn db) x.

Abbreviation M := (St ReferenceDb Error).

Definition new : ReferenceDb := mkDb ∅ 1 1.

Definition get (db : ReferenceDb) (k : DocumentKey) : RevisionState :=
  default (Missing ZERO) (states db !! k).

(** ** Transactions at a serialization point *)

(** The state a mutation leaves at its key. *)
Definition mutated (r : Revision) (m : TransactionMutation) : RevisionState :=
  match m with Put _ v => Present v r | Delete _ => Missing r end.

Definition check_condition (c : TransactionCondition) : M unit :=
  db ← get_st;
  let actual := get db (condition_key c) in
  let satisfied := match c with
    | RevisionEquals _ expected => revision actual =? expected
    | Exists _ => negb (is_missing actual)
    | NotExists _ => is_missing actual
    end in
  fail_when (negb satisfied) (Conflict (mkConflict (condition_key c) (expectation c) (observed actual))).

Definition apply_mutation (r : Revision) (m : TransactionMutation) : M unit :=
  modify_st (λ db, set_states (<[mutation_key m := mutated r m]> (states db)) db).

Definition transact_at (request : TransactionRequest) (commit_lsn : Lsn) : M Lsn :=
  fail_when (commit_lsn =? ZERO) (InvalidRequest "a committed transaction LSN must be non-zero");;
  lift_r (validate request);;
  for_each check_condition (conditions request);;
  for_each (apply_mutation (Revision_from commit_lsn)) (mutations request);;
  next ← lift_r (ok_or (checked_add commit_lsn 1) (InternalInvariantViolation "synthetic LSN exhausted"));
  modify_st (λ db, if next_lsn db <? next then set_next_lsn next db else db);;
  mret commit_lsn.

Definition transact (request : TransactionRequest) : M Lsn :=
  db ← get_st;
  transact_at request (next_lsn db).

Definition transact_get (db : ReferenceDb) (keys : list DocumentKey) : list RevisionState :=
  get db <$> keys.

(** ** Ordered reads *)

Definition document (k : DocumentKey) (s : RevisionState) : option Document :=
  match s with Present v r => Some (mkDocument k v r) | Missing _ => None end.

Definition query (db : ReferenceDb) (pk : Key.PrimaryKey) (exclusive_after_sk : option Key.SortKey)
    (limit : Z) : list Document :=
  take (Z.to_nat limit) (omap (λ '(k, s),
    if negb (bytes_eqb (Key.pk k) pk)
       || match exclusive_after_sk with Some cursor => bytes_leb (Key.sk k) cursor | None => false end
    then None else document k s) (btree_iter (states db))).

Definition scan (db : ReferenceDb) (exclusive_after_key : option DocumentKey) (limit : Z) : list Document :=
  take (Z.to_nat limit) (omap (λ '(k, s),
    if match exclusive_after_key with Some cursor => bool_decide (key_le k cursor) | None => false end
    then None else document k s) (btree_iter (states db))).

Definition present_count (db : ReferenceDb) : Z :=
  len (filter (λ s, is_missing s = false) (snd <$> map_to_list (states db))).

(** ** Interactive transactions *)

Record ReferenceTransaction : Type := mkTransaction {
  txn_id : TxnId;
  txn_conditions : list TransactionCondition;
  read_set : ReadSet;
  write_set : WriteSet;
}.

Definition begin_txn : M ReferenceTransaction :=
  db ← get_st;
  match checked_add (next_txn_id db) 1 with
  | Some n => modify_st (set_next_txn_id n);; mret (mkTransaction (next_txn_id db) [] ∅ ∅)
  | None => lift_r (Stuck Panicked)
  end.

Definition observe (db : ReferenceDb) (k : DocumentKey) (t : ReferenceTransaction) : ReferenceTransaction :=
  mkTransaction (txn_id t) (txn_conditions t) (record (read_set t) k (revision (get db k))) (write_set t).

(** [read] gives the caller its own write with the revision it first observed. *)
Definition read (db : ReferenceDb) (k : DocumentKey) (t : ReferenceTransaction)
    : result RevisionState * ReferenceTransaction :=
  let t := observe db k t in
  match write_get (write_set t) k with
  | Some w =>
      match read_get (read_set t) k with
      | Some r => (Ok match w with WPut v => Present v r | WDelete => Missing r end, t)
      | None => (Stuck Panicked, t)
      end
  | None => (Ok (get db k), t)
  end.

Definition txn_put (db : ReferenceDb) (k : DocumentKey) (v : bytes) (t : ReferenceTransaction)
    : ReferenceTransaction :=
  let t := observe db k t in
  mkTransaction (txn_id t) (txn_conditions t) (read_set t) (write_put (write_set t) k v).

Definition txn_delete (db : ReferenceDb) (k : DocumentKey) (t : ReferenceTransaction) : ReferenceTransaction :=
  let t := observe db k t in
  mkTransaction (txn_id t) (txn_conditions t) (read_set t) (write_delete (write_set t) k).

Definition push_condition (c : TransactionCondition) (t : ReferenceTransaction) : ReferenceTransaction :=
  mkTransaction (txn_id t) (txn_conditions t ++ [c]) (read_set t) (write_set t).
Definition revision_equals (k : DocumentKey) (r : Revision) := push_condition (RevisionEquals k r).
Definition exists_ (k : DocumentKey) := push_condition (Exists k).
Definition not_exists (k : DocumentKey) := push_condition (NotExists k).

Definition commit (t : ReferenceTransaction) : M (option Lsn) :=
  let conditions :=
    ((λ '(k, r), RevisionEquals k r) <$> btree_iter (read_set t : gmap DocumentKey Revision)) ++ txn_conditions t in
  let mutations :=
    (λ '(k, w), match w with WPut v => Put k v | WDelete => Delete k end)
      <$> btree_iter (write_set t : gmap DocumentKey WriteIntent) in
  Some <$> transact (mkRequest conditions mutations).

Definition put (k : DocumentKey) (v : bytes) : M Lsn :=
  t ← begin_txn;
  db ← get_st;
  r ← commit (txn_put db k v t);
  lift_r (ok_or r (InternalInvariantViolation "a transaction containing a put produced no commit LSN")).

Definition delete (k : DocumentKey) : M Lsn :=
  t ← begin_txn;
  db ← get_st;
  r ← commit (txn_delete db k t);
  lift_r (ok_or r (InternalInvariantViolation "a transaction containing a delete produced no commit LSN")).

(** ** Lemmas *)

Lemma get_set_states db s k : get (set_states s db) k = default (Missing ZERO) (s !! k).
Proof. done. Qed.

(** The states after a list of mutations. *)
Definition mutate_all (r : Revision) (ms : list TransactionMutation) (s : gmap DocumentKey RevisionState)
    : gmap DocumentKey RevisionState :=
  foldl (λ s m, <[mutation_key m := mutated r m]> s) s ms.

Lemma apply_all r ms db :
  for_each (apply_mutation r) ms db = (Ok tt, set_states (mutate_all r ms (states db)) db).
Proof.
  revert db. induction ms as [|m ms IH]; intros db; [by destruct db|]. simpl.
  unfold mbind, St_bind. simpl. rewrite IH. done.
Qed.

(** Whether a condition holds of a state, as the engine evaluates it. *)
Definition holds (db : ReferenceDb) (c : TransactionCondition) : bool :=
  condition_matches c (observed (get db (condition_key c))).

Lemma check_condition_eq c db :
  check_condition c db =
  (if holds db c then Ok tt
   else Err (Conflict (mkConflict (condition_key c) (expectation c) (observed (get db (condition_key c))))), db).
Proof.
  unfold check_condition, holds, fail_when, lift_r, fail_if, mbind, St_bind. simpl.
  destruct c as [k r|k|k]; simpl; destruct (get db k) as [v r'|r']; simpl; try done;
    by destruct (r' =? r).
Qed.

(** The first condition that does not hold decides. *)
Definition first_conflict (db : ReferenceDb) (cs : list TransactionCondition) : option TransactionConflict :=
  head (omap (λ c, if holds db c then None
    else Some (mkConflict (condition_key c) (expectation c) (observed (get db (condition_key c))))) cs).

Lemma check_all cs db :
  for_each check_condition cs db =
  (match first_conflict db cs with None => Ok tt | Some x => Err (Conflict x) end, db).
Proof.
  induction cs as [|c cs IH]; [done|]. unfold first_conflict in *. cbn [for_each].
  unfold mbind at 1, St_bind at 1. rewrite check_condition_eq. simpl.
  destruct (holds db c); simpl; [by rewrite IH|done].
Qed.

(** What [transact_at] does, branch by branch. *)
Lemma transact_at_eq q lsn db :
  lsn ≠ 0 → lsn < U64_MAX → validate q = Ok tt →
  transact_at q lsn db =
  match first_conflict db (conditions q) with
  | Some x => (Err (Conflict x), db)
  | None => (Ok lsn, mkDb (mutate_all lsn (mutations q) (states db)) (Z.max (next_lsn db) (lsn + 1)) (next_txn_id db))
  end.
Proof.
  intros H0 Hmax Hval. unfold transact_at, fail_when, lift_r, fail_if, mbind, St_bind, ZERO.
  rewrite (proj2 (Z.eqb_neq _ _)) by done. rewrite Hval. cbn [mbind Result_bind]. rewrite check_all.
  destruct (first_conflict db (conditions q)) as [x|]; [done|]. rewrite apply_all. unfold Revision_from.
  rewrite checked_add_ok by lia. simpl. do 2 f_equal. unfold set_next_lsn, set_states. simpl.
  destruct (Z.ltb_spec (next_lsn db) (lsn + 1)); simpl; f_equal; lia.
Qed.

End Reference.
