(* ===== verification/Cache.v ===== *)
(** * Page cache

    Models src/crates/dodb-storage/src/btree/cache.rs: the bounded
    least-recently-used cache of decoded pages with its wrapping clock. *)

From S2P Require Import Prelude Core Format.

Module Cache.
Import Core.

Record CacheEntry : Type := mkEntry {
  page : Format.PageData;
  last_used : Z;
}.

Record PageCache : Type := mkCache {
  capacity : Z;
  pages : gmap PageId CacheEntry;
  clock : Z;
}.

Definition new (capacity : Z) : PageCache := mkCache capacity ∅ 0.

Definition with_pages (c : PageCache) (m : gmap PageId CacheEntry) : PageCache :=
  mkCache (capacity c) m (clock c).

Definition next_clock (c : PageCache) : Z * PageCache :=
  let clock := wrapping_add (clock c) 1 in
  (clock, mkCache (capacity c) (pages c) clock).

Definition get (c : PageCache) (page_id : PageId) : option Format.PageData * PageCache :=
  let '(clock, c) := next_clock c in
  match pages c !! page_id with
  | None => (None, c)
  | Some entry =>
      (Some (page entry), with_pages c (<[page_id := mkEntry (page entry) clock]> (pages c)))
  end.

(** [iter().min_by_key(...)]: the first of the entries with the least key. *)
Fixpoint min_by_last_used (l : list (PageId * CacheEntry)) : option (PageId * Z) :=
  match l with
  | [] => None
  | (id, e) :: l' =>
      match min_by_last_used l' with
      | Some (id', used) => if used <? last_used e then Some (id', used) else Some (id, last_used e)
      | None => Some (id, last_used e)
      end
  end.

(** The [while self.pages.len() > self.capacity] loop; each turn removes a page,
    so [fuel] turns are enough when the map has at most [fuel] pages. *)
Fixpoint evict (fuel : nat) (c : PageCache) : PageCache :=
  match fuel with
  | O => c
  | S fuel' =>
      if capacity c <? Z.of_nat (size (pages c)) then
        match min_by_last_used (map_iter (pages c)) with
        | Some (victim, _) => evict fuel' (with_pages c (delete victim (pages c)))
        | None => c
        end
      else c
  end.

Definition insert (c : PageCache) (page_id : PageId) (p : Format.PageData) : PageCache :=
  if capacity c =? 0 then c
  else
    let '(clock, c) := next_clock c in
    let c := with_pages c (<[page_id := mkEntry p clock]> (pages c)) in
    evict (size (pages c)) c.

Fixpoint insert_many (c : PageCache) (l : list (PageId * Format.PageData)) : PageCache :=
  match l with
  | [] => c
  | (page_id, p) :: l' => insert_many (insert c page_id p) l'
  end.

Definition len (c : PageCache) : Z := Z.of_nat (size (pages c)).

(** The page the cache would return. *)
Definition cached (c : PageCache) (page_id : PageId) : option Format.PageData :=
  page <$> pages c !! page_id.

(** ** Eviction *)

Lemma min_by_last_used_spec l :
  match min_by_last_used l with
  | None => l = []
  | Some (id, used) => (∃ e, (id, e) ∈ l ∧ last_used e = used) ∧
                       ∀ id' e', (id', e') ∈ l → used ≤ last_used e'
  end.
Proof.
  induction l as [|[id e] l IH]; simpl; [done|].
  destruct (min_by_last_used l) as [[id' used]|]; [|subst l]; last first.
  { split; [exists e; set_solver|]. intros ? ? [[= -> ->]|[]%not_elem_of_nil]%elem_of_cons. lia. }
  destruct IH as [(e' & He' & <-) IH]. destruct (Z.ltb_spec (last_used e') (last_used e)).
  - split; [exists e'; set_solver|]. intros ? ? [[= -> ->]|?]%elem_of_cons; [lia|eauto].
  - split; [exists e; set_solver|]. intros ? e'' [[= -> ->]|H']%elem_of_cons; [lia|].
    apply IH in H'. lia.
Qed.

Lemma evict_sub fuel c : pages (evict fuel c) ⊆ pages c.
Proof.
  revert c. induction fuel as [|fuel IH]; intros c; simpl; [done|].
  destruct (_ <? _); [|done]. destruct (min_by_last_used _) as [[v u]|]; [|done].
  etrans; [apply IH|]. simpl. apply delete_subseteq.
Qed.

Lemma evict_capacity fuel c : capacity (evict fuel c) = capacity c ∧ clock (evict fuel c) = clock c.
Proof.
  revert c. induction fuel as [|fuel IH]; intros c; simpl; [done|].
  destruct (_ <? _); [|done]. destruct (min_by_last_used _) as [[v u]|]; [|done]. apply (IH (with_pages c (delete v (pages c)))).
Qed.

(** The loop ends below the capacity. *)
Lemma evict_bound fuel c :
  0 ≤ capacity c → (size (pages c) ≤ fuel)%nat → len (evict fuel c) ≤ capacity c.
Proof.
  revert c. induction fuel as [|fuel IH]; intros c Hc Hs; simpl.
  - unfold len. lia.
  - destruct (Z.ltb_spec (capacity c) (Z.of_nat (size (pages c)))); [|done].
    pose proof (min_by_last_used_spec (map_iter (pages c))) as Hm.
    destruct (min_by_last_used _) as [[v u]|].
    + destruct Hm as [(e & He & _) _]. apply elem_of_map_iter in He.
      apply (IH (with_pages c (delete v (pages c)))); [done|]. simpl.
      rewrite map_size_delete_Some by eauto. lia.
    + assert (pages c = ∅) as E; [|rewrite E, map_size_empty in *; lia].
      apply map_empty. intros i. destruct (pages c !! i) eqn:Hi; [|done].
      apply elem_of_map_iter in Hi. rewrite Hm in Hi. by apply not_elem_of_nil in Hi.
Qed.

(** A page used after all the others is not the victim. *)
Lemma evict_keeps_newest fuel c id e :
  1 ≤ capacity c → pages c !! id = Some e →
  (∀ id' e', pages c !! id' = Some e' → id' ≠ id → last_used e' < last_used e) →
  pages (evict fuel c) !! id = Some e.
Proof.
  revert c. induction fuel as [|fuel IH]; intros c Hc Hid Hnew; simpl; [done|].
  destruct (Z.ltb_spec (capacity c) (Z.of_nat (size (pages c)))); [|done].
  pose proof (min_by_last_used_spec (map_iter (pages c))) as Hm.
  destruct (min_by_last_used _) as [[v u]|]; [|done]. destruct Hm as [(ev & Hv & <-) Hmin].
  apply elem_of_map_iter in Hv.
  assert (v ≠ id) as Hne.
  { intros ->. assert (∃ id' e', pages c !! id' = Some e' ∧ id' ≠ id) as (id' & e' & He' & Hne).
    { assert (0 < size (delete id (pages c)))%nat as Hs
        by (rewrite map_size_delete_Some by eauto; lia).
      destruct (map_choose (delete id (pages c))) as (i & x & Hi).
      { intros E. rewrite E, map_size_empty in Hs. lia. }
      apply lookup_delete_Some in Hi as [? ?]. eauto. }
    pose proof (Hnew _ _ He' Hne). apply elem_of_map_iter, Hmin in He'. simplify_eq. lia. }
  apply (IH (with_pages c (delete v (pages c)))); simpl; [done|by rewrite lookup_delete_ne|].
  intros id' e' [? ?]%lookup_delete_Some. eauto.
Qed.

(** ** Coherence and the clock *)

(** Every cached page is the page the committed view holds. *)
Definition coherent (view : PageId → option Format.PageData) (c : PageCache) : Prop :=
  ∀ id p, cached c id = Some p → view id = Some p.

(** No entry is newer than the clock; the clock has room for [n] more ticks. *)
Definition clock_ok (c : PageCache) : Prop :=
  0 ≤ clock c ∧ ∀ id e, pages c !! id = Some e → last_used e ≤ clock c.

Lemma cached_get c id i : cached (get c id).2 i = cached c i.
Proof.
  unfold get, cached. simpl. destruct (pages c !! id) eqn:E; simpl; [|done].
  destruct (decide (i = id)) as [->|]; [by rewrite lookup_insert_eq, E|by rewrite lookup_insert_ne].
Qed.

Lemma get_cached c id : (get c id).1 = cached c id.
Proof. unfold get, cached. simpl. by destruct (pages c !! id). Qed.

Lemma cached_insert c id p i q :
  cached (insert c id p) i = Some q → cached c i = Some q ∧ i ≠ id ∨ i = id ∧ q = p ∨ capacity c = 0 ∧ cached c i = Some q.
Proof.
  unfold insert. destruct (Z.eqb_spec (capacity c) 0); [naive_solver|]. simpl.
  unfold cached. intros Hq. apply fmap_Some in Hq as (e & He & ->).
  eapply lookup_weaken in He; [|apply evict_sub]. simpl in He.
  apply lookup_insert_Some in He as [[<- <-]|[Hne He]]; [right; left; done|].
  left. rewrite He. done.
Qed.

Lemma insert_bound c id p : 0 ≤ capacity c → len c ≤ capacity c → len (insert c id p) ≤ capacity c.
Proof.
  intros Hc Hl. unfold insert. destruct (capacity c =? 0); [done|]. simpl.
  match goal with |- len (evict ?n ?c') ≤ _ => apply (evict_bound n c') end; done.
Qed.

Lemma capacity_insert c id p : capacity (insert c id p) = capacity c.
Proof.
  unfold insert. destruct (capacity c =? 0); [done|]. simpl. by rewrite (proj1 (evict_capacity _ _)).
Qed.

(** Inserting pages never takes the cache above its capacity. *)
Lemma insert_many_bounded c l :
  0 ≤ capacity c → len c ≤ capacity c → len (insert_many c l) ≤ capacity c.
Proof.
  revert c. induction l as [|[id p] l IH]; intros c Hc Hl; simpl; [done|].
  rewrite <-(capacity_insert c id p). apply IH; rewrite capacity_insert; [done|].
  by apply insert_bound.
Qed.

(** A cache within its capacity; with capacity zero it is empty. *)
Definition sized (c : PageCache) : Prop := 0 ≤ capacity c ∧ len c ≤ capacity c.

Lemma sized_new n : 0 ≤ n → sized (new n).
Proof. split; [done|]. unfold len. simpl. by rewrite map_size_empty. Qed.
Lemma sized_get c id : sized c → sized (get c id).2.
Proof.
  intros [H1 H2]. unfold get, sized, len in *. simpl. destruct (pages c !! id) eqn:E; simpl; [|done].
  by rewrite map_size_insert_Some by eauto.
Qed.
Lemma capacity_insert_many c l : capacity (insert_many c l) = capacity c.
Proof. revert c. induction l as [|[id p] l IH]; intros c; simpl; [done|]. by rewrite IH, capacity_insert. Qed.
Lemma sized_insert_many c l : sized c → sized (insert_many c l).
Proof.
  intros [H1 H2]. unfold sized. rewrite capacity_insert_many. split; [done|]. by apply insert_many_bounded.
Qed.

Lemma cached_insert_sized c id p i q :
  sized c → cached (insert c id p) i = Some q → cached c i = Some q ∧ i ≠ id ∨ i = id ∧ q = p.
Proof.
  intros [H1 H2] [?|[?|[Hz Hq]]]%cached_insert; [by left|by right|]. exfalso.
  assert (pages c = ∅) as E by (apply map_size_empty_inv; unfold len in H2; lia).
  unfold cached in Hq. by rewrite E, lookup_empty in Hq.
Qed.

(** After a batch of insertions an entry is one of the batch or an old one that the
    batch did not replace. *)
Lemma cached_insert_many c l i q :
  sized c → NoDup l.*1 → cached (insert_many c l) i = Some q → (i, q) ∈ l ∨ (i ∉ l.*1) ∧ cached c i = Some q.
Proof.
  revert c. induction l as [|[id p] l IH]; intros c Hs Hnd; simpl.
  { intros Hq. right. split; [apply not_elem_of_nil|done]. }
  apply NoDup_cons in Hnd as [Hid Hnd]. intros Hq. apply IH in Hq; [|exact (sized_insert_many c [(id, p)] Hs)|done].
  destruct Hq as [Hq|[Hl Hq]]; [left; by right|].
  apply cached_insert_sized in Hq as [[Hq Hne]|[-> ->]]; [|left; by left|done].
  right. split; [|done]. apply not_elem_of_cons. done.
Qed.

(** ** Properties *)

(** A cache that is coherent with a committed view stays coherent when the
    pages of a commit are inserted and the view is updated with the same pages:
    no read ever returns a page an earlier commit has replaced. *)
Theorem insert_coherent c (view : gmap PageId Format.PageData) id p :
  capacity c ≠ 0 → coherent (view !!.) c →
  coherent ((<[id := p]> view) !!.) (insert c id p) ∧
  coherent (view !!.) (get c id).2 ∧ (∀ q, (get c id).1 = Some q → view !! id = Some q).
Proof.
  intros Hcap Hc. split_and!.
  - intros i q [[Hq ?]|[[-> ->]|[? _]]]%cached_insert; [..|done].
    + rewrite lookup_insert_ne by done. by apply Hc.
    + by rewrite lookup_insert_eq.
  - intros i q. rewrite cached_get. apply Hc.
  - intros q. rewrite get_cached. apply Hc.
Qed.

(** Until the 64-bit clock wraps, the page that was inserted last is in the
    cache: eviction removes an older page. *)
Lemma insert_keeps_newest c id p :
  1 ≤ capacity c → clock_ok c → clock c < U64_MAX →
  cached (insert c id p) id = Some p ∧ clock_ok (insert c id p).
Proof.
  intros Hcap [H0 Hclk] Hmax. unfold insert. destruct (Z.eqb_spec (capacity c) 0); [lia|]. simpl.
  assert (wrapping_add (clock c) 1 = clock c + 1) as ->.
  { unfold wrapping_add. apply Z.mod_small. ulia. }
  split.
  - unfold cached. erewrite evict_keeps_newest; [|done|apply lookup_insert_eq|]; simpl; [done|].
    intros id' e' [[-> _]|[_ He]]%lookup_insert_Some Hne; [done|]. apply Hclk in He. simpl. lia.
  - match goal with |- clock_ok (evict ?n ?c') => destruct (evict_capacity n c') as [_ Hclock] end.
    split; rewrite Hclock; simpl; [lia|]. intros i e Hi.
    eapply lookup_weaken in Hi; [|apply evict_sub]. simpl in Hi.
    apply lookup_insert_Some in Hi as [[_ <-]|[_ Hi]]; simpl; [lia|]. apply Hclk in Hi. lia.
Qed.

Definition sample : PageCache := insert (insert (new 1) 2 (Format.Free 1 None)) 3 (Format.Free 2 None).

Lemma insert_coherent_witness :
  coherent ((<[3 := Format.Free 9 None]> ({[3 := Format.Free 2 None]} : gmap Z Format.PageData)) !!.)
    (insert sample 3 (Format.Free 9 None)).
Proof.
  apply (insert_coherent sample {[3 := Format.Free 2 None]} 3 (Format.Free 9 None)); [vm_compute; congruence|].
  intros id q Hq. apply fmap_Some in Hq as (e & He & ->).
  change (pages sample) with ({[3 := mkEntry (Format.Free 2 None) 2]} : gmap Z CacheEntry) in He.
  apply lookup_singleton_Some in He as [<- <-]. reflexivity.
Defined.

End Cache.
