(* ===== verification/Overlay.v ===== *)
(** * The copy-on-write overlay of the B+Tree

    Models the [Overlay] of src/crates/dodb-storage/src/btree/mod.rs: every request
    runs against an overlay of decoded pages in front of the committed store, and
    finishing the overlay produces the page images of one commit.  What the overlay
    needs of the committed store is the class [CommittedStore]; the store of
    Store.v implements it.

    Loops that the source bounds by a [visited] set or by a page count take fuel.
    A traversal visits each page at most once and every page lies between
    [FIRST_DATA_PAGE] and the high-water page, so [S high_water] turns are enough
    for it; an overflow chain is cut off after [MAX_OVERFLOW_PAGES] pages. *)

From S2P Require Import Prelude Key Core Page Superblock Format.

Module Overlay.
Import Core.

Abbreviation PageData := Format.PageData.
Abbreviation ValueRef := Format.ValueRef.
Abbreviation LeafEntry := Format.LeafEntry.
Abbreviation InternalEntry := Format.InternalEntry.
Abbreviation Superblock := Superblock.Superblock.
Abbreviation SuperblockSlot := Superblock.SuperblockSlot.

Definition FIRST_DATA_PAGE : Z := 2.
Definition MAX_ENCODED_KEY_SIZE : Z := 3992.

Record StorageLimits : Type := mkLimits {
  inline_value_limit : Z;
  max_value_size : Z;
}.
Definition default_limits : StorageLimits :=
  mkLimits Format.INLINE_VALUE_LIMIT Format.MAX_VALUE_SIZE.

Record Document : Type := mkDocument {
  doc_key : DocumentKey;
  doc_value : bytes;
  doc_revision : Revision;
}.

Inductive BatchRequest : Type :=
  | ReqGet (key : DocumentKey)
  | ReqPut (key : DocumentKey) (value : bytes)
  | ReqDelete (key : DocumentKey)
  | ReqQuery (pk : Key.PrimaryKey) (exclusive_after_sk : option Key.SortKey) (limit : Z)
  | ReqScan (exclusive_after_key : option DocumentKey) (limit : Z).

Inductive BatchResponse : Type :=
  | RespGet (state : RevisionState)
  | RespPut (r : Revision)
  | RespDelete (r : Revision)
  | RespQuery (rows : list Document)
  | RespScan (rows : list Document).

Record PreparedBatch : Type := mkPrepared {
  responses : list BatchResponse;
  changed_pages : gmap PageId bytes;
  changed_decoded : gmap PageId PageData;
  prepared_read_pages : gmap PageId PageData;
  new_superblock : Superblock;
  new_slot : SuperblockSlot;
  base_generation : Z;
  prepared_next_revision : Revision;
  prepared_root : PageId;
  prepared_free_list_head : option PageId;
  prepared_high_water : PageId;
  prepared_commit_lsn : option Lsn;
  batch_id : Z;
}.

(** ** Response budget *)

Definition RESPONSE_WIRE_OVERHEAD : Z := 17.
Definition RESPONSE_MEMORY_OVERHEAD : Z := 64 * 1024.

Record ResponseBudget : Type := mkBudget {
  maximum_wire : Z;
  maximum_memory : Z;
  used_wire : Z;
  used_memory : Z;
}.

Definition budget_new (maximum : Z) : result ResponseBudget :=
  fail_if (maximum <? RESPONSE_WIRE_OVERHEAD)
    (ResponseTooLarge "response envelope exceeds {maximum} bytes");;
  Ok (mkBudget maximum (saturating_add maximum RESPONSE_MEMORY_OVERHEAD) RESPONSE_WIRE_OVERHEAD 0).

Definition reserve (wire memory : Z) : St ResponseBudget Error unit :=
  b ← get_st;
  next_wire ← lift_r (ok_or (checked_add (used_wire b) wire)
    (ResponseTooLarge "encoded response size overflows"));
  next_memory ← lift_r (ok_or (checked_add (used_memory b) memory)
    (ResponseTooLarge "response materialization size overflows"));
  fail_when ((maximum_wire b <? next_wire) || (maximum_memory b <? next_memory))
    (ResponseTooLarge "response materialization exceeds {} bytes");;
  modify_st (λ b, mkBudget (maximum_wire b) (maximum_memory b) next_wire next_memory).

Definition reserve_state (value_len : Z) : St ResponseBudget Error unit :=
  reserve (1 + 4 + value_len + 8) (saturating_add value_len 32).

Definition reserve_document (key : DocumentKey) (value_len : Z) : St ResponseBudget Error unit :=
  let sum := saturating_add (saturating_add (len (Key.pk key)) (len (Key.sk key))) value_len in
  let materialized := saturating_add sum 64 in
  let encoded := saturating_add sum 20 in
  let wire := saturating_add sum 20 in
  reserve wire (Z.max materialized encoded).

(** ** What the committed store offers *)

Record StoreHeader : Type := mkStoreHeader {
  sh_wal : bool;
  sh_superblock : Superblock;
  sh_slot : SuperblockSlot;
  sh_root_page_id : PageId;
  sh_free_list_head : option PageId;
  sh_high_water_page_id : PageId;
  sh_next_revision : Revision;
  sh_next_lsn : Lsn;
  sh_next_batch_id : Z;
  sh_limits : StorageLimits;
}.

Class CommittedStore (B : Type) : Type := {
  header : B → StoreHeader;
  cache_get : PageId → B → option PageData * B;
  read_page_from_file : PageId → St B Error PageData;
}.

(** ** The overlay *)

Record Overlay (B : Type) : Type := mkOverlay {
  store : B;
  pages : gmap PageId PageData;
  dirty : gset PageId;
  read_pages : gmap PageId PageData;
  allocated : gset PageId;
  root_page_id : PageId;
  free_list_head : option PageId;
  high_water_page_id : PageId;
  next_revision : Revision;
  last_lsn : option Lsn;
  next_lsn : Lsn;
  next_batch_id : Z;
  current_superblock : Superblock;
  active_slot : SuperblockSlot;
}.
#[global] Arguments mkOverlay {B}.
#[global] Arguments store {B} _.
#[global] Arguments pages {B} _.
#[global] Arguments dirty {B} _.
#[global] Arguments read_pages {B} _.
#[global] Arguments allocated {B} _.
#[global] Arguments root_page_id {B} _.
#[global] Arguments free_list_head {B} _.
#[global] Arguments high_water_page_id {B} _.
#[global] Arguments next_revision {B} _.
#[global] Arguments last_lsn {B} _.
#[global] Arguments next_lsn {B} _.
#[global] Arguments next_batch_id {B} _.
#[global] Arguments current_superblock {B} _.
#[global] Arguments active_slot {B} _.

(** Field assignments. *)
Section setters.
Context {B : Type}.
Implicit Type o : Overlay B.

Definition set_store (x : B) o : Overlay B :=
  mkOverlay x (pages o) (dirty o) (read_pages o) (allocated o) (root_page_id o) (free_list_head o)
    (high_water_page_id o) (next_revision o) (last_lsn o) (next_lsn o) (next_batch_id o)
    (current_superblock o) (active_slot o).
Definition set_pages (x : gmap PageId PageData) o : Overlay B :=
  mkOverlay (store o) x (dirty o) (read_pages o) (allocated o) (root_page_id o) (free_list_head o)
    (high_water_page_id o) (next_revision o) (last_lsn o) (next_lsn o) (next_batch_id o)
    (current_superblock o) (active_slot o).
Definition set_dirty (x : gset PageId) o : Overlay B :=
  mkOverlay (store o) (pages o) x (read_pages o) (allocated o) (root_page_id o) (free_list_head o)
    (high_water_page_id o) (next_revision o) (last_lsn o) (next_lsn o) (next_batch_id o)
    (current_superblock o) (active_slot o).
Definition set_read_pages (x : gmap PageId PageData) o : Overlay B :=
  mkOverlay (store o) (pages o) (dirty o) x (allocated o) (root_page_id o) (free_list_head o)
    (high_water_page_id o) (next_revision o) (last_lsn o) (next_lsn o) (next_batch_id o)
    (current_superblock o) (active_slot o).
Definition set_allocated (x : gset PageId) o : Overlay B :=
  mkOverlay (store o) (pages o) (dirty o) (read_pages o) x (root_page_id o) (free_list_head o)
    (high_water_page_id o) (next_revision o) (last_lsn o) (next_lsn o) (next_batch_id o)
    (current_superblock o) (active_slot o).
Definition set_root (x : PageId) o : Overlay B :=
  mkOverlay (store o) (pages o) (dirty o) (read_pages o) (allocated o) x (free_list_head o)
    (high_water_page_id o) (next_revision o) (last_lsn o) (next_lsn o) (next_batch_id o)
    (current_superblock o) (active_slot o).
Definition set_free_list_head (x : option PageId) o : Overlay B :=
  mkOverlay (store o) (pages o) (dirty o) (read_pages o) (allocated o) (root_page_id o) x
    (high_water_page_id o) (next_revision o) (last_lsn o) (next_lsn o) (next_batch_id o)
    (current_superblock o) (active_slot o).
Definition set_high_water (x : PageId) o : Overlay B :=
  mkOverlay (store o) (pages o) (dirty o) (read_pages o) (allocated o) (root_page_id o)
    (free_list_head o) x (next_revision o) (last_lsn o) (next_lsn o) (next_batch_id o)
    (current_superblock o) (active_slot o).
Definition set_last_lsn (x : option Lsn) o : Overlay B :=
  mkOverlay (store o) (pages o) (dirty o) (read_pages o) (allocated o) (root_page_id o)
    (free_list_head o) (high_water_page_id o) (next_revision o) x (next_lsn o) (next_batch_id o)
    (current_superblock o) (active_slot o).
Definition set_next_revision (x : Revision) o : Overlay B :=
  mkOverlay (store o) (pages o) (dirty o) (read_pages o) (allocated o) (root_page_id o)
    (free_list_head o) (high_water_page_id o) x (last_lsn o) (next_lsn o) (next_batch_id o)
    (current_superblock o) (active_slot o).
Definition set_next_lsn (x : Lsn) o : Overlay B :=
  mkOverlay (store o) (pages o) (dirty o) (read_pages o) (allocated o) (root_page_id o)
    (free_list_head o) (high_water_page_id o) (next_revision o) (last_lsn o) x (next_batch_id o)
    (current_superblock o) (active_slot o).
Definition set_next_batch_id (x : Z) o : Overlay B :=
  mkOverlay (store o) (pages o) (dirty o) (read_pages o) (allocated o) (root_page_id o)
    (free_list_head o) (high_water_page_id o) (next_revision o) (last_lsn o) (next_lsn o) x
    (current_superblock o) (active_slot o).
Definition set_current_superblock (x : Superblock) (slot : SuperblockSlot) o : Overlay B :=
  mkOverlay (store o) (pages o) (dirty o) (read_pages o) (allocated o) (root_page_id o)
    (free_list_head o) (high_water_page_id o) (next_revision o) (last_lsn o) (next_lsn o)
    (next_batch_id o) x slot.
End setters.

Section overlay.
Context {B : Type} `{CB : CommittedStore B}.

Abbreviation M := (St (Overlay B) Error).

(** [Overlay::new]. *)
Definition overlay_new (b : B) : Overlay B :=
  let h := header b in
  mkOverlay b ∅ ∅ ∅ ∅ (sh_root_page_id h) (sh_free_list_head h) (sh_high_water_page_id h)
    (sh_next_revision h) None (sh_next_lsn h) (sh_next_batch_id h) (sh_superblock h) (sh_slot h).

(** *** Pages *)

Definition check_page_id (page_id : PageId) : M unit :=
  o ← get_st;
  fail_when ((page_id <? FIRST_DATA_PAGE) || (high_water_page_id o <? page_id))
    (Corruption "page id {} is outside the allocated range").

Definition page (page_id : PageId) : M PageData :=
  check_page_id page_id;;
  o ← get_st;
  match pages o !! page_id with
  | Some p => mret p
  | None =>
      let '(hit, b) := cache_get page_id (store o) in
      modify_st (set_store b);;
      match hit with
      | Some p =>
          modify_st (λ o, set_pages (<[page_id := p]> (pages o)) o);;
          mret p
      | None =>
          p ← zoom store set_store (read_page_from_file page_id);
          modify_st (λ o, set_read_pages (<[page_id := p]> (read_pages o)) o);;
          modify_st (λ o, set_pages (<[page_id := p]> (pages o)) o);;
          mret p
      end
  end.

Definition replace_page (page_id : PageId) (p : PageData) : M unit :=
  modify_st (λ o, set_dirty ({[page_id]} ∪ dirty o) (set_pages (<[page_id := p]> (pages o)) o)).

Record LeafPage : Type := mkLeafPage {
  leaf_next : option PageId;
  leaf_entries : list LeafEntry;
}.
Record InternalPage : Type := mkInternalPage {
  internal_leftmost : PageId;
  internal_entries : list InternalEntry;
}.

Definition leaf (page_id : PageId) : M LeafPage :=
  p ← page page_id;
  match p with
  | Format.Leaf _ next_leaf entries => mret (mkLeafPage next_leaf entries)
  | _ => throw (Corruption "expected a leaf page")
  end.

Definition internal (page_id : PageId) : M InternalPage :=
  p ← page page_id;
  match p with
  | Format.Internal _ leftmost_child entries => mret (mkInternalPage leftmost_child entries)
  | _ => throw (Corruption "expected an internal page")
  end.

Definition allocate_page : M PageId :=
  o ← get_st;
  match free_list_head o with
  | Some page_id =>
      p ← page page_id;
      match p with
      | Format.Free _ next =>
          modify_st (set_free_list_head next);;
          modify_st (λ o, set_allocated ({[page_id]} ∪ allocated o) o);;
          mret page_id
      | _ => throw (Corruption "free-list head is not a free page")
      end
  | None =>
      match checked_add (high_water_page_id o) 1 with
      | Some page_id =>
          modify_st (set_high_water page_id);;
          modify_st (λ o, set_allocated ({[page_id]} ∪ allocated o) o);;
          mret page_id
      | None => throw (InternalInvariantViolation "page id exhausted")
      end
  end.

Definition free_page (page_id : PageId) (lsn : Revision) : M unit :=
  modify_st (λ o, set_allocated (allocated o ∖ {[page_id]}) o);;
  o ← get_st;
  replace_page page_id (Format.Free lsn (free_list_head o));;
  modify_st (set_free_list_head (Some page_id)).

Definition allocate_revision : M Revision :=
  o ← get_st;
  let revision := match last_lsn o with Some l => Revision_from l | None => next_revision o end in
  modify_st (set_last_lsn (Some revision));;
  mret revision.

(** *** Searching *)

(** [partition_point]: the length of the prefix that satisfies the predicate. *)
Fixpoint partition_point {A} (pred : A → bool) (l : list A) : nat :=
  match l with
  | x :: l' => if pred x then S (partition_point pred l') else O
  | [] => O
  end.

(** [binary_search_by(|entry| entry.key.cmp(&key))] on a sorted slice. *)
Definition binary_search (entries : list LeafEntry) (key : bytes) : nat + nat :=
  let i := partition_point (λ e, bytes_ltb (Format.key e) key) entries in
  match entries !! i with
  | Some e => if bytes_eqb (Format.key e) key then inl i else inr i
  | None => inr i
  end.

(** [Vec::insert]. *)
Definition vec_insert {A} (i : nat) (x : A) (l : list A) : list A := take i l ++ x :: drop i l.

(** The child an internal page routes [key] to. *)
Definition child_for (leftmost : PageId) (entries : list InternalEntry) (key : bytes)
    : result PageId :=
  let i := partition_point (λ e, bytes_leb (Format.separator e) key) entries in
  match i with
  | O => Ok leftmost
  | S i' => Format.right_child <$> index entries (Z.of_nat i')
  end.

Fixpoint find_leaf_loop (fuel : nat) (key : bytes) (page_id : PageId) (route : list PageId)
    (visited : gset PageId) : M (PageId * list PageId) :=
  match fuel with
  | O => lift_r (Stuck OutOfFuel)
  | S fuel' =>
      fail_when (bool_decide (page_id ∈ visited)) (Corruption "tree traversal contains a cycle");;
      let route := route ++ [page_id] in
      p ← page page_id;
      match p with
      | Format.Leaf _ _ _ => mret (page_id, route)
      | Format.Internal _ leftmost_child entries =>
          child ← lift_r (child_for leftmost_child entries key);
          find_leaf_loop fuel' key child route ({[page_id]} ∪ visited)
      | _ => throw (Corruption "tree child has an impossible page type")
      end
  end.

Definition traversal_fuel (o : Overlay B) : nat := S (S (Z.to_nat (high_water_page_id o))).

Definition find_leaf (key : bytes) : M (PageId * list PageId) :=
  o ← get_st;
  find_leaf_loop (traversal_fuel o) key (root_page_id o) [] ∅.

Fixpoint leftmost_leaf_loop (fuel : nat) (page_id : PageId) (visited : gset PageId) : M PageId :=
  match fuel with
  | O => lift_r (Stuck OutOfFuel)
  | S fuel' =>
      fail_when (bool_decide (page_id ∈ visited)) (Corruption "leftmost traversal contains a cycle");;
      p ← page page_id;
      match p with
      | Format.Leaf _ _ _ => mret page_id
      | Format.Internal _ leftmost_child _ =>
          leftmost_leaf_loop fuel' leftmost_child ({[page_id]} ∪ visited)
      | _ => throw (Corruption "tree child has an impossible page type")
      end
  end.

Definition leftmost_leaf : M PageId :=
  o ← get_st;
  leftmost_leaf_loop (traversal_fuel o) (root_page_id o) ∅.

(** *** Values *)

Definition value_length (v : ValueRef) : Z :=
  match v with Format.Inline b => len b | Format.OverflowRef _ length => length end.

Definition validate_value (value : bytes) : M unit :=
  o ← get_st;
  let limit := max_value_size (sh_limits (header (store o))) in
  fail_when ((limit <? len value) || (Format.MAX_VALUE_SIZE <? len value))
    (InvalidInput "value is {} bytes, maximum is {}").

Definition validate_encoded_key (key : bytes) : result unit :=
  fail_if (MAX_ENCODED_KEY_SIZE <? len key)
    (InvalidInput "encoded document key is {} bytes, maximum is {MAX_ENCODED_KEY_SIZE}").

(** [for _ in 0..n { page_ids.push(self.allocate_page()?) }]. *)
Fixpoint allocate_pages (n : nat) : M (list PageId) :=
  match n with
  | O => mret []
  | S n' => page_id ← allocate_page; page_ids ← allocate_pages n'; mret (page_id :: page_ids)
  end.

(** [slice::chunks]; every chunk but the last has [n] elements. *)
Fixpoint chunks_loop {A} (fuel : nat) (n : nat) (l : list A) : list (list A) :=
  match fuel, l with
  | S fuel', _ :: _ => take n l :: chunks_loop fuel' n (drop n l)
  | _, _ => []
  end.
Definition chunks {A} (n : Z) (l : list A) : list (list A) := chunks_loop (length l) (Z.to_nat n) l.

(** The chunk loop of [make_value]: [page_ids[index]] is the head of [ids] and
    [page_ids.get(index + 1)] the head of its tail. *)
Fixpoint write_chunks (lsn : Revision) (total : Z) (ids : list PageId) (cs : list bytes) : M unit :=
  match cs with
  | [] => mret tt
  | chunk :: cs' =>
      match ids with
      | [] => lift_r (Stuck Panicked)
      | page_id :: ids' =>
          replace_page page_id (Format.Overflow lsn (head ids') total chunk);;
          write_chunks lsn total ids' cs'
      end
  end.

Definition make_value (value : bytes) (lsn : Revision) : M ValueRef :=
  o ← get_st;
  if (len value <=? inline_value_limit (sh_limits (header (store o))))
     && (len value <=? Format.INLINE_VALUE_LIMIT)
  then mret (Format.Inline value)
  else
    let ids := Format.div_ceil (len value) Format.OVERFLOW_DATA_SIZE in
    fail_when (Format.MAX_OVERFLOW_PAGES <? ids)
      (InvalidInput "value requires too many overflow pages");;
    page_ids ← allocate_pages (Z.to_nat ids);
    write_chunks lsn (len value) page_ids (chunks Format.OVERFLOW_DATA_SIZE value);;
    head ← lift_r (index page_ids 0);
    mret (Format.OverflowRef head (len value)).

Definition chain_fuel : nat := S (Z.to_nat Format.MAX_OVERFLOW_PAGES).

Fixpoint free_value_loop (fuel : nat) (length : Z) (lsn : Revision) (page_id : option PageId)
    (visited : gset PageId) (count total_length : Z) : M Z :=
  match page_id with
  | None => mret total_length
  | Some current =>
      match fuel with
      | O => lift_r (Stuck OutOfFuel)
      | S fuel' =>
          fail_when (bool_decide (current ∈ visited) || (Format.MAX_OVERFLOW_PAGES <=? count))
            (Corruption "overflow chain is cyclic or too long");;
          p ← page current;
          match p with
          | Format.Overflow _ next page_total chunk =>
              fail_when (negb (page_total =? length))
                (Corruption "overflow length metadata disagrees with leaf");;
              total ← lift_r (ok_or (checked_add total_length (len chunk))
                (Corruption "overflow length overflows"));
              free_page current lsn;;
              free_value_loop fuel' length lsn next ({[current]} ∪ visited) (count + 1) total
          | _ => throw (Corruption "value reference points to a non-overflow page")
          end
      end
  end.

Definition free_value (value : option ValueRef) (lsn : Revision) : M unit :=
  match value with
  | Some (Format.OverflowRef head length) =>
      total ← free_value_loop chain_fuel length lsn (Some head) ∅ 0 0;
      fail_when (negb (total =? length) || (length =? 0))
        (Corruption "overflow chain content length is invalid")
  | _ => mret tt
  end.

Fixpoint read_value_loop (fuel : nat) (length : Z) (page_id : option PageId)
    (visited : gset PageId) (count : Z) (output : bytes) : M bytes :=
  match page_id with
  | None => mret output
  | Some current =>
      match fuel with
      | O => lift_r (Stuck OutOfFuel)
      | S fuel' =>
          fail_when (bool_decide (current ∈ visited) || (Format.MAX_OVERFLOW_PAGES <=? count))
            (Corruption "overflow chain is cyclic or too long");;
          p ← page current;
          match p with
          | Format.Overflow _ next total_length chunk =>
              fail_when (negb (total_length =? length))
                (Corruption "overflow length metadata disagrees with leaf");;
              read_value_loop fuel' length next ({[current]} ∪ visited) (count + 1)
                (output ++ chunk)
          | _ => throw (Corruption "value reference points to a non-overflow page")
          end
      end
  end.

Definition read_value (value : ValueRef) : M bytes :=
  match value with
  | Format.Inline v => mret v
  | Format.OverflowRef head length =>
      output ← read_value_loop chain_fuel length (Some head) ∅ 0 [];
      fail_when (negb (len output =? length)) (Corruption "overflow content length is invalid");;
      mret output
  end.

(** *** Splits *)

(** [candidates.sort_by_key(|c| c.abs_diff(middle))] is stable and starts from
    ascending candidates: the order is by distance, then by candidate. *)
Definition closer (middle : Z) (a b : Z) : Prop :=
  Z.abs (a - middle) < Z.abs (b - middle) ∨ Z.abs (a - middle) = Z.abs (b - middle) ∧ a ≤ b.
#[global] Instance closer_dec middle : RelDecision (closer middle).
Proof. intros a b. unfold closer. apply _. Defined.

Definition split_candidates (length : Z) : list Z :=
  merge_sort (closer (length / 2)) (seqZ 1 (length - 1)).

Definition choose_leaf_split (entries : list LeafEntry) : result Z :=
  match list_find (λ c, Format.leaf_fits (entries.[0; c)) && Format.leaf_fits (entries.[c; len entries)))
          (split_candidates (len entries)) with
  | Some (_, candidate) => Ok candidate
  | None => Err (InvalidInput "a single leaf entry exceeds page capacity")
  end.

(** Whether a candidate of [choose_internal_split] is taken; the candidates are
    in range, so [entries[candidate]] does not panic. *)
Definition internal_split_fits (leftmost : PageId) (entries : list InternalEntry) (candidate : Z) : bool :=
  match entries !! Z.to_nat candidate with
  | Some e => Format.internal_fits leftmost (entries.[0; candidate))
              && Format.internal_fits (Format.right_child e) (entries.[candidate + 1; len entries))
  | None => false
  end.

Definition choose_internal_split (leftmost : PageId) (entries : list InternalEntry) : result Z :=
  fail_if (len entries <? 3) (InvalidInput "internal page cannot be split safely");;
  match list_find (internal_split_fits leftmost entries) (split_candidates (len entries)) with
  | Some (_, candidate) => Ok candidate
  | None => Err (InvalidInput "internal separators exceed page capacity")
  end.

(** [insert_parent_separator] after the first [route.pop()]: [rev_route] is the
    rest of the route, the parent of the split page first. *)
Fixpoint insert_parents (rev_route : list PageId) (separator : bytes) (right_child : PageId)
    (lsn : Revision) : M unit :=
  match rev_route with
  | [] =>
      new_root_id ← allocate_page;
      o ← get_st;
      replace_page new_root_id (Format.Internal lsn (root_page_id o)
        [Format.mkInternalEntry separator right_child]);;
      modify_st (set_root new_root_id)
  | parent_id :: rest =>
      parent ← internal parent_id;
      let leftmost := internal_leftmost parent in
      let i := partition_point (λ e, bytes_ltb (Format.separator e) separator)
                 (internal_entries parent) in
      let entries := vec_insert i (Format.mkInternalEntry separator right_child)
                       (internal_entries parent) in
      if Format.internal_fits leftmost entries then
        replace_page parent_id (Format.Internal lsn leftmost entries)
      else
        split ← lift_r (choose_internal_split leftmost entries);
        middle ← lift_r (index entries split);
        right_id ← allocate_page;
        let left_entries := entries.[0; split) in
        let right_entries := entries.[split + 1; len entries) in
        fail_when (negb (Format.internal_fits leftmost left_entries)
                   || negb (Format.internal_fits (Format.right_child middle) right_entries))
          (InvalidInput "internal split produced an oversized page");;
        replace_page parent_id (Format.Internal lsn leftmost left_entries);;
        replace_page right_id (Format.Internal lsn (Format.right_child middle) right_entries);;
        insert_parents rest (Format.separator middle) right_id lsn
  end.

Definition insert_parent_separator (route : list PageId) (separator : bytes)
    (right_child : PageId) (lsn : Revision) : M unit :=
  insert_parents (tail (reverse route)) separator right_child lsn.

Definition insert_leaf_entries (leaf_id : PageId) (route : list PageId) (lf : LeafPage)
    (lsn : Revision) : M unit :=
  let entries := leaf_entries lf in
  if Format.leaf_fits entries then
    replace_page leaf_id (Format.Leaf lsn (leaf_next lf) entries)
  else
    split ← lift_r (choose_leaf_split entries);
    right_id ← allocate_page;
    let left_entries := entries.[0; split) in
    let right_entries := entries.[split; len entries) in
    separator ← lift_r (ok_or (Format.key <$> head right_entries)
      (InternalInvariantViolation "leaf split produced an empty right page"));
    replace_page leaf_id (Format.Leaf lsn (Some right_id) left_entries);;
    replace_page right_id (Format.Leaf lsn (leaf_next lf) right_entries);;
    insert_parent_separator route separator right_id lsn.

(** *** Point operations *)

Definition put (key : DocumentKey) (value : bytes) : M Revision :=
  validate_value value;;
  let encoded := Key.encode key in
  lift_r (validate_encoded_key encoded);;
  revision ← allocate_revision;
  '(leaf_id, route) ← find_leaf encoded;
  lf ← leaf leaf_id;
  let position := binary_search (leaf_entries lf) encoded in
  value_ref ← make_value value revision;
  let entry := Format.mkLeafEntry encoded revision (Some value_ref) in
  match position with
  | inl i =>
      old ← lift_r (index (leaf_entries lf) (Z.of_nat i));
      insert_leaf_entries leaf_id route
        (mkLeafPage (leaf_next lf) (<[i := entry]> (leaf_entries lf))) revision;;
      free_value (Format.value old) revision
  | inr i =>
      insert_leaf_entries leaf_id route
        (mkLeafPage (leaf_next lf) (vec_insert i entry (leaf_entries lf))) revision
  end;;
  mret revision.

Definition delete (key : DocumentKey) : M Revision :=
  let encoded := Key.encode key in
  lift_r (validate_encoded_key encoded);;
  revision ← allocate_revision;
  '(leaf_id, route) ← find_leaf encoded;
  lf ← leaf leaf_id;
  let entry := Format.mkLeafEntry encoded revision None in
  match binary_search (leaf_entries lf) encoded with
  | inl i =>
      old ← lift_r (index (leaf_entries lf) (Z.of_nat i));
      replace_page leaf_id (Format.Leaf revision (leaf_next lf) (<[i := entry]> (leaf_entries lf)));;
      free_value (Format.value old) revision
  | inr i =>
      insert_leaf_entries leaf_id route
        (mkLeafPage (leaf_next lf) (vec_insert i entry (leaf_entries lf))) revision
  end;;
  mret revision.

(** [iter().find(|entry| entry.key == encoded)]. *)
Definition find_entry (entries : list LeafEntry) (encoded : bytes) : option LeafEntry :=
  snd <$> list_find (λ e, Format.key e = encoded) entries.

Definition get_observed_state (key : DocumentKey) : M ObservedState :=
  let encoded := Key.encode key in
  lift_r (validate_encoded_key encoded);;
  '(leaf_id, _) ← find_leaf encoded;
  lf ← leaf leaf_id;
  mret match find_entry (leaf_entries lf) encoded with
       | None => ObservedMissing ZERO
       | Some entry =>
           match Format.value entry with
           | Some _ => ObservedPresent (Format.revision entry)
           | None => ObservedMissing (Format.revision entry)
           end
       end.

(** Methods that also take [&mut ResponseBudget] run on the pair of states. *)
Abbreviation MB := (St (Overlay B * ResponseBudget) Error).
Definition on_overlay {A} (m : M A) : MB A := zoom fst (λ o s, (o, s.2)) m.
Definition on_budget {A} (m : St ResponseBudget Error A) : MB A := zoom snd (λ b s, (s.1, b)) m.

Definition get_state_with_budget (key : DocumentKey) : MB RevisionState :=
  let encoded := Key.encode key in
  lift_r (validate_encoded_key encoded);;
  '(leaf_id, _) ← on_overlay (find_leaf encoded);
  lf ← on_overlay (leaf leaf_id);
  match find_entry (leaf_entries lf) encoded with
  | None => on_budget (reserve_state 0);; mret (Missing ZERO)
  | Some entry =>
      match Format.value entry with
      | Some value_ref =>
          on_budget (reserve_state (value_length value_ref));;
          v ← on_overlay (read_value value_ref);
          mret (Present v (Format.revision entry))
      | None => on_budget (reserve_state 0);; mret (Missing (Format.revision entry))
      end
  end.

(** *** Ranges *)

Definition decode_leaf_key (key : bytes) : result DocumentKey :=
  map_err (λ _, Corruption "leaf key decode failed: {error}") (Key.decode key).

(** Reads the value of a row and pushes the document. *)
Definition push_document (dk : DocumentKey) (entry : LeafEntry) (value_ref : ValueRef)
    (rows : list Document) : MB (list Document) :=
  on_budget (reserve_document dk (value_length value_ref));;
  v ← on_overlay (read_value value_ref);
  mret (rows ++ [mkDocument dk v (Format.revision entry)]).

(** The [for entry in &leaf.entries] loop of a query: the flag says that the loop
    returned from the query. *)
Fixpoint query_entries (pk : Key.PrimaryKey) (after : option Key.SortKey) (cursor : option bytes)
    (limit : Z) (entries : list LeafEntry) (first : bool) (rows : list Document)
    : MB (bool * list Document) :=
  match entries with
  | [] => mret (false, rows)
  | entry :: entries' =>
      if first && match cursor with Some c => bytes_leb (Format.key entry) c | None => false end
      then query_entries pk after cursor limit entries' first rows
      else
        dk ← lift_r (decode_leaf_key (Format.key entry));
        if negb (bytes_eqb (Key.pk dk) pk) then
          if bytes_ltb pk (Key.pk dk) then mret (true, rows)
          else query_entries pk after cursor limit entries' false rows
        else if match after with Some c => bytes_leb (Key.sk dk) c | None => false end
        then query_entries pk after cursor limit entries' false rows
        else
          match Format.value entry with
          | Some value_ref =>
              rows ← push_document dk entry value_ref rows;
              if len rows =? limit then mret (true, rows)
              else query_entries pk after cursor limit entries' false rows
          | None => query_entries pk after cursor limit entries' false rows
          end
  end.

Fixpoint query_leaves (fuel : nat) (pk : Key.PrimaryKey) (after : option Key.SortKey)
    (cursor : option bytes) (limit : Z) (leaf_id : PageId) (first : bool) (visited : gset PageId)
    (rows : list Document) : MB (list Document) :=
  if limit <=? len rows then mret rows
  else
    match fuel with
    | O => lift_r (Stuck OutOfFuel)
    | S fuel' =>
        fail_when (bool_decide (leaf_id ∈ visited))
          (Corruption "leaf chain contains a cycle during query");;
        lf ← on_overlay (leaf leaf_id);
        '(returned, rows) ← query_entries pk after cursor limit (leaf_entries lf) first rows;
        if (returned : bool) then mret rows
        else
          match leaf_next lf with
          | None => mret rows
          | Some next =>
              query_leaves fuel' pk after cursor limit next false ({[leaf_id]} ∪ visited) rows
          end
    end.

Definition query_with_budget (pk : Key.PrimaryKey) (after : option Key.SortKey) (limit : Z)
    : MB (list Document) :=
  if limit =? 0 then mret []
  else
    let start_key := Key.encode (Key.new pk []) in
    lift_r (validate_encoded_key start_key);;
    '(leaf_id, _) ← on_overlay (find_leaf start_key);
    let cursor := (λ sk, Key.encode (Key.new pk sk)) <$> after in
    match cursor with Some c => lift_r (validate_encoded_key c) | None => mret tt end;;
    s ← get_st;
    query_leaves (traversal_fuel s.1) pk after cursor limit leaf_id true ∅ [].

Fixpoint scan_entries (cursor : option bytes) (limit : Z) (entries : list LeafEntry)
    (rows : list Document) : MB (bool * list Document) :=
  match entries with
  | [] => mret (false, rows)
  | entry :: entries' =>
      if match cursor with Some c => bytes_leb (Format.key entry) c | None => false end
      then scan_entries cursor limit entries' rows
      else
        dk ← lift_r (decode_leaf_key (Format.key entry));
        match Format.value entry with
        | Some value_ref =>
            rows ← push_document dk entry value_ref rows;
            if len rows =? limit then mret (true, rows)
            else scan_entries cursor limit entries' rows
        | None => scan_entries cursor limit entries' rows
        end
  end.

Fixpoint scan_leaves (fuel : nat) (cursor : option bytes) (limit : Z) (leaf_id : PageId)
    (visited : gset PageId) (rows : list Document) : MB (list Document) :=
  match fuel with
  | O => lift_r (Stuck OutOfFuel)
  | S fuel' =>
      fail_when (bool_decide (leaf_id ∈ visited))
        (Corruption "leaf chain contains a cycle during scan");;
      lf ← on_overlay (leaf leaf_id);
      '(returned, rows) ← scan_entries cursor limit (leaf_entries lf) rows;
      if (returned : bool) then mret rows
      else
        match leaf_next lf with
        | None => mret rows
        | Some next => scan_leaves fuel' cursor limit next ({[leaf_id]} ∪ visited) rows
        end
  end.

Definition scan_with_budget (cursor : option DocumentKey) (limit : Z) : MB (list Document) :=
  if limit =? 0 then mret []
  else
    leaf_id ← match cursor with
      | Some key =>
          let encoded := Key.encode key in
          lift_r (validate_encoded_key encoded);;
          fst <$> on_overlay (find_leaf encoded)
      | None => on_overlay leftmost_leaf
      end;
    s ← get_st;
    scan_leaves (traversal_fuel s.1) (Key.encode <$> cursor) limit leaf_id ∅ [].

Definition execute_with_budget (request : BatchRequest) : MB BatchResponse :=
  match request with
  | ReqGet key => RespGet <$> get_state_with_budget key
  | ReqPut key value => RespPut <$> on_overlay (put key value)
  | ReqDelete key => RespDelete <$> on_overlay (delete key)
  | ReqQuery pk after limit => RespQuery <$> query_with_budget pk after limit
  | ReqScan after limit => RespScan <$> scan_with_budget after limit
  end.

(** *** Transactions *)

Definition validate_transaction_mutation (mutation : TransactionMutation) : M unit :=
  match mutation with
  | Put key value => validate_value value;; lift_r (validate_encoded_key (Key.encode key))
  | Delete key => lift_r (validate_encoded_key (Key.encode key))
  end.

Definition check_condition (condition : TransactionCondition) : M unit :=
  actual ← get_observed_state (condition_key condition);
  fail_when (negb (condition_matches condition actual))
    (Conflict (mkConflict (condition_key condition) (expectation condition) actual)).

Definition apply_mutation (mutation : TransactionMutation) : M unit :=
  match mutation with
  | Put key value => put key value;; mret tt
  | Delete key => delete key;; mret tt
  end.

(** *** Finishing *)

Context `{CR : Crc32c}.

Definition other_slot (s : SuperblockSlot) : SuperblockSlot :=
  match s with Superblock.A => Superblock.B | Superblock.B => Superblock.A end.

(** The [Superblock { generation: ..., ..current.clone() }] candidate, sealed by
    encoding and decoding it. *)
Definition next_superblock (current : Superblock) (root : PageId) (free : option PageId)
    (high_water : PageId) : result Superblock :=
  generation ← ok_or (checked_add (Superblock.generation current) 1)
    (InternalInvariantViolation "superblock generation exhausted");
  bytes ← Superblock.encode_superblock
    (Superblock.mkSuperblock (Superblock.format_version current) generation
       (Superblock.database_uuid current) (Superblock.tenant_id current)
       (Superblock.shard_id current) (Superblock.shard_epoch current)
       (Superblock.page_size current) (Some root) free (Some high_water)
       (Superblock.checkpoint_lsn current) (Superblock.checksum current));
  Superblock.decode_superblock bytes.

Definition dirty_page_missing : Error := InternalInvariantViolation "dirty page missing from overlay".

Fixpoint restamp_pages (ids : list PageId) (provisional : Revision) (committed : Lsn)
    (m : gmap PageId PageData) : result (gmap PageId PageData) :=
  match ids with
  | [] => Ok m
  | id :: ids' =>
      p ← ok_or (m !! id) dirty_page_missing;
      restamp_pages ids' provisional committed (<[id := Format.restamp p provisional committed]> m)
  end.

(** The loop that encodes the dirty pages into the two maps of a batch. *)
Fixpoint encode_dirty (ids : list PageId) (m : gmap PageId PageData)
    (images : gmap PageId bytes) (decoded : gmap PageId PageData)
    : result (gmap PageId bytes * gmap PageId PageData) :=
  match ids with
  | [] => Ok (images, decoded)
  | id :: ids' =>
      p ← ok_or (m !! id) dirty_page_missing;
      image ← Format.encode p id;
      encode_dirty ids' m (<[id := image]> images) (<[id := p]> decoded)
  end.

(** The LSN a WAL-backed commit gets: one LSN per page image and one for the
    superblock image come before it. *)
Definition commit_lsn_for (wal : bool) (next_lsn : Lsn) (dirty : gset PageId) (provisional : Lsn)
    : result Lsn :=
  if wal then
    image_count ← ok_or (checked_add (Z.of_nat (size dirty)) 1)
      (InternalInvariantViolation "WAL image count overflow");
    ok_or (checked_add next_lsn image_count) (InternalInvariantViolation "WAL LSN exhausted")
  else Ok provisional.

Definition finish_transaction : M PreparedBatch :=
  o ← get_st;
  provisional_lsn ← lift_r (ok_or (last_lsn o)
    (InternalInvariantViolation "transaction has no provisional revision"));
  let base := Superblock.generation (current_superblock o) in
  commit_lsn ← lift_r (commit_lsn_for (sh_wal (header (store o))) (next_lsn o) (dirty o) provisional_lsn);
  restamped ← lift_r (restamp_pages (set_iter (dirty o)) (Revision_from provisional_lsn) commit_lsn (pages o));
  modify_st (set_pages restamped);;
  sb ← lift_r (next_superblock (current_superblock o) (root_page_id o) (free_list_head o)
    (high_water_page_id o));
  let slot := other_slot (active_slot o) in
  '(images, decoded) ← lift_r (encode_dirty (set_iter (dirty o)) restamped ∅ ∅);
  modify_st (set_read_pages ∅);;
  next_revision ← lift_r (ok_or (checked_add commit_lsn 1)
    (InternalInvariantViolation "storage revision exhausted"));
  let prepared := mkPrepared [] images decoded (read_pages o) sb slot base next_revision
    (root_page_id o) (free_list_head o) (high_water_page_id o) (Some commit_lsn) (next_batch_id o) in
  modify_st (set_current_superblock sb slot);;
  modify_st (set_next_revision next_revision);;
  next_lsn ← lift_r (ok_or (checked_add commit_lsn 1)
    (InternalInvariantViolation "WAL LSN exhausted"));
  modify_st (set_next_lsn next_lsn);;
  next_batch ← lift_r (ok_or (checked_add (next_batch_id o) 1)
    (InternalInvariantViolation "WAL batch ID exhausted"));
  modify_st (set_next_batch_id next_batch);;
  modify_st (set_dirty ∅);;
  modify_st (set_last_lsn None);;
  mret prepared.

Definition prepare_transaction (request : TransactionRequest) : M (option PreparedBatch) :=
  lift_r (validate request);;
  for_each validate_transaction_mutation (mutations request);;
  for_each check_condition (conditions request);;
  match mutations request with
  | [] => mret None
  | _ :: _ =>
      for_each apply_mutation (mutations request);;
      Some <$> finish_transaction
  end.

Definition restamp_state (state : RevisionState) (provisional committed : Revision) : RevisionState :=
  match state with
  | Present v r => if r =? provisional then Present v committed else state
  | Missing r => if r =? provisional then Missing committed else state
  end.

Definition restamp_document (provisional committed : Revision) (d : Document) : Document :=
  if doc_revision d =? provisional then mkDocument (doc_key d) (doc_value d) committed else d.

Definition restamp_response (provisional committed : Revision) (r : BatchResponse) : BatchResponse :=
  match r with
  | RespPut revision => RespPut (if revision =? provisional then committed else revision)
  | RespDelete revision => RespDelete (if revision =? provisional then committed else revision)
  | RespGet state => RespGet (restamp_state state provisional committed)
  | RespQuery rows => RespQuery (restamp_document provisional committed <$> rows)
  | RespScan rows => RespScan (restamp_document provisional committed <$> rows)
  end.

Definition restamp_responses (rs : list BatchResponse) (provisional committed : Revision)
    : list BatchResponse := restamp_response provisional committed <$> rs.

(** [Overlay::finish], which consumes the overlay. *)
Definition finish (rs : list BatchResponse) (o : Overlay B) : result PreparedBatch :=
  let h := header (store o) in
  commit_lsn ← match last_lsn o with
    | Some provisional =>
        Some <$> commit_lsn_for (sh_wal h) (sh_next_lsn h) (dirty o) provisional
    | None => Ok None
    end;
  restamped ← match last_lsn o, commit_lsn with
    | Some provisional, Some committed =>
        restamp_pages (set_iter (dirty o)) (Revision_from provisional) committed (pages o)
    | _, _ => Ok (pages o)
    end;
  sb ← match commit_lsn with
    | Some _ => next_superblock (sh_superblock h) (root_page_id o) (free_list_head o)
                  (high_water_page_id o)
    | None => Ok (sh_superblock h)
    end;
  '(images, decoded) ← encode_dirty (set_iter (dirty o)) restamped ∅ ∅;
  let rs := match last_lsn o, commit_lsn with
    | Some provisional, Some committed =>
        restamp_responses rs (Revision_from provisional) (Revision_from committed)
    | _, _ => rs
    end in
  next_revision ← match commit_lsn with
    | Some lsn => ok_or (checked_add lsn 1) (InternalInvariantViolation "storage revision exhausted")
    | None => Ok (sh_next_revision h)
    end;
  Ok (mkPrepared rs images decoded (read_pages o) sb (other_slot (sh_slot h))
        (Superblock.generation (sh_superblock h)) next_revision (root_page_id o)
        (free_list_head o) (high_water_page_id o) commit_lsn (sh_next_batch_id h)).

(** [prepare_batch_with_response_budget]. *)
Fixpoint execute_all (requests : list BatchRequest) : MB (list BatchResponse) :=
  match requests with
  | [] => mret []
  | request :: requests' =>
      r ← execute_with_budget request; rs ← execute_all requests'; mret (r :: rs)
  end.

Definition prepare_batch_with_response_budget (requests : list BatchRequest) (max_response_bytes : Z)
    (b : B) : result PreparedBatch * B :=
  match budget_new max_response_bytes with
  | Ok budget =>
      let '(r, (o, _)) := execute_all requests (overlay_new b, budget) in
      (rs ← r; finish rs o, store o)
  | Err e => (Err e, b)
  | Stuck s => (Stuck s, b)
  end.

Definition prepare_batch (requests : list BatchRequest) (b : B) : result PreparedBatch * B :=
  prepare_batch_with_response_budget requests USIZE_MAX b.

(** The request loop of [apply_transaction_group]: rejected candidates are recorded
    and the loop goes on with the same overlay. *)
Fixpoint prepare_group (requests : list TransactionRequest) (o : Overlay B)
    : result (list PreparedBatch * list (Result Error TransactionResult)) * Overlay B :=
  match requests with
  | [] => (Ok ([], []), o)
  | request :: requests' =>
      match prepare_transaction request o with
      | (Ok (Some candidate), o) =>
          match prepared_commit_lsn candidate with
          | None => (Err (InternalInvariantViolation "mutation transaction has no commit LSN"), o)
          | Some commit_lsn =>
              let '(r, o) := prepare_group requests' o in
              ('(ps, rs) ← r; Ok (candidate :: ps, Ok (mkResult (Some commit_lsn)) :: rs), o)
          end
      | (Ok None, o) =>
          let '(r, o) := prepare_group requests' o in
          ('(ps, rs) ← r; Ok (ps, Ok (mkResult None) :: rs), o)
      | (Err ((Conflict _ | InvalidRequest _ | InvalidInput _) as e), o) =>
          let '(r, o) := prepare_group requests' o in
          ('(ps, rs) ← r; Ok (ps, Err e :: rs), o)
      | (Err e, o) => (Err e, o)
      | (Stuck s, o) => (Stuck s, o)
      end
  end.

(** [transact_get_with_response_budget] after its [broken] check. *)
Definition transact_get (keys : list DocumentKey) (max_response_bytes : Z) (b : B)
    : result (list RevisionState) * B :=
  match budget_new max_response_bytes with
  | Ok budget =>
      let '(r, (o, _)) := map_each get_state_with_budget keys (overlay_new b, budget) in
      (r, store o)
  | Err e => (Err e, b)
  | Stuck s => (Stuck s, b)
  end.

(** [observe] after its [broken] check. *)
Definition observe (keys : list DocumentKey) (b : B) : result (list ObservedState) * B :=
  let '(r, o) := map_each get_observed_state keys (overlay_new b) in (r, store o).

End overlay.
End Overlay.
