(* ===== verification/Tree.v ===== *)
(** * The B+Tree invariant

    What the pages behind an overlay mean.  A ghost map labels every page that is
    in use: a tree page with its height and the interval of keys it is responsible
    for, a page of a value that does not fit inline, or a page of the free list.
    The invariant is local: every page is checked against its own label and the
    labels of the pages it names, intervals of the same height are disjoint, and
    the contents of a leaf are the restriction of the abstract database to its
    interval.

    During a split the parents still believe in the label the split page had
    before; [Gc] are the labels the parents believe in, [G] the actual ones. *)

From S2P Require Import Prelude Wp Key Core Superblock Format FormatLaws Overlay.

Module Tree.
Import Core Overlay.

(** ** The committed store, as the overlay sees it *)

Class CommittedStoreSpec (B : Type) {CB : CommittedStore B} : Type := {
  committed : B → PageId → option PageData;
  serving : B → Prop;
  cache_get_spec : ∀ id b, serving b →
    serving (cache_get id b).2 ∧ header (cache_get id b).2 = header b ∧
    (∀ i, committed (cache_get id b).2 i = committed b i) ∧
    (∀ p, (cache_get id b).1 = Some p → committed b id = Some p);
  read_page_spec : ∀ id b p, serving b → committed b id = Some p →
    ∃ b', read_page_from_file id b = (Ok p, b') ∧ serving b' ∧ header b' = header b ∧
          (∀ i, committed b' i = committed b i);
  read_page_frame : ∀ id b, serving b → FIRST_DATA_PAGE ≤ id →
    serving (read_page_from_file id b).2 ∧ header (read_page_from_file id b).2 = header b ∧
    (∀ i, committed (read_page_from_file id b).2 i = committed b i) ∧
    (∀ p, (read_page_from_file id b).1 = Ok p → committed b id = Some p);
}.

(** ** Intervals and labels *)

(** Keys at or above [lo] and below [hi]; the empty key is the least one and
    [None] is no upper bound. *)
Definition below (hi : option bytes) (k : bytes) : Prop :=
  match hi with None => True | Some h => bytes_lt k h end.
Definition in_bounds (lo : bytes) (hi : option bytes) (k : bytes) : Prop :=
  ¬ bytes_lt k lo ∧ below hi k.

Inductive role : Type :=
  | RTree (h : nat) (lo : bytes) (hi : option bytes)
  | RValue (owner : option bytes)
  | RFree.

Abbreviation labels := (gmap PageId role).

(** Intervals are not empty, and those of one height are disjoint. *)
Record labels_ok (G : labels) : Prop := {
  lab_nonempty : ∀ id h lo hi, G !! id = Some (RTree h lo hi) → below hi lo;
  lab_disjoint : ∀ id id' h lo hi lo' hi' k,
    G !! id = Some (RTree h lo hi) → G !! id' = Some (RTree h lo' hi') →
    in_bounds lo hi k → in_bounds lo' hi' k → id = id';
}.

(** The children of an internal page, from left to right. *)
Fixpoint children_ok (G : labels) (h : nat) (lo : bytes) (child : PageId)
    (es : list InternalEntry) (hi : option bytes) : Prop :=
  match es with
  | [] => G !! child = Some (RTree h lo hi)
  | e :: es' =>
      G !! child = Some (RTree h lo (Some (Format.separator e))) ∧
      children_ok G h (Format.separator e) (Format.right_child e) es' hi
  end.

Definition children (lm : PageId) (es : list InternalEntry) : list PageId :=
  lm :: (Format.right_child <$> es).

Lemma lt_irrefl k : ¬ bytes_lt k k.
Proof. apply (irreflexivity bytes_lt). Qed.

Lemma not_lt_le a b : ¬ bytes_lt a b ↔ bytes_lt b a ∨ a = b.
Proof.
  split; [destruct (bytes_lt_total a b) as [?|[?|?]]; naive_solver|].
  intros [H| ->]; [|apply lt_irrefl]. intros H'. destruct (lt_irrefl a). by trans b.
Qed.

Lemma le_lt_trans a b c : ¬ bytes_lt b a → bytes_lt b c → bytes_lt a c.
Proof. intros [H| ->]%not_lt_le ?; [by trans b|done]. Qed.

Lemma lt_le_trans a b c : bytes_lt a b → ¬ bytes_lt c b → bytes_lt a c.
Proof. intros ? [H| ->]%not_lt_le; [by trans b|done]. Qed.

Lemma in_bounds_lo lo hi : below hi lo → in_bounds lo hi lo.
Proof. intros. split; [apply lt_irrefl|done]. Qed.

Lemma below_le hi a b : ¬ bytes_lt b a → below hi b → below hi a.
Proof. intros Hab. destruct hi; simpl; [|done]. by apply le_lt_trans. Qed.

(** The label of a leaf that holds a key is unique. *)
Lemma label_unique G id id' h lo hi lo' hi' k :
  labels_ok G → G !! id = Some (RTree h lo hi) → G !! id' = Some (RTree h lo' hi') →
  in_bounds lo hi k → in_bounds lo' hi' k → id = id' ∧ lo = lo' ∧ hi = hi'.
Proof.
  intros HG Hid Hid' Hk Hk'. assert (id = id') as <- by (eapply (lab_disjoint G); eauto).
  by simplify_eq.
Qed.

Lemma children_nonempty G h lo lm es hi :
  labels_ok G → children_ok G h lo lm es hi → below hi lo.
Proof.
  intros HG. revert lo lm. induction es as [|e es IH]; intros lo lm; simpl.
  - apply (lab_nonempty _ HG).
  - intros [Hl Hr]. apply (lab_nonempty _ HG) in Hl. apply IH in Hr.
    eapply below_le; [|done]. simpl in Hl. intros ?. destruct (lt_irrefl lo). by trans (Format.separator e).
Qed.

(** Every child has an interval inside its parent's. *)
Lemma children_in G h lo lm es hi c :
  labels_ok G → children_ok G h lo lm es hi → c ∈ children lm es →
  ∃ a b, G !! c = Some (RTree h a b) ∧ ∀ k, in_bounds a b k → in_bounds lo hi k.
Proof.
  intros HG. revert lo lm. induction es as [|e es IH]; intros lo lm Hch Hc; simpl in *.
  - apply elem_of_cons in Hc as [->|Hc]; [|by apply not_elem_of_nil in Hc]. eauto.
  - destruct Hch as [Hl Hr]. apply elem_of_cons in Hc as [->|Hc].
    + exists lo, (Some (Format.separator e)). split; [done|]. intros k [Hk1 Hk2]. split; [done|].
      apply children_nonempty in Hr; [|done]. eapply below_le; [|done].
      intros ?. destruct (lt_irrefl k). by trans (Format.separator e).
    + destruct (IH _ _ Hr Hc) as (a & b & Hab & Hin). exists a, b. split; [done|].
      intros k Hk. apply Hin in Hk as [Hk1 Hk2]. split; [|done].
      apply (lab_nonempty _ HG) in Hl. simpl in Hl. intros ?. destruct Hk1. by trans lo.
Qed.

(** Routing: the page an internal page sends a key to is responsible for it. *)
Lemma child_for_spec G h lo lm es hi k :
  labels_ok G → children_ok G h lo lm es hi → in_bounds lo hi k →
  ∃ c a b, child_for lm es k = Ok c ∧ G !! c = Some (RTree h a b) ∧ in_bounds a b k.
Proof.
  intros HG. revert lo lm. induction es as [|e es IH]; intros lo lm Hch Hk; simpl in *.
  - exists lm, lo, hi. done.
  - destruct Hch as [Hl Hr].
    destruct (bytes_leb (Format.separator e) k) eqn:Hle.
    + destruct (IH _ _ Hr) as (c & a & b & Hc & Hlab & Hin).
      { split; [|apply Hk]. rewrite bytes_leb_spec in Hle. apply not_lt_le. naive_solver. }
      exists c, a, b. split; [|done]. rewrite <-Hc. unfold child_for. simpl. rewrite Hle.
      destruct (partition_point _ es) as [|i]; [done|]. unfold index.
      rewrite !(proj2 (Z.leb_le 0 _)) by lia. rewrite !Nat2Z.id. done.
    + exists lm, lo, (Some (Format.separator e)). apply bytes_leb_false in Hle.
      split; [unfold child_for; simpl|]. { apply bytes_leb_false in Hle. by rewrite Hle. }
      split; [done|]. split; [apply Hk|done].
Qed.

(** ** Splitting a label *)

(** [G] is [Gc] after page [c] of height [h] was split at [sep] with right sibling [r]. *)
Record split_of (Gc G : labels) (c r : PageId) (h : nat) (lo sep : bytes) (hi : option bytes) : Prop := {
  so_old : Gc !! c = Some (RTree h lo hi);
  so_fresh : Gc !! r = None;
  so_new : G = <[c := RTree h lo (Some sep)]> (<[r := RTree h sep hi]> Gc);
  so_lo : bytes_lt lo sep;
  so_hi : below hi sep;
}.

Section split.
Context (Gc G : labels) (c r : PageId) (h : nat) (lo sep : bytes) (hi : option bytes).
Context (HG : labels_ok Gc) (HS : split_of Gc G c r h lo sep hi).

Lemma split_ne : c ≠ r.
Proof. intros E. pose proof (so_old _ _ _ _ _ _ _ _ HS). rewrite E, (so_fresh _ _ _ _ _ _ _ _ HS) in *. done. Qed.

Lemma split_left : G !! c = Some (RTree h lo (Some sep)).
Proof. rewrite (so_new _ _ _ _ _ _ _ _ HS). by rewrite lookup_insert_eq. Qed.

Lemma split_right : G !! r = Some (RTree h sep hi).
Proof.
  rewrite (so_new _ _ _ _ _ _ _ _ HS). rewrite lookup_insert_ne by apply split_ne. by rewrite lookup_insert_eq.
Qed.

Lemma split_other id : id ≠ c → id ≠ r → G !! id = Gc !! id.
Proof. intros. rewrite (so_new _ _ _ _ _ _ _ _ HS). by rewrite !lookup_insert_ne. Qed.

Lemma split_keeps id x : Gc !! id = Some x → id ≠ c → G !! id = Some x.
Proof.
  intros Hid Hc. rewrite split_other; [done|done|]. intros ->.
  by rewrite (so_fresh _ _ _ _ _ _ _ _ HS) in Hid.
Qed.

(** Where a label of [G] comes from. *)
Lemma split_origin id h' a b k :
  G !! id = Some (RTree h' a b) → in_bounds a b k →
  ∃ id' a' b', Gc !! id' = Some (RTree h' a' b') ∧ in_bounds a' b' k ∧
    (id = id' ∨ id = r ∧ id' = c ∧ ¬ bytes_lt k sep) ∧ (id = c → bytes_lt k sep).
Proof.
  pose proof HS as [Hold Hfr Hnew Hlo Hhi]. intros Hid Hk.
  destruct (decide (id = c)) as [->|Hc].
  { rewrite split_left in Hid. injection Hid as <- <- <-. exists c, lo, hi.
    split_and!; [done| |by left|intros _; apply Hk].
    destruct Hk as [Hk1 Hk2]. split; [done|]. eapply below_le; [|done]. simpl in Hk2.
    intros ?. destruct (lt_irrefl k). by trans sep. }
  destruct (decide (id = r)) as [->|Hr].
  { rewrite split_right in Hid. injection Hid as <- <- <-. exists c, lo, hi.
    destruct Hk as [Hk1 Hk2]. split_and!; [done| |by right|done].
    split; [|done]. intros ?. destruct Hk1. by trans lo. }
  rewrite split_other in Hid by done. exists id, a, b. split_and!; [done|done|by left|done].
Qed.

Lemma split_labels_ok : labels_ok G.
Proof.
  pose proof HS as [Hold Hfr Hnew Hlo Hhi]. split.
  - intros id h' a b Hid. destruct (decide (id = c)) as [->|Hc].
    { rewrite split_left in Hid. by injection Hid as <- <- <-. }
    destruct (decide (id = r)) as [->|Hr].
    { rewrite split_right in Hid. by injection Hid as <- <- <-. }
    rewrite split_other in Hid by done. by eapply (lab_nonempty _ HG).
  - intros id id' h' a b a' b' k Hid Hid' Hk Hk'.
    destruct (split_origin _ _ _ _ _ Hid Hk) as (j & x & y & Hj & Hjk & Hor & Hc).
    destruct (split_origin _ _ _ _ _ Hid' Hk') as (j' & x' & y' & Hj' & Hjk' & Hor' & Hc').
    assert (j = j') as <- by (eapply (lab_disjoint _ HG); eauto).
    destruct Hor as [<-|(-> & -> & Hn)], Hor' as [<-|(-> & Ec & Hn')]; try done.
    + subst. destruct Hn'. by apply Hc.
    + destruct Hn. by apply Hc'.
Qed.

(** A page none of whose children was split keeps its children. *)
Lemma children_frame h' a lm es b :
  children_ok Gc h' a lm es b → c ∉ children lm es → children_ok G h' a lm es b.
Proof.
  revert a lm. induction es as [|e es IH]; intros a lm Hch Hc; unfold children in *; simpl in *.
  - apply split_keeps; [done|set_solver].
  - destruct Hch as [Hl Hr]. split; [apply split_keeps; [done|set_solver]|].
    apply IH; [done|set_solver].
Qed.

Lemma children_not_split h' a lm es b :
  children_ok Gc h' a lm es b → h' ≠ h ∨ ¬ in_bounds a b sep → c ∉ children lm es.
Proof.
  pose proof HS as [Hold Hfr Hnew Hlo Hhi].
  intros Hch Hd Hc. destruct (children_in _ _ _ _ _ _ _ HG Hch Hc) as (x & y & Hxy & Hin).
  rewrite Hold in Hxy. injection Hxy as <- <- <-. destruct Hd as [?|Hd]; [done|].
  apply Hd, Hin. split; [|done]. intros ?. destruct (lt_irrefl lo). by trans sep.
Qed.

(** Inserting the separator where [insert_parent_separator] puts it makes the
    parent agree with the new labels. *)
Lemma children_insert a lm es b :
  children_ok Gc h a lm es b → in_bounds a b sep →
  children_ok G h a lm (vec_insert (partition_point (λ e, bytes_ltb (Format.separator e) sep) es)
    (Format.mkInternalEntry sep r) es) b.
Proof.
  pose proof HS as [Hold Hfr Hnew Hlo Hhi].
  assert (Hin : in_bounds lo hi sep).
  { split; [|done]. intros ?. destruct (lt_irrefl lo). by trans sep. }
  revert a lm. induction es as [|e es IH]; intros a lm Hch Hk; simpl in *.
  - unfold vec_insert. simpl. destruct (label_unique _ _ _ _ _ _ _ _ _ HG Hch Hold Hk Hin) as (-> & -> & ->).
    split; [apply split_left|apply split_right].
  - destruct Hch as [Hl Hr]. destruct (bytes_ltb (Format.separator e) sep) eqn:Hlt.
    + apply bytes_ltb_spec in Hlt. unfold vec_insert. simpl. split.
      * apply split_keeps; [done|]. intros ->. rewrite Hold in Hl. injection Hl as <- ->.
        simpl in Hhi. destruct (lt_irrefl sep). by trans (Format.separator e).
      * apply IH; [done|]. split; [|apply Hk]. intros ?. destruct (lt_irrefl sep). by trans (Format.separator e).
    + apply bytes_ltb_false, not_lt_le in Hlt. unfold vec_insert. simpl.
      assert (Hse : bytes_lt sep (Format.separator e)).
      { destruct Hlt as [?|E]; [done|]. exfalso. destruct es as [|e' es']; simpl in Hr.
        - assert (Format.right_child e = c ∧ Format.separator e = lo ∧ b = hi) as (_ & E' & _).
          { eapply (label_unique _ _ _ _ _ _ _ _ sep HG Hr Hold); [|done].
            split; [rewrite E; apply lt_irrefl|apply Hk]. }
          rewrite <-E', E in Hlo. by apply (lt_irrefl sep).
        - destruct Hr as [Hr _].
          assert (Format.right_child e = c ∧ Format.separator e = lo ∧ Some (Format.separator e') = hi) as (_ & E' & _).
          { eapply (label_unique _ _ _ _ _ _ _ _ sep HG Hr Hold); [|done].
            split; [rewrite E; apply lt_irrefl|]. apply (lab_nonempty _ HG) in Hr. by rewrite <-E. }
          rewrite <-E', E in Hlo. by apply (lt_irrefl sep). }
      destruct (label_unique _ _ _ _ _ _ _ _ sep HG Hl Hold) as (-> & -> & Ehi); [|done|].
      { split; [apply Hk|done]. }
      split; [apply split_left|]. split; [rewrite Ehi; apply split_right|].
      apply children_frame; [done|]. eapply children_not_split; [done|]. right.
      intros [Hn _]. by apply Hn.
Qed.
End split.

(** Cutting the children of an internal page at an entry. *)
Lemma children_cut G h lo lm l m l' hi :
  children_ok G h lo lm (l ++ m :: l') hi →
  children_ok G h lo lm l (Some (Format.separator m)) ∧
  children_ok G h (Format.separator m) (Format.right_child m) l' hi.
Proof.
  revert lo lm. induction l as [|e l IH]; intros lo lm; simpl; [done|].
  intros [Hl Hr]. apply IH in Hr as [? ?]. done.
Qed.

(** ** Meaning of pages *)

Abbreviation view_t := (PageId → option PageData).
Abbreviation database := (gmap bytes (Revision * option bytes)).

(** The overflow chain of a value. *)
Fixpoint chain (V : view_t) (head : option PageId) (total : Z) (ids : list PageId) (v : bytes) : Prop :=
  match ids with
  | [] => head = None ∧ v = []
  | id :: ids' =>
      head = Some id ∧
      ∃ lsn next c v', V id = Some (Format.Overflow lsn next total c) ∧ v = c ++ v' ∧
                       chain V next total ids' v'
  end.

(** What a value reference of a leaf entry denotes; the pages of its chain are
    labelled with [owner]. *)
Definition value_at (V : view_t) (G : labels) (owner : option bytes) (vr : option ValueRef)
    (ov : option bytes) : Prop :=
  match vr with
  | None => ov = None
  | Some (Format.Inline v) => ov = Some v
  | Some (Format.OverflowRef head total) =>
      ∃ ids v, ov = Some v ∧ chain V (Some head) total ids v ∧ total = len v ∧ 0 < total ≤ Format.MAX_VALUE_SIZE ∧
        NoDup ids ∧ len ids ≤ Format.MAX_OVERFLOW_PAGES ∧
        Forall (λ id, G !! id = Some (RValue owner)) ids
  end.

Definition denotes (V : view_t) (G : labels) (k : bytes) (oe : option LeafEntry)
    (x : option (Revision * option bytes)) : Prop :=
  match oe, x with
  | None, None => True
  | Some e, Some (r, ov) => Format.revision e = r ∧ value_at V G (Some k) (Format.value e) ov
  | _, _ => False
  end.

Definition canonical (k : bytes) : Prop := ∃ dk, Key.wf dk ∧ Key.encode dk = k.

Abbreviation keys es := (Format.key <$> (es : list LeafEntry)).

Record leaf_ok (V : view_t) (G : labels) (db : database) (lo : bytes) (hi : option bytes)
    (next : option PageId) (es : list LeafEntry) : Prop := {
  leaf_sorted : StronglySorted bytes_lt (keys es);
  leaf_bounds : Forall (λ k, in_bounds lo hi k ∧ canonical k) (keys es);
  leaf_chain : match next with
    | None => hi = None
    | Some n => ∃ b hi', hi = Some b ∧ G !! n = Some (RTree 0 b hi')
    end;
  leaf_contents : ∀ k, in_bounds lo hi k → denotes V G k (find_entry es k) (db !! k);
}.

(** A page that can be written and is read back as it was written, whose entries are
    not newer than the page, and that has what the checker asks of a page alone. *)
Definition small_inline (vr : option ValueRef) : Prop :=
  match vr with Some (Format.Inline v) => len v ≤ Format.INLINE_VALUE_LIMIT | _ => True end.
Definition stamped (p : PageData) : Prop :=
  match p with
  | Format.Leaf lsn _ es => Forall (λ e, 0 < Format.revision e ≤ lsn ∧ small_inline (Format.value e)) es
  | Format.Internal _ _ es => es ≠ []
  | _ => True
  end.
Definition storable (p : PageData) : Prop :=
  is_ok (Format.encode_body p) = true ∧ FormatLaws.wf_page p ∧ stamped p.

Definition page_ok (V : view_t) (G Gc : labels) (db : database) (id : PageId) (r : role) : Prop :=
  match r with
  | RTree O lo hi =>
      ∃ lsn next es, V id = Some (Format.Leaf lsn next es) ∧ storable (Format.Leaf lsn next es) ∧
                     leaf_ok V G db lo hi next es
  | RTree (S h) lo hi =>
      ∃ lsn lm es, V id = Some (Format.Internal lsn lm es) ∧ storable (Format.Internal lsn lm es) ∧
                   children_ok Gc h lo lm es hi
  | RValue _ | RFree => True
  end.

Fixpoint free_chain (V : view_t) (head : option PageId) (fl : list PageId) : Prop :=
  match fl with
  | [] => head = None
  | id :: fl' => head = Some id ∧ ∃ lsn next, V id = Some (Format.Free lsn next) ∧ free_chain V next fl'
  end.

Lemma chain_frame V V' head total ids v :
  Forall (λ id, V' id = V id) ids → chain V head total ids v → chain V' head total ids v.
Proof.
  revert head v. induction ids as [|id ids IH]; intros head v HF; simpl; [done|].
  inversion_clear HF as [|? ? Hid HF']. intros (-> & lsn & next & c & v' & Hv & -> & Hc).
  split; [done|]. exists lsn, next, c, v'. rewrite Hid. auto.
Qed.

Lemma value_at_frame V V' G G' owner owner' vr ov :
  (∀ id, G !! id = Some (RValue owner) → G' !! id = Some (RValue owner') ∧ V' id = V id) →
  value_at V G owner vr ov → value_at V' G' owner' vr ov.
Proof.
  intros HF. destruct vr as [[v|head total]|]; simpl; [done| |done].
  intros (ids & v & -> & Hc & Hl & H0 & Hn & Hm & HG). exists ids, v. split_and!; try done; try apply H0.
  - eapply chain_frame; [|done]. eapply Forall_impl; [done|]. intros id Hid. by apply HF.
  - eapply Forall_impl; [done|]. intros id Hid. by apply HF.
Qed.

Lemma denotes_frame V V' G G' k oe x :
  (∀ id, G !! id = Some (RValue (Some k)) → G' !! id = Some (RValue (Some k)) ∧ V' id = V id) →
  denotes V G k oe x → denotes V' G' k oe x.
Proof.
  intros HF. destruct oe as [e|], x as [[r ov]|]; simpl; try done.
  intros [-> Hv]. split; [done|]. by eapply value_at_frame.
Qed.

Lemma free_chain_frame V V' head fl :
  (∀ id, id ∈ fl → V' id = V id) → free_chain V head fl → free_chain V' head fl.
Proof.
  revert head. induction fl as [|id fl IH]; intros head HF; simpl; [done|].
  intros (-> & lsn & next & Hid & Hc). split; [done|]. exists lsn, next.
  rewrite HF by left. split; [done|]. apply IH; [|done]. intros. apply HF. by right.
Qed.

(** A page that was not written stays right when the labels of the leaves it is
    chained to keep their lower bounds, its children keep theirs, and the values
    of its keys were not touched. *)
Lemma page_ok_frame V V' G G' Gc Gc' db db' id r :
  V' id = V id →
  (∀ n b hi, G !! n = Some (RTree 0 b hi) → ∃ hi', G' !! n = Some (RTree 0 b hi')) →
  (∀ h lo hi lm es, r = RTree (S h) lo hi → children_ok Gc h lo lm es hi → children_ok Gc' h lo lm es hi) →
  (∀ lo hi k, r = RTree 0 lo hi → in_bounds lo hi k → db' !! k = db !! k ∧
     ∀ i, G !! i = Some (RValue (Some k)) → G' !! i = Some (RValue (Some k)) ∧ V' i = V i) →
  page_ok V G Gc db id r → page_ok V' G' Gc' db' id r.
Proof.
  intros HV Hnext Hch Hval. destruct r as [[|h] lo hi| |]; simpl; try done.
  - intros (lsn & next & es & Hp & Hst & [L1 L2 L3 L4]). exists lsn, next, es. rewrite HV. split; [done|].
    split; [done|]. split; [done|done| |].
    + destruct next as [n|]; [|done]. destruct L3 as (b & hi' & -> & Hn).
      destruct (Hnext _ _ _ Hn) as [hi'' ?]. eauto.
    + intros k Hk. destruct (Hval lo hi k eq_refl Hk) as [-> Hi].
      eapply denotes_frame; [done|]. by apply L4.
  - intros (lsn & lm & es & Hp & Hst & Hc). exists lsn, lm, es. rewrite HV. eauto.
Qed.

Section tree.
Context {B : Type} {CB : CommittedStore B} {SP : CommittedStoreSpec B}.
Implicit Types (o : Overlay B) (G Gc : labels).

(** The page an overlay would read. *)
Definition view o : view_t :=
  λ id, match pages o !! id with Some p => Some p | None => committed (store o) id end.

(** ** Reads do not change what is read *)

Record sim o o' : Prop := {
  sim_serving : serving (store o) → serving (store o');
  sim_header : header (store o') = header (store o);
  sim_view : ∀ i, view o' i = view o i;
  sim_pages : dom (pages o) ⊆ dom (pages o');
  sim_dirty : dirty o' = dirty o;
  sim_root : root_page_id o' = root_page_id o;
  sim_free : free_list_head o' = free_list_head o;
  sim_high : high_water_page_id o' = high_water_page_id o;
  sim_revision : next_revision o' = next_revision o;
  sim_last : last_lsn o' = last_lsn o;
  sim_lsn : next_lsn o' = next_lsn o;
  sim_batch : next_batch_id o' = next_batch_id o;
  sim_superblock : current_superblock o' = current_superblock o;
  sim_slot : active_slot o' = active_slot o;
}.

#[global] Instance sim_preorder : PreOrder sim.
Proof.
  split.
  - intros o. by split.
  - intros o1 o2 o3 [] []. split; try congruence; [auto|set_solver].
Qed.

Lemma page_spec o id p :
  serving (store o) → view o id = Some p → FIRST_DATA_PAGE ≤ id ≤ high_water_page_id o →
  wp (page id) (λ r o', r = p ∧ sim o o') noerr o.
Proof.
  intros Hs Hv Hid. unfold page. wp_step.
  assert (wp (check_page_id id) (λ _ o', o' = o) noerr o) as Hchk.
  { unfold check_page_id. wp_steps. apply wp_fail_when; [|done]. intros Hb.
    apply orb_true_iff in Hb as [?%Z.ltb_lt|?%Z.ltb_lt]; lia. }
  wp_use Hchk; [|done]. simpl. intros _ ? ->. wp_steps. unfold view in Hv.
  destruct (pages o !! id) as [q|] eqn:Hp.
  { injection Hv as ->. apply wp_ret. by split. }
  destruct (cache_get_spec id (store o) Hs) as (Hs1 & Hh1 & Hc1 & Hhit).
  destruct (cache_get id (store o)) as [hit b1]. simpl in *. wp_steps.
  destruct hit as [q|].
  - rewrite (Hhit q eq_refl) in Hv. injection Hv as ->. wp_steps. split; [done|].
    split; simpl; try done; [|set_solver].
    intros i. unfold view. simpl. destruct (decide (i = id)) as [->|].
    + rewrite lookup_insert_eq, Hp. by rewrite (Hhit p eq_refl).
    + rewrite lookup_insert_ne by done. by rewrite Hc1.
  - wp_steps. rewrite <-Hc1 in Hv. destruct (read_page_spec id b1 p Hs1 Hv) as (b2 & Hr & Hs2 & Hh2 & Hc2).
    unfold wp. simpl. rewrite Hr. split; [done|]. split; simpl; try done; [congruence| |set_solver].
    intros i. unfold view. simpl. destruct (decide (i = id)) as [->|].
    + rewrite lookup_insert_eq, Hp. by rewrite <-Hc1.
    + rewrite lookup_insert_ne by done. by rewrite Hc2, Hc1.
Qed.

Lemma leaf_spec o id lsn next es :
  serving (store o) → view o id = Some (Format.Leaf lsn next es) →
  FIRST_DATA_PAGE ≤ id ≤ high_water_page_id o →
  wp (leaf id) (λ r o', r = mkLeafPage next es ∧ sim o o') noerr o.
Proof.
  intros. unfold leaf. wp_step. eapply wp_mono; [by apply page_spec| |done].
  intros p o' [-> ?]. by apply wp_ret.
Qed.

Lemma internal_spec o id lsn lm es :
  serving (store o) → view o id = Some (Format.Internal lsn lm es) →
  FIRST_DATA_PAGE ≤ id ≤ high_water_page_id o →
  wp (internal id) (λ r o', r = mkInternalPage lm es ∧ sim o o') noerr o.
Proof.
  intros. unfold internal. wp_step. eapply wp_mono; [by apply page_spec| |done].
  intros p o' [-> ?]. by apply wp_ret.
Qed.

(** ** The invariant

    The pages of the hole [D] are being rewritten. *)

(** The intervals of the tree begin at keys of the database, tombstones included. *)
Definition known_bounds G (db : database) : Prop :=
  ∀ id h lo hi, G !! id = Some (RTree h lo hi) → lo = [] ∨ is_Some (db !! lo).

Record inv o (D : gset PageId) G Gc (H : nat) (fl : list PageId) (db : database) : Prop := {
  inv_serving : serving (store o);
  inv_range : ∀ id r, G !! id = Some r → FIRST_DATA_PAGE ≤ id ≤ high_water_page_id o;
  inv_high : FIRST_DATA_PAGE ≤ high_water_page_id o < U64_MAX;
  inv_root : Gc !! root_page_id o = Some (RTree H [] None);
  inv_height : ∀ id h lo hi, Gc !! id = Some (RTree h lo hi) → (h ≤ H)%nat;
  inv_labels : labels_ok Gc;
  inv_pages : ∀ id r, G !! id = Some r → id ∉ D → page_ok (view o) G Gc db id r;
  inv_free : free_chain (view o) (free_list_head o) fl;
  inv_free_nodup : NoDup fl;
  inv_free_roles : ∀ id, id ∈ fl → G !! id = Some RFree;
  inv_dirty : dirty o ⊆ dom (pages o);
  inv_storable : ∀ id p, id ∈ dirty o → view o id = Some p →
    storable p ∧ FIRST_DATA_PAGE ≤ id ≤ high_water_page_id o;
  inv_bounds : known_bounds G db;
}.

(** What operations on pages leave alone: the counters, and every page that does
    not become dirty. *)
Record same_meta o o' : Prop := {
  meta_header : header (store o') = header (store o);
  meta_revision : next_revision o' = next_revision o;
  meta_last : last_lsn o' = last_lsn o;
  meta_lsn : next_lsn o' = next_lsn o;
  meta_batch : next_batch_id o' = next_batch_id o;
  meta_superblock : current_superblock o' = current_superblock o;
  meta_slot : active_slot o' = active_slot o;
  meta_dirty : dirty o ⊆ dirty o';
  meta_view : ∀ i, i ∉ dirty o' → view o' i = view o i;
}.

#[global] Instance same_meta_preorder : PreOrder same_meta.
Proof.
  split; [by split|]. intros o1 o2 o3 [] []. split; try congruence; [set_solver|].
  intros i Hi. trans (view o2 i); [auto|]. set_solver.
Qed.

Lemma sim_same_meta o o' : sim o o' → same_meta o o'.
Proof. intros []. split; try done. set_solver. Qed.

(** Everything the invariant says is about the view. *)
Lemma inv_view o o' D G Gc H fl db :
  inv o D G Gc H fl db → (∀ i, view o' i = view o i) → serving (store o') →
  root_page_id o' = root_page_id o → free_list_head o' = free_list_head o →
  high_water_page_id o' = high_water_page_id o → dirty o' ⊆ dirty o → dirty o' ⊆ dom (pages o') →
  inv o' D G Gc H fl db.
Proof.
  intros [I1 I2 I3 I4 I5 I6 I7 I8 I9 I10 I11 I12 I13] Hv Hs Hr Hf Hh Hd Hdom.
  split; rewrite ?Hr, ?Hf, ?Hh; try done.
  - intros id r Hid HD. eapply page_ok_frame; [apply Hv|eauto|eauto| |by apply I7].
    intros. split; [done|]. intros. by rewrite Hv.
  - eapply free_chain_frame; [|done]. auto.
  - intros id p Hid. rewrite Hv, ?Hh. apply I12, Hd, Hid.
Qed.

Lemma inv_sim o o' D G Gc H fl db : inv o D G Gc H fl db → sim o o' → inv o' D G Gc H fl db.
Proof.
  intros Hi [S1 S2 S3 S4 S5 S6 S7 S8]. eapply inv_view; eauto; [apply S1, Hi|by rewrite S5|].
  rewrite S5. etrans; [apply Hi|done].
Qed.

(** ** Writing and labelling pages *)

Definition replaced o id p : Overlay B :=
  set_dirty ({[id]} ∪ dirty o) (set_pages (<[id := p]> (pages o)) o).

Lemma wp_replace o id p (Q : unit → Overlay B → Prop) X : Q tt (replaced o id p) → wp (replace_page id p) Q X o.
Proof. done. Qed.

Lemma view_replaced o id p i : view (replaced o id p) i = if decide (i = id) then Some p else view o i.
Proof.
  unfold view. simpl. case_decide as Hi; [subst; by rewrite lookup_insert_eq|by rewrite lookup_insert_ne].
Qed.
Lemma view_replaced_eq o id p : view (replaced o id p) id = Some p.
Proof. rewrite view_replaced. by rewrite decide_True. Qed.
Lemma view_replaced_ne o id p i : i ≠ id → view (replaced o id p) i = view o i.
Proof. intros. rewrite view_replaced. by rewrite decide_False. Qed.

Lemma replaced_meta o id p : same_meta o (replaced o id p).
Proof. split; try done; simpl; [set_solver|]. intros i Hi. apply view_replaced_ne. set_solver. Qed.

Lemma replaced_meta_root o id p r : same_meta o (set_root r (replaced o id p)).
Proof. destruct (replaced_meta o id p). by split. Qed.

Lemma replaced_meta_free o a id p f : same_meta o (set_free_list_head f (replaced (set_allocated a o) id p)).
Proof. destruct (replaced_meta o id p). by split. Qed.

Lemma same_meta_twice o o1 o2 o3 id id' p p' :
  same_meta o o1 → o2 = replaced (replaced o1 id p) id' p' → same_meta o2 o3 → same_meta o o3.
Proof. intros H1 -> H3. trans o1; [done|]. etrans; [|done]. etrans; apply replaced_meta. Qed.

Lemma replaced_storable o id p :
  (∀ i q, i ∈ dirty o → view o i = Some q → storable q ∧ FIRST_DATA_PAGE ≤ i ≤ high_water_page_id o) →
  storable p → FIRST_DATA_PAGE ≤ id ≤ high_water_page_id o →
  ∀ i q, i ∈ dirty (replaced o id p) → view (replaced o id p) i = Some q →
    storable q ∧ FIRST_DATA_PAGE ≤ i ≤ high_water_page_id o.
Proof.
  intros Hold Hp Hid i q Hi. rewrite view_replaced. case_decide; [naive_solver|]. apply Hold. set_solver.
Qed.

(** Writing a page that belongs to a pending value. *)
Lemma inv_replace_pending o D G Gc H fl db id p :
  inv o D G Gc H fl db → G !! id = Some (RValue None) → storable p →
  inv (replaced o id p) D G Gc H fl db.
Proof.
  intros [I1 I2 I3 I4 I5 I6 I7 I8 I9 I10 I11 I12 I13] Hid Hp. split; try done.
  - intros i r Hi HD. destruct (decide (i = id)) as [->|]; [by simplify_eq|].
    eapply page_ok_frame; [by apply view_replaced_ne|eauto|eauto| |by apply I7].
    intros lo hi k _ _. split; [done|]. intros j Hj. split; [done|].
    apply view_replaced_ne. intros ->. congruence.
  - eapply free_chain_frame; [|done]. intros i Hi. apply view_replaced_ne. intros ->.
    apply I10 in Hi. congruence.
  - simpl. set_solver.
  - apply (replaced_storable o); eauto.
Qed.

(** Dropping the label of a page that is not part of the tree. *)
Lemma labels_ok_delete G id : labels_ok G → labels_ok (base.delete id G).
Proof.
  intros [L1 L2]. split.
  - intros i h lo hi [_ ?]%lookup_delete_Some. eauto.
  - intros i i' h lo hi lo' hi' k [_ ?]%lookup_delete_Some [_ ?]%lookup_delete_Some. eauto.
Qed.

Lemma children_ok_mono G G' h lo lm es hi :
  (∀ c a b, G !! c = Some (RTree h a b) → G' !! c = Some (RTree h a b)) →
  children_ok G h lo lm es hi → children_ok G' h lo lm es hi.
Proof. intros Hm. revert lo lm. induction es as [|e es IH]; intros lo lm; simpl; [auto|]. intros []. auto. Qed.

(** A label that is neither a tree page nor a value of an entry. *)
Definition loose (x : option role) : Prop :=
  match x with Some (RTree _ _ _) | Some (RValue (Some _)) => False | _ => True end.

(** A label the allocator can take. *)
Definition available (x : option role) : Prop := x = None ∨ x = Some RFree.

Lemma available_loose x : available x → loose x.
Proof. by intros [-> | ->]. Qed.

Lemma inv_delete o D G Gc H fl db id :
  inv o D G Gc H fl db → loose (G !! id) → loose (Gc !! id) → id ∉ fl →
  inv o D (base.delete id G) (base.delete id Gc) H fl db.
Proof.
  intros [I1 I2 I3 I4 I5 I6 I7 I8 I9 I10 I11 I12 I13] HG HGc Hfl.
  assert (Hne : ∀ i r, G !! i = Some r → loose (Some r) ∨ i ≠ id).
  { intros i r Hi. destruct (decide (i = id)) as [->|]; [left|by right]. by rewrite <-Hi. }
  assert (Hnec : ∀ i r, Gc !! i = Some r → loose (Some r) ∨ i ≠ id).
  { intros i r Hi. destruct (decide (i = id)) as [->|]; [left|by right]. by rewrite <-Hi. }
  split; try done.
  - intros i r [_ ?]%lookup_delete_Some. eauto.
  - rewrite lookup_delete_ne; [done|]. intros E. by destruct (Hnec _ _ I4).
  - intros i h lo hi [_ ?]%lookup_delete_Some. eauto.
  - by apply labels_ok_delete.
  - intros i r [_ Hi]%lookup_delete_Some HD. eapply page_ok_frame; [done|..|by apply I7].
    + intros n b hi Hn. exists hi. destruct (Hne _ _ Hn) as [[]|]. by rewrite lookup_delete_ne.
    + intros h lo hi lm es _. apply children_ok_mono. intros c a b Hc.
      destruct (Hnec _ _ Hc) as [[]|]. by rewrite lookup_delete_ne.
    + intros lo hi k _ _. split; [done|]. intros j Hj. split; [|done].
      destruct (Hne _ _ Hj) as [[]|]. by rewrite lookup_delete_ne.
  - intros i Hi. rewrite lookup_delete_ne; [auto|]. by intros ->.
  - intros i h lo hi [_ ?]%lookup_delete_Some. eauto.
Qed.

(** Labelling an unlabelled page as part of a pending value. *)
Lemma inv_label_value o D G H fl db id :
  inv o D G G H fl db → G !! id = None → FIRST_DATA_PAGE ≤ id ≤ high_water_page_id o →
  inv o D (<[id := RValue None]> G) (<[id := RValue None]> G) H fl db.
Proof.
  intros [I1 I2 I3 I4 I5 I6 I7 I8 I9 I10 I11 I12 I13] Hid Hr.
  assert (Hmono : ∀ i x, G !! i = Some x → <[id := RValue None]> G !! i = Some x).
  { intros i x Hi. rewrite lookup_insert_ne; [done|]. intros ->. congruence. }
  assert (Htree : ∀ i h lo hi, <[id := RValue None]> G !! i = Some (RTree h lo hi) → G !! i = Some (RTree h lo hi)).
  { intros i h lo hi. rewrite lookup_insert_Some. naive_solver. }
  split; try done; eauto.
  - intros i r. rewrite lookup_insert_Some. intros [[<- _]|[_ ?]]; eauto.
  - destruct I6 as [L1 L2]. split; eauto.
  - intros i r. rewrite lookup_insert_Some. intros [[_ <-]|[_ Hi]] HD; [done|].
    eapply page_ok_frame; [done|..|by apply I7]; [eauto| |].
    + intros h lo hi lm es _. apply children_ok_mono. eauto.
    + intros lo hi k _ _. split; [done|]. eauto.
  - intros i h lo hi Hi. eauto.
Qed.

(** ** The allocator *)

(** Errors of input that does not fit a page. *)
Definition rejected (e : Error) : Prop := ∃ m, e = InvalidInput m.

(** Up to this key size an entry of a leaf, slot and largest inline value included,
    takes at most half of a page, so that a page that overflows can be split. *)
Definition SPLIT_KEY_LIMIT : Z := 1464.

(** Some key of the database, tombstones included, is longer. *)
Definition crowded (db : database) : Prop := ∃ k, is_Some (db !! k) ∧ SPLIT_KEY_LIMIT < len k.

Lemma allocate_page_spec o D G Gc H fl db :
  inv o D G Gc H fl db → (∀ id, G !! id = Some RFree → Gc !! id = Some RFree) →
  (∀ id, G !! id = None → Gc !! id = None) → high_water_page_id o + 1 < U64_MAX →
  wp allocate_page
    (λ id o', ∃ fl', inv o' D (base.delete id G) (base.delete id Gc) H fl' db ∧
       available (G !! id) ∧ available (Gc !! id) ∧ FIRST_DATA_PAGE ≤ id ≤ high_water_page_id o' ∧
       high_water_page_id o ≤ high_water_page_id o' ≤ high_water_page_id o + 1 ∧ root_page_id o' = root_page_id o ∧
       (∀ i, view o' i = view o i) ∧ same_meta o o')
    noerr o.
Proof.
  intros Hi HGc HGn Hroom. pose proof Hi as [I1 I2 I3 I4 I5 I6 I7 I8 I9 I10 I11 I12 I13]. unfold allocate_page. wp_steps.
  destruct (free_list_head o) as [id|] eqn:Hfree.
  - destruct fl as [|id' fl]; simpl in I8; [done|]. destruct I8 as (E & lsn & next & Hv & Hc).
    injection E as <-. pose proof (I10 id ltac:(left)) as Hrole.
    wp_step. eapply wp_mono; [apply page_spec; eauto| |done]. intros p o1 [-> S]. wp_steps.
    apply NoDup_cons in I9 as [Hnin Hnd]. exists fl.
    set (o' := set_allocated _ _).
    assert (Hi' : inv o' D G Gc H fl db).
    { pose proof (inv_sim _ _ _ _ _ _ _ _ Hi S) as [J1 J2 J3 J4 J5 J6 J7 J8 J9 J10 J11 J12 J13]. split; try done.
      - simpl. eapply free_chain_frame; [|done]. intros i _. apply (sim_view _ _ S).
      - intros i ?. apply I10. by right. }
    split_and!.
    + apply inv_delete; [done|by rewrite Hrole|by rewrite (HGc _ Hrole)|done].
    + by right.
    + right. by apply HGc.
    + apply (I2 _ _ Hrole).
    + simpl. rewrite (sim_high _ _ S). apply (I2 _ _ Hrole).
    + simpl. rewrite (sim_high _ _ S). lia.
    + simpl. rewrite (sim_high _ _ S). lia.
    + apply (sim_root _ _ S).
    + apply (sim_view _ _ S).
    + apply sim_same_meta in S as []. by split.
  - destruct (checked_add (high_water_page_id o) 1) as [id|] eqn:Hadd; last first.
    { unfold checked_add in Hadd. destruct (Z.leb_spec (high_water_page_id o + 1) U64_MAX); [done|lia]. }
    apply checked_add_Some in Hadd as [-> Hmax]. wp_steps. unfold FIRST_DATA_PAGE in *.
    assert (Hnone : G !! (high_water_page_id o + 1) = None).
    { destruct (G !! _) as [r|] eqn:E; [|done]. apply I2 in E. lia. }
    exists fl. rewrite (delete_id G), (delete_id Gc) by auto.
    rewrite Hnone, (HGn _ Hnone). split_and!; simpl; try done; try lia; try by left.
    split; simpl; unfold FIRST_DATA_PAGE in *; try done; try lia.
    + intros i r ?%I2. lia.
    + by rewrite Hfree.
    + intros i p Hi1 [? ?]%I12; [|done]. split; [done|lia].
Qed.

End tree.
End Tree.
