(* ===== verification/OverlayReads.v ===== *)
(** * What the overlay reads from the store

    The overlay remembers the pages it reads from the file so that publishing can put
    them into the cache.  Whatever an operation does, those pages are committed pages
    that no earlier transaction of the group has changed; publishing relies on it to
    keep the cache coherent. *)

From S2P Require Import Prelude Wp Key Core Page Superblock Format Overlay Tree.

Module OverlayReads.
Import Core Overlay Tree.

Section reads.
Context {B : Type} {CB : CommittedStore B} {SP : CommittedStoreSpec B}.
Implicit Type o : Overlay B.

(** A property of the store that reading pages keeps. *)
Record read_stable (I : B → Prop) : Prop := {
  stable_cache : ∀ id b, serving b → I b → I (cache_get id b).2;
  stable_read : ∀ id b, serving b → FIRST_DATA_PAGE ≤ id → I b → I (read_page_from_file id b).2;
}.

(** [K] are the pages changed by the earlier transactions of the group, [Cm] is what
    the store has committed and [I] what else is known of it. *)
Record reads_ok (K : gset PageId) (Cm : PageId → option PageData) (h : StoreHeader) (I : B → Prop) o : Prop := {
  ro_stable : I (store o);
  ro_serving : serving (store o);
  ro_header : header (store o) = h;
  ro_committed : ∀ i, committed (store o) i = Cm i;
  ro_pages : K ⊆ dom (pages o);
  ro_reads : ∀ i q, read_pages o !! i = Some q → (i ∉ K) ∧ Cm i = Some q;
}.

Context (K : gset PageId) (Cm : PageId → option PageData) (h : StoreHeader) (I : B → Prop) (HI : read_stable I).

(** [m] keeps the property of the overlay that [π] selects, on every path. *)
Definition keeps {S A} (π : S → Overlay B) (m : St S Error A) : Prop :=
  ∀ s, reads_ok K Cm h I (π s) → reads_ok K Cm h I (π (m s).2).
Abbreviation kept := (keeps (λ o : Overlay B, o)).

Section combinators.
Context {S : Type} (π : S → Overlay B).
Abbreviation keep := (keeps π).

Lemma keeps_ret {A} (a : A) : keep (mret a).
Proof. by intros s. Qed.
Lemma keeps_lift {A} (r : Result Error A) : keep (lift_r r).
Proof. by intros s. Qed.
Lemma keeps_throw {A} e : keep (throw (A:=A) e).
Proof. by intros s. Qed.
Lemma keeps_fail_when b e : keep (fail_when b e).
Proof. by intros s. Qed.
Lemma keeps_get : keep get_st.
Proof. by intros s. Qed.
Lemma keeps_bind {A A'} (m : St S Error A) (f : A → St S Error A') :
  keep m → (∀ a, keep (f a)) → keep (mbind f m).
Proof.
  intros Hm Hf s Hs. specialize (Hm s Hs). unfold mbind, St_bind.
  destruct (m s) as [[a|e|k] s']; [|done..]. by apply Hf.
Qed.
Lemma keeps_fmap {A A'} (f : A → A') (m : St S Error A) : keep m → keep (f <$> m).
Proof. intros Hm s Hs. specialize (Hm s Hs). unfold fmap, St_fmap. by destruct (m s). Qed.
Lemma keeps_for_each {A} (body : A → St S Error unit) l : (∀ x, keep (body x)) → keep (for_each body l).
Proof. intros Hb. induction l; simpl; [apply keeps_ret|]. by apply keeps_bind. Qed.
Lemma keeps_map_each {A A'} (f : A → St S Error A') l : (∀ x, keep (f x)) → keep (map_each f l).
Proof.
  intros Hb. induction l as [|x l IH]; simpl; [apply keeps_ret|]. apply keeps_bind; [done|]. intros y.
  apply keeps_bind; [done|]. intros ys. apply keeps_ret.
Qed.
Lemma keeps_modify (f : S → S) :
  (∀ s, store (π (f s)) = store (π s) ∧ read_pages (π (f s)) = read_pages (π s) ∧
        dom (pages (π s)) ⊆ dom (pages (π (f s)))) → keep (modify_st f).
Proof.
  intros Hf s [R0 R1 R2 R3 R4 R5]. destruct (Hf s) as (E1 & E2 & E3).
  split; simpl; rewrite ?E1, ?E2; try done. set_solver.
Qed.
End combinators.

Lemma keeps_on_overlay {A} (m : St (Overlay B) Error A) :
  kept m → keeps fst (on_overlay m : St (Overlay B * ResponseBudget) Error A).
Proof. intros Hm [o b] Hs. specialize (Hm o Hs). unfold on_overlay, zoom. simpl. by destruct (m o). Qed.
Lemma keeps_on_budget {A} (m : St ResponseBudget Error A) :
  keeps fst (on_budget m : St (Overlay B * ResponseBudget) Error A).
Proof. intros [o b] Hs. unfold on_budget, zoom. simpl. by destruct (m b). Qed.

Create HintDb keeps.
#[local] Hint Resolve keeps_ret keeps_lift keeps_throw keeps_fail_when keeps_get keeps_on_budget
  keeps_on_overlay : keeps.

(** One step of a body: a bind, a loop, a field assignment or a case. *)
Ltac keep_step :=
  lazymatch goal with
  | |- keeps _ (mbind _ _) => apply keeps_bind; [|intros ?]
  | |- keeps _ (fmap _ _) => apply keeps_fmap
  | |- keeps _ (for_each _ _) => apply keeps_for_each; intros ?
  | |- keeps _ (map_each _ _) => apply keeps_map_each; intros ?
  | |- keeps _ (modify_st _) => apply keeps_modify; intros ?; split_and!; [done|done|set_solver]
  | |- keeps _ (let '_ := ?x in _) => destruct x
  | |- keeps _ (match ?x with _ => _ end) => destruct x
  | |- keeps _ (if ?x then _ else _) => destruct x
  | |- _ => solve [eauto with keeps]
  end.
Ltac keep := repeat keep_step.

(** Only a page that the overlay does not have is read from the file. *)
Lemma keeps_page id : kept (page id).
Proof.
  unfold page, check_page_id. intros o [R0 R1 R2 R3 R4 R5].
  unfold mbind, St_bind, get_st, fail_when, lift_r, fail_if.
  destruct (Z.ltb_spec id FIRST_DATA_PAGE) as [|Hid]; [by split|]. cbn [orb].
  destruct (high_water_page_id o <? id); [by split|].
  destruct (pages o !! id) as [p|] eqn:Ep; [by split|].
  pose proof (cache_get_spec id (store o) R1) as Hc. pose proof (stable_cache I HI id (store o) R1 R0) as I1. destruct (cache_get id (store o)) as [hit b].
  cbn [fst snd] in Hc, I1. destruct Hc as (C1 & C2 & C3 & C4).
  destruct hit as [p|]; unfold modify_st, mret, St_ret; simpl.
  { split; simpl; [done|done|congruence|intros i; by rewrite C3|set_solver|done]. }
  unfold zoom. simpl. pose proof (read_page_frame id b C1 Hid) as Hr.
  pose proof (stable_read I HI id b C1 Hid I1) as I2.
  destruct (read_page_from_file id b) as [[p|e|k] b']; cbn [fst snd] in Hr; destruct Hr as (F1 & F2 & F3 & F4);
    (split; simpl; [done|done|congruence|intros i; by rewrite F3, C3|set_solver|]); [|done|done].
  intros i q. destruct (decide (i = id)) as [->|Hne].
  - rewrite lookup_insert_eq. intros [= <-]. split.
    + intros Hk. apply R4, elem_of_dom in Hk. rewrite Ep in Hk. by destruct Hk.
    + by rewrite <-R3, <-C3, (F4 p).
  - rewrite lookup_insert_ne by done. apply R5.
Qed.
#[local] Hint Resolve keeps_page : keeps.

Lemma keeps_replace id p : kept (replace_page id p).
Proof. unfold replace_page. keep. Qed.
Lemma keeps_leaf id : kept (leaf id).
Proof. unfold leaf. keep. Qed.
Lemma keeps_internal id : kept (internal id).
Proof. unfold internal. keep. Qed.
Lemma keeps_allocate : kept allocate_page.
Proof. unfold allocate_page. keep. Qed.
#[local] Hint Resolve keeps_replace keeps_leaf keeps_internal keeps_allocate : keeps.
Lemma keeps_free_page id r : kept (free_page id r).
Proof. unfold free_page. keep. Qed.
Lemma keeps_revision : kept allocate_revision.
Proof. unfold allocate_revision. keep. Qed.
#[local] Hint Resolve keeps_free_page keeps_revision : keeps.

Lemma keeps_find_leaf_loop fuel k id route visited : kept (find_leaf_loop fuel k id route visited).
Proof. revert id route visited. induction fuel; intros; cbn [find_leaf_loop]; keep. Qed.
Lemma keeps_find_leaf k : kept (find_leaf k).
Proof. unfold find_leaf. keep_step; [keep|]. apply keeps_find_leaf_loop. Qed.
Lemma keeps_leftmost_loop fuel id visited : kept (leftmost_leaf_loop fuel id visited).
Proof. revert id visited. induction fuel; intros; cbn [leftmost_leaf_loop]; keep. Qed.
Lemma keeps_leftmost : kept leftmost_leaf.
Proof. unfold leftmost_leaf. keep_step; [keep|]. apply keeps_leftmost_loop. Qed.
#[local] Hint Resolve keeps_find_leaf keeps_leftmost : keeps.

Lemma keeps_allocate_pages n : kept (allocate_pages n).
Proof. induction n; cbn [allocate_pages]; keep. Qed.
Lemma keeps_write_chunks lsn t ids cs : kept (write_chunks lsn t ids cs).
Proof. revert ids. induction cs; intros [|]; cbn [write_chunks]; keep. Qed.
#[local] Hint Resolve keeps_allocate_pages keeps_write_chunks : keeps.
Lemma keeps_make_value v lsn : kept (make_value v lsn).
Proof. unfold make_value. keep. Qed.
Lemma keeps_free_value_loop fuel n lsn id visited c t : kept (free_value_loop fuel n lsn id visited c t).
Proof. revert id visited c t. induction fuel; intros [|]; intros; cbn [free_value_loop]; keep. Qed.
Lemma keeps_read_value_loop fuel n id visited c out : kept (read_value_loop fuel n id visited c out).
Proof. revert id visited c out. induction fuel; intros [|]; intros; cbn [read_value_loop]; keep. Qed.
#[local] Hint Resolve keeps_make_value keeps_free_value_loop keeps_read_value_loop : keeps.
Lemma keeps_free_value v lsn : kept (free_value v lsn).
Proof. unfold free_value. keep. Qed.
Lemma keeps_read_value v : kept (read_value v).
Proof. unfold read_value. keep. Qed.
#[local] Hint Resolve keeps_free_value keeps_read_value : keeps.

Lemma keeps_insert_parents route sep right lsn : kept (insert_parents route sep right lsn).
Proof. revert sep right. induction route; intros; cbn [insert_parents]; keep. Qed.
#[local] Hint Resolve keeps_insert_parents : keeps.
Lemma keeps_insert_leaf id route lf lsn : kept (insert_leaf_entries id route lf lsn).
Proof. unfold insert_leaf_entries, insert_parent_separator. keep. Qed.
#[local] Hint Resolve keeps_insert_leaf : keeps.
Lemma keeps_put k v : kept (put k v).
Proof. unfold put, validate_value. keep. Qed.
Lemma keeps_delete k : kept (delete k).
Proof. unfold delete. keep. Qed.
Lemma keeps_observed k : kept (get_observed_state k).
Proof. unfold get_observed_state. keep. Qed.
#[local] Hint Resolve keeps_put keeps_delete keeps_observed : keeps.

Lemma keeps_get_state k : keeps fst (get_state_with_budget k : St (Overlay B * _) _ _).
Proof. unfold get_state_with_budget. keep. Qed.
Lemma keeps_query_entries pk after cursor limit es first rows :
  keeps fst (query_entries pk after cursor limit es first rows : St (Overlay B * _) _ _).
Proof. revert first rows. induction es; intros; cbn [query_entries]; unfold push_document; keep. Qed.
Lemma keeps_scan_entries cursor limit es rows :
  keeps fst (scan_entries cursor limit es rows : St (Overlay B * _) _ _).
Proof. revert rows. induction es; intros; cbn [scan_entries]; unfold push_document; keep. Qed.
#[local] Hint Resolve keeps_get_state keeps_query_entries keeps_scan_entries : keeps.
Lemma keeps_query_leaves fuel pk after cursor limit id first visited rows :
  keeps fst (query_leaves fuel pk after cursor limit id first visited rows : St (Overlay B * _) _ _).
Proof. revert id first visited rows. induction fuel; intros; cbn [query_leaves]; keep. Qed.
Lemma keeps_scan_leaves fuel cursor limit id visited rows :
  keeps fst (scan_leaves fuel cursor limit id visited rows : St (Overlay B * _) _ _).
Proof. revert id visited rows. induction fuel; intros; cbn [scan_leaves]; keep. Qed.
#[local] Hint Resolve keeps_query_leaves keeps_scan_leaves : keeps.
Lemma keeps_execute r : keeps fst (execute_with_budget r : St (Overlay B * _) _ _).
Proof. destruct r; cbn [execute_with_budget]; unfold query_with_budget, scan_with_budget; keep. Qed.
#[local] Hint Resolve keeps_execute : keeps.
Lemma keeps_execute_all rs : keeps fst (execute_all rs : St (Overlay B * _) _ _).
Proof. induction rs; cbn [execute_all]; keep. Qed.

(** Everything of a transaction before it is finished. *)
Lemma keeps_mutations ms : kept (for_each apply_mutation ms).
Proof. keep_step. unfold apply_mutation. keep. Qed.
Lemma keeps_conditions cs : kept (for_each check_condition cs).
Proof. keep_step. unfold check_condition. keep. Qed.
Lemma keeps_validate ms : kept (for_each validate_transaction_mutation ms).
Proof. keep_step. unfold validate_transaction_mutation, validate_value. keep. Qed.
End reads.

(** ** Batches *)
Section batches.
Context {B : Type} {CB : CommittedStore B} {SP : CommittedStoreSpec B} {CR : Crc32c}.
Context (I : B → Prop) (HI : read_stable I).
Implicit Type o : Overlay B.

(** The pages a batch has read from the file. *)
Definition batch_reads (K : gset PageId) (Cm : PageId → option PageData) (p : PreparedBatch) : Prop :=
  ∀ i q, prepared_read_pages p !! i = Some q → (i ∉ K) ∧ Cm i = Some q.

Lemma restamp_pages_dom ids r c m m' : restamp_pages ids r c m = Ok m' → dom m ⊆ dom m'.
Proof.
  revert m. induction ids as [|id ids IH]; intros m; simpl; [by intros [= ->]|].
  destruct (m !! id) as [p|]; simpl; [|done]. intros Hm%IH. set_solver.
Qed.

Lemma encode_dirty_dom ids m im de im' de' : encode_dirty ids m im de = Ok (im', de') → dom de' ⊆ dom de ∪ dom m.
Proof.
  revert im de. induction ids as [|id ids IH]; intros im de; simpl; [intros [= _ ->]; set_solver|].
  destruct (m !! id) as [p|] eqn:Em; simpl; [|done]. destruct (Format.encode p id); simpl; [|done..].
  intros Hd%IH. apply elem_of_dom_2 in Em. set_solver.
Qed.

Lemma finish_reads K Cm h o :
  reads_ok K Cm h I o →
  match finish_transaction o with
  | (Ok p, o') => batch_reads K Cm p ∧ reads_ok (K ∪ dom (changed_decoded p)) Cm h I o'
  | (_, o') => reads_ok K Cm h I o'
  end.
Proof.
  intros [R0 R1 R2 R3 R4 R5]. unfold finish_transaction, mbind, St_bind, get_st, lift_r, modify_st, mret, St_ret.
  destruct (ok_or (last_lsn o) _) as [r| |]; [|by split..].
  destruct (commit_lsn_for _ _ _ _) as [c| |]; [|by split..].
  destruct (restamp_pages _ _ _ _) as [m| |] eqn:Em; [|by split..]. apply restamp_pages_dom in Em.
  destruct (next_superblock _ _ _ _) as [sb| |]; [|split; simpl; try done; set_solver..].
  destruct (encode_dirty _ _ _ _) as [[im de]| |] eqn:Ed; [|split; simpl; try done; set_solver..].
  apply encode_dirty_dom in Ed. rewrite dom_empty_L in Ed.
  destruct (ok_or (checked_add c 1) (InternalInvariantViolation "storage revision exhausted")) as [nr| |];
    [|split; simpl; try done; set_solver..].
  destruct (ok_or (checked_add c 1) _) as [nl| |]; [|split; simpl; try done; set_solver..].
  destruct (ok_or (checked_add (next_batch_id o) 1) _) as [nb| |]; [|split; simpl; try done; set_solver..].
  split; [exact R5|]. split; simpl; try done. set_solver.
Qed.

Lemma prepare_transaction_reads K Cm h q o :
  reads_ok K Cm h I o →
  match prepare_transaction q o with
  | (Ok (Some p), o') => batch_reads K Cm p ∧ reads_ok (K ∪ dom (changed_decoded p)) Cm h I o'
  | (_, o') => reads_ok K Cm h I o'
  end.
Proof.
  intros Ho. unfold prepare_transaction. unfold mbind, St_bind, lift_r. destruct (validate q); [|done..].
  pose proof (keeps_validate K Cm h I (mutations q) o Ho) as H1.
  destruct (for_each validate_transaction_mutation _ o) as [[]o1]; cbn [snd] in H1; [|done..].
  pose proof (keeps_conditions K Cm h I HI (conditions q) o1 H1) as H2.
  destruct (for_each check_condition _ o1) as [[] o2]; cbn [snd] in H2; [|done..].
  destruct (mutations q) as [|mu ms]; [done|].
  pose proof (keeps_mutations K Cm h I HI (mu :: ms) o2 H2) as H3.
  destruct (for_each apply_mutation _ o2) as [[] o3]; cbn [snd] in H3; [|done..].
  pose proof (finish_reads K Cm h o3 H3) as H4. unfold fmap, St_fmap.
  by destruct (finish_transaction o3) as [[] o4].
Qed.

Fixpoint group_reads (K : gset PageId) (Cm : PageId → option PageData) (ps : list PreparedBatch) : Prop :=
  match ps with
  | [] => True
  | p :: ps' => batch_reads K Cm p ∧ group_reads (K ∪ dom (changed_decoded p)) Cm ps'
  end.

Lemma prepare_group_reads K Cm h qs o :
  reads_ok K Cm h I o →
  (∃ K', reads_ok K' Cm h I (prepare_group qs o).2) ∧
  (∀ ps rs, (prepare_group qs o).1 = Ok (ps, rs) → group_reads K Cm ps).
Proof.
  revert K o. induction qs as [|q qs IH]; intros K o Ho; cbn [prepare_group].
  { split; [by exists K|]. by intros ps rs [= <- <-]. }
  pose proof (prepare_transaction_reads K Cm h q o Ho) as Hq.
  destruct (prepare_transaction q o) as [[[p|]|e|] o1].
  - destruct Hq as [Hb Hq]. destruct (prepared_commit_lsn p); [|by split; [eexists|]].
    destruct (IH _ _ Hq) as [IH1 IH2]. destruct (prepare_group qs o1) as [[[ps rs]| |] o2]; split; try done.
    intros ps' rs' [= <- <-]. split; [done|]. by eapply IH2.
  - destruct (IH _ _ Hq) as [IH1 IH2]. destruct (prepare_group qs o1) as [[[ps rs]| |] o2]; split; try done.
    intros ps' rs' [= <- <-]. by eapply IH2.
  - destruct (IH _ _ Hq) as [IH1 IH2].
    destruct e; try (split; [by eexists|done]);
      (destruct (prepare_group qs o1) as [[[ps rs]| |] o2]; split; [done| |done|done|done|done];
       intros ps' rs' [= <- <-]; by eapply IH2).
  - split; [by eexists|done].
Qed.

(** A fresh overlay. *)
Lemma new_reads b : serving b → I b → reads_ok ∅ (committed b) (header b) I (overlay_new b).
Proof. by split. Qed.
End batches.
End OverlayReads.
