(* ===== verification/TreeSearch.v ===== *)
(** * Searching the tree

    The descent of [find_leaf] and [leftmost_leaf]: it returns, needs no more fuel
    than there are pages, and ends in the leaf that is responsible for the key. *)

From S2P Require Import Prelude Wp Key Core Format Overlay Tree.

Module TreeSearch.
Import Core Overlay Tree.

(** A set of page identifiers in the allocated range is not larger than it. *)
Lemma visited_bound (s : gset PageId) hw :
  FIRST_DATA_PAGE ≤ hw → (∀ i, i ∈ s → FIRST_DATA_PAGE ≤ i ≤ hw) → Z.of_nat (size s) ≤ hw - 1.
Proof.
  unfold FIRST_DATA_PAGE. intros Hw Hs.
  assert (s ⊆ list_to_set (seqZ 2 (hw - 1))) as Hsub.
  { intros i Hi. apply elem_of_list_to_set, elem_of_seqZ. apply Hs in Hi. lia. }
  apply subseteq_size in Hsub. rewrite size_list_to_set in Hsub by apply NoDup_seqZ.
  rewrite length_seqZ in Hsub. lia.
Qed.

(** The ancestors of a page of height [h] on the way to [k], the parent first. *)
Fixpoint path (G : labels) (k : bytes) (rr : list PageId) (h H : nat) : Prop :=
  match rr with
  | [] => h = H
  | p :: rr' => (∃ lo hi, G !! p = Some (RTree (S h) lo hi) ∧ in_bounds lo hi k) ∧ path G k rr' (S h) H
  end.

Lemma path_length G k rr h H : path G k rr h H → (h + length rr)%nat = H.
Proof. revert h. induction rr as [|p rr IH]; intros h; simpl; [lia|]. intros [_ ?%IH]. lia. Qed.

Lemma path_mono G G' k rr h H :
  (∀ p h' lo hi, (h < h')%nat → G !! p = Some (RTree h' lo hi) → G' !! p = Some (RTree h' lo hi)) →
  path G k rr h H → path G' k rr h H.
Proof.
  revert h. induction rr as [|p rr IH]; intros h Hm; simpl; [done|].
  intros [(lo & hi & Hp & Hk) Hrr]. split; [exists lo, hi; split; [apply Hm; [lia|done]|done]|].
  apply IH; [|done]. intros. apply Hm; [lia|done].
Qed.

(** The ancestors are distinct pages. *)
Lemma path_heights G k rr h H p :
  path G k rr h H → p ∈ rr → ∃ h' lo hi, G !! p = Some (RTree h' lo hi) ∧ (h < h')%nat.
Proof.
  revert h. induction rr as [|q rr IH]; intros h; simpl; [by intros _ ?%not_elem_of_nil|].
  intros [(lo & hi & Hq & _) Hrr] [->|Hp]%elem_of_cons; [eauto with lia|].
  destruct (IH _ Hrr Hp) as (h' & lo' & hi' & ? & ?). exists h', lo', hi'. split; [done|lia].
Qed.

Lemma path_nodup G k rr h H : path G k rr h H → NoDup rr.
Proof.
  revert h. induction rr as [|p rr IH]; intros h; simpl; [constructor|].
  intros [(lo & hi & Hp & _) Hrr]. constructor; [|by eapply IH].
  intros Hin. destruct (path_heights _ _ _ _ _ _ Hrr Hin) as (h' & lo' & hi' & Hp' & ?). simplify_eq. lia.
Qed.

Section search.
Context {B : Type} {CB : CommittedStore B} {SP : CommittedStoreSpec B}.
Implicit Types (o : Overlay B) (G : labels).

Lemma find_leaf_loop_spec fuel o G H fl db k id route visited h lo hi :
  inv o ∅ G G H fl db → G !! id = Some (RTree h lo hi) → in_bounds lo hi k →
  path G k (reverse route) h H →
  (∀ v, v ∈ visited → ∃ h' lo' hi', G !! v = Some (RTree h' lo' hi') ∧ (h < h')%nat) →
  high_water_page_id o + 1 ≤ Z.of_nat fuel + Z.of_nat (size visited) →
  wp (find_leaf_loop fuel k id route visited)
    (λ r o', sim o o' ∧ ∃ rr lo hi, reverse r.2 = r.1 :: rr ∧ path G k rr 0 H ∧
       G !! r.1 = Some (RTree 0 lo hi) ∧ in_bounds lo hi k) noerr o.
Proof.
  revert o id route visited h lo hi. induction fuel as [|fuel IH];
    intros o id route visited h lo hi Hi Hid Hk Hp Hvis Hfuel.
  - exfalso. assert (Z.of_nat (size visited) ≤ high_water_page_id o - 1); [|lia].
    apply visited_bound; [apply Hi|]. intros v (h' & lo' & hi' & Hv & _)%Hvis.
    by eapply (inv_range _ _ _ _ _ _ _ Hi).
  - cbn [find_leaf_loop]. wp_step. apply wp_fail_when.
    { intros Hb%bool_decide_eq_true. destruct (Hvis _ Hb) as (h' & lo' & hi' & Hv & Hlt). simplify_eq. lia. }
    intros Hnv%bool_decide_eq_false. pose proof (inv_pages _ _ _ _ _ _ _ Hi _ _ Hid ltac:(set_solver)) as Hpage.
    pose proof (inv_range _ _ _ _ _ _ _ Hi _ _ Hid) as Hrange. wp_step.
    destruct h as [|h]; simpl in Hpage.
    + destruct Hpage as (lsn & next & es & Hv & _).
      eapply wp_mono; [apply page_spec; eauto; apply Hi| |done]. intros p o' [-> S]. wp_steps.
      split; [done|]. exists (reverse route), lo, hi. simpl. by rewrite reverse_snoc.
    + destruct Hpage as (lsn & lm & es & Hv & _ & Hch).
      eapply wp_mono; [apply page_spec; eauto; apply Hi| |done]. intros p o' [-> S]. wp_steps.
      destruct (child_for_spec G h lo lm es hi k) as (c & a & b & Hc & Hlab & Hin); [apply Hi|done..|].
      eapply wp_lift_ok; [done|].
      eapply wp_mono; [eapply (IH o'); eauto using inv_sim| |done].
      * rewrite reverse_snoc. simpl. eauto.
      * intros v [->%elem_of_singleton|(h' & lo' & hi' & Hv' & ?)%Hvis]%elem_of_union; [eauto with lia|].
        exists h', lo', hi'. split; [done|lia].
      * rewrite size_union by set_solver. rewrite size_singleton, (sim_high _ _ S). lia.
      * intros r o2 [S2 Hr]. split; [by trans o'|done].
Qed.

Lemma find_leaf_spec o G H fl db k :
  inv o ∅ G G H fl db →
  wp (find_leaf k)
    (λ r o', sim o o' ∧ ∃ rr lo hi, reverse r.2 = r.1 :: rr ∧ path G k rr 0 H ∧
       G !! r.1 = Some (RTree 0 lo hi) ∧ in_bounds lo hi k) noerr o.
Proof.
  intros Hi. unfold find_leaf. wp_steps. eapply find_leaf_loop_spec; eauto.
  - apply Hi.
  - split; [|done]. intros Hlt. by destruct k.
  - done.
  - set_solver.
  - unfold traversal_fuel. pose proof (inv_high _ _ _ _ _ _ _ Hi). unfold FIRST_DATA_PAGE in *.
    rewrite size_empty. lia.
Qed.

(** The leaf a key belongs to, read. *)
Lemma find_and_read_leaf_spec {A} o G H fl db k (f : PageId → list PageId → LeafPage → St (Overlay B) Error A) Q X :
  inv o ∅ G G H fl db →
  (∀ o' id route rr lo hi lsn next es,
     sim o o' → inv o' ∅ G G H fl db → reverse route = id :: rr → path G k rr 0 H →
     G !! id = Some (RTree 0 lo hi) → in_bounds lo hi k →
     view o' id = Some (Format.Leaf lsn next es) → storable (Format.Leaf lsn next es) →
     leaf_ok (view o') G db lo hi next es →
     wp (f id route (mkLeafPage next es)) Q X o') →
  wp ('(id, route) ← find_leaf k; lf ← leaf id; f id route lf) Q X o.
Proof.
  intros Hi Hf. wp_step. eapply wp_mono; [by eapply find_leaf_spec| |by intros].
  intros [id route] o1 (S1 & rr & lo & hi & Hr & Hp & Hid & Hk). simpl in *.
  pose proof (inv_sim _ _ _ _ _ _ _ _ Hi S1) as Hi1.
  pose proof (inv_pages _ _ _ _ _ _ _ Hi1 _ _ Hid ltac:(set_solver)) as (lsn & next & es & Hv & Hst & HL).
  wp_step. eapply wp_mono; [eapply leaf_spec; [apply Hi1|done|]| |by intros].
  { by eapply (inv_range _ _ _ _ _ _ _ Hi1). }
  intros lf o2 [-> S2]. pose proof (inv_sim _ _ _ _ _ _ _ _ Hi1 S2) as Hi2.
  pose proof (inv_pages _ _ _ _ _ _ _ Hi2 _ _ Hid ltac:(set_solver)) as (lsn' & next' & es' & Hv' & _ & HL').
  rewrite (sim_view _ _ S2) in Hv'. rewrite Hv in Hv'. simplify_eq.
  eapply Hf; eauto; [by trans o1|]. by rewrite (sim_view _ _ S2).
Qed.

Lemma path_bound o D G Gc Hh fl db k rr h H :
  inv o D G Gc Hh fl db → path G k rr h H → len rr ≤ high_water_page_id o - 1.
Proof.
  intros Hi Hp. pose proof (path_nodup _ _ _ _ _ Hp) as Hn.
  pose proof (visited_bound (list_to_set rr) (high_water_page_id o)) as Hb.
  rewrite size_list_to_set in Hb by done. apply Hb; [apply Hi|].
  intros i (h' & lo & hi & Hl & _)%elem_of_list_to_set%(path_heights _ _ _ _ _ _ Hp).
  by eapply (inv_range _ _ _ _ _ _ _ Hi).
Qed.

Lemma leftmost_leaf_loop_spec fuel o G H fl db id visited h hi :
  inv o ∅ G G H fl db → G !! id = Some (RTree h [] hi) →
  (∀ v, v ∈ visited → ∃ h' lo' hi', G !! v = Some (RTree h' lo' hi') ∧ (h < h')%nat) →
  high_water_page_id o + 1 ≤ Z.of_nat fuel + Z.of_nat (size visited) →
  wp (leftmost_leaf_loop fuel id visited)
    (λ r o', sim o o' ∧ ∃ hi, G !! r = Some (RTree 0 [] hi)) noerr o.
Proof.
  revert o id visited h hi. induction fuel as [|fuel IH]; intros o id visited h hi Hi Hid Hvis Hfuel.
  - exfalso. assert (Z.of_nat (size visited) ≤ high_water_page_id o - 1); [|lia].
    apply visited_bound; [apply Hi|]. intros v (h' & lo' & hi' & Hv & _)%Hvis.
    by eapply (inv_range _ _ _ _ _ _ _ Hi).
  - cbn [leftmost_leaf_loop]. wp_step. apply wp_fail_when.
    { intros Hb%bool_decide_eq_true. destruct (Hvis _ Hb) as (h' & lo' & hi' & Hv & Hlt). simplify_eq. lia. }
    intros Hnv%bool_decide_eq_false. pose proof (inv_pages _ _ _ _ _ _ _ Hi _ _ Hid ltac:(set_solver)) as Hpage.
    pose proof (inv_range _ _ _ _ _ _ _ Hi _ _ Hid) as Hrange. wp_step.
    destruct h as [|h]; simpl in Hpage.
    + destruct Hpage as (lsn & next & es & Hv & _).
      eapply wp_mono; [apply page_spec; eauto; apply Hi| |done]. intros p o' [-> S]. wp_steps. eauto.
    + destruct Hpage as (lsn & lm & es & Hv & _ & Hch).
      eapply wp_mono; [apply page_spec; eauto; apply Hi| |done]. intros p o' [-> S].
      assert (∃ b, G !! lm = Some (RTree h [] b)) as [b Hlm].
      { destruct es; simpl in Hch; [eauto|destruct Hch; eauto]. }
      eapply wp_mono; [eapply (IH o'); eauto using inv_sim| |done].
      * intros v [->%elem_of_singleton|(h' & lo' & hi' & Hv' & ?)%Hvis]%elem_of_union; [eauto with lia|].
        exists h', lo', hi'. split; [done|lia].
      * rewrite size_union by set_solver. rewrite size_singleton, (sim_high _ _ S). lia.
      * intros r o2 [S2 Hr]. split; [by trans o'|done].
Qed.

Lemma leftmost_leaf_spec o G H fl db :
  inv o ∅ G G H fl db →
  wp leftmost_leaf (λ r o', sim o o' ∧ ∃ hi, G !! r = Some (RTree 0 [] hi)) noerr o.
Proof.
  intros Hi. unfold leftmost_leaf. wp_steps. eapply leftmost_leaf_loop_spec; eauto.
  - apply Hi.
  - set_solver.
  - unfold traversal_fuel. pose proof (inv_high _ _ _ _ _ _ _ Hi). unfold FIRST_DATA_PAGE in *.
    rewrite size_empty. lia.
Qed.

End search.
End TreeSearch.
