(* ===== verification/SplitRoom.v ===== *)
(** * Splits that always exist

    When [choose_leaf_split] and [choose_internal_split] find a split: if no entry takes
    more than half of a page, a page that overflows by one entry can be cut in two pages
    that fit.  This is a fact about sizes only; it is what makes a write that passed
    validation succeed. *)

From S2P Require Import Prelude Key Core Format FormatLaws Overlay.

Module SplitRoom.
Import Core Overlay.

(** ** Cutting a list of weights *)

(** What the entries of a list take. *)
Definition load {A} (w : A → Z) (l : list A) : Z := foldr (λ x n, w x + n) 0 l.

Lemma load_app {A} (w : A → Z) l l' : load w (l ++ l') = load w l + load w l'.
Proof. induction l as [|x l IH]; [done|]. cbn [app load foldr]. fold (load w (l ++ l')) (load w l). lia. Qed.

(** A load that exceeds the capacity exceeds it at some entry. *)
Lemma load_cut {A} (w : A → Z) cap l :
  0 ≤ cap → Forall (λ x, w x ≤ cap) l → cap < load w l →
  ∃ l1 x l2, l = l1 ++ x :: l2 ∧ l1 ≠ [] ∧ load w l1 ≤ cap ∧ cap < load w l1 + w x.
Proof.
  intros Hcap HF Hl.
  assert (∃ l1 x l2, l = l1 ++ x :: l2 ∧ 0 + load w l1 ≤ cap ∧ cap < 0 + load w l1 + w x) as (l1 & x & l2 & -> & H1 & H2).
  { assert (cap < 0 + load w l) as Hl' by lia. clear Hl HF. revert Hcap Hl'. generalize 0 as acc.
    induction l as [|y l IH]; intros acc Hacc Hl; cbn [load foldr] in Hl; [lia|]. fold (load w l) in Hl.
    destruct (Z.lt_ge_cases cap (acc + w y)) as [Hy|Hy]; [exists [], y, l; cbn; split; [done|lia]|].
    destruct (IH (acc + w y) Hy) as (l1 & x & l2 & -> & H1 & H2); [lia|].
    exists (y :: l1), x, l2. cbn [load foldr app]. fold (load w l1). split; [done|lia]. }
  exists l1, x, l2. split_and!; [done| |lia|lia]. intros ->. cbn in *. apply Forall_cons in HF as [Hx _]. lia.
Qed.

Definition leaf_weight (e : LeafEntry) : Z := Format.SLOT_SIZE + FormatLaws.leaf_record_size e.
Definition internal_weight (e : InternalEntry) : Z :=
  Format.SLOT_SIZE + Format.INTERNAL_RECORD_HEADER_SIZE + len (Format.separator e).

Lemma leaf_space_load es : FormatLaws.leaf_space es = Format.LEAF_HEADER_SIZE + load leaf_weight es.
Proof.
  induction es as [|e es IH]; [done|]. cbn [FormatLaws.leaf_space load foldr]. fold (FormatLaws.leaf_space es) (load leaf_weight es).
  rewrite IH. unfold leaf_weight. lia.
Qed.
Lemma internal_space_load es : FormatLaws.internal_space es = Format.INTERNAL_HEADER_SIZE + load internal_weight es.
Proof.
  induction es as [|e es IH]; [done|]. cbn [FormatLaws.internal_space load foldr].
  fold (FormatLaws.internal_space es) (load internal_weight es). rewrite IH. unfold internal_weight. lia.
Qed.

(** Half of the room of a page. *)
Definition HALF_PAGE : Z := 2016.

(** The keys of a list of entries are short, or one of them is not. *)
Lemma short_or_long {A} (f : A → bytes) n (l : list A) :
  Forall (λ x, len (f x) ≤ n) l ∨ ∃ x, x ∈ l ∧ n < len (f x).
Proof.
  induction l as [|x l [IH|(y & Hy & Hl)]]; [by left| |right; exists y; split; [by right|done]].
  destruct (Z.le_gt_cases (len (f x)) n); [left; by constructor|right; exists x; split; [left|lia]].
Qed.

Lemma sorted_ordered l : StronglySorted bytes_lt l → Format.strictly_ordered l = true.
Proof.
  induction l as [|a [|b l] IH]; [done..|]. intros [Ha Hs]%StronglySorted_cons. cbn [Format.strictly_ordered].
  apply Forall_cons in Ha as [Hab _]. apply andb_true_iff. split; [by apply bytes_ltb_spec|by apply IH].
Qed.


(** ** Leaves *)

(** Entries that can be encoded, none of which takes more than half a page. *)
Definition roomy_entry (e : LeafEntry) : Prop := is_ok (Key.decode (Format.key e)) = true ∧ leaf_weight e ≤ HALF_PAGE.

Lemma strictly_ordered_app l l' :
  Format.strictly_ordered (l ++ l') = true → Format.strictly_ordered l = true ∧ Format.strictly_ordered l' = true.
Proof.
  induction l as [|a [|b l] IH]; [done| |].
  - cbn [app]. destruct l' as [|b l']; [done|]. cbn [Format.strictly_ordered]. by intros [_ ?]%andb_true_iff.
  - cbn [app Format.strictly_ordered]. intros [-> H]%andb_true_iff. apply IH in H as [? ?]. done.
Qed.

Lemma roomy_leaf_fits es :
  Format.strictly_ordered (Format.key <$> es) = true → Forall roomy_entry es →
  Format.leaf_fits es = bool_decide (load leaf_weight es ≤ 2 * HALF_PAGE).
Proof.
  intros Hs Hr. rewrite FormatLaws.leaf_fits_iff; [|done|by eapply Forall_impl; [exact Hr|]; intros e [? _]].
  rewrite leaf_space_load. apply bool_decide_ext. unfold HALF_PAGE. change Format.BODY_SIZE with 4064.
  change Format.LEAF_HEADER_SIZE with 32. lia.
Qed.

Lemma split_candidate c n : 1 ≤ c < n → c ∈ split_candidates n.
Proof. intros Hc. unfold split_candidates. rewrite merge_sort_Permutation, elem_of_seqZ. lia. Qed.

Lemma list_find_found {A} (P : A → bool) l x : x ∈ l → P x = true → ∃ y, list_find P l = Some y.
Proof. intros Hx HP. destruct (list_find_elem_of P l x Hx) as [y Hy]; [by rewrite HP|]. by exists y. Qed.

(** A leaf that overflows by less than half a page can be split. *)
Lemma choose_leaf_split_room es :
  Format.strictly_ordered (Format.key <$> es) = true → Forall roomy_entry es → Format.leaf_fits es = false →
  load leaf_weight es ≤ 3 * HALF_PAGE → ∃ c, choose_leaf_split es = Ok c.
Proof.
  intros Hs Hr Hf Hl. rewrite roomy_leaf_fits in Hf by done. apply bool_decide_eq_false in Hf.
  destruct (load_cut leaf_weight (2 * HALF_PAGE) es) as (l1 & x & l2 & -> & Hne & H1 & H2); [done| |lia|].
  { eapply Forall_impl; [exact Hr|]. intros e [_ He]. unfold HALF_PAGE in *. lia. }
  rewrite fmap_app in Hs. apply strictly_ordered_app in Hs as [Hs1 Hs2]. apply Forall_app in Hr as [Hr1 Hr2].
  assert (Hx : leaf_weight x ≤ HALF_PAGE) by (apply Forall_cons in Hr2 as [[_ Hx] _]; done).
  unfold choose_leaf_split.
  destruct (list_find_found (λ c, Format.leaf_fits ((l1 ++ x :: l2).[0; c)) && Format.leaf_fits ((l1 ++ x :: l2).[c; len (l1 ++ x :: l2))))
    (split_candidates (len (l1 ++ x :: l2))) (len l1)) as [[i c] ->]; [|..|by exists c].
  - apply split_candidate. rewrite len_app, len_cons. destruct l1; [done|]. rewrite len_cons. pose_len_nonneg. lia.
  - rewrite slice_app_l, slice_full by (pose_len_nonneg; lia).
    rewrite slice_app_r, Z.sub_diag, slice_full by (rewrite ?len_app; pose_len_nonneg; lia).
    rewrite !roomy_leaf_fits by done. rewrite !bool_decide_true; [done| |done].
    rewrite load_app in Hl. unfold HALF_PAGE in *. lia.
Qed.

(** ** Internal pages *)

Definition roomy_separator (e : InternalEntry) : Prop :=
  is_ok (Key.decode (Format.separator e)) = true ∧ 2 ≤ Format.right_child e ∧ internal_weight e ≤ HALF_PAGE.

Lemma separator_records es :
  Forall roomy_separator es → ∃ recs, Forall2 (λ e r, Format.encode_internal_record e = Ok r) es recs ∧
    len (concat recs) + 8 * len es = load internal_weight es.
Proof.
  induction 1 as [|e es (Hk & Hc & Hw) Hes (recs & HF & Hl)]; [by exists []|].
  assert (is_ok (Format.encode_internal_record e) = true) as Hok.
  { unfold internal_weight, Format.SLOT_SIZE, Format.INTERNAL_RECORD_HEADER_SIZE, HALF_PAGE in Hw. pose proof (len_nonneg (Format.separator e)).
    unfold Format.encode_internal_record. rewrite (proj2 (Z.ltb_ge U16_MAX _)), (proj2 (Z.ltb_ge _ 2)) by ulia. rsimpl.
    destruct (Key.decode (Format.separator e)); [|done..]. rsimpl.
    unfold Format.INTERNAL_RECORD_HEADER_SIZE. by rewrite checked_add_ok by ulia. }
  destruct (Format.encode_internal_record e) as [r| |] eqn:E; [|done..]. exists (r :: recs). split; [by constructor|].
  apply FormatLaws.encode_internal_record_Ok in E as (_ & _ & _ & F). cbn [concat load foldr]. fold (load internal_weight es).
  rewrite len_app, len_cons, (FormatLaws.ir_len _ _ F). unfold internal_weight at 1, Format.SLOT_SIZE. lia.
Qed.

Lemma load_nonneg es : 0 ≤ load internal_weight es ∧ 20 * len es ≤ load internal_weight es.
Proof.
  induction es as [|e es IH]; [done|]. cbn [load foldr]. fold (load internal_weight es). rewrite len_cons.
  assert (20 ≤ internal_weight e); [|lia]. unfold internal_weight, Format.SLOT_SIZE, Format.INTERNAL_RECORD_HEADER_SIZE.
  pose_len_nonneg. lia.
Qed.

Lemma roomy_internal_fits lm es :
  2 ≤ lm → Format.strictly_ordered (Format.separator <$> es) = true → Forall roomy_separator es →
  load internal_weight es ≤ 2 * HALF_PAGE → Format.internal_fits lm es = true.
Proof.
  intros Hlm Hsort Hr Hl. destruct (separator_records es Hr) as (recs & HF & Hlen). destruct (load_nonneg es) as [_ Hge].
  unfold HALF_PAGE in Hl. pose proof (len_nonneg es). pose proof (len_nonneg (concat recs)).
  unfold Format.internal_fits, Format.encode_internal, Format.slot_array_size, Format.INTERNAL_HEADER_SIZE, Format.SLOT_SIZE, checked_mul.
  rewrite (proj2 (Z.ltb_ge lm 2)) by lia. rsimpl.
  destruct (Z.leb_spec (len es * 8) U64_MAX); [|ulia]. rsimpl. rewrite checked_add_ok by ulia. rsimpl.
  destruct (Z.ltb_spec U16_MAX (len es)); [ulia|]. change Format.BODY_SIZE with 4064.
  destruct (Z.ltb_spec 4064 (32 + len es * 8)); [lia|]. rsimpl. unfold Format.ensure_sorted_internal. rewrite Hsort. rsimpl.
  match goal with |- context [Format.place_records ?a ?b ?c ?d ?e ?f ?g ?h] =>
    pose proof (FormatLaws.place_records_fits a b c d e f g h recs) as Hp;
    destruct (Format.place_records a b c d e f g h) as [[[]]| |] end; [done|..];
    (rewrite reverse_involutive in Hp; exfalso; by discriminate Hp; [done|lia..]).
Qed.

Lemma internal_fits_load lm es : Format.internal_fits lm es = true → load internal_weight es ≤ 2 * HALF_PAGE.
Proof.
  unfold Format.internal_fits. destruct (Format.encode_internal lm es) as [b| |] eqn:E; [|done..]. intros _.
  apply FormatLaws.encode_internal_Ok in E as (_ & _ & recs & HF & S). pose proof (FormatLaws.sl_room _ _ _ _ _ S) as Hroom.
  assert (load internal_weight es = 8 * len es + len (concat recs)) as ->.
  { clear -HF. induction HF as [|e r es recs He HF IH]; [done|]. cbn [concat load foldr]. fold (load internal_weight es).
    apply FormatLaws.encode_internal_record_Ok in He as (_ & _ & _ & F). rewrite len_app, len_cons, (FormatLaws.ir_len _ _ F), IH.
    unfold internal_weight, Format.SLOT_SIZE. lia. }
  unfold HALF_PAGE. change Format.BODY_SIZE with 4064 in Hroom. lia.
Qed.

(** A page of separators that overflows by at most half a page can be split. *)
Lemma choose_internal_split_room lm es :
  2 ≤ lm → Format.strictly_ordered (Format.separator <$> es) = true → Forall roomy_separator es →
  Format.internal_fits lm es = false → load internal_weight es ≤ 3 * HALF_PAGE → ∃ c, choose_internal_split lm es = Ok c.
Proof.
  intros Hlm Hs Hr Hf Hl.
  assert (2 * HALF_PAGE < load internal_weight es) as Hover.
  { destruct (Z.lt_ge_cases (2 * HALF_PAGE) (load internal_weight es)); [done|].
    exfalso. pose proof (roomy_internal_fits lm es Hlm Hs Hr ltac:(lia)). congruence. }
  destruct (load_cut internal_weight (2 * HALF_PAGE) es) as (l1 & x & l2 & -> & Hne & H1 & H2); [done| |done|].
  { eapply Forall_impl; [exact Hr|]. intros e (_ & _ & He). unfold HALF_PAGE in *. lia. }
  assert (3 ≤ len (l1 ++ x :: l2)) as Hlen.
  { rewrite len_app, len_cons. apply Forall_app in Hr as [Hr1 [(_ & _ & Hx) _]%Forall_cons]. destruct l1 as [|y [|z l1]]; [done| |].
    - exfalso. apply Forall_cons in Hr1 as [(_ & _ & Hy) _]. cbn in H2. unfold HALF_PAGE in *. lia.
    - rewrite !len_cons. pose_len_nonneg. lia. }
  rewrite fmap_app, fmap_cons in Hs. apply strictly_ordered_app in Hs as [Hs1 Hs2].
  rewrite <-(app_nil_l (_ :: _)) in Hs2. change ([] ++ ?x :: ?l) with ([x] ++ l) in Hs2. apply strictly_ordered_app in Hs2 as [_ Hs2].
  apply Forall_app in Hr as [Hr1 [(_ & Hx & _) Hr2]%Forall_cons]. rewrite load_app in Hl. cbn [load foldr] in Hl. fold (load internal_weight l2) in Hl.
  unfold choose_internal_split, fail_if. destruct (Z.ltb_spec (len (l1 ++ x :: l2)) 3); [lia|]. cbn [mbind Result_bind].
  destruct (list_find_found (internal_split_fits lm (l1 ++ x :: l2)) (split_candidates (len (l1 ++ x :: l2))) (len l1))
    as [[i c] ->]; [|..|by exists c].
  - apply split_candidate. rewrite len_app, len_cons. destruct l1; [done|]. rewrite len_cons. pose_len_nonneg. lia.
  - unfold internal_split_fits. unfold len at 1. rewrite Nat2Z.id, list_lookup_middle by done.
    rewrite slice_app_l, slice_full by (pose_len_nonneg; lia).
    rewrite cons_middle, app_assoc, slice_app_r by (rewrite ?len_app; change (len [x]) with 1; pose_len_nonneg; lia).
    rewrite len_app, Z.sub_diag, slice_full by (rewrite ?len_app; change (len [x]) with 1; lia).
    rewrite !roomy_internal_fits; try done. unfold HALF_PAGE in *. lia.
Qed.
End SplitRoom.
