(* ===== verification/TreeInsert.v ===== *)
(** * Inserting into the tree

    [insert_leaf_entries] and [insert_parent_separator]: rewriting a leaf, splitting
    it when it does not fit, and carrying the separator up to the root, all keep
    the tree invariant; the only errors are a page space that is exhausted and
    entries that no split fits. *)

From S2P Require Import Prelude Wp Key Core Superblock Format FormatLaws Overlay Tree TreeSearch SplitRoom.

Module TreeInsert.
Import Core Overlay Tree TreeSearch SplitRoom.

(** ** Choosing a split *)

Lemma split_candidates_range n c : c ∈ split_candidates n → 1 ≤ c < n.
Proof. unfold split_candidates. rewrite merge_sort_Permutation, elem_of_seqZ. lia. Qed.

Lemma choose_leaf_split_spec es :
  match choose_leaf_split es with
  | Ok c => 1 ≤ c < len es ∧ Format.leaf_fits (es.[0; c)) = true ∧ Format.leaf_fits (es.[c; len es)) = true
  | Err e => rejected e
  | Stuck _ => False
  end.
Proof.
  unfold choose_leaf_split. destruct (list_find _ _) as [[i c]|] eqn:E; [|by eexists].
  apply list_find_Some in E as (Hc & [? ?]%Is_true_true%andb_true_iff & _).
  split_and!; try done; apply (split_candidates_range (len es) c); by eapply list_elem_of_lookup_2.
Qed.

(** Cutting a list at an index. *)
Lemma slice_cut {A} (l : list A) c : 0 ≤ c ≤ len l → l.[0; c) ++ l.[c; len l) = l.
Proof. intros. rewrite <-slice_split by lia. by apply slice_full. Qed.

Lemma slice_cut_at {A} (l : list A) c x :
  0 ≤ c → l !! Z.to_nat c = Some x → l.[0; c) ++ x :: l.[c + 1; len l) = l.
Proof.
  intros Hc Hx. assert (c < len l) by (apply lookup_lt_Some in Hx; unfold len; lia).
  trans (l.[0; c) ++ l.[c; len l)); [f_equal|apply slice_cut; lia].
  rewrite (slice_split l c (c + 1)) by lia.
  destruct (index_in_range (E:=unit) l c) as (y & Hy & ->); [lia|].
  unfold index in Hy. rewrite (proj2 (Z.leb_le 0 c)), Hx in Hy by done. by injection Hy as <-.
Qed.

Lemma index_lookup {E A} (l : list A) c x : 0 ≤ c → l !! Z.to_nat c = Some x → index (E:=E) l c = Ok x.
Proof. intros Hc Hx. unfold index. rewrite (proj2 (Z.leb_le 0 c)) by done. by rewrite Hx. Qed.

(** ** Leaf entries *)

Lemma find_entry_cons e es k :
  find_entry (e :: es) k = if decide (Format.key e = k) then Some e else find_entry es k.
Proof.
  unfold find_entry. simpl. case_decide; [done|]. by destruct (list_find _ es) as [[]|].
Qed.

Lemma find_entry_app l l' k :
  find_entry (l ++ l') k = match find_entry l k with Some e => Some e | None => find_entry l' k end.
Proof.
  induction l as [|e l IH]; [done|]. rewrite <-app_comm_cons, !find_entry_cons, IH. by case_decide.
Qed.

Lemma find_entry_Some es k e : find_entry es k = Some e → e ∈ es ∧ Format.key e = k.
Proof.
  induction es as [|e' es IH]; [done|]. rewrite find_entry_cons. case_decide.
  - intros [= ->]. split; [left|done].
  - intros [? ?]%IH. split; [by right|done].
Qed.

Lemma find_entry_None es k : k ∉ keys es → find_entry es k = None.
Proof.
  intros Hk. destruct (find_entry es k) as [e|] eqn:E; [|done].
  apply find_entry_Some in E as [He <-]. destruct Hk. by apply list_elem_of_fmap_2.
Qed.

Lemma keys_bounds_lt es k : Forall (λ x, bytes_lt k x) (keys es) → find_entry es k = None.
Proof. intros HF. apply find_entry_None. intros Hk. rewrite Forall_forall in HF. by apply (lt_irrefl k), HF. Qed.

Lemma find_entry_elem es e :
  StronglySorted bytes_lt (keys es) → e ∈ es → find_entry es (Format.key e) = Some e.
Proof.
  induction es as [|x es IH]; [by intros _ ?%not_elem_of_nil|]. rewrite fmap_cons, StronglySorted_cons.
  intros [Hx Hs] [->|He]%elem_of_cons; rewrite find_entry_cons; [by rewrite decide_True|].
  rewrite decide_False; [by apply IH|]. intros E. rewrite Forall_forall in Hx.
  apply (lt_irrefl (Format.key e)). rewrite <-E at 1. by apply Hx, list_elem_of_fmap_2.
Qed.

Lemma leaf_entry_in V G db lo hi next es e :
  leaf_ok V G db lo hi next es → e ∈ es →
  ∃ ov, db !! Format.key e = Some (Format.revision e, ov) ∧ value_at V G (Some (Format.key e)) (Format.value e) ov.
Proof.
  intros [L1 L2 L3 L4] He. rewrite Forall_forall in L2.
  destruct (L2 (Format.key e)) as [Hb _]; [by apply list_elem_of_fmap_2|]. specialize (L4 _ Hb).
  rewrite find_entry_elem in L4 by done. simpl in L4. destruct (db !! Format.key e) as [[r ov]|]; [|done].
  destruct L4 as [-> ?]. eauto.
Qed.

Lemma leaf_ok_frame V V' G G' db lo hi next es :
  (∀ n b hi', next = Some n → G !! n = Some (RTree 0 b hi') → ∃ hi'', G' !! n = Some (RTree 0 b hi'')) →
  (∀ i k, G !! i = Some (RValue (Some k)) → G' !! i = Some (RValue (Some k)) ∧ V' i = V i) →
  leaf_ok V G db lo hi next es → leaf_ok V' G' db lo hi next es.
Proof.
  intros Hn Hv [L1 L2 L3 L4]. split; try done.
  - destruct next as [n|]; [|done]. destruct L3 as (b & hi' & -> & Hl). destruct (Hn _ _ _ eq_refl Hl). eauto.
  - intros k Hk. eapply denotes_frame; [|by apply L4]. auto.
Qed.

Lemma leaf_ok_split V G db lo hi next l e l' r :
  leaf_ok V G db lo hi next (l ++ e :: l') → l ≠ [] →
  bytes_lt lo (Format.key e) ∧ below hi (Format.key e) ∧
  ((∃ hi', G !! r = Some (RTree 0 (Format.key e) hi')) →
     leaf_ok V G db lo (Some (Format.key e)) (Some r) l ∧ leaf_ok V G db (Format.key e) hi next (e :: l')).
Proof.
  intros [L1 L2 L3 L4] Hl. rewrite fmap_app, fmap_cons in L1, L2.
  pose proof L1 as L1'. rewrite StronglySorted_app in L1'. destruct L1' as (Hlt & Hs1 & Hs2).
  rewrite Forall_app, Forall_cons in L2. destruct L2 as (HF1 & [He Hc] & HF2).
  assert (Hle : ∀ k, k ∈ keys l → bytes_lt k (Format.key e)).
  { intros k Hk. apply Hlt; [done|left]. }
  pose proof Hs2 as [Hgt Hs2']%StronglySorted_cons. rewrite Forall_forall in HF1, Hgt.
  split.
  { destruct l as [|x l]; [done|]. eapply le_lt_trans; [|apply Hle; left]. apply (HF1 (Format.key x)). left. }
  split; [apply He|]. intros Hr. split; split.
  - done.
  - apply Forall_forall. intros k Hk. split; [|by apply HF1]. split; [by apply HF1|by apply Hle].
  - destruct Hr as [hi' ?]. eauto.
  - intros k [Hk1 Hk2]. simpl in Hk2.
    assert (denotes V G k (find_entry (l ++ e :: l') k) (db !! k)) as HD.
    { apply L4. split; [done|]. eapply below_le; [|apply He]. intros ?. destruct (lt_irrefl k). by trans (Format.key e). }
    rewrite find_entry_app in HD. destruct (find_entry l k); [done|].
    rewrite keys_bounds_lt in HD; [done|]. rewrite fmap_cons, Forall_cons. split; [done|].
    apply Forall_forall. intros x ?%Hgt. by trans (Format.key e).
  - done.
  - rewrite fmap_cons, Forall_cons. split; [split; [|done]; split; [apply lt_irrefl|apply He]|].
    rewrite Forall_forall in HF2 |- *. intros k Hk. split; [|by apply HF2]. split; [|by apply HF2].
    apply Hgt in Hk. intros ?. destruct (lt_irrefl k). by trans (Format.key e).
  - done.
  - intros k [Hk1 Hk2].
    assert (denotes V G k (find_entry (l ++ e :: l') k) (db !! k)) as HD.
    { apply L4. split; [|done]. intros Hlt'. destruct Hk1. eapply lt_le_trans; [done|]. apply He. }
    rewrite find_entry_app, find_entry_None in HD; [done|]. intros ?%Hle. by destruct Hk1.
Qed.

(** ** Pages that fit *)

(** A key that can be a separator of a page with one entry. *)
Definition sep_ok (k : bytes) : Prop := is_ok (Key.decode k) = true ∧ len k ≤ 4012.

Lemma slotted_record_le {T} (key_of : T → bytes) (es : list T) (recs : list bytes) body0 b r :
  FormatLaws.slotted key_of es recs body0 b → 1 ≤ len es → r ∈ recs → len r ≤ 4024.
Proof.
  intros S Hes Hr. pose proof (FormatLaws.sl_room _ _ _ _ _ S) as Hroom.
  apply FormatLaws.concat_in_le in Hr. change Format.BODY_SIZE with 4064 in Hroom. lia.
Qed.

Lemma leaf_key_sep_ok next es e :
  is_ok (Format.encode_leaf next es) = true → e ∈ es → sep_ok (Format.key e).
Proof.
  intros Hok He. destruct (Format.encode_leaf next es) as [b| |] eqn:E; [|done..].
  apply FormatLaws.encode_leaf_Ok in E as (_ & recs & HF & S).
  apply list_elem_of_lookup in He as [i Hi]. eapply Forall2_lookup_l in HF as (r & Hr & Hrec); [|done].
  apply FormatLaws.encode_leaf_record_Ok in Hrec as (_ & Hk & F). split; [done|].
  apply list_elem_of_lookup_2 in Hr. apply lookup_lt_Some in Hi.
  eapply slotted_record_le in Hr; [|done|unfold len; lia].
  rewrite (FormatLaws.lr_len _ _ F) in Hr. unfold FormatLaws.leaf_record_size, Format.LEAF_RECORD_HEADER_SIZE in Hr.
  pose proof (len_nonneg (FormatLaws.leaf_inline e)). lia.
Qed.

Lemma internal_entry_ok lm es e :
  is_ok (Format.encode_internal lm es) = true → e ∈ es → sep_ok (Format.separator e).
Proof.
  intros Hok He. destruct (Format.encode_internal lm es) as [b| |] eqn:E; [|done..].
  apply FormatLaws.encode_internal_Ok in E as (_ & _ & recs & HF & S).
  apply list_elem_of_lookup in He as [i Hi]. eapply Forall2_lookup_l in HF as (r & Hr & Hrec); [|done].
  apply FormatLaws.encode_internal_record_Ok in Hrec as (_ & _ & Hk & F). split; [done|].
  apply list_elem_of_lookup_2 in Hr. apply lookup_lt_Some in Hi.
  eapply slotted_record_le in Hr; [|done|unfold len; lia].
  rewrite (FormatLaws.ir_len _ _ F) in Hr. unfold Format.INTERNAL_RECORD_HEADER_SIZE in Hr. lia.
Qed.

Lemma encode_internal_record_is_ok e :
  sep_ok (Format.separator e) → 2 ≤ Format.right_child e → is_ok (Format.encode_internal_record e) = true.
Proof.
  intros [Hk Hl] Hc. unfold Format.encode_internal_record. pose proof (len_nonneg (Format.separator e)).
  rewrite (proj2 (Z.ltb_ge U16_MAX _)), (proj2 (Z.ltb_ge _ 2)) by ulia. rsimpl.
  destruct (Key.decode (Format.separator e)); [|done..]. rsimpl.
  unfold Format.INTERNAL_RECORD_HEADER_SIZE. by rewrite checked_add_ok by ulia.
Qed.

(** A page with one separator always fits. *)
Lemma single_entry_fits lm e :
  2 ≤ lm → 2 ≤ Format.right_child e → sep_ok (Format.separator e) →
  is_ok (Format.encode_internal lm [e]) = true.
Proof.
  intros Hlm Hc Hs. pose proof (encode_internal_record_is_ok e Hs Hc) as Hrec.
  destruct (Format.encode_internal_record e) as [rec| |] eqn:E; [|done..].
  unfold Format.encode_internal. rewrite (proj2 (Z.ltb_ge lm 2)) by lia. rsimpl.
  change (Format.slot_array_size _ _ _) with (@Ok Error Z 40). rsimpl.
  change ((U16_MAX <? len [e]) || (Format.BODY_SIZE <? 40)) with false. rsimpl.
  change (Format.ensure_sorted_internal [e]) with (@Ok Error unit tt). rsimpl.
  match goal with |- context [Format.place_records ?a ?b ?c ?d ?e ?f ?g ?h] =>
    pose proof (FormatLaws.place_records_fits a b c d e f g h [rec]) as Hp;
    destruct (Format.place_records a b c d e f g h) as [[[]]| |] end; [done|..];
    (exfalso; apply FormatLaws.encode_internal_record_Ok in E as HE; destruct HE as (_ & _ & _ & F);
     discriminate Hp; [by constructor|simpl; rewrite app_nil_r, (FormatLaws.ir_len _ _ F);
     change Format.BODY_SIZE with 4064; unfold Format.INTERNAL_RECORD_HEADER_SIZE; destruct Hs; lia|lia]).
Qed.

Lemma place_records_status {T} (enc : T → result bytes) key_of message sb rev b1 b2 upper slots :
  is_ok (Format.place_records enc key_of message sb rev b1 upper slots) =
  is_ok (Format.place_records enc key_of message sb rev b2 upper slots).
Proof.
  revert b1 b2 upper slots. induction rev as [|e rev IH]; intros b1 b2 upper slots; [done|]. simpl.
  destruct (enc e); [|done..]. simpl. destruct (ok_or _ _); [|done..]. simpl.
  destruct (fail_if _ _); [|done..]. simpl. apply IH.
Qed.

(** Whether a leaf fits does not depend on its right sibling. *)
Lemma leaf_fits_next next es : Format.leaf_fits es = is_ok (Format.encode_leaf next es).
Proof.
  unfold Format.leaf_fits, Format.encode_leaf.
  destruct (Format.slot_array_size _ _ _); [|done..]. rsimpl.
  destruct (fail_if _ _); [|done..]. rsimpl. destruct (Format.ensure_sorted_leaf es); [|done..]. rsimpl.
  match goal with |- is_ok (mbind _ (Format.place_records ?a ?b ?c ?d ?e ?f ?g ?h)) =
                     is_ok (mbind _ (Format.place_records _ _ _ _ _ ?f' _ _)) =>
    pose proof (place_records_status a b c d e f f' g h) as Hp;
    destruct (Format.place_records a b c d e f g h) as [[[]]| |],
      (Format.place_records a b c d e f' g h) as [[[]]| |] end; done.
Qed.

(** Entries that an internal page can hold. *)
Definition entries_ok (es : list InternalEntry) : Prop :=
  Forall (λ e, u64 (Format.right_child e) ∧ sep_ok (Format.separator e)) es.

Lemma strictly_ordered_prefix l l' :
  Format.strictly_ordered (l ++ l') = true → Format.strictly_ordered l = true.
Proof.
  induction l as [|a [|b l] IH]; [done..|]. cbn [app Format.strictly_ordered].
  intros [-> ?]%andb_true_iff. by apply IH.
Qed.

(** A page from which the last separator is dropped still fits. *)
Lemma internal_fits_prefix lm es x :
  Format.internal_fits lm (es ++ [x]) = true → Format.internal_fits lm es = true.
Proof.
  unfold Format.internal_fits. destruct (Format.encode_internal lm (es ++ [x])) as [b| |] eqn:E; [|done..]. intros _.
  apply FormatLaws.encode_internal_Ok in E as (Hlm & Hsort & recs' & HF & S).
  apply Forall2_app_inv_l in HF as (recs & last & HF & _ & ->).
  pose proof (FormatLaws.sl_room _ _ _ _ _ S) as Hroom. change Format.BODY_SIZE with 4064 in Hroom.
  rewrite concat_app, !len_app in Hroom. change (len [x]) with 1 in Hroom.
  pose proof (len_nonneg es). pose proof (len_nonneg (concat recs)). pose proof (len_nonneg (concat last)).
  unfold Format.encode_internal, Format.slot_array_size, Format.INTERNAL_HEADER_SIZE, Format.SLOT_SIZE, checked_mul.
  rewrite (proj2 (Z.ltb_ge lm 2)) by lia. rsimpl.
  destruct (Z.leb_spec (len es * 8) U64_MAX); [|ulia]. rsimpl. rewrite checked_add_ok by ulia. rsimpl.
  destruct (Z.ltb_spec U16_MAX (len es)); [ulia|]. change Format.BODY_SIZE with 4064.
  destruct (Z.ltb_spec 4064 (32 + len es * 8)); [lia|]. rsimpl. unfold Format.ensure_sorted_internal.
  rewrite fmap_app in Hsort. rewrite (strictly_ordered_prefix _ _ Hsort). rsimpl.
  match goal with |- context [Format.place_records ?a ?b ?c ?d ?e ?f ?g ?h] =>
    pose proof (FormatLaws.place_records_fits a b c d e f g h recs) as Hp;
    destruct (Format.place_records a b c d e f g h) as [[[]]| |] end; [done|..];
    (rewrite reverse_involutive in Hp; exfalso; by discriminate Hp; [done|lia..]).
Qed.

Lemma internal_fits_leftmost lm es : Format.internal_fits lm es = true → 2 ≤ lm.
Proof.
  unfold Format.internal_fits. destruct (Format.encode_internal lm es) eqn:E; [|done..]. intros _.
  by apply FormatLaws.encode_internal_Ok in E as [? _].
Qed.

Lemma internal_fits_child lm es e : Format.internal_fits lm es = true → e ∈ es → 2 ≤ Format.right_child e.
Proof.
  unfold Format.internal_fits. destruct (Format.encode_internal lm es) eqn:E; [|done..]. intros _ He.
  apply FormatLaws.encode_internal_Ok in E as (_ & _ & recs & HF & _).
  apply list_elem_of_lookup in He as [i Hi]. eapply Forall2_lookup_l in HF as (r & Hr & Hrec); [|done].
  by apply FormatLaws.encode_internal_record_Ok in Hrec as (? & ? & _).
Qed.

Lemma slice_one {A} (l : list A) a b x : 0 ≤ a → l !! Z.to_nat a = Some x → b = a + 1 → l.[a; b) = [x].
Proof.
  intros Ha Hx ->. pose proof (lookup_lt_Some _ _ _ Hx). destruct (index_in_range (E:=unit) l a) as (y & Hy & ->); [unfold len; lia|].
  rewrite (index_lookup _ _ _ Ha Hx) in Hy. by injection Hy as ->.
Qed.

#[local] Instance closer_trans middle : Transitive (closer middle).
Proof. intros a b c. unfold closer. lia. Qed.
#[local] Instance closer_total middle : Total (closer middle).
Proof. intros a b. unfold closer. lia. Qed.

(** The candidate next to the last one is tried before it. *)
Lemma split_candidates_last n i :
  3 ≤ n → split_candidates n !! i = Some (n - 1) → ∃ j, split_candidates n !! j = Some (n - 2) ∧ (j < i)%nat.
Proof.
  intros Hn Hi. assert (n - 2 ∈ split_candidates n) as [j Hj]%list_elem_of_lookup.
  { unfold split_candidates. rewrite merge_sort_Permutation, elem_of_seqZ. lia. }
  exists j. split; [done|]. destruct (decide (j < i)%nat) as [|Hge]; [done|exfalso].
  destruct (decide (i = j)) as [->|]; [rewrite Hi in Hj; simplify_eq; lia|].
  pose proof (StronglySorted_merge_sort (closer (n / 2)) (seqZ 1 (n - 1))) as HS.
  unfold split_candidates in Hi, Hj. rewrite <-(take_drop_middle _ _ _ Hi), StronglySorted_app in HS.
  destruct HS as (_ & _ & [HF _]%StronglySorted_cons). rewrite Forall_forall in HF.
  assert (closer (n / 2) (n - 1) (n - 2)) as HS.
  { apply HF, (list_elem_of_lookup_2 _ (j - S i)). rewrite lookup_drop. by replace (S i + (j - S i))%nat with j by lia. }
  unfold closer in HS.
  pose proof (Z.div_mod n 2). pose proof (Z.mod_pos_bound n 2). lia.
Qed.

(** Both halves of a split of separators keep at least one of them. *)
Lemma choose_internal_split_spec lm es :
  entries_ok es →
  match choose_internal_split lm es with
  | Ok c => ∃ m, 1 ≤ c ∧ c + 1 < len es ∧ es !! Z.to_nat c = Some m ∧
      Format.internal_fits lm (es.[0; c)) = true ∧
      Format.internal_fits (Format.right_child m) (es.[c + 1; len es)) = true
  | Err e => rejected e
  | Stuck _ => False
  end.
Proof.
  intros Hes. unfold choose_internal_split, fail_if. destruct (Z.ltb_spec (len es) 3) as [|H3]; [by eexists|]. simpl.
  destruct (list_find _ _) as [[i c]|] eqn:E; [|by eexists].
  apply list_find_Some in E as (Hc & Hf%Is_true_true & Hfirst). unfold internal_split_fits in Hf.
  destruct (es !! Z.to_nat c) as [m|] eqn:Hm; [|done]. apply andb_true_iff in Hf as [F1 F2].
  pose proof (split_candidates_range (len es) c ltac:(by eapply list_elem_of_lookup_2)) as Hr.
  exists m. split_and!; try done; [lia|]. destruct (decide (c = len es - 1)) as [->|]; [exfalso|lia].
  destruct (split_candidates_last _ _ H3 Hc) as (j & Hj & Hlt). apply (Hfirst _ _ Hj Hlt). apply Is_true_true.
  unfold internal_split_fits. destruct (lookup_lt_is_Some_2 es (Z.to_nat (len es - 2))) as [e He]; [unfold len in *; lia|].
  assert (Hin : ∀ i x, es !! i = Some x → sep_ok (Format.separator x)).
  { intros i' x Hx. unfold entries_ok in Hes. rewrite Forall_forall in Hes. by eapply Hes, list_elem_of_lookup_2. }
  assert (E1 : es.[0; len es - 1) = es.[0; len es - 2) ++ [e]).
  { rewrite (slice_split es 0 (len es - 2)) by lia. f_equal. by apply slice_one; [lia| |lia]. }
  assert (E2 : es.[len es - 2 + 1; len es) = [m]) by (apply slice_one; [lia| |lia]; rewrite <-Hm; f_equal; lia).
  rewrite E1 in F1. rewrite He, E2, (internal_fits_prefix _ _ _ F1). apply single_entry_fits.
  - eapply internal_fits_child; [exact F1|]. apply elem_of_app. right. by left.
  - by eapply internal_fits_leftmost.
  - by eapply Hin.
Qed.

Lemma storable_internal_inv lsn lm es :
  storable (Format.Internal lsn lm es) → u64 lm ∧ entries_ok es.
Proof.
  intros (Hok & (_ & Hlm & Hes) & _). split; [done|]. apply Forall_forall. intros e He.
  rewrite Forall_forall in Hes. split; [by apply Hes|by eapply internal_entry_ok].
Qed.

Lemma storable_internal lsn lm es :
  u64 lsn → u64 lm → entries_ok es → es ≠ [] → Format.internal_fits lm es = true → storable (Format.Internal lsn lm es).
Proof. intros H1 H2 H3 H5 H4. split_and!; [done| |done]. split_and!; [done..|]. eapply Forall_impl; [done|]. by intros e [? _]. Qed.

(** Entries that a leaf written at [lsn] can hold. *)
Definition leaf_entries_ok (lsn : Lsn) (es : list LeafEntry) : Prop :=
  Forall (λ e, FormatLaws.wf_leaf_entry e ∧ 0 < Format.revision e ≤ lsn ∧ small_inline (Format.value e)) es.

Lemma storable_leaf lsn next es :
  u64 lsn → Superblock.wf_ref next → leaf_entries_ok lsn es → Format.leaf_fits es = true →
  storable (Format.Leaf lsn next es).
Proof.
  intros H1 H2 H3 H4. apply Forall_and in H3 as [H3 H5].
  split_and!; [by rewrite (leaf_fits_next next) in H4|done|done].
Qed.

Lemma Forall_vec_insert {A} (P : A → Prop) i x l : Forall P l → P x → Forall P (vec_insert i x l).
Proof. intros HF Hx. unfold vec_insert. apply Forall_app. split; [by apply Forall_take|]. constructor; [done|by apply Forall_drop]. Qed.

Lemma vec_insert_nonempty {A} i (x : A) l : vec_insert i x l ≠ [].
Proof. unfold vec_insert. by destruct (take _ l). Qed.

Lemma slice_nonempty {A} (l : list A) a b : 0 ≤ a → a < b → b ≤ len l → l.[a; b) ≠ [].
Proof. intros ??? E. assert (len (l.[a; b)) = 0) by (by rewrite E). rewrite len_slice in *; lia. Qed.

Section insert.
Context {B : Type} {CB : CommittedStore B} {SP : CommittedStoreSpec B}.
Implicit Types (o : Overlay B) (G Gc : labels).

(** ** Labels that a split does not disturb *)

Lemma split_of_delete Gc G c r h lo sep hi id :
  split_of Gc G c r h lo sep hi → id ≠ c → id ≠ r →
  split_of (base.delete id Gc) (base.delete id G) c r h lo sep hi.
Proof.
  intros [S1 S2 S3 S4 S5] Hc Hr. split; try done.
  - by rewrite lookup_delete_ne.
  - by rewrite lookup_delete_ne.
  - subst G. by rewrite !delete_insert_ne.
Qed.

(** Values are labelled as before. *)
Definition same_values G G' : Prop :=
  ∀ id ow, G !! id = Some (RValue ow) ↔ G' !! id = Some (RValue ow).

#[global] Instance same_values_preorder : PreOrder same_values.
Proof. split; [by intros G id k|]. intros G1 G2 G3 H1 H2 id k. by rewrite (H1 id k), (H2 id k). Qed.

(** The pages of values are not written. *)
Definition keeps_values o G o' : Prop := ∀ id ow, G !! id = Some (RValue ow) → view o' id = view o id.

Lemma keeps_values_trans o1 o2 o3 G1 G2 :
  same_values G1 G2 → keeps_values o1 G1 o2 → keeps_values o2 G2 o3 → keeps_values o1 G1 o3.
Proof. intros HS H1 H2 id ow Hid. rewrite (H2 id ow) by (by apply HS). by eapply H1. Qed.

Lemma keeps_values_replaced o G id p :
  (∀ ow, G !! id ≠ Some (RValue ow)) → keeps_values o G (replaced o id p).
Proof. intros Hn i ow Hi. apply view_replaced_ne. intros ->. by eapply Hn. Qed.

Lemma keeps_values_view o G o' : (∀ i, view o' i = view o i) → keeps_values o G o'.
Proof. by intros Hv i ow _. Qed.

Lemma same_values_split Gc G c r h lo sep hi : split_of Gc G c r h lo sep hi → same_values Gc G.
Proof.
  intros S id k. destruct (decide (id = c)) as [->|].
  { by rewrite (so_old _ _ _ _ _ _ _ _ S), (split_left _ _ _ _ _ _ _ _ S). }
  destruct (decide (id = r)) as [->|].
  { by rewrite (so_fresh _ _ _ _ _ _ _ _ S), (split_right _ _ _ _ _ _ _ _ S). }
  by rewrite (split_other _ _ _ _ _ _ _ _ S).
Qed.

Lemma same_values_delete G id : available (G !! id) → same_values G (base.delete id G).
Proof.
  intros HL i k. rewrite lookup_delete_Some. split; [|naive_solver]. intros Hi. split; [|done].
  intros ->. rewrite Hi in HL. by destruct HL.
Qed.

(** Writing a set [D] of pages and labelling two of them as a split, when the
    parents go on believing in [Gc']. *)
Lemma inv_relabel o o' D G Gc G' Gc' H H' fl db :
  inv o D G Gc H fl db → serving (store o') →
  FIRST_DATA_PAGE ≤ high_water_page_id o' < U64_MAX →
  high_water_page_id o ≤ high_water_page_id o' → free_list_head o' = free_list_head o →
  dirty o' ⊆ dom (pages o') →
  (∀ id p, id ∈ dirty o' → view o' id = Some p → storable p ∧ FIRST_DATA_PAGE ≤ id ≤ high_water_page_id o') →
  Gc' !! root_page_id o' = Some (RTree H' [] None) →
  (∀ id h lo hi, Gc' !! id = Some (RTree h lo hi) → (h ≤ H')%nat) → labels_ok Gc' →
  same_values G G' →
  (∀ id, G !! id = Some RFree → G' !! id = Some RFree) →
  (∀ n b hi, G !! n = Some (RTree 0 b hi) → ∃ hi', G' !! n = Some (RTree 0 b hi')) →
  (∀ id, id ∉ D → loose (G' !! id) ∨ (∃ k, G' !! id = Some (RValue (Some k))) → view o' id = view o id) →
  (∀ id r, G' !! id = Some r → FIRST_DATA_PAGE ≤ id ≤ high_water_page_id o') →
  (∀ id h lo hi, G' !! id = Some (RTree h lo hi) →
     page_ok (view o') G' Gc' db id (RTree h lo hi) ∨
     view o' id = view o id ∧ G !! id = Some (RTree h lo hi) ∧ (id ∉ D) ∧
       (∀ h' lm es, h = S h' → children_ok Gc h' lo lm es hi → children_ok Gc' h' lo lm es hi)) →
  (∀ id, id ∈ D → ∃ h lo hi, G !! id = Some (RTree h lo hi)) → known_bounds G' db →
  inv o' ∅ G' Gc' H' fl db.
Proof.
  intros [I1 I2 I3 I4 I5 I6 I7 I8 I9 I10 I11 I12 I13] J1 J2 J3 J4 J5 J5' J6 J7 J8 Hval Hfree Hnext Hview Hrange Hpages HD Hkn.
  assert (Hold : ∀ i k, G !! i = Some (RValue (Some k)) → G' !! i = Some (RValue (Some k)) ∧ view o' i = view o i).
  { intros i k Hi. assert (G' !! i = Some (RValue (Some k))) as Hi' by (by apply Hval).
    split; [done|]. apply Hview; [|eauto]. intros (h & lo & hi & E)%HD. congruence. }
  split; try done.
  - intros id r Hid _. destruct r as [h lo hi| |]; [|done..].
    destruct (Hpages _ _ _ _ Hid) as [?|(Hv & Hid' & HnD & Hch)]; [done|].
    eapply page_ok_frame; [done|apply Hnext| | |by apply I7].
    + intros h' lo' hi' lm es [= -> -> ->]. eauto.
    + intros lo' hi' k _ _. split; [done|]. eauto.
  - rewrite J4. eapply free_chain_frame; [|done]. intros id Hid. apply I10 in Hid.
    apply Hview; [intros (h & lo & hi & E)%HD; congruence|left]. by rewrite (Hfree _ Hid).
  - auto.
Qed.

Lemma children_of_mono o G Gc H fl db c r h lo sep hi id h' a b lm es :
  inv o ∅ G Gc H fl db → split_of Gc G c r h lo sep hi →
  G !! id = Some (RTree (S h') a b) → h' ≠ h ∨ ¬ in_bounds a b sep →
  children_ok Gc h' a lm es b → children_ok G h' a lm es b.
Proof.
  intros Hi HS Hid Hd Hch. eapply (children_frame _ _ _ _ _ _ _ _ (inv_labels _ _ _ _ _ _ _ Hi) HS); [done|].
  eapply (children_not_split _ _ _ _ _ _ _ _ (inv_labels _ _ _ _ _ _ _ Hi) HS); [done|done].
Qed.

(** The old interval of a split page lies in the interval of its parent. *)
Lemma parent_contains Gc c h lo hi k a b lm es :
  labels_ok Gc → Gc !! c = Some (RTree h lo hi) → in_bounds lo hi k →
  in_bounds a b k → children_ok Gc h a lm es b →
  ∀ x, in_bounds lo hi x → in_bounds a b x.
Proof.
  intros HG Hc Hk Hk' Hch x Hx.
  assert (∃ c', c' ∈ children lm es ∧ ∃ a' b', Gc !! c' = Some (RTree h a' b') ∧ in_bounds a' b' k)
    as (c' & Hc' & a' & b' & Hl' & Hin').
  { clear Hx. revert a lm Hk' Hch. induction es as [|e es IH]; intros a lm Hk' Hch; simpl in Hch.
    - exists lm. split; [left|]. eauto.
    - destruct Hch as [Hl Hr]. destruct (decide (bytes_lt k (Format.separator e))) as [Hlt|Hge].
      + exists lm. split; [left|]. exists a, (Some (Format.separator e)). split; [done|]. split; [apply Hk'|done].
      + destruct (IH (Format.separator e) (Format.right_child e)) as (c' & Hc' & Hrest); [|done|].
        { split; [done|apply Hk']. }
        exists c'. split; [|done]. unfold children in *. set_solver. }
  destruct (label_unique _ _ _ _ _ _ _ _ _ HG Hc Hl' Hk Hin') as (<- & <- & <-).
  destruct (children_in _ _ _ _ _ _ _ HG Hch Hc') as (a2 & b2 & Hl2 & Hin2). rewrite Hc in Hl2.
  injection Hl2 as <- <-. by apply Hin2.
Qed.

(** Facts shared by the three ways [insert_parents] ends. *)
Lemma split_next Gc G c r h lo sep hi n b hi' :
  labels_ok Gc → split_of Gc G c r h lo sep hi → Gc !! n = Some (RTree 0 b hi') → ∃ hi'', G !! n = Some (RTree 0 b hi'').
Proof.
  intros HG HS Hn. destruct (decide (n = c)) as [->|].
  - rewrite (so_old _ _ _ _ _ _ _ _ HS) in Hn. injection Hn as -> -> ->.
    rewrite (split_left _ _ _ _ _ _ _ _ HS). eauto.
  - exists hi'. by eapply (split_keeps _ _ _ _ _ _ _ _ HS).
Qed.

Lemma split_free Gc G c r h lo sep hi id :
  split_of Gc G c r h lo sep hi → Gc !! id = Some RFree → G !! id = Some RFree.
Proof.
  intros HS Hid. eapply (split_keeps _ _ _ _ _ _ _ _ HS); [done|]. intros ->.
  by rewrite (so_old _ _ _ _ _ _ _ _ HS) in Hid.
Qed.

Lemma split_free_inv Gc G c r h lo sep hi id :
  split_of Gc G c r h lo sep hi → G !! id = Some RFree → Gc !! id = Some RFree.
Proof.
  intros HS Hid. assert (id ≠ c) by (intros ->; by rewrite (split_left _ _ _ _ _ _ _ _ HS) in Hid).
  assert (id ≠ r) by (intros ->; by rewrite (split_right _ _ _ _ _ _ _ _ HS) in Hid).
  by rewrite <-(split_other _ _ _ _ _ _ _ _ HS).
Qed.

Lemma split_none_inv Gc G c r h lo sep hi id :
  split_of Gc G c r h lo sep hi → G !! id = None → Gc !! id = None.
Proof.
  intros HS Hid. assert (id ≠ c) by (intros ->; by rewrite (split_left _ _ _ _ _ _ _ _ HS) in Hid).
  assert (id ≠ r) by (intros ->; by rewrite (split_right _ _ _ _ _ _ _ _ HS) in Hid).
  by rewrite <-(split_other _ _ _ _ _ _ _ _ HS).
Qed.

(** Allocating a page while a split is pending. *)
Lemma allocate_pending_spec o G Gc H fl db c r h lo sep hi :
  inv o ∅ G Gc H fl db → split_of Gc G c r h lo sep hi → high_water_page_id o + 1 < U64_MAX →
  wp allocate_page
    (λ id o', ∃ G' Gc' fl', inv o' ∅ G' Gc' H fl' db ∧ split_of Gc' G' c r h lo sep hi ∧
       same_values G G' ∧ G' !! id = None ∧ (∀ i x, G !! i = Some x → i = id ∨ G' !! i = Some x) ∧
       (∀ i h a b, Gc !! i = Some (RTree h a b) → Gc' !! i = Some (RTree h a b)) ∧
       (∀ i h a b, G !! i = Some (RTree h a b) → G' !! i = Some (RTree h a b)) ∧
       FIRST_DATA_PAGE ≤ id ≤ high_water_page_id o' ∧
       high_water_page_id o ≤ high_water_page_id o' ≤ high_water_page_id o + 1 ∧ root_page_id o' = root_page_id o ∧
       (∀ i, view o' i = view o i) ∧ same_meta o o') noerr o.
Proof.
  intros Hi HS Hroom.
  eapply wp_mono; [eapply allocate_page_spec; eauto using split_free_inv, split_none_inv| |by intros].
  intros id o' (fl' & Hi' & HL & HLc & Hr & Hhw & Hroot & Hv & Hm).
  assert (Hne : ∀ i h a b, G !! i = Some (RTree h a b) → i ≠ id).
  { intros i h' a b Hi2 ->. rewrite Hi2 in HL. by destruct HL. }
  assert (Hnec : ∀ i h a b, Gc !! i = Some (RTree h a b) → i ≠ id).
  { intros i h' a b Hi2 ->. rewrite Hi2 in HLc. by destruct HLc. }
  exists (base.delete id G), (base.delete id Gc), fl'. split_and!; try done; try apply Hr; try apply Hhw.
  - apply split_of_delete; [done| |].
    + intros ->. by apply (Hne _ _ _ _ (split_left _ _ _ _ _ _ _ _ HS)).
    + intros ->. by apply (Hne _ _ _ _ (split_right _ _ _ _ _ _ _ _ HS)).
  - by apply same_values_delete.
  - by rewrite lookup_delete_eq.
  - intros i x Hx. destruct (decide (i = id)); [by left|right]. by rewrite lookup_delete_ne.
  - intros i h' a b Hx. rewrite lookup_delete_ne; [done|]. apply not_eq_sym. by eapply Hnec.
  - intros i h' a b Hx. rewrite lookup_delete_ne; [done|]. apply not_eq_sym. by eapply Hne.
Qed.

Lemma split_height Gc G c r h lo sep hi H :
  split_of Gc G c r h lo sep hi → (∀ id h lo hi, Gc !! id = Some (RTree h lo hi) → (h ≤ H)%nat) →
  ∀ id h lo hi, G !! id = Some (RTree h lo hi) → (h ≤ H)%nat.
Proof.
  intros HS HH id h' a b Hid. pose proof (HH _ _ _ _ (so_old _ _ _ _ _ _ _ _ HS)) as Hh.
  destruct (decide (id = c)) as [->|].
  { rewrite (split_left _ _ _ _ _ _ _ _ HS) in Hid. congruence. }
  destruct (decide (id = r)) as [->|].
  { rewrite (split_right _ _ _ _ _ _ _ _ HS) in Hid. congruence. }
  rewrite (split_other _ _ _ _ _ _ _ _ HS) in Hid by done. eauto.
Qed.

Lemma known_bounds_split Gc G c r h lo sep hi db :
  split_of Gc G c r h lo sep hi → known_bounds Gc db → sep = [] ∨ is_Some (db !! sep) → known_bounds G db.
Proof.
  intros HS Hk Hsep id h' a b Hid. destruct (decide (id = c)) as [->|].
  { rewrite (split_left _ _ _ _ _ _ _ _ HS) in Hid. injection Hid as <- <- <-. eapply Hk, (so_old _ _ _ _ _ _ _ _ HS). }
  destruct (decide (id = r)) as [->|].
  { rewrite (split_right _ _ _ _ _ _ _ _ HS) in Hid. by injection Hid as <- <- <-. }
  rewrite (split_other _ _ _ _ _ _ _ _ HS) in Hid by done. eauto.
Qed.

(** The separators of an internal page are bounds of its children. *)
Lemma children_known G h lo lm es hi db :
  children_ok G h lo lm es hi → known_bounds G db → Forall (λ e, Format.separator e = [] ∨ is_Some (db !! Format.separator e)) es.
Proof.
  intros Hch Hk. revert lo lm Hch. induction es as [|e es IH]; intros lo lm Hch; [constructor|]. destruct Hch as [_ Hr].
  constructor; [|by eapply IH]. destruct es as [|e' es]; [by eapply Hk|]. destruct Hr as [Hr _]. by eapply Hk.
Qed.

(** The separators of an internal page are in order. *)
Lemma children_sorted G h lo lm es hi :
  labels_ok G → children_ok G h lo lm es hi → StronglySorted bytes_lt (lo :: (Format.separator <$> es)) ∨ es = [].
Proof.
  intros HG. revert lo lm. induction es as [|e es IH]; intros lo lm; [by right|]. intros [Hl Hr]. left.
  apply (lab_nonempty _ HG) in Hl. cbn in Hl. apply StronglySorted_cons. rewrite fmap_cons.
  destruct (IH _ _ Hr) as [Hs| ->]; [|repeat constructor; done]. split; [|done].
  apply StronglySorted_cons in Hs as [HF _]. constructor; [done|]. eapply Forall_impl; [exact HF|].
  intros x Hx. by trans (Format.separator e).
Qed.

(** Some key is long, or a page of separators that overflows by one of them can be split. *)
Lemma internal_split_or_crowded G h a lm es b db :
  labels_ok G → (∀ id r, G !! id = Some r → FIRST_DATA_PAGE ≤ id) → known_bounds G db → children_ok G h a lm es b →
  entries_ok es → Format.internal_fits lm es = false →
  (∃ e, e ∈ es ∧ load internal_weight es ≤ 2 * HALF_PAGE + internal_weight e) →
  (∃ c, choose_internal_split lm es = Ok c) ∨ crowded db.
Proof.
  intros HG Hrange Hkn Hch Hes Hf (e0 & He0 & Hl).
  destruct (short_or_long Format.separator SPLIT_KEY_LIMIT es) as [Hshort|(e & He & Hlong)]; last first.
  { right. pose proof (children_known _ _ _ _ _ _ _ Hch Hkn) as HF. rewrite Forall_forall in HF.
    destruct (HF _ He) as [E|Hs]; [|by exists (Format.separator e)]. rewrite E in Hlong. done. }
  left. rewrite Forall_forall in Hshort. unfold SPLIT_KEY_LIMIT in Hshort.
  assert (Hw : ∀ e, e ∈ es → internal_weight e ≤ HALF_PAGE).
  { intros e He. apply Hshort in He. unfold internal_weight, HALF_PAGE, Format.SLOT_SIZE, Format.INTERNAL_RECORD_HEADER_SIZE. lia. }
  assert (Hin : ∀ c, c ∈ children lm es → 2 ≤ c).
  { intros c Hc. destruct (children_in _ _ _ _ _ _ _ HG Hch Hc) as (x & y & Hxy & _). by apply Hrange in Hxy. }
  apply choose_internal_split_room; [apply Hin; left| |apply Forall_forall; intros e He|done|].
  - apply sorted_ordered. destruct (children_sorted _ _ _ _ _ _ HG Hch) as [Hs| ->]; [|constructor].
    by apply StronglySorted_cons in Hs as [_ ?].
  - unfold entries_ok in Hes. rewrite Forall_forall in Hes. split_and!; [apply (Hes _ He)| |by apply Hw].
    apply Hin. right. by apply list_elem_of_fmap_2.
  - pose proof (Hw _ He0). lia.
Qed.

Lemma load_vec_insert {A} (w : A → Z) i x l : load w (vec_insert i x l) = load w l + w x.
Proof.
  unfold vec_insert. rewrite load_app. cbn [load foldr]. fold (load w (drop i l)).
  rewrite <-(take_drop i l) at 3. rewrite load_app. lia.
Qed.

Lemma vec_insert_elem {A} i (x : A) l : x ∈ vec_insert i x l.
Proof. unfold vec_insert. apply elem_of_app. right. left. Qed.

(** The same for a leaf. *)
Lemma leaf_split_or_crowded V G db lo hi next es lsn :
  leaf_ok V G db lo hi next es → leaf_entries_ok lsn es → Format.leaf_fits es = false →
  (∃ e, e ∈ es ∧ load leaf_weight es ≤ 2 * HALF_PAGE + leaf_weight e) →
  (∃ c, choose_leaf_split es = Ok c) ∨ crowded db.
Proof.
  intros HL Hes Hf (e0 & He0 & Hl).
  destruct (short_or_long Format.key SPLIT_KEY_LIMIT es) as [Hshort|(e & He & Hlong)]; last first.
  { right. destruct (leaf_entry_in _ _ _ _ _ _ _ _ HL He) as (ov & Hdb & _). exists (Format.key e). by rewrite Hdb. }
  left. unfold leaf_entries_ok in Hes. rewrite Forall_forall in Hshort, Hes. unfold SPLIT_KEY_LIMIT in Hshort.
  assert (Hw : ∀ e, e ∈ es → leaf_weight e ≤ HALF_PAGE).
  { intros e He. apply Hes in He as Hwf. apply Hshort in He.
    assert (len (FormatLaws.leaf_inline e) ≤ 512).
    { unfold FormatLaws.leaf_inline. destruct Hwf as (_ & _ & Hsm). by destruct (Format.value e) as [[v|? ?]|]. }
    unfold leaf_weight, FormatLaws.leaf_record_size, HALF_PAGE, Format.SLOT_SIZE, Format.LEAF_RECORD_HEADER_SIZE. lia. }
  apply choose_leaf_split_room; [by apply sorted_ordered, (leaf_sorted _ _ _ _ _ _ _ HL)| |done|pose proof (Hw _ He0); lia].
  apply Forall_forall. intros e He. split; [|by apply Hw]. pose proof (leaf_bounds _ _ _ _ _ _ _ HL) as HB. rewrite Forall_forall in HB.
  destruct (HB (Format.key e)) as [_ (dk & Hwf & E)]; [by apply list_elem_of_fmap_2|]. rewrite <-E. by rewrite Key.decode_encode.
Qed.

(** A new root above a root that was split. *)
Lemma inv_new_root o G Gc H fl db c r sep N lsn :
  inv o ∅ G Gc H fl db → split_of Gc G c r H [] sep None → root_page_id o = c → G !! N = None →
  FIRST_DATA_PAGE ≤ N ≤ high_water_page_id o → storable (Format.Internal lsn c [Format.mkInternalEntry sep r]) →
  inv (set_root N (replaced o N (Format.Internal lsn c [Format.mkInternalEntry sep r])))
    ∅ (<[N := RTree (S H) [] None]> G) (<[N := RTree (S H) [] None]> G) (S H) fl db.
Proof.
  intros Hi HS Hroot HN Hrange Hst. pose proof Hi as [I1 I2 I3 I4 I5 I6 I7 I8 I9 I10 I11 I12 I13].
  assert (Hmono : ∀ i x, G !! i = Some x → <[N := RTree (S H) [] None]> G !! i = Some x).
  { intros i x Hx. rewrite lookup_insert_ne; [done|]. intros ->. congruence. }
  pose proof (split_height _ _ _ _ _ _ _ _ _ HS I5) as Hh. pose proof (split_labels_ok _ _ _ _ _ _ _ _ I6 HS) as HL.
  eapply (inv_relabel o); eauto.
  - simpl. done.
  - simpl. set_solver.
  - apply (replaced_storable o); eauto.
  - simpl. by rewrite lookup_insert_eq.
  - intros id h lo hi. rewrite lookup_insert_Some. intros [[_ [= <- _ _]]|[_ ?%Hh]]; lia.
  - split.
    + intros id h lo hi. rewrite lookup_insert_Some. intros [[_ [= _ _ <-]]|[_ ?]]; [done|].
      by eapply (lab_nonempty _ HL).
    + intros id id' h lo hi lo' hi' k. rewrite !lookup_insert_Some.
      intros [[<- Ex]|[_ Hx]] [[<- Ey]|[_ Hy]] Hk Hk'; [done|..].
      * apply Hh in Hy. injection Ex as <- _ _. lia.
      * apply Hh in Hx. injection Ey as <- _ _. lia.
      * by eapply (lab_disjoint _ HL).
  - intros id ow. split; [apply Hmono|]. rewrite lookup_insert_Some. naive_solver.
  - intros id Hid Hl. apply view_replaced_ne. intros ->. rewrite lookup_insert_eq in Hl. simpl in Hl.
    destruct Hl as [[]|[? ?]]. done.
  - intros id x. rewrite lookup_insert_Some. intros [[<- _]|[_ Hx]]; [done|]. by eapply I2.
  - intros id h lo hi. rewrite lookup_insert_Some. intros [[<- [= <- <- <-]]|[Hne Hid]].
    + left. simpl. eexists _, _, _. split; [apply view_replaced_eq|]. split; [done|]. simpl.
      split; apply Hmono; [apply (split_left _ _ _ _ _ _ _ _ HS)|apply (split_right _ _ _ _ _ _ _ _ HS)].
    + right. split_and!; [by apply view_replaced_ne|done|set_solver|]. intros h' lm es -> Hch.
      eapply children_ok_mono; [|eapply children_of_mono; eauto]; [eauto|]. left. apply Hh in Hid. lia.
  - set_solver.
  - intros id h lo hi. rewrite lookup_insert_Some. intros [[_ [= _ <- _]]|[_ ?]]; [by left|eauto].
Qed.

(** A parent that has room for the separator. *)
Lemma inv_parent_fits o G Gc H fl db c r h lo sep hi P a b lsn lm es :
  inv o ∅ G Gc H fl db → split_of Gc G c r h lo sep hi → (h < H)%nat →
  G !! P = Some (RTree (S h) a b) → in_bounds a b sep → children_ok G h a lm es b →
  storable (Format.Internal lsn lm es) →
  inv (replaced o P (Format.Internal lsn lm es)) ∅ G G H fl db.
Proof.
  intros Hi HS Hlt HP Hin Hch Hst. pose proof Hi as [I1 I2 I3 I4 I5 I6 I7 I8 I9 I10 I11 I12 I13].
  pose proof (split_labels_ok _ _ _ _ _ _ _ _ I6 HS) as HL.
  eapply (inv_relabel o); eauto; try done.
  - simpl. set_solver.
  - apply (replaced_storable o); eauto.
  - simpl. eapply (split_keeps _ _ _ _ _ _ _ _ HS); [done|]. intros E. rewrite E in I4.
    rewrite (so_old _ _ _ _ _ _ _ _ HS) in I4. injection I4 as -> -> ->. lia.
  - by eapply split_height.
  - intros id Hid Hl. apply view_replaced_ne. intros ->. rewrite HP in Hl. destruct Hl as [[]|[? ?]]. done.
  - intros id h' a' b' Hid. destruct (decide (id = P)) as [->|Hne].
    + left. rewrite HP in Hid. injection Hid as <- <- <-. simpl. eexists _, _, _. split; [apply view_replaced_eq|done].
    + right. split_and!; [by apply view_replaced_ne|done|set_solver|]. intros h'' lm' es' -> Hch'.
      eapply children_of_mono; eauto. destruct (decide (h'' = h)) as [->|]; [right|by left].
      intros Hin'. destruct Hne. by eapply (lab_disjoint _ HL).
Qed.

(** A parent that is split in turn. *)
Lemma inv_parent_split o G Gc H fl db c r h lo sep hi P R a b lsn lm l m l' :
  inv o ∅ G Gc H fl db → split_of Gc G c r h lo sep hi → (h < H)%nat →
  G !! P = Some (RTree (S h) a b) → in_bounds a b sep → children_ok G h a lm (l ++ m :: l') b →
  G !! R = None → FIRST_DATA_PAGE ≤ R ≤ high_water_page_id o →
  storable (Format.Internal lsn lm l) → storable (Format.Internal lsn (Format.right_child m) l') →
  let G' := <[P := RTree (S h) a (Some (Format.separator m))]> (<[R := RTree (S h) (Format.separator m) b]> G) in
  split_of G G' P R (S h) a (Format.separator m) b ∧
  inv (replaced (replaced o P (Format.Internal lsn lm l)) R (Format.Internal lsn (Format.right_child m) l'))
    ∅ G' G H fl db.
Proof.
  intros Hi HS Hlt HP Hin Hch HR Hrange Hst1 Hst2 G'. pose proof Hi as [I1 I2 I3 I4 I5 I6 I7 I8 I9 I10 I11 I12 I13].
  pose proof (split_labels_ok _ _ _ _ _ _ _ _ I6 HS) as HL.
  pose proof (children_known _ _ _ _ _ _ _ Hch I13) as [_ [Hm _]%Forall_cons]%Forall_app.
  apply children_cut in Hch as [Hl Hr].
  assert (HS' : split_of G G' P R (S h) a (Format.separator m) b).
  { split; [done|done|done| |].
    - apply (children_nonempty _ _ _ _ _ _ HL Hl).
    - apply (children_nonempty _ _ _ _ _ _ HL Hr). }
  split; [done|]. pose proof (split_ne _ _ _ _ _ _ _ _ HS') as Hne.
  assert (Hother : ∀ id, id ≠ P → id ≠ R → G' !! id = G !! id) by (apply (split_other _ _ _ _ _ _ _ _ HS')).
  eapply (inv_relabel o); eauto; try done.
  - simpl. set_solver.
  - apply (replaced_storable (replaced o P _)); [apply (replaced_storable o); eauto|done|done].
  - simpl. eapply (split_keeps _ _ _ _ _ _ _ _ HS); [done|]. intros E. rewrite E in I4.
    rewrite (so_old _ _ _ _ _ _ _ _ HS) in I4. injection I4 as -> -> ->. lia.
  - by eapply split_height.
  - by eapply same_values_split.
  - intros id. by apply split_free with (1 := HS').
  - intros n b0 hi0. by apply split_next with (1 := HL) (2 := HS').
  - intros id Hid Hlo. rewrite !view_replaced_ne; [done|..]; intros ->.
    + unfold G' in Hlo. rewrite lookup_insert_eq in Hlo. simpl in Hlo. destruct Hlo as [[]|[? ?]]. done.
    + unfold G' in Hlo. rewrite lookup_insert_ne, lookup_insert_eq in Hlo by done. simpl in Hlo.
      destruct Hlo as [[]|[? ?]]. done.
  - intros id x. unfold G'. rewrite !lookup_insert_Some. intros [[<- _]|[_ [[<- _]|[_ Hx]]]]; eauto.
  - intros id h' a' b' Hid. destruct (decide (id = P)) as [->|HneP]; [left|].
    { rewrite (split_left _ _ _ _ _ _ _ _ HS') in Hid. injection Hid as <- <- <-. simpl.
      eexists _, _, _. rewrite view_replaced_ne by done. split; [apply view_replaced_eq|done]. }
    destruct (decide (id = R)) as [->|HneR]; [left|right].
    { rewrite (split_right _ _ _ _ _ _ _ _ HS') in Hid. injection Hid as <- <- <-. simpl.
      eexists _, _, _. split; [apply view_replaced_eq|done]. }
    rewrite Hother in Hid by done. rewrite !view_replaced_ne by done.
    split_and!; [done|done|set_solver|]. intros h'' lm' es' -> Hch'.
    eapply children_of_mono; eauto. destruct (decide (h'' = h)) as [->|]; [right|by left].
    intros Hin'. destruct HneP. by eapply (lab_disjoint _ HL).
  - by eapply known_bounds_split.
Qed.

Lemma split_range o G Gc H fl db c r h lo sep hi :
  inv o ∅ G Gc H fl db → split_of Gc G c r h lo sep hi →
  FIRST_DATA_PAGE ≤ c < U64_MAX ∧ FIRST_DATA_PAGE ≤ r < U64_MAX.
Proof.
  intros Hi HS. pose proof (inv_high _ _ _ _ _ _ _ Hi).
  pose proof (inv_range _ _ _ _ _ _ _ Hi _ _ (split_left _ _ _ _ _ _ _ _ HS)).
  pose proof (inv_range _ _ _ _ _ _ _ Hi _ _ (split_right _ _ _ _ _ _ _ _ HS)). lia.
Qed.

Lemma insert_parents_spec rr o G Gc H fl db c r h lo sep hi k lsn :
  inv o ∅ G Gc H fl db → split_of Gc G c r h lo sep hi → in_bounds lo hi k → path Gc k rr h H →
  sep_ok sep → u64 lsn → high_water_page_id o + len rr + 1 < U64_MAX →
  wp (insert_parents rr sep r lsn)
    (λ _ o', ∃ G' H' fl', inv o' ∅ G' G' H' fl' db ∧ same_values G G' ∧ keeps_values o G o' ∧
       high_water_page_id o ≤ high_water_page_id o' ≤ high_water_page_id o + len rr + 1 ∧ (H' ≤ S H)%nat ∧ same_meta o o')
    (λ e _, rejected e ∧ crowded db) o.
Proof.
  revert o G Gc fl c r h lo sep hi.
  induction rr as [|P rr IH]; intros o G Gc fl c r h lo sep hi Hi HS Hk Hp Hsep Hlsn Hroom; cbn [insert_parents].
  - simpl in Hp. subst h.
    destruct (label_unique Gc c (root_page_id o) H lo hi [] None k) as (Hc & -> & ->);
      [apply Hi|apply HS|apply Hi|done|split; [by destruct k|done]|].
    rewrite len_nil in *. wp_step. eapply wp_mono; [eapply allocate_pending_spec; [done..|lia]| |by intros].
    intros N o1 (G1 & Gc1 & fl1 & Hi1 & HS1 & Hv1 & HN & _ & _ & _ & Hr1 & Hhw & Hroot & Hvw & Hm1).
    wp_steps. apply wp_replace. wp_steps. rewrite Hroot, <-Hc.
    exists (<[N := RTree (S H) [] None]> G1), (S H), fl1. split_and!.
    + eapply inv_new_root; [exact Hi1|exact HS1|congruence|done|done|].
      destruct (split_range _ _ _ _ _ _ _ _ _ _ _ _ Hi1 HS1) as [[Hc1 Hc2] [Hr2 Hr3]].
      unfold FIRST_DATA_PAGE in *. apply storable_internal; [done|ulia|apply Forall_singleton; split; [simpl; ulia|done]|done|].
      apply single_entry_fits; [done..|exact Hsep].
    + trans G1; [done|]. intros id ow. rewrite lookup_insert_Some. split; [|naive_solver].
      intros Hid. right. split; [|done]. intros <-. congruence.
    + eapply (keeps_values_trans o o1); [done|by apply keeps_values_view|].
      apply (keeps_values_replaced o1). by rewrite HN.
    + simpl. lia.
    + simpl. lia.
    + lia.
    + trans o1; [done|]. apply replaced_meta_root.
  - destruct Hp as [(a & b & HP & Hka) Hp]. pose proof (path_length _ _ _ _ _ Hp) as Hlen.
    assert (HPc : P ≠ c). { intros ->. rewrite (so_old _ _ _ _ _ _ _ _ HS) in HP. injection HP. lia. }
    pose proof (split_keeps _ _ _ _ _ _ _ _ HS _ _ HP HPc) as HP'.
    pose proof (inv_pages _ _ _ _ _ _ _ Hi _ _ HP' ltac:(set_solver)) as (lsn' & lm & es & Hv & Hst & Hch).
    assert (Hfit0 : Format.internal_fits lm es = true) by apply Hst.
    apply storable_internal_inv in Hst as [Hlm Hes]. rewrite len_cons in *.
    wp_step. eapply wp_mono; [eapply internal_spec; [apply Hi|done|by eapply (inv_range _ _ _ _ _ _ _ Hi)]| |by intros].
    intros ? o1 [-> S1]. cbn [internal_leftmost internal_entries].
    pose proof (inv_sim _ _ _ _ _ _ _ _ Hi S1) as Hi1.
    assert (Hin : in_bounds a b sep).
    { eapply parent_contains; [apply Hi|apply HS|exact Hk|exact Hka|exact Hch|].
      split; [|apply HS]. intros Hlt. destruct (lt_irrefl lo). trans sep; [apply HS|done]. }
    pose proof (children_insert _ _ _ _ _ _ _ _ (inv_labels _ _ _ _ _ _ _ Hi) HS _ _ _ _ Hch Hin) as Hch'.
    destruct (split_range _ _ _ _ _ _ _ _ _ _ _ _ Hi HS) as [_ [Hr2 Hr3]].
    assert (Hes' : entries_ok (vec_insert (partition_point (λ e, bytes_ltb (Format.separator e) sep) es)
      (Format.mkInternalEntry sep r) es)) by (apply Forall_vec_insert; [done|simpl; split; [unfold FIRST_DATA_PAGE in *; ulia|done]]).
    set (es' := vec_insert _ _ _) in *. pose proof (len_nonneg rr). pose proof (sim_high _ _ S1) as Hh1.
    destruct (Format.internal_fits lm es') eqn:Hfit.
    + apply wp_replace. exists G, H, fl.
      split_and!; [|done| |simpl; lia|simpl; lia|lia|trans o1; [by apply sim_same_meta|apply replaced_meta]].
      * eapply inv_parent_fits; eauto using storable_internal, vec_insert_nonempty. lia.
      * eapply (keeps_values_trans o o1); [done|apply keeps_values_view, (sim_view _ _ S1)|].
        apply keeps_values_replaced. by rewrite HP'.
    + wp_step. apply wp_lift. pose proof (choose_internal_split_spec lm es' Hes') as Hsp.
      assert (Hroom' : (∃ c, choose_internal_split lm es' = Ok c) ∨ crowded db).
      { eapply internal_split_or_crowded; [by eapply split_labels_ok; [apply Hi|]| |apply Hi|exact Hch'|done|done|].
        - intros id x Hx. by apply (inv_range _ _ _ _ _ _ _ Hi) in Hx as [? _].
        - eexists. split; [apply vec_insert_elem|]. unfold es'. rewrite load_vec_insert. apply internal_fits_load in Hfit0. lia. }
      destruct (choose_internal_split lm es') as [split| |]; [|by destruct Hroom' as [[? ?]|?]|done].
      destruct Hsp as (m & Hsplit & Hsplit2 & Hm & F1 & F2). wp_step. eapply wp_lift_ok; [by apply index_lookup; [lia|]|].
      wp_step. eapply wp_mono; [eapply allocate_pending_spec; [done..|lia]| |by intros].
      intros R o2 (G1 & Gc1 & fl1 & Hi2 & HS1 & Hv1 & HR & _ & HmonoC & HmonoG & Hr1 & Hhw & Hroot & Hvw & Hm1).
      wp_step. apply wp_fail_when; rewrite F1, F2; [done|]. intros _. wp_step. apply wp_replace. wp_step. apply wp_replace.
      rewrite <-(slice_cut_at es' split m) in Hch', Hes' by (done || lia).
      apply Forall_app in Hes' as [Hes1 [[Hm1' Hm2'] Hes2]%Forall_cons].
      assert (Hch1 : children_ok G1 h a lm (es'.[0; split) ++ m :: es'.[split + 1; len es')) b)
        by (eapply children_ok_mono; [|done]; eauto).
      destruct (inv_parent_split o2 G1 Gc1 H fl1 db c r h lo sep hi P R a b lsn lm
        (es'.[0; split)) m (es'.[split + 1; len es'))) as [HS2 Hi3];
        eauto using storable_internal, slice_nonempty with lia.
      eapply wp_mono; [eapply IH; [exact Hi3|exact HS2|exact Hka| |exact Hm2'|done|simpl; lia]| |done].
      * eapply path_mono; [|exact Hp]. intros p h' a' b' Hlt Hp'. apply HmonoG.
        apply (split_keeps _ _ _ _ _ _ _ _ HS _ _ Hp'). intros ->.
        rewrite (so_old _ _ _ _ _ _ _ _ HS) in Hp'. injection Hp'. lia.
      * intros _ o3 (G' & H' & fl' & Hi4 & Hv4 & Hk4 & Hhw4 & HH4 & Hm4). simpl in Hhw4. exists G', H', fl'. split; [done|]. split.
        { trans G1; [done|]. etrans; [|done]. by eapply same_values_split. }
        split.
        { eapply (keeps_values_trans o o2); [done|apply keeps_values_view|].
          { intros i. by rewrite Hvw, (sim_view _ _ S1). }
          eapply keeps_values_trans; [|apply (keeps_values_replaced _ _ P)|].
          { reflexivity. }
          { intros ow. by rewrite (HmonoG _ _ _ _ HP'). }
          eapply keeps_values_trans; [by eapply same_values_split| |exact Hk4].
          apply keeps_values_replaced. by rewrite HR. }
        split; [lia|]. split; [done|]. trans o1; [by apply sim_same_meta|]. by eapply same_meta_twice.
Qed.

(** Rewriting a leaf in place. *)
Lemma inv_leaf_fits o G H fl db c lo hi next es lsn :
  inv o {[c]} G G H fl db → G !! c = Some (RTree 0 lo hi) → leaf_ok (view o) G db lo hi next es →
  storable (Format.Leaf lsn next es) →
  inv (replaced o c (Format.Leaf lsn next es)) ∅ G G H fl db.
Proof.
  intros Hi Hc HL Hst. pose proof Hi as [I1 I2 I3 I4 I5 I6 I7 I8 I9 I10 I11 I12 I13].
  assert (Hne : ∀ i x, G !! i = Some x → (∀ lo hi, x ≠ RTree 0 lo hi) → i ≠ c).
  { intros i x Hx Hn ->. rewrite Hc in Hx. simplify_eq. by eapply Hn. }
  eapply (inv_relabel o); eauto; try done.
  - simpl. set_solver.
  - apply (replaced_storable o); eauto.
  - intros id Hid _. apply view_replaced_ne. set_solver.
  - intros id h a b Hid. destruct (decide (id = c)) as [->|Hnc].
    + left. rewrite Hc in Hid. injection Hid as <- <- <-. simpl. eexists _, _, _.
      split; [apply view_replaced_eq|]. split; [done|]. eapply leaf_ok_frame; [..|done]; [eauto|].
      intros i k Hi'. split; [done|]. apply view_replaced_ne. by eapply Hne.
    + right. split_and!; [by apply view_replaced_ne|done|set_solver|done].
  - intros id ->%elem_of_singleton. eauto.
Qed.

(** Splitting a leaf in two. *)
Lemma inv_leaf_split o G H fl db c r lo hi next l e l' lsn :
  inv o {[c]} G G H fl db → G !! c = Some (RTree 0 lo hi) → leaf_ok (view o) G db lo hi next (l ++ e :: l') →
  l ≠ [] → G !! r = None → FIRST_DATA_PAGE ≤ r ≤ high_water_page_id o →
  storable (Format.Leaf lsn (Some r) l) → storable (Format.Leaf lsn next (e :: l')) →
  let G' := <[c := RTree 0 lo (Some (Format.key e))]> (<[r := RTree 0 (Format.key e) hi]> G) in
  split_of G G' c r 0 lo (Format.key e) hi ∧
  inv (replaced (replaced o c (Format.Leaf lsn (Some r) l)) r (Format.Leaf lsn next (e :: l')))
    ∅ G' G H fl db.
Proof.
  intros Hi Hc HL Hl Hr Hrange Hst1 Hst2 G'. pose proof Hi as [I1 I2 I3 I4 I5 I6 I7 I8 I9 I10 I11 I12 I13].
  assert (HS : split_of G G' c r 0 lo (Format.key e) hi).
  { destruct (leaf_ok_split _ _ _ _ _ _ _ _ _ r HL Hl) as (H1 & H2 & _). by split. }
  split; [done|]. pose proof (split_ne _ _ _ _ _ _ _ _ HS) as Hne.
  set (o' := replaced _ r _).
  assert (Hvals : ∀ i k, G !! i = Some (RValue (Some k)) → G' !! i = Some (RValue (Some k)) ∧ view o' i = view o i).
  { intros i k Hik. split; [by apply (same_values_split _ _ _ _ _ _ _ _ HS)|].
    unfold o'. rewrite !view_replaced_ne; [done|congruence|congruence]. }
  assert (HL' : leaf_ok (view o') G' db lo hi next (l ++ e :: l')).
  { eapply leaf_ok_frame; [..|exact HL]; [|done]. intros n b hi' -> Hn. eapply split_next; [apply Hi|done|done]. }
  destruct (leaf_ok_split _ _ _ _ _ _ _ _ _ r HL' Hl) as (_ & _ & HLR).
  destruct HLR as [HLl HLr]. { exists hi. apply (split_right _ _ _ _ _ _ _ _ HS). }
  eapply (inv_relabel o); eauto; try done.
  - simpl. set_solver.
  - apply (replaced_storable (replaced o c _)); [apply (replaced_storable o); eauto|done|done].
  - by eapply same_values_split.
  - intros id. by apply split_free with (1 := HS).
  - intros n b0 hi0. by apply split_next with (1 := I6) (2 := HS).
  - intros id Hid Hlo. unfold o'. rewrite !view_replaced_ne; [done|set_solver|]. intros ->.
    unfold G' in Hlo. rewrite lookup_insert_ne, lookup_insert_eq in Hlo by done. simpl in Hlo.
    destruct Hlo as [[]|[? ?]]. done.
  - intros id x. unfold G'. rewrite !lookup_insert_Some. intros [[<- _]|[_ [[<- _]|[_ Hx]]]]; eauto.
  - intros id h' a' b' Hid. destruct (decide (id = c)) as [->|HneP]; [left|].
    { rewrite (split_left _ _ _ _ _ _ _ _ HS) in Hid. injection Hid as <- <- <-. simpl.
      eexists _, _, _. unfold o'. rewrite view_replaced_ne by done. split; [apply view_replaced_eq|done]. }
    destruct (decide (id = r)) as [->|HneR]; [left|right].
    { rewrite (split_right _ _ _ _ _ _ _ _ HS) in Hid. injection Hid as <- <- <-. simpl.
      eexists _, _, _. split; [apply view_replaced_eq|done]. }
    rewrite (split_other _ _ _ _ _ _ _ _ HS) in Hid by done. unfold o'. rewrite !view_replaced_ne by done.
    split_and!; [done|done|set_solver|done].
  - intros id ->%elem_of_singleton. eauto.
  - eapply known_bounds_split; [done|done|right].
    destruct (leaf_entry_in _ _ _ _ _ _ _ e HL) as (ov & -> & _); [|done]. apply elem_of_app. right. left.
Qed.

Lemma insert_leaf_entries_spec o G H fl db c route rr lo hi next es k lsn :
  inv o {[c]} G G H fl db → G !! c = Some (RTree 0 lo hi) → reverse route = c :: rr →
  path G k rr 0 H → in_bounds lo hi k → leaf_ok (view o) G db lo hi next es →
  u64 lsn → Superblock.wf_ref next → leaf_entries_ok lsn es →
  (∃ e, e ∈ es ∧ load leaf_weight es ≤ 2 * HALF_PAGE + leaf_weight e) →
  high_water_page_id o + len rr + 2 < U64_MAX →
  wp (insert_leaf_entries c route (mkLeafPage next es) lsn)
    (λ _ o', ∃ G' H' fl', inv o' ∅ G' G' H' fl' db ∧ same_values G G' ∧ keeps_values o G o' ∧
       high_water_page_id o ≤ high_water_page_id o' ≤ high_water_page_id o + len rr + 2 ∧ (H' ≤ S H)%nat ∧ same_meta o o')
    (λ e _, rejected e ∧ crowded db) o.
Proof.
  intros Hi Hc Hroute Hp Hk HL Hlsn Hnext Hes Hload Hroom. unfold insert_leaf_entries. cbn [leaf_next leaf_entries].
  pose proof (len_nonneg rr). destruct (Format.leaf_fits es) eqn:Hfit.
  { apply wp_replace. exists G, H, fl.
    split_and!; [eapply inv_leaf_fits; eauto using storable_leaf|done| |simpl; lia|simpl; lia|lia|apply replaced_meta].
    apply keeps_values_replaced. by rewrite Hc. }
  wp_step. apply wp_lift. pose proof (choose_leaf_split_spec es) as Hsp.
  pose proof (leaf_split_or_crowded _ _ _ _ _ _ _ _ HL Hes Hfit Hload) as Hroom'.
  destruct (choose_leaf_split es) as [split| |]; [|by destruct Hroom' as [[? ?]|?]|done]. destruct Hsp as (Hrange & F1 & F2).
  wp_step. eapply wp_mono; [eapply allocate_page_spec; eauto; lia| |by intros].
  intros r o1 (fl1 & Hi1 & HA & _ & Hr & Hhw & _ & Hv1 & Hm1).
  destruct (lookup_lt_is_Some_2 es (Z.to_nat split)) as [e He]; [unfold len in Hrange; lia|].
  pose proof (slice_cut_at es split e ltac:(lia) He) as Hcut.
  assert (Hright : es.[split; len es) = e :: es.[split + 1; len es)).
  { apply (app_inv_head (es.[0; split))). by rewrite slice_cut, Hcut by lia. }
  rewrite Hright in F2 |- *. rewrite <-Hcut in Hes. apply Forall_app in Hes as [Hes1 Hes2].
  pose proof (inv_high _ _ _ _ _ _ _ Hi1) as Hmax.
  wp_step. eapply wp_lift_ok; [done|]. wp_step. apply wp_replace. wp_step. apply wp_replace.
  assert (Hrc : r ≠ c). { intros ->. rewrite Hc in HA. by destruct HA. }
  assert (Hc1 : base.delete r G !! c = Some (RTree 0 lo hi)) by (by rewrite lookup_delete_ne).
  assert (Htree : ∀ p h a b, G !! p = Some (RTree h a b) → base.delete r G !! p = Some (RTree h a b)).
  { intros p h a b Hpp. rewrite lookup_delete_ne; [done|]. intros ->. rewrite Hpp in HA. by destruct HA. }
  destruct (inv_leaf_split o1 (base.delete r G) H fl1 db c r lo hi next (es.[0; split)) e
    (es.[split + 1; len es)) lsn) as [HS Hi2]; eauto using storable_leaf.
  - rewrite Hcut. eapply leaf_ok_frame; [..|exact HL].
    + eauto.
    + intros i k' Hik. split; [by apply same_values_delete|apply Hv1].
  - intros E. assert (len (es.[0; split)) = 0) as E' by (by rewrite E). rewrite len_slice in E' by lia. lia.
  - by rewrite lookup_delete_eq.
  - apply storable_leaf; [done| |done|done]. simpl. unfold Superblock.NULL_PAGE_ID, FIRST_DATA_PAGE in *. lia.
  - unfold insert_parent_separator. rewrite Hroute. cbn [tail].
    eapply wp_mono; [eapply insert_parents_spec; [exact Hi2|exact HS|exact Hk| |eapply leaf_key_sep_ok; [exact F2|left]|done|simpl; lia]| |done].
    + eapply path_mono; [|exact Hp]. eauto.
    + intros _ o' (G' & H' & fl' & Hi' & Hv' & Hkv & Hhw' & HH' & Hm'). simpl in Hhw'. exists G', H', fl'.
      split_and!; [done| | |lia|lia|done|].
      * etrans; [by apply same_values_delete|]. etrans; [by eapply same_values_split|done].
      * eapply (keeps_values_trans o o1); [by apply same_values_delete|by apply keeps_values_view|].
        eapply keeps_values_trans; [|apply (keeps_values_replaced _ _ c)|].
        { reflexivity. }
        { intros ow. by rewrite Hc1. }
        eapply keeps_values_trans; [by eapply same_values_split| |exact Hkv].
        apply keeps_values_replaced. intros ow. by rewrite lookup_delete_eq.
      * by eapply same_meta_twice.
Qed.

End insert.
End TreeInsert.
