(* ===== verification/TreeValue.v ===== *)
(** * Values in overflow chains

    [make_value] writes a value whose bytes [read_value] returns and whose pages
    [free_value] gives back to the free list; none of them disturbs the tree, the
    other values or each other. *)

From S2P Require Import Prelude Wp Key Core Superblock Format FormatLaws Overlay Tree.

Module TreeValue.
Import Core Overlay Tree.

(** ** Chunks *)

Lemma chunks_loop_spec {A} fuel n (l : list A) :
  (0 < n)%nat → (length l ≤ fuel)%nat →
  concat (chunks_loop fuel n l) = l ∧
  (length l ≤ n * length (chunks_loop fuel n l))%nat ∧
  (n * length (chunks_loop fuel n l) < length l + n)%nat.
Proof.
  intros Hn. revert l. induction fuel as [|fuel IH]; intros [|x l] Hl; simpl in *; try lia; try (split; [done|lia]).
  destruct n as [|n]; [lia|]. cbn [take drop concat length].
  destruct (IH (drop n l)) as (H1 & H2 & H3); [rewrite length_drop; lia|].
  rewrite H1. cbn [app]. rewrite take_drop. rewrite length_drop in *. rewrite Nat.mul_succ_r.
  set (m := length (chunks_loop fuel (S n) (drop n l))) in *. clearbody m.
  split; [done|]. destruct m as [|m]; [lia|]. rewrite Nat.mul_succ_r in *.
  generalize dependent (S n * m)%nat. intros. lia.
Qed.

Lemma chunks_concat {A} n (l : list A) : 0 < n → concat (chunks n l) = l.
Proof. intros. unfold chunks. apply (chunks_loop_spec (length l) (Z.to_nat n) l); lia. Qed.

Lemma chunks_length {A} n (l : list A) :
  0 < n → len (chunks n l) = Format.div_ceil (len l) n.
Proof.
  intros Hn. unfold chunks, Format.div_ceil, len.
  destruct (chunks_loop_spec (length l) (Z.to_nat n) l) as (_ & H1 & H2); [lia|lia|].
  set (c := length (chunks_loop _ _ _)) in *. apply Z.div_unique with (r := Z.of_nat (length l) + n - 1 - n * Z.of_nat c); [|lia].
  left. nia.
Qed.

Lemma chunks_sizes {A} n (l : list A) : 0 < n → Forall (λ c, 0 < len c ≤ n) (chunks n l).
Proof.
  intros Hn. unfold chunks. generalize (length l) at 1. intros fuel. revert l.
  induction fuel as [|fuel IH]; intros [|x l]; simpl; try by constructor.
  constructor; [|apply IH]. destruct (Z.to_nat n) as [|m] eqn:E; [lia|]. simpl. rewrite len_cons.
  pose proof (len_nonneg (take m l)). unfold len in *. rewrite length_take in *. lia.
Qed.

Lemma div_ceil_mono a b n : 0 < n → a ≤ b → Format.div_ceil a n ≤ Format.div_ceil b n.
Proof. intros. unfold Format.div_ceil. apply Z.div_le_mono; lia. Qed.

Section value.
Context {B : Type} {CB : CommittedStore B} {SP : CommittedStoreSpec B}.
Implicit Types (o : Overlay B) (G : labels).

(** ** Reading *)

Lemma read_value_loop_spec ids fuel o total head v visited count output :
  serving (store o) → chain (view o) head total ids v →
  Forall (λ id, FIRST_DATA_PAGE ≤ id ≤ high_water_page_id o) ids → NoDup ids →
  (∀ id, id ∈ ids → id ∉ visited) → count + len ids ≤ Format.MAX_OVERFLOW_PAGES → (length ids ≤ fuel)%nat →
  wp (read_value_loop fuel total head visited count output) (λ r o', r = output ++ v ∧ sim o o') noerr o.
Proof.
  revert fuel o head v visited count output.
  induction ids as [|id ids IH]; intros fuel o head v visited count output Hs Hc Hr Hn Hvis Hcount Hfuel; simpl in Hc.
  - destruct Hc as [-> ->]. destruct fuel; apply wp_ret; by rewrite app_nil_r.
  - destruct Hc as (-> & lsn & next & c & v' & Hv & -> & Hc). destruct fuel as [|fuel]; [simpl in Hfuel; lia|].
    apply Forall_cons in Hr as [Hid Hr]. apply NoDup_cons in Hn as [Hnin Hn]. rewrite len_cons in Hcount.
    pose proof (len_nonneg ids). cbn [read_value_loop]. wp_step. apply wp_fail_when.
    { intros Hb. apply orb_true_iff in Hb as [Hb%bool_decide_eq_true|Hb%Z.leb_le]; [|lia].
      by apply (Hvis id); [left|]. }
    intros _. wp_step. eapply wp_mono; [by apply page_spec| |done]. intros p o1 [-> S1]. cbv beta.
    wp_step. apply wp_fail_when; rewrite Z.eqb_refl; [done|]. intros _.
    eapply wp_mono; [apply (IH _ o1 next v')| |done].
    + by apply (sim_serving _ _ S1).
    + eapply chain_frame; [|done]. apply Forall_forall. intros. apply (sim_view _ _ S1).
    + by rewrite (sim_high _ _ S1).
    + done.
    + intros i Hi. apply not_elem_of_union. split; [|apply Hvis; by right].
      apply not_elem_of_singleton. by intros ->.
    + lia.
    + simpl in Hfuel. lia.
    + intros r o2 [-> S2]. split; [by rewrite app_assoc|by trans o1].
Qed.

Lemma len_le_chain_fuel {A} (ids : list A) : len ids ≤ Format.MAX_OVERFLOW_PAGES → (length ids ≤ chain_fuel)%nat.
Proof. unfold chain_fuel, len. lia. Qed.

Lemma read_value_spec o D G Gc H fl db owner vr v :
  inv o D G Gc H fl db → value_at (view o) G owner (Some vr) (Some v) →
  wp (read_value vr) (λ r o', r = v ∧ sim o o') noerr o.
Proof.
  intros Hi. destruct vr as [w|head total]; cbn [value_at read_value].
  - intros [= ->]. by apply wp_ret.
  - intros (ids & w & [= <-] & Hc & -> & H0 & Hn & Hm & HG). wp_step.
    eapply wp_mono; [apply (read_value_loop_spec ids)| |done]; eauto.
    + apply Hi.
    + eapply Forall_impl; [done|]. intros id Hid. exact (inv_range _ _ _ _ _ _ _ Hi _ _ Hid).
    + set_solver.
    + by apply len_le_chain_fuel.
    + intros r o' [-> S]. cbv beta. wp_step. apply wp_fail_when; rewrite app_nil_l, Z.eqb_refl; [done|].
      intros _. by apply wp_ret.
Qed.

(** ** Freeing *)

Lemma free_head_wf o D G Gc H fl db : inv o D G Gc H fl db → Superblock.wf_ref (free_list_head o).
Proof.
  intros [I1 I2 I3 I4 I5 I6 I7 I8 I9 I10 I11 I12 I13]. destruct fl as [|id fl]; simpl in I8; [by rewrite I8|].
  destruct I8 as [-> _]. pose proof (I2 _ _ (I10 id ltac:(left))).
  simpl. unfold Superblock.NULL_PAGE_ID, FIRST_DATA_PAGE in *. lia.
Qed.

Lemma inv_free_page o G H fl db id lsn :
  inv o ∅ G G H fl db → G !! id = Some (RValue None) → u64 lsn →
  inv (set_free_list_head (Some id) (replaced (set_allocated (allocated o ∖ {[id]}) o) id
         (Format.Free lsn (free_list_head o))))
    ∅ (<[id := RFree]> G) (<[id := RFree]> G) H (id :: fl) db.
Proof.
  intros Hi Hid Hlsn. pose proof Hi as [I1 I2 I3 I4 I5 I6 I7 I8 I9 I10 I11 I12 I13].
  assert (Hmono : ∀ i x, G !! i = Some x → x ≠ RValue None → <[id := RFree]> G !! i = Some x).
  { intros i x Hx Hne. rewrite lookup_insert_ne; [done|]. intros ->. congruence. }
  assert (Hback : ∀ i h lo hi, <[id := RFree]> G !! i = Some (RTree h lo hi) → G !! i = Some (RTree h lo hi)).
  { intros i h lo hi. rewrite lookup_insert_Some. naive_solver. }
  set (o' := set_free_list_head _ _).
  assert (Hview : ∀ i, i ≠ id → view o' i = view o i).
  { intros i Hne. exact (view_replaced_ne o id (Format.Free lsn (free_list_head o)) i Hne). }
  split; try done; eauto.
  - intros i x. rewrite lookup_insert_Some. intros [[<- _]|[_ Hx]]; [by eapply I2|by eapply I2].
  - destruct I6 as [L1 L2]. split; eauto.
  - intros i x. rewrite lookup_insert_Some. intros [[_ <-]|[Hne Hx]] HD; [done|].
    eapply page_ok_frame; [by apply Hview|..|by apply I7].
    + intros n b hi Hn. exists hi. by apply Hmono.
    + intros h lo hi lm es _. apply children_ok_mono. intros. by apply Hmono.
    + intros lo hi k _ _. split; [done|]. intros j Hj. split; [by apply Hmono|].
      apply Hview. intros ->. congruence.
  - simpl. split; [done|]. exists lsn, (free_list_head o). split.
    + exact (view_replaced_eq o id (Format.Free lsn (free_list_head o))).
    + eapply free_chain_frame; [|done]. intros i Hii. apply Hview. intros ->. apply I10 in Hii. congruence.
  - apply NoDup_cons. split; [|done]. intros ?%I10. congruence.
  - intros i [->|Hii]%elem_of_cons; [by rewrite lookup_insert_eq|]. apply Hmono; [by apply I10|done].
  - simpl. set_solver.
  - apply (replaced_storable o id (Format.Free lsn (free_list_head o))); [done| |by eapply I2].
    split_and!; [done| |done]. split; [done|]. by eapply free_head_wf.
  - intros i h lo hi Hi'. eauto.
Qed.

(** The tree part of the labels. *)
Definition same_tree G G' : Prop :=
  (∀ id h lo hi, G !! id = Some (RTree h lo hi) → G' !! id = Some (RTree h lo hi)) ∧
  (∀ id k, G !! id = Some (RValue (Some k)) → G' !! id = Some (RValue (Some k))).

#[global] Instance same_tree_preorder : PreOrder same_tree.
Proof. split; [by split|]. intros G1 G2 G3 [A1 A2] [B1 B2]. split; eauto. Qed.

Lemma free_value_loop_spec ids fuel o G H fl db total lsn head v visited count sum :
  inv o ∅ G G H fl db → chain (view o) head total ids v →
  Forall (λ id, G !! id = Some (RValue None)) ids → NoDup ids →
  (∀ id, id ∈ ids → id ∉ visited) → count + len ids ≤ Format.MAX_OVERFLOW_PAGES → (length ids ≤ fuel)%nat →
  0 ≤ sum → sum + len v ≤ U64_MAX → u64 lsn →
  wp (free_value_loop fuel total lsn head visited count sum)
    (λ r o', r = sum + len v ∧ ∃ G' fl', inv o' ∅ G' G' H fl' db ∧ same_tree G G' ∧
       high_water_page_id o' = high_water_page_id o ∧ same_meta o o') noerr o.
Proof.
  revert fuel o G fl head v visited count sum.
  induction ids as [|id ids IH]; intros fuel o G fl head v visited count sum Hi Hc HG Hn Hvis Hcount Hfuel H0 Hsum Hlsn; simpl in Hc.
  - destruct Hc as [-> ->]. destruct fuel; apply wp_ret; (split; [rewrite len_nil; lia|by exists G, fl]).
  - destruct Hc as (-> & lsn' & next & c & v' & Hv & -> & Hc). destruct fuel as [|fuel]; [simpl in Hfuel; lia|].
    apply Forall_cons in HG as [Hid HG]. apply NoDup_cons in Hn as [Hnin Hn]. rewrite len_cons in Hcount.
    rewrite len_app in *. pose proof (len_nonneg ids). pose proof (len_nonneg c). pose proof (len_nonneg v').
    cbn [free_value_loop]. wp_step. apply wp_fail_when.
    { intros Hb. apply orb_true_iff in Hb as [Hb%bool_decide_eq_true|Hb%Z.leb_le]; [|lia].
      by apply (Hvis id); [left|]. }
    intros _. wp_step.
    eapply wp_mono; [apply page_spec; [apply Hi|done|by eapply (inv_range _ _ _ _ _ _ _ Hi)]| |done].
    intros p o1 [-> S1]. cbv beta. pose proof (inv_sim _ _ _ _ _ _ _ _ Hi S1) as Hi1.
    wp_step. apply wp_fail_when; rewrite Z.eqb_refl; [done|]. intros _. wp_step.
    eapply wp_lift_ok; [by rewrite checked_add_ok by lia|]. wp_step. unfold free_page. wp_steps. apply wp_replace. wp_steps.
    set (o2 := set_free_list_head _ _).
    assert (Hi2 : inv o2 ∅ (<[id := RFree]> G) (<[id := RFree]> G) H (id :: fl) db) by exact (inv_free_page o1 G H fl db id lsn Hi1 Hid Hlsn).
    eapply wp_mono; [apply (IH _ o2 (<[id := RFree]> G) (id :: fl) next v')| |done]; try done; try lia.
    + eapply chain_frame; [|done]. apply Forall_forall. intros i Hi'. rewrite <-(sim_view _ _ S1).
      apply (view_replaced_ne o1 id (Format.Free lsn (free_list_head o1))). by intros ->.
    + rewrite Forall_forall in HG |- *. intros i Hi'. rewrite lookup_insert_ne; [by apply HG|]. by intros ->.
    + intros i Hi'. apply not_elem_of_union. split; [|apply Hvis; by right].
      apply not_elem_of_singleton. by intros ->.
    + simpl in Hfuel. lia.
    + intros r o3 [-> (G' & fl' & Hi3 & [T1 T2] & Hhw & Hm)]. split; [lia|]. exists G', fl'.
      split_and!; [done| |by rewrite Hhw; apply (sim_high _ _ S1)|].
      * split; intros; [apply T1|apply T2]; (rewrite lookup_insert_ne; [done|]; intros ->; congruence).
      * trans o1; [by apply sim_same_meta|]. etrans; [|done].
        apply replaced_meta_free.
Qed.

Lemma free_value_spec o G H fl db vr ov lsn :
  inv o ∅ G G H fl db → value_at (view o) G None vr ov → u64 lsn →
  wp (free_value vr lsn)
    (λ _ o', ∃ G' fl', inv o' ∅ G' G' H fl' db ∧ same_tree G G' ∧
       high_water_page_id o' = high_water_page_id o ∧ same_meta o o') noerr o.
Proof.
  intros Hi Hv Hlsn. destruct vr as [[w|head total]|]; cbn [value_at free_value] in *.
  - apply wp_ret. by exists G, fl.
  - destruct Hv as (ids & v & -> & Hc & -> & H0 & Hn & Hm & HG). wp_step.
    unfold Format.MAX_VALUE_SIZE in H0.
    eapply wp_mono; [eapply (free_value_loop_spec ids); eauto using len_le_chain_fuel| |done]; [set_solver|lia|ulia|].
    intros r o' [-> HR]. cbv beta. apply wp_fail_when; rewrite Z.add_0_l, Z.eqb_refl; [|done].
    intros Hb%Z.eqb_eq. lia.
  - apply wp_ret. by exists G, fl.
Qed.

(** ** Writing *)

(** The pages [allocate_pages] returns are labelled as a pending value. *)
Lemma allocate_pages_spec n o G H fl db :
  inv o ∅ G G H fl db → high_water_page_id o + Z.of_nat n < U64_MAX →
  wp (allocate_pages n)
    (λ ids o', ∃ G' fl', inv o' ∅ G' G' H fl' db ∧ length ids = n ∧ NoDup ids ∧
       Forall (λ id, G' !! id = Some (RValue None) ∧ available (G !! id)) ids ∧ same_tree G G' ∧
       (∀ id, G !! id = Some (RValue None) → G' !! id = Some (RValue None)) ∧
       (∀ i, view o' i = view o i) ∧
       high_water_page_id o ≤ high_water_page_id o' ≤ high_water_page_id o + Z.of_nat n ∧ same_meta o o')
    noerr o.
Proof.
  revert o G fl. induction n as [|n IH]; intros o G fl Hi Hroom; cbn [allocate_pages].
  { apply wp_ret. exists G, fl. split_and!; try done; try lia; constructor. }
  wp_step. eapply wp_mono; [eapply allocate_page_spec; eauto; lia| |done].
  intros id o1 (fl1 & Hi1 & HA & _ & Hr & Hhw1 & _ & Hv1 & Hm1).
  pose proof (inv_label_value o1 ∅ _ H fl1 db id Hi1 ltac:(by rewrite lookup_delete_eq) Hr) as Hi2.
  rewrite insert_delete_eq in Hi2. wp_step. eapply wp_mono; [eapply IH; [done|lia]| |done].
  intros ids o2 (G' & fl' & Hi3 & Hl & Hn & HF & HT & Hold & Hv2 & Hhw2 & Hm2). apply wp_ret.
  assert (Hav : ∀ i x, G !! i = Some x → ¬ available (Some x) → <[id := RValue None]> G !! i = Some x).
  { intros i x Hx Hna. rewrite lookup_insert_ne; [done|]. intros ->. by rewrite Hx in HA. }
  exists G', fl'. split_and!.
  - done.
  - simpl. by rewrite Hl.
  - apply NoDup_cons. split; [|done]. intros Hin. rewrite Forall_forall in HF.
    destruct (HF _ Hin) as [_ Ha]. rewrite lookup_insert_eq in Ha. by destruct Ha.
  - apply Forall_cons. split; [split; [|done]; apply Hold; by rewrite lookup_insert_eq|].
    eapply Forall_impl; [done|]. intros i [Hi' Ha]. split; [done|].
    destruct (decide (i = id)) as [->|]; [done|]. by rewrite lookup_insert_ne in Ha.
  - etrans; [|done]. split; intros; (apply Hav; [done|]); by intros [].
  - intros i Hx. apply Hold, Hav; [done|]. by intros [].
  - intros i. by rewrite Hv2.
  - lia.
  - lia.
  - by trans o1.
Qed.

Lemma overflow_storable lsn next total c :
  u64 lsn → 0 < total ≤ Format.MAX_VALUE_SIZE → 0 < len c ≤ Format.OVERFLOW_DATA_SIZE →
  Superblock.wf_ref next → storable (Format.Overflow lsn next total c).
Proof.
  intros Hlsn Htot Hc Hn. split; [|split; [split_and!; [done..|lia]|done]]. unfold Format.encode_body, Format.encode_overflow.
  change Format.OVERFLOW_DATA_SIZE with 4032 in *.
  rewrite (proj2 (Z.eqb_neq total 0)), (proj2 (Z.ltb_ge _ total)) by lia. rsimpl.
  rewrite (proj2 (Z.ltb_ge 4032 _)), (proj2 (Z.ltb_ge U16_MAX _)), (proj2 (Z.eqb_neq (len c) 0)) by ulia. done.
Qed.

Lemma write_chunks_spec cs ids o G H fl db total lsn :
  inv o ∅ G G H fl db → length ids = length cs → NoDup ids →
  Forall (λ id, G !! id = Some (RValue None)) ids →
  u64 lsn → 0 < total ≤ Format.MAX_VALUE_SIZE → Forall (λ c, 0 < len c ≤ Format.OVERFLOW_DATA_SIZE) cs →
  wp (write_chunks lsn total ids cs)
    (λ _ o', inv o' ∅ G G H fl db ∧ chain (view o') (head ids) total ids (concat cs) ∧
       (∀ i, i ∉ ids → view o' i = view o i) ∧ high_water_page_id o' = high_water_page_id o ∧
       same_meta o o') noerr o.
Proof.
  revert ids o. induction cs as [|c cs IH]; intros [|id ids] o Hi Hl Hn HF Hlsn Htot Hcs; simpl in Hl; try done.
  apply Forall_cons in Hcs as [Hcl Hcs]. cbn [write_chunks]. apply NoDup_cons in Hn as [Hnin Hn]. apply Forall_cons in HF as [Hid HF].
  injection Hl as Hl. wp_step. apply wp_replace.
  assert (Hst : storable (Format.Overflow lsn (head ids) total c)).
  { apply overflow_storable; [done..|]. destruct ids as [|n ids']; [done|]. apply Forall_cons in HF as [Hn' _].
    pose proof (inv_range _ _ _ _ _ _ _ Hi _ _ Hn'). pose proof (inv_high _ _ _ _ _ _ _ Hi).
    simpl. unfold Superblock.NULL_PAGE_ID, FIRST_DATA_PAGE in *. lia. }
  set (o1 := replaced _ _ _).
  eapply wp_mono; [apply (IH ids o1); eauto using inv_replace_pending| |done].
  intros _ o2 (Hi2 & Hc & Hv & Hhw & Hm). split_and!; [done| | |done|].
  - simpl. split; [done|]. exists lsn, (head ids), c, (concat cs). split_and!; [|done|done].
    rewrite Hv by done. apply view_replaced_eq.
  - intros i [Hne Hi']%not_elem_of_cons. rewrite Hv by done. by apply view_replaced_ne.
  - etrans; [apply replaced_meta|done].
Qed.

Lemma make_value_spec o G H fl db v lsn :
  inv o ∅ G G H fl db → len v ≤ Format.MAX_VALUE_SIZE →
  0 ≤ inline_value_limit (sh_limits (header (store o))) → u64 lsn →
  high_water_page_id o + Format.MAX_OVERFLOW_PAGES < U64_MAX →
  wp (make_value v lsn)
    (λ vr o', ∃ G' fl', inv o' ∅ G' G' H fl' db ∧ value_at (view o') G' None (Some vr) (Some v) ∧
       FormatLaws.wf_value (Some vr) ∧ small_inline (Some vr) ∧
       same_tree G G' ∧ (∀ id h lo hi, G !! id = Some (RTree h lo hi) → view o' id = view o id) ∧
       high_water_page_id o ≤ high_water_page_id o' ≤ high_water_page_id o + Format.MAX_OVERFLOW_PAGES ∧
       same_meta o o')
    noerr o.
Proof.
  intros Hi Hmax Hlim Hlsn Hroom. unfold make_value. wp_steps. pose proof (len_nonneg v) as Hv0.
  destruct (_ && _) eqn:Hinline.
  { apply wp_ret. exists G, fl. assert (0 ≤ Format.MAX_OVERFLOW_PAGES) by done. apply andb_true_iff in Hinline as [?%Z.leb_le ?%Z.leb_le].
    split_and!; try done; lia. }
  assert (Hpos : 0 < len v).
  { apply andb_false_iff in Hinline as [?%Z.leb_gt|?%Z.leb_gt]; [lia|]. unfold Format.INLINE_VALUE_LIMIT in *. lia. }
  assert (Hds : 0 < Format.OVERFLOW_DATA_SIZE) by done. cbv zeta.
  assert (Hids : Format.div_ceil (len v) Format.OVERFLOW_DATA_SIZE ≤ Format.MAX_OVERFLOW_PAGES)
    by (by apply div_ceil_mono).
  wp_step. apply wp_fail_when; [intros ?%Z.ltb_lt; lia|]. intros _. wp_step.
  eapply wp_mono; [apply (allocate_pages_spec _ o G H fl db); [done|]| |done].
  { rewrite Z2Nat.id; [lia|]. unfold Format.div_ceil. apply Z.div_pos; lia. }
  intros ids o1 (G1 & fl1 & Hi1 & Hl & Hn & HF & HT & _ & Hv1 & Hhw1 & Hm1).
  pose proof (chunks_length Format.OVERFLOW_DATA_SIZE v Hds) as Hcl.
  wp_step. eapply wp_mono; [apply (write_chunks_spec _ ids o1 G1 H fl1 db); [done| |done| |done|done|by apply chunks_sizes]| |by intros].
  { rewrite Hl, <-Hcl. unfold len. lia. }
  { eapply Forall_impl; [done|]. by intros id [? _]. }
  intros _ o2 (Hi2 & Hc & Hv2 & Hhw2 & Hm2). rewrite chunks_concat in Hc by done. wp_step.
  destruct ids as [|id ids].
  { exfalso. simpl in Hl. assert (1 ≤ Format.div_ceil (len v) Format.OVERFLOW_DATA_SIZE); [|lia].
    unfold Format.div_ceil. apply Z.div_le_lower_bound; [done|]. lia. }
  eapply wp_lift_ok; [done|]. apply wp_ret. exists G1, fl1.
  rewrite Z2Nat.id in Hhw1 by (unfold Format.div_ceil; apply Z.div_pos; lia).
  split_and!; [done| | |done|done| |lia|lia|by trans o1].
  - exists (id :: ids), v. split_and!; try done; try lia.
    + rewrite <-Hcl in Hids. unfold len at 1. rewrite Hl, <-Hcl. unfold len. unfold len in Hids. lia.
    + eapply Forall_impl; [done|]. by intros i [? _].
  - apply Forall_cons in HF as [[Hid _] _]. pose proof (inv_range _ _ _ _ _ _ _ Hi1 _ _ Hid).
    pose proof (inv_high _ _ _ _ _ _ _ Hi1). simpl. unfold Format.NULL_PAGE_ID, Superblock.NULL_PAGE_ID, FIRST_DATA_PAGE in *.
    split_and!; ulia.
  - intros i h lo hi Hii. rewrite Hv2, Hv1; [done|]. intros Hin. rewrite Forall_forall in HF.
    destruct (HF _ Hin) as [_ Ha]. rewrite Hii in Ha. by destruct Ha.
Qed.

End value.
End TreeValue.
