(* ===== verification/OverlayPages.v ===== *)
(** * Pages past the high-water mark are written

    An operation of the overlay that allocates a page from the end of the file also
    replaces it: when a transaction is done, every page above the old high-water mark
    is dirty.  The redo pass relies on it, since the file is only as long as the last
    page that the log has an image of. *)

From S2P Require Import Prelude Wp Key Core Superblock Format FormatLaws Overlay Tree TreeValue.

Module OverlayPages.
Import Core Overlay.

Section pages.
Context {B : Type} {CB : CommittedStore B}.
Implicit Type o : Overlay B.
Context (base : PageId).

(** Every page above [base] is dirty or still to be written. *)
Definition covers (P : gset PageId) o : Prop :=
  base ≤ high_water_page_id o ∧ ∀ i, base < i ≤ high_water_page_id o → i ∈ dirty o ∪ P.

(** From [P] to [Q a] when [m] returns [a]. *)
Definition owes {A} (P : gset PageId) (m : St (Overlay B) Error A) (Q : A → gset PageId) : Prop :=
  ∀ o, covers P o → match m o with (Ok a, o') => covers (Q a) o' | _ => True end.
Abbreviation even m := (∀ P : gset PageId, owes P m (λ _, P)).

Lemma covers_mono P Q o : P ⊆ Q → covers P o → covers Q o.
Proof. intros HP [H1 H2]. split; [done|]. intros i Hi. specialize (H2 i Hi). set_solver. Qed.

Lemma owes_weaken {A} (P P' : gset PageId) (m : St (Overlay B) Error A) (Q Q' : A → gset PageId) :
  P' ⊆ P → (∀ a, Q a ⊆ Q' a) → owes P m Q → owes P' m Q'.
Proof.
  intros HP HQ Hm o Ho. specialize (Hm o (covers_mono _ _ _ HP Ho)). destruct (m o) as [[a| |] o']; [|done..].
  eapply covers_mono; [apply HQ|done].
Qed.

Lemma owes_bind {A A'} (P : gset PageId) (m : St (Overlay B) Error A) (f : A → St (Overlay B) Error A')
    (R : A → gset PageId) (Q : A' → gset PageId) :
  owes P m R → (∀ a, owes (R a) (f a) Q) → owes P (mbind f m) Q.
Proof.
  intros Hm Hf o Ho. specialize (Hm o Ho). unfold mbind, St_bind. destruct (m o) as [[a| |] o']; [|done..]. by apply Hf.
Qed.

Lemma even_bind {A A'} (m : St (Overlay B) Error A) (f : A → St (Overlay B) Error A') :
  even m → (∀ a, even (f a)) → even (mbind f m).
Proof. intros Hm Hf P. eapply owes_bind; [apply Hm|]. intros a. apply Hf. Qed.

Lemma even_ret {A} (a : A) : even (mret a).
Proof. by intros P o. Qed.
Lemma even_lift {A} (r : Result Error A) : even (lift_r r).
Proof. intros P o Ho. unfold lift_r. by destruct r. Qed.
Lemma even_throw {A} e : even (throw (A:=A) e).
Proof. by intros P o. Qed.
Lemma even_fail_when b e : even (fail_when b e).
Proof. intros P. apply even_lift. Qed.
Lemma even_get : even get_st.
Proof. by intros P o. Qed.
Lemma even_for_each {A} (body : A → St (Overlay B) Error unit) l : (∀ x, even (body x)) → even (for_each body l).
Proof. intros Hb. induction l; simpl; [apply even_ret|]. by apply even_bind. Qed.
Lemma even_modify (f : Overlay B → Overlay B) :
  (∀ o, high_water_page_id (f o) = high_water_page_id o ∧ dirty o ⊆ dirty (f o)) → even (modify_st f).
Proof.
  intros Hf P o [H1 H2]. simpl. destruct (Hf o) as [E1 E2]. unfold covers. rewrite E1. split; [done|].
  intros i Hi. specialize (H2 i Hi). set_solver.
Qed.

Create HintDb even.
#[local] Hint Resolve even_ret even_lift even_throw even_fail_when even_get : even.

Ltac even_step :=
  lazymatch goal with
  | |- ∀ P, owes P (mbind _ _) _ => apply even_bind; [|intros ?]
  | |- ∀ P, owes P (for_each _ _) _ => apply even_for_each; intros ?
  | |- ∀ P, owes P (modify_st _) _ => apply even_modify; intros ?; split; [done|set_solver]
  | |- ∀ P, owes P (let '_ := ?x in _) _ => destruct x
  | |- ∀ P, owes P (match ?x with _ => _ end) _ => destruct x
  | |- ∀ P, owes P (if ?x then _ else _) _ => destruct x
  | |- _ => solve [eauto with even]
  end.
Ltac even := try match goal with |- owes ?P _ _ => is_var P; revert P end; repeat even_step.

Lemma even_page id : even (page id).
Proof.
  intros P o Ho. unfold page, check_page_id, mbind, St_bind, get_st, fail_when, lift_r, fail_if, modify_st, zoom.
  destruct (_ || _); [done|]. destruct (pages o !! id); [done|].
  destruct (cache_get id (store o)) as [[q|] b]; [done|]. cbn. by destruct (read_page_from_file id b) as [[q| |] b'].
Qed.
#[local] Hint Resolve even_page : even.
Lemma even_leaf id : even (leaf id).
Proof. unfold leaf. even. Qed.
Lemma even_internal id : even (internal id).
Proof. unfold internal. even. Qed.
#[local] Hint Resolve even_leaf even_internal : even.

(** Writing a page settles it, allocating one makes it owed. *)
Lemma owes_replace id p (P : gset PageId) : owes P (replace_page id p) (λ _, P ∖ {[id]}).
Proof.
  intros o [H1 H2]. simpl. split; [done|]. intros i Hi. specialize (H2 i Hi). simpl.
  destruct (decide (i = id)); set_solver.
Qed.
Lemma even_replace id p : even (replace_page id p).
Proof. intros P. apply (owes_weaken P _ _ (λ _, P ∖ {[id]})); [done|set_solver|apply owes_replace]. Qed.
#[local] Hint Resolve even_replace : even.

Lemma owes_allocate (P : gset PageId) : owes P allocate_page (λ id, {[id]} ∪ P).
Proof.
  intros o Ho. unfold allocate_page, mbind, St_bind, get_st.
  destruct (free_list_head o) as [id|].
  - pose proof (even_page id P o Ho) as Hp. destruct (page id o) as [[p| |] o']; [|done..].
    destruct p; try done. unfold modify_st, mret, St_ret. eapply covers_mono; [apply union_subseteq_r|exact Hp].
  - unfold checked_add. destruct (_ <=? U64_MAX); [|done]. unfold modify_st, mret, St_ret. destruct Ho as [H1 H2].
    split; simpl; [lia|]. intros i Hi. destruct (decide (i = high_water_page_id o + 1)) as [->|]; [set_solver|].
    specialize (H2 i ltac:(lia)). set_solver.
Qed.

(** Allocating, then writing among others that page. *)
Lemma allocated_written {A} (m : PageId → St (Overlay B) Error A) :
  (∀ id (P : gset PageId), owes ({[id]} ∪ P) (m id) (λ _, P)) → even (mbind m allocate_page).
Proof. intros Hm P. eapply owes_bind; [apply owes_allocate|]. intros id. apply Hm. Qed.

Lemma written_then {A} id p (m : St (Overlay B) Error A) (P : gset PageId) :
  even m → owes ({[id]} ∪ P) (replace_page id p;; m) (λ _, P).
Proof.
  intros Hm. eapply owes_bind; [apply owes_replace|]. intros []. apply (owes_weaken P _ _ (λ _, P)); [set_solver|done|apply Hm].
Qed.

Lemma even_free_page id r : even (free_page id r).
Proof. unfold free_page. even. Qed.
Lemma even_revision : even allocate_revision.
Proof. unfold allocate_revision. even. Qed.
#[local] Hint Resolve even_free_page even_revision : even.

Lemma even_find_leaf k : even (find_leaf k).
Proof.
  unfold find_leaf. even_step; [even|].
  assert (∀ fuel id route visited, even (find_leaf_loop fuel k id route visited)) as Hl; [|intros P; apply Hl].
  induction fuel as [|fuel IH]; intros; cbn [find_leaf_loop]; even.
Qed.
#[local] Hint Resolve even_find_leaf : even.

Lemma owes_allocate_pages n (P : gset PageId) o :
  covers P o →
  match allocate_pages n o with (Ok ids, o') => covers (list_to_set ids ∪ P) o' ∧ length ids = n | _ => True end.
Proof.
  revert P o. induction n as [|n IH]; intros P o Ho; cbn [allocate_pages].
  - simpl. split; [|done]. eapply covers_mono; [|exact Ho]. set_solver.
  - unfold mbind, St_bind. pose proof (owes_allocate P o Ho) as Ha. destruct (allocate_page o) as [[id| |] o1]; [|done..].
    specialize (IH _ _ Ha). destruct (allocate_pages n o1) as [[ids| |] o2]; [|done..]. destruct IH as [IH Hl].
    simpl. split; [|by rewrite Hl]. eapply covers_mono; [|exact IH]. set_solver.
Qed.

Lemma owes_write_chunks lsn t ids cs (P : gset PageId) :
  length ids = length cs → owes (list_to_set ids ∪ P) (write_chunks lsn t ids cs) (λ _, P).
Proof.
  revert ids. induction cs as [|c cs IH]; intros [|id ids] Hl; try done; cbn [write_chunks].
  - apply (owes_weaken P _ _ (λ _, P)); [set_solver|done|apply even_ret].
  - eapply owes_bind; [apply owes_replace|]. intros []. cbv beta.
    apply (owes_weaken (list_to_set ids ∪ P) _ _ (λ _, P)); [simpl; set_solver|done|]. apply IH. by injection Hl.
Qed.

Lemma even_make_value v lsn : even (make_value v lsn).
Proof.
  unfold make_value. even_step; [even|]. even_step; [even|]. even_step; [even|]. intros P o Ho. unfold mbind, St_bind.
  set (n := Z.to_nat _). pose proof (owes_allocate_pages n P o Ho) as Ha.
  destruct (allocate_pages n o) as [[ids| |] o1]; [|done..]. destruct Ha as [Ha Hl].
  assert (length ids = length (chunks Format.OVERFLOW_DATA_SIZE v)) as Hlen.
  { pose proof (TreeValue.chunks_length Format.OVERFLOW_DATA_SIZE v ltac:(done)) as Hc. unfold len at 1 in Hc.
    rewrite Hl. unfold n. rewrite <-Hc. by rewrite Nat2Z.id. }
  pose proof (owes_write_chunks lsn (len v) ids _ P Hlen o1 Ha) as Hw.
  destruct (write_chunks _ _ _ _ o1) as [[[]| |] o2]; [|done..]. unfold lift_r, mret, St_ret. by destruct (index ids 0).
Qed.
Lemma even_free_value_loop fuel n lsn id visited c t : even (free_value_loop fuel n lsn id visited c t).
Proof. revert id visited c t. induction fuel; intros [|]; intros; cbn [free_value_loop]; even. Qed.
#[local] Hint Resolve even_make_value even_free_value_loop : even.
Lemma even_free_value v lsn : even (free_value v lsn).
Proof. unfold free_value. even. Qed.
#[local] Hint Resolve even_free_value : even.

Lemma even_insert_parents route sep right lsn : even (insert_parents route sep right lsn).
Proof.
  revert sep right. induction route as [|parent route IH]; intros sep right; cbn [insert_parents].
  - apply allocated_written. intros id P. eapply owes_bind; [apply even_get|]. intros o. apply written_then. even.
  - even_step; [even|]. cbv zeta. even_step; [even|]. do 2 (even_step; [even|]). apply allocated_written. intros id P.
    do 2 (eapply owes_bind; [apply even_fail_when || apply even_replace|]; intros []). apply written_then. apply IH.
Qed.
#[local] Hint Resolve even_insert_parents : even.
Lemma even_insert_leaf id route lf lsn : even (insert_leaf_entries id route lf lsn).
Proof.
  unfold insert_leaf_entries, insert_parent_separator. cbv zeta. even_step; [even|]. even_step; [even|].
  apply allocated_written. intros r P. eapply owes_bind; [apply even_lift|]. intros sep.
  eapply owes_bind; [apply even_replace|]. intros []. apply written_then. even.
Qed.
#[local] Hint Resolve even_insert_leaf : even.
Lemma even_put k v : even (put k v).
Proof. unfold put, validate_value. even. Qed.
Lemma even_delete k : even (delete k).
Proof. unfold delete. even. Qed.
#[local] Hint Resolve even_put even_delete : even.
Lemma even_mutations ms : even (for_each apply_mutation ms).
Proof. even_step. unfold apply_mutation. even. Qed.

(** The mutations of a transaction, from a clean overlay. *)
Lemma mutations_cover ms o o' :
  for_each apply_mutation ms o = (Ok tt, o') → high_water_page_id o = base →
  base ≤ high_water_page_id o' ∧ ∀ i, base < i ≤ high_water_page_id o' → i ∈ dirty o'.
Proof.
  intros Hm Hb. pose proof (even_mutations ms ∅ o) as He. rewrite Hm in He. destruct He as [H1 H2].
  - split; [lia|]. intros i Hi. lia.
  - split; [done|]. intros i Hi. specialize (H2 i Hi). set_solver.
Qed.
End pages.
End OverlayPages.
