(* ===== verification/TreeOps.v ===== *)
(** * Point operations refine the abstract database

    Under the tree invariant, [put], [delete], [get] and [observe] behave like the
    same operations on a finite map from encoded keys to revisions and optional
    values. *)

From S2P Require Import Prelude Wp Key Core Superblock Format FormatLaws Overlay Tree TreeSearch SplitRoom TreeInsert TreeValue.

Module TreeOps.
Import Core Overlay Tree TreeSearch SplitRoom TreeInsert TreeValue.

(** ** Searching a sorted leaf *)

Lemma partition_point_spec {A} (p : A → bool) l :
  ∃ l1 l2, l = l1 ++ l2 ∧ length l1 = partition_point p l ∧ Forall (λ x, p x = true) l1 ∧
    (∀ x l', l2 = x :: l' → p x = false).
Proof.
  induction l as [|x l (l1 & l2 & -> & Hl & HF & Hx)]; simpl.
  - exists [], []. done.
  - destruct (p x) eqn:Hp.
    + exists (x :: l1), l2. simpl. rewrite Hl. split_and!; try done. by constructor.
    + exists [], (x :: l1 ++ l2). split_and!; try done. by intros ? ? [= <- _].
Qed.

Definition before (k : bytes) (es : list LeafEntry) : Prop := Forall (λ x, bytes_lt x k) (keys es).
Definition after (k : bytes) (es : list LeafEntry) : Prop := Forall (λ x, bytes_lt k x) (keys es).

Lemma binary_search_spec es k :
  StronglySorted bytes_lt (keys es) →
  match binary_search es k with
  | inl i => ∃ l e l', es = l ++ e :: l' ∧ i = length l ∧ Format.key e = k ∧ before k l ∧ after k l'
  | inr i => ∃ l l', es = l ++ l' ∧ i = length l ∧ before k l ∧ after k l'
  end.
Proof.
  intros Hs. unfold binary_search.
  destruct (partition_point_spec (λ e, bytes_ltb (Format.key e) k) es) as (l & l' & -> & <- & HF & Hx).
  assert (Hb : before k l).
  { unfold before. rewrite Forall_fmap. eapply Forall_impl; [done|]. intros e He. by apply bytes_ltb_spec. }
  rewrite fmap_app in Hs. apply StronglySorted_app_1_r in Hs.
  rewrite lookup_app_r, Nat.sub_diag by lia. destruct l' as [|e l']; simpl.
  { exists l, []. split_and!; try done. by constructor. }
  specialize (Hx e l' eq_refl). apply bytes_ltb_false in Hx.
  rewrite fmap_cons, StronglySorted_cons in Hs. destruct Hs as [Hgt _].
  destruct (bytes_eqb (Format.key e) k) eqn:E.
  - apply bytes_eqb_spec in E as <-. exists l, e, l'. done.
  - exists l, (e :: l'). split_and!; try done. unfold after. rewrite fmap_cons.
    assert (bytes_lt k (Format.key e)) as Hlt.
    { apply not_lt_le in Hx as [?|Heq]; [done|]. rewrite Heq, (proj2 (bytes_eqb_spec _ _)) in E; done. }
    constructor; [done|]. eapply Forall_impl; [done|]. intros x Hxx. by trans (Format.key e).
Qed.

Lemma insert_middle {A} (l : list A) e l' x : <[length l := x]> (l ++ e :: l') = l ++ x :: l'.
Proof. induction l; simpl; [done|]. by f_equal. Qed.
Lemma vec_insert_middle {A} (l l' : list A) x : vec_insert (length l) x (l ++ l') = l ++ x :: l'.
Proof. unfold vec_insert. by rewrite take_app_length, drop_app_length. Qed.

(** The entries around a key: at most one of them has it. *)
Lemma find_entry_around l om l' k k' :
  before k l → after k l' → Forall (λ e, Format.key e = k) om →
  k' ≠ k → find_entry (l ++ om ++ l') k' = find_entry (l ++ l') k'.
Proof.
  intros Hb Ha Hom Hk. rewrite !find_entry_app. destruct (find_entry l k'); [done|].
  rewrite find_entry_None; [done|]. intros (e & -> & He)%list_elem_of_fmap.
  rewrite Forall_forall in Hom. by apply Hk, Hom.
Qed.

Lemma find_entry_at l e l' : before (Format.key e) l → find_entry (l ++ e :: l') (Format.key e) = Some e.
Proof.
  intros Hb. rewrite find_entry_app, find_entry_None, find_entry_cons, decide_True; [done|done|].
  unfold before in Hb. rewrite Forall_forall in Hb. intros Hin. by apply (lt_irrefl (Format.key e)), Hb.
Qed.

Lemma find_entry_absent l l' k : before k l → after k l' → find_entry (l ++ l') k = None.
Proof.
  intros Hb Ha. apply find_entry_None. rewrite fmap_app, elem_of_app. unfold before, after in *.
  rewrite Forall_forall in Hb, Ha. intros [H|H]; [by apply (lt_irrefl k), Hb|by apply (lt_irrefl k), Ha].
Qed.

(** ** Swapping the labels of a pending and a committed value *)

Definition swap (k : bytes) (r : role) : role :=
  match r with
  | RValue None => RValue (Some k)
  | RValue (Some k') => if decide (k' = k) then RValue None else r
  | _ => r
  end.
Definition relabel (k : bytes) (G : labels) : labels := swap k <$> G.

Lemma relabel_tree k G id h lo hi : relabel k G !! id = Some (RTree h lo hi) ↔ G !! id = Some (RTree h lo hi).
Proof.
  unfold relabel. rewrite lookup_fmap, fmap_Some. split; [|intros ->; eexists; done].
  intros ([| [k'|]|] & -> & E); simpl in E; try done; [congruence|]. by case_decide.
Qed.
Lemma relabel_free k G id : relabel k G !! id = Some RFree ↔ G !! id = Some RFree.
Proof.
  unfold relabel. rewrite lookup_fmap, fmap_Some. split; [|intros ->; eexists; done].
  intros ([| [k'|]|] & -> & E); simpl in E; try done. by case_decide.
Qed.
Lemma relabel_pending k G id : G !! id = Some (RValue None) → relabel k G !! id = Some (RValue (Some k)).
Proof. intros H. unfold relabel. by rewrite lookup_fmap, H. Qed.
Lemma relabel_owned k G id : G !! id = Some (RValue (Some k)) → relabel k G !! id = Some (RValue None).
Proof. intros H. unfold relabel. rewrite lookup_fmap, H. simpl. by rewrite decide_True. Qed.
Lemma relabel_other k k' G id :
  k' ≠ k → G !! id = Some (RValue (Some k')) → relabel k G !! id = Some (RValue (Some k')).
Proof. intros Hk H. unfold relabel. rewrite lookup_fmap, H. simpl. by rewrite decide_False. Qed.

(** A leaf still fits when one of its entries becomes a tombstone. *)
Lemma leaf_fits_keys es : Format.leaf_fits es = true →
  Format.strictly_ordered (Format.key <$> es) = true ∧ Forall (λ e, is_ok (Key.decode (Format.key e)) = true) es.
Proof.
  unfold Format.leaf_fits. destruct (Format.encode_leaf None es) as [b| |] eqn:E; [|done..]. intros _.
  apply FormatLaws.encode_leaf_Ok in E as (Hs & recs & HF & _). split; [done|].
  apply Forall_forall. intros e [i Hi]%list_elem_of_lookup. eapply Forall2_lookup_l in HF as (r & _ & Hr); [|done].
  by apply FormatLaws.encode_leaf_record_Ok in Hr as (_ & ? & _).
Qed.

Lemma leaf_space_app l l' :
  FormatLaws.leaf_space (l ++ l') = FormatLaws.leaf_space l + FormatLaws.leaf_space l' - Format.LEAF_HEADER_SIZE.
Proof.
  induction l as [|e l IH]; simpl; [lia|]. fold (FormatLaws.leaf_space (l ++ l')). fold (FormatLaws.leaf_space l). lia.
Qed.

Lemma tombstone_fits l e l' entry :
  Format.leaf_fits (l ++ e :: l') = true → Format.key entry = Format.key e → Format.value entry = None →
  Format.leaf_fits (l ++ entry :: l') = true.
Proof.
  intros Hf Hk Hv. destruct (leaf_fits_keys _ Hf) as [Hs Hd]. rewrite FormatLaws.leaf_fits_iff in Hf by done.
  rewrite fmap_app, fmap_cons, <-Hk, <-fmap_cons, <-fmap_app in Hs.
  rewrite FormatLaws.leaf_fits_iff; [|done|]; last first.
  { rewrite Forall_app, Forall_cons in Hd |- *. by rewrite Hk. } apply bool_decide_eq_true in Hf. apply bool_decide_eq_true.
  rewrite leaf_space_app in *. simpl in *. fold (FormatLaws.leaf_space l') in *.
  unfold FormatLaws.leaf_record_size in *. rewrite Hk. unfold FormatLaws.leaf_inline at 1. rewrite Hv.
  pose proof (len_nonneg (FormatLaws.leaf_inline e)). rewrite len_nil. lia.
Qed.

(** A leaf that had room takes one more entry with less than its weight to spare. *)
Lemma replaced_load l om l' entry :
  Format.leaf_fits (l ++ om ++ l') = true →
  ∃ e, e ∈ l ++ entry :: l' ∧ load leaf_weight (l ++ entry :: l') ≤ 2 * HALF_PAGE + leaf_weight e.
Proof.
  intros Hf. destruct (leaf_fits_keys _ Hf) as [Hs Hd]. rewrite FormatLaws.leaf_fits_iff in Hf by done.
  apply bool_decide_eq_true in Hf. rewrite leaf_space_load in Hf. change Format.BODY_SIZE with 4064 in Hf.
  change Format.LEAF_HEADER_SIZE with 32 in Hf. exists entry. split; [apply elem_of_app; right; left|].
  rewrite !load_app in *. cbn [load foldr]. fold (load leaf_weight l').
  assert (0 ≤ load leaf_weight om); [|unfold HALF_PAGE; lia]. clear. induction om as [|e om IH]; [done|].
  cbn [load foldr]. fold (load leaf_weight om). assert (0 ≤ leaf_weight e); [|lia].
  unfold leaf_weight, FormatLaws.leaf_record_size, Format.SLOT_SIZE, Format.LEAF_RECORD_HEADER_SIZE. pose_len_nonneg. lia.
Qed.

Lemma entries_replace lsn l om l' entry :
  leaf_entries_ok lsn (l ++ om ++ l') → FormatLaws.wf_leaf_entry entry →
  0 < Format.revision entry ≤ lsn → small_inline (Format.value entry) →
  leaf_entries_ok lsn (l ++ entry :: l').
Proof. unfold leaf_entries_ok. rewrite !Forall_app, !Forall_cons. naive_solver. Qed.

(** No revision of the database is newer than [r]. *)
Definition revisions_le (db : database) (r : Revision) : Prop :=
  ∀ k x ov, db !! k = Some (x, ov) → x ≤ r.

Lemma leaf_entries_le V G db lo hi next lsn es r :
  leaf_ok V G db lo hi next es → storable (Format.Leaf lsn next es) → revisions_le db r →
  Superblock.wf_ref next ∧ leaf_entries_ok r es ∧ Format.leaf_fits es = true.
Proof.
  intros HL (Hok & (_ & Hn & Hes) & Hst) Hr. split_and!; [done| |by rewrite (leaf_fits_next next)].
  apply Forall_and. split; [done|]. apply Forall_forall. intros e He. simpl in Hst. rewrite Forall_forall in Hst.
  destruct (leaf_entry_in _ _ _ _ _ _ _ _ HL He) as (ov & Hdb & _). destruct (Hst _ He) as [[? _] ?].
  split; [|done]. split; [done|by eapply Hr].
Qed.

Section ops.
Context {B : Type} {CB : CommittedStore B} {SP : CommittedStoreSpec B}.
Implicit Types (o : Overlay B) (G : labels).

(** The rest of the tree when the leaf of [k] is about to be rewritten. *)
Lemma inv_relabel_key o G H fl db c lo hi k x :
  inv o ∅ G G H fl db → G !! c = Some (RTree 0 lo hi) → in_bounds lo hi k →
  inv o {[c]} (relabel k G) (relabel k G) H fl (<[k := x]> db).
Proof.
  intros [I1 I2 I3 I4 I5 I6 I7 I8 I9 I10 I11 I12 I13] Hc Hk. split; try done.
  - intros id r. unfold relabel. rewrite lookup_fmap, fmap_Some. intros (r' & Hr & _). by eapply I2.
  - by apply relabel_tree.
  - intros id h a b. rewrite relabel_tree. apply I5.
  - destruct I6 as [L1 L2]. split.
    + intros id h a b. rewrite relabel_tree. apply L1.
    + intros id id' h a b a' b' k'. rewrite !relabel_tree. apply L2.
  - intros id r Hid HD. destruct r as [h a b| |]; [|done..]. apply relabel_tree in Hid.
    eapply page_ok_frame; [done|..|apply I7; [exact Hid|set_solver]].
    + intros n b' hi' Hn. exists hi'. by apply relabel_tree.
    + intros h' a' b' lm es _. apply children_ok_mono. intros c' x' y'. by rewrite relabel_tree.
    + intros a' b' k' [= -> -> ->] Hk'. assert (k' ≠ k) as Hne.
      { intros ->. assert (id = c); [|set_solver]. by eapply (lab_disjoint _ I6). }
      split; [by rewrite lookup_insert_ne|]. intros i Hi. split; [|done]. by apply relabel_other.
  - intros id Hid. by apply relabel_free, I10.
  - intros id h a b Hid. rewrite relabel_tree in Hid. destruct (I13 _ _ _ _ Hid) as [?|[y Hy]]; [by left|right].
    destruct (decide (k = a)) as [->|]; [by rewrite lookup_insert_eq|]. rewrite lookup_insert_ne by done. eauto.
Qed.

(** The rewritten leaf. *)
Lemma leaf_ok_put V G db lo hi next l om l' k e ov :
  leaf_ok V G db lo hi next (l ++ om ++ l') → in_bounds lo hi k → canonical k →
  before k l → after k l' → Forall (λ e, Format.key e = k) om →
  Format.key e = k → value_at V G None (Format.value e) ov →
  leaf_ok V (relabel k G) (<[k := (Format.revision e, ov)]> db) lo hi next (l ++ e :: l').
Proof.
  intros [L1 L2 L3 L4] Hk Hcan Hb Ha Hom He Hv.
  rewrite !fmap_app, !StronglySorted_app in L1. destruct L1 as (Hlt & Hs1 & _ & _ & Hs2).
  rewrite !fmap_app, !Forall_app in L2. destruct L2 as (HF1 & _ & HF2). unfold before, after in *.
  rewrite Forall_forall in Hb, Ha. split.
  - rewrite fmap_app, fmap_cons, StronglySorted_app, StronglySorted_cons, He. split_and!; try done.
    + intros x y Hx [->|Hy]%elem_of_cons; [by apply Hb|]. trans k; [by apply Hb|by apply Ha].
    + by apply Forall_forall.
  - rewrite fmap_app, fmap_cons, Forall_app, Forall_cons, He. done.
  - destruct next as [n|]; [|done]. destruct L3 as (b & hi' & -> & Hn). exists b, hi'.
    split; [done|]. by apply relabel_tree.
  - intros k' Hk'. destruct (decide (k' = k)) as [->|Hne].
    + rewrite lookup_insert_eq, <-He, find_entry_at; [|by unfold before; rewrite He, Forall_forall].
      simpl. split; [done|]. rewrite He. eapply value_at_frame; [|exact Hv]. intros id Hid.
      split; [by apply relabel_pending|done].
    + rewrite lookup_insert_ne by done. specialize (L4 _ Hk').
      rewrite (find_entry_around l om l' k k') in L4 by (try done; by apply Forall_forall).
      change (e :: l') with ([e] ++ l').
      rewrite (find_entry_around l [e] l' k k') by (try done; try (by apply Forall_forall); by repeat constructor).
      eapply denotes_frame; [|exact L4]. intros id Hid. split; [by apply relabel_other|done].
Qed.

(** ** Writes *)

(** The revision the next write of the overlay gets. *)
Definition write_revision o : Revision :=
  match last_lsn o with Some l => Revision_from l | None => next_revision o end.

Definition valid_key (k : DocumentKey) : Prop := Key.wf k ∧ len (Key.encode k) ≤ MAX_ENCODED_KEY_SIZE.
Definition valid_value o (v : bytes) : Prop :=
  len v ≤ max_value_size (sh_limits (header (store o))) ∧ len v ≤ Format.MAX_VALUE_SIZE.
(** A bound on the page identifiers in use after [n] more writes to a tree of
    height [H]. *)
Definition reach o (H n : nat) : Z :=
  high_water_page_id o + Z.of_nat n * (Format.MAX_OVERFLOW_PAGES + Z.of_nat H + Z.of_nat n + 2).
Definition limits_ok o : Prop := 0 ≤ inline_value_limit (sh_limits (header (store o))).

(** What a successful write establishes. *)
Definition written o o' (H : nat) (k : DocumentKey) (r : Revision) (ov : option bytes) (db : database) : Prop :=
  r = write_revision o ∧ same_meta (set_last_lsn (Some r) o) o' ∧
  ∃ G' H' fl', inv o' ∅ G' G' H' fl' (<[Key.encode k := (r, ov)]> db) ∧
    ∀ n, reach o' H' n ≤ reach o H (S n).

Lemma reach_step o o' H H' n :
  (H' ≤ S H)%nat →
  high_water_page_id o' ≤ high_water_page_id o + Format.MAX_OVERFLOW_PAGES + Z.of_nat H + 2 →
  reach o' H' n ≤ reach o H (S n).
Proof. unfold reach. assert (0 ≤ Format.MAX_OVERFLOW_PAGES) by done. intros. nia. Qed.

Lemma reach_once o H :
  reach o H 1 < U64_MAX → high_water_page_id o + Format.MAX_OVERFLOW_PAGES + Z.of_nat H + 3 < U64_MAX.
Proof. unfold reach. lia. Qed.

Lemma reach_mono o H n m : (n ≤ m)%nat → reach o H n ≤ reach o H m.
Proof. unfold reach. assert (0 ≤ Format.MAX_OVERFLOW_PAGES) by done. intros. nia. Qed.

Lemma validate_key_ok k : valid_key k → validate_encoded_key (Key.encode k) = Ok tt.
Proof. intros [_ H]. unfold validate_encoded_key. by rewrite (proj2 (Z.ltb_ge _ _)). Qed.

Lemma canonical_encode k : valid_key k → canonical (Key.encode k).
Proof. intros [H _]. by exists k. Qed.

Lemma inv_set_last_lsn o D G Gc H fl db l : inv o D G Gc H fl db → inv (set_last_lsn l o) D G Gc H fl db.
Proof. intros Hi. eapply inv_view; eauto; apply Hi. Qed.

(** Replacing the entry of [k] and giving the old value back. *)
Lemma overwrite_spec o G H fl db c route rr lo hi lsn next l e l' k entry ov :
  inv o ∅ G G H fl db → G !! c = Some (RTree 0 lo hi) → in_bounds lo hi k → canonical k →
  reverse route = c :: rr → path G k rr 0 H →
  view o c = Some (Format.Leaf lsn next (l ++ e :: l')) →
  before k l → after k l' → Format.key e = k → Format.key entry = k →
  value_at (view o) G None (Format.value entry) ov →
  ∃ G2 oldv, inv o {[c]} G2 G2 H fl (<[k := (Format.revision entry, ov)]> db) ∧
    leaf_ok (view o) G2 (<[k := (Format.revision entry, ov)]> db) lo hi next (l ++ entry :: l') ∧
    path G2 k rr 0 H ∧ G2 !! c = Some (RTree 0 lo hi) ∧ value_at (view o) G2 None (Format.value e) oldv.
Proof.
  intros Hi Hc Hk Hcan Hr Hp Hv Hb Ha He Hent Hval.
  pose proof (inv_pages _ _ _ _ _ _ _ Hi _ _ Hc ltac:(set_solver)) as (lsn' & next' & es' & Hv' & Hst & HL).
  rewrite Hv in Hv'. injection Hv' as <- <- <-.
  assert (∃ oldv, value_at (view o) G (Some k) (Format.value e) oldv) as [oldv Hold].
  { pose proof (leaf_contents _ _ _ _ _ _ _ HL k Hk) as HD. rewrite <-He, find_entry_at in HD by (by rewrite He).
    simpl in HD. rewrite He in HD. destruct (db !! k) as [[r x]|]; [|done]. exists x. apply HD. }
  exists (relabel k G), oldv. split_and!.
  - by eapply inv_relabel_key.
  - eapply (leaf_ok_put _ _ _ _ _ _ _ [e]); eauto.
  - eapply path_mono; [|done]. intros. by apply relabel_tree.
  - by apply relabel_tree.
  - eapply value_at_frame; [|exact Hold]. intros id Hid. split; [by apply relabel_owned|done].
Qed.

(** Inserting an entry for a key that has none. *)
Lemma fresh_entry_spec o G H fl db c route rr lo hi lsn next l l' k entry ov :
  inv o ∅ G G H fl db → G !! c = Some (RTree 0 lo hi) → in_bounds lo hi k → canonical k →
  reverse route = c :: rr → path G k rr 0 H →
  view o c = Some (Format.Leaf lsn next (l ++ l')) →
  before k l → after k l' → Format.key entry = k →
  value_at (view o) G None (Format.value entry) ov → FormatLaws.wf_leaf_entry entry →
  0 < Format.revision entry → small_inline (Format.value entry) →
  high_water_page_id o + Z.of_nat H + 2 < U64_MAX → revisions_le db (Format.revision entry) →
  wp (insert_leaf_entries c route (mkLeafPage next (l ++ entry :: l')) (Format.revision entry))
    (λ _ o', ∃ G' H' fl', inv o' ∅ G' G' H' fl' (<[k := (Format.revision entry, ov)]> db) ∧
       (H' ≤ S H)%nat ∧ high_water_page_id o' ≤ high_water_page_id o + Z.of_nat H + 2 ∧ same_meta o o')
    (λ e _, rejected e ∧ crowded (<[k := (Format.revision entry, ov)]> db)) o.
Proof.
  intros Hi Hc Hk Hcan Hr Hp Hv Hb Ha Hent Hval Hwf Hpos Hsm Hroom Hrevs. pose proof (path_length _ _ _ _ _ Hp) as Hlen.
  pose proof (inv_pages _ _ _ _ _ _ _ Hi _ _ Hc ltac:(set_solver)) as (lsn' & next' & es' & Hv' & Hst & HL).
  rewrite Hv in Hv'. injection Hv' as <- <- <-.
  destruct (leaf_entries_le _ _ _ _ _ _ _ _ _ HL Hst Hrevs) as (Hn & Hes & Hfit).
  eapply wp_mono; [eapply (insert_leaf_entries_spec o (relabel k G) H fl (<[k := (Format.revision entry, ov)]> db))| |done].
  - eapply inv_relabel_key; eauto.
  - by apply relabel_tree.
  - done.
  - eapply path_mono; [|done]. intros. by apply relabel_tree.
  - done.
  - eapply (leaf_ok_put _ _ _ _ _ _ _ []); eauto.
  - apply Hwf.
  - done.
  - by eapply (entries_replace _ _ []); [..|lia|].
  - by eapply (replaced_load _ []).
  - unfold len. lia.
  - intros _ o' (G' & H' & fl' & Hi' & _ & _ & Hhw & HH & Hm). exists G', H', fl'. unfold len in Hhw.
    split_and!; [done|done|lia|done].
Qed.

Lemma put_spec o G H fl db k v :
  inv o ∅ G G H fl db → valid_key k → valid_value o v → limits_ok o → u64 (write_revision o) → 0 < write_revision o → reach o H 1 < U64_MAX →
  revisions_le db (write_revision o) →
  wp (put k v) (λ r o', written o o' H k r (Some v) db)
    (λ e _, rejected e ∧ crowded (<[Key.encode k := (write_revision o, Some v)]> db)) o.
Proof.
  intros Hi Hkey [Hv1 Hv2] Hlim Hrev Hrpos Hroom Hrevs. apply reach_once in Hroom. unfold put. wp_step. unfold validate_value. wp_steps.
  apply wp_fail_when.
  { intros Hb. apply orb_true_iff in Hb as [?%Z.ltb_lt|?%Z.ltb_lt]; lia. }
  intros _. cbv zeta. wp_step. eapply wp_lift_ok; [by apply validate_key_ok|].
  wp_step. unfold allocate_revision. wp_steps. fold (write_revision o). set (r := write_revision o).
  set (o0 := set_last_lsn (Some r) o).
  apply wp_unbind. eapply find_and_read_leaf_spec; [by apply inv_set_last_lsn|].
  intros o1 c route rr lo hi lsn next es S1 Hi1 Hroute Hp Hc Hk Hview Hst HL. cbn [leaf_entries leaf_next].
  destruct (leaf_entries_le _ _ _ _ _ _ _ _ _ HL Hst Hrevs) as (Hn & Hes & Hfit). pose proof (path_length _ _ _ _ _ Hp) as Hlen.
  pose proof (sim_high _ _ S1) as Hh1. cbn [high_water_page_id set_last_lsn o0] in Hh1.
  wp_step. eapply wp_mono; [eapply make_value_spec; [exact Hi1|done| |exact Hrev|lia]| |by intros].
  { rewrite (sim_header _ _ S1). exact Hlim. }
  intros vr o2 (G2 & fl2 & Hi2 & Hval & Hwfv & Hsm & [HT _] & Hsame & Hhw2 & Hm2).
  assert (Hm02 : same_meta o0 o2) by (trans o1; [by apply sim_same_meta|done]).
  rewrite <-(Hsame _ _ _ _ Hc) in Hview. apply HT in Hc as Hc2.
  assert (Hp2 : path G2 (Key.encode k) rr 0 H) by (eapply path_mono; [|done]; eauto).
  pose proof (binary_search_spec es (Key.encode k) (leaf_sorted _ _ _ _ _ _ _ HL)) as Hbs.
  set (entry := Format.mkLeafEntry (Key.encode k) r (Some vr)).
  assert (Hwf : FormatLaws.wf_leaf_entry entry) by (by split). wp_step.
  destruct (binary_search es (Key.encode k)) as [i|i].
  - destruct Hbs as (l & e & l' & -> & -> & He & Hb & Ha). wp_step.
    eapply wp_lift_ok; [apply index_lookup; [lia|]; rewrite Nat2Z.id; by apply list_lookup_middle|].
    rewrite insert_middle.
    destruct (overwrite_spec o2 G2 H fl2 db c route rr lo hi lsn next l e l' (Key.encode k) entry (Some v))
      as (G3 & oldv & Hi3 & HL3 & Hp3 & Hc3 & Hold); eauto using canonical_encode.
    wp_step. eapply wp_mono; [eapply insert_leaf_entries_spec; eauto; [by eapply (entries_replace _ _ [e]); [..|simpl; lia|]|by eapply (replaced_load _ [e])|unfold len; lia]| |done].
    intros _ o3 (G4 & H4 & fl4 & Hi4 & Hval4 & Hkeep & Hhw4 & HH4 & Hm4). unfold len in Hhw4.
    eapply wp_mono; [eapply (free_value_spec o3 G4 H4 fl4 _ _ oldv); [done| |exact Hrev]| |by intros].
    { eapply value_at_frame; [|exact Hold]. intros id Hid. split; [by apply Hval4|by eapply Hkeep]. }
    intros _ o4 (G5 & fl5 & Hi5 & _ & Hhw5 & Hm5). apply wp_ret. split; [done|]. split.
    + trans o2; [done|]. by trans o3.
    + exists G5, H4, fl5. split; [done|]. intros n. eapply reach_step; [done|lia].
  - destruct Hbs as (l & l' & -> & -> & Hb & Ha). rewrite vec_insert_middle.
    eapply wp_mono; [eapply (fresh_entry_spec o2 G2 H fl2 db _ _ _ _ _ _ _ _ _ _ entry (Some v)); eauto using canonical_encode; simpl; lia| |done].
    intros _ o3 (G4 & H4 & fl4 & Hi4 & HH4 & Hhw4 & Hm4). apply wp_ret. split; [done|]. split; [by trans o2|].
    exists G4, H4, fl4. split; [done|]. intros n. eapply reach_step; [done|lia].
Qed.

Lemma delete_spec o G H fl db k :
  inv o ∅ G G H fl db → valid_key k → u64 (write_revision o) → 0 < write_revision o → reach o H 1 < U64_MAX →
  revisions_le db (write_revision o) →
  wp (delete k) (λ r o', written o o' H k r None db)
    (λ e _, rejected e ∧ crowded (<[Key.encode k := (write_revision o, None)]> db)) o.
Proof.
  intros Hi Hkey Hrev Hrpos Hroom Hrevs. apply reach_once in Hroom. assert (0 ≤ Format.MAX_OVERFLOW_PAGES) by done. unfold delete. cbv zeta. wp_step. eapply wp_lift_ok; [by apply validate_key_ok|].
  wp_step. unfold allocate_revision. wp_steps. fold (write_revision o). set (r := write_revision o).
  set (o0 := set_last_lsn (Some r) o).
  apply wp_unbind. eapply find_and_read_leaf_spec; [by apply inv_set_last_lsn|].
  intros o1 c route rr lo hi lsn next es S1 Hi1 Hroute Hp Hc Hk Hview Hst HL. cbn [leaf_entries leaf_next].
  destruct (leaf_entries_le _ _ _ _ _ _ _ _ _ HL Hst Hrevs) as (Hn & Hes & Hfit). pose proof (sim_high _ _ S1) as Hh1.
  cbn [high_water_page_id set_last_lsn o0] in Hh1.
  assert (Hm01 : same_meta o0 o1) by (by apply sim_same_meta).
  pose proof (binary_search_spec es (Key.encode k) (leaf_sorted _ _ _ _ _ _ _ HL)) as Hbs.
  set (entry := Format.mkLeafEntry (Key.encode k) r None).
  assert (Hwf : FormatLaws.wf_leaf_entry entry) by (by split). wp_step.
  destruct (binary_search es (Key.encode k)) as [i|i].
  - destruct Hbs as (l & e & l' & -> & -> & He & Hb & Ha). wp_step.
    eapply wp_lift_ok; [apply index_lookup; [lia|]; rewrite Nat2Z.id; by apply list_lookup_middle|].
    rewrite insert_middle.
    destruct (overwrite_spec o1 G H fl db c route rr lo hi lsn next l e l' (Key.encode k) entry None)
      as (G3 & oldv & Hi3 & HL3 & Hp3 & Hc3 & Hold); eauto using canonical_encode.
    { done. }
    wp_step. apply wp_replace.
    assert (Hst' : storable (Format.Leaf r next (l ++ entry :: l'))).
    { apply storable_leaf; [done|done|by eapply (entries_replace _ _ [e]); [..|simpl; lia|]|by eapply tombstone_fits]. }
    eapply wp_mono; [eapply (free_value_spec _ G3 H fl _ _ oldv); [by eapply inv_leaf_fits| |exact Hrev]| |by intros].
    { eapply value_at_frame; [|exact Hold]. intros id Hid. split; [done|].
      apply view_replaced_ne. intros ->. congruence. }
    intros _ o4 (G5 & fl5 & Hi5 & _ & Hhw5 & Hm5). apply wp_ret. split; [done|]. split.
    + trans o1; [done|]. etrans; [|exact Hm5]. apply replaced_meta.
    + exists G5, H, fl5. split; [done|]. intros n. eapply reach_step; [lia|]. rewrite Hhw5. simpl. lia.
  - destruct Hbs as (l & l' & -> & -> & Hb & Ha). rewrite vec_insert_middle.
    eapply wp_mono; [eapply (fresh_entry_spec o1 G H fl db _ _ _ _ _ _ _ _ _ _ entry None); eauto using canonical_encode; simpl; try lia; done| |done].
    intros _ o3 (G4 & H4 & fl4 & Hi4 & HH4 & Hhw4 & Hm4). apply wp_ret. split; [done|]. split; [by trans o1|].
    exists G4, H4, fl4. split; [done|]. intros n. eapply reach_step; [done|lia].
Qed.

(** ** Reads *)

(** The state of a key in the abstract database. *)
Definition state_of (db : database) (k : DocumentKey) : RevisionState :=
  match db !! Key.encode k with
  | Some (r, Some v) => Present v r
  | Some (r, None) => Missing r
  | None => Missing ZERO
  end.

Lemma get_observed_state_spec o G H fl db k :
  inv o ∅ G G H fl db → valid_key k →
  wp (get_observed_state k) (λ s o', s = observed (state_of db k) ∧ sim o o') noerr o.
Proof.
  intros Hi Hkey. unfold get_observed_state. cbv zeta. wp_step. eapply wp_lift_ok; [by apply validate_key_ok|].
  eapply find_and_read_leaf_spec; [done|].
  intros o1 c route rr lo hi lsn next es S1 Hi1 _ _ _ Hk _ _ HL. cbn [leaf_entries].
  apply wp_ret. split; [|done]. unfold state_of.
  pose proof (leaf_contents _ _ _ _ _ _ _ HL _ Hk) as HD.
  destruct (find_entry es (Key.encode k)) as [e|], (db !! Key.encode k) as [[r ov]|]; simpl in HD; try done.
  destruct HD as [<- Hv]. destruct (Format.value e) as [[w|hd tot]|]; simpl in Hv.
  - by subst ov.
  - by destruct Hv as (ids & v & -> & _).
  - by subst ov.
Qed.

(** Errors of the response budget. *)
Definition too_large (e : Error) : Prop := ∃ m, e = ResponseTooLarge m.

Lemma reserve_spec wire memory b :
  wp (reserve wire memory) (λ _ _, True) (λ e b', too_large e ∧ b' = b) b.
Proof.
  unfold reserve. wp_steps. apply wp_lift. destruct (checked_add _ wire); simpl; [|unfold too_large; eauto].
  wp_steps. apply wp_lift. destruct (checked_add _ memory); simpl; [|unfold too_large; eauto].
  wp_steps. apply wp_fail_when; [unfold too_large; eauto|]. intros _. by apply wp_modify.
Qed.

Lemma on_overlay_spec {A} (m : St (Overlay B) Error A) Q X o b :
  wp m (λ a o', Q a (o', b)) (λ e o', X e (o', b)) o → wp (on_overlay m) Q X (o, b).
Proof. intros Hm. apply wp_zoom. exact Hm. Qed.

Lemma on_budget_spec {A} (m : St ResponseBudget Error A) Q X o b :
  wp m (λ a b', Q a (o, b')) (λ e b', X e (o, b')) b → wp (on_budget m) Q X (o, b).
Proof. intros Hm. apply wp_zoom. exact Hm. Qed.

Lemma get_state_spec o G H fl db k b :
  inv o ∅ G G H fl db → valid_key k →
  wp (get_state_with_budget k) (λ s ob, s = state_of db k ∧ sim o ob.1)
    (λ e ob, too_large e ∧ sim o ob.1) (o, b).
Proof.
  intros Hi Hkey. unfold get_state_with_budget. cbv zeta. wp_step. eapply wp_lift_ok; [by apply validate_key_ok|].
  wp_step. apply on_overlay_spec. eapply wp_mono; [by eapply find_leaf_spec| |by intros].
  intros [c route] o1 (S1 & rr & lo & hi & _ & _ & Hc & Hk). simpl in Hc, Hk.
  pose proof (inv_sim _ _ _ _ _ _ _ _ Hi S1) as Hi1.
  pose proof (inv_pages _ _ _ _ _ _ _ Hi1 _ _ Hc ltac:(set_solver)) as (lsn & next & es & Hv & _).
  wp_step. apply on_overlay_spec.
  eapply wp_mono; [eapply leaf_spec; [apply Hi1|done|by eapply (inv_range _ _ _ _ _ _ _ Hi1)]| |by intros].
  intros lf o2 [-> S2]. cbn [leaf_entries]. pose proof (inv_sim _ _ _ _ _ _ _ _ Hi1 S2) as Hi2.
  assert (S : sim o o2) by (by trans o1).
  pose proof (inv_pages _ _ _ _ _ _ _ Hi2 _ _ Hc ltac:(set_solver)) as (lsn' & next' & es' & Hv' & Hst & HL).
  rewrite (sim_view _ _ S2), Hv in Hv'. injection Hv' as <- <- <-.
  pose proof (leaf_contents _ _ _ _ _ _ _ HL _ Hk) as HD. unfold state_of.
  assert (Hres : ∀ n (Q : unit → Overlay B * ResponseBudget → Prop), (∀ b', Q tt (o2, b')) →
    wp (on_budget (reserve_state n)) Q (λ e ob, too_large e ∧ sim o ob.1) (o2, b)).
  { intros n Q HQ. apply on_budget_spec. eapply wp_mono; [apply reserve_spec| |by intros e b' [? _]].
    intros [] b' _. apply HQ. }
  destruct (find_entry es (Key.encode k)) as [e|], (db !! Key.encode k) as [[r ov]|]; simpl in HD; try done.
  - destruct HD as [<- Hval]. destruct (Format.value e) as [vr|] eqn:Evr.
    + assert (∃ v, ov = Some v) as [v ->].
      { destruct vr; simpl in Hval; [by eexists|]. destruct Hval as (ids & v & -> & _). by eexists. }
      wp_step. apply Hres. intros b'. wp_step. apply on_overlay_spec.
      eapply wp_mono; [by eapply read_value_spec| |by intros]. intros w o3 [-> S3]. apply wp_ret.
      split; [done|]. by trans o2.
    + simpl in Hval. subst ov. wp_step. apply Hres. intros b'. by apply wp_ret.
  - wp_step. apply Hres. intros b'. by apply wp_ret.
Qed.

End ops.
End TreeOps.
