(* ===== verification/TreeTxn.v ===== *)
(** * Transactions refine the reference database

    [Overlay.prepare_transaction] against [Reference.transact_at]: a transaction
    whose conditions hold is applied atomically at its commit LSN, one whose
    conditions fail reports the same conflict and changes nothing, and the pages it
    prepares are the images of the new tree. *)

From S2P Require Import Prelude Wp Key Core Page Superblock Format FormatLaws Reference.
From S2P Require Import Overlay Tree TreeSearch TreeInsert TreeValue OverlayPages TreeOps.

Module TreeTxn.
Import Core Overlay Tree TreeSearch TreeInsert TreeValue OverlayPages TreeOps.

(** The limits a store was configured with. *)
Abbreviation limits_of o := (sh_limits (header (store o))).

(** ** The database of a reference state *)

#[global] Instance encode_inj : Inj (=) (=) Key.encode.
Proof. intros a b. apply Key.encode_inj. Qed.

Definition conv (s : RevisionState) : Revision * option bytes := (revision s, value s).
Definition abs (s : gmap DocumentKey RevisionState) : database := kmap Key.encode (conv <$> s).

Lemma abs_lookup s k : abs s !! Key.encode k = conv <$> s !! k.
Proof. unfold abs. by rewrite (lookup_kmap Key.encode), lookup_fmap. Qed.

Lemma abs_insert s k x : abs (<[k := x]> s) = <[Key.encode k := conv x]> (abs s).
Proof. unfold abs. by rewrite fmap_insert, (kmap_insert Key.encode). Qed.

Lemma state_of_abs db k : state_of (abs (Reference.states db)) k = Reference.get db k.
Proof.
  unfold state_of, Reference.get. rewrite abs_lookup. by destruct (Reference.states db !! k) as [[]|].
Qed.

(** All keys of the database are short enough for their pages to be split. *)
Definition short_keys (s : gmap DocumentKey RevisionState) : Prop :=
  ∀ k, is_Some (s !! k) → len (Key.encode k) ≤ SPLIT_KEY_LIMIT.

Lemma short_not_crowded s : short_keys s → ¬ crowded (abs s).
Proof.
  intros Hs (k & [x Hx] & Hl). unfold abs in Hx. apply lookup_kmap_Some in Hx as (dk & -> & Hx); [|apply _].
  rewrite lookup_fmap, fmap_Some in Hx. destruct Hx as (y & Hy & _). pose proof (Hs dk ltac:(eauto)). lia.
Qed.

Lemma short_keys_insert s k x : short_keys s → len (Key.encode k) ≤ SPLIT_KEY_LIMIT → short_keys (<[k := x]> s).
Proof.
  intros Hs Hk k' [y Hy]. destruct (decide (k = k')) as [<-|Hne]; [done|]. rewrite lookup_insert_ne in Hy by done. eauto.
Qed.

Definition short_mutation (m : TransactionMutation) : Prop := len (Key.encode (mutation_key m)) ≤ SPLIT_KEY_LIMIT.

Lemma short_keys_mutate r ms s : short_keys s → Forall short_mutation ms → short_keys (Reference.mutate_all r ms s).
Proof.
  intros Hs Hms. revert s Hs. induction Hms as [|m ms Hm Hms IH]; intros s Hs; [done|]. apply IH. by apply short_keys_insert.
Qed.

(** ** Restamping *)

Definition restamp_db (r c : Revision) (db : database) : database :=
  (λ x, (if x.1 =? r then c else x.1, x.2)) <$> db.

(** No state has revision [r] or a later one. *)
Definition revisions_lt (db : database) (r : Revision) : Prop :=
  ∀ k x ov, db !! k = Some (x, ov) → x < r.

Lemma restamp_db_id r c db : revisions_lt db r → restamp_db r c db = db.
Proof.
  intros Hr. apply map_eq. intros k. unfold restamp_db. rewrite lookup_fmap.
  destruct (db !! k) as [[x ov]|] eqn:E; [|done]. simpl.
  rewrite (proj2 (Z.eqb_neq x r)); [done|]. apply Hr in E. lia.
Qed.

Lemma restamp_mutate_all r c ms s :
  revisions_lt (abs s) r →
  restamp_db r c (abs (Reference.mutate_all r ms s)) = abs (Reference.mutate_all c ms s).
Proof.
  intros Hr. assert (restamp_db r c (abs s) = abs s) as Hbase by (by apply restamp_db_id).
  clear Hr. revert Hbase. generalize s at 1 3. unfold Reference.mutate_all.
  intros s'. revert s s'. induction ms as [|m ms IH]; intros s s' Hbase; [done|]. simpl. apply IH.
  rewrite !abs_insert. unfold restamp_db in *. rewrite fmap_insert, Hbase. f_equal.
  destruct m; simpl; by rewrite Z.eqb_refl.
Qed.

Lemma mutate_all_le r ms s :
  revisions_le (abs s) r → revisions_le (abs (Reference.mutate_all r ms s)) r.
Proof.
  revert s. induction ms as [|m ms IH]; intros s Hs; [done|]. simpl. apply IH.
  intros k x ov. rewrite abs_insert, lookup_insert_Some. intros [[_ E]|[_ ?]]; [|by eapply Hs].
  destruct m; injection E; lia.
Qed.

Definition restamp_entry (r c : Revision) (e : LeafEntry) : LeafEntry :=
  if Format.revision e =? r then Format.mkLeafEntry (Format.key e) c (Format.value e) else e.

Lemma restamp_entry_key r c e : Format.key (restamp_entry r c e) = Format.key e.
Proof. unfold restamp_entry. by destruct (_ =? _). Qed.
Lemma restamp_entry_value r c e : Format.value (restamp_entry r c e) = Format.value e.
Proof. unfold restamp_entry. by destruct (_ =? _). Qed.
Lemma restamp_entry_revision r c e :
  Format.revision (restamp_entry r c e) = if Format.revision e =? r then c else Format.revision e.
Proof. unfold restamp_entry. by destruct (_ =? _). Qed.

Lemma restamp_keys r c es : keys (restamp_entry r c <$> es) = keys es.
Proof. rewrite <-list_fmap_compose. apply list_fmap_ext. intros i e _. apply restamp_entry_key. Qed.

Lemma find_entry_restamp r c es k :
  find_entry (restamp_entry r c <$> es) k = restamp_entry r c <$> find_entry es k.
Proof.
  induction es as [|e es IH]; [done|]. rewrite fmap_cons, !find_entry_cons, restamp_entry_key, IH.
  by case_decide.
Qed.

Lemma leaf_space_restamp r c es :
  FormatLaws.leaf_space (restamp_entry r c <$> es) = FormatLaws.leaf_space es.
Proof.
  assert (Hcons : ∀ e es, FormatLaws.leaf_space (e :: es) =
    Format.SLOT_SIZE + FormatLaws.leaf_record_size e + FormatLaws.leaf_space es) by done.
  induction es as [|e es IH]; [done|]. rewrite fmap_cons, !Hcons, IH.
  unfold FormatLaws.leaf_record_size, FormatLaws.leaf_inline. by rewrite restamp_entry_key, restamp_entry_value.
Qed.

Lemma leaf_fits_restamp r c es :
  Format.leaf_fits es = true → Format.leaf_fits (restamp_entry r c <$> es) = true.
Proof.
  intros Hf. destruct (leaf_fits_keys _ Hf) as [Hs Hd].
  rewrite FormatLaws.leaf_fits_iff in Hf by done.
  rewrite FormatLaws.leaf_fits_iff; [by rewrite leaf_space_restamp|by rewrite restamp_keys|].
  rewrite Forall_fmap. eapply Forall_impl; [done|]. intros e He. simpl. by rewrite restamp_entry_key.
Qed.

Lemma encodable_restamp p r c :
  u64 c → storable p →
  is_ok (Format.encode_body (Format.restamp p r c)) = true ∧ FormatLaws.wf_page (Format.restamp p r c).
Proof.
  intros Hc (Hok & [_ Hwf] & _). destruct p as [l next es|l lm es|l next t ch|l next]; [|by split..].
  change (Format.restamp _ r c) with (Format.Leaf c next (restamp_entry r c <$> es)). destruct Hwf as [Hn Hes].
  split; [|split_and!; [done..|]].
  - change (is_ok (Format.encode_leaf next (restamp_entry r c <$> es)) = true).
    rewrite <-leaf_fits_next. apply leaf_fits_restamp. by rewrite (leaf_fits_next next).
  - rewrite Forall_fmap. eapply Forall_impl; [done|]. intros e [He Hv]. split; simpl.
    + rewrite restamp_entry_revision. by destruct (_ =? _).
    + by rewrite restamp_entry_value.
Qed.

Lemma storable_restamp p r c :
  u64 c → r ≤ c → storable p →
  match p with Format.Leaf _ _ es => Forall (λ e, Format.revision e ≤ r) es | _ => True end →
  storable (Format.restamp p r c).
Proof.
  intros Hc Hrc Hp Hle. destruct (encodable_restamp p r c Hc Hp). split_and!; [done..|].
  destruct Hp as (_ & _ & Hp). destruct p as [l next es|l lm es|l next t ch|l next]; try done. simpl.
  rewrite Forall_fmap. pose proof (proj2 (Forall_and _ _) (conj Hle Hp)) as HB.
  eapply Forall_impl; [exact HB|]. intros e [He [Hpos Hsm]]. simpl in *.
  unfold Revision_from. destruct (Z.eqb_spec (Format.revision e) r); simpl; split; [lia|done|lia|done].
Qed.

(** The writes that an empty tree certainly has room for, however large their values:
    page numbers in the log have 32 bits. *)
Abbreviation FRESH_WRITES := 50000.

Section txn.
Context {B : Type} {CB : CommittedStore B} {SP : CommittedStoreSpec B} {CR : Crc32c} {CRS : Crc32cSpec CR}.
Implicit Types (o : Overlay B) (G : labels).

Lemma restamp_pages_ok r c ids (m : gmap PageId PageData) :
  NoDup ids → (∀ id, id ∈ ids → is_Some (m !! id)) →
  ∃ m', restamp_pages ids r c m = Ok m' ∧
    ∀ i, m' !! i = if decide (i ∈ ids) then (λ p, Format.restamp p r c) <$> m !! i else m !! i.
Proof.
  revert m. induction ids as [|id ids IH]; intros m Hn Hm; cbn [restamp_pages].
  { exists m. split; [done|]. intros i. rewrite decide_False; [done|]. apply not_elem_of_nil. }
  apply NoDup_cons in Hn as [Hnin Hn]. destruct (Hm id) as [p Hp]; [left|]. rewrite Hp. simpl.
  destruct (IH (<[id := Format.restamp p r c]> m)) as (m' & Hr & Hm'); [done| |].
  { intros i Hi. destruct (decide (i = id)) as [->|]; [done|]. rewrite lookup_insert_ne by done.
    apply Hm. by right. }
  exists m'. split; [done|]. intros i. rewrite Hm'. destruct (decide (i = id)) as [->|Hne].
  - rewrite decide_False by done. rewrite lookup_insert_eq, decide_True by left. by rewrite Hp.
  - rewrite lookup_insert_ne by done. case_decide as H1; [rewrite decide_True by (by right)|].
    + done.
    + rewrite decide_False; [done|]. by intros [?|?]%elem_of_cons.
Qed.

Lemma encode_dirty_ok ids (m : gmap PageId PageData) images decoded :
  (∀ id, id ∈ ids → ∃ p img, m !! id = Some p ∧ Format.encode p id = Ok img) →
  ∃ images' decoded', encode_dirty ids m images decoded = Ok (images', decoded') ∧
    (∀ i, i ∈ ids → ∃ p img, m !! i = Some p ∧ Format.encode p i = Ok img ∧
       decoded' !! i = Some p ∧ images' !! i = Some img) ∧
    (∀ i, i ∉ ids → decoded' !! i = decoded !! i ∧ images' !! i = images !! i).
Proof.
  revert images decoded. induction ids as [|id ids IH]; intros images decoded Hm; cbn [encode_dirty].
  { exists images, decoded. split_and!; [done|by intros i ?%not_elem_of_nil|done]. }
  destruct (Hm id) as (p & img & Hp & Himg); [left|]. rewrite Hp. simpl. rewrite Himg. simpl.
  destruct (IH (<[id := img]> images) (<[id := p]> decoded)) as (im & de & He & Hin & Hout).
  { intros i Hi. apply Hm. by right. }
  exists im, de. split_and!; [done| |].
  - intros i Hi. destruct (decide (i ∈ ids)) as [?|Hni]; [by apply Hin|].
    apply elem_of_cons in Hi as [->|?]; [|done]. destruct (Hout _ Hni) as [-> ->].
    exists p, img. by rewrite !lookup_insert_eq.
  - intros i [Hne Hni]%not_elem_of_cons. destruct (Hout _ Hni) as [-> ->]. by rewrite !lookup_insert_ne.
Qed.

Lemma encode_storable p id : is_ok (Format.encode_body p) = true → ∃ img, Format.encode p id = Ok img.
Proof.
  intros Hok. unfold Format.encode. destruct (Format.encode_body p) as [b| |] eqn:E; [|done..].
  cbn [mbind Result_bind]. apply FormatLaws.len_encode_body in E.
  eexists. apply Page.encode_page_eq; [done|]. rewrite E. done.
Qed.

(** The overlay after its dirty pages were restamped. *)
Definition restamped o (r c : Revision) o' : Prop :=
  ∀ i, view o' i = if decide (i ∈ dirty o) then (λ p, Format.restamp p r c) <$> view o i else view o i.

Lemma chain_restamp o o' r c head total ids v :
  restamped o r c o' → chain (view o) head total ids v → chain (view o') head total ids v.
Proof.
  intros HR. revert head v. induction ids as [|id ids IH]; intros head v; simpl; [done|].
  intros (-> & lsn & next & ch & v' & Hv & -> & Hc). split; [done|]. rewrite (HR id), Hv. simpl.
  case_decide; [exists c|exists lsn]; exists next, ch, v'; auto.
Qed.

Lemma free_chain_restamp o o' r c head fl :
  restamped o r c o' → free_chain (view o) head fl → free_chain (view o') head fl.
Proof.
  intros HR. revert head. induction fl as [|id fl IH]; intros head; simpl; [done|].
  intros (-> & lsn & next & Hv & Hc). split; [done|]. rewrite (HR id), Hv. simpl.
  case_decide; [exists c|exists lsn]; exists next; auto.
Qed.

Lemma value_at_restamp o o' r c G owner vr ov :
  restamped o r c o' → value_at (view o) G owner vr ov → value_at (view o') G owner vr ov.
Proof.
  intros HR. destruct vr as [[v|hd tot]|]; simpl; [done| |done].
  intros (ids & v & -> & Hc & ? & ? & ? & ? & ?). exists ids, v. split_and!; try done; try apply H0.
  by eapply chain_restamp.
Qed.

(** A restamped leaf holds the restamped database. *)
Lemma leaf_ok_restamp o o' r c G db lo hi next es :
  restamped o r c o' → leaf_ok (view o) G db lo hi next es →
  leaf_ok (view o') G (restamp_db r c db) lo hi next (restamp_entry r c <$> es).
Proof.
  intros HR [L1 L2 L3 L4]. split; [by rewrite restamp_keys|by rewrite restamp_keys|done|].
  intros k Hk. specialize (L4 k Hk). unfold restamp_db. rewrite find_entry_restamp, lookup_fmap.
  destruct (find_entry es k) as [e|], (db !! k) as [[x ov]|]; simpl in *; try done.
  destruct L4 as [<- Hv]. rewrite restamp_entry_revision, restamp_entry_value.
  split; [done|]. by eapply value_at_restamp.
Qed.

Lemma restamp_entries_id r c es : Forall (λ e, Format.revision e < r) es → restamp_entry r c <$> es = es.
Proof.
  induction 1 as [|e es He HF IH]; [done|]. rewrite fmap_cons, IH. f_equal. unfold restamp_entry.
  by rewrite (proj2 (Z.eqb_neq _ _)) by lia.
Qed.

(** Restamping turns an invariant for the provisional revision into one for the
    commit LSN: clean pages are older than the provisional revision. *)
Lemma inv_restamp o o' G H fl db r c :
  inv o ∅ G G H fl db → restamped o r c o' → u64 c → r ≤ c → revisions_le db r →
  (∀ id p, id ∉ dirty o → view o id = Some p → Format.page_lsn p < r) →
  serving (store o') → root_page_id o' = root_page_id o → free_list_head o' = free_list_head o →
  high_water_page_id o' = high_water_page_id o → dirty o' = ∅ →
  inv o' ∅ G G H fl (restamp_db r c db).
Proof.
  intros [I1 I2 I3 I4 I5 I6 I7 I8 I9 I10 I11 I12 I13] HR Hc Hrc Hle Hold Hs Hroot Hfree Hhw Hd.
  split; rewrite ?Hroot, ?Hfree, ?Hhw, ?Hd; try done.
  - intros id [[|h] lo hi| |] Hid HD; [..|done|done]; specialize (I7 _ _ Hid HD).
    + destruct I7 as (lsn & next & es & Hv & Hst & HL). simpl. rewrite (HR id), Hv. simpl.
      pose proof (leaf_ok_restamp _ _ r c _ _ _ _ _ _ HR HL) as HL'.
      destruct (leaf_entries_le _ _ _ _ _ _ _ _ _ HL Hst Hle) as (_ & Hes & _).
      case_decide as Hdirty.
      * exists c, next, (restamp_entry r c <$> es). split_and!; try done.
        apply (storable_restamp (Format.Leaf lsn next es) r c); [done|done|done|].
        eapply Forall_impl; [done|]. by intros e (_ & [_ ?] & _).
      * exists lsn, next, es. split_and!; try done. rewrite restamp_entries_id in HL'; [done|].
        pose proof (Hold _ _ Hdirty Hv) as Hlsn. simpl in Hlsn. destruct Hst as (_ & _ & Hst).
        eapply Forall_impl; [exact Hst|]. simpl. intros e [[_ ?] _]. lia.
    + destruct I7 as (lsn & lm & es & Hv & Hst & Hch). simpl. rewrite (HR id), Hv. simpl.
      case_decide as Hdirty; [exists c|exists lsn]; exists lm, es; split_and!; try done.
      by apply (storable_restamp (Format.Internal lsn lm es) r c).
  - by eapply free_chain_restamp.
  - intros id h lo hi Hid. destruct (I13 _ _ _ _ Hid) as [?|[x Hx]]; [by left|right]. unfold restamp_db. rewrite lookup_fmap, Hx. eauto.
Qed.

(** ** Finishing a transaction *)

(** The stored checksum is the one its encoding has. *)
Definition sealed (sb : Superblock) : Prop :=
  ∀ img, Superblock.encode_superblock sb = Ok img → Superblock.decode_superblock img = Ok sb.

(** The superblocks belong to the same shard. *)
Definition same_shard (sb sb' : Superblock) : Prop :=
  Superblock.database_uuid sb' = Superblock.database_uuid sb ∧ Superblock.tenant_id sb' = Superblock.tenant_id sb ∧
  Superblock.shard_id sb' = Superblock.shard_id sb ∧ Superblock.shard_epoch sb' = Superblock.shard_epoch sb.

(** [sb'] describes the tree of [o] in the generation after [sb]. *)
Definition next_generation (sb sb' : Superblock) o : Prop :=
  Superblock.wf sb' ∧ Superblock.generation sb' = Superblock.generation sb + 1 ∧
  Superblock.root_page_id sb' = Some (root_page_id o) ∧
  Superblock.free_list_head sb' = free_list_head o ∧
  Superblock.high_water_page_id sb' = Some (high_water_page_id o) ∧
  Superblock.checkpoint_lsn sb' = Superblock.checkpoint_lsn sb ∧ same_shard sb sb' ∧ sealed sb'.

Lemma sealed_decoded sb : Superblock.wf sb → sealed (Superblock.with_checksum sb (Superblock.superblock_checksum (Superblock.image sb))).
Proof.
  intros Hw img He. set (sb' := Superblock.with_checksum _ _) in *.
  assert (Superblock.wf sb') as Hw'.
  { destruct Hw as (X1 & X2 & X3 & X4 & X5 & X6 & X7 & X8 & X9 & X10 & X11 & X12). by split_and!. }
  apply Superblock.encode_superblock_Ok in He as [-> _].
  exact (Superblock.decode_sealed_superblock sb' Hw').
Qed.

Lemma next_superblock_ok sb o G H fl db :
  inv o ∅ G G H fl db → Superblock.wf sb → Superblock.generation sb < U64_MAX →
  ∃ sb', next_superblock sb (root_page_id o) (free_list_head o) (high_water_page_id o) = Ok sb' ∧
    next_generation sb sb' o.
Proof.
  intros Hi (W1 & W2 & W3 & W4 & W5 & W6 & W7 & W8 & W9 & W10 & W11 & W12) Hg.
  unfold next_superblock. rewrite checked_add_ok by lia. cbn [ok_or mbind Result_bind].
  set (cand := Superblock.mkSuperblock _ _ _ _ _ _ _ _ _ _ _ _).
  assert (Hw : Superblock.wf cand).
  { pose proof (inv_high _ _ _ _ _ _ _ Hi). pose proof (inv_range _ _ _ _ _ _ _ Hi _ _ (inv_root _ _ _ _ _ _ _ Hi)).
    pose proof (free_head_wf _ _ _ _ _ _ _ Hi). unfold FIRST_DATA_PAGE in *.
    unfold cand, Superblock.wf. simpl. unfold Superblock.NULL_PAGE_ID. split_and!; try done; ulia. }
  rewrite Superblock.encode_superblock_eq by done. cbn [mbind Result_bind].
  rewrite (Superblock.decode_sealed_superblock cand Hw). eexists. split; [done|].
  pose proof (sealed_decoded cand Hw). destruct Hw as (X1 & X2 & X3 & X4 & X5 & X6 & X7 & X8 & X9 & X10 & X11 & X12). by split_and!.
Qed.

(** The batch [p] and the overlay [o'] a finished transaction leaves. *)
Record finished o (p : PreparedBatch) o' (r c : Revision) : Prop := {
  fin_commit : prepared_commit_lsn p = Some c;
  fin_lsn : r ≤ c;
  fin_restamped : restamped o r c o';
  fin_pages : ∀ i, i ∈ dirty o → ∃ q img, view o' i = Some q ∧ changed_decoded p !! i = Some q ∧
    changed_pages p !! i = Some img ∧ Format.encode q i = Ok img ∧ FormatLaws.wf_page q ∧
    FIRST_DATA_PAGE ≤ i ≤ high_water_page_id o;
  fin_others : ∀ i, i ∉ dirty o → changed_decoded p !! i = None ∧ changed_pages p !! i = None;
  fin_store : store o' = store o;
  fin_dirty : dirty o' = ∅;
  fin_last : last_lsn o' = None;
  fin_root : root_page_id o' = root_page_id o ∧ prepared_root p = root_page_id o;
  fin_free : free_list_head o' = free_list_head o ∧ prepared_free_list_head p = free_list_head o;
  fin_high : high_water_page_id o' = high_water_page_id o ∧ prepared_high_water p = high_water_page_id o;
  fin_revision : next_revision o' = c + 1 ∧ next_lsn o' = c + 1 ∧ prepared_next_revision p = c + 1;
  fin_batch : batch_id p = next_batch_id o ∧ next_batch_id o' = next_batch_id o + 1;
  fin_superblock : current_superblock o' = new_superblock p ∧ active_slot o' = new_slot p ∧
    new_slot p = other_slot (active_slot o) ∧ base_generation p = Superblock.generation (current_superblock o) ∧
    next_generation (current_superblock o) (new_superblock p) o;
  fin_exact : commit_lsn_for (sh_wal (header (store o))) (next_lsn o) (dirty o) r = Ok c;
  fin_reads : prepared_read_pages p = read_pages o ∧ read_pages o' = ∅ ∧ dom (pages o) ⊆ dom (pages o');
}.

Lemma dirty_bound o G Gc H fl db :
  inv o ∅ G Gc H fl db → Z.of_nat (size (dirty o)) ≤ high_water_page_id o - 1.
Proof.
  intros Hi. apply visited_bound; [apply Hi|]. intros i Hd.
  assert (is_Some (pages o !! i)) as [p Hp]. { apply elem_of_dom. by apply Hi. }
  apply (inv_storable _ _ _ _ _ _ _ Hi i p Hd). unfold view. by rewrite Hp.
Qed.

(** The commit LSN. *)
Lemma commit_lsn_ok o G H fl db r :
  inv o ∅ G G H fl db → 0 ≤ r ≤ next_lsn o → next_lsn o + high_water_page_id o + 1 < U64_MAX →
  ∃ c, commit_lsn_for (sh_wal (header (store o))) (next_lsn o) (dirty o) r = Ok c ∧
    r ≤ c ≤ next_lsn o + high_water_page_id o.
Proof.
  intros Hi Hr Hmax. pose proof (dirty_bound _ _ _ _ _ _ Hi) as Hd.
  pose proof (inv_high _ _ _ _ _ _ _ Hi) as Hh. unfold FIRST_DATA_PAGE in Hh.
  unfold commit_lsn_for. destruct (sh_wal _).
  - rewrite checked_add_ok by lia. cbn [ok_or mbind Result_bind]. rewrite checked_add_ok by lia.
    eexists. split; [done|lia].
  - exists r. split; [done|lia].
Qed.

Lemma finish_transaction_spec o G H fl db r :
  inv o ∅ G G H fl db → last_lsn o = Some r → 0 < r ≤ next_lsn o → revisions_le db r →
  (∀ id p, id ∉ dirty o → view o id = Some p → Format.page_lsn p < r) →
  Superblock.wf (current_superblock o) → Superblock.generation (current_superblock o) < U64_MAX →
  next_batch_id o < U64_MAX → next_lsn o + high_water_page_id o + 1 < U64_MAX →
  wp finish_transaction
    (λ p o', ∃ c, finished o p o' r c ∧ c ≤ next_lsn o + high_water_page_id o ∧
       inv o' ∅ G G H fl (restamp_db r c db)) noerr o.
Proof.
  intros Hi Hlast Hr Hrevs Hold Hwf Hgen Hbatch Hmax.
  destruct (commit_lsn_ok _ _ _ _ _ r Hi) as (c & Hc & Hcr); [lia|done|].
  destruct (next_superblock_ok _ _ _ _ _ _ Hi Hwf Hgen) as (sb & Hsb & Hnext).
  assert (Hpages : ∀ i, i ∈ set_iter (dirty o) → is_Some (pages o !! i)).
  { intros i Hid%elem_of_set_iter. apply elem_of_dom. by apply (inv_dirty _ _ _ _ _ _ _ Hi). }
  destruct (restamp_pages_ok r c (set_iter (dirty o)) (pages o)) as (m & Hm & Hlook);
    [apply NoDup_set_iter|done|].
  assert (HR : ∀ o', store o' = store o → pages o' = m → restamped o r c o').
  { intros o' Es Ep i. unfold view. rewrite Ep, Es, Hlook.
    destruct (decide (i ∈ dirty o)) as [Hd|Hd].
    - rewrite decide_True by (by apply elem_of_set_iter). destruct (Hpages i) as [p Hp]; [by apply elem_of_set_iter|].
      by rewrite Hp.
    - rewrite decide_False; [done|]. by rewrite elem_of_set_iter. }
  set (o' := set_last_lsn None (set_dirty ∅ (set_next_batch_id (next_batch_id o + 1) (set_next_lsn (c + 1)
    (set_next_revision (c + 1) (set_current_superblock sb (other_slot (active_slot o))
    (set_read_pages ∅ (set_pages m o)))))))).
  assert (Hi' : inv o' ∅ G G H fl (restamp_db r c db)).
  { eapply (inv_restamp o); eauto; [ulia|lia|apply Hi]. }
  assert (Hst : ∀ i, i ∈ dirty o → ∃ p, m !! i = Some p ∧
    (is_ok (Format.encode_body p) = true ∧ FormatLaws.wf_page p) ∧ FIRST_DATA_PAGE ≤ i ≤ high_water_page_id o).
  { intros i Hd. destruct (Hpages i) as [p Hp]; [by apply elem_of_set_iter|]. rewrite Hlook.
    rewrite decide_True, Hp by (by apply elem_of_set_iter). eexists. split; [done|].
    destruct (inv_storable _ _ _ _ _ _ _ Hi i p Hd) as [Hsp Hran]; [unfold view; by rewrite Hp|].
    split; [|done]. apply encodable_restamp; [ulia|done]. }
  destruct (encode_dirty_ok (set_iter (dirty o)) m ∅ ∅) as (im & de & He & Hin & Hout).
  { intros i Hd%elem_of_set_iter. destruct (Hst i Hd) as (p & Hp & [Hsp _] & _).
    destruct (encode_storable p i Hsp) as [img Himg]. eauto. }
  unfold finish_transaction. wp_step. wp_step. cbv beta. rewrite Hlast. wp_step. eapply wp_lift_ok; [done|]. cbv zeta.
  wp_step. eapply wp_lift_ok; [done|]. wp_step. eapply wp_lift_ok; [done|]. wp_step. wp_step.
  wp_step. eapply wp_lift_ok; [done|]. wp_step. eapply wp_lift_ok; [done|]. cbv beta iota. wp_step. wp_step.
  wp_step. eapply wp_lift_ok; [by rewrite checked_add_ok by lia|]. wp_step. wp_step. wp_step. wp_step.
  wp_step. eapply wp_lift_ok; [by rewrite checked_add_ok by lia|]. wp_step. wp_step.
  wp_step. eapply wp_lift_ok; [by rewrite checked_add_ok by lia|]. wp_steps.
  change (wp (mret ?p) ?Q ?X _) with (wp (mret p) Q X o'). exists c. split_and!; [|lia|done].
  split; simpl; try done; [lia|by apply HR| | |].
  - intros i Hd. destruct (Hin i) as (q & img & Hq & Himg & Hde & Him); [by apply elem_of_set_iter|].
    destruct (Hst i Hd) as (q' & Hq' & [_ Hwfq] & Hran). rewrite Hq in Hq'. injection Hq' as <-.
    exists q, img. split_and!; try done; [|lia..]. unfold view. simpl. by rewrite Hq.
  - intros i Hd. destruct (Hout i) as [-> ->]; [by rewrite elem_of_set_iter|done].
  - split_and!; [done..|]. intros i [x Hx]%elem_of_dom. apply elem_of_dom. rewrite Hlook, Hx.
    by destruct (decide _).
Qed.

(** ** Applying the mutations *)

Definition valid_mutation o (m : TransactionMutation) : Prop :=
  valid_key (mutation_key m) ∧ match m with Put _ v => valid_value o v | Delete _ => True end.

(** The documented limits: the encoded keys and the values of a request. *)
Definition mutation_within (lim : StorageLimits) (m : TransactionMutation) : Prop :=
  len (Key.encode (mutation_key m)) ≤ MAX_ENCODED_KEY_SIZE ∧
  match m with Put _ v => len v ≤ max_value_size lim ∧ len v ≤ Format.MAX_VALUE_SIZE | Delete _ => True end.
Definition condition_within (c : TransactionCondition) : Prop := len (Key.encode (condition_key c)) ≤ MAX_ENCODED_KEY_SIZE.
Definition within_limits (lim : StorageLimits) (q : TransactionRequest) : Prop :=
  Forall (mutation_within lim) (mutations q) ∧ Forall condition_within (conditions q).

Lemma valid_mutation_header o o' m :
  header (store o') = header (store o) → valid_mutation o m → valid_mutation o' m.
Proof. intros E [Hk Hv]. split; [done|]. destruct m; [|done]. unfold valid_value in *. by rewrite E. Qed.

Lemma write_revision_after o o' r :
  last_lsn o' = Some r → write_revision o' = r.
Proof. unfold write_revision. by intros ->. Qed.

Lemma apply_mutation_spec m o G H fl s r :
  write_revision o = r → inv o ∅ G G H fl (abs s) → valid_mutation o m → limits_ok o → u64 r → 0 < r →
  reach o H 1 < U64_MAX → revisions_le (abs s) r → short_keys s → short_mutation m →
  wp (apply_mutation m)
    (λ _ o', same_meta (set_last_lsn (Some r) o) o' ∧ ∃ G' H' fl',
       inv o' ∅ G' G' H' fl' (abs (<[mutation_key m := Reference.mutated r m]> s)) ∧
       ∀ n, reach o' H' n ≤ reach o H (S n))
    noerr o.
Proof.
  intros <- Hi [Hk Hv] Hlim Hr Hpos Hroom Hrevs Hsh Hsm. pose proof (λ x, short_not_crowded _ (short_keys_insert s _ x Hsh Hsm)) as Hnc.
  setoid_rewrite abs_insert in Hnc. destruct m as [k v|k]; cbn [apply_mutation]; wp_step.
  - eapply wp_mono; [by eapply put_spec| |intros e o' [_ Hc]; exact (Hnc (Present v (write_revision o)) Hc)]. intros x o' (-> & Hm & G' & H' & fl' & Hi' & Hreach).
    apply wp_ret. split; [done|]. exists G', H', fl'. by rewrite abs_insert.
  - eapply wp_mono; [by eapply delete_spec| |intros e o' [_ Hc]; exact (Hnc (Missing (write_revision o)) Hc)]. intros x o' (-> & Hm & G' & H' & fl' & Hi' & Hreach).
    apply wp_ret. split; [done|]. exists G', H', fl'. by rewrite abs_insert.
Qed.

Lemma same_meta_last o o' r : same_meta (set_last_lsn (Some r) o) o' →
  last_lsn o' = Some r ∧ same_meta (set_last_lsn (Some r) o) (set_last_lsn (Some r) o').
Proof. intros [M1 M2 M3 M4 M5 M6 M7 M8 M9]. split; [done|]. by split. Qed.

Lemma apply_all_spec ms o G H fl s r :
  write_revision o = r → inv o ∅ G G H fl (abs s) → Forall (valid_mutation o) ms → limits_ok o → u64 r → 0 < r →
  reach o H (length ms) < U64_MAX → revisions_le (abs s) r → short_keys s → Forall short_mutation ms →
  wp (for_each apply_mutation ms)
    (λ _ o', same_meta (set_last_lsn (Some r) o) (set_last_lsn (Some r) o') ∧ last_lsn o' = match ms with [] => last_lsn o | _ => Some r end ∧
       ∃ G' H' fl', inv o' ∅ G' G' H' fl' (abs (Reference.mutate_all r ms s)) ∧
         ∀ n, reach o' H' n ≤ reach o H (length ms + n))
    noerr o.
Proof.
  revert o G H fl s. induction ms as [|m ms IH]; intros o G H fl s Hw Hi Hms Hlim Hr Hpos Hroom Hrevs Hsh Hshort; cbn [for_each].
  { apply wp_ret. split_and!; [reflexivity|done|]. exists G, H, fl. split; [done|]. intros n. by simpl. }
  apply Forall_cons in Hms as [Hm Hms]. apply Forall_cons in Hshort as [Hsm Hshort]. wp_step.
  eapply wp_mono; [eapply apply_mutation_spec; eauto| |done].
  { eapply Z.le_lt_trans; [|done]. apply reach_mono. simpl. lia. }
  intros _ o1 (Hm1 & G1 & H1 & fl1 & Hi1 & Hreach). destruct (same_meta_last _ _ _ Hm1) as [Hl1 Hm1'].
  eapply wp_mono; [eapply (IH o1); eauto| |done].
  - by apply write_revision_after.
  - eapply Forall_impl; [exact Hms|]. intros x. apply valid_mutation_header, (meta_header _ _ Hm1).
  - unfold limits_ok in *. by rewrite (meta_header _ _ Hm1).
  - eapply Z.le_lt_trans; [apply Hreach|]. done.
  - exact (mutate_all_le r [m] s Hrevs).
  - by apply short_keys_insert.
  - intros _ o' (Hm2 & Hl2 & G' & H' & fl' & Hi' & Hreach'). split_and!.
    + by etrans.
    + rewrite Hl2. by destruct ms.
    + exists G', H', fl'. split; [done|]. intros n. etrans; [apply Hreach'|]. apply Hreach.
Qed.


(** ** Whole transactions *)

(** An overlay between transactions. *)
Record idle o : Prop := {
  idle_dirty : dirty o = ∅;
  idle_last : last_lsn o = None;
  idle_revision : 0 < next_revision o ≤ next_lsn o;
  idle_pages : ∀ id p, view o id = Some p → Format.page_lsn p < next_revision o;
  idle_superblock : Superblock.wf (current_superblock o);
  idle_limits : limits_ok o;
}.

(** The 64-bit counters have room for [n] more writes, and page counts stay within
    the 32 bits that the log has for them. *)
Definition capacity o (H n : nat) : Prop :=
  next_lsn o + (Z.of_nat n + 1) * (reach o H n + 2) < U64_MAX ∧
  Superblock.generation (current_superblock o) + Z.of_nat n < U64_MAX ∧ next_batch_id o + Z.of_nat n < U64_MAX ∧
  reach o H n < U32_MAX.

(** The overlay holds the states [s], with room for [n] more writes. *)
Definition represents (n : nat) o (s : gmap DocumentKey RevisionState) : Prop :=
  ∃ G H fl, inv o ∅ G G H fl (abs s) ∧ capacity o H n ∧ idle o ∧ revisions_lt (abs s) (next_revision o).

(** The counters have room for [n] more writes when none of them takes the pages
    beyond [top]; this bound is kept by every write. *)
Definition headroom (top : Z) o (H n : nat) : Prop :=
  reach o H n ≤ top ∧ next_lsn o + (Z.of_nat n + 1) * (top + 2) < U64_MAX ∧ top < U32_MAX.

Definition provisioned (top : Z) (n : nat) o (s : gmap DocumentKey RevisionState) : Prop :=
  ∃ G H fl, inv o ∅ G G H fl (abs s) ∧ capacity o H n ∧ idle o ∧ revisions_lt (abs s) (next_revision o) ∧ headroom top o H n.

Lemma provisioned_represents top n o s : provisioned top n o s → represents n o s.
Proof. intros (G & H & fl & ? & ? & ? & ? & _). by exists G, H, fl. Qed.

Lemma represents_provisioned n o s : represents n o s → ∃ top, provisioned top n o s.
Proof.
  intros (G & H & fl & ? & Hc & ? & ?). exists (reach o H n), G, H, fl. destruct (id Hc) as (? & _ & _ & ?).
  by split_and!.
Qed.

(** The next revision follows the newest one in the database. *)
Definition newest (s : gmap DocumentKey RevisionState) (r : Revision) : Prop :=
  r = 1 ∨ ∃ k x ov, abs s !! k = Some (x, ov) ∧ r = x + 1.

Lemma idle_sim o o' : sim o o' → idle o → idle o'.
Proof.
  intros S [D1 D2 D3 D4 D5 D6]. split.
  - by rewrite (sim_dirty _ _ S).
  - by rewrite (sim_last _ _ S).
  - by rewrite (sim_revision _ _ S), (sim_lsn _ _ S).
  - intros id p. rewrite (sim_view _ _ S), (sim_revision _ _ S). apply D4.
  - by rewrite (sim_superblock _ _ S).
  - unfold limits_ok. by rewrite (sim_header _ _ S).
Qed.

Lemma capacity_sim o o' H n : sim o o' → capacity o H n → capacity o' H n.
Proof.
  intros S. unfold capacity, reach. by rewrite (sim_high _ _ S), (sim_lsn _ _ S), (sim_superblock _ _ S), (sim_batch _ _ S).
Qed.

Lemma provisioned_sim top n o o' s : sim o o' → provisioned top n o s → provisioned top n o' s.
Proof.
  intros S (G & H & fl & Hi & Hc & Hd & Hr & Hh). exists G, H, fl.
  split_and!; [by eapply inv_sim|by eapply capacity_sim|by eapply idle_sim|by rewrite (sim_revision _ _ S)|].
  unfold headroom, reach in *. by rewrite (sim_high _ _ S), (sim_lsn _ _ S).
Qed.

Lemma represents_sim n o o' s : sim o o' → represents n o s → represents n o' s.
Proof.
  intros S (G & H & fl & Hi & Hc & Hd & Hr). exists G, H, fl.
  split_and!; [by eapply inv_sim|by eapply capacity_sim|by eapply idle_sim|by rewrite (sim_revision _ _ S)].
Qed.

Lemma reach_ge o H n : high_water_page_id o ≤ reach o H n.
Proof. unfold reach. assert (0 ≤ Format.MAX_OVERFLOW_PAGES) by done. nia. Qed.

Lemma check_conditions_spec cs o G H fl db :
  inv o ∅ G G H fl (abs (Reference.states db)) → Forall (λ c, Key.wf (condition_key c)) cs →
  wp (for_each check_condition cs) (λ _ o', sim o o' ∧ Reference.first_conflict db cs = None ∧ Forall condition_within cs)
    (λ e o', sim o o' ∧ (rejected e ∧ ¬ Forall condition_within cs ∨ ∃ x, e = Conflict x ∧ Reference.first_conflict db cs = Some x)) o.
Proof.
  revert o. induction cs as [|c cs IH]; intros o Hi Hcs; cbn [for_each]; [by apply wp_ret|].
  apply Forall_cons in Hcs as [Hc Hcs]. wp_step. unfold check_condition. wp_step.
  destruct (Z.ltb_spec MAX_ENCODED_KEY_SIZE (len (Key.encode (condition_key c)))) as [Hlong|Hlen].
  { unfold get_observed_state. cbv zeta. wp_step. apply wp_lift. unfold validate_encoded_key.
    rewrite (proj2 (Z.ltb_lt _ _)) by done. split; [done|left]. split; [by eexists|].
    intros [Hw _]%Forall_cons. unfold condition_within in Hw. lia. }
  eapply wp_mono; [by eapply get_observed_state_spec| |by intros].
  intros x o1 [-> S1]. cbv beta. rewrite state_of_abs. apply wp_fail_when.
  - intros Hb%negb_true_iff. split; [done|right]. eexists. split; [done|].
    unfold Reference.first_conflict, Reference.holds. simpl. by rewrite Hb.
  - intros Hb%negb_false_iff. eapply wp_mono; [apply (IH o1); [by eapply inv_sim|done]| |].
    + intros _ o' (S2 & Hf & Hw). split; [by trans o1|]. split; [|by constructor]. unfold Reference.first_conflict, Reference.holds in *.
      simpl. by rewrite Hb.
    + intros e o' [S2 He]. split; [by trans o1|]. destruct He as [[He Hw]|He]; [left; split; [done|by intros [_ ?]%Forall_cons]|right].
      unfold Reference.first_conflict, Reference.holds in *. simpl. by rewrite Hb.
Qed.

Lemma validate_mutations_spec ms o :
  Forall (λ m, Key.wf (mutation_key m)) ms →
  wp (for_each validate_transaction_mutation ms)
    (λ _ o', o' = o ∧ Forall (valid_mutation o) ms ∧ Forall (mutation_within (limits_of o)) ms)
    (λ e o', o' = o ∧ rejected e ∧ ¬ Forall (mutation_within (limits_of o)) ms) o.
Proof.
  induction ms as [|m ms IH]; intros Hms; cbn [for_each]; [by apply wp_ret|].
  apply Forall_cons in Hms as [Hm Hms]. wp_step.
  assert (Hkey : ∀ k, wp (lift_r (validate_encoded_key (Key.encode k)))
    (λ _ o', o' = o ∧ len (Key.encode k) ≤ MAX_ENCODED_KEY_SIZE)
    (λ e o', o' = o ∧ rejected e ∧ MAX_ENCODED_KEY_SIZE < len (Key.encode k)) o).
  { intros k. apply wp_lift. unfold validate_encoded_key, fail_if.
    destruct (Z.ltb_spec MAX_ENCODED_KEY_SIZE (len (Key.encode k))); [|done]. split; [done|]. split; [by eexists|done]. }
  assert (wp (validate_transaction_mutation m) (λ _ o', o' = o ∧ valid_mutation o m ∧ mutation_within (limits_of o) m)
    (λ e o', o' = o ∧ rejected e ∧ ¬ mutation_within (limits_of o) m) o) as Hone.
  { destruct m as [k v|k]; cbn [validate_transaction_mutation].
    - wp_step. unfold validate_value. wp_steps. apply wp_fail_when.
      { intros [?%Z.ltb_lt|?%Z.ltb_lt]%orb_true_iff; (split; [done|]; split; [by eexists|]); intros (_ & ? & ?); lia. }
      intros [?%Z.ltb_ge ?%Z.ltb_ge]%orb_false_iff. eapply wp_mono; [apply Hkey| |].
      + intros _ o' [-> ?]. done.
      + intros e o' (-> & He & Hl). split_and!; [done..|]. intros [? _]. cbn in *. lia.
    - eapply wp_mono; [apply Hkey| |].
      + intros _ o' [-> ?]. done.
      + intros e o' (-> & He & Hl). split_and!; [done..|]. intros [? _]. cbn in *. lia. }
  eapply wp_mono; [exact Hone| |intros e o' (-> & He & Hn); split_and!; [done..|]; by intros [? _]%Forall_cons].
  intros _ o' (-> & Hv & Hw). cbv beta.
  eapply wp_mono; [by apply IH| |intros e o' (-> & He & Hn); split_and!; [done..|]; by intros [_ ?]%Forall_cons].
  intros _ o' (-> & ? & ?). split; [done|]. split; by constructor.
Qed.

(** What committing the batch [p] makes of the overlay [o]. *)
Record committed_by o (p : PreparedBatch) o' (c : Lsn) : Prop := {
  com_lsn : prepared_commit_lsn p = Some c ∧ next_revision o ≤ c < next_lsn o';
  com_view : ∀ i, view o' i = match changed_decoded p !! i with Some q => Some q | None => view o i end;
  com_images : ∀ i, match changed_decoded p !! i with
    | Some q => ∃ img, changed_pages p !! i = Some img ∧ Format.encode q i = Ok img ∧ FormatLaws.wf_page q ∧
        FIRST_DATA_PAGE ≤ i ≤ high_water_page_id o' ∧ Format.page_lsn q = c
    | None => changed_pages p !! i = None
    end;
  com_header : header (store o') = header (store o);
  com_root : prepared_root p = root_page_id o';
  com_free : prepared_free_list_head p = free_list_head o';
  com_high : prepared_high_water p = high_water_page_id o';
  com_revision : prepared_next_revision p = next_revision o' ∧ next_revision o' = c + 1 ∧ next_lsn o' = c + 1;
  com_batch : batch_id p = next_batch_id o ∧ next_batch_id o' = next_batch_id o + 1;
  com_superblock : new_superblock p = current_superblock o' ∧ new_slot p = active_slot o' ∧
    active_slot o' = other_slot (active_slot o) ∧ base_generation p = Superblock.generation (current_superblock o) ∧
    next_generation (current_superblock o) (current_superblock o') o';
  com_exact : sh_wal (header (store o)) = true → c = next_lsn o + (Z.of_nat (size (changed_pages p)) + 1);
  com_fresh : high_water_page_id o ≤ high_water_page_id o' ∧
    ∀ i, high_water_page_id o < i ≤ high_water_page_id o' → is_Some (changed_pages p !! i);
}.

Lemma restamp_lsn p r c : Format.page_lsn (Format.restamp p r c) = c.
Proof. by destruct p. Qed.

Lemma finished_dom o p o' r c : finished o p o' r c → dom (changed_pages p) = dirty o.
Proof.
  intros F. apply set_eq. intros i. rewrite elem_of_dom. destruct (decide (i ∈ dirty o)) as [Hd|Hd].
  - destruct (fin_pages _ _ _ _ _ F i Hd) as (q & img & _ & _ & -> & _). naive_solver.
  - destruct (fin_others _ _ _ _ _ F i Hd) as [_ ->]. split; [by intros []|done].
Qed.

Lemma finished_committed o o1 p o' r c :
  same_meta (set_last_lsn (Some r) o) (set_last_lsn (Some r) o1) → r = next_revision o →
  (high_water_page_id o ≤ high_water_page_id o1 ∧
     ∀ i, high_water_page_id o < i ≤ high_water_page_id o1 → i ∈ dirty o1) →
  finished o1 p o' r c → committed_by o p o' c.
Proof.
  intros [M1 M2 M3 M4 M5 M6 M7 M8 M9] -> [K1 K2] F. pose proof (finished_dom _ _ _ _ _ F) as Hdom.
  destruct F as [F1 F2 F3 F4 F5 F6 F7 F8 F9 F10 F11 F12 F13 F14 F15 F16]. simpl in *.
  change (∀ i, i ∉ dirty o1 → view o1 i = view o i) in M9.
  destruct F12 as (E1 & E2 & E3), F14 as (E4 & E5 & E6 & E7 & E8). split.
  - split; [done|]. rewrite E2. lia.
  - intros i. destruct (decide (i ∈ dirty o1)) as [Hd|Hd].
    + by destruct (F4 i Hd) as (q & img & Hq & -> & _).
    + destruct (F5 i Hd) as [-> _]. rewrite (F3 i), decide_False by done. by apply M9.
  - intros i. destruct (decide (i ∈ dirty o1)) as [Hd|Hd].
    + destruct (F4 i Hd) as (q & img & Hq & -> & Hc & He & Hwf & Hran). exists img.
      destruct F11 as [-> _]. split_and!; try done; [apply Hran..|].
      rewrite (F3 i), decide_True in Hq by done. destruct (view o1 i) as [p0|]; [|done].
      injection Hq as <-. apply restamp_lsn.
    + by destruct (F5 i Hd) as [-> ->].
  - by rewrite F6.
  - destruct F9. congruence.
  - destruct F10. congruence.
  - destruct F11. congruence.
  - split_and!; congruence.
  - destruct F13. split; congruence.
  - rewrite M6, M7 in *. split_and!; try congruence. rewrite E4. unfold next_generation in *.
    destruct F9 as [-> _], F10 as [-> _], F11 as [-> _]. done.
  - intros Hw. unfold commit_lsn_for in F15. rewrite M1, Hw, M4 in F15. rewrite <-size_dom, Hdom.
    destruct (checked_add (Z.of_nat (size (dirty o1))) 1) as [x|] eqn:X1; [|done]. simpl in F15.
    apply checked_add_Some in X1 as [-> _]. destruct (checked_add (next_lsn o) _) as [y|] eqn:X2; [|done].
    apply checked_add_Some in X2 as [-> _]. simpl in F15. congruence.
  - destruct F11 as [-> _]. split; [done|]. intros i Hi. apply elem_of_dom. rewrite Hdom. by apply K2.
Qed.

Lemma capacity_after o o1 o' H H1 n k p c r :
  capacity o H n → (1 ≤ k ≤ n)%nat → (∀ m, reach o1 H1 m ≤ reach o H (k + m)) →
  finished o1 p o' r c → c ≤ next_lsn o + high_water_page_id o1 →
  next_batch_id o1 = next_batch_id o → current_superblock o1 = current_superblock o → 0 ≤ high_water_page_id o →
  capacity o' H1 (n - k) ∧ ∀ top, headroom top o H n → headroom top o' H1 (n - k).
Proof.
  intros (C1 & C2 & C3 & C4) Hk Hreach F Hc Eb Es H0. destruct (fin_high _ _ _ _ _ F) as [Ehw _].
  assert (Hr : reach o' H1 (n - k) ≤ reach o H n).
  { replace n with (k + (n - k))%nat at 2 by lia. etrans; [|apply Hreach]. unfold reach. by rewrite Ehw. }
  pose proof (Hreach 0%nat) as Hr0. pose proof (reach_ge o1 H1 0) as Hg.
  assert (reach o H (k + 0) ≤ reach o H n) by (apply reach_mono; lia).
  pose proof (reach_ge o H n). destruct (fin_revision _ _ _ _ _ F) as (_ & El & _).
  destruct (fin_batch _ _ _ _ _ F) as [_ Eb']. destruct (fin_superblock _ _ _ _ _ F) as (Ess & _ & _ & _ & Hng).
  destruct Hng as (_ & Eg & _). assert (Hnk : Z.of_nat (n - k) + 1 ≤ Z.of_nat n) by lia. split; [split_and!|].
  - rewrite El. nia.
  - rewrite Ess, Eg, Es. lia.
  - rewrite Eb', Eb. lia.
  - lia.
  - intros top (T1 & T2 & T3). split_and!; [lia| |done]. rewrite El. nia.
Qed.

(** How a transaction ends. *)
Definition transaction_outcome (top : Z) (n : nat) (q : TransactionRequest) (db : Reference.ReferenceDb) o
    (op : option PreparedBatch) o' : Prop :=
  validate q = Ok tt ∧ Reference.first_conflict db (conditions q) = None ∧ within_limits (limits_of o) q ∧
  match op with
  | None => mutations q = [] ∧ sim o o'
  | Some p => mutations q ≠ [] ∧ changed_pages p ≠ ∅ ∧ ∃ c, committed_by o p o' c ∧
      provisioned top (n - length (mutations q)) o' (Reference.mutate_all c (mutations q) (Reference.states db))
  end.

Definition transaction_failure (q : TransactionRequest) (db : Reference.ReferenceDb) o (e : Error) o' : Prop :=
  (∃ m, e = InvalidRequest m ∧ validate q = Err e ∧ o' = o) ∨
  (∃ x, e = Conflict x ∧ validate q = Ok tt ∧ Reference.first_conflict db (conditions q) = Some x ∧ sim o o') ∨
  (rejected e ∧ validate q = Ok tt ∧ ¬ within_limits (limits_of o) q ∧ sim o o').

(** Requests whose keys are short enough for the pages to be split; a key beyond the
    documented limit is rejected before anything is written. *)
Definition key_fits (k : DocumentKey) : Prop :=
  Key.wf k ∧ (len (Key.encode k) ≤ SPLIT_KEY_LIMIT ∨ MAX_ENCODED_KEY_SIZE < len (Key.encode k)).
Definition keys_fit (q : TransactionRequest) : Prop :=
  Forall (λ m, key_fits (mutation_key m)) (mutations q) ∧ Forall (λ c, Key.wf (condition_key c)) (conditions q).

Lemma fit_within_short lim ms :
  Forall (λ m, key_fits (mutation_key m)) ms → Forall (mutation_within lim) ms → Forall short_mutation ms.
Proof.
  intros Hf Hw. induction Hf as [|m ms [_ Hm] _ IH]; [constructor|]. apply Forall_cons in Hw as [[Hle _] Hw].
  constructor; [|by apply IH]. unfold short_mutation. destruct Hm; lia.
Qed.

Lemma validate_errors q : validate q = Ok tt ∨ ∃ m, validate q = Err (InvalidRequest m).
Proof.
  unfold validate, fail_if. destruct (_ && _); [by right; eexists|]. simpl.
  repeat match goal with |- context [insert_all_distinct ?a ?b ?c] =>
    destruct (insert_all_distinct_Err a b c _ eq_refl) as [-> | ->]; simpl end; eauto.
Qed.

Lemma committed_sim o o1 p o' c : sim o o1 → committed_by o1 p o' c → committed_by o p o' c.
Proof.
  intros S [C1 C2 C3 C4 C5 C6 C7 C8 C9 C10 C11 C12]. rewrite (sim_high _ _ S) in C12.
  rewrite (sim_header _ _ S), (sim_lsn _ _ S) in C11.
  rewrite (sim_revision _ _ S) in C1. rewrite (sim_header _ _ S) in C4. rewrite (sim_batch _ _ S) in C9.
  rewrite (sim_slot _ _ S), (sim_superblock _ _ S) in C10. split; try done.
  intros i. rewrite C2. by rewrite (sim_view _ _ S).
Qed.

Lemma committed_idle o o1 p o' r c :
  idle o → finished o1 p o' r c → committed_by o p o' c → idle o'.
Proof.
  intros [D1 D2 D3 D4 D5 D6] F C. destruct (com_revision _ _ _ _ C) as (_ & Er & El).
  destruct (com_lsn _ _ _ _ C) as [_ Hc]. split.
  - apply F.
  - apply F.
  - rewrite Er, El. lia.
  - intros id q Hq. rewrite Er. destruct (decide (id ∈ dirty o1)) as [Hd|Hd].
    + rewrite (fin_restamped _ _ _ _ _ F id), decide_True in Hq by done.
      destruct (view o1 id) as [p0|]; [|done]. injection Hq as <-. destruct p0; simpl; lia.
    + rewrite (com_view _ _ _ _ C id) in Hq. destruct (fin_others _ _ _ _ _ F id Hd) as [E _].
      rewrite E in Hq. apply D4 in Hq. lia.
  - apply (com_superblock _ _ _ _ C).
  - unfold limits_ok. by rewrite (com_header _ _ _ _ C).
Qed.

(** Every row is in a page that is at least as new. *)
Lemma row_in_page o G H fl db k r ov :
  inv o ∅ G G H fl db → db !! k = Some (r, ov) → ∃ id p, view o id = Some p ∧ r ≤ Format.page_lsn p.
Proof.
  intros Hi Hk. pose proof (find_leaf_spec o G H fl db k Hi) as Hf. unfold wp in Hf.
  destruct (find_leaf k o) as [[[id route]| |] o']; [|done..].
  destruct Hf as (_ & rr & lo & hi & _ & _ & Hid & Hb). cbn [fst] in Hid.
  destruct (inv_pages _ _ _ _ _ _ _ Hi id _ Hid) as (lsn & next & es & Hv & (_ & _ & Hst) & HL); [set_solver|].
  exists id, (Format.Leaf lsn next es). split; [done|]. pose proof (leaf_contents _ _ _ _ _ _ _ HL k Hb) as Hd.
  rewrite Hk in Hd. destruct (find_entry es k) as [e|] eqn:Ee; [|done]. destruct Hd as [<- _].
  apply find_entry_Some in Ee as [He _]. simpl in Hst. rewrite Forall_forall in Hst. by apply Hst.
Qed.

Lemma mutate_all_writes r ms s :
  ms ≠ [] → ∃ k ov, abs (Reference.mutate_all r ms s) !! k = Some (r, ov).
Proof.
  intros Hne. destruct ms as [|m ms _] using rev_ind; [done|]. unfold Reference.mutate_all.
  rewrite foldl_snoc, abs_insert. exists (Key.encode (mutation_key m)). rewrite lookup_insert_eq. by destruct m; eexists.
Qed.

(** A transaction with mutations changes a page. *)
Lemma committed_changes o p o' c n ms s :
  idle o → committed_by o p o' c → represents n o' (Reference.mutate_all c ms s) → ms ≠ [] → changed_pages p ≠ ∅.
Proof.
  intros Hd C (G & H & fl & Hi & _) Hne He. destruct (mutate_all_writes c ms s Hne) as (k & ov & Hk).
  destruct (row_in_page _ _ _ _ _ _ _ _ Hi Hk) as (id & q & Hv & Hle). rewrite (com_view _ _ _ _ C) in Hv.
  pose proof (com_images _ _ _ _ C id) as Him. rewrite He, lookup_empty in Him.
  destruct (changed_decoded p !! id); [by destruct Him as (? & ? & _)|].
  apply (idle_pages _ Hd) in Hv. pose proof (com_lsn _ _ _ _ C). lia.
Qed.

Lemma prepare_transaction_spec top n q o db :
  provisioned top n o (Reference.states db) → (length (mutations q) ≤ n)%nat → keys_fit q → short_keys (Reference.states db) →
  wp (prepare_transaction q) (transaction_outcome top n q db o) (transaction_failure q db o) o.
Proof.
  intros (G & H & fl & Hi & Hcap & Hidle & Hrevs & Hhead) Hn [Hkm Hkc] Hsh. unfold prepare_transaction. wp_step. apply wp_lift.
  destruct (validate_errors q) as [Hval|[m Hval]]; rewrite Hval; [|left; eauto].
  wp_step. eapply wp_mono; [apply validate_mutations_spec; eapply Forall_impl; [exact Hkm|]; by intros m [? _]| |].
  2:{ intros e o' (-> & He & Hn'). right; right. split_and!; [done..| |done]. by intros [? _]. }
  intros _ o' (-> & Hms & Hmw). cbv beta. wp_step. eapply wp_mono; [by eapply check_conditions_spec| |].
  2:{ intros e o' [S [[He Hn']|(x & -> & Hx)]]; right; [right|left; eauto 10]. split_and!; [done..| |done]. by intros [_ ?]. }
  intros _ o1 (S & Hconf & Hcw). cbv beta. assert (Hwithin : within_limits (limits_of o) q) by done.
  pose proof (fit_within_short _ _ Hkm Hmw) as Hshort.
  assert (Hmut : mutations q ≠ [] → wp (for_each apply_mutation (mutations q);; Some <$> finish_transaction)
    (transaction_outcome top n q db o) (transaction_failure q db o) o1).
  2:{ destruct (mutations q) as [|m ms] eqn:Em; [|by apply Hmut].
      apply wp_ret. split_and!; done. }
  intros Hne. pose proof (inv_sim _ _ _ _ _ _ _ _ Hi S) as Hi1. pose proof (idle_sim _ _ S Hidle) as [D1 D2 D3 D4 D5 D6].
  pose proof (capacity_sim _ _ _ _ S Hcap) as Hcap1. pose proof Hcap1 as (C1 & C2 & C3 & C4).
  rewrite <-(sim_revision _ _ S) in Hrevs.
  assert (Hw : write_revision o1 = next_revision o1) by (unfold write_revision; by rewrite D2).
  assert (1 ≤ length (mutations q))%nat as Hlen by (destruct (mutations q); [done|simpl; lia]).
  pose proof (reach_mono o1 H (length (mutations q)) n Hn) as Hmono. pose proof (reach_ge o1 H n) as Hge.
  pose proof (inv_high _ _ _ _ _ _ _ Hi1) as Hhigh. unfold FIRST_DATA_PAGE in Hhigh.
  assert (Hsum : next_lsn o1 + reach o1 H n + 2 < U64_MAX) by nia.
  wp_step. eapply wp_mono; [eapply (wp_ok _ _ (λ _ o', high_water_page_id o1 ≤ high_water_page_id o' ∧
    ∀ i, high_water_page_id o1 < i ≤ high_water_page_id o' → i ∈ dirty o')); [|intros [] o' E; by apply (OverlayPages.mutations_cover _ _ _ _ E)];
    apply (apply_all_spec (mutations q) o1 G H fl (Reference.states db) (next_revision o1)); try done| |].
  { eapply Forall_impl; [exact Hms|]. intros x. apply valid_mutation_header, (sim_header _ _ S). }
  { ulia. }
  { lia. }
  { lia. }
  { intros k x ov Hk. apply Z.lt_le_incl. by eapply Hrevs. }
  2:{ done. }
  intros _ o2 [(Hm & Hl & G2 & H2 & fl2 & Hi2 & Hreach) Hcov]. cbv beta.
  assert (last_lsn o2 = Some (next_revision o1)) as Hl2 by (rewrite Hl; by destruct (mutations q)).
  pose proof Hm as [M1 M2 M3 M4 M5 M6 M7 M8 M9]. simpl in M1, M2, M4, M5, M6, M7.
  pose proof (Hreach 0%nat) as Hr0. pose proof (reach_ge o2 H2 0) as Hg2.
  assert (reach o1 H (length (mutations q) + 0) ≤ reach o1 H n) by (apply reach_mono; lia).
  wp_step. eapply wp_mono; [eapply (finish_transaction_spec o2 G2 H2 fl2 _ (next_revision o1)); [exact Hi2|exact Hl2|..]| |by intros].
  { rewrite M4. lia. }
  { apply mutate_all_le. intros k x ov Hk. apply Z.lt_le_incl. by eapply Hrevs. }
  { intros id p Hd. change (view o2 id) with (view (set_last_lsn (Some (next_revision o1)) o2) id).
    rewrite M9 by done. apply D4. }
  { by rewrite M6. }
  { rewrite M6. lia. }
  { rewrite M5. lia. }
  { rewrite M4. lia. }
  intros p o' (c & F & Hc & Hi3). rewrite M4 in Hc.
  assert (C : committed_by o1 p o' c) by (by eapply finished_committed).
  assert (Hrep : provisioned top (n - length (mutations q)) o' (Reference.mutate_all c (mutations q) (Reference.states db))).
  2:{ split_and!; [done|done|apply Hwithin..|done| |exists c; split; [by eapply committed_sim|done]].
      eapply (committed_changes o1); [by eapply idle_sim|done|by eapply provisioned_represents|done]. }
  rewrite restamp_mutate_all in Hi3 by done. exists G2, H2, fl2.
  destruct (capacity_after o1 o2 o' H H2 n (length (mutations q)) p c (next_revision o1)) as [Hcap' Hhead'];
    [done|lia|exact Hreach|done|lia|done|done|lia|]. split_and!.
  - done.
  - done.
  - eapply (committed_idle o1); [by eapply idle_sim|done|done].
  - destruct (com_revision _ _ _ _ C) as (_ & -> & _). intros k x ov Hk.
    eapply Z.le_lt_trans; [eapply mutate_all_le; [|exact Hk]|lia].
    intros k' x' ov' Hk'. apply Hrevs in Hk'. pose proof (fin_lsn _ _ _ _ _ F). lia.
  - apply Hhead'. unfold headroom, reach in *. by rewrite (sim_high _ _ S), (sim_lsn _ _ S).
Qed.

(** ** Groups *)

(** A run of a group on the reference database: the results of its requests and
    the database they leave.  A request within the limits [lim] commits, is checked, or
    has the error of the reference; one that is beyond them has that error too, or is
    rejected as invalid input, and never commits. *)
Inductive group_run (lim : StorageLimits) : Reference.ReferenceDb → list TransactionRequest →
    list (Result Error TransactionResult) → Reference.ReferenceDb → Prop :=
  | run_nil db : group_run lim db [] [] db
  | run_commit db db1 db' q qs c rs :
      mutations q ≠ [] → within_limits lim q → Reference.transact_at q c db = (Ok c, db1) → group_run lim db1 qs rs db' →
      group_run lim db (q :: qs) (Ok (mkResult (Some c)) :: rs) db'
  | run_check db db' q qs rs :
      mutations q = [] → within_limits lim q → validate q = Ok tt → Reference.first_conflict db (conditions q) = None →
      group_run lim db qs rs db' → group_run lim db (q :: qs) (Ok (mkResult None) :: rs) db'
  | run_error db db' q qs e rs :
      (∀ c, 0 < c < U64_MAX → Reference.transact_at q c db = (Err e, db)) →
      group_run lim db qs rs db' → group_run lim db (q :: qs) (Err e :: rs) db'
  | run_reject db db' q qs e rs :
      validate q = Ok tt → ¬ within_limits lim q → rejected e →
      group_run lim db qs rs db' → group_run lim db (q :: qs) (Err e :: rs) db'.

Lemma transact_at_states q c db c' db' :
  Reference.transact_at q c db = (Ok c', db') → Reference.states db' = Reference.mutate_all c (mutations q) (Reference.states db).
Proof.
  unfold Reference.transact_at, fail_when, fail_if, lift_r, mbind, St_bind. destruct (c =? ZERO); [done|].
  destruct (validate q); [|done..]. rewrite Reference.check_all. destruct (Reference.first_conflict _ _); [done|].
  rewrite Reference.apply_all. unfold Revision_from. destruct (ok_or _ _); [|done..]. intros [= _ <-].
  by destruct (_ <? _).
Qed.

(** A group leaves the keys of the database short. *)
Lemma group_run_short lim db qs rs db' :
  group_run lim db qs rs db' → Forall keys_fit qs → short_keys (Reference.states db) → short_keys (Reference.states db').
Proof.
  induction 1 as [db|db db1 db' q qs c rs _ [Hw _] Ht Hr IH|db db' q qs rs _ _ _ _ Hr IH|db db' q qs e rs _ Hr IH|db db' q qs e rs _ _ _ Hr IH];
    intros Hqs Hs; [done|..]; apply Forall_cons in Hqs as [[Hq _] Hqs]; auto.
  apply IH; [done|]. pose proof (fit_within_short _ _ Hq Hw) as Hsm. apply transact_at_states in Ht as ->. by apply short_keys_mutate.
Qed.

Definition writes (qs : list TransactionRequest) : nat := sum_list (length ∘ mutations <$> qs).

Lemma transact_at_failure q db e :
  (∃ m, e = InvalidRequest m ∧ validate q = Err e) ∨
  (∃ x, e = Conflict x ∧ validate q = Ok tt ∧ Reference.first_conflict db (conditions q) = Some x) →
  ∀ c, 0 < c < U64_MAX → Reference.transact_at q c db = (Err e, db).
Proof.
  intros [(m & -> & Hv)|(x & -> & Hv & Hx)] c Hc.
  - unfold Reference.transact_at, fail_when, lift_r, fail_if, mbind, St_bind, ZERO.
    rewrite (proj2 (Z.eqb_neq c 0)) by lia. by rewrite Hv.
  - rewrite Reference.transact_at_eq by (done || lia). by rewrite Hx.
Qed.

Lemma transact_at_success q db c :
  validate q = Ok tt → Reference.first_conflict db (conditions q) = None → 0 < c < U64_MAX →
  ∃ db', Reference.transact_at q c db = (Ok c, db') ∧
    Reference.states db' = Reference.mutate_all c (mutations q) (Reference.states db).
Proof.
  intros Hv Hx Hc. rewrite Reference.transact_at_eq by (done || lia). rewrite Hx. eexists. split; [done|]. done.
Qed.

Lemma committed_lsn_range n o p o' c s s' :
  represents n o s → committed_by o p o' c → represents 0 o' s' → 0 < c < U64_MAX.
Proof.
  intros (G & H & fl & Hi & _ & Hd & _) C (G' & H' & fl' & Hi' & (C1 & _) & Hd' & _).
  pose proof (com_lsn _ _ _ _ C) as [_ Hc]. pose proof (idle_revision _ Hd).
  pose proof (inv_high _ _ _ _ _ _ _ Hi'). unfold reach, FIRST_DATA_PAGE in *. lia.
Qed.

Lemma represents_le n m o s : (m ≤ n)%nat → represents n o s → represents m o s.
Proof.
  intros Hnm (G & H & fl & Hi & (C1 & C2 & C3 & C4) & Hd & Hr). exists G, H, fl.
  split_and!; [done| |done|done]. pose proof (reach_mono o H m n Hnm). pose proof (reach_ge o H m). pose proof (inv_high _ _ _ _ _ _ _ Hi).
  unfold FIRST_DATA_PAGE in *. pose proof (idle_revision _ Hd). split_and!; [nia|lia|lia|lia].
Qed.

Lemma provisioned_le top n m o s : (m ≤ n)%nat → provisioned top n o s → provisioned top m o s.
Proof.
  intros Hnm (G & H & fl & Hi & (C1 & C2 & C3 & C4) & Hd & Hr & (T1 & T2 & T3)). exists G, H, fl.
  pose proof (reach_mono o H m n Hnm). pose proof (reach_ge o H m). pose proof (inv_high _ _ _ _ _ _ _ Hi).
  unfold FIRST_DATA_PAGE in *. pose proof (idle_revision _ Hd). split_and!; try done; split_and!; try lia; nia.
Qed.

(** The batches of a group, one after the other. *)
Inductive stages : Overlay B → list PreparedBatch → Overlay B → Prop :=
  | stages_nil o o' : sim o o' → stages o [] o'
  | stages_cons o p c o1 ps o' :
      committed_by o p o1 c → changed_pages p ≠ ∅ → (∃ s, represents 0 o1 s) → stages o1 ps o' →
      stages o (p :: ps) o'.

Lemma stages_sim o o1 ps o' : sim o o1 → stages o1 ps o' → stages o ps o'.
Proof.
  intros S Hs. destruct Hs as [o1 o' S'|o1 p c o2 ps o' C Hne Hh Hs]; [constructor; by etrans|].
  econstructor; [by eapply committed_sim|done..].
Qed.

(** A group that was prepared: its batches [ps], its results [rs] and the overlay
    [o'] that holds the reference database [db'].  The first batches are those of
    some first requests, and an overlay that stopped there has room for the counters
    that the group has reached. *)
Record group_ok (n : nat) db qs o ps rs db' o' : Prop := {
  go_run : prepare_group qs o = (Ok (ps, rs), o');
  go_reference : group_run (limits_of o) db qs rs db';
  go_represents : represents (n - writes qs) o' (Reference.states db');
  go_stages : stages o ps o';
  go_count : (length ps ≤ writes qs)%nat;
  go_newest : newest (Reference.states db) (next_revision o) → newest (Reference.states db') (next_revision o');
  go_prefixes : ∀ m, (m ≤ length ps)%nat → ∃ qs1 qs2 db1 o1,
    qs = qs1 ++ qs2 ∧ (m = length ps → qs2 = []) ∧ group_run (limits_of o) db qs1 (take (length qs1) rs) db1 ∧ stages o (take m ps) o1 ∧
    (newest (Reference.states db) (next_revision o) → newest (Reference.states db1) (next_revision o1)) ∧
    ∀ l k, next_revision o1 ≤ l ≤ next_lsn o' → k ≤ next_batch_id o' →
      represents (n - writes qs) (set_next_batch_id k (set_next_lsn l o1)) (Reference.states db1);
}.

(** The same with the bound [top] that the whole group keeps. *)
Record group_prepared (top : Z) (n : nat) db qs o ps rs db' o' : Prop := {
  gp_run : prepare_group qs o = (Ok (ps, rs), o');
  gp_reference : group_run (limits_of o) db qs rs db';
  gp_provisioned : provisioned top (n - writes qs) o' (Reference.states db');
  gp_stages : stages o ps o';
  gp_count : (length ps ≤ writes qs)%nat;
  gp_newest : newest (Reference.states db) (next_revision o) → newest (Reference.states db') (next_revision o');
  gp_prefixes : ∀ m, (m ≤ length ps)%nat → ∃ qs1 qs2 db1 o1,
    qs = qs1 ++ qs2 ∧ (m = length ps → qs2 = []) ∧ group_run (limits_of o) db qs1 (take (length qs1) rs) db1 ∧ stages o (take m ps) o1 ∧
    (newest (Reference.states db) (next_revision o) → newest (Reference.states db1) (next_revision o1)) ∧
    provisioned top (n - writes qs1) o1 (Reference.states db1);
}.

Lemma writes_cons q qs : writes (q :: qs) = (length (mutations q) + writes qs)%nat.
Proof. done. Qed.
Lemma writes_app qs qs' : writes (qs ++ qs') = (writes qs + writes qs')%nat.
Proof. induction qs as [|q qs IH]; [done|]. cbn [app]. rewrite !writes_cons, IH. lia. Qed.

Lemma prefix_counters top N n o' s' o1 s1 l k :
  provisioned top N o' s' → provisioned top n o1 s1 → (N ≤ n)%nat →
  next_revision o1 ≤ l ≤ next_lsn o' → k ≤ next_batch_id o' →
  represents N (set_next_batch_id k (set_next_lsn l o1)) s1.
Proof.
  intros (G' & H' & fl' & _ & (_ & _ & P3 & _) & _ & _ & (_ & P5 & P6)) (G & H & fl & Hi & (C1 & C2 & C3 & C4) & [D1 D2 D3 D4 D5 D6] & Hr & (T1 & _ & _))
    Hn Hl Hk. exists G, H, fl. pose proof (reach_mono o1 H N n Hn) as Hm. split_and!.
  - eapply inv_view; try done; apply Hi.
  - change (l + (Z.of_nat N + 1) * (reach o1 H N + 2) < U64_MAX ∧ Superblock.generation (current_superblock o1) + Z.of_nat N < U64_MAX ∧
      k + Z.of_nat N < U64_MAX ∧ reach o1 H N < U32_MAX). split_and!; [nia|lia|lia|lia].
  - split; try done. simpl. lia.
  - done.
Qed.

Lemma prepared_ok top n db qs o ps rs db' o' : group_prepared top n db qs o ps rs db' o' → group_ok n db qs o ps rs db' o'.
Proof.
  intros [P1 P2 P3 P4 P5 P6 P7]. split; try done; [by eapply provisioned_represents|].
  intros m Hm. destruct (P7 m Hm) as (qs1 & qs2 & db1 & o1 & -> & Hall & Hrun & Hst & Hnew & Hp).
  exists qs1, qs2, db1, o1. split_and!; try done. intros l k Hl Hk.
  eapply prefix_counters; [exact P3|exact Hp| |done|done]. rewrite writes_app. lia.
Qed.

Lemma group_ok_nil top n db o : provisioned top n o (Reference.states db) → group_prepared top n db [] o [] [] db o.
Proof.
  intros Hr. assert (n - writes [] = n)%nat as E by (unfold writes; simpl; lia). split; rewrite ?E; try done; try by constructor.
  intros m _. rewrite take_nil. exists [], [], db, o. rewrite E. split_and!; try done; by constructor.
Qed.

(** One more request in front. *)
Lemma group_commit top n db db1 q o p o1 c qs ps rs db' o' :
  prepare_transaction q o = (Ok (Some p), o1) → committed_by o p o1 c → changed_pages p ≠ ∅ →
  mutations q ≠ [] → within_limits (limits_of o) q → Reference.transact_at q c db = (Ok c, db1) → (∃ s, represents 0 o1 s) →
  provisioned top n o (Reference.states db) → newest (Reference.states db1) (next_revision o1) →
  group_prepared top (n - length (mutations q)) db1 qs o1 ps rs db' o' →
  group_prepared top n db (q :: qs) o (p :: ps) (Ok (mkResult (Some c)) :: rs) db' o'.
Proof.
  intros Ep C Hch Hne Hw Ht Hh H0 Hnew [Hrun Href Hrep Hst Hcnt Hn' Hpre].
  rewrite (com_header _ _ _ _ C) in Href. setoid_rewrite (com_header _ _ _ _ C) in Hpre. split.
  - cbn [prepare_group]. by rewrite Ep, (proj1 (com_lsn _ _ _ _ C)), Hrun.
  - by eapply run_commit.
  - rewrite writes_cons. by rewrite Nat.sub_add_distr.
  - by econstructor.
  - rewrite writes_cons. destruct (mutations q); simpl in *; [done|lia].
  - auto.
  - intros [|m] Hm.
    { exists [], (q :: qs), db, o. cbn [take app length]. assert (n - writes [] = n)%nat as -> by (unfold writes; simpl; lia).
      split_and!; try done; by constructor. }
    simpl in Hm. destruct (Hpre m) as (qs1 & qs2 & db2 & o2 & -> & Ha1 & Hr1 & Hs1 & Hn1 & Hp1); [lia|].
    exists (q :: qs1), qs2, db2, o2.
    cbn [length take]. split_and!; [done|auto with lia|by eapply run_commit|by econstructor|auto|].
    rewrite writes_cons. by rewrite Nat.sub_add_distr.
Qed.

(** A request that leaves the overlay as it was. *)
Lemma group_skip top n db q r o o1 qs ps rs db' o' :
  sim o o1 → (∀ qs' rs' db'', group_run (limits_of o) db qs' rs' db'' → group_run (limits_of o) db (q :: qs') (r :: rs') db'') →
  prepare_group (q :: qs) o = (Ok (ps, r :: rs), o') → 
  group_prepared top n db qs o1 ps rs db' o' → group_prepared top n db (q :: qs) o ps (r :: rs) db' o'.
Proof.
  intros S Hrun Hq [_ Href Hrep Hst Hcnt Hn' Hpre]. rewrite (sim_header _ _ S) in Href. setoid_rewrite (sim_header _ _ S) in Hpre.
  rewrite (sim_revision _ _ S) in Hn'. split; try done.
  - auto.
  - eapply provisioned_le; [|exact Hrep]. rewrite writes_cons. lia.
  - by eapply stages_sim.
  - rewrite writes_cons. lia.
  - intros m Hm. destruct (Hpre m Hm) as (qs1 & qs2 & db2 & o2 & -> & Ha1 & Hr1 & Hs1 & Hn1 & Hp1).
    rewrite (sim_revision _ _ S) in Hn1.
    exists (q :: qs1), qs2, db2, o2. cbn [length take]. split_and!; [done|done|auto|by eapply stages_sim|done|].
    eapply provisioned_le; [|exact Hp1]. rewrite writes_cons. lia.
Qed.

(** Every group on a database with short keys is prepared. *)
Lemma prepare_group_prepared top qs n o db :
  provisioned top n o (Reference.states db) → (writes qs ≤ n)%nat → Forall keys_fit qs → short_keys (Reference.states db) →
  ∃ ps rs db' o', group_prepared top n db qs o ps rs db' o'.
Proof.
  revert n o db. induction qs as [|q qs IH]; intros n o db Hr Hn Hwf Hsh.
  { eexists _, _, _, _. by apply group_ok_nil. }
  apply Forall_cons in Hwf as [Hq Hqs]. rewrite writes_cons in Hn.
  pose proof (prepare_transaction_spec top n q o db Hr ltac:(lia) Hq Hsh) as Hp. unfold wp in Hp.
  destruct (prepare_transaction q o) as [[[p|]|e|] o1] eqn:Ep; [..|done].
  - destruct Hp as (Hv & Hx & Hw & Hne & Hch & c & C & Hr1). pose proof (provisioned_represents _ _ _ _ Hr1) as Hr1'.
    destruct (transact_at_success q db c Hv Hx) as (db1 & Ht & Es).
    { eapply committed_lsn_range; [exact (provisioned_represents _ _ _ _ Hr)|exact C|]. eapply represents_le; [|exact Hr1']. lia. }
    assert (Hnew : newest (Reference.states db1) (next_revision o1)).
    { right. rewrite Es. destruct (mutate_all_writes c (mutations q) (Reference.states db) Hne) as (k & ov & Hk).
      exists k, c, ov. split; [done|]. apply (com_revision _ _ _ _ C). }
    rewrite <-Es in Hr1. destruct (IH _ _ _ Hr1 ltac:(lia) Hqs) as (ps & rs & db' & o' & Hg).
    { rewrite Es. apply short_keys_mutate; [done|]. eapply fit_within_short; [apply Hq|apply Hw]. }
    eexists _, _, _, _. eapply group_commit; try done. eexists. eapply represents_le; [|exact Hr1']. lia.
  - destruct Hp as (Hv & Hx & Hw & Hm & S). apply (provisioned_sim _ _ _ _ _ S) in Hr.
    destruct (IH _ _ _ Hr ltac:(lia) Hqs Hsh) as (ps & rs & db' & o' & Hg). eexists _, _, _, _.
    eapply (group_skip _ _ _ _ (Ok (mkResult None))); [exact S|intros; by eapply run_check| |exact Hg].
    cbn [prepare_group]. by rewrite Ep, (gp_run _ _ _ _ _ _ _ _ _ Hg).
  - assert (Hcont : sim o o1 → (∃ x, e = Conflict x) ∨ (∃ m, e = InvalidRequest m) ∨ rejected e →
      (∀ qs' rs' db'', group_run (limits_of o) db qs' rs' db'' → group_run (limits_of o) db (q :: qs') (Err e :: rs') db'') →
      ∃ ps rs db' o', group_prepared top n db (q :: qs) o ps rs db' o').
    { intros S Hkind He. apply (provisioned_sim _ _ _ _ _ S) in Hr.
      destruct (IH _ _ _ Hr ltac:(lia) Hqs Hsh) as (ps & rs & db' & o' & Hg). eexists _, _, _, _.
      eapply (group_skip _ _ _ _ (Err e)); [exact S|done| |exact Hg].
      cbn [prepare_group]. rewrite Ep, (gp_run _ _ _ _ _ _ _ _ _ Hg). by destruct Hkind as [[x ->]|[[m ->]|[m ->]]]. }
    destruct Hp as [(m & -> & Hv & ->)|[(x & -> & Hv & Hx & S)|(He & Hv & Hw & S)]].
    + apply Hcont; [done|by right; left; eexists|]. intros. apply run_error; [|done]. apply transact_at_failure. left. eauto.
    + apply Hcont; [done|by left; eexists|]. intros. apply run_error; [|done]. apply transact_at_failure. right. eauto.
    + apply Hcont; [done|by right; right|]. intros. by apply run_reject.
Qed.

Lemma prepare_group_spec qs n o db :
  represents n o (Reference.states db) → (writes qs ≤ n)%nat → Forall keys_fit qs → short_keys (Reference.states db) →
  ∃ ps rs db' o', group_ok n db qs o ps rs db' o'.
Proof.
  intros [top Hr]%represents_provisioned Hn Hwf Hsh.
  destruct (prepare_group_prepared top qs n o db Hr Hn Hwf Hsh) as (ps & rs & db' & o' & Hg%prepared_ok).
  by eexists _, _, _, _.
Qed.

(** ** The empty database *)

Lemma empty_leaf_storable : storable (Format.Leaf 0 None []).
Proof.
  split; [vm_compute; reflexivity|]. split; [|constructor]. split; [simpl; ulia|]. split; [done|constructor].
Qed.

(** An overlay of a store whose only tree page is the empty root leaf in page 2. *)
Record empty_tree o : Prop := {
  et_serving : serving (store o);
  et_root : root_page_id o = 2 ∧ free_list_head o = None ∧ high_water_page_id o = 2;
  et_view : view o 2 = Some (Format.Leaf 0 None []);
  et_only : ∀ id p, view o id = Some p → id = 2;
  et_idle : dirty o = ∅ ∧ last_lsn o = None;
  et_counters : next_revision o = 1 ∧ next_lsn o = 1 ∧ next_batch_id o = 1;
  et_superblock : Superblock.wf (current_superblock o) ∧ Superblock.generation (current_superblock o) = 1;
  et_limits : limits_ok o;
}.

Lemma empty_tree_inv o :
  empty_tree o → inv o ∅ {[2 := RTree 0 [] None]} {[2 := RTree 0 [] None]} 0 [] ∅.
Proof.
  intros [E1 (Er & Ef & Eh) E3 E4 [E5 _] _ _ _]. split; rewrite ?Er, ?Ef, ?Eh, ?E5; try done.
  - intros id r [<- _]%lookup_singleton_Some. done.
  - intros id h lo hi [_ [= <- _ _]]%lookup_singleton_Some. done.
  - split.
    + by intros id h lo hi [_ [= _ _ <-]]%lookup_singleton_Some.
    + by intros id id' h lo hi lo' hi' k [<- _]%lookup_singleton_Some [<- _]%lookup_singleton_Some.
  - intros id r [<- <-]%lookup_singleton_Some _. exists 0, None, [].
    split_and!; [done|apply empty_leaf_storable|]. split; [constructor|constructor|done|done].
  - constructor.
  - by intros id ?%not_elem_of_nil.
  - intros id h lo hi [_ [= _ <- _]]%lookup_singleton_Some. by left.
Qed.

Lemma empty_tree_represents o n : empty_tree o → Z.of_nat n ≤ FRESH_WRITES → represents n o ∅.
Proof.
  intros He Hn. exists {[2 := RTree 0 [] None]}, 0%nat, [].
  pose proof He as [E1 (Er & Ef & Eh) E3 E4 [E5 E5'] (C1 & C2 & C3) [E7 E7'] E8]. split_and!.
  - exact (empty_tree_inv o He).
  - unfold capacity, reach. rewrite C2, C3, E7', Eh.
    assert (Format.MAX_OVERFLOW_PAGES ≤ 20000) by (apply Z.leb_le; vm_compute; reflexivity).
    assert (0 ≤ Format.MAX_OVERFLOW_PAGES) by done.
    unfold U64_MAX, U32_MAX.
    set (x := Z.of_nat n) in *. assert (0 ≤ x) by (unfold x; lia).
    assert (x * (Format.MAX_OVERFLOW_PAGES + Z.of_nat 0 + x + 2) ≤ FRESH_WRITES * 70002) by nia.
    split_and!; [nia|simpl; lia|lia|nia].
  - split; try done; [by rewrite C1, C2|]. intros id p Hp. rewrite C1. pose proof (E4 _ _ Hp) as ->.
    rewrite E3 in Hp. by injection Hp as <-.
  - intros k x ov. unfold abs. by rewrite fmap_empty, kmap_empty.
Qed.

End txn.

End TreeTxn.
