(* ===== verification/MemStore.v ===== *)
(** * A store in memory

    The simplest implementation of the interface the overlay works against: a map
    of pages that are always read from the file.  It shows that the interface laws
    can be met, and it is the store of the concrete examples. *)

From S2P Require Import Prelude Key Core Superblock Format FormatLaws Overlay Tree TreeOps TreeTxn.

Module MemStore.
Import Core Overlay Tree TreeOps TreeTxn.

Record MemStore : Type := mkMem {
  mem_header : StoreHeader;
  mem_pages : gmap PageId PageData;
}.

#[global] Instance mem_store : CommittedStore MemStore := {
  header := mem_header;
  cache_get _ b := (None, b);
  read_page_from_file id := b ← get_st; lift_r (ok_or (mem_pages b !! id) (Corruption "page is missing"));
}.

#[global] Program Instance mem_store_spec : CommittedStoreSpec MemStore := {
  committed b id := mem_pages b !! id;
  serving _ := True;
}.
Next Obligation. done. Qed.
Next Obligation.
  intros id b p _ Hp. exists b. split_and!; try done. unfold read_page_from_file. simpl.
  unfold mbind, St_bind, get_st, lift_r. by rewrite Hp.
Qed.
Next Obligation.
  intros id b _ _. split_and!; try done. intros p. unfold read_page_from_file. simpl.
  unfold mbind, St_bind, get_st, lift_r. by destruct (mem_pages b !! id) as [q|]; [intros [= ->]|].
Qed.

(** The superblock of an empty database. *)
Definition empty_superblock : Superblock :=
  Superblock.mkSuperblock 1 1 (zeros 16) 3 4 5 4096 (Some 2) None (Some 2) 0 0.

(** A database whose root is the empty leaf in page 2. *)
Definition empty_store (wal : bool) : MemStore :=
  mkMem (mkStoreHeader wal empty_superblock Superblock.A 2 None 2 1 1 1 default_limits)
    {[2 := Format.Leaf 0 None []]}.

Definition empty_overlay (wal : bool) : Overlay MemStore := overlay_new (empty_store wal).

Lemma view_empty wal id p : view (empty_overlay wal) id = Some p → id = 2 ∧ p = Format.Leaf 0 None [].
Proof.
  unfold view. change (pages (empty_overlay wal) !! id) with (@None PageData).
  change (committed (store (empty_overlay wal)) id) with (({[2 := Format.Leaf 0 None []]} : gmap PageId PageData) !! id).
  intros [<- <-]%lookup_singleton_Some. done.
Qed.

Lemma empty_overlay_tree wal : empty_tree (empty_overlay wal).
Proof.
  split; try done.
  - by intros id p [-> _]%view_empty.
  - split; [|done]. unfold Superblock.wf. cbn -[zeros is_bytes len u64].
    split_and!; try done; try ulia. by apply is_bytes_zeros.
Qed.

Lemma empty_inv wal : inv (empty_overlay wal) ∅ {[2 := RTree 0 [] None]} {[2 := RTree 0 [] None]} 0 [] ∅.
Proof. apply empty_tree_inv, empty_overlay_tree. Qed.

Lemma empty_represents wal n : Z.of_nat n ≤ FRESH_WRITES → represents n (empty_overlay wal) ∅.
Proof. apply empty_tree_represents, empty_overlay_tree. Qed.

End MemStore.
