(* ===== verification/TreeScan.v ===== *)
(** * Scans and queries

    The leaf chain read from the leaf of a start key lists the database in key
    order; [scan_with_budget] and [query_with_budget] return the same rows as the
    reference database, or fail because the response is too large. *)

From S2P Require Import Prelude Wp Key Core Format FormatLaws Reference.
From S2P Require Import Overlay Tree TreeSearch TreeInsert TreeValue TreeOps TreeTxn.

Module TreeScan.
Import Core Overlay Tree TreeSearch TreeInsert TreeValue TreeOps TreeTxn.

Abbreviation item := (DocumentKey * RevisionState)%type.
Abbreviation stateset := (gmap DocumentKey RevisionState).

(** ** Items in key order *)

Definition item_lt (a b : item) : Prop := bytes_lt (Key.encode a.1) (Key.encode b.1).

#[global] Instance item_lt_trans : Transitive item_lt.
Proof. intros a b c. unfold item_lt. intros. by trans (Key.encode b.1). Qed.

(** [l] lists the states whose encoded keys satisfy [P], in order. *)
Record listing (s : stateset) (P : bytes → Prop) (l : list item) : Prop := {
  list_sorted : StronglySorted item_lt l;
  list_elements : ∀ k x, (k, x) ∈ l ↔ s !! k = Some x ∧ P (Key.encode k);
  list_wf : Forall (λ a : item, Key.wf a.1) l;
}.

Lemma listing_app s P1 P2 l1 l2 :
  listing s P1 l1 → listing s P2 l2 → (∀ a b, P1 a → P2 b → bytes_lt a b) →
  listing s (λ k, P1 k ∨ P2 k) (l1 ++ l2).
Proof.
  intros [S1 E1 W1] [S2 E2 W2] Hlt. split.
  - apply StronglySorted_app. split_and!; [|done|done]. intros [k x] [k' x'] [_ H1]%E1 [_ H2]%E2.
    unfold item_lt. simpl. by apply Hlt.
  - intros k x. rewrite elem_of_app, E1, E2. naive_solver.
  - by apply Forall_app.
Qed.

Lemma listing_iff s P Q l : (∀ k, P k ↔ Q k) → listing s P l → listing s Q l.
Proof. intros HPQ [S E W]. split; [done| |done]. intros k x. by rewrite E, HPQ. Qed.

#[global] Instance key_le_total : Total key_le.
Proof.
  intros a b. unfold key_le, Key.cmp. rewrite (lex_cmp_antisym (Key.pk a)), (lex_cmp_antisym (Key.sk a)).
  destruct (lex_cmp (Key.pk a) (Key.pk b)), (lex_cmp (Key.sk a) (Key.sk b)); simpl; naive_solver.
Qed.

Lemma key_le_iff a b :
  key_le a b ↔ bytes_lt (Key.pk a) (Key.pk b) ∨ Key.pk a = Key.pk b ∧ ¬ bytes_lt (Key.sk b) (Key.sk a).
Proof.
  unfold key_le, Key.cmp, bytes_lt. rewrite (lex_cmp_antisym (Key.sk a)), <-lex_cmp_eq.
  destruct (lex_cmp (Key.pk a) (Key.pk b)), (lex_cmp (Key.sk a) (Key.sk b)); simpl; naive_solver.
Qed.

#[global] Instance key_le_trans : Transitive key_le.
Proof.
  intros a b c. rewrite !key_le_iff. intros [H1|[E1 H1]] [H2|[E2 H2]].
  - left. by trans (Key.pk b).
  - left. by rewrite <-E2.
  - left. by rewrite E1.
  - right. split; [congruence|]. intros H3. destruct H2. apply not_lt_le in H1 as [H1| ->]; [|done].
    by trans (Key.sk a).
Qed.

Lemma key_le_antisym a b : key_le a b → key_le b a → a = b.
Proof.
  rewrite !key_le_iff. intros [H1|[E1 H1]] [H2|[E2 H2]].
  - destruct (lt_irrefl (Key.pk a)). by trans (Key.pk b).
  - rewrite E2 in H1. by apply lt_irrefl in H1.
  - rewrite E1 in H2. by apply lt_irrefl in H2.
  - destruct a, b; simpl in *. f_equal; [done|]. apply not_lt_le in H1 as [H1|H1]; [|done].
    by destruct H2.
Qed.

Lemma encode_le a b : Key.wf a → Key.wf b → key_le a b ↔ ¬ bytes_lt (Key.encode b) (Key.encode a).
Proof.
  intros Ha Hb. unfold key_le, bytes_lt. rewrite <-Key.encode_cmp by done.
  rewrite (lex_cmp_antisym (Key.encode a)). destruct (lex_cmp _ _); naive_solver.
Qed.

Lemma sorted_filter {A} (R : relation A) (P : A → Prop) `{!∀ x, Decision (P x)} l :
  StronglySorted R l → StronglySorted R (filter P l).
Proof.
  induction 1 as [|a l HS IH Ha]; [constructor|]. rewrite filter_cons. case_decide; [|done].
  constructor; [done|]. rewrite Forall_forall in Ha |- *. intros b [_ Hb]%list_elem_of_filter. by apply Ha.
Qed.

(** The reference iterates in the order of a listing. *)
Lemma listing_btree_iter s P `{!∀ k, Decision (P k)} l :
  listing s P l → filter (λ a : item, P (Key.encode a.1)) (btree_iter s) = l.
Proof.
  intros [S E W]. apply (StronglySorted_unique_strong entry_le).
  - intros [k x] [k' x'] Hx Hx' H1 H2. unfold entry_le in *. simpl in *.
    assert (k = k') as <- by (by apply key_le_antisym). f_equal.
    apply list_elem_of_filter in Hx as [_ Hx]. unfold btree_iter in Hx.
    rewrite merge_sort_Permutation, elem_of_map_to_list in Hx. apply E in Hx' as [? _]. congruence.
  - apply sorted_filter. unfold btree_iter.
    assert (Transitive (@entry_le RevisionState)) by (intros a b c; unfold entry_le; apply key_le_trans).
    assert (Total (@entry_le RevisionState)) by (intros a b; unfold entry_le; apply key_le_total).
    by apply StronglySorted_merge_sort.
  - clear E. induction S as [|a l HS IH Ha]; [constructor|]. apply Forall_cons in W as [Wa W].
    constructor; [by apply IH|]. rewrite Forall_forall in Ha, W |- *. intros b Hb.
    apply encode_le; [done|by apply W|]. intros Hlt. apply Ha in Hb. unfold item_lt in Hb.
    apply (lt_irrefl (Key.encode a.1)). by trans (Key.encode b.1).
  - apply NoDup_Permutation.
    + apply NoDup_filter. unfold btree_iter. rewrite merge_sort_Permutation. apply NoDup_map_to_list.
    + clear -S. induction S as [|a l HS IH Ha]; [constructor|]. constructor; [|done]. intros Hin.
      rewrite Forall_forall in Ha. apply Ha in Hin. by apply lt_irrefl in Hin.
    + intros [k x]. rewrite list_elem_of_filter, E. unfold btree_iter.
      rewrite merge_sort_Permutation, elem_of_map_to_list. naive_solver.
Qed.

Lemma omap_filter {A C} (f : A → option C) (P : A → Prop) `{!∀ x, Decision (P x)} (l : list A) :
  (∀ x, x ∈ l → ¬ P x → f x = None) → omap f (filter P l) = omap f l.
Proof.
  induction l as [|x l IH]; intros Hf; [done|]. rewrite filter_cons. case_decide as Hx.
  - csimpl. rewrite IH; [done|]. intros y Hy. apply Hf. by right.
  - csimpl. rewrite (Hf x) by (left || done). apply IH. intros y Hy. apply Hf. by right.
Qed.

Lemma omap_none {A C} (f : A → option C) (l : list A) : (∀ x, x ∈ l → f x = None) → omap f l = [].
Proof.
  induction l as [|x l IH]; intros Hf; [done|]. csimpl. rewrite (Hf x) by left. apply IH. intros y Hy. apply Hf. by right.
Qed.

(** ** The entries of a leaf *)

(** What a leaf entry says of a key. *)
Definition entry_item (V : view_t) (G : labels) (e : LeafEntry) (a : item) : Prop :=
  Format.key e = Key.encode a.1 ∧ Format.revision e = revision a.2 ∧
  value_at V G (Some (Format.key e)) (Format.value e) (value a.2).

Lemma conv_eq s r ov : conv s = (r, ov) → s = match ov with Some v => Present v r | None => Missing r end.
Proof. destruct s; by intros [= <- <-]. Qed.

Lemma leaf_items V G s lo hi next es :
  leaf_ok V G (abs s) lo hi next es →
  ∃ l, Forall2 (entry_item V G) es l ∧ listing s (in_bounds lo hi) l.
Proof.
  intros HL. pose proof HL as [L1 L2 L3 L4].
  assert (Hall : ∃ l, Forall2 (λ e a, entry_item V G e a ∧ s !! a.1 = Some a.2 ∧ Key.wf a.1) es l).
  { assert (Hex : Forall (λ e, ∃ a, entry_item V G e a ∧ s !! a.1 = Some a.2 ∧ Key.wf a.1) es).
    { apply Forall_forall. intros e He. destruct (leaf_entry_in _ _ _ _ _ _ _ _ HL He) as (ov & Hdb & Hv).
      rewrite Forall_forall in L2. destruct (L2 (Format.key e)) as [_ (k & Hk & Ek)]; [by apply list_elem_of_fmap_2|].
      rewrite <-Ek, abs_lookup in Hdb. destruct (s !! k) as [x|] eqn:Ex; [|done]. simpl in Hdb.
      injection Hdb as Hr Ho. exists (k, x). split_and!; [|done|done]. split_and!; [done|done|]. simpl. by rewrite Ho. }
    clear -Hex. induction Hex as [|e es [a Ha] HF [l Hl]]; [by exists []|]. exists (a :: l). by constructor. }
  destruct Hall as [l Hl]. exists l. split; [eapply Forall2_impl; [done|]; naive_solver|].
  assert (Hkeys : keys es = Key.encode ∘ fst <$> l).
  { clear -Hl. induction Hl as [|e a es l [[Hk _] _] HF IH]; [done|]. rewrite !fmap_cons. by f_equal. }
  split.
  - rewrite Hkeys in L1. clear -L1. induction l as [|a l IH]; [constructor|]. rewrite fmap_cons in L1.
    apply StronglySorted_cons in L1 as [Ha Hs]. constructor; [by apply IH|]. by rewrite Forall_fmap in Ha.
  - intros k x. split.
    + intros Hin. assert (Key.encode k ∈ keys es) as Hk.
      { rewrite Hkeys. apply (list_elem_of_fmap_2 (Key.encode ∘ fst) l (k, x)) in Hin. done. }
      rewrite Forall_forall in L2. split; [|by apply L2].
      apply list_elem_of_lookup in Hin as [i Hi]. destruct (Forall2_lookup_r _ _ _ _ _ Hl Hi) as (e & _ & _ & Hs & _). exact Hs.
    + intros [Hs Hk]. specialize (L4 _ Hk). rewrite abs_lookup, Hs in L4. simpl in L4.
      destruct (find_entry es (Key.encode k)) as [e|] eqn:Ef; [|done]. apply find_entry_Some in Ef as [He Ek].
      apply list_elem_of_lookup in He as [i Hi]. eapply Forall2_lookup_l in Hl as ([k' x'] & Hi' & [Hk' _] & Hs' & _); [|done].
      simpl in *. rewrite Ek in Hk'. apply Key.encode_inj in Hk' as <-. rewrite Hs in Hs'. injection Hs' as <-.
      by eapply list_elem_of_lookup_2.
  - clear -Hl. induction Hl as [|e a es l [_ [_ Hw]] HF IH]; constructor; done.
Qed.

(** The next leaf of the chain starts where this one ends. *)
Lemma listing_next s lo hi b l1 l2 :
  below hi lo → hi = Some b → listing s (in_bounds lo hi) l1 → listing s (λ k, ¬ bytes_lt k b) l2 →
  listing s (λ k, ¬ bytes_lt k lo) (l1 ++ l2).
Proof.
  intros Hne -> H1 H2. eapply listing_iff; [|eapply listing_app; [exact H1|exact H2|]].
  - intros k. simpl. unfold in_bounds. simpl. split.
    + intros [[? _]|Hb]; [done|]. intros Hlt. apply Hb. simpl in Hne. by trans lo.
    + intros Hlo. destruct (bytes_lt_total k b) as [?|[->|Hb]]; [by left|right; apply lt_irrefl|right].
      intros Hlt. apply (lt_irrefl k). by trans b.
  - intros a c [_ Ha] Hc. by eapply lt_le_trans.
Qed.

(** The states at or after a key, in order. *)
Definition from (s : stateset) (lo : bytes) : list item :=
  filter (λ a : item, ¬ bytes_lt (Key.encode a.1) lo) (btree_iter s).

Lemma elem_of_btree_iter (s : stateset) k x : (k, x) ∈ btree_iter s ↔ s !! k = Some x.
Proof. unfold btree_iter. by rewrite merge_sort_Permutation, elem_of_map_to_list. Qed.

Lemma from_listing s lo :
  (∀ k x, s !! k = Some x → Key.wf k) → listing s (λ k, ¬ bytes_lt k lo) (from s lo).
Proof.
  intros Hwf.
  assert (HW : Forall (λ a : item, Key.wf a.1) (from s lo)).
  { apply Forall_forall. intros [k x] [_ Hin%elem_of_btree_iter]%list_elem_of_filter. by eapply Hwf. }
  split; [| |done].
  - assert (HS : StronglySorted entry_le (from s lo)).
    { apply sorted_filter, StronglySorted_merge_sort; [intros a b c; unfold entry_le; apply key_le_trans|].
      intros a b. unfold entry_le. apply key_le_total. }
    assert (HN : NoDup (from s lo).*1).
    { apply NoDup_fmap_fst.
      - intros k x y [_ Hx%elem_of_btree_iter]%list_elem_of_filter [_ Hy%elem_of_btree_iter]%list_elem_of_filter. congruence.
      - apply NoDup_filter. unfold btree_iter. rewrite merge_sort_Permutation. apply NoDup_map_to_list. }
    revert HW HN. induction HS as [|a l HS IH Ha]; intros HW HN; [constructor|]. csimpl in HN.
    apply Forall_cons in HW as [Wa HW]. apply NoDup_cons in HN as [Hna HN]. constructor; [by apply IH|].
    rewrite Forall_forall in Ha, HW |- *. intros b Hb. pose proof (Ha _ Hb) as Hle.
    apply encode_le, not_lt_le in Hle as [?|E]; [done| |done|by apply HW]. apply Key.encode_inj in E.
    destruct Hna. rewrite <-E. by apply (list_elem_of_fmap_2 fst).
  - intros k x. unfold from. rewrite list_elem_of_filter, elem_of_btree_iter. simpl. naive_solver.
Qed.

Lemma from_leaf s lo hi l :
  below hi lo → listing s (in_bounds lo hi) l → (∀ k x, s !! k = Some x → Key.wf k) →
  from s lo = l ++ match hi with None => [] | Some b => from s b end.
Proof.
  intros Hne Hl Hwf. unfold from at 1.
  apply (@listing_btree_iter s (λ k, ¬ bytes_lt k lo) (λ k, not_dec (decide_rel bytes_lt k lo))).
  destruct hi as [b|].
  - eapply listing_next; [done|done|done|]. by apply from_listing.
  - rewrite app_nil_r. eapply listing_iff; [|done]. intros k. unfold in_bounds. simpl. naive_solver.
Qed.

(** ** What a loop over items answers *)

(** The rows after the items [l]; when the loop returned, whatever follows [l]
    adds nothing. *)
Definition answers (f : item → option Document) (limit : Z) (rows : list Document) (l : list item)
    (returned : bool) (rows' : list Document) : Prop :=
  if returned then ∀ rest, StronglySorted item_lt (l ++ rest) → Forall (λ a : item, Key.wf a.1) rest →
    rows' = rows ++ take (Z.to_nat (limit - len rows)) (omap f (l ++ rest))
  else rows' = rows ++ omap f l ∧ len rows' < limit.

Lemma answers_nil f limit rows : len rows < limit → answers f limit rows [] false rows.
Proof. intros. split; [by rewrite app_nil_r|done]. Qed.

Lemma answers_skip f limit rows a l b rows' :
  f a = None → answers f limit rows l b rows' → answers f limit rows (a :: l) b rows'.
Proof.
  intros Ha. destruct b; simpl; csimpl; rewrite Ha; [|done].
  intros HA rest HS HW. apply HA; [|done]. by inversion HS.
Qed.

Lemma answers_full f limit rows a l d :
  f a = Some d → len rows + 1 = limit → answers f limit rows (a :: l) true (rows ++ [d]).
Proof.
  intros Ha <- rest _ _. csimpl. rewrite Ha. replace (len rows + 1 - len rows) with 1 by lia. simpl.
  by rewrite take_0.
Qed.

Lemma answers_push f limit rows a l d b rows' :
  f a = Some d → len rows + 1 < limit → answers f limit (rows ++ [d]) l b rows' →
  answers f limit rows (a :: l) b rows'.
Proof.
  intros Ha Hlim. destruct b; simpl; csimpl; rewrite Ha.
  - intros HA rest HS HW. rewrite (HA rest); [|by inversion HS|done]. rewrite len_app, len_cons, len_nil, <-app_assoc.
    replace (Z.to_nat (limit - len rows)) with (S (Z.to_nat (limit - (len rows + (1 + 0))))) by lia. done.
  - intros [-> Hl]. split; [by rewrite <-app_assoc|done].
Qed.

(** Continuing with the items [rest] after the items of a leaf. *)
Lemma answers_rest f limit rows l rest rows1 rows' :
  answers f limit rows l false rows1 →
  rows' = rows1 ++ take (Z.to_nat (limit - len rows1)) (omap f rest) →
  rows' = rows ++ take (Z.to_nat (limit - len rows)) (omap f (l ++ rest)).
Proof.
  intros [-> Hl] ->. rewrite omap_app, <-app_assoc. f_equal. rewrite len_app in Hl |- *.
  pose proof (len_nonneg (omap f l)) as H0. rewrite take_app_ge by (unfold len in *; lia).
  do 2 f_equal. unfold len in *. lia.
Qed.

Definition row_of (a : item) : option Document :=
  match a.2 with Present v r => Some (mkDocument a.1 v r) | Missing _ => None end.

Definition scan_row (cursor : option DocumentKey) (a : item) : option Document :=
  if match cursor with Some c => bool_decide (key_le a.1 c) | None => false end then None else row_of a.

Definition query_row (pk : Key.PrimaryKey) (after : option Key.SortKey) (a : item) : option Document :=
  if negb (bytes_eqb (Key.pk a.1) pk)
     || match after with Some c => bytes_leb (Key.sk a.1) c | None => false end
  then None else row_of a.

Lemma leb_key_le a b : Key.wf a → Key.wf b → bytes_leb (Key.encode a) (Key.encode b) = bool_decide (key_le a b).
Proof.
  intros Ha Hb. apply eq_true_iff_eq. rewrite bool_decide_eq_true. unfold bytes_leb, key_le.
  rewrite Key.encode_cmp by done. by destruct (Key.cmp a b).
Qed.

Lemma decode_leaf_key_item V G e a : entry_item V G e a → decode_leaf_key (Format.key e) = Ok a.1.
Proof. intros [-> _]. unfold decode_leaf_key. by rewrite Key.decode_encode. Qed.

Section scan.
Context {B : Type} {CB : CommittedStore B} {SP : CommittedStoreSpec B}.
Implicit Types (o : Overlay B) (G : labels) (bud : ResponseBudget).

Lemma states_wf o G H fl s k x : inv o ∅ G G H fl (abs s) → s !! k = Some x → Key.wf k.
Proof.
  intros Hi Hs. pose proof (find_leaf_spec _ _ _ _ _ (Key.encode k) Hi) as Hf. unfold wp in Hf.
  destruct (find_leaf _ o) as [[[id route]| |] o']; [|done..].
  destruct Hf as (_ & rr & lo & hi & _ & _ & Hid & Hk). simpl in Hid.
  pose proof (inv_pages _ _ _ _ _ _ _ Hi _ _ Hid ltac:(set_solver)) as (lsn & next & es & _ & _ & [L1 L2 L3 L4]).
  specialize (L4 _ Hk). rewrite abs_lookup, Hs in L4. simpl in L4.
  destruct (find_entry es (Key.encode k)) as [e|] eqn:Ef; [|done]. apply find_entry_Some in Ef as [He Ek].
  rewrite Forall_forall in L2. destruct (L2 (Format.key e)) as [_ (k' & Hk' & Ek')]; [by apply list_elem_of_fmap_2|].
  rewrite Ek in Ek'. by apply Key.encode_inj in Ek' as <-.
Qed.

Lemma push_document_spec o G H fl s e a vr rows bud :
  inv o ∅ G G H fl (abs s) → entry_item (view o) G e a → Format.value e = Some vr →
  wp (push_document a.1 e vr rows)
    (λ rows' ob, sim o ob.1 ∧ ∃ v, value a.2 = Some v ∧ rows' = rows ++ [mkDocument a.1 v (revision a.2)])
    (λ err ob, too_large err ∧ sim o ob.1) (o, bud).
Proof.
  intros Hi (_ & Hr & Hv) Evr. rewrite Evr in Hv. unfold push_document. wp_step. apply on_budget_spec.
  eapply wp_mono; [apply reserve_spec| |by intros err b' [? _]]. intros _ b' _.
  assert (∃ v, value a.2 = Some v) as [v Ev].
  { destruct vr; simpl in Hv; [eauto|]. destruct Hv as (ids & v & ? & _). eauto. }
  rewrite Ev in Hv. wp_step. apply on_overlay_spec. eapply wp_mono; [by eapply read_value_spec| |by intros].
  intros w o' [-> S]. apply wp_ret. split; [done|]. exists v. split; [done|]. by rewrite Hr.
Qed.

Lemma entry_item_sim o o' G e a : sim o o' → entry_item (view o) G e a → entry_item (view o') G e a.
Proof.
  intros S (H1 & H2 & H3). split_and!; [done..|]. eapply value_at_frame; [|done].
  intros id Hid. split; [done|]. apply (sim_view _ _ S).
Qed.

(** The value of an entry and the row of its item. *)
Lemma entry_no_row o G e a : entry_item (view o) G e a → Format.value e = None → row_of a = None.
Proof. intros (_ & _ & Hv) E. rewrite E in Hv. destruct a as [k [v r|r]]; [done|done]. Qed.

Lemma item_row (a : item) v : value a.2 = Some v → row_of a = Some (mkDocument a.1 v (revision a.2)).
Proof. destruct a as [k [w r|r]]; [|done]. by intros [= ->]. Qed.

Definition too_large_at o (err : Error) (ob : Overlay B * ResponseBudget) : Prop := too_large err ∧ sim o ob.1.

Lemma too_large_trans o o1 err ob : sim o o1 → too_large_at o1 err ob → too_large_at o err ob.
Proof. intros S [? ?]. split; [done|by trans o1]. Qed.

Definition answered o f limit rows l (r : bool * list Document) (ob : Overlay B * ResponseBudget) : Prop :=
  sim o ob.1 ∧ answers f limit rows l r.1 r.2.

(** Pushing the row of the head item and going on with [next] when the limit is
    not reached: the step both loops share. *)
Lemma push_row_spec o G H fl s f limit e a l vr rows bud next :
  inv o ∅ G G H fl (abs s) → entry_item (view o) G e a → Format.value e = Some vr → f a = row_of a →
  len rows < limit →
  (∀ o1 b1 rows1, sim o o1 → len rows1 < limit →
     wp (next rows1) (answered o1 f limit rows1 l) (too_large_at o1) (o1, b1)) →
  wp (rows' ← push_document a.1 e vr rows; if len rows' =? limit then mret (true, rows') else next rows')
    (answered o f limit rows (a :: l)) (too_large_at o) (o, bud).
Proof.
  intros Hi He Evr Hf Hlim Hnext. wp_step. eapply wp_mono; [by eapply push_document_spec| |done].
  intros rows' [o1 b1] [S (v & Ev & ->)]. cbn [fst] in S. apply item_row in Ev. rewrite <-Hf in Ev.
  cbv beta. rewrite len_app, len_cons, len_nil. destruct (Z.eqb_spec (len rows + (1 + 0)) limit) as [E|E].
  - apply wp_ret. split; [done|]. eapply answers_full; [done|lia].
  - eapply wp_mono; [apply Hnext; [done|rewrite len_app, len_cons, len_nil; lia]| |].
    + intros r ob [S' HA]. split; [by trans o1|]. eapply answers_push; [done|lia|done].
    + intros err ob. by apply too_large_trans.
Qed.

Lemma scan_entries_spec es l o G H fl s cursor limit rows bud :
  inv o ∅ G G H fl (abs s) → Forall2 (entry_item (view o) G) es l → Forall (λ a : item, Key.wf a.1) l →
  (∀ c, cursor = Some c → Key.wf c) → len rows < limit →
  wp (scan_entries (Key.encode <$> cursor) limit es rows)
    (answered o (scan_row cursor) limit rows l) (too_large_at o) (o, bud).
Proof.
  intros Hi HF HW Hcur. revert o rows bud Hi HF. revert l HW. induction es as [|e es IH];
    intros l HW o rows bud Hi HF Hlim; inversion HF as [|? a ? l' He HF']; subst; cbn [scan_entries].
  { apply wp_ret. split; [done|]. by apply answers_nil. }
  apply Forall_cons in HW as [Wa HW].
  assert (Hskip : scan_row cursor a = None → wp (scan_entries (Key.encode <$> cursor) limit es rows)
    (answered o (scan_row cursor) limit rows (a :: l')) (too_large_at o) (o, bud)).
  { intros Hn. eapply wp_mono; [by apply (IH l')| |done]. intros r ob [S HA]. split; [done|]. by apply answers_skip. }
  assert (Hcmp : match Key.encode <$> cursor with Some c => bytes_leb (Format.key e) c | None => false end =
    match cursor with Some c => bool_decide (key_le a.1 c) | None => false end).
  { destruct cursor as [c|]; [|done]. simpl. destruct He as [-> _]. apply leb_key_le; auto. }
  rewrite Hcmp. destruct (match cursor with Some _ => _ | None => _ end) eqn:Ec.
  { apply Hskip. unfold scan_row. by rewrite Ec. }
  wp_step. eapply wp_lift_ok; [by eapply decode_leaf_key_item|].
  assert (Hrow : scan_row cursor a = row_of a) by (unfold scan_row; by rewrite Ec).
  destruct (Format.value e) as [vr|] eqn:Evr.
  - eapply push_row_spec; eauto. intros o1 b1 rows1 S1 Hl1. apply (IH l'); [done|by eapply inv_sim| |done].
    eapply Forall2_impl; [done|]. intros ? ?. by apply entry_item_sim.
  - apply Hskip. rewrite Hrow. by eapply entry_no_row.
Qed.

(** *** The entry loop of a query *)

Lemma query_row_before pk after c a :
  Key.wf a.1 → Key.wf (Key.new pk c) → after = Some c →
  bytes_leb (Key.encode a.1) (Key.encode (Key.new pk c)) = true → query_row pk after a = None.
Proof.
  intros Wa Wc -> Hle. rewrite leb_key_le in Hle by done. apply bool_decide_eq_true, key_le_iff in Hle.
  unfold query_row. simpl in Hle. destruct Hle as [Hlt|[-> Hsk]].
  - destruct (bytes_eqb (Key.pk a.1) pk) eqn:E; [|done]. apply bytes_eqb_spec in E as <-. by apply lt_irrefl in Hlt.
  - apply not_lt_le in Hsk. rewrite (proj2 (bytes_leb_spec _ _)); [by rewrite orb_true_r|]. naive_solver.
Qed.

Lemma query_row_after pk after a b :
  Key.wf a.1 → Key.wf b.1 → bytes_lt pk (Key.pk a.1) → item_lt a b → query_row pk after b = None.
Proof.
  intros Wa Wb Hlt Hab. unfold query_row. destruct (bytes_eqb (Key.pk b.1) pk) eqn:E; [|done].
  apply bytes_eqb_spec in E. exfalso. assert (key_le a.1 b.1) as Hle.
  { apply encode_le; [done..|]. intros H'. apply (lt_irrefl (Key.encode a.1)). by trans (Key.encode b.1). }
  apply key_le_iff in Hle as [H'|[E' _]]; rewrite ?E', ?E in *; [|by apply lt_irrefl in Hlt].
  apply (lt_irrefl pk). by trans (Key.pk a.1).
Qed.

Lemma answers_done pk after limit rows a l :
  Key.wf a.1 → bytes_lt pk (Key.pk a.1) → Forall (λ b : item, Key.wf b.1) l →
  answers (query_row pk after) limit rows (a :: l) true rows.
Proof.
  intros Wa Hlt Wl rest HS Wr. assert (Hnil : omap (query_row pk after) (a :: l ++ rest) = []).
  { apply omap_none. intros b Hb. apply elem_of_cons in Hb as [->|Hb].
    - unfold query_row. destruct (bytes_eqb (Key.pk a.1) pk) eqn:E; [|done].
      apply bytes_eqb_spec in E as <-. by apply lt_irrefl in Hlt.
    - apply StronglySorted_cons in HS as [HS _]. rewrite Forall_forall in HS, Wl, Wr.
      eapply (query_row_after pk after a b); [done| |done|by apply HS].
      apply elem_of_app in Hb as [?|?]; auto. }
  change ((a :: l) ++ rest) with (a :: l ++ rest). rewrite Hnil. by rewrite take_nil, app_nil_r.
Qed.

Lemma query_entries_spec es l o G H fl s pk after limit rows first bud :
  inv o ∅ G G H fl (abs s) → Forall2 (entry_item (view o) G) es l → Forall (λ a : item, Key.wf a.1) l →
  (∀ c, after = Some c → Key.wf (Key.new pk c)) → len rows < limit →
  wp (query_entries pk after ((λ sk, Key.encode (Key.new pk sk)) <$> after) limit es first rows)
    (answered o (query_row pk after) limit rows l) (too_large_at o) (o, bud).
Proof.
  intros Hi HF HW Hcur. revert o rows bud first Hi HF. revert l HW. induction es as [|e es IH];
    intros l HW o rows bud first Hi HF Hlim; inversion HF as [|? a ? l' He HF']; subst; cbn [query_entries].
  { apply wp_ret. split; [done|]. by apply answers_nil. }
  apply Forall_cons in HW as [Wa HW].
  assert (Hskip : ∀ fst, query_row pk after a = None →
    wp (query_entries pk after ((λ sk, Key.encode (Key.new pk sk)) <$> after) limit es fst rows)
    (answered o (query_row pk after) limit rows (a :: l')) (too_large_at o) (o, bud)).
  { intros fst Hn. eapply wp_mono; [by apply (IH l')| |done]. intros r ob [S HA]. split; [done|]. by apply answers_skip. }
  destruct (first && _) eqn:Ef.
  { apply Hskip. apply andb_true_iff in Ef as [_ Ef]. destruct after as [c|]; [|done]. simpl in Ef.
    destruct He as [Ek _]. rewrite Ek in Ef. by eapply query_row_before; eauto. }
  wp_step. eapply wp_lift_ok; [by eapply decode_leaf_key_item|]. cbv beta.
  destruct (bytes_eqb (Key.pk a.1) pk) eqn:Epk; cbn [negb].
  2:{ destruct (bytes_ltb pk (Key.pk a.1)) eqn:Elt.
      - apply wp_ret. split; [done|]. apply answers_done; [done|by apply bytes_ltb_spec|done].
      - apply Hskip. unfold query_row. by rewrite Epk. }
  destruct (match after with Some _ => _ | None => _ end) eqn:Ec.
  { apply Hskip. unfold query_row. by rewrite Ec, orb_true_r. }
  assert (Hrow : query_row pk after a = row_of a) by (unfold query_row; by rewrite Ec, Epk).
  destruct (Format.value e) as [vr|] eqn:Evr.
  - eapply push_row_spec; eauto. intros o1 b1 rows1 S1 Hl1. apply (IH l'); [done|by eapply inv_sim| |done].
    eapply Forall2_impl; [done|]. intros ? ?. by apply entry_item_sim.
  - apply Hskip. rewrite Hrow. by eapply entry_no_row.
Qed.

(** *** Following the leaf chain *)

Lemma leaf_step_spec o G H fl s id lo hi bud :
  inv o ∅ G G H fl (abs s) → G !! id = Some (RTree 0 lo hi) →
  wp (on_overlay (leaf id))
    (λ lf ob, sim o ob.1 ∧ ∃ l rest, Forall2 (entry_item (view ob.1) G) (leaf_entries lf) l ∧
       from s lo = l ++ rest ∧ StronglySorted item_lt (l ++ rest) ∧ Forall (λ a : item, Key.wf a.1) l ∧
       Forall (λ a : item, Key.wf a.1) rest ∧
       match leaf_next lf with
       | None => rest = []
       | Some n => ∃ b hi', rest = from s b ∧ G !! n = Some (RTree 0 b hi') ∧ bytes_lt lo b
       end) (too_large_at o) (o, bud).
Proof.
  intros Hi Hid. pose proof (inv_pages _ _ _ _ _ _ _ Hi _ _ Hid ltac:(set_solver)) as (lsn & next & es & Hv & _ & HL).
  apply on_overlay_spec.
  eapply wp_mono; [eapply leaf_spec; [apply Hi|done|by eapply (inv_range _ _ _ _ _ _ _ Hi)]| |by intros].
  intros lf o1 [-> S]. split; [done|]. cbn [leaf_entries leaf_next fst].
  destruct (leaf_items _ _ _ _ _ _ _ HL) as (l & HF & Hl).
  pose proof (lab_nonempty _ (inv_labels _ _ _ _ _ _ _ Hi) _ _ _ _ Hid) as Hne.
  assert (Hwf : ∀ k x, s !! k = Some x → Key.wf k) by (intros k x; by eapply states_wf).
  pose proof (from_leaf s lo hi l Hne Hl Hwf) as Hfrom. pose proof (from_listing s lo Hwf) as [FS _ FW].
  rewrite Hfrom in FS, FW. apply Forall_app in FW as [FW1 FW2].
  exists l, (match hi with Some b => from s b | None => [] end). split_and!; try done.
  - eapply Forall2_impl; [done|]. intros ? ?. by apply entry_item_sim.
  - pose proof (leaf_chain _ _ _ _ _ _ _ HL) as Hch. destruct next as [n|]; [|by subst hi].
    destruct Hch as (b & hi' & -> & Hn). by exists b, hi'.
Qed.

(** Leaves left of [lo] that were already read. *)
Definition passed G (visited : gset PageId) (lo : bytes) : Prop :=
  ∀ v, v ∈ visited → ∃ lo' hi', G !! v = Some (RTree 0 lo' hi') ∧ bytes_lt lo' lo.

Lemma passed_fresh G visited lo hi id : passed G visited lo → G !! id = Some (RTree 0 lo hi) → id ∉ visited.
Proof. intros Hp Hid (lo' & hi' & Hv & Hlt)%Hp. simplify_eq. by apply lt_irrefl in Hlt. Qed.

Lemma passed_next G visited lo hi id b :
  passed G visited lo → G !! id = Some (RTree 0 lo hi) → bytes_lt lo b → passed G ({[id]} ∪ visited) b.
Proof.
  intros Hp Hid Hlt v [->%elem_of_singleton|(lo' & hi' & ? & ?)%Hp]%elem_of_union; [by eauto|].
  exists lo', hi'. split; [done|by trans lo].
Qed.

Lemma passed_bound o G H fl db visited lo :
  inv o ∅ G G H fl db → passed G visited lo → Z.of_nat (size visited) ≤ high_water_page_id o - 1.
Proof.
  intros Hi Hp. apply visited_bound; [apply Hi|]. intros v (lo' & hi' & Hv & _)%Hp.
  by eapply (inv_range _ _ _ _ _ _ _ Hi).
Qed.

(** The rows a loop returns when it starts with the leaf at [lo]. *)
Definition rows_from o f (limit : Z) (rows : list Document) (s : stateset) (lo : bytes)
    (rows' : list Document) (ob : Overlay B * ResponseBudget) : Prop :=
  sim o ob.1 ∧ rows' = rows ++ take (Z.to_nat (limit - len rows)) (omap f (from s lo)).

Lemma scan_leaves_spec fuel o G H fl s cursor limit id visited rows lo hi bud :
  inv o ∅ G G H fl (abs s) → G !! id = Some (RTree 0 lo hi) → passed G visited lo →
  high_water_page_id o + 1 ≤ Z.of_nat fuel + Z.of_nat (size visited) →
  (∀ c, cursor = Some c → Key.wf c) → len rows < limit →
  wp (scan_leaves fuel (Key.encode <$> cursor) limit id visited rows)
    (rows_from o (scan_row cursor) limit rows s lo) (too_large_at o) (o, bud).
Proof.
  revert o id visited rows lo hi bud. induction fuel as [|fuel IH];
    intros o id visited rows lo hi bud Hi Hid Hp Hfuel Hcur Hlim.
  { pose proof (passed_bound _ _ _ _ _ _ _ Hi Hp). lia. }
  cbn [scan_leaves]. pose proof (passed_fresh _ _ _ _ _ Hp Hid) as Hfresh. wp_step. apply wp_fail_when.
  { by intros ?%bool_decide_eq_true. }
  intros _. wp_step. eapply wp_mono; [by eapply leaf_step_spec| |done].
  intros lf [o1 b1] (S1 & l & rest & HF & Hfrom & HS & HW & HWr & Hnext). cbn [fst] in S1, HF.
  pose proof (inv_sim _ _ _ _ _ _ _ _ Hi S1) as Hi1.
  wp_step. eapply wp_mono; [by eapply scan_entries_spec| |by intros err ob; apply too_large_trans].
  intros [ret rows1] [o2 b2] [S2 HA]. cbn [fst snd] in S2, HA. cbv beta iota. unfold rows_from. rewrite Hfrom.
  assert (S02 : sim o o2) by (by trans o1). destruct ret.
  { apply wp_ret. split; [done|]. by apply HA. }
  destruct (leaf_next lf) as [n|].
  - destruct Hnext as (b & hi' & -> & Hn & Hlt).
    eapply wp_mono; [eapply (IH o2); [by eapply inv_sim|done|by eapply passed_next| |done|apply HA]| |].
    + rewrite size_union by set_solver. rewrite size_singleton, (sim_high _ _ S02). lia.
    + intros rows' ob [S3 HR]. split; [by trans o2|]. by eapply answers_rest.
    + intros err ob. by apply too_large_trans.
  - subst rest. apply wp_ret. split; [done|]. eapply answers_rest; [done|]. csimpl. by rewrite take_nil, app_nil_r.
Qed.

Lemma query_leaves_spec fuel o G H fl s pk after limit id visited rows first lo hi bud :
  inv o ∅ G G H fl (abs s) → G !! id = Some (RTree 0 lo hi) → passed G visited lo →
  high_water_page_id o + 1 ≤ Z.of_nat fuel + Z.of_nat (size visited) →
  (∀ c, after = Some c → Key.wf (Key.new pk c)) →
  wp (query_leaves fuel pk after ((λ sk, Key.encode (Key.new pk sk)) <$> after) limit id first visited rows)
    (rows_from o (query_row pk after) limit rows s lo) (too_large_at o) (o, bud).
Proof.
  revert o id visited rows first lo hi bud. induction fuel as [|fuel IH];
    intros o id visited rows first lo hi bud Hi Hid Hp Hfuel Hcur.
  { pose proof (passed_bound _ _ _ _ _ _ _ Hi Hp). lia. }
  cbn [query_leaves]. destruct (Z.leb_spec limit (len rows)) as [Hdone|Hlim].
  { apply wp_ret. split; [done|]. replace (Z.to_nat (limit - len rows)) with 0%nat by lia.
    by rewrite take_0, app_nil_r. }
  pose proof (passed_fresh _ _ _ _ _ Hp Hid) as Hfresh. wp_step. apply wp_fail_when.
  { by intros ?%bool_decide_eq_true. }
  intros _. wp_step. eapply wp_mono; [by eapply leaf_step_spec| |done].
  intros lf [o1 b1] (S1 & l & rest & HF & Hfrom & HS & HW & HWr & Hnext). cbn [fst] in S1, HF.
  pose proof (inv_sim _ _ _ _ _ _ _ _ Hi S1) as Hi1.
  wp_step. eapply wp_mono; [by eapply query_entries_spec| |by intros err ob; apply too_large_trans].
  intros [ret rows1] [o2 b2] [S2 HA]. cbn [fst snd] in S2, HA. cbv beta iota. unfold rows_from. rewrite Hfrom.
  assert (S02 : sim o o2) by (by trans o1). destruct ret.
  { apply wp_ret. split; [done|]. by apply HA. }
  destruct (leaf_next lf) as [n|].
  - destruct Hnext as (b & hi' & -> & Hn & Hlt).
    eapply wp_mono; [eapply (IH o2); [by eapply inv_sim|done|by eapply passed_next| |done]| |].
    + rewrite size_union by set_solver. rewrite size_singleton, (sim_high _ _ S02). lia.
    + intros rows' ob [S3 HR]. split; [by trans o2|]. by eapply answers_rest.
    + intros err ob. by apply too_large_trans.
  - subst rest. apply wp_ret. split; [done|]. eapply answers_rest; [done|]. csimpl. by rewrite take_nil, app_nil_r.
Qed.

(** *** The reference rows *)

Definition row (d : Reference.Document) : Document :=
  mkDocument (Reference.key d) (Reference.doc_value d) (Reference.doc_revision d).

Lemma omap_rows (g : item → option Reference.Document) (f : item → option Document) (n : nat) (l : list item) :
  (∀ a, f a = row <$> g a) → take n (omap f l) = row <$> take n (omap g l).
Proof.
  intros Hf. rewrite fmap_take. f_equal. induction l as [|a l IH]; [done|]. csimpl. rewrite Hf.
  destruct (g a); simpl; by rewrite IH.
Qed.

Lemma traversal_enough o G H fl db o' :
  inv o ∅ G G H fl db → sim o o' →
  high_water_page_id o' + 1 ≤ Z.of_nat (traversal_fuel o') + Z.of_nat (size (∅ : gset PageId)).
Proof.
  intros Hi S. pose proof (inv_high _ _ _ _ _ _ _ Hi). unfold traversal_fuel, FIRST_DATA_PAGE in *.
  rewrite (sim_high _ _ S), size_empty. lia.
Qed.

Lemma scan_spec o G H fl db cursor limit bud :
  inv o ∅ G G H fl (abs (Reference.states db)) → (∀ c, cursor = Some c → valid_key c) → 0 ≤ limit →
  wp (scan_with_budget cursor limit)
    (λ rows ob, sim o ob.1 ∧ rows = row <$> Reference.scan db cursor limit) (too_large_at o) (o, bud).
Proof.
  intros Hi Hcur Hlim. unfold scan_with_budget. destruct (Z.eqb_spec limit 0) as [->|Hne].
  { apply wp_ret. done. }
  assert (Hstart : wp (match cursor with
      | Some key => lift_r (validate_encoded_key (Key.encode key));; fst <$> on_overlay (find_leaf (Key.encode key))
      | None => on_overlay leftmost_leaf end)
    (λ id ob, sim o ob.1 ∧ ∃ lo hi, G !! id = Some (RTree 0 lo hi) ∧
       match cursor with Some c => ¬ bytes_lt (Key.encode c) lo | None => lo = [] end)
    (too_large_at o) (o, bud)).
  { destruct cursor as [c|].
    - wp_step. eapply wp_lift_ok; [by apply validate_key_ok, Hcur|]. wp_step. apply on_overlay_spec.
      eapply wp_mono; [by eapply find_leaf_spec| |by intros].
      intros [id route] o1 (S1 & rr & lo & hi & _ & _ & Hid & Hk). split; [done|]. exists lo, hi.
      split; [done|]. apply Hk.
    - apply on_overlay_spec. eapply wp_mono; [by eapply leftmost_leaf_spec| |by intros].
      intros id o1 (S1 & hi & Hid). split; [done|]. by exists [], hi. }
  wp_step. eapply wp_mono; [exact Hstart| |done]. intros id [o1 b1] (S1 & lo & hi & Hid & Hlo). cbn [fst] in S1.
  pose proof (inv_sim _ _ _ _ _ _ _ _ Hi S1) as Hi1. wp_step. wp_step. cbn [fst].
  eapply wp_mono; [eapply scan_leaves_spec; [exact Hi1|exact Hid| | | |]| |].
  - by intros v ?%not_elem_of_empty.
  - by eapply traversal_enough.
  - intros c Hc. by apply Hcur.
  - rewrite len_nil. lia.
  - intros rows ob [S2 ->]. split; [by trans o1|]. rewrite app_nil_l, len_nil, Z.sub_0_r. unfold from.
    rewrite omap_filter; last first.
    { intros [k x] Hin%elem_of_btree_iter Hk. simpl in Hk. apply dec_stable in Hk.
      assert (Key.wf k) as Wk by (by eapply states_wf). destruct cursor as [c|]; [|subst lo; by destruct (Key.encode k)].
      unfold scan_row. rewrite bool_decide_eq_true_2; [done|]. simpl. apply encode_le; [done|by apply Hcur|].
      intros Hlt. apply Hlo. by trans (Key.encode k). }
    unfold Reference.scan. apply omap_rows. intros [k x]. unfold scan_row, Reference.document, row_of. simpl.
    destruct (match cursor with Some _ => _ | None => _ end); [done|]. by destruct x.
  - intros err ob. by apply too_large_trans.
Qed.

Lemma query_spec o G H fl db pk after limit bud :
  inv o ∅ G G H fl (abs (Reference.states db)) → valid_key (Key.new pk []) →
  (∀ c, after = Some c → valid_key (Key.new pk c)) → 0 ≤ limit →
  wp (query_with_budget pk after limit)
    (λ rows ob, sim o ob.1 ∧ rows = row <$> Reference.query db pk after limit) (too_large_at o) (o, bud).
Proof.
  intros Hi Hpk Hcur Hlim. unfold query_with_budget. destruct (Z.eqb_spec limit 0) as [->|Hne].
  { apply wp_ret. done. }
  cbv zeta. wp_step. eapply wp_lift_ok; [by apply validate_key_ok|]. wp_step. apply on_overlay_spec.
  eapply wp_mono; [by eapply find_leaf_spec| |by intros].
  intros [id route] o1 (S1 & rr & lo & hi & _ & _ & Hid & Hk). cbn [fst] in Hid. cbv beta iota.
  pose proof (inv_sim _ _ _ _ _ _ _ _ Hi S1) as Hi1. wp_step.
  assert (Hval : wp (match (λ sk, Key.encode (Key.new pk sk)) <$> after with
      | Some c => lift_r (validate_encoded_key c) | None => mret tt end)
    (λ _ ob, ob = (o1, bud)) (too_large_at o) (o1, bud)).
  { destruct after as [c|]; [|by apply wp_ret]. simpl. eapply wp_lift_ok; [by apply validate_key_ok, Hcur|done]. }
  eapply wp_mono; [exact Hval| |done]. intros _ ob ->. wp_step. wp_step. cbn [fst].
  eapply wp_mono; [eapply query_leaves_spec; [exact Hi1|exact Hid| | |]| |].
  - by intros v ?%not_elem_of_empty.
  - by eapply traversal_enough.
  - intros c Hc. by apply Hcur.
  - intros rows ob [S2 ->]. split; [by trans o1|]. rewrite app_nil_l, len_nil, Z.sub_0_r. unfold from.
    rewrite omap_filter; last first.
    { intros [k x] Hin%elem_of_btree_iter Hkk. simpl in Hkk. apply dec_stable in Hkk.
      assert (Key.wf k) as Wk by (by eapply states_wf). assert (bytes_lt (Key.encode k) (Key.encode (Key.new pk []))) as Hlt.
      { eapply lt_le_trans; [done|]. apply Hk. }
      unfold query_row. destruct (bytes_eqb (Key.pk (k, x).1) pk) eqn:E; [|done]. exfalso. simpl in E.
      apply bytes_eqb_spec in E. assert (key_le (Key.new pk []) k) as Hle.
      { apply key_le_iff. right. simpl. split; [done|]. by destruct (Key.sk k). }
      apply encode_le in Hle; [done|apply Hpk|done]. }
    unfold Reference.query. apply omap_rows. intros [k x]. unfold query_row, Reference.document, row_of. simpl.
    destruct (_ || _); [done|]. by destruct x.
  - intros err ob. by apply too_large_trans.
Qed.

End scan.

End TreeScan.
