(* ===== verification/TreeTheorems.v ===== *)
(** * What the B+Tree promises

    The properties of the tree operations, each with a concrete instance: lookups,
    point writes, values in overflow chains, scans and queries, transactions and
    transaction groups, against the reference database. *)

From S2P Require Import Prelude Wp Key Core Page Superblock Format FormatLaws Reference.
From S2P Require Import Overlay Tree TreeSearch TreeInsert TreeValue TreeOps TreeTxn TreeScan MemStore.

Module TreeTheorems.
Import Core Overlay Tree TreeSearch TreeInsert TreeValue TreeOps TreeTxn TreeScan MemStore.

Section theorems.
Context {B : Type} {CB : CommittedStore B} {SP : CommittedStoreSpec B} {CR : Crc32c} {CRS : Crc32cSpec CR}.
Implicit Types (o : Overlay B) (G : labels).

Lemma crowded_insert (db : database) k x :
  (∀ k', is_Some (db !! k') → len k' ≤ SPLIT_KEY_LIMIT) → len k ≤ SPLIT_KEY_LIMIT → ¬ crowded (<[k := x]> db).
Proof.
  intros Hdb Hk (k' & Hs & Hl). destruct (decide (k = k')) as [<-|Hne]; [lia|].
  rewrite lookup_insert_ne in Hs by done. apply Hdb in Hs. lia.
Qed.

(** C17: preparing a transaction refines the reference database, when the keys of the
    database and of the request are at most [SPLIT_KEY_LIMIT] bytes long once encoded (a
    request may also have keys beyond the documented limit).  A request that commits is
    committed by the reference at the same LSN, and the overlay then holds the
    reference's new states; a request without mutations only checks its conditions; a
    conflict or an invalid request is the error the reference gives; invalid input is
    reported only of a request beyond the documented limits.  Every error leaves the
    states as they were, and the code never panics or runs out of fuel. *)
Theorem transaction_refines_reference n q o db :
  represents n o (Reference.states db) → (length (mutations q) ≤ n)%nat → keys_fit q → short_keys (Reference.states db) →
  match prepare_transaction q o with
  | (Ok (Some p), o') => mutations q ≠ [] ∧ within_limits (limits_of o) q ∧
      ∃ c db', prepared_commit_lsn p = Some c ∧ Reference.transact_at q c db = (Ok c, db') ∧
        represents (n - length (mutations q)) o' (Reference.states db') ∧ short_keys (Reference.states db')
  | (Ok None, o') => mutations q = [] ∧ within_limits (limits_of o) q ∧ represents n o' (Reference.states db) ∧
      ∀ c, 0 < c < U64_MAX → ∃ db', Reference.transact_at q c db = (Ok c, db') ∧
        Reference.states db' = Reference.states db
  | (Err (InvalidInput _), o') => validate q = Ok tt ∧ ¬ within_limits (limits_of o) q ∧ represents n o' (Reference.states db)
  | (Err e, o') => represents n o' (Reference.states db) ∧
      ∀ c, 0 < c < U64_MAX → Reference.transact_at q c db = (Err e, db)
  | (Stuck _, _) => False
  end.
Proof.
  intros Hr Hn Hk Hsh. destruct (represents_provisioned _ _ _ Hr) as [top Htop].
  pose proof (prepare_transaction_spec top n q o db Htop Hn Hk Hsh) as Hp. unfold wp in Hp.
  destruct (prepare_transaction q o) as [[[p|]|e|] o']; [..|done].
  - destruct Hp as (Hv & Hx & Hw & Hne & _ & c & C & Hr'%provisioned_represents). pose proof (com_lsn _ _ _ _ C) as [Hl _].
    destruct (transact_at_success q db c Hv Hx) as (db' & Ht & Es).
    { eapply committed_lsn_range; [exact Hr|exact C|]. eapply represents_le; [|exact Hr']. lia. }
    split_and!; [done|apply Hw..|]. exists c, db'. rewrite Es. split_and!; [done..|].
    apply short_keys_mutate; [done|]. eapply fit_within_short; [apply Hk|apply Hw].
  - destruct Hp as (Hv & Hx & Hw & Hm & S). split_and!; [done|apply Hw..|by eapply represents_sim|]. intros c Hc.
    destruct (transact_at_success q db c Hv Hx Hc) as (db' & Ht & Es). rewrite Hm in Es. eauto.
  - destruct Hp as [(m & -> & Hv & ->)|[(x & -> & Hv & Hx & S)|([m ->] & Hv & Hw & S)]].
    + split; [done|]. apply transact_at_failure. left. eauto.
    + split; [by eapply represents_sim|]. apply transact_at_failure. right. eauto.
    + split_and!; [done..|]. by eapply represents_sim.
Qed.

(** The batch a transaction prepares is exactly what its commit has to write:
    the changed pages are the pages in which the new tree differs from the old one,
    each image is the encoding of its page, and the new superblock describes the new
    tree in the next generation and the other slot. *)
Theorem prepared_batch_sound n q o db p o' :
  represents n o (Reference.states db) → (length (mutations q) ≤ n)%nat → keys_fit q → short_keys (Reference.states db) →
  prepare_transaction q o = (Ok (Some p), o') →
  (∀ i, view o' i = match changed_decoded p !! i with Some d => Some d | None => view o i end) ∧
  (∀ i, match changed_decoded p !! i with
        | Some d => ∃ img, changed_pages p !! i = Some img ∧ Format.encode d i = Ok img
        | None => changed_pages p !! i = None
        end) ∧
  new_slot p = other_slot (active_slot o) ∧ base_generation p = Superblock.generation (current_superblock o) ∧
  Superblock.generation (new_superblock p) = base_generation p + 1 ∧
  Superblock.root_page_id (new_superblock p) = Some (root_page_id o') ∧
  Superblock.free_list_head (new_superblock p) = free_list_head o' ∧
  Superblock.high_water_page_id (new_superblock p) = Some (high_water_page_id o') ∧
  dirty o' = ∅.
Proof.
  intros [top Ht]%represents_provisioned Hn Hk Hsh Hp. pose proof (prepare_transaction_spec top n q o db Ht Hn Hk Hsh) as HP. unfold wp in HP.
  rewrite Hp in HP. destruct HP as (_ & _ & _ & _ & _ & c & [C1 C2 C3 C4 C5 C6 C7 C8 C9 C10 _] & (G & H & fl & _ & _ & Hd & _)).
  destruct C10 as (E1 & E2 & E3 & E4 & (_ & E5 & E6 & E7 & E8 & _)). rewrite E1, E2.
  split_and!; try done; [|congruence|apply Hd]. intros i. specialize (C3 i).
  destruct (changed_decoded p !! i); [|done]. destruct C3 as (img & ? & ? & _). eauto.
Qed.

(** C18: a group of transactions run against one overlay behaves like the reference
    database running its requests in order, when the keys of the database and of the
    requests are at most [SPLIT_KEY_LIMIT] bytes long once encoded (or beyond the
    documented limit): each committed request is applied at its own LSN on top of the
    earlier ones; a conflicting, invalid or oversized one reports its error and leaves
    the state as it was for the requests after it; the group as a whole never fails. *)
Theorem group_refines_reference qs n o db :
  represents n o (Reference.states db) → (writes qs ≤ n)%nat → Forall keys_fit qs → short_keys (Reference.states db) →
  ∃ ps rs db' o', prepare_group qs o = (Ok (ps, rs), o') ∧ group_run (limits_of o) db qs rs db' ∧
    represents (n - writes qs) o' (Reference.states db') ∧ short_keys (Reference.states db').
Proof.
  intros Hr Hn Hwf Hsh. destruct (prepare_group_spec qs n o db Hr Hn Hwf Hsh) as (ps & rs & db' & o' & []).
  exists ps, rs, db', o'. split_and!; try done. by eapply group_run_short.
Qed.

(** A point read returns the reference state of the key, the revision of an
    absent or deleted key included; only the response budget can refuse it. *)
Theorem get_refines_reference n o db k b :
  represents n o (Reference.states db) → valid_key k →
  match get_state_with_budget k (o, b) with
  | (Ok s, (o', _)) => s = Reference.get db k ∧ represents n o' (Reference.states db)
  | (Err e, (o', _)) => (∃ m, e = ResponseTooLarge m) ∧ represents n o' (Reference.states db)
  | (Stuck _, _) => False
  end.
Proof.
  intros Hr Hk. pose proof Hr as (G & H & fl & Hi & _). pose proof (get_state_spec o G H fl _ k b Hi Hk) as Hg.
  unfold wp in Hg. destruct (get_state_with_budget k (o, b)) as [[s|e|] [o' b']]; [..|done].
  - destruct Hg as [-> S]. split; [apply state_of_abs|by eapply represents_sim].
  - destruct Hg as [He S]. split; [done|by eapply represents_sim].
Qed.

(** C24: a scan returns the rows of the reference scan, in key order, after the
    cursor and up to the limit; only the response budget can refuse it. *)
Theorem scan_refines_reference n o db cursor limit b :
  represents n o (Reference.states db) → (∀ c, cursor = Some c → valid_key c) → 0 ≤ limit →
  match scan_with_budget cursor limit (o, b) with
  | (Ok rows, (o', _)) => rows = row <$> Reference.scan db cursor limit ∧ represents n o' (Reference.states db)
  | (Err e, (o', _)) => (∃ m, e = ResponseTooLarge m) ∧ represents n o' (Reference.states db)
  | (Stuck _, _) => False
  end.
Proof.
  intros Hr Hc Hl. pose proof Hr as (G & H & fl & Hi & _).
  pose proof (scan_spec o G H fl db cursor limit b Hi Hc Hl) as Hs. unfold wp in Hs.
  destruct (scan_with_budget cursor limit (o, b)) as [[rows|e|] [o' b']]; [..|done].
  - destruct Hs as [S ->]. split; [done|by eapply represents_sim].
  - destruct Hs as [He S]. split; [done|by eapply represents_sim].
Qed.

(** C25: a query returns the rows of the reference query: the documents of one
    primary key in sort-key order, after the cursor and up to the limit. *)
Theorem query_refines_reference n o db pk after limit b :
  represents n o (Reference.states db) → valid_key (Key.new pk []) →
  (∀ c, after = Some c → valid_key (Key.new pk c)) → 0 ≤ limit →
  match query_with_budget pk after limit (o, b) with
  | (Ok rows, (o', _)) => rows = row <$> Reference.query db pk after limit ∧ represents n o' (Reference.states db)
  | (Err e, (o', _)) => (∃ m, e = ResponseTooLarge m) ∧ represents n o' (Reference.states db)
  | (Stuck _, _) => False
  end.
Proof.
  intros Hr Hpk Hc Hl. pose proof Hr as (G & H & fl & Hi & _).
  pose proof (query_spec o G H fl db pk after limit b Hi Hpk Hc Hl) as Hs. unfold wp in Hs.
  destruct (query_with_budget pk after limit (o, b)) as [[rows|e|] [o' b']]; [..|done].
  - destruct Hs as [S ->]. split; [done|by eapply represents_sim].
  - destruct Hs as [He S]. split; [done|by eapply represents_sim].
Qed.

(** C27: a put of a key of at most [SPLIT_KEY_LIMIT] encoded bytes into a tree with such
    keys succeeds, keeps the tree invariant and changes the database at its key only,
    whether it overwrites an entry, inserts one or splits pages up to the root. *)
Theorem put_keeps_invariant o G H fl db k v :
  inv o ∅ G G H fl db → valid_key k → valid_value o v → limits_ok o → u64 (write_revision o) → 0 < write_revision o →
  reach o H 1 < U64_MAX → revisions_le db (write_revision o) →
  (∀ k', is_Some (db !! k') → len k' ≤ SPLIT_KEY_LIMIT) → len (Key.encode k) ≤ SPLIT_KEY_LIMIT →
  ∃ o' G' H' fl', put k v o = (Ok (write_revision o), o') ∧
    inv o' ∅ G' G' H' fl' (<[Key.encode k := (write_revision o, Some v)]> db).
Proof.
  intros Hi Hk Hv Hl Hr Hr0 Hroom Hrevs Hdb Hkl. pose proof (put_spec o G H fl db k v Hi Hk Hv Hl Hr Hr0 Hroom Hrevs) as Hp.
  unfold wp in Hp. destruct (put k v o) as [[r|e|] o']; [..|done].
  - destruct Hp as (-> & _ & G' & H' & fl' & Hi' & _). eauto 10.
  - destruct Hp as [_ Hc]. by apply (crowded_insert _ _ _ Hdb Hkl) in Hc.
Qed.

(** C22: a delete of a key of at most [SPLIT_KEY_LIMIT] encoded bytes in a tree with such
    keys succeeds, keeps the tree invariant and leaves a tombstone with the new
    revision at its key, for a key that was never written too; no other key changes. *)
Theorem delete_keeps_invariant o G H fl db k :
  inv o ∅ G G H fl db → valid_key k → u64 (write_revision o) → 0 < write_revision o → reach o H 1 < U64_MAX →
  revisions_le db (write_revision o) →
  (∀ k', is_Some (db !! k') → len k' ≤ SPLIT_KEY_LIMIT) → len (Key.encode k) ≤ SPLIT_KEY_LIMIT →
  ∃ o' G' H' fl', Overlay.delete k o = (Ok (write_revision o), o') ∧
    inv o' ∅ G' G' H' fl' (<[Key.encode k := (write_revision o, None)]> db).
Proof.
  intros Hi Hk Hr Hr0 Hroom Hrevs Hdb Hkl. pose proof (delete_spec o G H fl db k Hi Hk Hr Hr0 Hroom Hrevs) as Hp.
  unfold wp in Hp. destruct (Overlay.delete k o) as [[r|e|] o']; [..|done].
  - destruct Hp as (-> & _ & G' & H' & fl' & Hi' & _). eauto 10.
  - destruct Hp as [_ Hc]. by apply (crowded_insert _ _ _ Hdb Hkl) in Hc.
Qed.

(** The descent from the root ends: it never visits a page twice, needs no
    more steps than there are pages, and returns the leaf whose interval holds the
    key, with the path that leads to it. *)
Theorem find_leaf_terminates o G H fl db k :
  inv o ∅ G G H fl db →
  ∃ id route o' lo hi, find_leaf k o = (Ok (id, route), o') ∧ sim o o' ∧ last route = Some id ∧
    length route = S H ∧ G !! id = Some (RTree 0 lo hi) ∧ in_bounds lo hi k.
Proof.
  intros Hi. pose proof (find_leaf_spec o G H fl db k Hi) as Hf. unfold wp in Hf.
  destruct (find_leaf k o) as [[[id route]| |] o']; [|done..].
  destruct Hf as (S & rr & lo & hi & Hr & Hp & Hid & Hk). cbn [fst snd] in *.
  exists id, route, o', lo, hi. split_and!; try done; try apply Hk.
  - by rewrite <-head_reverse, Hr.
  - rewrite <-length_reverse, Hr. simpl. by rewrite <-(path_length _ _ _ _ _ Hp).
Qed.

(** A value reads back as it was written, inline or in an overflow chain of any
    admissible length, and the pages it took can be given back. *)
Theorem value_roundtrip o G H fl db v lsn :
  inv o ∅ G G H fl db → len v ≤ Format.MAX_VALUE_SIZE → limits_ok o → u64 lsn →
  high_water_page_id o + Format.MAX_OVERFLOW_PAGES < U64_MAX →
  ∃ vr o1, make_value v lsn o = (Ok vr, o1) ∧
    (∃ o2, read_value vr o1 = (Ok v, o2) ∧ sim o1 o2) ∧
    (∃ o3 G' fl', free_value (Some vr) lsn o1 = (Ok tt, o3) ∧ inv o3 ∅ G' G' H fl' db).
Proof.
  intros Hi Hv Hl Hlsn Hroom. pose proof (make_value_spec o G H fl db v lsn Hi Hv Hl Hlsn Hroom) as Hm.
  unfold wp in Hm. destruct (make_value v lsn o) as [[vr| |] o1]; [|done..].
  destruct Hm as (G1 & fl1 & Hi1 & Hval & _). exists vr, o1. split; [done|]. split.
  - pose proof (read_value_spec o1 ∅ G1 G1 H fl1 db None vr v Hi1 Hval) as Hr. unfold wp in Hr.
    destruct (read_value vr o1) as [[w| |] o2]; [|done..]. destruct Hr as [-> S]. by exists o2.
  - pose proof (free_value_spec o1 G1 H fl1 db (Some vr) (Some v) lsn Hi1 Hval Hlsn) as Hf. unfold wp in Hf.
    destruct (free_value (Some vr) lsn o1) as [[[]| |] o3]; [|done..]. destruct Hf as (G' & fl' & Hi' & _). eauto.
Qed.

End theorems.

(** ** Concrete instances *)

Section examples.
#[local] Existing Instance Castagnoli.instance.
#[local] Existing Instance Castagnoli.spec.

Definition sample_key : DocumentKey := Key.new [1] [2].
Definition sample_put : TransactionRequest := mkRequest [NotExists sample_key] [Put sample_key [3; 4]].
Definition sample_conflict : TransactionRequest := mkRequest [Exists sample_key] [Delete sample_key].

Lemma sample_key_valid : valid_key sample_key.
Proof. split; [split; repeat constructor; done|vm_compute; congruence]. Qed.

Lemma sample_key_fits : key_fits sample_key.
Proof. split; [split; repeat constructor; done|left; vm_compute; congruence]. Qed.

Lemma sample_put_fits : keys_fit sample_put.
Proof. split; [apply Forall_singleton, sample_key_fits|]. repeat constructor; done. Qed.
Lemma sample_conflict_fits : keys_fit sample_conflict.
Proof. split; [apply Forall_singleton, sample_key_fits|]. repeat constructor; done. Qed.

Lemma empty_short : short_keys (Reference.states Reference.new).
Proof. intros k [x Hx]. cbn in Hx. by rewrite lookup_empty in Hx. Qed.

(** Whether a result is a prepared batch, a conflict. *)
Definition commits (r : result (option PreparedBatch)) : bool :=
  match r with Ok (Some _) => true | _ => false end.
Definition conflicts {A} (r : result A) : bool := match r with Err (Conflict _) => true | _ => false end.

(** The overlay after [sample_put], and the database it holds. *)
Definition written_overlay : Overlay MemStore := (prepare_transaction sample_put (empty_overlay true)).2.
Definition written_db : Reference.ReferenceDb := (Reference.transact_at sample_put 3 Reference.new).2.

Lemma transaction_refines_reference_witness :
  ∃ p, prepare_transaction sample_put (empty_overlay true) = (Ok (Some p), written_overlay) ∧
    prepared_commit_lsn p = Some 3 ∧ represents 9 written_overlay (Reference.states written_db).
Proof.
  pose proof (transaction_refines_reference 10 sample_put (empty_overlay true) Reference.new
    (empty_represents true 10 ltac:(lia)) ltac:(simpl; lia) sample_put_fits empty_short) as HT. unfold written_overlay, written_db.
  assert (match (prepare_transaction sample_put (empty_overlay true)).1 with Ok (Some p) => prepared_commit_lsn p | _ => None end = Some 3)
    as HC by (vm_compute; reflexivity).
  destruct (prepare_transaction sample_put (empty_overlay true)) as [[[p|]|e|] o']; [|discriminate HC..].
  destruct HT as (_ & _ & c & db' & Hc & Ht & Hr & _). exists p. split; [reflexivity|]. split; [exact HC|].
  cbn [fst] in HC. rewrite HC in Hc. injection Hc as <-. rewrite Ht. exact Hr.
Defined.

Lemma written_represents : represents 9 written_overlay (Reference.states written_db).
Proof.
  destruct (represents_provisioned _ _ _ (empty_represents true 10 ltac:(lia))) as [top Htop].
  pose proof (prepare_transaction_spec top 10 sample_put (empty_overlay true) Reference.new Htop ltac:(simpl; lia) sample_put_fits
    empty_short) as HT. unfold wp in HT. unfold written_overlay, written_db.
  assert (match (prepare_transaction sample_put (empty_overlay true)).1 with Ok (Some p) => prepared_commit_lsn p | _ => None end = Some 3)
    as HC by (vm_compute; reflexivity).
  destruct (prepare_transaction sample_put (empty_overlay true)) as [[[p|]|e|] o']; [|discriminate HC..].
  destruct HT as (Hv & Hx & _ & _ & _ & c & C & Hr%provisioned_represents). cbn [fst] in HC.
  rewrite (proj1 (com_lsn _ _ _ _ C)) in HC. injection HC as ->.
  rewrite Reference.transact_at_eq by done. by rewrite Hx.
Qed.

Lemma prepared_batch_sound_witness :
  ∃ p o', prepare_transaction sample_put (empty_overlay true) = (Ok (Some p), o') ∧
    Superblock.generation (new_superblock p) = 2 ∧ dirty o' = ∅.
Proof.
  assert (commits (prepare_transaction sample_put (empty_overlay true)).1 = true) as HC by (vm_compute; reflexivity).
  destruct (prepare_transaction sample_put (empty_overlay true)) as [[[p|]|e|] o'] eqn:E; [|discriminate HC..].
  pose proof (prepared_batch_sound 10 sample_put (empty_overlay true) Reference.new p o'
    (empty_represents true 10 ltac:(lia)) ltac:(simpl; lia) sample_put_fits empty_short E) as (_ & _ & _ & Hb & Hg & _ & _ & _ & Hd).
  exists p, o'. split; [reflexivity|]. split; [rewrite Hg, Hb; reflexivity|exact Hd].
Defined.

Lemma group_refines_reference_witness :
  let qs := [sample_conflict; sample_put] in let o := empty_overlay false in
  ∃ ps rs db' o', prepare_group qs o = (Ok (ps, rs), o') ∧ group_run (limits_of o) Reference.new qs rs db' ∧
    represents 2 o' (Reference.states db') ∧ short_keys (Reference.states db').
Proof.
  apply (group_refines_reference [sample_conflict; sample_put] 4 (empty_overlay false) Reference.new).
  - apply (empty_represents false 4). lia.
  - vm_compute. lia.
  - repeat apply Forall_cons_2; [apply sample_conflict_fits|apply sample_put_fits|apply Forall_nil_2].
  - exact empty_short.
Defined.

Definition big_budget : ResponseBudget := mkBudget 1000000 1000000 17 0.

Lemma get_refines_reference_witness :
  (get_state_with_budget sample_key (empty_overlay true, big_budget)).1 = Ok (Missing 0).
Proof.
  pose proof (get_refines_reference 3 (empty_overlay true) Reference.new sample_key big_budget
    (empty_represents true 3 ltac:(lia)) sample_key_valid) as HT.
  assert (is_ok (get_state_with_budget sample_key (empty_overlay true, big_budget)).1 = true) as HC
    by (vm_compute; reflexivity).
  destruct (get_state_with_budget sample_key (empty_overlay true, big_budget)) as [[s|e|] [o' b']]; [|discriminate HC..].
  destruct HT as [-> _]. reflexivity.
Defined.

Lemma scan_refines_reference_witness :
  (scan_with_budget None 5 (written_overlay, big_budget)).1 = Ok [mkDocument sample_key [3; 4] 3] ∧
  (scan_with_budget (Some sample_key) 5 (written_overlay, big_budget)).1 = Ok [].
Proof.
  pose proof (scan_refines_reference 9 written_overlay written_db None 5 big_budget written_represents
    ltac:(discriminate) ltac:(lia)) as HT.
  pose proof (scan_refines_reference 9 written_overlay written_db (Some sample_key) 5 big_budget written_represents
    ltac:(intros c [= <-]; exact sample_key_valid) ltac:(lia)) as HT'.
  assert (is_ok (scan_with_budget None 5 (written_overlay, big_budget)).1 = true) as HC by (vm_compute; reflexivity).
  assert (is_ok (scan_with_budget (Some sample_key) 5 (written_overlay, big_budget)).1 = true) as HC' by (vm_compute; reflexivity).
  destruct (scan_with_budget None 5 (written_overlay, big_budget)) as [[s|e|] [o' b']]; [|discriminate HC..].
  destruct (scan_with_budget (Some sample_key) 5 (written_overlay, big_budget)) as [[s'|e|] [o'' b'']]; [|discriminate HC'..].
  destruct HT as [-> _], HT' as [-> _]. split; vm_compute; reflexivity.
Defined.

Lemma query_refines_reference_witness :
  (query_with_budget [1] None 5 (written_overlay, big_budget)).1 = Ok [mkDocument sample_key [3; 4] 3].
Proof.
  pose proof (query_refines_reference 9 written_overlay written_db [1] None 5 big_budget written_represents
    ltac:(split; [split; repeat constructor; done|vm_compute; congruence]) ltac:(discriminate) ltac:(lia)) as HT.
  assert (is_ok (query_with_budget [1] None 5 (written_overlay, big_budget)).1 = true) as HC by (vm_compute; reflexivity).
  destruct (query_with_budget _ _ 5 (written_overlay, big_budget)) as [[s|e|] [o' b']]; [|discriminate HC..].
  destruct HT as [-> _]. vm_compute. reflexivity.
Defined.

Lemma put_keeps_invariant_witness :
  ∃ o' G' H' fl', put sample_key [3; 4] (empty_overlay true) = (Ok 1, o') ∧
    inv o' ∅ G' G' H' fl' (<[Key.encode sample_key := (1, Some [3; 4])]> ∅).
Proof.
  pose proof (put_keeps_invariant (empty_overlay true) _ 0 [] ∅ sample_key [3; 4] (empty_inv true) sample_key_valid
    ltac:(split; vm_compute; congruence) ltac:(vm_compute; congruence) ltac:(vm_compute; split; congruence)
    ltac:(vm_compute; reflexivity) ltac:(vm_compute; reflexivity) ltac:(intros k x ov; rewrite lookup_empty; discriminate)
    ltac:(intros k [x Hx]; rewrite lookup_empty in Hx; discriminate) ltac:(vm_compute; congruence)) as HT.
  exact HT.
Defined.

Lemma delete_keeps_invariant_witness :
  ∃ o' G' H' fl', Overlay.delete sample_key (empty_overlay true) = (Ok 1, o') ∧
    inv o' ∅ G' G' H' fl' (<[Key.encode sample_key := (1, None)]> ∅).
Proof.
  pose proof (delete_keeps_invariant (empty_overlay true) _ 0 [] ∅ sample_key (empty_inv true) sample_key_valid
    ltac:(vm_compute; split; congruence)
    ltac:(vm_compute; reflexivity) ltac:(vm_compute; reflexivity) ltac:(intros k x ov; rewrite lookup_empty; discriminate)
    ltac:(intros k [x Hx]; rewrite lookup_empty in Hx; discriminate) ltac:(vm_compute; congruence)) as HT.
  exact HT.
Defined.

Lemma find_leaf_terminates_witness :
  ∃ id route o', find_leaf (Key.encode sample_key) (empty_overlay true) = (Ok (id, route), o') ∧
    length route = 1%nat ∧ last route = Some id.
Proof.
  destruct (find_leaf_terminates (empty_overlay true) _ 0 [] ∅ (Key.encode sample_key) (empty_inv true))
    as (id & route & o' & lo & hi & Hf & _ & Hl & Hlen & _).
  exists id, route, o'. split; [exact Hf|]. split; [exact Hlen|exact Hl].
Defined.

Lemma value_roundtrip_witness :
  ∃ vr o1, make_value (zeros 600) 7 (empty_overlay true) = (Ok vr, o1) ∧
    ∃ o2, read_value vr o1 = (Ok (zeros 600), o2) ∧ sim o1 o2.
Proof.
  destruct (value_roundtrip (empty_overlay true) _ 0 [] ∅ (zeros 600) 7 (empty_inv true)
    ltac:(vm_compute; congruence) ltac:(vm_compute; congruence) ltac:(vm_compute; split; congruence)
    ltac:(vm_compute; reflexivity)) as (vr & o1 & Hm & Hr & _).
  exists vr, o1. split; [exact Hm|exact Hr].
Defined.

End examples.

End TreeTheorems.
