(* ===== verification/DurableFile.v ===== *)
(** * Positional files and fault injection

    Models src/crates/dodb-storage/src/durable_file.rs and fault.rs: the traits
    [DurableFile] and [FaultInjector] as type classes, and the two loops that the
    WAL and the store build on [read_at] and [write_at].  [read_at] returns the
    bytes it placed in the buffer, so the count is their length.  The laws
    [DurableFileSpec] are the trait's documented contract: short counts are
    allowed, nothing else of the file changes, and writes are volatile until a sync
    succeeds. *)

From S2P Require Import Prelude Wp Key Core.

Module DurableFile.
Import Core.

Class DurableFile (F : Type) : Type := {
  read_at : Z → Z → St F Error bytes;
  write_at : Z → bytes → St F Error Z;
  file_len : F → result Z;
  set_len : Z → St F Error unit;
  sync_data : St F Error unit;
  sync_all : St F Error unit;
}.

Definition is_empty `{DurableFile F} (f : F) : result bool :=
  n ← file_len f; Ok (n =? 0).

(** [Option<&mut dyn FaultInjector>]: [hit] on the wrapped injector, nothing when
    there is none. *)
Class FaultInjector (J : Type) : Type := injector_hit : string → St J Error unit.

Definition hit `{FaultInjector J} (point : string) : St (option J) Error unit :=
  λ i, match i with
       | None => (Ok tt, None)
       | Some j => let '(r, j') := injector_hit point j in (r, Some j')
       end.

(** An injector that is never there. *)
#[global] Instance no_injector : FaultInjector Empty_set := λ _ i, match i with end.

(** [.map_err(..)] on an operation. *)
Definition map_err_st {S A} (g : Error → Error) (m : St S Error A) : St S Error A :=
  λ s, let '(r, s') := m s in (map_err g r, s').

(** ** The complete-read and complete-write loops

    [add] is the offset arithmetic of the caller (checked in the WAL, plain in the
    store) and [eof] and [zero] its errors for a zero count. *)
Section loops.
Context `{DurableFile F} (add : Z → Z → result Z).

Fixpoint read_loop (eof : Error) (fuel : nat) (offset length : Z) (buffer : bytes) :
    St F Error bytes :=
  match fuel with
  | O => lift_r (Stuck OutOfFuel)
  | S fuel' =>
      if len buffer <? length then
        o ← lift_r (add offset (len buffer));
        chunk ← read_at o (length - len buffer);
        if len chunk =? 0 then throw eof
        else read_loop eof fuel' offset length (buffer ++ chunk)
      else mret buffer
  end.

Fixpoint write_loop (zero : Error) (fuel : nat) (offset position : Z) (data : bytes) :
    St F Error unit :=
  match fuel with
  | O => lift_r (Stuck OutOfFuel)
  | S fuel' =>
      if position <? len data then
        o ← lift_r (add offset position);
        count ← write_at o (data.[position; len data));
        if count =? 0 then throw zero
        else write_loop zero fuel' offset (position + count) data
      else mret tt
  end.
End loops.

(** [offset.checked_add(position)] with the caller's error. *)
Definition checked_offset (e : Error) (offset position : Z) : result Z :=
  ok_or (checked_add offset position) e.

(** [offset + position], which panics on overflow. *)
Definition plain_offset (offset position : Z) : result Z :=
  match checked_add offset position with Some o => Ok o | None => Stuck Panicked end.

(** ** The contract of a file *)

(** [b] after a write of [s] at an offset [o] that is not past its end. *)
Definition write_bytes (b : bytes) (o : Z) (s : bytes) : bytes :=
  take (Z.to_nat o) b ++ s ++ drop (Z.to_nat (o + len s)) b.

(** [set_len]: truncated, or extended with zeros. *)
Definition resize (b : bytes) (n : Z) : bytes := take (Z.to_nat n) b ++ zeros (n - len b).

Class DurableFileSpec (F : Type) `{DurableFile F} : Type := {
  volatile : F → bytes;
  durable : F → bytes;
  (** no fault is going to happen *)
  reliable : F → Prop;

  read_at_spec f o n : 0 ≤ o → 0 ≤ n →
    wp (read_at o n)
      (λ b f', volatile f' = volatile f ∧ durable f' = durable f ∧ (reliable f → reliable f') ∧
         len b ≤ n ∧ b = (volatile f).[o; o + len b) ∧
         (reliable f → 0 < n → o < len (volatile f) → 0 < len b))
      (λ _ f', volatile f' = volatile f ∧ durable f' = durable f ∧ ¬ reliable f) f;
  write_at_spec f o s : 0 ≤ o ≤ len (volatile f) →
    wp (write_at o s)
      (λ c f', 0 ≤ c ≤ len s ∧ volatile f' = write_bytes (volatile f) o (s.[0; c)) ∧
         durable f' = durable f ∧ (reliable f → reliable f') ∧ (reliable f → s ≠ [] → 0 < c))
      (λ _ f', volatile f' = volatile f ∧ durable f' = durable f ∧
         (reliable f → U64_MAX < o + len s)) f;
  file_len_spec f :
    match file_len f with
    | Ok n => n = len (volatile f)
    | Err _ => ¬ reliable f
    | Stuck _ => False
    end;
  set_len_spec f n : 0 ≤ n →
    wp (set_len n)
      (λ _ f', volatile f' = resize (volatile f) n ∧ durable f' = durable f ∧
         (reliable f → reliable f'))
      (λ _ f', volatile f' = volatile f ∧ durable f' = durable f ∧ ¬ reliable f) f;
  sync_data_spec f :
    wp sync_data
      (λ _ f', volatile f' = volatile f ∧ durable f' = volatile f ∧ (reliable f → reliable f'))
      (λ _ f', volatile f' = volatile f ∧ durable f' = durable f ∧ ¬ reliable f) f;
  sync_all_spec f :
    wp sync_all
      (λ _ f', volatile f' = volatile f ∧ durable f' = volatile f ∧ (reliable f → reliable f'))
      (λ _ f', volatile f' = volatile f ∧ durable f' = durable f ∧ ¬ reliable f) f;
}.

(** The file is as it was, with no fault added. *)
Definition same_file `{DurableFileSpec F} (f f' : F) : Prop :=
  volatile f' = volatile f ∧ durable f' = durable f ∧ (reliable f → reliable f').

#[global] Instance same_file_preorder `{DurableFileSpec F} : PreOrder same_file.
Proof.
  split; [intros x; by split_and!|]. intros x y z (H1 & H2 & H3) (H4 & H5 & H6).
  split_and!; [congruence..|auto].
Qed.

(** ** Lemmas *)

Lemma write_bytes_append b s : write_bytes b (len b) s = b ++ s.
Proof.
  unfold write_bytes, len. rewrite Nat2Z.id, take_ge, drop_ge by lia. by rewrite app_nil_r.
Qed.
Lemma write_bytes_nil b o : write_bytes b o [] = b.
Proof. unfold write_bytes. rewrite len_nil, Z.add_0_r. simpl. apply take_drop. Qed.
Lemma len_write_bytes b o s :
  0 ≤ o ≤ len b → len (write_bytes b o s) = Z.max (len b) (o + len s).
Proof.
  unfold write_bytes. intros. rewrite !len_app. unfold len in *.
  rewrite length_take, length_drop. lia.
Qed.
Lemma write_bytes_app b o s t :
  0 ≤ o ≤ len b → write_bytes (write_bytes b o s) (o + len s) t = write_bytes b o (s ++ t).
Proof.
  unfold write_bytes. intros. rewrite len_app.
  assert (Hs : Z.to_nat (o + len s) = (length (take (Z.to_nat o) b ++ s))%nat)
    by (rewrite length_app, length_take; unfold len in *; lia).
  rewrite (app_assoc _ s), take_app_ge by lia.
  replace (Z.to_nat (o + len s) - length (take (Z.to_nat o) b ++ s))%nat with 0%nat by lia.
  rewrite take_0, app_nil_r, <-!app_assoc. f_equal. f_equal. f_equal.
  rewrite app_assoc, drop_app_ge by (unfold len in *; lia).
  rewrite drop_drop. f_equal. unfold len in *. lia.
Qed.

Lemma take_slice (b : bytes) c : b.[0; c) = take (Z.to_nat c) b.
Proof. unfold slice. by rewrite Z.sub_0_r, drop_0. Qed.

Lemma wp_map_err {S A} (g : Error → Error) (m : St S Error A) Q X s :
  wp m Q (λ e, X (g e)) s → wp (map_err_st g m) Q X s.
Proof. unfold wp, map_err_st. by destruct (m s) as [[a|e|k] s']. Qed.

(** A point of the fault injector: it may fail only when there is an injector. *)
Class FaultInjectorSpec (J : Type) `{FaultInjector J} : Prop :=
  injector_returns : ∀ point (j : J), returns (injector_hit point j).1.
#[global] Instance no_injector_spec : FaultInjectorSpec Empty_set.
Proof. by intros point []. Qed.

Lemma wp_hit `{FaultInjectorSpec J} point (j : option J) Q (X : Error → option J → Prop) :
  (∀ j', (j = None → j' = None) → Q tt j') → (∀ e j', j ≠ None → X e j') → wp (hit point) Q X j.
Proof.
  unfold wp, hit. intros HQ HX. destruct j as [k|]; [|by apply HQ].
  pose proof (injector_returns point k) as Hr.
  destruct (injector_hit point k) as [[[]|e|?] k']; [by apply HQ|by apply HX|done].
Qed.

(** The offsets the loops compute: the sum, or the caller's overflow error. *)
Definition offsets_ok (add : Z → Z → result Z) (offset n : Z) : Prop :=
  ∀ p, 0 ≤ p < n →
    add offset p = Ok (offset + p) ∨ (∃ e, add offset p = Err e) ∧ U64_MAX < offset + p.

Lemma checked_offset_ok e offset n : offsets_ok (checked_offset e) offset n.
Proof.
  intros p _. unfold checked_offset, checked_add.
  destruct (Z.leb_spec (offset + p) U64_MAX); simpl; eauto.
Qed.
Lemma plain_offset_ok offset n : offset + n ≤ U64_MAX + 1 → offsets_ok plain_offset offset n.
Proof. intros Hn p Hp. left. unfold plain_offset. by rewrite checked_add_ok by lia. Qed.

Section loop_specs.
Context `{FS : DurableFileSpec F} (add : Z → Z → result Z).

Lemma read_loop_spec eof fuel offset n buffer f :
  0 ≤ offset → 0 ≤ n → offsets_ok add offset n → len buffer ≤ n →
  buffer = (volatile f).[offset; offset + len buffer) → n - len buffer < Z.of_nat fuel →
  wp (read_loop add eof fuel offset n buffer)
    (λ b f', same_file f f' ∧ len b = n ∧ b = (volatile f).[offset; offset + n))
    (λ _ f', same_file f f' ∧ (reliable f → len (volatile f) < offset + n ∨ U64_MAX < offset + n)) f.
Proof.
  intros Ho Hn Hadd. revert buffer f. induction fuel as [|fuel IH]; intros buffer f Hb Hbuf Hf.
  { pose_len_nonneg. lia. }
  cbn [read_loop]. destruct (Z.ltb_spec (len buffer) n) as [Hlt|Hge]; last first.
  { apply wp_ret. split; [done|]. assert (len buffer = n) as <- by lia. done. }
  pose proof (len_nonneg buffer). apply wp_bind, wp_lift.
  destruct (Hadd (len buffer)) as [->|[[e ->] Hov]]; [lia| |split; [done|lia]].
  apply wp_bind. wp_use (read_at_spec f (offset + len buffer) (n - len buffer)); [lia|lia| |].
  2: { intros e f' (Hv & Hd & Hr). split; [split_and!; [done..|tauto]|]. tauto. }
  cbv beta. intros chunk f' (Hv & Hd & Hr & Hlc & Hc & Hpos).
  destruct (Z.eqb_spec (len chunk) 0) as [Hz|Hz].
  { apply wp_throw. split; [by split_and!|]. intros Hrel. left.
    destruct (Z.lt_ge_cases (offset + len buffer) (len (volatile f))) as [?|?]; [|lia].
    specialize (Hpos Hrel ltac:(lia) ltac:(lia)). lia. }
  pose proof (len_nonneg chunk).
  wp_use (IH (buffer ++ chunk) f').
  - rewrite len_app. lia.
  - rewrite Hv, len_app, Z.add_assoc.
    rewrite (slice_split _ offset (offset + len buffer)) by lia. by rewrite <-Hbuf, <-Hc.
  - rewrite len_app. lia.
  - intros b f'' (Hs & Hlb & Hb'). rewrite Hv in Hb'. split_and!; [|done..].
    etrans; [|exact Hs]. by split_and!.
  - intros e f'' [Hs R]. rewrite Hv in R. split; [|auto]. etrans; [|exact Hs]. by split_and!.
Qed.

Lemma write_loop_spec zero fuel offset position data f b0 :
  0 ≤ offset ≤ len b0 → offsets_ok add offset (len data) → 0 ≤ position ≤ len data →
  volatile f = write_bytes b0 offset (data.[0; position)) →
  len data - position < Z.of_nat fuel →
  wp (write_loop add zero fuel offset position data)
    (λ _ f', volatile f' = write_bytes b0 offset data ∧ durable f' = durable f ∧
       (reliable f → reliable f'))
    (λ _ f', (∃ c, 0 ≤ c ≤ len data ∧ volatile f' = write_bytes b0 offset (data.[0; c))) ∧
       durable f' = durable f ∧ (reliable f → U64_MAX < offset + len data)) f.
Proof.
  intros Ho Hadd. revert position f. induction fuel as [|fuel IH]; intros position f Hp Hv Hf; [lia|].
  cbn [write_loop]. destruct (Z.ltb_spec position (len data)) as [Hlt|Hge]; last first.
  { apply wp_ret. assert (position = len data) as -> by lia.
    rewrite slice_full in Hv by lia. by split_and!. }
  apply wp_bind, wp_lift. destruct (Hadd position) as [->|[[e ->] Hov]]; [lia| |].
  2: { split_and!; [by exists position|done|lia]. }
  assert (Hl : len (data.[0; position)) = position) by (rewrite len_slice; lia).
  apply wp_bind. wp_use (write_at_spec f (offset + position) (data.[position; len data))).
  - rewrite Hv, len_write_bytes by lia. lia.
  - intros c f' (Hc & Hv' & Hd & Hr & Hpos). rewrite len_slice in Hc by lia.
    assert (Hv2 : volatile f' = write_bytes b0 offset (data.[0; position + c))).
    { rewrite Hv', Hv. replace (offset + position) with (offset + len (data.[0; position))) by lia.
      rewrite write_bytes_app by done. f_equal.
      rewrite slice_slice by lia. rewrite (slice_split data 0 position (position + c)) by lia.
      by rewrite Z.add_0_r. }
    destruct (Z.eqb_spec c 0) as [->|Hcz].
    + apply wp_throw. rewrite Z.add_0_r in Hv2. split_and!; [eauto|done|]. intros Hrel. exfalso.
      specialize (Hpos Hrel). assert (data.[position; len data) ≠ []) as Hne; [|specialize (Hpos Hne); lia].
      intros Hnil. assert (HL : len (data.[position; len data)) = len data - position) by (rewrite len_slice; lia).
      rewrite Hnil, len_nil in HL. lia.
    + wp_use (IH (position + c) f'); [lia|done|lia| |].
      * intros u f'' (R1 & R2 & R3). split_and!; [done|congruence|auto].
      * intros e f'' (R1 & R2 & R3). split_and!; [done|congruence|auto].
  - intros e f' (R1 & R2 & R3). split_and!; [exists position; by rewrite R1|done|].
    intros Hrel. specialize (R3 Hrel). rewrite len_slice in R3 by lia. lia.
Qed.
End loop_specs.

#[global] Arguments write_bytes : simpl never.
#[global] Arguments resize : simpl never.

End DurableFile.
