(* ===== verification/CrashFile.v ===== *)
(** * The simulated file and crash injector of the test kit

    Models src/crates/dodb-testkit/src/crashable_file.rs and crash.rs: an in-memory
    file with separate volatile and durable bytes and an operation-indexed fault
    schedule, and the named crash-point injector.  The file is shown to satisfy the
    contract of [DurableFile], which makes it the concrete file of the witnesses. *)

From S2P Require Import Prelude Wp Key Core DurableFile.

Module CrashFile.
Import Core DurableFile.

Inductive FileOperation : Type := ReadAt | WriteAt | SetLen | SyncData | SyncAll.
#[global] Instance FileOperation_eq_dec : EqDecision FileOperation.
Proof. solve_decision. Defined.
#[global] Instance FileOperation_countable : Countable FileOperation.
Proof.
  refine (inj_countable'
    (λ o, match o with ReadAt => 0 | WriteAt => 1 | SetLen => 2 | SyncData => 3 | SyncAll => 4 end%nat)
    (λ n, match n with 0 => ReadAt | 1 => WriteAt | 2 => SetLen | 3 => SyncData | _ => SyncAll end%nat) _).
  by intros [].
Defined.

Inductive FaultAction : Type :=
  | ShortWrite (max_bytes : N)
  | ShortRead (max_bytes : N)
  | IoFault (kind : ErrorKind) (message : string).

(** ** The fault schedule *)

Record FaultPlan : Type := mkPlan {
  faults : gmap Z (FileOperation * FaultAction);
  next_matching : gmap FileOperation (Z * FaultAction);
  matching_hits : gmap FileOperation Z;
  next_operation : Z;
}.

Definition empty_plan : FaultPlan := mkPlan ∅ ∅ ∅ 0.

Definition at_ (p : FaultPlan) (operation_index : Z) (operation : FileOperation)
    (action : FaultAction) : FaultPlan :=
  mkPlan (<[operation_index := (operation, action)]> (faults p)) (next_matching p)
    (matching_hits p) (next_operation p).

Definition on_nth (p : FaultPlan) (operation : FileOperation) (nth : Z) (action : FaultAction) :
    FaultPlan :=
  mkPlan (faults p) (<[operation := (Z.max nth 1, action)]> (next_matching p))
    (matching_hits p) (next_operation p).

Definition on_next (p : FaultPlan) (operation : FileOperation) (action : FaultAction) : FaultPlan :=
  on_nth p operation 1 action.

Definition next_fault (operation : FileOperation) (p : FaultPlan) : option FaultAction * FaultPlan :=
  let index := next_operation p in
  let next := saturating_add (next_operation p) 1 in
  match faults p !! index with
  | Some (expected_operation, action) =>
      if decide (expected_operation = operation) then
        (Some action, mkPlan (delete index (faults p)) (next_matching p) (matching_hits p) next)
      else (None, mkPlan (<[index := (expected_operation, action)]> (delete index (faults p)))
                    (next_matching p) (matching_hits p) next)
  | None =>
      let hits := saturating_add (default 0 (matching_hits p !! operation)) 1 in
      let mh := <[operation := hits]> (matching_hits p) in
      match next_matching p !! operation with
      | Some (nth, action) =>
          if nth =? hits then
            (Some action, mkPlan (faults p) (delete operation (next_matching p)) mh next)
          else (None, mkPlan (faults p) (next_matching p) mh next)
      | None => (None, mkPlan (faults p) (next_matching p) mh next)
      end
  end.

(** ** The file *)

Record CrashableFile : Type := mkFile {
  volatile_bytes : bytes;
  durable_bytes : bytes;
  fault_plan : FaultPlan;
}.

Definition from_durable (b : bytes) : CrashableFile := mkFile b b empty_plan.
Definition new : CrashableFile := from_durable [].
Definition with_fault_plan (p : FaultPlan) (f : CrashableFile) : CrashableFile :=
  mkFile (volatile_bytes f) (durable_bytes f) p.

(** Process loss: unsynced volatile state is discarded. *)
Definition crash (f : CrashableFile) : CrashableFile :=
  mkFile (durable_bytes f) (durable_bytes f) (fault_plan f).

Definition crash_with_persisted_prefix (n : Z) (f : CrashableFile) : CrashableFile :=
  let persisted := (volatile_bytes f).[0; Z.min n (len (volatile_bytes f))) in
  mkFile persisted persisted (fault_plan f).

Definition corrupt_durable_byte (offset : Z) : St CrashableFile Error unit :=
  f ← get_st;
  match durable_bytes f !! Z.to_nat offset with
  | None => throw (InvalidInput "corruption offset is outside the durable file")
  | Some byte =>
      let flipped := Z.lxor byte 1 in
      modify_st (λ f, mkFile (<[Z.to_nat offset := flipped]> (volatile_bytes f))
                        (<[Z.to_nat offset := flipped]> (durable_bytes f)) (fault_plan f))
  end.

Definition fault (operation : FileOperation) : St CrashableFile Error (option FaultAction) :=
  λ f, let '(a, p) := next_fault operation (fault_plan f) in
       (Ok a, mkFile (volatile_bytes f) (durable_bytes f) p).

(** [io_error]: an I/O fault is returned, a short count is handed on. *)
Definition io_error (a : option FaultAction) : result (option FaultAction) :=
  match a with
  | Some (IoFault kind message) => Err (Io kind message)
  | other => Ok other
  end.

Definition set_volatile (b : bytes) (f : CrashableFile) : CrashableFile :=
  mkFile b (durable_bytes f) (fault_plan f).

Definition crash_read_at (offset n : Z) : St CrashableFile Error bytes :=
  action ← fault ReadAt;
  action ← lift_r (io_error action);
  f ← get_st;
  let start := offset in
  if (len (volatile_bytes f) <=? start) || (n =? 0) then mret []
  else
    let available := Z.min (len (volatile_bytes f) - start) n in
    let count := match action with Some (ShortRead m) => Z.min available (Z.of_N m) | _ => available end in
    lift_r (index_range (volatile_bytes f) start (start + count)).

Definition checked_range (offset n : Z) : result (Z * Z) :=
  e ← ok_or (checked_add offset n) (InvalidInput "file range overflows platform usize");
  Ok (offset, e).

Definition crash_write_at (offset : Z) (data : bytes) : St CrashableFile Error Z :=
  action ← fault WriteAt;
  action ← lift_r (io_error action);
  let count := match action with Some (ShortWrite m) => Z.min (len data) (Z.of_N m) | _ => len data end in
  range ← lift_r (checked_range offset count);
  f ← get_st;
  let grown := if len (volatile_bytes f) <? range.2 then resize (volatile_bytes f) range.2
               else volatile_bytes f in
  chunk ← lift_r (index_range data 0 count);
  modify_st (set_volatile (copy_at grown range.1 chunk));;
  mret count.

Definition crash_set_len (n : Z) : St CrashableFile Error unit :=
  action ← fault SetLen;
  lift_r (io_error action);;
  modify_st (λ f, set_volatile (resize (volatile_bytes f) n) f).

Definition crash_sync (operation : FileOperation) : St CrashableFile Error unit :=
  action ← fault operation;
  lift_r (io_error action);;
  modify_st (λ f, mkFile (volatile_bytes f) (volatile_bytes f) (fault_plan f)).

#[global] Instance CrashableFile_DurableFile : DurableFile CrashableFile := {
  read_at := crash_read_at;
  write_at := crash_write_at;
  file_len := λ f, Ok (len (volatile_bytes f));
  set_len := crash_set_len;
  sync_data := crash_sync SyncData;
  sync_all := crash_sync SyncAll;
}.

(** ** The crash injector *)

Record CrashInjector : Type := mkInjector {
  target : option (string * Z);
  hits : gmap string Z;
  fired : bool;
}.

Definition disabled : CrashInjector := mkInjector None ∅ false.
Definition crash_at (point : string) (nth_hit : Z) : CrashInjector :=
  mkInjector (Some (point, Z.max nth_hit 1)) ∅ false.
Definition hit_count (point : string) (c : CrashInjector) : Z := default 0 (hits c !! point).

(** [CrashInjector::hit]; the error is [CrashInjected], the point and the count. *)
Definition crash_hit (point : string) : St CrashInjector (string * Z) unit := λ c,
  let count := hit_count point c + 1 in
  let hs := <[point := count]> (hits c) in
  match target c with
  | Some (p, nth) =>
      if negb (fired c) && bool_decide (p = point) && (nth =? count)
      then (Err (point, count), mkInjector (target c) hs true)
      else (Ok tt, mkInjector (target c) hs (fired c))
  | None => (Ok tt, mkInjector (target c) hs (fired c))
  end.

#[global] Instance CrashInjector_FaultInjector : FaultInjector CrashInjector := λ point c,
  let '(r, c') := crash_hit point c in
  (map_err (λ _, RecoveryFailure "simulated crash at {} hit {}") r, c').

#[global] Instance CrashInjector_spec : FaultInjectorSpec CrashInjector.
Proof.
  intros point c. unfold injector_hit, CrashInjector_FaultInjector, crash_hit.
  destruct (target c) as [[p n]|]; [|done].
  by destruct (negb (fired c) && bool_decide (p = point) && (n =? hit_count point c + 1)).
Qed.

(** ** The contract *)

Definition no_faults (f : CrashableFile) : Prop :=
  faults (fault_plan f) = ∅ ∧ next_matching (fault_plan f) = ∅.

Lemma next_fault_none operation p :
  faults p = ∅ → next_matching p = ∅ →
  ∃ p', next_fault operation p = (None, p') ∧ faults p' = ∅ ∧ next_matching p' = ∅.
Proof. intros H1 H2. unfold next_fault. rewrite H1, H2, !lookup_empty. eauto. Qed.

(** Drawing the next fault changes only the schedule. *)
Lemma fault_spec operation f Q X :
  (∀ a f', volatile_bytes f' = volatile_bytes f → durable_bytes f' = durable_bytes f →
     (no_faults f → no_faults f' ∧ a = None) → Q a f') →
  wp (fault operation) Q X f.
Proof.
  intros HQ. unfold wp, fault.
  destruct (next_fault operation (fault_plan f)) as [a p] eqn:E. apply HQ; [done..|].
  intros [H1 H2]. destruct (next_fault_none operation (fault_plan f) H1 H2) as (p' & E' & ? & ?).
  rewrite E in E'. by simplify_eq.
Qed.

Lemma io_error_Ok a b : io_error a = Ok b → b = a.
Proof. destruct a as [[]|]; simpl; congruence. Qed.

(** Growing the bytes to the end of the range and copying is one write. *)
Lemma grown_write b o c s :
  0 ≤ o ≤ len b → len s = c →
  copy_at (if len b <? o + c then resize b (o + c) else b) o s = write_bytes b o s.
Proof.
  intros Ho <-. pose proof (len_nonneg s). unfold write_bytes.
  assert (Hbase : ∀ l, o + len s ≤ len l →
    copy_at l o s = take (Z.to_nat o) l ++ s ++ drop (Z.to_nat (o + len s)) l).
  { intros l Hl. apply list_eq. intros i. rewrite copy_at_lookup by lia. unfold len in *.
    case_decide.
    - rewrite lookup_app_r by (rewrite length_take; lia). rewrite length_take, lookup_app_l by lia.
      f_equal. lia.
    - destruct (decide (Z.of_nat i < o)).
      + rewrite lookup_app_l by (rewrite length_take; lia). by rewrite lookup_take_lt by lia.
      + rewrite lookup_app_r, lookup_app_r by (rewrite ?length_take; lia).
        rewrite length_take, lookup_drop. f_equal. lia. }
  destruct (Z.ltb_spec (len b) (o + len s)) as [Hlt|Hge]; [|by apply Hbase].
  rewrite Hbase by (unfold resize; rewrite len_app, len_zeros by lia; unfold len in *; rewrite length_take; lia).
  unfold resize. rewrite (take_ge b) by (unfold len in *; lia).
  rewrite take_app_le by (unfold len in *; lia). do 2 f_equal.
  rewrite !drop_ge; [done|unfold len in *; lia|].
  rewrite length_app. unfold zeros. rewrite length_replicate. unfold len in *. lia.
Qed.

Lemma crash_sync_spec operation f :
  wp (crash_sync operation)
    (λ _ f', volatile_bytes f' = volatile_bytes f ∧ durable_bytes f' = volatile_bytes f ∧
       (no_faults f → no_faults f'))
    (λ _ f', volatile_bytes f' = volatile_bytes f ∧ durable_bytes f' = durable_bytes f ∧
       ¬ no_faults f) f.
Proof.
  unfold crash_sync. apply wp_bind, fault_spec. intros a f' Hv Hd Ha.
  apply wp_bind, wp_lift. destruct (io_error a) as [b|e|k] eqn:E.
  2: { cbv beta; split_and!; [done..|]. intros Hf. by destruct (Ha Hf) as [_ ->]. }
  2: { by destruct a as [[]|]. }
  apply wp_modify. simpl. split_and!; [done..|]. intros Hf. exact (proj1 (Ha Hf)).
Qed.

#[global] Program Instance CrashableFile_spec : DurableFileSpec CrashableFile := {
  volatile := volatile_bytes; durable := durable_bytes; reliable := no_faults }.
Next Obligation.
  intros f o n Ho Hn. cbn. unfold crash_read_at. apply wp_bind, fault_spec. intros a f' Hv Hd Ha.
  apply wp_bind, wp_lift. destruct (io_error a) as [b|e|k] eqn:E.
  2: { cbv beta; split_and!; [done..|]. intros Hf. by destruct (Ha Hf) as [_ ->]. }
  2: { by destruct a as [[]|]. }
  apply io_error_Ok in E as ->. wp_steps. rewrite Hv.
  destruct (Z.leb_spec (len (volatile_bytes f)) o) as [Hle|Hlt]; cbn [orb].
  { apply wp_ret. rewrite len_nil, Z.add_0_r, slice_nil. split_and!; [done|done|intros Hf; exact (proj1 (Ha Hf))|lia|done|lia]. }
  destruct (Z.eqb_spec n 0) as [->|Hnz].
  { apply wp_ret. rewrite len_nil, Z.add_0_r, slice_nil. split_and!; [done|done|intros Hf; exact (proj1 (Ha Hf))|lia|done|lia]. }
  set (count := match a with Some (ShortRead m) => _ | _ => _ end).
  assert (Hc : 0 ≤ count ≤ Z.min (len (volatile_bytes f) - o) n ∧ (a = None → 0 < count)).
  { subst count. destruct a as [[]|]; split; try done; lia. }
  apply wp_lift. rewrite index_range_ok by lia. rewrite len_slice by lia.
  split_and!; [done|done|intros Hf; exact (proj1 (Ha Hf))|lia|f_equal; lia|].
  intros Hf _ _. destruct (Ha Hf) as [_ Hnone]. destruct Hc as [_ Hc]. specialize (Hc Hnone). lia.
Qed.
Next Obligation.
  intros f o s Ho. cbn. unfold crash_write_at. apply wp_bind, fault_spec. intros a f' Hv Hd Ha.
  apply wp_bind, wp_lift. destruct (io_error a) as [b|e|k] eqn:E.
  2: { cbv beta; split_and!; [done..|]. intros Hf. by destruct (Ha Hf) as [_ ->]. }
  2: { by destruct a as [[]|]. }
  apply io_error_Ok in E as ->.
  set (count := match a with Some (ShortWrite m) => _ | _ => _ end).
  pose proof (len_nonneg s).
  assert (Hc : 0 ≤ count ≤ len s ∧ (a = None → count = len s)).
  { subst count. destruct a as [[]|]; split; try done; lia. }
  apply wp_bind, wp_lift. unfold checked_range, checked_add.
  destruct (Z.leb_spec (o + count) U64_MAX) as [Hu|Hu]; rsimpl; [|split_and!; [done..|lia]].
  wp_steps. apply wp_lift. rewrite index_range_ok by lia. wp_steps. simpl.
  split_and!; [lia|lia| |done|intros Hf; exact (proj1 (Ha Hf))|].
  - rewrite Hv. apply grown_write; [lia|]. by rewrite len_slice by lia; lia.
  - intros Hf Hs. destruct (Ha Hf) as [_ ->]. destruct Hc as [_ ->]; [|done].
    destruct s; [done|]. rewrite len_cons. blen.
Qed.
Next Obligation. done. Qed.
Next Obligation.
  intros f n Hn. cbn. unfold crash_set_len. apply wp_bind, fault_spec. intros a f' Hv Hd Ha.
  apply wp_bind, wp_lift. destruct (io_error a) as [b|e|k] eqn:E.
  2: { cbv beta; split_and!; [done..|]. intros Hf. by destruct (Ha Hf) as [_ ->]. }
  2: { by destruct a as [[]|]. }
  apply wp_modify. simpl. rewrite Hv. split_and!; [done..|]. intros Hf. exact (proj1 (Ha Hf)).
Qed.
Next Obligation. intros f. apply crash_sync_spec. Qed.
Next Obligation. intros f. apply crash_sync_spec. Qed.
End CrashFile.
