(* ===== verification/Wal.v ===== *)
(** * Write-ahead log

    Models src/crates/dodb-storage/src/wal.rs: the frame codec, the append path of
    one group of logical commits, the two passes of the scan, opening, resetting and
    resuming.  A method of [WalLog] runs on the log and the optional fault injector
    it is passed.  Wall-clock metrics ([append_nanos], [sync_nanos]) are left out:
    nothing reads them back.  Slices and array conversions that the source takes
    after a length check are written as slices; those it takes without one are the
    panicking slices. *)

From S2P Require Import Prelude Wp Key Core Page Superblock DurableFile.

Module Wal.
Import Core DurableFile.

Definition WAL_FORMAT_VERSION : Z := 2.
(** [*b"DWAL"]. *)
Definition WAL_MAGIC : bytes := [68; 87; 65; 76].
Definition WAL_HEADER_SIZE : Z := 48.
Definition WAL_TRAILER_SIZE : Z := 4.
Definition WAL_MIN_FRAME_SIZE : Z := WAL_HEADER_SIZE + WAL_TRAILER_SIZE.
Definition WAL_MAX_PAYLOAD_SIZE : Z := 64 * 1024 * 1024.
Definition HEADER_CHECKSUM_OFFSET : Z := 40.
Definition PAYLOAD_CHECKSUM_OFFSET : Z := 44.
Definition LEGACY_WAL_FORMAT_VERSION : Z := 1.
Definition LEGACY_INIT_PAYLOAD_SIZE : Z := 44.
Definition INIT_PAYLOAD_SIZE : Z := 52.
Definition INIT_FRAME_SIZE : Z := WAL_HEADER_SIZE + INIT_PAYLOAD_SIZE + WAL_TRAILER_SIZE.
Definition PAGE_IMAGE_PAYLOAD_SIZE : Z := 8 + Page.PAGE_SIZE.
Definition COMMIT_PAYLOAD_SIZE : Z := 16.
Definition SUPERBLOCK_A_PAGE : PageId := 0.
Definition SUPERBLOCK_B_PAGE : PageId := 1.
#[export] Hint Unfold WAL_FORMAT_VERSION WAL_MAGIC WAL_HEADER_SIZE WAL_TRAILER_SIZE
  WAL_MIN_FRAME_SIZE WAL_MAX_PAYLOAD_SIZE HEADER_CHECKSUM_OFFSET PAYLOAD_CHECKSUM_OFFSET
  LEGACY_WAL_FORMAT_VERSION LEGACY_INIT_PAYLOAD_SIZE INIT_PAYLOAD_SIZE INIT_FRAME_SIZE
  PAGE_IMAGE_PAYLOAD_SIZE COMMIT_PAYLOAD_SIZE SUPERBLOCK_A_PAGE SUPERBLOCK_B_PAGE : consts.

Inductive WalRecordType : Type := Init | PageImage | Commit.
#[global] Instance WalRecordType_eq_dec : EqDecision WalRecordType.
Proof. solve_decision. Defined.

(** [record_type as u8]. *)
Definition record_type_code (t : WalRecordType) : Z :=
  match t with Init => 1 | PageImage => 2 | Commit => 3 end.

Definition WalRecordType_decode (v : Z) : result WalRecordType :=
  if v =? 1 then Ok Init
  else if v =? 2 then Ok PageImage
  else if v =? 3 then Ok Commit
  else Err (UnsupportedFormat "unknown WAL record type {other}").

Record WalIdentity : Type := mkIdentity {
  database_uuid : bytes;
  tenant_id : TenantId;
  shard_id : ShardId;
  shard_epoch : ShardEpoch;
}.
#[global] Instance WalIdentity_eq_dec : EqDecision WalIdentity.
Proof. solve_decision. Defined.

Record WalPageImage : Type := mkImage { image_page_id : PageId; image : bytes }.

Record WalCommit : Type := mkCommit {
  commit_batch_id : Z;
  commit_lsn : Lsn;
  commit_pages : list WalPageImage;
}.

Record CommittedWalBatch : Type := mkBatch {
  batch_id : Z;
  batch_commit_lsn : Lsn;
  batch_pages : list WalPageImage;
}.

Record WalScanReport : Type := mkReport {
  records_scanned : Z;
  committed_batches : Z;
  replayable_pages : Z;
  torn_tail_bytes : Z;
}.
Definition default_report : WalScanReport := mkReport 0 0 0 0.

Record WalAppendReport : Type := mkAppendReport {
  report_first_record_lsn : Lsn;
  report_commit_lsn : Lsn;
  report_page_count : Z;
  report_bytes_written : Z;
}.

Record WalMetrics : Type := mkMetrics {
  wal_bytes : Z;
  wal_syncs : Z;
  metric_committed_batches : Z;
  metric_page_images : Z;
}.

Record Frame : Type := mkFrame {
  frame_version : Z;
  record_type : WalRecordType;
  record_lsn : Lsn;
  frame_batch_id : Z;
  record_index : Z;
  payload : bytes;
}.

Record PendingBatch : Type := mkPending {
  pending_batch_id : Z;
  pending_first_lsn : Lsn;
  pending_pages : list WalPageImage;
  digest_input : bytes;
}.

Record WalLog (F : Type) : Type := mkWal {
  file : F;
  identity : WalIdentity;
  format_version : Z;
  next_lsn : Lsn;
  next_batch_id : Z;
  history_start_lsn : Lsn;
  committed : list CommittedWalBatch;
  scan_report : WalScanReport;
  sync_count : Z;
  page_images : Z;
}.
Arguments mkWal {F}.
Arguments file {F}.
Arguments identity {F}.
Arguments format_version {F}.
Arguments next_lsn {F}.
Arguments next_batch_id {F}.
Arguments history_start_lsn {F}.
Arguments committed {F}.
Arguments scan_report {F}.
Arguments sync_count {F}.
Arguments page_images {F}.

(** ** Record codec *)
Section codec.
Context `{C : Crc32c}.

Definition header_checksum (header : bytes) : Z :=
  crc32c (copy_at header HEADER_CHECKSUM_OFFSET (zeros 4)).

Definition encode_frame (version : Z) (t : WalRecordType) (lsn : Lsn) (bid index : Z)
    (data : bytes) : result bytes :=
  fail_if (WAL_MAX_PAYLOAD_SIZE <? len data) (InvalidInput "WAL payload exceeds maximum size");;
  frame_length ← ok_or (checked_add WAL_HEADER_SIZE (len data) ≫= λ n, checked_add n WAL_TRAILER_SIZE)
    (InvalidInput "WAL frame length overflows");
  fail_if (U32_MAX <? frame_length) (InvalidInput "WAL frame length does not fit u32");;
  fail_if (U32_MAX <? len data) (InvalidInput "WAL payload length does not fit u32");;
  let header := zeros WAL_HEADER_SIZE in
  let header := copy_at header 0 WAL_MAGIC in
  let header := copy_at header 4 (to_le 2 version) in
  let header := copy_at header 6 [record_type_code t] in
  let header := copy_at header 8 (to_le 4 frame_length) in
  let header := copy_at header 12 (to_le 4 (len data)) in
  let header := copy_at header 16 (to_le 8 lsn) in
  let header := copy_at header 24 (to_le 8 bid) in
  let header := copy_at header 32 (to_le 4 index) in
  let header := copy_at header PAYLOAD_CHECKSUM_OFFSET (to_le 4 (crc32c data)) in
  let header := copy_at header HEADER_CHECKSUM_OFFSET (to_le 4 (header_checksum header)) in
  Ok (header ++ data ++ to_le 4 frame_length).

(** What [decode_header] returns, before the payload is read. *)
Record Header : Type := mkHeader {
  header_version : Z;
  header_type : WalRecordType;
  header_frame_length : Z;
  header_payload_length : Z;
  header_lsn : Lsn;
  header_batch_id : Z;
  header_index : Z;
}.

Definition decode_header (b : bytes) : result Header :=
  fail_if (negb (len b =? WAL_HEADER_SIZE)) (Corruption "WAL header has an invalid length");;
  magic ← index_range b 0 4;
  fail_if (negb (bytes_eqb magic WAL_MAGIC)) (Corruption "WAL magic mismatch");;
  version ← index_range b 4 6;
  let version := from_le version in
  fail_if (negb (version =? WAL_FORMAT_VERSION) && negb (version =? LEGACY_WAL_FORMAT_VERSION))
    (UnsupportedFormat "WAL version {version}, supported {WAL_FORMAT_VERSION}");;
  reserved ← index b 7;
  reserved' ← index_range b 36 40;
  fail_if (negb (reserved =? 0) || any_nonzero reserved')
    (Corruption "WAL reserved header bytes are non-zero");;
  stored ← index_range b HEADER_CHECKSUM_OFFSET 44;
  fail_if (negb (from_le stored =? header_checksum b)) (Corruption "WAL header checksum mismatch");;
  code ← index b 6;
  t ← WalRecordType_decode code;
  frame_length ← index_range b 8 12;
  payload_length ← index_range b 12 16;
  lsn ← index_range b 16 24;
  bid ← index_range b 24 32;
  idx ← index_range b 32 36;
  Ok (mkHeader version t (from_le frame_length) (from_le payload_length) (from_le lsn)
        (from_le bid) (from_le idx)).

Definition verify_payload_checksum (header data : bytes) : result unit :=
  stored ← index_range header PAYLOAD_CHECKSUM_OFFSET 48;
  fail_if (negb (from_le stored =? crc32c data))
    (Corruption "WAL payload checksum mismatch at offset {offset}: expected {expected:#010x}, calculated {actual:#010x}").

Definition is_superblock_page (page_id : PageId) : bool :=
  (page_id =? SUPERBLOCK_A_PAGE) || (page_id =? SUPERBLOCK_B_PAGE).

Definition validate_page_image (p : WalPageImage) : result unit :=
  if is_superblock_page (image_page_id p) then
    Superblock.decode_superblock (image p);; Ok tt
  else
    Page.decode_page_at (image p) (Some (image_page_id p));; Ok tt.

Definition validate_page_image_lsn (p : WalPageImage) (lsn : Lsn) : result unit :=
  if is_superblock_page (image_page_id p) then Ok tt
  else
    stored ← index_range (image p) 16 24;
    fail_if (negb (from_le stored =? lsn))
      (Corruption "WAL page {} has page LSN {}, commit LSN {}").

Definition encode_page_image (p : WalPageImage) : result bytes :=
  validate_page_image p;;
  Ok (to_le 8 (image_page_id p) ++ image p).

Definition decode_page_image (data : bytes) : result WalPageImage :=
  fail_if (negb (len data =? PAGE_IMAGE_PAYLOAD_SIZE))
    (Corruption "WAL page-image payload has {} bytes, expected {PAGE_IMAGE_PAYLOAD_SIZE}");;
  id ← index_range data 0 8;
  body ← index_range data 8 (len data);
  Ok (mkImage (from_le id) body).

Definition encode_commit_payload (first_record_lsn : Lsn) (page_count digest : Z) : bytes :=
  let data := zeros COMMIT_PAYLOAD_SIZE in
  let data := copy_at data 0 (to_le 8 first_record_lsn) in
  let data := copy_at data 8 (to_le 4 page_count) in
  copy_at data 12 (to_le 4 digest).

Definition decode_commit_payload (data : bytes) : result (Lsn * Z * Z) :=
  fail_if (negb (len data =? COMMIT_PAYLOAD_SIZE))
    (Corruption "WAL commit payload has {} bytes, expected {COMMIT_PAYLOAD_SIZE}");;
  page_count ← index_range data 8 12;
  first_lsn ← index_range data 0 8;
  digest ← index_range data 12 16;
  Ok (from_le first_lsn, from_le page_count, from_le digest).

Definition identity_payload (i : WalIdentity) (start_after_lsn : Lsn) : bytes :=
  let data := zeros INIT_PAYLOAD_SIZE in
  let data := copy_at data 0 (database_uuid i) in
  let data := copy_at data 16 (to_le 8 (tenant_id i)) in
  let data := copy_at data 24 (to_le 8 (shard_id i)) in
  let data := copy_at data 32 (to_le 8 (shard_epoch i)) in
  let data := copy_at data 40 (to_le 4 Page.PAGE_SIZE) in
  copy_at data 44 (to_le 8 start_after_lsn).

Definition verify_identity (version : Z) (data : bytes) (expected : WalIdentity) : result Lsn :=
  let expected_length := if version =? LEGACY_WAL_FORMAT_VERSION then LEGACY_INIT_PAYLOAD_SIZE
                         else INIT_PAYLOAD_SIZE in
  fail_if (negb (len data =? expected_length))
    (Corruption "WAL initialization payload has invalid length");;
  uuid ← index_range data 0 16;
  tenant ← index_range data 16 24;
  shard ← index_range data 24 32;
  epoch ← index_range data 32 40;
  page_size ← index_range data 40 44;
  fail_if (negb (from_le page_size =? Page.PAGE_SIZE))
    (UnsupportedFormat "WAL page size is unsupported");;
  fail_if (negb (bool_decide (mkIdentity uuid (from_le tenant) (from_le shard) (from_le epoch) = expected)))
    (Corruption "WAL identity does not match the requested database shard");;
  if version =? LEGACY_WAL_FORMAT_VERSION then Ok 0
  else start ← index_range data 44 52; Ok (from_le start).

(** ** The second pass of the scan: from records to commits *)

Record Replay : Type := mkReplay {
  replay_committed : list CommittedWalBatch;
  replay_pending : option PendingBatch;
  highest_batch_id_seen : Z;
  max_batch_id : Z;
}.
Definition replay_start : Replay := mkReplay [] None 0 0.

(** [value as u32]. *)
Definition as_u32 (z : Z) : Z := z mod 2 ^ 32.

Fixpoint validate_all_lsns (pages : list WalPageImage) (lsn : Lsn) : result unit :=
  match pages with
  | [] => Ok tt
  | p :: pages' => validate_page_image_lsn p lsn;; validate_all_lsns pages' lsn
  end.

Definition replay_page (f : Frame) (r : Replay) : result Replay :=
  page ← decode_page_image (payload f);
  validate_page_image page;;
  '(current, highest) ←
    match replay_pending r with
    | Some p =>
        if pending_batch_id p =? frame_batch_id f then Ok (p, highest_batch_id_seen r)
        else
          fail_if (frame_batch_id f <=? highest_batch_id_seen r)
            (Corruption "WAL batch IDs are not strictly increasing");;
          Ok (mkPending (frame_batch_id f) (record_lsn f) [] [], frame_batch_id f)
    | None =>
        fail_if (frame_batch_id f <=? highest_batch_id_seen r)
          (Corruption "WAL batch IDs are not strictly increasing");;
        Ok (mkPending (frame_batch_id f) (record_lsn f) [] [], frame_batch_id f)
    end;
  fail_if (negb (record_index f =? as_u32 (len (pending_pages current))))
    (Corruption "WAL page-image record index is not contiguous");;
  Ok (mkReplay (replay_committed r)
        (Some (mkPending (pending_batch_id current) (pending_first_lsn current)
                 (pending_pages current ++ [page]) (digest_input current ++ payload f)))
        highest (max_batch_id r)).

Definition replay_commit (f : Frame) (r : Replay) : result Replay :=
  current ← ok_or (replay_pending r) (Corruption "WAL commit has no matching page-image records");
  fail_if (negb (pending_batch_id current =? frame_batch_id f)
           || negb (record_index f =? as_u32 (len (pending_pages current))))
    (Corruption "WAL commit does not match its page-image sequence");;
  '(first_lsn, page_count, digest) ← decode_commit_payload (payload f);
  fail_if (negb (first_lsn =? pending_first_lsn current)
           || negb (page_count =? len (pending_pages current))
           || negb (crc32c (digest_input current) =? digest))
    (Corruption "WAL commit metadata does not match page images");;
  validate_all_lsns (pending_pages current) (record_lsn f);;
  Ok (mkReplay (replay_committed r ++ [mkBatch (frame_batch_id f) (record_lsn f) (pending_pages current)])
        None (highest_batch_id_seen r) (max_batch_id r)).

Definition replay_frame (history_start : Lsn) (f : Frame) (r : Replay) : result Replay :=
  fail_if (record_lsn f <=? history_start)
    (Corruption "WAL record LSN is not after the initialization history boundary");;
  let r := mkReplay (replay_committed r) (replay_pending r) (highest_batch_id_seen r)
             (Z.max (max_batch_id r) (frame_batch_id f)) in
  match record_type f with
  | Init => Err (Corruption "WAL contains a second initialization record")
  | PageImage => replay_page f r
  | Commit => replay_commit f r
  end.

Fixpoint replay_frames (history_start : Lsn) (fs : list Frame) (r : Replay) : result Replay :=
  match fs with
  | [] => Ok r
  | f :: fs' => r' ← replay_frame history_start f r; replay_frames history_start fs' r'
  end.

End codec.

(** ** File operations *)
Section wal.
Context `{C : Crc32c} `{DurableFile F} `{FaultInjector J}.

Definition read_exact_at (offset n : Z) : St F Error bytes :=
  read_loop (checked_offset (Corruption "WAL read offset overflows"))
    (Io UnexpectedEof "unexpected end of WAL") (S (Z.to_nat n)) offset n [].

Definition write_all_at (offset : Z) (data : bytes) : St F Error unit :=
  write_loop (checked_offset (InvalidInput "WAL write offset overflows"))
    (Io WriteZero "WAL returned a zero-byte write") (S (length data)) offset 0 data.

(** The first pass: complete, checksummed frames from the start of the file, up to
    the first incomplete one. *)
Record Scanned : Type := mkScanned {
  scanned_frames : list Frame;
  previous_lsn : option Lsn;
  valid_length : Z;
}.

Fixpoint scan_frames (fuel : nat) (length offset : Z) (previous : option Lsn)
    (frames : list Frame) : St F Error Scanned :=
  match fuel with
  | O => lift_r (Stuck OutOfFuel)
  | S fuel' =>
      if offset <? length then
        let remaining := length - offset in
        if remaining <? WAL_HEADER_SIZE then mret (mkScanned frames previous offset)
        else
          header_bytes ← read_exact_at offset WAL_HEADER_SIZE;
          h ← lift_r (decode_header header_bytes);
          match frames with
          | first :: _ =>
              fail_when (negb (frame_version first =? header_version h))
                (Corruption "WAL frames use inconsistent format versions")
          | [] => mret tt
          end;;
          fail_when ((header_frame_length h <? WAL_MIN_FRAME_SIZE)
                     || negb (header_frame_length h =?
                              WAL_HEADER_SIZE + header_payload_length h + WAL_TRAILER_SIZE)
                     || (WAL_MAX_PAYLOAD_SIZE <? header_payload_length h))
            (Corruption "invalid WAL frame length {frame_length} at offset {offset}");;
          if remaining <? header_frame_length h then mret (mkScanned frames previous offset)
          else
            payload_offset ← lift_r (ok_or (checked_add offset WAL_HEADER_SIZE)
              (Corruption "WAL payload offset overflows"));
            data ← read_exact_at payload_offset (header_payload_length h);
            trailer_offset ← lift_r (ok_or (checked_add offset (WAL_HEADER_SIZE + header_payload_length h))
              (Corruption "WAL trailer offset overflows"));
            trailer ← read_exact_at trailer_offset WAL_TRAILER_SIZE;
            fail_when (negb (from_le trailer =? as_u32 (header_frame_length h)))
              (Corruption "WAL trailing length mismatch at offset {offset}");;
            match previous with
            | Some p =>
                fail_when (header_lsn h <=? p)
                  (Corruption "WAL LSN {} is not strictly greater than the previous LSN")
            | None => mret tt
            end;;
            lift_r (verify_payload_checksum header_bytes data);;
            scan_frames fuel' length (offset + header_frame_length h) (Some (header_lsn h))
              (frames ++ [mkFrame (header_version h) (header_type h) (header_lsn h)
                            (header_batch_id h) (header_index h) data])
      else mret (mkScanned frames previous offset)
  end.

Record WalScanResult : Type := mkScanResult {
  result_next_lsn : Lsn;
  result_next_batch_id : Z;
  result_format_version : Z;
  result_history_start : Lsn;
  result_committed : list CommittedWalBatch;
  result_report : WalScanReport;
  result_valid_length : Z;
}.

Definition total_pages (bs : list CommittedWalBatch) : Z :=
  foldr Z.add 0 ((λ b, len (batch_pages b)) <$> bs).

(** Everything after the first pass. *)
Definition interpret (expected : WalIdentity) (s : Scanned) : result WalScanResult :=
  match scanned_frames s with
  | [] => Err (Corruption "WAL has no complete initialization record")
  | first :: rest =>
      fail_if (negb (bool_decide (record_type first = Init))
               || negb (record_lsn first =? 0)
               || negb (frame_batch_id first =? 0)
               || negb (record_index first =? 0))
        (Corruption "WAL does not begin with the required initialization record");;
      history_start ← verify_identity (frame_version first) (payload first) expected;
      r ← replay_frames history_start rest replay_start;
      next ← ok_or (checked_add (default 0 (previous_lsn s)) 1)
        (InternalInvariantViolation "WAL LSN exhausted");
      next_batch ← ok_or (checked_add (max_batch_id r) 1)
        (InternalInvariantViolation "WAL batch ID exhausted");
      Ok (mkScanResult next (Z.max next_batch 1) (frame_version first) history_start
            (replay_committed r)
            (mkReport (len (scanned_frames s)) (len (replay_committed r))
               (total_pages (replay_committed r)) 0)
            (valid_length s))
  end.

Definition scan_wal (expected : WalIdentity) : St F Error WalScanResult :=
  f ← get_st;
  length ← lift_r (file_len f);
  s ← scan_frames (S (Z.to_nat length)) length 0 None [];
  lift_r (interpret expected s).

(** *** Appending *)

Abbreviation M A := (St (WalLog F * option J) Error A).

Definition set_file (f : F) (w : WalLog F) : WalLog F :=
  mkWal f (identity w) (format_version w) (next_lsn w) (next_batch_id w) (history_start_lsn w)
    (committed w) (scan_report w) (sync_count w) (page_images w).
Definition set_next_lsn (x : Lsn) (w : WalLog F) : WalLog F :=
  mkWal (file w) (identity w) (format_version w) x (next_batch_id w) (history_start_lsn w)
    (committed w) (scan_report w) (sync_count w) (page_images w).
Definition set_sync_count (x : Z) (w : WalLog F) : WalLog F :=
  mkWal (file w) (identity w) (format_version w) (next_lsn w) (next_batch_id w)
    (history_start_lsn w) (committed w) (scan_report w) x (page_images w).
Definition set_scan_report (x : WalScanReport) (w : WalLog F) : WalLog F :=
  mkWal (file w) (identity w) (format_version w) (next_lsn w) (next_batch_id w)
    (history_start_lsn w) (committed w) x (sync_count w) (page_images w).

Definition on_file {A} (m : St F Error A) : M A :=
  zoom (λ s, file s.1) (λ f s, (set_file f s.1, s.2)) m.
Definition hit_point (point : string) : M unit := zoom snd (λ j s, (s.1, j)) (hit point).
Definition wal : M (WalLog F) := s ← get_st; mret s.1.
Definition modify (f : WalLog F → WalLog F) : M unit := modify_st (λ s, (f s.1, s.2)).

Definition append_frame (t : WalRecordType) (lsn : Lsn) (bid index : Z) (data : bytes) : M Z :=
  w ← wal;
  frame ← lift_r (encode_frame (format_version w) t lsn bid index data);
  let frame_length := len frame in
  let payload_end := WAL_HEADER_SIZE + len data in
  offset ← lift_r (file_len (file w));
  hit_point "during_wal_header_write";;
  header ← lift_r (index_range frame 0 WAL_HEADER_SIZE);
  on_file (write_all_at offset header);;
  hit_point "during_wal_payload_write";;
  payload_offset ← lift_r (ok_or (checked_add offset WAL_HEADER_SIZE) (InvalidInput "WAL offset overflows"));
  body ← lift_r (index_range frame WAL_HEADER_SIZE payload_end);
  on_file (write_all_at payload_offset body);;
  hit_point "during_wal_trailer_write";;
  trailer_offset ← lift_r (ok_or (checked_add offset payload_end) (InvalidInput "WAL offset overflows"));
  trailer ← lift_r (index_range frame payload_end (len frame));
  on_file (write_all_at trailer_offset trailer);;
  mret frame_length.

(** The page-image loop of [append_group_commit]: the digest input and the bytes
    written are accumulated. *)
Fixpoint append_pages (c : WalCommit) (first_record_lsn : Lsn) (index : Z)
    (pages : list WalPageImage) (digest_input : bytes) (bytes_written : Z) : M (bytes * Z) :=
  match pages with
  | [] => mret (digest_input, bytes_written)
  | page :: pages' =>
      lift_r (validate_page_image_lsn page (commit_lsn c));;
      data ← lift_r (encode_page_image page);
      lsn ← lift_r (ok_or (checked_add first_record_lsn index)
        (InternalInvariantViolation "WAL LSN exhausted"));
      fail_when (U32_MAX <? index) (InvalidInput "WAL record index overflows u32");;
      n ← append_frame PageImage lsn (commit_batch_id c) index data;
      written ← lift_r (ok_or (checked_add bytes_written n)
        (InternalInvariantViolation "WAL byte count overflow"));
      append_pages c first_record_lsn (index + 1) pages' (digest_input ++ data) written
  end.

Definition append_group_commit (c : WalCommit) (first_record_lsn : Lsn) (expected_batch_id : Z) :
    M WalAppendReport :=
  let pages := commit_pages c in
  fail_when (bool_decide (pages = []))
    (InvalidInput "a WAL commit must contain at least one page image");;
  fail_when (negb (commit_batch_id c =? expected_batch_id))
    (InternalInvariantViolation "WAL batch id {}, expected {}");;
  expected_commit ← lift_r (ok_or (checked_add first_record_lsn (len pages))
    (InternalInvariantViolation "WAL LSN exhausted"));
  fail_when (negb (commit_lsn c =? expected_commit))
    (InternalInvariantViolation "WAL commit LSN {}, expected {}");;
  lift_r (ok_or (checked_mul (len pages) PAGE_IMAGE_PAYLOAD_SIZE)
    (InvalidInput "WAL digest input is too large"));;
  '(digest_input, written) ← append_pages c first_record_lsn 0 pages [] 0;
  hit_point "after_page_images_written";;
  fail_when (U32_MAX <? len pages) (InvalidInput "WAL page count does not fit u32");;
  let data := encode_commit_payload first_record_lsn (len pages) (crc32c digest_input) in
  hit_point "before_commit_record";;
  n ← append_frame Commit (commit_lsn c) (commit_batch_id c) (len pages) data;
  written ← lift_r (ok_or (checked_add written n)
    (InternalInvariantViolation "WAL byte count overflow"));
  hit_point "after_commit_record_write";;
  mret (mkAppendReport first_record_lsn (commit_lsn c) (len pages) written).

Definition committed_of (c : WalCommit) : CommittedWalBatch :=
  mkBatch (commit_batch_id c) (commit_lsn c) (commit_pages c).

(** The commit loop of [append_group]: the next LSN and batch identifier, and the
    reports, are local to the call. *)
Fixpoint append_commits (cs : list WalCommit) (next : Lsn) (next_batch : Z) :
    M (Lsn * Z * list WalAppendReport) :=
  match cs with
  | [] => mret (next, next_batch, [])
  | c :: cs' =>
      report ← append_group_commit c next next_batch;
      next' ← lift_r (ok_or (checked_add (report_commit_lsn report) 1)
        (InternalInvariantViolation "WAL LSN exhausted"));
      next_batch' ← lift_r (ok_or (checked_add next_batch 1)
        (InternalInvariantViolation "WAL batch id exhausted"));
      '(n, nb, reports) ← append_commits cs' next' next_batch';
      mret (n, nb, report :: reports)
  end.

(** [commits.iter().try_fold(0, ...)]. *)
Fixpoint record_count (cs : list WalCommit) (count : Z) : result Z :=
  match cs with
  | [] => Ok count
  | c :: cs' =>
      n ← ok_or (checked_add count (len (commit_pages c) + 1))
        (InternalInvariantViolation "WAL record count overflow");
      record_count cs' n
  end.

Definition page_total (cs : list WalCommit) : Z :=
  foldr Z.add 0 ((λ c, len (commit_pages c)) <$> cs).

Definition publish_commits (cs : list WalCommit) (next : Lsn) (next_batch : Z) (w : WalLog F) : WalLog F :=
  mkWal (file w) (identity w) (format_version w) next next_batch (history_start_lsn w)
    (committed w ++ (committed_of <$> cs)) (scan_report w) (sync_count w) (page_images w).

Definition bump_sync_count : M unit :=
  w ← wal;
  n ← lift_r (ok_or (checked_add (sync_count w) 1) (InternalInvariantViolation "WAL sync count overflow"));
  modify (set_sync_count n).

(** The part of [append_group] after the sync: counters and the in-memory index. *)
Definition publish_group (cs : list WalCommit) (next : Lsn) (next_batch : Z) : M unit :=
  bump_sync_count;;
  hit_point "after_wal_sync";;
  modify (publish_commits cs next next_batch);;
  records ← lift_r (record_count cs 0);
  w ← wal;
  total ← lift_r (ok_or (checked_add (records_scanned (scan_report w)) records)
    (InternalInvariantViolation "WAL record count overflow"));
  modify (set_scan_report (mkReport total
    (committed_batches (scan_report w) + len cs)
    (replayable_pages (scan_report w) + page_total cs)
    (torn_tail_bytes (scan_report w))));;
  images ← lift_r (ok_or (checked_add (page_images w) (page_total cs))
    (InternalInvariantViolation "WAL page-image count overflow"));
  modify (λ w, mkWal (file w) (identity w) (format_version w) (next_lsn w) (next_batch_id w)
    (history_start_lsn w) (committed w) (scan_report w) (sync_count w) images).

Definition append_group (cs : list WalCommit) : M (list WalAppendReport) :=
  fail_when (bool_decide (cs = [])) (InvalidInput "a WAL group must contain a commit");;
  hit_point "before_wal_append";;
  w ← wal;
  '(next, next_batch, reports) ← append_commits cs (next_lsn w) (next_batch_id w);
  hit_point "after_group_records_written";;
  hit_point "before_wal_sync";;
  hit_point "during_wal_sync";;
  on_file (map_err_st (λ _, DurabilityFailure "WAL group sync failed at commit LSN {}: {error}") (sync_data));;
  publish_group cs next next_batch;;
  mret reports.

Definition append_commit (bid : Z) (lsn : Lsn) (pages : list WalPageImage) : M WalAppendReport :=
  reports ← append_group [mkCommit bid lsn pages];
  match reports with
  | r :: _ => mret r
  | [] => lift_r (Stuck Panicked)
  end.

(** *** Opening, resetting and resuming *)

Definition sync_or (e : Error) : M unit :=
  on_file (map_err_st (λ _, e) sync_data).

Definition initialize_body (i : WalIdentity) (start_after_lsn : Lsn) : M unit :=
  append_frame Init 0 0 0 (identity_payload i start_after_lsn);;
  sync_or (DurabilityFailure "initial WAL sync failed: {error}");;
  modify (λ w, set_scan_report (mkReport 1 0 0 0) (set_sync_count 1 w)).

(** The initialization record is appended with the injector [&mut None]. *)
Definition initialize_empty (f : F) (i : WalIdentity) (start_after_lsn : Lsn) :
    Result Error (WalLog F) * F :=
  match checked_add start_after_lsn 1 with
  | None => (Err (InternalInvariantViolation "WAL LSN exhausted"), f)
  | Some next =>
      let w := mkWal f i WAL_FORMAT_VERSION next 1 start_after_lsn [] default_report 0 0 in
      let '(r, (w', _)) := initialize_body i start_after_lsn (w, None) in
      (r ≫= λ _, Ok w', file w')
  end.

Definition is_torn_initialization_prefix (i : WalIdentity) (start_after_lsn : Lsn) (n : Z) :
    St F Error bool :=
  expected ← lift_r (encode_frame WAL_FORMAT_VERSION Init 0 0 0 (identity_payload i start_after_lsn));
  if len expected <=? n then mret false
  else
    prefix ← read_exact_at 0 n;
    mret (bytes_eqb prefix (expected.[0; n))).

Abbreviation MO A := (St (F * option J) Error A).
Definition opening {A} (m : St F Error A) : MO A := zoom fst (λ f s, (f, s.2)) m.
Definition opening_hit (point : string) : MO unit := zoom snd (λ j s, (s.1, j)) (hit point).
Definition opening_empty (i : WalIdentity) (start_after_lsn : Lsn) : MO (WalLog F) :=
  opening (λ f, initialize_empty f i start_after_lsn).

(** [open_with_fault_injector_and_start_lsn]; the state keeps the file on the error
    path, where the source drops it and a later open finds what is on disk. *)
Definition open (i : WalIdentity) (start_after_lsn : Lsn) : MO (WalLog F) :=
  s ← get_st;
  length ← lift_r (file_len s.1);
  if length =? 0 then opening_empty i start_after_lsn
  else
    torn ← (if length <? INIT_FRAME_SIZE
            then opening (is_torn_initialization_prefix i start_after_lsn length)
            else mret false);
    if torn : bool then
      opening (map_err_st (λ _, RecoveryFailure "WAL torn INIT reset failed: {error}") (set_len 0));;
      opening (map_err_st (λ _, DurabilityFailure "WAL torn INIT reset sync failed: {error}") sync_data);;
      opening_empty i start_after_lsn
    else
      sc ← opening (scan_wal i);
      (if result_valid_length sc <? length then
         opening_hit "before_wal_tail_truncate";;
         opening (set_len (result_valid_length sc));;
         opening (map_err_st (λ _, DurabilityFailure "WAL torn-tail truncation sync failed: {error}")
                    sync_data);;
         opening_hit "after_wal_tail_truncate"
       else mret tt);;
      let report := result_report sc in
      s ← get_st;
      mret (mkWal s.1 i (result_format_version sc) (result_next_lsn sc) (result_next_batch_id sc)
              (result_history_start sc) (result_committed sc)
              (mkReport (records_scanned report) (committed_batches report)
                 (replayable_pages report) (length - result_valid_length sc))
              0 (replayable_pages report)).

Definition resume_after (checkpoint_lsn : Lsn) (w : WalLog F) : result (WalLog F) :=
  next ← ok_or (checked_add checkpoint_lsn 1) (InternalInvariantViolation "WAL LSN exhausted");
  Ok (if next_lsn w <? next then set_next_lsn next w else w).

Definition reset (checkpoint_lsn : Lsn) : M unit :=
  w ← wal;
  fail_when (checkpoint_lsn <? history_start_lsn w)
    (CheckpointFailure "WAL reset would move its history start backwards");;
  hit_point "before_wal_reset";;
  hit_point "during_wal_truncate";;
  on_file (map_err_st (λ _, CheckpointFailure "WAL reset truncation failed: {error}") (set_len 0));;
  hit_point "after_wal_truncate";;
  hit_point "before_wal_reset_truncate_sync";;
  hit_point "during_wal_reset_truncate_sync";;
  sync_or (CheckpointFailure "WAL reset truncation sync failed: {error}");;
  hit_point "after_wal_reset_truncate_sync";;
  modify (λ w, mkWal (file w) (identity w) WAL_FORMAT_VERSION (next_lsn w) (next_batch_id w)
    checkpoint_lsn (committed w) (scan_report w) (sync_count w) (page_images w));;
  next ← lift_r (ok_or (checked_add checkpoint_lsn 1) (InternalInvariantViolation "WAL LSN exhausted"));
  modify (λ w, mkWal (file w) (identity w) (format_version w) next 1 (history_start_lsn w) []
    (mkReport 1 0 0 0) (sync_count w) 0);;
  hit_point "before_wal_reinitialization";;
  w ← wal;
  let data := identity_payload (identity w) checkpoint_lsn in
  hit_point "during_wal_reinitialization";;
  append_frame Init 0 0 0 data;;
  hit_point "after_wal_reset_write";;
  hit_point "before_wal_reset_sync";;
  hit_point "during_wal_reset_sync";;
  sync_or (CheckpointFailure "WAL reset sync failed: {error}");;
  bump_sync_count;;
  hit_point "after_wal_reset_sync".

Definition metrics (w : WalLog F) : result WalMetrics :=
  n ← file_len (file w);
  Ok (mkMetrics n (sync_count w) (len (committed w)) (page_images w)).

End wal.
End Wal.
