(* ===== verification/WalFrames.v ===== *)
(** * The WAL frame codec and the first pass of the scan

    What one record looks like on disk ([frame_image]), that the header decoder
    inverts the encoder, and that the first pass over a file made of complete frames
    and one torn frame returns exactly the complete ones. *)

From S2P Require Import Prelude Wp Key Core Page Superblock DurableFile Wal.

Module WalFrames.
Import Core DurableFile Wal.

(** Field values that fit their widths. *)
Definition frame_ok (f : Frame) : Prop :=
  (frame_version f = WAL_FORMAT_VERSION ∨ frame_version f = LEGACY_WAL_FORMAT_VERSION) ∧
  u64 (record_lsn f) ∧ u64 (frame_batch_id f) ∧ u32 (record_index f) ∧
  len (payload f) ≤ WAL_MAX_PAYLOAD_SIZE.

Definition frame_size (f : Frame) : Z := WAL_HEADER_SIZE + len (payload f) + WAL_TRAILER_SIZE.

Section codec.
Context `{C : Crc32c} {CS : Crc32cSpec C}.
Implicit Types (f : Frame).

(** The header before its checksum is filled in. *)
Definition header_image f : bytes :=
  copy_at (copy_at (copy_at (copy_at (copy_at (copy_at (copy_at (copy_at (copy_at
    (zeros WAL_HEADER_SIZE) 0 WAL_MAGIC)
    4 (to_le 2 (frame_version f))) 6 [record_type_code (record_type f)])
    8 (to_le 4 (frame_size f))) 12 (to_le 4 (len (payload f)))) 16 (to_le 8 (record_lsn f)))
    24 (to_le 8 (frame_batch_id f))) 32 (to_le 4 (record_index f)))
    PAYLOAD_CHECKSUM_OFFSET (to_le 4 (crc32c (payload f))).

Definition header_bytes f : bytes :=
  copy_at (header_image f) HEADER_CHECKSUM_OFFSET (to_le 4 (header_checksum (header_image f))).

Definition frame_image f : bytes := header_bytes f ++ payload f ++ to_le 4 (frame_size f).

Lemma len_header_bytes f : len (header_bytes f) = WAL_HEADER_SIZE.
Proof. unfold header_bytes, header_image. blen. Qed.
Lemma len_frame_image f : len (frame_image f) = frame_size f.
Proof. unfold frame_image. rewrite !len_app, len_header_bytes, len_to_le. unfold frame_size. blen. Qed.
Lemma frame_size_pos f : WAL_MIN_FRAME_SIZE ≤ frame_size f.
Proof. unfold frame_size. blen. Qed.

Lemma encode_frame_eq f :
  frame_ok f →
  encode_frame (frame_version f) (record_type f) (record_lsn f) (frame_batch_id f)
    (record_index f) (payload f) = Ok (frame_image f).
Proof.
  intros (_ & _ & _ & _ & Hp). unfold encode_frame. pose proof (len_nonneg (payload f)).
  destruct (Z.ltb_spec WAL_MAX_PAYLOAD_SIZE (len (payload f))); [lia|]. rsimpl.
  rewrite checked_add_ok by blen. cbn [mbind option_bind].
  rewrite checked_add_ok by blen. rsimpl.
  change (WAL_HEADER_SIZE + len (payload f) + WAL_TRAILER_SIZE) with (frame_size f).
  assert (frame_size f ≤ U32_MAX) by (unfold frame_size; blen).
  destruct (Z.ltb_spec U32_MAX (frame_size f)); [lia|]. rsimpl.
  destruct (Z.ltb_spec U32_MAX (len (payload f))); [unfold frame_size in *; blen|]. rsimpl.
  done.
Qed.

Lemma encode_frame_Ok v t lsn bid index data b :
  encode_frame v t lsn bid index data = Ok b →
  b = frame_image (mkFrame v t lsn bid index data) ∧ len data ≤ WAL_MAX_PAYLOAD_SIZE.
Proof.
  unfold encode_frame. destruct (Z.ltb_spec WAL_MAX_PAYLOAD_SIZE (len data)); [done|]. rsimpl.
  pose proof (len_nonneg data).
  rewrite checked_add_ok by blen. cbn [mbind option_bind].
  rewrite checked_add_ok by blen. rsimpl. unfold fail_if.
  by repeat case_match; rsimpl; try done; intros [= <-].
Qed.

Lemma record_type_decode_code t : WalRecordType_decode (record_type_code t) = Ok t.
Proof. by destruct t. Qed.

(** Zeroing the checksum field of a sealed header gives back the image. *)
Lemma header_bytes_checksum f : header_checksum (header_bytes f) = header_checksum (header_image f).
Proof.
  unfold header_checksum, header_bytes.
  rewrite copy_at_twice; [done|unfold header_image; blen..].
Qed.

Lemma decode_header_bytes f :
  frame_ok f →
  decode_header (header_bytes f) =
  Ok (mkHeader (frame_version f) (record_type f) (frame_size f) (len (payload f)) (record_lsn f)
        (frame_batch_id f) (record_index f)).
Proof.
  intros (Hv & Hl & Hb & Hi & Hp). pose proof (len_header_bytes f) as Hlen.
  pose proof (len_nonneg (payload f)).
  unfold decode_header. rewrite Hlen, Z.eqb_refl. rsimpl.
  rewrite !index_range_ok by blen. rsimpl.
  rewrite (index_ok _ 7 0), (index_ok _ 6 (record_type_code (record_type f)));
    [|lia|unfold header_bytes, header_image; by bslice|lia|unfold header_bytes, header_image; by bslice].
  rsimpl. rewrite header_bytes_checksum.
  pose proof (crc32c_u32 (copy_at (header_image f) HEADER_CHECKSUM_OFFSET (zeros 4))) as Hc.
  change (crc32c _) with (header_checksum (header_image f)) in Hc.
  assert (H36 : (header_bytes f).[36; 40) = zeros 4)
    by (unfold header_bytes, header_image; by bslice).
  assert (H40 : (header_bytes f).[40; 44) = to_le 4 (header_checksum (header_image f)))
    by (unfold header_bytes; apply slice_copy_at_eq; unfold header_image; blen).
  unfold HEADER_CHECKSUM_OFFSET. rewrite H36, H40, any_nonzero_zeros.
  unfold header_bytes, header_image. bslice.
  assert (u32 (frame_size f)) by (unfold frame_size; blen).
  assert (u32 (len (payload f))) by blen.
  assert (u16 (frame_version f)) by (destruct Hv as [-> | ->]; by vm_compute).
  rewrite from_to_le2, !from_to_le8, !from_to_le4 by done. rewrite Z.eqb_refl.
  rsimpl. rewrite record_type_decode_code. rsimpl.
  destruct Hv as [-> | ->]; done.
Qed.

Lemma verify_payload_checksum_bytes f : verify_payload_checksum (header_bytes f) (payload f) = Ok tt.
Proof.
  unfold verify_payload_checksum. pose proof (len_header_bytes f) as Hlen.
  rewrite index_range_ok by blen. rsimpl.
  assert (H44 : (header_bytes f).[PAYLOAD_CHECKSUM_OFFSET; 48) = to_le 4 (crc32c (payload f))).
  { unfold header_bytes, header_image. bslice. done. }
  rewrite H44, from_to_le4 by apply crc32c_u32. by rewrite Z.eqb_refl.
Qed.

(** Reading a frame that starts at the end of [pre]. *)
Lemma frame_slices pre f post b :
  b = pre ++ frame_image f ++ post →
  b.[len pre; len pre + WAL_HEADER_SIZE) = header_bytes f ∧
  b.[len pre + WAL_HEADER_SIZE; len pre + WAL_HEADER_SIZE + len (payload f)) = payload f ∧
  b.[len pre + (WAL_HEADER_SIZE + len (payload f));
     len pre + (WAL_HEADER_SIZE + len (payload f)) + WAL_TRAILER_SIZE) = to_le 4 (frame_size f).
Proof.
  intros ->. pose proof (len_header_bytes f) as Hh. pose proof (len_nonneg (payload f)).
  assert (Ht : len (to_le 4 (frame_size f)) = WAL_TRAILER_SIZE) by blen.
  unfold frame_image. rewrite <-!app_assoc.
  assert (Hmid : ∀ (x y z : bytes) a b, a = len x → b = len x + len y → (x ++ y ++ z).[a; b) = y).
  { intros x y z a b -> ->. rewrite slice_app_r by lia. rewrite Z.sub_diag, slice_app_l by lia.
    apply slice_full. lia. }
  split_and!.
  - apply Hmid; lia.
  - rewrite (app_assoc pre). apply Hmid; rewrite len_app; lia.
  - rewrite (app_assoc pre), (app_assoc (pre ++ _)). apply Hmid; rewrite !len_app; lia.
Qed.
End codec.

(** ** The first pass *)

Section scan.
Context `{C : Crc32c} {CS : Crc32cSpec C} `{FS : DurableFileSpec F}.
Implicit Types (f : F) (fs : list Frame).

Definition images fs : bytes := concat (frame_image <$> fs).

(** What a crash leaves of the frame that was being written. *)
Definition torn (v : Z) (t : bytes) : Prop :=
  t = [] ∨ ∃ x n, frame_ok x ∧ frame_version x = v ∧ 0 ≤ n < frame_size x ∧
                  t = (frame_image x).[0; n).

Fixpoint ascending (previous : option Lsn) fs : Prop :=
  match fs with
  | [] => True
  | x :: fs' => match previous with Some p => p < record_lsn x | None => True end ∧
                ascending (Some (record_lsn x)) fs'
  end.

Fixpoint last_lsn (previous : option Lsn) fs : option Lsn :=
  match fs with [] => previous | x :: fs' => last_lsn (Some (record_lsn x)) fs' end.

(** An injected fault: nothing of the file changed. *)
Definition faulted (f f' : F) : Prop :=
  volatile f' = volatile f ∧ durable f' = durable f ∧ ¬ reliable f.

Lemma faulted_trans f1 f2 f3 : same_file f1 f2 → faulted f2 f3 → faulted f1 f3.
Proof. intros (H1 & H2 & H3) (H4 & H5 & H6). split_and!; [congruence..|auto]. Qed.

Lemma wal_read_exact f o n :
  0 ≤ o → 0 ≤ n → o + n ≤ len (volatile f) → o + n ≤ U64_MAX →
  wp (read_exact_at o n) (λ b f', same_file f f' ∧ b = (volatile f).[o; o + n)) (λ _, faulted f) f.
Proof.
  intros Ho Hn Hl Hu. unfold read_exact_at.
  wp_use (read_loop_spec (F:=F)); [done|done|apply checked_offset_ok|by rewrite len_nil| | | |].
  - by rewrite len_nil, Z.add_0_r, slice_nil.
  - rewrite len_nil. lia.
  - naive_solver.
  - intros e f' [(Hv & Hd & _) Hr]. split_and!; [done..|]. intros Hrel. destruct (Hr Hrel); lia.
Qed.

Lemma scan_step fuel v x pre frames previous post f :
  frame_ok x → Forall (λ y, frame_version y = frame_version x) frames →
  match previous with Some p => p < record_lsn x | None => True end →
  volatile f = pre ++ frame_image x ++ post → len (volatile f) ≤ U64_MAX →
  frame_version x = v → ∀ Q,
  (∀ f', same_file f f' →
     wp (scan_frames fuel (len (volatile f)) (len pre + frame_size x) (Some (record_lsn x))
           (frames ++ [x])) Q (λ _, faulted f) f') →
  wp (scan_frames (S fuel) (len (volatile f)) (len pre) previous frames) Q (λ _, faulted f) f.
Proof.
  intros Hx Hfr Hprev Hvol Hu Hv Q HQ. pose proof (frame_size_pos x) as Hpos.
  destruct (frame_slices pre x post _ Hvol) as (S1 & S2 & S3).
  assert (Hlen : len (volatile f) = len pre + frame_size x + len post)
    by (rewrite Hvol, !len_app, len_frame_image; lia).
  pose proof (len_nonneg pre). pose proof (len_nonneg post). pose proof (len_nonneg (payload x)).
  assert (Hsize : frame_size x = WAL_HEADER_SIZE + len (payload x) + WAL_TRAILER_SIZE) by done.
  cbn [scan_frames]. destruct (Z.ltb_spec (len pre) (len (volatile f))); [|blen].
  destruct (Z.ltb_spec (len (volatile f) - len pre) WAL_HEADER_SIZE); [blen|].
  apply wp_bind. wp_use (wal_read_exact f (len pre) WAL_HEADER_SIZE); [lia|blen|blen|blen| |done].
  intros hb f1 [Hs1 ->]. rewrite S1. apply wp_bind, (wp_lift_ok _ _ _ _ _ (decode_header_bytes x Hx)).
  apply wp_bind. cbn [header_version header_frame_length header_payload_length header_lsn].
  apply (wp_mono _ (λ _ s, s = f1) _ (λ _ _, False)).
  { destruct frames as [|y frames]; [done|]. inversion Hfr as [|? ? Hy]. subst. rewrite Hy, Z.eqb_refl. done. }
  2: done. intros _ ? ->.
  assert (G : ((frame_size x <? WAL_MIN_FRAME_SIZE)
     || negb (frame_size x =? WAL_HEADER_SIZE + len (payload x) + WAL_TRAILER_SIZE)
     || (WAL_MAX_PAYLOAD_SIZE <? len (payload x))) = false).
  { destruct Hx as (_ & _ & _ & _ & Hp). rewrite <-Hsize, Z.eqb_refl.
    destruct (Z.ltb_spec (frame_size x) WAL_MIN_FRAME_SIZE); [lia|].
    destruct (Z.ltb_spec WAL_MAX_PAYLOAD_SIZE (len (payload x))); [lia|]. done. }
  rewrite G. apply wp_bind, wp_fail_when; [done|intros _].
  destruct (Z.ltb_spec (len (volatile f) - len pre) (frame_size x)); [lia|].
  apply wp_bind, (wp_lift_ok _ (len pre + WAL_HEADER_SIZE)); [by rewrite checked_add_ok by blen|].
  destruct Hs1 as (V1 & D1 & R1).
  apply wp_bind. wp_use (wal_read_exact f1 (len pre + WAL_HEADER_SIZE) (len (payload x)));
    [blen|lia|rewrite V1; blen|blen| |].
  2: { intros e f' Hf'. eapply faulted_trans; [|exact Hf']. by split_and!. }
  intros d f2 [Hs2 ->]. rewrite V1, S2. destruct Hs2 as (V2 & D2 & R2).
  apply wp_bind, (wp_lift_ok _ (len pre + (WAL_HEADER_SIZE + len (payload x))));
    [by rewrite checked_add_ok by blen|].
  apply wp_bind.
  wp_use (wal_read_exact f2 (len pre + (WAL_HEADER_SIZE + len (payload x))) WAL_TRAILER_SIZE);
    [blen|blen|rewrite V2, V1; blen|blen| |].
  2: { intros e f' Hf'. eapply faulted_trans; [|exact Hf']. split_and!; [congruence..|auto]. }
  intros tr f3 [Hs3 ->]. rewrite V2, V1, S3.
  assert (u32 (frame_size x)) as Hu32 by (destruct Hx as (_ & _ & _ & _ & Hp); blen).
  rewrite from_to_le4 by done. unfold as_u32. rewrite Z.mod_small by exact Hu32. rewrite Z.eqb_refl.
  apply wp_bind, wp_fail_when; [done|intros _]. apply wp_bind.
  apply (wp_mono _ (λ _ s, s = f3) _ (λ _ _, False)).
  { destruct previous as [p|]; [|done]. destruct (Z.leb_spec (record_lsn x) p); [lia|done]. }
  2: done. intros _ ? ->.
  apply wp_bind, (wp_lift_ok _ _ _ _ _ (verify_payload_checksum_bytes x)).
  cbn [header_type header_batch_id header_index].
  destruct x. apply HQ. destruct Hs3 as (V3 & D3 & R3). split_and!; [congruence..|auto].
Qed.
(** The pass stops in front of a torn frame. *)
Lemma scan_torn fuel v t pre frames previous f :
  torn v t → Forall (λ y, frame_version y = v) frames →
  volatile f = pre ++ t → len (volatile f) ≤ U64_MAX →
  wp (scan_frames (S fuel) (len (volatile f)) (len pre) previous frames)
    (λ s f', same_file f f' ∧ s = mkScanned frames previous (len pre)) (λ _, faulted f) f.
Proof.
  intros Ht Hfr Hvol Hu. cbn [scan_frames].
  assert (Hl : len (volatile f) = len pre + len t) by (by rewrite Hvol, len_app).
  pose proof (len_nonneg pre).
  destruct (Z.ltb_spec (len pre) (len (volatile f))); [|by apply wp_ret].
  destruct Ht as [->|(x & n & Hx & Hv & Hn & ->)]; [rewrite len_nil in Hl; lia|].
  rewrite len_slice in Hl by (rewrite ?len_frame_image; lia).
  destruct (Z.ltb_spec (len (volatile f) - len pre) WAL_HEADER_SIZE); [by apply wp_ret|].
  apply wp_bind. wp_use (wal_read_exact f (len pre) WAL_HEADER_SIZE); [lia|blen|lia|lia| |done].
  intros hb f1 [Hs1 ->].
  assert (S1 : (volatile f).[len pre; len pre + WAL_HEADER_SIZE) = header_bytes x).
  { rewrite Hvol, slice_app_r by lia. rewrite Z.sub_diag, Z.add_simpl_l, slice_slice by blen.
    unfold frame_image. rewrite slice_app_l by (rewrite ?len_header_bytes; lia).
    apply slice_full. rewrite len_header_bytes. lia. }
  rewrite S1. apply wp_bind, (wp_lift_ok _ _ _ _ _ (decode_header_bytes x Hx)).
  apply wp_bind. cbn [header_version header_frame_length header_payload_length header_lsn].
  apply (wp_mono _ (λ _ s, s = f1) _ (λ _ _, False)).
  { destruct frames as [|y frames]; [done|]. inversion Hfr as [|? ? Hy]. subst. rewrite Hy, Z.eqb_refl. done. }
  2: done. intros _ ? ->. apply wp_bind, wp_fail_when.
  - intros G. exfalso. revert G. pose proof (frame_size_pos x). destruct Hx as (_ & _ & _ & _ & Hp).
    change (WAL_HEADER_SIZE + len (payload x) + WAL_TRAILER_SIZE) with (frame_size x).
    rewrite Z.eqb_refl.
    destruct (Z.ltb_spec (frame_size x) WAL_MIN_FRAME_SIZE); [lia|].
    destruct (Z.ltb_spec WAL_MAX_PAYLOAD_SIZE (len (payload x))); [lia|]. done.
  - intros _. destruct (Z.ltb_spec (len (volatile f) - len pre) (frame_size x)); [|lia].
    by apply wp_ret.
Qed.

Lemma images_cons x fs : images (x :: fs) = frame_image x ++ images fs.
Proof. done. Qed.
Lemma images_app fs fs' : images (fs ++ fs') = images fs ++ images fs'.
Proof. unfold images. by rewrite fmap_app, concat_app. Qed.

(** A file of complete frames followed by a torn one scans to the complete ones. *)
Lemma scan_frames_spec v t fs fuel pre frames previous f :
  Forall frame_ok fs → Forall (λ y, frame_version y = v) (frames ++ fs) →
  ascending previous fs → torn v t →
  volatile f = pre ++ images fs ++ t → len (volatile f) ≤ U64_MAX → (length fs < fuel)%nat →
  wp (scan_frames fuel (len (volatile f)) (len pre) previous frames)
    (λ s f', same_file f f' ∧
       s = mkScanned (frames ++ fs) (last_lsn previous fs) (len pre + len (images fs)))
    (λ _, faulted f) f.
Proof.
  intros Hok Hver Hasc Ht. revert fuel pre frames previous f Hver Hasc.
  induction Hok as [|x fs Hx Hok IH]; intros fuel pre frames previous f Hver Hasc Hvol Hu Hfuel;
    (destruct fuel as [|fuel]; [simpl in Hfuel; lia|]).
  - rewrite app_nil_r in *. wp_use (scan_torn fuel v t pre frames previous f); [done..| |done].
    cbn. intros s f' [Hs ->]. split; [done|]. unfold images. simpl. rewrite len_nil. f_equal. lia.
  - destruct Hasc as [Hp Hasc]. rewrite images_cons in Hvol. cbn [length] in Hfuel.
    apply Forall_app in Hver as [Hv1 Hv2]. inversion Hv2 as [|? ? Hvx Hv3]. subst.
    eapply scan_step; [done|done|done|by rewrite Hvol, <-!app_assoc|done|done|].
    intros f' Hs. destruct Hs as (V & D & R).
    rewrite <-(len_frame_image x), <-(len_app pre), <-V.
    wp_use (IH fuel (pre ++ frame_image x) (frames ++ [x]) (Some (record_lsn x)) f').
    + rewrite <-app_assoc. by apply Forall_app.
    + done.
    + by rewrite V, Hvol, <-!app_assoc.
    + by rewrite V.
    + lia.
    + cbv beta. intros s f'' [Hs ->]. split.
      * etrans; [|exact Hs]. by split_and!.
      * rewrite <-app_assoc, images_cons, !len_app. f_equal. lia.
    + intros e f'' Hf. eapply faulted_trans; [|exact Hf]. by split_and!.
Qed.

(** Every prefix of a run of frames is a shorter run and a torn frame. *)
Lemma images_prefix v fs n :
  Forall frame_ok fs → Forall (λ y, frame_version y = v) fs → 0 ≤ n ≤ len (images fs) →
  ∃ k t, (k ≤ length fs)%nat ∧ torn v t ∧ (images fs).[0; n) = images (take k fs) ++ t ∧
    (n = len (images fs) → k = length fs ∧ t = []).
Proof.
  intros Hok Hver. revert n. induction Hok as [|x fs Hx Hok IH]; intros n Hn.
  { exists 0%nat, []. assert (Hnil : len (images []) = 0) by done. rewrite Hnil in Hn.
    split_and!; [done|by left| |done]. assert (n = 0) as -> by lia. by rewrite slice_nil. }
  inversion Hver as [|? ? Hvx Hv]. subst. rewrite images_cons, len_app, len_frame_image in Hn |- *.
  destruct (Z.lt_ge_cases n (frame_size x)) as [Hlt|Hge].
  - exists 0%nat, ((frame_image x).[0; n)). pose proof (len_nonneg (images fs)). split_and!.
    + lia.
    + right. exists x, n. split_and!; try done; lia.
    + rewrite slice_app_l by (rewrite ?len_frame_image; lia). done.
    + lia.
  - destruct (IH Hv (n - frame_size x)) as (k & t & Hk & Ht & Heq & Hfull); [lia|].
    exists (S k), t. cbn [take]. rewrite images_cons. pose proof (frame_size_pos x). split_and!.
    + simpl. lia.
    + done.
    + rewrite (slice_split _ 0 (frame_size x) n) by blen.
      rewrite slice_app_l, slice_app_r by (rewrite ?len_frame_image; lia).
      rewrite slice_full by (rewrite len_frame_image; lia).
      rewrite len_frame_image, Z.sub_diag, Heq. by rewrite app_assoc.
    + intros ->. destruct Hfull as [-> ->]; [lia|]. done.
Qed.
End scan.
End WalFrames.
