(* ===== verification/WalReplay.v ===== *)
(** * The contents of a log and the second pass of the scan

    A log is a list of segments: the page images of one batch and, when the batch
    committed, its commit record.  The second pass over the records of a
    well-formed log returns exactly its committed batches, and every prefix of the
    records of a log is again a log. *)

From S2P Require Import Prelude Wp Key Core Page Superblock DurableFile Wal WalFrames.

Module WalReplay.
Import Core DurableFile Wal WalFrames.

Record Segment : Type := mkSegment {
  seg_first : Lsn;
  seg_batch : Z;
  seg_pages : list WalPageImage;
  seg_done : bool;
}.

Definition page_payload (p : WalPageImage) : bytes := to_le 8 (image_page_id p) ++ image p.
Definition digest (ps : list WalPageImage) : bytes := concat (page_payload <$> ps).

(** The LSN of the last record of a segment. *)
Definition seg_last (s : Segment) : Lsn :=
  seg_first s + len (seg_pages s) - (if seg_done s then 0 else 1).

Definition seg_commit (s : Segment) : list CommittedWalBatch :=
  if seg_done s then [mkBatch (seg_batch s) (seg_last s) (seg_pages s)] else [].

Definition commits (ss : list Segment) : list CommittedWalBatch := concat (seg_commit <$> ss).

Definition identity_ok (i : WalIdentity) : Prop :=
  len (database_uuid i) = 16 ∧ u64 (tenant_id i) ∧ u64 (shard_id i) ∧ u64 (shard_epoch i).

Section log.
Context `{C : Crc32c} {CS : Crc32cSpec C}.

Fixpoint page_frames (v : Z) (bid : Z) (first : Lsn) (index : Z) (ps : list WalPageImage) :
    list Frame :=
  match ps with
  | [] => []
  | p :: ps' => mkFrame v PageImage (first + index) bid index (page_payload p)
                :: page_frames v bid first (index + 1) ps'
  end.

Definition commit_frame (v : Z) (s : Segment) : Frame :=
  mkFrame v Commit (seg_first s + len (seg_pages s)) (seg_batch s) (len (seg_pages s))
    (encode_commit_payload (seg_first s) (len (seg_pages s)) (crc32c (digest (seg_pages s)))).

Definition seg_frames (v : Z) (s : Segment) : list Frame :=
  page_frames v (seg_batch s) (seg_first s) 0 (seg_pages s)
  ++ (if seg_done s then [commit_frame v s] else []).

Definition log_frames (v : Z) (ss : list Segment) : list Frame := concat (seg_frames v <$> ss).

(** The payload of the initialization record in either format version. *)
Definition init_payload (v : Z) (i : WalIdentity) (start : Lsn) : bytes :=
  if v =? LEGACY_WAL_FORMAT_VERSION then (identity_payload i start).[0; LEGACY_INIT_PAYLOAD_SIZE)
  else identity_payload i start.
Definition init_frame (v : Z) (i : WalIdentity) (start : Lsn) : Frame :=
  mkFrame v Init 0 0 0 (init_payload v i start).

Definition image_ok (p : WalPageImage) : Prop :=
  u64 (image_page_id p) ∧ len (image p) = Page.PAGE_SIZE ∧ validate_page_image p = Ok tt.

Definition stamped (s : Segment) : Prop :=
  Forall (λ p, validate_page_image_lsn p (seg_first s + len (seg_pages s)) = Ok tt) (seg_pages s).

Definition seg_ok (s : Segment) : Prop :=
  seg_pages s ≠ [] ∧ 0 ≤ seg_first s ∧ seg_first s + len (seg_pages s) ≤ U64_MAX ∧
  u64 (seg_batch s) ∧ len (seg_pages s) ≤ U32_MAX ∧ Forall image_ok (seg_pages s) ∧
  (seg_done s = true → stamped s).

(** [previous] and [bid]: the LSN and batch identifier the log is appended after. *)
Fixpoint log_ok (previous : Lsn) (bid : Z) (ss : list Segment) : Prop :=
  match ss with
  | [] => True
  | s :: ss' => seg_ok s ∧ previous < seg_first s ∧ bid < seg_batch s ∧
                log_ok (seg_last s) (seg_batch s) ss'
  end.

Fixpoint log_last (previous : Lsn) (ss : list Segment) : Lsn :=
  match ss with [] => previous | s :: ss' => log_last (seg_last s) ss' end.
Fixpoint log_batch (bid : Z) (ss : list Segment) : Z :=
  match ss with [] => bid | s :: ss' => log_batch (seg_batch s) ss' end.

(** ** Lemmas *)

Lemma log_ok_app previous bid ss ss' :
  log_ok previous bid (ss ++ ss') ↔
  log_ok previous bid ss ∧ log_ok (log_last previous ss) (log_batch bid ss) ss'.
Proof.
  revert previous bid. induction ss as [|s ss IH]; intros previous bid; simpl; [tauto|].
  rewrite IH. tauto.
Qed.
Lemma log_last_app previous ss ss' : log_last previous (ss ++ ss') = log_last (log_last previous ss) ss'.
Proof. revert previous. induction ss; simpl; auto. Qed.
Lemma log_batch_app bid ss ss' : log_batch bid (ss ++ ss') = log_batch (log_batch bid ss) ss'.
Proof. revert bid. induction ss; simpl; auto. Qed.
Lemma commits_app ss ss' : commits (ss ++ ss') = commits ss ++ commits ss'.
Proof. unfold commits. by rewrite fmap_app, concat_app. Qed.
Lemma log_frames_app v ss ss' : log_frames v (ss ++ ss') = log_frames v ss ++ log_frames v ss'.
Proof. unfold log_frames. by rewrite fmap_app, concat_app. Qed.

Lemma seg_last_bounds s : seg_ok s → seg_first s ≤ seg_last s ≤ seg_first s + len (seg_pages s).
Proof.
  intros (Hne & _). unfold seg_last. destruct (seg_pages s) as [|p ps]; [done|].
  rewrite len_cons. pose proof (len_nonneg ps). destruct (seg_done s); lia.
Qed.

Lemma log_last_ge previous bid ss : log_ok previous bid ss → previous ≤ log_last previous ss.
Proof.
  revert previous bid. induction ss as [|s ss IH]; intros previous bid; simpl; [lia|].
  intros (Hs & Hp & _ & Hss). apply IH in Hss. apply seg_last_bounds in Hs. lia.
Qed.
Lemma log_batch_ge previous bid ss : log_ok previous bid ss → bid ≤ log_batch bid ss.
Proof.
  revert previous bid. induction ss as [|s ss IH]; intros previous bid; simpl; [lia|].
  intros (_ & _ & Hb & Hss). apply IH in Hss. lia.
Qed.
Lemma log_last_u64 previous bid ss :
  log_ok previous bid ss → u64 previous → u64 (log_last previous ss).
Proof.
  revert previous bid. induction ss as [|s ss IH]; intros previous bid; simpl; [done|].
  intros (Hs & _ & _ & Hss) _. eapply IH; [done|]. pose proof (seg_last_bounds s Hs).
  destruct Hs as (_ & ? & ? & _). ulia.
Qed.

Lemma log_batch_u64 previous bid ss :
  log_ok previous bid ss → u64 bid → u64 (log_batch bid ss).
Proof.
  revert previous bid. induction ss as [|s ss IH]; intros previous bid; simpl; [done|].
  intros (Hs & _ & _ & Hss) _. eapply IH; [done|]. apply Hs.
Qed.

(** *** Payloads *)

Lemma len_page_payload p : image_ok p → len (page_payload p) = PAGE_IMAGE_PAYLOAD_SIZE.
Proof. intros (_ & Hl & _). unfold page_payload. rewrite len_app, len_to_le, Hl. done. Qed.

Lemma decode_page_payload p : image_ok p → decode_page_image (page_payload p) = Ok p.
Proof.
  intros Hp. pose proof (len_page_payload p Hp) as Hl. destruct Hp as (Hid & Hi & _).
  unfold decode_page_image. rewrite Hl, Z.eqb_refl. rsimpl.
  rewrite !index_range_ok by blen. rsimpl. unfold page_payload.
  rewrite slice_app_l by blen. rewrite slice_full by blen.
  rewrite slice_app_r, len_to_le by blen. rewrite slice_full by blen.
  rewrite from_to_le8 by done. by destruct p.
Qed.

Lemma len_commit_payload a b c : len (encode_commit_payload a b c) = COMMIT_PAYLOAD_SIZE.
Proof. unfold encode_commit_payload. blen. Qed.

Lemma decode_commit_payload_eq a b c :
  u64 a → u32 b → u32 c → decode_commit_payload (encode_commit_payload a b c) = Ok (a, b, c).
Proof.
  intros Ha Hb Hc. unfold decode_commit_payload. rewrite len_commit_payload, Z.eqb_refl. rsimpl.
  rewrite !index_range_ok by (rewrite ?len_commit_payload; blen). rsimpl.
  unfold encode_commit_payload. bslice. by rewrite from_to_le8, !from_to_le4.
Qed.

Lemma len_identity_payload i start : len (identity_payload i start) = INIT_PAYLOAD_SIZE.
Proof. unfold identity_payload. blen. Qed.

Lemma verify_identity_eq v i start :
  v = WAL_FORMAT_VERSION ∨ v = LEGACY_WAL_FORMAT_VERSION ∧ start = 0 →
  identity_ok i → u64 start → verify_identity v (init_payload v i start) i = Ok start.
Proof.
  intros Hv (Hu & Ht & Hs & He) Hst. pose proof (len_identity_payload i start) as Hl.
  assert (Hlp : len (init_payload v i start) =
    if v =? LEGACY_WAL_FORMAT_VERSION then LEGACY_INIT_PAYLOAD_SIZE else INIT_PAYLOAD_SIZE).
  { unfold init_payload. destruct (v =? LEGACY_WAL_FORMAT_VERSION); [rewrite len_slice; blen|done]. }
  unfold verify_identity. rewrite Hlp, Z.eqb_refl. rsimpl.
  rewrite (index_range_ok _ 0 16), (index_range_ok _ 16 24), (index_range_ok _ 24 32),
    (index_range_ok _ 32 40), (index_range_ok _ 40 44)
    by (rewrite ?Hlp; destruct (v =? LEGACY_WAL_FORMAT_VERSION); vm_compute; congruence).
  rsimpl.
  assert (Hsl : ∀ a b, 0 ≤ a → a ≤ b → b ≤ 44 →
    (init_payload v i start).[a; b) = (identity_payload i start).[a; b)).
  { intros a b ? ? ?. unfold init_payload. destruct (v =? LEGACY_WAL_FORMAT_VERSION); [|done].
    rewrite slice_slice by blen. done. }
  rewrite !Hsl by lia. unfold identity_payload. bslice.
  rewrite !from_to_le8, from_to_le4 by (done || by vm_compute). rewrite Z.eqb_refl. rsimpl.
  rewrite bool_decide_eq_true_2 by (by destruct i). rsimpl.
  destruct Hv as [-> | [-> ->]]; [|done]. cbn [Z.eqb].
  change (WAL_FORMAT_VERSION =? LEGACY_WAL_FORMAT_VERSION) with false in *. cbv match in *.
  change (init_payload WAL_FORMAT_VERSION i start) with (identity_payload i start).
  rewrite index_range_ok by blen. rsimpl. unfold identity_payload. bslice. by rewrite from_to_le8.
Qed.
(** *** The records of a log are well-formed frames with ascending LSNs *)

Lemma page_frames_ok v bid first index ps :
  v = WAL_FORMAT_VERSION ∨ v = LEGACY_WAL_FORMAT_VERSION → u64 bid → 0 ≤ first → 0 ≤ index →
  first + index + len ps ≤ U64_MAX → index + len ps ≤ U32_MAX → Forall image_ok ps →
  Forall frame_ok (page_frames v bid first index ps) ∧
  Forall (λ f, frame_version f = v) (page_frames v bid first index ps).
Proof.
  intros Hv Hb Hf. revert index. induction ps as [|p ps IH]; intros index Hi H1 H2 Hok; simpl; [done|].
  inversion Hok as [|? ? Hp Hps]. subst. rewrite len_cons in H1, H2. pose proof (len_nonneg ps).
  destruct (IH (index + 1)) as [IH1 IH2]; [lia|lia|lia|done|].
  split; constructor; try done. pose proof (len_page_payload p Hp) as Hl.
  split_and!; cbn [frame_version record_lsn frame_batch_id record_index payload];
    [done|ulia|done|ulia|rewrite Hl; vm_compute; congruence].
Qed.

Lemma log_frames_ok v previous bid ss :
  v = WAL_FORMAT_VERSION ∨ v = LEGACY_WAL_FORMAT_VERSION → log_ok previous bid ss →
  Forall frame_ok (log_frames v ss) ∧ Forall (λ f, frame_version f = v) (log_frames v ss).
Proof.
  intros Hv. revert previous bid. induction ss as [|s ss IH]; intros previous bid; [done|].
  simpl. intros (Hs & Hp & Hb & Hss). apply IH in Hss as [IH1 IH2].
  destruct Hs as (_ & H0 & H1 & H2 & H3 & H4 & _).
  destruct (page_frames_ok v (seg_batch s) (seg_first s) 0 (seg_pages s)) as [P1 P2]; [done|done|done|lia|lia|lia|done|].
  pose proof (len_nonneg (seg_pages s)).
  unfold log_frames in *. cbn [fmap list_fmap concat]. rewrite !Forall_app.
  unfold seg_frames. rewrite !Forall_app. split_and!; try done.
  - destruct (seg_done s); [|constructor]. constructor; [|constructor].
    split_and!; cbn [commit_frame frame_version record_lsn frame_batch_id record_index payload];
      [done|ulia|done|ulia|rewrite len_commit_payload; vm_compute; congruence].
  - destruct (seg_done s); [|constructor]. by constructor.
Qed.

Lemma ascending_app previous fs fs' :
  ascending previous (fs ++ fs') ↔ ascending previous fs ∧ ascending (last_lsn previous fs) fs'.
Proof.
  revert previous. induction fs as [|x fs IH]; intros previous; simpl; [tauto|]. rewrite IH. tauto.
Qed.
Lemma last_lsn_app previous fs fs' :
  last_lsn previous (fs ++ fs') = last_lsn (last_lsn previous fs) fs'.
Proof. revert previous. induction fs; simpl; auto. Qed.

Lemma page_frames_ascending v bid first index ps previous :
  previous < first + index →
  ascending (Some previous) (page_frames v bid first index ps) ∧
  last_lsn (Some previous) (page_frames v bid first index ps) =
    Some (match ps with [] => previous | _ => first + index + len ps - 1 end).
Proof.
  revert index previous. induction ps as [|p ps IH]; intros index previous Hp; simpl; [done|].
  destruct (IH (index + 1) (first + index)) as [IH1 IH2]; [lia|].
  split; [done|]. rewrite IH2. rewrite len_cons. destruct ps; f_equal; rewrite ?len_nil; lia.
Qed.

Lemma log_frames_ascending v previous bid ss :
  log_ok previous bid ss →
  ascending (Some previous) (log_frames v ss) ∧
  last_lsn (Some previous) (log_frames v ss) = Some (log_last previous ss).
Proof.
  revert previous bid. induction ss as [|s ss IH]; intros previous bid; [done|].
  simpl. intros (Hs & Hp & Hb & Hss). apply IH in Hss as [IH1 IH2].
  destruct (page_frames_ascending v (seg_batch s) (seg_first s) 0 (seg_pages s) previous) as [A1 A2]; [lia|].
  destruct Hs as (Hne & _). destruct (seg_pages s) as [|p ps] eqn:Eps; [done|].
  assert (Hl : last_lsn (Some previous) (seg_frames v s) = Some (seg_last s)).
  { unfold seg_frames, seg_last. rewrite last_lsn_app, Eps, A2. rewrite Z.add_0_r.
    destruct (seg_done s); simpl; [|done]. rewrite Eps. f_equal. lia. }
  unfold log_frames in *. cbn [fmap list_fmap concat]. rewrite ascending_app, last_lsn_app, Hl.
  split_and!; [|done..]. unfold seg_frames. rewrite ascending_app, Eps, A2. split; [done|].
  destruct (seg_done s); simpl; [|done]. rewrite Eps. lia.
Qed.

(** *** Replaying a segment *)

Lemma replay_page_pending p ps bid first v index hist com hi mx :
  image_ok p → hist < first + index → index = len ps → len ps < 2 ^ 32 → bid ≤ mx →
  replay_frame hist (mkFrame v PageImage (first + index) bid index (page_payload p))
    (mkReplay com (Some (mkPending bid first ps (digest ps))) hi mx) =
  Ok (mkReplay com (Some (mkPending bid first (ps ++ [p]) (digest (ps ++ [p])))) hi mx).
Proof.
  intros Hp Hh -> Hl Hb. unfold replay_frame. cbn [record_lsn frame_batch_id record_type].
  destruct (Z.leb_spec (first + len ps) hist); [lia|]. rsimpl. cbn [max_batch_id]. rewrite Z.max_l by lia.
  unfold replay_page. cbn [payload]. rewrite (decode_page_payload p Hp). rsimpl.
  destruct Hp as (_ & _ & ->). rsimpl. cbn [replay_pending pending_batch_id]. rewrite Z.eqb_refl. rsimpl.
  cbn [pending_pages record_index]. unfold as_u32. pose proof (len_nonneg ps).
  rewrite Z.mod_small, Z.eqb_refl by lia. rsimpl. unfold digest. rewrite fmap_app, concat_app. simpl.
  by rewrite app_nil_r.
Qed.

(** The first record of a new batch opens a pending batch. *)
Lemma replay_page_fresh p bid first v hist com pend hi mx :
  image_ok p → hist < first → hi < bid → mx ≤ bid → 0 ≤ bid →
  match pend with Some q => pending_batch_id q ≤ hi | None => True end →
  replay_frame hist (mkFrame v PageImage (first + 0) bid 0 (page_payload p)) (mkReplay com pend hi mx) =
  replay_frame hist (mkFrame v PageImage (first + 0) bid 0 (page_payload p))
    (mkReplay com (Some (mkPending bid first [] [])) bid bid).
Proof.
  intros Hp Hh Hhi Hmx Hb Hpend. unfold replay_frame. cbn [record_lsn frame_batch_id record_type].
  destruct (Z.leb_spec (first + 0) hist); [lia|]. rsimpl.
  cbn [max_batch_id]. rewrite (Z.max_r mx), Z.max_id by lia.
  unfold replay_page. destruct (decode_page_image _) as [p'| |]; rsimpl; [|done..].
  destruct (validate_page_image p') as [[]| |]; rsimpl; [|done..].
  cbn [replay_pending pending_batch_id highest_batch_id_seen frame_batch_id record_lsn].
  rewrite Z.eqb_refl, Z.add_0_r.
  destruct (Z.leb_spec bid hi); [lia|]. destruct pend as [q|]; [|done].
  destruct (Z.eqb_spec (pending_batch_id q) bid); [lia|]. done.
Qed.

Lemma replay_pages_pending ps0 ps bid first v index hist com hi mx rest :
  Forall image_ok ps → hist < first → index = len ps0 → index + len ps < 2 ^ 32 → bid ≤ mx →
  replay_frames hist (page_frames v bid first index ps ++ rest)
    (mkReplay com (Some (mkPending bid first ps0 (digest ps0))) hi mx) =
  replay_frames hist rest
    (mkReplay com (Some (mkPending bid first (ps0 ++ ps) (digest (ps0 ++ ps)))) hi mx).
Proof.
  intros Hok Hh. revert ps0 index. induction Hok as [|p ps Hp Hok IH]; intros ps0 index Hi Hl Hb.
  { by rewrite app_nil_r. }
  cbn [page_frames app replay_frames]. rewrite len_cons in Hl. pose proof (len_nonneg ps).
  rewrite replay_page_pending by (done || blen). rsimpl.
  rewrite IH; [|rewrite len_app, len_cons, len_nil; lia|lia|lia]. by rewrite <-app_assoc.
Qed.

Lemma validate_all_lsns_ok ps lsn :
  Forall (λ p, validate_page_image_lsn p lsn = Ok tt) ps → validate_all_lsns ps lsn = Ok tt.
Proof. induction 1 as [|p ps Hp Hps IH]; simpl; [done|]. by rewrite Hp. Qed.

Lemma replay_commit_frame v s hist com hi mx :
  seg_ok s → seg_done s = true → hist < seg_first s → seg_batch s ≤ mx →
  replay_frame hist (commit_frame v s)
    (mkReplay com (Some (mkPending (seg_batch s) (seg_first s) (seg_pages s) (digest (seg_pages s)))) hi mx) =
  Ok (mkReplay (com ++ seg_commit s) None hi mx).
Proof.
  intros (Hne & H0 & H1 & Hb & Hn & Hok & Hst) Hd Hh Hmx. pose proof (len_nonneg (seg_pages s)).
  unfold replay_frame, commit_frame. cbn [record_lsn frame_batch_id record_type].
  destruct (Z.leb_spec (seg_first s + len (seg_pages s)) hist); [lia|]. rsimpl.
  cbn [max_batch_id]. rewrite Z.max_l by lia. unfold replay_commit. cbn [replay_pending]. rsimpl.
  cbn [pending_batch_id pending_pages frame_batch_id record_index payload pending_first_lsn digest_input].
  rewrite Z.eqb_refl. unfold as_u32. rewrite Z.mod_small by ulia. rewrite Z.eqb_refl. rsimpl.
  rewrite decode_commit_payload_eq by (apply crc32c_u32 || ulia). rsimpl.
  rewrite !Z.eqb_refl. rsimpl. cbn [record_lsn]. rewrite validate_all_lsns_ok by exact (Hst Hd). rsimpl.
  unfold seg_commit, seg_last. rewrite Hd, Z.sub_0_r. done.
Qed.

Lemma replay_segment v s hist com pend hi rest :
  seg_ok s → hist < seg_first s → hi < seg_batch s →
  match pend with Some q => pending_batch_id q ≤ hi | None => True end →
  ∃ pend', match pend' with Some q => pending_batch_id q ≤ seg_batch s | None => True end ∧
  replay_frames hist (seg_frames v s ++ rest) (mkReplay com pend hi hi) =
  replay_frames hist rest (mkReplay (com ++ seg_commit s) pend' (seg_batch s) (seg_batch s)).
Proof.
  intros Hs Hh Hhi Hpend. destruct (id Hs) as (Hne & H0 & H1 & Hb & Hn & Hok & _).
  assert (Hpages : replay_frames hist (seg_frames v s ++ rest) (mkReplay com pend hi hi) =
    replay_frames hist ((if seg_done s then [commit_frame v s] else []) ++ rest)
      (mkReplay com (Some (mkPending (seg_batch s) (seg_first s) (seg_pages s) (digest (seg_pages s))))
         (seg_batch s) (seg_batch s))).
  { unfold seg_frames. rewrite <-app_assoc.
    pose proof (replay_pages_pending [] (seg_pages s) (seg_batch s) (seg_first s) v 0 hist com
      (seg_batch s) (seg_batch s) ((if seg_done s then [commit_frame v s] else []) ++ rest)) as Hp.
    rewrite app_nil_l in Hp. rewrite <-Hp; [|done|done|done|ulia|lia].
    destruct (seg_pages s) as [|p ps]; [done|]. inversion Hok as [|? ? Hok1 Hok2]. subst.
    cbn [page_frames app replay_frames]. f_equal. unfold u64 in Hb.
    rewrite (replay_page_fresh p) by (done || lia). done. }
  rewrite Hpages. unfold seg_commit. destruct (seg_done s) eqn:Hd; simpl.
  - exists None. split; [done|]. rewrite replay_commit_frame by (done || lia). rsimpl.
    unfold seg_commit. by rewrite Hd.
  - eexists (Some _). split; [|by rewrite app_nil_r]. simpl. lia.
Qed.

Lemma replay_log v ss hist previous com pend hi :
  log_ok previous hi ss → hist ≤ previous →
  match pend with Some q => pending_batch_id q ≤ hi | None => True end →
  ∃ pend', replay_frames hist (log_frames v ss) (mkReplay com pend hi hi) =
    Ok (mkReplay (com ++ commits ss) pend' (log_batch hi ss) (log_batch hi ss)).
Proof.
  revert previous com pend hi. induction ss as [|s ss IH]; intros previous com pend hi; simpl.
  { intros _ _ _. exists pend. by rewrite app_nil_r. }
  intros (Hs & Hp & Hb & Hss) Hh Hpend. pose proof (seg_last_bounds s Hs).
  destruct (replay_segment v s hist com pend hi (log_frames v ss)) as (pend' & Hpend' & Heq);
    [done|lia|done|done|].
  destruct (IH (seg_last s) (com ++ seg_commit s) pend' (seg_batch s)) as (pend'' & IH'); [done|lia|done|].
  exists pend''. change (log_frames v (s :: ss)) with (seg_frames v s ++ log_frames v ss).
  rewrite Heq, IH'. unfold commits. simpl. by rewrite app_assoc.
Qed.
(** *** Prefixes of a log *)

Lemma length_page_frames v bid first index ps : length (page_frames v bid first index ps) = length ps.
Proof. revert index. induction ps; intros; simpl; auto. Qed.
Lemma take_page_frames v bid first index ps k :
  take k (page_frames v bid first index ps) = page_frames v bid first index (take k ps).
Proof. revert index k. induction ps; intros index [|k]; simpl; try done. by f_equal. Qed.
Lemma page_frames_snoc v bid first index ps p :
  page_frames v bid first index (ps ++ [p]) =
  page_frames v bid first index ps
  ++ [mkFrame v PageImage (first + (index + len ps)) bid (index + len ps) (page_payload p)].
Proof.
  revert index. induction ps as [|q ps IH]; intros index; simpl.
  - by rewrite len_nil, Z.add_0_r.
  - rewrite IH, len_cons. by replace (index + (1 + len ps)) with (index + 1 + len ps) by lia.
Qed.

(** The segment of the first [k] page images of a batch that did not commit. *)
Definition cut (k : nat) (s : Segment) : Segment :=
  mkSegment (seg_first s) (seg_batch s) (take k (seg_pages s)) false.

Lemma cut_ok k s : seg_ok s → (0 < k)%nat → seg_ok (cut k s).
Proof.
  intros (Hne & H0 & H1 & H2 & H3 & H4 & _) Hk. assert (len (take k (seg_pages s)) ≤ len (seg_pages s))
    by (unfold len; rewrite length_take; lia).
  split_and!; cbn [cut seg_pages seg_first seg_batch seg_done]; try done; try lia.
  - destruct k, (seg_pages s); simpl; try done; lia.
  - by apply Forall_take.
Qed.

Lemma log_frames_prefix v previous bid ss k :
  log_ok previous bid ss →
  ∃ ss' m, take k (log_frames v ss) = log_frames v ss' ∧ log_ok previous bid ss' ∧
    commits ss' = take m (commits ss) ∧ log_last previous ss' ≤ log_last previous ss ∧
    log_batch bid ss' ≤ log_batch bid ss ∧ ((length (log_frames v ss) ≤ k)%nat → ss' = ss).
Proof.
  revert previous bid k. induction ss as [|s ss IH]; intros previous bid k; simpl.
  { intros _. exists [], 0%nat. split_and!; try done. by destruct k. }
  intros (Hs & Hp & Hb & Hss). change (log_frames v (s :: ss)) with (seg_frames v s ++ log_frames v ss).
  pose proof (log_last_ge _ _ _ Hss). pose proof (log_batch_ge _ _ _ Hss).
  pose proof (seg_last_bounds s Hs) as Hlast.
  destruct (decide (length (seg_frames v s) ≤ k)%nat) as [Hk|Hk].
  - destruct (IH (seg_last s) (seg_batch s) (k - length (seg_frames v s))%nat Hss)
      as (ss' & m & E1 & E2 & E3 & E4 & E5 & E6).
    exists (s :: ss'), (length (seg_commit s) + m)%nat. split_and!; try done.
    + rewrite take_app_ge by lia. by rewrite E1.
    + change (commits (s :: ss')) with (seg_commit s ++ commits ss').
      change (commits (s :: ss)) with (seg_commit s ++ commits ss).
      rewrite take_app_add. by rewrite E3.
    + rewrite length_app. intros. rewrite E6 by lia. done.
  - assert (Hkp : (k ≤ length (seg_pages s))%nat).
    { unfold seg_frames in Hk. rewrite length_app, length_page_frames in Hk.
      destruct (seg_done s); simpl in Hk; lia. }
    assert (Ht : take k (seg_frames v s ++ log_frames v ss) =
      page_frames v (seg_batch s) (seg_first s) 0 (take k (seg_pages s))).
    { unfold seg_frames. rewrite <-app_assoc, take_app_le by (rewrite length_page_frames; lia).
      apply take_page_frames. }
    rewrite Ht. destruct k as [|k].
    + exists [], 0%nat. split_and!; try done; simpl; try lia.
      intros Hle. rewrite length_app in Hle. lia.
    + exists [cut (S k) s], 0%nat. split_and!; try done.
      * unfold log_frames, seg_frames, cut. simpl. by rewrite !app_nil_r.
      * simpl. split_and!; try done. by apply cut_ok; [|lia].
      * simpl. unfold seg_last at 1. unfold cut. cbn [seg_first seg_pages seg_done].
        assert (len (take (S k) (seg_pages s)) ≤ seg_last s - seg_first s + 1); [|lia].
        unfold seg_last, len. rewrite length_take. unfold len in *. destruct (seg_done s); lia.
      * rewrite length_app. intros. lia.
Qed.

Lemma log_ok_mono previous previous' bid ss :
  log_ok previous bid ss → previous' ≤ previous → log_ok previous' bid ss.
Proof. destruct ss as [|s ss]; simpl; [done|]. intros (? & ? & ? & ?) ?. split_and!; try done; lia. Qed.
Lemma log_last_mono previous previous' bid ss :
  log_ok previous bid ss → previous' ≤ previous → log_last previous' ss ≤ log_last previous ss.
Proof. destruct ss as [|s ss]; simpl; [done|]. lia. Qed.

(** *** The whole scan, after the first pass *)

Definition version_ok (v : Z) (start : Lsn) : Prop :=
  v = WAL_FORMAT_VERSION ∨ v = LEGACY_WAL_FORMAT_VERSION ∧ start = 0.

Definition all_frames (v : Z) (i : WalIdentity) (start : Lsn) (ss : list Segment) : list Frame :=
  init_frame v i start :: log_frames v ss.

Lemma version_ok_codes v start :
  version_ok v start → v = WAL_FORMAT_VERSION ∨ v = LEGACY_WAL_FORMAT_VERSION.
Proof. intros [?|[? ?]]; auto. Qed.

Lemma init_frame_ok v i start : version_ok v start → frame_ok (init_frame v i start).
Proof.
  intros Hv. pose proof (len_identity_payload i start) as Hl.
  split_and!; cbn [init_frame frame_version record_lsn frame_batch_id record_index payload];
    [by eapply version_ok_codes|done|done|done|].
  unfold init_payload. case_match; [rewrite len_slice by blen|rewrite Hl]; vm_compute; congruence.
Qed.

Lemma all_frames_ok v i start ss :
  version_ok v start → 0 ≤ start → log_ok start 0 ss →
  Forall frame_ok (all_frames v i start ss) ∧
  Forall (λ f, frame_version f = v) (all_frames v i start ss) ∧
  ascending None (all_frames v i start ss) ∧
  last_lsn None (all_frames v i start ss) = Some (log_last 0 ss).
Proof.
  intros Hv H0 Hlog. destruct (log_frames_ok v start 0 ss) as [O1 O2]; [by eapply version_ok_codes|done|].
  destruct (log_frames_ascending v 0 0 ss) as [A1 A2]; [by eapply log_ok_mono|].
  unfold all_frames. split_and!; try done; constructor; try done. by apply init_frame_ok.
Qed.

Definition scan_outcome (v : Z) (i : WalIdentity) (start : Lsn) (ss : list Segment) (n : Z) : WalScanResult :=
  mkScanResult (log_last 0 ss + 1) (log_batch 0 ss + 1) v start (commits ss)
    (mkReport (len (all_frames v i start ss)) (len (commits ss)) (total_pages (commits ss)) 0) n.

Lemma interpret_log v i start ss n :
  version_ok v start → identity_ok i → u64 start → log_ok start 0 ss →
  log_last 0 ss < U64_MAX → log_batch 0 ss < U64_MAX →
  interpret i (mkScanned (all_frames v i start ss) (Some (log_last 0 ss)) n) =
  Ok (scan_outcome v i start ss n).
Proof.
  intros Hv Hi Hst Hlog Hl Hb. unfold interpret. cbn [scanned_frames all_frames].
  cbn [init_frame record_type record_lsn frame_batch_id record_index frame_version payload].
  rewrite bool_decide_eq_true_2 by done. rsimpl. change (0 =? 0) with true. rsimpl.
  rewrite verify_identity_eq by done. rsimpl.
  destruct (replay_log v ss start start [] None 0) as (pend & Hr); [done|lia|done|].
  unfold replay_start. rewrite Hr. rsimpl.
  change (default 0 (previous_lsn (mkScanned (all_frames v i start ss) (Some (log_last 0 ss)) n)))
    with (log_last 0 ss). cbn [max_batch_id]. rewrite !checked_add_ok by lia. rsimpl.
  pose proof (log_batch_ge _ _ _ Hlog). rewrite Z.max_l by lia. done.
Qed.
End log.
End WalReplay.
