(* ===== verification/WalRecovery.v ===== *)
(** * Opening a log after a crash

    Scanning and opening a file that holds a well-formed log followed by whatever a
    crash left of one more frame: the complete frames are kept, the torn one is cut
    off, and the committed batches of the log are returned. *)

From S2P Require Import Prelude Wp Key Core Page Superblock DurableFile Wal WalFrames WalReplay.

Module WalRecovery.
Import Core DurableFile Wal WalFrames WalReplay.

Section recovery.
Context `{C : Crc32c} {CS : Crc32cSpec C} `{FS : DurableFileSpec F} `{JS : FaultInjectorSpec J}.
Implicit Types (f : F) (ss : list Segment).

Definition log_bytes (v : Z) (i : WalIdentity) (start : Lsn) ss : bytes :=
  images (all_frames v i start ss).

(** A file whose contents are a log and a torn frame. *)
Record holds_log (v : Z) (i : WalIdentity) (start : Lsn) ss (t b : bytes) : Prop := {
  hl_version : version_ok v start;
  hl_identity : identity_ok i;
  hl_start : u64 start;
  hl_log : log_ok start 0 ss;
  hl_last : log_last 0 ss < U64_MAX;
  hl_batch : log_batch 0 ss < U64_MAX;
  hl_torn : torn v t;
  hl_bytes : b = log_bytes v i start ss ++ t;
  hl_length : len b ≤ U64_MAX;
}.

Lemma length_images fs : Z.of_nat (length fs) ≤ len (images fs).
Proof.
  induction fs as [|x fs IH]; [done|]. rewrite images_cons, len_app, len_frame_image.
  pose proof (frame_size_pos x). cbn [length]. rewrite Nat2Z.inj_succ. blen.
Qed.

Lemma scan_wal_spec v i start ss t f :
  holds_log v i start ss t (volatile f) →
  wp (scan_wal i)
    (λ r f', same_file f f' ∧ r = scan_outcome v i start ss (len (log_bytes v i start ss)))
    (λ _, faulted f) f.
Proof.
  intros [Hv Hi Hst Hlog Hl Hb Ht Hbytes Hlen]. unfold scan_wal. wp_steps.
  pose proof (file_len_spec f) as Hfl. destruct (file_len f) as [n|e|k]; [|by split_and!|done].
  apply wp_lift. subst n. apply wp_bind.
  destruct (all_frames_ok v i start ss) as (O1 & O2 & O3 & O4); [done|apply Hst|done|].
  wp_use (scan_frames_spec v t (all_frames v i start ss) (S (Z.to_nat (len (volatile f)))) [] [] None f);
    [done|done|done|done|done|done| | |done].
  - pose proof (length_images (all_frames v i start ss)) as Hn.
    change (images _) with (log_bytes v i start ss) in Hn.
    assert (len (log_bytes v i start ss) ≤ len (volatile f)) by (rewrite Hbytes, len_app; blen). lia.
  - cbv beta. intros s f' [Hs ->]. apply wp_lift. rewrite app_nil_l, O4.
    rewrite interpret_log by done. split; [done|]. by rewrite len_nil.
Qed.
(** ** The open log *)

Record wal_rep (w : WalLog F) ss : Prop := {
  rep_version : version_ok (format_version w) (history_start_lsn w);
  rep_identity : identity_ok (identity w);
  rep_start : u64 (history_start_lsn w);
  rep_log : log_ok (history_start_lsn w) 0 ss;
  rep_bytes : volatile (file w) = log_bytes (format_version w) (identity w) (history_start_lsn w) ss;
  rep_committed : committed w = commits ss;
  rep_next : log_last 0 ss < next_lsn w ≤ U64_MAX;
  rep_batch : log_batch 0 ss < next_batch_id w ≤ U64_MAX;
}.

Lemma init_image v i start :
  frame_image (init_frame v i start) = log_bytes v i start [].
Proof. unfold log_bytes, all_frames. by rewrite images_cons, app_nil_r. Qed.

Lemma log_bytes_init v i start ss :
  log_bytes v i start ss = frame_image (init_frame v i start) ++ images (log_frames v ss).
Proof. done. Qed.

Lemma init_frame_size i start : frame_size (init_frame WAL_FORMAT_VERSION i start) = INIT_FRAME_SIZE.
Proof.
  unfold frame_size, init_frame. cbn [payload].
  change (init_payload WAL_FORMAT_VERSION i start) with (identity_payload i start).
  by rewrite len_identity_payload.
Qed.

(** A log that is shorter than the current initialization record is a legacy log,
    and differs from it in the version field. *)
Lemma short_log_not_torn v i start start' ss t :
  version_ok v start → len (log_bytes v i start ss ++ t) < INIT_FRAME_SIZE →
  log_bytes v i start ss ++ t ≠
  (frame_image (init_frame WAL_FORMAT_VERSION i start')).[0; len (log_bytes v i start ss ++ t)).
Proof.
  intros Hv Hlen Heq. rewrite log_bytes_init, len_app, len_app, len_frame_image in Hlen.
  pose proof (len_nonneg (images (log_frames v ss))). pose proof (len_nonneg t).
  destruct Hv as [-> | [-> ->]]; [rewrite init_frame_size in Hlen; lia|].
  assert (Hb : ∀ v i s r n, 6 ≤ n →
    ((frame_image (init_frame v i s) ++ r).[0; n)).[4; 6) = to_le 2 v).
  { intros v' i' s' r n Hn. rewrite slice_slice by lia. unfold frame_image. rewrite <-app_assoc.
    rewrite slice_app_l by (rewrite ?len_header_bytes; blen).
    unfold header_bytes, header_image. bslice. done. }
  assert (E : to_le 2 LEGACY_WAL_FORMAT_VERSION = to_le 2 WAL_FORMAT_VERSION); [|by vm_compute in E].
  set (b := log_bytes LEGACY_WAL_FORMAT_VERSION i 0 ss ++ t) in *.
  assert (Hn : 6 ≤ len b).
  { unfold b. rewrite log_bytes_init, !len_app, len_frame_image.
    pose proof (frame_size_pos (init_frame LEGACY_WAL_FORMAT_VERSION i 0)). blen. }
  rewrite <-(Hb LEGACY_WAL_FORMAT_VERSION i 0 (images (log_frames LEGACY_WAL_FORMAT_VERSION ss) ++ t) (len b) Hn).
  rewrite <-(Hb WAL_FORMAT_VERSION i start' [] (len b) Hn), app_nil_r, <-Heq.
  rewrite app_assoc, <-log_bytes_init. fold b. by rewrite slice_full by lia.
Qed.

Lemma torn_init_spec i start f n :
  0 ≤ n → n = len (volatile f) → n ≤ U64_MAX →
  wp (is_torn_initialization_prefix i start n)
    (λ b f', same_file f f' ∧
       (b = true ↔ n < INIT_FRAME_SIZE ∧
          volatile f = (frame_image (init_frame WAL_FORMAT_VERSION i start)).[0; n)))
    (λ _, faulted f) f.
Proof.
  intros Hn Hl Hu. unfold is_torn_initialization_prefix.
  assert (Hv : version_ok WAL_FORMAT_VERSION start) by (by left).
  pose proof (encode_frame_eq _ (init_frame_ok _ i start Hv)) as He.
  cbn [init_frame frame_version record_type record_lsn frame_batch_id record_index payload] in He.
  change (init_payload WAL_FORMAT_VERSION i start) with (identity_payload i start) in He.
  apply wp_bind, (wp_lift_ok _ _ _ _ _ He). clear He.
  change (mkFrame _ _ _ _ _ _) with (init_frame WAL_FORMAT_VERSION i start).
  rewrite len_frame_image, init_frame_size.
  destruct (Z.leb_spec INIT_FRAME_SIZE n) as [Hle|Hlt].
  { apply wp_ret. split; [done|]. split; [done|]. intros [? _]. lia. }
  apply wp_bind. wp_use (wal_read_exact f 0 n); [done|done|lia|lia| |done].
  intros b f' [Hs ->]. apply wp_ret. split; [done|]. rewrite bytes_eqb_spec, Z.add_0_l, slice_full by lia.
  split; [intros ->|]; naive_solver.
Qed.
(** ** Opening an existing log *)

Lemma wp_opening {A} (m : St F Error A) Q X f (j : option J) :
  wp m (λ a f', Q a (f', j)) (λ e f', X e (f', j)) f → wp (opening m) Q X (f, j).
Proof. intros Hm. apply wp_zoom. exact Hm. Qed.

Lemma wp_opening_hit point Q X f (j : option J) :
  (∀ j', (j = None → j' = None) → Q tt (f, j')) → (∀ e j', j ≠ None → X e (f, j')) →
  wp (opening_hit point) Q X (f, j).
Proof. intros HQ HX. apply wp_zoom. by apply wp_hit. Qed.

Definition still_log (v : Z) (i : WalIdentity) (start : Lsn) ss (b : bytes) : Prop :=
  ∃ t, torn v t ∧ b = log_bytes v i start ss ++ t.

(** What a failed open leaves behind: the same log, perhaps already cut. *)
Definition open_failed v i start ss f (j : option J) (s : F * option J) : Prop :=
  still_log v i start ss (volatile s.1) ∧ still_log v i start ss (durable s.1) ∧
  (¬ reliable f ∨ j ≠ None).

Lemma resize_shorter b t : resize (b ++ t) (len b) = b.
Proof.
  unfold resize, zeros. rewrite len_app. pose proof (len_nonneg t).
  replace (Z.to_nat (len b - (len b + len t))) with 0%nat by lia. simpl.
  rewrite app_nil_r. unfold len. rewrite Nat2Z.id. by rewrite take_app_length.
Qed.

Lemma truncate_spec v i start ss t f (j : option J) :
  torn v t → volatile f = log_bytes v i start ss ++ t → durable f = volatile f →
  wp (if len (log_bytes v i start ss) <? len (volatile f) then
        opening_hit "before_wal_tail_truncate";;
        opening (set_len (len (log_bytes v i start ss)));;
        opening (map_err_st (λ _, DurabilityFailure "WAL torn-tail truncation sync failed: {error}")
                   sync_data);;
        opening_hit "after_wal_tail_truncate"
      else mret tt)
    (λ _ s, volatile s.1 = log_bytes v i start ss ∧ durable s.1 = log_bytes v i start ss ∧
       (reliable f → reliable s.1) ∧ (j = None → s.2 = None))
    (λ _, open_failed v i start ss f j) (f, j).
Proof.
  intros Ht Hb Hd.
  assert (Hold : still_log v i start ss (volatile f)) by (by exists t).
  assert (Hnew : still_log v i start ss (log_bytes v i start ss))
    by (exists []; split; [by left|by rewrite app_nil_r]).
  destruct (Z.ltb_spec (len (log_bytes v i start ss)) (len (volatile f))) as [Hlt|Hge]; last first.
  { apply wp_ret. cbn. rewrite Hd, Hb in *. rewrite len_app in Hge.
    rewrite (len_zero_nil t), app_nil_r by blen. by split_and!. }
  apply wp_bind, wp_opening_hit; [|intros e j' Hj; split_and!; cbn; [done|by rewrite Hd|by right]].
  intros j1 Hj1. apply wp_bind, wp_opening. wp_use (set_len_spec f (len (log_bytes v i start ss))); [blen| |].
  2: { intros e f' (V & D & R). split_and!; cbn; [by rewrite V|by rewrite D, Hd|by left]. }
  cbv beta. intros _ f1 (V1 & D1 & R1). rewrite Hb, resize_shorter in V1.
  apply wp_bind, wp_opening, wp_map_err. wp_use (sync_data_spec f1).
  2: { intros e f' (V & D & R). split_and!; cbn; [by rewrite V, V1|by rewrite D, D1, Hd|left; tauto]. }
  cbv beta. intros _ f2 (V2 & D2 & R2). apply wp_opening_hit.
  - intros j2 Hj2. cbn. rewrite V2, D2, V1. split_and!; [done..|tauto|tauto].
  - intros e j2 Hj2. split_and!; cbn; [by rewrite V2, V1|by rewrite D2, V1|]. right. intros ->. tauto.
Qed.

(** The counters of a log that was just opened. *)
Record just_opened (w : WalLog F) (j j' : option J) : Prop := {
  jo_syncs : sync_count w = 0;
  jo_records : 0 ≤ records_scanned (scan_report w) ≤ len (volatile (file w));
  jo_images : 0 ≤ page_images w ≤ len (volatile (file w));
  jo_injector : j = None → j' = None;
}.

Lemma len_page_frames v bid first k ps : len (page_frames v bid first k ps) = len ps.
Proof. revert k. induction ps as [|p ps IH]; intros k; [done|]. cbn [page_frames]. by rewrite !len_cons, IH. Qed.

Lemma total_pages_bound v ss : 0 ≤ total_pages (commits ss) ≤ len (log_frames v ss).
Proof.
  induction ss as [|s ss IH]; [done|].
  change (commits (s :: ss)) with (seg_commit s ++ commits ss).
  change (log_frames v (s :: ss)) with (seg_frames v s ++ log_frames v ss). rewrite len_app.
  unfold seg_frames, seg_commit. destruct (seg_done s); rewrite len_app, len_page_frames.
  - pose proof (len_nonneg (seg_pages s)). change (len [commit_frame v s]) with 1.
    change (total_pages (_ ++ commits ss)) with (len (seg_pages s) + total_pages (commits ss)). lia.
  - rewrite app_nil_l. change (len (@nil Frame)) with 0. pose proof (len_nonneg (seg_pages s)). lia.
Qed.

Lemma open_spec v i start start' ss t f (j : option J) :
  holds_log v i start ss t (volatile f) → durable f = volatile f →
  wp (open i start')
    (λ w s, file w = s.1 ∧ wal_rep w ss ∧ identity w = i ∧ format_version w = v ∧
       history_start_lsn w = start ∧
       next_lsn w = log_last 0 ss + 1 ∧ next_batch_id w = log_batch 0 ss + 1 ∧
       durable (file w) = volatile (file w) ∧ (reliable f → reliable (file w)) ∧ just_opened w j s.2)
    (λ _, open_failed v i start ss f j) (f, j).
Proof.
  intros Hh Hd. destruct (id Hh) as [Hv Hi Hst Hlog Hl Hb Ht Hbytes Hlen].
  assert (Hold : still_log v i start ss (volatile f)) by (by exists t).
  assert (Hfail : ∀ f', faulted f f' → open_failed v i start ss f j (f', j)).
  { intros f' (V & D & R). split_and!; cbn; [by rewrite V|by rewrite D, Hd|by left]. }
  unfold open. wp_steps. cbn [fst]. pose proof (file_len_spec f) as Hfl.
  destruct (file_len f) as [n|e|k]; [|apply wp_lift, Hfail; by split_and!|done].
  apply wp_lift. subst n.
  assert (Hpos : 0 < len (volatile f)).
  { rewrite Hbytes, log_bytes_init, !len_app, len_frame_image.
    pose proof (frame_size_pos (init_frame v i start)). blen. }
  destruct (Z.eqb_spec (len (volatile f)) 0); [lia|].
  apply wp_bind. apply (wp_mono _ (λ b s, b = false ∧ ∃ f1, s = (f1, j) ∧ same_file f f1) _
    (λ _ s, ∃ f1, s = (f1, j) ∧ faulted f f1)).
  { destruct (Z.ltb_spec (len (volatile f)) INIT_FRAME_SIZE) as [Hlt|_].
    2: { apply wp_ret. split; [done|]. by exists f. }
    apply wp_opening. wp_use (torn_init_spec i start' f (len (volatile f))); [lia|done|done| |eauto].
    cbv beta. intros b f1 [Hs Hbool]. split; [|by exists f1]. destruct b; [|done].
    destruct (proj1 Hbool eq_refl) as [_ Heq]. exfalso. rewrite Hbytes in Heq, Hlt.
    by eapply short_log_not_torn. }
  2: { intros e s (f1 & -> & Hf). by apply Hfail. }
  cbv beta. intros b s [-> (f1 & -> & V1 & D1 & R1)]. apply wp_bind, wp_opening.
  wp_use (scan_wal_spec v i start ss t f1); [by rewrite V1| |].
  2: { intros e f' Hf. apply Hfail. eapply faulted_trans; [|exact Hf]. by split_and!. }
  cbv beta. intros r f2 [(V2 & D2 & R2) ->]. cbn [scan_outcome result_valid_length].
  apply wp_bind. rewrite V1 in V2. rewrite <-V2.
  wp_use (truncate_spec v i start ss t f2 j); [done|congruence|congruence| |].
  2: { intros e s (S1 & S2 & S3). split_and!; [done..|tauto]. }
  cbv beta. intros _ s (V3 & D3 & R3 & J3). wp_steps.
  cbn [file identity format_version history_start_lsn next_lsn next_batch_id scan_outcome
    result_format_version result_next_lsn result_next_batch_id result_history_start].
  assert (Hfr : len (all_frames v i start ss) ≤ len (volatile s.1)) by (rewrite V3; apply length_images).
  split_and!; try done; [|by rewrite D3|tauto|].
  2:{ pose proof (total_pages_bound v ss). pose proof (len_nonneg (all_frames v i start ss)).
      assert (len (all_frames v i start ss) = 1 + len (log_frames v ss)) by apply len_cons.
      split; cbn [sync_count records_scanned scan_report page_images file result_report scan_outcome replayable_pages];
        [done|lia|lia|tauto]. }
  split; cbn [file identity format_version history_start_lsn next_lsn next_batch_id committed
    result_format_version result_next_lsn result_next_batch_id result_history_start
    result_committed]; try done; lia.
Qed.
End recovery.
End WalRecovery.
