(* ===== verification/WalAppend.v ===== *)
(** * Appending to the log

    The append path writes the frames of a group one after the other at the end of
    the file.  Whatever interrupts it (an I/O error, a short write, a fault point),
    the file holds the old log and a prefix of the frames of the group. *)

From S2P Require Import Prelude Wp Key Core Page Superblock DurableFile Wal WalFrames WalReplay.
From S2P Require Import WalRecovery.

Module WalAppend.
Import Core DurableFile Wal WalFrames WalReplay WalRecovery.

Section append.
Context `{C : Crc32c} {CS : Crc32cSpec C} `{FS : DurableFileSpec F} `{JS : FaultInjectorSpec J}.
Implicit Types (f : F) (w : WalLog F) (j : option J).

(** Only the file changed, and [b] was added at its end. *)
Record wrote (b : bytes) (s s' : WalLog F * option J) : Prop := {
  wrote_fields : s'.1 = set_file (file s'.1) s.1;
  wrote_bytes : volatile (file s'.1) = volatile (file s.1) ++ b;
  wrote_durable : durable (file s'.1) = durable (file s.1);
  wrote_reliable : reliable (file s.1) → reliable (file s'.1);
  wrote_injector : s.2 = None → s'.2 = None;
}.

(** A prefix of [b] was added, and something prevented the rest: [R], a fault of the
    file, a fault point, or a file that would outgrow 64-bit offsets with [n] more
    bytes. *)
Record partly_wrote (R : Prop) (n : Z) (b : bytes) (s s' : WalLog F * option J) : Prop := {
  partly_fields : s'.1 = set_file (file s'.1) s.1;
  partly_bytes : ∃ k, 0 ≤ k ≤ len b ∧ volatile (file s'.1) = volatile (file s.1) ++ b.[0; k);
  partly_durable : durable (file s'.1) = durable (file s.1);
  partly_reason : R ∨ ¬ reliable (file s.1) ∨ s.2 ≠ None ∨ U64_MAX < len (volatile (file s.1)) + n;
}.

Lemma set_file_file w : set_file (file w) w = w.
Proof. by destruct w. Qed.
Lemma set_file_set_file f f' w : set_file f (set_file f' w) = set_file f w.
Proof. done. Qed.

Lemma wrote_nil s : wrote [] s s.
Proof. split; [by rewrite set_file_file|by rewrite app_nil_r|done..]. Qed.
Lemma partly_nil (R : Prop) n b s :
  R ∨ ¬ reliable (file s.1) ∨ s.2 ≠ None ∨ U64_MAX < len (volatile (file s.1)) + n →
  partly_wrote R n b s s.
Proof.
  intros. split; [by rewrite set_file_file| |done|done].
  exists 0. split; [blen|]. by rewrite slice_nil, app_nil_r.
Qed.

Lemma wrote_trans b1 b2 s1 s2 s3 : wrote b1 s1 s2 → wrote b2 s2 s3 → wrote (b1 ++ b2) s1 s3.
Proof.
  intros [A1 A2 A3 A4 A5] [B1 B2 B3 B4 B5]. split; [|by rewrite B2, A2, app_assoc|congruence|auto..].
  rewrite B1, A1. done.
Qed.

(** A failure in the second of two writes. *)
Lemma partly_trans R n b1 b2 s1 s2 s3 :
  wrote b1 s1 s2 → partly_wrote R n b2 s2 s3 → partly_wrote R (len b1 + n) (b1 ++ b2) s1 s3.
Proof.
  intros [A1 A2 A3 A4 A5] [B1 (k & Hk & B2) B3 B4]. split.
  - rewrite B1, A1. done.
  - exists (len b1 + k). rewrite len_app. pose proof (len_nonneg b1). split; [lia|].
    rewrite B2, A2, <-app_assoc. f_equal. rewrite (slice_split (b1 ++ b2) 0 (len b1)) by lia.
    rewrite slice_app_l, slice_app_r, (slice_full b1) by lia.
    by rewrite Z.sub_diag, Z.add_simpl_l.
  - congruence.
  - rewrite A2, len_app in B4.
    destruct B4 as [?|[?|[?|?]]]; [by left|right; left; tauto|right; right; left; tauto|].
    right; right; right. lia.
Qed.

(** A failure in the first of two writes. *)
Lemma partly_more R n n' b1 b2 s1 s2 :
  partly_wrote R n b1 s1 s2 → n ≤ n' → partly_wrote R n' (b1 ++ b2) s1 s2.
Proof.
  intros [A1 (k & Hk & A2) A3 A4] Hn. pose proof (len_nonneg b2). split; [done| |done|].
  - exists k. rewrite len_app. split; [lia|]. by rewrite slice_app_l by lia.
  - destruct A4 as [?|[?|[?|?]]]; auto. right; right; right; lia.
Qed.

Lemma partly_mono (R R' : Prop) n n' b s1 s2 :
  partly_wrote R n b s1 s2 → (R → R') → n ≤ n' → partly_wrote R' n' b s1 s2.
Proof.
  intros [A1 A2 A3 A4] HR Hn. split; [done..|].
  destruct A4 as [?|[?|[?|?]]]; auto. right; right; right; lia.
Qed.

(** Stopping after a complete write. *)
Lemma wrote_partly (R : Prop) n b s1 s2 :
  wrote b s1 s2 → R ∨ s1.2 ≠ None ∨ U64_MAX < len (volatile (file s1.1)) + n →
  partly_wrote R n b s1 s2.
Proof.
  intros [A1 A2 A3 A4 A5] HR. split; [done| |done|tauto].
  exists (len b). split; [blen|]. by rewrite slice_full by lia.
Qed.

Lemma write_end_spec data w j o :
  o = len (volatile (file w)) →
  wp (on_file (write_all_at o data)) (λ _, wrote data (w, j)) (λ _, partly_wrote False (len data) data (w, j)) (w, j).
Proof.
  intros ->. apply wp_zoom. cbn [fst].
  wp_use (write_loop_spec (checked_offset (InvalidInput "WAL write offset overflows"))
    (Io WriteZero "WAL returned a zero-byte write") (S (length data))
    (len (volatile (file w))) 0 data (file w) (volatile (file w))).
  - blen.
  - apply checked_offset_ok.
  - blen.
  - rewrite slice_nil. by rewrite write_bytes_nil.
  - unfold len. lia.
  - cbv beta. intros _ f' (V & D & R). rewrite write_bytes_append in V. by split.
  - cbv beta. intros e f' ((c & Hc & V) & D & R). rewrite write_bytes_append in V. split; try done.
    + by exists c.
    + cbn. destruct (Z.lt_ge_cases U64_MAX (len (volatile (file w)) + len data)); [by auto|].
      right. left. intros Hr. apply R in Hr. lia.
Qed.

Lemma hit_point_spec point w j (Q : unit → WalLog F * option J → Prop) (X : Error → WalLog F * option J → Prop) :
  (∀ j', (j = None → j' = None) → Q tt (w, j')) → (∀ e j', j ≠ None → X e (w, j')) →
  wp (hit_point point) Q X (w, j).
Proof. intros HQ HX. apply wp_zoom. by apply wp_hit. Qed.

(** A fault point between two writes. *)
Lemma hit_wrote point b s1 w j (Q : unit → WalLog F * option J → Prop) (X : Error → WalLog F * option J → Prop) b' :
  wrote b s1 (w, j) →
  (∀ j', wrote b s1 (w, j') → Q tt (w, j')) →
  (∀ e j', partly_wrote False (len (b ++ b')) (b ++ b') s1 (w, j') → X e (w, j')) →
  wp (hit_point point) Q X (w, j).
Proof.
  intros [W1 W2 W3 W4 W5] HQ HX. apply hit_point_spec.
  - intros j' Hj. apply HQ. split; [done..|]. auto.
  - intros e j' Hj. apply HX. apply (partly_more _ (len b)); [|rewrite len_app; blen].
    destruct (wrote_partly False (len b) b s1 (w, j)) as [P1 P2 P3 P4]; [by split| |by split].
    right. left. intros Hn. by apply Hj, W5.
Qed.

(** One write of a larger record: the writes so far are [b], the rest is [b']. *)
Lemma write_wrote o data b b' s1 w j (Q : unit → WalLog F * option J → Prop) (X : Error → WalLog F * option J → Prop) :
  wrote b s1 (w, j) → o = len (volatile (file s1.1)) + len b →
  (∀ w' j', wrote (b ++ data) s1 (w', j') → Q tt (w', j')) →
  (∀ e s, partly_wrote False (len (b ++ data ++ b')) (b ++ data ++ b') s1 s → X e s) →
  wp (on_file (write_all_at o data)) Q X (w, j).
Proof.
  intros W Ho HQ HX. wp_use (write_end_spec data w j o).
  - rewrite Ho. pose proof (wrote_bytes _ _ _ W) as Hb. cbn in Hb. by rewrite Hb, len_app.
  - intros [] [w' j'] W'. apply HQ. by eapply wrote_trans.
  - intros e s W'. apply HX. rewrite app_assoc. eapply partly_more; [exact (partly_trans _ _ _ _ _ _ _ W W')|]. rewrite !len_app. blen.
Qed.

(** The offset of the next write, computed with overflow check. *)
Lemma offset_wrote o k (e : Error) b b' s1 s (Q : Z → WalLog F * option J → Prop) (X : Error → WalLog F * option J → Prop) :
  wrote b s1 s → o = len (volatile (file s1.1)) → k = len b →
  Q (o + k) s → (partly_wrote False (len (b ++ b')) (b ++ b') s1 s → X e s) →
  wp (lift_r (ok_or (checked_add o k) e)) Q X s.
Proof.
  intros [W1 W2 W3 W4 W5] -> -> HQ HX. apply wp_lift. unfold checked_add.
  destruct (Z.leb_spec (len (volatile (file s1.1)) + len b) U64_MAX); [done|]. apply HX.
  apply (partly_more _ (len b)); [|rewrite len_app; blen]. apply wrote_partly; [by split|]. by right; right.
Qed.

Lemma frame_parts x :
  index_range (E:=Error) (frame_image x) 0 WAL_HEADER_SIZE = Ok (header_bytes x) ∧
  index_range (E:=Error) (frame_image x) WAL_HEADER_SIZE (WAL_HEADER_SIZE + len (payload x)) = Ok (payload x) ∧
  index_range (E:=Error) (frame_image x) (WAL_HEADER_SIZE + len (payload x)) (len (frame_image x)) =
    Ok (to_le 4 (frame_size x)).
Proof.
  pose proof (len_header_bytes x) as Hh. pose proof (len_nonneg (payload x)).
  destruct (frame_slices [] x [] (frame_image x)) as (S1 & S2 & S3); [by rewrite app_nil_r|].
  rewrite len_nil, !Z.add_0_l in *. rewrite len_frame_image.
  rewrite !index_range_ok by (rewrite ?len_frame_image; unfold frame_size; blen).
  unfold frame_size at 1. by rewrite S1, S2, S3.
Qed.

Lemma append_frame_spec t lsn bid index data w j :
  let x := mkFrame (format_version w) t lsn bid index data in
  frame_ok x →
  wp (append_frame t lsn bid index data)
    (λ n s, n = frame_size x ∧ wrote (frame_image x) (w, j) s)
    (λ _, partly_wrote False (frame_size x) (frame_image x) (w, j)) (w, j).
Proof.
  intros x Hx. pose proof (encode_frame_eq x Hx) as He.
  cbn [x frame_version record_type record_lsn frame_batch_id record_index payload] in He. fold x in He.
  rewrite <-len_frame_image. unfold append_frame, wal. wp_steps. cbn [fst]. apply (wp_lift_ok _ _ _ _ _ He). clear He.
  apply wp_bind. pose proof (file_len_spec (file w)) as Hfl.
  destruct (file_len (file w)) as [n|e|k]; [|apply wp_lift, partly_nil; by right; left|done].
  apply wp_lift. subst n.
  assert (Hparts : frame_image x = header_bytes x ++ data ++ to_le 4 (frame_size x)) by done.
  destruct (frame_parts x) as (P1 & P2 & P3). cbn [x payload] in P2, P3.
  apply wp_bind. eapply (hit_wrote _ [] (w, j) w j); [apply wrote_nil| |done].
  intros j1 W0. apply wp_bind, (wp_lift_ok _ _ _ _ _ P1).
  apply wp_bind. eapply (write_wrote _ _ [] (data ++ to_le 4 (frame_size x))); [done| | |done].
  { cbn. rewrite len_nil. lia. }
  rewrite app_nil_l. intros w1 j2 W1. apply wp_bind.
  eapply (hit_wrote _ (header_bytes x)); [done| |done]. intros j3 W2. apply wp_bind.
  eapply offset_wrote; [done|done|by rewrite len_header_bytes| |done].
  apply wp_bind, (wp_lift_ok _ _ _ _ _ P2). apply wp_bind.
  eapply (write_wrote _ _ _ (to_le 4 (frame_size x))); [done|by rewrite len_header_bytes| |done].
  intros w2 j4 W3. rewrite Hparts, app_assoc in *. apply wp_bind.
  eapply (hit_wrote _ (header_bytes x ++ data)); [done| |done]. intros j5 W4. apply wp_bind.
  eapply offset_wrote; [done|done|by rewrite len_app, len_header_bytes| |done].
  apply wp_bind, (wp_lift_ok _ _ _ _ _ P3). apply wp_bind.
  eapply (write_wrote _ _ _ []); [done|by rewrite len_app, len_header_bytes| |by rewrite app_nil_r].
  intros w3 j6 W5. apply wp_ret. split; [|done].
  rewrite !len_app, len_header_bytes, len_to_le. unfold frame_size. cbn [x payload]. blen.
Qed.
(** ** The page images of a commit *)

(** [\[u8; PAGE_SIZE\]] and [PageId]. *)
Definition image_typed (p : WalPageImage) : Prop :=
  u64 (image_page_id p) ∧ len (image p) = Page.PAGE_SIZE.

Definition page_valid (lsn : Lsn) (p : WalPageImage) : Prop :=
  validate_page_image p = Ok tt ∧ validate_page_image_lsn p lsn = Ok tt.

Lemma validate_page_image_returns p : returns (validate_page_image p).
Proof.
  unfold validate_page_image. destruct (is_superblock_page _).
  - destruct (Superblock.decode_superblock (image p)) eqn:E; try done.
    by apply Superblock.decode_superblock_not_stuck in E.
  - by destruct (Page.decode_page_at_inv (image p) (Some (image_page_id p))) as [[e ->]|(t & -> & _)].
Qed.
Lemma validate_page_image_lsn_returns p lsn :
  len (image p) = Page.PAGE_SIZE → returns (validate_page_image_lsn p lsn).
Proof.
  intros Hl. unfold validate_page_image_lsn. destruct (is_superblock_page _); [done|].
  rewrite index_range_ok by (rewrite ?Hl; vm_compute; congruence). rsimpl. unfold fail_if. by destruct (negb _).
Qed.

Lemma page_images_grow v bid first i qs q :
  len (images (page_frames v bid first i qs)) ≤ len (images (page_frames v bid first i (qs ++ q))).
Proof.
  revert i. induction qs as [|x qs IH]; intros i; simpl; [unfold images at 1; simpl; rewrite len_nil; blen|].
  rewrite !images_cons, !len_app. specialize (IH (i + 1)). lia.
Qed.

Lemma append_pages_spec c first ps0 ps s0 w j :
  let v := format_version s0.1 in let bid := commit_batch_id c in
  v = WAL_FORMAT_VERSION ∨ v = LEGACY_WAL_FORMAT_VERSION → u64 bid → 0 ≤ first →
  first + len (ps0 ++ ps) ≤ U64_MAX → len (ps0 ++ ps) ≤ U32_MAX →
  Forall image_typed (ps0 ++ ps) → Forall (page_valid (commit_lsn c)) ps0 →
  wrote (images (page_frames v bid first 0 ps0)) s0 (w, j) →
  wp (append_pages c first (len ps0) ps (digest ps0) (len (images (page_frames v bid first 0 ps0))))
    (λ '(d, n) s, d = digest (ps0 ++ ps) ∧ n = len (images (page_frames v bid first 0 (ps0 ++ ps))) ∧
       Forall (page_valid (commit_lsn c)) (ps0 ++ ps) ∧
       wrote (images (page_frames v bid first 0 (ps0 ++ ps))) s0 s)
    (λ _ s, ∃ k, Forall image_ok (take k (ps0 ++ ps)) ∧
       partly_wrote (¬ Forall (page_valid (commit_lsn c)) (ps0 ++ ps))
         (len (images (page_frames v bid first 0 (ps0 ++ ps))))
         (images (page_frames v bid first 0 (take k (ps0 ++ ps)))) s0 s) (w, j).
Proof.
  intros v bid Hv Hb Hf. revert ps0 w j. induction ps as [|p ps IH]; intros ps0 w j Hl Hl32 Hty Hok W.
  { apply wp_ret. by rewrite app_nil_r. }
  cbn [append_pages].
  assert (Hok0 : Forall image_ok ps0).
  { apply Forall_app in Hty as [Hty _]. rewrite Forall_forall in Hty, Hok |- *.
    intros q Hq. destruct (Hty q Hq), (Hok q Hq). by split_and!. }
  assert (Htyp : image_typed p) by (apply Forall_app in Hty as [_ Hty]; by inversion Hty).
  pose proof (λ q qs, page_images_grow v bid first 0 qs q) as Hbytes.
  assert (Hinvalid : ¬ page_valid (commit_lsn c) p → ∃ k, Forall image_ok (take k (ps0 ++ p :: ps)) ∧
    partly_wrote (¬ Forall (page_valid (commit_lsn c)) (ps0 ++ p :: ps))
      (len (images (page_frames v bid first 0 (ps0 ++ p :: ps))))
      (images (page_frames v bid first 0 (take k (ps0 ++ p :: ps)))) s0 (w, j)).
  { intros Hbad. exists (length ps0). rewrite take_app_length. split; [done|].
    apply wrote_partly; [done|]. left. intros Hall. apply Forall_app in Hall as [_ Hall].
    by inversion Hall. }
  apply wp_bind, wp_lift. pose proof (validate_page_image_lsn_returns p (commit_lsn c) (proj2 Htyp)) as Hr1.
  destruct (validate_page_image_lsn p (commit_lsn c)) as [[]|e|k] eqn:E1; [|apply Hinvalid; intros [_ ?]; congruence|done].
  apply wp_bind, wp_lift. unfold encode_page_image.
  pose proof (validate_page_image_returns p) as Hr2.
  destruct (validate_page_image p) as [[]|e|k] eqn:E2; rsimpl; [|apply Hinvalid; intros [? _]; congruence|done].
  change (to_le 8 (image_page_id p) ++ image p) with (page_payload p).
  rewrite len_app, len_cons in Hl, Hl32. pose proof (len_nonneg ps0). pose proof (len_nonneg ps).
  apply wp_bind, (wp_lift_ok _ (first + len ps0)); [by rewrite checked_add_ok by lia|].
  apply wp_bind, wp_fail_when; [intros Hlt; apply Z.ltb_lt in Hlt; lia|intros _].
  assert (Hpok : image_ok p) by (destruct Htyp; by split_and!).
  assert (Hvw : format_version w = v) by (pose proof (wrote_fields _ _ _ W) as Hw; cbn in Hw; by rewrite Hw).
  assert (Hsnoc : images (page_frames v bid first 0 (ps0 ++ [p])) =
    images (page_frames v bid first 0 ps0) ++
    frame_image (mkFrame v PageImage (first + len ps0) bid (len ps0) (page_payload p))).
  { rewrite page_frames_snoc, images_app, Z.add_0_l, images_cons. unfold images at 3. simpl.
    by rewrite app_nil_r. }
  assert (Hassoc : ps0 ++ p :: ps = (ps0 ++ [p]) ++ ps) by (by rewrite <-app_assoc).
  apply wp_bind. wp_use (append_frame_spec PageImage (first + len ps0) bid (len ps0) (page_payload p) w j).
  - rewrite Hvw. split_and!; cbn [frame_version record_lsn frame_batch_id record_index payload];
      [done|ulia|done|ulia|rewrite len_page_payload by done; vm_compute; congruence].
  - cbv beta. rewrite Hvw. intros n [w1 j1] [-> W1]. pose proof (wrote_trans _ _ _ _ _ W W1) as W2.
    rewrite <-Hsnoc in W2. apply wp_bind, wp_lift. unfold checked_add.
    rewrite <-len_frame_image, <-len_app, <-Hsnoc.
    destruct (Z.leb_spec (len (images (page_frames v bid first 0 (ps0 ++ [p])))) U64_MAX) as [Hle|Hgt].
    + cbn [ok_or]. replace (len ps0 + 1) with (len (ps0 ++ [p])) by (rewrite len_app, len_cons, len_nil; lia).
      replace (digest ps0 ++ page_payload p) with (digest (ps0 ++ [p]))
        by (unfold digest; rewrite fmap_app, concat_app; simpl; by rewrite app_nil_r).
      rewrite Hassoc. apply IH; try done.
      * rewrite !len_app, len_cons, len_nil. lia.
      * rewrite !len_app, len_cons, len_nil. lia.
      * by rewrite <-Hassoc.
      * apply Forall_app. split; [done|]. by repeat constructor.
    + cbn [ok_or]. exists (S (length ps0)). rewrite Hassoc, take_app_le by (rewrite length_app; simpl; lia).
      rewrite take_ge by (rewrite length_app; simpl; lia). split.
      { apply Forall_app. split; [done|]. by apply Forall_singleton. }
      apply wrote_partly; [done|]. right. right. specialize (Hbytes ps (ps0 ++ [p])). blen.
  - cbv beta. rewrite Hvw. intros e s W1. exists (S (length ps0)).
    rewrite Hassoc, take_app_le by (rewrite length_app; simpl; lia).
    rewrite take_ge by (rewrite length_app; simpl; lia). split.
    { apply Forall_app. split; [done|]. by apply Forall_singleton. }
    rewrite Hsnoc. eapply partly_mono; [exact (partly_trans _ _ _ _ _ _ _ W W1)|done|].
    rewrite <-len_frame_image, <-len_app, <-Hsnoc. apply Hbytes.
Qed.
(** ** One commit *)

Definition commit_typed (c : WalCommit) : Prop :=
  Forall image_typed (commit_pages c) ∧ u64 (commit_batch_id c) ∧ len (commit_pages c) ≤ U32_MAX.

(** What [append_group_commit] checks of a commit. *)
Definition commit_valid (first : Lsn) (bid : Z) (c : WalCommit) : Prop :=
  commit_pages c ≠ [] ∧ commit_batch_id c = bid ∧ commit_lsn c = first + len (commit_pages c) ∧
  commit_lsn c ≤ U64_MAX ∧ Forall (page_valid (commit_lsn c)) (commit_pages c).

Definition segment_of (first : Lsn) (c : WalCommit) : Segment :=
  mkSegment first (commit_batch_id c) (commit_pages c) true.

Lemma segment_ok first bid c :
  commit_typed c → 0 ≤ first → commit_valid first bid c → seg_ok (segment_of first c).
Proof.
  intros (Hty & Hb & Hn) Hf (Hne & _ & Hl & Hu & Hv).
  split_and!; cbn [segment_of seg_pages seg_first seg_batch seg_done]; try done; try lia.
  - rewrite Forall_forall in Hty, Hv |- *. intros p Hp. destruct (Hty p Hp), (Hv p Hp). by split_and!.
  - intros _. unfold stamped. cbn [segment_of seg_pages seg_first]. rewrite <-Hl.
    eapply Forall_impl; [exact Hv|]. by intros p [_ ?].
Qed.

Lemma images_nil : images [] = [].
Proof. done. Qed.
Lemma log_images_one v s : images (log_frames v [s]) = images (seg_frames v s).
Proof. unfold log_frames. simpl. by rewrite app_nil_r. Qed.

(** Stopping in the middle of a commit. *)
Definition commit_stopped v first bid c (s0 s : WalLog F * option J) : Prop :=
  ∃ ss m, log_ok (first - 1) (bid - 1) ss ∧
    log_last (first - 1) ss ≤ first + len (commit_pages c) ∧ log_batch (bid - 1) ss ≤ bid ∧
    commits ss = take m [committed_of c] ∧
    partly_wrote (¬ commit_valid first bid c) (len (images (seg_frames v (segment_of first c))))
      (images (log_frames v ss)) s0 s.

Lemma commit_rejected v first bid c s0 :
  ¬ commit_valid first bid c → commit_stopped v first bid c s0 s0.
Proof.
  intros Hc. exists [], 0%nat. pose proof (len_nonneg (commit_pages c)).
  split_and!; [done|simpl; lia|simpl; lia|done|]. apply partly_nil. by left.
Qed.

(** Stopping in the page images of a commit that passed the checks in front of them. *)
Lemma pages_stopped v first bid c k s0 s :
  commit_typed c → 0 ≤ first → commit_batch_id c = bid →
  first + len (commit_pages c) ≤ U64_MAX → Forall image_ok (take k (commit_pages c)) →
  partly_wrote (¬ Forall (page_valid (commit_lsn c)) (commit_pages c))
    (len (images (page_frames v bid first 0 (commit_pages c))))
    (images (page_frames v bid first 0 (take k (commit_pages c)))) s0 s →
  commit_stopped v first bid c s0 s.
Proof.
  intros (Hty & Hb & Hn) Hf Hbid Hu Hok W.
  assert (Hlen : len (images (page_frames v bid first 0 (commit_pages c))) ≤
    len (images (seg_frames v (segment_of first c)))).
  { unfold seg_frames. cbn [segment_of seg_batch seg_first seg_pages]. rewrite Hbid, images_app, len_app. blen. }
  assert (HR : ¬ Forall (page_valid (commit_lsn c)) (commit_pages c) → ¬ commit_valid first bid c)
    by (intros Hx (_ & _ & _ & _ & ?); done).
  destruct (take k (commit_pages c)) as [|p ps] eqn:Et.
  { exists [], 0%nat. pose proof (len_nonneg (commit_pages c)).
    split_and!; [done|simpl; lia|simpl; lia|done|]. eapply partly_mono; [exact W|done|done]. }
  assert (Hle : len (p :: ps) ≤ len (commit_pages c)) by (rewrite <-Et; unfold len; rewrite length_take; lia).
  exists [mkSegment first bid (p :: ps) false], 0%nat. split_and!.
  - cbn [log_ok seg_first seg_batch]. split_and!; [|lia|lia|done].
    split_and!; cbn [seg_pages seg_first seg_batch seg_done]; try done; try lia. by rewrite <-Hbid.
  - cbn [log_last]. unfold seg_last. cbn [seg_first seg_pages seg_done]. lia.
  - cbn [log_batch seg_batch]. lia.
  - done.
  - rewrite log_images_one. unfold seg_frames. cbn [seg_batch seg_first seg_pages seg_done].
    rewrite app_nil_r. eapply partly_mono; [exact W|done|done].
Qed.

Lemma append_group_commit_spec first bid c w j :
  let v := format_version w in
  v = WAL_FORMAT_VERSION ∨ v = LEGACY_WAL_FORMAT_VERSION → commit_typed c → 0 ≤ first →
  wp (append_group_commit c first bid)
    (λ r s, report_commit_lsn r = commit_lsn c ∧ commit_valid first bid c ∧
       wrote (images (seg_frames v (segment_of first c))) (w, j) s)
    (λ _, commit_stopped v first bid c (w, j)) (w, j).
Proof.
  intros v Hv Hty Hf. unfold append_group_commit. pose proof (len_nonneg (commit_pages c)).
  destruct (id Hty) as (Hty1 & Hty2 & Hty3).
  apply wp_bind, wp_fail_when.
  { intros E%bool_decide_eq_true. apply commit_rejected. by intros (? & _). }
  intros Hne%bool_decide_eq_false. apply wp_bind, wp_fail_when.
  { intros E%negb_true_iff%Z.eqb_neq. apply commit_rejected. by intros (_ & ? & _). }
  intros Hbid%negb_false_iff%Z.eqb_eq. apply wp_bind, wp_lift. unfold checked_add.
  destruct (Z.leb_spec (first + len (commit_pages c)) U64_MAX) as [Hu|Hu]; cbn [ok_or].
  2: { apply commit_rejected. intros (_ & _ & ? & ? & _). lia. }
  apply wp_bind, wp_fail_when.
  { intros E%negb_true_iff%Z.eqb_neq. apply commit_rejected. by intros (_ & _ & ? & _). }
  intros Hlsn%negb_false_iff%Z.eqb_eq.
  apply wp_bind, (wp_lift_ok _ (len (commit_pages c) * PAGE_IMAGE_PAYLOAD_SIZE)).
  { unfold checked_mul. assert (PAGE_IMAGE_PAYLOAD_SIZE = 4104) as -> by done.
    destruct (Z.leb_spec (len (commit_pages c) * 4104) U64_MAX); [done|ulia]. }
  apply wp_bind. wp_use (append_pages_spec c first [] (commit_pages c) (w, j) w j);
    [done|done|done|done|done|done|constructor|apply wrote_nil| |].
  2: { cbv beta. rewrite !app_nil_l. intros e s (k & Hok & W). rewrite Hbid in W. by eapply pages_stopped. }
  cbv beta. rewrite !app_nil_l. intros [d n] [w1 j1] (-> & -> & Hval & W1).
  change (format_version (w, j).1) with v in *.
  assert (Hcv : commit_valid first bid c) by (split_and!; try done; lia).
  pose proof (segment_ok first bid c Hty Hf Hcv) as Hseg.
  assert (Hlog : log_ok (first - 1) (bid - 1) [segment_of first c]).
  { cbn [log_ok segment_of seg_first seg_batch]. split_and!; [done|lia|lia|done]. }
  assert (Hcom : commits [segment_of first c] = take 1 [committed_of c]).
  { unfold commits, seg_commit, seg_last, committed_of. simpl. by rewrite Z.sub_0_r, Hlsn. }
  assert (Hsplit : images (seg_frames v (segment_of first c)) =
    images (page_frames v bid first 0 (commit_pages c)) ++ frame_image (commit_frame v (segment_of first c))).
  { unfold seg_frames. cbn [segment_of seg_batch seg_first seg_pages seg_done].
    by rewrite Hbid, images_app, images_cons, images_nil, app_nil_r. }
  assert (Hstop : ∀ e s, partly_wrote False (len (images (seg_frames v (segment_of first c))))
      (images (seg_frames v (segment_of first c))) (w, j) s →
      (λ _ : Error, commit_stopped v first bid c (w, j)) e s).
  { intros e s W. exists [segment_of first c], 1%nat.
    split_and!; [done|cbn; unfold seg_last; cbn; lia|cbn; lia|done|].
    rewrite log_images_one. eapply partly_mono; [exact W|done|done]. }
  rewrite Hbid in W1. rewrite Hsplit in Hstop |- *. apply wp_bind.
  eapply (hit_wrote _ _ _ _ _ _ _ _ W1); [|intros e j' W; by apply Hstop]. intros j2 W2.
  apply wp_bind, wp_fail_when; [intros Hlt%Z.ltb_lt; lia|intros _]. apply wp_bind.
  eapply (hit_wrote _ _ _ _ _ _ _ _ W2); [|intros e j' W; by apply Hstop]. intros j3 W3.
  assert (Hvw : format_version w1 = v) by (pose proof (wrote_fields _ _ _ W1) as Hw; cbn in Hw; by rewrite Hw).
  apply wp_bind.
  wp_use (append_frame_spec Commit (commit_lsn c) (commit_batch_id c) (len (commit_pages c))
    (encode_commit_payload first (len (commit_pages c)) (crc32c (digest (commit_pages c)))) w1 j3).
  - rewrite Hvw. split_and!; cbn [frame_version record_lsn frame_batch_id record_index payload];
      [done|ulia|done|ulia|rewrite len_commit_payload; vm_compute; congruence].
  - cbv beta. rewrite Hvw, Hlsn. change (mkFrame v Commit _ _ _ _) with (commit_frame v (segment_of first c)).
    intros n [w2 j4] [-> W4]. pose proof (wrote_trans _ _ _ _ _ W3 W4) as W5.
    apply wp_bind, wp_lift. unfold checked_add. rewrite Hbid, <-len_frame_image, <-len_app.
    destruct (Z.leb_spec (len (images (page_frames v bid first 0 (commit_pages c)) ++
      frame_image (commit_frame v (segment_of first c)))) U64_MAX) as [Hle|Hgt]; cbn [ok_or].
    + apply wp_bind. eapply (hit_wrote _ _ _ _ _ _ _ [] W5).
      * intros j5 W6. apply wp_ret. done.
      * intros e j' W. rewrite app_nil_r in W. by apply Hstop.
    + apply (Hstop (InternalInvariantViolation "WAL byte count overflow")).
      apply wrote_partly; [done|]. right. right. blen.
  - cbv beta. rewrite Hvw, Hlsn. change (mkFrame v Commit _ _ _ _) with (commit_frame v (segment_of first c)).
    intros e s W. apply (Hstop e).
    eapply partly_mono; [exact (partly_trans _ _ _ _ _ _ _ W3 W)|done|].
    rewrite len_app, len_frame_image. lia.
Qed.
(** ** A group of commits *)

Fixpoint commits_valid (next : Lsn) (bid : Z) (cs : list WalCommit) : Prop :=
  match cs with
  | [] => True
  | c :: cs' => commit_valid next bid c ∧ commit_lsn c < U64_MAX ∧ bid < U64_MAX ∧
                commits_valid (commit_lsn c + 1) (bid + 1) cs'
  end.

Fixpoint segments_of (next : Lsn) (cs : list WalCommit) : list Segment :=
  match cs with
  | [] => []
  | c :: cs' => segment_of next c :: segments_of (commit_lsn c + 1) cs'
  end.

Lemma segment_last first bid c : commit_valid first bid c → seg_last (segment_of first c) = commit_lsn c.
Proof. intros (_ & _ & -> & _). unfold seg_last. cbn. lia. Qed.
Lemma segment_commit first bid c :
  commit_valid first bid c → seg_commit (segment_of first c) = [committed_of c].
Proof. intros Hc. unfold seg_commit. by rewrite (segment_last first bid). Qed.

Lemma segments_ok next bid cs :
  Forall commit_typed cs → 0 ≤ next → commits_valid next bid cs →
  log_ok (next - 1) (bid - 1) (segments_of next cs) ∧
  commits (segments_of next cs) = committed_of <$> cs.
Proof.
  intros Hty. revert next bid. induction Hty as [|c cs Hc Hty IH]; intros next bid Hn Hv; [done|].
  destruct Hv as (Hcv & Hu & Hb & Hv). destruct (id Hcv) as (_ & Hbid & Hlsn & _).
  pose proof (len_nonneg (commit_pages c)).
  destruct (IH (commit_lsn c + 1) (bid + 1)) as [IH1 IH2]; [lia|done|].
  rewrite !Z.add_simpl_r in IH1. split.
  - cbn [segments_of log_ok]. rewrite (segment_last next bid) by done.
    cbn [segment_of seg_batch seg_first]. rewrite Hbid. split_and!; [by eapply segment_ok|lia|lia|done].
  - change (commits (segments_of next (c :: cs)))
      with (seg_commit (segment_of next c) ++ commits (segments_of (commit_lsn c + 1) cs)).
    by rewrite (segment_commit next bid), IH2.
Qed.

Definition record_total (cs : list WalCommit) : Z := foldr Z.add 0 ((λ c, len (commit_pages c) + 1) <$> cs).

Lemma record_total_nonneg cs : 0 ≤ record_total cs.
Proof.
  induction cs as [|c cs IH]; [done|].
  change (record_total (c :: cs)) with (len (commit_pages c) + 1 + record_total cs). blen.
Qed.

Lemma segments_extent next bid cs :
  commits_valid next bid cs →
  log_last (next - 1) (segments_of next cs) = next - 1 + record_total cs ∧
  log_batch (bid - 1) (segments_of next cs) = bid - 1 + len cs.
Proof.
  revert next bid. induction cs as [|c cs IH]; intros next bid Hv.
  { cbn [segments_of log_last log_batch]. change (record_total []) with 0. change (len (@nil WalCommit)) with 0. lia. }
  destruct Hv as (Hcv & _ & _ & Hv). destruct (IH _ _ Hv) as [I1 I2].
  cbn [segments_of log_last log_batch]. rewrite (segment_last next bid) by done.
  destruct Hcv as (_ & Hbid & Hlsn & _). cbn [segment_of seg_batch]. rewrite Hbid.
  rewrite !Z.add_simpl_r in *. rewrite I1, I2, len_cons.
  change (record_total (c :: cs)) with (len (commit_pages c) + 1 + record_total cs). lia.
Qed.

(** Stopping in the middle of a group. *)
Definition group_stopped v next bid cs (s0 s : WalLog F * option J) : Prop :=
  ∃ ss m, log_ok (next - 1) (bid - 1) ss ∧
    log_last (next - 1) ss ≤ next - 1 + record_total cs ∧ log_batch (bid - 1) ss ≤ bid - 1 + len cs ∧
    commits ss = take m (committed_of <$> cs) ∧
    partly_wrote (¬ commits_valid next bid cs) (len (images (log_frames v (segments_of next cs))))
      (images (log_frames v ss)) s0 s.

Lemma log_images_cons v s ss :
  images (log_frames v (s :: ss)) = images (seg_frames v s) ++ images (log_frames v ss).
Proof. change (log_frames v (s :: ss)) with (seg_frames v s ++ log_frames v ss). apply images_app. Qed.

(** The group stops after its first commit. *)
Lemma group_stopped_cons v next bid c cs s0 s1 s :
  commit_typed c → 0 ≤ next → commit_valid next bid c →
  wrote (images (seg_frames v (segment_of next c))) s0 s1 →
  group_stopped v (commit_lsn c + 1) (bid + 1) cs s1 s → group_stopped v next bid (c :: cs) s0 s.
Proof.
  intros Hty Hn Hcv W (ss & m & Hlog & Hlast & Hbatch & Hcom & Wp). exists (segment_of next c :: ss), (S m).
  rewrite !Z.add_simpl_r in *. destruct (id Hcv) as (_ & Hbid & Hlsn & _). split_and!.
  - cbn [log_ok]. rewrite (segment_last next bid) by done. cbn [segment_of seg_batch seg_first].
    rewrite Hbid. split_and!; [by eapply segment_ok|lia|lia|done].
  - cbn [log_last]. rewrite (segment_last next bid) by done.
    change (record_total (c :: cs)) with (len (commit_pages c) + 1 + record_total cs). lia.
  - cbn [log_batch segment_of seg_batch]. rewrite Hbid, len_cons. lia.
  - change (commits (segment_of next c :: ss)) with (seg_commit (segment_of next c) ++ commits ss).
    rewrite (segment_commit next bid), Hcom by done. done.
  - cbn [segments_of]. rewrite !log_images_cons.
    eapply partly_mono; [exact (partly_trans _ _ _ _ _ _ _ W Wp)| |rewrite len_app; lia].
    intros Hx (_ & _ & _ & ?). done.
Qed.

(** A limit is reached right after the first commit. *)
Lemma group_stopped_limit v next bid c cs s0 s1 :
  commit_typed c → 0 ≤ next → commit_valid next bid c →
  wrote (images (seg_frames v (segment_of next c))) s0 s1 → U64_MAX ≤ commit_lsn c ∨ U64_MAX ≤ bid →
  group_stopped v next bid (c :: cs) s0 s1.
Proof.
  intros Hty Hn Hcv W Hlim. exists [segment_of next c], 1%nat. destruct (id Hcv) as (_ & Hbid & Hlsn & _).
  pose proof (record_total_nonneg cs). pose proof (len_nonneg cs). split_and!.
  - cbn [log_ok segment_of seg_batch seg_first]. split_and!; [by eapply segment_ok|lia|lia|done].
  - cbn [log_last]. rewrite (segment_last next bid) by done.
    change (record_total (c :: cs)) with (len (commit_pages c) + 1 + record_total cs). lia.
  - cbn [log_batch segment_of seg_batch]. rewrite Hbid, len_cons. lia.
  - change (commits [segment_of next c]) with (seg_commit (segment_of next c) ++ []).
    by rewrite (segment_commit next bid).
  - rewrite log_images_one. apply wrote_partly; [done|]. left. intros (_ & ? & ? & _). lia.
Qed.

Lemma group_stopped_first v next bid c cs s0 s :
  commit_stopped v next bid c s0 s → group_stopped v next bid (c :: cs) s0 s.
Proof.
  intros (ss & m & Hlog & Hlast & Hbatch & Hcom & W). exists ss, (min m 1).
  pose proof (record_total_nonneg cs). pose proof (len_nonneg cs).
  change (record_total (c :: cs)) with (len (commit_pages c) + 1 + record_total cs).
  rewrite len_cons. split_and!; [done|lia|lia| |].
  - rewrite Hcom. destruct m as [|[|m]]; done.
  - cbn [segments_of]. rewrite log_images_cons. eapply partly_mono; [exact W| |rewrite len_app; blen].
    intros Hx (? & _). done.
Qed.

Lemma append_commits_spec cs next bid w j :
  let v := format_version w in
  v = WAL_FORMAT_VERSION ∨ v = LEGACY_WAL_FORMAT_VERSION → Forall commit_typed cs → 0 ≤ next →
  wp (append_commits cs next bid)
    (λ '(n, b, _) s, commits_valid next bid cs ∧
       n = log_last (next - 1) (segments_of next cs) + 1 ∧
       b = log_batch (bid - 1) (segments_of next cs) + 1 ∧
       wrote (images (log_frames v (segments_of next cs))) (w, j) s)
    (λ _, group_stopped v next bid cs (w, j)) (w, j).
Proof.
  intros v Hv Hty. unfold v in *. clear v. revert next bid w j Hv.
  induction Hty as [|c cs Hc Hty IH]; intros next bid w j Hv Hn.
  { apply wp_ret. split_and!; [done|simpl; lia|simpl; lia|apply wrote_nil]. }
  cbn [append_commits]. apply wp_bind.
  wp_use (append_group_commit_spec next bid c w j); [done|done|done| |].
  2: { intros e s Hs. by apply group_stopped_first. }
  cbv beta. intros r [w1 j1] (Hr & Hcv & W). rewrite Hr. destruct (id Hcv) as (_ & Hbid & Hlsn & Hu & _).
  pose proof (len_nonneg (commit_pages c)).
  apply wp_bind, wp_lift. unfold checked_add. destruct (Z.leb_spec (commit_lsn c + 1) U64_MAX); cbn [ok_or].
  2: { eapply group_stopped_limit; [done..|lia]. }
  apply wp_bind, wp_lift. destruct (Z.leb_spec (bid + 1) U64_MAX); cbn [ok_or].
  2: { eapply group_stopped_limit; [done..|lia]. }
  assert (Hvw : format_version w1 = format_version w)
    by (pose proof (wrote_fields _ _ _ W) as Hw; cbn in Hw; by rewrite Hw).
  apply wp_bind. wp_use (IH (commit_lsn c + 1) (bid + 1) w1 j1); [by rewrite Hvw|lia| |].
  - cbv beta. intros [[n b] rs] s (Hcs & -> & -> & W'). apply wp_ret.
    cbn [segments_of commits_valid log_last log_batch]. rewrite (segment_last next bid) by done.
    rewrite !Z.add_simpl_r. cbn [segment_of seg_batch]. rewrite Hbid. rewrite Hvw in W'.
    split_and!; [done|lia|lia|done|done|done|]. rewrite log_images_cons. by eapply wrote_trans.
  - cbv beta. rewrite Hvw. intros e s Hs. by eapply group_stopped_cons.
Qed.
(** ** The group commit *)

Lemma log_last_cons_any a b s ss : log_last a (s :: ss) = log_last b (s :: ss).
Proof. done. Qed.
Lemma log_ok_weaken previous previous' bid bid' ss :
  log_ok previous bid ss → previous' ≤ previous → bid' ≤ bid → log_ok previous' bid' ss.
Proof. destruct ss as [|s ss]; simpl; [done|]. intros (? & ? & ? & ?) ? ?. split_and!; try done; lia. Qed.

(** A log to which records may be appended: past its history boundary. *)
Definition ready w : Prop := history_start_lsn w < next_lsn w.

Lemma append_after w ss ss' :
  wal_rep w ss → ready w → log_ok (next_lsn w - 1) (next_batch_id w - 1) ss' →
  log_ok (history_start_lsn w) 0 (ss ++ ss').
Proof.
  intros [] Hr Hlog. apply log_ok_app. split; [done|]. eapply log_ok_weaken; [exact Hlog| |lia].
  unfold ready in Hr. destruct ss; simpl in *; lia.
Qed.

Lemma commits_valid_bounds next bid cs :
  Forall commit_typed cs → cs ≠ [] → 0 ≤ next → commits_valid next bid cs →
  next ≤ log_last (next - 1) (segments_of next cs) < U64_MAX ∧
  bid ≤ log_batch (bid - 1) (segments_of next cs) < U64_MAX.
Proof.
  intros Hty. revert next bid. induction Hty as [|c cs Hc Hty IH]; intros next bid Hne Hn Hv; [done|].
  destruct Hv as (Hcv & Hu & Hb & Hv). destruct (id Hcv) as (_ & Hbid & Hlsn & _).
  pose proof (len_nonneg (commit_pages c)).
  cbn [segments_of log_last log_batch]. rewrite (segment_last next bid) by done.
  cbn [segment_of seg_batch]. rewrite Hbid. destruct cs as [|c' cs]; [simpl; lia|].
  destruct (IH (commit_lsn c + 1) (bid + 1)) as [I1 I2]; [done|lia|done|].
  rewrite !Z.add_simpl_r in *. lia.
Qed.

(** The log after the group is durable. *)
Lemma rep_published w f ss cs :
  wal_rep w ss → ready w → Forall commit_typed cs → cs ≠ [] →
  commits_valid (next_lsn w) (next_batch_id w) cs →
  volatile f = volatile (file w) ++ images (log_frames (format_version w) (segments_of (next_lsn w) cs)) →
  ∀ w', file w' = f → identity w' = identity w → format_version w' = format_version w →
  history_start_lsn w' = history_start_lsn w →
  next_lsn w' = log_last (next_lsn w - 1) (segments_of (next_lsn w) cs) + 1 →
  next_batch_id w' = log_batch (next_batch_id w - 1) (segments_of (next_lsn w) cs) + 1 →
  committed w' = committed w ++ (committed_of <$> cs) →
  wal_rep w' (ss ++ segments_of (next_lsn w) cs) ∧ ready w'.
Proof.
  intros Hrep Hr Hty Hne Hv Hvol w' Hf Hi Hfv Hh Hnl Hnb Hcom.
  assert (Hn : 0 ≤ next_lsn w) by (unfold ready in Hr; destruct Hrep as [_ _ [? _] _ _ _ _ _]; lia).
  destruct (segments_ok (next_lsn w) (next_batch_id w) cs) as [Hlog Hc]; [done..|].
  destruct (commits_valid_bounds (next_lsn w) (next_batch_id w) cs) as [B1 B2]; [done..|].
  pose proof (append_after w ss _ Hrep Hr Hlog) as Hlog'.
  assert (Hlast : ∀ a, log_last a (segments_of (next_lsn w) cs) =
    log_last (next_lsn w - 1) (segments_of (next_lsn w) cs)) by (by destruct cs).
  assert (Hbatch : ∀ a, log_batch a (segments_of (next_lsn w) cs) =
    log_batch (next_batch_id w - 1) (segments_of (next_lsn w) cs)) by (by destruct cs).
  destruct Hrep as [H1 H2 H3 H4 H5 H6 H7 H8]. split.
  - split; rewrite ?Hi, ?Hfv, ?Hh; try done.
    + rewrite Hf, Hvol, H5, !log_bytes_init, log_frames_app, images_app. by rewrite app_assoc.
    + by rewrite Hcom, commits_app, Hc, H6.
    + rewrite log_last_app, Hlast. lia.
    + rewrite log_batch_app, Hbatch. lia.
  - unfold ready in *. lia.
Qed.

Lemma record_count_spec cs n :
  record_count cs n = Ok (n + record_total cs) ∨
  (∃ e, record_count cs n = Err e) ∧ U64_MAX < n + record_total cs.
Proof.
  revert n. induction cs as [|c cs IH]; intros n; cbn [record_count].
  { left. unfold record_total. simpl. by rewrite Z.add_0_r. }
  pose proof (record_total_nonneg cs). change (record_total (c :: cs)) with (len (commit_pages c) + 1 + record_total cs).
  unfold checked_add. destruct (Z.leb_spec (n + (len (commit_pages c) + 1)) U64_MAX); rsimpl; [|eauto with lia].
  destruct (IH (n + (len (commit_pages c) + 1))) as [->|[[e ->] Hov]]; [left; f_equal; lia|].
  right. split; [eauto|lia].
Qed.

(** The counters of the log have room for the group. *)
Definition counters_room w cs : Prop :=
  sync_count w < U64_MAX ∧ record_total cs ≤ U64_MAX ∧
  records_scanned (scan_report w) + record_total cs ≤ U64_MAX ∧ page_images w + page_total cs ≤ U64_MAX.

(** What a failed group append leaves: the old log and a prefix of the records of
    the group's first commits, perhaps already synced. *)
Record group_failed cs w j (s : WalLog F * option J) : Prop := {
  failed_identity : identity s.1 = identity w ∧ format_version s.1 = format_version w ∧
    history_start_lsn s.1 = history_start_lsn w;
  failed_bytes : ∃ ss' m k, log_ok (next_lsn w - 1) (next_batch_id w - 1) ss' ∧
    log_last (next_lsn w - 1) ss' ≤ next_lsn w - 1 + record_total cs ∧
    log_batch (next_batch_id w - 1) ss' ≤ next_batch_id w - 1 + len cs ∧
    commits ss' = take m (committed_of <$> cs) ∧
    0 ≤ k ≤ len (images (log_frames (format_version w) ss')) ∧
    volatile (file s.1) = volatile (file w) ++ (images (log_frames (format_version w) ss')).[0; k);
  failed_durable : durable (file s.1) = durable (file w) ∨ durable (file s.1) = volatile (file s.1);
  failed_reason : cs = [] ∨ ¬ commits_valid (next_lsn w) (next_batch_id w) cs ∨
    ¬ reliable (file w) ∨ j ≠ None ∨ ¬ counters_room w cs ∨
    U64_MAX < len (volatile (file w)) +
      len (images (log_frames (format_version w) (segments_of (next_lsn w) cs)));
}.

Lemma stopped_failed cs w j s :
  group_stopped (format_version w) (next_lsn w) (next_batch_id w) cs (w, j) s → group_failed cs w j s.
Proof.
  intros (ss' & m & Hlog & Hlast & Hbatch & Hcom & [W1 (k & Hk & W2) W3 W4]). split.
  - rewrite W1. done.
  - eauto 10.
  - by left.
  - tauto.
Qed.
(** Failing once the records of the whole group are written. *)
Lemma written_failed cs w j s f j' w1 :
  Forall commit_typed cs → 0 ≤ next_lsn w → commits_valid (next_lsn w) (next_batch_id w) cs →
  wrote (images (log_frames (format_version w) (segments_of (next_lsn w) cs))) (w, j) (w1, j') →
  identity s.1 = identity w1 ∧ format_version s.1 = format_version w1 ∧
    history_start_lsn s.1 = history_start_lsn w1 → file s.1 = f →
  volatile f = volatile (file w1) → durable f = durable (file w1) ∨ durable f = volatile f →
  ¬ reliable (file w) ∨ j ≠ None ∨ ¬ counters_room w cs → group_failed cs w j s.
Proof.
  intros Hty Hn Hv [W1 W2 W3 W4 W5] Hid <- Hvol Hdur Hwhy. cbn in *.
  destruct (segments_ok (next_lsn w) (next_batch_id w) cs) as [Hlog Hc]; [done..|].
  rewrite W3 in Hdur. split; [|..|done|tauto].
  - rewrite W1 in Hid. done.
  - eexists _, (length cs), (len (images (log_frames (format_version w) (segments_of (next_lsn w) cs)))).
    destruct (segments_extent (next_lsn w) (next_batch_id w) cs) as [X1 X2]; [done..|].
    split_and!; [exact Hlog|lia|lia| |blen|done|].
    + rewrite Hc. by rewrite take_ge by (rewrite length_fmap; lia).
    + rewrite Hvol, W2. by rewrite slice_full by lia.
Qed.

Lemma untouched_failed cs w j j' :
  cs = [] ∨ ¬ reliable (file w) ∨ j ≠ None → group_failed cs w j (w, j').
Proof.
  intros Hwhy. split; [done| |by left|tauto]. exists [], 0%nat, 0.
  pose proof (record_total_nonneg cs). split_and!; [done|simpl; lia|simpl; blen|done|blen|blen|].
  cbn. by rewrite slice_nil, app_nil_r.
Qed.

(** The counters of the log after a group. *)
Record counted w cs (w' : WalLog F) : Prop := {
  cnt_next : next_lsn w' = next_lsn w + record_total cs;
  cnt_batch : next_batch_id w' = next_batch_id w + len cs;
  cnt_syncs : sync_count w' = sync_count w + 1;
  cnt_records : records_scanned (scan_report w') = records_scanned (scan_report w) + record_total cs;
  cnt_images : page_images w' = page_images w + page_total cs;
  cnt_bytes : len (volatile (file w')) = len (volatile (file w)) +
    len (images (log_frames (format_version w) (segments_of (next_lsn w) cs)));
}.

Section tail.
Context (ss : list Segment) (cs : list WalCommit) (w w1 : WalLog F) (j j1 : option J).
Hypotheses (Hrep : wal_rep w ss) (Hr : ready w) (Hty : Forall commit_typed cs) (Hne : cs ≠ [])
  (Hn : 0 ≤ next_lsn w) (Hv : commits_valid (next_lsn w) (next_batch_id w) cs)
  (W : wrote (images (log_frames (format_version w) (segments_of (next_lsn w) cs))) (w, j) (w1, j1)).
Abbreviation next := (log_last (next_lsn w - 1) (segments_of (next_lsn w) cs) + 1).
Abbreviation batch := (log_batch (next_batch_id w - 1) (segments_of (next_lsn w) cs) + 1).

Definition group_done (s : WalLog F * option J) : Prop :=
  wal_rep s.1 (ss ++ segments_of (next_lsn w) cs) ∧ ready s.1 ∧
  committed s.1 = committed w ++ (committed_of <$> cs) ∧ identity s.1 = identity w ∧
  history_start_lsn s.1 = history_start_lsn w ∧
  durable (file s.1) = volatile (file s.1) ∧ (reliable (file w) → reliable (file s.1)) ∧
  counted w cs s.1 ∧ (j = None → s.2 = None).

(** After the sync: counters and the in-memory index. *)
Lemma publish_tail f2 j2 :
  volatile f2 = volatile (file w1) → durable f2 = volatile (file w1) →
  (reliable (file w1) → reliable f2) → (j1 = None → j2 = None) →
  wp (publish_group cs next batch)
    (λ _, group_done) (λ _, group_failed cs w j) (set_file f2 w1, j2).
Proof.
  intros V2 D2 R2 J2. destruct (id W) as [W1 W2 W3 W4 W5]. cbn in W1, W2, W3, W4, W5.
  assert (Hfail : ∀ s, identity s.1 = identity w ∧ format_version s.1 = format_version w ∧
      history_start_lsn s.1 = history_start_lsn w → file s.1 = f2 →
      ¬ reliable (file w) ∨ j ≠ None ∨ ¬ counters_room w cs → group_failed cs w j s).
  { intros s Hid Hf Hwhy. eapply written_failed; try done; [by rewrite W1|right; congruence]. }
  unfold publish_group, bump_sync_count, wal, modify. wp_steps. cbn [fst]. rewrite W1. cbn [set_file sync_count].
  apply wp_lift. unfold checked_add.
  destruct (Z.leb_spec (sync_count w + 1) U64_MAX) as [Hs|Hs]; cbn [ok_or].
  2: { apply Hfail; [done|done|]. right. right. intros (? & _). lia. }
  wp_steps. cbn [fst snd]. apply hit_point_spec.
  2: { intros e j3 Hj3. apply Hfail; [done|done|]. right. left. intros ->. tauto. }
  intros j3 Hj3. wp_steps. cbn [fst snd]. apply wp_lift.
  destruct (record_count_spec cs 0) as [->|[[e ->] Hov]].
  2: { apply Hfail; [done|done|]. right. right. intros (_ & ? & _). lia. }
  wp_steps. cbn [fst snd publish_commits set_sync_count set_file scan_report page_images]. apply wp_lift.
  destruct (Z.leb_spec (records_scanned (scan_report w) + (0 + record_total cs)) U64_MAX) as [Ht|Ht]; cbn [ok_or].
  2: { apply Hfail; [done|done|]. right. right. intros (_ & _ & ? & _). lia. }
  wp_steps. cbn [fst snd]. apply wp_lift.
  destruct (Z.leb_spec (page_images w + page_total cs) U64_MAX) as [Hp|Hp]; cbn [ok_or].
  2: { apply Hfail; [done|done|]. right. right. intros (_ & _ & _ & ?). lia. }
  wp_steps. unfold group_done. cbn [fst snd file identity history_start_lsn committed].
  destruct (rep_published w f2 ss cs Hrep Hr Hty Hne Hv ltac:(congruence)
    (mkWal f2 (identity w) (format_version w) next batch (history_start_lsn w)
       (committed w ++ (committed_of <$> cs)) (mkReport (records_scanned (scan_report w) + (0 + record_total cs))
          (committed_batches (scan_report w) + len cs) (replayable_pages (scan_report w) + page_total cs)
          (torn_tail_bytes (scan_report w))) (sync_count w + 1) (page_images w + page_total cs)))
    as [P1 P2]; try done.
  destruct (segments_extent (next_lsn w) (next_batch_id w) cs Hv) as [X1 X2].
  split_and!; [exact P1|exact P2|done|done|done|by cbn; rewrite D2, V2|cbn; auto| |auto].
  split; cbn; rewrite ?V2, ?W2, ?len_app; lia.
Qed.
End tail.

Lemma append_group_spec ss cs w j :
  wal_rep w ss → ready w → Forall commit_typed cs →
  wp (append_group cs) (λ _, group_done ss cs w j) (λ _, group_failed cs w j) (w, j).
Proof.
  intros Hrep Hr Hty.
  assert (Hn : 0 ≤ next_lsn w) by (unfold ready in Hr; destruct Hrep as [_ _ [? _] _ _ _ _ _]; lia).
  pose proof (version_ok_codes _ _ (rep_version _ _ Hrep)) as Hver.
  unfold append_group. apply wp_bind, wp_fail_when.
  { intros ->%bool_decide_eq_true. apply untouched_failed. by left. }
  intros Hne%bool_decide_eq_false. apply wp_bind, hit_point_spec.
  2: { intros e j' Hj. apply untouched_failed. tauto. }
  intros j1 Hj1. apply wp_bind. apply (wp_mono _ (λ x s, x = w ∧ s = (w, j1)) _ noerr); [done| |done].
  intros ? ? [-> ->]. apply wp_bind.
  wp_use (append_commits_spec cs (next_lsn w) (next_batch_id w) w j1); [done|done|done| |].
  2: { intros e s Hs. destruct (stopped_failed cs w j1 s Hs) as [? ? ? Hwhy]. split; [done..|].
       destruct Hwhy as [?|[?|[?|[?|?]]]]; tauto. }
  cbv beta. intros [[n b] rs] [w1 j2] (Hv & -> & -> & W).
  assert (W' : wrote (images (log_frames (format_version w) (segments_of (next_lsn w) cs))) (w, j) (w1, j2)).
  { destruct W as [A1 A2 A3 A4 A5]. split; try done. auto. }
  assert (Hfail : ∀ j', j ≠ None → group_failed cs w j (w1, j')).
  { intros j' Hj. eapply written_failed; try done; [by left|tauto]. }
  pose proof (wrote_injector _ _ _ W') as Hj2. cbn in Hj2.
  apply wp_bind, hit_point_spec; [|intros e j' Hj; apply Hfail; tauto]. intros j3 Hj3.
  apply wp_bind, hit_point_spec; [|intros e j' Hj; apply Hfail; tauto]. intros j4 Hj4.
  apply wp_bind, hit_point_spec; [|intros e j' Hj; apply Hfail; tauto]. intros j5 Hj5.
  apply wp_bind, wp_zoom, wp_map_err. cbn [fst snd]. wp_use (sync_data_spec (file w1)).
  2: { cbv beta. intros e f' (V & D & R). eapply written_failed; try done; [by left|].
       left. intros Hrel. apply R. by apply (wrote_reliable _ _ _ W'). }
  cbv beta. intros _ f2 (V2 & D2 & R2).
  assert (W5 : wrote (images (log_frames (format_version w) (segments_of (next_lsn w) cs))) (w, j) (w1, j5)).
  { destruct W' as [A1 A2 A3 A4 A5]. split; try done. auto. }
  pose proof (publish_tail ss cs w w1 j j5 Hrep Hr Hty Hne Hn Hv W5 f2 j5 V2 D2 R2 id) as Htail.
  apply wp_bind. eapply wp_mono; [exact Htail| |done]. intros u s Hs. by apply wp_ret.
Qed.
End append.
End WalAppend.
