(* ===== verification/WalCrash.v ===== *)
(** * Crashes of the log

    What can be left of the log's file when the system stops at any moment of a group
    append: the old log, the records of the group's first commits and a torn frame. *)

From S2P Require Import Prelude Wp Page DurableFile Wal WalFrames WalReplay WalRecovery WalAppend.

Module WalCrash.
Import DurableFile Wal WalFrames WalReplay WalRecovery WalAppend.

(** What may be found on disk after a crash: everything synced, and any prefix of
    what was appended since; an unsynced truncation may or may not have happened. *)
Definition crash_image `{DurableFileSpec F} (f : F) (c : bytes) : Prop :=
  durable f `prefix_of` c ∧ c `prefix_of` volatile f ∨ c = durable f ∨ c = volatile f.

Section crash.
Context `{C : Crc32c} {CS : Crc32cSpec C} `{FS : DurableFileSpec F} `{JS : FaultInjectorSpec J}.
Implicit Types (f : F) (w : WalLog F) (j : option J).

Lemma prefix_slice {A} (c b : list A) : c `prefix_of` b → c = b.[0; len c) ∧ len c ≤ len b.
Proof.
  intros [k ->]. rewrite len_app. pose proof (len_nonneg k). split; [|lia].
  rewrite slice_app_l by blen. by rewrite slice_full by lia.
Qed.

(** The old log and any part of the records of a further one form a log and a torn
    frame. *)
Lemma extended_log w ss ss' k c :
  wal_rep w ss → ready w → log_ok (next_lsn w - 1) (next_batch_id w - 1) ss' →
  log_last (next_lsn w - 1) ss' < U64_MAX → log_batch (next_batch_id w - 1) ss' < U64_MAX →
  0 ≤ k ≤ len (images (log_frames (format_version w) ss')) → len c ≤ U64_MAX →
  c = volatile (file w) ++ (images (log_frames (format_version w) ss')).[0; k) →
  ∃ ss'' m t, holds_log (format_version w) (identity w) (history_start_lsn w) (ss ++ ss'') t c ∧
    commits ss'' = take m (commits ss') ∧
    log_last (next_lsn w - 1) ss'' ≤ log_last (next_lsn w - 1) ss' ∧
    log_batch (next_batch_id w - 1) ss'' ≤ log_batch (next_batch_id w - 1) ss' ∧
    (k = len (images (log_frames (format_version w) ss')) → ss'' = ss').
Proof.
  intros Hrep Hr Hlog Hlast Hbatch Hk Hu Hc. destruct (id Hrep) as [R1 R2 R3 R4 R5 R6 R7 R8].
  destruct (log_frames_ok (format_version w) _ _ ss' (version_ok_codes _ _ R1) Hlog) as [O1 O2].
  destruct (images_prefix (format_version w) (log_frames (format_version w) ss') k)
    as (q & t & Hq & Ht & Heq & Hfull); [done..|].
  destruct (log_frames_prefix (format_version w) _ _ ss' q Hlog)
    as (ss'' & m & E1 & E2 & E3 & E4 & E5 & E6).
  exists ss'', m, t. split_and!; [|done|done|done|].
  2: { intros Hk'. apply E6. destruct (Hfull Hk') as [-> _]. done. }
  pose proof (append_after w ss ss'' Hrep Hr E2) as Hlog'. split; try done.
  - rewrite log_last_app. destruct ss'' as [|s ss'']; [simpl; lia|]. rewrite (log_last_cons_any _ (next_lsn w - 1)). lia.
  - rewrite log_batch_app. destruct ss'' as [|s ss'']; [simpl; lia|].
    change (log_batch _ (s :: ss'')) with (log_batch (next_batch_id w - 1) (s :: ss'')). lia.
  - rewrite Hc, R5, Heq, E1, !log_bytes_init, log_frames_app, images_app. by rewrite !app_assoc.
Qed.

(** A crash image of an append-only file. *)
Lemma crash_image_append f c b x :
  crash_image f c → durable f = b ∨ durable f = volatile f → volatile f = b ++ x →
  ∃ k, 0 ≤ k ≤ len x ∧ c = b ++ x.[0; k) ∧ (durable f = volatile f → k = len x).
Proof.
  intros Hc Hd Hv. pose proof (len_nonneg x).
  assert (Hp : b `prefix_of` c ∧ c `prefix_of` volatile f ∧ (durable f = volatile f → c = volatile f)).
  { destruct Hc as [[K1 K2]|[-> | ->]].
    - split_and!; [|done|].
      + destruct Hd as [Hd|Hd]; rewrite Hd in K1; [done|]. etrans; [|exact K1]. rewrite Hv. by exists x.
      + intros Heq. rewrite Heq in K1. by apply (anti_symm prefix).
    - destruct Hd as [-> | ->]; split_and!; rewrite ?Hv; try done; by exists x.
    - split_and!; [rewrite Hv; by exists x|done|done]. }
  destruct Hp as ([k1 ->] & Hp & Heq). rewrite Hv in Hp. apply prefix_app_inv in Hp.
  destruct (prefix_slice k1 x Hp) as [E1 E2]. exists (len k1). pose proof (len_nonneg k1).
  split_and!; [lia|done|by rewrite <-E1|]. intros Hdv. apply Heq in Hdv. rewrite Hv in Hdv.
  apply app_inv_head in Hdv. by rewrite Hdv.
Qed.

Lemma crash_image_synced f c : crash_image f c → durable f = volatile f → c = volatile f.
Proof.
  intros [[K1 K2]|[-> | ->]] Hd; [|done|done]. rewrite Hd in K1. by apply (anti_symm prefix).
Qed.

(** The log [w] with the segments [ss] survives as the bytes [c], with the first [m]
    commits of the group [cs]. *)
Definition crash_log w ss cs (c : bytes) (m : nat) : Prop :=
  ∃ v ss' t, holds_log v (identity w) (history_start_lsn w) (ss ++ ss') t c ∧
    commits ss' = take m (committed_of <$> cs) ∧
    log_last (next_lsn w - 1) ss' ≤ next_lsn w - 1 + record_total cs ∧
    log_batch (next_batch_id w - 1) ss' ≤ next_batch_id w - 1 + len cs.

Lemma failed_crash ss cs w j s c :
  wal_rep w ss → ready w → durable (file w) = volatile (file w) →
  next_lsn w + record_total cs ≤ U64_MAX → next_batch_id w + len cs ≤ U64_MAX →
  group_failed cs w j s → len c ≤ U64_MAX → crash_image (file s.1) c → ∃ m, crash_log w ss cs c m.
Proof.
  intros Hrep Hr Hsync Hn Hb [_ (ss' & m & k & Hlog & Hlast & Hbatch & Hcom & Hk & Hbytes) Hd _] Hu Hc. rewrite Hsync in Hd.
  destruct (crash_image_append _ _ _ _ Hc Hd Hbytes) as (k' & Hk' & Hc' & _).
  rewrite len_slice in Hk' by lia. rewrite slice_slice, !Z.add_0_l in Hc' by lia.
  destruct (extended_log w ss ss' k' c) as (ss'' & m' & t & Hholds & Hcom' & L1 & L2 & _); try done; try lia.
  exists (min m' m), (format_version w), ss'', t. split_and!; [done| |lia|lia]. by rewrite Hcom', Hcom, take_take.
Qed.

Lemma done_crash ss cs w j s c m :
  wal_rep w ss → ready w → Forall commit_typed cs → commits_valid (next_lsn w) (next_batch_id w) cs →
  group_done ss cs w j s → len c ≤ U64_MAX → crash_image (file s.1) c → (length cs ≤ m)%nat → crash_log w ss cs c m.
Proof.
  intros Hrep Hr Hty Hv (Hrep' & _ & _ & Hid & Hh & Hds & _) Hu Hc Hm.
  assert (0 ≤ next_lsn w) by (unfold ready in Hr; destruct Hrep as [_ _ [? _] _ _ _ _ _]; lia).
  destruct (segments_ok (next_lsn w) (next_batch_id w) cs) as [Hlog Hcm]; [done..|].
  destruct (segments_extent (next_lsn w) (next_batch_id w) cs) as [X1 X2]; [done..|].
  rewrite (crash_image_synced _ _ Hc Hds) in *. destruct Hrep' as [R1 R2 R3 R4 R5 R6 R7 R8].
  exists (format_version s.1), (segments_of (next_lsn w) cs), []. split_and!; [|..|lia|lia].
  - split; rewrite <-?Hid, <-?Hh; try done; [lia|lia|by left|by rewrite app_nil_r].
  - rewrite Hcm. by rewrite take_ge by (rewrite length_fmap; lia).
Qed.
End crash.
End WalCrash.
