(* ===== verification/WalReset.v ===== *)
(** * Creating and resetting a log

    Opening an empty file, or one whose initialization record was torn by a crash,
    creates a fresh log.  A reset truncates the log and writes a new initialization
    record; wherever it stops, the file holds the old log, or a prefix of the new
    initialization record. *)

From S2P Require Import Prelude Wp Key Core Page Superblock DurableFile Wal WalFrames WalReplay.
From S2P Require Import WalRecovery WalAppend WalCrash.

Module WalReset.
Import Core DurableFile Wal WalFrames WalReplay WalRecovery WalAppend WalCrash.

Section reset.
Context `{C : Crc32c} {CS : Crc32cSpec C} `{FS : DurableFileSpec F} `{JS : FaultInjectorSpec J}.
Implicit Types (f : F) (w : WalLog F) (j : option J).

Definition init_bytes (i : WalIdentity) (start : Lsn) : bytes :=
  frame_image (init_frame WAL_FORMAT_VERSION i start).

Lemma len_init_bytes i start : len (init_bytes i start) = INIT_FRAME_SIZE.
Proof. unfold init_bytes. by rewrite len_frame_image, init_frame_size. Qed.

(** A log that was just created. *)
Record fresh w i start : Prop := {
  fresh_rep : wal_rep w [];
  fresh_identity : identity w = i;
  fresh_version : format_version w = WAL_FORMAT_VERSION;
  fresh_start : history_start_lsn w = start;
  fresh_next : next_lsn w = start + 1;
  fresh_batch : next_batch_id w = 1;
  fresh_durable : durable (file w) = volatile (file w);
}.

(** The counters of a log that was created in an empty file. *)
Definition new_counters w : Prop :=
  sync_count w = 1 ∧ records_scanned (scan_report w) = 1 ∧ page_images w = 0.

Lemma fresh_ready w i start : fresh w i start → ready w.
Proof. intros []. unfold ready. lia. Qed.

Lemma fresh_intro w i start :
  identity_ok i → 0 ≤ start < U64_MAX → identity w = i → format_version w = WAL_FORMAT_VERSION →
  history_start_lsn w = start → next_lsn w = start + 1 → next_batch_id w = 1 → committed w = [] →
  volatile (file w) = init_bytes i start → durable (file w) = volatile (file w) → fresh w i start.
Proof.
  intros Hi Hs E1 E2 E3 E4 E5 E6 Hv Hd. split; try done. split; rewrite ?E1, ?E2, ?E3; try done.
  - by left.
  - ulia.
  - rewrite Hv. apply init_image.
  - simpl. lia.
  - simpl. rewrite E5. by vm_compute.
Qed.

Lemma append_init_spec i start w j :
  format_version w = WAL_FORMAT_VERSION → volatile (file w) = [] →
  wp (append_frame Init 0 0 0 (identity_payload i start))
    (λ _ s, wrote (init_bytes i start) (w, j) s)
    (λ _ s, partly_wrote False INIT_FRAME_SIZE (init_bytes i start) (w, j) s) (w, j).
Proof.
  intros Hver Hvol.
  assert (Hx : mkFrame (format_version w) Init 0 0 0 (identity_payload i start) =
    init_frame WAL_FORMAT_VERSION i start) by (by rewrite Hver).
  pose proof (append_frame_spec Init 0 0 0 (identity_payload i start) w j) as Ha.
  cbv zeta in Ha. rewrite Hx in Ha. eapply wp_mono; [apply Ha, init_frame_ok; by left| |].
  - by intros n s [_ ?].
  - intros e s. by rewrite init_frame_size.
Qed.

(** What a failed creation leaves: a prefix of the initialization record. *)
Definition creating i start f : Prop :=
  ∃ k, 0 ≤ k ≤ INIT_FRAME_SIZE ∧ volatile f = (init_bytes i start).[0; k).

Lemma initialize_body_spec i start w j :
  identity_ok i → 0 ≤ start < U64_MAX → identity w = i → format_version w = WAL_FORMAT_VERSION →
  history_start_lsn w = start → next_lsn w = start + 1 → next_batch_id w = 1 → committed w = [] →
  volatile (file w) = [] → page_images w = 0 →
  wp (initialize_body i start)
    (λ _ s, (fresh s.1 i start ∧ new_counters s.1) ∧ (reliable (file w) → reliable (file s.1)))
    (λ _ s, creating i start (file s.1) ∧ durable (file s.1) = durable (file w) ∧
       (¬ reliable (file w) ∨ j ≠ None)) (w, j).
Proof.
  intros Hi Hs E1 E2 E3 E4 E5 E6 Hv Hp. unfold initialize_body. apply wp_bind.
  wp_use (append_init_spec i start w j); [done|done| |].
  2: { intros e [w' j'] [P1 (k & Hk & P2) P3 P4]. cbn in *. rewrite len_init_bytes in Hk. split_and!.
       - exists k. by rewrite P2, Hv.
       - done.
       - rewrite Hv in P4. destruct P4 as [[]|[?|[?|Hbad]]]; [by left|by right|]. by vm_compute in Hbad. }
  cbv beta. intros _ [w1 j1] [W1 W2 W3 W4 W5]. cbn in *. rewrite Hv in W2. rewrite app_nil_l in W2.
  unfold sync_or. apply wp_bind, wp_zoom, wp_map_err. cbn [fst snd]. wp_use (sync_data_spec (file w1)).
  2: { cbv beta. intros e f' (V & D & R). cbn. split_and!.
       - exists INIT_FRAME_SIZE. rewrite V, W2. split; [by vm_compute|].
         by rewrite slice_full by (rewrite len_init_bytes; lia).
       - congruence.
       - left. tauto. }
  cbv beta. intros _ f2 (V2 & D2 & R2). unfold modify. wp_steps. cbn [fst snd].
  rewrite W1. split; [|cbn; tauto]. split; [|done].
  apply fresh_intro; try done; cbn; congruence.
Qed.

Lemma initialize_empty_spec i start f :
  identity_ok i → 0 ≤ start < U64_MAX → volatile f = [] →
  wp (λ f, initialize_empty (J:=J) f i start)
    (λ w f', file w = f' ∧ (fresh w i start ∧ new_counters w) ∧ (reliable f → reliable f'))
    (λ _ f', creating i start f' ∧ durable f' = durable f ∧ ¬ reliable f) f.
Proof.
  intros Hi Hs Hv. unfold wp, initialize_empty. rewrite checked_add_ok by lia.
  pose proof (initialize_body_spec i start
    (mkWal f i WAL_FORMAT_VERSION (start + 1) 1 start [] default_report 0 0) (None : option J)
    Hi Hs eq_refl eq_refl eq_refl eq_refl eq_refl eq_refl Hv eq_refl) as Hb.
  unfold wp in Hb. destruct (initialize_body i start _) as [[[]|e|k] [w' j']]; cbn in *.
  - done.
  - destruct Hb as (H1 & H2 & [?|?]); done.
  - done.
Qed.

(** Opening a file that is empty or holds a torn initialization record. *)
Lemma open_torn_spec i start n f j :
  identity_ok i → 0 ≤ start < U64_MAX → 0 ≤ n < INIT_FRAME_SIZE →
  volatile f = (init_bytes i start).[0; n) →
  wp (open i start)
    (λ w s, file w = s.1 ∧ (fresh w i start ∧ new_counters w) ∧ (reliable f → reliable s.1) ∧ s.2 = j)
    (λ _ s, creating i start s.1 ∧ ¬ reliable f) (f, j).
Proof.
  intros Hi Hs Hn Hvol.
  assert (Hlen : len (volatile f) = n) by (rewrite Hvol, len_slice; rewrite ?len_init_bytes; lia).
  assert (Hcr : creating i start f) by (exists n; split; [lia|done]).
  assert (Hinit : ∀ f1 (R : Prop), volatile f1 = [] → (R → reliable f1) →
    wp (opening_empty i start)
      (λ w s, file w = s.1 ∧ (fresh w i start ∧ new_counters w) ∧ (R → reliable s.1) ∧ s.2 = j)
      (λ _ s, creating i start s.1 ∧ ¬ R) (f1, j)).
  { intros f1 R Hf1 HR. apply wp_opening. wp_use (initialize_empty_spec i start f1); [done..| |].
    - cbv beta. intros w f' (H1 & H2 & H3). split; [done|]. split; [done|]. split; [tauto|done].
    - cbv beta. intros e f' (H1 & H2 & H3). split; [done|tauto]. }
  unfold open. wp_steps. cbn [fst]. pose proof (file_len_spec f) as Hfl.
  destruct (file_len f) as [m|e|k]; [|by apply wp_lift|done]. apply wp_lift. subst m.
  destruct (Z.eqb_spec (len (volatile f)) 0) as [Hz|Hz].
  { apply Hinit; [by apply len_zero_nil|done]. }
  destruct (Z.ltb_spec (len (volatile f)) INIT_FRAME_SIZE); [|lia].
  apply wp_bind, wp_opening. wp_use (torn_init_spec i start f (len (volatile f))).
  - lia.
  - done.
  - rewrite Hlen. transitivity INIT_FRAME_SIZE; [lia|by vm_compute].
  - cbv beta. intros b f1 [(V1 & D1 & R1) Hb].
    rewrite (proj2 Hb) by (split; [lia|by rewrite Hlen]).
    apply wp_bind, wp_opening, wp_map_err. wp_use (set_len_spec f1 0); [done| |].
    2: { cbv beta. intros e f' (V & D & R). split; [destruct Hcr as (k & ? & ?); exists k; cbn; by rewrite V, V1|tauto]. }
    cbv beta. intros _ f2 (V2 & D2 & R2).
    assert (Hnil : volatile f2 = []).
    { rewrite V2. unfold resize, zeros. simpl. pose proof (len_nonneg (volatile f1)).
      by replace (Z.to_nat (0 - len (volatile f1))) with 0%nat by lia. }
    apply wp_bind, wp_opening, wp_map_err. wp_use (sync_data_spec f2).
    2: { cbv beta. intros e f' (V & D & R). split; [|tauto]. exists 0. cbn. rewrite V, Hnil, slice_nil. by vm_compute. }
    cbv beta. intros _ f3 (V3 & D3 & R3). apply Hinit; [by rewrite V3|tauto].
  - cbv beta. intros e f' (V & D & R). split; [|done].
    destruct Hcr as (k & ? & ?). exists k. cbn. by rewrite V.
Qed.
(** ** Reset *)

(** The file of an interrupted reset. *)
Inductive resetting i start (f f' : F) : Prop :=
  | not_truncated : volatile f' = volatile f → durable f' = durable f → resetting i start f f'
  | truncated : volatile f' = [] → durable f' = durable f → resetting i start f f'
  | rewriting : creating i start f' → durable f' = [] → resetting i start f f'
  | rewritten : volatile f' = init_bytes i start → durable f' = init_bytes i start → resetting i start f f'.

Lemma resize_0 b : resize b 0 = [].
Proof.
  unfold resize, zeros. simpl. pose proof (len_nonneg b).
  by replace (Z.to_nat (0 - len b)) with 0%nat by lia.
Qed.

(** A (possibly complete) prefix of a fresh initialization record. *)
Definition init_prefix i start (c : bytes) : Prop :=
  ∃ k, 0 ≤ k ≤ INIT_FRAME_SIZE ∧ c = (init_bytes i start).[0; k).

Lemma init_prefix_full i start : init_prefix i start (init_bytes i start).
Proof.
  exists INIT_FRAME_SIZE. split; [by vm_compute|]. by rewrite slice_full by (rewrite len_init_bytes; lia).
Qed.

(** What a crash leaves of it. *)
Lemma resetting_image i start f f' c :
  resetting i start f f' → durable f = volatile f → crash_image f' c →
  c = volatile f ∨ init_prefix i start c.
Proof.
  assert (Hnil : init_prefix i start []) by (exists 0; rewrite slice_nil; by vm_compute).
  intros [V D|V D|(k & Hk & V) D|V D] Hsync Hc.
  - left. rewrite <-V. apply crash_image_synced; [done|congruence].
  - destruct Hc as [[_ K2]|[-> | ->]]; [|left; congruence|right; by rewrite V].
    rewrite V in K2. apply prefix_nil_inv in K2 as ->. by right.
  - right. destruct Hc as [[_ K2]|[-> | ->]]; [|by rewrite D|by exists k].
    rewrite V in K2. apply prefix_slice in K2 as [Ec Hle].
    rewrite len_slice in Hle by (rewrite ?len_init_bytes; lia). pose proof (len_nonneg c).
    exists (len c). split; [lia|]. rewrite slice_slice, !Z.add_0_l in Ec by lia. done.
  - right. rewrite (crash_image_synced f' c) by (done || congruence). rewrite V. apply init_prefix_full.
Qed.

(** Why a reset may fail. *)
Definition reset_fault lsn w j : Prop :=
  ¬ reliable (file w) ∨ j ≠ None ∨ lsn < history_start_lsn w ∨ U64_MAX ≤ sync_count w.

(** The counters that a reset leaves. *)
Definition reset_counters w w' : Prop :=
  sync_count w' = sync_count w + 1 ∧ records_scanned (scan_report w') = 1 ∧ page_images w' = 0.

(** The second half: the empty log gets its initialization record. *)
Definition reinitialize lsn : St (WalLog F * option J) Error unit :=
  hit_point "before_wal_reinitialization";;
  w ← wal;
  hit_point "during_wal_reinitialization";;
  append_frame Init 0 0 0 (identity_payload (identity w) lsn);;
  hit_point "after_wal_reset_write";;
  hit_point "before_wal_reset_sync";;
  hit_point "during_wal_reset_sync";;
  sync_or (CheckpointFailure "WAL reset sync failed: {error}");;
  bump_sync_count;;
  hit_point "after_wal_reset_sync".

Definition reinitializing i lsn f : Prop :=
  creating i lsn f ∧ durable f = [] ∨ volatile f = init_bytes i lsn ∧ durable f = init_bytes i lsn.

Lemma reinitialize_spec i lsn w j :
  identity_ok i → 0 ≤ lsn < U64_MAX → identity w = i → format_version w = WAL_FORMAT_VERSION → history_start_lsn w = lsn →
  next_lsn w = lsn + 1 → next_batch_id w = 1 → committed w = [] → volatile (file w) = [] → durable (file w) = [] →
  wp (reinitialize lsn)
    (λ _ s, fresh s.1 i lsn ∧ s.1 = set_file (file s.1) (set_sync_count (sync_count w + 1) w) ∧
       (reliable (file w) → reliable (file s.1)) ∧ (j = None → s.2 = None))
    (λ _ s, reinitializing i lsn (file s.1) ∧
       (¬ reliable (file w) ∨ j ≠ None ∨ U64_MAX ≤ sync_count w)) (w, j).
Proof.
  intros Hi Hlsn E1 E2 E3 E4 E5 E6 Hv Hd.
  assert (Hcr : reinitializing i lsn (file w)) by (left; split; [exists 0; rewrite Hv, slice_nil; by vm_compute|done]).
  unfold reinitialize, Wal.wal. wp_steps. apply hit_point_spec; [|intros; split; [done|auto]]. intros j1 J1.
  wp_steps. cbn [fst]. apply hit_point_spec; [|intros; split; [done|tauto]]. intros j2 J2.
  apply wp_bind. rewrite E1. wp_use (append_init_spec i lsn w j2); [done|done| |].
  2: { cbv beta. intros e s [P1 (k & Hk & P2) P3 P4]. cbn in P2, P3, P4. rewrite Hv in P2, P4. rewrite len_init_bytes in Hk. split.
       - left. split; [by exists k|congruence].
       - destruct P4 as [[]|[?|[?|Hbad]]]; [tauto|tauto|by vm_compute in Hbad]. }
  cbv beta. intros _ [w3 j3] [W1 W2 W3 W4 W5]. cbn in W1, W2, W3, W4, W5. rewrite Hv in W2. rewrite app_nil_l in W2.
  assert (Z3 : reinitializing i lsn (file w3)).
  { left. split; [|simpl; congruence]. exists INIT_FRAME_SIZE. split; [by vm_compute|]. by rewrite W2, slice_full by (rewrite len_init_bytes; lia). }
  apply wp_bind, hit_point_spec; [|intros; split; [done|tauto]]. intros j4 J4.
  apply wp_bind, hit_point_spec; [|intros; split; [done|tauto]]. intros j5 J5.
  apply wp_bind, hit_point_spec; [|intros; split; [done|tauto]]. intros j6 J6.
  unfold sync_or. apply wp_bind, wp_zoom, wp_map_err. cbn [fst snd]. wp_use (sync_data_spec (file w3)).
  2: { cbv beta. intros e f' (V & D & R). cbn. split; [left|tauto]. split; [|cbn; congruence].
       exists INIT_FRAME_SIZE. split; [by vm_compute|]. cbn. by rewrite V, W2, slice_full by (rewrite len_init_bytes; lia). }
  cbv beta. intros _ f4 (V4 & D4 & R4). rewrite W2 in V4, D4. unfold bump_sync_count, Wal.wal, modify. wp_steps. cbn [fst snd]. apply wp_lift.
  assert (sync_count w3 = sync_count w) as Esc by (by rewrite W1).
  cbn [sync_count set_file]. rewrite Esc. destruct (checked_add (sync_count w) 1) as [n|] eqn:En; cbn [ok_or].
  2: { assert (U64_MAX < sync_count w + 1) by (unfold checked_add in En; destruct (Z.leb_spec (sync_count w + 1) U64_MAX); [done|lia]). split; [by right|]. right. right. lia. }
  apply checked_add_Some in En as [-> _]. wp_steps. cbn [fst snd].
  assert (Ew : set_sync_count (sync_count w + 1) (set_file f4 w3) = set_file f4 (set_sync_count (sync_count w + 1) w)) by (by rewrite W1).
  rewrite Ew. apply hit_point_spec; [|intros; split; [by right|tauto]]. intros j7 J7. cbn. split_and!; [|done|tauto|tauto].
  apply fresh_intro; try done. cbn. congruence.
Qed.

Lemma reset_spec lsn w j :
  identity_ok (identity w) → 0 ≤ lsn < U64_MAX →
  wp (reset lsn)
    (λ _ s, history_start_lsn w ≤ lsn ∧ fresh s.1 (identity w) lsn ∧ reset_counters w s.1 ∧
       (reliable (file w) → reliable (file s.1)) ∧ (j = None → s.2 = None))
    (λ _ s, resetting (identity w) lsn (file w) (file s.1) ∧ reset_fault lsn w j) (w, j).
Proof.
  intros Hi Hlsn. assert (Z0 : resetting (identity w) lsn (file w) (file w)) by (by apply not_truncated).
  unfold reset, reset_fault, Wal.wal. wp_steps. cbn [fst].
  apply wp_fail_when; [intros ?%Z.ltb_lt; split; [done|tauto]|]. intros Hh%Z.ltb_ge.
  apply wp_bind, hit_point_spec; [|intros; split; [done|tauto]]. intros j1 J1.
  apply wp_bind, hit_point_spec; [|intros; split; [done|tauto]]. intros j2 J2.
  apply wp_bind, wp_zoom, wp_map_err. cbn [fst snd]. wp_use (set_len_spec (file w) 0); [done| |].
  2: { cbv beta. intros e f' (V & D & R). cbn. split; [by apply not_truncated|tauto]. }
  cbv beta. intros _ f1 (V1 & D1 & R1). rewrite resize_0 in V1.
  assert (Z1 : resetting (identity w) lsn (file w) f1) by (by apply truncated).
  apply wp_bind, hit_point_spec; [|intros; split; [done|tauto]]. intros j3 J3.
  apply wp_bind, hit_point_spec; [|intros; split; [done|tauto]]. intros j4 J4.
  apply wp_bind, hit_point_spec; [|intros; split; [done|tauto]]. intros j5 J5.
  unfold sync_or at 1. apply wp_bind, wp_zoom, wp_map_err. cbn [fst snd file set_file].
  wp_use (sync_data_spec f1).
  2: { cbv beta. intros e f' (V & D & R). cbn. split; [apply truncated; congruence|tauto]. }
  cbv beta. intros _ f2 (V2 & D2 & R2). rewrite V1 in V2, D2.
  assert (Z2 : resetting (identity w) lsn (file w) f2).
  { apply rewriting; [|done]. exists 0. rewrite V2, slice_nil. by vm_compute. }
  apply wp_bind, hit_point_spec; [|intros; split; [done|tauto]]. intros j6 J6. unfold modify. wp_step. wp_step. cbn [fst snd]. wp_step.
  apply wp_lift. rewrite checked_add_ok by lia. cbn [ok_or]. wp_step. wp_step. cbn [fst snd].
  wp_use (reinitialize_spec (identity w) lsn); [done..| |].
  - intros _ [w3 j7] (H1 & H2 & H3 & H4). cbn in H1, H2, H3, H4 |- *. split_and!; [done|done| |tauto|tauto]. by rewrite H2.
  - intros e [w3 j7] [H1 H2]. cbn in H1, H2 |- *. split; [|tauto].
    destruct H1 as [[]|[]]; [by apply rewriting|by apply rewritten].
Qed.
End reset.
End WalReset.
