(* ===== verification/WalSound.v ===== *)
(** * The scan accepts only committed work

    Nothing is assumed of what the file holds: whatever its bytes are, the part that a
    successful scan accepts is byte for byte a sequence of records, and the batches that
    it returns are the commit records in it, each with the page records before it,
    complete, valid and in order. *)

From S2P Require Import Prelude Wp Key Core Page Superblock DurableFile Wal WalFrames WalReplay.

Module WalSound.
Import Core DurableFile Wal WalFrames WalReplay.

Lemma St_bind_Ok {S E A B} (m : St S E A) (g : A → St S E B) s b s' :
  (m ≫= g) s = (Ok b, s') → ∃ a s1, m s = (Ok a, s1) ∧ g a s1 = (Ok b, s').
Proof. unfold mbind, St_bind. destruct (m s) as [[a|e|k] s1]; [eauto|done|done]. Qed.
Lemma lift_r_Ok {S E A} (r : Result E A) (s s' : S) a : lift_r r s = (Ok a, s') → r = Ok a ∧ s' = s.
Proof. unfold lift_r. by intros [= -> ->]. Qed.
Lemma fail_when_Ok {S E} b (e : E) (s s' : S) u : fail_when b e s = (Ok u, s') → b = false ∧ s' = s.
Proof. unfold fail_when, lift_r, fail_if. destruct b; [done|]. by intros [= _ ->]. Qed.

Ltac st_inv H :=
  let a := fresh "a" in let s := fresh "s" in let E := fresh "E" in
  apply St_bind_Ok in H as (a & s & E & H).

Section sound.
Context `{C : Crc32c} {CS : Crc32cSpec C} `{FS : DurableFileSpec F}.

(** *** Headers *)

(** The fields of a header that decodes. *)
Lemma decode_header_Ok b h :
  decode_header b = Ok h →
  len b = 48 ∧ b.[0; 4) = WAL_MAGIC ∧ b.[7; 8) = [0] ∧ b.[36; 40) = zeros 4 ∧ from_le b.[40; 44) = header_checksum b ∧
  b.[6; 7) = [record_type_code (header_type h)] ∧
  h = mkHeader (from_le b.[4; 6)) (header_type h) (from_le b.[8; 12)) (from_le b.[12; 16)) (from_le b.[16; 24))
        (from_le b.[24; 32)) (from_le b.[32; 36)).
Proof.
  unfold decode_header, fail_if. destruct (Z.eqb_spec (len b) WAL_HEADER_SIZE) as [Hl|]; rsimpl; [|done].
  change WAL_HEADER_SIZE with 48 in Hl. rewrite !index_range_ok by blen. rsimpl. unfold bytes_eqb.
  destruct (bool_decide_reflect (b.[0; 4) = WAL_MAGIC)) as [Hm|]; rsimpl; [|done].
  destruct (negb _ && _); rsimpl; [done|].
  destruct (index_in_range (E:=Error) b 7) as (x & -> & Hx); [lia|]. rsimpl.
  destruct (Z.eqb_spec x 0) as [-> |]; rsimpl; [|done]. destruct (any_nonzero _) eqn:Ez; rsimpl; [done|].
  destruct (Z.eqb_spec (from_le b.[HEADER_CHECKSUM_OFFSET; 44)) (header_checksum b)) as [Hc|]; rsimpl; [|done].
  destruct (index_in_range (E:=Error) b 6) as (y & -> & Hy); [lia|]. rsimpl.
  destruct (WalRecordType_decode y) as [t| |] eqn:Et; rsimpl; [|done..]. intros [= <-]. cbn [header_type].
  apply any_nonzero_false in Ez. rewrite len_slice in Ez by lia.
  assert (y = record_type_code t) as ->.
  { revert Et. unfold WalRecordType_decode. destruct (Z.eqb_spec y 1); [by intros [= <-]|].
    destruct (Z.eqb_spec y 2); [by intros [= <-]|]. by destruct (Z.eqb_spec y 3); intros [= <-]. }
  split_and!; done.
Qed.

(** A header and a payload that the scan accepts are those of the record. *)
Lemma header_canonical b h data :
  is_bytes b → decode_header b = Ok h → verify_payload_checksum b data = Ok tt → len data = header_payload_length h →
  header_frame_length h = WAL_HEADER_SIZE + header_payload_length h + WAL_TRAILER_SIZE →
  header_bytes (mkFrame (header_version h) (header_type h) (header_lsn h) (header_batch_id h) (header_index h) data) = b.
Proof.
  intros Hb (Hl & Hm & H7 & H36 & Hc & H6 & Eh)%decode_header_Ok Hp Hlen Hfl.
  set (x := mkFrame _ _ _ _ _ data). unfold verify_payload_checksum in Hp. rewrite index_range_ok in Hp by (unfold PAYLOAD_CHECKSUM_OFFSET; lia).
  unfold fail_if in Hp. cbn [mbind Result_bind] in Hp. destruct (Z.eqb_spec (from_le b.[PAYLOAD_CHECKSUM_OFFSET; 48)) (crc32c data)) as [Hpc|]; [|done].
  assert (Hsize : frame_size x = from_le b.[8; 12)) by (unfold frame_size, x; cbn [payload]; rewrite Hlen, <-Hfl; by rewrite Eh).
  assert (Hpl : len (payload x) = from_le b.[12; 16)) by (unfold x; cbn [payload]; rewrite Hlen; by rewrite Eh).
  assert (Him : header_image x = copy_at b HEADER_CHECKSUM_OFFSET (zeros 4)).
  { apply eq_by_slices; [unfold header_image; blen|]. replace (len (header_image x)) with 48 by (unfold header_image; blen).
    unfold header_image. rewrite Hsize, Hpl. unfold x. cbn [frame_version record_type record_lsn frame_batch_id record_index payload].
    rewrite Eh. cbn [header_version header_type header_lsn header_batch_id header_index]. rewrite <-Hpc.
    rewrite !to_from_le_slice by (auto with dodb; blen). unfold HEADER_CHECKSUM_OFFSET, PAYLOAD_CHECKSUM_OFFSET.
    apply (slices_eq _ _ 0 4); [lia..|by bslice|].
    apply (slices_eq _ _ 4 6); [lia..|by bslice|].
    apply (slices_eq _ _ 6 7); [lia..|by bslice|].
    apply (slices_eq _ _ 7 8); [lia..|bslice; by rewrite H7|].
    apply (slices_eq _ _ 8 12); [lia..|by bslice|].
    apply (slices_eq _ _ 12 16); [lia..|by bslice|].
    apply (slices_eq _ _ 16 24); [lia..|by bslice|].
    apply (slices_eq _ _ 24 32); [lia..|by bslice|].
    apply (slices_eq _ _ 32 36); [lia..|by bslice|].
    apply (slices_eq _ _ 36 40); [lia..|bslice; by rewrite H36|].
    apply (slices_eq _ _ 40 44); [lia..|by bslice|]. by bslice. }
  unfold header_bytes. rewrite Him. unfold header_checksum at 1.
  rewrite (copy_at_twice b HEADER_CHECKSUM_OFFSET (zeros 4) (zeros 4)) by blen.
  change (crc32c (copy_at b HEADER_CHECKSUM_OFFSET (zeros 4))) with (header_checksum b).
  rewrite <-Hc, to_from_le_slice by (auto with dodb; blen). rewrite copy_at_twice by blen. apply copy_at_id; blen.
Qed.

(** *** First pass *)

(** What a read that succeeds returns. *)
Lemma read_Ok (f f' : F) o n b :
  0 ≤ o → 0 ≤ n → o + n ≤ len (volatile f) ≤ U64_MAX → read_exact_at o n f = (Ok b, f') →
  b = (volatile f).[o; o + n) ∧ volatile f' = volatile f.
Proof.
  intros Ho Hn [Hl Hu] E. pose proof (wal_read_exact f o n Ho Hn Hl (Z.le_trans _ _ _ Hl Hu)) as Hw. unfold wp in Hw. rewrite E in Hw.
  by destruct Hw as [(V & _) ->].
Qed.

(** One record that the scan accepts. *)
Lemma frame_canonical v offset h data :
  is_bytes v → 0 ≤ offset → offset + header_frame_length h ≤ len v →
  decode_header v.[offset; offset + WAL_HEADER_SIZE) = Ok h →
  data = v.[offset + WAL_HEADER_SIZE; offset + WAL_HEADER_SIZE + header_payload_length h) →
  header_frame_length h = WAL_HEADER_SIZE + header_payload_length h + WAL_TRAILER_SIZE → 0 ≤ header_payload_length h →
  verify_payload_checksum v.[offset; offset + WAL_HEADER_SIZE) data = Ok tt →
  from_le v.[offset + WAL_HEADER_SIZE + header_payload_length h; offset + header_frame_length h) = as_u32 (header_frame_length h) →
  header_frame_length h ≤ U32_MAX →
  v.[offset; offset + header_frame_length h) =
    frame_image (mkFrame (header_version h) (header_type h) (header_lsn h) (header_batch_id h) (header_index h) data).
Proof.
  intros Hb Ho Hlen Hd Hdata Hfl Hp0 Hv Ht Hu. unfold WAL_HEADER_SIZE, WAL_TRAILER_SIZE in *.
  assert (Hdl : len data = header_payload_length h) by (rewrite Hdata, len_slice; lia).
  unfold frame_image. rewrite (header_canonical (v.[offset; offset + 48)) h data); [|auto with dodb|done..].
  unfold frame_size. cbn [payload]. unfold WAL_HEADER_SIZE, WAL_TRAILER_SIZE. rewrite Hdl, <-Hfl.
  rewrite (slice_split v offset (offset + 48)), (slice_split v (offset + 48) (offset + 48 + header_payload_length h)) by lia.
  rewrite <-Hdata. f_equal. f_equal.
  unfold as_u32 in Ht. rewrite Z.mod_small in Ht by ulia.
  assert (E : to_le 4 (from_le v.[offset + 48 + header_payload_length h; offset + header_frame_length h)) =
    v.[offset + 48 + header_payload_length h; offset + header_frame_length h)).
  { apply to_from_le_slice; [auto with dodb|]. rewrite len_slice; lia. }
  rewrite Ht in E. by rewrite E.
Qed.

(** Nothing but an incomplete record follows offset [n]. *)
Definition incomplete (v : bytes) (n : Z) : Prop :=
  len v - n < WAL_HEADER_SIZE ∨
  ∃ h, decode_header v.[n; n + WAL_HEADER_SIZE) = Ok h ∧ len v - n < header_frame_length h.

Lemma scan_frames_records fuel offset previous frames (f f' : F) s :
  is_bytes (volatile f) → len (volatile f) ≤ U64_MAX → 0 ≤ offset ≤ len (volatile f) →
  scan_frames fuel (len (volatile f)) offset previous frames f = (Ok s, f') →
  ∃ fs, scanned_frames s = frames ++ fs ∧ ascending previous fs ∧ previous_lsn s = last_lsn previous fs ∧
    offset ≤ valid_length s ≤ len (volatile f) ∧ (volatile f).[offset; valid_length s) = images fs ∧
    incomplete (volatile f) (valid_length s).
Proof.
  set (v := volatile f). intros Hb Hu. remember v as v0 eqn:Hv0. assert (Hv : volatile f = v0) by done. clear Hv0 v. rename v0 into v.
  revert offset previous frames f Hv. induction fuel as [|fuel IH]; intros offset previous frames f Hv Ho Hs; [done|].
  assert (Hstop : ∀ x (g : F), incomplete v offset → (Ok (E:=Error) (mkScanned frames previous offset), g) = (Ok x, f') →
    ∃ fs, scanned_frames x = frames ++ fs ∧ ascending previous fs ∧ previous_lsn x = last_lsn previous fs ∧
      offset ≤ valid_length x ≤ len v ∧ v.[offset; valid_length x) = images fs ∧ incomplete v (valid_length x)).
  { intros x g Hinc [= <- _]. exists []. rewrite app_nil_r. split_and!; try done; simpl; [lia..|]. unfold slice. by rewrite Z.sub_diag. }
  cbn [scan_frames] in Hs. destruct (Z.ltb_spec offset (len v)); [|eapply Hstop; [left; unfold WAL_HEADER_SIZE; lia|done]].
  destruct (Z.ltb_spec (len v - offset) WAL_HEADER_SIZE); [eapply Hstop; [by left|done]|]. unfold WAL_HEADER_SIZE in *.
  st_inv Hs. rename a into hb, s0 into f1, E into Ehb. apply read_Ok in Ehb as [-> V1]; [|rewrite ?Hv; lia..]. rewrite Hv in V1.
  st_inv Hs. apply lift_r_Ok in E as [Hd ->]. rename a into h.
  st_inv Hs. assert (s0 = f1) as -> by (destruct frames; [by injection E|by apply fail_when_Ok in E as [_ ?]]). clear E.
  st_inv Hs. apply fail_when_Ok in E as [E ->].
  apply orb_false_iff in E as [[Hmin Heq]%orb_false_iff Hmax]. apply Z.ltb_ge in Hmin, Hmax. apply negb_false_iff, Z.eqb_eq in Heq.
  unfold WAL_MIN_FRAME_SIZE, WAL_HEADER_SIZE, WAL_TRAILER_SIZE, WAL_MAX_PAYLOAD_SIZE in *.
  destruct (Z.ltb_spec (len v - offset) (header_frame_length h)); [eapply Hstop; [right; exists h; split; [by rewrite Hv in Hd|lia]|done]|].
  st_inv Hs. apply lift_r_Ok in E as [E ->]. apply ok_or_Ok, checked_add_Some in E as [-> _].
  st_inv Hs. rename a into data, E into Edata. apply read_Ok in Edata as [Edata V2]; [|rewrite ?V1; lia..]. rewrite V1 in Edata, V2.
  st_inv Hs. apply lift_r_Ok in E as [E ->]. apply ok_or_Ok, checked_add_Some in E as [-> _].
  st_inv Hs. rename a into trailer, E into Etr. apply read_Ok in Etr as [Etr V3]; [|rewrite ?V2; lia..]. rewrite V2 in Etr, V3.
  st_inv Hs. apply fail_when_Ok in E as [Htr ->]. apply negb_false_iff, Z.eqb_eq in Htr.
  st_inv Hs. rename E into Easc. st_inv Hs. apply lift_r_Ok in E as [Hpc ->].
  assert (Hasc : s2 = s1 ∧ match previous with Some p => p < header_lsn h | None => True end).
  { destruct previous as [p|]; [|by injection Easc]. apply fail_when_Ok in Easc as [Hle ->]. by apply Z.leb_gt in Hle. }
  destruct Hasc as [-> Hasc]. destruct a3.
  apply IH in Hs as (fs & K1 & K2 & K3 & K4 & K5 & K6); [|done|lia].
  eexists (_ :: fs). split_and!; [by rewrite K1, <-app_assoc|by split|exact K3|lia..| |exact K6].
  rewrite images_cons, <-K5, (slice_split v offset (offset + header_frame_length h)) by lia. f_equal.
  apply frame_canonical; try done; rewrite ?Z.add_assoc in *; try lia; try congruence.
  - by rewrite Hv in Hd.
  - by rewrite Hv in Hpc.
  - rewrite <-Htr, Etr. unfold WAL_HEADER_SIZE. do 2 f_equal. lia.
  - ulia.
Qed.

(** *** Second pass *)

(** A page record of a batch. *)
Definition page_record (bid : Z) (x : Frame) (p : WalPageImage) : Prop :=
  record_type x = PageImage ∧ frame_batch_id x = bid ∧ decode_page_image (payload x) = Ok p.
Definition is_page_record (x : Frame) : Prop := record_type x = PageImage.

(** The records of a pending batch: contiguously numbered page records. *)
Record pending_run (p : PendingBatch) (xs : list Frame) : Prop := {
  pr_pages : Forall2 (page_record (pending_batch_id p)) xs (pending_pages p);
  pr_indices : ∀ i x, xs !! i = Some x → record_index x = as_u32 (Z.of_nat i);
  pr_first : match xs with x :: _ => record_lsn x = pending_first_lsn p | [] => False end;
  pr_digest : digest_input p = concat (payload <$> xs);
}.

(** The records of a committed batch: its page records, contiguously numbered, and then a
    commit record with the next number, the LSN of the first of them, their count, and the
    checksum of their payloads. *)
Record committed_run (xs : list Frame) (c : Frame) (b : CommittedWalBatch) : Prop := {
  cr_pages : Forall2 (page_record (batch_id b)) xs (batch_pages b);
  cr_indices : ∀ i x, xs !! i = Some x → record_index x = as_u32 (Z.of_nat i);
  cr_commit : record_type c = Commit ∧ frame_batch_id c = batch_id b ∧ record_lsn c = batch_commit_lsn b ∧
    record_index c = as_u32 (len xs);
  cr_metadata : ∃ x, head xs = Some x ∧
    decode_commit_payload (payload c) = Ok (record_lsn x, len xs, crc32c (concat (payload <$> xs)));
}.

(** The committed batches of a sequence of records, which ends with a commit: in between
    there are only page records of batches that were abandoned. *)
Inductive committed_log : list Frame → list CommittedWalBatch → Prop :=
  | committed_none : committed_log [] []
  | committed_more fs bs abandoned xs c b :
      committed_log fs bs → Forall is_page_record abandoned → committed_run xs c b →
      committed_log (fs ++ abandoned ++ xs ++ [c]) (bs ++ [b]).

(** What was replayed so far. *)
Definition replayed (fs : list Frame) (r : Replay) : Prop :=
  ∃ gs abandoned xs, fs = gs ++ abandoned ++ xs ∧ committed_log gs (replay_committed r) ∧ Forall is_page_record abandoned ∧
    match replay_pending r with Some p => pending_run p xs | None => xs = [] end.

Lemma pending_run_records p xs : pending_run p xs → Forall is_page_record xs.
Proof. intros [Hp _ _ _]. induction Hp as [|x q xs qs (H1 & _) _ IH]; [constructor|by constructor]. Qed.

Lemma replay_page_records fs x r r' :
  replayed fs r → record_type x = PageImage → replay_page x r = Ok r' → replayed (fs ++ [x]) r'.
Proof.
  intros (gs & abandoned & xs & -> & Hlog & Hab & Hpend) Ht. unfold replay_page. intros (page & Hd & Hr)%bind_Ok.
  apply bind_Ok in Hr as ([] & _ & Hr). apply bind_Ok in Hr as ([current highest] & Hcur & Hr).
  apply bind_Ok in Hr as ([] & Hi%fail_if_Ok & [= <-]). apply negb_false_iff, Z.eqb_eq in Hi.
  assert (Hfresh : (fail_if (frame_batch_id x <=? highest_batch_id_seen r)
      (Corruption "WAL batch IDs are not strictly increasing");;
      Ok (mkPending (frame_batch_id x) (record_lsn x) [] [], frame_batch_id x)) = Ok (current, highest) →
    Forall is_page_record xs →
    replayed ((gs ++ abandoned ++ xs) ++ [x]) (mkReplay (replay_committed r)
      (Some (mkPending (pending_batch_id current) (pending_first_lsn current) (pending_pages current ++ [page])
        (digest_input current ++ payload x))) highest (max_batch_id r))).
  { intros ([] & _ & [= <- _])%bind_Ok Hxs. exists gs, (abandoned ++ xs), [x]. cbn. split; [by rewrite <-!app_assoc|].
    split; [done|]. split; [by apply Forall_app|]. split; cbn; [|..].
    - by repeat constructor.
    - intros [|i] y Hy; [injection Hy as <-; exact Hi|done].
    - done.
    - by rewrite app_nil_r. }
  destruct (replay_pending r) as [p|] eqn:Ep; [|by apply Hfresh; [|subst xs; constructor]].
  destruct (Z.eqb_spec (pending_batch_id p) (frame_batch_id x)) as [Eb|]; [|by apply Hfresh; [|eapply pending_run_records]].
  injection Hcur as <- <-. destruct Hpend as [P1 P2 P3 P4]. exists gs, abandoned, (xs ++ [x]). cbn.
  split; [by rewrite <-!app_assoc|]. split; [done|]. split; [done|]. pose proof (Forall2_length _ _ _ P1) as Hlen. split; cbn.
  - apply Forall2_app; [done|]. by repeat constructor.
  - intros i y [Hy|[Hge Hy]]%lookup_app_Some; [by apply P2|]. apply list_lookup_singleton_Some in Hy as [Hz <-].
    rewrite Hi. f_equal. unfold len. lia.
  - by destruct xs.
  - rewrite P4, fmap_app, concat_app. cbn. by rewrite app_nil_r.
Qed.

Lemma replay_commit_records fs x r r' :
  replayed fs r → record_type x = Commit → replay_commit x r = Ok r' → replayed (fs ++ [x]) r'.
Proof.
  intros (gs & abandoned & xs & -> & Hlog & Hab & Hpend) Ht. unfold replay_commit. intros (cur & Hcur%ok_or_Ok & Hr)%bind_Ok.
  rewrite Hcur in Hpend. destruct Hpend as [P1 P2 P3 P4].
  apply bind_Ok in Hr as ([] & Hid%fail_if_Ok & Hr). apply orb_false_iff in Hid as [Hid Hix].
  apply negb_false_iff, Z.eqb_eq in Hid. apply negb_false_iff, Z.eqb_eq in Hix.
  apply bind_Ok in Hr as ([[first count] digest] & Hdec & Hr). apply bind_Ok in Hr as ([] & Hmeta%fail_if_Ok & Hr).
  apply orb_false_iff in Hmeta as [[H1%negb_false_iff%Z.eqb_eq H2%negb_false_iff%Z.eqb_eq]%orb_false_iff H3%negb_false_iff%Z.eqb_eq].
  apply bind_Ok in Hr as ([] & _ & [= <-]). pose proof (Forall2_length _ _ _ P1) as Hlen.
  assert (Hl : len xs = len (pending_pages cur)) by (unfold len; lia).
  exists (gs ++ abandoned ++ xs ++ [x]), [], []. cbn. rewrite app_nil_r. split; [by rewrite <-!app_assoc|]. split; [|by split].
  apply committed_more; [done|done|]. split; cbn.
  - by rewrite <-Hid.
  - done.
  - by rewrite Hl.
  - destruct xs as [|y xs]; [done|]. exists y. split; [done|]. rewrite Hdec, H1, P3, H2, <-H3, P4, Hl. done.
Qed.

Lemma replay_frames_records start fs gs r r' :
  replayed gs r → replay_frames start fs r = Ok r' → replayed (gs ++ fs) r'.
Proof.
  revert gs r. induction fs as [|x fs IH]; intros gs r Hr; simpl; [intros [= <-]; by rewrite app_nil_r|].
  intros (r1 & Hr1 & Hr')%bind_Ok. replace (gs ++ x :: fs) with ((gs ++ [x]) ++ fs) by (by rewrite <-app_assoc).
  eapply IH; [|exact Hr']. unfold replay_frame in Hr1. apply bind_Ok in Hr1 as ([] & _ & Hr1).
  destruct (record_type x) eqn:Et; [done|..].
  - eapply replay_page_records; [|done|exact Hr1]. exact Hr.
  - eapply replay_commit_records; [|done|exact Hr1]. exact Hr.
Qed.

(** A valid batch: page images that decode in their own slot, all stamped with
    the commit LSN. *)
Definition batch_ok (b : CommittedWalBatch) : Prop :=
  batch_pages b ≠ [] ∧
  Forall (λ p, validate_page_image p = Ok tt ∧
               validate_page_image_lsn p (batch_commit_lsn b) = Ok tt) (batch_pages b).

(** Batch identifiers and commit LSNs strictly ascend, within bounds. *)
Fixpoint batches_ascend (low : Lsn) (bid : Z) (bs : list CommittedWalBatch) : Prop :=
  match bs with
  | [] => True
  | b :: bs' => low < batch_commit_lsn b ∧ bid < batch_id b ∧
                batches_ascend (batch_commit_lsn b) (batch_id b) bs'
  end.

Fixpoint top_lsn (low : Lsn) (bs : list CommittedWalBatch) : Lsn :=
  match bs with [] => low | b :: bs' => top_lsn (batch_commit_lsn b) bs' end.
Fixpoint top_batch (bid : Z) (bs : list CommittedWalBatch) : Z :=
  match bs with [] => bid | b :: bs' => top_batch (batch_id b) bs' end.

Lemma batches_ascend_snoc low bid bs b :
  batches_ascend low bid bs → top_lsn low bs < batch_commit_lsn b → top_batch bid bs < batch_id b →
  batches_ascend low bid (bs ++ [b]) ∧ top_lsn low (bs ++ [b]) = batch_commit_lsn b ∧
  top_batch bid (bs ++ [b]) = batch_id b.
Proof.
  revert low bid. induction bs as [|x bs IH]; intros low bid; simpl; [done|].
  intros (H1 & H2 & H3) Hl Hb. destruct (IH _ _ H3 Hl Hb) as (I1 & I2 & I3). by split_and!.
Qed.

Record replay_inv (start : Lsn) (last : Lsn) (r : Replay) : Prop := {
  ri_batches : Forall batch_ok (replay_committed r);
  ri_ascend : batches_ascend start 0 (replay_committed r);
  ri_last : start ≤ top_lsn start (replay_committed r) ≤ last;
  ri_top : top_batch 0 (replay_committed r) ≤ highest_batch_id_seen r ≤ max_batch_id r;
  ri_pending : match replay_pending r with
    | None => True
    | Some p => pending_batch_id p = highest_batch_id_seen r ∧
        top_batch 0 (replay_committed r) < pending_batch_id p ∧ pending_pages p ≠ [] ∧
        Forall (λ q, validate_page_image q = Ok tt) (pending_pages p)
    end;
}.

Lemma validate_all_lsns_Forall ps lsn :
  validate_all_lsns ps lsn = Ok tt → Forall (λ p, validate_page_image_lsn p lsn = Ok tt) ps.
Proof.
  induction ps as [|p ps IH]; simpl; [done|]. destruct (validate_page_image_lsn p lsn) as [[]| |] eqn:E;
    rsimpl; [|done..]. intros Hps. constructor; auto.
Qed.

Lemma replay_page_inv start last x r r' :
  replay_inv start last r → last < record_lsn x → frame_batch_id x ≤ max_batch_id r →
  replay_page x r = Ok r' → replay_inv start (record_lsn x) r'.
Proof.
  intros [I1 I2 I3 I4 I5] Hl Hm. unfold replay_page. intros (page & _ & Hr)%bind_Ok.
  apply bind_Ok in Hr as ([] & Hval & Hr). apply bind_Ok in Hr as ([current highest] & Hcur & Hr).
  apply bind_Ok in Hr as ([] & _ & [= <-]).
  assert (Hc : pending_batch_id current = highest ∧ top_batch 0 (replay_committed r) < highest ∧
    highest_batch_id_seen r ≤ highest ≤ max_batch_id r ∧
    Forall (λ q, validate_page_image q = Ok tt) (pending_pages current)).
  { assert (Hfresh : (fail_if (frame_batch_id x <=? highest_batch_id_seen r)
        (Corruption "WAL batch IDs are not strictly increasing");;
        Ok (mkPending (frame_batch_id x) (record_lsn x) [] [], frame_batch_id x)) = Ok (current, highest) →
      pending_batch_id current = highest ∧ top_batch 0 (replay_committed r) < highest ∧
      highest_batch_id_seen r ≤ highest ≤ max_batch_id r ∧
      Forall (λ q, validate_page_image q = Ok tt) (pending_pages current)).
    { intros ([] & Hg%fail_if_Ok & [= <- <-])%bind_Ok. apply Z.leb_gt in Hg. simpl. split_and!; [done|lia|lia|lia|done]. }
    destruct (replay_pending r) as [p|]; [|by apply Hfresh].
    destruct (Z.eqb_spec (pending_batch_id p) (frame_batch_id x)); [|by apply Hfresh].
    injection Hcur as <- <-. destruct I5 as (E1 & E2 & E3 & E4). split_and!; try done; lia. }
  destruct Hc as (E1 & E2 & E3 & E4). split; cbn [replay_committed replay_pending highest_batch_id_seen
    max_batch_id pending_batch_id pending_pages]; try done; [lia|lia|].
  split_and!; [done|lia|by destruct (pending_pages current)|].
  apply Forall_app. split; [done|]. by apply Forall_singleton.
Qed.

Lemma replay_commit_inv start last x r r' :
  replay_inv start last r → last < record_lsn x →
  replay_commit x r = Ok r' → replay_inv start (record_lsn x) r'.
Proof.
  intros [I1 I2 I3 I4 I5] Hl. unfold replay_commit. intros (cur & Hcur%ok_or_Ok & Hr)%bind_Ok.
  rewrite Hcur in I5. destruct I5 as (E1 & E2 & E3 & E4).
  apply bind_Ok in Hr as ([] & Hid%fail_if_Ok & Hr). apply orb_false_iff in Hid as [Hid _].
  apply negb_false_iff, Z.eqb_eq in Hid.
  apply bind_Ok in Hr as ([[first count] digest] & _ & Hr). apply bind_Ok in Hr as ([] & _ & Hr).
  apply bind_Ok in Hr as ([] & Hlsn%validate_all_lsns_Forall & [= <-]).
  destruct (batches_ascend_snoc start 0 (replay_committed r)
    (mkBatch (frame_batch_id x) (record_lsn x) (pending_pages cur)) I2) as (A1 & A2 & A3); [simpl; lia..|].
  split; cbn [replay_committed replay_pending highest_batch_id_seen max_batch_id]; try done.
  - apply Forall_app. split; [done|]. apply Forall_singleton. split; [done|]. simpl.
    rewrite Forall_forall in E4, Hlsn |- *. auto.
  - rewrite A2. simpl. lia.
  - rewrite A3. simpl. lia.
Qed.

Lemma replay_frames_inv start last fs r r' :
  replay_inv start last r → ascending (Some last) fs → start ≤ last →
  replay_frames start fs r = Ok r' →
  ∃ last', last_lsn (Some last) fs = Some last' ∧ replay_inv start last' r'.
Proof.
  revert last r. induction fs as [|x fs IH]; intros last r Hi Hasc Hst; simpl.
  { intros [= <-]. eauto. }
  destruct Hasc as [Hx Hasc]. intros (r1 & Hr1 & Hr)%bind_Ok.
  assert (Hi1 : replay_inv start (record_lsn x) r1).
  { unfold replay_frame in Hr1. apply bind_Ok in Hr1 as ([] & _ & Hr1).
    assert (Hi' : replay_inv start last (mkReplay (replay_committed r) (replay_pending r)
      (highest_batch_id_seen r) (Z.max (max_batch_id r) (frame_batch_id x)))).
    { destruct Hi as [I1 I2 I3 I4 I5]. split; try done. simpl. lia. }
    destruct (record_type x); [done| |].
    - eapply replay_page_inv; [exact Hi'|done|simpl; lia|done].
    - eapply replay_commit_inv; [exact Hi'|done|done]. }
  eapply IH; [done|done|lia|done].
Qed.
(** The guard on the history boundary raises the lower bound of the records. *)
Lemma replay_after_start start previous fs r r' :
  replay_frames start fs r = Ok r' → ascending previous fs → ascending (Some start) fs.
Proof.
  destruct fs as [|x fs]; [done|]. simpl. intros (r1 & Hr1 & _)%bind_Ok [_ Hasc]. split; [|done].
  unfold replay_frame in Hr1. apply bind_Ok in Hr1 as ([] & Hg%fail_if_Ok & _). by apply Z.leb_gt in Hg.
Qed.

Lemma interpret_records i s r :
  interpret i s = Ok r →
  ∃ init fs tail, scanned_frames s = init :: fs ++ tail ∧ record_type init = Init ∧
    committed_log fs (result_committed r) ∧ Forall is_page_record tail ∧
    verify_identity (frame_version init) (payload init) i = Ok (result_history_start r).
Proof.
  unfold interpret. destruct (scanned_frames s) as [|x rest]; [done|]. intros ([] & Hinit%fail_if_Ok & Hr)%bind_Ok.
  apply orb_false_iff in Hinit as [[[Hinit _]%orb_false_iff _]%orb_false_iff _].
  apply negb_false_iff, bool_decide_eq_true in Hinit. apply bind_Ok in Hr as (start & Hv & Hr).
  apply bind_Ok in Hr as (rp & Hrep & Hr). apply bind_Ok in Hr as (next & _ & Hr). apply bind_Ok in Hr as (nb & _ & [= <-]).
  destruct (replay_frames_records start rest [] replay_start rp) as (gs & abandoned & xs & E & Hlog & Hab & Hpend); [|done|].
  { exists [], [], []. split_and!; done || constructor. }
  exists x, gs, (abandoned ++ xs). split; [by f_equal|]. split_and!; try done. apply Forall_app. split; [done|].
  destruct (replay_pending rp); [by eapply pending_run_records|by subst xs].
Qed.

Lemma interpret_sound i s r :
  ascending None (scanned_frames s) → previous_lsn s = last_lsn None (scanned_frames s) →
  interpret i s = Ok r →
  Forall batch_ok (result_committed r) ∧
  batches_ascend (result_history_start r) 0 (result_committed r) ∧
  (result_committed r ≠ [] → top_lsn (result_history_start r) (result_committed r) < result_next_lsn r) ∧
  top_batch 0 (result_committed r) < result_next_batch_id r ∧ result_valid_length r = valid_length s.
Proof.
  intros Hasc Hprev. unfold interpret. destruct (scanned_frames s) as [|x rest]; [done|].
  destruct Hasc as [_ Hasc]. intros ([] & _ & Hr)%bind_Ok. apply bind_Ok in Hr as (start & _ & Hr).
  apply bind_Ok in Hr as (rp & Hrep & Hr). apply bind_Ok in Hr as (next & Hnext%ok_or_Ok & Hr).
  apply bind_Ok in Hr as (nb & Hnb%ok_or_Ok & [= <-]).
  cbn [result_committed result_history_start result_next_lsn result_next_batch_id result_valid_length].
  pose proof (replay_after_start _ _ _ _ _ Hrep Hasc) as Hasc'.
  destruct (replay_frames_inv start start rest replay_start rp) as (last & Hlast & [I1 I2 I3 I4 I5]);
    [split; simpl; try done; lia|done|done|done|].
  apply checked_add_Some in Hnext as [-> _], Hnb as [-> _]. split_and!; try done; [|lia].
  intros Hne. destruct rest as [|y rest].
  { injection Hrep as <-. done. }
  rewrite Hprev. cbn [last_lsn]. cbn [last_lsn] in Hlast. rewrite Hlast. simpl. lia.
Qed.

(** C29: whatever bytes the file holds, a scan that succeeds returns exactly the committed
    batches in it.  The part of the file that it accepts is, byte for byte, an
    initialization record of this identity followed by page and commit records, and only an
    incomplete record follows it.  The
    batches returned are those of the commit records, all of them and in order: each
    commit record follows the contiguously numbered page records of its batch and carries
    their number, the LSN of the first of them, their count and the checksum of their
    payloads.  Every page image decodes in its own slot and carries the
    commit's LSN; batch identifiers and commit LSNs strictly ascend after the
    history boundary, and the next identifiers are beyond all of them. *)
Theorem scan_returns_only_commits i (f f' : F) r :
  is_bytes (volatile f) → len (volatile f) ≤ U64_MAX → scan_wal i f = (Ok r, f') →
  (∃ init fs tail, 0 ≤ result_valid_length r ≤ len (volatile f) ∧
     (volatile f).[0; result_valid_length r) = images (init :: fs ++ tail) ∧
     incomplete (volatile f) (result_valid_length r) ∧ record_type init = Init ∧
     verify_identity (frame_version init) (payload init) i = Ok (result_history_start r) ∧
     committed_log fs (result_committed r) ∧ Forall is_page_record tail) ∧
  Forall batch_ok (result_committed r) ∧
  batches_ascend (result_history_start r) 0 (result_committed r) ∧
  (result_committed r ≠ [] → top_lsn (result_history_start r) (result_committed r) < result_next_lsn r) ∧
  top_batch 0 (result_committed r) < result_next_batch_id r.
Proof.
  intros Hb Hu Hs. unfold scan_wal in Hs. st_inv Hs. injection E as <- <-. st_inv Hs.
  apply lift_r_Ok in E as [E ->]. pose proof (file_len_spec f) as Hlen. rewrite E in Hlen. subst a. st_inv Hs.
  apply lift_r_Ok in Hs as [Hi ->].
  destruct (scan_frames_records _ _ _ _ _ _ _ Hb Hu (conj (Z.le_refl 0) (len_nonneg _)) E0) as (fs & E1 & E2 & E3 & E4 & E5 & E6).
  rewrite app_nil_l in E1. subst fs. destruct (interpret_records _ _ _ Hi) as (init & fs & tail & R1 & R2 & R3 & R4 & R5).
  destruct (interpret_sound _ _ _ E2 E3 Hi) as (K1 & K2 & K3 & K4 & K5). split_and!; try done.
  exists init, fs, tail. rewrite K5, <-R1. split_and!; done || lia.
Qed.
End sound.
End WalSound.
