(* ===== verification/WalTheorems.v ===== *)
(** * Properties of the write-ahead log *)

From S2P Require Import Prelude Wp Key Core Page Superblock DurableFile CrashFile Wal WalFrames.
From S2P Require Import WalReplay WalRecovery WalAppend WalCrash WalReset WalSound.

Module WalTheorems.
Import Core DurableFile Wal WalFrames WalReplay WalRecovery WalAppend WalCrash WalReset.

Section lemmas.
Context `{C : Crc32c} {CS : Crc32cSpec C} `{FS : DurableFileSpec F} `{JS : FaultInjectorSpec J}.
Implicit Types (f : F) (w : WalLog F) (j : option J).

Lemma open_ok v i start start' ss t f :
  holds_log v i start ss t (volatile f) → durable f = volatile f → reliable f →
  ∃ w s, open i start' (f, None : option J) = (Ok w, s) ∧ wal_rep w ss.
Proof.
  intros Hh Hd Hr. pose proof (open_spec v i start start' ss t f (None : option J) Hh Hd) as Ho.
  unfold wp in Ho. destruct (open i start' (f, None)) as [[w|e|k] s].
  - naive_solver.
  - destruct Ho as (_ & _ & [?|?]); done.
  - done.
Qed.
(** Reopening an intact log. *)
Lemma reopen_old ss w f start :
  wal_rep w ss → volatile f = volatile (file w) → durable f = volatile (file w) →
  len (volatile (file w)) ≤ U64_MAX → reliable f →
  ∃ w' s, open (J:=J) (identity w) start (f, None) = (Ok w', s) ∧
    committed w' = committed w ∧ history_start_lsn w' = history_start_lsn w.
Proof.
  intros [R1 R2 R3 R4 R5 R6 R7 R8] Hv Hd Hu Hrel.
  assert (Hh : holds_log (format_version w) (identity w) (history_start_lsn w) ss [] (volatile f)).
  { rewrite Hv. split; try done; [lia|lia|by left|by rewrite app_nil_r]. }
  pose proof (open_spec _ _ _ start _ _ f (None : option J) Hh ltac:(congruence)) as Ho. unfold wp in Ho.
  destruct (open (identity w) start (f, None)) as [[w'|e|k] s]; [| |done].
  - destruct Ho as (_ & Hw' & _ & _ & Hst & _). exists w', s. split_and!; [done| |done].
    by rewrite (rep_committed _ _ Hw').
  - destruct Ho as (_ & _ & [?|?]); done.
Qed.

Lemma reopen_fresh i start c f :
  identity_ok i → 0 ≤ start < U64_MAX → init_prefix i start c →
  volatile f = c → durable f = c → reliable f →
  ∃ w' s, open (J:=J) i start (f, None) = (Ok w', s) ∧ committed w' = [] ∧ history_start_lsn w' = start.
Proof.
  intros Hi Hs (k & Hk & Hck) Hvol Hdur Hrel. destruct (Z.lt_ge_cases k INIT_FRAME_SIZE) as [Hlt|Hge].
  - pose proof (open_torn_spec i start k f (None : option J) Hi Hs ltac:(lia) (eq_trans Hvol Hck)) as Ho.
    unfold wp in Ho. destruct (open i start (f, None)) as [[w'|e|q] s]; [| |done].
    + destruct Ho as (_ & [[Hw' E1 E2 E3 E4 E5 E6] _] & _). exists w', s.
      split_and!; [done|by rewrite (rep_committed _ _ Hw')|done].
    + by destruct Ho.
  - rewrite slice_full in Hck by (rewrite len_init_bytes; lia).
    assert (Hh : holds_log WAL_FORMAT_VERSION i start [] [] (volatile f)).
    { rewrite Hvol, Hck. split; try done; [by left|ulia|by left|..].
      - rewrite app_nil_r. apply init_image.
      - rewrite len_init_bytes. by vm_compute. }
    pose proof (open_spec _ _ _ start _ _ f (None : option J) Hh ltac:(congruence)) as Ho. unfold wp in Ho.
    destruct (open i start (f, None)) as [[w'|e|q] s]; [| |done].
    + destruct Ho as (_ & Hw' & _ & _ & Hst & _). exists w', s.
      split_and!; [done|by rewrite (rep_committed _ _ Hw')|done].
    + destruct Ho as (_ & _ & [?|?]); done.
Qed.
End lemmas.

Section theorems.
Context `{C : Crc32c} {CS : Crc32cSpec C} `{FS : DurableFileSpec F} `{JS : FaultInjectorSpec J}.
Implicit Types (f : F) (w : WalLog F) (j : option J).

(** C19: group commit is atomic and durable across crashes.  Whatever happens while
    a group of commits is appended (I/O errors, short writes, a fault at any named
    point), and whatever part of the unsynced bytes survives the crash, the next
    open succeeds and finds the batches that were committed before, followed by the
    first few commits of the group, each whole; when the append had returned
    success, it finds all of them. *)
Theorem group_commit_crash_safe ss cs w j f c start :
  wal_rep w ss → ready w → Forall commit_typed cs → durable (file w) = volatile (file w) →
  next_lsn w + record_total cs ≤ U64_MAX → next_batch_id w + len cs ≤ U64_MAX →
  len c ≤ U64_MAX → crash_image (file (append_group cs (w, j)).2.1) c →
  reliable f → volatile f = c → durable f = c →
  ∃ w' s, open (J:=J) (identity w) start (f, None) = (Ok w', s) ∧
    ∃ m, committed w' = committed w ++ take m (committed_of <$> cs) ∧
         (is_ok (append_group cs (w, j)).1 = true → (length cs ≤ m)%nat).
Proof.
  intros Hrep Hr Hty Hsync Hn Hb Hu Hc Hrel Hvol Hdur. subst c.
  pose proof (append_group_spec ss cs w j Hrep Hr Hty) as Ha. unfold wp in Ha.
  destruct (append_group cs (w, j)) as [[rs|e|k] s]; cbn [fst snd is_ok] in *; [| |done].
  - destruct Ha as (Hrep' & Hr' & Hcom & Hid & Hh & Hds & _).
    assert (Hv : volatile f = volatile (file s.1)).
    { destruct Hc as [[K1 K2]|[-> | ->]]; [|done|done]. rewrite Hds in K1. by apply (anti_symm prefix). }
    destruct Hrep' as [R1 R2 R3 R4 R5 R6 R7 R8]. rewrite <-Hid.
    destruct (open_ok (J:=J) (format_version s.1) (identity s.1) (history_start_lsn s.1) start
      (ss ++ segments_of (next_lsn w) cs) [] f) as (w' & s' & Ho & Hw'); [|congruence|done|].
    { split; try done; [lia|lia|by left|by rewrite Hv, R5, app_nil_r]. }
    exists w', s'. split; [done|]. exists (length cs). rewrite take_ge by (rewrite length_fmap; lia).
    by rewrite (rep_committed _ _ Hw'), <-R6, Hcom.
  - destruct (failed_crash ss cs w j s _ Hrep Hr Hsync Hn Hb Ha Hu Hc) as (m & v & ss' & t & Hholds & Hcom & _).
    destruct (open_ok (J:=J) _ _ _ start _ _ f Hholds) as (w' & s' & Ho & Hw'); [congruence|done|].
    exists w', s'. split; [done|]. exists m. split; [|done].
    by rewrite (rep_committed _ _ Hw'), commits_app, Hcom, (rep_committed _ _ Hrep).
Qed.

(** On a file without faults and without a fault injector, a valid group is
    accepted: the append returns, and the batches are committed, indexed and
    synced. *)
Theorem group_append_succeeds ss cs w :
  wal_rep w ss → ready w → Forall commit_typed cs → cs ≠ [] →
  commits_valid (next_lsn w) (next_batch_id w) cs → counters_room w cs → reliable (file w) →
  len (volatile (file w)) + len (images (log_frames (format_version w) (segments_of (next_lsn w) cs))) ≤ U64_MAX →
  ∃ rs w' j, append_group cs (w, None : option J) = (Ok rs, (w', j)) ∧
    committed w' = committed w ++ (committed_of <$> cs) ∧ durable (file w') = volatile (file w') ∧
    wal_rep w' (ss ++ segments_of (next_lsn w) cs).
Proof.
  intros Hrep Hr Hty Hne Hv Hroom Hrel Hlen.
  pose proof (append_group_spec ss cs w (None : option J) Hrep Hr Hty) as Ha. unfold wp in Ha.
  destruct (append_group cs (w, None)) as [[rs|e|k] [w' j']]; [| |done].
  - destruct Ha as (K1 & K2 & K3 & K4 & K5 & K6 & K7). exists rs, w', j'. by split_and!.
  - destruct Ha as [_ _ _ [?|[?|[?|[?|[?|?]]]]]]; try done. lia.
Qed.

(** Opening a log after a crash cuts off the torn frame and returns the
    committed batches; if the open itself fails (a fault while truncating), the file
    still holds the same log, so that recovery can be started again. *)
Theorem open_recovers_log v i start start' ss t f j :
  holds_log v i start ss t (volatile f) → durable f = volatile f →
  match open i start' (f, j) with
  | (Ok w, s) => committed w = commits ss ∧ volatile (file w) = log_bytes v i start ss ∧
                 durable (file w) = volatile (file w) ∧ next_lsn w = log_last 0 ss + 1 ∧
                 next_batch_id w = log_batch 0 ss + 1
  | (Err _, s) => (¬ reliable f ∨ j ≠ None) ∧ still_log v i start ss (volatile s.1) ∧
                  still_log v i start ss (durable s.1)
  | (Stuck _, _) => False
  end.
Proof.
  intros Hh Hd. pose proof (open_spec v i start start' ss t f j Hh Hd) as Ho. unfold wp in Ho.
  destruct (open i start' (f, j)) as [[w|e|k] s]; [| |done].
  - destruct Ho as (K1 & [R1 R2 R3 R4 R5 R6 R7 R8] & K3 & K4 & K5 & K6 & K7 & K8 & K9). subst.
    by split_and!.
  - destruct Ho as (K1 & K2 & K3). by split_and!.
Qed.

(** C28: a reset that is interrupted anywhere loses nothing it should keep: whatever
    the crash leaves on disk, reopening with the same checkpoint LSN gives either
    the old log with all its batches, or the fresh log that starts after the
    checkpoint. *)
Theorem reset_crash_safe ss lsn w j f c :
  wal_rep w ss → durable (file w) = volatile (file w) → 0 ≤ lsn < U64_MAX →
  len (volatile (file w)) ≤ U64_MAX →
  crash_image (file (reset lsn (w, j)).2.1) c → reliable f → volatile f = c → durable f = c →
  ∃ w' s, open (J:=J) (identity w) lsn (f, None) = (Ok w', s) ∧
    (committed w' = committed w ∧ history_start_lsn w' = history_start_lsn w ∨
     committed w' = [] ∧ history_start_lsn w' = lsn).
Proof.
  intros Hrep Hsync Hlsn Hu Hc Hrel Hvol Hdur. pose proof (rep_identity _ _ Hrep) as Hi.
  pose proof (reset_spec lsn w j Hi Hlsn) as Hres. unfold wp in Hres.
  assert (Himg : c = volatile (file w) ∨ init_prefix (identity w) lsn c).
  { destruct (reset lsn (w, j)) as [[[]|e|k] s]; cbn [snd] in Hc; [| |done].
    - right. destruct Hres as (_ & [Hf E1 E2 E3 E4 E5 E6] & _).
      rewrite (crash_image_synced _ _ Hc E6), (rep_bytes _ _ Hf), E1, E2, E3, <-init_image.
      apply init_prefix_full.
    - eapply resetting_image; [apply Hres|done|done]. }
  destruct Himg as [Hcw|Hcr].
  - destruct (reopen_old (J:=J) ss w f lsn Hrep) as (w' & s & Ho & K1 & K2); [congruence|congruence|done|done|].
    exists w', s. split; [done|]. by left.
  - destruct (reopen_fresh (J:=J) (identity w) lsn c f) as (w' & s & Ho & K1 & K2); try done.
    exists w', s. split; [done|]. by right.
Qed.
(** An encoded record reads back: its header decodes to the fields that were
    encoded, the payload is found behind it and passes its checksum, and the trailer
    repeats the frame length. *)
Theorem frame_roundtrip v t lsn bid index data b :
  v = WAL_FORMAT_VERSION ∨ v = LEGACY_WAL_FORMAT_VERSION → u64 lsn → u64 bid → u32 index →
  encode_frame v t lsn bid index data = Ok b →
  len b = WAL_HEADER_SIZE + len data + WAL_TRAILER_SIZE ∧
  decode_header (b.[0; WAL_HEADER_SIZE)) = Ok (mkHeader v t (len b) (len data) lsn bid index) ∧
  b.[WAL_HEADER_SIZE; WAL_HEADER_SIZE + len data) = data ∧
  verify_payload_checksum (b.[0; WAL_HEADER_SIZE)) data = Ok tt ∧
  from_le (b.[WAL_HEADER_SIZE + len data; len b)) = len b.
Proof.
  intros Hv Hl Hb Hi [-> Hp]%encode_frame_Ok. set (x := mkFrame v t lsn bid index data).
  assert (Hx : frame_ok x) by (by split_and!).
  destruct (frame_slices [] x [] (frame_image x)) as (S1 & S2 & S3); [by rewrite app_nil_r|].
  rewrite len_nil, !Z.add_0_l in *. rewrite S1, len_frame_image. change (payload x) with data in *.
  change (WAL_HEADER_SIZE + len data + WAL_TRAILER_SIZE) with (frame_size x) in S3 |- *.
  split_and!.
  - done.
  - exact (decode_header_bytes x Hx).
  - exact S2.
  - exact (verify_payload_checksum_bytes x).
  - rewrite S3. apply from_to_le4. unfold frame_size. change (payload x) with data. blen.
Qed.
End theorems.

(** ** A concrete log, file and injector *)

Module Sample.
#[local] Existing Instance Castagnoli.instance.
#[local] Existing Instance Castagnoli.spec.

Definition id0 : WalIdentity := mkIdentity (zeros 16) 1 2 3.
Definition log0 : WalLog CrashFile.CrashableFile :=
  mkWal (CrashFile.from_durable (init_bytes id0 0)) id0 WAL_FORMAT_VERSION 1 1 0 [] default_report 0 0.
(** An empty leaf at page 2, stamped with LSN 2. *)
Definition page0 : WalPageImage := mkImage 2 (Page.sealed (Page.PageHeader_new Page.Leaf 2 2) []).
Definition commit0 : WalCommit := mkCommit 1 2 [page0].

Lemma reliable_file b : reliable (CrashFile.from_durable b).
Proof. by split. Qed.
Lemma volatile_file b : volatile (CrashFile.from_durable b) = b.
Proof. done. Qed.
Lemma durable_file b : durable (CrashFile.from_durable b) = b.
Proof. done. Qed.
Lemma id0_ok : identity_ok id0.
Proof. by split_and!. Qed.
Lemma log0_fresh : fresh log0 id0 0.
Proof. by apply fresh_intro. Qed.
Lemma page0_valid : page_valid 2 page0.
Proof.
  split.
  - unfold validate_page_image. change (is_superblock_page (image_page_id page0)) with false. cbv match.
    cbn [page0 image image_page_id]. rewrite Page.decode_sealed_page; [done| |by vm_compute|by right].
    by split_and!.
  - unfold validate_page_image_lsn. change (is_superblock_page (image_page_id page0)) with false. cbv match.
    cbn [page0 image]. rewrite index_range_ok; [|done|done|rewrite Page.len_sealed_page; by vm_compute].
    rsimpl. unfold Page.sealed, Page.image, Page.CHECKSUM_OFFSET, Page.PAGE_HEADER_SIZE, Page.PAGE_SIZE. bslice.
    by rewrite from_to_le8.
Qed.
Lemma commit0_typed : commit_typed commit0.
Proof.
  split; [|by vm_compute]. apply Forall_singleton. split; [done|]. apply Page.len_sealed_page.
Qed.
Lemma commit0_valid : commits_valid 1 1 [commit0].
Proof.
  cbn [commits_valid]. split; [|by vm_compute]. unfold commit_valid. split_and!; try done.
  apply Forall_singleton, page0_valid.
Qed.

(** A log of one committed batch followed by half a header. *)
Definition torn_bytes : bytes := (frame_image (init_frame WAL_FORMAT_VERSION id0 0)).[0; 24).
Lemma torn_log_holds b :
  b = log_bytes WAL_FORMAT_VERSION id0 0 (segments_of 1 [commit0]) ++ torn_bytes →
  holds_log WAL_FORMAT_VERSION id0 0 (segments_of 1 [commit0]) torn_bytes b.
Proof.
  intros Hb. split.
  - by left.
  - exact id0_ok.
  - done.
  - destruct (segments_ok 1 1 [commit0]) as [Hlog _]; [|done|exact commit0_valid|exact Hlog].
    apply Forall_singleton, commit0_typed.
  - done.
  - done.
  - right. exists (init_frame WAL_FORMAT_VERSION id0 0), 24. split_and!; [|done|done|done|done].
    apply init_frame_ok. by left.
  - done.
  - rewrite Hb. vm_compute. discriminate.
Qed.
End Sample.

Lemma group_commit_crash_safe_witness :
  let C := Castagnoli.instance in
  let j := Some (CrashFile.crash_at "during_wal_sync" 1) in
  let c := volatile (file (append_group [Sample.commit0] (Sample.log0, j)).2.1) in
  is_ok (append_group [Sample.commit0] (Sample.log0, j)).1 = false ∧
  ∃ w' s, open (J:=CrashFile.CrashInjector) Sample.id0 0 (CrashFile.from_durable c, None) = (Ok w', s) ∧
    ∃ m, committed w' = take m [committed_of Sample.commit0].
Proof.
  intros C j c. split; [vm_compute; reflexivity|].
  destruct (group_commit_crash_safe (CS:=Castagnoli.spec) [] [Sample.commit0] Sample.log0 j
    (CrashFile.from_durable c) c 0) as (w' & s & Ho & m & Hm & _).
  - exact (fresh_rep _ _ _ Sample.log0_fresh).
  - exact (fresh_ready _ _ _ Sample.log0_fresh).
  - apply Forall_singleton, Sample.commit0_typed.
  - reflexivity.
  - vm_compute; discriminate.
  - vm_compute; discriminate.
  - vm_compute; discriminate.
  - right; right; reflexivity.
  - apply Sample.reliable_file.
  - apply Sample.volatile_file.
  - apply Sample.durable_file.
  - exists w', s. split; [exact Ho|]. exists m. exact Hm.
Defined.

Lemma group_append_succeeds_witness :
  let C := Castagnoli.instance in
  ∃ rs w' j, append_group [Sample.commit0] (Sample.log0, None : option CrashFile.CrashInjector)
    = (Ok rs, (w', j)) ∧ committed w' = [committed_of Sample.commit0].
Proof.
  intros C.
  destruct (group_append_succeeds (J:=CrashFile.CrashInjector) [] [Sample.commit0]
    Sample.log0) as (rs & w' & j & Ho & Hc & _).
  - exact (fresh_rep _ _ _ Sample.log0_fresh).
  - exact (fresh_ready _ _ _ Sample.log0_fresh).
  - apply Forall_singleton, Sample.commit0_typed.
  - discriminate.
  - exact Sample.commit0_valid.
  - split_and!; vm_compute; congruence.
  - apply Sample.reliable_file.
  - vm_compute; discriminate.
  - exists rs, w', j. split; [exact Ho|exact Hc].
Defined.

(** A log of one committed batch followed by half a header. *)
Lemma open_recovers_log_witness :
  let C := Castagnoli.instance in
  let ss := segments_of 1 [Sample.commit0] in
  let t := Sample.torn_bytes in
  let f := CrashFile.from_durable (log_bytes WAL_FORMAT_VERSION Sample.id0 0 ss ++ t) in
  ∃ w s, open (J:=CrashFile.CrashInjector) Sample.id0 0 (f, None) = (Ok w, s) ∧
    committed w = [committed_of Sample.commit0].
Proof.
  intros C ss t f. pose proof (Sample.torn_log_holds (volatile f) eq_refl) as Hh.
  pose proof (open_recovers_log (CS:=Castagnoli.spec) WAL_FORMAT_VERSION Sample.id0 0 0 ss t f
    (None : option CrashFile.CrashInjector) Hh eq_refl) as Ho.
  destruct (open Sample.id0 0 (f, None)) as [[w|e|k] s].
  - exists w, s. split; [reflexivity|]. exact (proj1 Ho).
  - exfalso. destruct Ho as ([Hr|Hr] & _); [destruct Hr; apply Sample.reliable_file|done].
  - destruct Ho.
Defined.

Lemma reset_crash_safe_witness :
  let C := Castagnoli.instance in
  let j := Some (CrashFile.crash_at "during_wal_payload_write" 1) in
  let c := volatile (file (reset 7 (Sample.log0, j)).2.1) in
  len c = 48 ∧
  ∃ w' s, open (J:=CrashFile.CrashInjector) Sample.id0 7 (CrashFile.from_durable c, None) = (Ok w', s) ∧
    committed w' = [].
Proof.
  intros C j c. split; [vm_compute; reflexivity|].
  destruct (reset_crash_safe (CS:=Castagnoli.spec) [] 7 Sample.log0 j (CrashFile.from_durable c) c)
    as (w' & s & Ho & Hc).
  - exact (fresh_rep _ _ _ Sample.log0_fresh).
  - reflexivity.
  - split; vm_compute; congruence.
  - vm_compute; discriminate.
  - right; right; reflexivity.
  - apply Sample.reliable_file.
  - apply Sample.volatile_file.
  - apply Sample.durable_file.
  - exists w', s. split; [exact Ho|]. destruct Hc as [[Hc _]|[Hc _]]; exact Hc.
Defined.

Lemma frame_roundtrip_witness :
  let C := Castagnoli.instance in
  ∃ b, encode_frame WAL_FORMAT_VERSION Commit 9 4 2 [1; 2; 3] = Ok b ∧
       decode_header (b.[0; WAL_HEADER_SIZE)) = Ok (mkHeader WAL_FORMAT_VERSION Commit (len b) 3 9 4 2).
Proof.
  intros C.
  pose proof (encode_frame_eq (mkFrame WAL_FORMAT_VERSION Commit 9 4 2 [1; 2; 3])) as He.
  eexists. split; [apply He; split_and!; try (vm_compute; split; congruence); [by left|vm_compute; congruence]|].
  apply (frame_roundtrip (CS:=Castagnoli.spec) WAL_FORMAT_VERSION Commit 9 4 2 [1; 2; 3]).
  - by left.
  - vm_compute; split; congruence.
  - vm_compute; split; congruence.
  - vm_compute; split; congruence.
  - apply He; split_and!; try (vm_compute; split; congruence); [by left|vm_compute; congruence].
Defined.

Lemma scan_returns_only_commits_witness :
  let C := Castagnoli.instance in
  let f := CrashFile.from_durable
    (log_bytes WAL_FORMAT_VERSION Sample.id0 0 (segments_of 1 [Sample.commit0]) ++ Sample.torn_bytes) in
  ∃ r f', scan_wal Sample.id0 f = (Ok r, f') ∧ result_committed r = [committed_of Sample.commit0] ∧
    WalSound.batches_ascend 0 0 (result_committed r).
Proof.
  intros C f. pose proof (scan_wal_spec (CS:=Castagnoli.spec) _ _ _ _ _ f (Sample.torn_log_holds _ eq_refl)) as Hs.
  unfold wp in Hs. destruct (scan_wal Sample.id0 f) as [[r|e|k] f'] eqn:E.
  - exists r, f'. destruct Hs as [_ Hr]. split_and!; [reflexivity|rewrite Hr; reflexivity|].
    assert (Hb : is_bytes (volatile f)).
    { unfold is_bytes, u8. apply (bool_decide_unpack _). vm_compute. exact I. }
    assert (Hn : len (volatile f) ≤ U64_MAX) by (vm_compute; congruence).
    pose proof (WalSound.scan_returns_only_commits Sample.id0 f f' r Hb Hn E)
      as (_ & _ & Ha & _). rewrite Hr in Ha |- *. exact Ha.
  - exfalso. destruct Hs as (_ & _ & Hr). apply Hr, Sample.reliable_file.
  - destruct Hs.
Defined.
End WalTheorems.
