(* ===== verification/StoreFile.v ===== *)
(** * The database file

    Models the free functions of src/crates/dodb-storage/src/btree/mod.rs that work
    on the data file alone: complete reads and writes, the checks on the selected
    superblock, the identity check before the log is opened, and the redo pass
    [recover_data_file]. *)

From S2P Require Import Prelude Wp Key Core Page Superblock Format Overlay DurableFile Wal.

Module StoreFile.
Import Core DurableFile.

Abbreviation PAGE_SIZE := Page.PAGE_SIZE.
Abbreviation FIRST_DATA_PAGE := Overlay.FIRST_DATA_PAGE.
Abbreviation Superblock := Superblock.Superblock.
Abbreviation SuperblockSlot := Superblock.SuperblockSlot.
Abbreviation WalIdentity := Wal.WalIdentity.
Abbreviation CommittedWalBatch := Wal.CommittedWalBatch.

Definition SUPERBLOCK_A_OFFSET : Z := 0.
Definition SUPERBLOCK_B_OFFSET : Z := PAGE_SIZE.

Definition slot_offset (s : SuperblockSlot) : Z :=
  match s with Superblock.A => SUPERBLOCK_A_OFFSET | Superblock.B => SUPERBLOCK_B_OFFSET end.

(** [page_id.get() * PAGE_SIZE as u64], which panics on overflow. *)
Definition page_offset (page_id : PageId) : result Z :=
  match checked_mul page_id PAGE_SIZE with Some o => Ok o | None => Stuck Panicked end.

(** [length < FIRST_DATA_PAGE * PAGE_SIZE || !length.is_multiple_of(PAGE_SIZE)]. *)
Definition misaligned (length : Z) : bool :=
  (length <? FIRST_DATA_PAGE * PAGE_SIZE) || negb (length mod PAGE_SIZE =? 0).

Definition validate_superblock_identity (sb : Superblock) (i : WalIdentity) : result unit :=
  fail_if (negb (bytes_eqb (Superblock.database_uuid sb) (Wal.database_uuid i))
           || negb (Superblock.tenant_id sb =? Wal.tenant_id i)
           || negb (Superblock.shard_id sb =? Wal.shard_id i)
           || negb (Superblock.shard_epoch sb =? Wal.shard_epoch i))
    (Corruption "database superblock identity does not match the requested shard").

Definition metadata_from_superblock (sb : Superblock) (file_length : Z)
    : result (PageId * option PageId * PageId) :=
  fail_if (negb (Superblock.page_size sb =? PAGE_SIZE))
    (UnsupportedFormat "superblock page size is unsupported");;
  let page_count := file_length / PAGE_SIZE in
  root ← ok_or (Superblock.root_page_id sb) (Corruption "selected superblock has no root page");
  high_water ← ok_or (Superblock.high_water_page_id sb)
    (Corruption "selected superblock has no high-water page");
  expected_page_count ← ok_or (checked_add high_water 1)
    (Corruption "superblock high-water page overflows");
  fail_if ((high_water <? FIRST_DATA_PAGE) || negb (expected_page_count =? page_count))
    (Corruption "superblock high-water page is inconsistent with file length");;
  fail_if ((root <? FIRST_DATA_PAGE) || (high_water <? root))
    (Corruption "superblock root page is outside the file");;
  fail_if match Superblock.free_list_head sb with
          | Some free => (free <? FIRST_DATA_PAGE) || (high_water <? free)
          | None => false
          end
    (Corruption "superblock free-list head is outside the file");;
  Ok (root, Superblock.free_list_head sb, high_water).

(** [for batch .. for page ..: highest.max(page_id)] over the data pages. *)
Definition highest_data_page (bs : list CommittedWalBatch) : PageId :=
  foldl (λ highest p, if FIRST_DATA_PAGE <=? Wal.image_page_id p
                      then Z.max highest (Wal.image_page_id p) else highest)
    FIRST_DATA_PAGE (b ← bs; Wal.batch_pages b).

Section file.
Context `{C : Crc32c} `{DF : DurableFile F}.

Definition read_exact_at (offset n : Z) : St F Error bytes :=
  read_loop plain_offset (Corruption "unexpected end of database file")
    (S (Z.to_nat n)) offset n [].

Definition write_all_at (offset : Z) (data : bytes) : St F Error unit :=
  write_loop plain_offset (Io WriteZero "database file returned a zero-byte write")
    (S (length data)) offset 0 data.

(** Both superblock slots. *)
Definition read_slots : St F Error (bytes * bytes) :=
  slot_a ← read_exact_at SUPERBLOCK_A_OFFSET PAGE_SIZE;
  slot_b ← read_exact_at SUPERBLOCK_B_OFFSET PAGE_SIZE;
  mret (slot_a, slot_b).

Definition validate_existing_identity_before_wal (i : WalIdentity) (wal_length : Z)
    : St F Error (option Lsn) :=
  f ← get_st;
  length ← lift_r (file_len f);
  if length =? 0 then mret None
  else if misaligned length then
    if wal_length =? 0 then throw (Corruption "database file is not a complete existing database")
    else mret None
  else
    '(slot_a, slot_b) ← read_slots;
    match Superblock.choose_superblock slot_a slot_b with
    | Ok selected =>
        lift_r (validate_superblock_identity (Superblock.superblock selected) i);;
        mret (Some (Superblock.checkpoint_lsn (Superblock.superblock selected)))
    | Err e => if 0 <? wal_length then mret None else throw e
    | Stuck s => lift_r (Stuck s)
    end.

(** ** Redo *)
Context `{FI : FaultInjector J}.

Abbreviation M := (St (F * option J) Error).
Definition on_file {A} (m : St F Error A) : M A := zoom fst (λ f s, (f, s.2)) m.
Definition hit_fault (point : string) : M unit := zoom snd (λ j s, (s.1, j)) (hit point).

(** The LSN of the page that is in the file, when it is a valid page. *)
Definition current_page_lsn (page_id : PageId) (offset readable_length : Z) : M (option Lsn) :=
  if match checked_add offset PAGE_SIZE with Some e => e <=? readable_length | None => false end then
    bytes ← on_file (read_exact_at offset PAGE_SIZE);
    match Page.decode_page_at bytes (Some page_id) with
    | Ok d => mret (Some (Page.page_lsn (Page.header d)))
    | Err _ => mret None
    | Stuck s => lift_r (Stuck s)
    end
  else mret None.

(** The body of the page loop: whether the image was written. *)
Definition redo_page (commit_lsn : Lsn) (readable_length : Z) (p : Wal.WalPageImage) : M bool :=
  offset ← lift_r (ok_or (checked_mul (Wal.image_page_id p) PAGE_SIZE)
    (RecoveryFailure "recovery page offset overflows"));
  should_write ←
    (if (Wal.image_page_id p =? 0) || (Wal.image_page_id p =? 1) then mret true
     else
       current ← current_page_lsn (Wal.image_page_id p) offset readable_length;
       mret match current with Some lsn => lsn <? commit_lsn | None => true end);
  if should_write : bool then
    hit_fault "during_recovery_page_write";;
    on_file (write_all_at offset (Wal.image p));;
    mret true
  else mret false.

Fixpoint redo_pages (commit_lsn : Lsn) (readable_length : Z) (ps : list Wal.WalPageImage)
    (changed : bool) : M bool :=
  match ps with
  | [] => mret changed
  | p :: ps' =>
      written ← redo_page commit_lsn readable_length p;
      redo_pages commit_lsn readable_length ps' (changed || written)
  end.

Fixpoint redo_batches (readable_length : Z) (bs : list CommittedWalBatch) (changed : bool) : M bool :=
  match bs with
  | [] => mret changed
  | b :: bs' =>
      changed ← redo_pages (Wal.batch_commit_lsn b) readable_length (Wal.batch_pages b) changed;
      redo_batches readable_length bs' changed
  end.

Definition recover_data_file (committed_batches : list CommittedWalBatch) (checkpoint_lsn : Lsn)
    : M unit :=
  let bs := filter (λ b, checkpoint_lsn < Wal.batch_commit_lsn b) committed_batches in
  match bs with
  | [] => mret tt
  | _ :: _ =>
      end_page ← lift_r (ok_or (checked_add (highest_data_page bs) 1)
        (RecoveryFailure "recovery page range overflows"));
      target_length ← lift_r (ok_or (checked_mul end_page PAGE_SIZE)
        (RecoveryFailure "recovery file length overflows"));
      s ← get_st;
      current_length ← lift_r (file_len s.1);
      (if (current_length =? 0) || (current_length <? target_length) then on_file (set_len target_length)
       else fail_when (negb (current_length mod PAGE_SIZE =? 0))
              (RecoveryFailure "database file has a non-page-aligned length before recovery"));;
      s ← get_st;
      readable_length ← lift_r (file_len s.1);
      changed ← redo_batches readable_length bs (current_length <? target_length);
      if changed : bool then
        hit_fault "before_recovery_sync";;
        hit_fault "during_recovery_sync";;
        on_file (map_err_st (λ _, DurabilityFailure "database sync during WAL recovery failed: {error}")
                   sync_data);;
        hit_fault "after_recovery_sync"
      else mret tt
  end.
End file.

End StoreFile.
