(* ===== verification/Checker.v ===== *)
(** * The tree checker

    Models src/crates/dodb-storage/src/btree/checker.rs: the pass over the data file
    that [BTreeStore::check_invariants] and every open run.  It walks the tree from
    the root with the key range of each page, the overflow chains, the leaf chain
    and the free list, and reports the pages it did not meet.

    Each loop and the recursion add a page to a set of visited pages that lie
    between [FIRST_DATA_PAGE] and the high-water page, so [page_fuel] turns are
    enough; an overflow chain is cut off after [MAX_OVERFLOW_PAGES] pages. *)

From S2P Require Import Prelude Wp Key Core Page Superblock Format Overlay DurableFile Wal StoreFile.

Module Checker.
Import Core DurableFile StoreFile.

Abbreviation PageData := Format.PageData.
Abbreviation KeyBounds := (option bytes * option bytes)%type.

Record InvariantReport : Type := mkInvariantReport {
  reachable_pages : Z;
  free_pages : Z;
  leaked_pages : list PageId;
  report_max_revision : Revision;
}.

Record TreeCheckState : Type := mkState {
  reachable : gset PageId;
  keys : gset bytes;
  leaves : list PageId;
  max_revision : Revision;
}.
Definition default_state : TreeCheckState := mkState ∅ ∅ [] ZERO.

Definition set_reachable (x : gset PageId) (s : TreeCheckState) : TreeCheckState :=
  mkState x (keys s) (leaves s) (max_revision s).
Definition set_keys (x : gset bytes) (s : TreeCheckState) : TreeCheckState :=
  mkState (reachable s) x (leaves s) (max_revision s).
Definition set_leaves (x : list PageId) (s : TreeCheckState) : TreeCheckState :=
  mkState (reachable s) (keys s) x (max_revision s).
Definition set_max_revision (x : Revision) (s : TreeCheckState) : TreeCheckState :=
  mkState (reachable s) (keys s) (leaves s) x.

Definition page_fuel (high_water : PageId) : nat := S (S (Z.to_nat high_water)).

(** [bound.is_some_and(|b| key < b)] and [bound.is_some_and(|b| key >= b)]. *)
Definition below_lower (lower : option bytes) (key : bytes) : bool :=
  match lower with Some b => bytes_ltb key b | None => false end.
Definition reaches_upper (upper : option bytes) (key : bytes) : bool :=
  match upper with Some b => bytes_leb b key | None => false end.

(** The ranges of the children of an internal page, left to right. *)
Fixpoint child_bounds (lower : option bytes) (separators : list bytes) (upper : option bytes)
    : list KeyBounds :=
  match separators with
  | [] => [(lower, upper)]
  | s :: separators' => (lower, Some s) :: child_bounds (Some s) separators' upper
  end.

(** The loop over [entries.iter().enumerate()] that compares the keys found below
    the children with the separators. *)
Fixpoint check_separators (index : nat) (entries : list Format.InternalEntry) (bounds : list KeyBounds)
    : result unit :=
  match entries with
  | [] => Ok tt
  | entry :: entries' =>
      left ← Prelude.index bounds (Z.of_nat index);
      fail_if match left.2 with Some m => bytes_leb (Format.separator entry) m | None => false end
        (Corruption "left child violates internal separator");;
      right ← Prelude.index bounds (Z.of_nat index + 1);
      fail_if match right.1 with Some m => bytes_ltb m (Format.separator entry) | None => false end
        (Corruption "right child violates internal separator");;
      check_separators (S index) entries' bounds
  end.

(** [iter().find_map(..)]. *)
Fixpoint find_map {A B} (f : A → option B) (l : list A) : option B :=
  match l with
  | [] => None
  | x :: l' => match f x with Some y => Some y | None => find_map f l' end
  end.

Section checker.
Context `{C : Crc32c} `{DF : DurableFile F}.
Variable high_water_page_id : PageId.

Definition check_page_id (page_id : PageId) : result unit :=
  fail_if ((page_id <? FIRST_DATA_PAGE) || (high_water_page_id <? page_id))
    (Corruption "page id {} is outside checker bounds").

Definition read_page (page_id : PageId) : St F Error PageData :=
  lift_r (check_page_id page_id);;
  offset ← lift_r (page_offset page_id);
  b ← read_exact_at offset PAGE_SIZE;
  d ← lift_r (Page.decode_page_at b (Some page_id));
  lift_r (Format.decode d).

Abbreviation M := (St (F * TreeCheckState) Error).
Definition in_file {A} (m : St F Error A) : M A := zoom fst (λ f s, (f, s.2)) m.
Definition state : M TreeCheckState := s ← get_st; mret s.2.
Definition update (g : TreeCheckState → TreeCheckState) : M unit := modify_st (λ s, (s.1, g s.2)).

(** [if !state.reachable.insert(page_id) { return Err(..) }]. *)
Definition reach_page (page_id : PageId) (message : string) : M unit :=
  s ← state;
  fail_when (bool_decide (page_id ∈ reachable s)) (Corruption message);;
  update (set_reachable ({[page_id]} ∪ reachable s)).

Fixpoint overflow_loop (fuel : nat) (length : Z) (page_id : option PageId) (visited : gset PageId)
    (total count : Z) : M Z :=
  match page_id with
  | None => mret total
  | Some current =>
      match fuel with
      | O => lift_r (Stuck OutOfFuel)
      | S fuel' =>
          fail_when ((Format.MAX_OVERFLOW_PAGES <=? count) || bool_decide (current ∈ visited))
            (Corruption "overflow chain is cyclic or too long");;
          reach_page current "overflow page is referenced more than once";;
          p ← in_file (read_page current);
          match p with
          | Format.Overflow _ next total_length chunk =>
              fail_when (negb (total_length =? length))
                (Corruption "overflow page length disagrees with leaf");;
              total ← lift_r (ok_or (checked_add total (len chunk))
                (Corruption "overflow content length overflows"));
              overflow_loop fuel' length next ({[current]} ∪ visited) total (count + 1)
          | _ => throw (Corruption "overflow chain reaches a non-overflow page")
          end
      end
  end.

Definition check_overflow (head : PageId) (length : Z) : M unit :=
  fail_when ((length =? 0) || (Format.MAX_VALUE_SIZE <? length))
    (Corruption "overflow value length is invalid");;
  total ← overflow_loop (S (Z.to_nat Format.MAX_OVERFLOW_PAGES)) length (Some head) ∅ 0 0;
  fail_when (negb (total =? length)) (Corruption "overflow content length does not match leaf").

(** The body of [for entry in &entries] in a leaf. *)
Definition check_leaf_entry (lower upper : option bytes) (entry : Format.LeafEntry) : M unit :=
  fail_when (below_lower lower (Format.key entry) || reaches_upper upper (Format.key entry))
    (Corruption "leaf key violates parent separator range");;
  fail_when (Format.revision entry =? ZERO) (Corruption "leaf entry has zero revision");;
  s ← state;
  fail_when (bool_decide (Format.key entry ∈ keys s)) (Corruption "duplicate leaf key");;
  update (set_keys ({[Format.key entry]} ∪ keys s));;
  update (λ s, set_max_revision (Z.max (max_revision s) (Format.revision entry)) s);;
  match Format.value entry with
  | Some (Format.Inline v) =>
      fail_when (Format.INLINE_VALUE_LIMIT <? len v) (Corruption "inline value exceeds inline limit")
  | Some (Format.OverflowRef head length) => check_overflow head length
  | None => mret tt
  end.

Fixpoint visit_tree (fuel : nat) (page_id : PageId) (lower upper : option bytes) : M KeyBounds :=
  match fuel with
  | O => lift_r (Stuck OutOfFuel)
  | S fuel' =>
      reach_page page_id "tree page is reachable more than once";;
      p ← in_file (read_page page_id);
      match p with
      | Format.Leaf _ _ entries =>
          for_each (check_leaf_entry lower upper) entries;;
          update (λ s, set_leaves (leaves s ++ [page_id]) s);;
          mret (Format.key <$> head entries, Format.key <$> last entries)
      | Format.Internal _ leftmost_child entries =>
          fail_when (match entries with [] => true | _ => false end)
            (Corruption "internal page has no separators");;
          let children := leftmost_child :: (Format.right_child <$> entries) in
          bounds ← map_each (λ c, visit_tree fuel' c.1 c.2.1 c.2.2)
            (zip children (child_bounds lower (Format.separator <$> entries) upper));
          lift_r (check_separators 0 entries bounds);;
          mret (find_map fst bounds, find_map snd (reverse bounds))
      | _ => throw (Corruption "tree reaches a non-tree page")
      end
  end.

Fixpoint leftmost_leaf (fuel : nat) (root : PageId) (visited : gset PageId) : St F Error PageId :=
  match fuel with
  | O => lift_r (Stuck OutOfFuel)
  | S fuel' =>
      fail_when (bool_decide (root ∈ visited))
        (Corruption "tree contains a cycle while finding leftmost leaf");;
      p ← read_page root;
      match p with
      | Format.Leaf _ _ _ => mret root
      | Format.Internal _ leftmost_child _ => leftmost_leaf fuel' leftmost_child ({[root]} ∪ visited)
      | _ => throw (Corruption "tree reaches a non-tree page")
      end
  end.

(** [for entry in entries] of the chain: the last key seen. *)
Fixpoint chain_keys (previous : option bytes) (ks : list bytes) : result (option bytes) :=
  match ks with
  | [] => Ok previous
  | k :: ks' =>
      fail_if match previous with Some p => bytes_leb k p | None => false end
        (Corruption "leaf chain ordering is invalid");;
      chain_keys (Some k) ks'
  end.

Fixpoint chain_loop (fuel : nat) (reach : gset PageId) (current : option PageId)
    (visited : gset PageId) (previous_key : option bytes) (chain : list PageId)
    : St F Error (list PageId) :=
  match current with
  | None => mret chain
  | Some page_id =>
      match fuel with
      | O => lift_r (Stuck OutOfFuel)
      | S fuel' =>
          fail_when (bool_decide (page_id ∈ visited)) (Corruption "leaf chain contains a cycle");;
          fail_when (bool_decide (page_id ∉ reach)) (Corruption "leaf chain points outside the tree");;
          p ← read_page page_id;
          match p with
          | Format.Leaf _ next_leaf entries =>
              previous_key ← lift_r (chain_keys previous_key (Format.key <$> entries));
              chain_loop fuel' reach next_leaf ({[page_id]} ∪ visited) previous_key (chain ++ [page_id])
          | _ => throw (Corruption "leaf chain points to a non-leaf page")
          end
      end
  end.

Definition check_leaf_chain (tree_leaves : list PageId) (leftmost : PageId) (reach : gset PageId)
    : St F Error unit :=
  chain ← chain_loop (page_fuel high_water_page_id) reach (Some leftmost) ∅ None [];
  fail_when (negb (bool_decide (chain = tree_leaves)))
    (Corruption "leaf chain is not connected in tree order").

Fixpoint free_loop (fuel : nat) (reach : gset PageId) (next : option PageId) (free : gset PageId)
    : St F Error (gset PageId) :=
  match next with
  | None => mret free
  | Some page_id =>
      match fuel with
      | O => lift_r (Stuck OutOfFuel)
      | S fuel' =>
          lift_r (check_page_id page_id);;
          fail_when (bool_decide (page_id ∈ free)) (Corruption "free-page list contains a cycle");;
          fail_when (bool_decide (page_id ∈ reach)) (Corruption "a page is both reachable and free");;
          p ← read_page page_id;
          match p with
          | Format.Free _ page_next => free_loop fuel' reach page_next ({[page_id]} ∪ free)
          | _ => throw (Corruption "free-list entry is not a free page")
          end
      end
  end.

(** The pages of [FIRST_DATA_PAGE..=high_water] in neither set. *)
Definition leaked (reach free : gset PageId) : list PageId :=
  filter (λ id, (id ∉ reach) ∧ (id ∉ free))
    (seqZ FIRST_DATA_PAGE (high_water_page_id + 1 - FIRST_DATA_PAGE)).

(** Runs with a fresh [TreeCheckState] and returns the final one. *)
Definition from_default {A} (m : M A) : St F Error TreeCheckState := λ f,
  let out := m (f, default_state) in (fmap (λ _, out.2.2) out.1, out.2.1).

Definition check (root : PageId) (free_head : option PageId) : St F Error InvariantReport :=
  tree ← from_default (visit_tree (page_fuel high_water_page_id) root None None);
  leftmost ← leftmost_leaf (page_fuel high_water_page_id) root ∅;
  check_leaf_chain (leaves tree) leftmost (reachable tree);;
  free ← free_loop (page_fuel high_water_page_id) (reachable tree) free_head ∅;
  mret (mkInvariantReport (Z.of_nat (size (reachable tree))) (Z.of_nat (size free))
          (leaked (reachable tree) free) (max_revision tree)).
End checker.

End Checker.
