(* ===== verification/Store.v ===== *)
(** * The B+Tree store

    Models [BTreeStore] of src/crates/dodb-storage/src/btree/mod.rs: opening with and
    without a log, publishing prepared batches, flushing, checkpointing, checking the
    invariants, and the request entry points.  A method runs on the record
    [BTreeStore]; opening runs on the two files and the fault injector, which keep
    what an unsuccessful open leaves on disk.  Wall-clock measurements
    ([StorageMetrics], [duration_nanos]) are left out: nothing reads them back. *)

From S2P Require Import Prelude Wp Key Core Page Superblock Format Cache Overlay.
From S2P Require Import DurableFile Wal StoreFile Checker.

Module Store.
Import Core DurableFile StoreFile.

Abbreviation PreparedBatch := Overlay.PreparedBatch.
Abbreviation PageData := Format.PageData.
Abbreviation PageCache := Cache.PageCache.
Abbreviation WalLog := Wal.WalLog.

(** ** The store without a log *)

Inductive NoWal : Type := no_wal.

#[global] Instance NoWal_DurableFile : DurableFile NoWal := {
  read_at _ _ := mret [];
  write_at _ _ := throw (InternalInvariantViolation "NoWal cannot receive WAL writes");
  file_len _ := Ok 0;
  set_len _ := mret tt;
  sync_data := mret tt;
  sync_all := mret tt;
}.

Record DatabaseConfig : Type := mkConfig {
  config_database_uuid : bytes;
  config_tenant_id : TenantId;
  config_shard_id : ShardId;
  config_shard_epoch : ShardEpoch;
  cache_capacity : Z;
  limits : Overlay.StorageLimits;
}.
Definition default_config : DatabaseConfig := mkConfig (zeros 16) 0 0 0 128 Overlay.default_limits.
Definition with_cache_capacity (c : DatabaseConfig) (capacity : Z) : DatabaseConfig :=
  mkConfig (config_database_uuid c) (config_tenant_id c) (config_shard_id c) (config_shard_epoch c)
    capacity (limits c).

Record CheckpointReport : Type := mkCheckpointReport {
  checkpoint_report_lsn : Lsn;
  pages_flushed : Z;
  bytes_written : Z;
  wal_bytes_reclaimed : Z;
}.

Record BTreeStore (F W J : Type) : Type := mkStore {
  file : F;
  wal : option (WalLog W);
  current_superblock : Superblock;
  active_slot : SuperblockSlot;
  root_page_id : PageId;
  free_list_head : option PageId;
  high_water_page_id : PageId;
  next_revision : Revision;
  next_lsn : Lsn;
  next_batch_id : Z;
  cache : PageCache;
  config : DatabaseConfig;
  dirty_pages : gmap PageId bytes;
  dirty_superblock : option bytes;
  track_published_pages : bool;
  published_page_updates : gmap PageId PageData;
  broken : option string;
  fault_injector : option J;
}.
#[global] Arguments mkStore {F W J}.
#[global] Arguments file {F W J} _.
#[global] Arguments wal {F W J} _.
#[global] Arguments current_superblock {F W J} _.
#[global] Arguments active_slot {F W J} _.
#[global] Arguments root_page_id {F W J} _.
#[global] Arguments free_list_head {F W J} _.
#[global] Arguments high_water_page_id {F W J} _.
#[global] Arguments next_revision {F W J} _.
#[global] Arguments next_lsn {F W J} _.
#[global] Arguments next_batch_id {F W J} _.
#[global] Arguments cache {F W J} _.
#[global] Arguments config {F W J} _.
#[global] Arguments dirty_pages {F W J} _.
#[global] Arguments dirty_superblock {F W J} _.
#[global] Arguments track_published_pages {F W J} _.
#[global] Arguments published_page_updates {F W J} _.
#[global] Arguments broken {F W J} _.
#[global] Arguments fault_injector {F W J} _.

(** Field assignments. *)
Section setters.
Context {F W J : Type}.
Implicit Type b : BTreeStore F W J.

Definition set_file (x : F) b : BTreeStore F W J :=
  mkStore x (wal b) (current_superblock b) (active_slot b) (root_page_id b) (free_list_head b)
    (high_water_page_id b) (next_revision b) (next_lsn b) (next_batch_id b) (cache b) (config b)
    (dirty_pages b) (dirty_superblock b) (track_published_pages b) (published_page_updates b)
    (broken b) (fault_injector b).
Definition set_wal (x : option (WalLog W)) b : BTreeStore F W J :=
  mkStore (file b) x (current_superblock b) (active_slot b) (root_page_id b) (free_list_head b)
    (high_water_page_id b) (next_revision b) (next_lsn b) (next_batch_id b) (cache b) (config b)
    (dirty_pages b) (dirty_superblock b) (track_published_pages b) (published_page_updates b)
    (broken b) (fault_injector b).
Definition set_injector (x : option J) b : BTreeStore F W J :=
  mkStore (file b) (wal b) (current_superblock b) (active_slot b) (root_page_id b) (free_list_head b)
    (high_water_page_id b) (next_revision b) (next_lsn b) (next_batch_id b) (cache b) (config b)
    (dirty_pages b) (dirty_superblock b) (track_published_pages b) (published_page_updates b)
    (broken b) x.
Definition set_broken (x : option string) b : BTreeStore F W J :=
  mkStore (file b) (wal b) (current_superblock b) (active_slot b) (root_page_id b) (free_list_head b)
    (high_water_page_id b) (next_revision b) (next_lsn b) (next_batch_id b) (cache b) (config b)
    (dirty_pages b) (dirty_superblock b) (track_published_pages b) (published_page_updates b)
    x (fault_injector b).
Definition set_cache (x : PageCache) b : BTreeStore F W J :=
  mkStore (file b) (wal b) (current_superblock b) (active_slot b) (root_page_id b) (free_list_head b)
    (high_water_page_id b) (next_revision b) (next_lsn b) (next_batch_id b) x (config b)
    (dirty_pages b) (dirty_superblock b) (track_published_pages b) (published_page_updates b)
    (broken b) (fault_injector b).
Definition set_dirty (ps : gmap PageId bytes) (sb : option bytes) b : BTreeStore F W J :=
  mkStore (file b) (wal b) (current_superblock b) (active_slot b) (root_page_id b) (free_list_head b)
    (high_water_page_id b) (next_revision b) (next_lsn b) (next_batch_id b) (cache b) (config b)
    ps sb (track_published_pages b) (published_page_updates b) (broken b) (fault_injector b).
Definition set_next_revision (x : Revision) b : BTreeStore F W J :=
  mkStore (file b) (wal b) (current_superblock b) (active_slot b) (root_page_id b) (free_list_head b)
    (high_water_page_id b) x (next_lsn b) (next_batch_id b) (cache b) (config b)
    (dirty_pages b) (dirty_superblock b) (track_published_pages b) (published_page_updates b)
    (broken b) (fault_injector b).
Definition set_next_lsn (x : Lsn) b : BTreeStore F W J :=
  mkStore (file b) (wal b) (current_superblock b) (active_slot b) (root_page_id b) (free_list_head b)
    (high_water_page_id b) (next_revision b) x (next_batch_id b) (cache b) (config b)
    (dirty_pages b) (dirty_superblock b) (track_published_pages b) (published_page_updates b)
    (broken b) (fault_injector b).
Definition set_next_batch_id (x : Z) b : BTreeStore F W J :=
  mkStore (file b) (wal b) (current_superblock b) (active_slot b) (root_page_id b) (free_list_head b)
    (high_water_page_id b) (next_revision b) (next_lsn b) x (cache b) (config b)
    (dirty_pages b) (dirty_superblock b) (track_published_pages b) (published_page_updates b)
    (broken b) (fault_injector b).
Definition set_superblock (sb : Superblock) (slot : SuperblockSlot) b : BTreeStore F W J :=
  mkStore (file b) (wal b) sb slot (root_page_id b) (free_list_head b)
    (high_water_page_id b) (next_revision b) (next_lsn b) (next_batch_id b) (cache b) (config b)
    (dirty_pages b) (dirty_superblock b) (track_published_pages b) (published_page_updates b)
    (broken b) (fault_injector b).
Definition set_allocator (root : PageId) (free : option PageId) (high_water : PageId) b
    : BTreeStore F W J :=
  mkStore (file b) (wal b) (current_superblock b) (active_slot b) root free high_water
    (next_revision b) (next_lsn b) (next_batch_id b) (cache b) (config b)
    (dirty_pages b) (dirty_superblock b) (track_published_pages b) (published_page_updates b)
    (broken b) (fault_injector b).
Definition set_published (track : bool) (x : gmap PageId PageData) b : BTreeStore F W J :=
  mkStore (file b) (wal b) (current_superblock b) (active_slot b) (root_page_id b) (free_list_head b)
    (high_water_page_id b) (next_revision b) (next_lsn b) (next_batch_id b) (cache b) (config b)
    (dirty_pages b) (dirty_superblock b) track x (broken b) (fault_injector b).
End setters.

Section store.
Context `{C : Crc32c} `{DF : DurableFile F} `{DW : DurableFile W} `{FI : FaultInjector J}.

Abbreviation Store := (BTreeStore F W J).
Abbreviation M := (St (BTreeStore F W J) Error).

Definition in_file {A} (m : St F Error A) : M A := zoom file set_file m.
Definition hit_fault (point : string) : M unit := zoom fault_injector set_injector (hit point).

(** Runs a method of the log with the store's injector; [w] is [self.wal]. *)
Definition in_wal {A} (w : WalLog W) (m : St (WalLog W * option J) Error A) : M A :=
  zoom (λ b, (w, fault_injector b)) (λ t b, set_injector t.2 (set_wal (Some t.1) b)) m.

(** [if let Err(error) = .. { self.broken = Some(error.to_string()); return Err(g(error)) }]. *)
Definition or_broken {A} (g : Error → Error) (m : M A) : M A := λ b,
  match m b with
  | (Err e, b') => (Err (g e), set_broken (Some (to_string e)) b')
  | out => out
  end.

Definition not_serving (message : string) : Error :=
  DurabilityFailure ("storage shard is not serving after an uncertain persistence failure: " +:+ message).

Definition check_serving : M unit :=
  b ← get_st;
  match broken b with Some message => throw (not_serving message) | None => mret tt end.

(** ** Reading pages *)

Definition decode_page_bytes (page_id : PageId) (b : bytes) : result PageData :=
  d ← Page.decode_page_at b (Some page_id); Format.decode d.

Definition read_page_from_file (page_id : PageId) : M PageData :=
  b ← get_st;
  match dirty_pages b !! page_id with
  | Some bytes => lift_r (decode_page_bytes page_id bytes)
  | None =>
      offset ← lift_r (page_offset page_id);
      bytes ← in_file (read_exact_at offset PAGE_SIZE);
      lift_r (decode_page_bytes page_id bytes)
  end.

Definition store_header (b : Store) : Overlay.StoreHeader :=
  Overlay.mkStoreHeader (match wal b with Some _ => true | None => false end) (current_superblock b)
    (active_slot b) (root_page_id b) (free_list_head b) (high_water_page_id b) (next_revision b)
    (next_lsn b) (next_batch_id b) (limits (config b)).

#[global] Instance committed_store : Overlay.CommittedStore Store := {
  Overlay.header := store_header;
  Overlay.cache_get id b :=
    let '(p, c) := Cache.get (cache b) id in (p, set_cache c b);
  Overlay.read_page_from_file := read_page_from_file;
}.

(** ** Flushing *)

(** [high_water.checked_add(1)?.checked_mul(PAGE_SIZE)?]. *)
Definition target_length (high_water : PageId) : result Z :=
  count ← ok_or (checked_add high_water 1) (InvalidInput "database page id is exhausted");
  ok_or (checked_mul count PAGE_SIZE) (InvalidInput "database file length overflows").

(** [if self.file.len()? < target { self.file.set_len(target)? }]. *)
Definition extend_file (target : Z) : M unit :=
  b ← get_st;
  length ← lift_r (file_len (file b));
  if length <? target then in_file (set_len target) else mret tt.

Definition write_page (page_id : PageId) (bytes : bytes) : M unit :=
  offset ← lift_r (page_offset page_id);
  in_file (write_all_at offset bytes).

(** The closure of [flush_dirty_pages] that writes what is dirty. *)
Definition write_dirty : M unit :=
  b ← get_st;
  target ← lift_r (target_length (high_water_page_id b));
  extend_file target;;
  hit_fault "before_data_page_write";;
  for_each (λ p, hit_fault "during_data_page_write";; write_page p.1 p.2) (map_iter (dirty_pages b));;
  hit_fault "after_data_page_write";;
  match dirty_superblock b with
  | Some bytes => in_file (write_all_at (slot_offset (active_slot b)) bytes)
  | None => mret tt
  end.

Definition flush_dirty_pages : M unit :=
  b ← get_st;
  match wal b with
  | None => in_file sync_data
  | Some _ =>
      if bool_decide (dirty_pages b = ∅) && bool_decide (dirty_superblock b = None) then mret tt
      else
        or_broken (λ _, DurabilityFailure "database data-file write failed after WAL commit: {error}")
          write_dirty;;
        or_broken id (hit_fault "before_data_file_sync");;
        or_broken id (hit_fault "during_data_file_sync");;
        or_broken (λ _, DurabilityFailure "database data-file sync failed after WAL commit: {error}")
          (in_file sync_data);;
        modify_st (set_dirty ∅ None);;
        hit_fault "after_data_file_sync"
  end.

Definition flush : M unit :=
  b ← get_st;
  match wal b with
  | None => in_file sync_data
  | Some _ => flush_dirty_pages
  end.

(** ** Publishing *)

Fixpoint check_generations (expected : Z) (ps : list PreparedBatch) : result unit :=
  match ps with
  | [] => Ok tt
  | p :: ps' =>
      fail_if (negb (Overlay.base_generation p =? expected))
        (InternalInvariantViolation "prepared transaction group has a non-contiguous superblock generation");;
      check_generations (Superblock.generation (Overlay.new_superblock p)) ps'
  end.

Definition slot_page (s : SuperblockSlot) : PageId :=
  match s with Superblock.A => 0 | Superblock.B => 1 end.

(** The commit record of a candidate: its pages in order and then its superblock. *)
Definition wal_commit (p : PreparedBatch) (superblock_bytes : bytes) : result Wal.WalCommit :=
  commit_lsn ← ok_or (Overlay.prepared_commit_lsn p)
    (InternalInvariantViolation "WAL transaction has no commit LSN");
  let images := (λ '(id, img), Wal.mkImage id img) <$> map_iter (Overlay.changed_pages p) in
  Ok (Wal.mkCommit (Overlay.batch_id p) commit_lsn
        (images ++ [Wal.mkImage (slot_page (Overlay.new_slot p)) superblock_bytes])).

Fixpoint encode_candidates (has_wal : bool) (ps : list PreparedBatch)
    : result (list bytes * list Wal.WalCommit) :=
  match ps with
  | [] => Ok ([], [])
  | p :: ps' =>
      superblock_bytes ← Superblock.encode_superblock (Overlay.new_superblock p);
      commit ← if has_wal then (λ c, [c]) <$> wal_commit p superblock_bytes else Ok [];
      '(superblocks, commits) ← encode_candidates has_wal ps';
      Ok (superblock_bytes :: superblocks, commit ++ commits)
  end.

(** The direct writes of a store without a log. *)
Definition write_candidate (c : PreparedBatch * bytes) : M unit :=
  target ← lift_r (target_length (Overlay.prepared_high_water c.1));
  extend_file target;;
  for_each (λ p, write_page p.1 p.2) (map_iter (Overlay.changed_pages c.1));;
  in_file (write_all_at (slot_offset (Overlay.new_slot c.1)) c.2);;
  in_file sync_data.

Definition publish_candidate (c : PreparedBatch * bytes) : M unit :=
  let p := c.1 in
  sb ← lift_r (Superblock.decode_superblock c.2);
  modify_st (set_superblock sb (Overlay.new_slot p));;
  modify_st (set_allocator (Overlay.prepared_root p) (Overlay.prepared_free_list_head p)
    (Overlay.prepared_high_water p));;
  modify_st (set_next_revision (Overlay.prepared_next_revision p));;
  match Overlay.prepared_commit_lsn p with
  | Some commit_lsn =>
      next ← lift_r (ok_or (checked_add commit_lsn 1) (InternalInvariantViolation "WAL LSN exhausted"));
      modify_st (set_next_lsn next);;
      next_batch ← lift_r (ok_or (checked_add (Overlay.batch_id p) 1)
        (InternalInvariantViolation "WAL batch ID exhausted"));
      modify_st (set_next_batch_id next_batch);;
      modify_st (λ b, set_dirty (Overlay.changed_pages p ∪ dirty_pages b) (Some c.2) b)
  | None => mret tt
  end;;
  modify_st (λ b, set_cache (Cache.insert_many (cache b) (map_iter (Overlay.prepared_read_pages p))) b);;
  modify_st (λ b, if track_published_pages b
                  then set_published true (Overlay.changed_decoded p ∪ published_page_updates b) b
                  else b);;
  modify_st (λ b, set_cache (Cache.insert_many (cache b) (map_iter (Overlay.changed_decoded p))) b).

Definition publish_prepared_group (ps : list PreparedBatch) : M unit :=
  check_serving;;
  b ← get_st;
  lift_r (check_generations (Superblock.generation (current_superblock b)) ps);;
  if forallb (λ p, bool_decide (Overlay.changed_pages p = ∅)) ps then mret tt
  else
    '(superblocks, commits) ← lift_r (encode_candidates (Overlay.sh_wal (store_header b)) ps);
    match wal b with
    | Some w => or_broken id (in_wal w (Wal.append_group commits));; mret tt
    | None => for_each write_candidate (zip ps superblocks)
    end;;
    or_broken id (hit_fault "before_publish");;
    for_each publish_candidate (zip ps superblocks);;
    hit_fault "after_publish".

Definition publish_prepared (p : PreparedBatch) : M (list Overlay.BatchResponse) :=
  publish_prepared_group [p];;
  mret (Overlay.responses p).

(** ** Requests *)

Definition apply_batch_with_response_budget (requests : list Overlay.BatchRequest)
    (max_response_bytes : Z) : M (list Overlay.BatchResponse) :=
  p ← Overlay.prepare_batch_with_response_budget requests max_response_bytes;
  publish_prepared p.

Definition apply_batch (requests : list Overlay.BatchRequest) : M (list Overlay.BatchResponse) :=
  p ← Overlay.prepare_batch requests;
  publish_prepared p.

(** [.remove(0)], which panics on an empty vector. *)
Definition single (request : Overlay.BatchRequest) : M Overlay.BatchResponse :=
  rs ← apply_batch [request];
  match rs with r :: _ => mret r | [] => lift_r (Stuck Panicked) end.

Definition get (key : DocumentKey) : M RevisionState :=
  r ← single (Overlay.ReqGet key);
  match r with
  | Overlay.RespGet state => mret state
  | _ => throw (InternalInvariantViolation "get produced an unexpected batch response")
  end.

Definition put (key : DocumentKey) (value : bytes) : M Revision :=
  r ← single (Overlay.ReqPut key value);
  match r with
  | Overlay.RespPut revision => mret revision
  | _ => throw (InternalInvariantViolation "put produced an unexpected batch response")
  end.

Definition delete (key : DocumentKey) : M Revision :=
  r ← single (Overlay.ReqDelete key);
  match r with
  | Overlay.RespDelete revision => mret revision
  | _ => throw (InternalInvariantViolation "delete produced an unexpected batch response")
  end.

Definition query (pk : Key.PrimaryKey) (exclusive_after_sk : option Key.SortKey) (limit : Z)
    : M (list Overlay.Document) :=
  r ← single (Overlay.ReqQuery pk exclusive_after_sk limit);
  match r with
  | Overlay.RespQuery rows => mret rows
  | _ => throw (InternalInvariantViolation "query produced an unexpected batch response")
  end.

Definition scan (exclusive_after_key : option DocumentKey) (limit : Z) : M (list Overlay.Document) :=
  r ← single (Overlay.ReqScan exclusive_after_key limit);
  match r with
  | Overlay.RespScan rows => mret rows
  | _ => throw (InternalInvariantViolation "scan produced an unexpected batch response")
  end.

Definition apply_transaction_group (requests : list TransactionRequest)
    : M (list (Result Error TransactionResult)) :=
  match requests with
  | [] => mret []
  | _ :: _ =>
      '(prepared, results) ← (λ b, let '(r, o) := Overlay.prepare_group requests (Overlay.overlay_new b) in
                                   (r, Overlay.store o));
      match prepared with
      | [] => mret results
      | _ :: _ => publish_prepared_group prepared;; mret results
      end
  end.

Definition transact (request : TransactionRequest) : M TransactionResult :=
  results ← apply_transaction_group [request];
  match last results with
  | Some r => lift_r r
  | None => throw (InternalInvariantViolation "transaction group returned no result")
  end.

Definition transact_get_with_response_budget (keys : list DocumentKey) (max_response_bytes : Z)
    : M (list RevisionState) :=
  check_serving;;
  Overlay.transact_get keys max_response_bytes.

Definition transact_get (keys : list DocumentKey) : M (list RevisionState) :=
  transact_get_with_response_budget keys USIZE_MAX.

Definition observe (keys : list DocumentKey) : M (list ObservedState) :=
  check_serving;;
  Overlay.observe keys.

(** ** Checking and checkpointing *)

(** The LSN of the newest commit in the log, or the checkpoint. *)
Definition latest_lsn (w : WalLog W) (b : Store) : Lsn :=
  match last (Wal.committed w) with
  | Some batch => Wal.batch_commit_lsn batch
  | None => Superblock.checkpoint_lsn (current_superblock b)
  end.

Definition check_invariants : M Checker.InvariantReport :=
  b ← get_st;
  match wal b with Some _ => flush_dirty_pages | None => mret tt end;;
  b ← get_st;
  length ← lift_r (file_len (file b));
  fail_when (misaligned length) (Corruption "database file length is not page aligned");;
  '(slot_a, slot_b) ← in_file read_slots;
  selected ← lift_r (Superblock.choose_superblock slot_a slot_b);
  b ← get_st;
  fail_when (negb (bool_decide (Superblock.slot selected = active_slot b))
             || negb (bool_decide (Superblock.superblock selected = current_superblock b)))
    (Corruption "in-memory superblock is not the selected file copy");;
  '(root, free_head, high_water) ← lift_r (metadata_from_superblock (Superblock.superblock selected) length);
  fail_when (negb (root =? root_page_id b) || negb (bool_decide (free_head = free_list_head b))
             || negb (high_water =? high_water_page_id b))
    (Corruption "in-memory allocator metadata does not match superblock");;
  fail_when match wal b with
            | Some w => latest_lsn w b <? Superblock.checkpoint_lsn (current_superblock b)
            | None => false
            end
    (Corruption "checkpoint LSN is newer than the known durable WAL state");;
  in_file (Checker.check high_water root free_head).

(** The superblock a checkpoint writes, sealed by encoding and decoding it. *)
Definition checkpoint_superblock (sb : Superblock) (checkpoint_lsn : Lsn) : result Superblock :=
  generation ← ok_or (checked_add (Superblock.generation sb) 1)
    (InternalInvariantViolation "superblock generation exhausted");
  bytes ← Superblock.encode_superblock
    (Superblock.mkSuperblock (Superblock.format_version sb) generation (Superblock.database_uuid sb)
       (Superblock.tenant_id sb) (Superblock.shard_id sb) (Superblock.shard_epoch sb)
       (Superblock.page_size sb) (Superblock.root_page_id sb) (Superblock.free_list_head sb)
       (Superblock.high_water_page_id sb) checkpoint_lsn (Superblock.checksum sb));
  Superblock.decode_superblock bytes.

(** The part of [checkpoint] under [if metadata_changed]. *)
Definition write_checkpoint_superblock (checkpoint_lsn : Lsn) : M unit :=
  b ← get_st;
  sb ← lift_r (checkpoint_superblock (current_superblock b) checkpoint_lsn);
  bytes ← lift_r (Superblock.encode_superblock sb);
  let slot := Overlay.other_slot (active_slot b) in
  hit_fault "before_checkpoint_superblock_write";;
  or_broken (λ _, CheckpointFailure "checkpoint superblock write failed: {error}")
    (in_file (write_all_at (slot_offset slot) bytes));;
  hit_fault "after_checkpoint_superblock_write";;
  hit_fault "before_checkpoint_metadata_sync";;
  hit_fault "during_checkpoint_metadata_sync";;
  or_broken (λ _, CheckpointFailure "checkpoint metadata sync failed: {error}") (in_file sync_data);;
  or_broken (λ _, CheckpointFailure "checkpoint metadata completion was uncertain: {error}")
    (hit_fault "after_checkpoint_metadata_sync");;
  modify_st (set_superblock sb slot).

(** The WAL reset at the end of [checkpoint]. *)
Definition reset_wal (checkpoint_lsn : Lsn) : M unit :=
  b ← get_st;
  match wal b with
  | Some w =>
      if negb (bool_decide (Wal.committed w = [])) || (Wal.history_start_lsn w <? checkpoint_lsn) then
        or_broken (λ _, CheckpointFailure "WAL reset failed: {error}") (in_wal w (Wal.reset checkpoint_lsn));;
        b ← get_st;
        match wal b with
        | Some w =>
            modify_st (set_next_lsn (Wal.next_lsn w));;
            modify_st (set_next_batch_id (Wal.next_batch_id w))
        | None => mret tt
        end
      else mret tt
  | None => mret tt
  end.

Definition checkpoint_bytes (dirty_page_count : Z) (dirty_sb metadata_changed : bool) : option Z :=
  b ← checked_mul dirty_page_count PAGE_SIZE;
  b ← checked_add b (if dirty_sb then PAGE_SIZE else 0);
  checked_add b (if metadata_changed then PAGE_SIZE else 0).

Definition checkpoint : M CheckpointReport :=
  b ← get_st;
  match broken b with
  | Some message => throw (CheckpointFailure ("storage shard is degraded: " +:+ message))
  | None => mret tt
  end;;
  hit_fault "before_checkpoint_gate";;
  b ← get_st;
  w ← lift_r (ok_or (wal b) (CheckpointFailure "formal checkpoint requires a WAL-backed store"));
  let checkpoint_lsn := latest_lsn w b in
  fail_when (checkpoint_lsn <? Superblock.checkpoint_lsn (current_superblock b))
    (InternalInvariantViolation "checkpoint LSN would move backwards");;
  let metadata_changed := Superblock.checkpoint_lsn (current_superblock b) <? checkpoint_lsn in
  let dirty_page_count := Z.of_nat (size (dirty_pages b)) in
  written ← lift_r (ok_or (checkpoint_bytes dirty_page_count
      (match dirty_superblock b with Some _ => true | None => false end) metadata_changed)
    (CheckpointFailure "checkpoint byte count overflows"));
  before ← lift_r (Wal.metrics w);
  hit_fault "before_checkpoint_data_flush";;
  map_err_st (λ _, CheckpointFailure "checkpoint data-file flush failed: {error}") flush_dirty_pages;;
  hit_fault "after_checkpoint_data_sync";;
  (if metadata_changed then write_checkpoint_superblock checkpoint_lsn else mret tt);;
  or_broken (λ _, CheckpointFailure "checkpoint invariant check failed: {error}") check_invariants;;
  reset_wal checkpoint_lsn;;
  or_broken (λ _, CheckpointFailure "checkpoint completion was uncertain: {error}")
    (hit_fault "before_checkpoint_complete");;
  b ← get_st;
  after ← match wal b with
          | Some w => Wal.wal_bytes <$> lift_r (Wal.metrics w)
          | None => mret 0
          end;
  mret (mkCheckpointReport checkpoint_lsn dirty_page_count written
          (saturating_sub (Wal.wal_bytes before) after)).

(** ** Opening *)

(** The superblock and the root page of a new database. *)
Definition initial_superblock (cfg : DatabaseConfig) : Superblock :=
  let sb := Superblock.new 1 (config_database_uuid cfg) (config_tenant_id cfg) (config_shard_id cfg)
              (config_shard_epoch cfg) in
  Superblock.mkSuperblock (Superblock.format_version sb) (Superblock.generation sb)
    (Superblock.database_uuid sb) (Superblock.tenant_id sb) (Superblock.shard_id sb)
    (Superblock.shard_epoch sb) (Superblock.page_size sb) (Some FIRST_DATA_PAGE)
    (Superblock.free_list_head sb) (Some FIRST_DATA_PAGE) (Superblock.checkpoint_lsn sb)
    (Superblock.checksum sb).

(** [BTreeStore::initialize] on the file; the caller builds the record. *)
Definition initialize_file (cfg : DatabaseConfig) : St F Error Superblock :=
  let sb := initial_superblock cfg in
  root_bytes ← lift_r (Format.encode (Format.Leaf ZERO None []) FIRST_DATA_PAGE);
  superblock_bytes ← lift_r (Superblock.encode_superblock sb);
  set_len (3 * PAGE_SIZE);;
  write_all_at SUPERBLOCK_A_OFFSET superblock_bytes;;
  write_all_at SUPERBLOCK_B_OFFSET superblock_bytes;;
  offset ← lift_r (page_offset FIRST_DATA_PAGE);
  write_all_at offset root_bytes;;
  sync_all;;
  mret sb.

(** The [Self { .. }] of the three constructors: everything else starts empty. *)
Definition fresh_store (f : F) (w : option (WalLog W)) (sb : Superblock) (slot : SuperblockSlot)
    (root : PageId) (free : option PageId) (high_water : PageId) (lsn : Lsn) (cfg : DatabaseConfig)
    (j : option J) : Store :=
  mkStore f w sb slot root free high_water 1 lsn 1 (Cache.new (cache_capacity cfg)) cfg ∅ None false ∅
    None j.

Definition store_identity (cfg : DatabaseConfig) : WalIdentity :=
  Wal.mkIdentity (config_database_uuid cfg) (config_tenant_id cfg) (config_shard_id cfg)
    (config_shard_epoch cfg).

(** [report.max_revision.get().max(..).checked_add(1)]. *)
Definition revision_after (r : Revision) : result Revision :=
  ok_or (checked_add r 1) (InternalInvariantViolation "storage revision exhausted").

Record Files : Type := mkFiles { data_file : F; wal_file : W; injector : option J }.
Abbreviation MO := (St Files Error).
Definition on_data {A} (m : St F Error A) : MO A :=
  zoom data_file (λ f s, mkFiles f (wal_file s) (injector s)) m.
Definition on_log {A} (m : St (W * option J) Error A) : MO A :=
  zoom (λ s, (wal_file s, injector s)) (λ t s, mkFiles (data_file s) t.1 t.2) m.
Definition on_data_injector {A} (m : St (F * option J) Error A) : MO A :=
  zoom (λ s, (data_file s, injector s)) (λ t s, mkFiles t.1 (wal_file s) t.2) m.

(** Runs a method of the store under construction; the files stay where an error
    leaves them. *)
Definition on_store {A} (b : Store) (m : M A) : MO (A * Store) := λ s,
  let '(r, b') := m b in
  ((λ a, (a, b')) <$> r,
   mkFiles (file b') (match wal b' with Some w => Wal.file w | None => wal_file s end)
     (fault_injector b')).

Definition open_with_wal_internal (cfg : DatabaseConfig) : MO Store :=
  let i := store_identity cfg in
  s ← get_st;
  wal_length ← lift_r (file_len (wal_file s));
  hint ← on_data (validate_existing_identity_before_wal i wal_length);
  let checkpoint_hint := default 0 hint in
  w ← on_log (Wal.open i checkpoint_hint);
  s ← get_st;
  empty ← lift_r (is_empty (data_file s));
  if empty && bool_decide (Wal.committed w = []) then
    sb ← on_data (initialize_file cfg);
    s ← get_st;
    let b := fresh_store (data_file s) (Some w) sb Superblock.A FIRST_DATA_PAGE None FIRST_DATA_PAGE
               1 cfg (injector s) in
    mret (set_next_batch_id (Wal.next_batch_id w) (set_next_lsn (Wal.next_lsn w) b))
  else
    on_data_injector (recover_data_file (Wal.committed w) checkpoint_hint);;
    s ← get_st;
    length ← lift_r (file_len (data_file s));
    fail_when (misaligned length) (RecoveryFailure "recovered database file is not page aligned");;
    '(slot_a, slot_b) ← on_data read_slots;
    selected ← lift_r (Superblock.choose_superblock slot_a slot_b);
    let sb := Superblock.superblock selected in
    lift_r (validate_superblock_identity sb i);;
    '(root, free, high_water) ← lift_r (metadata_from_superblock sb length);
    w ← lift_r (Wal.resume_after (Superblock.checkpoint_lsn sb) w);
    s ← get_st;
    let b := fresh_store (data_file s) (Some w) sb (Superblock.slot selected) root free high_water
               0 cfg (injector s) in
    '(report, b) ← on_store b check_invariants;
    let max_commit_lsn := match last (Wal.committed w) with
                          | Some batch => Wal.batch_commit_lsn batch
                          | None => 0
                          end in
    next ← lift_r (revision_after (Z.max (Checker.report_max_revision report) max_commit_lsn));
    mret (set_next_batch_id (Wal.next_batch_id w) (set_next_lsn (Wal.next_lsn w) (set_next_revision next b))).

Definition open_with_wal (f : F) (w : W) (cfg : DatabaseConfig) : result Store * Files :=
  open_with_wal_internal cfg (mkFiles f w None).
Definition open_with_wal_and_fault_injector (f : F) (w : W) (cfg : DatabaseConfig) (j : J)
    : result Store * Files :=
  open_with_wal_internal cfg (mkFiles f w (Some j)).

(** ** Accessors *)

Definition cache_len (b : Store) : Z := Cache.len (cache b).
Definition enable_published_page_tracking : M unit :=
  modify_st (λ b, set_published true (published_page_updates b) b).
Definition take_published_page_updates : M (gmap PageId PageData) :=
  b ← get_st;
  modify_st (λ b, set_published (track_published_pages b) ∅ b);;
  mret (published_page_updates b).
Definition degraded_reason (b : Store) : option string := broken b.
Definition wal_metrics (b : Store) : result (option Wal.WalMetrics) :=
  match wal b with Some w => Some <$> Wal.metrics w | None => Ok None end.
Definition set_fault_injector (j : J) : M unit := modify_st (set_injector (Some j)).
Definition into_files (b : Store) : result (F * W) :=
  w ← ok_or (wal b) (InvalidInput "store does not have a WAL file");
  Ok (file b, Wal.file w).
End store.

(** ** Opening without a log *)
Section no_wal.
Context `{C : Crc32c} `{DF : DurableFile F} `{FI : FaultInjector J}.

Definition open_no_wal (cfg : DatabaseConfig) : St F Error (BTreeStore F NoWal J) :=
  f ← get_st;
  length ← lift_r (file_len f);
  if length =? 0 then
    sb ← initialize_file cfg;
    f ← get_st;
    mret (fresh_store f None sb Superblock.A FIRST_DATA_PAGE None FIRST_DATA_PAGE 1 cfg None)
  else
    fail_when (misaligned length) (Corruption "database file length is not page aligned");;
    '(slot_a, slot_b) ← read_slots;
    selected ← lift_r (Superblock.choose_superblock slot_a slot_b);
    let sb := Superblock.superblock selected in
    '(root, free, high_water) ← lift_r (metadata_from_superblock sb length);
    f ← get_st;
    let b := fresh_store f None sb (Superblock.slot selected) root free high_water 1 cfg None in
    '(report, b) ← (λ _, let '(r, b') := check_invariants b in ((λ a, (a, b')) <$> r, file b'));
    next ← lift_r (revision_after (Checker.report_max_revision report));
    mret (set_next_revision next b).
End no_wal.

End Store.
