(* ===== verification/StoreSpec.v ===== *)
(** * The store as the overlay sees it

    The laws of [CommittedStore] for [BTreeStore]: a committed page is the image that
    waits to be flushed or else the one in the file, the cache agrees with it, and
    reads change nothing. *)

From S2P Require Import Prelude Wp Key Core Page Superblock Format FormatLaws Cache Overlay Tree.
From S2P Require Import DurableFile Wal StoreFile Checker Store.

Module StoreSpec.
Import Core DurableFile StoreFile Store.

(** The bytes of a page of a file. *)
Definition page_at (v : bytes) (id : PageId) : bytes := v.[id * PAGE_SIZE; id * PAGE_SIZE + PAGE_SIZE).

Definition ok_of {E A} (r : Result E A) : option A := match r with Ok a => Some a | _ => None end.

(** A slice of full length lies inside. *)
Lemma slice_len_inv {A} (l : list A) a b : 0 ≤ a → a < b → len (l.[a; b)) = b - a → b ≤ len l.
Proof. unfold len, slice. rewrite length_take, length_drop. lia. Qed.

Section file.
Context `{FS : DurableFileSpec F}.
Implicit Type f : F.

(** Complete reads and writes of the data file. *)
Lemma read_exact_spec f o n :
  0 ≤ o → 0 ≤ n → o + n ≤ U64_MAX + 1 →
  wp (read_exact_at o n) (λ b f', same_file f f' ∧ len b = n ∧ b = (volatile f).[o; o + n))
    (λ _ f', same_file f f' ∧ (reliable f → len (volatile f) < o + n ∨ U64_MAX < o + n)) f.
Proof.
  intros Ho Hn Hu. unfold read_exact_at. apply read_loop_spec; try done.
  - by apply plain_offset_ok.
  - by rewrite len_nil, Z.add_0_r, slice_nil.
  - rewrite len_nil. lia.
Qed.

Lemma write_all_spec f o data :
  0 ≤ o ≤ len (volatile f) → o + len data ≤ U64_MAX →
  wp (write_all_at o data)
    (λ _ f', volatile f' = write_bytes (volatile f) o data ∧ durable f' = durable f ∧ (reliable f → reliable f'))
    (λ _ f', (∃ c, 0 ≤ c ≤ len data ∧ volatile f' = write_bytes (volatile f) o (data.[0; c))) ∧
       durable f' = durable f ∧ ¬ reliable f) f.
Proof.
  intros Ho Hu. unfold write_all_at. pose proof (len_nonneg data).
  wp_use (write_loop_spec (F:=F) plain_offset); [done|apply plain_offset_ok; lia|lia| | | |].
  - by rewrite slice_nil, write_bytes_nil.
  - unfold len. lia.
  - done.
  - intros e f' (R1 & R2 & R3). split_and!; [done..|]. intros Hr. specialize (R3 Hr). lia.
Qed.
End file.

Section spec.
Context `{C : Crc32c} `{FS : DurableFileSpec F} `{DW : DurableFile W} `{FI : FaultInjector J}.
Abbreviation Store := (BTreeStore F W J).
Implicit Type b : Store.

Definition committed_bytes b (id : PageId) : option bytes :=
  match dirty_pages b !! id with
  | Some x => Some x
  | None => if (0 <=? id) && (id * PAGE_SIZE + PAGE_SIZE <=? len (volatile (file b)))
            then Some (page_at (volatile (file b)) id) else None
  end.
Definition committed_page b (id : PageId) : option PageData :=
  x ← committed_bytes b id; ok_of (decode_page_bytes id x).

Record store_serving b : Prop := {
  ss_reliable : reliable (file b);
  ss_length : len (volatile (file b)) ≤ U64_MAX;
  ss_sized : Cache.sized (cache b);
  ss_cache : ∀ id p, Cache.cached (cache b) id = Some p → committed_page b id = Some p;
}.

Lemma set_file_id b : set_file (file b) b = b.
Proof. by destruct b. Qed.

Lemma committed_same_file b f' id : volatile f' = volatile (file b) → committed_page (set_file f' b) id = committed_page b id.
Proof. intros E. unfold committed_page, committed_bytes. simpl. by rewrite E. Qed.

Lemma serving_same_file b f' : same_file (file b) f' → store_serving b → store_serving (set_file f' b).
Proof.
  intros (V & _ & R) [S1 S2 S3 S4]. split; simpl; [auto|by rewrite V|done|].
  intros id p Hp. rewrite committed_same_file by done. by apply S4.
Qed.

Lemma set_cache_serving b c :
  store_serving b → Cache.sized c → (∀ id p, Cache.cached c id = Some p → committed_page b id = Some p) →
  store_serving (set_cache c b).
Proof. intros [S1 S2 S3 S4] Hc Hp. by split. Qed.

(** What reading a page from the file does. *)
Lemma read_page_outcome id b :
  store_serving b → 0 ≤ id →
  match read_page_from_file id b with
  | (r, b') => ok_of r = committed_page b id ∧ ∃ f', b' = set_file f' b ∧ same_file (file b) f'
  end.
Proof.
  intros [S1 S2 S3 S4] Hid. unfold read_page_from_file, mbind, St_bind, get_st, lift_r.
  unfold committed_page, committed_bytes.
  destruct (dirty_pages b !! id) as [x|].
  { split; [done|]. exists (file b). by rewrite set_file_id. }
  unfold page_offset, checked_mul. rewrite (proj2 (Z.leb_le 0 id)) by done. cbn [andb].
  assert (PAGE_SIZE = 4096) as HP by done.
  destruct (Z.leb_spec (id * PAGE_SIZE) U64_MAX) as [Ho|Ho]; last first.
  { rewrite (proj2 (Z.leb_gt _ _)) by lia. split; [done|]. exists (file b). by rewrite set_file_id. }
  unfold in_file, zoom. pose proof (read_exact_spec (file b) (id * PAGE_SIZE) PAGE_SIZE) as Hr.
  specialize (Hr ltac:(lia) ltac:(lia) ltac:(rewrite HP in *; unfold U64_MAX in *; lia)). unfold wp in Hr.
  destruct (read_exact_at (id * PAGE_SIZE) PAGE_SIZE (file b)) as [[x|e|k] f']; [..|done].
  - destruct Hr as (Hs & Hl & ->). rewrite (proj2 (Z.leb_le _ _)) by (eapply slice_len_inv; [| |rewrite Hl]; lia).
    split; [done|eauto].
  - destruct Hr as [Hs Hlen]. rewrite (proj2 (Z.leb_gt _ _)) by (destruct (Hlen S1); lia).
    split; [done|eauto].
Qed.

#[global] Program Instance store_spec : Tree.CommittedStoreSpec Store := {
  Tree.committed := committed_page;
  Tree.serving := store_serving;
}.
Next Obligation.
  intros id b Hs. pose proof (Cache.cached_get (cache b) id) as Hc. pose proof (Cache.get_cached (cache b) id) as Hg.
  pose proof (Cache.sized_get (cache b) id (ss_sized _ Hs)) as Hz.
  unfold Overlay.cache_get, committed_store. destruct (Cache.get (cache b) id) as [hit c]. cbn [fst snd] in *.
  split_and!; try done.
  - apply set_cache_serving; [done|done|]. intros i p. rewrite Hc. apply (ss_cache _ Hs).
  - intros p ->. by apply (ss_cache _ Hs).
Qed.
Next Obligation.
  intros id b p Hs Hp. cbn in *. assert (Hid : 0 ≤ id ∨ is_Some (dirty_pages b !! id)).
  { unfold committed_page, committed_bytes in Hp. destruct (dirty_pages b !! id); [by right|].
    destruct (Z.leb_spec 0 id); [by left|done]. }
  assert (Hout : ∃ r b', read_page_from_file id b = (r, b') ∧ ok_of r = Some p ∧ ∃ f', b' = set_file f' b ∧ same_file (file b) f').
  { destruct Hid as [Hid|[x Hx]].
    - pose proof (read_page_outcome id b Hs Hid) as Hr. destruct (read_page_from_file id b) as [r b'].
      destruct Hr as [Hok ?]. exists r, b'. by rewrite Hok.
    - exists (decode_page_bytes id x), b. unfold read_page_from_file, mbind, St_bind, get_st, lift_r. rewrite Hx.
      split_and!; [done| |exists (file b); by rewrite set_file_id].
      unfold committed_page, committed_bytes in Hp. by rewrite Hx in Hp. }
  destruct Hout as (r & b' & Er & Hok & f' & -> & Hf). exists (set_file f' b). destruct r; simplify_eq/=.
  split_and!; [done|by apply serving_same_file|done|]. intros i. apply committed_same_file, Hf.
Qed.
Next Obligation.
  intros id b Hs Hid. cbn. unfold FIRST_DATA_PAGE in Hid. pose proof (read_page_outcome id b Hs ltac:(lia)) as Hr.
  destruct (read_page_from_file id b) as [r b']. destruct Hr as (Hok & f' & -> & Hf). cbn [fst snd].
  split_and!; [by apply serving_same_file|done| |by intros p ->].
  intros i. apply committed_same_file, Hf.
Qed.

End spec.
End StoreSpec.
