(* ===== verification/StorePublish.v ===== *)
(** * Publishing prepared batches

    A group of prepared batches becomes one group of log commits, and once the log
    is durable the store takes over the state that the overlay prepared: its committed
    pages are the overlay's pages, its cache stays coherent, and its counters agree
    with the log's. *)

From S2P Require Import Prelude Wp Key Core Page Superblock Format FormatLaws Reference Cache Overlay Tree TreeSearch.
From S2P Require Import OverlayReads TreeOps TreeTxn DurableFile Wal WalFrames WalReplay WalRecovery WalAppend.
From S2P Require Import StoreFile Checker Store StoreSpec.

Module StorePublish.
Import Core FormatLaws DurableFile StoreFile Store StoreSpec OverlayReads Tree TreeOps TreeTxn.
Import WalReplay WalRecovery WalAppend.

Lemma length_map_iter {A} (m : gmap Z A) : length (map_iter m) = size m.
Proof. unfold map_iter. rewrite merge_sort_Permutation. apply length_map_to_list. Qed.
Lemma NoDup_map_iter {A} (m : gmap Z A) : NoDup (map_iter m).*1.
Proof. unfold map_iter. rewrite merge_sort_Permutation. apply NoDup_fst_map_to_list. Qed.

(** ** Encoded pages *)
Section pages.
Context `{C : Crc32c} {CS : Crc32cSpec C}.

Lemma encoded_page q i img :
  wf_page q → u64 i → Format.encode q i = Ok img →
  len img = Page.PAGE_SIZE ∧ decode_page_bytes i img = Ok q ∧
  ∃ d, Page.decode_page_at img (Some i) = Ok d ∧ Page.page_lsn (Page.header d) = Format.page_lsn q.
Proof.
  intros Hw Hi He. destruct (decode_encode_page q i img Hw Hi He) as (d & Hd & Hq).
  destruct (Page.decode_page_at_inv img (Some i)) as [[e He']|(t & Hd' & Hl & _)]; [congruence|].
  split_and!; [done| |].
  - unfold decode_page_bytes. by rewrite Hd.
  - exists d. split; [done|]. unfold Format.encode in He. destruct (Format.encode_body q) as [body| |] eqn:Eb; [|done..].
    simpl in He. pose proof (len_encode_body _ _ Eb) as Hlb. apply Page.encode_page_Ok in He as (-> & _ & Hlen).
    rewrite Page.decode_sealed_page in Hd; [|unfold Page.wf_header; split_and!; [done|exact Hi|apply Hw|done]|exact Hlen|by right].
    injection Hd as <-. reflexivity.
Qed.

Lemma encoded_page_valid q i img c :
  wf_page q → u64 i → FIRST_DATA_PAGE ≤ i → Format.encode q i = Ok img → Format.page_lsn q = c →
  page_valid c (Wal.mkImage i img).
Proof.
  intros Hw Hi Hf He <-. destruct (encoded_page q i img Hw Hi He) as (Hl & _ & d & Hd & Hlsn).
  unfold Overlay.FIRST_DATA_PAGE in Hf.
  assert (Hs : Wal.is_superblock_page i = false).
  { unfold Wal.is_superblock_page, Wal.SUPERBLOCK_A_PAGE, Wal.SUPERBLOCK_B_PAGE.
    by rewrite !(proj2 (Z.eqb_neq _ _)) by lia. }
  split.
  - unfold Wal.validate_page_image. cbn [Wal.image_page_id Wal.image]. by rewrite Hs, Hd.
  - unfold Wal.validate_page_image_lsn. cbn [Wal.image_page_id Wal.image]. rewrite Hs.
    rewrite index_range_ok by (rewrite ?Hl; by vm_compute). simpl.
    destruct (Page.decode_page_at_inv img (Some i)) as [[e He']|(t & Hd' & _)]; [congruence|].
    rewrite Hd in Hd'. injection Hd' as ->. cbn [Page.header Page.page_lsn] in Hlsn. rewrite Hlsn.
    unfold fail_if. by rewrite Z.eqb_refl.
Qed.

Lemma superblock_image_valid sb img s c :
  Superblock.wf sb → Superblock.encode_superblock sb = Ok img →
  page_valid c (Wal.mkImage (slot_page s) img) ∧ image_typed (Wal.mkImage (slot_page s) img).
Proof.
  intros Hw He. pose proof (Superblock.decode_encoded _ _ Hw He) as Hd.
  apply Superblock.encode_superblock_Ok in He as (-> & _).
  assert (Hs : Wal.is_superblock_page (slot_page s) = true) by (by destruct s).
  split; [split|].
  - unfold Wal.validate_page_image. cbn [Wal.image_page_id Wal.image]. by rewrite Hs, Hd.
  - unfold Wal.validate_page_image_lsn. cbn [Wal.image_page_id]. by rewrite Hs.
  - split; cbn [Wal.image_page_id Wal.image]; [by destruct s|apply Superblock.len_sealed_superblock].
Qed.
End pages.

(** ** From batches to log commits *)
Section commits.
Context {B : Type} {CB : Overlay.CommittedStore B} {SP : Tree.CommittedStoreSpec B}.
Context `{C : Crc32c} {CS : Crc32cSpec C}.
Implicit Type o : Overlay.Overlay B.

(** The pages of a commit record: a batch has fewer than [U32_MAX] of them. *)
Lemma committed_size o p o1 c :
  committed_by o p o1 c → (∃ s, represents 0 o1 s) → Z.of_nat (size (Overlay.changed_pages p)) + 1 < U32_MAX.
Proof.
  intros Cm (s & G & H & fl & Hi & (_ & _ & _ & Hcap) & _). pose proof (reach_ge o1 H 0) as Hge.
  rewrite <-size_dom.
  assert (Z.of_nat (size (dom (Overlay.changed_pages p))) ≤ Overlay.high_water_page_id o1 - 1); [|lia].
  apply TreeSearch.visited_bound; [apply Hi|]. intros i [img Himg]%elem_of_dom.
  pose proof (com_images _ _ _ _ Cm i) as Hc. destruct (Overlay.changed_decoded p !! i); [|congruence].
  by destruct Hc as (_ & _ & _ & _ & ? & _).
Qed.

Lemma stage_commit o p o1 c img :
  committed_by o p o1 c → (∃ s, represents 0 o1 s) → Overlay.sh_wal (Overlay.header (Overlay.store o)) = true →
  u64 (Overlay.next_batch_id o) → Superblock.encode_superblock (Overlay.new_superblock p) = Ok img →
  ∃ wc, wal_commit p img = Ok wc ∧ commit_valid (Overlay.next_lsn o) (Overlay.next_batch_id o) wc ∧
    commit_typed wc ∧ Wal.commit_lsn wc = c ∧ c < U64_MAX.
Proof.
  intros Cm Hh Hw Hb He. pose proof (committed_size _ _ _ _ Cm Hh) as Hsize.
  destruct Hh as (s & G & H & fl & Hi & (Hcap & _) & _). pose proof (reach_ge o1 H 0) as Hge.
  pose proof (inv_high _ _ _ _ _ _ _ Hi) as Hhigh. unfold Overlay.FIRST_DATA_PAGE in Hhigh.
  destruct (com_lsn _ _ _ _ Cm) as [Hc [_ Hlsn]]. destruct (com_batch _ _ _ _ Cm) as [Hbid _].
  pose proof (com_exact _ _ _ _ Cm Hw) as Hex. destruct (com_superblock _ _ _ _ Cm) as (Hsb & _ & _ & _ & Hng).
  rewrite <-Hsb in Hng. destruct Hng as (Hwf & _).
  destruct (superblock_image_valid _ _ (Overlay.new_slot p) c Hwf He) as [Hpv Hpt].
  unfold wal_commit. rewrite Hc. cbn [ok_or mbind Result_bind]. eexists. split; [done|].
  set (imgs := (λ '(id, img), Wal.mkImage id img) <$> map_iter (Overlay.changed_pages p)).
  assert (Hlen : len (imgs ++ [Wal.mkImage (slot_page (Overlay.new_slot p)) img]) = Z.of_nat (size (Overlay.changed_pages p)) + 1).
  { unfold imgs, len. rewrite length_app, length_fmap, length_map_iter. simpl. lia. }
  assert (Hpages : Forall (λ x, page_valid c x ∧ image_typed x) imgs).
  { apply Forall_fmap, Forall_forall. intros [i im] Hin%elem_of_map_iter. simpl.
    pose proof (com_images _ _ _ _ Cm i) as Hci. destruct (Overlay.changed_decoded p !! i) as [q|]; [|congruence].
    destruct Hci as (im' & Him & Hen & Hwq & Hran & Hlq). rewrite Hin in Him. injection Him as <-.
    unfold Overlay.FIRST_DATA_PAGE in Hran.
    assert (u64 i) by ulia. split; [eapply encoded_page_valid; try done; apply Hran|].
    split; [done|]. by eapply encoded_page. }
  apply Forall_and in Hpages as [Hv Ht].
  unfold commit_valid, commit_typed. cbn [Wal.commit_pages Wal.commit_batch_id Wal.commit_lsn]. rewrite Hlen.
  split_and!; try done; try ulia.
  - by destruct imgs.
  - apply Forall_app. split; [done|]. by apply Forall_singleton.
  - apply Forall_app. split; [done|]. by apply Forall_singleton.
Qed.

Lemma encode_candidates_ok o ps o' :
  stages o ps o' → Overlay.sh_wal (Overlay.header (Overlay.store o)) = true → u64 (Overlay.next_batch_id o) →
  (Overlay.next_batch_id o + len ps < U64_MAX) →
  ∃ sbs cs, encode_candidates true ps = Ok (sbs, cs) ∧
    Forall2 (λ p sb, Superblock.encode_superblock (Overlay.new_superblock p) = Ok sb) ps sbs ∧
    commits_valid (Overlay.next_lsn o) (Overlay.next_batch_id o) cs ∧ Forall commit_typed cs ∧ len cs = len ps ∧
    Overlay.next_lsn o' = Overlay.next_lsn o + record_total cs ∧
    Overlay.next_batch_id o' = Overlay.next_batch_id o + len cs.
Proof.
  induction 1 as [o o' S|o p c o1 ps o' Cm Hne Hh Hst IH]; intros Hw Hb Hroom.
  { exists [], []. rewrite len_nil, (sim_lsn _ _ S), (sim_batch _ _ S). unfold record_total. simpl.
    split_and!; try done; try constructor; lia. }
  rewrite len_cons in Hroom. destruct (com_superblock _ _ _ _ Cm) as (Hsb & _ & _ & _ & Hng).
  rewrite <-Hsb in Hng. destruct Hng as (Hwf & _).
  destruct (com_batch _ _ _ _ Cm) as [_ Hb1]. destruct (com_revision _ _ _ _ Cm) as (_ & _ & Hl1).
  pose proof (len_nonneg ps).
  destruct IH as (sbs & cs & He & HF & Hv & Ht & Hl & Hn & Hnb); [by rewrite (com_header _ _ _ _ Cm)|rewrite Hb1; ulia|rewrite Hb1; lia|].
  pose proof (Superblock.encode_superblock_eq (Overlay.new_superblock p) ltac:(apply Hwf) ltac:(apply Hwf)) as Hen.
  destruct (stage_commit _ _ _ _ _ Cm Hh Hw Hb Hen) as (wc & Hwc & Hcv & Hct & Hlsn & Hmax).
  cbn [encode_candidates]. rewrite Hen. cbn [mbind Result_bind]. rewrite Hwc. cbn [fmap Result_fmap mbind Result_bind].
  rewrite He. cbn [mbind Result_bind]. eexists _, _. split; [done|]. split_and!.
  - by constructor.
  - simpl. rewrite Hlsn, <-Hl1, <-Hb1. split_and!; [done|done|ulia|done].
  - by constructor.
  - change ([wc] ++ cs) with (wc :: cs). rewrite !len_cons. lia.
  - change (record_total ([wc] ++ cs)) with (len (Wal.commit_pages wc) + 1 + record_total cs).
    destruct Hcv as (_ & _ & Hcl & _). lia.
  - change ([wc] ++ cs) with (wc :: cs). rewrite len_cons. lia.
Qed.

(** The stages follow one another in generation. *)
Lemma check_generations_ok o ps o' :
  stages o ps o' → check_generations (Superblock.generation (Overlay.current_superblock o)) ps = Ok tt.
Proof.
  induction 1 as [|o p c o1 ps o' Cm Hne Hh Hst IH]; [done|]. cbn [check_generations].
  destruct (com_superblock _ _ _ _ Cm) as (Hsb & _ & _ & -> & _). rewrite Z.eqb_refl. cbn. by rewrite Hsb.
Qed.
End commits.

(** ** The store takes over the prepared state *)
Section publish.
Context `{C : Crc32c} {CS : Crc32cSpec C} `{FS : DurableFileSpec F} `{WS : DurableFileSpec W} `{JS : FaultInjectorSpec J}.
Abbreviation Store := (BTreeStore F W J).
Implicit Types (b : Store) (o : Overlay.Overlay Store).

(** What reading pages and publishing leave alone. *)
Record same_store b b' : Prop := {
  st_file : same_file (file b) (file b');
  st_wal : wal b' = wal b;
  st_broken : broken b' = broken b;
  st_injector : fault_injector b' = fault_injector b;
  st_config : config b' = config b;
  st_track : track_published_pages b' = track_published_pages b;
}.

Lemma same_store_stable b : read_stable (same_store b).
Proof.
  split.
  - intros id b' _ [S1 S2 S3 S4 S5 S6]. unfold Overlay.cache_get, committed_store.
    by destruct (Cache.get (cache b') id).
  - intros id b' Hs Hid [S1 S2 S3 S4 S5 S6]. unfold Overlay.FIRST_DATA_PAGE in Hid.
    pose proof (read_page_outcome id b' Hs ltac:(lia)) as Hr. cbn.
    destruct (read_page_from_file id b') as [r b2]. destruct Hr as (_ & f' & -> & Hf).
    split; simpl; try done. by etrans.
Qed.

(** Reading also leaves the updates for the read view and the dirty pages alone. *)
Definition untouched b b' : Prop :=
  same_store b b' ∧ published_page_updates b' = published_page_updates b ∧
  dirty_pages b' = dirty_pages b ∧ dirty_superblock b' = dirty_superblock b.

(** Only reads happened since [b]. *)
Record read_only b b' : Prop := {
  only_serving : store_serving b';
  only_header : store_header b' = store_header b;
  only_committed : ∀ i, committed_page b' i = committed_page b i;
  only_untouched : untouched b b';
}.

Lemma untouched_refl b : untouched b b.
Proof. by split. Qed.

Lemma untouched_stable b : read_stable (untouched b).
Proof.
  destruct (same_store_stable b) as [Hc Hr]. split.
  - intros id b' Hs (HS & HP & HD & HB). split; [by apply Hc|]. rewrite <-HP, <-HD, <-HB. unfold Overlay.cache_get, committed_store.
    by destruct (Cache.get (cache b') id).
  - intros id b' Hs Hid (HS & HP & HD & HB). split; [by apply Hr|]. rewrite <-HP, <-HD, <-HB. unfold Overlay.FIRST_DATA_PAGE in Hid.
    pose proof (read_page_outcome id b' Hs ltac:(lia)) as Ho. cbn.
    destruct (read_page_from_file id b') as [r b2]. by destruct Ho as (_ & f' & -> & _).
Qed.

(** The store [b] holds what the overlay [o] has staged. *)
Record follows o b : Prop := {
  fo_header : store_header b = Overlay.mkStoreHeader true (Overlay.current_superblock o)
    (Overlay.active_slot o) (Overlay.root_page_id o) (Overlay.free_list_head o) (Overlay.high_water_page_id o)
    (Overlay.next_revision o) (Overlay.next_lsn o) (Overlay.next_batch_id o)
    (Overlay.sh_limits (Overlay.header (Overlay.store o)));
  fo_view : ∀ i, committed_page b i = view o i;
  fo_serving : store_serving b;
}.

Lemma follows_sim o o' b : sim o o' → follows o b → follows o' b.
Proof.
  intros S [F1 F2 F3]. split; [|intros i; by rewrite F2, (sim_view _ _ S)|done].
  by rewrite F1, (sim_superblock _ _ S), (sim_slot _ _ S), (sim_root _ _ S), (sim_free _ _ S), (sim_high _ _ S),
    (sim_revision _ _ S), (sim_lsn _ _ S), (sim_batch _ _ S), (sim_header _ _ S).
Qed.

(** The store after one candidate. *)
Definition published (p : PreparedBatch) (sb : Superblock) (img : bytes) (c : Lsn) b : Store :=
  let b := set_superblock sb (Overlay.new_slot p) b in
  let b := set_allocator (Overlay.prepared_root p) (Overlay.prepared_free_list_head p)
             (Overlay.prepared_high_water p) b in
  let b := set_next_batch_id (Overlay.batch_id p + 1)
             (set_next_lsn (c + 1) (set_next_revision (Overlay.prepared_next_revision p) b)) in
  let b := set_dirty (Overlay.changed_pages p ∪ dirty_pages b) (Some img) b in
  let b := set_cache (Cache.insert_many (cache b) (map_iter (Overlay.prepared_read_pages p))) b in
  let b := if track_published_pages b
           then set_published true (Overlay.changed_decoded p ∪ published_page_updates b) b else b in
  set_cache (Cache.insert_many (cache b) (map_iter (Overlay.changed_decoded p))) b.

Lemma publish_candidate_eq p sb img c b :
  Superblock.decode_superblock img = Ok sb → Overlay.prepared_commit_lsn p = Some c → c < U64_MAX →
  Overlay.batch_id p < U64_MAX → publish_candidate (p, img) b = (Ok tt, published p sb img c b).
Proof.
  intros Hd Hc Hmax Hb. unfold publish_candidate, mbind, St_bind, lift_r, modify_st. cbn [fst snd].
  rewrite Hd, Hc. rewrite !checked_add_ok by lia. done.
Qed.

Lemma cached_published p sb img c b i q :
  store_serving b → Cache.cached (cache (published p sb img c b)) i = Some q →
  Overlay.changed_decoded p !! i = Some q ∨
  Overlay.changed_decoded p !! i = None ∧ (Overlay.prepared_read_pages p !! i = Some q ∨ Cache.cached (cache b) i = Some q).
Proof.
  intros Hs.
  assert (E : cache (published p sb img c b) = Cache.insert_many
    (Cache.insert_many (cache b) (map_iter (Overlay.prepared_read_pages p))) (map_iter (Overlay.changed_decoded p))).
  { unfold published. cbv zeta. by destruct (track_published_pages _). }
  rewrite E. intros Hq. pose proof (ss_sized _ Hs) as Hz. apply Cache.cached_insert_many in Hq;
    [|by apply Cache.sized_insert_many|apply NoDup_map_iter].
  destruct Hq as [Hq%elem_of_map_iter|[Hn Hq]]; [by left|right]. split.
  { destruct (Overlay.changed_decoded p !! i) as [x|] eqn:Ex; [|done]. exfalso. apply Hn.
    apply elem_of_map_iter in Ex. by apply (list_elem_of_fmap_2 fst) in Ex. }
  apply Cache.cached_insert_many in Hq as [Hq%elem_of_map_iter|[_ Hq]]; [by left|by right|done|apply NoDup_map_iter].
Qed.

Lemma published_fields p sb img c b :
  file (published p sb img c b) = file b ∧ wal (published p sb img c b) = wal b ∧
  broken (published p sb img c b) = broken b ∧ fault_injector (published p sb img c b) = fault_injector b ∧
  config (published p sb img c b) = config b ∧
  dirty_pages (published p sb img c b) = Overlay.changed_pages p ∪ dirty_pages b ∧
  dirty_superblock (published p sb img c b) = Some img ∧
  track_published_pages (published p sb img c b) = track_published_pages b ∧
  (track_published_pages b = true →
     published_page_updates (published p sb img c b) = Overlay.changed_decoded p ∪ published_page_updates b) ∧
  (Cache.sized (cache b) → Cache.sized (cache (published p sb img c b))).
Proof.
  unfold published. cbv zeta. cbn [track_published_pages set_cache set_dirty set_next_batch_id set_next_lsn
    set_next_revision set_allocator set_superblock].
  destruct (track_published_pages b) eqn:Et; simpl; split_and!; try done; eauto using Cache.sized_insert_many.
Qed.
(** The committed pages after one candidate. *)
Lemma committed_published o p o1 c sb img b i :
  committed_by o p o1 c → (∃ s, represents 0 o1 s) →
  committed_page (published p sb img c b) i =
    match Overlay.changed_decoded p !! i with Some q => Some q | None => committed_page b i end.
Proof.
  intros Cm (s & G & ht & fl & Hi & _). destruct (published_fields p sb img c b) as (Ef & _ & _ & _ & _ & Ed & _).
  unfold committed_page, committed_bytes. rewrite Ef, Ed.
  pose proof (com_images _ _ _ _ Cm i) as Hc. pose proof (inv_high _ _ _ _ _ _ _ Hi) as Hh.
  unfold Overlay.FIRST_DATA_PAGE in *.
  destruct (Overlay.changed_decoded p !! i) as [q|] eqn:Eq.
  - destruct Hc as (im & Him & He & Hw & Hr & _). erewrite lookup_union_Some_l by done. cbn.
    destruct (encoded_page q i im Hw ltac:(ulia) He) as (_ & Hd & _). by rewrite Hd.
  - by rewrite lookup_union_r by done.
Qed.

Lemma publish_step o p o1 c img b K Cm :
  committed_by o p o1 c → (∃ s, represents 0 o1 s) → follows o b →
  Superblock.encode_superblock (Overlay.new_superblock p) = Ok img →
  batch_reads K Cm p → (∀ i, i ∉ K → committed_page b i = Cm i) → is_Some (wal b) →
  ∃ b', publish_candidate (p, img) b = (Ok tt, b') ∧ follows o1 b' ∧ same_store b b' ∧
    dirty_pages b' = Overlay.changed_pages p ∪ dirty_pages b ∧ dirty_superblock b' = Some img ∧
    (track_published_pages b = true →
       published_page_updates b' = Overlay.changed_decoded p ∪ published_page_updates b) ∧
    ∀ i, i ∉ K ∪ dom (Overlay.changed_decoded p) → committed_page b' i = Cm i.
Proof.
  intros Cb Hh [F1 F2 F3] He Hreads Hcm [w Hw]. pose proof Hh as (s & G & ht & fl & Hi & (Hcap & _ & Hbat & _) & _).
  pose proof (reach_ge o1 ht 0) as Hge. pose proof (inv_high _ _ _ _ _ _ _ Hi) as Hhigh.
  unfold Overlay.FIRST_DATA_PAGE in Hhigh.
  destruct (com_superblock _ _ _ _ Cb) as (Esb & Eslot & _ & _ & Hng). destruct (com_lsn _ _ _ _ Cb) as [Hc _].
  destruct (com_revision _ _ _ _ Cb) as (Er1 & Er2 & El). destruct (com_batch _ _ _ _ Cb) as [Eb1 Eb2].
  destruct Hng as (_ & _ & _ & _ & _ & _ & _ & Hseal). rewrite Esb in He. pose proof (Hseal _ He) as Hdec.
  exists (published p (Overlay.current_superblock o1) img c b).
  pose proof (committed_published o p o1 c (Overlay.current_superblock o1) img b) as Hcp.
  destruct (published_fields p (Overlay.current_superblock o1) img c b) as (E1 & E2 & E3 & E4 & E5 & E6 & E7 & E9 & E10 & E8).
  split_and!; try done.
  - apply publish_candidate_eq; [done|done|lia|lia].
  - clear E9 E10. split.
    + unfold store_header. rewrite E2, Hw, E5. injection F1. intros -> _ _ _ _ _ _ _ _ _.
      unfold published. cbv zeta. rewrite (com_header _ _ _ _ Cb).
      destruct (track_published_pages _); simpl; f_equal; try done; try congruence;
        rewrite ?Eb1, ?Er1; try congruence; apply Cb.
    + intros i. rewrite Hcp by done. rewrite (com_view _ _ _ _ Cb). destruct (_ !! i); [done|apply F2].
    + destruct F3 as [S1 S2 S3 S4]. split; [by rewrite E1|by rewrite E1|by apply E8|].
      intros i q Hq. apply cached_published in Hq; [|by split]. rewrite Hcp by done.
      destruct Hq as [->|[-> [Hq|Hq]]]; [done| |by apply S4].
      destruct (Hreads _ _ Hq) as [HK Hcmi]. by rewrite Hcm.
  - split; try done. by rewrite E1.
  - intros i [HK Hd]%not_elem_of_union. rewrite Hcp by done.
    apply not_elem_of_dom in Hd as ->. by apply Hcm.
Qed.

(** The images of the pages that a group changes, the last one of each page. *)
Definition group_pages (ps : list PreparedBatch) (m : gmap PageId bytes) : gmap PageId bytes :=
  foldl (λ m p, Overlay.changed_pages p ∪ m) m ps.

(** The decoded pages that a group changes. *)
Definition group_decoded (ps : list PreparedBatch) (m : gmap PageId PageData) : gmap PageId PageData :=
  foldl (λ m p, Overlay.changed_decoded p ∪ m) m ps.

Lemma publish_all o ps o' b K Cm sbs :
  stages o ps o' → follows o b → group_reads K Cm ps → (∀ i, i ∉ K → committed_page b i = Cm i) → is_Some (wal b) →
  Forall2 (λ p sb, Superblock.encode_superblock (Overlay.new_superblock p) = Ok sb) ps sbs →
  ∃ b', for_each publish_candidate (zip ps sbs) b = (Ok tt, b') ∧ follows o' b' ∧ same_store b b' ∧
    dirty_pages b' = group_pages ps (dirty_pages b) ∧
    dirty_superblock b' = match last sbs with Some x => Some x | None => dirty_superblock b end ∧
    (track_published_pages b = true → published_page_updates b' = group_decoded ps (published_page_updates b)).
Proof.
  intros Hst. revert b K sbs. induction Hst as [o o' S|o p c o1 ps o' Cb Hne Hh Hst IH]; intros b K sbs Hf Hr Hcm Hw HF.
  { inversion HF; subst. exists b. split_and!; [done|by eapply follows_sim|by split|done|done|done]. }
  inversion HF as [|? sb ? sbs' He HF']; subst. destruct Hr as [Hr Hrs].
  destruct (publish_step _ _ _ _ _ _ _ _ Cb Hh Hf He Hr Hcm Hw) as (b1 & E1 & Hf1 & [S1 S2 S3 S4 S5 S6] & Ed & Es & Ep & Hcm1).
  destruct (IH b1 _ sbs' Hf1 Hrs Hcm1) as (b' & E2 & Hf' & [S1' S2' S3' S4' S5' S6'] & Ed' & Es' & Ep'); [by rewrite S2|done|].
  exists b'. cbn [zip_with for_each]. unfold mbind, St_bind. rewrite E1, E2. split_and!; try done.
  - split; try congruence. by etrans.
  - rewrite Ed', Ed. done.
  - rewrite Es', Es. destruct sbs' as [|x sbs']; [done|].
    change (last (sb :: x :: sbs')) with (last (x :: sbs')).
    destruct (last (x :: sbs')) eqn:El; [done|]. by apply last_None in El.
  - intros Ht. rewrite Ep' by (by rewrite S6). by rewrite Ep.
Qed.
End publish.
End StorePublish.
