(* ===== verification/StoreTxn.v ===== *)
(** * Transactions on the store

    The store with a log as a whole: [store_ok] says what it holds, and a group of
    transactions takes it from one reference database to the next, in memory and in
    the log. *)

From S2P Require Import Prelude Wp Key Core Page Superblock Format FormatLaws Reference Cache Overlay Tree TreeSearch.
From S2P Require Import OverlayReads TreeOps TreeTxn DurableFile Wal WalFrames WalReplay WalRecovery WalAppend WalCrash.
From S2P Require Import StoreFile Checker Store StoreSpec StorePublish.

Module StoreTxn.
Import Core FormatLaws DurableFile StoreFile Store StoreSpec OverlayReads Tree TreeOps TreeTxn.
Import WalFrames WalReplay WalRecovery WalAppend WalCrash StorePublish.

(** ** Sizes in the log *)

Lemma record_total_bound cs : Forall commit_typed cs → record_total cs ≤ len cs * 2 ^ 32.
Proof.
  induction 1 as [|c cs (_ & _ & Hc) Hcs IH]; [done|].
  change (record_total (c :: cs)) with (len (Wal.commit_pages c) + 1 + record_total cs).
  rewrite len_cons. unfold U32_MAX in *. lia.
Qed.
Lemma page_total_bound cs : 0 ≤ Wal.page_total cs ≤ record_total cs.
Proof.
  induction cs as [|c cs IH]; [done|].
  change (record_total (c :: cs)) with (len (Wal.commit_pages c) + 1 + record_total cs).
  change (Wal.page_total (c :: cs)) with (len (Wal.commit_pages c) + Wal.page_total cs). blen.
Qed.

Section sizes.
Context `{C : Crc32c}.

Lemma page_frames_size v bid first i ps :
  Forall image_typed ps → len (images (page_frames v bid first i ps)) ≤ len ps * 2 ^ 13.
Proof.
  intros Hps. revert i. induction Hps as [|p ps [_ Hp] Hps IH]; intros i; [done|].
  cbn [page_frames]. rewrite images_cons, len_app, len_frame_image, len_cons. specialize (IH (i + 1)).
  unfold frame_size. cbn [Wal.payload]. unfold page_payload. rewrite len_app, len_to_le, Hp.
  unfold Wal.WAL_HEADER_SIZE, Wal.WAL_TRAILER_SIZE, Page.PAGE_SIZE. lia.
Qed.

Lemma group_size v next cs :
  Forall commit_typed cs → len (images (log_frames v (segments_of next cs))) ≤ record_total cs * 2 ^ 13.
Proof.
  intros Hcs. revert next. induction Hcs as [|c cs (Hty & _) Hcs IH]; intros next; [done|].
  change (record_total (c :: cs)) with (len (Wal.commit_pages c) + 1 + record_total cs).
  cbn [segments_of]. rewrite log_images_cons, len_app. specialize (IH (Wal.commit_lsn c + 1)).
  unfold seg_frames, segment_of. cbn [seg_batch seg_first seg_pages seg_done].
  rewrite images_app, len_app, images_cons, len_app, len_frame_image.
  change (len (images [])) with 0.
  pose proof (page_frames_size v (Wal.commit_batch_id c) next 0 (Wal.commit_pages c) Hty).
  unfold frame_size, commit_frame. cbn [Wal.payload seg_first seg_pages].
  assert (len (Wal.encode_commit_payload next (len (Wal.commit_pages c)) (crc32c (digest (Wal.commit_pages c)))) = 16) as ->.
  { unfold Wal.encode_commit_payload. rewrite !len_copy_at. done. }
  unfold Wal.WAL_HEADER_SIZE, Wal.WAL_TRAILER_SIZE. lia.
Qed.
End sizes.

Section store.
Context `{C : Crc32c} {CS : Crc32cSpec C} `{FS : DurableFileSpec F} `{WS : DurableFileSpec W} `{JS : FaultInjectorSpec J}.
Abbreviation Store := (BTreeStore F W J).
Implicit Types (b : Store) (o : Overlay.Overlay Store) (w : Wal.WalLog W).

(** The counters of the log have room for [n] more commits. *)
Record wal_room (n : nat) w : Prop := {
  room_syncs : Wal.sync_count w + Z.of_nat n < U64_MAX;
  room_records : 0 ≤ Wal.records_scanned (Wal.scan_report w) ∧
    Wal.records_scanned (Wal.scan_report w) + Z.of_nat n * 2 ^ 32 ≤ U64_MAX;
  room_images : Wal.page_images w + Z.of_nat n * 2 ^ 32 ≤ U64_MAX;
  room_bytes : len (volatile (Wal.file w)) + Z.of_nat n * 2 ^ 45 ≤ U64_MAX;
}.

(** The log [w] of the store holds the segments [ss], all of them durable, and is at
    the store's counters. *)
Record wal_ok (n : nat) b ss w : Prop := {
  wo_wal : wal b = Some w;
  wo_rep : wal_rep w ss;
  wo_ready : ready w;
  wo_lsn : Wal.next_lsn w = next_lsn b;
  wo_batch : Wal.next_batch_id w = next_batch_id b;
  wo_durable : durable (Wal.file w) = volatile (Wal.file w);
  wo_room : wal_room n w;
}.

Lemma room_counters n w cs :
  wal_room n w → Forall commit_typed cs → 1 ≤ len cs ≤ Z.of_nat n →
  counters_room w cs ∧
  ¬ (U64_MAX < len (volatile (Wal.file w)) + len (images (log_frames (Wal.format_version w) (segments_of (Wal.next_lsn w) cs)))).
Proof.
  intros [R1 R2 R3 R4] Hty Hl. pose proof (record_total_bound cs Hty). pose proof (page_total_bound cs).
  pose proof (group_size (Wal.format_version w) (Wal.next_lsn w) cs Hty). unfold counters_room, U64_MAX in *.
  split_and!; lia.
Qed.

Lemma room_after n k w w' cs :
  wal_room n w → Forall commit_typed cs → 1 ≤ len cs ≤ Z.of_nat k → (k ≤ n)%nat → counted w cs w' → wal_room (n - k) w'.
Proof.
  intros [R1 R2 R3 R4] Hty Hl Hk [C1 C2 C3 C4 C5 C6]. pose proof (record_total_bound cs Hty). pose proof (page_total_bound cs).
  pose proof (group_size (Wal.format_version w) (Wal.next_lsn w) cs Hty). pose proof (record_total_nonneg cs).
  split; unfold U64_MAX in *; lia.
Qed.
(** ** Publishing *)

Lemma wp_or_broken {A} g (m : St Store Error A) Q (X : Error → Store → Prop) b :
  wp m Q (λ e b', X (g e) (set_broken (Some (to_string e)) b')) b → wp (or_broken g m) Q X b.
Proof. unfold wp, or_broken. by destruct (m b) as [[] b']. Qed.

Lemma wp_hit_fault point (Q : unit → Store → Prop) X b :
  (∀ j, (fault_injector b = None → j = None) → Q tt (set_injector j b)) →
  (∀ e j, fault_injector b ≠ None → X e (set_injector j b)) → wp (hit_fault point) Q X b.
Proof. intros HQ HX. apply wp_zoom, wp_hit; auto. Qed.

Lemma wp_run {S A} (m : St S Error A) a s' Q X s : m s = (Ok a, s') → Q a s' → wp m Q X s.
Proof. unfold wp. by intros ->. Qed.

(** Changing the log, the injector or the health of the store leaves its pages. *)
Definition with_log (w : Wal.WalLog W) (j : option J) b : Store := set_injector j (set_wal (Some w) b).

Lemma follows_with_log o b w w' j : wal b = Some w → follows o b → follows o (with_log w' j b).
Proof.
  intros Hw [F1 F2 [S1 S2 S3 S4]]. split; [|done|by split].
  rewrite <-F1. unfold store_header. by rewrite Hw.
Qed.

(** The record that a batch becomes in the log. *)
Definition batch_commit (p : Overlay.PreparedBatch) (c : Wal.WalCommit) : Prop :=
  ∃ img, Superblock.encode_superblock (Overlay.new_superblock p) = Ok img ∧ wal_commit p img = Ok c.

(** What a crash leaves of the files after the batches [ps], which lead to the
    overlay [o'], went to the log: the old data file, and the log with the first
    commits of the group, with [all] of them if so. *)
Definition left_log (all : Prop) ss ps cs o' b b' : Prop :=
  same_file (file b) (file b') ∧ ∃ w w', wal b = Some w ∧ wal b' = Some w' ∧
    (Wal.identity w' = Wal.identity w ∧ Wal.history_start_lsn w' = Wal.history_start_lsn w) ∧ Forall2 batch_commit ps cs ∧
    Forall commit_typed cs ∧ commits_valid (next_lsn b) (next_batch_id b) cs ∧
    Overlay.next_lsn o' = next_lsn b + record_total cs ∧ Overlay.next_batch_id o' = next_batch_id b + len cs ∧
    ∀ c, len c ≤ U64_MAX → crash_image (Wal.file w') c → ∃ m, crash_log w ss cs c m ∧ (all → (length cs ≤ m)%nat).

(** The batches [ps] wait to be written to the data file. *)
Definition dirtied ps b b' : Prop :=
  dirty_pages b' = group_pages ps (dirty_pages b) ∧
  dirty_superblock b' = match last ps with
    | Some p => ok_of (Superblock.encode_superblock (Overlay.new_superblock p))
    | None => dirty_superblock b
    end.

Lemma last_encoded ps sbs (x : option bytes) :
  Forall2 (λ p sb, Superblock.encode_superblock (Overlay.new_superblock p) = Ok sb) ps sbs →
  match last sbs with Some x => Some x | None => x end =
  match last ps with Some p => ok_of (Superblock.encode_superblock (Overlay.new_superblock p)) | None => x end.
Proof.
  induction 1 as [|p sb ps sbs He HF IH]; [done|]. destruct HF as [|p' sb' ps sbs He' HF]; [simpl; by rewrite He|].
  by rewrite !last_cons_cons.
Qed.

(** A publication that failed: the store serves no more and its pages are the old
    ones, or everything was published and the last fault point failed. *)
Definition publish_failed ss ps o' b (done : Store → Prop) b' : Prop :=
  (fault_injector b ≠ None ∨ ∃ w, wal b = Some w ∧ ¬ reliable (Wal.file w)) ∧
  (broken b' ≠ None ∧ store_header b' = store_header b ∧ (∀ i, committed_page b' i = committed_page b i) ∧
   (∃ cs, left_log False ss ps cs o' b b') ∨ done b').

(** A publication that succeeded. *)
Record publish_done (n : nat) b ss w o' ps b' : Prop := {
  pd_follows : follows o' b';
  pd_broken : broken b' = None;
  pd_config : config b' = config b;
  pd_file : same_file (file b) (file b');
  pd_dirty : dirtied ps b b';
  pd_wal : ∃ w' cs, wal_ok n b' (ss ++ segments_of (Wal.next_lsn w) cs) w' ∧
    Wal.committed w' = Wal.committed w ++ (Wal.committed_of <$> cs) ∧ left_log True ss ps cs o' b b' ∧
    (reliable (Wal.file w) → reliable (Wal.file w'));
  pd_injector : fault_injector b = None → fault_injector b' = None;
  pd_track : track_published_pages b' = track_published_pages b;
  pd_published : track_published_pages b = true →
    published_page_updates b' = group_decoded ps (published_page_updates b);
}.

Lemma encode_candidates_commits ps sbs cs :
  encode_candidates true ps = Ok (sbs, cs) →
  Forall2 batch_commit ps cs.
Proof.
  revert sbs cs. induction ps as [|p ps IH]; intros sbs cs; cbn [encode_candidates]; [by intros [= <- <-]|].
  destruct (Superblock.encode_superblock _) as [img| |] eqn:Ei; [|done..]. cbn [mbind Result_bind].
  destruct (wal_commit p img) as [c| |] eqn:Ec; [|done..]. cbn [fmap Result_fmap mbind Result_bind].
  destruct (encode_candidates true ps) as [[sbs' cs']| |]; [|done..]. intros [= <- <-].
  constructor; [by exists img|by eapply IH].
Qed.

Lemma publish_group_spec n k ss w o ps o' b Cm :
  stages o ps o' → ps ≠ [] → (length ps ≤ k ≤ n)%nat → follows o b → group_reads ∅ Cm ps →
  (∀ i, committed_page b i = Cm i) → broken b = None → wal_ok n b ss w → u64 (Overlay.next_batch_id o) →
  Overlay.next_batch_id o + len ps < U64_MAX → Overlay.sh_wal (Overlay.header (Overlay.store o)) = true →
  wp (publish_prepared_group ps) (λ _, publish_done (n - k) b ss w o' ps)
    (λ _, publish_failed ss ps o' b (publish_done (n - k) b ss w o' ps)) b.
Proof.
  intros Hst Hne Hk Hf Hr Hcm Hbr Hwal Hbid Hroom Hsw. pose proof Hwal as [O1 O2 O3 O4 O5 O6 O7].
  destruct (encode_candidates_ok o ps o' Hst Hsw Hbid Hroom) as (sbs & cs & He & HF & Hcv & Hct & Hlen & Hnl & Hnb).
  pose proof (encode_candidates_commits _ _ _ He) as Hbc.
  pose proof (fo_header _ _ Hf) as Hh. injection Hh. intros _ Hb2 Hl2 _ _ _ _ _ Hsb _.
  unfold publish_prepared_group, check_serving. wp_steps. rewrite Hbr. wp_steps.
  rewrite Hsb. apply (wp_lift_ok _ tt); [by eapply check_generations_ok|].
  assert (forallb (λ p, bool_decide (Overlay.changed_pages p = ∅)) ps = false) as ->.
  { destruct Hst as [|? ? ? ? ? ? ? Hch]; [done|]. cbn [forallb]. by rewrite bool_decide_false. }
  wp_step. apply (wp_lift_ok _ (sbs, cs)); [unfold store_header; by rewrite O1|]. cbv beta iota. rewrite O1.
  assert (Hcs : 1 ≤ len cs ≤ Z.of_nat k).
  { rewrite Hlen. unfold len. destruct ps; [done|]. simpl in *. lia. }
  destruct (room_counters n w cs O7 Hct ltac:(lia)) as [Hcr Hby].
  wp_step. wp_step. apply wp_or_broken. apply wp_zoom. rewrite <-Hl2, <-Hb2, <-O4, <-O5 in Hcv.
  assert (Hcne : cs ≠ []) by (intros E; rewrite E in Hcs; change (len _) with 0 in Hcs; lia).
  assert (Hnn : 0 ≤ Wal.next_lsn w) by (pose proof (rep_start _ _ O2); unfold ready in O3; ulia).
  destruct (commits_valid_bounds _ _ _ Hct Hcne Hnn Hcv) as [Hy1 Hy2]. destruct (segments_extent _ _ _ Hcv) as [Hx1 Hx2].
  wp_use (append_group_spec ss cs w (fault_injector b)); [done|done|done| |].
  2:{ intros e [w' j'] Hfail. pose proof Hfail as [_ _ _ Hwhy]. split.
      - destruct Hwhy as [->|[?|[?|[?|[?|?]]]]]; [change (len _) with 0 in Hcs; lia|tauto|right; eauto|by left|tauto|tauto].
      - left. simpl. split_and!; [done| |done|]; [unfold store_header; by rewrite O1|]. exists cs. split; [done|].
        exists w, w'. split_and!; [done|done|apply Hfail|apply Hfail|done|done|by rewrite O4, O5 in Hcv|lia|lia|]. intros c Hu Hc.
        destruct (failed_crash ss cs w (fault_injector b) (w', j') c) as [m Hm]; [done|done|done|lia|lia|done..|]. by exists m. }
  intros _ [w1 j1] Hgd. pose proof Hgd as (D1 & D2 & D3 & D4 & D5 & D6 & D7 & D8 & D9). cbn [fst snd] in *.
  assert (Hleft : ∀ all b2, same_file (file b) (file b2) → wal b2 = Some w1 → left_log all ss ps cs o' b b2).
  { intros all b2 Hs Hw2. split; [done|]. exists w, w1. split_and!; [done|done|done|done|done|done|by rewrite O4, O5 in Hcv|lia|lia|]. intros c Hu Hc.
    exists (length cs). split; [|done]. by eapply (done_crash ss cs w (fault_injector b) (w1, j1)). }
  change (set_injector j1 (set_wal (Some w1) b)) with (with_log w1 j1 b).
  wp_step. wp_step. apply wp_or_broken, wp_hit_fault.
  2:{ intros e j2 Hj. split; [left; intros E; apply Hj; simpl; auto|]. left. simpl. split_and!; [done| |done|exists cs; by apply Hleft].
      unfold store_header. by rewrite O1. }
  intros j2 Hj2. cbn [fault_injector with_log set_injector] in Hj2.
  change (set_injector j2 (with_log w1 j1 b)) with (with_log w1 j2 b).
  destruct (publish_all o ps o' (with_log w1 j2 b) ∅ Cm sbs) as (b' & Eb & Hfol & [T1 T2 T3 T4 T5 T6] & Td & Ts & Tp);
    [done|by eapply follows_with_log|done|intros i _; apply Hcm|by eexists|done|].
  wp_step. eapply wp_run; [exact Eb|].
  assert (Hdone : ∀ j3, (fault_injector b = None → j3 = None) → publish_done (n - k) b ss w o' ps (set_injector j3 b')).
  { intros j3 Hj3. pose proof (fo_header _ _ Hfol) as Hh'. injection Hh'. intros _ Hb3 Hl3 _ _ _ _ _ _ _.
    assert (broken (set_injector j3 b') = None) by (simpl; rewrite T3; exact Hbr).
    destruct Hfol as [G1 G2 [P1 P2 P3 P4]]. split; try done.
    { split; [exact Td|]. change (dirty_superblock (set_injector j3 b')) with (dirty_superblock b'). rewrite Ts. by apply last_encoded. }
    exists w1, cs. split_and!; [|done|apply Hleft; [done|simpl; by rewrite T2]|done].
    split; try done.
    - simpl. rewrite (cnt_next _ _ _ D8), Hl3, Hnl, <-Hl2. lia.
    - simpl. rewrite (cnt_batch _ _ _ D8), Hb3, Hnb, <-Hb2. lia.
    - eapply room_after; [done|done|done|lia|done]. }
  apply wp_hit_fault.
  - intros j3 Hj3. apply Hdone. intros E. apply Hj3. rewrite T4. simpl. auto.
  - intros e j3 Hj3. split; [left; intros E; apply Hj3; rewrite T4; simpl; auto|]. right. apply Hdone.
    intros E. destruct Hj3. rewrite T4. simpl. auto.
Qed.
(** ** The whole store *)

Record store_ok (n : nat) b ss (s : gmap DocumentKey RevisionState) : Prop := {
  so_represents : represents n (Overlay.overlay_new b) s;
  so_broken : broken b = None;
  so_wal : ∃ w, wal_ok n b ss w;
}.

(** An overlay of the store that took over the staged state. *)
Lemma represents_follows n o b s : represents n o s → follows o b → represents n (Overlay.overlay_new b) s.
Proof.
  intros (G & ht & fl & Hi & Hc & [D1 D2 D3 D4 D5 D6] & Hr) [F1 F2 F3]. injection F1.
  intros El Eb En Er Eh Ef Ert Es Esb _. exists G, ht, fl.
  assert (Hv : ∀ i, view (Overlay.overlay_new b) i = view o i).
  { intros i. rewrite <-F2. unfold view. simpl. by rewrite lookup_empty. }
  split_and!.
  - eapply inv_view; try done; simpl; set_solver.
  - unfold capacity, reach in *. simpl. by rewrite En, Eh, Esb, Eb.
  - split; simpl; try done.
    + by rewrite Er, En.
    + intros id p. rewrite Hv, Er. apply D4.
    + by rewrite Esb.
    + unfold limits_ok in *. simpl. by rewrite El.
  - simpl. by rewrite Er.
Qed.

(** The store after preparing a group on it. *)
Lemma follows_prepared n b s b' K :
  represents n (Overlay.overlay_new b) s → is_Some (wal b) →
  ∀ o', reads_ok K (committed_page b) (store_header b) (untouched b) o' → Overlay.store o' = b' →
  follows (Overlay.overlay_new b) b' ∧ untouched b b' ∧ ∀ i, committed_page b' i = committed_page b i.
Proof.
  intros Hr [w Hw] o' [R0 R1 R2 R3 R4 R5] <-. cbn in *. split_and!; [|done|done]. split.
  - change (Overlay.header (Overlay.store o')) with (store_header (Overlay.store o')) in R2. rewrite R2.
    unfold store_header. simpl. by rewrite Hw.
  - intros i. rewrite R3. unfold view. simpl. by rewrite lookup_empty.
  - done.
Qed.
Lemma wal_room_le n m w : (m ≤ n)%nat → wal_room n w → wal_room m w.
Proof. intros Hm [R1 R2 R3 R4]. split; lia. Qed.

Lemma wal_ok_same n m b b' ss w :
  (m ≤ n)%nat → wal b' = wal b → store_header b' = store_header b → wal_ok n b ss w → wal_ok m b' ss w.
Proof.
  intros Hm Hw Hh [O1 O2 O3 O4 O5 O6 O7]. injection Hh. intros _ Eb El _ _ _ _ _ _ _.
  split; try congruence. by eapply wal_room_le.
Qed.

Lemma batch_id_u64 n b ss w : wal_ok n b ss w → u64 (next_batch_id b).
Proof.
  intros [O1 O2 O3 O4 O5 O6 O7]. destruct O2 as [_ _ _ Hlog _ _ _ Hb]. apply log_batch_ge in Hlog.
  rewrite O5 in Hb. ulia.
Qed.

Lemma represents_serving n o s : represents n o s → serving (Overlay.store o).
Proof. intros (G & ht & fl & Hi & _). apply Hi. Qed.

(** No fault will happen in the log. *)
Definition wal_reliable b : Prop := ∀ w, wal b = Some w → reliable (Wal.file w).

(** How a group of transactions ends. *)
Record group_done n b ss db qs rs b' : Prop := {
  gd_store : ∃ cs db', group_run (limits (config b)) db qs rs db' ∧
    store_ok (n - writes qs) b' (ss ++ segments_of (next_lsn b) cs) (Reference.states db');
  gd_config : config b' = config b;
  gd_injector : fault_injector b = None → fault_injector b' = None;
  gd_reliable : wal_reliable b → wal_reliable b';
  gd_track : track_published_pages b' = track_published_pages b;
  gd_published : ∃ ps o', Overlay.prepare_group qs (Overlay.overlay_new b) = (Ok (ps, rs), o') ∧ follows o' b' ∧
    stages (Overlay.overlay_new b) ps o' ∧
    (track_published_pages b = true → published_page_updates b' = group_decoded ps (published_page_updates b));
  gd_left : ∃ ps cs db' o', group_ok n db qs (Overlay.overlay_new b) ps rs db' o' ∧ left_log True ss ps cs o' b b' ∧
    store_ok (n - writes qs) b' (ss ++ segments_of (next_lsn b) cs) (Reference.states db') ∧
    follows o' b' ∧ dirtied ps b b';
}.

Lemma left_log_untouched all ss ps cs o' b b1 b' :
  same_file (file b) (file b1) → wal b1 = wal b → next_lsn b1 = next_lsn b → next_batch_id b1 = next_batch_id b →
  left_log all ss ps cs o' b1 b' → left_log all ss ps cs o' b b'.
Proof. intros Hs Hw Hl Hb [Hs' Hx]. unfold left_log. rewrite Hw, Hl, Hb in Hx. split; [by etrans|done]. Qed.

(** Nothing was appended. *)
Lemma left_log_nil n all ss w o' b b' :
  wal_ok n b ss w → same_file (file b) (file b') → wal b' = wal b →
  Overlay.next_lsn o' = next_lsn b → Overlay.next_batch_id o' = next_batch_id b → left_log all ss [] [] o' b b'.
Proof.
  intros [O1 O2 O3 O4 O5 O6 O7] Hs Hw Hl Hb. split; [done|]. exists w, w. rewrite Hw. assert (len (@nil Wal.WalCommit) = 0) as -> by done.
  unfold record_total. simpl. split_and!; try done; try lia.
  intros c Hu Hc. exists 0%nat. split; [|done]. rewrite (crash_image_synced _ _ Hc O6) in *. destruct O2 as [R1 R2 R3 R4 R5 R6 R7 R8].
  exists (Wal.format_version w), [], []. rewrite app_nil_r. assert (len (@nil Wal.WalCommit) = 0) as -> by done.
  unfold record_total. split_and!; [|done|simpl; lia|simpl; lia].
  split; try done; [lia|lia|by left|by rewrite app_nil_r].
Qed.

(** Its failure: a fault, after which the store serves no more and holds the old
    pages, or after which everything had been published. *)
Definition group_fault n b ss db qs b' : Prop :=
  (fault_injector b ≠ None ∨ ¬ wal_reliable b) ∧
  (broken b' ≠ None ∧ store_header b' = store_header b ∧ (∀ i, committed_page b' i = committed_page b i) ∧
   (∃ ps cs rs db' o', group_ok n db qs (Overlay.overlay_new b) ps rs db' o' ∧ left_log False ss ps cs o' b b') ∨
   ∃ rs, group_done n b ss db qs rs b').

Lemma group_finished n b ss w db qs ps rs db' o' b1 b2 :
  group_ok n db qs (Overlay.overlay_new b) ps rs db' o' → wal_ok n b ss w → untouched b b1 →
  publish_done (n - writes qs) b1 ss w o' ps b2 → next_lsn b1 = next_lsn b → next_batch_id b1 = next_batch_id b →
  group_done n b ss db qs rs b2.
Proof.
  intros Hg [O1 O2 O3 O4 O5 O6 O7] [[T1 T2 T3 T4 T5 T6] (Tp & Td1 & Td2)]
    [P1 P2 P3 P4 P5 (w' & cs & Hw' & _ & Hleft & Hrel) P7 P8 P9] El Eb.
  pose proof (left_log_untouched _ _ _ _ _ _ _ _ T1 T2 El Eb Hleft) as Hleft'.
  pose proof Hg as [G1 G2 G3 G4 G5 G6 G7]. rewrite O4 in Hw'.
  assert (store_ok (n - writes qs) b2 (ss ++ segments_of (next_lsn b) cs) (Reference.states db')) as Hok
    by (split; [by eapply represents_follows|done|by exists w']).
  split.
  - by exists cs, db'.
  - by rewrite P3.
  - rewrite T4 in P7. done.
  - intros Hr x Hx. rewrite (wo_wal _ _ _ _ Hw') in Hx. injection Hx as <-. by apply Hrel, Hr.
  - by rewrite P8.
  - exists ps, o'. split_and!; try done. intros Ht. rewrite P9 by (by rewrite T6). by rewrite Tp.
  - exists ps, cs, db', o'. split_and!; try done. unfold dirtied in *. by rewrite <-Td1, <-Td2.
Qed.

Lemma apply_group_spec n b ss db qs :
  store_ok n b ss (Reference.states db) → (writes qs ≤ n)%nat → Forall keys_fit qs → short_keys (Reference.states db) →
  wp (apply_transaction_group qs) (group_done n b ss db qs) (λ _, group_fault n b ss db qs) b.
Proof.
  intros [Hrep Hbr [w Hwal]] Hn Hwf Hsh. pose proof (wo_wal _ _ _ _ Hwal) as Hw.
  destruct (prepare_group_spec qs n _ db Hrep Hn Hwf Hsh) as (ps & rs & db' & o' & Hg).
  pose proof Hg as [G1 G2 G3 G4 G5 G6 G7].
  pose proof (new_reads (untouched b) b (represents_serving _ _ _ Hrep) (untouched_refl b)) as Hnew.
  destruct (prepare_group_reads (untouched b) (untouched_stable b) ∅ (committed_page b) (store_header b) qs
    (Overlay.overlay_new b)) as [[K HK] Hps]; [exact Hnew|]. rewrite G1 in HK, Hps. cbn [fst snd] in HK, Hps.
  destruct (follows_prepared _ _ _ _ _ Hrep ltac:(eauto) _ HK eq_refl) as (Hfol & Hsame & Hcm).
  pose proof (ro_header _ _ _ _ _ HK) as Hhead. cbn in Hhead.
  set (b1 := Overlay.store o') in *. pose proof Hsame as [[T1 T2 T3 T4 T5 T6] (Tp & Td1 & Td2)].
  assert (Hempty : ps = [] → group_done n b ss db qs rs b1).
  { intros ->. inversion G4 as [? ? S|]; subst.
    assert (store_ok (n - writes qs) b1 (ss ++ segments_of (next_lsn b) []) (Reference.states db')) as Hok1.
    { rewrite app_nil_r. split; [|congruence|].
      - eapply represents_follows; [done|]. by eapply follows_sim.
      - exists w. eapply wal_ok_same; [|done|done|done]. lia. }
    split; [|done|by rewrite T4| |done| |].
    - by exists [], db'.
    - intros Hr x. rewrite T2. apply Hr.
    - exists [], o'. split_and!; [done|by eapply follows_sim|done|done].
    - exists [], [], db', o'. split_and!; [done| |done|by eapply follows_sim|by split].
      eapply left_log_nil; [done|done|done|by rewrite (sim_lsn _ _ S)|by rewrite (sim_batch _ _ S)]. }
  unfold apply_transaction_group. destruct qs as [|q qs].
  { injection G1 as E1 E2 E3. assert (b1 = b) as Eb by (unfold b1; by rewrite <-E3).
    apply wp_ret. specialize (Hempty (eq_sym E1)). by rewrite Eb, <-E2 in Hempty. }
  wp_step. eapply wp_run; [cbv beta; by rewrite G1|]. cbv beta iota. fold b1.
  destruct ps as [|p ps]; [apply wp_ret; by apply Hempty|].
  pose proof Hrep as (G & ht & fl & Hi & (_ & _ & Hbat & _) & _). cbn in Hbat.
  wp_step. wp_use (publish_group_spec n (writes (q :: qs)) ss w (Overlay.overlay_new b) (p :: ps) o' b1 (committed_page b));
    [done|done|done|done|by eapply Hps|done|by rewrite T3|by eapply wal_ok_same| | | | |].
  - eapply batch_id_u64; exact Hwal.
  - cbn. unfold len. lia.
  - cbn. by rewrite Hw.
  - intros u b2 Hd. apply wp_ret. eapply group_finished; try done; by injection Hhead.
  - intros e b2 [Hwhy Hd]. split.
    + rewrite T4, T2 in Hwhy. destruct Hwhy as [?|(x & Hx & Hr)]; [by left|right]. intros Hrel. by apply Hr, Hrel.
    + destruct Hd as [(D1 & D2 & D3 & cs & D4)|Hd].
      * left. split_and!; [done|by rewrite D2|intros i; by rewrite D3|]. exists (p :: ps), cs, rs, db', o'. split; [done|].
        eapply left_log_untouched; [..|exact D4]; try done; by injection Hhead.
      * right. exists rs. eapply group_finished; try done; by injection Hhead.
Qed.
End store.
End StoreTxn.
