(* ===== verification/StoreNew.v ===== *)
(** * Creating a store

    Pages in the data file, and the store that opening two empty files creates: its
    tree is one empty leaf, its log holds no commit, and it represents the empty
    database. *)

From S2P Require Import Prelude Wp Key Core Page Superblock Format FormatLaws Reference Cache Overlay Tree TreeSearch.
From S2P Require Import OverlayReads TreeOps TreeTxn DurableFile Wal WalFrames WalReplay WalRecovery WalAppend WalReset.
From S2P Require Import StoreFile Checker Store StoreSpec StorePublish StoreTxn.

Module StoreNew.
Import Core FormatLaws DurableFile StoreFile Store StoreSpec OverlayReads Tree TreeOps TreeTxn.
Import WalFrames WalReplay WalRecovery WalAppend WalReset StorePublish StoreTxn.

(** ** Pages in a file *)

Lemma write_in_range b o s : 0 ≤ o → o + len s ≤ len b → write_bytes b o s = copy_at b o s.
Proof.
  intros Ho Hl. pose proof (len_nonneg s). unfold write_bytes. apply list_eq. intros i.
  rewrite copy_at_lookup by lia. unfold len in *. case_decide.
  - rewrite lookup_app_r by (rewrite length_take; lia). rewrite length_take, lookup_app_l by lia. f_equal. lia.
  - destruct (decide (Z.of_nat i < o)).
    + rewrite lookup_app_l by (rewrite length_take; lia). by rewrite lookup_take_lt by lia.
    + rewrite lookup_app_r, lookup_app_r by (rewrite ?length_take; lia).
      rewrite length_take, lookup_drop. f_equal. lia.
Qed.

(** Whole pages of a file. *)
Definition page_in (v : bytes) (id : PageId) : Prop := 0 ≤ id ∧ id * PAGE_SIZE + PAGE_SIZE ≤ len v.

Lemma len_page_at v id : page_in v id → len (page_at v id) = PAGE_SIZE.
Proof. intros [H1 H2]. unfold page_at. rewrite len_slice; unfold Page.PAGE_SIZE in *; lia. Qed.

Definition write_page_bytes (v : bytes) (id : PageId) (x : bytes) : bytes := write_bytes v (id * PAGE_SIZE) x.

Lemma len_write_page v id x : page_in v id → len x = PAGE_SIZE → len (write_page_bytes v id x) = len v.
Proof.
  intros [H1 H2] Hx. unfold write_page_bytes, Page.PAGE_SIZE in *. rewrite write_in_range by lia. apply len_copy_at.
Qed.
Lemma page_at_write_eq v id x : page_in v id → len x = PAGE_SIZE → page_at (write_page_bytes v id x) id = x.
Proof.
  intros [H1 H2] Hx. unfold page_at, write_page_bytes, Page.PAGE_SIZE in *. rewrite write_in_range by lia.
  apply slice_copy_at_eq; lia.
Qed.
Lemma page_at_write_ne v id j x :
  page_in v id → 0 ≤ j → id ≠ j → len x = PAGE_SIZE → page_at (write_page_bytes v id x) j = page_at v j.
Proof.
  intros [H1 H2] Hj Hne Hx. unfold page_at, write_page_bytes, Page.PAGE_SIZE in *. rewrite write_in_range by lia.
  apply slice_copy_at_ne; lia.
Qed.

(** A superblock is not a page of the tree. *)
Lemma superblock_not_page `{C : Crc32c} img sb i :
  Superblock.decode_superblock img = Ok sb → ok_of (decode_page_bytes i img) = None.
Proof.
  intros Hd. destruct (Superblock.decode_superblock_inv img) as [[[e He] _]|[_ (_ & Hm & _)]]; [congruence|].
  unfold decode_page_bytes. destruct (Page.decode_page_at_inv img (Some i)) as [[e ->]|(t & _ & _ & Hm' & _)]; [done|].
  rewrite Hm in Hm'. discriminate Hm'.
Qed.

(** What the configuration of a new database has to satisfy. *)
Record config_ok (cfg : DatabaseConfig) : Prop := {
  cfg_uuid : is_bytes (config_database_uuid cfg) ∧ len (config_database_uuid cfg) = 16;
  cfg_ids : u64 (config_tenant_id cfg) ∧ u64 (config_shard_id cfg) ∧ u64 (config_shard_epoch cfg);
  cfg_cache : 0 ≤ cache_capacity cfg;
  cfg_limits : 0 ≤ Overlay.inline_value_limit (limits cfg);
}.

Lemma config_identity cfg : config_ok cfg → identity_ok (store_identity cfg).
Proof. by intros [[_ ?] (? & ? & ?) _ _]. Qed.

Lemma initial_superblock_wf cfg : config_ok cfg → Superblock.wf (initial_superblock cfg).
Proof.
  intros [[? ?] (? & ? & ?) _ _]. unfold Superblock.wf, initial_superblock. cbn -[len is_bytes u64].
  split_and!; try done; ulia.
Qed.

Section create.
Context `{C : Crc32c} {CS : Crc32cSpec C} `{FS : DurableFileSpec F} `{WS : DurableFileSpec W} `{JS : FaultInjectorSpec J}.
Implicit Type f : F.

(** The contents of a new data file. *)
Record new_file (cfg : DatabaseConfig) (v : bytes) : Prop := {
  nf_len : len v = 3 * PAGE_SIZE;
  nf_superblocks : ∀ s, Superblock.encode_superblock (initial_superblock cfg) = Ok (page_at v (slot_page s));
  nf_root : Format.encode (Format.Leaf ZERO None []) FIRST_DATA_PAGE = Ok (page_at v FIRST_DATA_PAGE);
}.

(** Writing a page in range. *)
Lemma write_page_spec f id x :
  page_in (volatile f) id → len x = PAGE_SIZE → len (volatile f) ≤ U64_MAX →
  wp (write_all_at (id * PAGE_SIZE) x)
    (λ _ f', volatile f' = write_page_bytes (volatile f) id x ∧ durable f' = durable f ∧ (reliable f → reliable f'))
    (λ _ f', (∃ c, 0 ≤ c ≤ PAGE_SIZE ∧ volatile f' = write_bytes (volatile f) (id * PAGE_SIZE) (x.[0; c))) ∧
       durable f' = durable f ∧ ¬ reliable f) f.
Proof.
  intros [? ?] Hx Hu. wp_use (write_all_spec f (id * PAGE_SIZE) x); [unfold Page.PAGE_SIZE in *; lia..|done|].
  by rewrite Hx.
Qed.

Lemma initialize_file_spec cfg f :
  config_ok cfg → volatile f = [] →
  wp (initialize_file cfg)
    (λ sb f', sb = initial_superblock cfg ∧ new_file cfg (volatile f') ∧ durable f' = volatile f' ∧
       (reliable f → reliable f')) (λ _ _, ¬ reliable f) f.
Proof.
  intros Hcfg Hv. pose proof (initial_superblock_wf _ Hcfg) as Hwf.
  pose proof (Superblock.encode_superblock_eq _ ltac:(apply Hwf) ltac:(apply Hwf)) as He.
  pose proof (Superblock.len_sealed_superblock (initial_superblock cfg)) as Hls.
  set (img := Superblock.sealed (initial_superblock cfg)) in *.
  destruct (encode_storable (Format.Leaf ZERO None []) FIRST_DATA_PAGE) as [root Hroot]; [apply empty_leaf_storable|].
  assert (Hlr : len root = PAGE_SIZE).
  { eapply (encoded_page (Format.Leaf ZERO None [])); [apply empty_leaf_storable| |exact Hroot]. unfold FIRST_DATA_PAGE. ulia. }
  unfold initialize_file. wp_step. eapply wp_lift_ok; [exact Hroot|]. wp_step. eapply wp_lift_ok; [exact He|].
  wp_step. wp_use (set_len_spec f (3 * PAGE_SIZE)); [done| |by intros e f' (_ & _ & ?)].
  intros _ f1 (V1 & D1 & R1). rewrite Hv in V1. cbv beta.
  assert (L1 : len (volatile f1) = 3 * PAGE_SIZE).
  { rewrite V1. unfold resize. rewrite take_nil. change (len (zeros (3 * PAGE_SIZE - 0)) = 3 * PAGE_SIZE).
    by rewrite len_zeros. }
  assert (Hin : ∀ v id, len v = 3 * PAGE_SIZE → 0 ≤ id < 3 → page_in v id).
  { intros v id Hl Hid. unfold page_in. rewrite Hl. unfold Page.PAGE_SIZE. lia. }
  assert (Hmax : 3 * PAGE_SIZE ≤ U64_MAX) by (by vm_compute). clearbody img.
  assert (I1 : page_in (volatile f1) 0) by (apply Hin; [exact L1|lia]).
  wp_step. change SUPERBLOCK_A_OFFSET with (0 * PAGE_SIZE).
  wp_use (write_page_spec f1 0 img); [exact I1|exact Hls|lia| |intros e f' (_ & _ & ?); tauto].
  intros _ f2 (V2 & D2 & R2). cbv beta. pose proof (len_write_page (volatile f1) 0 img I1 Hls) as L2.
  rewrite <-V2, L1 in L2. assert (I2 : page_in (volatile f2) 1) by (apply Hin; [exact L2|lia]).
  wp_step. change SUPERBLOCK_B_OFFSET with (1 * PAGE_SIZE).
  wp_use (write_page_spec f2 1 img); [exact I2|exact Hls|lia| |intros e f' (_ & _ & ?); tauto].
  intros _ f3 (V3 & D3 & R3). cbv beta. pose proof (len_write_page (volatile f2) 1 img I2 Hls) as L3.
  rewrite <-V3, L2 in L3. assert (I3 : page_in (volatile f3) 2) by (apply Hin; [exact L3|lia]).
  wp_step. eapply wp_lift_ok; [done|]. change (FIRST_DATA_PAGE * PAGE_SIZE) with (2 * PAGE_SIZE).
  wp_step. wp_use (write_page_spec f3 2 root); [exact I3|exact Hlr|lia| |intros e f' (_ & _ & ?); tauto].
  intros _ f4 (V4 & D4 & R4). cbv beta. pose proof (len_write_page (volatile f3) 2 root I3 Hlr) as L4.
  rewrite <-V4, L3 in L4. wp_step. wp_use (sync_all_spec f4); [|intros e f' (_ & _ & ?); tauto].
  intros _ f5 (V5 & D5 & R5). apply wp_ret. split_and!; [done| |congruence|tauto].
  split; rewrite V5; [exact L4| |].
  - intros []; cbn [slot_page]; rewrite He; f_equal; symmetry.
    + rewrite V4, page_at_write_ne, V3, page_at_write_ne, V2 by (assumption || lia). by apply page_at_write_eq.
    + rewrite V4, page_at_write_ne, V3 by (assumption || lia). by apply page_at_write_eq.
  - rewrite Hroot. f_equal. symmetry. rewrite V4. by apply page_at_write_eq.
Qed.
(** The committed pages of a new store: the root leaf only. *)
Lemma new_store_pages cfg f (w : option (Wal.WalLog W)) sb lsn (j : option J) i :
  config_ok cfg → new_file cfg (volatile f) →
  committed_page (fresh_store f w sb Superblock.A FIRST_DATA_PAGE None FIRST_DATA_PAGE lsn cfg j) i =
  if decide (i = 2) then Some (Format.Leaf ZERO None []) else None.
Proof.
  intros Hcfg [N1 N2 N3]. unfold committed_page, committed_bytes, fresh_store. cbn [dirty_pages file]. rewrite lookup_empty.
  destruct (Z.leb_spec 0 i) as [Hi|Hi]; cbn [andb]; [|by rewrite decide_False by lia].
  rewrite N1. destruct (Z.leb_spec (i * PAGE_SIZE + PAGE_SIZE) (3 * PAGE_SIZE)) as [Hl|Hl]; last first.
  { rewrite decide_False; [done|]. unfold Page.PAGE_SIZE in Hl. lia. }
  cbn [mbind option_bind]. case_decide as Hd.
  - subst i. assert (u64 FIRST_DATA_PAGE) as Hu by (split; by vm_compute).
    destruct (encoded_page _ _ _ (proj1 (proj2 empty_leaf_storable)) Hu N3) as (_ & E & _).
    change FIRST_DATA_PAGE with 2 in E. by rewrite E.
  - assert (∃ sl, i = slot_page sl) as [sl ->].
    { assert (i = 0 ∨ i = 1) as [->| ->] by (unfold Page.PAGE_SIZE in Hl; lia); [by exists Superblock.A|by exists Superblock.B]. }
    pose proof (Superblock.decode_encoded _ _ (initial_superblock_wf _ Hcfg) (N2 sl)) as Hdec.
    exact (superblock_not_page _ _ _ Hdec).
Qed.

(** A new store. *)
Lemma new_store_ok cfg f w (j : option J) n :
  config_ok cfg → new_file cfg (volatile f) → reliable f → fresh w (store_identity cfg) 0 → new_counters w → Z.of_nat n ≤ FRESH_WRITES →
  let b := fresh_store f (Some w) (initial_superblock cfg) Superblock.A FIRST_DATA_PAGE None FIRST_DATA_PAGE 1 cfg j in
  store_ok n (set_next_batch_id (Wal.next_batch_id w) (set_next_lsn (Wal.next_lsn w) b)) [] ∅.
Proof.
  intros Hcfg Hnf Hrel Hfresh Hcnt Hn b. pose proof (new_store_pages cfg f (Some w) (initial_superblock cfg) 1 j) as Hp.
  fold b in Hp. destruct (id Hfresh) as [A1 A2 A3 A4 A5 A6 A7]. destruct Hcnt as (K1 & K2 & K3).
  rewrite A5, A6. assert (Hlen : len (volatile (Wal.file w)) = Wal.INIT_FRAME_SIZE).
  { rewrite (rep_bytes _ _ A1), A2, A3, A4, <-init_image. by rewrite len_frame_image, init_frame_size. }
  split; [|done|].
  - apply empty_tree_represents; [|done].
    assert (Hv : ∀ i, view (Overlay.overlay_new (set_next_batch_id 1 (set_next_lsn (0 + 1) b))) i = committed_page b i).
    { intros i. unfold view. cbn [Overlay.pages Overlay.overlay_new]. by rewrite lookup_empty. }
    split; try done.
    + split; [done| | |].
      * change (len (volatile f) ≤ U64_MAX). rewrite (nf_len _ _ Hnf). by vm_compute.
      * apply Cache.sized_new, Hcfg.
      * intros id p Hc. unfold Cache.cached in Hc. cbn in Hc. by rewrite lookup_empty in Hc.
    + rewrite Hv, Hp by done. by rewrite decide_True.
    + intros id p. rewrite Hv, Hp by done. by case_decide.
    + split; [by apply initial_superblock_wf|done].
    + apply Hcfg.
  - exists w. split; try done.
    + by eapply fresh_ready.
    + split; rewrite ?K1, ?K2, ?K3, ?Hlen; unfold U64_MAX, Wal.INIT_FRAME_SIZE, Wal.WAL_HEADER_SIZE, Wal.INIT_PAYLOAD_SIZE, Wal.WAL_TRAILER_SIZE; lia.
Qed.

(** A store that was just created. *)
Record brand_new (cfg : DatabaseConfig) b : Prop := {
  bn_store : ∃ f w (j : option J), b = set_next_batch_id (Wal.next_batch_id w) (set_next_lsn (Wal.next_lsn w)
      (fresh_store f (Some w) (initial_superblock cfg) Superblock.A FIRST_DATA_PAGE None FIRST_DATA_PAGE 1 cfg j)) ∧
    fresh w (store_identity cfg) 0;
  bn_file : new_file cfg (volatile (file b));
  bn_durable : durable (file b) = volatile (file b);
}.

(** Opening two empty files. *)
Lemma open_new_spec cfg n (s : Files (F:=F) (W:=W) (J:=J)) :
  config_ok cfg → volatile (data_file s) = [] → volatile (wal_file s) = [] → Z.of_nat n ≤ FRESH_WRITES →
  reliable (data_file s) → reliable (wal_file s) →
  wp (open_with_wal_internal cfg)
    (λ b s', store_ok n b [] ∅ ∧ config b = cfg ∧ fault_injector b = injector s ∧ wal_reliable b ∧
       published_page_updates b = ∅ ∧ brand_new cfg b) noerr s.
Proof.
  intros Hcfg Hd Hw Hn Rd Rw. unfold open_with_wal_internal. wp_steps.
  pose proof (file_len_spec (wal_file s)) as Hfl. destruct (file_len (wal_file s)) as [wl|e|k]; [|done..].
  apply wp_lift. wp_steps. apply wp_zoom. unfold validate_existing_identity_before_wal. wp_steps.
  pose proof (file_len_spec (data_file s)) as Hdl. destruct (file_len (data_file s)) as [dl|e|k]; [|done..].
  apply wp_lift. subst dl. rewrite Hd. change (len (@nil Z) =? 0) with true. cbv iota. wp_steps. cbn [default]. apply wp_zoom. cbn [data_file wal_file injector].
  wp_use (open_torn_spec (F:=W) (store_identity cfg) 0 0 (wal_file s) (injector s));
    [by apply config_identity|by vm_compute|by vm_compute|by rewrite slice_nil| |by intros e t [_ ?]].
  intros w [wf j] (Hf & [Hfresh Hcnt] & Hr & Hj). cbn [fst snd] in *. cbv beta. subst wf j. wp_steps. cbn [data_file].
  unfold is_empty. pose proof (file_len_spec (data_file s)) as Hdl. destruct (file_len (data_file s)) as [dl|e|k]; [|done..].
  subst dl. rewrite Hd. wp_steps. apply (wp_lift_ok _ true); [done|].
  assert (Wal.committed w = []) as Hcom by (by rewrite (rep_committed _ _ (fresh_rep _ _ _ Hfresh))).
  rewrite bool_decide_true by done. cbn [andb]. cbv iota. wp_steps. apply wp_zoom. cbn [data_file].
  wp_use (initialize_file_spec cfg (data_file s)); [done|done| |by intros].
  intros sb f' (-> & Hnf & Hdf & Hrf). cbv beta. wp_steps. cbn [data_file injector].
  split_and!; [by apply new_store_ok; auto|done|done| |done|]; [intros x [= <-]; auto|].
  split; [|done|done]. by exists f', w, (injector s).
Qed.
End create.
End StoreNew.
