(* ===== verification/CheckerSpec.v ===== *)
(** * The checker accepts a healthy tree

    Completeness of the pass of Checker.v: on pages that satisfy the tree invariant
    it finds nothing to complain about, whatever the shape of the tree, and the
    newest revision it reports bounds those of the database.  The walk only ever adds
    pages and keys that belong to the interval of the page it visits, so two subtrees
    never meet. *)

From S2P Require Import Prelude Wp Key Core Page Superblock Format FormatLaws Overlay Tree TreeSearch TreeInsert TreeOps.
From S2P Require Import DurableFile Wal StoreFile Checker.

Module CheckerSpec.
Import Core Overlay Tree TreeSearch DurableFile Checker.

(** What the checker relies on: the pages and labels of the tree invariant. *)
Record healthy (hw root : PageId) (free : option PageId) (V : view_t) (G : labels) (H : nat)
    (fl : list PageId) (db : database) : Prop := {
  he_range : ∀ id r, G !! id = Some r → FIRST_DATA_PAGE ≤ id ≤ hw;
  he_high : FIRST_DATA_PAGE ≤ hw < U64_MAX;
  he_root : G !! root = Some (RTree H [] None);
  he_height : ∀ id h lo hi, G !! id = Some (RTree h lo hi) → (h ≤ H)%nat;
  he_labels : labels_ok G;
  he_pages : ∀ id r, G !! id = Some r → page_ok V G G db id r;
  he_free : free_chain V free fl;
  he_free_nodup : NoDup fl;
  he_free_roles : ∀ id, id ∈ fl → G !! id = Some RFree;
}.

(** ** Regions *)

(** The pages of the subtree of height [h] over an interval. *)
Definition within (G : labels) (h : nat) (lo : bytes) (hi : option bytes) (i : PageId) : Prop :=
  match G !! i with
  | Some (RTree h' a b) => (h' ≤ h)%nat ∧ ∀ k, in_bounds a b k → in_bounds lo hi k
  | Some (RValue (Some k)) => in_bounds lo hi k
  | _ => False
  end.

(** Neither a page nor a key of the region was met. *)
Definition fresh (P : PageId → Prop) (Q : bytes → Prop) (s : TreeCheckState) : Prop :=
  (∀ i, i ∈ reachable s → ¬ P i) ∧ (∀ k, k ∈ Checker.keys s → ¬ Q k).

(** The state grew by pages and keys of the region; [R] bounds the revisions. *)
Record grows (R : Revision) (P : PageId → Prop) (Q : bytes → Prop) (s s' : TreeCheckState) : Prop := {
  gr_mono : reachable s ⊆ reachable s';
  gr_pages : ∀ i, i ∈ reachable s' → i ∈ reachable s ∨ P i;
  gr_keys : ∀ k, k ∈ Checker.keys s' → k ∈ Checker.keys s ∨ Q k;
  gr_max : max_revision s ≤ max_revision s';
  gr_bound : max_revision s ≤ R → max_revision s' ≤ R;
}.

#[global] Instance grows_preorder R P Q : PreOrder (grows R P Q).
Proof.
  split.
  - intros s. split; try done; auto.
  - intros s1 s2 s3 [A1 A2 A3 A4 A5] [B1 B2 B3 B4 B5]. split; [set_solver| | |lia|auto].
    + intros i [?%A2|?]%B2; auto.
    + intros k [?%A3|?]%B3; auto.
Qed.

Lemma grows_weaken R P P' Q Q' s s' :
  (∀ i, P i → P' i) → (∀ k, Q k → Q' k) → grows R P Q s s' → grows R P' Q' s s'.
Proof. intros HP HQ [A1 A2 A3 A4 A5]. split; try done; naive_solver. Qed.

Lemma fresh_grows R P P' Q Q' s s' :
  fresh P Q s → grows R P' Q' s s' → (∀ i, P i → P' i → False) → (∀ k, Q k → Q' k → False) → fresh P Q s'.
Proof.
  intros [F1 F2] [A1 A2 A3 _ _] HP HQ. split.
  - intros i [?%F1|?]%A2; [done|]. eauto.
  - intros k [?%F2|?]%A3; [done|]. eauto.
Qed.

Lemma fresh_weaken (P P' : PageId → Prop) (Q Q' : bytes → Prop) s :
  (∀ i, P i → P' i) → (∀ k, Q k → Q' k) → fresh P' Q' s → fresh P Q s.
Proof. intros HP HQ [F1 F2]. split; [intros i ?%F1|intros k ?%F2]; auto. Qed.

(** Subtrees over disjoint intervals have no page in common. *)
Lemma within_disjoint G h lo hi lo' hi' i :
  labels_ok G → (∀ k, in_bounds lo hi k → in_bounds lo' hi' k → False) →
  within G h lo hi i → within G h lo' hi' i → False.
Proof.
  intros HG Hd. unfold within. destruct (G !! i) as [[h' a b|[k|]|]|] eqn:E; try done; [|apply Hd].
  intros [_ H1] [_ H2]. apply (lab_nonempty _ HG) in E. eapply (Hd a); [apply H1|apply H2]; by apply in_bounds_lo.
Qed.

Lemma within_sub G h h' lo hi lo' hi' i :
  (h ≤ h')%nat → (∀ k, in_bounds lo hi k → in_bounds lo' hi' k) → within G h lo hi i → within G h' lo' hi' i.
Proof.
  intros Hh Hs. unfold within. destruct (G !! i) as [[h'' a b|[k|]|]|]; try done; [|apply Hs].
  intros [? ?]. split; [lia|auto].
Qed.

(** The two halves of an interval. *)
Lemma in_bounds_left lo m hi k : below hi m → in_bounds lo (Some m) k → in_bounds lo hi k.
Proof. intros Hm [? Hk]. split; [done|]. eapply below_le; [|exact Hm]. intros ?. apply (lt_irrefl k). by trans m. Qed.

Lemma in_bounds_right lo m hi k : bytes_lt lo m → in_bounds m hi k → in_bounds lo hi k.
Proof. intros Hm [Hk ?]. split; [|done]. intros Hlt. apply Hk. by trans lo. Qed.

Lemma sorted_nodup ks : StronglySorted bytes_lt ks → NoDup ks.
Proof.
  induction 1 as [|k ks HS IH HF]; [constructor|]. constructor; [|done]. rewrite Forall_forall in HF.
  intros Hk. by apply (lt_irrefl k), HF.
Qed.

(** ** The leaves of an interval, from left to right *)
Fixpoint leaf_seq (G : labels) (lo : bytes) (l : list PageId) (hi : option bytes) : Prop :=
  match l with
  | [] => False
  | [id] => G !! id = Some (RTree 0 lo hi)
  | id :: l' => ∃ m, G !! id = Some (RTree 0 lo (Some m)) ∧ leaf_seq G m l' hi
  end.

Lemma leaf_seq_app G lo l m l' hi : leaf_seq G lo l (Some m) → leaf_seq G m l' hi → leaf_seq G lo (l ++ l') hi.
Proof.
  revert lo. induction l as [|id [|id' l] IH]; intros lo; [done| |].
  - simpl. destruct l' as [|x l']; [done|]. eauto.
  - intros (m' & Hid & Hl) Hl'. exists m'. split; [done|]. by apply IH.
Qed.

(** The bound of the walk below a page, when it met a key at all. *)
Definition bounds_in (lo : bytes) (hi : option bytes) (b : KeyBounds) : Prop :=
  (∀ k, b.1 = Some k → in_bounds lo hi k) ∧ (∀ k, b.2 = Some k → in_bounds lo hi k).

Fixpoint bounds_seq (lo : bytes) (es : list InternalEntry) (hi : option bytes) (bs : list KeyBounds) : Prop :=
  match es, bs with
  | [], [b] => bounds_in lo hi b
  | e :: es', b :: bs' => bounds_in lo (Some (Format.separator e)) b ∧ bounds_seq (Format.separator e) es' hi bs'
  | _, _ => False
  end.

(** The lower bound that the checker passes down. *)
Definition lower_of (lower : option bytes) (lo : bytes) : Prop := lower = Some lo ∨ lower = None ∧ lo = [].

(** ** The walk *)
Section check.
Context `{C : Crc32c} `{DF : DurableFile F}.
Context (hw root : PageId) (free : option PageId) (V : view_t) (G : labels) (H : nat) (fl : list PageId)
  (db : database) (R : Revision).
Hypothesis HE : healthy hw root free V G H fl db.
Hypothesis HR : ∀ k r ov, db !! k = Some (r, ov) → r ≤ R.

(** The file returns the pages of the view, or fails for a reason of its own. *)
Context (good : F → Prop) (bad : Prop).
Hypothesis Hread : ∀ id p f, good f → V id = Some p → FIRST_DATA_PAGE ≤ id ≤ hw →
  wp (read_page hw id) (λ r f', r = p ∧ good f') (λ _ _, bad) f.

Abbreviation M := (St (F * TreeCheckState) Error).

Lemma wp_reach_page i m (Q : unit → F * TreeCheckState → Prop) X f s :
  i ∉ reachable s → Q tt (f, set_reachable ({[i]} ∪ reachable s) s) → wp (reach_page i m) Q X (f, s).
Proof.
  intros Hi HQ. unfold reach_page, state, update. wp_steps. apply wp_fail_when.
  - intros Hb%bool_decide_eq_true. done.
  - intros _. by apply wp_modify.
Qed.

Lemma wp_read_page i p (Q : PageData → F * TreeCheckState → Prop) f s :
  good f → V i = Some p → FIRST_DATA_PAGE ≤ i ≤ hw → (∀ f', good f' → Q p (f', s)) →
  wp (Checker.in_file (read_page hw i)) Q (λ _ _, bad) (f, s).
Proof. intros Hf Hp Hi HQ. apply wp_zoom. wp_use Hread; [done..| |done]. intros r f' [-> Hf']. by apply HQ. Qed.

Lemma reach_grows P (Q : bytes → Prop) i s : P i → grows R P Q s (set_reachable ({[i]} ∪ reachable s) s).
Proof. intros Hi. split; simpl; [set_solver| |auto|lia|done]. intros j [->%elem_of_singleton|]%elem_of_union; auto. Qed.

(** The pages of the value of a key. *)
Definition owned (k : bytes) (i : PageId) : Prop := G !! i = Some (RValue (Some k)).

Lemma overflow_loop_spec k fuel length head visited total count ids v f s :
  good f → chain V head length ids v → NoDup ids → Forall (owned k) ids →
  (∀ i, i ∈ ids → (i ∉ visited) ∧ (i ∉ reachable s)) → count + len ids ≤ Format.MAX_OVERFLOW_PAGES →
  (List.length ids < fuel)%nat → 0 ≤ total → total + len v ≤ U64_MAX →
  wp (overflow_loop hw fuel length head visited total count)
    (λ t fs, t = total + len v ∧ good fs.1 ∧ grows R (owned k) (λ _, False) s fs.2 ∧ leaves fs.2 = leaves s)
    (λ _ _, bad) (f, s).
Proof.
  revert fuel head visited total count v f s.
  induction ids as [|i ids IH]; intros [|fuel] head visited total count v f s Hf Hc Hn Ho Hfr Hcnt Hfuel Ht Hu;
    simpl in Hfuel; try lia; simpl in Hc.
  { destruct Hc as [-> ->]. cbn [overflow_loop]. apply wp_ret. rewrite len_nil. split_and!; [lia|done|reflexivity|done]. }
  destruct Hc as (-> & lsn & next & c & v' & Hv & -> & Hc). apply NoDup_cons in Hn as [Hni Hn].
  apply Forall_cons in Ho as [Hi Ho]. destruct (Hfr i ltac:(left)) as [Hnv Hnr].
  rewrite len_cons, len_app in *. pose proof (len_nonneg ids). pose proof (len_nonneg c). pose proof (len_nonneg v').
  cbn [overflow_loop]. wp_step. apply wp_fail_when.
  { intros [?%Z.leb_le|?%bool_decide_eq_true]%orb_true_iff; [lia|done]. }
  intros _. wp_step. apply wp_reach_page; [done|]. wp_step.
  apply (wp_read_page _ _ _ _ _ Hf Hv (he_range _ _ _ _ _ _ _ _ HE _ _ Hi)). intros f' Hf'. cbv beta iota.
  wp_step. apply wp_fail_when; [by rewrite Z.eqb_refl|]. intros _. wp_step. eapply wp_lift_ok; [by rewrite checked_add_ok by lia|].
  wp_use (IH fuel next ({[i]} ∪ visited) (total + len c) (count + 1) v'); [done|done|done|done| |lia|lia|lia|lia| |done].
  - intros j Hj. destruct (Hfr j ltac:(by right)). simpl. assert (j ≠ i) by congruence. set_solver.
  - intros t fs (-> & Hg & HG & Hl). simpl in Hl. split_and!; [lia|done| |done].
    etrans; [by apply (reach_grows (owned k) _ i)|done].
Qed.

Lemma check_leaf_entry_spec lower upper lo hi e ov f s :
  good f → lower_of lower lo → upper = hi → in_bounds lo hi (Format.key e) →
  0 < Format.revision e ≤ R → small_inline (Format.value e) →
  value_at V G (Some (Format.key e)) (Format.value e) ov →
  fresh (owned (Format.key e)) (eq (Format.key e)) s →
  wp (check_leaf_entry hw lower upper e)
    (λ _ fs, good fs.1 ∧ grows R (owned (Format.key e)) (eq (Format.key e)) s fs.2 ∧ leaves fs.2 = leaves s ∧
       Format.revision e ≤ max_revision fs.2)
    (λ _ _, bad) (f, s).
Proof.
  intros Hf Hlow -> [Hk1 Hk2] [Hr1 Hr2] Hsm Hv [F1 F2]. unfold check_leaf_entry. wp_step. apply wp_fail_when.
  { intros [Hb|Hb]%orb_true_iff.
    - destruct Hlow as [->|[-> _]]; [|done]. by apply bytes_ltb_spec in Hb.
    - destruct hi as [h|]; [|done]. apply bytes_leb_spec in Hb. simpl in Hk2.
      exfalso. apply (lt_irrefl h). destruct Hb as [?| ->]; [|done]. by trans (Format.key e). }
  intros _. wp_step. apply wp_fail_when; [intros Hb%Z.eqb_eq; unfold ZERO in *; lia|]. intros _. unfold state, update.
  wp_step. wp_step. wp_step. wp_step. wp_step. apply wp_fail_when.
  { intros Hb%bool_decide_eq_true. by destruct (F2 (Format.key e)). }
  intros _. wp_step. wp_step. wp_step. wp_step. cbn [fst snd].
  set (s1 := set_max_revision _ _).
  assert (G1 : grows R (owned (Format.key e)) (eq (Format.key e)) s s1).
  { split; simpl; [done|auto| |lia|lia]. intros k [->%elem_of_singleton|]%elem_of_union; auto. }
  assert (Hm1 : Format.revision e ≤ max_revision s1) by (simpl; lia).
  destruct (Format.value e) as [[v|head total]|].
  - apply wp_fail_when; [intros Hb%Z.ltb_lt; simpl in Hsm; lia|]. by intros _.
  - destruct Hv as (ids & v & -> & Hc & -> & Hlen & Hn & Hmax & Ho). unfold check_overflow. wp_step. apply wp_fail_when.
    { intros [?%Z.eqb_eq|?%Z.ltb_lt]%orb_true_iff; lia. }
    intros _. wp_step. assert (Format.MAX_VALUE_SIZE ≤ U64_MAX) by done.
    wp_use (overflow_loop_spec (Format.key e) (S (Z.to_nat Format.MAX_OVERFLOW_PAGES)) (len v) (Some head) ∅ 0 0 ids v f s1); [done..| | | | | | |done].
    + intros i Hi. split; [set_solver|]. intros Hr. apply (F1 i Hr). by eapply (proj1 (Forall_forall _ _) Ho).
    + lia.
    + assert (0 ≤ Format.MAX_OVERFLOW_PAGES) by done. unfold len in Hmax. lia.
    + lia.
    + lia.
    + intros t fs (-> & Hg & HG & Hl). apply wp_fail_when.
      { rewrite Z.add_0_l, Z.eqb_refl. done. }
      intros _. split_and!; [done| |done|].
      * etrans; [done|]. by eapply grows_weaken; [..|exact HG].
      * pose proof (gr_max _ _ _ _ _ HG). lia.
  - by apply wp_ret.
Qed.

(** What an entry must have besides its place in the leaf. *)
Definition entry_ok (lo : bytes) (hi : option bytes) (e : LeafEntry) : Prop :=
  in_bounds lo hi (Format.key e) ∧ 0 < Format.revision e ≤ R ∧ small_inline (Format.value e) ∧
  ∃ ov, value_at V G (Some (Format.key e)) (Format.value e) ov.

Definition owned_in (ks : list bytes) (i : PageId) : Prop := ∃ k, k ∈ ks ∧ owned k i.

Lemma check_entries_spec lower lo hi es f s :
  good f → lower_of lower lo → Forall (entry_ok lo hi) es → NoDup (Tree.keys es) →
  fresh (owned_in (Tree.keys es)) (.∈ Tree.keys es) s →
  wp (for_each (check_leaf_entry hw lower hi) es)
    (λ _ fs, good fs.1 ∧ grows R (owned_in (Tree.keys es)) (.∈ Tree.keys es) s fs.2 ∧ leaves fs.2 = leaves s ∧
       ∀ e, e ∈ es → Format.revision e ≤ max_revision fs.2)
    (λ _ _, bad) (f, s).
Proof.
  intros Hf Hlow. revert f s Hf. induction es as [|e es IH]; intros f s Hf HF Hn Hfr; cbn [for_each].
  { apply wp_ret. split_and!; [done|reflexivity|done|]. by intros e ?%not_elem_of_nil. }
  apply Forall_cons in HF as [(Hin & Hrev & Hsm & ov & Hv) HF]. rewrite fmap_cons in *. apply NoDup_cons in Hn as [Hne Hn].
  wp_step. wp_use (check_leaf_entry_spec lower hi lo hi e ov f s); [done..| | |done].
  { eapply fresh_weaken; [| |exact Hfr].
    - intros i Hi. exists (Format.key e). split; [left|done].
    - intros k <-. left. }
  intros _ [f1 s1] (Hf1 & Hg1 & Hl1 & Hm1). cbn [fst snd] in *.
  wp_use (IH f1 s1 Hf1 HF Hn); [| |done].
  { eapply fresh_grows; [eapply fresh_weaken; [| |exact Hfr]|exact Hg1| |].
    - intros i (k & Hk & Hi). exists k. split; [by right|done].
    - intros k Hk. by right.
    - intros i (k & Hk & Hi) Hi'. unfold owned in *. rewrite Hi in Hi'. by simplify_eq.
    - by intros k Hk <-. }
  intros _ [f2 s2] (Hf2 & Hg2 & Hl2 & Hm2). cbn [fst snd] in *. split_and!; [done| |congruence|].
  - etrans; [eapply grows_weaken; [| |exact Hg1]|eapply grows_weaken; [| |exact Hg2]].
    + intros i Hi. exists (Format.key e). split; [left|done].
    + intros k <-. left.
    + intros i (k & Hk & Hi). exists k. split; [by right|done].
    + intros k Hk. by right.
  - intros e' [->|He]%elem_of_cons; [|auto]. pose proof (gr_max _ _ _ _ _ Hg2). lia.
Qed.

(** What visiting the subtree over an interval does to the state. *)
Record visited (h : nat) (lo : bytes) (hi : option bytes) (s s' : TreeCheckState) : Prop := {
  vi_grows : grows R (within G h lo hi) (in_bounds lo hi) s s';
  vi_leaves : ∃ l, leaves s' = leaves s ++ l ∧ leaf_seq G lo l hi ∧ ∀ i, i ∈ l → i ∈ reachable s';
  vi_revisions : ∀ k r ov, in_bounds lo hi k → db !! k = Some (r, ov) → r ≤ max_revision s';
}.

(** Adding the page itself and going one level up. *)
Lemma visited_parent h lo hi i s s' :
  G !! i = Some (RTree (S h) lo hi) → visited h lo hi (set_reachable ({[i]} ∪ reachable s) s) s' → visited (S h) lo hi s s'.
Proof.
  intros Hi [V1 V2 V3]. split; [|done|done]. etrans; [apply (reach_grows _ _ i)|].
  - unfold within. rewrite Hi. auto.
  - eapply grows_weaken; [| |exact V1]; [|done]. intros j. by apply within_sub; [lia|].
Qed.

Lemma visited_app h lo m hi s s1 s2 :
  below hi m → bytes_lt lo m → visited h lo (Some m) s s1 → visited h m hi s1 s2 → visited h lo hi s s2.
Proof.
  intros Hm Hlo [A1 (l & El & Hl & Rl) A3] [B1 (l' & El' & Hl' & Rl') B3].
  split.
  - etrans; (eapply grows_weaken; [| |done]); eauto using within_sub, in_bounds_left, in_bounds_right.
  - exists (l ++ l'). split; [by rewrite El', El, app_assoc|]. split; [by eapply leaf_seq_app|].
    intros i [Hi|Hi]%elem_of_app; [|auto]. by apply (gr_mono _ _ _ _ _ B1), Rl.
  - intros k r ov Hk Hdb. pose proof (gr_max _ _ _ _ _ B1). destruct (bytes_lt_dec k m) as [Hlt|Hge].
    + assert (r ≤ max_revision s1); [|lia]. eapply A3; [|done]. split; [apply Hk|done].
    + eapply B3; [|done]. split; [done|apply Hk].
Qed.

Definition visit_ok (visit : PageId → option bytes → option bytes → M KeyBounds) (h : nat) : Prop :=
  ∀ lower lo hi id f s, good f → G !! id = Some (RTree h lo hi) → lower_of lower lo →
    fresh (within G h lo hi) (in_bounds lo hi) s →
    wp (visit id lower hi) (λ b fs, good fs.1 ∧ visited h lo hi s fs.2 ∧ bounds_in lo hi b) (λ _ _, bad) (f, s).

Lemma visit_children_spec visit h lower lo lm es hi f s :
  visit_ok visit h → good f → children_ok G h lo lm es hi → lower_of lower lo →
  fresh (within G h lo hi) (in_bounds lo hi) s →
  wp (map_each (λ c, visit c.1 c.2.1 c.2.2)
        (zip (lm :: (Format.right_child <$> es)) (child_bounds lower (Format.separator <$> es) hi)))
    (λ bs fs, good fs.1 ∧ visited h lo hi s fs.2 ∧ bounds_seq lo es hi bs) (λ _ _, bad) (f, s).
Proof.
  intros Hvis. revert lower lo lm f s. induction es as [|e es IH]; intros lower lo lm f s Hf Hch Hlow Hfr.
  - cbn. wp_step. wp_use Hvis; [done..| |done]. intros b [f' s'] (Hf' & HV & Hb). by repeat wp_step.
  - destruct Hch as [Hl Hr]. pose proof (he_labels _ _ _ _ _ _ _ _ HE) as HG.
    pose proof (lab_nonempty _ HG _ _ _ _ Hl) as Hlo. pose proof (children_nonempty _ _ _ _ _ _ HG Hr) as Hhi. simpl in Hlo.
    pose proof (λ k, in_bounds_left lo _ _ k Hhi) as HA. pose proof (λ k, in_bounds_right _ _ hi k Hlo) as HB.
    cbn [fmap list_fmap child_bounds zip_with map_each fst snd].
    wp_step. wp_use Hvis; [done|exact Hl|done| | |done].
    { eapply fresh_weaken; [| |exact Hfr]; [|done]. intros i. by apply within_sub. }
    intros b [f1 s1] (Hf1 & HV1 & Hb1). cbn [fst snd] in *. wp_step.
    wp_use (IH (Some (Format.separator e)) (Format.separator e) (Format.right_child e) f1 s1 Hf1 Hr); [by left| | |done].
    { assert (Hd : ∀ k, in_bounds (Format.separator e) hi k → in_bounds lo (Some (Format.separator e)) k → False).
      { intros k [Hk _] [_ Hk']. done. }
      eapply fresh_grows; [eapply fresh_weaken; [| |exact Hfr]|apply HV1| |done].
      - intros i. by apply within_sub.
      - done.
      - intros i. by apply within_disjoint. }
    intros bs [f2 s2] (Hf2 & HV2 & Hb2). cbn [fst snd] in *. wp_step. split; [done|]. split; [|done].
    by eapply visited_app.
Qed.

Lemma bounds_seq_lookup lo es hi bs i e :
  bounds_seq lo es hi bs → es !! i = Some e →
  ∃ a l r b, bs !! i = Some l ∧ bs !! S i = Some r ∧ bounds_in a (Some (Format.separator e)) l ∧ bounds_in (Format.separator e) b r.
Proof.
  revert lo bs i. induction es as [|e' es IH]; intros lo [|l bs] [|i]; try done; cbn [bounds_seq]; intros [Hl Hs].
  - intros [= ->]. destruct es as [|e'' es], bs as [|r bs]; try done.
    + destruct bs; [|done]. exists lo, l, r, hi. done.
    + destruct Hs as [Hr _]. exists lo, l, r, (Some (Format.separator e'')). done.
  - intros Hi. exact (IH _ _ _ Hs Hi).
Qed.

Lemma check_separators_ok lo es hi bs es1 es2 :
  bounds_seq lo es hi bs → es = es1 ++ es2 → check_separators (length es1) es2 bs = Ok tt.
Proof.
  intros Hb. revert es1. induction es2 as [|e es2 IH]; intros es1 ->; [done|]. cbn [check_separators].
  destruct (bounds_seq_lookup _ _ _ _ (length es1) e Hb) as (a & l & r & b & Hl & Hr & [_ Bl] & [Br _]);
    [by apply list_lookup_middle|].
  rewrite (TreeInsert.index_lookup bs (Z.of_nat (length es1)) l) by (rewrite ?Nat2Z.id; done || lia). rsimpl.
  assert (match l.2 with Some m => bytes_leb (Format.separator e) m | None => false end = false) as ->.
  { destruct l.2 as [m|]; [|done]. apply bytes_leb_false. by destruct (Bl m). }
  rsimpl. rewrite (TreeInsert.index_lookup bs (Z.of_nat (length es1) + 1) r);
    [|lia|by replace (Z.to_nat (Z.of_nat (length es1) + 1)) with (S (length es1)) by lia]. rsimpl.
  assert (match r.1 with Some m => bytes_ltb m (Format.separator e) | None => false end = false) as ->.
  { destruct r.1 as [m|]; [|done]. apply bytes_ltb_false. by destruct (Br m). }
  rsimpl. replace (S (length es1)) with (length (es1 ++ [e])) by (rewrite length_app; simpl; lia).
  apply IH. by rewrite <-app_assoc.
Qed.

Lemma find_map_Some {A B} (g : A → option B) l y : find_map g l = Some y → ∃ x, x ∈ l ∧ g x = Some y.
Proof.
  induction l as [|x l IH]; [done|]. cbn [find_map]. destruct (g x) eqn:E.
  - intros [= ->]. exists x. split; [left|done].
  - intros (x' & ? & ?)%IH. exists x'. split; [by right|done].
Qed.

Lemma bounds_seq_in h lo lm es hi bs b :
  children_ok G h lo lm es hi → bounds_seq lo es hi bs → b ∈ bs → bounds_in lo hi b.
Proof.
  pose proof (he_labels _ _ _ _ _ _ _ _ HE) as HG.
  revert lo lm bs. induction es as [|e es IH]; intros lo lm [|b' bs]; cbn [bounds_seq children_ok]; try done.
  - destruct bs; [|done]. intros _ Hb Hin. apply list_elem_of_singleton in Hin as ->. done.
  - intros [Hl Hr] [Hb Hs] [->|Hin]%elem_of_cons.
    + pose proof (children_nonempty _ _ _ _ _ _ HG Hr) as Hhi.
      destruct Hb as [B1 B2]. split; intros k Hk; eapply in_bounds_left; eauto.
    + pose proof (lab_nonempty _ HG _ _ _ _ Hl) as Hlo. simpl in Hlo.
      destruct (IH _ _ _ Hr Hs Hin) as [B1 B2]. split; intros k Hk; eapply in_bounds_right; eauto.
Qed.

(** The walk over the subtree of a page of height [h]. *)
Lemma visit_tree_spec fuel h : (h < fuel)%nat → visit_ok (visit_tree hw fuel) h.
Proof.
  revert h. induction fuel as [|fuel IH]; intros h Hfuel lower lo hi id f s Hf Hid Hlow Hfr; [lia|].
  pose proof (he_range _ _ _ _ _ _ _ _ HE _ _ Hid) as Hrange. pose proof (he_pages _ _ _ _ _ _ _ _ HE _ _ Hid) as Hpage.
  assert (Hself : within G h lo hi id) by (unfold within; by rewrite Hid).
  cbn [visit_tree]. wp_step. apply wp_reach_page; [intros Hr; by apply (proj1 Hfr id)|]. wp_step.
  destruct h as [|h]; simpl in Hpage.
  - destruct Hpage as (lsn & next & es & Hv & (_ & _ & Hst) & HL). simpl in Hst.
    apply (wp_read_page _ _ _ _ _ Hf Hv Hrange). intros f1 Hf1. cbv beta iota. wp_step.
    assert (HF : Forall (entry_ok lo hi) es).
    { apply Forall_forall. intros e He. rewrite Forall_forall in Hst. destruct (Hst e He) as [[? _] ?].
      destruct (TreeInsert.leaf_entry_in _ _ _ _ _ _ _ _ HL He) as (ov & Hdb & Hval).
      pose proof (leaf_bounds _ _ _ _ _ _ _ HL) as Hb. rewrite Forall_forall in Hb.
      destruct (Hb (Format.key e)) as [? _]; [by apply list_elem_of_fmap_2|].
      split_and!; [done|done|by eapply HR|done|eauto]. }
    assert (Hin : ∀ k, k ∈ Tree.keys es → in_bounds lo hi k).
    { intros k (e & -> & He)%list_elem_of_fmap. rewrite Forall_forall in HF. by apply HF. }
    assert (Hown : ∀ i, owned_in (Tree.keys es) i → within G 0 lo hi i).
    { intros i (k & Hk & Hi). unfold within. rewrite Hi. auto. }
    wp_use (check_entries_spec lower lo hi es f1); [done|done|done| | | |done].
    + apply sorted_nodup, HL.
    + eapply fresh_grows; [eapply fresh_weaken; [exact Hown|exact Hin|exact Hfr]|apply (reach_grows (eq id) (λ _, False) id); done| |done].
      intros i (k & _ & Hi) <-. unfold owned in Hi. congruence.
    + intros _ [f2 s2] (Hf2 & Hg & Hl & Hm). cbn [fst snd] in *. wp_steps. cbn [fst snd]. split; [done|]. split; [split|].
      * etrans; [by apply (reach_grows _ _ id)|]. etrans; [eapply grows_weaken; [exact Hown|exact Hin|exact Hg]|]. by split; auto.
      * exists [id]. simpl. rewrite Hl. split_and!; [done|done|]. intros i Hi. apply list_elem_of_singleton in Hi as ->.
        apply (gr_mono _ _ _ _ _ Hg). simpl. set_solver.
      * intros k r ov Hk Hdb. pose proof (leaf_contents _ _ _ _ _ _ _ HL k Hk) as HD. rewrite Hdb in HD.
        destruct (find_entry es k) as [e|] eqn:E; [|done]. apply TreeInsert.find_entry_Some in E as [He _].
        destruct HD as [<- _]. simpl. auto.
      * split; intros k Hk; apply Hin; simpl in Hk; apply fmap_Some in Hk as (e & He & ->); apply list_elem_of_fmap_2.
        -- by apply head_Some_elem_of.
        -- by apply last_Some_elem_of.
  - destruct Hpage as (lsn & lm & es & Hv & (_ & _ & Hst) & Hch). simpl in Hst.
    apply (wp_read_page _ _ _ _ _ Hf Hv Hrange). intros f1 Hf1. cbv beta iota. wp_step. apply wp_fail_when; [by destruct es|].
    intros _. cbv zeta. wp_step. wp_use (visit_children_spec (visit_tree hw fuel) h lower lo lm es hi f1); [by apply IH; lia|done|done|done| | |done].
    + eapply fresh_grows; [eapply fresh_weaken; [| |exact Hfr]|apply (reach_grows (eq id) (λ _, False) id); done| |done].
      * intros i. apply within_sub; [lia|done].
      * done.
      * intros i Hi <-. unfold within in Hi. rewrite Hid in Hi. lia.
    + intros bs [f2 s2] (Hf2 & HV & Hb). cbn [fst snd] in *. wp_step.
      apply (wp_lift_ok _ tt); [by apply (check_separators_ok lo es hi bs [] es)|]. wp_step. cbn [fst snd].
      split; [done|]. split; [by eapply visited_parent|]. split.
      * intros k (x & Hx & Hk)%find_map_Some. by apply (proj1 (bounds_seq_in _ _ _ _ _ _ _ Hch Hb Hx)).
      * intros k (x & Hx & Hk)%find_map_Some. rewrite elem_of_reverse in Hx. by apply (proj2 (bounds_seq_in _ _ _ _ _ _ _ Hch Hb Hx)).
Qed.

(** ** The leaf chain *)

(** One page of every height: the tree is not higher than it has pages. *)
Lemma leftmost_path h id hi :
  G !! id = Some (RTree h [] hi) →
  ∃ l, length l = S h ∧ NoDup l ∧ ∀ i, i ∈ l → ∃ h' a b, G !! i = Some (RTree h' a b) ∧ (h' ≤ h)%nat.
Proof.
  revert id hi. induction h as [|h IH]; intros id hi Hid.
  { exists [id]. split_and!; [done|apply NoDup_singleton|]. intros i Hi. apply list_elem_of_singleton in Hi as ->. eauto. }
  destruct (he_pages _ _ _ _ _ _ _ _ HE _ _ Hid) as (lsn & lm & es & _ & _ & Hch).
  assert (∃ b, G !! lm = Some (RTree h [] b)) as [b Hlm] by (destruct es; simpl in Hch; [eauto|destruct Hch; eauto]).
  destruct (IH _ _ Hlm) as (l & Hl & Hn & Hin). exists (id :: l). split_and!; [by simpl; lia| |].
  - constructor; [|done]. intros (h' & a & b' & Hi & Hle)%Hin. simplify_eq. lia.
  - intros i [->|(h' & a & b' & Hi & Hle)%Hin]%elem_of_cons; [eauto|]. exists h', a, b'. split; [done|lia].
Qed.

Lemma pages_bound (l : list PageId) : NoDup l → (∀ i, i ∈ l → is_Some (G !! i)) → Z.of_nat (length l) ≤ hw - 1.
Proof.
  intros Hn Hl. rewrite <-(size_list_to_set (C:=gset PageId)) by done. apply visited_bound; [apply HE|].
  intros i [r Hi]%elem_of_list_to_set%Hl. by eapply (he_range _ _ _ _ _ _ _ _ HE).
Qed.

Lemma height_bound : (H < page_fuel hw)%nat.
Proof.
  destruct (leftmost_path _ _ _ (he_root _ _ _ _ _ _ _ _ HE)) as (l & Hl & Hn & Hin). pose proof (pages_bound l Hn) as Hb.
  unfold page_fuel. assert (Z.of_nat (length l) ≤ hw - 1); [|lia]. apply Hb. intros i (h' & a & b & Hi & _)%Hin. eauto.
Qed.

Lemma checked_leaf_spec fuel h id hi seen f :
  good f → G !! id = Some (RTree h [] hi) → (h < fuel)%nat →
  (∀ v, v ∈ seen → ∃ h' a b, G !! v = Some (RTree h' a b) ∧ (h < h')%nat) →
  wp (leftmost_leaf hw fuel id seen) (λ r f', good f' ∧ ∃ b, G !! r = Some (RTree 0 [] b)) (λ _ _, bad) f.
Proof.
  revert h id hi seen f. induction fuel as [|fuel IH]; intros h id hi seen f Hf Hid Hfuel Hseen; [lia|].
  pose proof (he_range _ _ _ _ _ _ _ _ HE _ _ Hid) as Hrange. pose proof (he_pages _ _ _ _ _ _ _ _ HE _ _ Hid) as Hpage.
  cbn [leftmost_leaf]. wp_step. apply wp_fail_when.
  { intros (h' & a & b & Hv & ?)%bool_decide_eq_true%Hseen. simplify_eq. lia. }
  intros _. wp_step. destruct h as [|h]; simpl in Hpage.
  - destruct Hpage as (lsn & next & es & Hv & _). wp_use Hread; [done..| |done]. intros ? f1 [-> Hf1]. apply wp_ret. eauto.
  - destruct Hpage as (lsn & lm & es & Hv & _ & Hch). wp_use Hread; [done..| |done]. intros ? f1 [-> Hf1].
    assert (∃ b, G !! lm = Some (RTree h [] b)) as [b Hlm] by (destruct es; simpl in Hch; [eauto|destruct Hch; eauto]).
    eapply IH; [done|done|lia|]. intros v [->%elem_of_singleton|(h' & a & b' & Hv' & ?)%Hseen]%elem_of_union.
    + exists (S h), [], hi. split; [done|lia].
    + exists h', a, b'. split; [done|lia].
Qed.

Lemma chain_keys_ok previous ks :
  (∀ p k, previous = Some p → k ∈ ks → bytes_lt p k) → StronglySorted bytes_lt ks →
  chain_keys previous ks = Ok (match last ks with Some k => Some k | None => previous end).
Proof.
  intros Hp HS. revert previous Hp. induction HS as [|k ks HS IH HF]; intros previous Hp; [done|]. cbn [chain_keys].
  assert (match previous with Some p => bytes_leb k p | None => false end = false) as ->.
  { destruct previous as [p|]; [|done]. apply bytes_leb_false, Hp; [done|left]. }
  rsimpl. rewrite IH.
  - destruct ks as [|k' ks]; [done|]. rewrite last_cons_cons. destruct (last (k' :: ks)) eqn:E; [done|]. by apply last_None in E.
  - intros p k' [= <-] Hk. rewrite Forall_forall in HF. by apply HF.
Qed.

Lemma leaf_seq_labels lo l hi :
  leaf_seq G lo l hi → below hi lo ∧ NoDup l ∧
  ∀ i, i ∈ l → ∃ a b, G !! i = Some (RTree 0 a b) ∧ ¬ bytes_lt a lo.
Proof.
  pose proof (he_labels _ _ _ _ _ _ _ _ HE) as HG.
  revert lo. induction l as [|id [|id' l] IH]; intros lo; [done| |].
  - intros Hid. split_and!; [by eapply lab_nonempty|apply NoDup_singleton|].
    intros i Hi. apply list_elem_of_singleton in Hi as ->. exists lo, hi. split; [done|apply lt_irrefl].
  - intros (m & Hid & Hl). destruct (IH _ Hl) as (Hm & Hn & Hin). pose proof (lab_nonempty _ HG _ _ _ _ Hid) as Hlo. simpl in Hlo.
    split_and!.
    + eapply below_le; [|exact Hm]. intros ?. apply (lt_irrefl m). by trans lo.
    + constructor; [|done]. intros (a & b & Hi & Ha)%Hin. simplify_eq. by destruct Ha.
    + intros i [->|(a & b & Hi & Ha)%Hin]%elem_of_cons.
      * exists lo, (Some m). split; [done|apply lt_irrefl].
      * exists a, b. split; [done|]. intros ?. apply Ha. by trans lo.
Qed.

Lemma chain_loop_spec fuel reach seen previous lo id l chain0 f :
  good f → leaf_seq G lo (id :: l) None → (length l < fuel)%nat → (∀ i, i ∈ id :: l → i ∈ reach) →
  (∀ v, v ∈ seen → ∃ a b, G !! v = Some (RTree 0 a (Some b)) ∧ ¬ bytes_lt lo b) →
  (∀ p, previous = Some p → bytes_lt p lo) →
  wp (chain_loop hw fuel reach (Some id) seen previous chain0) (λ r f', good f' ∧ r = chain0 ++ id :: l) (λ _ _, bad) f.
Proof.
  pose proof (he_labels _ _ _ _ _ _ _ _ HE) as HG.
  revert fuel seen previous lo id chain0 f.
  induction l as [|id' l IH]; intros [|fuel] seen previous lo id chain0 f Hf Hseq Hfuel Hreach Hseen Hprev; simpl in Hfuel; try lia;
    cbn [chain_loop].
  all: assert (∃ hi, G !! id = Some (RTree 0 lo hi)) as [hi Hid] by (simpl in Hseq; naive_solver).
  all: pose proof (he_range _ _ _ _ _ _ _ _ HE _ _ Hid) as Hrange.
  all: pose proof (he_pages _ _ _ _ _ _ _ _ HE _ _ Hid) as (lsn & next & es & Hv & _ & HL).
  all: wp_step; apply wp_fail_when;
    [intros (a & b & Hv' & Hb)%bool_decide_eq_true%Hseen; simplify_eq; destruct Hb; by apply (lab_nonempty _ HG _ _ _ _ Hid)|intros _].
  all: wp_step; apply wp_fail_when; [intros Hb%bool_decide_eq_true; destruct Hb; apply Hreach; left|intros _].
  all: wp_step; wp_use Hread; [done..| |done]; intros ? f1 [-> Hf1]; cbv beta iota.
  all: pose proof (leaf_bounds _ _ _ _ _ _ _ HL) as Hbd; rewrite Forall_forall in Hbd.
  all: wp_step; eapply wp_lift_ok; [apply chain_keys_ok; [|apply HL]|].
  1,3: intros p k Hp Hk; eapply lt_le_trans; [by apply Hprev|by apply Hbd].
  - simpl in Hseq. rewrite Hid in Hseq. injection Hseq as ->. pose proof (leaf_chain _ _ _ _ _ _ _ HL) as Hnx.
    destruct next as [n|]; [by destruct Hnx as (? & ? & ? & _)|]. by destruct fuel; apply wp_ret.
  - destruct Hseq as (m & Hid' & Hseq). rewrite Hid in Hid'. injection Hid' as ->.
    pose proof (leaf_chain _ _ _ _ _ _ _ HL) as Hnx.
    destruct next as [n|]; [|done]. destruct Hnx as (b & hi' & [= <-] & Hn).
    assert (n = id') as ->.
    { assert (∃ hi2, G !! id' = Some (RTree 0 m hi2)) as [hi2 Hid2] by (destruct l; simpl in Hseq; naive_solver).
      eapply (label_unique G n id' 0 m hi' m hi2 m); eauto; apply in_bounds_lo; by eapply lab_nonempty. }
    pose proof (lab_nonempty _ HG _ _ _ _ Hid) as Hlm. simpl in Hlm.
    wp_use (IH fuel ({[id]} ∪ seen) (match last (Tree.keys es) with Some k => Some k | None => previous end)
      m id' (chain0 ++ [id]) f1 Hf1 Hseq); [lia| | | | |done].
    + intros i Hi. apply Hreach. by right.
    + intros v [->%elem_of_singleton|(a & b & Hv' & Hb)%Hseen]%elem_of_union.
      * exists lo, m. split; [done|apply lt_irrefl].
      * exists a, b. split; [done|]. intros ?. apply Hb. by trans m.
    + intros p Hp. destruct (last (Tree.keys es)) as [k|] eqn:El.
      * injection Hp as <-. apply last_Some_elem_of in El. by apply Hbd in El as [[_ ?] _].
      * trans lo; [by apply Hprev|done].
    + intros r f2 [Hf2 ->]. split; [done|]. by rewrite <-app_assoc.
Qed.

(** ** The free list *)
Lemma free_loop_spec fuel reach next fl' seen f :
  good f → free_chain V next fl' → NoDup fl' → (∀ i, i ∈ fl' → G !! i = Some RFree) → (length fl' < fuel)%nat →
  (∀ i, i ∈ fl' → (i ∉ seen) ∧ (i ∉ reach)) →
  wp (free_loop hw fuel reach next seen) (λ r f', good f' ∧ r = list_to_set fl' ∪ seen) (λ _ _, bad) f.
Proof.
  revert fuel next seen f. induction fl' as [|i fl' IH]; intros [|fuel] next seen f Hf Hc Hn Hlab Hfuel Hfr;
    simpl in Hfuel; try lia; simpl in Hc.
  { subst next. cbn [free_loop]. apply wp_ret. split; [done|set_solver]. }
  destruct Hc as (-> & lsn & next' & Hv & Hc). apply NoDup_cons in Hn as [Hni Hn]. destruct (Hfr i ltac:(left)) as [Hns Hnr].
  pose proof (he_range _ _ _ _ _ _ _ _ HE _ _ (Hlab i ltac:(left))) as Hrange. cbn [free_loop].
  wp_step. apply (wp_lift_ok _ tt).
  { unfold check_page_id. rewrite !(proj2 (Z.ltb_ge _ _)) by lia. done. }
  wp_step. apply wp_fail_when; [by intros ?%bool_decide_eq_true|]. intros _.
  wp_step. apply wp_fail_when; [by intros ?%bool_decide_eq_true|]. intros _.
  wp_step. wp_use Hread; [done..| |done]. intros ? f1 [-> Hf1]. cbv beta iota.
  wp_use (IH fuel next' ({[i]} ∪ seen) f1); [done|done|done| |lia| | |done].
  - intros j Hj. apply Hlab. by right.
  - intros j Hj. destruct (Hfr j ltac:(by right)). assert (j ≠ i) by congruence. set_solver.
  - intros r f2 [Hf2 ->]. split; [done|set_solver].
Qed.

(** ** The whole check *)
Lemma check_spec f :
  good f → 0 ≤ R →
  wp (check hw root free)
    (λ rep f', good f' ∧ free_pages rep = len fl ∧ 0 ≤ report_max_revision rep ≤ R ∧
       ∀ k r ov, db !! k = Some (r, ov) → r ≤ report_max_revision rep)
    (λ _ _, bad) f.
Proof.
  intros Hf HR0. unfold check. pose proof (he_root _ _ _ _ _ _ _ _ HE) as Hroot. pose proof height_bound as Hh.
  pose proof (visit_tree_spec _ _ Hh None [] None root f default_state Hf Hroot ltac:(right; done)) as Hvis.
  wp_step. unfold wp in Hvis |- * at 1. unfold from_default.
  destruct (visit_tree hw (page_fuel hw) root None None (f, default_state)) as [[b|e|k] [f1 s1]]; cbn [fst snd fmap Result_fmap].
  2:{ apply Hvis. split; intros ? []%not_elem_of_empty. }
  2:{ destruct Hvis. split; intros ? []%not_elem_of_empty. }
  destruct Hvis as (Hf1 & [HG (l & Hl & Hseq & Hin) Hrev] & _); [split; intros ? []%not_elem_of_empty|]. cbn [fst snd] in *.
  simpl in Hl. destruct (leaf_seq_labels _ _ _ Hseq) as (_ & Hn & Hlab).
  pose proof (pages_bound l Hn ltac:(intros i (a & b' & Hi & _)%Hlab; eauto)) as Hlen.
  wp_step. wp_use (checked_leaf_spec (page_fuel hw) H root None ∅ f1); [done|done|done|set_solver| |done].
  intros first f2 [Hf2 [b' Hfirst]]. cbv beta.
  destruct l as [|id l]; [done|].
  assert (first = id) as ->.
  { assert (∃ hi2, G !! id = Some (RTree 0 [] hi2)) as [hi2 Hid] by (destruct l; simpl in Hseq; naive_solver).
    pose proof (he_labels _ _ _ _ _ _ _ _ HE) as HL.
    eapply (label_unique G first id 0 [] b' [] hi2 []); eauto; apply in_bounds_lo; by eapply lab_nonempty. }
  wp_step. unfold check_leaf_chain. wp_step.
  wp_use (chain_loop_spec (page_fuel hw) (reachable s1) ∅ None [] id l [] f2 Hf2 Hseq); [|done|set_solver|done| |done].
  { unfold page_fuel. simpl in Hlen. lia. }
  intros r f3 [Hf3 ->]. apply wp_fail_when; [rewrite Hl, bool_decide_true; done|]. intros _.
  wp_step. wp_use (free_loop_spec (page_fuel hw) (reachable s1) free fl ∅ f3 Hf3); [apply HE|apply HE|apply HE| | | |done].
  - pose proof (pages_bound fl (he_free_nodup _ _ _ _ _ _ _ _ HE)) as Hb. unfold page_fuel.
    assert (Z.of_nat (length fl) ≤ hw - 1); [|lia]. apply Hb. intros i Hi%(he_free_roles _ _ _ _ _ _ _ _ HE). eauto.
  - intros i Hi%(he_free_roles _ _ _ _ _ _ _ _ HE). split; [set_solver|]. intros [[]%not_elem_of_empty|Hw]%(gr_pages _ _ _ _ _ HG).
    unfold within in Hw. by rewrite Hi in Hw.
  - intros r f4 [Hf4 ->]. apply wp_ret. split; [done|]. cbn [free_pages report_max_revision]. split_and!.
    + rewrite union_empty_r_L, size_list_to_set by apply HE. done.
    + pose proof (gr_max _ _ _ _ _ HG) as Hm. simpl in Hm. unfold ZERO in Hm. lia.
    + apply (gr_bound _ _ _ _ _ HG). simpl. unfold ZERO. lia.
    + intros k r ov. apply Hrev. split; [by destruct k|done].
Qed.

End check.

End CheckerSpec.
