(* ===== verification/Redo.v ===== *)
(** * The redo pass

    What [recover_data_file] does to the data file, page by page: [page_redo] runs the
    logged images of one page against its contents.  A page that is older than the
    log, that cannot be decoded (a torn write), or that already is one of its logged
    images ends up as its last image, so the pass can be repeated after a crash in the
    middle of it. *)

From S2P Require Import Prelude Wp Key Core Page Superblock Format FormatLaws Overlay Tree TreeTxn.
From S2P Require Import DurableFile Wal WalFrames WalReplay WalRecovery WalAppend WalReset.
From S2P Require Import StoreFile Checker Store StoreSpec StorePublish StoreTxn StoreNew.

Module Redo.
Import Core DurableFile StoreFile StoreSpec StoreNew.

Abbreviation Batch := Wal.CommittedWalBatch.

(** The images of a batch with its commit LSN, and those of one page. *)
Definition batch_images (b : Batch) : list (Lsn * Wal.WalPageImage) :=
  (λ p, (Wal.batch_commit_lsn b, p)) <$> Wal.batch_pages b.
Definition log_images (bs : list Batch) : list (Lsn * Wal.WalPageImage) := b ← bs; batch_images b.

Definition images_of (i : PageId) (l : list (Lsn * Wal.WalPageImage)) : list (Lsn * bytes) :=
  (λ x, (x.1, Wal.image x.2)) <$> filter (λ x, Wal.image_page_id x.2 = i) l.

Section page.
Context `{C : Crc32c}.

(** Whether the pass writes an image with LSN [l] over the page [x]. *)
Definition overwrites (i : PageId) (x : bytes) (l : Lsn) : bool :=
  ((i =? 0) || (i =? 1)) ||
  match Page.decode_page_at x (Some i) with Ok d => Page.page_lsn (Page.header d) <? l | _ => true end.

Fixpoint page_redo (i : PageId) (x : bytes) (images : list (Lsn * bytes)) : bytes :=
  match images with
  | [] => x
  | (l, im) :: images' => page_redo i (if overwrites i x l then im else x) images'
  end.

Lemma page_redo_app i x l l' : page_redo i x (l ++ l') = page_redo i (page_redo i x l) l'.
Proof. revert x. induction l as [|[n im] l IH]; intros x; [done|]. simpl. apply IH. Qed.

(** A superblock slot gets its last image. *)
Lemma slot_redo i x l : i = 0 ∨ i = 1 → page_redo i x l = match last l with Some y => y.2 | None => x end.
Proof.
  intros Hi. assert (∀ x n, overwrites i x n = true) as Ho.
  { intros y n. unfold overwrites. by destruct Hi as [->| ->]. }
  destruct l as [|[n im] l _] using rev_ind; [done|]. rewrite page_redo_app, last_snoc. simpl. by rewrite Ho.
Qed.

(** The images of a page: increasing LSNs, each in its own header. *)
Definition image_of (i : PageId) (y : Lsn * bytes) : Prop :=
  ∃ d, Page.decode_page_at y.2 (Some i) = Ok d ∧ Page.page_lsn (Page.header d) = y.1.
Definition lsn_lt (a b : Lsn * bytes) : Prop := a.1 < b.1.

(** What the pass may find in the file. *)
Definition redoable (i : PageId) (x : bytes) (l : list (Lsn * bytes)) : Prop :=
  ∀ d, Page.decode_page_at x (Some i) = Ok d →
    Forall (λ y, Page.page_lsn (Page.header d) < y.1) l ∨ x ∈ l.*2.

Lemma redo_settles i x l :
  Forall (image_of i) l → StronglySorted lsn_lt l → redoable i x l → ¬ (i = 0 ∨ i = 1) →
  page_redo i x l = match last l with Some y => y.2 | None => x end.
Proof.
  intros HF HS Hx Hi. revert x Hx. induction HS as [|[n im] l HS IH Hlt]; intros x Hx; [done|].
  apply Forall_cons in HF as [(d & Hd & Hn) HF]. simpl in Hd, Hn. cbn [page_redo]. unfold overwrites.
  assert ((i =? 0) || (i =? 1) = false) as -> by (apply orb_false_iff; split; apply Z.eqb_neq; tauto).
  assert (Him : redoable i im l).
  { intros d' Hd'. rewrite Hd in Hd'. injection Hd' as <-. left. rewrite Hn. exact Hlt. }
  assert (Hlast : ∀ y, match last l with Some z => z.2 | None => im end =
    match last ((n, im) :: l) with Some z => z.2 | None => y end).
  { intros y. destruct l as [|z l]; [done|]. rewrite last_cons_cons. by destruct (last (z :: l)) eqn:E; [|apply last_None in E]. }
  rewrite <-(Hlast x). cbn [orb].
  destruct (Page.decode_page_at x (Some i)) as [dx| |] eqn:Ex; [|by apply IH..].
  destruct (Z.ltb_spec (Page.page_lsn (Page.header dx)) n) as [Hl|Hge]; [by apply IH|].
  destruct (Hx _ Ex) as [Hold|Hin]; [apply Forall_cons in Hold as [? _]; simpl in *; lia|].
  apply elem_of_cons in Hin as [->|Hin]; [by apply IH|].
  rewrite IH; [|done|].
  - destruct l as [|z l]; [by apply not_elem_of_nil in Hin|]. by destruct (last (z :: l)) eqn:E; [|apply last_None in E].
  - intros d' _. by right.
Qed.
End page.

(** ** The pass over the file *)
Section redo.
Context `{C : Crc32c} `{FS : DurableFileSpec F} `{JS : FaultInjectorSpec J}.
Implicit Types (f : F) (j : option J).

Lemma wp_redo_hit point Q X f j :
  (∀ j', (j = None → j' = None) → Q tt (f, j')) → (∀ e j', j ≠ None → X e (f, j')) →
  wp (StoreFile.hit_fault point) Q X (f, j).
Proof. intros HQ HX. apply wp_zoom. by apply wp_hit. Qed.

(** The state of the pass: [v] are the contents it started from. *)
Record redone (v : bytes) (l : list (Lsn * Wal.WalPageImage)) f j (s : F * option J) : Prop := {
  rd_len : len (volatile s.1) = len v;
  rd_pages : ∀ i, 0 ≤ i → page_at (volatile s.1) i = page_redo i (page_at v i) (images_of i l);
  rd_durable : durable s.1 = durable f;
  rd_reliable : reliable f → reliable s.1;
  rd_injector : j = None → s.2 = None;
}.

Definition why f j : Prop := ¬ reliable f ∨ j ≠ None.

Lemma redo_page_spec v l f j f' j' n p :
  redone v l f j (f', j') → len v ≤ U64_MAX → page_in v (Wal.image_page_id p) → len (Wal.image p) = PAGE_SIZE →
  wp (redo_page n (len v) p) (λ r s, redone v (l ++ [(n, p)]) f j s ∧ (r = false → volatile s.1 = volatile f'))
    (λ _ _, why f j) (f', j').
Proof.
  intros [R1 R2 R3 R4 R5] Hu Hin Hp. set (i := Wal.image_page_id p) in *. cbn [fst snd] in *.
  assert (HP : PAGE_SIZE = 4096) by done. pose proof Hin as [Hi0 Hi1].
  assert (Hsplit : ∀ k, images_of k (l ++ [(n, p)]) = images_of k l ++ (if decide (i = k) then [(n, Wal.image p)] else [])).
  { intros k. unfold images_of. rewrite filter_app, fmap_app. f_equal. rewrite filter_cons, filter_nil. cbn [snd]. fold i. by case_decide. }
  assert (Hin' : page_in (volatile f') i) by (unfold page_in; by rewrite R1).
  assert (Hskip : ∀ f2 j2, same_file f' f2 → (j' = None → j2 = None) → overwrites i (page_at (volatile f') i) n = false →
    redone v (l ++ [(n, p)]) f j (f2, j2)).
  { intros f2 j2 (V & D & R) Hj Ho. split; cbn; [by rewrite V| |congruence|auto|auto].
    intros k Hk. rewrite V, Hsplit. rewrite R2 by done. case_decide as E; [|by rewrite app_nil_r].
    rewrite page_redo_app. cbn [page_redo]. rewrite <-E in *. rewrite <-R2, Ho by done. done. }
  assert (Hwrite : ∀ f1 j1, same_file f' f1 → (j' = None → j1 = None) → overwrites i (page_at (volatile f') i) n = true →
    wp (StoreFile.hit_fault "during_recovery_page_write";; on_file (write_all_at (i * PAGE_SIZE) (Wal.image p));; mret true)
      (λ r s, redone v (l ++ [(n, p)]) f j s ∧ (r = false → volatile s.1 = volatile f')) (λ _ _, why f j) (f1, j1)).
  { intros f1 j1 (V & D & R) Hj Ho. wp_step. apply wp_redo_hit; [|intros e j2 Hj2; right; intros ->; tauto].
    intros j2 Hj2. wp_step. apply wp_zoom. cbn [fst].
    wp_use (write_page_spec (F:=F) f1 i (Wal.image p)); [by unfold page_in; rewrite V, R1|done|rewrite V, R1; lia| |].
    2:{ intros e f2 (_ & _ & Hr). left. tauto. }
    intros _ f2 (V2 & D2 & Q2). apply wp_ret. rewrite V in V2. split; [|done].
    split; cbn; [by rewrite V2, len_write_page| |congruence|auto|auto].
    intros k Hk. rewrite V2, Hsplit. case_decide as E.
    - subst k. rewrite page_at_write_eq by done. rewrite page_redo_app. cbn [page_redo]. by rewrite <-R2, Ho by done.
    - rewrite page_at_write_ne by done. by rewrite app_nil_r, R2. }
  unfold redo_page. fold i. wp_step. unfold checked_mul. rewrite (proj2 (Z.leb_le _ _)) by (unfold U64_MAX in *; lia).
  apply (wp_lift_ok _ (i * PAGE_SIZE)); [done|].
  destruct ((i =? 0) || (i =? 1)) eqn:Hslot.
  { wp_step. apply wp_ret. cbv iota. apply Hwrite; [done|done|]. unfold overwrites. by rewrite Hslot. }
  wp_step. wp_step. unfold current_page_lsn. unfold checked_add.
  rewrite (proj2 (Z.leb_le _ U64_MAX)) by lia. rewrite (proj2 (Z.leb_le _ (len v))) by lia.
  wp_step. apply wp_zoom. cbn [fst].
  wp_use (read_exact_spec (F:=F) f' (i * PAGE_SIZE) PAGE_SIZE); [lia|lia|unfold U64_MAX in *; lia| |].
  2:{ intros e f2 (_ & Hlen). left. intros Hr. destruct (Hlen (R4 Hr)); rewrite ?R1 in *; lia. }
  intros x f2 (Hs & _ & ->). fold (page_at (volatile f') i).
  pose proof (Page.page_decode_total (page_at (volatile f') i) (Some i)) as Htot.
  assert (Ho : overwrites i (page_at (volatile f') i) n =
    match Page.decode_page_at (page_at (volatile f') i) (Some i) with Ok d => Page.page_lsn (Page.header d) <? n | _ => true end).
  { unfold overwrites. by rewrite Hslot. }
  destruct (Page.decode_page_at (page_at (volatile f') i) (Some i)) as [d|e|k]; [| |by destruct (Htot k)]; apply wp_ret; cbv beta; apply wp_ret; cbv beta iota.
  - destruct (_ <? _) eqn:Hl; [by apply Hwrite|]. apply wp_ret. split; [by apply Hskip|]. intros _. apply Hs.
  - by apply Hwrite.
Qed.

Lemma redo_pages_spec v n ps l f j s changed :
  redone v l f j s → len v ≤ U64_MAX →
  Forall (λ p, page_in v (Wal.image_page_id p) ∧ len (Wal.image p) = PAGE_SIZE) ps → (changed = false → volatile s.1 = v) →
  wp (redo_pages n (len v) ps changed)
    (λ r s', redone v (l ++ ((λ p, (n, p)) <$> ps)) f j s' ∧ (r = false → changed = false ∧ volatile s'.1 = v)) (λ _ _, why f j) s.
Proof.
  intros Hs Hu HF. revert l s changed Hs. induction HF as [|p ps [Hin Hp] HF IH]; intros l [f' j'] changed Hs Hc; cbn [redo_pages].
  { apply wp_ret. rewrite app_nil_r. auto. }
  wp_step. wp_use (redo_page_spec v l f j f' j' n p); [done..| |done]. intros r s1 [Hs1 Hr]. rewrite fmap_cons, cons_middle, app_assoc.
  wp_use IH; [done| | |done].
  - intros [-> ->]%orb_false_iff. rewrite Hr by done. by apply Hc.
  - intros r2 s2 [Hs2 Hr2]. split; [done|]. intros E. destruct (Hr2 E) as [[-> _]%orb_false_iff ?]. done.
Qed.

Lemma redo_batches_spec v bs l f j s changed :
  redone v l f j s → len v ≤ U64_MAX →
  Forall (λ y, page_in v (Wal.image_page_id y.2) ∧ len (Wal.image y.2) = PAGE_SIZE) (log_images bs) →
  (changed = false → volatile s.1 = v) →
  wp (redo_batches (len v) bs changed)
    (λ r s', redone v (l ++ log_images bs) f j s' ∧ (r = false → changed = false ∧ volatile s'.1 = v)) (λ _ _, why f j) s.
Proof.
  intros Hs Hu. revert l s changed Hs. induction bs as [|b bs IH]; intros l s changed Hs HF Hc; cbn [redo_batches].
  { apply wp_ret. rewrite app_nil_r. auto. }
  change (log_images (b :: bs)) with (batch_images b ++ log_images bs) in *. apply Forall_app in HF as [HF1 HF2].
  unfold batch_images in HF1. rewrite Forall_fmap in HF1.
  wp_step. wp_use (redo_pages_spec v (Wal.batch_commit_lsn b) (Wal.batch_pages b) l f j s changed); [done..| |done].
  intros r s1 [Hs1 Hr]. rewrite app_assoc. wp_use IH; [done|done|naive_solver| |done].
  intros r2 s2 [Hs2 Hr2]. split; [done|]. naive_solver.
Qed.

(** The length of the file that the batches need. *)
Definition redo_length (bs : list Batch) : Z := (highest_data_page bs + 1) * PAGE_SIZE.
Definition extended (v : bytes) (bs : list Batch) : bytes :=
  if len v <? redo_length bs then resize v (redo_length bs) else v.

Lemma highest_bound bs :
  FIRST_DATA_PAGE ≤ highest_data_page bs ∧ ∀ y, y ∈ log_images bs → Wal.image_page_id y.2 ≤ highest_data_page bs.
Proof.
  unfold highest_data_page. set (ps := b ← bs; Wal.batch_pages b).
  assert (Hin : ∀ y, y ∈ log_images bs → y.2 ∈ ps).
  { intros [n p] Hy. unfold log_images, ps in *. apply list_elem_of_bind in Hy as (b & Hy & Hb).
    apply list_elem_of_bind. exists b. split; [|done]. unfold batch_images in Hy.
    apply list_elem_of_fmap in Hy as (p' & [= -> ->] & Hp). done. }
  assert (∀ l h, FIRST_DATA_PAGE ≤ h → let r := foldl (λ highest p, if FIRST_DATA_PAGE <=? Wal.image_page_id p
      then Z.max highest (Wal.image_page_id p) else highest) h l in
    h ≤ r ∧ ∀ p, p ∈ l → Wal.image_page_id p ≤ r) as Hf.
  { induction l as [|p l IH]; intros h Hh; cbn [foldl]; [split; [done|by intros ? ?%not_elem_of_nil]|].
    destruct (Z.leb_spec FIRST_DATA_PAGE (Wal.image_page_id p)) as [Hp|Hp].
    - destruct (IH (Z.max h (Wal.image_page_id p))) as [I1 I2]; [lia|]. split; [lia|].
      intros q [->|Hq]%elem_of_cons; [lia|auto].
    - destruct (IH h Hh) as [I1 I2]. split; [done|]. intros q [->|Hq]%elem_of_cons; [lia|auto]. }
  destruct (Hf ps FIRST_DATA_PAGE ltac:(done)) as [F1 F2]. split; [done|]. intros y Hy. by apply F2, Hin.
Qed.

Lemma len_resize b n : 0 ≤ n → len (resize b n) = n.
Proof. intros Hn. unfold resize, zeros. rewrite len_app. unfold len. rewrite length_take, length_replicate. lia. Qed.

Lemma len_extended v bs : len (extended v bs) = Z.max (len v) (redo_length bs).
Proof.
  unfold extended. destruct (Z.ltb_spec (len v) (redo_length bs)); [|lia]. pose proof (len_nonneg v). rewrite len_resize; lia.
Qed.

(** The whole pass over the batches [bs] after the checkpoint. *)
Lemma recover_data_file_spec committed ck f j :
  let bs := filter (λ b, ck < Wal.batch_commit_lsn b) committed in
  len (volatile f) mod PAGE_SIZE = 0 → len (volatile f) ≤ U64_MAX → redo_length bs ≤ U64_MAX → durable f = volatile f →
  Forall (λ y, 0 ≤ Wal.image_page_id y.2 ∧ len (Wal.image y.2) = PAGE_SIZE) (log_images bs) →
  wp (recover_data_file committed ck)
    (λ _ s, len (volatile s.1) = len (match bs with [] => volatile f | _ => extended (volatile f) bs end) ∧
       (∀ i, 0 ≤ i → page_at (volatile s.1) i =
          page_redo i (page_at (match bs with [] => volatile f | _ => extended (volatile f) bs end) i) (images_of i (log_images bs))) ∧
       durable s.1 = volatile s.1 ∧ (reliable f → reliable s.1) ∧ (j = None → s.2 = None))
    (λ _ _, why f j) (f, j).
Proof.
  intros bs Ha Hu Hr Hd HF. unfold recover_data_file. fold bs. destruct bs as [|b0 bs0] eqn:Ebs; [by apply wp_ret|].
  rewrite <-Ebs in *. clear Ebs b0 bs0. destruct (highest_bound bs) as [Hh Hhi]. unfold redo_length, FIRST_DATA_PAGE in *.
  assert (HP : PAGE_SIZE = 4096) by done. pose proof (len_nonneg (volatile f)) as Hv0.
  wp_step. apply (wp_lift_ok _ (highest_data_page bs + 1)); [by rewrite checked_add_ok by (rewrite HP in *; unfold U64_MAX in *; lia)|].
  wp_step. apply (wp_lift_ok _ ((highest_data_page bs + 1) * PAGE_SIZE)).
  { unfold checked_mul. by rewrite (proj2 (Z.leb_le _ _)) by lia. }
  wp_step. wp_step. wp_step. pose proof (file_len_spec f) as Hfl. cbn [fst].
  destruct (file_len f) as [n|e|k]; [|by apply wp_lift; left|done]. apply wp_lift. subst n.
  set (tgt := (highest_data_page bs + 1) * PAGE_SIZE) in *.
  wp_step.
  assert (Hlong : 0 < tgt) by (unfold tgt; rewrite HP; lia).
  apply (wp_mono _ (λ _ s, volatile s.1 = extended (volatile f) bs ∧ durable s.1 = durable f ∧ (reliable f → reliable s.1) ∧ s.2 = j)
    _ (λ _ _, why f j)).
  { unfold extended, redo_length. fold tgt. destruct (Z.ltb_spec (len (volatile f)) tgt) as [Hlt|Hge].
    - rewrite orb_true_r. apply wp_zoom. cbn [fst]. wp_use (set_len_spec f tgt); [lia| |].
      + by intros _ f1 (V & D & R).
      + intros e f1 (_ & _ & ?). by left.
    - rewrite orb_false_r. destruct (Z.eqb_spec (len (volatile f)) 0); [lia|]. apply wp_fail_when; [by rewrite Ha|]. done. }
  2: done.
  cbv beta. intros _ [f1 j1] (V1 & D1 & R1 & Ej). cbn [fst snd] in *. subst j1.
  pose proof (len_extended (volatile f) bs) as Hle. unfold redo_length in Hle. fold tgt in Hle.
  wp_step. wp_step. wp_step. pose proof (file_len_spec f1) as Hfl. cbn [fst].
  destruct (file_len f1) as [n|e|k]; [|apply wp_lift; left; tauto|done]. apply wp_lift. subst n. wp_step. rewrite V1.
  wp_use (redo_batches_spec (extended (volatile f) bs) bs [] f1 j (f1, j)); [..| |].
  - split; cbn; [by rewrite V1| |done|done|done]. intros i Hi. by rewrite V1.
  - rewrite Hle. lia.
  - apply Forall_forall. intros y Hy. pose proof (proj1 (Forall_forall _ _) HF y Hy) as [Hy0 Hyl]. split; [|done].
    split; [done|]. rewrite Hle. specialize (Hhi y Hy). rewrite HP. unfold tgt. rewrite HP. lia.
  - done.
  - rewrite app_nil_l. intros changed s [[S1 S2 S3 S4 S5] Hch]. destruct s as [f2 j2]. cbn [fst snd] in *.
    destruct changed.
    + wp_step. apply wp_redo_hit; [|intros e j3 Hj; right; intros ->; tauto]. intros j3 Hj3.
      wp_step. apply wp_redo_hit; [|intros e j4 Hj; right; intros ->; tauto]. intros j4 Hj4.
      wp_step. apply wp_zoom, wp_map_err. cbn [fst]. wp_use (sync_data_spec f2).
      2:{ intros e f3 (_ & _ & ?). left. tauto. }
      intros _ f3 (V3 & D3 & R3). apply wp_redo_hit; [|intros e j5 Hj; right; intros ->; tauto]. intros j5 Hj5. cbn [fst snd].
      rewrite V3. split_and!; [done|done|congruence|tauto|tauto].
    + apply wp_ret. cbn [fst snd]. split_and!; [done|done| |tauto|tauto]. rewrite S3, D1, Hd. destruct (Hch eq_refl) as [Hge ->]. unfold extended, redo_length. fold tgt. by rewrite Hge.
  - intros e s [?|?]; [left; tauto|by right].
Qed.
End redo.
End Redo.
