(* ===== verification/Recovery.v ===== *)
(** * Recovering a store

    What the data file and the committed batches of the log have to satisfy so that
    the store can be rebuilt from them: [recoverable] relates the contents of the file
    and the batches to the overlay whose state they stand for.  A new store satisfies
    it, every published batch keeps it while the data file is not touched, and opening
    the two files restores that state. *)

From S2P Require Import Prelude Wp Key Core Page Superblock Format FormatLaws Reference Cache Overlay Tree TreeSearch.
From S2P Require Import OverlayReads TreeOps TreeTxn DurableFile Wal WalFrames WalReplay WalRecovery WalAppend WalReset.
From S2P Require Import StoreFile Checker Store StoreSpec StorePublish StoreTxn StoreNew CheckerSpec Redo.

Module Recovery.
Import Core FormatLaws DurableFile StoreFile Store StoreSpec OverlayReads Tree TreeOps TreeTxn.
Import WalFrames WalReplay WalRecovery WalAppend StorePublish StoreTxn StoreNew Redo.

(** The page of a file that holds nothing else. *)
Definition file_page `{C : Crc32c} (v : bytes) (i : PageId) : option PageData :=
  if (0 <=? i) && (i * PAGE_SIZE + PAGE_SIZE <=? len v) then ok_of (decode_page_bytes i (page_at v i)) else None.

(** The contents of a page after the redo pass. *)
Definition final (v : bytes) (bs : list Batch) (i : PageId) : bytes :=
  match last (images_of i (log_images bs)) with Some y => y.2 | None => page_at v i end.

(** The batches that the checkpoint at [base] does not cover. *)
Definition live (base : Lsn) (bs : list Batch) : list Batch := filter (λ x, base < Wal.batch_commit_lsn x) bs.

Definition is_slot (i : PageId) : Prop := i = 0 ∨ i = 1.

Definition shard_of (sb : Superblock) (i : Wal.WalIdentity) : Prop :=
  Superblock.database_uuid sb = Wal.database_uuid i ∧ Superblock.tenant_id sb = Wal.tenant_id i ∧
  Superblock.shard_id sb = Wal.shard_id i ∧ Superblock.shard_epoch sb = Wal.shard_epoch i.

Section recoverable.
Context {B : Type} {CB : Overlay.CommittedStore B} {SP : CommittedStoreSpec B}.
Context `{C : Crc32c} {CS : Crc32cSpec C}.
Implicit Type o : Overlay.Overlay B.

(** The checkpoint that the log continues. *)
Definition base_lsn o : Lsn := Superblock.checkpoint_lsn (Overlay.current_superblock o).

(** A copy of the superblock in the slot [s], not newer than the current one, and
    older when it is in the other slot.  Equal generations are selected in slot A. *)
Definition slot_copy o (s : Superblock.SuperblockSlot) (x : bytes) : Prop :=
  ∃ sb, Superblock.decode_superblock x = Ok sb ∧
    Superblock.generation sb ≤ Superblock.generation (Overlay.current_superblock o) ∧
    (s ≠ Overlay.active_slot o → Overlay.active_slot o = Superblock.A ∨
       Superblock.generation sb < Superblock.generation (Overlay.current_superblock o)).

Record recoverable (id : Wal.WalIdentity) (v : bytes) (bs : list Batch) o : Prop := {
  rc_length : ∃ hw, Overlay.FIRST_DATA_PAGE ≤ hw ≤ Overlay.high_water_page_id o ∧ len v = (hw + 1) * PAGE_SIZE ∧
    (hw = Overlay.high_water_page_id o ∨
     ∃ y, y ∈ log_images bs ∧ Wal.image_page_id y.2 = Overlay.high_water_page_id o);
  rc_images : ∀ y, y ∈ log_images bs → 0 ≤ Wal.image_page_id y.2 ≤ Overlay.high_water_page_id o ∧
    len (Wal.image y.2) = PAGE_SIZE ∧
    (¬ is_slot (Wal.image_page_id y.2) → image_of (Wal.image_page_id y.2) (y.1, Wal.image y.2));
  rc_lsns : Forall (λ b, base_lsn o < Wal.batch_commit_lsn b < Overlay.next_revision o) bs;
  rc_base : base_lsn o < Overlay.next_revision o;
  rc_sorted : ∀ i, ¬ is_slot i → StronglySorted lsn_lt (images_of i (log_images bs));
  rc_redo : ∀ i d, Overlay.FIRST_DATA_PAGE ≤ i → Page.decode_page_at (page_at v i) (Some i) = Ok d →
    Page.page_lsn (Page.header d) < Overlay.next_revision o ∧
    Forall (λ y, Page.page_lsn (Page.header d) < y.1) (images_of i (log_images bs)) ∨
    page_at v i ∈ (images_of i (log_images bs)).*2;
  rc_view : ∀ i, view o i = match last (images_of i (log_images bs)) with
    | Some y => ok_of (decode_page_bytes i y.2)
    | None => file_page v i
    end;
  rc_slots : ∀ i, is_slot i → ok_of (decode_page_bytes i (final v bs i)) = None;
  rc_selected : ∃ sb, Superblock.choose_superblock (final v bs 0) (final v bs 1) =
      Ok (Superblock.mkSelected (Overlay.active_slot o) sb) ∧
    Superblock.with_checksum sb 0 = Superblock.with_checksum (Overlay.current_superblock o) 0;
  rc_hint : ∃ sel, Superblock.choose_superblock (page_at v 0) (page_at v 1) = Ok sel ∧
    shard_of (Superblock.superblock sel) id ∧
    Superblock.checkpoint_lsn (Superblock.superblock sel) = base_lsn o;
  rc_copies : ∀ s, slot_copy o s (page_at v (slot_page s)) ∧ slot_copy o s (final v bs (slot_page s));
  rc_shard : shard_of (Overlay.current_superblock o) id;
  rc_meta : Superblock.root_page_id (Overlay.current_superblock o) = Some (Overlay.root_page_id o) ∧
    Superblock.high_water_page_id (Overlay.current_superblock o) = Some (Overlay.high_water_page_id o) ∧
    Superblock.free_list_head (Overlay.current_superblock o) = Overlay.free_list_head o;
}.

(** ** One more commit *)

Lemma slot_page_slot s : is_slot (slot_page s).
Proof. destruct s; [by left|by right]. Qed.

Lemma log_images_app bs bs' : log_images (bs ++ bs') = log_images bs ++ log_images bs'.
Proof. unfold log_images. apply bind_app. Qed.

Lemma images_of_app i l l' : images_of i (l ++ l') = images_of i l ++ images_of i l'.
Proof. unfold images_of. by rewrite filter_app, fmap_app. Qed.

Lemma filter_keys {A} (i : Z) (l : list (Z * A)) :
  NoDup l.*1 → filter (λ x, x.1 = i) l = match list_find (λ x, x.1 = i) l with Some (_, x) => [x] | None => [] end.
Proof.
  induction l as [|[k x] l IH]; [done|]. rewrite fmap_cons, NoDup_cons. intros [Hk Hn]. simpl. rewrite filter_cons. simpl.
  destruct (decide (k = i)) as [->|Hne].
  - f_equal. destruct (filter _ l) as [|y l'] eqn:E; [done|]. exfalso. apply Hk.
    assert (y ∈ filter (λ x, x.1 = i) l) as [Hy Hin]%list_elem_of_filter by (rewrite E; left).
    apply list_elem_of_fmap. by exists y.
  - rewrite IH by done. by destruct (list_find _ l) as [[]|].
Qed.

Lemma map_iter_filter {A} (m : gmap Z A) i :
  filter (λ x, x.1 = i) (map_iter m) = match m !! i with Some x => [(i, x)] | None => [] end.
Proof.
  rewrite filter_keys by apply NoDup_map_iter. destruct (list_find _ _) as [[k [j x]]|] eqn:E.
  - apply list_find_Some in E as (Hk & Hj & _). simpl in Hj. subst j.
    apply list_elem_of_lookup_2, elem_of_map_iter in Hk. by rewrite Hk.
  - destruct (m !! i) as [x|] eqn:Ex; [|done]. exfalso. apply elem_of_map_iter in Ex.
    apply list_find_None in E. rewrite Forall_forall in E. by apply (E _ Ex).
Qed.

(** The images that the commit record of a batch holds of a page. *)
Lemma commit_images p img wc c i :
  wal_commit p img = Ok wc → Overlay.prepared_commit_lsn p = Some c →
  (∀ k, is_Some (Overlay.changed_pages p !! k) → Overlay.FIRST_DATA_PAGE ≤ k) →
  Wal.batch_commit_lsn (Wal.committed_of wc) = c ∧
  images_of i (batch_images (Wal.committed_of wc)) =
    match Overlay.changed_pages p !! i with
    | Some x => [(c, x)]
    | None => if decide (i = slot_page (Overlay.new_slot p)) then [(c, img)] else []
    end.
Proof.
  intros Hw Hc Hk. unfold wal_commit in Hw. rewrite Hc in Hw. cbn [ok_or mbind Result_bind] in Hw. injection Hw as <-.
  split; [done|]. unfold images_of, batch_images. cbn [Wal.committed_of Wal.batch_pages Wal.batch_commit_lsn Wal.commit_pages Wal.commit_lsn].
  rewrite fmap_app, filter_app, fmap_app. rewrite <-list_fmap_compose.
  assert (Hl : ∀ l : list (Z * bytes), filter (λ x, Wal.image_page_id x.2 = i)
      (((λ p0, (c, p0)) ∘ (λ '(id, img0), Wal.mkImage id img0)) <$> l) =
    ((λ p0, (c, p0)) ∘ (λ '(id, img0), Wal.mkImage id img0)) <$> filter (λ x, x.1 = i) l).
  { induction l as [|[k x] l IH]; [done|]. rewrite fmap_cons, !filter_cons. simpl. case_decide; rewrite IH; done. }
  rewrite Hl, map_iter_filter. simpl. rewrite filter_cons, filter_nil. cbn [snd Wal.image_page_id].
  destruct (Overlay.changed_pages p !! i) as [x|] eqn:Ex; simpl.
  - rewrite decide_False; [done|]. intros E. specialize (Hk i ltac:(by eexists)). unfold Overlay.FIRST_DATA_PAGE in Hk.
    destruct (slot_page_slot (Overlay.new_slot p)) as [?|?]; lia.
  - destruct (decide (slot_page (Overlay.new_slot p) = i)) as [->|Hne].
    + by rewrite decide_True.
    + by rewrite decide_False by congruence.
Qed.

Lemma elem_images_of l y : y ∈ l → (y.1, Wal.image y.2) ∈ images_of (Wal.image_page_id y.2) l.
Proof. intros Hy. unfold images_of. apply list_elem_of_fmap. exists y. split; [done|]. by apply list_elem_of_filter. Qed.

Lemma images_of_elem i l z : z ∈ images_of i l → ∃ y, y ∈ l ∧ Wal.image_page_id y.2 = i ∧ z = (y.1, Wal.image y.2).
Proof. unfold images_of. intros (y & -> & [Hi Hy]%list_elem_of_filter)%list_elem_of_fmap. eauto. Qed.

Lemma log_images_batch bs y : y ∈ log_images bs → ∃ b, b ∈ bs ∧ y.1 = Wal.batch_commit_lsn b.
Proof.
  unfold log_images. intros (b & Hy & Hb)%list_elem_of_bind. unfold batch_images in Hy.
  apply list_elem_of_fmap in Hy as (p & -> & _). eauto.
Qed.

(** The superblock of a selected slot. *)
Lemma selected_inv a b s sb :
  Superblock.choose_superblock a b = Ok (Superblock.mkSelected s sb) →
  Superblock.decode_superblock (match s with Superblock.A => a | Superblock.B => b end) = Ok sb.
Proof.
  unfold Superblock.choose_superblock.
  destruct (Superblock.decode_superblock a) as [x|ea|] eqn:Ha, (Superblock.decode_superblock b) as [y|eb|] eqn:Hb;
    try done; try (destruct ea; done); try (destruct eb; done);
    try (destruct ea); try (destruct eb); try done; try (destruct (_ <=? _)); by intros [= <- <-].
Qed.

Lemma choose_newer s x y sb sb' :
  Superblock.decode_superblock x = Ok sb → Superblock.decode_superblock y = Ok sb' →
  Superblock.generation sb < Superblock.generation sb' →
  match s with
  | Superblock.A => Superblock.choose_superblock y x
  | Superblock.B => Superblock.choose_superblock x y
  end = Ok (Superblock.mkSelected s sb').
Proof.
  intros Hx Hy Hg. unfold Superblock.choose_superblock. destruct s; rewrite Hx, Hy.
  - by rewrite (proj2 (Z.leb_le _ _)) by lia.
  - by rewrite (proj2 (Z.leb_gt _ _)) by lia.
Qed.

Lemma final_app v bs b i :
  final v (bs ++ [b]) i = match last (images_of i (batch_images b)) with Some y => y.2 | None => final v bs i end.
Proof.
  unfold final. rewrite log_images_app, images_of_app. change (log_images [b]) with (batch_images b ++ []). rewrite app_nil_r.
  rewrite last_app. by destruct (last (images_of i (batch_images b))).
Qed.

Section step.
Context (o o1 : Overlay.Overlay B) (p : Overlay.PreparedBatch) (c : Lsn) (img : bytes) (wc : Wal.WalCommit).
Hypotheses (Cm : committed_by o p o1 c) (Hh : ∃ s, represents 0 o1 s)
  (Himg : Superblock.encode_superblock (Overlay.new_superblock p) = Ok img) (Hwc : wal_commit p img = Ok wc).

Lemma step_page i x :
  Overlay.changed_pages p !! i = Some x → ∃ q, Overlay.changed_decoded p !! i = Some q ∧
    Overlay.FIRST_DATA_PAGE ≤ i ≤ Overlay.high_water_page_id o1 ∧ len x = PAGE_SIZE ∧ decode_page_bytes i x = Ok q ∧
    image_of i (c, x).
Proof.
  intros Hx. pose proof (com_images _ _ _ _ Cm i) as Hi. destruct (Overlay.changed_decoded p !! i) as [q|] eqn:Eq; [|congruence].
  destruct Hi as (x' & Hx' & He & Hwf & Hr & Hl). rewrite Hx in Hx'. injection Hx' as <-. exists q.
  destruct Hh as (s & G & ht & fl & Hi & _). pose proof (inv_high _ _ _ _ _ _ _ Hi) as Hhi. unfold Overlay.FIRST_DATA_PAGE in *.
  destruct (encoded_page q i x Hwf ltac:(ulia) He) as (H1 & H2 & d & Hd & Hdl). split_and!; try done; try lia.
  exists d. split; [done|]. by rewrite Hdl.
Qed.

Lemma step_images i :
  Wal.batch_commit_lsn (Wal.committed_of wc) = c ∧
  images_of i (batch_images (Wal.committed_of wc)) =
    match Overlay.changed_pages p !! i with
    | Some x => [(c, x)]
    | None => if decide (i = slot_page (Overlay.active_slot o1)) then [(c, img)] else []
    end.
Proof.
  destruct (com_superblock _ _ _ _ Cm) as (_ & <- & _). apply commit_images; [done|apply (com_lsn _ _ _ _ Cm)|].
  intros k [x Hx]. destruct (step_page k x Hx) as (q & _ & ? & _). lia.
Qed.

Lemma step_superblock :
  len img = PAGE_SIZE ∧ Superblock.decode_superblock img = Ok (Overlay.current_superblock o1) ∧
  (∀ i, ok_of (decode_page_bytes i img) = None).
Proof.
  destruct (com_superblock _ _ _ _ Cm) as (Esb & _ & _ & _ & Hng).
  destruct Hng as (_ & _ & _ & _ & _ & _ & _ & Hseal). rewrite Esb in Himg. pose proof (Hseal _ Himg) as Hd.
  split_and!; [|done|intros i; by eapply superblock_not_page].
  apply Superblock.encode_superblock_Ok in Himg as [-> _]. apply Superblock.len_sealed_superblock.
Qed.

Lemma step_images_app bs i :
  images_of i (log_images (bs ++ [Wal.committed_of wc])) =
  images_of i (log_images bs) ++ images_of i (batch_images (Wal.committed_of wc)).
Proof. rewrite log_images_app, images_of_app. change (log_images [?x]) with (batch_images x ++ []). by rewrite app_nil_r. Qed.

(** Every image of the new batch is a page of the overlay or the superblock. *)
Lemma step_elem y :
  y ∈ batch_images (Wal.committed_of wc) →
  y.1 = c ∧ (Overlay.changed_pages p !! Wal.image_page_id y.2 = Some (Wal.image y.2) ∨
             Wal.image_page_id y.2 = slot_page (Overlay.active_slot o1) ∧ Wal.image y.2 = img).
Proof.
  intros Hy%elem_images_of. rewrite (proj2 (step_images _)) in Hy.
  destruct (Overlay.changed_pages p !! _) as [x|] eqn:Ex; [|case_decide; [|by apply not_elem_of_nil in Hy]];
    apply list_elem_of_singleton in Hy; injection Hy as -> ->; auto.
Qed.

Lemma step_slot_final v bs i :
  is_slot i → final v (bs ++ [Wal.committed_of wc]) i = if decide (i = slot_page (Overlay.active_slot o1)) then img else final v bs i.
Proof.
  intros Hi. rewrite final_app, (proj2 (step_images i)). destruct (Overlay.changed_pages p !! i) as [x|] eqn:Ex.
  - destruct (step_page i x Ex) as (q & _ & Hr & _). unfold Overlay.FIRST_DATA_PAGE in Hr. destruct Hi; lia.
  - by case_decide.
Qed.

Lemma recoverable_step id v bs : recoverable id v bs o → recoverable id v (bs ++ [Wal.committed_of wc]) o1.
Proof.
  intros [R1 R2 R3 R3b R4 R5 R6 R7 (sb & R8 & E8) (sel & R9 & S9 & K9) Rc R10 R11].
  destruct (com_superblock _ _ _ _ Cm) as (_ & _ & Eact & _ & (Hwf & Hgen & M1 & M2 & M3 & Hck & (I1 & I2 & I3 & I4) & _)).
  destruct (com_lsn _ _ _ _ Cm) as [_ [Hrc Hcl]]. destruct (com_revision _ _ _ _ Cm) as (_ & Hrev & _).
  destruct (com_fresh _ _ _ _ Cm) as [Hhw Hfresh]. destruct step_superblock as (Hil & Hid & Hin).
  assert (Hb : base_lsn o1 = base_lsn o) by apply Hck.
  assert (Hmem : ∀ y, y ∈ log_images (bs ++ [Wal.committed_of wc]) → y ∈ log_images bs ∨ y ∈ batch_images (Wal.committed_of wc)).
  { intros y. rewrite log_images_app, elem_of_app. change (log_images [?x]) with (batch_images x ++ []). by rewrite app_nil_r. }
  assert (Hold : ∀ i z, z ∈ images_of i (log_images bs) → z.1 < c).
  { intros i z (y & Hy & _ & ->)%images_of_elem. apply log_images_batch in Hy as (b & Hb' & ->).
    pose proof (proj1 (Forall_forall _ _) R3 b Hb'). simpl in *. lia. }
  split.
  - destruct R1 as (hw & Hhw0 & Hlen & Hlast). exists hw. split; [lia|]. split; [done|].
    destruct (decide (Overlay.high_water_page_id o1 = Overlay.high_water_page_id o)) as [->|Hne].
    + destruct Hlast as [?|(y & Hy & ?)]; [by left|]. right. exists y. rewrite log_images_app, elem_of_app. auto.
    + right. destruct (Hfresh (Overlay.high_water_page_id o1)) as [x Hx]; [lia|].
      pose proof (proj2 (step_images (Overlay.high_water_page_id o1))) as Hi. rewrite Hx in Hi.
      destruct (images_of_elem (Overlay.high_water_page_id o1) (batch_images (Wal.committed_of wc)) (c, x)) as (y & Hy & Hyi & _);
        [rewrite Hi; left|]. exists y. split; [|done]. rewrite log_images_app, elem_of_app. right.
      change (log_images [?x]) with (batch_images x ++ []). by rewrite app_nil_r.
  - intros y [Hy|Hy]%Hmem.
    + destruct (R2 y Hy) as (? & ? & ?). split_and!; try done; lia.
    + destruct (step_elem y Hy) as [Hy1 [Hx|[Hi Hx]]].
      * destruct (step_page _ _ Hx) as (q & _ & Hr & Hl & _ & Hio). unfold Overlay.FIRST_DATA_PAGE in Hr.
        split_and!; [lia|lia|done|]. intros _. by rewrite Hy1.
      * rewrite Hi, Hx. destruct R1 as (hw & Hhw0 & _). unfold Overlay.FIRST_DATA_PAGE in Hhw0.
        pose proof (slot_page_slot (Overlay.active_slot o1)) as Hs. split_and!; [destruct Hs; lia|destruct Hs; lia|done|by intros []].
  - apply Forall_app. rewrite Hb, Hrev. split.
    + eapply Forall_impl; [exact R3|]. simpl. intros b ?. lia.
    + apply Forall_singleton. rewrite (proj1 (step_images 0)). lia.
  - rewrite Hb, Hrev. lia.
  - intros i Hi. rewrite step_images_app. apply StronglySorted_app_2; [|by apply R4|].
    + intros z z' Hz Hz'. apply Hold in Hz. apply images_of_elem in Hz' as (y & Hy & _ & ->).
      apply step_elem in Hy as [Hy _]. unfold lsn_lt. simpl. lia.
    + rewrite (proj2 (step_images i)). destruct (Overlay.changed_pages p !! i); [by repeat constructor|]. case_decide; by repeat constructor.
  - intros i d Hi Hd. rewrite step_images_app, fmap_app, elem_of_app.
    destruct (R5 i d Hi Hd) as [[Hl HF]|?]; [left|by right; left]. split; [lia|]. apply Forall_app. split; [done|].
    apply Forall_forall. intros z (y & Hy & _ & ->)%images_of_elem. apply step_elem in Hy as [Hy _]. simpl. lia.
  - intros i. rewrite step_images_app, last_app, (com_view _ _ _ _ Cm), (proj2 (step_images i)).
    destruct (Overlay.changed_pages p !! i) as [x|] eqn:Ex.
    + destruct (step_page i x Ex) as (q & -> & _ & _ & Hq & _). simpl. by rewrite Hq.
    + pose proof (com_images _ _ _ _ Cm i) as Hci. destruct (Overlay.changed_decoded p !! i) as [q|]; [destruct Hci as (? & ? & _); congruence|].
      case_decide as Hs; simpl; [|apply R6]. rewrite Hin, R6. pose proof (R7 i) as Hn. unfold final in Hn.
      destruct (last (images_of i (log_images bs))); [apply Hn; rewrite Hs; apply slot_page_slot|].
      unfold file_page. case_match; [|done]. apply Hn. rewrite Hs. apply slot_page_slot.
  - intros i Hi. rewrite step_slot_final by done. case_decide; [apply Hin|by apply R7].
  - exists (Overlay.current_superblock o1). split; [|done]. rewrite (step_slot_final v bs 0), (step_slot_final v bs 1) by (unfold is_slot; auto).
    apply selected_inv in R8. assert (Hg : Superblock.generation sb < Superblock.generation (Overlay.current_superblock o1)).
    { rewrite Hgen. assert (Superblock.generation sb = Superblock.generation (Overlay.current_superblock o)); [|lia].
      apply (f_equal Superblock.generation) in E8. exact E8. }
    pose proof (choose_newer (Overlay.active_slot o1) _ _ _ _ R8 Hid Hg) as Hc. rewrite Eact in Hc |- *.
    destruct (Overlay.active_slot o); repeat case_decide; try done; exact Hc.
  - exists sel. rewrite Hb. done.
  - assert (Hnewer : ∀ s x, slot_copy o s x → slot_copy o1 s x).
    { intros s x (sb' & Hd & Hle & _). exists sb'. rewrite Hgen. split_and!; [done|lia|]. intros _. right. lia. }
    intros s. destruct (Rc s) as [Rc1 Rc2]. split; [by apply Hnewer|].
    rewrite step_slot_final by apply slot_page_slot. case_decide as Hs; [|by apply Hnewer].
    exists (Overlay.current_superblock o1). split_and!; [done|done|]. intros []. by destruct s, (Overlay.active_slot o1).
  - destruct R10 as (X1 & X2 & X3 & X4). unfold shard_of. by rewrite I1, I2, I3, I4.
  - done.
Qed.
End step.

Lemma recoverable_sim id v bs o o' : sim o o' → recoverable id v bs o → recoverable id v bs o'.
Proof.
  intros S [R1 R2 R3 R3b R4 R5 R6 R7 R8 R9 Rc R10 R11]. unfold base_lsn, slot_copy in *.
  split; unfold base_lsn, slot_copy; rewrite ?(sim_superblock _ _ S), ?(sim_high _ _ S), ?(sim_revision _ _ S), ?(sim_slot _ _ S),
    ?(sim_root _ _ S), ?(sim_free _ _ S); try done.
  intros i. by rewrite (sim_view _ _ S).
Qed.

(** ** The file after the redo pass *)

Lemma decode_long x i d : Page.decode_page_at x i = Ok d → len x = PAGE_SIZE ∧ x ≠ zeros PAGE_SIZE.
Proof.
  destruct (Page.decode_page_at_inv x i) as [[e ->]|(t & _ & Hl & Hm & _)]; [done|]. intros _. split; [done|].
  intros ->. by vm_compute in Hm.
Qed.

Lemma page_at_resize v n i :
  len v mod PAGE_SIZE = 0 → len v ≤ n → 0 ≤ i → i * PAGE_SIZE + PAGE_SIZE ≤ n →
  page_at (resize v n) i = if decide (i * PAGE_SIZE + PAGE_SIZE ≤ len v) then page_at v i else zeros PAGE_SIZE.
Proof.
  intros Ha Hn Hi Hin. assert (HP : PAGE_SIZE = 4096) by done. unfold page_at, resize.
  pose proof (len_nonneg v). rewrite take_ge by (unfold len in *; lia). case_decide as Hd.
  - by rewrite slice_app_l by (rewrite HP in *; lia).
  - assert (len v ≤ i * PAGE_SIZE).
    { rewrite HP in *. pose proof (Z.div_mod (len v) 4096 ltac:(lia)). nia. }
    rewrite slice_app_r by lia. rewrite slice_zeros by lia. f_equal. lia.
Qed.

Lemma page_at_extended v bs i :
  len v mod PAGE_SIZE = 0 → 0 ≤ i → i * PAGE_SIZE + PAGE_SIZE ≤ len (extended v bs) →
  page_at (extended v bs) i = if decide (i * PAGE_SIZE + PAGE_SIZE ≤ len v) then page_at v i else zeros PAGE_SIZE.
Proof.
  intros Ha Hi. unfold extended. destruct (Z.ltb_spec (len v) (redo_length bs)) as [Hlt|Hge]; intros Hin.
  - pose proof (len_nonneg v). rewrite len_resize in Hin by lia. by apply page_at_resize; [|lia|..].
  - by rewrite decide_True.
Qed.

(** The file that the pass works on. *)
Definition redo_base (v : bytes) (bs : list Batch) : bytes := match bs with [] => v | _ => extended v bs end.

Record redone_file (v : bytes) (bs : list Batch) (v' : bytes) : Prop := {
  rf_length : len v' = len (redo_base v bs);
  rf_pages : ∀ i, 0 ≤ i → page_at v' i = page_redo i (page_at (redo_base v bs) i) (images_of i (log_images bs));
}.

Section redone.
Context (id : Wal.WalIdentity) (v v' : bytes) (bs : list Batch) (o : Overlay.Overlay B).
Hypotheses (HR : recoverable id v bs o) (HF : redone_file v bs v').

Lemma redone_aligned : len v mod PAGE_SIZE = 0 ∧ 3 * PAGE_SIZE ≤ len v.
Proof.
  destruct (rc_length _ _ _ _ HR) as (hw & Hhw & -> & _). unfold Overlay.FIRST_DATA_PAGE in Hhw.
  split; [apply Z_mod_mult|]. unfold Page.PAGE_SIZE. lia.
Qed.

(** No image lies above the high-water mark. *)
Lemma highest_high_water : highest_data_page bs ≤ Overlay.high_water_page_id o.
Proof.
  assert (Hh : Overlay.FIRST_DATA_PAGE ≤ Overlay.high_water_page_id o) by (destruct (rc_length _ _ _ _ HR) as (hw & ? & _); lia).
  unfold highest_data_page. assert (∀ l h, h ≤ Overlay.high_water_page_id o →
      (∀ q, q ∈ l → Wal.image_page_id q ≤ Overlay.high_water_page_id o) →
      foldl (λ highest q, if FIRST_DATA_PAGE <=? Wal.image_page_id q then Z.max highest (Wal.image_page_id q) else highest) h l
        ≤ Overlay.high_water_page_id o) as Hf.
    { induction l as [|q l IH]; intros h Hh0 Hl; [done|]. cbn [foldl]. apply IH; [|intros; apply Hl; by right].
      specialize (Hl q ltac:(left)). destruct (_ <=? _); lia. }
    apply Hf; [done|]. intros q (b & Hq & Hb)%list_elem_of_bind.
    assert ((Wal.batch_commit_lsn b, q) ∈ log_images bs) as Hy.
    { unfold log_images. apply list_elem_of_bind. exists b. split; [|done]. unfold batch_images. by apply list_elem_of_fmap_2. }
    destruct (rc_images _ _ _ _ HR _ Hy) as [[_ ?] _]. done.
Qed.

Lemma redone_length : len v' = (Overlay.high_water_page_id o + 1) * PAGE_SIZE.
Proof.
  pose proof highest_high_water as Hup.
  rewrite (rf_length _ _ _ HF). destruct (rc_length _ _ _ _ HR) as (hw & Hhw & Hlen & Hlast).
  assert (HP : PAGE_SIZE = 4096) by done. unfold redo_base. destruct bs as [|b0 bs0] eqn:Ebs.
  { destruct Hlast as [->|(y & Hy & _)]; [done|]. by apply not_elem_of_nil in Hy. }
  rewrite <-Ebs in *. rewrite len_extended, Hlen. unfold redo_length.
  destruct (highest_bound bs) as [Hh Hhi].
  destruct Hlast as [->|(y & Hy & E)]; [rewrite HP; lia|]. specialize (Hhi y Hy). rewrite HP. lia.
Qed.

Lemma redone_in_range i : page_in v i → i * PAGE_SIZE + PAGE_SIZE ≤ len (redo_base v bs).
Proof. intros [_ Hi]. unfold redo_base. destruct bs; [done|]. rewrite len_extended. lia. Qed.

(** A page of the file, and one past its end. *)
Lemma redo_base_page i :
  0 ≤ i → i * PAGE_SIZE + PAGE_SIZE ≤ len (redo_base v bs) →
  page_at (redo_base v bs) i = if decide (i * PAGE_SIZE + PAGE_SIZE ≤ len v) then page_at v i else zeros PAGE_SIZE.
Proof.
  intros Hi Hin. destruct redone_aligned as [Ha _]. unfold redo_base in *. destruct bs as [|b0 bs0].
  - by rewrite decide_True.
  - by apply page_at_extended.
Qed.

Lemma redone_page i :
  0 ≤ i → i * PAGE_SIZE + PAGE_SIZE ≤ len v' →
  page_at v' i = match last (images_of i (log_images bs)) with
    | Some y => y.2
    | None => if decide (i * PAGE_SIZE + PAGE_SIZE ≤ len v) then page_at v i else zeros PAGE_SIZE
    end.
Proof.
  intros Hi Hin. rewrite (rf_length _ _ _ HF) in Hin. rewrite (rf_pages _ _ _ HF) by done. rewrite redo_base_page by done.
  destruct (decide (i = 0 ∨ i = 1)) as [Hs|Hs]; [by apply slot_redo|].
  apply redo_settles; [|by apply (rc_sorted _ _ _ _ HR)| |done].
  - apply Forall_forall. intros z (y & Hy & <- & ->)%images_of_elem. by apply (rc_images _ _ _ _ HR _ Hy).
  - intros d. case_decide as Hd; [|by intros [_ []]%decode_long]. intros Hdec.
    destruct (rc_redo _ _ _ _ HR i d) as [[_ ?]|?]; [unfold Overlay.FIRST_DATA_PAGE; lia|done|by left|by right].
Qed.

Lemma redone_slot i : is_slot i → page_at v' i = final v bs i ∧ page_in v' i.
Proof.
  intros Hs. destruct redone_aligned as [_ Hl]. pose proof (redone_in_range i) as Hr.
  assert (HP : PAGE_SIZE = 4096) by done. unfold page_in in *. rewrite <-(rf_length _ _ _ HF) in Hr.
  assert (0 ≤ i ∧ i * PAGE_SIZE + PAGE_SIZE ≤ len v) as [H1 H2] by (rewrite HP in *; destruct Hs; lia).
  split; [|auto]. rewrite redone_page by auto. unfold final. by rewrite decide_True.
Qed.

(** The pages of the file are those of the overlay. *)
Lemma redone_view i : file_page v' i = view o i.
Proof.
  rewrite (rc_view _ _ _ _ HR). assert (HP : PAGE_SIZE = 4096) by done. unfold file_page.
  destruct (Z.leb_spec 0 i) as [Hi|Hi]; cbn [andb].
  2:{ destruct (last _) as [z|] eqn:E; [|done]. apply last_Some_elem_of, images_of_elem in E as (y & Hy & <- & _).
      destruct (rc_images _ _ _ _ HR _ Hy) as [[? _] _]. lia. }
  destruct (Z.leb_spec (i * PAGE_SIZE + PAGE_SIZE) (len v')) as [Hin|Hout].
  - rewrite redone_page by done. destruct (last _) as [z|]; [done|]. case_decide as Hd.
    + by rewrite (proj2 (Z.leb_le _ (len v))).
    + rewrite (proj2 (Z.leb_gt _ (len v))) by lia. unfold decode_page_bytes.
      destruct (Page.decode_page_at (zeros PAGE_SIZE) (Some i)) eqn:E; [by apply decode_long in E as [_ []]|done..].
  - destruct (last _) as [z|] eqn:E.
    + apply last_Some_elem_of, images_of_elem in E as (y & Hy & <- & _). destruct (rc_images _ _ _ _ HR _ Hy) as [[_ ?] _].
      rewrite redone_length in Hout. rewrite HP in *. lia.
    + assert (len v ≤ len v') as Hle.
      { rewrite (rf_length _ _ _ HF). unfold redo_base. destruct bs; [done|]. rewrite len_extended. lia. }
      by rewrite (proj2 (Z.leb_gt _ (len v))) by lia.
Qed.
End redone.
End recoverable.

(** ** The check of a store whose file is complete *)
Section check.
Context `{C : Crc32c} {CS : Crc32cSpec C} `{FS : DurableFileSpec F} `{WS : DurableFileSpec W} `{JS : FaultInjectorSpec J}.
Abbreviation Store := (BTreeStore F W J).
Implicit Types (b : Store) (o : Overlay.Overlay Store).

Lemma inv_healthy o G ht fl db :
  inv o ∅ G G ht fl db →
  CheckerSpec.healthy (Overlay.high_water_page_id o) (Overlay.root_page_id o) (Overlay.free_list_head o) (view o) G ht fl db.
Proof.
  intros [I1 I2 I3 I4 I5 I6 I7 I8 I9 I10 I11 I12 I13]. split; try done. intros id r Hid. by apply I7; [|set_solver].
Qed.

Lemma file_read_page hw (f0 f : F) id p :
  same_file f0 f → file_page (volatile f0) id = Some p → Overlay.FIRST_DATA_PAGE ≤ id ≤ hw → len (volatile f0) ≤ U64_MAX →
  wp (Checker.read_page hw id) (λ r f', r = p ∧ same_file f0 f') (λ _ _, ¬ reliable f0) f.
Proof.
  intros (V & D & R) Hp Hid Hu. unfold file_page in Hp. unfold Overlay.FIRST_DATA_PAGE in Hid. assert (HP : PAGE_SIZE = 4096) by done.
  destruct (Z.leb_spec 0 id); [|done]. destruct (Z.leb_spec (id * PAGE_SIZE + PAGE_SIZE) (len (volatile f0))) as [Hin|]; [|done]. cbn [andb] in Hp.
  unfold Checker.read_page, Checker.check_page_id. wp_step. apply (wp_lift_ok _ tt).
  { unfold Overlay.FIRST_DATA_PAGE. by rewrite !(proj2 (Z.ltb_ge _ _)) by lia. }
  wp_step. apply (wp_lift_ok _ (id * PAGE_SIZE)).
  { unfold page_offset, checked_mul. by rewrite (proj2 (Z.leb_le _ _)) by lia. }
  wp_step. wp_use (read_exact_spec (F:=F) f (id * PAGE_SIZE) PAGE_SIZE); [lia|lia|lia| |].
  2:{ intros e f' (_ & Hl). intros Hr. rewrite V in Hl. destruct (Hl (R Hr)); lia. }
  intros x f' (Hs & _ & ->). rewrite V. fold (page_at (volatile f0) id). wp_step. unfold decode_page_bytes in Hp.
  destruct (Page.decode_page_at (page_at (volatile f0) id) (Some id)) as [d| |]; [|done..]. cbn [mbind Result_bind] in Hp.
  apply (wp_lift_ok _ d); [done|]. destruct (Format.decode d) as [q| |]; [|done..]. apply (wp_lift_ok _ q); [done|].
  injection Hp as ->. split; [done|]. etrans; [|exact Hs]. by split_and!.
Qed.

Lemma read_slots_spec (f : F) :
  3 * PAGE_SIZE ≤ len (volatile f) ≤ U64_MAX →
  wp read_slots (λ r f', r = (page_at (volatile f) 0, page_at (volatile f) 1) ∧ same_file f f') (λ _ _, ¬ reliable f) f.
Proof.
  intros Hl. assert (HP : PAGE_SIZE = 4096) by done. unfold read_slots, SUPERBLOCK_A_OFFSET, SUPERBLOCK_B_OFFSET.
  wp_step. wp_use (read_exact_spec (F:=F) f 0 PAGE_SIZE); [lia|lia|lia| |].
  2:{ intros e f' (_ & Hr) Hrel. destruct (Hr Hrel); lia. }
  intros a f1 ((V1 & D1 & R1) & _ & ->). wp_step. wp_use (read_exact_spec (F:=F) f1 PAGE_SIZE PAGE_SIZE); [lia|lia|lia| |].
  2:{ intros e f' (_ & Hr) Hrel. rewrite V1 in Hr. destruct (Hr (R1 Hrel)); lia. }
  intros x f2 (Hs & _ & ->). apply wp_ret. rewrite V1. split; [done|]. etrans; [|exact Hs]. by split_and!.
Qed.

(** The store [b] is clean and stands for the overlay [o]. *)
Record clean b (w : WalLog W) o : Prop := {
  cl_wal : wal b = Some w;
  cl_dirty : dirty_pages b = ∅ ∧ dirty_superblock b = None;
  cl_length : len (volatile (file b)) = (Overlay.high_water_page_id o + 1) * PAGE_SIZE;
  cl_bound : len (volatile (file b)) ≤ U64_MAX;
  cl_view : ∀ i, file_page (volatile (file b)) i = view o i;
  cl_selected : Superblock.choose_superblock (page_at (volatile (file b)) 0) (page_at (volatile (file b)) 1) =
    Ok (Superblock.mkSelected (active_slot b) (current_superblock b));
  cl_page_size : Superblock.page_size (current_superblock b) = PAGE_SIZE;
  cl_root : Superblock.root_page_id (current_superblock b) = Some (root_page_id b) ∧ root_page_id b = Overlay.root_page_id o;
  cl_high : Superblock.high_water_page_id (current_superblock b) = Some (high_water_page_id b) ∧
    high_water_page_id b = Overlay.high_water_page_id o;
  cl_free : Superblock.free_list_head (current_superblock b) = free_list_head b ∧ free_list_head b = Overlay.free_list_head o;
  cl_latest : Superblock.checkpoint_lsn (current_superblock b) ≤ latest_lsn w b;
}.

Lemma metadata_ok sb root free hw o n s length :
  represents n o s → Superblock.page_size sb = PAGE_SIZE → Superblock.root_page_id sb = Some root →
  Superblock.high_water_page_id sb = Some hw → Superblock.free_list_head sb = free →
  root = Overlay.root_page_id o → hw = Overlay.high_water_page_id o → free = Overlay.free_list_head o →
  length = (hw + 1) * PAGE_SIZE →
  metadata_from_superblock sb length = Ok (root, free, hw).
Proof.
  intros (G & ht & fl & Hi & _) Hps Hroot Hhw Hfree -> -> -> ->. assert (HP : PAGE_SIZE = 4096) by done.
  pose proof (inv_high _ _ _ _ _ _ _ Hi) as Hh. pose proof (inv_range _ _ _ _ _ _ _ Hi _ _ (inv_root _ _ _ _ _ _ _ Hi)) as Hr.
  unfold metadata_from_superblock. rewrite Hps, Z.eqb_refl, Hroot, Hhw, Hfree. rsimpl. rewrite checked_add_ok by lia. rsimpl.
  rewrite Z_div_mult by done. rewrite Z.eqb_refl.
  rewrite (proj2 (Z.ltb_ge (Overlay.high_water_page_id o) FIRST_DATA_PAGE)), (proj2 (Z.ltb_ge (Overlay.root_page_id o) FIRST_DATA_PAGE)) by lia.
  rsimpl. rewrite (proj2 (Z.ltb_ge (Overlay.high_water_page_id o) (Overlay.root_page_id o))) by lia. rsimpl.
  assert (match Overlay.free_list_head o with Some free => (free <? FIRST_DATA_PAGE) || (Overlay.high_water_page_id o <? free) | None => false end = false) as ->; [|done].
  destruct (Overlay.free_list_head o) as [i|] eqn:Ef; [|done]. pose proof (inv_free _ _ _ _ _ _ _ Hi) as Hc. rewrite Ef in Hc.
  destruct fl as [|k fl]; [done|]. destruct Hc as ([= <-] & _).
  pose proof (inv_range _ _ _ _ _ _ _ Hi _ _ (inv_free_roles _ _ _ _ _ _ _ Hi i ltac:(left))).
  by rewrite !(proj2 (Z.ltb_ge _ _)) by lia.
Qed.

(** A store without dirty pages passes its own check. *)
Lemma check_clean_spec b w o n s :
  clean b w o → represents n o s →
  wp check_invariants
    (λ rep b', (∃ f', b' = set_file f' b ∧ same_file (file b) f') ∧
       0 ≤ Checker.report_max_revision rep < Overlay.next_revision o ∧
       ∀ k r ov, abs s !! k = Some (r, ov) → r ≤ Checker.report_max_revision rep)
    (λ _ _, ¬ reliable (file b)) b.
Proof.
  intros [K1 [K2 K2'] K3 K3' K4 K5 K5' [K6 K6'] [K7 K7'] [K8 K8'] K9] Hrep. assert (HP : PAGE_SIZE = 4096) by done.
  pose proof (metadata_ok (current_superblock b) (root_page_id b) (free_list_head b) (high_water_page_id b) o n s
    (len (volatile (file b))) Hrep K5' K6 K7 K8 K6' K7' K8' ltac:(by rewrite K3, K7')) as Hmeta.
  destruct Hrep as (G & ht & fl & Hi & _ & [_ _ Hrev _ _ _] & Hrevs). pose proof (inv_high _ _ _ _ _ _ _ Hi) as Hh.
  unfold Overlay.FIRST_DATA_PAGE in Hh. unfold check_invariants. wp_step. wp_step. rewrite K1. wp_step.
  unfold flush_dirty_pages. wp_step. wp_step. rewrite K1, K2, K2'. rewrite !bool_decide_true by done. cbn [andb]. wp_step.
  wp_step. wp_step. wp_step. pose proof (file_len_spec (file b)) as Hfl. destruct (file_len (file b)) as [l|e|k]; [|by apply wp_lift|done].
  apply wp_lift. subst l. wp_step. apply wp_fail_when.
  { unfold misaligned. rewrite K3, Z_mod_mult. unfold FIRST_DATA_PAGE, Overlay.FIRST_DATA_PAGE. rewrite HP.
    rewrite (proj2 (Z.ltb_ge _ _)) by lia. done. }
  intros _. wp_step. apply wp_zoom. wp_use (read_slots_spec (file b)); [rewrite K3 in *; lia| |done].
  intros ? f1 [-> Hs1]. cbv beta iota. wp_step. apply (wp_lift_ok _ _ _ _ _ K5). cbn [Superblock.slot Superblock.superblock].
  wp_step. wp_step. wp_step. apply wp_fail_when; [rewrite !bool_decide_true by done; done|]. intros _.
  wp_step. apply (wp_lift_ok _ _ _ _ _ Hmeta). cbv beta iota. wp_step. apply wp_fail_when.
  { cbn [root_page_id free_list_head high_water_page_id set_file]. rewrite !Z.eqb_refl, bool_decide_true by done. done. }
  intros _. wp_step. apply wp_fail_when.
  { cbn [wal set_file]. rewrite K1. intros Hb%Z.ltb_lt. unfold latest_lsn in *. cbn [current_superblock set_file] in Hb. lia. }
  intros _. apply wp_zoom. cbn [file set_file]. rewrite K6', K7', K8'.
  wp_use (CheckerSpec.check_spec (F:=F) (Overlay.high_water_page_id o) (Overlay.root_page_id o) (Overlay.free_list_head o)
    (view o) G ht fl (abs s) (Overlay.next_revision o - 1) (inv_healthy _ _ _ _ _ Hi)
    ltac:(intros k r ov Hk; apply Hrevs in Hk; lia) (same_file (file b)) (¬ reliable (file b))).
  - intros id p f Hf Hp Hid. eapply file_read_page; [done|by rewrite K4|done|done].
  - done.
  - lia.
  - intros rep f2 (Hs2 & _ & Hmax & Hall). split; [|split; [lia|done]]. exists f2. by split.
  - done.
Qed.
End check.
End Recovery.
