(* ===== verification/Reopen.v ===== *)
(** * Opening an existing store

    [open_with_wal_internal] on a data file and a log that are [recoverable]: the
    redo pass completes the file, the invariant check accepts it, and the store that
    is returned stands for the same database, ready to be recovered again. *)

From S2P Require Import Prelude Wp Key Core Page Superblock Format FormatLaws Reference Cache Overlay Tree TreeSearch.
From S2P Require Import OverlayReads TreeOps TreeTxn DurableFile Wal WalFrames WalReplay WalRecovery WalAppend WalReset.
From S2P Require Import StoreFile Checker Store StoreSpec StorePublish StoreTxn StoreNew CheckerSpec Redo Recovery.

Module Reopen.
Import Core FormatLaws DurableFile StoreFile Store StoreSpec OverlayReads Tree TreeOps TreeTxn.
Import WalFrames WalReplay WalRecovery WalAppend StorePublish StoreTxn StoreNew Redo Recovery.

Section reopen.
Context `{C : Crc32c} {CS : Crc32cSpec C} `{FS : DurableFileSpec F} `{WS : DurableFileSpec W} `{JS : FaultInjectorSpec J}.
Abbreviation Store := (BTreeStore F W J).
Abbreviation TheFiles := (Files (F:=F) (W:=W) (J:=J)).
Implicit Types (b : Store) (o : Overlay.Overlay Store).

Lemma validate_identity_ok sb cfg : shard_of sb (store_identity cfg) → validate_superblock_identity sb (store_identity cfg) = Ok tt.
Proof.
  intros (E1 & E2 & E3 & E4). unfold validate_superblock_identity. rewrite E1, E2, E3, E4, !Z.eqb_refl.
  by rewrite (proj2 (bytes_eqb_spec _ _)).
Qed.

Lemma validate_existing_spec cfg v bs o wl (f : F) :
  recoverable (store_identity cfg) v bs o → volatile f = v → len v ≤ U64_MAX →
  wp (validate_existing_identity_before_wal (store_identity cfg) wl)
    (λ r f', r = Some (base_lsn o) ∧ same_file f f') (λ _ _, ¬ reliable f) f.
Proof.
  intros HR Hv Hu. destruct (redone_aligned _ _ _ _ HR) as [Ha Hl]. assert (HP : PAGE_SIZE = 4096) by done.
  unfold validate_existing_identity_before_wal. wp_step. wp_step. wp_step. pose proof (file_len_spec f) as Hfl.
  destruct (file_len f) as [l|e|k]; [|by apply wp_lift|done]. apply wp_lift. subst l. rewrite Hv.
  destruct (Z.eqb_spec (len v) 0); [lia|]. unfold misaligned. rewrite Ha. unfold FIRST_DATA_PAGE, Overlay.FIRST_DATA_PAGE.
  rewrite (proj2 (Z.ltb_ge _ _)) by lia. cbn [orb negb Z.eqb]. wp_step.
  wp_use (read_slots_spec f); [rewrite Hv; lia| |done]. intros ? f1 [-> Hs]. cbv beta iota. rewrite Hv.
  destruct (rc_hint _ _ _ _ HR) as (sel & -> & Hid & Hck). wp_step.
  apply (wp_lift_ok _ tt); [by apply validate_identity_ok|]. apply wp_ret. by rewrite Hck.
Qed.

(** What opening the log has to give: the segments [ss], from not later than the
    checkpoint [base], with room for [n] more commits. *)
Record opened_log (id : Wal.WalIdentity) (base : Lsn) (ss : list Segment) (n : nat) (wf : W) (j : option J) (w : WalLog W)
    (s : W * option J) : Prop := {
  ol_file : Wal.file w = s.1;
  ol_rep : wal_rep w ss;
  ol_identity : Wal.identity w = id;
  ol_start : Wal.history_start_lsn w ≤ base;
  ol_next : Z.max (Wal.next_lsn w) (base + 1) = Z.max (log_last 0 ss + 1) (base + 1);
  ol_batch : Wal.next_batch_id w = log_batch 0 ss + 1;
  ol_durable : durable (Wal.file w) = volatile (Wal.file w);
  ol_reliable : reliable wf → reliable (Wal.file w);
  ol_room : wal_room n w;
  ol_injector : j = None → s.2 = None;
}.

Definition log_opens (id : Wal.WalIdentity) (base : Lsn) (ss : list Segment) (n : nat) (wf : W) (j : option J) : Prop :=
  wp (Wal.open id base) (opened_log id base ss n wf j) (λ _ _, ¬ reliable wf ∨ j ≠ None) (wf, j).

(** A log with a torn tail. *)
Lemma torn_log_opens ver id start base ss n t (wf : W) (j : option J) :
  holds_log ver id start ss t (volatile wf) → durable wf = volatile wf → start ≤ base →
  len (log_bytes ver id start ss) + Z.of_nat n * 2 ^ 45 ≤ U64_MAX → log_opens id base ss n wf j.
Proof.
  intros Hlog Hd Hst Hroom. unfold log_opens. wp_use (open_spec (F:=W) ver id start base ss t wf j); [done|done| |by intros e s (_ & _ & ?)].
  intros w s (Hf & Hw & Hi & Hv & Hs & Hn & Hb & Hdw & Hr & [J1 J2 J3 J4]). subst.
  split; try done; [by rewrite Hn|]. pose proof (rep_bytes _ _ Hw) as Hbytes. pose proof (len_nonneg (volatile (Wal.file w))).
  rewrite Hbytes in *. split; rewrite ?Hbytes, ?J1; unfold U64_MAX in *; lia.
Qed.

(** A log that was being reset at the checkpoint. *)
Lemma reset_log_opens id base n k (wf : W) (j : option J) :
  identity_ok id → 0 ≤ base < U64_MAX → 0 ≤ k < Wal.INIT_FRAME_SIZE → volatile wf = (WalReset.init_bytes id base).[0; k) →
  Wal.INIT_FRAME_SIZE + Z.of_nat n * 2 ^ 45 ≤ U64_MAX → log_opens id base [] n wf j.
Proof.
  intros Hid Hb Hk Hv Hn. unfold log_opens. wp_use (WalReset.open_torn_spec (F:=W) id base k wf j); [done..| |by intros e s [_ ?]; left].
  intros w s (Hf & [Hfresh (K1 & K2 & K3)] & Hr & Hj). pose proof Hfresh as [A1 A2 A3 A4 A5 A6 A7].
  split; try done; [by rewrite A4|rewrite A5; simpl; lia|by rewrite Hf| |by rewrite Hj].
  assert (len (volatile (Wal.file w)) = Wal.INIT_FRAME_SIZE) as Hl.
  { rewrite (rep_bytes _ _ A1), A2, A3, A4, <-init_image. by rewrite len_frame_image, init_frame_size. }
  split; rewrite ?K1, ?K2, ?K3, ?Hl; unfold U64_MAX, Wal.INIT_FRAME_SIZE, Wal.WAL_HEADER_SIZE, Wal.INIT_PAYLOAD_SIZE, Wal.WAL_TRAILER_SIZE in *; lia.
Qed.

(** Opening under the counters that the log leaves. *)
Section open.
Context (cfg : DatabaseConfig) (v : bytes) (ss : list Segment) (bs : list Batch) (o : Overlay.Overlay Store) (n : nat)
  (s : gmap DocumentKey RevisionState).
Hypotheses (Hcfg : config_ok cfg) (Hbs : bs = live (base_lsn o) (commits ss)) (Hend : ∀ x, last (commits ss) = Some x → base_lsn o ≤ Wal.batch_commit_lsn x)
  (HR : recoverable (store_identity cfg) v bs o) (Hrep : represents n o s)
  (Hlim : Overlay.sh_limits (Overlay.header (Overlay.store o)) = limits cfg) (Hnew : newest s (Overlay.next_revision o))
  (Hlsn : Overlay.next_lsn o = Z.max (log_last 0 ss + 1) (base_lsn o + 1))
  (Hbatch : Overlay.next_batch_id o = log_batch 0 ss + 1).

(** What opening returns. *)
Record reopened (fs : TheFiles) b : Prop := {
  ro_store : store_ok n b ss s;
  ro_recoverable : recoverable (store_identity cfg) (volatile (file b)) bs (Overlay.overlay_new b);
  ro_durable : durable (file b) = volatile (file b);
  ro_config : config b = cfg;
  ro_injector : injector fs = None → fault_injector b = None;
  ro_reliable : reliable (wal_file fs) → wal_reliable b;
  ro_published : published_page_updates b = ∅;
  ro_counters : next_lsn b = Overlay.next_lsn o ∧ next_batch_id b = Overlay.next_batch_id o ∧
    next_revision b = Overlay.next_revision o;
  ro_clean : ∃ w, clean b w o;
  ro_base : base_lsn (Overlay.overlay_new b) = base_lsn o;
  ro_log : ∃ w, wal b = Some w ∧ Wal.identity w = store_identity cfg ∧ Wal.history_start_lsn w ≤ base_lsn o;
}.

Lemma commit_lsn_bound x : x ∈ commits ss → Wal.batch_commit_lsn x < Overlay.next_revision o.
Proof.
  intros Hx. pose proof (rc_base _ _ _ _ HR). destruct (decide (base_lsn o < Wal.batch_commit_lsn x)); [|lia].
  assert (x ∈ bs) as Hb by (rewrite Hbs; by apply list_elem_of_filter).
  pose proof (proj1 (Forall_forall _ _) (rc_lsns _ _ _ _ HR) x Hb). simpl in *. lia.
Qed.

Lemma last_commit_lsn :
  match last (commits ss) with Some x => Wal.batch_commit_lsn x | None => 0 end < Overlay.next_revision o.
Proof.
  destruct (last (commits ss)) as [x|] eqn:E.
  - apply last_Some_elem_of in E. by apply commit_lsn_bound.
  - destruct Hrep as (G & ht & fl & _ & _ & [_ _ ? _ _ _] & _). lia.
Qed.

Lemma next_revision_eq rep :
  0 ≤ rep < Overlay.next_revision o → (∀ k r ov, abs s !! k = Some (r, ov) → r ≤ rep) →
  revision_after (Z.max rep (match last (commits ss) with Some x => Wal.batch_commit_lsn x | None => 0 end)) =
  Ok (Overlay.next_revision o).
Proof.
  intros Hr Hall. pose proof last_commit_lsn as Hc.
  assert (E : Overlay.next_revision o = rep + 1).
  { destruct Hnew as [?|(k & x & ov & Hk & ?)]; [lia|]. specialize (Hall _ _ _ Hk). lia. }
  assert (Hmax : Overlay.next_revision o ≤ U64_MAX).
  { destruct Hrep as (G & ht & fl & Hi & (Hcap & _) & [_ _ ? _ _ _] & _). pose proof (reach_ge o ht n).
    pose proof (inv_high _ _ _ _ _ _ _ Hi). unfold Overlay.FIRST_DATA_PAGE in *. nia. }
  unfold revision_after. rewrite Z.max_l by lia. rewrite checked_add_ok by lia. by rewrite E.
Qed.
(** The file that the pass leaves, and the superblock in it. *)
Section complete.
Context (v' : bytes) (HF : redone_file v bs v').

Lemma complete_bound : len v' ≤ U64_MAX ∧ 3 * PAGE_SIZE ≤ len v'.
Proof.
  rewrite (redone_length _ _ _ _ _ HR HF). destruct Hrep as (G & ht & fl & Hi & (_ & _ & _ & Hcap) & _).
  pose proof (inv_high _ _ _ _ _ _ _ Hi) as Hh. pose proof (reach_ge o ht n). unfold Overlay.FIRST_DATA_PAGE, Page.PAGE_SIZE, U32_MAX, U64_MAX in *. lia.
Qed.

Lemma complete_slots : page_at v' 0 = final v bs 0 ∧ page_at v' 1 = final v bs 1.
Proof.
  split; [apply (redone_slot _ _ _ _ _ HR HF 0 (or_introl eq_refl))|apply (redone_slot _ _ _ _ _ HR HF 1 (or_intror eq_refl))].
Qed.

Lemma final_complete i : is_slot i → final v' bs i = final v bs i.
Proof.
  intros Hi. destruct (redone_slot _ _ _ _ _ HR HF i Hi) as [E _]. unfold final in *.
  by destruct (last (images_of i (log_images bs))).
Qed.

(** The store that opening builds from it. *)
Context (sb : Superblock) (b : Store).
Hypotheses (Hsb : Superblock.choose_superblock (final v bs 0) (final v bs 1) =
      Ok (Superblock.mkSelected (Overlay.active_slot o) sb))
  (Esb : Superblock.with_checksum sb 0 = Superblock.with_checksum (Overlay.current_superblock o) 0).

(** A checksum is all that tells the superblock in the file from the one in memory. *)
Lemma same_superblock {A} (g : Superblock → A) :
  (∀ x c, g (Superblock.with_checksum x c) = g x) → g sb = g (Overlay.current_superblock o).
Proof. intros Hg. rewrite <-(Hg sb 0), Esb. apply Hg. Qed.

Hypotheses (Bfile : volatile (file b) = v') (Bdirty : dirty_pages b = ∅) (Bwal : is_Some (wal b))
  (Bheader : store_header b = Overlay.mkStoreHeader true sb (Overlay.active_slot o) (Overlay.root_page_id o)
    (Overlay.free_list_head o) (Overlay.high_water_page_id o) (Overlay.next_revision o) (Overlay.next_lsn o)
    (Overlay.next_batch_id o) (limits cfg))
  (Brel : reliable (file b)) (Bcache : Cache.sized (cache b) ∧ ∀ i, Cache.cached (cache b) i = None).

Lemma complete_page i : committed_page b i = file_page v' i.
Proof.
  unfold committed_page, committed_bytes, file_page. rewrite Bdirty, lookup_empty, Bfile.
  by destruct (_ && _).
Qed.

Lemma complete_view i : view (Overlay.overlay_new b) i = view o i.
Proof.
  unfold view at 1. cbn [Overlay.pages Overlay.overlay_new]. rewrite lookup_empty.
  change (committed_page b i = view o i). rewrite complete_page. by eapply redone_view.
Qed.

Lemma complete_wf : Superblock.wf (Overlay.current_superblock o) → Superblock.wf sb.
Proof.
  by rewrite (same_superblock Superblock.wf).
Qed.

Lemma complete_represents : represents n (Overlay.overlay_new b) s.
Proof.
  destruct Hrep as (G & ht & fl & Hi & Hc & [D1 D2 D3 D4 D5 D6] & Hr). exists G, ht, fl. pose proof complete_view as Hv.
  pose proof (same_superblock Superblock.generation ltac:(done)) as Eg.
  injection Bheader as _ Esb' Es Ert Ef Eh Er En Eb El. split_and!.
  - eapply inv_view; try done; [|simpl; set_solver..]. destruct complete_bound, Bcache as [Z1 Z2].
    change (store_serving b). split; [done|by rewrite Bfile|done|]. intros i q Hq. by rewrite Z2 in Hq.
  - unfold capacity, reach in *. simpl. by rewrite En, Eh, Esb', Eb, Eg.
  - split; simpl; try done.
    + by rewrite Er, En.
    + intros id q. rewrite Hv, Er. apply D4.
    + rewrite Esb'. by apply complete_wf.
    + unfold limits_ok in *. simpl. by rewrite El, <-Hlim.
  - simpl. by rewrite Er.
Qed.

Lemma complete_shard : shard_of sb (store_identity cfg).
Proof.
  rewrite (same_superblock (λ x, shard_of x (store_identity cfg))) by done. apply (rc_shard _ _ _ _ HR).
Qed.

Lemma complete_recoverable : recoverable (store_identity cfg) v' bs (Overlay.overlay_new b).
Proof.
  pose proof complete_view as Hv. pose proof complete_shard as Esh. pose proof (redone_length _ _ _ _ _ HR HF) as Hlen.
  pose proof (redone_page _ _ _ _ _ HR HF) as Hpage. pose proof (redone_view _ _ _ _ _ HR HF) as Hfv.
  destruct complete_slots as [S0 S1].
  destruct HR as [R1 R2 R3 R3b R4 R5 R6 R7 R8 R9 Rc R10 R11].
  pose proof final_complete as Hfc.
  assert (Eck : Superblock.checkpoint_lsn sb = base_lsn o) by (by apply (same_superblock Superblock.checkpoint_lsn)).
  unfold Overlay.overlay_new in *. change (Overlay.header b) with (store_header b) in *. rewrite Bheader in *. cbn in Hv |- *.
  split; unfold base_lsn; cbn; rewrite ?Eck; try done.
  - destruct R1 as (hw & Hhw & _). exists (Overlay.high_water_page_id o). split; [lia|]. split; [done|by left].
  - intros i d Hi Hd. assert (Hin : i * PAGE_SIZE + PAGE_SIZE ≤ len v').
    { apply decode_long in Hd as [Hd _]. unfold page_at in Hd. unfold Overlay.FIRST_DATA_PAGE in Hi.
      eapply slice_len_inv; [| |rewrite Hd]; unfold Page.PAGE_SIZE; lia. }
    unfold Overlay.FIRST_DATA_PAGE in Hi. rewrite Hpage in Hd |- * by lia.
    destruct (last (images_of i (log_images bs))) as [y|] eqn:El.
    + right. apply last_Some_elem_of in El. by apply list_elem_of_fmap_2.
    + apply last_None in El. rewrite El. case_decide; [|by apply decode_long in Hd as [_ []]].
      left. split; [|constructor]. destruct (R5 i d) as [[? _]|Hx]; [done|done|done|]. rewrite El in Hx. by apply not_elem_of_nil in Hx.
  - intros i. rewrite Hv. destruct (last (images_of i (log_images bs))) as [y|] eqn:El; [|by rewrite Hfv].
    by rewrite R6, El.
  - intros i Hi. rewrite final_complete by done. by apply R7.
  - exists sb. rewrite !final_complete by (unfold is_slot; auto). done.
  - exists (Superblock.mkSelected (Overlay.active_slot o) sb). rewrite S0, S1. done.
  - intros s0. destruct (Rc s0) as [_ (sb' & Hd & Hle & Hlt)].
    assert (slot_copy (Overlay.overlay_new b) s0 (final v bs (slot_page s0))) as Hcopy.
    { exists sb'. unfold Overlay.overlay_new. change (Overlay.header b) with (store_header b). rewrite Bheader. cbn.
      by rewrite (same_superblock Superblock.generation). }
    unfold Overlay.overlay_new in Hcopy. change (Overlay.header b) with (store_header b) in Hcopy. rewrite Bheader in Hcopy. cbn in Hcopy.
    rewrite Hfc by apply slot_page_slot. split; [|done]. destruct s0; cbn [slot_page] in *; by rewrite ?S0, ?S1.
  - destruct R11 as (M1 & M2 & M3). split_and!; [by rewrite (same_superblock Superblock.root_page_id)
      |by rewrite (same_superblock Superblock.high_water_page_id)|by rewrite (same_superblock Superblock.free_list_head)].
Qed.
End complete.

(** ** The whole of opening *)

Lemma wp_on_store {A} (b : Store) (m : St Store Error A) Q X (fs : TheFiles) :
  wp m (λ a b', Q (a, b') (mkFiles (file b') (match wal b' with Some w => Wal.file w | None => wal_file fs end) (fault_injector b')))
    (λ e b', X e (mkFiles (file b') (match wal b' with Some w => Wal.file w | None => wal_file fs end) (fault_injector b'))) b →
  wp (on_store b m) Q X fs.
Proof. unfold wp, on_store. by destruct (m b) as [[a|e|k] b']. Qed.

Lemma open_bounds : len v ≤ U64_MAX ∧ redo_length bs ≤ U64_MAX ∧ 0 < Overlay.next_lsn o ≤ U64_MAX.
Proof.
  assert (HP : PAGE_SIZE = 4096) by done. pose proof (highest_high_water _ _ _ _ HR) as Hup.
  destruct Hrep as (G & ht & fl & Hi & (Hc1 & _ & _ & Hc2) & [_ _ Hrev _ _ _] & _). pose proof (inv_high _ _ _ _ _ _ _ Hi).
  pose proof (reach_ge o ht n). destruct (rc_length _ _ _ _ HR) as (hw & Hhw & -> & _).
  unfold redo_length, Overlay.FIRST_DATA_PAGE, U32_MAX, U64_MAX in *. rewrite HP. split_and!; nia.
Qed.

(** The log is told where the store continues. *)
Lemma resume_ok (w : WalLog W) :
  Z.max (Wal.next_lsn w) (base_lsn o + 1) = Overlay.next_lsn o → Wal.resume_after (base_lsn o) w = Ok (Wal.set_next_lsn (Overlay.next_lsn o) w).
Proof.
  intros Hw. destruct open_bounds as (_ & _ & Hb). unfold Wal.resume_after. rewrite checked_add_ok by lia. rsimpl. f_equal.
  destruct (Z.ltb_spec (Wal.next_lsn w) (base_lsn o + 1)).
  - f_equal. lia.
  - replace (Overlay.next_lsn o) with (Wal.next_lsn w) by lia. by destruct w.
Qed.

Lemma resumed_rep (w : WalLog W) : wal_rep w ss → wal_rep (Wal.set_next_lsn (Overlay.next_lsn o) w) ss.
Proof. destruct open_bounds as (_ & _ & Hb). intros []. split; try done. cbn. lia. Qed.

Lemma resumed_room (w : WalLog W) : wal_room n w → wal_room n (Wal.set_next_lsn (Overlay.next_lsn o) w).
Proof. by intros []. Qed.

(** The store under construction is clean. *)
Section built.
Context (v' : bytes) (HF : redone_file v bs v') (sb : Superblock) (w : WalLog W) (f : F) (j : option J).
Hypotheses (Hsb : Superblock.choose_superblock (final v bs 0) (final v bs 1) =
      Ok (Superblock.mkSelected (Overlay.active_slot o) sb))
  (Esb : Superblock.with_checksum sb 0 = Superblock.with_checksum (Overlay.current_superblock o) 0)
  (Hf : volatile f = v') (Hw : wal_rep w ss) (Hstart_w : Wal.history_start_lsn w ≤ base_lsn o) (Hid_w : Wal.identity w = store_identity cfg).

Definition built : Store :=
  fresh_store f (Some w) sb (Overlay.active_slot o) (Overlay.root_page_id o) (Overlay.free_list_head o)
    (Overlay.high_water_page_id o) 0 cfg j.

Lemma built_clean : clean built w o.
Proof.
  destruct (rc_meta _ _ _ _ HR) as (M1 & M2 & M3). destruct (complete_bound v' HF) as [B1 B2].
  destruct (complete_slots v' HF) as [S0 S1].
  split; cbn [built fresh_store wal file dirty_pages dirty_superblock current_superblock active_slot root_page_id free_list_head high_water_page_id];
    rewrite ?Hf; try done.
  - by eapply redone_length.
  - intros i. by eapply redone_view.
  - by rewrite S0, S1.
  - rewrite (same_superblock sb Esb Superblock.page_size) by done.
    destruct Hrep as (G & ht & fl & _ & _ & [_ _ _ _ (_ & X & _) _] & _). done.
  - by rewrite (same_superblock sb Esb Superblock.root_page_id) by done.
  - by rewrite (same_superblock sb Esb Superblock.high_water_page_id) by done.
  - by rewrite (same_superblock sb Esb Superblock.free_list_head) by done.
  - unfold latest_lsn. cbn. rewrite (rep_committed _ _ Hw), (same_superblock sb Esb Superblock.checkpoint_lsn) by done.
    destruct (last (commits ss)) as [x|]; [|done]. by apply Hend.
Qed.

(** The store that the check and the counters leave. *)
Lemma built_reopened f' fs (b := set_next_batch_id (Overlay.next_batch_id o) (set_next_lsn (Overlay.next_lsn o)
    (set_next_revision (Overlay.next_revision o) (set_file f' built)))) :
  same_file f f' → reliable f → durable f = volatile f → Wal.next_lsn w = Overlay.next_lsn o →
  Wal.next_batch_id w = Overlay.next_batch_id o → durable (Wal.file w) = volatile (Wal.file w) → wal_room n w →
  (injector fs = None → j = None) → (reliable (wal_file fs) → reliable (Wal.file w)) → reopened fs b.
Proof.
  intros (V & D & R) Hr Hd Hl Hb Hdw Hrm Hj Hrw.
  assert (Bfile : volatile (file b) = v') by (by rewrite <-Hf, <-V).
  assert (Bcache : Cache.sized (cache b) ∧ ∀ i, Cache.cached (cache b) i = None).
  { split; [apply Cache.sized_new, Hcfg|]. intros i. unfold Cache.cached. cbn. by rewrite lookup_empty. }
  assert (Hrc : recoverable (store_identity cfg) v' bs (Overlay.overlay_new b)).
  { by eapply complete_recoverable. }
  split; try done.
  - split; [eapply complete_represents; try done; by apply R|done|]. exists w. split; try done.
    unfold ready. rewrite Hl. lia.
  - by rewrite Bfile.
  - change (durable f' = volatile f'). by rewrite V, D.
  - intros Hrel x [= <-]. auto.
  - exists w. destruct built_clean as [L1 L2 L3 L4 L5 L6 L7 L8 L9 L10 L11]. cbn in L3, L4, L5, L6.
    split; cbn [b file set_next_batch_id set_next_lsn set_next_revision set_file]; rewrite ?V; done.
  - by apply (same_superblock sb Esb Superblock.checkpoint_lsn).
  - by exists w.
Qed.
End built.

Lemma reopen_spec (fs : TheFiles) :
  volatile (data_file fs) = v → durable (data_file fs) = v → reliable (data_file fs) →
  log_opens (store_identity cfg) (base_lsn o) ss n (wal_file fs) (injector fs) →
  wp (open_with_wal_internal cfg) (λ b _, reopened fs b) (λ _ _, ¬ reliable (wal_file fs) ∨ injector fs ≠ None) fs.
Proof.
  intros Hv Hd Hr Hlog. assert (HP : PAGE_SIZE = 4096) by done. destruct open_bounds as (Hu & Hru & Hnl).
  destruct (redone_aligned _ _ _ _ HR) as [Ha Hl3]. unfold open_with_wal_internal. wp_step. wp_step. wp_step.
  pose proof (file_len_spec (wal_file fs)) as Hfl. destruct (file_len (wal_file fs)) as [wl|e|k]; [|apply wp_lift; auto|done].
  apply wp_lift. wp_step. apply wp_zoom.
  wp_use (validate_existing_spec cfg v bs o wl (data_file fs)); [done|done|done| |by intros ? ? []].
  intros ? f1 [-> (V1 & D1 & R1)]. cbv beta. cbn [default]. wp_step. apply wp_zoom. cbn [data_file wal_file injector].
  eapply wp_mono; [exact Hlog| |by intros].
  intros w [wf j] [Hwf Hrep_w Hid_w Hst_w Hnl_w Hnb_w Hdur_w Hrel_w Hroom_w Hjo]. cbn [fst snd] in *. cbv beta. subst wf. rewrite <-Hlsn in Hnl_w.
  wp_step. wp_step. cbn [data_file]. wp_step. unfold is_empty. pose proof (file_len_spec f1) as Hfl1.
  rewrite V1, Hv in Hfl1. destruct (file_len f1) as [l1|e|k]; [|by destruct (Hfl1 (R1 Hr))|done]. subst l1.
  apply (wp_lift_ok _ false). { rsimpl. by rewrite (proj2 (Z.eqb_neq _ _)) by lia. }
  cbn [andb]. cbv iota. wp_step. apply wp_zoom. cbn [data_file injector]. rewrite (rep_committed _ _ Hrep_w).
  wp_use (recover_data_file_spec (commits ss) (base_lsn o) f1 j); cbv zeta; fold (live (base_lsn o) (commits ss)); rewrite <-?Hbs, ?V1, ?D1, ?Hv, ?Hd; try done.
  { apply Forall_forall. intros y Hy. destruct (rc_images _ _ _ _ HR y Hy) as ([? _] & ? & _). done. }
  2:{ intros e t [Hx|Hx]; [by destruct Hx; auto|]. destruct (decide (injector fs = None)) as [E|E]; [|by right]. by destruct Hx; apply Hjo. }
  intros _ [f2 j2] (Hlen2 & Hpages2 & Hdur2 & Hrel2 & Hj2). cbn [fst snd] in *. cbv beta.
  assert (HF : redone_file v bs (volatile f2)) by (by split).
  destruct (complete_bound _ HF) as [Hb1 Hb2]. destruct (complete_slots _ HF) as [Hs0 Hs1].
  pose proof (redone_length _ _ _ _ _ HR HF) as Hlen. assert (Hrf2 : reliable f2) by auto.
  destruct (rc_selected _ _ _ _ HR) as (sb & Hsb & Esb).
  wp_step. wp_step. cbn [data_file]. wp_step. pose proof (file_len_spec f2) as Hfl2. destruct (file_len f2) as [l2|e|k]; [|by destruct (Hfl2 Hrf2)|done].
  subst l2. apply wp_lift. wp_step. apply wp_fail_when.
  { unfold misaligned. rewrite Hlen, Z_mod_mult, <-Hlen. unfold FIRST_DATA_PAGE, Overlay.FIRST_DATA_PAGE.
    rewrite (proj2 (Z.ltb_ge _ _)) by (rewrite HP in *; lia). done. }
  intros _. wp_step. apply wp_zoom. cbn [data_file]. wp_use (read_slots_spec f2); [done| |by intros ? ? []].
  intros ? f3 [-> (V3 & D3 & R3)]. cbv beta iota. wp_step. rewrite Hs0, Hs1. apply (wp_lift_ok _ _ _ _ _ Hsb).
  cbn [Superblock.superblock Superblock.slot]. wp_step.
  apply (wp_lift_ok _ tt); [by apply validate_identity_ok, complete_shard|]. wp_step.
  pose proof (built_clean (volatile f2) HF sb (Wal.set_next_lsn (Overlay.next_lsn o) w) f3 j2 Hsb Esb V3 (resumed_rep _ Hrep_w)) as Hcl.
  destruct (cl_root _ _ _ Hcl) as [Q1 _]. destruct (cl_high _ _ _ Hcl) as [Q2 _]. destruct (cl_free _ _ _ Hcl) as [Q3 _].
  apply (wp_lift_ok _ (Overlay.root_page_id o, Overlay.free_list_head o, Overlay.high_water_page_id o));
    [by apply (metadata_ok _ _ _ _ o n s _ Hrep (cl_page_size _ _ _ Hcl))|]. cbv beta iota. wp_step.
  assert (Superblock.checkpoint_lsn sb = base_lsn o) as -> by (by apply (same_superblock sb Esb Superblock.checkpoint_lsn)).
  apply (wp_lift_ok _ _ _ _ _ (resume_ok w Hnl_w)). wp_step. wp_step. cbn [data_file injector]. wp_step. apply wp_on_store.
  wp_use (check_clean_spec _ _ _ n s Hcl Hrep).
  2:{ intros e b' Hx. destruct Hx. by apply R3. }
  intros rep b' ((f4 & -> & Hs4) & Hrep1 & Hrep2). cbv beta iota zeta. cbn [Wal.committed Wal.set_next_lsn].
  rewrite (rep_committed _ _ Hrep_w). wp_step. apply (wp_lift_ok _ _ _ _ _ (next_revision_eq _ Hrep1 Hrep2)). apply wp_ret.
  change (Wal.next_lsn _) with (Overlay.next_lsn o). change (Wal.next_batch_id (Wal.set_next_lsn _ w)) with (Wal.next_batch_id w).
  rewrite Hnb_w, <-Hbatch. eapply (built_reopened (volatile f2)); try done.
  - by apply resumed_rep.
  - auto.
  - by rewrite D3, V3.
  - cbn. by rewrite Hnb_w.
  - by apply resumed_room.
  - intros E. by apply Hj2, Hjo.
Qed.
End open.
End reopen.
End Reopen.
