(* ===== verification/Durability.v ===== *)
(** * What survives a crash

    [kept] is the state of a store whose files can always be turned back into it: its
    data file and its log are [recoverable] and its counters are those of the log.  A
    new store is kept, a group of transactions keeps it, and after a crash in the
    middle of a group, opening what is left of the files gives a kept store again,
    which represents the reference database after the first requests of the group. *)

From S2P Require Import Prelude Wp Key Core Page Superblock Format FormatLaws Reference Cache Overlay Tree TreeSearch.
From S2P Require Import OverlayReads TreeOps TreeTxn DurableFile Wal WalFrames WalReplay WalRecovery WalAppend WalCrash WalReset.
From S2P Require Import StoreFile Checker Store StoreSpec StorePublish StoreTxn StoreNew CheckerSpec Redo Recovery Reopen.

Module Durability.
Import Core FormatLaws DurableFile StoreFile Store StoreSpec OverlayReads Tree TreeOps TreeTxn.
Import WalFrames WalReplay WalRecovery WalAppend WalCrash StorePublish StoreTxn StoreNew Redo Recovery Reopen.

(** A commit is not past the end of its log. *)
Lemma commit_before_last `{C : Crc32c} previous bid ss x :
  log_ok previous bid ss → x ∈ commits ss → Wal.batch_commit_lsn x ≤ log_last previous ss.
Proof.
  revert previous bid. induction ss as [|s ss IH]; intros previous bid; [by intros _ ?%not_elem_of_nil|].
  intros (Hs & _ & _ & Hlog). change (commits (s :: ss)) with (seg_commit s ++ commits ss). rewrite elem_of_app. cbn [log_last].
  pose proof (log_last_ge _ _ _ Hlog). unfold seg_commit. intros [Hx|Hx]; [|eauto].
  destruct (seg_done s); [|by apply not_elem_of_nil in Hx]. apply list_elem_of_singleton in Hx as ->. done.
Qed.

Section stages.
Context {B : Type} {CB : Overlay.CommittedStore B} {SP : CommittedStoreSpec B}.
Context `{C : Crc32c} {CS : Crc32cSpec C}.
Implicit Type o : Overlay.Overlay B.

Lemma recoverable_counters id v bs o l k :
  recoverable id v bs o → recoverable id v bs (Overlay.set_next_batch_id k (Overlay.set_next_lsn l o)).
Proof. intros []. by split. Qed.

(** The batches of a group, one after the other. *)
Lemma recoverable_stages o ps o' cs id v bs :
  stages o ps o' → Forall2 batch_commit ps cs → recoverable id v bs o →
  recoverable id v (bs ++ (Wal.committed_of <$> cs)) o' ∧ base_lsn o' = base_lsn o ∧
  Overlay.header (Overlay.store o') = Overlay.header (Overlay.store o) ∧
  Overlay.next_revision o' = match last cs with Some c => Wal.commit_lsn c + 1 | None => Overlay.next_revision o end.
Proof.
  intros Hst. revert cs bs. induction Hst as [o o' S|o p c o1 ps o' Cm Hne Hh Hst IH]; intros cs bs HF HR.
  { apply Forall2_nil_inv_l in HF as ->. rewrite app_nil_r. split_and!.
    - by eapply recoverable_sim.
    - unfold base_lsn. by rewrite (sim_superblock _ _ S).
    - apply (sim_header _ _ S).
    - apply (sim_revision _ _ S). }
  apply Forall2_cons_inv_l in HF as (wc & cs' & (img & Himg & Hwc) & HF & ->).
  pose proof (recoverable_step o o1 p c img wc Cm Hh Himg Hwc id v bs HR) as HR1.
  destruct (IH cs' _ HF HR1) as (I1 & I2 & I3 & I4).
  destruct (com_superblock _ _ _ _ Cm) as (_ & _ & _ & _ & (_ & _ & _ & _ & _ & Hck & _)).
  rewrite <-app_assoc in I1. split_and!; [done|rewrite I2; exact Hck|by rewrite I3, (com_header _ _ _ _ Cm)|].
  rewrite I4. destruct cs' as [|c' cs']; [|rewrite last_cons_cons, last_cons; by destruct (last cs')]. simpl.
  destruct (com_revision _ _ _ _ Cm) as (_ & -> & _). pose proof (com_lsn _ _ _ _ Cm) as [Hc _].
  unfold wal_commit in Hwc. rewrite Hc in Hwc. simpl in Hwc. by injection Hwc as <-.
Qed.

Lemma live_all base (l : list Batch) : Forall (λ x, base < Wal.batch_commit_lsn x) l → live base l = l.
Proof. induction 1 as [|x l Hx HF IH]; [done|]. unfold live in *. rewrite filter_cons_True by done. by rewrite IH. Qed.

(** Pages that wait to be written are the newest in the log. *)
Definition pages_ok (D : gmap PageId bytes) (bs : list Batch) : Prop :=
  ∀ i x, D !! i = Some x → Overlay.FIRST_DATA_PAGE ≤ i ∧ ∃ c, last (images_of i (log_images bs)) = Some (c, x).

Lemma pages_step o p o1 c img wc D bs :
  committed_by o p o1 c → (∃ s, represents 0 o1 s) → wal_commit p img = Ok wc → pages_ok D bs →
  pages_ok (Overlay.changed_pages p ∪ D) (bs ++ [Wal.committed_of wc]).
Proof.
  intros Cm Hh Hwc HD i x Hx. rewrite step_images_app, last_app, (proj2 (step_images _ _ _ _ _ _ Cm Hh Hwc i)).
  apply lookup_union_Some_raw in Hx as [Hx|[Hn Hx]].
  - rewrite Hx. destruct (step_page _ _ _ _ Cm Hh i x Hx) as (_ & _ & ? & _). split; [lia|]. by exists c.
  - rewrite Hn. destruct (HD i x Hx) as [Hi Hl]. split; [done|]. rewrite decide_False; [done|].
    intros ->. destruct (slot_page_slot (Overlay.active_slot o1)) as [E|E]; rewrite E in Hi; by unfold Overlay.FIRST_DATA_PAGE in Hi.
Qed.

Lemma pages_stages o ps o' cs D bs :
  stages o ps o' → Forall2 batch_commit ps cs → pages_ok D bs → pages_ok (group_pages ps D) (bs ++ (Wal.committed_of <$> cs)).
Proof.
  intros Hst. revert cs D bs. induction Hst as [o o' S|o p c o1 ps o' Cm Hne Hh Hst IH]; intros cs D bs HF HD.
  { apply Forall2_nil_inv_l in HF as ->. by rewrite app_nil_r. }
  apply Forall2_cons_inv_l in HF as (wc & cs' & (img & Himg & Hwc) & HF & ->).
  rewrite fmap_cons. change (?x :: ?l) with ([x] ++ l). rewrite app_assoc. apply (IH cs' (Overlay.changed_pages p ∪ D) _ HF).
  by eapply pages_step.
Qed.

(** The superblock that waits to be written is the current one. *)
Lemma superblock_stages o ps o' cs bs p :
  stages o ps o' → Forall2 batch_commit ps cs → last ps = Some p →
  ∃ img c, Superblock.encode_superblock (Overlay.new_superblock p) = Ok img ∧
    Superblock.decode_superblock img = Ok (Overlay.current_superblock o') ∧
    last (images_of (slot_page (Overlay.active_slot o')) (log_images (bs ++ (Wal.committed_of <$> cs)))) = Some (c, img).
Proof.
  intros Hst. revert cs bs. induction Hst as [o o' S|o p0 c o1 ps o' Cm Hne Hh Hst IH]; intros cs bs HF Hp; [done|].
  apply Forall2_cons_inv_l in HF as (wc & cs' & (img & Himg & Hwc) & HF & ->).
  rewrite fmap_cons. change (Wal.committed_of wc :: ?l) with ([Wal.committed_of wc] ++ l). rewrite app_assoc.
  destruct ps as [|p' ps]; [|by apply IH]. simpl in Hp. injection Hp as <-. apply Forall2_nil_inv_l in HF as ->.
  inversion Hst as [? ? S|]; subst. rewrite (sim_superblock _ _ S), (sim_slot _ _ S). exists img, c.
  destruct (step_superblock _ _ _ _ _ _ Cm Himg Hwc) as (_ & Hd & _). split_and!; [done|done|].
  rewrite app_nil_r, step_images_app, last_app, (proj2 (step_images _ _ _ _ _ _ Cm Hh Hwc _)).
  destruct (Overlay.changed_pages p0 !! _) as [x|] eqn:Ex; [|by rewrite decide_True].
  destruct (step_page _ _ _ _ Cm Hh _ x Ex) as (_ & _ & Hr & _). unfold Overlay.FIRST_DATA_PAGE in Hr.
  destruct (slot_page_slot (Overlay.active_slot o1)); lia.
Qed.
End stages.

Section kept.
Context `{C : Crc32c} {CS : Crc32cSpec C} `{FS : DurableFileSpec F} `{WS : DurableFileSpec W} `{JS : FaultInjectorSpec J}.
Abbreviation Store := (BTreeStore F W J).
Abbreviation TheFiles := (Files (F:=F) (W:=W) (J:=J)).
Implicit Types (b : Store) (o : Overlay.Overlay Store).

(** The batches that the data file may not have. *)
Definition unsaved b ss : list Batch := live (base_lsn (Overlay.overlay_new b)) (commits ss).

(** The superblock of the file [v] is the one in memory, up to the checksum. *)
Definition selects b (v : bytes) : Prop :=
  ∃ sb, Superblock.choose_superblock (page_at v 0) (page_at v 1) = Ok (Superblock.mkSelected (active_slot b) sb) ∧
    Superblock.with_checksum sb 0 = Superblock.with_checksum (current_superblock b) 0.

(** The newest commit, or the checkpoint at [base]. *)
Definition latest (base : Lsn) (bs : list Batch) : Lsn :=
  match last bs with Some x => Wal.batch_commit_lsn x | None => base end.

(** What waits to be written to the data file is what the log has newest. *)
Definition dirty_ok b (bs : list Batch) : Prop :=
  pages_ok (dirty_pages b) bs ∧
  match dirty_superblock b with
  | Some x => (∃ c, last (images_of (slot_page (active_slot b)) (log_images bs)) = Some (c, x)) ∧
              Superblock.decode_superblock x = Ok (current_superblock b)
  | None => selects b (volatile (file b)) ∧ len (volatile (file b)) = (high_water_page_id b + 1) * PAGE_SIZE
  end.

Record kept (n : nat) b ss (s : gmap DocumentKey RevisionState) : Prop := {
  kp_store : store_ok n b ss s;
  kp_recoverable : recoverable (store_identity (config b)) (volatile (file b)) (unsaved b ss) (Overlay.overlay_new b);
  kp_durable : durable (file b) = volatile (file b);
  kp_config : config_ok (config b);
  kp_newest : newest s (next_revision b);
  kp_lsn : next_lsn b = Z.max (log_last 0 ss + 1) (base_lsn (Overlay.overlay_new b) + 1);
  kp_batch : next_batch_id b = log_batch 0 ss + 1;
  kp_last : ∀ x, last (commits ss) = Some x → base_lsn (Overlay.overlay_new b) ≤ Wal.batch_commit_lsn x;
  kp_revision : next_revision b ≤ latest (base_lsn (Overlay.overlay_new b)) (commits ss) + 1;
  kp_dirty : dirty_ok b (unsaved b ss);
  kp_log : ∃ w, wal b = Some w ∧ Wal.identity w = store_identity (config b) ∧
    Wal.history_start_lsn w ≤ base_lsn (Overlay.overlay_new b);
}.

(** What opening returns is kept. *)
Lemma reopened_kept cfg ss o n s fs b :
  config_ok cfg → newest s (Overlay.next_revision o) →
  (∀ x, last (commits ss) = Some x → base_lsn o ≤ Wal.batch_commit_lsn x) →
  Overlay.next_revision o ≤ latest (base_lsn o) (commits ss) + 1 →
  Overlay.next_lsn o = Z.max (log_last 0 ss + 1) (base_lsn o + 1) → Overlay.next_batch_id o = log_batch 0 ss + 1 →
  reopened cfg ss (live (base_lsn o) (commits ss)) o n s fs b → kept n b ss s.
Proof.
  intros Hcfg Hnew Hlast Hrev Hl Hb [R1 R2 R3 R4 R5 R6 R7 (K1 & K2 & K3) (w0 & Hcl) R8 (w & W1 & W2 & W3)].
  destruct (cl_dirty _ _ _ Hcl) as [Hd1 Hd2].
  split; unfold unsaved; rewrite ?R4, ?R8; try done; [by rewrite K3|by rewrite K1|by rewrite K2|by rewrite K3| |by exists w].
  unfold dirty_ok. rewrite Hd1, Hd2. split; [intros i x; by rewrite lookup_empty|].
  split; [exists (current_superblock b); split; [apply (cl_selected _ _ _ Hcl)|done]|].
  by rewrite (cl_length _ _ _ Hcl), <-(proj2 (cl_high _ _ _ Hcl)).
Qed.
Lemma latest_app base bs (cs : list Wal.WalCommit) r :
  r ≤ latest base bs + 1 →
  match last cs with Some c => Wal.commit_lsn c + 1 | None => r end ≤ latest base (bs ++ (Wal.committed_of <$> cs)) + 1.
Proof.
  intros Hr. unfold latest in *. rewrite last_app, fmap_last. destruct (last cs) as [c|]; [done|]. done.
Qed.

Lemma unsaved_app b ss l id v o' :
  recoverable id v (unsaved b ss ++ l) o' → base_lsn o' = base_lsn (Overlay.overlay_new b) →
  (∀ x, last (commits ss) = Some x → base_lsn (Overlay.overlay_new b) ≤ Wal.batch_commit_lsn x) →
  live (base_lsn o') (commits ss ++ l) = unsaved b ss ++ l ∧
  ∀ x, last (commits ss ++ l) = Some x → base_lsn o' ≤ Wal.batch_commit_lsn x.
Proof.
  intros HR Hbase Hlast. pose proof (rc_lsns _ _ _ _ HR) as HF. apply Forall_app in HF as [_ HF]. rewrite Hbase in *. split.
  - assert (Hl : live (base_lsn (Overlay.overlay_new b)) l = l).
    { apply live_all. eapply Forall_impl; [exact HF|]. simpl. intros x ?. lia. }
    unfold unsaved, live in *. by rewrite filter_app, Hl.
  - intros x. rewrite last_app. destruct (last l) as [y|] eqn:Ey; [|apply Hlast]. intros [= <-].
    apply last_Some_elem_of in Ey. pose proof (proj1 (Forall_forall _ _) HF y Ey). simpl in *. lia.
Qed.

Lemma recoverable_follows id v bs o b : recoverable id v bs o → follows o b → recoverable id v bs (Overlay.overlay_new b).
Proof.
  intros [R1 R2 R3 R3b R4 R5 R6 R7 R8 R9 Rc R10 R11] [F1 F2 F3]. injection F1. intros El Eb En Er Eh Ef Ert Es Esb _.
  assert (Hv : ∀ i, view (Overlay.overlay_new b) i = view o i).
  { intros i. rewrite <-F2. unfold view. simpl. by rewrite lookup_empty. }
  split; unfold base_lsn, slot_copy; simpl; rewrite ?Eh, ?Er, ?Esb, ?Es, ?Ert, ?Ef; try done. intros i. by rewrite Hv.
Qed.

(** The counters after a group are those of its log. *)
Lemma log_after ss next bid cs base :
  next = Z.max (log_last 0 ss + 1) (base + 1) → bid = log_batch 0 ss + 1 → commits_valid next bid cs →
  next + record_total cs = Z.max (log_last 0 (ss ++ segments_of next cs) + 1) (base + 1) ∧
  bid + len cs = log_batch 0 (ss ++ segments_of next cs) + 1.
Proof.
  intros Hl Hb Hv. destruct (segments_extent _ _ _ Hv) as [X1 X2]. rewrite log_last_app, log_batch_app.
  destruct cs as [|c cs].
  { cbn [segments_of log_last log_batch]. change (record_total []) with 0. change (len (@nil Wal.WalCommit)) with 0. lia. }
  cbn [segments_of log_last log_batch] in *. pose proof (record_total_nonneg (c :: cs)). lia.
Qed.

Lemma kept_group n b ss db qs rs b' :
  kept n b ss (Reference.states db) → group_done n b ss db qs rs b' →
  ∃ cs db', group_run (limits (config b)) db qs rs db' ∧ kept (n - writes qs) b' (ss ++ segments_of (next_lsn b) cs) (Reference.states db').
Proof.
  intros [K1 K2 K3 K4 K5 K6 K7 K8 Kr [K9 K10] (w0 & Hw0 & Hid & Hh)] [_ Hcfg _ _ _ _ (ps & cs & db' & o' & Hg & Hleft & Hok & Hfol & Hd1 & Hd2)].
  destruct Hleft as ((V & D & _) & w & w' & Hw & Hw' & (Hid' & Hst') & HF & Hty & Hcv & El & Eb & _).
  rewrite Hw in Hw0. injection Hw0 as <-.
  destruct (recoverable_stages _ _ _ _ _ _ _ (go_stages _ _ _ _ _ _ _ _ Hg) HF K2) as (HR & Hbase & _ & Hrev).
  assert (Hnn : 0 ≤ next_lsn b).
  { destruct (so_wal _ _ _ _ K1) as [w1 [_ O2 O3 O4 _ _ _]]. pose proof (rep_start _ _ O2). unfold ready in O3. rewrite <-O4. ulia. }
  destruct (segments_ok _ _ _ Hty Hnn Hcv) as [_ Hcom]. destruct (log_after ss _ _ cs _ K6 K7 Hcv) as [X1 X2].
  pose proof (fo_header _ _ Hfol) as Hhd. injection Hhd. intros _ Eb' El' Er' Eh' _ _ Es' Esb' _.
  assert (Hbase' : base_lsn (Overlay.overlay_new b') = base_lsn (Overlay.overlay_new b)).
  { rewrite <-Hbase. unfold base_lsn. simpl. by rewrite Esb'. }
  destruct (unsaved_app b ss _ _ _ _ HR Hbase K8) as [Hlive Hlast].
  assert (Hun : unsaved b' (ss ++ segments_of (next_lsn b) cs) = unsaved b ss ++ (Wal.committed_of <$> cs))
    by (unfold unsaved at 1; by rewrite Hbase', <-Hbase, commits_app, Hcom).
  exists cs, db'. split; [apply Hg|]. split; rewrite ?Hcfg, ?Hun; try done.
  - rewrite V. by eapply recoverable_follows.
  - by rewrite V, D.
  - rewrite Er'. by apply (go_newest _ _ _ _ _ _ _ _ Hg).
  - by rewrite El', El, Hbase'.
  - by rewrite Eb', Eb.
  - intros x. rewrite Hbase', <-Hbase, commits_app, Hcom. apply Hlast.
  - rewrite Er', Hrev, Hbase', commits_app, Hcom. by apply latest_app.
  - split; [rewrite Hd1; exact (pages_stages _ _ _ _ _ _ (go_stages _ _ _ _ _ _ _ _ Hg) HF K9)|]. rewrite Hd2. destruct (last ps) as [p|] eqn:Ep.
    + destruct (superblock_stages _ _ _ _ (unsaved b ss) p (go_stages _ _ _ _ _ _ _ _ Hg) HF Ep) as (img & c & -> & Hdec & Himg).
      cbn [ok_of]. rewrite Es', Esb'. split; [by exists c|done].
    + apply last_None in Ep as ->. apply Forall2_nil_inv_l in HF as ->. rewrite app_nil_r.
      pose proof (go_stages _ _ _ _ _ _ _ _ Hg) as Hst0. inversion Hst0 as [? ? S|]; subst.
      destruct (dirty_superblock b); [rewrite Es', Esb', (sim_slot _ _ S), (sim_superblock _ _ S); exact K10|].
      unfold selects in *. rewrite V, Es', Esb', Eh', (sim_slot _ _ S), (sim_superblock _ _ S), (sim_high _ _ S). exact K10.
  - exists w'. by rewrite Hid', Hst', Hbase'.
Qed.

(** A group only reads the data file. *)
Lemma group_data_file n b ss db qs rs b' :
  group_done n b ss db qs rs b' → volatile (file b') = volatile (file b) ∧ durable (file b') = durable (file b).
Proof. by intros [_ _ _ _ _ _ (ps & cs & db' & o' & _ & ((V & D & _) & _) & _)]. Qed.

(** ... and passes its own check. *)
Definition passes b : Prop := ∃ report b', check_invariants b = (Ok report, b').

Lemma reopened_passes cfg ss bs o n s fs b : represents n o s → reopened cfg ss bs o n s fs b → passes b.
Proof.
  intros Hr Hro. destruct (ro_clean _ _ _ _ _ _ _ _ Hro) as [w Hcl].
  pose proof (check_clean_spec _ _ _ n s Hcl Hr) as Hc. unfold wp in Hc. unfold passes.
  destruct (check_invariants b) as [[rep|e|k] b']; [by eexists _, _| |done]. destruct Hc.
  apply (ss_reliable b). exact (represents_serving _ _ _ (so_represents _ _ _ _ (ro_store _ _ _ _ _ _ _ _ Hro))).
Qed.

(** Opening recoverable files. *)
Lemma reopen_kept cfg v ss o n s (fs : TheFiles) :
  config_ok cfg → recoverable (store_identity cfg) v (live (base_lsn o) (commits ss)) o → represents n o s →
  (∀ x, last (commits ss) = Some x → base_lsn o ≤ Wal.batch_commit_lsn x) →
  Overlay.next_revision o ≤ latest (base_lsn o) (commits ss) + 1 →
  Overlay.sh_limits (Overlay.header (Overlay.store o)) = limits cfg → newest s (Overlay.next_revision o) →
  Overlay.next_lsn o = Z.max (log_last 0 ss + 1) (base_lsn o + 1) → Overlay.next_batch_id o = log_batch 0 ss + 1 →
  volatile (data_file fs) = v → durable (data_file fs) = v → reliable (data_file fs) →
  log_opens (store_identity cfg) (base_lsn o) ss n (wal_file fs) (injector fs) → reliable (wal_file fs) → injector fs = None →
  ∃ b fs', open_with_wal_internal cfg fs = (Ok b, fs') ∧ kept n b ss s ∧ config b = cfg ∧ fault_injector b = None ∧
    wal_reliable b ∧ passes b.
Proof.
  intros Hcfg HR Hrep Hlast Hrev Hlim Hnew Hl Hb Hv Hd Hr Hlog Hrw Hj.
  pose proof (reopen_spec cfg v ss _ o n s Hcfg eq_refl Hlast HR Hrep Hlim Hnew Hl Hb fs Hv Hd Hr Hlog) as Hopen.
  unfold wp in Hopen. destruct (open_with_wal_internal cfg fs) as [[b|e|q] fs2]; [|by destruct Hopen|done].
  exists b, fs2. split_and!; [done|by eapply reopened_kept|by apply Hopen|by apply (ro_injector _ _ _ _ _ _ _ _ Hopen)
    |by apply (ro_reliable _ _ _ _ _ _ _ _ Hopen)|by eapply reopened_passes].
Qed.

(** ** A new store *)

Lemma new_superblocks cfg v :
  config_ok cfg → new_file cfg v →
  (∀ s, ∃ c, Superblock.decode_superblock (page_at v (slot_page s)) = Ok (Superblock.with_checksum (initial_superblock cfg) c)) ∧
  ∃ c, Superblock.choose_superblock (page_at v 0) (page_at v 1) =
    Ok (Superblock.mkSelected Superblock.A (Superblock.with_checksum (initial_superblock cfg) c)).
Proof.
  intros Hcfg Hnf. pose proof (initial_superblock_wf _ Hcfg) as Hwf.
  assert (Hd : ∀ s, ∃ c, Superblock.decode_superblock (page_at v (slot_page s)) = Ok (Superblock.with_checksum (initial_superblock cfg) c)).
  { intros s. eexists. exact (Superblock.decode_encoded _ _ Hwf (nf_superblocks _ _ Hnf s)). }
  split; [done|]. destruct (Hd Superblock.A) as [ca Ha], (Hd Superblock.B) as [cb Hb]. exists ca.
  unfold Superblock.choose_superblock. cbn [slot_page] in Ha, Hb. by rewrite Ha, Hb.
Qed.

Lemma new_recoverable cfg b :
  config_ok cfg → brand_new cfg b → recoverable (store_identity cfg) (volatile (file b)) [] (Overlay.overlay_new b).
Proof.
  intros Hcfg [(f & w & j & -> & Hw) Hnf _]. cbn [file set_next_batch_id set_next_lsn fresh_store] in Hnf.
  destruct (new_superblocks _ _ Hcfg Hnf) as [Hdec (c & Hsel)]. pose proof (nf_len _ _ Hnf) as Hlen.
  change (volatile (file _)) with (volatile f). assert (HP : PAGE_SIZE = 4096) by done.
  split; unfold base_lsn; cbn; try done.
  - exists 2. split; [done|]. split; [lia|by left].
  - intros y Hy. by apply not_elem_of_nil in Hy.
  - intros i _. constructor.
  - intros i d Hi Hd. left. split; [|constructor]. unfold Overlay.FIRST_DATA_PAGE in Hi.
    assert (i = 2) as ->.
    { pose proof (decode_long _ _ _ Hd) as [Hl _]. unfold page_at in Hl.
      assert (i * PAGE_SIZE + PAGE_SIZE ≤ len (volatile f)) by (eapply slice_len_inv; [| |rewrite Hl]; rewrite ?HP; lia). lia. }
    assert (u64 FIRST_DATA_PAGE) as Hu by (split; by vm_compute).
    destruct (encoded_page _ _ _ (proj1 (proj2 empty_leaf_storable)) Hu (nf_root _ _ Hnf)) as (_ & _ & d' & Hd' & El).
    change FIRST_DATA_PAGE with 2 in Hd'. assert (Ok (E:=Error) d' = Ok d) as Ed by (by rewrite <-Hd', <-Hd). injection Ed as ->.
    rewrite El. by vm_compute.
  - intros i. unfold view. cbn [Overlay.pages Overlay.overlay_new]. rewrite lookup_empty.
    unfold file_page. cbn. unfold committed_page, committed_bytes. cbn. rewrite lookup_empty. by destruct (_ && _).
  - intros i Hi. unfold final. cbn. assert (∃ sl, i = slot_page sl) as [sl ->].
    { destruct Hi as [->| ->]; [by exists Superblock.A|by exists Superblock.B]. }
    destruct (Hdec sl) as [c' Hc']. by eapply superblock_not_page.
  - by eexists.
  - by eexists.
  - intros sl. destruct (Hdec sl) as [c' Hc']. split; exists (Superblock.with_checksum (initial_superblock cfg) c');
      (split; [exact Hc'|]); (split; [done|]); intros _; by left.
Qed.

Lemma new_kept cfg n b : config_ok cfg → brand_new cfg b → config b = cfg → store_ok n b [] ∅ → kept n b [] ∅.
Proof.
  intros Hcfg Hnew <- Hok. pose proof (new_recoverable _ _ Hcfg Hnew) as HR.
  destruct Hnew as [(f & w & j & E & Hw) Hnf Hd]. destruct (new_superblocks _ _ Hcfg Hnf) as [_ (c & Hsel)].
  assert (Hs : selects b (volatile (file b))).
  { exists (Superblock.with_checksum (initial_superblock (config b)) c).
    assert (active_slot b = Superblock.A) as -> by (by rewrite E).
    assert (current_superblock b = initial_superblock (config b)) as -> by (by rewrite E at 1). done. }
  split; try done; try (rewrite E; done).
  - rewrite E. by left.
  - rewrite E. cbn. by rewrite (WalReset.fresh_next _ _ _ Hw).
  - rewrite E. cbn. by rewrite (WalReset.fresh_batch _ _ _ Hw).
  - split; [intros i x Hx; rewrite E in Hx; cbn in Hx; by rewrite lookup_empty in Hx|].
    assert (dirty_superblock b = None) as -> by (by rewrite E). split; [done|].
    assert (high_water_page_id b = 2) as -> by (by rewrite E). rewrite (nf_len _ _ Hnf). done.
  - exists w. rewrite E. cbn. split; [done|]. rewrite (WalReset.fresh_identity _ _ _ Hw), (WalReset.fresh_start _ _ _ Hw), E. done.
Qed.

(** ** A crash in the middle of a group *)

(** The files of a restart, with the contents [v] and [c] and no fault to come. *)
Record found (v c : bytes) (fs : TheFiles) : Prop := {
  fd_data : volatile (data_file fs) = v;
  fd_data_durable : durable (data_file fs) = v;
  fd_data_reliable : reliable (data_file fs);
  fd_wal : volatile (wal_file fs) = c;
  fd_wal_durable : durable (wal_file fs) = c;
  fd_wal_reliable : reliable (wal_file fs);
  fd_injector : injector fs = None;
}.

Section crash.
Context (n : nat) (b : Store) (ss : list Segment) (db : Reference.ReferenceDb) (qs : list TransactionRequest).
Context (ps : list Overlay.PreparedBatch) (cs : list Wal.WalCommit) (rs : list (Result Error TransactionResult))
  (db' : Reference.ReferenceDb) (o' : Overlay.Overlay Store).
Hypotheses (HK : kept n b ss (Reference.states db)) (Hg : group_ok n db qs (Overlay.overlay_new b) ps rs db' o')
  (HF : Forall2 batch_commit ps cs) (El : Overlay.next_lsn o' = next_lsn b + record_total cs)
  (Eb : Overlay.next_batch_id o' = next_batch_id b + len cs).

(** The counters that opening finds are within those that the group would have reached. *)
Lemma crash_counters ss' (base := base_lsn (Overlay.overlay_new b)) :
  log_last (next_lsn b - 1) ss' ≤ next_lsn b - 1 + record_total cs →
  log_batch (next_batch_id b - 1) ss' ≤ next_batch_id b - 1 + len cs →
  Z.max (log_last 0 (ss ++ ss') + 1) (base + 1) ≤ Overlay.next_lsn o' ∧ log_batch 0 (ss ++ ss') + 1 ≤ Overlay.next_batch_id o'.
Proof.
  intros H1' H2'. destruct HK as [_ _ _ _ _ K6 K7 _]. fold base in K6. rewrite El, Eb, log_last_app, log_batch_app.
  pose proof (record_total_nonneg cs). pose proof (len_nonneg cs).
  destruct ss' as [|x ss']; cbn [log_last log_batch] in *; lia.
Qed.

Lemma take_commits m : take m (Wal.committed_of <$> cs) = Wal.committed_of <$> take (min m (length ps)) cs.
Proof.
  rewrite <-fmap_take. f_equal. rewrite (Forall2_length _ _ _ HF). destruct (decide (m ≤ length cs)%nat) as [Hm|Hm].
  - by rewrite Nat.min_l.
  - rewrite Nat.min_r by lia. by rewrite !take_ge by lia.
Qed.

Lemma crash_opens w c m fs :
  wal b = Some w → crash_log w ss cs c m → len c + Z.of_nat n * 2 ^ 45 ≤ U64_MAX → found (durable (file b)) c fs →
  ∃ b2 fs2 ss2 qs1 qs2 db1, open_with_wal_internal (config b) fs = (Ok b2, fs2) ∧
    qs = qs1 ++ qs2 ∧ ((length cs ≤ m)%nat → qs2 = []) ∧ group_run (limits (config b)) db qs1 (take (length qs1) rs) db1 ∧
    kept (n - writes qs) b2 ss2 (Reference.states db1) ∧ config b2 = config b ∧ fault_injector b2 = None ∧ wal_reliable b2 ∧ passes b2.
Proof.
  intros Hw (v & ss' & t & Hholds & Hcom & Hlast & Hbatch) Hroom Hfound.
  destruct Hfound as [V D Hr Vw Dw Rw Hj].
  pose proof HK as [K1 K2 K3 K4 K5 K6 K7 K8 Kr _ (w0 & Hw0 & Hid & Hh)]. rewrite Hw in Hw0. injection Hw0 as <-.
  destruct (so_wal _ _ _ _ K1) as [w0 [O1 _ _ O4 O5 _ _]]. rewrite Hw in O1. injection O1 as <-. rewrite O4 in Hlast. rewrite O5 in Hbatch.
  destruct (crash_counters ss' Hlast Hbatch) as [Hl Hb].
  destruct (go_prefixes _ _ _ _ _ _ _ _ Hg (min m (length ps))) as (qs1 & qs2 & db1 & o1 & Eqs & Hall & Hrun & Hst & Hnew & Hrep); [lia|].
  destruct (recoverable_stages _ _ _ (take (min m (length ps)) cs) _ _ _ Hst ltac:(by apply Forall2_take) K2) as (HR & Hbase & Hhead & Hrev).
  rewrite take_commits in Hcom. rewrite <-Hcom in HR.
  destruct (unsaved_app _ _ _ _ _ _ HR Hbase K8) as [Hlive Hend]. rewrite <-commits_app in Hlive, Hend. rewrite <-Hlive in HR.
  destruct (id Hholds) as [_ _ Hu _ _ _ _ Hbytes Hlen]. pose proof (hl_log _ _ _ _ _ _ Hholds) as Hlog.
  assert (Hlog0 : log_ok 0 0 (ss ++ ss')) by (eapply log_ok_weaken; [exact Hlog|ulia|done]).
  set (l := Z.max (log_last 0 (ss ++ ss') + 1) (base_lsn (Overlay.overlay_new b) + 1)) in *. set (k := log_batch 0 (ss ++ ss') + 1) in *.
  assert (Hrl : Overlay.next_revision o1 ≤ l).
  { rewrite Hrev. destruct (last (take (min m (length ps)) cs)) as [x|] eqn:Ex.
    - apply last_Some_elem_of, (list_elem_of_fmap_2 Wal.committed_of) in Ex. rewrite <-Hcom in Ex.
      assert (Wal.committed_of x ∈ commits (ss ++ ss')) as Hx by (rewrite commits_app, elem_of_app; by right).
      pose proof (commit_before_last _ _ _ _ Hlog0 Hx) as Hle. change (Wal.batch_commit_lsn _) with (Wal.commit_lsn x) in Hle. lia.
    - destruct (so_represents _ _ _ _ K1) as (G & ht & fl & _ & _ & [_ _ Hrv _ _ _] & _).
      apply log_ok_app in Hlog0 as [_ Hlog']. apply log_last_ge in Hlog'. rewrite <-log_last_app in Hlog'.
      change (next_revision b ≤ l). change (0 < next_revision b ≤ next_lsn b) in Hrv. lia. }
  assert (Hbase2 : base_lsn (Overlay.set_next_batch_id k (Overlay.set_next_lsn l o1)) = base_lsn o1) by done.
  destruct (reopen_kept (config b) (volatile (file b)) (ss ++ ss') (Overlay.set_next_batch_id k (Overlay.set_next_lsn l o1))
    (n - writes qs) (Reference.states db1) fs) as (b2 & fs2 & Ho & Hk & Hrest); try done.
  - exact (recoverable_counters _ _ _ _ l k HR).
  - by apply Hrep.
  - change (Overlay.next_revision o1 ≤ latest (base_lsn o1) (commits (ss ++ ss')) + 1). rewrite Hrev, Hbase, commits_app, Hcom. by apply latest_app.
  - change (Overlay.sh_limits (Overlay.header (Overlay.store o1)) = limits (config b)). by rewrite Hhead.
  - by apply Hnew.
  - rewrite Hbase2, Hbase. done.
  - by rewrite V.
  - by rewrite D.
  - rewrite <-Hid, Hbase2, Hbase. eapply torn_log_opens; [by rewrite Vw|by rewrite Vw, Dw|done|].
    rewrite Hbytes, len_app in Hroom. pose proof (len_nonneg t). lia.
  - exists b2, fs2, (ss ++ ss'), qs1, qs2, db1. split_and!; try done; try apply Hrest.
    intros Hm. apply Hall. rewrite (Forall2_length _ _ _ HF). lia.
Qed.
End crash.

(** Of the log, the crash left [c]. *)
Definition crashed b (c : bytes) : Prop := ∃ w, wal b = Some w ∧ crash_image (Wal.file w) c.

(** What opening the files after a crash in a group [qs] gives: the database after
    some first requests of it, with the results that the group had for them. *)
Definition recovered n b db qs (all : list (Result Error TransactionResult) → Prop) (fs : TheFiles) : Prop :=
  ∃ b2 fs2 ss2 qs1 qs2 rs db1, open_with_wal_internal (config b) fs = (Ok b2, fs2) ∧
    qs = qs1 ++ qs2 ∧ group_run (limits (config b)) db qs1 (take (length qs1) rs) db1 ∧
    (∀ rs', all rs' → qs2 = [] ∧ group_run (limits (config b)) db qs rs' db1) ∧
    kept (n - writes qs) b2 ss2 (Reference.states db1) ∧ config b2 = config b ∧ fault_injector b2 = None ∧ wal_reliable b2 ∧ passes b2.

Lemma recovered_weaken n b db qs (all all' : list (Result Error TransactionResult) → Prop) fs :
  (∀ rs, all' rs → all rs) → recovered n b db qs all fs → recovered n b db qs all' fs.
Proof.
  intros Hi (b2 & fs2 & ss2 & qs1 & qs2 & rs & db1 & ? & ? & ? & Ha & ?). exists b2, fs2, ss2, qs1, qs2, rs, db1.
  do 3 (split; [done|]). split; [auto|done].
Qed.

Lemma group_run_length lim db qs rs db' : group_run lim db qs rs db' → length rs = length qs.
Proof. induction 1; simpl; congruence. Qed.

Lemma left_recovered n b ss db qs ps cs rs db' o' b' (all : Prop) c fs :
  kept n b ss (Reference.states db) → group_ok n db qs (Overlay.overlay_new b) ps rs db' o' →
  left_log all ss ps cs o' b b' → len c + Z.of_nat n * 2 ^ 45 ≤ U64_MAX → crashed b' c → found (durable (file b')) c fs →
  recovered n b db qs (λ rs', all ∧ rs' = rs) fs.
Proof.
  intros HK Hg ((V & D & _) & w & w' & Hw & Hw' & _ & HF & _ & _ & El & Eb & Hc) Hroom (w'' & Hw'' & Hci) Hfound.
  rewrite Hw' in Hw''. injection Hw'' as <-. rewrite D in Hfound.
  destruct (Hc c ltac:(lia) Hci) as (m & Hlog & Hall).
  destruct (crash_opens n b ss db qs ps cs rs db' o' HK Hg HF El Eb w c m fs Hw Hlog Hroom Hfound)
    as (b2 & fs2 & ss2 & qs1 & qs2 & db1 & Ho & Eqs & Hend & Hrun & Hk & Hrest).
  exists b2, fs2, ss2, qs1, qs2, rs, db1. split_and!; try apply Hrest; try done. intros rs' [Ha ->].
  specialize (Hend (Hall Ha)). split; [done|]. rewrite Hend, app_nil_r in Eqs. subst qs1.
  by rewrite take_ge in Hrun by (rewrite (group_run_length _ _ _ _ _ (go_reference _ _ _ _ _ _ _ _ Hg)); lia).
Qed.

Lemma group_crash n b ss db qs c fs :
  kept n b ss (Reference.states db) → (writes qs ≤ n)%nat → Forall keys_fit qs → short_keys (Reference.states db) →
  len c + Z.of_nat n * 2 ^ 45 ≤ U64_MAX →
  let '(r, b') := apply_transaction_group qs b in
  crashed b' c → found (durable (file b')) c fs →
  recovered n b db qs (λ rs, r = Ok rs) fs.
Proof.
  intros HK Hn Hwf Hsh Hroom. pose proof (apply_group_spec n b ss db qs (kp_store _ _ _ _ HK) Hn Hwf Hsh) as Hs.
  unfold wp in Hs. destruct (apply_transaction_group qs b) as [[rs|e|k] b'] eqn:Er; [..|done]; intros Hc Hf.
  - destruct Hs as [_ _ _ _ _ _ (ps & cs & db' & o' & Hg & Hl & _)].
    eapply recovered_weaken; [|by eapply left_recovered]. by intros rs' [= ->].
  - destruct Hs as [_ [(_ & _ & _ & ps & cs & rs & db' & o' & Hg & Hl)|(rs & [_ _ _ _ _ _ (ps & cs & db' & o' & Hg & Hl & _)])]];
      (eapply recovered_weaken; [|by eapply left_recovered]; done).
Qed.
End kept.
End Durability.
