(* ===== verification/CheckpointFile.v ===== *)
(** * The data file of a checkpoint

    The two states that a checkpoint writes to the data file and syncs: the dirty
    pages with the newest superblock, and then the superblock that names the newest
    commit as the checkpoint.  In the first the log still has to be redone and may be;
    in the second it is not needed any more. *)

From S2P Require Import Prelude Wp Key Core Page Superblock Format FormatLaws Reference Cache Overlay Tree TreeSearch.
From S2P Require Import OverlayReads TreeOps TreeTxn DurableFile Wal WalFrames WalReplay WalRecovery WalAppend WalCrash WalReset.
From S2P Require Import StoreFile Checker Store StoreSpec StorePublish StoreTxn StoreNew CheckerSpec Redo Recovery Reopen Durability.

Module CheckpointFile.
Import Core FormatLaws DurableFile StoreFile Store StoreSpec OverlayReads Tree TreeOps TreeTxn.
Import WalFrames WalReplay WalRecovery WalAppend WalCrash StorePublish StoreTxn StoreNew Redo Recovery Reopen Durability.

Section file.
Context `{C : Crc32c} {CS : Crc32cSpec C} `{FS : DurableFileSpec F} `{WS : DurableFileSpec W} `{JS : FaultInjectorSpec J}.
Abbreviation Store := (BTreeStore F W J).
Implicit Types (b : Store) (o : Overlay.Overlay Store).

(** The page [i] of the file [v], when the file was extended with zeros. *)
Definition padded (v : bytes) (i : PageId) : bytes :=
  if decide (i * PAGE_SIZE + PAGE_SIZE ≤ len v) then page_at v i else zeros PAGE_SIZE.

(** A file [c] in which any of the pages that differ in [v'] have replaced those of
    [v].  A data page may also have been torn, which its checksum shows. *)
Record page_mix (v v' c : bytes) : Prop := {
  pm_length : ∃ k, len c = k * PAGE_SIZE ∧ len v ≤ len c ≤ len v';
  pm_pages : ∀ i, 0 ≤ i → i * PAGE_SIZE + PAGE_SIZE ≤ len c →
    page_at c i = padded v i ∨ page_at c i = page_at v' i ∨
    FIRST_DATA_PAGE ≤ i ∧ page_at v' i ≠ padded v i ∧ (∀ d, Page.decode_page_at (page_at c i) (Some i) ≠ Ok d);
}.

(** A file in which any part of what was dirty was written. *)
Record partly b (c : bytes) : Prop := {
  pt_length : ∃ hw, len c = (hw + 1) * PAGE_SIZE ∧ hw ≤ high_water_page_id b ∧ len (volatile (file b)) ≤ len c;
  pt_pages : ∀ i, 0 ≤ i → i * PAGE_SIZE + PAGE_SIZE ≤ len c →
    page_at c i = padded (volatile (file b)) i ∨ dirty_pages b !! i = Some (page_at c i) ∨
    i = slot_page (active_slot b) ∧ dirty_superblock b = Some (page_at c i) ∨
    FIRST_DATA_PAGE ≤ i ∧ is_Some (dirty_pages b !! i) ∧ (∀ d, Page.decode_page_at (page_at c i) (Some i) ≠ Ok d);
}.

(** The file [v] with what was dirty in it. *)
Record flushed b (v1 : bytes) : Prop := {
  fl_length : len v1 = (high_water_page_id b + 1) * PAGE_SIZE;
  fl_dirty : ∀ i x, dirty_pages b !! i = Some x → page_at v1 i = x;
  fl_slot : ∀ x, dirty_superblock b = Some x → page_at v1 (slot_page (active_slot b)) = x;
  fl_other : ∀ i, 0 ≤ i ≤ high_water_page_id b → dirty_pages b !! i = None →
    dirty_superblock b = None ∨ i ≠ slot_page (active_slot b) →
    page_at v1 i = padded (volatile (file b)) i;
}.

Lemma flushed_partly b v1 : len (volatile (file b)) ≤ len v1 → flushed b v1 → partly b v1.
Proof.
  intros Hle [F1 F2 F3 F4]. split; [by exists (high_water_page_id b)|]. intros i Hi Hin.
  destruct (dirty_pages b !! i) as [x|] eqn:Ex; [right; left; by rewrite (F2 i x)|].
  assert (i ≤ high_water_page_id b) by (rewrite F1 in Hin; unfold Page.PAGE_SIZE in *; lia).
  destruct (dirty_superblock b) as [x|] eqn:Es.
  - destruct (decide (i = slot_page (active_slot b))) as [->|Hne]; [|left; auto]. right. right. left. by rewrite (F3 x).
  - left. auto.
Qed.

(** Files with the same pages. *)
Lemma pages_eq (c v : bytes) k :
  len c = k * PAGE_SIZE → len v = len c → (∀ i, 0 ≤ i → i * PAGE_SIZE + PAGE_SIZE ≤ len c → page_at c i = page_at v i) → c = v.
Proof.
  intros Hk Hl Hp. assert (HP : PAGE_SIZE = 4096) by done. apply list_eq. intros q. destruct (decide (Z.of_nat q < len c)) as [Hq|Hq].
  - set (i := Z.of_nat q / PAGE_SIZE). pose proof (Z.div_mod (Z.of_nat q) PAGE_SIZE ltac:(by rewrite HP)) as Hdm.
    pose proof (Z.mod_pos_bound (Z.of_nat q) PAGE_SIZE ltac:(by rewrite HP)) as Hmod. fold i in Hdm.
    assert (0 ≤ i) by (apply Z.div_pos; [lia|by rewrite HP]).
    assert (Hin : i * PAGE_SIZE + PAGE_SIZE ≤ len c) by (rewrite Hk, HP in *; nia).
    specialize (Hp i ltac:(done) Hin). apply (f_equal (λ l, l !! Z.to_nat (Z.of_nat q mod PAGE_SIZE))) in Hp. unfold page_at in Hp.
    rewrite !slice_lookup in Hp by lia. rewrite decide_True in Hp by lia. rewrite decide_True in Hp by lia.
    by replace (Z.to_nat (i * PAGE_SIZE) + Z.to_nat (Z.of_nat q mod PAGE_SIZE))%nat with q in Hp by lia.
  - unfold len in *. by rewrite !lookup_ge_None_2 by lia.
Qed.

Lemma mix_refl v c : page_mix v v c → c = v.
Proof.
  intros [(k & Hk & Hl) M]. apply (pages_eq c v k); [done|lia|]. intros i Hi Hin.
  assert (padded v i = page_at v i) as Ep by (unfold padded; by rewrite decide_True by lia).
  by destruct (M i Hi Hin) as [->|[E|(_ & Hne & _)]].
Qed.

(** A file that was changed in the page of one superblock. *)
Lemma mix_slot v v' c sl :
  len v' = len v → (∀ i, 0 ≤ i → i ≠ slot_page sl → page_at v' i = page_at v i) → page_mix v v' c → c = v ∨ c = v'.
Proof.
  intros Hl Hs [(k & Hk & Hc) M]. assert (HP : PAGE_SIZE = 4096) by done.
  assert (Hall : ∀ i, 0 ≤ i → i * PAGE_SIZE + PAGE_SIZE ≤ len c → i ≠ slot_page sl → page_at c i = page_at v i ∧ page_at c i = page_at v' i).
  { intros i Hi Hin Hne. specialize (Hs i Hi Hne). assert (padded v i = page_at v i) as Ep by (unfold padded; by rewrite decide_True by lia).
    destruct (M i Hi Hin) as [E|[E|(_ & Hne' & _)]]; split; congruence. }
  destruct (decide (slot_page sl * PAGE_SIZE + PAGE_SIZE ≤ len c)) as [Hin|Hout].
  - assert (Hsl : 0 ≤ slot_page sl ≤ 1) by (destruct sl; simpl; lia).
    destruct (M (slot_page sl) ltac:(lia) Hin) as [E|[E|(Hge & _)]].
    + left. apply (pages_eq c v k); [done|lia|]. intros i Hi Hi'. destruct (decide (i = slot_page sl)) as [->|Hne]; [|by apply Hall].
      rewrite E. unfold padded. by rewrite decide_True by lia.
    + right. apply (pages_eq c v' k); [done|lia|]. intros i Hi Hi'. destruct (decide (i = slot_page sl)) as [->|Hne]; [done|by apply Hall].
    + unfold FIRST_DATA_PAGE, Overlay.FIRST_DATA_PAGE in Hge. lia.
  - left. apply (pages_eq c v k); [done|lia|]. intros i Hi Hi'. apply Hall; [done|done|]. intros ->. lia.
Qed.

(** What a crash leaves of a file that was being flushed. *)
Lemma mix_partly b v1 c : partly b v1 → page_mix (volatile (file b)) v1 c → partly b c.
Proof.
  intros [(hw & L1 & L2 & L3) P] [(k & M1 & M2) M]. assert (HP : PAGE_SIZE = 4096) by done. split.
  { exists (k - 1). split; [|split; [lia|lia]]. rewrite M1. f_equal. lia. }
  intros i Hi Hin. destruct (M i Hi Hin) as [?|[E|(Hge & Hne & Ht)]]; [by left| |].
  - rewrite E. apply P; lia.
  - destruct (P i Hi ltac:(lia)) as [?|[Hd|[(-> & _)|(_ & Hd & _)]]]; [done| | |].
    + right. right. right. split; [done|]. by rewrite Hd.
    + unfold FIRST_DATA_PAGE, Overlay.FIRST_DATA_PAGE in Hge. destruct (active_slot b); simpl in Hge; lia.
    + right. right. by right.
Qed.

Section partly.
Context (n : nat) (b : Store) (ss : list Segment) (s : gmap DocumentKey RevisionState) (c : bytes).
Hypotheses (HK : kept n b ss s) (HT : partly b c).
Abbreviation v := (volatile (file b)).
Abbreviation bs := (unsaved b ss).
Abbreviation o := (Overlay.overlay_new b).

Lemma partly_range : 3 * PAGE_SIZE ≤ len v ∧ len v ≤ len c.
Proof.
  destruct (rc_length _ _ _ _ (kp_recoverable _ _ _ _ HK)) as (hw & Hhw & Hl & _). destruct (pt_length _ _ HT) as (hw' & _ & _ & ?).
  rewrite Hl in *. unfold FIRST_DATA_PAGE, Overlay.FIRST_DATA_PAGE, Page.PAGE_SIZE in *. lia.
Qed.

(** A page that the log says nothing of stays as it was. *)
Lemma partly_same i :
  0 ≤ i → i * PAGE_SIZE + PAGE_SIZE ≤ len c → last (images_of i (log_images bs)) = None → page_at c i = padded v i.
Proof.
  intros Hi Hin Hl. destruct (kp_dirty _ _ _ _ HK) as [Hd Hs].
  destruct (pt_pages _ _ HT i Hi Hin) as [?|[E|[(-> & E)|(_ & [x E] & _)]]]; [done| | |].
  - destruct (Hd i _ E) as [_ [y Hy]]. congruence.
  - rewrite E in Hs. destruct Hs as [[y Hy] _]. congruence.
  - destruct (Hd i _ E) as [_ [y Hy]]. congruence.
Qed.

Lemma padded_slot i : is_slot i → padded v i = page_at v i ∧ 0 ≤ i ∧ i * PAGE_SIZE + PAGE_SIZE ≤ len c.
Proof.
  intros Hi. pose proof partly_range as [H1' H2']. unfold padded. rewrite decide_True by (destruct Hi; unfold Page.PAGE_SIZE in *; lia).
  destruct Hi; unfold Page.PAGE_SIZE in *; split_and!; try done; lia.
Qed.

Lemma partly_final i : is_slot i → final c bs i = final v bs i.
Proof.
  intros Hi. unfold final. destruct (last (images_of i (log_images bs))) eqn:El; [done|].
  destruct (padded_slot i Hi) as (E & H1' & H2'). by rewrite partly_same, E.
Qed.

(** The copies of the superblock. *)
Lemma partly_slot sl :
  page_at c (slot_page sl) = page_at v (slot_page sl) ∨ sl = active_slot b ∧ dirty_superblock b = Some (page_at c (slot_page sl)).
Proof.
  pose proof (slot_page_slot sl) as Hi. destruct (padded_slot _ Hi) as (E & H1' & H2'). destruct (kp_dirty _ _ _ _ HK) as [Hd _].
  destruct (pt_pages _ _ HT _ H1' H2') as [Es|[Ed|[(Es & ?)|(Hge & _)]]].
  - left. by rewrite Es.
  - destruct (Hd _ _ Ed) as [Hge _]. unfold Overlay.FIRST_DATA_PAGE in Hge. destruct Hi as [Hi|Hi]; rewrite Hi in Hge; lia.
  - right. split; [|done]. by destruct sl, (active_slot b).
  - unfold FIRST_DATA_PAGE, Overlay.FIRST_DATA_PAGE in Hge. destruct Hi as [Hi|Hi]; rewrite Hi in Hge; lia.
Qed.

Lemma partly_copy sl : slot_copy o sl (page_at c (slot_page sl)).
Proof.
  destruct (partly_slot sl) as [->|[-> Hx]]; [apply (rc_copies _ _ _ _ (kp_recoverable _ _ _ _ HK))|].
  destruct (kp_dirty _ _ _ _ HK) as [_ Hs]. rewrite Hx in Hs. exists (current_superblock b). split; [apply Hs|]. split; [done|]. by intros [].
Qed.

(** The newest superblock is selected, when it is in the file. *)
Lemma partly_selects :
  Superblock.decode_superblock (page_at c (slot_page (active_slot b))) = Ok (current_superblock b) →
  Superblock.choose_superblock (page_at c 0) (page_at c 1) = Ok (Superblock.mkSelected (active_slot b) (current_superblock b)).
Proof.
  intros Hs. pose proof (partly_copy Superblock.A) as HA. pose proof (partly_copy Superblock.B) as HB. cbn [slot_page] in *.
  unfold Superblock.choose_superblock. destruct HA as (sa & Da & La & Sa), HB as (sb & Db & Lb & Sb). rewrite Da, Db.
  change (Overlay.current_superblock o) with (current_superblock b) in *. change (Overlay.active_slot o) with (active_slot b) in *.
  destruct (active_slot b) eqn:Eslot; cbn [slot_page] in Hs.
  - rewrite Hs in Da. injection Da as <-. by rewrite (proj2 (Z.leb_le _ _)).
  - rewrite Hs in Db. injection Db as <-. destruct (Sa ltac:(done)) as [?|Hlt]; [done|]. by rewrite (proj2 (Z.leb_gt _ _)) by lia.
Qed.

(** The log can still be redone. *)
Lemma partly_recoverable : recoverable (store_identity (config b)) c bs o.
Proof.
  pose proof partly_range as [H1' H2']. assert (HP : PAGE_SIZE = 4096) by done.
  pose proof partly_same as Hsame. pose proof partly_final as Hfin. pose proof partly_copy as Hcopy. pose proof partly_slot as Hslot.
  pose proof partly_selects as Hsel. destruct (pt_length _ _ HT) as (hw & Hlen & Hhw & _). pose proof (kp_dirty _ _ _ _ HK) as [Hd Hs].
  destruct (kp_recoverable _ _ _ _ HK) as [R1 R2 R3 R3b R4 R5 R6 R7 R8 R9 Rc R10 R11]. split; try done.
  - destruct R1 as (hw0 & Hhw0 & Hl & Hor). exists hw. split; [unfold Overlay.FIRST_DATA_PAGE in *; split; [lia|exact Hhw]|]. split; [done|].
    destruct Hor as [->|?]; [left|by right]. change (Overlay.high_water_page_id o) with (high_water_page_id b) in *. lia.
  - intros i d Hi Hdec. assert (Hin : i * PAGE_SIZE + PAGE_SIZE ≤ len c).
    { apply decode_long in Hdec as [Hd' _]. unfold page_at in Hd'. unfold Overlay.FIRST_DATA_PAGE in Hi.
      eapply slice_len_inv; [| |rewrite Hd']; rewrite ?HP; lia. }
    unfold Overlay.FIRST_DATA_PAGE in Hi. destruct (pt_pages _ _ HT i ltac:(lia) Hin) as [E|[E|[(-> & _)|(_ & _ & Ht)]]].
    + rewrite E in Hdec |- *. unfold padded in *. case_decide; [|by apply decode_long in Hdec as [_ []]]. by apply R5.
    + right. destruct (Hd i _ E) as [_ [y Hy]]. apply last_Some_elem_of in Hy. by apply (list_elem_of_fmap_2 snd) in Hy.
    + destruct (active_slot b); simpl in Hi; lia.
    + by destruct (Ht d).
  - intros i. rewrite R6. destruct (last (images_of i (log_images bs))) as [y|] eqn:El; [done|].
    unfold file_page. destruct (Z.leb_spec 0 i) as [Hi|]; [|done]. cbn [andb].
    destruct (Z.leb_spec (i * PAGE_SIZE + PAGE_SIZE) (len c)) as [Hin|Hout]; [|by rewrite (proj2 (Z.leb_gt _ (len v))) by lia].
    rewrite Hsame by done. unfold padded. case_decide as Hd'; [by rewrite (proj2 (Z.leb_le _ (len v)))|].
    rewrite (proj2 (Z.leb_gt _ (len v))) by lia. unfold decode_page_bytes.
    destruct (Page.decode_page_at (zeros PAGE_SIZE) (Some i)) eqn:E; [by apply decode_long in E as [_ []]|done..].
  - intros i Hi. rewrite Hfin by done. by apply R7.
  - rewrite !Hfin by (unfold is_slot; auto). done.
  - destruct (Hslot Superblock.A) as [EA|[Ea Hx]]; [destruct (Hslot Superblock.B) as [EB|[Ea Hx]]|].
    + cbn [slot_page] in EA, EB. by rewrite EA, EB.
    + rewrite Ea in Hx. rewrite Hx in Hs. exists (Superblock.mkSelected (active_slot b) (current_superblock b)). split; [apply Hsel, Hs|]. by split.
    + rewrite Ea in Hx. rewrite Hx in Hs. exists (Superblock.mkSelected (active_slot b) (current_superblock b)). split; [apply Hsel, Hs|]. by split.
  - intros sl. split; [done|]. rewrite Hfin by apply slot_page_slot. apply Rc.
Qed.
End partly.

Section flushed.
Context (n : nat) (b : Store) (ss : list Segment) (s : gmap DocumentKey RevisionState) (v1 : bytes).
Hypotheses (HK : kept n b ss s) (HF : flushed b v1).
Abbreviation v := (volatile (file b)).
Abbreviation bs := (unsaved b ss).
Abbreviation o := (Overlay.overlay_new b).

Lemma flushed_range : FIRST_DATA_PAGE ≤ high_water_page_id b ∧ len v ≤ len v1 ∧ 3 * PAGE_SIZE ≤ len v.
Proof.
  destruct (rc_length _ _ _ _ (kp_recoverable _ _ _ _ HK)) as (hw & Hhw & Hl & _). change (Overlay.high_water_page_id o) with (high_water_page_id b) in Hhw.
  rewrite (fl_length _ _ HF), Hl. unfold FIRST_DATA_PAGE, Overlay.FIRST_DATA_PAGE, Page.PAGE_SIZE in *. lia.
Qed.

Lemma flushed_part : partly b v1.
Proof. apply flushed_partly; [apply flushed_range|done]. Qed.

Lemma flushed_copy sl : slot_copy o sl (page_at v1 (slot_page sl)).
Proof. exact (partly_copy n b ss s v1 HK flushed_part sl). Qed.

(** The superblock that is selected is the one in memory, or a copy that opening has
    written. *)
Lemma flushed_selects :
  selects b v1 ∧ (∀ x, dirty_superblock b = Some x →
    Superblock.choose_superblock (page_at v1 0) (page_at v1 1) = Ok (Superblock.mkSelected (active_slot b) (current_superblock b))).
Proof.
  destruct (kp_dirty _ _ _ _ HK) as [_ Hs]. destruct (dirty_superblock b) as [x|] eqn:Ex.
  - assert (Hc : Superblock.choose_superblock (page_at v1 0) (page_at v1 1) = Ok (Superblock.mkSelected (active_slot b) (current_superblock b))).
    { apply (partly_selects n b ss s v1 HK flushed_part). rewrite (fl_slot _ _ HF x Ex). apply Hs. }
    split; [|done]. by exists (current_superblock b).
  - split; [|done]. assert (∀ sl, page_at v1 (slot_page sl) = page_at v (slot_page sl)) as E.
    { intros sl. destruct (partly_slot n b ss s v1 HK flushed_part sl) as [?|[_ ?]]; [done|congruence]. }
    unfold selects. pose proof (E Superblock.A) as EA. pose proof (E Superblock.B) as EB. cbn [slot_page] in EA, EB. rewrite EA, EB. apply Hs.
Qed.

(** Every page of the store is in the file. *)
Lemma flushed_view i : file_page v1 i = view o i.
Proof.
  destruct flushed_range as (Hh & H1' & H2'). assert (HP : PAGE_SIZE = 4096) by done.
  change (view o i) with (committed_page b i). unfold committed_page, committed_bytes, file_page. destruct (kp_dirty _ _ _ _ HK) as [Hd _].
  destruct (dirty_pages b !! i) as [x|] eqn:Ex.
  - destruct (Hd i x Ex) as [Hi [c Hc]]. apply last_Some_elem_of, images_of_elem in Hc as (y & Hy & Hyi & _).
    destruct (rc_images _ _ _ _ (kp_recoverable _ _ _ _ HK) _ Hy) as [Hr _]. rewrite Hyi in Hr.
    change (Overlay.high_water_page_id o) with (high_water_page_id b) in Hr.
    rewrite (proj2 (Z.leb_le 0 i)), (proj2 (Z.leb_le _ (len v1))) by (rewrite ?(fl_length _ _ HF), ?HP; lia). cbn [andb mbind option_bind].
    by rewrite (fl_dirty _ _ HF i x Ex).
  - destruct (Z.leb_spec 0 i) as [Hi|]; [|done]. cbn [andb].
    destruct (Z.leb_spec (i * PAGE_SIZE + PAGE_SIZE) (len v1)) as [Hin|Hout].
    2:{ by rewrite (proj2 (Z.leb_gt _ (len v))) by lia. }
    destruct (decide (i = slot_page (active_slot b))) as [->|Hne].
    { destruct (flushed_copy (active_slot b)) as (sb & Hsb & _).
      destruct (rc_copies _ _ _ _ (kp_recoverable _ _ _ _ HK) (active_slot b)) as [(sb' & Hsb' & _) _].
      rewrite (superblock_not_page _ _ _ Hsb). case_match; [|done]. cbn. by rewrite (superblock_not_page _ _ _ Hsb'). }
    rewrite (fl_other _ _ HF) by (auto; rewrite (fl_length _ _ HF), HP in Hin; lia).
    unfold padded. case_decide as Hd'; [by rewrite (proj2 (Z.leb_le _ (len v)))|]. rewrite (proj2 (Z.leb_gt _ (len v))) by lia. cbn.
    unfold decode_page_bytes. destruct (Page.decode_page_at (zeros PAGE_SIZE) (Some i)) eqn:E; [by apply decode_long in E as [_ []]|done..].
Qed.

(** The log can still be redone. *)
Lemma flushed_recoverable : recoverable (store_identity (config b)) v1 bs o.
Proof. exact (partly_recoverable n b ss s v1 HK flushed_part). Qed.
End flushed.

(** ** The checkpoint's superblock *)

(** The superblock that follows [sb] and names the checkpoint [lsn]. *)
Definition renewed (sb : Superblock) (lsn : Lsn) (sb' : Superblock) : Prop :=
  Superblock.wf sb' ∧ Superblock.generation sb' = Superblock.generation sb + 1 ∧ Superblock.checkpoint_lsn sb' = lsn ∧
  same_shard sb sb' ∧ Superblock.root_page_id sb' = Superblock.root_page_id sb ∧
  Superblock.free_list_head sb' = Superblock.free_list_head sb ∧
  Superblock.high_water_page_id sb' = Superblock.high_water_page_id sb ∧ sealed sb'.

Lemma checkpoint_superblock_ok sb lsn :
  Superblock.wf sb → Superblock.generation sb < U64_MAX → u64 lsn →
  ∃ sb' img, checkpoint_superblock sb lsn = Ok sb' ∧ renewed sb lsn sb' ∧ Superblock.encode_superblock sb' = Ok img ∧
    Superblock.decode_superblock img = Ok sb' ∧ len img = PAGE_SIZE.
Proof.
  intros Hwf Hg Hl. unfold checkpoint_superblock. rewrite checked_add_ok by lia. rsimpl.
  set (next := Superblock.mkSuperblock _ _ _ _ _ _ _ _ _ _ _ _).
  assert (Hwf' : Superblock.wf next).
  { destruct Hwf as (X1 & X2 & X3 & X4 & X5 & X6 & X7 & X8 & X9 & X10 & X11 & X12). split_and!; try done; cbn; ulia. }
  pose proof (Superblock.encode_superblock_eq next ltac:(apply Hwf') ltac:(apply Hwf')) as He. rewrite He. rsimpl.
  pose proof (Superblock.decode_encoded _ _ Hwf' He) as Hd. rewrite Hd.
  rewrite Superblock.sealed_superblock_checksum. set (c := Superblock.superblock_checksum (Superblock.image next)).
  assert (Hwf2 : Superblock.wf (Superblock.with_checksum next c)) by exact Hwf'.
  pose proof (Superblock.encode_superblock_eq (Superblock.with_checksum next c) ltac:(apply Hwf2) ltac:(apply Hwf2)) as He2.
  exists (Superblock.with_checksum next c), (Superblock.sealed (Superblock.with_checksum next c)).
  pose proof (sealed_decoded next Hwf') as Hs. split_and!; try done; [by apply Hs|apply Superblock.len_sealed_superblock].
Qed.

(** The file in which the checkpoint [lsn] is complete. *)
Record saved b (lsn : Lsn) (sb : Superblock) (v1 v2 : bytes) : Prop := {
  sv_flushed : flushed b v1;
  sv_renewed : renewed (current_superblock b) lsn sb;
  sv_length : len v2 = len v1;
  sv_slot : Superblock.decode_superblock (page_at v2 (slot_page (Overlay.other_slot (active_slot b)))) = Ok sb;
  sv_pages : ∀ i, 0 ≤ i → i ≠ slot_page (Overlay.other_slot (active_slot b)) → page_at v2 i = page_at v1 i;
}.

Section saved.
Context (n : nat) (b : Store) (ss : list Segment) (s : gmap DocumentKey RevisionState) (sb : Superblock) (v1 v2 : bytes).
Abbreviation lsn := (latest (base_lsn (Overlay.overlay_new b)) (commits ss)).
Hypotheses (HK : kept n b ss s) (HS : saved b lsn sb v1 v2).
Abbreviation o := (Overlay.overlay_new b).
Abbreviation other := (Overlay.other_slot (active_slot b)).

(** The store with the new superblock. *)
Definition renew : Overlay.Overlay Store := Overlay.set_current_superblock sb other o.

Lemma latest_bound : base_lsn o ≤ lsn < next_revision b.
Proof.
  pose proof (rc_base _ _ _ _ (kp_recoverable _ _ _ _ HK)) as Hb. change (Overlay.next_revision o) with (next_revision b) in Hb.
  unfold latest. destruct (last (commits ss)) as [x|] eqn:E; [|lia]. split; [by apply (kp_last _ _ _ _ HK)|].
  apply last_Some_elem_of in E.
  exact (commit_lsn_bound (config b) (volatile (file b)) ss (unsaved b ss) o eq_refl (kp_recoverable _ _ _ _ HK) x E).
Qed.

Lemma saved_newer sl : slot_copy renew sl (page_at v2 (slot_page sl)).
Proof.
  destruct (sv_renewed _ _ _ _ _ HS) as (_ & Hg & _). destruct (decide (sl = other)) as [->|Hne].
  - exists sb. split; [apply (sv_slot _ _ _ _ _ HS)|]. split; [done|]. by intros [].
  - rewrite (sv_pages _ _ _ _ _ HS); [|by destruct sl|by destruct sl, (active_slot b)].
    destruct (flushed_copy n b ss s v1 HK (sv_flushed _ _ _ _ _ HS) sl) as (sb' & Hd & Hle & _). exists sb'.
    change (Superblock.generation (Overlay.current_superblock o)) with (Superblock.generation (current_superblock b)) in Hle.
    cbn [renew Overlay.current_superblock Overlay.set_current_superblock]. split_and!; [done|lia|]. intros _. right. lia.
Qed.

Lemma saved_selects : Superblock.choose_superblock (page_at v2 0) (page_at v2 1) = Ok (Superblock.mkSelected other sb).
Proof.
  destruct (sv_renewed _ _ _ _ _ HS) as (_ & Hg & _). pose proof (sv_slot _ _ _ _ _ HS) as Hs.
  destruct (flushed_copy n b ss s v1 HK (sv_flushed _ _ _ _ _ HS) (active_slot b)) as (sb' & Hd & Hle & _).
  change (Superblock.generation (Overlay.current_superblock o)) with (Superblock.generation (current_superblock b)) in Hle.
  rewrite <-(sv_pages _ _ _ _ _ HS) in Hd by (by destruct (active_slot b)).
  assert (Hlt : Superblock.generation sb' < Superblock.generation sb) by lia. revert Hd Hs. generalize (active_slot b). intros [] Hd Hs.
  - exact (choose_newer Superblock.B (page_at v2 0) (page_at v2 1) sb' sb Hd Hs Hlt).
  - exact (choose_newer Superblock.A (page_at v2 1) (page_at v2 0) sb' sb Hd Hs Hlt).
Qed.

Lemma saved_view i : file_page v2 i = view renew i.
Proof.
  change (view renew i) with (view o i). rewrite <-(flushed_view n b ss s v1 HK (sv_flushed _ _ _ _ _ HS) i). unfold file_page.
  rewrite (sv_length _ _ _ _ _ HS). destruct (Z.leb_spec 0 i) as [Hi|]; [|done]. cbn [andb]. case_match; [|done].
  destruct (decide (i = slot_page other)) as [->|Hne]; [|by rewrite (sv_pages _ _ _ _ _ HS)].
  destruct (flushed_copy n b ss s v1 HK (sv_flushed _ _ _ _ _ HS) other) as (sb' & Hd & _).
  by rewrite (superblock_not_page _ _ _ Hd), (superblock_not_page _ _ _ (sv_slot _ _ _ _ _ HS)).
Qed.

(** The log is not needed any more. *)
Lemma saved_recoverable : recoverable (store_identity (config b)) v2 [] renew.
Proof.
  pose proof latest_bound as Hb. pose proof saved_newer as Hcopy. pose proof saved_selects as Hsel. pose proof saved_view as Hview.
  destruct (sv_renewed _ _ _ _ _ HS) as (Hwf & Hg & Hck & (I1 & I2 & I3 & I4) & M1 & M2 & M3 & _).
  destruct (flushed_range n b ss s v1 HK (sv_flushed _ _ _ _ _ HS)) as (Hh & H1' & H2'). pose proof (sv_length _ _ _ _ _ HS) as Hlen.
  destruct (flushed_recoverable n b ss s v1 HK (sv_flushed _ _ _ _ _ HS)) as [R1 R2 R3 R3b R4 R5 R6 R7 R8 R9 Rc R10 R11].
  assert (Hshard : shard_of sb (store_identity (config b))).
  { destruct R10 as (X1 & X2 & X3 & X4). unfold shard_of. by rewrite I1, I2, I3, I4. }
  split; unfold base_lsn; cbn [renew Overlay.set_current_superblock Overlay.current_superblock Overlay.active_slot Overlay.next_revision
    Overlay.high_water_page_id Overlay.root_page_id Overlay.free_list_head]; rewrite ?Hck, ?M1, ?M2, ?M3; try done.
  - exists (high_water_page_id b). split; [done|]. split; [|by left]. rewrite Hlen. apply (fl_length _ _ (sv_flushed _ _ _ _ _ HS)).
  - by intros y ?%not_elem_of_nil.
  - change (lsn < next_revision b). lia.
  - intros i _. constructor.
  - intros i d Hi Hd. left. split; [|constructor].
    rewrite (sv_pages _ _ _ _ _ HS) in Hd by (unfold Overlay.FIRST_DATA_PAGE in Hi; destruct (active_slot b); simpl; lia).
    destruct (R5 i d Hi Hd) as [[? _]|Hin]; [done|]. apply list_elem_of_fmap in Hin as ([c x] & Ex & Hx). cbn in Ex. subst x.
    apply images_of_elem in Hx as (y & Hy & Hyi & [= Hc Hx]). destruct (R2 y Hy) as (_ & _ & Hio).
    destruct Hio as (d' & Hd' & El). { rewrite Hyi. unfold Overlay.FIRST_DATA_PAGE, is_slot in *. lia. }
    rewrite Hyi, <-Hx in Hd'. cbn in Hd'. rewrite Hd in Hd'. injection Hd' as <-. cbn in El. rewrite El.
    apply log_images_batch in Hy as (bt & Hbt & ->). pose proof (proj1 (Forall_forall _ _) R3 bt Hbt) as Hz. apply Hz.
  - intros i. by rewrite Hview.
  - intros i Hi. unfold final. cbn. assert (∃ sl, i = slot_page sl) as [sl ->].
    { destruct Hi as [->| ->]; [by exists Superblock.A|by exists Superblock.B]. }
    destruct (Hcopy sl) as (sb' & Hd & _). by eapply superblock_not_page.
  - by exists sb.
  - by eexists.
Qed.
End saved.
End file.
End CheckpointFile.
