(* ===== verification/CheckpointSteps.v ===== *)
(** * The steps of a checkpoint

    What flushing the dirty pages, writing the checkpoint's superblock and checking
    the file leave, when any fault point may stop them. *)

From S2P Require Import Prelude Wp Key Core Page Superblock Format FormatLaws Reference Cache Overlay Tree TreeSearch.
From S2P Require Import OverlayReads TreeOps TreeTxn DurableFile Wal WalFrames WalReplay WalRecovery WalAppend WalCrash WalReset.
From S2P Require Import StoreFile Checker Store StoreSpec StorePublish StoreTxn StoreNew CheckerSpec Redo Recovery Reopen Durability.
From S2P Require Import CheckpointFile.

Module CheckpointSteps.
Import Core FormatLaws DurableFile StoreFile Store StoreSpec OverlayReads Tree TreeOps TreeTxn.
Import WalFrames WalReplay WalRecovery WalAppend WalCrash StorePublish StoreTxn StoreNew Redo Recovery Reopen Durability CheckpointFile.

Section steps.
Context `{C : Crc32c} {CS : Crc32cSpec C} `{FS : DurableFileSpec F} `{WS : DurableFileSpec W} `{JS : FaultInjectorSpec J}.
Abbreviation Store := (BTreeStore F W J).
Implicit Types (b : Store) (o : Overlay.Overlay Store) (f : F) (j : option J).

(** The store with another data file and injector. *)
Definition with_data f j b : Store := set_injector j (set_file f b).

(** The injector [j'] may follow [j]. *)
Definition after_hit j j' : Prop := j = None → j' = None.

(** The file while the dirty pages are written, the pages [d] first. *)
Record flushing b (d : list (PageId * bytes)) (v : bytes) : Prop := {
  fg_length : len v = (high_water_page_id b + 1) * PAGE_SIZE;
  fg_done : ∀ i x, (i, x) ∈ d → page_at v i = x;
  fg_other : ∀ i, 0 ≤ i ≤ high_water_page_id b → i ∉ d.*1 → page_at v i = padded (volatile (file b)) i;
}.

Section flush.
Context (n : nat) (b : Store) (ss : list Segment) (s : gmap DocumentKey RevisionState).
Hypotheses (HK : kept n b ss s).
Abbreviation v := (volatile (file b)).
Abbreviation high := (high_water_page_id b).

(** The bounds of the file. *)
Lemma flush_bounds :
  FIRST_DATA_PAGE ≤ high ∧ (high + 1) * PAGE_SIZE ≤ U64_MAX ∧ len v ≤ (high + 1) * PAGE_SIZE ∧ len v mod PAGE_SIZE = 0 ∧ reliable (file b).
Proof.
  destruct (rc_length _ _ _ _ (kp_recoverable _ _ _ _ HK)) as (hw & Hhw & Hl & _).
  change (Overlay.high_water_page_id _) with high in Hhw. destruct (so_represents _ _ _ _ (kp_store _ _ _ _ HK)) as (G & ht & fl & Hi & (_ & _ & _ & Hcap) & _).
  pose proof (reach_ge (Overlay.overlay_new b) ht n) as Hr. change (Overlay.high_water_page_id _) with high in Hr.
  assert (HP : PAGE_SIZE = 4096) by done. rewrite Hl, Z_mod_mult.
  split_and!; [unfold FIRST_DATA_PAGE, Overlay.FIRST_DATA_PAGE in *; lia|rewrite HP; unfold U32_MAX, U64_MAX in *; lia|rewrite HP; lia|done|].
  apply ss_reliable, (inv_serving _ _ _ _ _ _ _ Hi).
Qed.

Lemma dirty_page i x : dirty_pages b !! i = Some x → FIRST_DATA_PAGE ≤ i ≤ high ∧ len x = PAGE_SIZE.
Proof.
  intros Hx. destruct (kp_dirty _ _ _ _ HK) as [Hd _]. destruct (Hd i x Hx) as [Hi [c Hc]].
  apply last_Some_elem_of, images_of_elem in Hc as (y & Hy & Hyi & [= _ ->]).
  destruct (rc_images _ _ _ _ (kp_recoverable _ _ _ _ HK) _ Hy) as (Hr & Hlen & _). rewrite Hyi in Hr.
  split; [split; [exact Hi|apply Hr]|exact Hlen].
Qed.

Lemma dirty_slot x : dirty_superblock b = Some x → len x = PAGE_SIZE.
Proof.
  intros Hx. destruct (kp_dirty _ _ _ _ HK) as [_ Hs]. rewrite Hx in Hs. destruct Hs as [[c Hc] _].
  apply last_Some_elem_of, images_of_elem in Hc as (y & Hy & Hyi & [= _ ->]).
  by destruct (rc_images _ _ _ _ (kp_recoverable _ _ _ _ HK) _ Hy) as (_ & Hlen & _).
Qed.

Lemma flushing_partly d l v1 : map_iter (dirty_pages b) = d ++ l → flushing b d v1 → partly b v1.
Proof.
  intros Hd [G1 G2 G3]. destruct flush_bounds as (H1' & H2' & H3' & _). split; [exists high; by rewrite G1|]. intros i Hi Hin.
  destruct (decide (i ∈ d.*1)) as [(x & Hx & Hix)%list_elem_of_fmap|Hn].
  - destruct x as [k x]. cbn in Hx. subst k. right. left. rewrite (G2 i x Hix). apply elem_of_map_iter. rewrite Hd, elem_of_app. by left.
  - left. apply G3; [|done]. rewrite G1 in Hin. unfold Page.PAGE_SIZE in *. lia.
Qed.

Lemma flushing_page d i x l v1 :
  map_iter (dirty_pages b) = d ++ (i, x) :: l → flushing b d v1 →
  page_in v1 i ∧ len x = PAGE_SIZE ∧ flushing b (d ++ [(i, x)]) (write_page_bytes v1 i x).
Proof.
  intros Hd [G1 G2 G3]. assert (dirty_pages b !! i = Some x) as Hx by (apply elem_of_map_iter; rewrite Hd, elem_of_app; right; left).
  destruct (dirty_page i x Hx) as [Hi Hlen]. assert (HP : PAGE_SIZE = 4096) by done. unfold FIRST_DATA_PAGE, Overlay.FIRST_DATA_PAGE in Hi.
  assert (Hin : page_in v1 i) by (split; rewrite ?G1, ?HP; lia).
  pose proof (NoDup_map_iter (dirty_pages b)) as Hnd. rewrite Hd, fmap_app, fmap_cons in Hnd. cbn [fst] in Hnd.
  apply NoDup_app in Hnd as (_ & Hnot & _).
  assert (Hni : i ∉ d.*1) by (intros Hk; apply (Hnot i Hk); left). split_and!; [done|done|]. split.
  - by rewrite len_write_page.
  - intros k y [Hk|Hk%list_elem_of_singleton]%elem_of_app.
    + assert (i ≠ k) by (intros ->; apply Hni; by apply (list_elem_of_fmap_2 fst) in Hk).
      assert (0 ≤ k).
      { assert (dirty_pages b !! k = Some y) as Hy by (apply elem_of_map_iter; rewrite Hd, elem_of_app; by left).
        destruct (dirty_page k y Hy) as [Hk' _]. unfold FIRST_DATA_PAGE, Overlay.FIRST_DATA_PAGE in Hk'. lia. }
      rewrite page_at_write_ne by done. by apply G2.
    + injection Hk as -> ->. by apply page_at_write_eq.
  - intros k Hk. rewrite fmap_app, elem_of_app. intros Hn. assert (i ≠ k) by (intros ->; apply Hn; right; left).
    rewrite page_at_write_ne by (done || lia). apply G3; tauto.
Qed.

(** All of the pages and the superblock are written. *)
Lemma flushing_end v1 :
  flushing b (map_iter (dirty_pages b)) v1 →
  match dirty_superblock b with
  | Some x => page_in v1 (slot_page (active_slot b)) ∧ len x = PAGE_SIZE ∧ flushed b (write_page_bytes v1 (slot_page (active_slot b)) x)
  | None => flushed b v1
  end.
Proof.
  intros [G1 G2 G3]. destruct flush_bounds as (Hh & _). assert (HP : PAGE_SIZE = 4096) by done.
  unfold FIRST_DATA_PAGE, Overlay.FIRST_DATA_PAGE in Hh.
  assert (Hnot : ∀ i, dirty_pages b !! i = None → i ∉ (map_iter (dirty_pages b)).*1).
  { intros i Hi ([k x] & Hk & Hx)%list_elem_of_fmap. cbn in Hk. subst k. apply elem_of_map_iter in Hx. congruence. }
  destruct (dirty_superblock b) as [x|] eqn:Ex.
  - pose proof (dirty_slot x Ex) as Hlen. set (sl := slot_page (active_slot b)).
    assert (Hsl : 0 ≤ sl ≤ 1) by (unfold sl; destruct (active_slot b); simpl; lia).
    assert (Hin : page_in v1 sl) by (split; rewrite ?G1, ?HP; lia). split_and!; [done|done|]. split.
    + by rewrite len_write_page.
    + intros i y Hy. destruct (dirty_page i y Hy) as [Hi _]. unfold FIRST_DATA_PAGE, Overlay.FIRST_DATA_PAGE in Hi.
      rewrite page_at_write_ne by (done || lia). apply G2. by apply elem_of_map_iter.
    + intros y. rewrite Ex. intros [= <-]. fold sl. by rewrite page_at_write_eq.
    + intros i Hi Hn [?|Hne]; [congruence|]. rewrite page_at_write_ne by (done || lia). apply G3; auto.
  - split; [done| |congruence|].
    + intros i y Hy. apply G2. by apply elem_of_map_iter.
    + intros i Hi Hn _. apply G3; auto.
Qed.

(** What a step that works on the data file leaves: it is still old on disk. *)
Definition flush_state (P : bytes → Prop) j b' : Prop :=
  ∃ f j', b' = with_data f j' b ∧ P (volatile f) ∧ durable f = durable (file b) ∧ reliable f ∧ after_hit j j'.

Lemma flush_state_hit point P j b' Q (X : Error → Store → Prop) :
  flush_state P j b' → (∀ b'', flush_state P j b'' → Q tt b'') →
  (∀ e b'', (∃ f j', b'' = with_data f j' b ∧ P (volatile f) ∧ durable f = durable (file b) ∧ reliable f) → j ≠ None → X e b'') →
  wp (hit_fault point) Q X b'.
Proof.
  intros (f & j1 & -> & Hp & Hd & Hr & Hj) HQ HX. apply wp_hit_fault.
  - intros j2 Hj2. apply HQ. exists f, j2. split_and!; try done. intros E. by apply Hj2, Hj.
  - intros e j2 Hj2. apply HX; [by exists f, j2|]. intros E. by apply Hj2, Hj.
Qed.

Lemma write_dirty_spec f j :
  same_file (file b) f →
  wp write_dirty (λ _ b', flush_state (flushed b) j b')
    (λ _ b', (∃ f' j', b' = with_data f' j' b ∧ partly b (volatile f') ∧ durable f' = durable (file b) ∧ reliable f') ∧ j ≠ None)
    (with_data f j b).
Proof.
  intros (V & D & R). destruct flush_bounds as (Hh & Hu & Hle & Ha & Hr). assert (HP : PAGE_SIZE = 4096) by done.
  unfold FIRST_DATA_PAGE, Overlay.FIRST_DATA_PAGE in Hh. unfold write_dirty. wp_step. wp_step. wp_step.
  apply (wp_lift_ok _ ((high + 1) * PAGE_SIZE)).
  { unfold target_length, with_data. cbn [high_water_page_id set_injector set_file]. rewrite checked_add_ok by (rewrite HP in Hu; lia). cbn [ok_or mbind].
    rsimpl. unfold checked_mul. by rewrite (proj2 (Z.leb_le _ _)) by lia. }
  assert (Hext : wp (extend_file ((high + 1) * PAGE_SIZE)) (λ _ b', flush_state (flushing b []) j b') (λ _ _, False) (with_data f j b)).
  { unfold extend_file, with_data. wp_step. wp_step. wp_step. cbn [file set_injector set_file]. pose proof (file_len_spec f) as Hfl.
    destruct (file_len f) as [l|e|k]; [|destruct Hfl; auto|done]. apply wp_lift. subst l. rewrite V.
    destruct (Z.ltb_spec (len v) ((high + 1) * PAGE_SIZE)) as [Hlt|Hge].
    - apply wp_zoom. cbn [file set_injector set_file]. pose proof (len_nonneg v). wp_use (set_len_spec f ((high + 1) * PAGE_SIZE)); [lia| |].
      2:{ intros e f' (_ & _ & Hn). destruct Hn; auto. }
      intros _ f' (V' & D' & R'). exists f', j. rewrite V in V'. split_and!; [done| |congruence|auto|by intros ?]. rewrite V'. split.
      + by rewrite len_resize by lia.
      + by intros ? ? ?%not_elem_of_nil.
      + intros i Hi _. apply page_at_resize; [done|lia|lia|rewrite HP; lia].
    - apply wp_ret. exists f, j. split_and!; [done| |done|auto|by intros ?]. rewrite V. split; [lia|by intros ? ? ?%not_elem_of_nil|].
      intros i Hi _. unfold padded. rewrite decide_True by (rewrite HP in *; lia). done. }
  wp_step. wp_use Hext; [|done]. cbv beta. intros _ b1 X1. wp_step. apply (flush_state_hit _ (flushing b []) j); [done| |].
  2:{ intros e b2 (f2 & j2 & -> & P2 & D2 & R2) Hj. split; [|done]. exists f2, j2. split_and!; try done. by eapply (flushing_partly []). }
  intros b2 X2. wp_step.
  change (dirty_pages (with_data f j b)) with (dirty_pages b). change (dirty_superblock (with_data f j b)) with (dirty_superblock b).
  change (active_slot (with_data f j b)) with (active_slot b).
  eapply wp_mono; [apply (wp_for_each _ (λ l b', ∃ d, map_iter (dirty_pages b) = d ++ l ∧ flush_state (flushing b d) j b'))| |intros e b3 X3; exact X3].
  { by exists []. }
  { intros [i x] l b3 (d & Hd & X3). destruct (id X3) as (f3 & j3 & E3 & P3 & D3 & R3 & J3).
    destruct (flushing_page d i x l _ Hd P3) as (Hin & Hlen & _). cbn [fst snd]. wp_step.
    apply (flush_state_hit _ (flushing b d) j); [done| |].
    2:{ intros e b4 (f4 & j4 & -> & P4 & D4 & R4) Hj. split; [|done]. exists f4, j4. split_and!; try done. by eapply flushing_partly. }
    intros b4 (f4 & j4 & -> & P4 & D4 & R4 & J4). destruct (flushing_page d i x l _ Hd P4) as (Hin4 & _ & Hnext).
    pose proof (fg_length _ _ _ P4) as L4. unfold write_page. wp_step. apply (wp_lift_ok _ (i * PAGE_SIZE)).
    { unfold page_offset, checked_mul. destruct Hin4 as [? ?]. by rewrite (proj2 (Z.leb_le _ _)) by lia. }
    apply wp_zoom. change (file (with_data f4 j4 b)) with f4. wp_use (write_page_spec f4 i x); [done|done|lia| |].
    2:{ intros e f' (_ & _ & Hn). by destruct Hn. }
    intros _ f5 (V5 & D5 & R5). exists (d ++ [(i, x)]). split; [by rewrite <-app_assoc|].
    exists f5, j4. split_and!; [done|by rewrite V5|congruence|auto|done]. }
  cbv beta. intros _ b3 (d & Hd & X3). rewrite app_nil_r in Hd. subst d. wp_step. apply (flush_state_hit _ (flushing b (map_iter (dirty_pages b))) j); [done| |].
  2:{ intros e b4 (f4 & j4 & -> & P4 & D4 & R4) Hj. split; [|done]. exists f4, j4. split_and!; try done.
      eapply (flushing_partly _ []); [by rewrite app_nil_r|done]. }
  intros b4 (f4 & j4 & -> & P4 & D4 & R4 & J4). pose proof (flushing_end _ P4) as Hend. pose proof (fg_length _ _ _ P4) as L4.
  destruct (dirty_superblock b) as [x|]; [|apply wp_ret; by exists f4, j4]. destruct Hend as (Hin & Hlen & Hfl).
  assert (slot_offset (active_slot b) = slot_page (active_slot b) * PAGE_SIZE) as -> by (by destruct (active_slot b)).
  apply wp_zoom. change (file (with_data f4 j4 b)) with f4.
  wp_use (write_page_spec f4 (slot_page (active_slot b)) x); [done|done|lia| |].
  2:{ intros e f' (_ & _ & Hn). by destruct Hn. }
  intros _ f5 (V5 & D5 & R5). exists f5, j4. split_and!; [done|by rewrite V5|congruence|auto|done].
Qed.

(** The file before and after the flush. *)
Lemma partly_refl : partly b v.
Proof.
  destruct (rc_length _ _ _ _ (kp_recoverable _ _ _ _ HK)) as (hw & Hhw & Hl & _). split.
  - exists hw. split; [done|]. split; [apply Hhw|done].
  - intros i Hi Hin. left. unfold padded. by rewrite decide_True.
Qed.

Lemma flushed_refl : dirty_pages b = ∅ → dirty_superblock b = None → flushed b v.
Proof.
  intros E1 E2. destruct (kp_dirty _ _ _ _ HK) as [_ Hs]. rewrite E2 in Hs. destruct Hs as [_ Hl]. split; [done|..].
  - intros i x. by rewrite E1, lookup_empty.
  - intros x. by rewrite E2.
  - intros i Hi _ _. unfold padded. rewrite decide_True; [done|]. rewrite Hl. unfold Page.PAGE_SIZE. lia.
Qed.

(** What a flush that was stopped leaves, and what a flush that returns leaves. *)
Definition unfinished b' : Prop :=
  wal b' = wal b ∧ config b' = config b ∧
  (durable (file b') = v ∧ partly b (volatile (file b')) ∨ flushed b (durable (file b')) ∧ volatile (file b') = durable (file b')).

Definition flush_done j b' : Prop :=
  ∃ f j', b' = set_dirty ∅ None (with_data f j' b) ∧ flushed b (volatile f) ∧ durable f = volatile f ∧ reliable f ∧ after_hit j j'.

Lemma flush_dirty_spec f j w :
  same_file (file b) f → wal b = Some w →
  wp flush_dirty_pages (λ _ b', flush_done j b') (λ _ b', unfinished b' ∧ j ≠ None) (with_data f j b).
Proof.
  intros Hs Hw. destruct flush_bounds as (_ & _ & _ & _ & Hr). pose proof (kp_durable _ _ _ _ HK) as Hdur.
  destruct (id Hs) as (V & D & R). unfold flush_dirty_pages. wp_step. wp_step.
  change (wal (with_data f j b)) with (wal b). change (dirty_pages (with_data f j b)) with (dirty_pages b).
  change (dirty_superblock (with_data f j b)) with (dirty_superblock b). rewrite Hw.
  destruct (bool_decide (dirty_pages b = ∅) && bool_decide (dirty_superblock b = None)) eqn:Eb.
  { apply andb_prop in Eb as [E1%bool_decide_eq_true E2%bool_decide_eq_true]. apply wp_ret. exists f, j.
    split_and!; [destruct b; cbn in *; by subst|rewrite V; by apply flushed_refl|congruence|auto|by intros ?]. }
  wp_step. apply wp_or_broken. wp_use (write_dirty_spec f j); [done| |].
  2:{ cbv beta. intros e b' ((f' & j' & -> & P & Df & _) & Hj). split; [|done]. split; [done|]. split; [done|]. left. cbn. split; [congruence|done]. }
  assert (Hold : ∀ (e : Error) b', (∃ f j', b' = with_data f j' b ∧ flushed b (volatile f) ∧ durable f = durable (file b) ∧ reliable f) → j ≠ None →
    unfinished (set_broken (Some (to_string e)) b') ∧ j ≠ None).
  { intros e b' (f' & j' & -> & P & Df & _) Hj. split; [|done]. split; [done|]. split; [done|]. left. cbn. split; [congruence|].
    exact (flushed_part n b ss s _ HK P). }
  cbv beta. intros _ b1 X1. wp_step. apply wp_or_broken, (flush_state_hit _ (flushed b) j); [done| |by apply Hold].
  intros b2 X2. wp_step. apply wp_or_broken, (flush_state_hit _ (flushed b) j); [done| |by apply Hold].
  intros b3 (f3 & j3 & -> & P3 & D3 & R3 & J3). wp_step. apply wp_or_broken. apply wp_zoom. change (file (with_data f3 j3 b)) with f3.
  wp_use (sync_data_spec f3).
  2:{ intros e f' (_ & _ & Hn). by destruct Hn. }
  intros _ f4 (V4 & D4 & R4). wp_step. wp_step.
  change (set_dirty ∅ None (set_file f4 (with_data f3 j3 b))) with (set_dirty ∅ None (with_data f4 j3 b)).
  assert (Hdone : ∀ j5, after_hit j j5 → flush_done j (set_dirty ∅ None (with_data f4 j5 b))).
  { intros j5 Hj5. exists f4, j5. split_and!; [done|by rewrite V4|congruence|auto|done]. }
  apply wp_hit_fault.
  - intros j5 Hj5. apply (Hdone j5). intros E. by apply Hj5, J3.
  - intros e j5 Hj5. split; [|intros E; by apply Hj5, J3]. split; [done|]. split; [done|]. right. cbn. by rewrite D4, V4.
Qed.

(** ** The superblock of the checkpoint *)

Abbreviation lsn := (latest (base_lsn (Overlay.overlay_new b)) (commits ss)).
Abbreviation other := (Overlay.other_slot (active_slot b)).

(** The new checkpoint is in range. *)
Lemma latest_range : Superblock.wf (current_superblock b) ∧ 0 ≤ base_lsn (Overlay.overlay_new b) ≤ lsn ∧ lsn < U64_MAX.
Proof.
  pose proof (latest_bound n b ss s HK) as [Hb1 Hb2].
  destruct (so_represents _ _ _ _ (kp_store _ _ _ _ HK)) as (G & ht & fl & Hi & (Hc & _) & [_ _ Hrv _ Hwf _] & _).
  pose proof (reach_ge (Overlay.overlay_new b) ht n). pose proof (inv_high _ _ _ _ _ _ _ Hi). unfold Overlay.FIRST_DATA_PAGE in *.
  pose proof (Z.mul_nonneg_nonneg (Z.of_nat n + 1) (reach (Overlay.overlay_new b) ht n + 2)).
  change (0 < next_revision b ≤ Overlay.next_lsn (Overlay.overlay_new b)) in Hrv.
  assert (0 ≤ base_lsn (Overlay.overlay_new b)) by apply Hwf. split; [done|lia].
Qed.

Lemma saved_write sb img v1 :
  flushed b v1 → renewed (current_superblock b) lsn sb → Superblock.decode_superblock img = Ok sb → len img = PAGE_SIZE →
  page_in v1 (slot_page other) ∧ saved b lsn sb v1 (write_page_bytes v1 (slot_page other) img).
Proof.
  intros HF HN Hd Hlen. destruct flush_bounds as (Hh & _). pose proof (fl_length _ _ HF) as Hl. assert (HP : PAGE_SIZE = 4096) by done.
  unfold FIRST_DATA_PAGE, Overlay.FIRST_DATA_PAGE in Hh.
  assert (0 ≤ slot_page other ≤ 1) by (destruct (active_slot b); simpl; lia).
  assert (Hin : page_in v1 (slot_page other)) by (split; rewrite ?Hl, ?HP; lia). split; [done|]. split; try done.
  - by apply len_write_page.
  - by rewrite page_at_write_eq.
  - intros i Hi Hne. by apply page_at_write_ne.
Qed.

(** The file of a checkpoint that was stopped while its superblock was written. *)
Definition unsealed b' : Prop :=
  wal b' = wal b ∧ config b' = config b ∧
  ∃ v1, flushed b v1 ∧
    (durable (file b') = v1 ∧ (volatile (file b') = v1 ∨ ∃ sb, saved b lsn sb v1 (volatile (file b'))) ∨
     volatile (file b') = durable (file b') ∧ ∃ sb, saved b lsn sb v1 (durable (file b'))).

Definition seal_done j b' : Prop :=
  ∃ f j' sb v1, b' = set_superblock sb other (set_dirty ∅ None (with_data f j' b)) ∧ saved b lsn sb v1 (volatile f) ∧ durable f = volatile f ∧
    reliable f ∧ after_hit j j'.

Lemma write_superblock_spec j b1 :
  Superblock.generation (current_superblock b) < U64_MAX → flush_done j b1 →
  wp (write_checkpoint_superblock lsn) (λ _ b', seal_done j b') (λ _ b', unsealed b' ∧ j ≠ None) b1.
Proof.
  intros Hg (f & j1 & -> & HF & Hd & Hr & Hj1). destruct flush_bounds as (_ & Hu & _).
  destruct latest_range as (Hwf & Hl1 & Hl2).
  assert (Hlu : u64 lsn) by (unfold u64, U64_MAX in *; lia).
  destruct (checkpoint_superblock_ok _ lsn Hwf Hg Hlu) as (sb & img & Esb & HN & Himg & Hdec & Hlen).
  destruct (saved_write sb img _ HF HN Hdec Hlen) as [Hin HS]. pose proof (fl_length _ _ HF) as Hl.
  set (b1 := set_dirty ∅ None (with_data f j1 b)).
  unfold write_checkpoint_superblock. wp_step. wp_step. wp_step. change (current_superblock b1) with (current_superblock b).
  change (active_slot b1) with (active_slot b). apply (wp_lift_ok _ _ _ _ _ Esb). wp_step. apply (wp_lift_ok _ _ _ _ _ Himg).
  assert (Hun : ∀ f' j' m, (durable f' = volatile f ∧ (volatile f' = volatile f ∨ saved b lsn sb (volatile f) (volatile f')) ∨
      volatile f' = durable f' ∧ saved b lsn sb (volatile f) (volatile f')) →
      unsealed (set_broken m (set_dirty ∅ None (with_data f' j' b)))).
  { intros f' j' m Hor. split; [done|]. split; [done|]. exists (volatile f). split; [done|]. cbn.
    destruct Hor as [[? [?|?]]|[? ?]]; [left|left|right]; split; eauto. by exists sb; congruence. }
  assert (Hun' : ∀ f' j' b', (durable f' = volatile f ∧ (volatile f' = volatile f ∨ saved b lsn sb (volatile f) (volatile f')) ∨
      volatile f' = durable f' ∧ saved b lsn sb (volatile f) (volatile f')) → b' = set_dirty ∅ None (with_data f' j' b) → unsealed b').
  { intros f' j' b' Hor ->. exact (Hun f' j' (broken b) Hor). }
  wp_step. apply wp_hit_fault.
  2:{ intros e j2 Hj2. split; [|intros E; by apply Hj2, Hj1]. apply (Hun' f j2); [|done]. left. auto. }
  intros j2 J2. wp_step. apply wp_or_broken, wp_zoom. change (file (set_injector j2 b1)) with f.
  assert (slot_offset other = slot_page other * PAGE_SIZE) as -> by (by destruct (active_slot b)).
  wp_use (write_page_spec f (slot_page other) img); [done|done|lia| |].
  2:{ intros e f' (_ & _ & Hn). by destruct Hn. }
  intros _ f2 (V2 & D2 & R2). rewrite Hd in D2. rewrite <-V2 in HS.
  wp_step. apply wp_hit_fault.
  2:{ intros e j3 Hj3. split; [|intros E; by apply Hj3, J2, Hj1]. apply (Hun' f2 j3); [|done]. left. auto. }
  intros j3 J3. wp_step. apply wp_hit_fault.
  2:{ intros e j4 Hj4. split; [|intros E; by apply Hj4, J3, J2, Hj1]. apply (Hun' f2 j4); [|done]. left. auto. }
  intros j4 J4. wp_step. apply wp_hit_fault.
  2:{ intros e j5 Hj5. split; [|intros E; by apply Hj5, J4, J3, J2, Hj1]. apply (Hun' f2 j5); [|done]. left. auto. }
  intros j5 J5. wp_step. apply wp_or_broken, wp_zoom. wp_use (sync_data_spec f2).
  2:{ intros e f' (_ & _ & Hn). destruct Hn. auto. }
  intros _ f3 (V3 & D3 & R3). rewrite <-V3 in HS. wp_step. apply wp_or_broken, wp_hit_fault.
  2:{ intros e j6 Hj6. split; [|intros E; by apply Hj6, J5, J4, J3, J2, Hj1]. apply (Hun f3 j6). right. split; [congruence|done]. }
  intros j6 J6. wp_step. exists f3, j6, sb, (volatile f). split_and!; [done|done|congruence|auto|].
  intros E. by apply J6, J5, J4, J3, J2, Hj1.
Qed.
End flush.
End steps.
End CheckpointSteps.
