(* ===== verification/Checkpoint.v ===== *)
(** * Checkpoints and crashes

    A checkpoint of a kept store leaves, at every moment, files that open as the same
    database: the old data file and the log, the flushed file and the log, or the
    file with the new checkpoint and the log or any remains of its reset. *)

From S2P Require Import Prelude Wp Key Core Page Superblock Format FormatLaws Reference Cache Overlay Tree TreeSearch.
From S2P Require Import OverlayReads TreeOps TreeTxn DurableFile Wal WalFrames WalReplay WalRecovery WalAppend WalCrash WalReset.
From S2P Require Import StoreFile Checker Store StoreSpec StorePublish StoreTxn StoreNew CheckerSpec Redo Recovery Reopen Durability.
From S2P Require Import CheckpointFile CheckpointSteps.

Module Checkpoint.
Import Core FormatLaws DurableFile StoreFile Store StoreSpec OverlayReads Tree TreeOps TreeTxn.
Import WalFrames WalReplay WalRecovery WalAppend WalCrash StorePublish StoreTxn StoreNew Redo Recovery Reopen Durability CheckpointFile CheckpointSteps.

(** The last commit is the newest. *)
Lemma commits_latest `{C : Crc32c} previous bid ss base x :
  log_ok previous bid ss → x ∈ commits ss → Wal.batch_commit_lsn x ≤ latest base (commits ss).
Proof.
  revert previous bid x. induction ss as [|s ss IH] using rev_ind; intros previous bid x; [by intros _ ?%not_elem_of_nil|].
  intros Hlog. apply log_ok_app in Hlog as [Hlog (Hs & Hp & _ & _)]. rewrite commits_app. unfold latest. rewrite last_app, elem_of_app.
  change (commits [s]) with (seg_commit s ++ []). rewrite app_nil_r. pose proof (seg_last_bounds s Hs) as Hb.
  intros [Hx|Hx].
  - pose proof (commit_before_last _ _ _ _ Hlog Hx). unfold seg_commit. destruct (seg_done s); cbn; [lia|]. by eapply IH.
  - unfold seg_commit in *. destruct (seg_done s); [|by apply not_elem_of_nil in Hx]. by apply list_elem_of_singleton in Hx as ->.
Qed.

Section checkpoint.
Context `{C : Crc32c} {CS : Crc32cSpec C} `{FS : DurableFileSpec F} `{WS : DurableFileSpec W} `{JS : FaultInjectorSpec J}.
Abbreviation Store := (BTreeStore F W J).
Abbreviation TheFiles := (Files (F:=F) (W:=W) (J:=J)).
Implicit Types (b : Store) (o : Overlay.Overlay Store) (fs : TheFiles).

(** What opening after a crash promises here. *)
Definition reopens n b s fs : Prop :=
  ∃ b2 fs2 ss2, open_with_wal_internal (config b) fs = (Ok b2, fs2) ∧ kept n b2 ss2 s ∧ config b2 = config b ∧
    fault_injector b2 = None ∧ wal_reliable b2 ∧ passes b2.

Section reopen.
Context (n : nat) (b : Store) (ss : list Segment) (s : gmap DocumentKey RevisionState) (w : WalLog W).
Hypotheses (HK : kept n b ss s) (Hw : wal b = Some w).
Abbreviation base := (base_lsn (Overlay.overlay_new b)).
Abbreviation lsn := (latest base (commits ss)).

Lemma kept_log : wal_ok n b ss w ∧ Wal.identity w = store_identity (config b) ∧ Wal.history_start_lsn w ≤ base.
Proof.
  destruct (kp_log _ _ _ _ HK) as (w0 & Hw0 & ?). destruct (so_wal _ _ _ _ (kp_store _ _ _ _ HK)) as [w1 Hw1].
  pose proof (wo_wal _ _ _ _ Hw1). assert (w0 = w ∧ w1 = w) as [-> ->] by (split; congruence). done.
Qed.

(** The old log opens. *)
Lemma old_log_opens m base' fs c :
  (m ≤ n)%nat → base ≤ base' → volatile (wal_file fs) = c → durable (wal_file fs) = c → c = volatile (Wal.file w) →
  log_opens (store_identity (config b)) base' ss m (wal_file fs) (injector fs).
Proof.
  intros Hm Hb Vw Dw ->. destruct kept_log as ([O1 O2 O3 O4 O5 O6 O7] & Hid & Hh). pose proof O2 as [R1 R2 R3 R4 R5 R6 R7 R8].
  destruct O7 as [_ _ _ Hroom]. pose proof (len_nonneg (volatile (Wal.file w))).
  rewrite <-Hid. eapply (torn_log_opens (Wal.format_version w) _ (Wal.history_start_lsn w) _ _ _ []); [|congruence|lia|rewrite <-R5; lia].
  rewrite Vw. split; try done; [lia|lia|by left|by rewrite app_nil_r|lia].
Qed.

(** The old data file or the flushed one, with the old log. *)
Lemma unsaved_opens m v fs :
  (m ≤ n)%nat → recoverable (store_identity (config b)) v (unsaved b ss) (Overlay.overlay_new b) →
  found v (volatile (Wal.file w)) fs → reopens m b s fs.
Proof.
  intros Hm HR [V D Hr Vw Dw Rw Hj]. pose proof HK as [K1 _ _ K4 K5 K6 K7 K8 K9 _ _].
  destruct (reopen_kept (config b) v ss (Overlay.overlay_new b) m s fs) as (b2 & fs2 & Ho & Hk & Hrest); try done.
  - eapply represents_le; [exact Hm|apply K1].
  - by eapply old_log_opens.
  - by exists b2, fs2, ss.
Qed.

Lemma all_saved : live lsn (commits ss) = [].
Proof.
  destruct kept_log as ([_ O2 _ _ _ _ _] & _ & _). pose proof (rep_log _ _ O2) as Hlog. unfold live.
  assert (∀ x, x ∈ filter (λ x, lsn < Wal.batch_commit_lsn x) (commits ss) → False) as Hn.
  { intros x [Hx Hin]%list_elem_of_filter. pose proof (commits_latest _ _ _ base x Hlog Hin). lia. }
  destruct (filter _ _) as [|x l]; [done|]. exfalso. apply (Hn x). left.
Qed.

(** A state without unsaved batches, with the remains of a reset of the log. *)
Lemma reset_opens m v o c fs :
  (m ≤ n)%nat → recoverable (store_identity (config b)) v [] o → base_lsn o = lsn → base ≤ lsn < U64_MAX →
  (∀ l k, next_revision b ≤ l ≤ next_lsn b → k ≤ next_batch_id b →
     represents m (Overlay.set_next_batch_id k (Overlay.set_next_lsn l o)) s) →
  Overlay.sh_limits (Overlay.header (Overlay.store o)) = limits (config b) → Overlay.next_revision o = next_revision b →
  c = volatile (Wal.file w) ∨ (∃ k, 0 ≤ k ≤ Wal.INIT_FRAME_SIZE ∧ c = (WalReset.init_bytes (store_identity (config b)) lsn).[0; k)) →
  found v c fs → reopens m b s fs.
Proof.
  intros Hm HR Eb Hlsn Hrep Hlim Erev Hc Hfound. pose proof Hfound as [V D Hr Vw Dw Rw Hj].
  pose proof HK as [K1 _ _ K4 K5 K6 K7 K8 K9 _ _]. destruct kept_log as ([O1 O2 O3 O4 O5 O6 O7] & Hid & Hh).
  assert (Hopen : ∀ ss' l k, l = Z.max (log_last 0 ss' + 1) (lsn + 1) → k = log_batch 0 ss' + 1 → l ≤ next_lsn b → k ≤ next_batch_id b →
    live lsn (commits ss') = [] → (∀ x, last (commits ss') = Some x → lsn ≤ Wal.batch_commit_lsn x) →
    next_revision b ≤ latest lsn (commits ss') + 1 → log_opens (store_identity (config b)) lsn ss' m (wal_file fs) (injector fs) → reopens m b s fs).
  { intros ss' l k -> -> Hl Hk Hlive Hlast Hrv Hlog. set (l := Z.max (log_last 0 ss' + 1) (lsn + 1)) in *. set (k := log_batch 0 ss' + 1) in *.
    assert (next_revision b ≤ l) by (pose proof K9; unfold l; lia).
    destruct (reopen_kept (config b) v ss' (Overlay.set_next_batch_id k (Overlay.set_next_lsn l o)) m s fs)
      as (b2 & fs2 & Ho & Hkk & Hrest); change (base_lsn (Overlay.set_next_batch_id k (Overlay.set_next_lsn l o))) with (base_lsn o); rewrite ?Eb, ?Hlive; try done.
    - exact (recoverable_counters _ _ _ _ l k HR).
    - apply Hrep; lia.
    - change (Overlay.next_revision o ≤ latest lsn (commits ss') + 1). by rewrite Erev.
    - change (newest s (Overlay.next_revision o)). by rewrite Erev.
    - by exists b2, fs2, ss'. }
  assert (Hroom : Wal.INIT_FRAME_SIZE + Z.of_nat m * 2 ^ 45 ≤ U64_MAX).
  { pose proof (room_bytes _ _ O7). pose proof (len_nonneg (volatile (Wal.file w))).
    unfold U64_MAX, Wal.INIT_FRAME_SIZE, Wal.WAL_HEADER_SIZE, Wal.INIT_PAYLOAD_SIZE, Wal.WAL_TRAILER_SIZE in *. lia. }
  pose proof (config_identity _ K4) as Hident. pose proof (rep_start _ _ O2).
  pose proof (rep_next _ _ O2). pose proof (rep_batch _ _ O2). rewrite O4, O5 in *.
  destruct (so_represents _ _ _ _ K1) as (G & ht & fl & _ & _ & [_ _ Hrv _ _ _] & _). change (0 < next_revision b ≤ next_lsn b) in Hrv.
  assert (lsn ≤ Z.max (log_last 0 ss) base) as Hll.
  { unfold latest. destruct (last (commits ss)) as [x|] eqn:Ex; [|lia]. apply last_Some_elem_of in Ex.
    assert (log_ok 0 0 ss) as Hl0 by (eapply log_ok_weaken; [apply (rep_log _ _ O2)|ulia|done]).
    pose proof (commit_before_last _ _ _ _ Hl0 Ex). lia. }
  pose proof (log_batch_ge _ _ _ (rep_log _ _ O2)) as Hb1.
  destruct Hc as [->|(k & Hk & ->)].
  - apply (Hopen ss (next_lsn b) (next_batch_id b)); try done; [|apply all_saved|..].
    + lia.
    + intros x Hx. unfold latest. by rewrite Hx.
    + unfold latest in *. by destruct (last (commits ss)).
    + apply (old_log_opens m lsn fs (volatile (Wal.file w))); try done. apply Hlsn.
  - apply (Hopen [] (lsn + 1) 1); try done; cbn [log_last log_batch]; [lia|lia|lia|].
    destruct (Z.lt_ge_cases k Wal.INIT_FRAME_SIZE) as [Hlt|Hge].
    + apply (reset_log_opens _ _ _ k); try done; ulia.
    + rewrite slice_full in Vw, Dw by (rewrite WalReset.len_init_bytes; lia).
      eapply (torn_log_opens Wal.WAL_FORMAT_VERSION _ lsn _ _ _ []); [|congruence|lia|].
      * rewrite Vw. split; try done; [by left|ulia|by left|rewrite app_nil_r; apply init_image|].
        rewrite WalReset.len_init_bytes. by vm_compute.
      * rewrite <-init_image. change (frame_image _) with (WalReset.init_bytes (store_identity (config b)) lsn).
        by rewrite WalReset.len_init_bytes.
Qed.
End reopen.

(** ** The complete data file *)

(** The store [b2] that the flush and the new superblock leave: with the data file
    alone, it is the store [b] as of its last commit. *)
Record complete (m : nat) b ss s b2 o : Prop := {
  cm_follows : follows o b2;
  cm_recoverable : recoverable (store_identity (config b)) (volatile (file b2)) [] o;
  cm_base : base_lsn o = latest (base_lsn (Overlay.overlay_new b)) (commits ss);
  cm_represents : ∀ l k, next_revision b ≤ l ≤ next_lsn b → k ≤ next_batch_id b →
    represents m (Overlay.set_next_batch_id k (Overlay.set_next_lsn l o)) s;
  cm_counters : Overlay.next_revision o = next_revision b ∧ Overlay.next_lsn o = next_lsn b ∧ Overlay.next_batch_id o = next_batch_id b;
  cm_limits : Overlay.sh_limits (Overlay.header (Overlay.store o)) = limits (config b);
  cm_dirty : dirty_pages b2 = ∅ ∧ dirty_superblock b2 = None;
  cm_selects : selects b2 (volatile (file b2));
  cm_length : len (volatile (file b2)) = (high_water_page_id b2 + 1) * PAGE_SIZE;
  cm_durable : durable (file b2) = volatile (file b2);
  cm_same : wal b2 = wal b ∧ config b2 = config b ∧ broken b2 = None;
}.

(** Other counters and another superblock of the same shape. *)
Lemma represents_renewed n o s sb sl l k m :
  represents n o s → (m < n)%nat → Superblock.wf sb → Superblock.generation sb ≤ Superblock.generation (Overlay.current_superblock o) + 1 →
  Overlay.next_revision o ≤ l ≤ Overlay.next_lsn o → k ≤ Overlay.next_batch_id o →
  represents m (Overlay.set_next_batch_id k (Overlay.set_next_lsn l (Overlay.set_current_superblock sb sl o))) s.
Proof.
  intros (G & ht & fl & Hi & (C1 & C2 & C3 & C4) & [D1 D2 D3 D4 D5 D6] & Hrv) Hm Hwf Hg Hl Hk. exists G, ht, fl.
  set (o' := Overlay.set_next_batch_id _ _). pose proof (reach_mono o ht m n ltac:(lia)) as Hreach. pose proof (reach_ge o ht m).
  pose proof (inv_high _ _ _ _ _ _ _ Hi). unfold Overlay.FIRST_DATA_PAGE in *. split_and!.
  - eapply inv_view; try done; apply Hi.
  - change (l + (Z.of_nat m + 1) * (reach o ht m + 2) < U64_MAX ∧ Superblock.generation sb + Z.of_nat m < U64_MAX ∧
      k + Z.of_nat m < U64_MAX ∧ reach o ht m < U32_MAX). split_and!; [nia|lia|lia|lia].
  - split; try done. change (0 < Overlay.next_revision o ≤ l). lia.
  - done.
Qed.

Section complete.
Context (n m : nat) (b : Store) (ss : list Segment) (s : gmap DocumentKey RevisionState).
Hypotheses (HK : kept n b ss s) (Hm : (m < n)%nat).
Abbreviation base := (base_lsn (Overlay.overlay_new b)).
Abbreviation lsn := (latest base (commits ss)).

(** Without batches after the checkpoint, the store is complete as it is. *)
Lemma nothing_unsaved : lsn = base → unsaved b ss = [] ∧ dirty_pages b = ∅ ∧ dirty_superblock b = None.
Proof.
  intros E. destruct (so_wal _ _ _ _ (kp_store _ _ _ _ HK)) as [w [Hw _ _ _ _ _ _]].
  pose proof (all_saved n b ss s w HK Hw) as Hs. rewrite E in Hs. split; [exact Hs|].
  destruct (kp_dirty _ _ _ _ HK) as [Hd Hb]. unfold unsaved in Hd, Hb. rewrite Hs in Hd, Hb. split.
  - apply map_empty. intros i. destruct (dirty_pages b !! i) as [x|] eqn:Ex; [|done]. by destruct (Hd i x Ex) as [_ [c Hc]].
  - destruct (dirty_superblock b) as [x|]; [|done]. by destruct Hb as [[c Hc] _].
Qed.

Lemma store_follows b' :
  store_header b' = store_header b → is_Some (wal b) → (∀ i, committed_page b' i = committed_page b i) → store_serving b' →
  follows (Overlay.overlay_new b) b'.
Proof.
  intros Hh [w Hw] Hc Hs. split; [|done|done]. rewrite Hh. unfold store_header. by rewrite Hw.
Qed.

Lemma kept_serving : store_serving b.
Proof. exact (represents_serving _ _ _ (so_represents _ _ _ _ (kp_store _ _ _ _ HK))). Qed.

Lemma kept_limits : Overlay.sh_limits (Overlay.header (Overlay.store (Overlay.overlay_new b))) = limits (config b).
Proof. done. Qed.

Lemma complete_unchanged j b1 : lsn = base → flush_done b j b1 → complete m b ss s b1 (Overlay.overlay_new b).
Proof.
  intros E (f & j1 & -> & HF & Hd & Hr & _). destruct (nothing_unsaved E) as (Hun & Hd1 & Hd2).
  destruct (so_wal _ _ _ _ (kp_store _ _ _ _ HK)) as [w [Hw _ _ _ _ _ _]].
  pose proof (flushed_recoverable n b ss s _ HK HF) as HR. rewrite Hun in HR. pose proof (flushed_view n b ss s _ HK HF) as Hv.
  destruct (flush_bounds n b ss s HK) as (_ & Hu & _). pose proof (fl_length _ _ HF) as Hlen.
  assert (Hc : ∀ i, committed_page (set_dirty ∅ None (with_data f j1 b)) i = committed_page b i).
  { intros i. change (committed_page b i) with (view (Overlay.overlay_new b) i). rewrite <-Hv.
    unfold committed_page, committed_bytes, file_page. cbn. rewrite lookup_empty. by destruct (_ && _). }
  destruct kept_serving as [S1 S2 S3 S4]. split; try done.
  - apply store_follows; [done|by eexists|done|]. split; [done|cbn; lia|done|]. intros i p Hp. rewrite Hc. by apply S4.
  - intros l k Hl Hk. exact (represents_renewed n (Overlay.overlay_new b) s (current_superblock b) (active_slot b) l k m
      (so_represents _ _ _ _ (kp_store _ _ _ _ HK)) Hm (proj1 (latest_range n b ss s HK)) ltac:(simpl; lia) Hl Hk).
  - exact (proj1 (flushed_selects n b ss s _ HK HF)).
  - split; [done|]. split; [done|]. apply (so_broken _ _ _ _ (kp_store _ _ _ _ HK)).
Qed.

Lemma complete_saved j b2 sb f j1 v1 :
  b2 = set_superblock sb (Overlay.other_slot (active_slot b)) (set_dirty ∅ None (with_data f j1 b)) →
  saved b lsn sb v1 (volatile f) → durable f = volatile f → reliable f → after_hit j j1 → complete m b ss s b2 (renew b sb).
Proof.
  intros -> HS Hd Hr _. pose proof (saved_recoverable n b ss s sb v1 _ HK HS) as HR. pose proof (saved_view n b ss s sb v1 _ HK HS) as Hv.
  destruct (sv_renewed _ _ _ _ _ HS) as (Hwf & Hg & Hck & _). destruct (flush_bounds n b ss s HK) as (_ & Hu & _).
  pose proof (fl_length _ _ (sv_flushed _ _ _ _ _ HS)) as Hlen. rewrite <-(sv_length _ _ _ _ _ HS) in Hlen.
  destruct (so_wal _ _ _ _ (kp_store _ _ _ _ HK)) as [w [Hw _ _ _ _ _ _]]. set (b2 := set_superblock _ _ _).
  assert (Hc : ∀ i, committed_page b2 i = view (renew b sb) i).
  { intros i. rewrite <-Hv. unfold committed_page, committed_bytes, file_page. cbn. rewrite lookup_empty. by destruct (_ && _). }
  destruct kept_serving as [S1 S2 S3 S4]. split; try done.
  - split; [|done|].
    + unfold store_header. cbn. by rewrite Hw.
    + split; [done|cbn; lia|done|]. intros i p Hp. rewrite Hc. change (view (renew b sb) i) with (committed_page b i). by apply S4.
  - intros l k Hl Hk. apply (represents_renewed n (Overlay.overlay_new b) s sb); try done; [apply (kp_store _ _ _ _ HK)|].
    change (Superblock.generation sb ≤ Superblock.generation (current_superblock b) + 1). lia.
  - exists sb. split; [|done]. exact (saved_selects n b ss s sb v1 _ HK HS).
  - split; [done|]. split; [done|]. apply (so_broken _ _ _ _ (kp_store _ _ _ _ HK)).
Qed.

(** ** Where a checkpoint may stop *)

(** The data file is complete and the log is being reset. *)
Definition resettable b' : Prop :=
  ∃ o w w', recoverable (store_identity (config b)) (volatile (file b')) [] o ∧ base_lsn o = lsn ∧
    (∀ l k, next_revision b ≤ l ≤ next_lsn b → k ≤ next_batch_id b →
       represents m (Overlay.set_next_batch_id k (Overlay.set_next_lsn l o)) s) ∧
    Overlay.next_revision o = next_revision b ∧ Overlay.sh_limits (Overlay.header (Overlay.store o)) = limits (config b) ∧
    durable (file b') = volatile (file b') ∧ wal b = Some w ∧ wal b' = Some w' ∧ config b' = config b ∧
    WalReset.resetting (store_identity (config b)) lsn (Wal.file w) (Wal.file w').

Definition interrupted b' : Prop := unfinished b b' ∨ unsealed b ss b' ∨ resettable b'.

(** What the crash left of the two files. *)
Definition torn b' (v c : bytes) : Prop :=
  page_mix (durable (file b')) (volatile (file b')) v ∧ ∃ w, wal b' = Some w ∧ crash_image (Wal.file w) c.

Lemma reset_opens_any v o c fs w :
  wal b = Some w → recoverable (store_identity (config b)) v [] o → base_lsn o = lsn →
  (∀ l k, next_revision b ≤ l ≤ next_lsn b → k ≤ next_batch_id b →
     represents m (Overlay.set_next_batch_id k (Overlay.set_next_lsn l o)) s) →
  Overlay.next_revision o = next_revision b → Overlay.sh_limits (Overlay.header (Overlay.store o)) = limits (config b) →
  c = volatile (Wal.file w) ∨ WalReset.init_prefix (store_identity (config b)) lsn c → found v c fs → reopens m b s fs.
Proof.
  intros Hw HR Hb Hrep Hrv Hlim Hc Hf. destruct (latest_range n b ss s HK) as (_ & H1' & H2').
  eapply (reset_opens n b ss s w HK Hw m v o c fs); try done; lia.
Qed.

Lemma saved_opens sb v1 v2 c fs w :
  wal b = Some w → saved b lsn sb v1 v2 → c = volatile (Wal.file w) → found v2 c fs → reopens m b s fs.
Proof.
  intros Hw HS Hc Hf. destruct (sv_renewed _ _ _ _ _ HS) as (Hwf & Hg & Hck & _).
  eapply (reset_opens_any v2 (renew b sb)); try done; [by apply (saved_recoverable n b ss s sb v1 v2 HK HS)| |by left].
  intros l k Hl Hk. apply (represents_renewed n (Overlay.overlay_new b) s sb); try done; [apply (kp_store _ _ _ _ HK)|].
  change (Superblock.generation sb ≤ Superblock.generation (current_superblock b) + 1). lia.
Qed.

Lemma interrupted_opens b' v c fs : interrupted b' → torn b' v c → found v c fs → reopens m b s fs.
Proof.
  destruct (so_wal _ _ _ _ (kp_store _ _ _ _ HK)) as [w [Hw _ _ _ _ Hsync _]]. intros Hi (Hmix & w' & Hw' & Hc) Hf.
  assert (Hold : wal b' = wal b → c = volatile (Wal.file w)).
  { intros E. rewrite E, Hw in Hw'. injection Hw' as <-. by apply crash_image_synced. }
  assert (Hpart : ∀ v0, partly b v0 → found v0 c fs → wal b' = wal b → reopens m b s fs).
  { intros v0 Hp Hf0 E. rewrite (Hold E) in Hf0. eapply (unsaved_opens n b ss s w HK Hw m v0); [lia| |done].
    exact (partly_recoverable n b ss s v0 HK Hp). }
  destruct Hi as [(E & _ & [[D P]|[P D]])|[(E & _ & v1 & HF & [[D Hor]|[D [sb HS]]])|Hr]].
  - rewrite D in Hmix. eapply Hpart; [by eapply mix_partly|done|done].
  - rewrite D in Hmix. apply mix_refl in Hmix as ->. eapply Hpart; [|done|done]. exact (flushed_part n b ss s _ HK P).
  - rewrite D in Hmix. assert (v = v1 ∨ ∃ sb, saved b lsn sb v1 v) as [->|[sb HS]].
    + destruct Hor as [E'|[sb HS]].
      * left. rewrite E' in Hmix. by apply mix_refl.
      * destruct (mix_slot v1 (volatile (file b')) v (Overlay.other_slot (active_slot b))) as [->| ->]; [..|by left|right; by exists sb].
        -- apply (sv_length _ _ _ _ _ HS).
        -- apply (sv_pages _ _ _ _ _ HS).
        -- done.
    + eapply Hpart; [|done|done]. exact (flushed_part n b ss s _ HK HF).
    + eapply saved_opens; [done|done|by apply Hold|done].
  - rewrite D in Hmix. apply mix_refl in Hmix as ->. eapply saved_opens; [done|done|by apply Hold|done].
  - destruct Hr as (o & w0 & w1 & HR & Hb & Hrep & Hrv & Hlim & Hd & Hw0 & Hw1 & _ & Hres). rewrite Hd in Hmix. apply mix_refl in Hmix as ->.
    rewrite Hw in Hw0. injection Hw0 as <-. rewrite Hw' in Hw1. injection Hw1 as <-.
    eapply (reset_opens_any _ o); try done. by eapply WalReset.resetting_image.
Qed.

(** ** The check of the complete file *)

(** The superblock in memory is the one in the file, with its checksum. *)
Definition sealed_in b2 : Prop :=
  Superblock.choose_superblock (page_at (volatile (file b2)) 0) (page_at (volatile (file b2)) 1) =
  Ok (Superblock.mkSelected (active_slot b2) (current_superblock b2)).

Lemma complete_same b2 o f j : complete m b ss s b2 o → same_file (file b2) f → complete m b ss s (with_data f j b2) o.
Proof.
  intros [K1 K2 K3 K4 K5 K6 K7 K8 K9 K10 K11] (V & D & R). unfold with_data.
  split; cbn [file dirty_pages dirty_superblock high_water_page_id wal config broken set_injector set_file]; rewrite ?V;
    [|exact K2|exact K3|exact K4|exact K5|exact K6|exact K7|exact K8|exact K9|congruence|exact K11].
  destruct K1 as [F1 F2 F3]. destruct (serving_same_file b2 f (conj V (conj D R)) F3) as [S1 S2 S3 S4]. split; [exact F1| |by split].
  intros i. rewrite <-F2. exact (committed_same_file b2 f i V).
Qed.

Lemma latest_lsn_eq w : wal_rep w ss → latest_lsn w b = lsn.
Proof. intros Hrep. unfold latest_lsn, latest. by rewrite (rep_committed _ _ Hrep). Qed.

Lemma complete_clean b2 o w : complete m b ss s b2 o → sealed_in b2 → wal b = Some w → clean b2 w o.
Proof.
  intros [K1 K2 K3 K4 K5 K6 K7 K8 K9 K10 (K11 & _)] Hs Hw. destruct K1 as [F1 F2 F3]. injection F1. intros _ _ _ _ Eh Ef Ert Es Esb _.
  destruct (rc_meta _ _ _ _ K2) as (M1 & M2 & M3). destruct (so_wal _ _ _ _ (kp_store _ _ _ _ HK)) as [w0 [Hw0 Hrep _ _ _ _ _]].
  rewrite Hw in Hw0. injection Hw0 as <-.
  destruct (so_represents _ _ _ _ (kp_store _ _ _ _ HK)) as (G & ht & fl & _ & _ & [_ _ Hrv _ _ _] & _).
  destruct (K4 (next_lsn b) (next_batch_id b)) as (G' & ht' & fl' & _ & _ & [_ _ _ _ Hwf _] & _);
    [change (0 < next_revision b ≤ next_lsn b) in Hrv; lia|lia|].
  change (Superblock.wf (Overlay.current_superblock o)) in Hwf.
  split; rewrite ?Esb, ?Eh, ?Ert, ?Ef;
    [by rewrite K11|exact K7|by rewrite K9, Eh|apply F3| | | |by split|by split|by split|].
  - intros i. rewrite <-F2. destruct K7 as [Hd _]. unfold committed_page, committed_bytes, file_page. rewrite Hd, lookup_empty.
    by destruct (_ && _).
  - rewrite Hs. by rewrite Esb.
  - apply Hwf.
  - change (Superblock.checkpoint_lsn (Overlay.current_superblock o)) with (base_lsn o). rewrite K3.
    unfold latest_lsn. rewrite (rep_committed _ _ Hrep), Esb. change (Superblock.checkpoint_lsn (Overlay.current_superblock o)) with (base_lsn o).
    rewrite K3. unfold latest. by destruct (last (commits ss)).
Qed.

Lemma set_counters_id o : Overlay.set_next_batch_id (Overlay.next_batch_id o) (Overlay.set_next_lsn (Overlay.next_lsn o) o) = o.
Proof. by destruct o. Qed.

Lemma whole_represents b2 o : complete m b ss s b2 o → represents m o s.
Proof.
  intros HC. destruct (cm_counters _ _ _ _ _ _ HC) as (_ & El & Eb). rewrite <-(set_counters_id o), El, Eb.
  destruct (so_represents _ _ _ _ (kp_store _ _ _ _ HK)) as (G & ht & fl & _ & _ & [_ _ Hrv _ _ _] & _).
  change (0 < next_revision b ≤ next_lsn b) in Hrv. apply (cm_represents _ _ _ _ _ _ HC); lia.
Qed.

Definition unsealed_error : Error := Corruption "in-memory superblock is not the selected file copy".

Lemma check_complete_spec b2 o :
  complete m b ss s b2 o →
  wp check_invariants (λ _ b', (∃ f, b' = set_file f b2 ∧ same_file (file b2) f) ∧ sealed_in b2)
    (λ e b', e = unsealed_error ∧ (∃ f, b' = set_file f b2 ∧ same_file (file b2) f) ∧ ¬ sealed_in b2) b2.
Proof.
  intros HC. destruct (so_wal _ _ _ _ (kp_store _ _ _ _ HK)) as [w [Hw _ _ _ _ _ _]].
  destruct (cm_dirty _ _ _ _ _ _ HC) as [Hd1 Hd2]. destruct (cm_same _ _ _ _ _ _ HC) as (Hw2 & _). rewrite Hw in Hw2.
  destruct (cm_follows _ _ _ _ _ _ HC) as [_ _ [S1 S2 _ _]]. pose proof (cm_length _ _ _ _ _ _ HC) as Hlen.
  destruct (cm_selects _ _ _ _ _ _ HC) as (sb & Hsel & _). assert (HP : PAGE_SIZE = 4096) by done.
  destruct (decide (sb = current_superblock b2)) as [->|Hne].
  { wp_use (check_clean_spec b2 w o m s); [by apply complete_clean|by eapply whole_represents| |].
    - intros rep b' [? _]. by split.
    - by intros e b' Hn. }
  assert (Hs : ¬ sealed_in b2) by (unfold sealed_in; rewrite Hsel; congruence).
  assert (Hh : FIRST_DATA_PAGE ≤ high_water_page_id b2).
  { destruct (whole_represents b2 o HC) as (G & ht & fl & Hi & _). pose proof (inv_high _ _ _ _ _ _ _ Hi) as Hh.
    pose proof (fo_header _ _ (cm_follows _ _ _ _ _ _ HC)) as F1. injection F1. intros _ _ _ _ Eh _ _ _ _ _. rewrite Eh. apply Hh. }
  unfold FIRST_DATA_PAGE, Overlay.FIRST_DATA_PAGE in Hh.
  unfold check_invariants. wp_step. wp_step. rewrite Hw2. wp_step. unfold flush_dirty_pages. wp_step. wp_step. rewrite Hw2, Hd1, Hd2.
  rewrite !bool_decide_true by done. cbn [andb]. wp_step. wp_step. wp_step. wp_step.
  pose proof (file_len_spec (file b2)) as Hfl. destruct (file_len (file b2)) as [l|e|k]; [|done|done]. apply wp_lift. subst l.
  wp_step. apply wp_fail_when.
  { unfold misaligned. rewrite Hlen, Z_mod_mult. unfold FIRST_DATA_PAGE, Overlay.FIRST_DATA_PAGE. rewrite HP.
    rewrite (proj2 (Z.ltb_ge _ _)) by lia. done. }
  intros _. wp_step. apply wp_zoom. wp_use (read_slots_spec (file b2)); [rewrite Hlen in *; lia| |done].
  intros ? f1 [-> Hs1]. cbv beta iota. wp_step. apply (wp_lift_ok _ _ _ _ _ Hsel). cbn [Superblock.slot Superblock.superblock].
  wp_step. wp_step. wp_step. apply wp_fail_when; [intros _; split; [done|]; split; [by exists f1|done]|].
  intros Hb. exfalso. apply orb_false_elim in Hb as [_ Hb]. by apply negb_false_iff, bool_decide_eq_true in Hb.
Qed.

(** ** The log of the complete file *)

(** The store [b2] with the log [w'] and its counters. *)
Definition with_reset (w' : WalLog W) (j : option J) b2 : Store :=
  set_next_batch_id (Wal.next_batch_id w') (set_next_lsn (Wal.next_lsn w') (with_log w' j b2)).

(** A log that has nothing newer than the checkpoint. *)
Record settled (w' : WalLog W) ss' : Prop := {
  st_rep : wal_rep w' ss';
  st_ready : ready w';
  st_durable : durable (Wal.file w') = volatile (Wal.file w');
  st_room : wal_room m w';
  st_identity : Wal.identity w' = store_identity (config b);
  st_start : Wal.history_start_lsn w' ≤ lsn;
  st_live : live lsn (commits ss') = [];
  st_last : ∀ x, last (commits ss') = Some x → lsn ≤ Wal.batch_commit_lsn x;
  st_latest : latest lsn (commits ss') = lsn;
  st_next : Wal.next_lsn w' = Z.max (log_last 0 ss' + 1) (lsn + 1) ∧ Wal.next_lsn w' ≤ next_lsn b;
  st_batch : Wal.next_batch_id w' = log_batch 0 ss' + 1 ∧ Wal.next_batch_id w' ≤ next_batch_id b;
}.

Lemma complete_kept b2 o w' ss' j :
  complete m b ss s b2 o → settled w' ss' → kept m (with_reset w' j b2) ss' s ∧ unsaved (with_reset w' j b2) ss' = [].
Proof.
  intros [K1 K2 K3 K4 (K5 & _ & _) K6 K7 K8 K9 K10 (_ & K11 & K12)] [T1 T2 T3 T4 T5 T6 T7 T8 T9 [T10 T11] [T12 T13]].
  set (l := Wal.next_lsn w') in *. set (k := Wal.next_batch_id w') in *. set (b' := with_reset w' j b2).
  pose proof (latest_bound n b ss s HK) as Hlb. pose proof (kp_revision _ _ _ _ HK) as Hrv.
  set (o' := Overlay.set_next_batch_id k (Overlay.set_next_lsn l o)).
  destruct K1 as [F1 F2 [S1 S2 S3 S4]]. injection F1. intros El Eb En Er Eh Ef Ert Es Esb _.
  assert (Hf : follows o' b').
  { split; [|exact F2|by split].
    unfold store_header. cbn. by rewrite El, Er, Eh, Ef, Ert, Es, Esb. }
  assert (Hb : base_lsn (Overlay.overlay_new b') = lsn).
  { rewrite <-K3. unfold base_lsn.
    change (Overlay.current_superblock (Overlay.overlay_new b')) with (current_superblock b2). by rewrite Esb. }
  assert (Hrep : represents m o' s) by (apply K4; lia).
  assert (Hrev : next_revision b' = next_revision b).
  { change (next_revision b') with (next_revision b2). by rewrite Er. }
  assert (Hun : unsaved b' ss' = []) by (unfold unsaved; by rewrite Hb).
  assert (Hcfg : config b' = config b) by exact K11. split; [|exact Hun]. split; rewrite ?Hun, ?Hb, ?Hcfg, ?Hrev.
  - split; [exact (represents_follows _ _ _ _ Hrep Hf)|exact K12|]. exists w'. by split.
  - exact (recoverable_follows _ _ _ _ _ (recoverable_counters _ _ _ _ l k K2) Hf).
  - exact K10.
  - apply (kp_config _ _ _ _ HK).
  - apply (kp_newest _ _ _ _ HK).
  - exact T10.
  - exact T12.
  - exact T8.
  - by rewrite T9.
  - destruct K7 as [D1 D2]. split; [intros i x Hx; change (dirty_pages b2 !! i = Some x) in Hx; by rewrite D1, lookup_empty in Hx|].
    change (dirty_superblock b') with (dirty_superblock b2). rewrite D2. split; [exact K8|exact K9].
  - by exists w'.
Qed.

Lemma settled_fresh w w1 :
  wal b = Some w → WalReset.fresh w1 (store_identity (config b)) lsn → WalReset.reset_counters w w1 → settled w1 [].
Proof.
  intros Hw HF (C1 & C2 & C3). destruct (kept_log n b ss s w HK Hw) as ([_ O2 _ _ O5 _ [R1 R2 R3 R4]] & _ & _).
  pose proof (latest_bound n b ss s HK) as Hlb. destruct (latest_range n b ss s HK) as (_ & Hl1 & Hl2). pose proof (log_batch_ge _ _ _ (rep_log _ _ O2)) as Hb1.
  pose proof (rep_batch _ _ O2) as Hb2. rewrite O5 in Hb2. pose proof (len_nonneg (volatile (Wal.file w))).
  destruct (so_represents _ _ _ _ (kp_store _ _ _ _ HK)) as (G & ht & fl & _ & _ & [_ _ Hrv _ _ _] & _).
  change (0 < next_revision b ≤ next_lsn b) in Hrv. pose proof (WalReset.fresh_ready _ _ _ HF) as Hready. destruct HF as [F1 F2 F3 F4 F5 F6 F7].
  assert (len (volatile (Wal.file w1)) = Wal.INIT_FRAME_SIZE) as Hl.
  { rewrite (rep_bytes _ _ F1), F2, F3, F4, <-init_image. by rewrite len_frame_image, init_frame_size. }
  split; try done; cbn [log_last log_batch]; [|lia|lia|rewrite F6; lia].
  split; rewrite ?C1, ?C2, ?C3, ?Hl; unfold U64_MAX, Wal.INIT_FRAME_SIZE, Wal.WAL_HEADER_SIZE, Wal.INIT_PAYLOAD_SIZE, Wal.WAL_TRAILER_SIZE in *; lia.
Qed.

Lemma settled_old w : wal b = Some w → Wal.committed w = [] → lsn = base ∧ settled w ss.
Proof.
  intros Hw Hc. destruct (kept_log n b ss s w HK Hw) as ([_ O2 O3 O4 O5 O6 [R1 R2 R3 R4]] & Hid & Hst).
  rewrite (rep_committed _ _ O2) in Hc. assert (lsn = base) as E by (unfold latest; by rewrite Hc). split; [done|].
  split; try done; rewrite ?Hc; try done; rewrite ?E; try done.
  - split; lia.
  - rewrite O4. split; [apply (kp_lsn _ _ _ _ HK)|done].
  - rewrite O5. split; [apply (kp_batch _ _ _ _ HK)|done].
Qed.

(** What the last steps leave. *)
Definition finished b2 b' : Prop :=
  ∃ w' j' ss', b' = with_reset w' j' b2 ∧ settled w' ss' ∧ resettable b' ∧ after_hit (fault_injector b2) j' ∧
    (wal_reliable b → reliable (Wal.file w')).

Lemma complete_resettable b2 o w w' b' :
  complete m b ss s b2 o → wal b = Some w → file b' = file b2 → config b' = config b2 → wal b' = Some w' →
  WalReset.resetting (store_identity (config b)) lsn (Wal.file w) (Wal.file w') → resettable b'.
Proof.
  intros [K1 K2 K3 K4 (K5 & _ & _) K6 K7 K8 K9 K10 (_ & K11 & K12)] Hw Hf Hcf Hw' Hres. exists o, w, w'. rewrite Hf, Hcf. by split_and!.
Qed.

Lemma with_reset_id w b2 :
  wal b2 = Some w → Wal.next_lsn w = next_lsn b2 → Wal.next_batch_id w = next_batch_id b2 → with_reset w (fault_injector b2) b2 = b2.
Proof. destruct b2. unfold with_reset, with_log. cbn. intros -> -> ->. done. Qed.

Lemma reset_wal_spec b2 o :
  complete m b ss s b2 o →
  wp (reset_wal lsn) (λ _ b', finished b2 b') (λ _ b', resettable b' ∧ (fault_injector b2 ≠ None ∨ ¬ wal_reliable b)) b2.
Proof.
  intros HC. destruct (so_wal _ _ _ _ (kp_store _ _ _ _ HK)) as [w Hwok]. pose proof (wo_wal _ _ _ _ Hwok) as Hw.
  destruct (cm_same _ _ _ _ _ _ HC) as (Hw2 & Hcf & _). rewrite Hw in Hw2. pose proof Hwok as [_ O2 O3 O4 O5 O6 O7].
  destruct (kept_log n b ss s w HK Hw) as (_ & Hid & Hst). destruct (latest_range n b ss s HK) as (_ & Hl1 & Hl2).
  unfold reset_wal. wp_step. wp_step. rewrite Hw2. destruct (negb _ || _) eqn:Ec.
  - wp_step. apply wp_or_broken, wp_zoom.
    wp_use (WalReset.reset_spec (F:=W) lsn w (fault_injector b2)); [rewrite Hid; apply config_identity, (kp_config _ _ _ _ HK)|lia| |].
    2:{ intros e [w' j'] [Hres Hwhy]. cbn [fst snd] in Hres. rewrite Hid in Hres. split.
        - eapply complete_resettable; [exact HC|exact Hw|done|done|done|exact Hres].
        - destruct Hwhy as [Hn|[Hn|[Hn|Hn]]]; [right; intros Hr; apply Hn; by apply Hr|by left|lia|].
          pose proof (room_syncs _ _ O7). lia. }
    intros _ [w' j'] (_ & Hfr & Hct & Hr & Hj). cbn [fst snd] in *. rewrite Hid in Hfr. wp_step. wp_step. cbn [wal set_injector set_wal].
    wp_step. wp_step. wp_step. change (set_next_batch_id _ _) with (with_reset w' j' b2). exists w', j', [].
    split_and!; [done|by apply (settled_fresh w)| |done|intros Hrw; apply Hr; by apply Hrw].
    eapply complete_resettable; [exact HC|exact Hw|done|done|done|]. pose proof (WalReset.fresh_rep _ _ _ Hfr) as Hrep'.
    assert (volatile (Wal.file w') = WalReset.init_bytes (store_identity (config b)) lsn) as Hv.
    { destruct Hfr as [F1 F2 F3 F4 F5 F6 F7]. by rewrite (rep_bytes _ _ F1), F2, F3, F4, <-init_image. }
    apply WalReset.rewritten; [done|]. by rewrite (WalReset.fresh_durable _ _ _ Hfr).
  - apply orb_false_elim in Ec as [Ec _]. apply negb_false_iff, bool_decide_eq_true in Ec. destruct (settled_old w Hw Ec) as [_ Hset].
    destruct (cm_follows _ _ _ _ _ _ HC) as [F1 _ _]. destruct (cm_counters _ _ _ _ _ _ HC) as (_ & El & Eb).
    injection F1. intros _ Eb2 El2 _ _ _ _ _ _ _. assert (Eid : with_reset w (fault_injector b2) b2 = b2) by (apply with_reset_id; [done|congruence|congruence]).
    wp_step. exists w, (fault_injector b2), ss. split_and!; [by rewrite Eid|done| |by intros ?|intros Hr; by apply Hr].
    eapply complete_resettable; [exact HC|exact Hw|done|done|exact Hw2|]. by apply WalReset.not_truncated.
Qed.

(** ** The whole checkpoint *)

(** A store after a checkpoint: as recoverable as before, without its log. *)
Definition checkpointed b' : Prop :=
  interrupted b' ∧ config b' = config b ∧ after_hit (fault_injector b) (fault_injector b') ∧ (wal_reliable b → wal_reliable b') ∧
  ∃ ss', kept m b' ss' s ∧ unsaved b' ss' = [].

(** Why a checkpoint may fail: a fault of the log, a fault point, or the superblock of
    a new store, whose checksum is not in memory. *)
Definition checkpoint_fault (e : Error) b' : Prop :=
  fault_injector b ≠ None ∨ ¬ wal_reliable b ∨
  lsn = base ∧ ¬ sealed_in b ∧ e = CheckpointFailure "checkpoint invariant check failed: {error}" ∧ broken b' ≠ None.

Lemma finished_checkpointed b2 o b' :
  complete m b ss s b2 o → after_hit (fault_injector b) (fault_injector b2) → finished b2 b' → checkpointed b'.
Proof.
  intros HC Hj (w' & j' & ss' & -> & Hset & Hres & Hj' & Hr). destruct (complete_kept b2 o w' ss' j' HC Hset) as [Hk Hu].
  split; [right; by right|]. split; [apply (cm_same _ _ _ _ _ _ HC)|]. split; [intros E; by apply Hj', Hj|]. split; [|by exists ss'].
  intros Hrw w0 Hw0. injection Hw0 as <-. by apply Hr.
Qed.

(** The reset and the report. *)
Lemma checkpoint_end_spec b2 o (report : Z → CheckpointReport) :
  complete m b ss s b2 o → after_hit (fault_injector b) (fault_injector b2) →
  wp (reset_wal lsn;;
      or_broken (λ _, CheckpointFailure "checkpoint completion was uncertain: {error}") (hit_fault "before_checkpoint_complete");;
      b ← get_st;
      after ← match wal b with Some w => Wal.wal_bytes <$> lift_r (Wal.metrics w) | None => mret 0 end;
      mret (report after))
    (λ r b', (∃ n, r = report n) ∧ checkpointed b') (λ e b', interrupted b' ∧ checkpoint_fault e b') b2.
Proof.
  intros HC Hj. wp_step. wp_use (reset_wal_spec b2 o HC).
  2:{ cbv beta. intros e b' [Hres Hwhy]. split; [right; by right|]. destruct Hwhy as [Hn|Hn]; [left; intros E; by apply Hn, Hj|right; by left]. }
  cbv beta. intros _ b3 (w' & j' & ss' & -> & Hset & Hres & Hj' & Hr). wp_step. apply wp_or_broken, wp_hit_fault.
  2:{ intros e j4 Hj4. split; [right; right; exact Hres|]. left. intros E. by apply Hj4, Hj', Hj. }
  intros j4 J4. change (set_injector j4 (with_reset w' j' b2)) with (with_reset w' j4 b2) in *.
  assert (Hfin : finished b2 (with_reset w' j4 b2)).
  { exists w', j4, ss'. split_and!; [done|done|exact Hres|intros E; by apply J4, Hj'|done]. }
  pose proof (finished_checkpointed b2 o _ HC Hj Hfin) as Hend.
  wp_step. wp_step. change (wal (with_reset w' j4 b2)) with (Some w'). wp_step. wp_step. unfold Wal.metrics.
  pose proof (file_len_spec (Wal.file w')) as Hfl. destruct (file_len (Wal.file w')) as [l|e|k]; [| |done]; apply wp_lift; rsimpl.
  - wp_step. split; [by eexists|done].
  - split; [apply Hend|]. right. left. intros Hrw. by apply Hfl, Hr.
Qed.

Lemma unfinished_refl j : unfinished b (set_injector j b).
Proof.
  split; [done|]. split; [done|]. left. split; [apply (kp_durable _ _ _ _ HK)|exact (partly_refl n b ss s HK)].
Qed.

Lemma dirty_count : Z.of_nat (size (dirty_pages b)) ≤ high_water_page_id b + 1 < U32_MAX + 1.
Proof.
  split.
  - rewrite <-size_dom. assert (dom (dirty_pages b) ⊆ list_to_set (C:=gset Z) (seqZ 0 (high_water_page_id b + 1))) as Hsub.
    { intros i [x Hx]%elem_of_dom. destruct (dirty_page n b ss s HK i x Hx) as [Hi _]. unfold FIRST_DATA_PAGE, Overlay.FIRST_DATA_PAGE in Hi.
      rewrite elem_of_list_to_set, elem_of_seqZ. lia. }
    apply subseteq_size in Hsub. rewrite size_list_to_set, length_seqZ in Hsub by apply NoDup_seqZ.
    destruct (flush_bounds n b ss s HK) as (Hh & _). unfold FIRST_DATA_PAGE, Overlay.FIRST_DATA_PAGE in Hh. lia.
  - destruct (so_represents _ _ _ _ (kp_store _ _ _ _ HK)) as (G & ht & fl & Hi & (_ & _ & _ & Hc) & _).
    pose proof (reach_ge (Overlay.overlay_new b) ht n) as Hr. change (Overlay.high_water_page_id (Overlay.overlay_new b)) with (high_water_page_id b) in Hr. lia.
Qed.

(** The data file becomes complete. *)
Definition sealed_or_old b2 : Prop := lsn ≠ base ∧ sealed_in b2 ∨ lsn = base ∧ (sealed_in b ↔ sealed_in b2).

Lemma seal_spec j b1 :
  Superblock.generation (current_superblock b) < U64_MAX → flush_done b j b1 →
  wp (if base <? lsn then write_checkpoint_superblock lsn else mret tt)
    (λ _ b2, (∃ o, complete m b ss s b2 o) ∧ sealed_or_old b2 ∧ after_hit j (fault_injector b2))
    (λ _ b', interrupted b' ∧ j ≠ None) b1.
Proof.
  intros Hg Hfd. destruct (latest_range n b ss s HK) as (_ & Hl & _). destruct (Z.ltb_spec base lsn) as [Hlt|Hge].
  - wp_use (write_superblock_spec n b ss s HK j b1 Hg Hfd); [|cbv beta; intros e b' [Hu Hj]; split; [by right; left|done]].
    cbv beta. intros _ b2 (f & j1 & sb & v1 & -> & HS & Hd & Hr & Hj1). split; [|split; [left|exact Hj1]].
    + exists (renew b sb). by eapply complete_saved.
    + split; [lia|]. exact (saved_selects n b ss s sb v1 _ HK HS).
  - apply wp_ret. assert (lsn = base) as E by lia. split; [|split; [right; split; [done|]|]].
    + eexists. by eapply complete_unchanged.
    + destruct (nothing_unsaved E) as (_ & _ & Hd2). destruct Hfd as (f & j1 & -> & HF & _). unfold sealed_in.
      assert (∀ sl, page_at (volatile f) (slot_page sl) = page_at (volatile (file b)) (slot_page sl)) as Ep.
      { intros sl. destruct (partly_slot n b ss s _ HK (flushed_part n b ss s _ HK HF) sl) as [?|[_ ?]]; [done|congruence]. }
      pose proof (Ep Superblock.A) as EA. pose proof (Ep Superblock.B) as EB. cbn [slot_page] in EA, EB.
      change (volatile (file (set_dirty ∅ None (with_data f j1 b)))) with (volatile f). by rewrite EA, EB.
    + destruct Hfd as (f & j1 & -> & _ & _ & _ & Hj1). exact Hj1.
Qed.

Lemma checkpoint_spec :
  wp checkpoint (λ r b', checkpoint_report_lsn r = lsn ∧ checkpointed b' ∧ (lsn = base → sealed_in b))
    (λ e b', interrupted b' ∧ checkpoint_fault e b') b.
Proof.
  destruct (so_wal _ _ _ _ (kp_store _ _ _ _ HK)) as [w Hwok]. pose proof (wo_wal _ _ _ _ Hwok) as Hw. pose proof (wo_rep _ _ _ _ Hwok) as Hrep.
  destruct (latest_range n b ss s HK) as (_ & Hl & _). pose proof dirty_count as Hcount.
  assert (Hg : Superblock.generation (current_superblock b) < U64_MAX).
  { destruct (so_represents _ _ _ _ (kp_store _ _ _ _ HK)) as (G & ht & fl & _ & (_ & Hc & _) & _).
    change (Superblock.generation (current_superblock b) + Z.of_nat n < U64_MAX) in Hc. lia. }
  unfold checkpoint. wp_step. wp_step. rewrite (so_broken _ _ _ _ (kp_store _ _ _ _ HK)). wp_step. wp_step. wp_step. apply wp_hit_fault.
  2:{ intros e j1 Hj1. split; [left; apply unfinished_refl|by left]. }
  intros j1 J1. wp_step. wp_step. wp_step. apply (wp_lift_ok _ w); [cbn; by rewrite Hw|]. cbv zeta.
  change (current_superblock (set_injector j1 b)) with (current_superblock b).
  change (dirty_pages (set_injector j1 b)) with (dirty_pages b). change (dirty_superblock (set_injector j1 b)) with (dirty_superblock b).
  change (latest_lsn w (set_injector j1 b)) with (latest_lsn w b). rewrite (latest_lsn_eq w Hrep).
  change (Superblock.checkpoint_lsn (current_superblock b)) with base.
  wp_step. apply wp_fail_when; [intros ?%Z.ltb_lt; lia|]. intros _. wp_step.
  destruct (checkpoint_bytes _ _ _) as [bytes|] eqn:Eb.
  2:{ exfalso. revert Eb. unfold checkpoint_bytes, checked_mul, checked_add. assert (HP : PAGE_SIZE = 4096) by done. rewrite HP.
      unfold U32_MAX, U64_MAX in *. rewrite (proj2 (Z.leb_le _ _)) by lia. cbn [mbind option_bind].
      rewrite (proj2 (Z.leb_le _ _)) by (case_match; lia). cbn [mbind option_bind]. rewrite (proj2 (Z.leb_le _ _)) by (repeat case_match; lia). done. }
  cbn [ok_or]. apply wp_lift. wp_step. unfold Wal.metrics at 1. pose proof (file_len_spec (Wal.file w)) as Hfl.
  destruct (file_len (Wal.file w)) as [l|e|k]; [| |done]; apply wp_lift; rsimpl.
  2:{ split; [left; apply unfinished_refl|]. right. left. intros Hr. by apply Hfl, Hr. }
  wp_step. apply wp_hit_fault.
  2:{ intros e j2 Hj2. split; [left; apply unfinished_refl|]. left. intros E. by apply Hj2, J1. }
  intros j2 J2. change (set_injector j2 (set_injector j1 b)) with (with_data (file b) j2 b). wp_step. apply wp_map_err.
  assert (Hj0 : after_hit (fault_injector b) j2) by (intros E; by apply J2, J1).
  wp_use (flush_dirty_spec n b ss s HK (file b) j2 w); [done|done| |].
  2:{ cbv beta. intros e b' [Hu Hj]. split; [by left|]. left. intros E. by apply Hj, Hj0. }
  cbv beta. intros _ b1 Hfd. assert (Hj1 : fault_injector b = None → fault_injector b1 = None).
  { destruct Hfd as (f & j3 & -> & _ & _ & _ & Hj3). intros E. by apply Hj3, Hj0. }
  wp_step. apply wp_hit_fault.
  2:{ intros e j3 Hj3. split; [|left; intros E; by apply Hj3, Hj1]. left.
      destruct Hfd as (f & j4 & -> & HF & Hd & Hr & _). split; [done|]. split; [done|]. right. cbn. by rewrite Hd. }
  intros j3 J3. assert (Hfd3 : flush_done b (fault_injector b) (set_injector j3 b1)).
  { destruct Hfd as (f & j4 & -> & HF & Hd & Hr & Hj4). exists f, j3. split_and!; try done. intros E. apply J3. cbn. by apply Hj4, Hj0. }
  wp_step. wp_use (seal_spec (fault_injector b) _ Hg Hfd3).
  2:{ cbv beta. intros e b' [Hi Hj]. split; [done|by left]. }
  cbv beta. intros _ b2 ((o & HC) & Hseal & Hj). wp_step. apply wp_or_broken. wp_use (check_complete_spec b2 o HC).
  2:{ cbv beta. intros e b' (_ & (f & -> & Hs) & Hn). split.
      - right. right. destruct (cm_same _ _ _ _ _ _ HC) as (Hw2 & _). rewrite Hw in Hw2.
        eapply complete_resettable; [exact (complete_same b2 o f (fault_injector b2) HC Hs)|exact Hw|done|done|exact Hw2|by apply WalReset.not_truncated].
      - destruct Hseal as [[_ ?]|[E Hi]]; [done|]. right. right. split_and!; [done|by rewrite Hi|done|done]. }
  cbv beta. intros _ b' ((f & -> & Hs) & Hin).
  pose proof (complete_same b2 o f (fault_injector b2) HC Hs) as HC'. change (with_data f (fault_injector b2) b2) with (set_file f b2) in HC'.
  wp_use (checkpoint_end_spec _ o (λ after, mkCheckpointReport lsn (Z.of_nat (size (dirty_pages b))) bytes (saturating_sub l after)) HC' Hj); [|done].
  cbv beta. intros r b' [[k ->] Hc]. split_and!; [done..|]. intros E. destruct Hseal as [[? _]|[_ Hi]]; [done|by apply Hi].
Qed.

(** The check on a store whose superblock in memory is not the one in the file. *)
Lemma unsealed_check : lsn = base → ¬ sealed_in b → (check_invariants b).1 = Err unsealed_error.
Proof.
  intros E Hs. destruct (nothing_unsaved E) as (_ & Hd1 & Hd2). destruct (flush_bounds n b ss s HK) as (_ & _ & _ & _ & Hr).
  assert (Hfd : flush_done b (fault_injector b) b).
  { exists (file b), (fault_injector b). split_and!; [|by apply (flushed_refl n b ss s HK)|apply (kp_durable _ _ _ _ HK)|done|by intros ?].
    unfold with_data. destruct b. simpl in Hd1, Hd2. by subst. }
  pose proof (check_complete_spec b _ (complete_unchanged _ _ E Hfd)) as Hc. unfold wp in Hc.
  destruct (check_invariants b) as [[r|e|k] b']; [by destruct Hc|destruct Hc as [-> _]; done|done].
Qed.
End complete.
End checkpoint.
End Checkpoint.
