(* ===== verification/StoreTheorems.v ===== *)
(** * What the store promises

    The properties of the store as a whole, on files that obey the file contract:
    opening, transactions and reads against the reference database, behaviour under
    faults, and the state of a store that has just been created. *)

From S2P Require Import Prelude Wp Key Core Page Superblock Format FormatLaws Reference Cache Overlay Tree TreeSearch.
From S2P Require Import OverlayReads TreeOps TreeTxn DurableFile CrashFile Wal WalFrames WalReplay WalRecovery WalAppend WalReset.
From S2P Require Import StoreFile Checker Store StoreSpec StorePublish StoreTxn StoreNew TreeTheorems.

Module StoreTheorems.
Import Core FormatLaws DurableFile StoreFile Store StoreSpec OverlayReads Tree TreeOps TreeTxn.
Import WalFrames WalReplay WalRecovery WalAppend WalReset StorePublish StoreTxn StoreNew.

Section theorems.
Context `{C : Crc32c} {CS : Crc32cSpec C} `{FS : DurableFileSpec F} `{WS : DurableFileSpec W} `{JS : FaultInjectorSpec J}.
Abbreviation Store := (BTreeStore F W J).
Implicit Types (b : Store) (o : Overlay.Overlay Store).

(** ** Reads *)

(** What reading through a fresh overlay leaves of the store. *)
Lemma read_only_store_ok n b b' ss s : store_ok n b ss s → read_only b b' → store_ok n b' ss s.
Proof.
  intros [Hrep Hbr [w Hwal]] [R1 R2 R3 [[T1 T2 T3 T4 T5 T6] _]]. split.
  - eapply represents_follows; [exact Hrep|]. split; [|done|done]. rewrite R2. cbn. unfold store_header. cbn.
    by rewrite (wo_wal _ _ _ _ Hwal).
  - congruence.
  - exists w. by eapply wal_ok_same.
Qed.

Lemma reads_store_ok n b ss s K o' :
  store_ok n b ss s → reads_ok K (committed_page b) (store_header b) (untouched b) o' →
  store_ok n (Overlay.store o') ss s ∧ read_only b (Overlay.store o').
Proof.
  intros Hok HK. assert (read_only b (Overlay.store o')) as Hro by (split; apply HK).
  split; [|done]. by eapply read_only_store_ok.
Qed.

Lemma fresh_reads n b ss s :
  store_ok n b ss s → reads_ok ∅ (committed_page b) (store_header b) (untouched b) (Overlay.overlay_new b).
Proof.
  intros [Hrep _ _]. pose proof (new_reads (untouched b) b (represents_serving _ _ _ Hrep)) as Hn. apply Hn, untouched_refl.
Qed.

Lemma get_each_spec n o db keys (rb : Overlay.ResponseBudget) :
  represents n o (Reference.states db) → Forall valid_key keys →
  wp (map_each Overlay.get_state_with_budget keys) (λ rs _, rs = Reference.transact_get db keys)
    (λ e _, too_large e) (o, rb).
Proof.
  intros Hr Hk. eapply wp_mono.
  - apply (wp_map_each _ (λ ob, represents n ob.1 (Reference.states db)) (λ k s, s = Reference.get db k) (λ e _, too_large e)); [done|].
    intros k [o' rb'] Hin (G & ht & fl & Hi & Hr'). pose proof (proj1 (Forall_forall _ _) Hk k Hin) as Hkv.
    wp_use (get_state_spec o' G ht fl _ k rb' Hi Hkv).
    + intros s [o2 rb2] [-> S]. split; [apply state_of_abs|]. eapply represents_sim; [exact S|by exists G, ht, fl].
    + by intros e ob [He _].
  - intros rs ob [HF _]. unfold Reference.transact_get. clear -HF. induction HF; [done|]. by subst.
  - done.
Qed.

Lemma transact_get_spec n b ss db keys budget :
  store_ok n b ss (Reference.states db) → Forall valid_key keys →
  wp (transact_get_with_response_budget keys budget)
    (λ rs b', rs = Reference.transact_get db keys ∧ store_ok n b' ss (Reference.states db) ∧ read_only b b')
    (λ e b', too_large e ∧ store_ok n b' ss (Reference.states db) ∧ read_only b b') b.
Proof.
  intros Hok Hk. unfold transact_get_with_response_budget, check_serving. wp_steps. rewrite (so_broken _ _ _ _ Hok).
  wp_steps. unfold Overlay.transact_get, wp. unfold Overlay.budget_new, fail_if.
  destruct (budget <? _); cbn [mbind Result_bind].
  { split; [by eexists|]. split; [done|]. split; [apply (represents_serving _ _ _ (so_represents _ _ _ _ Hok))|done|done|apply untouched_refl]. }
  pose proof (get_each_spec n _ db keys (Overlay.mkBudget budget (saturating_add budget Overlay.RESPONSE_MEMORY_OVERHEAD)
    Overlay.RESPONSE_WIRE_OVERHEAD 0) (so_represents _ _ _ _ Hok) Hk) as Hg.
  pose proof (keeps_map_each ∅ (committed_page b) (store_header b) (untouched b) fst Overlay.get_state_with_budget keys
    (λ k, keeps_get_state _ _ _ _ (untouched_stable b) k)
    (Overlay.overlay_new b, Overlay.mkBudget budget (saturating_add budget Overlay.RESPONSE_MEMORY_OVERHEAD)
    Overlay.RESPONSE_WIRE_OVERHEAD 0) (fresh_reads _ _ _ _ Hok)) as HK.
  unfold wp in Hg. destruct (map_each _ _ _) as [[rs|e|k] [o' rb']]; [..|done]; cbn [snd fst] in HK;
    apply (reads_store_ok _ _ _ _ _ _ Hok) in HK; tauto.
Qed.

Lemma observe_spec n b ss db keys :
  store_ok n b ss (Reference.states db) → Forall valid_key keys →
  wp (observe keys)
    (λ rs b', rs = observed <$> Reference.transact_get db keys ∧ store_ok n b' ss (Reference.states db) ∧ read_only b b')
    noerr b.
Proof.
  intros Hok Hk. unfold observe, check_serving. wp_steps. rewrite (so_broken _ _ _ _ Hok). wp_steps.
  unfold Overlay.observe, wp.
  assert (Hg : wp (map_each Overlay.get_observed_state keys) (λ rs _, rs = observed <$> Reference.transact_get db keys)
    noerr (Overlay.overlay_new b)).
  { eapply wp_mono.
    - apply (wp_map_each _ (λ o, represents n o (Reference.states db)) (λ k s, s = observed (Reference.get db k)) noerr);
        [apply Hok|].
      intros k o Hin (G & ht & fl & Hi & Hr'). pose proof (proj1 (Forall_forall _ _) Hk k Hin) as Hkv.
      wp_use (get_observed_state_spec o G ht fl _ k Hi Hkv); [|done].
      intros s o2 [-> S]. split; [by rewrite state_of_abs|]. eapply represents_sim; [exact S|by exists G, ht, fl].
    - intros rs o [HF _]. unfold Reference.transact_get. clear -HF. induction HF; [done|]. by subst.
    - done. }
  pose proof (keeps_map_each ∅ (committed_page b) (store_header b) (untouched b) (λ o, o) Overlay.get_observed_state keys
    (λ k, keeps_observed _ _ _ _ (untouched_stable b) k) (Overlay.overlay_new b) (fresh_reads _ _ _ _ Hok)) as HK.
  unfold wp in Hg. destruct (map_each _ _ _) as [[rs|e|k] o']; [|done..]. cbn [snd] in HK.
  apply (reads_store_ok _ _ _ _ _ _ Hok) in HK. tauto.
Qed.
(** ** Properties *)

(** C3: a group of transactions on the store with a log refines the reference
    database.  On files without faults it returns, the results are those of the
    reference running the requests in order, and afterwards the store represents the
    reference's new states while its log, all of it durable, holds the earlier
    commits followed by those of the group.  The keys of the database and of the
    group have at most 1464 encoded bytes, or more than the documented limit: in
    between a page may not have room for them. *)
Theorem store_group_refines_reference n b ss db qs :
  store_ok n b ss (Reference.states db) → short_keys (Reference.states db) → (writes qs ≤ n)%nat → Forall keys_fit qs →
  fault_injector b = None → wal_reliable b →
  ∃ rs b' cs db', apply_transaction_group qs b = (Ok rs, b') ∧ group_run (limits (config b)) db qs rs db' ∧
    store_ok (n - writes qs) b' (ss ++ segments_of (next_lsn b) cs) (Reference.states db') ∧
    short_keys (Reference.states db') ∧ fault_injector b' = None ∧ wal_reliable b'.
Proof.
  intros Hok Hsk Hn Hwf Hj Hw. pose proof (apply_group_spec n b ss db qs Hok Hn Hwf Hsk) as Hg.
  unfold wp in Hg. destruct (apply_transaction_group qs b) as [[rs|e|k] b']; [..|done].
  - destruct Hg as [(cs & db' & Hrun & Hok') _ Hj' Hw']. exists rs, b', cs, db'.
    split_and!; auto. by eapply group_run_short.
  - destruct Hg as [[?|?] _]; done.
Qed.

(** C4: under any schedule of errors of the log file and of injected faults a group
    of transactions is fail-stop; the data file, which a group only reads, has no
    read errors.  The group never panics; an error only comes from a fault;
    and after the error either the store serves no more, with the old pages and
    allocator state in memory, or every commit of the group had been logged and
    published.  The keys are bounded as for the refinement. *)
Theorem store_group_fail_stop n b ss db qs :
  store_ok n b ss (Reference.states db) → short_keys (Reference.states db) → (writes qs ≤ n)%nat → Forall keys_fit qs →
  match apply_transaction_group qs b with
  | (Ok rs, b') => ∃ cs db', group_run (limits (config b)) db qs rs db' ∧
      store_ok (n - writes qs) b' (ss ++ segments_of (next_lsn b) cs) (Reference.states db')
  | (Err _, b') => (fault_injector b ≠ None ∨ ¬ wal_reliable b) ∧
      (broken b' ≠ None ∧ store_header b' = store_header b ∧ (∀ i, committed_page b' i = committed_page b i) ∨
       ∃ rs cs db', group_run (limits (config b)) db qs rs db' ∧
         store_ok (n - writes qs) b' (ss ++ segments_of (next_lsn b) cs) (Reference.states db'))
  | (Stuck _, _) => False
  end.
Proof.
  intros Hok Hsk Hn Hwf. pose proof (apply_group_spec n b ss db qs Hok Hn Hwf Hsk) as Hg.
  unfold wp in Hg. destruct (apply_transaction_group qs b) as [[rs|e|k] b']; [..|done].
  - apply Hg.
  - destruct Hg as [Hwhy [(H1' & H2' & H3' & _)|[rs [Hs _ _ _]]]]; (split; [done|]); [by left|right; by exists rs].
Qed.

(** C20: point reads and observations on the store return the reference states of
    their keys and leave the store as it was, up to its cache; only the response
    budget can refuse a read. *)
Theorem store_reads_refine_reference n b ss db keys budget :
  store_ok n b ss (Reference.states db) → Forall valid_key keys →
  match transact_get_with_response_budget keys budget b with
  | (Ok rs, b') => rs = Reference.transact_get db keys ∧ store_ok n b' ss (Reference.states db)
  | (Err e, b') => (∃ m, e = ResponseTooLarge m) ∧ store_ok n b' ss (Reference.states db)
  | (Stuck _, _) => False
  end ∧
  ∃ b', observe keys b = (Ok (observed <$> Reference.transact_get db keys), b') ∧
    store_ok n b' ss (Reference.states db).
Proof.
  intros Hok Hk. split.
  - pose proof (transact_get_spec n b ss db keys budget Hok Hk) as Hg. unfold wp in Hg.
    destruct (transact_get_with_response_budget keys budget b) as [[rs|e|k] b']; [tauto|tauto|done].
  - pose proof (observe_spec n b ss db keys Hok Hk) as Hg. unfold wp in Hg.
    destruct (observe keys b) as [[rs|e|k] b']; [|done..]. destruct Hg as (-> & ? & _). by exists b'.
Qed.

(** C21: a store that saw an uncertain persistence failure serves nothing any more:
    publishing, transactional reads, observations and checkpoints are refused and
    change nothing. *)
Theorem broken_store_refuses b m ps keys budget :
  broken b = Some m →
  publish_prepared_group ps b = (Err (not_serving m), b) ∧
  transact_get_with_response_budget keys budget b = (Err (not_serving m), b) ∧
  observe keys b = (Err (not_serving m), b) ∧
  checkpoint b = (Err (CheckpointFailure ("storage shard is degraded: " +:+ m)), b).
Proof.
  intros Hb.
  assert (Hs : check_serving b = (Err (not_serving m), b)).
  { unfold check_serving, mbind, St_bind, get_st. by rewrite Hb. }
  unfold publish_prepared_group, transact_get_with_response_budget, observe, mbind, St_bind. rewrite !Hs.
  split_and!; try done. unfold checkpoint, mbind, St_bind, get_st. by rewrite Hb.
Qed.

(** Opening two empty files creates a database: the call succeeds, the store
    represents the empty reference database, and its log is durable and holds no
    commit. *)
Theorem open_creates_empty_store cfg n (s : Files (F:=F) (W:=W) (J:=J)) :
  config_ok cfg → volatile (data_file s) = [] → volatile (wal_file s) = [] → Z.of_nat n ≤ FRESH_WRITES →
  reliable (data_file s) → reliable (wal_file s) →
  ∃ b s', open_with_wal_internal cfg s = (Ok b, s') ∧
    store_ok n b [] (Reference.states Reference.new) ∧ fault_injector b = injector s ∧ wal_reliable b.
Proof.
  intros Hcfg Hd Hw Hn Rd Rw. pose proof (open_new_spec cfg n s Hcfg Hd Hw Hn Rd Rw) as Ho. unfold wp in Ho.
  destruct (open_with_wal_internal cfg s) as [[b|e|k] s']; [|done..]. destruct Ho as (H1' & _ & H2' & H3' & _).
  by exists b, s'.
Qed.
End theorems.

(** ** Concrete instances *)
Section examples.
#[local] Existing Instance Castagnoli.instance.
#[local] Existing Instance Castagnoli.spec.
Abbreviation TestStore := (BTreeStore CrashFile.CrashableFile CrashFile.CrashableFile CrashFile.CrashInjector).

Definition empty_files (j : option CrashFile.CrashInjector) :
    Files (F:=CrashFile.CrashableFile) (W:=CrashFile.CrashableFile) (J:=CrashFile.CrashInjector) :=
  mkFiles CrashFile.new CrashFile.new j.

Lemma default_config_ok : config_ok default_config.
Proof.
  split.
  - split; [apply is_bytes_zeros|done].
  - vm_compute. repeat split; congruence.
  - by vm_compute.
  - by vm_compute.
Qed.

Lemma opened_store j n :
  Z.of_nat n ≤ FRESH_WRITES →
  ∃ (b : TestStore) s', open_with_wal_internal default_config (empty_files j) = (Ok b, s') ∧
    store_ok n b [] (Reference.states Reference.new) ∧ fault_injector b = j ∧ wal_reliable b.
Proof.
  intros Hn. pose proof (open_new_spec default_config n (empty_files j) default_config_ok eq_refl eq_refl Hn) as Ho.
  unfold wp in Ho. destruct (open_with_wal_internal _ _) as [[b|e|k] s'].
  - exists b, s'. destruct Ho as (? & _ & ? & ? & _); [done|done|]. done.
  - by destruct Ho.
  - by destruct Ho.
Qed.

Lemma open_creates_empty_store_witness :
  ∃ (b : TestStore) s', open_with_wal_internal default_config (empty_files None) = (Ok b, s') ∧
    store_ok 10 b [] (Reference.states Reference.new) ∧ fault_injector b = None ∧ wal_reliable b.
Proof.
  apply (open_creates_empty_store default_config 10 (empty_files None)).
  - exact default_config_ok.
  - reflexivity.
  - reflexivity.
  - lia.
  - done.
  - done.
Defined.

Lemma sample_group_wf : Forall keys_fit [TreeTheorems.sample_conflict; TreeTheorems.sample_put].
Proof. apply Forall_cons_2; [exact TreeTheorems.sample_conflict_fits|]. apply Forall_singleton, TreeTheorems.sample_put_fits. Qed.

Lemma store_group_refines_reference_witness :
  ∃ b : TestStore, let qs := [TreeTheorems.sample_conflict; TreeTheorems.sample_put] in
  ∃ rs b' cs db', apply_transaction_group qs b = (Ok rs, b') ∧ group_run (limits (config b)) Reference.new qs rs db' ∧
    store_ok (5 - writes qs) b' ([] ++ segments_of (next_lsn b) cs) (Reference.states db') ∧
    short_keys (Reference.states db') ∧ fault_injector b' = None ∧ wal_reliable b'.
Proof.
  destruct (opened_store None 5) as (b & s' & _ & Hok & Hj & Hr); [lia|]. exists b.
  apply (store_group_refines_reference 5 b [] Reference.new _ Hok);
    [exact TreeTheorems.empty_short|vm_compute; lia|exact sample_group_wf|exact Hj|exact Hr].
Defined.

(** An injector that fails just before the commit is published. *)
Definition failing : option CrashFile.CrashInjector := Some (CrashFile.crash_at "before_publish" 1).

Lemma store_group_fail_stop_witness :
  ∃ b : TestStore, fault_injector b = failing ∧
  let qs := [TreeTheorems.sample_put] in
  match apply_transaction_group qs b with
  | (Ok rs, b') => ∃ cs db', group_run (limits (config b)) Reference.new qs rs db' ∧
      store_ok (5 - writes qs) b' ([] ++ segments_of (next_lsn b) cs) (Reference.states db')
  | (Err _, b') => (fault_injector b ≠ None ∨ ¬ wal_reliable b) ∧
      (broken b' ≠ None ∧ store_header b' = store_header b ∧ (∀ i, committed_page b' i = committed_page b i) ∨
       ∃ rs cs db', group_run (limits (config b)) Reference.new qs rs db' ∧
         store_ok (5 - writes qs) b' ([] ++ segments_of (next_lsn b) cs) (Reference.states db'))
  | (Stuck _, _) => False
  end.
Proof.
  destruct (opened_store failing 5) as (b & s' & _ & Hok & Hj & Hr); [lia|]. exists b. split; [exact Hj|].
  apply (store_group_fail_stop 5 b [] Reference.new _ Hok); [exact TreeTheorems.empty_short|vm_compute; lia|].
  apply Forall_cons_2; [exact TreeTheorems.sample_put_fits|apply Forall_nil_2].
Defined.

Lemma store_reads_refine_reference_witness :
  ∃ b b' : TestStore, observe [TreeTheorems.sample_key] b = (Ok [ObservedMissing 0], b').
Proof.
  destruct (opened_store None 5) as (b & s' & _ & Hok & _); [lia|]. exists b.
  destruct (store_reads_refine_reference 5 b [] Reference.new [TreeTheorems.sample_key] 100 Hok) as [_ (b' & Hb & _)].
  { apply Forall_cons_2; [exact TreeTheorems.sample_key_valid|apply Forall_nil_2]. }
  exists b'. exact Hb.
Defined.

Definition new_store : option TestStore :=
  match (open_with_wal_internal default_config (empty_files None)).1 with Ok b => Some b | _ => None end.

Lemma broken_store_refuses_witness :
  ∃ b : TestStore, new_store = Some b ∧
    publish_prepared_group [] (set_broken (Some "sync failed") b) =
      (Err (not_serving "sync failed"), set_broken (Some "sync failed") b).
Proof.
  destruct (opened_store None 5) as (b & s' & Hb & _); [lia|]. exists b.
  split; [unfold new_store; rewrite Hb; reflexivity|].
  apply (broken_store_refuses (set_broken (Some "sync failed") b) "sync failed" [] [] 0). reflexivity.
Defined.

(** A request whose second mutation is within the limits on keys and values but does
    not fit a leaf, and a request that has nothing to do with it. *)
Definition long_key : DocumentKey := Key.new (repeat 1 3900) [2].
Definition oversized : TransactionRequest :=
  mkRequest [] [Put TreeTheorems.sample_key [3; 4]; Put long_key (zeros 500)].
Definition unrelated : TransactionRequest := mkRequest [] [Put (Key.new [9] [9]) [5]].

(** A rejected transaction can be committed in part.  In this group, a transaction
    whose second put does not fit a leaf is answered with an error, and its first put
    stays in the overlay that the group shares; the next transaction of the group
    commits it. *)
Example rejected_transaction_leaks :
  ∃ (b b' : TestStore) message lsn, new_store = Some b ∧
    apply_transaction_group [oversized; unrelated] b =
      (Ok [Err (InvalidInput message); Ok (mkResult (Some lsn))], b') ∧
    (observe [TreeTheorems.sample_key; long_key] b').1 = Ok [ObservedPresent lsn; ObservedMissing 0].
Proof.
  assert (Hr : (λ b, let '(r, b') := apply_transaction_group [oversized; unrelated] b in
      (r, (observe [TreeTheorems.sample_key; long_key] b').1)) <$> new_store =
    Some (Ok [Err (InvalidInput "a single leaf entry exceeds page capacity"); Ok (mkResult (Some 3))],
          Ok [ObservedPresent 3; ObservedMissing 0])) by (vm_compute; reflexivity).
  destruct new_store as [b|]; [|discriminate Hr]. cbn [fmap option_fmap option_map] in Hr.
  destruct (apply_transaction_group [oversized; unrelated] b) as [r b'] eqn:Eg. injection Hr as -> Ho.
  exists b, b', "a single leaf entry exceeds page capacity"%string, 3. by rewrite Eg.
Qed.
End examples.
End StoreTheorems.
