(* ===== verification/DurabilityTheorems.v ===== *)
(** * Properties of recovery

    What the store promises about a crash: the files it leaves can always be opened,
    and what is found in them is the reference database after the first requests of
    the group that was running. *)

From S2P Require Import Prelude Wp Key Core Page Superblock Format FormatLaws Reference Cache Overlay Tree TreeSearch.
From S2P Require Import OverlayReads TreeOps TreeTxn DurableFile CrashFile Wal WalFrames WalReplay WalRecovery WalAppend WalCrash WalReset.
From S2P Require Import StoreFile Checker Store StoreSpec StorePublish StoreTxn StoreNew Redo Recovery Reopen Durability.
From S2P Require Import CheckpointFile CheckpointSteps Checkpoint.
From S2P Require TreeTheorems StoreTheorems.

Module DurabilityTheorems.
Import Core DurableFile Store StoreSpec Tree TreeTxn WalReplay WalRecovery WalAppend WalCrash StorePublish StoreTxn StoreNew.
Import Recovery Durability CheckpointFile CheckpointSteps Checkpoint.

Section theorems.
Context `{C : Crc32c} {CS : Crc32cSpec C} `{FS : DurableFileSpec F} `{WS : DurableFileSpec W} `{JS : FaultInjectorSpec J}.
Abbreviation Store := (BTreeStore F W J).
Implicit Types (b : Store) (fs : Files (F:=F) (W:=W) (J:=J)).

(** A new store has its superblock in memory without the checksum. *)
Lemma new_unsealed cfg b :
  config_ok cfg → brand_new cfg b → Superblock.superblock_checksum (Superblock.image (initial_superblock cfg)) ≠ 0 → ¬ sealed_in b.
Proof.
  intros Hcfg [(f & w & j & -> & _) Hnf _] Hne. unfold sealed_in. cbn in Hnf.
  assert (Hd : ∀ sl, Superblock.decode_superblock (StoreSpec.page_at (volatile f) (slot_page sl)) =
    Ok (Superblock.with_checksum (initial_superblock cfg) (Superblock.superblock_checksum (Superblock.image (initial_superblock cfg))))).
  { intros sl. pose proof (nf_superblocks _ _ Hnf sl) as He. rewrite (Superblock.decode_encoded _ _ (initial_superblock_wf _ Hcfg) He).
    apply Superblock.encode_superblock_Ok in He as [-> _]. by rewrite Superblock.sealed_superblock_checksum. }
  pose proof (Hd Superblock.A) as Ha. pose proof (Hd Superblock.B) as Hb. cbn [slot_page] in Ha, Hb. cbn [file set_next_batch_id set_next_lsn fresh_store].
  unfold Superblock.choose_superblock. rewrite Ha, Hb. cbn. intros [= E]. by apply Hne.
Qed.

(** C1: a crash loses no acknowledged transaction and leaves no transaction in part.
    A group of transactions runs on the store under any faults of the log and at any
    fault point, the system stops, and of the bytes of the log that were not synced
    any prefix survives; the data file, which a group only reads, has no read errors.
    Opening the two files then succeeds, the store that it
    returns passes its own check, and it represents the reference database after
    some first requests of the group, with the results that the group had for them;
    if the group was acknowledged, after all of them, with the results that were
    returned.  The new store is as recoverable as the old one was.  The keys of the
    database and of the group have at most 1464 encoded bytes, or more than the
    documented limit. *)
Theorem crash_recovers_prefix n b ss db qs c fs :
  kept n b ss (Reference.states db) → short_keys (Reference.states db) → (writes qs ≤ n)%nat → Forall keys_fit qs →
  len c + Z.of_nat n * 2 ^ 45 ≤ U64_MAX →
  let '(r, b') := apply_transaction_group qs b in
  crashed b' c → found (durable (file b')) c fs →
  ∃ b2 fs2 ss2 qs1 qs2 rs db1, open_with_wal_internal (config b) fs = (Ok b2, fs2) ∧
    qs = qs1 ++ qs2 ∧ group_run (limits (config b)) db qs1 (take (length qs1) rs) db1 ∧
    (∀ rs', r = Ok rs' → qs2 = [] ∧ group_run (limits (config b)) db qs rs' db1) ∧
    kept (n - writes qs) b2 ss2 (Reference.states db1) ∧ config b2 = config b ∧
    fault_injector b2 = None ∧ wal_reliable b2 ∧ passes b2.
Proof. intros HK Hsk Hn Hwf. by apply (group_crash n b ss db qs c fs HK Hn Hwf Hsk). Qed.

(** C5: a store stays recoverable.  After a group of transactions that was
    acknowledged, the data file is as it was, and with the log it still
    determines the state of the store: that of the reference database after the
    group.  The keys are bounded as for crashes. *)
Theorem group_keeps_recoverable n b ss db qs rs b' :
  kept n b ss (Reference.states db) → short_keys (Reference.states db) → (writes qs ≤ n)%nat → Forall keys_fit qs →
  apply_transaction_group qs b = (Ok rs, b') →
  volatile (file b') = volatile (file b) ∧ durable (file b') = durable (file b) ∧
  ∃ cs db', group_run (limits (config b)) db qs rs db' ∧ short_keys (Reference.states db') ∧
    kept (n - writes qs) b' (ss ++ segments_of (next_lsn b) cs) (Reference.states db').
Proof.
  intros HK Hsk Hn Hwf Hr. pose proof (apply_group_spec n b ss db qs (kp_store _ _ _ _ HK) Hn Hwf Hsk) as Hs.
  unfold wp in Hs. rewrite Hr in Hs. destruct (group_data_file _ _ _ _ _ _ _ Hs) as [V D].
  destruct (kept_group _ _ _ _ _ _ _ HK Hs) as (cs & db' & Hrun & Hk). split_and!; [done..|].
  exists cs, db'. split_and!; [done| |done]. by eapply group_run_short.
Qed.

(** C2: a checkpoint can be interrupted anywhere.  It runs on the store under any
    faults of the log and at any fault point, and the system stops; of the pages of
    the data file that were written and not synced any may have reached the disk, or
    be torn if they are not a superblock, and of the log any prefix of what was not
    synced survives.  Opening the two files then succeeds and gives the same database
    as before, in a store that passes its own check and is recoverable in turn. *)
Theorem checkpoint_crash_safe n m b ss s v c fs :
  kept n b ss s → (m < n)%nat →
  let b' := (checkpoint b).2 in
  page_mix (durable (file b')) (volatile (file b')) v → crashed b' c → found v c fs →
  ∃ b2 fs2 ss2, open_with_wal_internal (config b) fs = (Ok b2, fs2) ∧ kept m b2 ss2 s ∧ config b2 = config b ∧
    fault_injector b2 = None ∧ wal_reliable b2 ∧ passes b2.
Proof.
  intros HK Hm b' Hv Hc Hf. apply (interrupted_opens n m b ss s HK Hm b' v c fs); [|by split|done].
  pose proof (checkpoint_spec n m b ss s HK Hm) as Hs. unfold wp in Hs. subst b'.
  destruct (checkpoint b) as [[r|e|k] b']; [apply Hs|apply Hs|done].
Qed.

(** C6: a checkpoint does what it is for.  On a store without faults, on which a
    transaction was committed since the last checkpoint or whose superblock in memory
    is the one in the file, it succeeds; it reports the newest commit, and leaves a
    recoverable store with the same database whose data file needs nothing of the log
    any more. *)
Theorem checkpoint_keeps_database n m b ss s :
  kept n b ss s → (m < n)%nat → fault_injector b = None → wal_reliable b →
  let lsn := latest (base_lsn (Overlay.overlay_new b)) (commits ss) in
  lsn ≠ base_lsn (Overlay.overlay_new b) ∨ sealed_in b →
  ∃ report b' ss', checkpoint b = (Ok report, b') ∧ checkpoint_report_lsn report = lsn ∧ config b' = config b ∧
    wal_reliable b' ∧ fault_injector b' = None ∧ kept m b' ss' s ∧ unsaved b' ss' = [].
Proof.
  intros HK Hm Hj0 Hr0 lsn Hl. pose proof (checkpoint_spec n m b ss s HK Hm) as Hs. unfold wp in Hs.
  destruct (checkpoint b) as [[r|e|k] b']; [|destruct Hs as [_ [?|[?|(? & ? & _)]]]; [done|done|by destruct Hl]|done].
  destruct Hs as (E & (_ & Hcf & Hj & Hr & ss' & Hk & Hu) & _). exists r, b', ss'. split_and!; auto.
Qed.

(** C23: a store that was just created fails its own check.  Its superblock in memory
    has a zero checksum, and the copies in the file have the computed one: unless that
    is zero too, a checkpoint before the first commit fails on files without faults and
    takes the shard out of service. *)
Theorem new_store_fails_checkpoint cfg (s : Files (F:=F) (W:=W) (J:=J)) :
  config_ok cfg → volatile (data_file s) = [] → volatile (wal_file s) = [] →
  reliable (data_file s) → reliable (wal_file s) → injector s = None →
  Superblock.superblock_checksum (Superblock.image (initial_superblock cfg)) ≠ 0 →
  ∃ b s', open_with_wal_internal cfg s = (Ok b, s') ∧ broken b = None ∧
    (check_invariants b).1 = Err (Corruption "in-memory superblock is not the selected file copy") ∧
    (checkpoint b).1 = Err (CheckpointFailure "checkpoint invariant check failed: {error}") ∧
    broken (checkpoint b).2 ≠ None.
Proof.
  intros Hcfg Hd Hw Rd Rw Hj Hne. pose proof (open_new_spec cfg 1 s Hcfg Hd Hw ltac:(by vm_compute) Rd Rw) as Ho. unfold wp in Ho.
  destruct (open_with_wal_internal cfg s) as [[b|e|k] s']; [|done..]. destruct Ho as (Hok & Ecfg & Ej & Hr & _ & Hnew).
  pose proof (new_kept cfg 1 b Hcfg Hnew Ecfg Hok) as HK. pose proof (new_unsealed cfg b Hcfg Hnew Hne) as Hs.
  pose proof (unsealed_check 1 0 b [] ∅ HK ltac:(lia) eq_refl Hs) as Hcheck.
  pose proof (checkpoint_spec 1 0 b [] ∅ HK ltac:(lia)) as Hc. unfold wp in Hc. exists b, s'.
  destruct (checkpoint b) as [[r|e|k] b']; [..|done].
  - destruct Hc as (_ & _ & Hc). destruct Hs. by apply Hc.
  - destruct Hc as [_ [Hn|[Hn|(_ & _ & -> & ?)]]]; [congruence|done|]. split_and!; [done|apply Hok|done..].
Qed.
End theorems.

(** ** Concrete instances *)
Section examples.
#[local] Existing Instance Castagnoli.instance.
#[local] Existing Instance Castagnoli.spec.
Abbreviation TestStore := (BTreeStore CrashFile.CrashableFile CrashFile.CrashableFile CrashFile.CrashInjector).

Lemma opened_kept j n :
  Z.of_nat n ≤ FRESH_WRITES →
  ∃ (b : TestStore) s', open_with_wal_internal default_config (StoreTheorems.StoreTheorems.empty_files j) = (Ok b, s') ∧
    kept n b [] (Reference.states Reference.new) ∧ config b = default_config.
Proof.
  intros Hn. pose proof (open_new_spec default_config n (StoreTheorems.StoreTheorems.empty_files j)
    StoreTheorems.StoreTheorems.default_config_ok eq_refl eq_refl Hn) as Ho.
  unfold wp in Ho. destruct (open_with_wal_internal _ _) as [[b|e|k] s'].
  - exists b, s'. destruct Ho as (H1' & H2' & _ & _ & _ & H5'); [done|done|]. split; [done|]. split; [|exact H2'].
    eapply (new_kept default_config); [apply StoreTheorems.StoreTheorems.default_config_ok|done..].
  - by destruct Ho.
  - by destruct Ho.
Qed.

(** The files after a restart. *)
Definition restart_files (v c : bytes) : Files (F:=CrashFile.CrashableFile) (W:=CrashFile.CrashableFile) (J:=CrashFile.CrashInjector) :=
  mkFiles (CrashFile.from_durable v) (CrashFile.from_durable c) None.
Lemma restart_found v c : found v c (restart_files v c).
Proof. by split. Qed.

(** A group that fails before it is published, and the bytes of the log then. *)
Definition group : list TransactionRequest := [TreeTheorems.TreeTheorems.sample_conflict; TreeTheorems.TreeTheorems.sample_put].
Definition log_left (b : TestStore) : option bytes :=
  (λ w, volatile (Wal.file w)) <$> wal (apply_transaction_group group b).2.
Definition failing_store : option TestStore :=
  match (open_with_wal_internal default_config (StoreTheorems.StoreTheorems.empty_files StoreTheorems.StoreTheorems.failing)).1 with
  | Ok b => Some b
  | _ => None
  end.

Lemma failing_log :
  (b ← failing_store; c ← log_left b; Some (is_ok (apply_transaction_group group b).1, len c <=? 2 ^ 40)) = Some (false, true).
Proof. by vm_compute. Qed.

Lemma crash_recovers_prefix_witness :
  ∃ (b : TestStore) c fs, kept 5 b [] (Reference.states Reference.new) ∧
    let '(r, b') := apply_transaction_group group b in
    is_ok r = false ∧ crashed b' c ∧ found (durable (file b')) c fs ∧
    ∃ b2 fs2 ss2 qs1 qs2 rs db1, open_with_wal_internal (config b) fs = (Ok b2, fs2) ∧
      group = qs1 ++ qs2 ∧ group_run (limits (config b)) Reference.new qs1 (take (length qs1) rs) db1 ∧
      (∀ rs', r = Ok rs' → qs2 = [] ∧ group_run (limits (config b)) Reference.new group rs' db1) ∧
      kept (5 - writes group) b2 ss2 (Reference.states db1) ∧ config b2 = config b ∧
      fault_injector b2 = None ∧ wal_reliable b2 ∧ passes b2.
Proof.
  destruct (opened_kept StoreTheorems.StoreTheorems.failing 5) as (b & s' & Ho & HK & Hcfg); [lia|]. exists b.
  pose proof failing_log as Hl. unfold failing_store in Hl. rewrite Ho in Hl. cbn [fst mbind option_bind] in Hl.
  unfold log_left in Hl. pose proof (crash_recovers_prefix 5 b [] Reference.new group) as Ht.
  destruct (apply_transaction_group group b) as [r b']. cbn [fst snd] in Hl.
  destruct (wal b') as [w|] eqn:Ew; [|discriminate Hl]. cbn [fmap option_fmap option_map mbind option_bind] in Hl.
  set (c := volatile (Wal.file w)) in *. injection Hl as Hr Hlen.
  exists c, (restart_files (durable (file b')) c).
  assert (Hc : crashed b' c) by (exists w; split; [exact Ew|right; right; reflexivity]).
  pose proof (restart_found (durable (file b')) c) as Hf.
  split; [exact HK|]. split; [exact Hr|]. split; [exact Hc|]. split; [exact Hf|].
  refine (Ht c _ HK TreeTheorems.TreeTheorems.empty_short _ StoreTheorems.StoreTheorems.sample_group_wf _ Hc Hf); [vm_compute; lia|].
  apply Z.leb_le in Hlen. unfold U64_MAX. lia.
Defined.
Lemma sample_acknowledged :
  (λ b, is_ok (apply_transaction_group group b).1) <$> StoreTheorems.StoreTheorems.new_store = Some true.
Proof. by vm_compute. Qed.

Lemma group_keeps_recoverable_witness :
  ∃ (b : TestStore) rs b', kept 5 b [] (Reference.states Reference.new) ∧ apply_transaction_group group b = (Ok rs, b') ∧
    volatile (file b') = volatile (file b) ∧ durable (file b') = durable (file b) ∧
    ∃ cs db', group_run (limits (config b)) Reference.new group rs db' ∧ short_keys (Reference.states db') ∧
      kept (5 - writes group) b' ([] ++ segments_of (next_lsn b) cs) (Reference.states db').
Proof.
  destruct (opened_kept None 5) as (b & s' & Ho & HK & Hcfg); [lia|]. pose proof sample_acknowledged as Ha.
  unfold StoreTheorems.StoreTheorems.new_store in Ha. rewrite Ho in Ha. cbn [fst fmap option_fmap option_map] in Ha.
  destruct (apply_transaction_group group b) as [r b'] eqn:Er. cbn [fst] in Ha.
  destruct r as [rs|e|k]; [|discriminate Ha..]. exists b, rs, b'. split; [exact HK|]. split; [exact Er|].
  refine (group_keeps_recoverable 5 b [] Reference.new group rs b' HK TreeTheorems.TreeTheorems.empty_short _ StoreTheorems.StoreTheorems.sample_group_wf Er). vm_compute. lia.
Defined.

(** A new store that was closed and opened again. *)
Definition reopened_files : option (Files (F:=CrashFile.CrashableFile) (W:=CrashFile.CrashableFile) (J:=CrashFile.CrashInjector)) :=
  b ← StoreTheorems.StoreTheorems.new_store; w ← wal b; Some (restart_files (volatile (file b)) (volatile (Wal.file w))).
Definition reopened_store : option TestStore :=
  fs ← reopened_files;
  match (open_with_wal_internal default_config fs).1 with Ok b => Some b | _ => None end.

Lemma reopened_store_kept :
  ∃ b ss, reopened_store = Some b ∧ kept 4 b ss (Reference.states Reference.new) ∧ fault_injector b = None ∧ wal_reliable b.
Proof.
  destruct (opened_kept None 5) as (b & s' & Ho & HK & Hcfg); [lia|].
  destruct (so_wal _ _ _ _ (kp_store _ _ _ _ HK)) as [w Hwok]. pose proof (wo_wal _ _ _ _ Hwok) as Hw.
  destruct (unsaved_opens 5 b [] (Reference.states Reference.new) w HK Hw 4 (volatile (file b))
    (restart_files (volatile (file b)) (volatile (Wal.file w)))) as (b2 & fs2 & ss2 & Ho2 & HK2 & _ & Hj2 & Hr2 & _); [lia|apply HK|apply restart_found|].
  exists b2, ss2. split; [|exact (conj HK2 (conj Hj2 Hr2))]. unfold reopened_store, reopened_files, StoreTheorems.StoreTheorems.new_store.
  rewrite Ho. cbn [fst mbind option_bind]. rewrite Hw. cbn [mbind option_bind]. by rewrite <-Hcfg, Ho2.
Qed.

Lemma reopened_checkpoint :
  (b ← reopened_store; w ← wal (checkpoint b).2;
   Some (is_ok (checkpoint b).1, len (durable (file (checkpoint b).2)) =? 3 * Page.PAGE_SIZE,
     len (volatile (file (checkpoint b).2)) =? 3 * Page.PAGE_SIZE)) = Some (true, true, true).
Proof. by vm_compute. Qed.

Lemma reopened_sealed : match reopened_store with Some b => sealed_in b | None => False end.
Proof. vm_compute. reflexivity. Qed.

Lemma page_mix_old (v v' : bytes) k : len v = k * Page.PAGE_SIZE → len v' = len v → page_mix v v' v.
Proof.
  intros Hk Hl. split; [exists k; split; [done|lia]|]. intros i Hi Hin. left. unfold padded. by rewrite decide_True.
Qed.

Lemma checkpoint_crash_safe_witness :
  ∃ (b : TestStore) ss v c fs, kept 4 b ss (Reference.states Reference.new) ∧
    let b' := (checkpoint b).2 in
    page_mix (durable (file b')) (volatile (file b')) v ∧ crashed b' c ∧ found v c fs ∧
    ∃ b2 fs2 ss2, open_with_wal_internal (config b) fs = (Ok b2, fs2) ∧ kept 3 b2 ss2 (Reference.states Reference.new) ∧
      config b2 = config b ∧ fault_injector b2 = None ∧ wal_reliable b2 ∧ passes b2.
Proof.
  destruct reopened_store_kept as (b & ss & Hb & HK & _). pose proof reopened_checkpoint as Hc. rewrite Hb in Hc. cbn [mbind option_bind] in Hc.
  pose proof (checkpoint_crash_safe 4 3 b ss (Reference.states Reference.new)) as Ht. exists b, ss.
  destruct (checkpoint b) as [r b']. cbn [fst snd] in *. destruct (wal b') as [w|] eqn:Ew; [|discriminate Hc]. cbn [mbind option_bind] in Hc.
  injection Hc as _ Hd Hv. apply Z.eqb_eq in Hd. apply Z.eqb_eq in Hv.
  exists (durable (file b')), (volatile (Wal.file w)), (restart_files (durable (file b')) (volatile (Wal.file w))).
  assert (Hm : page_mix (durable (file b')) (volatile (file b')) (durable (file b'))).
  { apply (page_mix_old _ _ 3); [exact Hd|]. exact (eq_trans Hv (eq_sym Hd)). }
  assert (Hcr : crashed b' (volatile (Wal.file w))) by (exists w; split; [exact Ew|right; right; reflexivity]).
  pose proof (restart_found (durable (file b')) (volatile (Wal.file w))) as Hf.
  split; [exact HK|]. split; [exact Hm|]. split; [exact Hcr|]. split; [exact Hf|].
  refine (Ht _ _ _ HK _ Hm Hcr Hf). lia.
Defined.

Lemma checkpoint_keeps_database_witness :
  ∃ (b : TestStore) ss, reopened_store = Some b ∧ kept 4 b ss (Reference.states Reference.new) ∧
    ∃ report b' ss', checkpoint b = (Ok report, b') ∧
      checkpoint_report_lsn report = latest (base_lsn (Overlay.overlay_new b)) (commits ss) ∧ config b' = config b ∧
      wal_reliable b' ∧ fault_injector b' = None ∧ kept 3 b' ss' (Reference.states Reference.new) ∧ unsaved b' ss' = [].
Proof.
  destruct reopened_store_kept as (b & ss & Hb & HK & Hj & Hr). exists b, ss. split; [exact Hb|]. split; [exact HK|].
  apply (checkpoint_keeps_database 4 3 b ss (Reference.states Reference.new) HK); [lia|exact Hj|exact Hr|].
  right. pose proof reopened_sealed as Hs. rewrite Hb in Hs. exact Hs.
Defined.

Lemma new_store_fails_checkpoint_witness :
  ∃ (b : TestStore) s', open_with_wal_internal default_config (StoreTheorems.StoreTheorems.empty_files None) = (Ok b, s') ∧ broken b = None ∧
    (check_invariants b).1 = Err (Corruption "in-memory superblock is not the selected file copy") ∧
    (checkpoint b).1 = Err (CheckpointFailure "checkpoint invariant check failed: {error}") ∧
    broken (checkpoint b).2 ≠ None.
Proof.
  apply (new_store_fails_checkpoint default_config (StoreTheorems.StoreTheorems.empty_files None)).
  - exact StoreTheorems.StoreTheorems.default_config_ok.
  - reflexivity.
  - reflexivity.
  - done.
  - done.
  - reflexivity.
  - apply Z.eqb_neq. vm_compute. reflexivity.
Defined.
End examples.
End DurabilityTheorems.
