(* ===== verification/Service.v ===== *)
(** * The service contract

    Models src/crates/dodb-service/src/lib.rs: the requests and responses that the
    transports carry and the local service executes.  The asynchronous trait
    [DodbService] is an interface without a body. *)

From S2P Require Import Prelude Key Core.

Module Service.
Import Core.

Record ExecutionBudget : Type := mkBudget { max_response_bytes : Z }.

Record Document : Type := mkDocument {
  doc_key : DocumentKey;
  doc_value : bytes;
  doc_revision : Revision;
}.

Inductive Request : Type :=
  | Get (key : DocumentKey)
  | Put (key : DocumentKey) (value : bytes)
  | Delete (key : DocumentKey)
  | Query (pk : Key.PrimaryKey) (exclusive_after_sk : option Key.SortKey) (limit : Z)
  | Scan (exclusive_after_key : option DocumentKey) (limit : Z)
  | Transact (request : TransactionRequest).

Definition operation_name (r : Request) : string :=
  match r with
  | Get _ => "get"
  | Put _ _ => "put"
  | Delete _ => "delete"
  | Query _ _ _ => "query"
  | Scan _ _ => "scan"
  | Transact _ => "transact"
  end.

Definition is_mutation (r : Request) : bool :=
  match r with
  | Put _ _ | Delete _ => true
  | Transact request => negb (bool_decide (length (mutations request) = 0%nat))
  | Get _ | Query _ _ _ | Scan _ _ => false
  end.

Record TransactionOutcome : Type := mkOutcome { outcome_commit_lsn : option Lsn }.

Definition outcome_committed (lsn : Lsn) : TransactionOutcome := mkOutcome (Some lsn).
Definition conditions_satisfied : TransactionOutcome := mkOutcome None.

Inductive Response : Type :=
  | GetResponse (s : RevisionState)
  | PutResponse (r : Revision)
  | DeleteResponse (r : Revision)
  | QueryResponse (rows : list Document)
  | ScanResponse (rows : list Document)
  | TransactResponse (o : TransactionOutcome).
End Service.
