(* ===== verification/Protocol.v ===== *)
(** * The wire protocol

    Models src/crates/dodb-protocol/src/lib.rs: the limits, the frame header, and the
    encoders and decoders of every request, response and error.  A [Writer] method
    appends to the bytes written so far; a [Reader] method moves an offset over its
    input.  A Rust [String] is its UTF-8 bytes; [chars] splits them into characters
    and [from_utf8] is the standard library's validation. *)

From stdpp Require Import pretty.
From S2P Require Import Prelude Key Core Service.

Module Protocol.
Import Core.

Definition MAGIC : bytes := [68; 79; 68; 66].
Definition PROTOCOL_VERSION : Z := 1.
Definition HEADER_SIZE : Z := 11.
Definition REQUEST_MESSAGE_TYPE : Z := 1.
Definition RESPONSE_MESSAGE_TYPE : Z := 2.
Definition MAX_STORAGE_VALUE_SIZE : Z := 64 * 1024 * 1024.
Definition MAX_STORAGE_KEY_COMPONENT_SIZE : Z := 3990.
Definition MAX_STORAGE_ENCODED_KEY_SIZE : Z := 3992.

Record ProtocolLimits : Type := mkLimits {
  max_request_frame_size : Z;
  max_response_frame_size : Z;
  max_key_component_size : Z;
  max_encoded_key_size : Z;
  max_value_size : Z;
  max_keys : Z;
  max_conditions : Z;
  max_mutations : Z;
  max_query_limit : Z;
  max_scan_limit : Z;
  max_error_detail_size : Z;
}.

Definition default_limits : ProtocolLimits :=
  mkLimits (68 * 1024 * 1024) (68 * 1024 * 1024) MAX_STORAGE_KEY_COMPONENT_SIZE
    MAX_STORAGE_ENCODED_KEY_SIZE MAX_STORAGE_VALUE_SIZE 4096 256 256 4096 4096 4096.

Inductive ProtocolError : Type :=
  | InvalidLimits
  | TruncatedHeader
  | InvalidMagic
  | UnsupportedVersion (version : Z)
  | UnknownMessageType (message_type : Z)
  | TruncatedPayload
  | TrailingBytes
  | PayloadTooLarge (length maximum : Z)
  | KeyTooLarge (length maximum : Z)
  | LengthOverflow
  | InvalidOpcode (opcode : Z)
  | InvalidStatus (status : Z)
  | InvalidFlag (flag : Z)
  | InvalidResponseType (expected actual : Z)
  | InvalidErrorKind (kind : Z)
  | InvalidExpectation (expectation : Z)
  | InvalidRevisionState (state : Z)
  | InvalidUtf8.

(** [Display]. *)
Definition error_to_string (e : ProtocolError) : string :=
  match e with
  | InvalidLimits => "protocol limits are invalid"
  | TruncatedHeader => "truncated frame header"
  | InvalidMagic => "invalid frame magic"
  | UnsupportedVersion version => "unsupported protocol version " +:+ pretty version
  | UnknownMessageType message_type => "unknown message type " +:+ pretty message_type
  | TruncatedPayload => "truncated frame payload"
  | TrailingBytes => "unexpected trailing bytes"
  | PayloadTooLarge length maximum =>
      "payload length " +:+ pretty length +:+ " exceeds maximum " +:+ pretty maximum
  | KeyTooLarge length maximum =>
      "encoded key length " +:+ pretty length +:+ " exceeds maximum " +:+ pretty maximum
  | LengthOverflow => "length conversion overflow"
  | InvalidOpcode opcode => "invalid operation opcode " +:+ pretty opcode
  | InvalidStatus status => "invalid response status " +:+ pretty status
  | InvalidFlag flag => "invalid boolean flag " +:+ pretty flag
  | InvalidResponseType expected actual =>
      "response type " +:+ pretty actual +:+ " does not match expected type " +:+ pretty expected
  | InvalidErrorKind kind => "invalid application error kind " +:+ pretty kind
  | InvalidExpectation expectation => "invalid transaction expectation " +:+ pretty expectation
  | InvalidRevisionState state => "invalid revision state " +:+ pretty state
  | InvalidUtf8 => "invalid UTF-8 error detail"
  end.

Definition validate_limits (l : ProtocolLimits) : Result ProtocolError unit :=
  fail_if ((max_request_frame_size l <? HEADER_SIZE) || (max_response_frame_size l <? HEADER_SIZE)
           || (max_key_component_size l =? 0) || (max_encoded_key_size l =? 0) || (max_value_size l =? 0)
           || (max_keys l =? 0) || (max_conditions l =? 0) || (max_mutations l =? 0)
           || (max_query_limit l =? 0) || (max_scan_limit l =? 0) || (max_error_detail_size l =? 0))
    InvalidLimits;;
  fail_if ((MAX_STORAGE_KEY_COMPONENT_SIZE <? max_key_component_size l)
           || (MAX_STORAGE_ENCODED_KEY_SIZE <? max_encoded_key_size l)
           || (MAX_STORAGE_VALUE_SIZE <? max_value_size l))
    InvalidLimits.

Record FrameHeader : Type := mkHeader {
  version : Z;
  message_type : Z;
  payload_length : Z;
}.

(** ** Application errors *)

Inductive ApplicationErrorKind : Type :=
  | KindInvalidRequest
  | KindOverloaded
  | KindConflict
  | KindResponseTooLarge
  | KindStorageFailure
  | KindCorruption
  | KindDurabilityFailure
  | KindInternal
  | KindUnsupportedProtocol.

Inductive MutationOutcome : Type := NotApplicable | NotApplied | Unknown.

Record ConflictDetails : Type := mkConflictDetails {
  details_key : DocumentKey;
  details_expected : ConditionExpectation;
  details_actual : ObservedState;
}.

Record ApplicationError : Type := mkApplicationError {
  kind : ApplicationErrorKind;
  detail : bytes;
  mutation_outcome : MutationOutcome;
  conflict : option ConflictDetails;
}.

(** The bytes of a string; the messages of the engine are ASCII. *)
Definition string_bytes (s : string) : bytes := Z.of_nat ∘ Ascii.nat_of_ascii <$> String.list_ascii_of_string s.

Definition invalid_request (d : bytes) : ApplicationError :=
  mkApplicationError KindInvalidRequest d NotApplied None.

Definition conflict_details (c : TransactionConflict) : ConflictDetails :=
  mkConflictDetails (conflict_key c) (conflict_expected c) (conflict_actual c).

Definition from_core (e : Error) : ApplicationError :=
  match e with
  | InvalidInput m | InvalidRequest m => mkApplicationError KindInvalidRequest (string_bytes m) NotApplied None
  | Overloaded m => mkApplicationError KindOverloaded (string_bytes m) NotApplied None
  | Conflict c => mkApplicationError KindConflict (string_bytes "transaction condition conflict") NotApplied
                    (Some (conflict_details c))
  | ResponseTooLarge m => mkApplicationError KindResponseTooLarge (string_bytes m) NotApplied None
  | Corruption m => mkApplicationError KindCorruption (string_bytes m) Unknown None
  | Io _ m => mkApplicationError KindStorageFailure (string_bytes m) Unknown None
  | UnsupportedFormat m | RecoveryFailure m | CheckpointFailure m =>
      mkApplicationError KindStorageFailure (string_bytes m) Unknown None
  | DurabilityFailure m => mkApplicationError KindDurabilityFailure (string_bytes m) Unknown None
  | InternalInvariantViolation m => mkApplicationError KindInternal (string_bytes m) Unknown None
  end.

Definition from_core_for_request (e : Error) (is_mutation : bool) : ApplicationError :=
  let a := from_core e in
  if is_mutation then a else mkApplicationError (kind a) (detail a) NotApplicable (conflict a).

Definition from_protocol (e : ProtocolError) : ApplicationError :=
  let k := match e with
           | UnsupportedVersion _ | UnknownMessageType _ => KindUnsupportedProtocol
           | _ => KindInvalidRequest
           end in
  mkApplicationError k (string_bytes (error_to_string e)) NotApplied None.

Inductive ResponseEnvelope : Type :=
  | SuccessEnvelope (r : Service.Response)
  | ErrorEnvelope (e : ApplicationError).

(** ** UTF-8 *)

Definition between (lo hi x : Z) : bool := (lo <=? x) && (x <=? hi).
Definition continuation (x : Z) : bool := between 128 191 x.

(** The first character of a byte string and what follows it; [None] where the bytes
    do not start with a well-formed character. *)
Definition next_char (b : bytes) : option (bytes * bytes) :=
  match b with
  | b0 :: r => if between 0 127 b0 then Some ([b0], r) else
      match r with
      | b1 :: r => if between 194 223 b0 && continuation b1 then Some ([b0; b1], r) else
          match r with
          | b2 :: r =>
              if ((b0 =? 224) && between 160 191 b1 || between 225 236 b0 && continuation b1
                  || (b0 =? 237) && between 128 159 b1 || between 238 239 b0 && continuation b1)
                 && continuation b2
              then Some ([b0; b1; b2], r) else
              match r with
              | b3 :: r =>
                  if ((b0 =? 240) && between 144 191 b1 || between 241 243 b0 && continuation b1
                      || (b0 =? 244) && between 128 143 b1)
                     && continuation b2 && continuation b3
                  then Some ([b0; b1; b2; b3], r) else None
              | [] => None
              end
          | [] => None
          end
      | [] => None
      end
  | [] => None
  end.

(** [str::chars]: the characters, or [None] if the bytes are not UTF-8. *)
Fixpoint chars_loop (fuel : nat) (b : bytes) : option (list bytes) :=
  match b, fuel with
  | [], _ => Some []
  | _, S fuel' => '(c, r) ← next_char b; cs ← chars_loop fuel' r; Some (c :: cs)
  | _, O => None
  end.
Definition chars (b : bytes) : option (list bytes) := chars_loop (length b) b.

(** [String::from_utf8]. *)
Definition from_utf8 (b : bytes) : Result ProtocolError bytes :=
  match chars b with Some _ => Ok b | None => Err InvalidUtf8 end.

(** [s.chars().take(n).collect::<String>()] of a string. *)
Definition take_chars (n : Z) (b : bytes) : bytes :=
  concat (take (Z.to_nat n) (default [] (chars b))).

(** ** Writer *)

Abbreviation PW := (St bytes ProtocolError unit).
Abbreviation presult := (Result ProtocolError).

Definition write_raw (b : bytes) : PW := modify_st (λ w, w ++ b).
Definition write_u8 (x : Z) : PW := write_raw [x].
Definition write_u32 (x : Z) : PW := write_raw (to_be 4 x).
Definition write_u64 (x : Z) : PW := write_raw (to_be 8 x).

(** [u32::try_from(n).map_err(|_| LengthOverflow)]. *)
Definition try_u32 (n : Z) : presult Z := if n <=? U32_MAX then Ok n else Err LengthOverflow.

Definition bytes_raw (b : bytes) : PW :=
  n ← lift_r (try_u32 (len b)); write_u32 n;; write_raw b.

Definition encode_bytes (b : bytes) (maximum : Z) : PW :=
  fail_when (maximum <? len b) (PayloadTooLarge (len b) maximum);;
  bytes_raw b.
Definition write_bytes (b : bytes) (maximum : Z) : PW := encode_bytes b maximum.

Definition encode_limit (limit maximum : Z) : PW :=
  fail_when (maximum <? limit) (PayloadTooLarge limit maximum);;
  limit ← lift_r (try_u32 limit);
  write_u32 limit.
Definition encode_count (count maximum : Z) : PW :=
  fail_when (maximum <? count) (PayloadTooLarge count maximum);;
  count ← lift_r (try_u32 count);
  write_u32 count.
Definition encode_optional_bytes (b : option bytes) (maximum : Z) : PW :=
  match b with
  | Some b => write_u8 1;; encode_bytes b maximum
  | None => write_u8 0
  end.

(** ** Reader *)

Record Reader : Type := mkReader { input : bytes; offset : Z }.
Abbreviation PR := (St Reader ProtocolError).

Definition read_take (length : Z) : PR bytes :=
  r ← get_st;
  end_ ← lift_r (ok_or (checked_add (offset r) length) LengthOverflow);
  fail_when (len (input r) <? end_) TruncatedPayload;;
  modify_st (λ r, mkReader (input r) end_);;
  mret (input r).[offset r; end_).

Definition read_u8 : PR Z :=
  r ← get_st;
  value ← lift_r (ok_or (input r !! Z.to_nat (offset r)) TruncatedPayload);
  modify_st (λ r, mkReader (input r) (offset r + 1));;
  mret value.
Definition read_u32 : PR Z := b ← read_take 4; mret (from_be b).
Definition read_u64 : PR Z := b ← read_take 8; mret (from_be b).

Definition read_bytes (maximum : Z) : PR bytes :=
  length ← read_u32;
  fail_when (maximum <? length) (PayloadTooLarge length maximum);;
  read_take length.

Definition read_flag : PR bool :=
  f ← read_u8;
  if f =? 0 then mret false else if f =? 1 then mret true else throw (InvalidFlag f).

Definition read_optional_bytes (maximum : Z) : PR (option bytes) :=
  f ← read_flag;
  if f : bool then Some <$> read_bytes maximum else mret None.

Definition read_count (maximum : Z) : PR Z :=
  count ← read_u32;
  fail_when (maximum <? count) (PayloadTooLarge count maximum);;
  mret count.
Definition read_limit (maximum : Z) : PR Z := read_count maximum.

Definition read_finish : PR bool := r ← get_st; mret (offset r =? len (input r)).

(** [for _ in 0..count { out.push(item()?) }]. *)
Fixpoint read_many {A} (item : PR A) (count : nat) : PR (list A) :=
  match count with
  | O => mret []
  | S n => x ← item; xs ← read_many item n; mret (x :: xs)
  end.

(** ** Messages *)

Section messages.
Context (l : ProtocolLimits).

Definition validate_key_parts (pk sk : bytes) : presult unit :=
  let encoded_length := Key.encoded_len (Key.new pk sk) in
  fail_if (max_encoded_key_size l <? encoded_length) (KeyTooLarge encoded_length (max_encoded_key_size l)).
Definition validate_key (k : DocumentKey) : presult unit := validate_key_parts (Key.pk k) (Key.sk k).

Definition encode_key (k : DocumentKey) : PW :=
  lift_r (validate_key k);;
  encode_bytes (Key.pk k) (max_key_component_size l);;
  encode_bytes (Key.sk k) (max_key_component_size l).
Definition decode_key : PR DocumentKey :=
  pk ← read_bytes (max_key_component_size l);
  sk ← read_bytes (max_key_component_size l);
  let k := Key.new pk sk in
  lift_r (validate_key k);;
  mret k.

Definition encode_optional_key (k : option DocumentKey) : PW :=
  match k with
  | Some k => write_u8 1;; encode_key k
  | None => write_u8 0
  end.
Definition decode_optional_key : PR (option DocumentKey) :=
  f ← read_flag;
  if f : bool then Some <$> decode_key else mret None.

Definition encode_condition (c : TransactionCondition) : PW :=
  match c with
  | RevisionEquals k r => write_u8 0;; encode_key k;; write_u64 r
  | Exists k => write_u8 1;; encode_key k
  | NotExists k => write_u8 2;; encode_key k
  end.
Definition encode_conditions (cs : list TransactionCondition) : PW :=
  encode_count (len cs) (max_conditions l);;
  for_each encode_condition cs.
Definition decode_condition : PR TransactionCondition :=
  kind ← read_u8;
  k ← decode_key;
  if kind =? 0 then r ← read_u64; mret (RevisionEquals k r)
  else if kind =? 1 then mret (Exists k)
  else if kind =? 2 then mret (NotExists k)
  else throw (InvalidExpectation kind).
Definition decode_conditions : PR (list TransactionCondition) :=
  count ← read_count (max_conditions l);
  read_many decode_condition (Z.to_nat count).

Definition encode_mutation (m : TransactionMutation) : PW :=
  match m with
  | Put k v => write_u8 0;; encode_key k;; write_bytes v (max_value_size l)
  | Delete k => write_u8 1;; encode_key k
  end.
Definition encode_mutations (ms : list TransactionMutation) : PW :=
  encode_count (len ms) (max_mutations l);;
  for_each encode_mutation ms.
Definition decode_mutation : PR TransactionMutation :=
  kind ← read_u8;
  k ← decode_key;
  if kind =? 0 then v ← read_bytes (max_value_size l); mret (Put k v)
  else if kind =? 1 then mret (Delete k)
  else throw (InvalidOpcode kind).
Definition decode_mutations : PR (list TransactionMutation) :=
  count ← read_count (max_mutations l);
  read_many decode_mutation (Z.to_nat count).

Definition encode_document (d : Service.Document) : PW :=
  encode_key (Service.doc_key d);;
  write_bytes (Service.doc_value d) (max_value_size l);;
  write_u64 (Service.doc_revision d).
Definition encode_documents (ds : list Service.Document) : PW :=
  encode_count (len ds) (max_scan_limit l);;
  for_each encode_document ds.
Definition decode_document : PR Service.Document :=
  k ← decode_key;
  v ← read_bytes (max_value_size l);
  r ← read_u64;
  mret (Service.mkDocument k v r).
Definition decode_documents : PR (list Service.Document) :=
  count ← read_count (max_scan_limit l);
  read_many decode_document (Z.to_nat count).

Definition encode_revision_state (s : RevisionState) : PW :=
  match s with
  | Present v r => write_u8 0;; write_bytes v (max_value_size l);; write_u64 r
  | Missing r => write_u8 1;; write_u64 r
  end.
Definition decode_revision_state : PR RevisionState :=
  tag ← read_u8;
  if tag =? 0 then v ← read_bytes (max_value_size l); r ← read_u64; mret (Present v r)
  else if tag =? 1 then r ← read_u64; mret (Missing r)
  else throw (InvalidRevisionState tag).

Definition encode_observed_state (s : ObservedState) : PW :=
  match s with
  | ObservedPresent r => write_u8 0;; write_u64 r
  | ObservedMissing r => write_u8 1;; write_u64 r
  end.
Definition decode_observed_state : PR ObservedState :=
  tag ← read_u8;
  if tag =? 0 then r ← read_u64; mret (ObservedPresent r)
  else if tag =? 1 then r ← read_u64; mret (ObservedMissing r)
  else throw (InvalidRevisionState tag).

Definition encode_transaction_outcome (o : Service.TransactionOutcome) : PW :=
  match Service.outcome_commit_lsn o with
  | Some lsn => write_u8 1;; write_u64 lsn
  | None => write_u8 0
  end.
Definition decode_transaction_outcome : PR Service.TransactionOutcome :=
  tag ← read_u8;
  if tag =? 0 then mret Service.conditions_satisfied
  else if tag =? 1 then lsn ← read_u64; mret (Service.outcome_committed lsn)
  else throw (InvalidFlag tag).

Definition application_error_kind_code (k : ApplicationErrorKind) : Z :=
  match k with
  | KindInvalidRequest => 0
  | KindOverloaded => 1
  | KindConflict => 2
  | KindStorageFailure => 3
  | KindCorruption => 4
  | KindDurabilityFailure => 5
  | KindInternal => 6
  | KindUnsupportedProtocol => 7
  | KindResponseTooLarge => 8
  end.
Definition application_error_kind (code : Z) : presult ApplicationErrorKind :=
  match code with
  | 0 => Ok KindInvalidRequest
  | 1 => Ok KindOverloaded
  | 2 => Ok KindConflict
  | 3 => Ok KindStorageFailure
  | 4 => Ok KindCorruption
  | 5 => Ok KindDurabilityFailure
  | 6 => Ok KindInternal
  | 7 => Ok KindUnsupportedProtocol
  | 8 => Ok KindResponseTooLarge
  | other => Err (InvalidErrorKind other)
  end.

Definition mutation_outcome_code (o : MutationOutcome) : Z :=
  match o with NotApplicable => 0 | NotApplied => 1 | Unknown => 2 end.
Definition mutation_outcome_of (code : Z) : presult MutationOutcome :=
  match code with
  | 0 => Ok NotApplicable
  | 1 => Ok NotApplied
  | 2 => Ok Unknown
  | other => Err (InvalidFlag other)
  end.

Definition encode_expectation (e : ConditionExpectation) : PW :=
  match e with
  | ExpectRevisionEquals r => write_u8 0;; write_u64 r
  | ExpectExists => write_u8 1
  | ExpectNotExists => write_u8 2
  end.
Definition encode_conflict (c : ConflictDetails) : PW :=
  encode_key (details_key c);;
  encode_expectation (details_expected c);;
  encode_observed_state (details_actual c).
Definition decode_expectation : PR ConditionExpectation :=
  tag ← read_u8;
  if tag =? 0 then r ← read_u64; mret (ExpectRevisionEquals r)
  else if tag =? 1 then mret ExpectExists
  else if tag =? 2 then mret ExpectNotExists
  else throw (InvalidExpectation tag).
Definition decode_conflict : PR ConflictDetails :=
  k ← decode_key;
  expected ← decode_expectation;
  actual ← decode_observed_state;
  mret (mkConflictDetails k expected actual).

Definition encode_optional_conflict (c : option ConflictDetails) : PW :=
  match c with
  | Some c => write_u8 1;; encode_conflict c
  | None => write_u8 0
  end.
Definition encode_application_error (e : ApplicationError) : PW :=
  write_u8 (application_error_kind_code (kind e));;
  encode_bytes (take_chars (max_error_detail_size l) (detail e)) (max_error_detail_size l);;
  write_u8 (mutation_outcome_code (mutation_outcome e));;
  encode_optional_conflict (conflict e).
Definition decode_optional_conflict : PR (option ConflictDetails) :=
  f ← read_flag;
  if f : bool then Some <$> decode_conflict else mret None.
Definition decode_application_error : PR ApplicationError :=
  code ← read_u8;
  k ← lift_r (application_error_kind code);
  b ← read_bytes (max_error_detail_size l);
  d ← lift_r (from_utf8 b);
  code ← read_u8;
  o ← lift_r (mutation_outcome_of code);
  c ← decode_optional_conflict;
  mret (mkApplicationError k d o c).

Definition request_opcode (r : Service.Request) : Z :=
  match r with
  | Service.Get _ => 1
  | Service.Put _ _ => 2
  | Service.Delete _ => 3
  | Service.Query _ _ _ => 4
  | Service.Scan _ _ => 5
  | Service.Transact _ => 8
  end.
Definition response_opcode (r : Service.Response) : Z :=
  match r with
  | Service.GetResponse _ => 1
  | Service.PutResponse _ => 2
  | Service.DeleteResponse _ => 3
  | Service.QueryResponse _ => 4
  | Service.ScanResponse _ => 5
  | Service.TransactResponse _ => 8
  end.

Definition encode_request_payload (r : Service.Request) : PW :=
  write_u8 (request_opcode r);;
  match r with
  | Service.Get k => encode_key k
  | Service.Put k v => encode_key k;; write_bytes v (max_value_size l)
  | Service.Delete k => encode_key k
  | Service.Query pk after limit =>
      lift_r (validate_key_parts pk (default [] after));;
      encode_bytes pk (max_key_component_size l);;
      encode_optional_bytes after (max_key_component_size l);;
      encode_limit limit (max_query_limit l)
  | Service.Scan after limit =>
      encode_optional_key after;;
      encode_limit limit (max_scan_limit l)
  | Service.Transact request =>
      encode_conditions (conditions request);;
      encode_mutations (mutations request)
  end.

Definition decode_query : PR Service.Request :=
  pk ← read_bytes (max_key_component_size l);
  after ← read_optional_bytes (max_key_component_size l);
  lift_r (validate_key_parts pk (default [] after));;
  limit ← read_limit (max_query_limit l);
  mret (Service.Query pk after limit).
Definition decode_request_payload : PR Service.Request :=
  opcode ← read_u8;
  match opcode with
  | 1 => k ← decode_key; mret (Service.Get k)
  | 2 => k ← decode_key; v ← read_bytes (max_value_size l); mret (Service.Put k v)
  | 3 => k ← decode_key; mret (Service.Delete k)
  | 4 => decode_query
  | 5 => after ← decode_optional_key; limit ← read_limit (max_scan_limit l); mret (Service.Scan after limit)
  | 8 => cs ← decode_conditions; ms ← decode_mutations; mret (Service.Transact (mkRequest cs ms))
  | other => throw (InvalidOpcode other)
  end.

Definition encode_response_payload (r : Service.Response) : PW :=
  match r with
  | Service.GetResponse s => encode_revision_state s
  | Service.PutResponse v | Service.DeleteResponse v => write_u64 v
  | Service.QueryResponse ds | Service.ScanResponse ds => encode_documents ds
  | Service.TransactResponse o => encode_transaction_outcome o
  end.
Definition decode_response_payload (opcode : Z) : PR Service.Response :=
  match opcode with
  | 1 => s ← decode_revision_state; mret (Service.GetResponse s)
  | 2 => r ← read_u64; mret (Service.PutResponse r)
  | 3 => r ← read_u64; mret (Service.DeleteResponse r)
  | 4 => ds ← decode_documents; mret (Service.QueryResponse ds)
  | 5 => ds ← decode_documents; mret (Service.ScanResponse ds)
  | 8 => o ← decode_transaction_outcome; mret (Service.TransactResponse o)
  | other => throw (InvalidOpcode other)
  end.

(** ** Frames *)

Definition decode_header (b : bytes) : presult FrameHeader :=
  fail_if (len b <? HEADER_SIZE) TruncatedHeader;;
  magic ← index_range b 0 4;
  fail_if (negb (bytes_eqb magic MAGIC)) InvalidMagic;;
  b4 ← index b 4; b5 ← index b 5;
  let version := from_be [b4; b5] in
  fail_if (negb (version =? PROTOCOL_VERSION)) (UnsupportedVersion version);;
  message_type ← index b 6;
  fail_if (negb (message_type =? REQUEST_MESSAGE_TYPE) && negb (message_type =? RESPONSE_MESSAGE_TYPE))
    (UnknownMessageType message_type);;
  b7 ← index b 7; b8 ← index b 8; b9 ← index b 9; b10 ← index b 10;
  Ok (mkHeader version message_type (from_be [b7; b8; b9; b10])).

Definition encode_frame (message_type : Z) (payload : bytes) (maximum_frame_size : Z) : presult bytes :=
  frame_length ← ok_or (checked_add HEADER_SIZE (len payload)) LengthOverflow;
  fail_if (maximum_frame_size <? frame_length) (PayloadTooLarge frame_length maximum_frame_size);;
  payload_length ← try_u32 (len payload);
  Ok (MAGIC ++ to_be 2 PROTOCOL_VERSION ++ [message_type] ++ to_be 4 payload_length ++ payload).

Definition length_mismatch (actual expected : Z) : ProtocolError :=
  if actual <? expected then TruncatedPayload else TrailingBytes.

Definition validate_payload_length (h : FrameHeader) (payload : bytes) (maximum_frame_size : Z) : presult unit :=
  frame_length ← ok_or (checked_add HEADER_SIZE (payload_length h)) LengthOverflow;
  fail_if (maximum_frame_size <? frame_length) (PayloadTooLarge frame_length maximum_frame_size);;
  fail_if (negb (len payload =? payload_length h)) (length_mismatch (len payload) (payload_length h)).

(** Runs a writer on an empty buffer, a reader on a whole payload. *)
Definition written (m : PW) : presult bytes :=
  match m [] with (Ok _, w) => Ok w | (Err e, _) => Err e | (Stuck s, _) => Stuck s end.
Definition reading {A} (payload : bytes) (m : PR A) : presult A := (m (mkReader payload 0)).1.

Definition encode_request (tenant : TenantId) (r : Service.Request) : presult bytes :=
  validate_limits l;;
  payload ← written (write_u64 tenant;; encode_request_payload r);
  encode_frame REQUEST_MESSAGE_TYPE payload (max_request_frame_size l).

(** [reader.finish()?.then_some(x).ok_or(TrailingBytes)]. *)
Definition finished {A} (x : A) : PR A :=
  whole ← read_finish;
  if whole : bool then mret x else throw TrailingBytes.

Definition decode_request_parts (h : FrameHeader) (payload : bytes) : presult (TenantId * Service.Request) :=
  validate_limits l;;
  validate_payload_length h payload (max_request_frame_size l);;
  fail_if (negb (message_type h =? REQUEST_MESSAGE_TYPE)) (UnknownMessageType (message_type h));;
  reading payload
    (tenant ← read_u64; request ← decode_request_payload; finished (tenant, request)).

(** The header of a frame and its payload, where their lengths agree. *)
Definition split_frame (frame : bytes) : presult (FrameHeader * bytes) :=
  fail_if (len frame <? HEADER_SIZE) TruncatedHeader;;
  h ← decode_header frame.[0; HEADER_SIZE);
  fail_if (negb (len frame =? HEADER_SIZE + payload_length h))
    (length_mismatch (len frame) (HEADER_SIZE + payload_length h));;
  Ok (h, drop (Z.to_nat HEADER_SIZE) frame).

Definition decode_request_frame (frame : bytes) : presult (TenantId * Service.Request) :=
  '(h, payload) ← split_frame frame;
  decode_request_parts h payload.

Definition encode_envelope (e : ResponseEnvelope) : PW :=
  match e with
  | SuccessEnvelope r => write_u8 0;; write_u8 (response_opcode r);; encode_response_payload r
  | ErrorEnvelope e => write_u8 1;; encode_application_error e
  end.

Definition encode_response (e : ResponseEnvelope) : presult bytes :=
  validate_limits l;;
  payload ← written (encode_envelope e);
  encode_frame RESPONSE_MESSAGE_TYPE payload (max_response_frame_size l).

Definition decode_success (expected_response_type : option Z) : PR ResponseEnvelope :=
  actual ← read_u8;
  match expected_response_type with
  | Some expected => fail_when (negb (actual =? expected)) (InvalidResponseType expected actual)
  | None => mret tt
  end;;
  r ← decode_response_payload actual;
  mret (SuccessEnvelope r).
Definition decode_envelope (expected_response_type : option Z) : PR ResponseEnvelope :=
  status ← read_u8;
  if status =? 0 then decode_success expected_response_type
  else if status =? 1 then e ← decode_application_error; mret (ErrorEnvelope e)
  else throw (InvalidStatus status).

Definition decode_response_parts (h : FrameHeader) (payload : bytes) (expected_response_type : option Z)
    : presult ResponseEnvelope :=
  validate_limits l;;
  validate_payload_length h payload (max_response_frame_size l);;
  fail_if (negb (message_type h =? RESPONSE_MESSAGE_TYPE)) (UnknownMessageType (message_type h));;
  reading payload (e ← decode_envelope expected_response_type; finished e).

Definition decode_response_frame (frame : bytes) (expected_response_type : option Z)
    : presult ResponseEnvelope :=
  '(h, payload) ← split_frame frame;
  decode_response_parts h payload expected_response_type.
End messages.
End Protocol.
