(* ===== verification/ProtocolLaws.v ===== *)
(** * Laws of the wire protocol

    A [codec] pairs an encoder with a decoder: what the encoder writes, the decoder
    reads back from any place of an input, and what the decoder accepts is what the
    encoder writes.  Codecs compose, so that the two laws of requests and responses
    follow from those of bytes and integers. *)

From S2P Require Import Prelude Wp Key Core Service Protocol.

Module ProtocolLaws.
Import Core Protocol.

(** ** Readers and writers *)

(** [m] appends [bs]. *)
Definition writes (m : PW) (bs : bytes) : Prop := ∀ w, m w = (Ok tt, w ++ bs).

(** [m] reads [a] from the bytes [bs] wherever they are in the input. *)
Definition reads {A} (m : PR A) (a : A) (bs : bytes) : Prop :=
  ∀ pre suf, len (pre ++ bs ++ suf) ≤ U64_MAX →
    m (mkReader (pre ++ bs ++ suf) (len pre)) = (Ok a, mkReader (pre ++ bs ++ suf) (len pre + len bs)).

(** A reader over a byte string that fits the address space. *)
Record reader_ok (r : Reader) : Prop := {
  ok_input : is_bytes (input r);
  ok_offset : 0 ≤ offset r ≤ len (input r);
  ok_size : len (input r) ≤ U64_MAX;
}.

(** The reader moved over [bs]. *)
Record moved (r : Reader) (bs : bytes) (r' : Reader) : Prop := {
  mv_input : input r' = input r;
  mv_offset : offset r' = offset r + len bs;
  mv_bytes : (input r).[offset r; offset r') = bs;
  mv_range : offset r' ≤ len (input r);
}.

Lemma moved_ok r bs r' : reader_ok r → moved r bs r' → reader_ok r'.
Proof. intros [R1 R2 R3] [M1 M2 M3 M4]. split; rewrite M1; [done| |done]. pose proof (len_nonneg bs). lia. Qed.
Lemma moved_nil r : reader_ok r → moved r [] r.
Proof. intros [_ R2 _]. split; [done|change (len []) with 0; lia| |lia]. apply slice_nil. Qed.
Lemma moved_trans r b1 r1 b2 r2 : reader_ok r → moved r b1 r1 → moved r1 b2 r2 → moved r (b1 ++ b2) r2.
Proof.
  intros [_ R2 _] [M1 M2 M3 M4] [N1 N2 N3 N4]. pose proof (len_nonneg b1). pose proof (len_nonneg b2).
  rewrite M1 in *. split; [congruence|rewrite len_app; lia| |lia].
  rewrite <-M3, <-N3. apply slice_split; lia.
Qed.

Lemma writes_bind (m k : PW) b1 b2 : writes m b1 → writes k b2 → writes (m;; k) (b1 ++ b2).
Proof. intros Hm Hk w. unfold mbind, St_bind. rewrite Hm. by rewrite Hk, app_assoc. Qed.
Lemma writes_lift {A} (r : presult A) a (k : A → PW) bs : r = Ok a → writes (k a) bs → writes (x ← lift_r r; k x) bs.
Proof. intros -> Hk w. apply Hk. Qed.
Lemma writes_check (b : bool) e (k : PW) bs : b = false → writes k bs → writes (fail_when b e;; k) bs.
Proof. intros -> Hk w. apply Hk. Qed.
Lemma writes_raw b : writes (write_raw b) b.
Proof. done. Qed.

(** What a successful writer did. *)
Lemma bind_inv {S A B} (m : St S ProtocolError A) (f : A → St S ProtocolError B) s b s' :
  (m ≫= f) s = (Ok b, s') → ∃ a s1, m s = (Ok a, s1) ∧ f a s1 = (Ok b, s').
Proof. unfold mbind, St_bind. destruct (m s) as [[a|e|k] s1]; [|done..]. eauto. Qed.
Lemma lift_inv {S A} (r : presult A) (s : S) a s' : lift_r r s = (Ok a, s') → r = Ok a ∧ s' = s.
Proof. unfold lift_r. by intros [= -> ->]. Qed.
Lemma check_inv {S} b (e : ProtocolError) (s : S) u s' : fail_when b e s = (Ok u, s') → b = false ∧ s' = s.
Proof. unfold fail_when, lift_r, fail_if. destruct b; [done|]. by intros [= _ ->]. Qed.

Lemma reads_ret {A} (a : A) : reads (mret a) a [].
Proof. intros pre suf _. unfold mret, St_ret. repeat f_equal. change (len (@nil Z)) with 0. lia. Qed.
Lemma reads_bind {A B} (m : PR A) (k : A → PR B) a b b1 b2 :
  reads m a b1 → reads (k a) b b2 → reads (x ← m; k x) b (b1 ++ b2).
Proof.
  intros Hm Hk pre suf Hl.
  assert (E1 : pre ++ (b1 ++ b2) ++ suf = pre ++ b1 ++ (b2 ++ suf)) by (by rewrite <-(app_assoc b1)).
  assert (E2 : pre ++ (b1 ++ b2) ++ suf = (pre ++ b1) ++ b2 ++ suf) by (by rewrite <-!app_assoc).
  unfold mbind, St_bind. rewrite E1, Hm by (by rewrite <-E1). rewrite <-E1, E2, <-len_app, Hk by (by rewrite <-E2).
  by rewrite !len_app, Z.add_assoc.
Qed.
Lemma reads_lift {A B} (r : presult A) a (k : A → PR B) b bs : r = Ok a → reads (k a) b bs → reads (x ← lift_r r; k x) b bs.
Proof. intros -> Hk. apply Hk. Qed.
Lemma reads_check {A} (c : bool) e (k : PR A) a bs : c = false → reads k a bs → reads (fail_when c e;; k) a bs.
Proof. intros -> Hk. apply Hk. Qed.
Lemma reads_fmap {A B} (f : A → B) (m : PR A) a bs : reads m a bs → reads (f <$> m) (f a) bs.
Proof. intros Hm pre suf Hl. unfold fmap, St_fmap. by rewrite Hm. Qed.

Lemma reads_take bs : reads (read_take (len bs)) bs bs.
Proof.
  intros pre suf Hl. unfold read_take, mbind, St_bind, get_st, lift_r, fail_when, fail_if, modify_st. cbn [input offset].
  rewrite !len_app in Hl. pose proof (len_nonneg suf).
  rewrite checked_add_ok by lia. cbn [ok_or]. rewrite (proj2 (Z.ltb_ge _ _)) by (rewrite !len_app; lia).
  cbn. unfold mret, St_ret. repeat f_equal. rewrite slice_app_r, slice_app_l by blen.
  replace (len pre + len bs - len pre) with (len bs) by lia. rewrite Z.sub_diag. by apply slice_full.
Qed.
Lemma reads_u8 x : reads read_u8 x [x].
Proof.
  intros pre suf Hl. unfold read_u8, mbind, St_bind, get_st, lift_r, modify_st. cbn [input offset].
  unfold len at 1. rewrite Nat2Z.id, lookup_app_r, Nat.sub_diag by lia. done.
Qed.
Lemma reads_u32 x : u32 x → reads read_u32 x (to_be 4 x).
Proof.
  intros Hx. unfold read_u32. rewrite <-(app_nil_r (to_be 4 x)). apply (reads_bind _ _ (to_be 4 x)).
  - pose proof (reads_take (to_be 4 x)) as Ht. by rewrite len_to_be in Ht.
  - rewrite from_to_be4 by done. apply reads_ret.
Qed.
Lemma reads_u64 x : u64 x → reads read_u64 x (to_be 8 x).
Proof.
  intros Hx. unfold read_u64. rewrite <-(app_nil_r (to_be 8 x)). apply (reads_bind _ _ (to_be 8 x)).
  - pose proof (reads_take (to_be 8 x)) as Ht. by rewrite len_to_be in Ht.
  - rewrite from_to_be8 by done. apply reads_ret.
Qed.

(** Running a reader on arbitrary input. *)
Definition any_error : ProtocolError → Reader → Prop := λ _ _, True.

Lemma wp_take r n : reader_ok r → 0 ≤ n → wp (read_take n) (λ b r', len b = n ∧ is_bytes b ∧ moved r b r') any_error r.
Proof.
  intros [R1 R2 R3] Hn. unfold read_take. wp_steps. apply wp_lift. unfold checked_add.
  destruct (Z.leb_spec (offset r + n) U64_MAX); cbn [ok_or]; [|done]. wp_step. apply wp_fail_when; [done|].
  intros Hl%Z.ltb_ge. wp_steps.
  assert (len ((input r).[offset r; offset r + n)) = n) by (rewrite len_slice; lia).
  split_and!; [done|by apply is_bytes_slice|]. split; cbn [input offset]; [done|lia|done|lia].
Qed.
Lemma wp_u8 r : reader_ok r → wp read_u8 (λ x r', u8 x ∧ moved r [x] r') any_error r.
Proof.
  intros [R1 R2 R3]. unfold read_u8. wp_steps. apply wp_lift.
  destruct (input r !! Z.to_nat (offset r)) as [x|] eqn:E; cbn [ok_or]; [|done]. wp_steps.
  pose proof (lookup_lt_Some _ _ _ E) as Hlt. unfold len in R2. split.
  - by eapply Forall_lookup_1.
  - split; cbn [input offset]; [done|done| |unfold len; lia]. apply list_eq. intros [|i].
    + rewrite slice_lookup by lia. rewrite decide_True by lia. by rewrite Nat.add_0_r.
    + rewrite slice_lookup by lia. rewrite decide_False by lia. done.
Qed.
Lemma to_from_be n b : is_bytes b → len b = Z.of_nat n → to_be n (from_be b) = b.
Proof.
  intros Hb Hl. unfold to_be, from_be. rewrite to_from_le_slice, reverse_involutive; [done|by apply Forall_reverse|].
  unfold len in *. by rewrite length_reverse.
Qed.
Lemma wp_u32 r : reader_ok r → wp read_u32 (λ x r', u32 x ∧ moved r (to_be 4 x) r') any_error r.
Proof.
  intros Hr. unfold read_u32. wp_step. wp_use (wp_take r 4 Hr); [lia| |done]. intros b r' (Hl & Hb & Hm). wp_step.
  rewrite to_from_be by done. split; [|done]. apply from_le_u32; [by apply Forall_reverse|].
  unfold len in *. by rewrite length_reverse.
Qed.
Lemma wp_u64 r : reader_ok r → wp read_u64 (λ x r', u64 x ∧ moved r (to_be 8 x) r') any_error r.
Proof.
  intros Hr. unfold read_u64. wp_step. wp_use (wp_take r 8 Hr); [lia| |done]. intros b r' (Hl & Hb & Hm). wp_step.
  rewrite to_from_be by done. split; [|done]. apply from_le_u64; [by apply Forall_reverse|].
  unfold len in *. by rewrite length_reverse.
Qed.

(** ** Codecs *)

Record codec {A} (wf : A → Prop) (enc : A → PW) (dec : PR A) : Prop := {
  codec_reads a w w' : wf a → enc a w = (Ok tt, w') → ∃ bs, w' = w ++ bs ∧ is_bytes bs ∧ reads dec a bs;
  codec_writes r : reader_ok r →
    wp dec (λ a r', wf a ∧ ∃ bs, moved r bs r' ∧ writes (enc a) bs) any_error r;
}.
Arguments codec_reads {A wf enc dec} _ _ _ _ _ _.
Arguments codec_writes {A wf enc dec} _ _ _.

(** Inverts a successful run of a writer into the runs of its parts. *)
Ltac enc_inv :=
  repeat match goal with
  | u : unit |- _ => destruct u
  | Hr : mbind _ _ _ = (Ok _, _) |- _ => apply bind_inv in Hr as (? & ? & ? & Hr)
  | Hr : lift_r _ _ = (Ok _, _) |- _ => apply lift_inv in Hr as [? ->]
  | Hr : fail_when _ _ _ = (Ok _, _) |- _ => apply check_inv in Hr as [? ->]
  | Hr : write_raw ?b ?w = (Ok _, _) |- _ => injection Hr as <-
  | Hr : write_u8 ?b ?w = (Ok _, _) |- _ => injection Hr as <-
  end.

(** The part of a run that the codec [C] wrote. *)
Ltac enc_part C :=
  match type of C with
  | codec _ ?enc _ =>
      match goal with
      | Hr : ?t _ = (Ok tt, _) |- _ =>
          let b := fresh "b" in let Hb := fresh "Hb" in let Hd := fresh "Hd" in
          apply (codec_reads C) in Hr as (b & -> & Hb & Hd)
      end
  end.

(** Decides a comparison of two tags and the match on it. *)
Ltac tags :=
  cbv beta iota;
  repeat match goal with
  | |- context [Z.eqb ?a ?b] => let v := eval vm_compute in (Z.eqb a b) in change (Z.eqb a b) with v; cbv iota
  end.

(** Reads the parts one after the other. *)
Ltac rd :=
  repeat first
  [ apply reads_ret
  | eapply reads_bind; [eassumption|tags]
  | eapply reads_bind; [eapply reads_fmap; eassumption|tags]
  | eapply reads_fmap; eassumption
  | eapply reads_lift; [eassumption|tags]
  | eapply reads_check; [eassumption|tags]
  | eassumption ].

Lemma bytes_concat a b : is_bytes a → is_bytes b → is_bytes (a ++ b).
Proof. intros. by apply is_bytes_app. Qed.

Lemma is_bytes_one x : u8 x → is_bytes [x].
Proof. intros. by apply Forall_singleton. Qed.
Lemma to_be_bytes n x : is_bytes (to_be n x).
Proof. apply Forall_reverse, to_le_bytes. Qed.
Create HintDb codec.
#[export] Hint Resolve bytes_concat is_bytes_one to_be_bytes Forall_nil_2 : codec.

(** Ends the first law: the bytes are those of the parts. *)
Ltac wrote := eexists; split_and!; [..|rd]; [by rewrite <-?app_assoc, ?app_nil_r|repeat apply bytes_concat; first [eassumption|apply to_be_bytes|apply Forall_nil_2|apply is_bytes_one; ulia]].

(** The same with the tag [t] in front. *)
Ltac wrote_tag t := pose proof (reads_u8 t); wrote.

(** One part of a reader, by a codec or by the law of an integer. *)
Ltac rd_part L :=
  eapply wp_mono; [eapply L; eassumption| |done];
  let a := fresh "a" in let r := fresh "r" in let W := fresh "W" in let M := fresh "M" in
  intros a r [W M]; cbv beta;
  repeat match type of M with ∃ _, _ => let b := fresh "b" in let E := fresh "E" in destruct M as (b & M & E) end;
  match goal with Hr : reader_ok ?r0 |- _ => match type of M with moved r0 _ _ => pose proof (moved_ok _ _ _ Hr M) end end.

Ltac moves :=
  first [ eassumption
        | eapply moved_trans; [eassumption|eassumption|moves]
        | apply moved_nil; eassumption ].

Ltac wr :=
  repeat first
  [ eassumption
  | apply writes_raw
  | eapply writes_bind; [first [eassumption|apply writes_raw]|]
  | eapply writes_lift; [eassumption|]
  | eapply writes_check; [eassumption|] ].

(** Ends the second law. *)
Ltac accepted := split; [repeat split; (assumption || ulia)|eexists; split; [moves|rewrite ?app_nil_r; wr]].

Lemma u64_codec : codec u64 write_u64 read_u64.
Proof.
  split.
  - intros x w w' Hx [= <-]. exists (to_be 8 x). split_and!; [done|apply to_be_bytes|by apply reads_u64].
  - intros r Hr. eapply wp_mono; [by apply wp_u64| |done]. intros x r' [Hx Hm]. split; [done|].
    exists (to_be 8 x). split; [done|apply writes_raw].
Qed.

Lemma try_u32_ok n x : try_u32 n = Ok x → x = n ∧ n ≤ U32_MAX.
Proof. unfold try_u32. destruct (Z.leb_spec n U32_MAX); [|done]. by intros [= ->]. Qed.

Lemma bytes_codec m : codec is_bytes (λ b, encode_bytes b m) (read_bytes m).
Proof.
  split.
  - intros b w w' Hb Hr. unfold encode_bytes, bytes_raw, write_u32 in Hr. enc_inv.
    apply try_u32_ok in H0 as [-> Hu]. assert (Hl : u32 (len b)) by (split; [apply len_nonneg|ulia]).
    pose proof (reads_u32 _ Hl). pose proof (reads_take b). exists (to_be 4 (len b) ++ b).
    split_and!; [by rewrite <-app_assoc|by apply bytes_concat, Hb; apply to_be_bytes|].
    unfold read_bytes. rd.
  - intros r Hr. unfold read_bytes. wp_step. rd_part wp_u32. wp_step. apply wp_fail_when; [done|]. intros Hm.
    eapply wp_mono; [apply wp_take; [done|ulia]| |done]. intros b r1 (Hl & Hb & Hmv). split; [done|].
    exists (to_be 4 a ++ b). split; [moves|]. subst a. unfold encode_bytes, bytes_raw.
    apply writes_check; [done|]. eapply writes_lift; [unfold try_u32; rewrite (proj2 (Z.leb_le _ _)); [done|ulia]|].
    apply writes_bind; apply writes_raw.
Qed.

Lemma count_codec m : codec (λ n, 0 ≤ n) (λ n, encode_count n m) (read_count m).
Proof.
  split.
  - intros n w w' Hn Hr. unfold encode_count, write_u32 in Hr. enc_inv. apply try_u32_ok in H0 as [-> Hu].
    assert (Hl : u32 n) by ulia. pose proof (reads_u32 _ Hl). unfold read_count. wrote.
  - intros r Hr. unfold read_count. wp_step. rd_part wp_u32. wp_step. apply wp_fail_when; [done|]. intros Hm. wp_step.
    split; [ulia|]. exists (to_be 4 a). split; [done|]. apply writes_check; [done|].
    eapply writes_lift; [unfold try_u32; rewrite (proj2 (Z.leb_le _ _)); [done|ulia]|apply writes_raw].
Qed.
Lemma limit_codec m : codec (λ n, 0 ≤ n) (λ n, encode_limit n m) (read_limit m).
Proof. exact (count_codec m). Qed.

(** [for] loops over the elements of a list, after their count. *)
Section lists.
Context {A : Type} (wf : A → Prop) (enc : A → PW) (dec : PR A) (C : codec wf enc dec).

Lemma read_many_reads xs w w' :
  Forall wf xs → for_each enc xs w = (Ok tt, w') →
  ∃ bs, w' = w ++ bs ∧ is_bytes bs ∧ reads (read_many dec (length xs)) xs bs.
Proof.
  intros Hxs. revert w. induction Hxs as [|x xs Hx Hxs IH]; intros w Hr.
  - injection Hr as <-. exists []. rewrite app_nil_r. split_and!; [done|constructor|apply reads_ret].
  - cbn [for_each] in Hr. apply bind_inv in Hr as ([] & w1 & H1 & H2).
    apply (codec_reads C) in H1 as (b1 & -> & Hb1 & Hr1); [|done]. apply IH in H2 as (b2 & -> & Hb2 & Hr2).
    cbn [read_many length]. wrote.
Qed.
Lemma read_many_writes n r :
  reader_ok r →
  wp (read_many dec n) (λ xs r', length xs = n ∧ Forall wf xs ∧ ∃ bs, moved r bs r' ∧ writes (for_each enc xs) bs) any_error r.
Proof.
  revert r. induction n as [|n IH]; intros r Hr; cbn [read_many].
  { wp_step. split_and!; [done|constructor|]. exists []. split; [by apply moved_nil|].
    intros w. by rewrite app_nil_r. }
  wp_step. rd_part (codec_writes C). wp_step. eapply wp_mono; [by apply IH| |done].
  intros xs r1 (Hl & Hw & b1 & M1 & E1). wp_step. split_and!; [by rewrite <-Hl|by constructor|].
  exists (b ++ b1). split; [moves|]. cbn [for_each]. wr.
Qed.
Lemma list_codec m :
  codec (Forall wf) (λ xs, encode_count (len xs) m;; for_each enc xs)
    (count ← read_count m; read_many dec (Z.to_nat count)).
Proof.
  split.
  - intros xs w w' Hxs Hr. apply bind_inv in Hr as ([] & w1 & H1 & H2).
    apply (codec_reads (count_codec m)) in H1 as (b1 & -> & Hb1 & Hr1); [|apply len_nonneg].
    apply read_many_reads in H2 as (b2 & -> & Hb2 & Hr2); [|done].
    assert (length xs = Z.to_nat (len xs)) as Hl by (unfold len; lia). rewrite Hl in Hr2. wrote.
  - intros r Hr. wp_step. rd_part (codec_writes (count_codec m)). eapply wp_mono; [by apply read_many_writes| |done].
    intros xs r1 (Hl & Hw & b1 & M1 & E1). split; [done|]. exists (b ++ b1). split; [moves|].
    assert (len xs = a) as -> by (unfold len; lia). wr.
Qed.
End lists.

(** An optional value after a flag. *)
Lemma wp_flag r : reader_ok r → wp read_flag (λ f r', u8 (if f then 1 else 0) ∧ moved r [if f then 1 else 0] r') any_error r.
Proof.
  intros Hr. unfold read_flag. wp_step. rd_part wp_u8. destruct (Z.eqb_spec a 0) as [->|]; [by wp_step|].
  destruct (Z.eqb_spec a 1) as [->|]; [by wp_step|]. done.
Qed.
Lemma reads_flag (f : bool) : reads read_flag f [if f then 1 else 0].
Proof.
  unfold read_flag. rewrite <-(app_nil_r [_]).
  destruct f; (eapply reads_bind; [apply reads_u8|tags; apply reads_ret]).
Qed.

Definition optional {A} (wf : A → Prop) (o : option A) : Prop := ∀ a, o = Some a → wf a.

Lemma option_codec {A} (wf : A → Prop) (enc : A → PW) (dec : PR A) :
  codec wf enc dec →
  codec (optional wf) (λ o, match o with Some a => write_u8 1;; enc a | None => write_u8 0 end)
    (f ← read_flag; if f : bool then Some <$> dec else mret None).
Proof.
  intros C. split.
  - intros [a|] w w' Ho Hr; enc_inv.
    + apply (codec_reads C) in Hr as (b & -> & Hb & Hd); [|by apply Ho]. pose proof (reads_flag true). wrote.
    + pose proof (reads_flag false). wrote.
  - intros r Hr. wp_step. rd_part wp_flag. destruct a.
    + wp_step. rd_part (codec_writes C). split; [by intros ? [= <-]|]. exists ([1] ++ b). split; [moves|wr].
    + wp_step. split; [done|]. exists [0]. split; [moves|wr].
Qed.

(** ** The messages *)

Section messages.
Context (l : ProtocolLimits).

Definition wf_mutation (m : TransactionMutation) : Prop :=
  Key.wf (mutation_key m) ∧ match m with Put _ v => is_bytes v | Delete _ => True end.
Definition wf_condition (c : TransactionCondition) : Prop :=
  Key.wf (condition_key c) ∧ match c with RevisionEquals _ r => u64 r | _ => True end.
Definition wf_document (d : Service.Document) : Prop :=
  Key.wf (Service.doc_key d) ∧ is_bytes (Service.doc_value d) ∧ u64 (Service.doc_revision d).
Definition wf_state (s : RevisionState) : Prop :=
  match s with Present v r => is_bytes v ∧ u64 r | Missing r => u64 r end.
Definition wf_outcome (o : Service.TransactionOutcome) : Prop := optional u64 (Service.outcome_commit_lsn o).
Definition wf_expectation (e : ConditionExpectation) : Prop :=
  match e with ExpectRevisionEquals r => u64 r | _ => True end.
Definition wf_conflict (c : ConflictDetails) : Prop :=
  Key.wf (details_key c) ∧ wf_expectation (details_expected c) ∧ u64 (observed_revision (details_actual c)).

Lemma key_codec : codec Key.wf (encode_key l) (decode_key l).
Proof.
  split.
  - intros [pk sk] w w' [Hp Hs] Hr. unfold encode_key in Hr. enc_inv.
    apply (codec_reads (bytes_codec _)) in H0 as (b1 & -> & Hb1 & H1); [|done].
    apply (codec_reads (bytes_codec _)) in Hr as (b2 & -> & Hb2 & H2); [|done].
    cbn [Key.pk Key.sk] in *. exists (b1 ++ b2 ++ []). rewrite app_nil_r.
    split_and!; [by rewrite app_assoc|by apply bytes_concat|]. rewrite <-(app_nil_r b2). unfold decode_key.
    eapply reads_bind; [exact H1|]. eapply reads_bind; [exact H2|]. rd.
  - intros r Hr. unfold decode_key. wp_step. rd_part (codec_writes (bytes_codec (max_key_component_size l))).
    wp_step. rd_part (codec_writes (bytes_codec (max_key_component_size l))). wp_step. apply wp_lift.
    destruct (validate_key l (Key.new a a0)) as [[]| |] eqn:Ev; [|done|by unfold validate_key, validate_key_parts, fail_if in Ev; destruct (_ <? _)].
    wp_step. split; [by split|]. exists (b ++ b0). split; [moves|]. unfold encode_key. wr.
Qed.

Lemma condition_codec : codec wf_condition (encode_condition l) (decode_condition l).
Proof.
  pose proof key_codec as CK. split.
  - intros c w w' [Hk Hv] Hr. destruct c as [k v|k|k]; cbn [encode_condition] in Hr; enc_inv.
    + apply (codec_reads CK) in H0 as (b1 & -> & Hb1 & H1); [|done].
      apply (codec_reads u64_codec) in Hr as (b2 & -> & Hb2 & H2); [|done]. unfold decode_condition. wrote_tag 0.
    + apply (codec_reads CK) in Hr as (b1 & -> & Hb1 & H1); [|done]. unfold decode_condition. wrote_tag 1.
    + apply (codec_reads CK) in Hr as (b1 & -> & Hb1 & H1); [|done]. unfold decode_condition. wrote_tag 2.
  - intros r Hr. unfold decode_condition. wp_step. rd_part wp_u8. wp_step. rd_part (codec_writes CK).
    destruct (Z.eqb_spec a 0) as [->|]; [|destruct (Z.eqb_spec a 1) as [->|]; [|destruct (Z.eqb_spec a 2) as [->|]; [|done]]].
    + wp_step. rd_part (codec_writes u64_codec). wp_step. split; [by split|]. eexists. split; [moves|].
      unfold encode_condition. wr.
    + wp_step. split; [by split|]. eexists. split; [moves|]. unfold encode_condition. wr.
    + wp_step. split; [by split|]. eexists. split; [moves|]. unfold encode_condition. wr.
Qed.
Lemma conditions_codec : codec (Forall wf_condition) (encode_conditions l) (decode_conditions l).
Proof. exact (list_codec _ _ _ condition_codec (max_conditions l)). Qed.

Lemma mutation_codec : codec wf_mutation (encode_mutation l) (decode_mutation l).
Proof.
  pose proof key_codec as CK. split.
  - intros c w w' [Hk Hv] Hr. destruct c as [k v|k]; cbn [encode_mutation] in Hr; enc_inv.
    + apply (codec_reads CK) in H0 as (b1 & -> & Hb1 & H1); [|done].
      apply (codec_reads (bytes_codec _)) in Hr as (b2 & -> & Hb2 & H2); [|done]. unfold decode_mutation. wrote_tag 0.
    + apply (codec_reads CK) in Hr as (b1 & -> & Hb1 & H1); [|done]. unfold decode_mutation. wrote_tag 1.
  - intros r Hr. unfold decode_mutation. wp_step. rd_part wp_u8. wp_step. rd_part (codec_writes CK).
    destruct (Z.eqb_spec a 0) as [->|]; [|destruct (Z.eqb_spec a 1) as [->|]; [|done]].
    + wp_step. rd_part (codec_writes (bytes_codec (max_value_size l))). wp_step. split; [by split|]. eexists. split; [moves|].
      unfold encode_mutation. wr.
    + wp_step. split; [by split|]. eexists. split; [moves|]. unfold encode_mutation. wr.
Qed.
Lemma mutations_codec : codec (Forall wf_mutation) (encode_mutations l) (decode_mutations l).
Proof. exact (list_codec _ _ _ mutation_codec (max_mutations l)). Qed.

Lemma document_codec : codec wf_document (encode_document l) (decode_document l).
Proof.
  pose proof key_codec as CK. split.
  - intros [k v n] w w' (Hk & Hv & Hn) Hr. unfold encode_document in Hr. enc_inv. cbn in *.
    apply (codec_reads CK) in H as (b1 & -> & Hb1 & H1); [|done].
    apply (codec_reads (bytes_codec _)) in H0 as (b2 & -> & Hb2 & H2); [|done].
    apply (codec_reads u64_codec) in Hr as (b3 & -> & Hb3 & H3); [|done]. unfold decode_document. wrote.
  - intros r Hr. unfold decode_document. wp_step. rd_part (codec_writes CK). wp_step.
    rd_part (codec_writes (bytes_codec (max_value_size l))). wp_step. rd_part (codec_writes u64_codec). wp_step.
    split; [by split|]. eexists. split; [moves|]. unfold encode_document. wr.
Qed.
Lemma documents_codec : codec (Forall wf_document) (encode_documents l) (decode_documents l).
Proof. exact (list_codec _ _ _ document_codec (max_scan_limit l)). Qed.

Lemma state_codec : codec wf_state (encode_revision_state l) (decode_revision_state l).
Proof.
  split.
  - intros [v n|n] w w' Hw Hr; cbn [encode_revision_state wf_state] in *; enc_inv.
    + destruct Hw as [Hv Hn]. apply (codec_reads (bytes_codec _)) in H0 as (b2 & -> & Hb2 & H2); [|done].
      apply (codec_reads u64_codec) in Hr as (b3 & -> & Hb3 & H3); [|done]. unfold decode_revision_state. wrote_tag 0.
    + apply (codec_reads u64_codec) in Hr as (b3 & -> & Hb3 & H3); [|done]. unfold decode_revision_state. wrote_tag 1.
  - intros r Hr. unfold decode_revision_state. wp_step. rd_part wp_u8.
    destruct (Z.eqb_spec a 0) as [->|]; [|destruct (Z.eqb_spec a 1) as [->|]; [|done]].
    + wp_step. rd_part (codec_writes (bytes_codec (max_value_size l))). wp_step. rd_part (codec_writes u64_codec). wp_step.
      split; [by split|]. eexists. split; [moves|]. unfold encode_revision_state. wr.
    + wp_step. rd_part (codec_writes u64_codec). wp_step. split; [done|]. eexists. split; [moves|].
      unfold encode_revision_state. wr.
Qed.

Lemma observed_codec :
  codec (λ s, u64 (observed_revision s)) encode_observed_state decode_observed_state.
Proof.
  split.
  - intros [n|n] w w' Hw Hr; cbn [encode_observed_state observed_revision] in *; enc_inv;
      (apply (codec_reads u64_codec) in Hr as (b3 & -> & Hb3 & H3); [|done]; unfold decode_observed_state).
    + wrote_tag 0.
    + wrote_tag 1.
  - intros r Hr. unfold decode_observed_state. wp_step. rd_part wp_u8.
    destruct (Z.eqb_spec a 0) as [->|]; [|destruct (Z.eqb_spec a 1) as [->|]; [|done]];
      (wp_step; rd_part (codec_writes u64_codec); wp_step; split; [done|]; eexists; split; [moves|];
       unfold encode_observed_state; wr).
Qed.

Lemma outcome_codec : codec wf_outcome encode_transaction_outcome decode_transaction_outcome.
Proof.
  split.
  - intros [[n|]] w w' Hw Hr; unfold encode_transaction_outcome in Hr; cbn in Hr; enc_inv.
    + apply (codec_reads u64_codec) in Hr as (b3 & -> & Hb3 & H3); [|by apply Hw]. unfold decode_transaction_outcome. wrote_tag 1.
    + unfold decode_transaction_outcome. wrote_tag 0.
  - intros r Hr. unfold decode_transaction_outcome. wp_step. rd_part wp_u8.
    destruct (Z.eqb_spec a 0) as [->|]; [|destruct (Z.eqb_spec a 1) as [->|]; [|done]].
    + wp_step. split; [done|]. eexists. split; [moves|]. unfold encode_transaction_outcome. cbn. wr.
    + wp_step. rd_part (codec_writes u64_codec). wp_step. split; [by intros ? [= <-]|]. eexists. split; [moves|].
      unfold encode_transaction_outcome, Service.outcome_committed. cbn [Service.outcome_commit_lsn]. wr.
Qed.

Lemma expectation_codec : codec wf_expectation encode_expectation decode_expectation.
Proof.
  split.
  - intros [n| |] w w' Hw Hr; cbn [encode_expectation] in Hr; enc_inv; unfold decode_expectation.
    + apply (codec_reads u64_codec) in Hr as (b3 & -> & Hb3 & H3); [|done]. wrote_tag 0.
    + wrote_tag 1.
    + wrote_tag 2.
  - intros r Hr. unfold decode_expectation. wp_step. rd_part wp_u8.
    destruct (Z.eqb_spec a 0) as [->|]; [|destruct (Z.eqb_spec a 1) as [->|]; [|destruct (Z.eqb_spec a 2) as [->|]; [|done]]].
    + wp_step. rd_part (codec_writes u64_codec). wp_step. split; [done|]. eexists. split; [moves|]. unfold encode_expectation. wr.
    + wp_step. split; [done|]. eexists. split; [moves|]. unfold encode_expectation. wr.
    + wp_step. split; [done|]. eexists. split; [moves|]. unfold encode_expectation. wr.
Qed.

Lemma conflict_codec : codec wf_conflict (encode_conflict l) (decode_conflict l).
Proof.
  pose proof key_codec as CK. split.
  - intros [k e o] w w' (Hk & He & Ho) Hr. unfold encode_conflict in Hr. enc_inv. cbn in *.
    apply (codec_reads CK) in H as (b1 & -> & Hb1 & H1); [|done].
    apply (codec_reads expectation_codec) in H0 as (b2 & -> & Hb2 & H2); [|done].
    apply (codec_reads observed_codec) in Hr as (b3 & -> & Hb3 & H3); [|done]. unfold decode_conflict. wrote.
  - intros r Hr. unfold decode_conflict. wp_step. rd_part (codec_writes CK). wp_step.
    rd_part (codec_writes expectation_codec). wp_step. rd_part (codec_writes observed_codec). wp_step.
    split; [by split|]. eexists. split; [moves|]. unfold encode_conflict. wr.
Qed.

(** ** Characters *)

Lemma next_char_inv b c t :
  next_char b = Some (c, t) → b = c ++ t ∧ c ≠ [] ∧ ∀ t', next_char (c ++ t') = Some (c, t').
Proof.
  unfold next_char. intros Hn.
  repeat (case_match; simplify_eq);
    (split; [done|]; split; [done|]; intros t'; cbn [app];
     repeat match goal with Hb : ?b = _ |- context [?b] => rewrite Hb end; done).
Qed.

Definition is_char (c : bytes) : Prop := c ≠ [] ∧ ∀ t, next_char (c ++ t) = Some (c, t).

Lemma chars_loop_inv fuel b cs :
  chars_loop fuel b = Some cs → concat cs = b ∧ Forall is_char cs ∧ (length cs ≤ length b)%nat.
Proof.
  revert b cs. induction fuel as [|fuel IH]; intros [|x b] cs; cbn [chars_loop]; try done; try by intros [= <-].
  intros Hc. apply bind_Some in Hc as ([c t] & Hn & Hc). apply bind_Some in Hc as (cs' & Hc & [= <-]).
  apply next_char_inv in Hn as (-> & Hne & Hn). apply IH in Hc as (<- & Hf & Hl).
  split_and!; [done|by constructor|]. simpl. rewrite length_app. destruct c; [done|]. simpl. lia.
Qed.
Lemma chars_loop_concat fuel cs : Forall is_char cs → (length cs ≤ fuel)%nat → chars_loop fuel (concat cs) = Some cs.
Proof.
  intros Hf. revert fuel. induction Hf as [|c cs [Hne Hc] Hf IH]; intros fuel Hl; [by destruct fuel|].
  destruct fuel as [|fuel]; simpl in Hl; [lia|]. cbn [concat]. destruct c as [|x c]; [done|].
  cbn [chars_loop app]. change (x :: c ++ concat cs) with ((x :: c) ++ concat cs). rewrite Hc. cbn.
  by rewrite IH by lia.
Qed.
Lemma chars_concat cs : Forall is_char cs → chars (concat cs) = Some cs.
Proof.
  intros Hf. apply chars_loop_concat; [done|]. clear l. induction Hf as [|c cs [Hne _] Hf IH]; [done|].
  cbn [concat length]. rewrite length_app. destruct c; [done|]. simpl. lia.
Qed.
Lemma take_chars_chars n b cs : chars b = Some cs → chars (take_chars n b) = Some (take (Z.to_nat n) cs).
Proof.
  intros Hc. unfold take_chars. rewrite Hc. apply chars_loop_inv in Hc as (_ & Hf & _). cbn [default from_option id].
  by apply chars_concat, Forall_take.
Qed.
Lemma take_chars_bytes n b : is_bytes b → is_bytes (take_chars n b).
Proof.
  intros Hb. unfold take_chars. destruct (chars b) as [cs|] eqn:E; cbn [default from_option id]; [|rewrite take_nil; constructor].
  apply chars_loop_inv in E as (<- & _ & _). revert Hb. generalize (Z.to_nat n). clear l.
  induction cs as [|c cs IH]; intros k Hb; [destruct k; constructor|]. cbn [concat] in Hb. apply Forall_app in Hb as [H1 H2].
  destruct k; [constructor|]. cbn [take concat]. apply bytes_concat; [done|]. by apply IH.
Qed.
Lemma take_chars_short n b cs : chars b = Some cs → len b ≤ n → take_chars n b = b.
Proof.
  intros Hc Hl. unfold take_chars. rewrite Hc. apply chars_loop_inv in Hc as (<- & _ & Hk). cbn [default from_option id].
  unfold len in Hl. change (concat (take (Z.to_nat n) cs) = concat cs). by rewrite take_ge by lia.
Qed.
Lemma take_chars_twice n b cs : chars b = Some cs → take_chars n (take_chars n b) = take_chars n b.
Proof.
  intros Hc. pose proof (take_chars_chars n b cs Hc) as Ht. unfold take_chars at 1. rewrite Ht. cbn [default from_option id].
  rewrite take_take, Nat.min_id. unfold take_chars. by rewrite Hc.
Qed.

(** ** Errors and whole messages *)

Definition wf_error (e : ApplicationError) : Prop :=
  is_bytes (detail e) ∧ is_Some (chars (detail e)) ∧ optional wf_conflict (conflict e).
(** An error whose detail is short enough to be sent as it is. *)
Definition wf_sent_error (e : ApplicationError) : Prop :=
  wf_error e ∧ take_chars (max_error_detail_size l) (detail e) = detail e.

Lemma kind_code k : application_error_kind (application_error_kind_code k) = Ok k.
Proof. by destruct k. Qed.
Lemma kind_decode x k : application_error_kind x = Ok k → application_error_kind_code k = x.
Proof. unfold application_error_kind. repeat case_match; intros [= <-]; done. Qed.
Lemma outcome_code o : mutation_outcome_of (mutation_outcome_code o) = Ok o.
Proof. by destruct o. Qed.
Lemma outcome_decode x o : mutation_outcome_of x = Ok o → mutation_outcome_code o = x.
Proof. unfold mutation_outcome_of. repeat case_match; intros [= <-]; done. Qed.
Lemma kind_returns x : returns (application_error_kind x).
Proof. unfold application_error_kind. by repeat case_match. Qed.
Lemma outcome_returns x : returns (mutation_outcome_of x).
Proof. unfold mutation_outcome_of. by repeat case_match. Qed.
Lemma from_utf8_ok b : is_Some (chars b) → from_utf8 b = Ok b.
Proof. intros [cs Hc]. unfold from_utf8. by rewrite Hc. Qed.

Lemma optional_conflict_codec :
  codec (optional wf_conflict) (encode_optional_conflict l) (decode_optional_conflict l).
Proof. exact (option_codec _ _ _ conflict_codec). Qed.

Lemma error_codec : codec wf_sent_error (encode_application_error l) (decode_application_error l).
Proof.
  pose proof (bytes_codec (max_error_detail_size l)) as CB. split.
  - intros [k d o c] w w' [(Hd & Hu & Hc) Ht] Hr. unfold encode_application_error in Hr.
    cbn [kind detail mutation_outcome conflict] in *. rewrite Ht in Hr. enc_inv.
    apply (codec_reads CB) in H0 as (b1 & -> & Hb1 & H1); [|done].
    apply (codec_reads optional_conflict_codec) in Hr as (b2 & -> & Hb2 & H2); [|done].
    pose proof (kind_code k) as Hk. pose proof (outcome_code o) as Ho. pose proof (from_utf8_ok d Hu) as Hf.
    exists ([application_error_kind_code k] ++ b1 ++ [mutation_outcome_code o] ++ b2 ++ []). rewrite !app_nil_r.
    split_and!.
    + by rewrite <-!app_assoc.
    + apply bytes_concat; [apply is_bytes_one; destruct k; cbn; ulia|]. apply bytes_concat; [done|].
      apply bytes_concat; [apply is_bytes_one; destruct o; cbn; ulia|done].
    + unfold decode_application_error. rewrite <-(app_nil_r b2).
      eapply reads_bind; [apply reads_u8|]. eapply reads_lift; [exact Hk|]. eapply reads_bind; [exact H1|].
      eapply reads_lift; [exact Hf|]. eapply reads_bind; [apply reads_u8|]. eapply reads_lift; [exact Ho|]. rd.
  - intros r Hr. unfold decode_application_error. wp_step. rd_part wp_u8. wp_step. apply wp_lift.
    pose proof (kind_returns a). destruct (application_error_kind a) as [k| |] eqn:Hk; [|done..]. apply kind_decode in Hk.
    wp_step. rd_part (codec_writes CB). wp_step. apply wp_lift. unfold from_utf8.
    destruct (chars a0) as [cs|] eqn:Hcs; [|done]. wp_step. rd_part wp_u8. wp_step. apply wp_lift.
    pose proof (outcome_returns a1). destruct (mutation_outcome_of a1) as [o| |] eqn:Ho; [|done..]. apply outcome_decode in Ho.
    wp_step. rd_part (codec_writes optional_conflict_codec). wp_step.
    assert (Ht : take_chars (max_error_detail_size l) a0 = a0).
    { eapply take_chars_short; [done|]. specialize (E []). unfold encode_bytes in E. apply bind_inv in E as (u & w1 & E & _).
      apply check_inv in E as [E _]. lia. }
    split; [by split; [split_and!; eauto|]|]. eexists. split; [moves|].
    unfold encode_application_error. cbn [kind detail mutation_outcome conflict]. rewrite Ht, Hk, Ho. wr.
Qed.

Definition wf_request (r : Service.Request) : Prop :=
  match r with
  | Service.Get k | Service.Delete k => Key.wf k
  | Service.Put k v => Key.wf k ∧ is_bytes v
  | Service.Query pk after limit => is_bytes pk ∧ optional is_bytes after ∧ 0 ≤ limit
  | Service.Scan after limit => optional Key.wf after ∧ 0 ≤ limit
  | Service.Transact q => Forall wf_condition (conditions q) ∧ Forall wf_mutation (mutations q)
  end.
Definition wf_response (r : Service.Response) : Prop :=
  match r with
  | Service.GetResponse s => wf_state s
  | Service.PutResponse v | Service.DeleteResponse v => u64 v
  | Service.QueryResponse ds | Service.ScanResponse ds => Forall wf_document ds
  | Service.TransactResponse o => wf_outcome o
  end.

Lemma optional_bytes_codec m : codec (optional is_bytes) (λ o, encode_optional_bytes o m) (read_optional_bytes m).
Proof. exact (option_codec _ _ _ (bytes_codec m)). Qed.
Lemma optional_key_codec : codec (optional Key.wf) (encode_optional_key l) (decode_optional_key l).
Proof. exact (option_codec _ _ _ key_codec). Qed.

Lemma validate_key_parts_returns pk sk : returns (validate_key_parts l pk sk).
Proof. unfold validate_key_parts, fail_if. by destruct (_ <? _). Qed.

(** Reads what the codecs of the parts wrote, in order. *)
Ltac rd_bind Hd := eapply reads_bind; [exact Hd|tags].

Lemma query_reads pk after limit w w' :
  wf_request (Service.Query pk after limit) →
  (lift_r (validate_key_parts l pk (default [] after));;
   encode_bytes pk (max_key_component_size l);;
   encode_optional_bytes after (max_key_component_size l);;
   encode_limit limit (max_query_limit l)) w = (Ok tt, w') →
  ∃ bs, w' = w ++ bs ∧ is_bytes bs ∧ reads (decode_query l) (Service.Query pk after limit) bs.
Proof.
  intros (Hp & Ha & Hl) Hr. enc_inv.
  apply (codec_reads (bytes_codec _)) in H0 as (b1 & -> & Hb1 & R1); [|done].
  apply (codec_reads (optional_bytes_codec _)) in H1 as (b2 & -> & Hb2 & R2); [|done].
  apply (codec_reads (limit_codec _)) in Hr as (b3 & -> & Hb3 & R3); [|done].
  exists (b1 ++ b2 ++ b3 ++ []). rewrite !app_nil_r.
  split_and!; [by rewrite <-!app_assoc|by repeat apply bytes_concat|]. rewrite <-(app_nil_r b3).
  unfold decode_query. rd_bind R1. rd_bind R2. rd.
Qed.

Lemma request_reads r w w' :
  wf_request r → encode_request_payload l r w = (Ok tt, w') →
  ∃ bs, w' = w ++ bs ∧ is_bytes bs ∧ reads (decode_request_payload l) r bs.
Proof.
  pose proof key_codec as CK. intros Hw Hr. unfold encode_request_payload in Hr.
  apply bind_inv in Hr as ([] & w1 & H0 & Hr). injection H0 as <-.
  unfold decode_request_payload. destruct r as [k|k v|k|pk after limit|after limit|q]; cbn [wf_request request_opcode] in *.
  - apply (codec_reads CK) in Hr as (b1 & -> & Hb1 & H1); [|done]. wrote_tag 1.
  - destruct Hw as [Hk Hv]. enc_inv. apply (codec_reads CK) in H as (b1 & -> & Hb1 & H1); [|done].
    apply (codec_reads (bytes_codec _)) in Hr as (b2 & -> & Hb2 & H2); [|done]. wrote_tag 2.
  - apply (codec_reads CK) in Hr as (b1 & -> & Hb1 & H1); [|done]. wrote_tag 3.
  - apply query_reads in Hr as (b1 & -> & Hb1 & H1); [|done]. wrote_tag 4.
  - destruct Hw as [Hk Hv]. enc_inv. apply (codec_reads optional_key_codec) in H as (b1 & -> & Hb1 & H1); [|done].
    apply (codec_reads (limit_codec _)) in Hr as (b2 & -> & Hb2 & H2); [|done]. wrote_tag 5.
  - destruct q as [cs ms]. destruct Hw as [Hc Hm]. cbn in *. enc_inv.
    apply (codec_reads conditions_codec) in H as (b1 & -> & Hb1 & H1); [|done].
    apply (codec_reads mutations_codec) in Hr as (b2 & -> & Hb2 & H2); [|done]. wrote_tag 8.
Qed.

Lemma request_writes r :
  reader_ok r →
  wp (decode_request_payload l) (λ q r', wf_request q ∧ ∃ bs, moved r bs r' ∧ writes (encode_request_payload l q) bs) any_error r.
Proof.
  pose proof key_codec as CK. intros Hr. unfold decode_request_payload. wp_step. rd_part wp_u8.
  repeat (case_match; try done); subst; wp_steps.
  - rd_part (codec_writes optional_key_codec). wp_steps. rd_part (codec_writes (limit_codec (max_scan_limit l))).
    wp_steps. split; [done|]. eexists. split; [moves|]. unfold encode_request_payload. wr.
  - rd_part (codec_writes CK). wp_steps. split; [done|]. eexists. split; [moves|]. unfold encode_request_payload. wr.
  - rd_part (codec_writes conditions_codec). wp_steps. rd_part (codec_writes mutations_codec). wp_steps.
    split; [done|]. eexists. split; [moves|]. unfold encode_request_payload. wr.
  - unfold decode_query. wp_steps. rd_part (codec_writes (bytes_codec (max_key_component_size l))). wp_steps.
    rd_part (codec_writes (optional_bytes_codec (max_key_component_size l))). wp_steps. apply wp_lift.
    pose proof (validate_key_parts_returns a (default [] a0)).
    destruct (validate_key_parts l a (default [] a0)) as [[]| |] eqn:Ev; [|done..]. wp_steps.
    rd_part (codec_writes (limit_codec (max_query_limit l))). wp_steps. split; [done|]. eexists. split; [moves|].
    unfold encode_request_payload. wr.
  - rd_part (codec_writes CK). wp_steps. rd_part (codec_writes (bytes_codec (max_value_size l))). wp_steps.
    split; [done|]. eexists. split; [moves|]. unfold encode_request_payload. wr.
  - rd_part (codec_writes CK). wp_steps. split; [done|]. eexists. split; [moves|]. unfold encode_request_payload. wr.
Qed.

Lemma request_codec : codec wf_request (encode_request_payload l) (decode_request_payload l).
Proof. split; [exact request_reads|exact request_writes]. Qed.

Lemma response_reads r w w' :
  wf_response r → encode_response_payload l r w = (Ok tt, w') →
  ∃ bs, w' = w ++ bs ∧ is_bytes bs ∧ reads (decode_response_payload l (response_opcode r)) r bs.
Proof.
  intros Hw Hr. destruct r as [s|v|v|ds|ds|o]; cbn [encode_response_payload wf_response response_opcode] in *;
    unfold decode_response_payload; tags.
  - apply (codec_reads state_codec) in Hr as (b1 & -> & Hb1 & H1); [|done]. wrote.
  - apply (codec_reads u64_codec) in Hr as (b1 & -> & Hb1 & H1); [|done]. wrote.
  - apply (codec_reads u64_codec) in Hr as (b1 & -> & Hb1 & H1); [|done]. wrote.
  - apply (codec_reads documents_codec) in Hr as (b1 & -> & Hb1 & H1); [|done]. wrote.
  - apply (codec_reads documents_codec) in Hr as (b1 & -> & Hb1 & H1); [|done]. wrote.
  - apply (codec_reads outcome_codec) in Hr as (b1 & -> & Hb1 & H1); [|done]. wrote.
Qed.
Lemma response_writes a r :
  reader_ok r →
  wp (decode_response_payload l a)
    (λ q r', (wf_response q ∧ response_opcode q = a) ∧ ∃ bs, moved r bs r' ∧ writes (encode_response_payload l q) bs) any_error r.
Proof.
  intros Hr. unfold decode_response_payload. repeat (case_match; try done); subst; wp_steps.
  - rd_part (codec_writes documents_codec). wp_steps. split; [done|]. eexists. split; [moves|]. done.
  - rd_part (codec_writes u64_codec). wp_steps. split; [done|]. eexists. split; [moves|]. done.
  - rd_part (codec_writes outcome_codec). wp_steps. split; [done|]. eexists. split; [moves|]. done.
  - rd_part (codec_writes documents_codec). wp_steps. split; [done|]. eexists. split; [moves|]. done.
  - rd_part (codec_writes u64_codec). wp_steps. split; [done|]. eexists. split; [moves|]. done.
  - rd_part (codec_writes state_codec). wp_steps. split; [done|]. eexists. split; [moves|]. done.
Qed.

(** Envelopes that a client that expects [t] accepts. *)
Definition wf_envelope (t : option Z) (e : ResponseEnvelope) : Prop :=
  match e with
  | SuccessEnvelope r => wf_response r ∧ (∀ x, t = Some x → response_opcode r = x)
  | ErrorEnvelope e => wf_sent_error e
  end.

Lemma opcode_u8 r : u8 (response_opcode r).
Proof. destruct r; cbn; ulia. Qed.

Lemma envelope_codec t : codec (wf_envelope t) (encode_envelope l) (decode_envelope l t).
Proof.
  split.
  - intros [q|e] w w' Hw Hr; unfold encode_envelope in Hr; enc_inv.
    + destruct Hw as [Hq Ht]. apply response_reads in Hr as (b1 & -> & Hb1 & H1); [|done].
      pose proof (opcode_u8 q). exists ([0] ++ [response_opcode q] ++ b1 ++ []). rewrite app_nil_r.
      split_and!; [by rewrite <-!app_assoc|apply bytes_concat; [apply is_bytes_one; ulia|]; apply bytes_concat; [by apply is_bytes_one|done]|].
      unfold decode_envelope, decode_success. rewrite <-(app_nil_r b1). eapply reads_bind; [apply reads_u8|]. tags.
      eapply reads_bind; [apply reads_u8|]. cbv beta.
      destruct t as [x|].
      * rewrite (Ht x eq_refl) in *. eapply reads_check; [by rewrite Z.eqb_refl|]. rd.
      * change (b1 ++ []) with ([] ++ (b1 ++ [])). eapply reads_bind; [apply reads_ret|]. rd.
    + apply (codec_reads error_codec) in Hr as (b1 & -> & Hb1 & H1); [|done]. unfold decode_envelope. wrote_tag 1.
  - intros r Hr. unfold decode_envelope. wp_steps. rd_part wp_u8.
    destruct (Z.eqb_spec a 0) as [->|]; [|destruct (Z.eqb_spec a 1) as [->|]; [|done]].
    + unfold decode_success. wp_steps. rd_part wp_u8. wp_steps.
      assert (Hgo : (∀ x, t = Some x → a = x) → wp (decode_response_payload l a ≫= λ r, mret (SuccessEnvelope r))
        (λ e r', wf_envelope t e ∧ ∃ bs, moved r bs r' ∧ writes (encode_envelope l e) bs) any_error r1).
      { intros Ht. wp_steps. rd_part (response_writes a). destruct W1 as [W1 <-]. wp_steps.
        split; [by split|]. eexists. split; [moves|]. unfold encode_envelope. wr. }
      destruct t as [x|]; [|wp_step; by apply Hgo]. apply wp_fail_when; [done|]. intros Hx.
      apply Hgo. intros y [= <-]. destruct (Z.eqb_spec a x); done.
    + wp_steps. rd_part (codec_writes error_codec). wp_steps. split; [done|]. eexists. split; [moves|].
      unfold encode_envelope. wr.
Qed.

(** ** Frames *)

Lemma be_parts t n (payload : bytes) :
  let f := MAGIC ++ to_be 2 PROTOCOL_VERSION ++ [t] ++ to_be 4 n ++ payload in
  f.[0; HEADER_SIZE) = MAGIC ++ to_be 2 PROTOCOL_VERSION ++ [t] ++ to_be 4 n ∧ drop (Z.to_nat HEADER_SIZE) f = payload ∧
  len f = HEADER_SIZE + len payload.
Proof.
  intros f. set (h := MAGIC ++ to_be 2 PROTOCOL_VERSION ++ [t] ++ to_be 4 n).
  assert (Hf : f = h ++ payload) by (unfold f, h; by rewrite <-!app_assoc).
  assert (Hh : len h = HEADER_SIZE) by (unfold h; by rewrite !len_app, !len_to_be).
  rewrite Hf. split_and!.
  - rewrite <-Hh, slice_app_l by (done || lia). by apply slice_full.
  - rewrite drop_app_length'; [done|]. unfold len in Hh. lia.
  - by rewrite len_app, Hh.
Qed.

Definition message (t : Z) : Prop := t = REQUEST_MESSAGE_TYPE ∨ t = RESPONSE_MESSAGE_TYPE.

(** On a whole header no index is out of range. *)
Lemma decode_header_whole b :
  HEADER_SIZE ≤ len b →
  decode_header b =
    (fail_if (negb (bytes_eqb b.[0; 4) MAGIC)) InvalidMagic;;
     let version := from_be b.[4; 6) in
     fail_if (negb (version =? PROTOCOL_VERSION)) (UnsupportedVersion version);;
     message_type ← index b 6;
     fail_if (negb (message_type =? REQUEST_MESSAGE_TYPE) && negb (message_type =? RESPONSE_MESSAGE_TYPE))
       (UnknownMessageType message_type);;
     Ok (mkHeader version message_type (from_be b.[7; 11)))).
Proof.
  intros Hl. unfold decode_header, index_range. unfold fail_if at 1. rewrite (proj2 (Z.ltb_ge _ _)) by done.
  unfold HEADER_SIZE in Hl. rewrite (proj2 (Z.leb_le 4 (len b))) by lia. cbn [Z.leb Z.compare Pos.compare Pos.compare_cont andb mbind Result_bind].
  do 11 (destruct b as [|? b]; [unfold len in Hl; cbn in Hl; lia|]). reflexivity.
Qed.

Lemma split_encoded_frame t payload maximum f :
  message t → encode_frame t payload maximum = Ok f →
  split_frame f = Ok (mkHeader PROTOCOL_VERSION t (len payload), payload) ∧
  validate_payload_length (mkHeader PROTOCOL_VERSION t (len payload)) payload maximum = Ok tt.
Proof.
  intros Ht Hf. unfold encode_frame in Hf. pose proof (len_nonneg payload) as Hp.
  destruct (checked_add HEADER_SIZE (len payload)) as [n|] eqn:En; [|done]. cbn [ok_or mbind Result_bind] in Hf.
  unfold fail_if in Hf. destruct (maximum <? n) eqn:Em; [done|]. cbn [mbind Result_bind] in Hf.
  destruct (try_u32 (len payload)) as [k| |] eqn:Ek; [|done..]. apply try_u32_ok in Ek as [-> Hu].
  cbn [mbind Result_bind] in Hf.
  assert (f = MAGIC ++ to_be 2 PROTOCOL_VERSION ++ [t] ++ to_be 4 (len payload) ++ payload) as -> by congruence. clear Hf. split.
  - unfold split_frame. destruct (be_parts t (len payload) payload) as (E1 & E2 & E3). rewrite E1, E2, E3.
    unfold fail_if at 1. rewrite (proj2 (Z.ltb_ge _ _)) by lia. cbn [mbind Result_bind].
    assert (Hd : decode_header (MAGIC ++ to_be 2 PROTOCOL_VERSION ++ [t] ++ to_be 4 (len payload)) =
      Ok (mkHeader PROTOCOL_VERSION t (len payload))); [|rewrite Hd; cbn [mbind Result_bind payload_length]; unfold fail_if; by rewrite Z.eqb_refl].
    rewrite decode_header_whole by (by rewrite !len_app, !len_to_be). assert (len (MAGIC ++ to_be 2 PROTOCOL_VERSION ++ [t] ++ to_be 4 (len payload)) = 11) as Hl
      by (by rewrite !len_app, !len_to_be).
    assert ((MAGIC ++ to_be 2 PROTOCOL_VERSION ++ [t] ++ to_be 4 (len payload)).[7; 11) = to_be 4 (len payload)) as ->.
    { rewrite !app_assoc. assert (len ((MAGIC ++ to_be 2 PROTOCOL_VERSION) ++ [t]) = 7) as H7 by (by rewrite !len_app, len_to_be).
      rewrite slice_app_r by lia. rewrite H7. apply slice_full. by rewrite len_to_be. }
    rewrite from_to_be4 by ulia. destruct Ht as [-> | ->]; reflexivity.
  - unfold validate_payload_length. cbn [payload_length]. rewrite En. cbn [ok_or mbind Result_bind].
    unfold fail_if. rewrite Em. cbn [mbind Result_bind]. by rewrite Z.eqb_refl.
Qed.

Lemma split_frame_inv f h payload :
  is_bytes f → len f ≤ U64_MAX → split_frame f = Ok (h, payload) →
  message (message_type h) ∧ version h = PROTOCOL_VERSION ∧ payload_length h = len payload ∧ len payload ≤ U32_MAX ∧
  is_bytes payload ∧ f = MAGIC ++ to_be 2 PROTOCOL_VERSION ++ [message_type h] ++ to_be 4 (len payload) ++ payload.
Proof.
  intros Hb Hmax Hs. unfold split_frame, fail_if in Hs. destruct (Z.ltb_spec (len f) HEADER_SIZE) as [|Hl]; [done|].
  cbn [mbind Result_bind] in Hs. set (b := f.[0; HEADER_SIZE)) in *.
  assert (Hlb : len b = HEADER_SIZE) by (unfold b; rewrite len_slice; unfold HEADER_SIZE in *; lia).
  assert (Hbb : is_bytes b) by (by apply is_bytes_slice).
  destruct (decode_header b) as [h'| |] eqn:Ed; [|done..]. cbn [mbind Result_bind] in Hs.
  destruct (Z.eqb_spec (len f) (HEADER_SIZE + payload_length h')) as [El|]; [|done]. cbn [negb mbind Result_bind] in Hs.
  injection Hs as -> <-. rewrite decode_header_whole in Ed by lia. unfold fail_if in Ed. cbn [mbind Result_bind] in Ed.
  unfold bytes_eqb in Ed. destruct (bool_decide_reflect (b.[0; 4) = MAGIC)) as [Em|]; [|done]. cbn [negb mbind Result_bind] in Ed.
  destruct (Z.eqb_spec (from_be b.[4; 6)) PROTOCOL_VERSION) as [Ev|]; [|done]. cbn [negb mbind Result_bind] in Ed.
  unfold index in Ed. change (0 <=? 6) with true in Ed. cbv iota in Ed.
  destruct (b !! Z.to_nat 6) as [t|] eqn:Et; [|done]. cbn [mbind Result_bind] in Ed.
  destruct (negb (t =? _) && _) eqn:Ek; [done|]. cbn [mbind Result_bind] in Ed. injection Ed as <-.
  cbn [message_type version payload_length] in *.
  assert (Hp : len (drop (Z.to_nat HEADER_SIZE) f) = from_be b.[7; 11)).
  { unfold len in *. rewrite length_drop. unfold HEADER_SIZE in *. lia. }
  assert (H711 : is_bytes b.[7; 11) ∧ len b.[7; 11) = 4).
  { split; [by apply is_bytes_slice|]. rewrite len_slice; unfold HEADER_SIZE in *; lia. }
  assert (H46 : to_be 2 PROTOCOL_VERSION = b.[4; 6)).
  { rewrite <-Ev. apply to_from_be; [by apply is_bytes_slice|]. rewrite len_slice; unfold HEADER_SIZE in *; lia. }
  assert (H67 : b.[6; 7) = [t]).
  { apply list_eq. intros [|i]; rewrite slice_lookup by lia.
    - by rewrite decide_True by lia.
    - by rewrite decide_False by lia. }
  split_and!.
  - apply andb_false_iff in Ek as [Ek|Ek]; apply negb_false_iff, Z.eqb_eq in Ek; [by left|by right].
  - done.
  - done.
  - rewrite Hp. destruct H711 as [H1 H2]. assert (u32 (from_be b.[7; 11))); [|ulia].
    apply from_le_u32; [by apply Forall_reverse|]. unfold len in *. by rewrite length_reverse.
  - by apply Forall_drop.
  - rewrite Hp, to_from_be, H46, <-Em, <-H67 by apply H711.
    rewrite !app_assoc, <-(slice_split b 0 4 6), <-(slice_split b 0 6 7), <-(slice_split b 0 7 11) by lia.
    rewrite slice_full by (unfold HEADER_SIZE in *; lia). unfold b, slice. rewrite Z.sub_0_r, drop_0. by rewrite take_drop.
Qed.
Lemma encode_split_frame f h payload maximum :
  is_bytes f → len f ≤ U64_MAX → split_frame f = Ok (h, payload) →
  validate_payload_length h payload maximum = Ok tt → encode_frame (message_type h) payload maximum = Ok f.
Proof.
  intros Hb Hmax Hs Hv. apply split_frame_inv in Hs as (_ & _ & Hp & Hu & _ & ->); [|done..].
  unfold validate_payload_length in Hv. rewrite Hp in Hv. unfold encode_frame.
  destruct (checked_add HEADER_SIZE (len payload)) as [n|]; [|done]. cbn [ok_or mbind Result_bind] in *.
  unfold fail_if in *. destruct (maximum <? n); [done|]. cbn [mbind Result_bind].
  unfold try_u32. by rewrite (proj2 (Z.leb_le _ _)).
Qed.
Lemma decode_header_returns b : len b = HEADER_SIZE → returns (decode_header b).
Proof.
  intros Hl. rewrite decode_header_whole by lia. cbn [mbind Result_bind].
  unfold fail_if. destruct (negb (bytes_eqb _ _)); [done|]. cbn [mbind Result_bind].
  destruct (negb (_ =? PROTOCOL_VERSION)); [done|]. cbn [mbind Result_bind]. unfold index. change (0 <=? 6) with true. cbv iota.
  destruct (b !! Z.to_nat 6) as [t|] eqn:Et.
  - cbn [mbind Result_bind]. by destruct (negb (t =? _) && _).
  - apply lookup_ge_None in Et. unfold len, HEADER_SIZE in Hl. lia.
Qed.
Lemma split_frame_returns f : returns (split_frame f).
Proof.
  unfold split_frame, fail_if. destruct (Z.ltb_spec (len f) HEADER_SIZE) as [|Hl]; [done|]. cbn [mbind Result_bind].
  pose proof (decode_header_returns f.[0; HEADER_SIZE)) as Hd.
  destruct (decode_header _) as [h| |]; [|done|by apply Hd; rewrite len_slice; unfold HEADER_SIZE in *; lia].
  cbn [mbind Result_bind]. by destruct (negb _).
Qed.
Lemma validate_limits_returns : returns (validate_limits l).
Proof. unfold validate_limits, fail_if, mbind, Result_bind. by repeat case_match; simplify_eq. Qed.
Lemma validate_payload_length_returns h payload m : returns (validate_payload_length h payload m).
Proof.
  unfold validate_payload_length. destruct (checked_add _ _); [|done]. cbn [ok_or mbind Result_bind]. unfold fail_if.
  destruct (_ <? _); [done|]. cbn [mbind Result_bind]. by destruct (negb _).
Qed.
End messages.
End ProtocolLaws.
