(* ===== verification/ProtocolTheorems.v ===== *)
(** * What the wire protocol promises

    Requests and responses survive the wire, only canonical frames are accepted, no
    input makes a decoder panic, and a request that was decoded is within the limits
    that the storage engine works with. *)

From S2P Require Import Prelude Wp Key Core Format Service Protocol ProtocolLaws Overlay TreeOps.

Module ProtocolTheorems.
Import Core Protocol ProtocolLaws.

(** A codec on a whole payload. *)
Lemma written_ok m w : written m = Ok w ↔ m [] = (Ok tt, w).
Proof. unfold written. destruct (m []) as [[[]|e|k] w']; split; congruence. Qed.

Lemma reads_whole {A} (m : PR A) a bs : reads m a bs → len bs ≤ U64_MAX → reading bs (x ← m; finished x) = Ok a.
Proof.
  intros Hm Hl. specialize (Hm [] []). cbn [app] in Hm. rewrite app_nil_r in Hm. specialize (Hm Hl).
  unfold reading, mbind, St_bind. change (len (@nil Z)) with 0 in Hm. rewrite Hm.
  unfold finished, read_finish, mbind, St_bind, get_st, mret, St_ret. cbn [offset input]. by rewrite Z.add_0_l, Z.eqb_refl.
Qed.

(** What reading a whole payload accepts. *)
Lemma reading_spec {A} (wf : A → Prop) enc dec bs :
  codec wf enc dec → is_bytes bs → len bs ≤ U64_MAX →
  match reading bs (x ← dec; finished x) with
  | Ok a => wf a ∧ written (enc a) = Ok bs
  | Err _ => True
  | Stuck _ => False
  end.
Proof.
  intros Hc Hb Hl.
  assert (Hr : reader_ok (mkReader bs 0)) by (split; [done|split; [done|apply len_nonneg]|done]).
  pose proof (codec_writes Hc _ Hr) as Hw. unfold wp in Hw. unfold reading, mbind, St_bind.
  destruct (dec (mkReader bs 0)) as [[a|e|k] r']; [..|done]; [|done].
  destruct Hw as (Hwf & b & [M1 M2 M3 M4] & Hwr). cbn [input offset] in *.
  unfold finished, read_finish, mbind, St_bind, get_st, mret, St_ret. rewrite M1.
  destruct (Z.eqb_spec (offset r') (len bs)) as [E|]; [|done]. cbn [fst]. split; [done|].
  apply written_ok. rewrite Hwr. rewrite E, slice_full in M3 by lia. by rewrite M3.
Qed.

(** The tenant and the request of a payload. *)
Definition encode_tenant_request l (p : TenantId * Service.Request) : PW :=
  write_u64 p.1;; encode_request_payload l p.2.
Definition decode_tenant_request l : PR (TenantId * Service.Request) :=
  tenant ← read_u64; request ← decode_request_payload l; mret (tenant, request).

Lemma tenant_request_codec l :
  codec (λ p, u64 p.1 ∧ wf_request p.2) (encode_tenant_request l) (decode_tenant_request l).
Proof.
  split.
  - intros [t q] w w' [Ht Hq] Hr. unfold encode_tenant_request in Hr. enc_inv. cbn in *.
    apply (codec_reads u64_codec) in H as (b1 & -> & Hb1 & H1); [|done].
    apply (codec_reads (request_codec l)) in Hr as (b2 & -> & Hb2 & H2); [|done]. unfold decode_tenant_request. wrote.
  - intros r Hr. unfold decode_tenant_request. wp_steps. rd_part (codec_writes u64_codec). wp_steps.
    rd_part (codec_writes (request_codec l)). wp_steps. split; [done|]. eexists. split; [moves|].
    unfold encode_tenant_request. wr.
Qed.

Lemma reading_tenant_request l payload :
  reading payload (tenant ← read_u64; request ← decode_request_payload l; finished (tenant, request)) =
  reading payload (x ← decode_tenant_request l; finished x).
Proof.
  unfold decode_tenant_request, reading, mbind, St_bind. destruct (read_u64 _) as [[t|e|k] r]; [|done..].
  by destruct (decode_request_payload l r) as [[q|e|k] r'].
Qed.

(** A frame is made of bytes. *)
Lemma encoded_frame_bytes t payload maximum f :
  u8 t → is_bytes payload → encode_frame t payload maximum = Ok f → is_bytes f ∧ len f ≤ U64_MAX.
Proof.
  intros Ht Hp Hf. unfold encode_frame in Hf. destruct (checked_add _ _) as [n|] eqn:E; [|done].
  apply checked_add_Some in E as [-> E]. cbn [ok_or mbind Result_bind] in Hf. unfold fail_if in Hf. destruct (_ <? _); [done|].
  cbn [mbind Result_bind] in Hf. destruct (try_u32 _) as [k| |] eqn:Ek; [|done..]. cbn [mbind Result_bind] in Hf.
  assert (f = MAGIC ++ to_be 2 PROTOCOL_VERSION ++ [t] ++ to_be 4 k ++ payload) as -> by congruence. split.
  - unfold is_bytes. rewrite !Forall_app. split_and!; [by repeat (apply Forall_cons_2 || apply Forall_nil_2)|apply to_be_bytes|by repeat (apply Forall_cons_2 || apply Forall_nil_2)|apply to_be_bytes|done].
  - rewrite !len_app, !len_to_be. unfold HEADER_SIZE in E. change (len MAGIC) with 4. change (len [t]) with 1. lia.
Qed.

(** An encoded request is decoded to itself. *)
Lemma request_survives l tenant r f :
  u64 tenant → wf_request r → encode_request l tenant r = Ok f →
  is_bytes f ∧ len f ≤ U64_MAX ∧ decode_request_frame l f = Ok (tenant, r).
Proof.
  intros Ht Hr He. unfold encode_request in He. unfold decode_request_frame.
  destruct (validate_limits l) as [[]| |] eqn:El; [|done..]. cbn [mbind Result_bind] in He.
  destruct (written _) as [payload| |] eqn:Ew; [|done..]. cbn [mbind Result_bind] in He. apply written_ok in Ew.
  apply (codec_reads (tenant_request_codec l) (tenant, r)) in Ew as (bs & -> & Hb & Hd); [|done]. cbn [app] in He.
  assert (Hl : len bs ≤ U64_MAX).
  { unfold encode_frame in He. destruct (checked_add _ _) eqn:Ec; [|done]. apply checked_add_Some in Ec. unfold HEADER_SIZE in Ec. lia. }
  split_and!; [by eapply (encoded_frame_bytes REQUEST_MESSAGE_TYPE bs)..|].
  destruct (split_encoded_frame _ _ _ _ (or_introl eq_refl) He) as [-> Hv]. cbn [mbind Result_bind].
  unfold decode_request_parts. rewrite El. cbn [mbind Result_bind]. rewrite Hv. cbn [mbind Result_bind message_type].
  change (fail_if _ _) with (Ok (E:=ProtocolError) tt). cbn [mbind Result_bind].
  rewrite reading_tenant_request. by apply reads_whole.
Qed.

(** C30: every request survives the wire: what [encode_request] produces, the decoder
    turns back into the tenant and the request. *)
Theorem request_roundtrip l tenant r f :
  u64 tenant → wf_request r → encode_request l tenant r = Ok f → decode_request_frame l f = Ok (tenant, r).
Proof. intros Ht Hr He. by apply (request_survives l tenant r f). Qed.

(** What a client receives of an envelope: the detail of an error is cut. *)
Definition sent (l : ProtocolLimits) (e : ResponseEnvelope) : ResponseEnvelope :=
  match e with
  | SuccessEnvelope r => SuccessEnvelope r
  | ErrorEnvelope e => ErrorEnvelope (mkApplicationError (kind e) (take_chars (max_error_detail_size l) (detail e))
      (mutation_outcome e) (conflict e))
  end.
Definition wf_envelope_sent (e : ResponseEnvelope) : Prop :=
  match e with SuccessEnvelope r => wf_response r | ErrorEnvelope e => wf_error e end.
(** The response type that belongs to an envelope is accepted. *)
Definition expected_type (t : option Z) (e : ResponseEnvelope) : Prop :=
  ∀ r x, e = SuccessEnvelope r → t = Some x → response_opcode r = x.

Lemma encode_sent l e : wf_envelope_sent e → encode_envelope l (sent l e) = encode_envelope l e.
Proof.
  intros Hw. destruct e as [r|[k d o c]]; [done|]. destruct Hw as (_ & [cs Hc] & _). cbn in Hc.
  unfold sent, encode_envelope, encode_application_error. cbn [kind detail mutation_outcome conflict].
  by rewrite (take_chars_twice _ _ _ Hc).
Qed.
Lemma sent_wf l t e : wf_envelope_sent e → expected_type t e → wf_envelope l t (sent l e).
Proof.
  intros Hw Ht. destruct e as [r|[k d o c]]; cbn [sent wf_envelope wf_envelope_sent] in *.
  - split; [done|]. intros x Hx. by eapply Ht.
  - destruct Hw as (Hb & [cs Hc] & Ho). cbn [detail conflict] in *. split; [split_and!|].
    + by apply take_chars_bytes.
    + cbn [detail]. rewrite (take_chars_chars _ _ _ Hc). by eexists.
    + done.
    + cbn [detail]. by eapply take_chars_twice.
Qed.

(** An encoded response is decoded to itself. *)
Lemma response_survives l t e f :
  wf_envelope_sent e → expected_type t e → encode_response l e = Ok f →
  is_bytes f ∧ len f ≤ U64_MAX ∧ decode_response_frame l f t = Ok (sent l e).
Proof.
  intros Hw Ht He. unfold encode_response in He. unfold decode_response_frame.
  destruct (validate_limits l) as [[]| |] eqn:El; [|done..]. cbn [mbind Result_bind] in He.
  destruct (written _) as [payload| |] eqn:Ew; [|done..]. cbn [mbind Result_bind] in He. apply written_ok in Ew.
  rewrite <-encode_sent in Ew by done.
  apply (codec_reads (envelope_codec l t)) in Ew as (bs & -> & Hb & Hd); [|by apply sent_wf]. cbn [app] in He.
  assert (Hl : len bs ≤ U64_MAX).
  { unfold encode_frame in He. destruct (checked_add _ _) eqn:Ec; [|done]. apply checked_add_Some in Ec. unfold HEADER_SIZE in Ec. lia. }
  split_and!; [by eapply (encoded_frame_bytes RESPONSE_MESSAGE_TYPE bs)..|].
  destruct (split_encoded_frame _ _ _ _ (or_intror eq_refl) He) as [-> Hv]. cbn [mbind Result_bind].
  unfold decode_response_parts. rewrite El. cbn [mbind Result_bind]. rewrite Hv. cbn [mbind Result_bind message_type].
  change (fail_if _ _) with (Ok (E:=ProtocolError) tt). cbn [mbind Result_bind]. by apply reads_whole.
Qed.

(** C31: every response and every structured error survives the wire, up to the cut of
    an error's detail, for a client that expects its type or any type. *)
Theorem response_roundtrip l t e f :
  wf_envelope_sent e → expected_type t e → encode_response l e = Ok f →
  decode_response_frame l f t = Ok (sent l e).
Proof. intros Hw Ht He. by apply (response_survives l t e f). Qed.

(** A request that is decoded from a frame. *)
Lemma decode_request_inv l f :
  is_bytes f → len f ≤ U64_MAX →
  match decode_request_frame l f with
  | Ok (t, r) => u64 t ∧ wf_request r ∧ encode_request l t r = Ok f
  | Err _ => True
  | Stuck _ => False
  end.
Proof.
  intros Hb Hl. unfold decode_request_frame. pose proof (split_frame_returns f) as Hs.
  destruct (split_frame f) as [[h payload]| |] eqn:Ef; [|done..]. cbn [mbind Result_bind].
  destruct (split_frame_inv _ _ _ Hb Hl Ef) as (_ & _ & _ & Hu & Hp & Hfe).
  unfold decode_request_parts, encode_request.
  pose proof (validate_limits_returns l). destruct (validate_limits l) as [[]| |]; [|done..]. cbn [mbind Result_bind].
  pose proof (validate_payload_length_returns h payload (max_request_frame_size l)).
  destruct (validate_payload_length h payload _) as [[]| |] eqn:Ev; [|done..]. cbn [mbind Result_bind].
  unfold fail_if. destruct (Z.eqb_spec (message_type h) REQUEST_MESSAGE_TYPE) as [Em|]; [|done]. cbn [negb mbind Result_bind].
  rewrite reading_tenant_request.
  pose proof (reading_spec _ _ _ payload (tenant_request_codec l) Hp ltac:(ulia)) as Hr.
  destruct (reading payload _) as [[t r]| |]; [|done..]. destruct Hr as [[H1 H2] H3].
  split_and!; [done|done|]. change (written (write_u64 t;; encode_request_payload l r)) with (written (encode_tenant_request l (t, r))).
  rewrite H3. cbn [mbind Result_bind]. rewrite <-Em. by apply encode_split_frame.
Qed.
Lemma decode_response_inv l f t :
  is_bytes f → len f ≤ U64_MAX →
  match decode_response_frame l f t with
  | Ok e => wf_envelope l t e ∧ encode_response l e = Ok f
  | Err _ => True
  | Stuck _ => False
  end.
Proof.
  intros Hb Hl. unfold decode_response_frame. pose proof (split_frame_returns f) as Hs.
  destruct (split_frame f) as [[h payload]| |] eqn:Ef; [|done..]. cbn [mbind Result_bind].
  destruct (split_frame_inv _ _ _ Hb Hl Ef) as (_ & _ & _ & Hu & Hp & Hfe).
  unfold decode_response_parts, encode_response.
  pose proof (validate_limits_returns l). destruct (validate_limits l) as [[]| |]; [|done..]. cbn [mbind Result_bind].
  pose proof (validate_payload_length_returns h payload (max_response_frame_size l)).
  destruct (validate_payload_length h payload _) as [[]| |] eqn:Ev; [|done..]. cbn [mbind Result_bind].
  unfold fail_if. destruct (Z.eqb_spec (message_type h) RESPONSE_MESSAGE_TYPE) as [Em|]; [|done]. cbn [negb mbind Result_bind].
  pose proof (reading_spec _ _ _ payload (envelope_codec l t) Hp ltac:(ulia)) as Hr.
  destruct (reading payload _) as [e| |]; [|done..]. destruct Hr as [H2 H3]. split; [done|].
  rewrite H3. cbn [mbind Result_bind]. rewrite <-Em. by apply encode_split_frame.
Qed.

(** C32: the decoders accept canonical frames only: a frame that decodes is the frame
    that the encoder produces for the decoded message. *)
Theorem protocol_decode_canonical l f t :
  is_bytes f → len f ≤ U64_MAX →
  (∀ tenant r, decode_request_frame l f = Ok (tenant, r) → encode_request l tenant r = Ok f) ∧
  (∀ e, decode_response_frame l f t = Ok e → encode_response l e = Ok f).
Proof.
  intros Hb Hl. split.
  - intros tenant r Hd. pose proof (decode_request_inv l f Hb Hl) as Hi. rewrite Hd in Hi. apply Hi.
  - intros e Hd. pose proof (decode_response_inv l f t Hb Hl) as Hi. rewrite Hd in Hi. apply Hi.
Qed.

(** C39: no bytes from the network make a decoder panic. *)
Theorem protocol_decode_total l f t :
  is_bytes f → len f ≤ U64_MAX →
  returns (decode_request_frame l f) ∧ returns (decode_response_frame l f t).
Proof.
  intros Hb Hl. split.
  - pose proof (decode_request_inv l f Hb Hl) as Hi. by destruct (decode_request_frame l f).
  - pose proof (decode_response_inv l f t Hb Hl) as Hi. by destruct (decode_response_frame l f t).
Qed.

(** The keys and values a request brings to the storage engine. *)
Definition request_keys (r : Service.Request) : list DocumentKey :=
  match r with
  | Service.Get k | Service.Put k _ | Service.Delete k => [k]
  | Service.Query pk after _ => [Key.new pk (default [] after)]
  | Service.Scan after _ => option_list after
  | Service.Transact q => (condition_key <$> conditions q) ++ (mutation_key <$> mutations q)
  end.
Definition mutation_values (m : TransactionMutation) : list bytes :=
  match m with Put _ v => [v] | Delete _ => [] end.
Definition request_values (r : Service.Request) : list bytes :=
  match r with
  | Service.Put _ v => [v]
  | Service.Transact q => mutations q ≫= mutation_values
  | _ => []
  end.
(** The sizes of a transaction and the page size of a range read. *)
Definition request_counts (l : ProtocolLimits) (r : Service.Request) : Prop :=
  match r with
  | Service.Transact q => len (conditions q) ≤ max_conditions l ∧ len (mutations q) ≤ max_mutations l
  | Service.Query _ _ limit => limit ≤ max_query_limit l
  | Service.Scan _ limit => limit ≤ max_scan_limit l
  | _ => True
  end.

Definition storable_value (v : bytes) : Prop := len v ≤ Format.MAX_VALUE_SIZE.

Section limits.
Context (l : ProtocolLimits) (Hl : validate_limits l = Ok tt).

Lemma storage_limits : max_encoded_key_size l ≤ Overlay.MAX_ENCODED_KEY_SIZE ∧ max_value_size l ≤ Format.MAX_VALUE_SIZE.
Proof.
  unfold validate_limits, fail_if, mbind, Result_bind in Hl. repeat case_match; simplify_eq.
  rewrite !orb_false_iff, !Z.ltb_ge in *. destruct_and?. split; [done|]. by etrans.
Qed.

Lemma parts_valid pk sk : Key.wf (Key.new pk sk) → validate_key_parts l pk sk = Ok tt → TreeOps.valid_key (Key.new pk sk).
Proof.
  intros Hw Hv. unfold validate_key_parts, fail_if in Hv. destruct (_ <? _) eqn:E; [done|]. apply Z.ltb_ge in E.
  split; [done|]. rewrite <-Key.encoded_len_correct. pose proof storage_limits. lia.
Qed.
Lemma key_valid k w w' : Key.wf k → encode_key l k w = (Ok tt, w') → TreeOps.valid_key k.
Proof. intros Hw Hr. unfold encode_key in Hr. enc_inv. destruct k. by apply parts_valid. Qed.
Lemma value_storable v w w' : encode_bytes v (max_value_size l) w = (Ok tt, w') → storable_value v.
Proof. intros Hr. unfold encode_bytes in Hr. enc_inv. apply Z.ltb_ge in H. unfold storable_value. pose proof storage_limits. lia. Qed.
Lemma counted n m w w' : encode_count n m w = (Ok tt, w') → n ≤ m.
Proof. intros Hr. unfold encode_count in Hr. enc_inv. by apply Z.ltb_ge. Qed.

Lemma for_each_inv {A} (enc : A → PW) xs w w' :
  for_each enc xs w = (Ok tt, w') → Forall (λ x, ∃ w w', enc x w = (Ok tt, w')) xs.
Proof.
  revert w. induction xs as [|x xs IH]; intros w Hr; [constructor|]. cbn [for_each] in Hr. enc_inv.
  constructor; [eauto|by eapply IH].
Qed.

Lemma request_storable r w w' :
  wf_request r → encode_request_payload l r w = (Ok tt, w') →
  Forall TreeOps.valid_key (request_keys r) ∧ Forall storable_value (request_values r) ∧ request_counts l r.
Proof.
  intros Hw Hr. unfold encode_request_payload in Hr.
  destruct r as [k|k v|k|pk after limit|after limit|q]; cbn [wf_request request_keys request_values request_counts] in *; enc_inv.
  - split_and!; [by repeat constructor; eapply key_valid|constructor|done].
  - destruct Hw as [Hk Hv]. split_and!; [by repeat constructor; eapply key_valid|by repeat constructor; eapply value_storable|done].
  - split_and!; [by repeat constructor; eapply key_valid|constructor|done].
  - destruct Hw as (Hp & Ha & _). split_and!; [|constructor|by eapply counted].
    apply Forall_singleton, parts_valid; [|done]. split; [done|]. destruct after; [by apply Ha|constructor].
  - destruct Hw as [Ha _]. split_and!; [|constructor|by eapply counted].
    destruct after as [k|]; [|constructor]. rename select (encode_optional_key _ _ _ = _) into He. unfold encode_optional_key in He. enc_inv.
    apply Forall_singleton. eapply key_valid; [by apply Ha|done].
  - destruct q as [cs ms]. destruct Hw as [Hc Hm]. cbn [conditions mutations] in *.
    rename select (encode_conditions _ _ _ = _) into He. unfold encode_conditions in He. unfold encode_mutations in Hr. enc_inv.
    split_and!; [apply Forall_app; split| |by eapply counted|by eapply counted].
    + apply for_each_inv in He. apply Forall_fmap. eapply Forall_impl; [apply Forall_and; split; [exact Hc|exact He]|].
      intros c [[Hk _] (w1 & w2 & Hx)]. destruct c; cbn [encode_condition condition_key] in *; enc_inv; by eapply key_valid.
    + apply for_each_inv in Hr. apply Forall_fmap. eapply Forall_impl; [apply Forall_and; split; [exact Hm|exact Hr]|].
      intros m [[Hk _] (w1 & w2 & Hx)]. destruct m; cbn [encode_mutation mutation_key] in *; enc_inv; by eapply key_valid.
    + apply for_each_inv in Hr. apply Forall_bind. eapply Forall_impl; [exact Hr|].
      intros m (w1 & w2 & Hx). destruct m; cbn [encode_mutation mutation_values] in *; [|constructor].
      enc_inv. repeat constructor. by eapply value_storable.
Qed.
End limits.

(** C38: a request that comes off the wire is within the limits of the storage engine:
    every key it names is a valid key of the tree, every value fits, and the counts
    are bounded by the configured limits. *)
Theorem decoded_request_storable l f tenant r :
  is_bytes f → len f ≤ U64_MAX → decode_request_frame l f = Ok (tenant, r) →
  Forall TreeOps.valid_key (request_keys r) ∧ Forall storable_value (request_values r) ∧ request_counts l r.
Proof.
  intros Hb Hu Hd. pose proof (decode_request_inv l f Hb Hu) as Hi. rewrite Hd in Hi. destruct Hi as (_ & Hw & He).
  unfold encode_request in He. destruct (validate_limits l) as [[]| |] eqn:El; [|done..]. cbn [mbind Result_bind] in He.
  destruct (written _) as [payload| |] eqn:Ew; [|done..]. apply written_ok, bind_inv in Ew as (u & w & _ & Ew).
  by eapply request_storable.
Qed.

(** ** Concrete instances *)

Definition sample_query : Service.Request := Service.Query [0; 1] (Some [255]) 10.
Definition sample_frame : bytes :=
  match encode_request default_limits 99 sample_query with Ok f => f | _ => [] end.
Definition sample_error : ResponseEnvelope :=
  ErrorEnvelope (from_core (Conflict (mkConflict (Key.new [1] [2]) ExpectExists (ObservedMissing 10)))).

Lemma sample_frame_ok : is_bytes sample_frame ∧ len sample_frame ≤ U64_MAX.
Proof. split; [unfold is_bytes; vm_compute; repeat constructor; congruence|by vm_compute]. Qed.

Lemma request_roundtrip_witness :
  decode_request_frame default_limits sample_frame = Ok (99, sample_query).
Proof.
  apply (request_roundtrip default_limits 99 sample_query sample_frame).
  - vm_compute. split; congruence.
  - split; [repeat constructor; vm_compute; congruence|]. split; [|vm_compute; congruence].
    intros a [= <-]. repeat constructor; vm_compute; congruence.
  - vm_compute. reflexivity.
Defined.

Lemma response_roundtrip_witness :
  ∃ f, encode_response default_limits sample_error = Ok f ∧ decode_response_frame default_limits f None = Ok sample_error.
Proof.
  destruct (encode_response default_limits sample_error) as [f|e|k] eqn:E; [|vm_compute in E; discriminate E..].
  exists f. split; [reflexivity|]. apply (response_roundtrip default_limits None sample_error f).
  - split; [unfold is_bytes; vm_compute; repeat constructor; congruence|]. split; [eexists; vm_compute; reflexivity|].
    intros a [= <-]. split; [split; repeat constructor; vm_compute; congruence|].
    split; [exact I|]. vm_compute. split; congruence.
  - intros r x Hr. discriminate Hr.
  - exact E.
Defined.

Lemma protocol_decode_canonical_witness :
  encode_request default_limits 99 sample_query = Ok sample_frame.
Proof.
  apply (protocol_decode_canonical default_limits sample_frame None); [apply sample_frame_ok|apply sample_frame_ok|].
  vm_compute. reflexivity.
Defined.

Lemma protocol_decode_total_witness :
  returns (decode_request_frame default_limits [68; 79; 68; 66]) ∧ returns (decode_response_frame default_limits [68; 79; 68; 66] None).
Proof.
  apply (protocol_decode_total default_limits [68; 79; 68; 66] None).
  - repeat constructor; vm_compute; congruence.
  - vm_compute. congruence.
Defined.

Lemma decoded_request_storable_witness :
  Forall TreeOps.valid_key (request_keys sample_query) ∧ Forall storable_value (request_values sample_query) ∧
  request_counts default_limits sample_query.
Proof.
  apply (decoded_request_storable default_limits sample_frame 99 sample_query); [apply sample_frame_ok|apply sample_frame_ok|].
  vm_compute. reflexivity.
Defined.

(** The detail of an error is cut after a number of characters, and then refused if it
    is longer than that number of bytes. *)
Lemma long_error_detail_refused :
  encode_response default_limits
    (ErrorEnvelope (mkApplicationError KindInternal (concat (repeat [195; 169] 2100)) Unknown None)) =
  Err (PayloadTooLarge 4200 4096).
Proof. vm_compute. reflexivity. Qed.
End ProtocolTheorems.
