(* ===== verification/Lockstep.v ===== *)
(** * Preparing depends only on the pages of the tree

    A store in memory that holds some of the pages of another store answers like it:
    whatever the overlay computes on the smaller store without missing a page, it
    computes on the larger one as well, with the same batches and the same answers.
    The read view of the coordinator relies on it: it follows the pages of the tree
    and no other page. *)

From S2P Require Import Prelude Wp Key Core Page Superblock Format FormatLaws Overlay Tree OverlayReads TreeOps TreeTxn MemStore.

Module Lockstep.
Import Core Overlay Tree TreeTxn MemStore.

Section lockstep.
Context {B : Type} {CB : CommittedStore B} {SP : CommittedStoreSpec B} {CR : Crc32c}.

(** [b] has every page of [m]. *)
Record extends (m : MemStore) (b : B) : Prop := {
  ext_header : header b = header m;
  ext_serving : serving b;
  ext_pages : ∀ id p, mem_pages m !! id = Some p → committed b id = Some p;
}.

(** Two overlays that have staged the same changes. *)
Record twins (o1 : Overlay MemStore) (o2 : Overlay B) : Prop := {
  tw_store : extends (store o1) (store o2);
  tw_pages : pages o2 = pages o1;
  tw_dirty : dirty o2 = dirty o1;
  tw_allocated : allocated o2 = allocated o1;
  tw_root : root_page_id o2 = root_page_id o1;
  tw_free : free_list_head o2 = free_list_head o1;
  tw_high : high_water_page_id o2 = high_water_page_id o1;
  tw_revision : next_revision o2 = next_revision o1;
  tw_last : last_lsn o2 = last_lsn o1;
  tw_lsn : next_lsn o2 = next_lsn o1;
  tw_batch : next_batch_id o2 = next_batch_id o1;
  tw_superblock : current_superblock o2 = current_superblock o1;
  tw_slot : active_slot o2 = active_slot o1;
}.

Definition corrupted (e : Error) : Prop := ∃ message, e = Corruption message.

(** What the second run has to do, given the first one; [R] relates the values. *)
Definition matches {A A'} (R : A → A' → Prop) (x : Result Error A * Overlay MemStore)
    (y : Result Error A' * Overlay B) : Prop :=
  match x with
  | (Ok a, o1) => ∃ a' o2, y = (Ok a', o2) ∧ R a a' ∧ twins o1 o2
  | (Err e, o1) => corrupted e ∨ ∃ o2, y = (Err e, o2) ∧ twins o1 o2
  | (Stuck _, _) => True
  end.
Definition lockstep {A A'} (R : A → A' → Prop) (m1 : St (Overlay MemStore) Error A)
    (m2 : St (Overlay B) Error A') : Prop :=
  ∀ o1 o2, twins o1 o2 → matches R (m1 o1) (m2 o2).

Lemma lock_ret {A A'} (R : A → A' → Prop) a a' : R a a' → lockstep R (mret a) (mret a').
Proof. intros HR o1 o2 T. by exists a', o2. Qed.
Lemma lock_lift {A} (r : Result Error A) : lockstep eq (lift_r r) (lift_r r).
Proof. intros o1 o2 T. destruct r; simpl; [by eexists _, _|right; by eexists|done]. Qed.
Lemma lock_throw {A A'} (R : A → A' → Prop) e : lockstep R (throw e) (throw e).
Proof. intros o1 o2 T. right. by eexists. Qed.
Lemma lock_fail_when c e : lockstep eq (fail_when c e) (fail_when c e).
Proof. apply lock_lift. Qed.
Lemma lock_get : lockstep twins get_st get_st.
Proof. intros o1 o2 T. by eexists _, _. Qed.
Lemma lock_modify f1 f2 : (∀ o1 o2, twins o1 o2 → twins (f1 o1) (f2 o2)) → lockstep eq (modify_st f1) (modify_st f2).
Proof. intros Hf o1 o2 T. exists tt, (f2 o2). auto. Qed.
Lemma lock_bind {A A' D D'} (R : A → A' → Prop) (R' : D → D' → Prop) m1 m2 f1 f2 :
  lockstep R m1 m2 → (∀ a a', R a a' → lockstep R' (f1 a) (f2 a')) → lockstep R' (m1 ≫= f1) (m2 ≫= f2).
Proof.
  intros Hm Hf o1 o2 T. specialize (Hm o1 o2 T). unfold mbind, St_bind, matches in *.
  destruct (m1 o1) as [[a|e|k] o1']; [|by destruct Hm as [?|(o2' & -> & ?)]; [left|right; eexists]|done].
  destruct Hm as (a' & o2' & -> & HR & T'). by apply Hf.
Qed.
Lemma lock_bind_eq {A D D'} (R' : D → D' → Prop) m1 m2 (f1 : A → _) f2 :
  lockstep eq m1 m2 → (∀ a, lockstep R' (f1 a) (f2 a)) → lockstep R' (m1 ≫= f1) (m2 ≫= f2).
Proof. intros Hm Hf. eapply lock_bind; [exact Hm|]. by intros a ? <-. Qed.
Lemma lock_bind_get {D D'} (R' : D → D' → Prop) f1 f2 :
  (∀ o1 o2, twins o1 o2 → lockstep R' (f1 o1) (f2 o2)) → lockstep R' (get_st ≫= f1) (get_st ≫= f2).
Proof. intros Hf. eapply lock_bind; [apply lock_get|done]. Qed.
Lemma lock_fmap {A D} (f : A → D) m1 m2 : lockstep eq m1 m2 → lockstep eq (f <$> m1) (f <$> m2).
Proof.
  intros Hm o1 o2 T. specialize (Hm o1 o2 T). unfold fmap, St_fmap, matches in *.
  destruct (m1 o1) as [[a|e|k] o1']; simpl; [|by destruct Hm as [?|(o2' & -> & ?)]; [left|right; eexists]|done].
  destruct Hm as (a' & o2' & -> & <- & T'). by eexists _, _.
Qed.
Lemma lock_for_each {A} (f1 : A → _) f2 l :
  (∀ x, lockstep eq (f1 x) (f2 x)) → lockstep eq (for_each f1 l) (for_each f2 l).
Proof. intros Hf. induction l; simpl; [by apply lock_ret|]. by apply lock_bind_eq. Qed.

End lockstep.

Create HintDb lockstep.
#[export] Hint Resolve lock_lift lock_throw lock_fail_when : lockstep.

(** Replaces what the second overlay says of itself by what the first one says. *)
Ltac lock_fields T :=
  rewrite ?(tw_pages _ _ T), ?(tw_dirty _ _ T), ?(tw_allocated _ _ T), ?(tw_root _ _ T), ?(tw_free _ _ T),
    ?(tw_high _ _ T), ?(tw_revision _ _ T), ?(tw_last _ _ T), ?(tw_lsn _ _ T), ?(tw_batch _ _ T),
    ?(tw_superblock _ _ T), ?(tw_slot _ _ T), ?(ext_header _ _ (tw_store _ _ T)).

Ltac lock_step :=
  lazymatch goal with
  | |- lockstep _ (get_st ≫= _) _ =>
      apply lock_bind_get; let o1 := fresh "o" in let o2 := fresh "o" in let T := fresh "T" in
      intros o1 o2 T; unfold traversal_fuel; lock_fields T; clear T
  | |- lockstep _ (mbind _ _) _ => apply lock_bind_eq; [|intros ?]
  | |- lockstep _ (fmap _ _) _ => apply lock_fmap
  | |- lockstep _ (for_each _ _) _ => apply lock_for_each; intros ?
  | |- lockstep _ (modify_st _) _ =>
      apply lock_modify; let T := fresh "T" in intros ? ? T; pose proof T as [];
      split; simpl; try done; by lock_fields T
  | |- lockstep _ (mret _) _ => apply lock_ret; by eauto
  | |- lockstep _ (let '_ := ?x in _) _ => destruct x
  | |- lockstep _ (match ?x with _ => _ end) _ => destruct x
  | |- lockstep _ (if ?x then _ else _) _ => destruct x
  | |- _ => solve [eauto with lockstep]
  end.
Ltac lock := repeat lock_step.

Section operations.
Context {B : Type} {CB : CommittedStore B} {SP : CommittedStoreSpec B} {CR : Crc32c}.
Abbreviation locked m1 m2 := (lockstep (B:=B) eq m1 m2).

Lemma lock_page id : locked (page id) (page id).
Proof.
  intros o1 o2 T. unfold page, check_page_id. unfold mbind, St_bind, get_st, fail_when, lift_r, fail_if.
  rewrite (tw_high _ _ T). destruct (Z.ltb_spec id FIRST_DATA_PAGE) as [|Hid]; [left; by eexists|]. cbn [orb].
  destruct (high_water_page_id o1 <? id); [left; by eexists|]. rewrite (tw_pages _ _ T).
  destruct (pages o1 !! id) as [p|] eqn:Ep; [by eexists _, _|].
  cbn [cache_get mem_store]. unfold modify_st, mret, St_ret. cbn [store set_store].
  unfold zoom. cbn [read_page_from_file mem_store store set_store]. unfold mbind, St_bind, get_st, lift_r, ok_or.
  pose proof (tw_store _ _ T) as [E1 E2 E3].
  destruct (mem_pages (store o1) !! id) as [p|] eqn:Em; [|left; by eexists].
  pose proof (cache_get_spec id (store o2) E2) as Hc. destruct (cache_get id (store o2)) as [hit b1].
  cbn [fst snd] in Hc. destruct Hc as (C1 & C2 & C3 & C4). cbn [store set_store].
  assert (Hfin : ∀ b', serving b' → header b' = header (store o2) → (∀ i, committed b' i = committed (store o2) i) →
    extends (store o1) b').
  { intros b' Hs Hh Hcm. split; [congruence|done|]. intros i q Hq. rewrite Hcm. by apply E3. }
  destruct hit as [q|].
  - assert (q = p) as ->.
    { specialize (E3 _ _ Em). specialize (C4 q eq_refl). congruence. }
    eexists _, _. split; [reflexivity|]. split; [done|].
    destruct T. split; simpl; try done; [by apply Hfin|congruence].
  - destruct (read_page_spec id b1 p C1) as (b2 & Hr & R1 & R2 & R3); [rewrite C3; by apply E3|].
    change (store (set_store b1 o2)) with b1. rewrite Hr. eexists _, _. split; [reflexivity|]. split; [done|].
    destruct T. split; simpl; try done; [|congruence]. apply Hfin; [done|congruence|intros i; by rewrite R3].
Qed.
#[local] Hint Resolve lock_page : lockstep.

Lemma lock_replace id p : locked (replace_page id p) (replace_page id p).
Proof. unfold replace_page. lock. Qed.
Lemma lock_leaf id : locked (leaf id) (leaf id).
Proof. unfold leaf. lock. Qed.
Lemma lock_internal id : locked (internal id) (internal id).
Proof. unfold internal. lock. Qed.
#[local] Hint Resolve lock_replace lock_leaf lock_internal : lockstep.
Lemma lock_allocate : locked allocate_page allocate_page.
Proof. unfold allocate_page. lock. Qed.
Lemma lock_free_page id r : locked (free_page id r) (free_page id r).
Proof. unfold free_page. lock. Qed.
Lemma lock_revision : locked allocate_revision allocate_revision.
Proof. unfold allocate_revision. lock. Qed.
#[local] Hint Resolve lock_allocate lock_free_page lock_revision : lockstep.

Lemma lock_find_leaf_loop fuel k id route visited :
  locked (find_leaf_loop fuel k id route visited) (find_leaf_loop fuel k id route visited).
Proof. revert id route visited. induction fuel; intros; cbn [find_leaf_loop]; lock. Qed.
#[local] Hint Resolve lock_find_leaf_loop : lockstep.
Lemma lock_find_leaf k : locked (find_leaf k) (find_leaf k).
Proof. unfold find_leaf. lock. Qed.
#[local] Hint Resolve lock_find_leaf : lockstep.

Lemma lock_allocate_pages n : locked (allocate_pages n) (allocate_pages n).
Proof. induction n; cbn [allocate_pages]; lock. Qed.
Lemma lock_write_chunks lsn t ids cs : locked (write_chunks lsn t ids cs) (write_chunks lsn t ids cs).
Proof. revert ids. induction cs; intros [|]; cbn [write_chunks]; lock. Qed.
#[local] Hint Resolve lock_allocate_pages lock_write_chunks : lockstep.
Lemma lock_make_value v lsn : locked (make_value v lsn) (make_value v lsn).
Proof. unfold make_value. lock. Qed.
Lemma lock_free_value_loop fuel n lsn id visited c t :
  locked (free_value_loop fuel n lsn id visited c t) (free_value_loop fuel n lsn id visited c t).
Proof. revert id visited c t. induction fuel; intros [|]; intros; cbn [free_value_loop]; lock. Qed.
#[local] Hint Resolve lock_make_value lock_free_value_loop : lockstep.
Lemma lock_free_value v lsn : locked (free_value v lsn) (free_value v lsn).
Proof. unfold free_value. lock. Qed.
#[local] Hint Resolve lock_free_value : lockstep.

Lemma lock_insert_parents route sep right lsn :
  locked (insert_parents route sep right lsn) (insert_parents route sep right lsn).
Proof. revert sep right. induction route; intros; cbn [insert_parents]; lock. Qed.
#[local] Hint Resolve lock_insert_parents : lockstep.
Lemma lock_insert_leaf id route lf lsn :
  locked (insert_leaf_entries id route lf lsn) (insert_leaf_entries id route lf lsn).
Proof. unfold insert_leaf_entries, insert_parent_separator. lock. Qed.
Lemma lock_validate_value v : locked (validate_value v) (validate_value v).
Proof. unfold validate_value. lock. Qed.
#[local] Hint Resolve lock_insert_leaf lock_validate_value : lockstep.
Lemma lock_put k v : locked (put k v) (put k v).
Proof. unfold put. lock. Qed.
Lemma lock_delete k : locked (delete k) (delete k).
Proof. unfold delete. lock. Qed.
Lemma lock_observed k : locked (get_observed_state k) (get_observed_state k).
Proof. unfold get_observed_state. lock. Qed.
#[local] Hint Resolve lock_put lock_delete lock_observed : lockstep.

(** ** Batches *)

(** Two batches that differ at most in the pages that were read for them. *)
Definition same_batch (p q : PreparedBatch) : Prop :=
  q = mkPrepared (responses p) (changed_pages p) (changed_decoded p) (prepared_read_pages q) (new_superblock p)
    (new_slot p) (base_generation p) (prepared_next_revision p) (prepared_root p) (prepared_free_list_head p)
    (prepared_high_water p) (prepared_commit_lsn p) (batch_id p).

Lemma lock_finish : lockstep (B:=B) same_batch finish_transaction finish_transaction.
Proof. unfold finish_transaction. lock. Qed.

Lemma lock_mutations ms : locked (for_each apply_mutation ms) (for_each apply_mutation ms).
Proof. lock_step. unfold apply_mutation. lock. Qed.
Lemma lock_conditions cs : locked (for_each check_condition cs) (for_each check_condition cs).
Proof. lock_step. unfold check_condition. lock. Qed.
Lemma lock_validate ms :
  locked (for_each validate_transaction_mutation ms) (for_each validate_transaction_mutation ms).
Proof. lock_step. unfold validate_transaction_mutation. lock. Qed.
#[local] Hint Resolve lock_mutations lock_conditions lock_validate : lockstep.

Lemma lock_transaction q :
  lockstep (B:=B) (option_Forall2 same_batch) (prepare_transaction q) (prepare_transaction q).
Proof.
  unfold prepare_transaction. do 3 (apply lock_bind_eq; [eauto with lockstep|intros ?]).
  destruct (mutations q) as [|m ms]; [apply lock_ret; constructor|].
  apply lock_bind_eq; [eauto with lockstep|intros ?].
  intros o1 o2 T. pose proof (lock_finish o1 o2 T) as Hf. unfold fmap, St_fmap, matches in *.
  destruct (finish_transaction o1) as [[p|e|k] o1']; simpl; [|by destruct Hf as [?|(o2' & -> & ?)]; [left|right; eexists]|done].
  destruct Hf as (p' & o2' & -> & Hp & T'). eexists _, _. split; [done|]. split; [by constructor|done].
Qed.

(** A group prepared on the smaller store without missing a page. *)
Lemma lock_group qs o1 o2 ps rs o1' :
  twins o1 o2 → prepare_group qs o1 = (Ok (ps, rs), o1') →
  ∃ ps' o2', prepare_group qs o2 = (Ok (ps', rs), o2') ∧ Forall2 same_batch ps ps' ∧ twins o1' o2'.
Proof.
  revert o1 o2 ps rs. induction qs as [|q qs IH]; intros o1 o2 ps rs T; cbn [prepare_group].
  { intros [= <- <- <-]. by exists [], o2. }
  pose proof (lock_transaction q o1 o2 T) as Hq. unfold matches in Hq.
  destruct (prepare_transaction q o1) as [[[p|]|e|] o3]; [..|done].
  - destruct Hq as (p' & o4 & -> & Hp & T'). inversion Hp as [? x Hs|]; subst.
    assert (prepared_commit_lsn x = prepared_commit_lsn p) as -> by (rewrite Hs; done).
    destruct (prepared_commit_lsn p); [|done].
    destruct (prepare_group qs o3) as [[[ps1 rs1]| |] o5] eqn:E; [|done..]. intros [= <- <- <-].
    destruct (IH _ _ _ _ T' E) as (ps2 & o6 & -> & HF & T2). exists (x :: ps2), o6. split_and!; [done|by constructor|done].
  - destruct Hq as (p' & o4 & -> & Hp & T'). inversion Hp; subst.
    destruct (prepare_group qs o3) as [[[ps1 rs1]| |] o5] eqn:E; [|done..]. intros [= <- <- <-].
    destruct (IH _ _ _ _ T' E) as (ps2 & o6 & -> & HF & T2). by exists ps2, o6.
  - destruct Hq as [[m ->]|(o4 & -> & T')]; [done|].
    destruct e; try done; (destruct (prepare_group qs o3) as [[[ps1 rs1]| |] o5] eqn:E; [|done..]; intros [= <- <- <-];
      destruct (IH _ _ _ _ T' E) as (ps2 & o6 & -> & HF & T2); by exists ps2, o6).
Qed.

(** A fresh overlay. *)
Lemma twins_new m b : extends m b → twins (overlay_new m) (overlay_new b).
Proof. intros E. pose proof E as [E1 E2 E3]. split; simpl; try done; by rewrite E1. Qed.

(** What the smaller overlay sees, the larger one sees. *)
Lemma twins_view o1 o2 id p : twins o1 o2 → view o1 id = Some p → view o2 id = Some p.
Proof.
  intros T. unfold view. rewrite (tw_pages _ _ T). destruct (pages o1 !! id); [done|].
  apply (ext_pages _ _ (tw_store _ _ T)).
Qed.
End operations.
End Lockstep.
