(* ===== verification/ReadView.v ===== *)
(** * The committed read view

    Models [CommittedReadView] of src/crates/dodb-storage/src/btree/coordinator.rs: the
    decoded pages of the committed tree that reads use while the coordinator works on
    the store.  A view is loaded from the store when a shard starts and then follows
    the pages that each commit publishes.  Its lookups are written a second time in
    the source, on the map of pages instead of an overlay.

    The traversals take the same fuel as those of the overlay; loading takes a unit of
    fuel for every page that it adds to the view. *)

From S2P Require Import Prelude Key Core Page Format Overlay DurableFile StoreFile Store.

Module ReadView.
Import Core Overlay.

Record CommittedReadView : Type := mkView {
  root_page_id : PageId;
  high_water_page_id : PageId;
  pages : gmap PageId PageData;
}.

(** ** Loading *)

(** The pages a page names, in the order in which they are pushed. *)
Definition references (p : PageData) : list PageId :=
  match p with
  | Format.Internal _ leftmost_child entries => leftmost_child :: (Format.right_child <$> entries)
  | Format.Leaf _ next_leaf entries =>
      option_list next_leaf ++
      omap (λ entry, match Format.value entry with
                     | Some (Format.OverflowRef head _) => Some head
                     | _ => None
                     end) entries
  | Format.Overflow _ next _ _ => option_list next
  | Format.Free _ _ => []
  end.

Section load.
Context `{C : Crc32c} `{DF : DurableFile.DurableFile F} `{DW : DurableFile.DurableFile W} `{FI : DurableFile.FaultInjector J}.
Abbreviation SM := (St (Store.BTreeStore F W J) Error).

(** The [while let Some(page_id) = pending.pop()] loop; [pending] has the top of the
    stack first.  Pages that are loaded already are skipped. *)
Fixpoint load (fuel : nat) (high_water : PageId) {struct fuel}
    : list PageId → gmap PageId PageData → SM (gmap PageId PageData) :=
  fix go (pending : list PageId) (loaded : gmap PageId PageData) {struct pending}
      : SM (gmap PageId PageData) :=
    match pending with
    | [] => mret loaded
    | page_id :: pending' =>
        fail_when ((page_id <? FIRST_DATA_PAGE) || (high_water <? page_id))
          (Corruption "committed read view contains an out-of-range page");;
        match loaded !! page_id with
        | Some _ => go pending' loaded
        | None =>
            p ← Store.read_page_from_file page_id;
            match fuel with
            | O => lift_r (Stuck OutOfFuel)
            | S fuel' =>
                load fuel' high_water (reverse (references p) ++ pending') (<[page_id := p]> loaded)
            end
        end
    end.

Definition from_store : SM CommittedReadView :=
  b ← get_st;
  let root := Store.root_page_id b in
  let high_water := Store.high_water_page_id b in
  loaded ← load (S (Z.to_nat high_water)) high_water [root] ∅;
  mret (mkView root high_water loaded).
End load.

Definition apply_updates (updates : gmap PageId PageData) (root high_water : PageId)
    (v : CommittedReadView) : CommittedReadView :=
  mkView root high_water (updates ∪ pages v).

(** ** Lookups *)

Definition page (v : CommittedReadView) (page_id : PageId) : result PageData :=
  fail_if ((page_id <? FIRST_DATA_PAGE) || (high_water_page_id v <? page_id))
    (Corruption "page id {} is outside the committed read view");;
  ok_or (pages v !! page_id) (Corruption "committed read view is missing a referenced page").

Definition traversal_fuel (v : CommittedReadView) : nat := S (S (Z.to_nat (high_water_page_id v))).

Fixpoint find_leaf_loop (fuel : nat) (v : CommittedReadView) (key : bytes) (page_id : PageId)
    (visited : gset PageId) : result PageId :=
  match fuel with
  | O => Stuck OutOfFuel
  | S fuel' =>
      fail_if (bool_decide (page_id ∈ visited)) (Corruption "read view tree traversal contains a cycle");;
      p ← page v page_id;
      match p with
      | Format.Leaf _ _ _ => Ok page_id
      | Format.Internal _ leftmost_child entries =>
          let index := partition_point (λ e, bytes_leb (Format.separator e) key) entries in
          child ← match index with
                  | O => Ok leftmost_child
                  | S index' => Format.right_child <$> Prelude.index entries (Z.of_nat index')
                  end;
          find_leaf_loop fuel' v key child ({[page_id]} ∪ visited)
      | _ => Err (Corruption "read view child is not a tree page")
      end
  end.

Definition find_leaf (v : CommittedReadView) (key : bytes) : result PageId :=
  find_leaf_loop (traversal_fuel v) v key (root_page_id v) ∅.

Fixpoint leftmost_leaf_loop (fuel : nat) (v : CommittedReadView) (page_id : PageId)
    (visited : gset PageId) : result PageId :=
  match fuel with
  | O => Stuck OutOfFuel
  | S fuel' =>
      fail_if (bool_decide (page_id ∈ visited)) (Corruption "read view leftmost traversal contains a cycle");;
      p ← page v page_id;
      match p with
      | Format.Leaf _ _ _ => Ok page_id
      | Format.Internal _ leftmost_child _ => leftmost_leaf_loop fuel' v leftmost_child ({[page_id]} ∪ visited)
      | _ => Err (Corruption "read view child is not a tree page")
      end
  end.

Definition leftmost_leaf (v : CommittedReadView) : result PageId :=
  leftmost_leaf_loop (traversal_fuel v) v (root_page_id v) ∅.

(** A [usize] has 64 bits, so that [usize::try_from] of a [u64] length succeeds. *)
Definition value_length (value : ValueRef) : Z :=
  match value with Format.Inline b => len b | Format.OverflowRef _ length => length end.

Fixpoint read_value_loop (fuel : nat) (v : CommittedReadView) (length : Z) (page_id : option PageId)
    (visited : gset PageId) (count : Z) (output : bytes) : result bytes :=
  match page_id with
  | None => Ok output
  | Some current =>
      match fuel with
      | O => Stuck OutOfFuel
      | S fuel' =>
          fail_if (bool_decide (current ∈ visited) || (Format.MAX_OVERFLOW_PAGES <=? count))
            (Corruption "overflow chain is cyclic or too long");;
          p ← page v current;
          match p with
          | Format.Overflow _ next total_length chunk =>
              fail_if (negb (total_length =? length))
                (Corruption "overflow length metadata disagrees with leaf");;
              read_value_loop fuel' v length next ({[current]} ∪ visited) (count + 1) (output ++ chunk)
          | _ => Err (Corruption "value reference points to a non-overflow page")
          end
      end
  end.

Definition read_value (v : CommittedReadView) (value : ValueRef) : result bytes :=
  match value with
  | Format.Inline b => Ok b
  | Format.OverflowRef head length =>
      output ← read_value_loop chain_fuel v length (Some head) ∅ 0 [];
      fail_if (negb (len output =? length)) (Corruption "overflow content length is invalid");;
      Ok output
  end.

Abbreviation M := (St ResponseBudget Error).

(** [let PageData::Leaf { .. } = self.page(leaf_id)? else { return Err(..) }]. *)
Definition leaf (message : string) (v : CommittedReadView) (leaf_id : PageId) : result LeafPage :=
  p ← page v leaf_id;
  match p with
  | Format.Leaf _ next_leaf entries => Ok (mkLeafPage next_leaf entries)
  | _ => Err (Corruption message)
  end.

Definition get_with_budget (v : CommittedReadView) (key : DocumentKey) : M RevisionState :=
  let encoded := Key.encode key in
  lift_r (validate_encoded_key encoded);;
  leaf_id ← lift_r (find_leaf v encoded);
  lf ← lift_r (leaf "read view lookup did not reach a leaf" v leaf_id);
  match find_entry (leaf_entries lf) encoded with
  | None => reserve_state 0;; mret (Missing ZERO)
  | Some entry =>
      match Format.value entry with
      | Some value =>
          reserve_state (value_length value);;
          x ← lift_r (read_value v value);
          mret (Present x (Format.revision entry))
      | None => reserve_state 0;; mret (Missing (Format.revision entry))
      end
  end.

(** Reads the value of a row and pushes the document. *)
Definition push_document (v : CommittedReadView) (dk : DocumentKey) (entry : LeafEntry) (value : ValueRef)
    (rows : list Document) : M (list Document) :=
  reserve_document dk (value_length value);;
  x ← lift_r (read_value v value);
  mret (rows ++ [mkDocument dk x (Format.revision entry)]).

Fixpoint query_entries (v : CommittedReadView) (pk : Key.PrimaryKey) (after : option Key.SortKey)
    (cursor : option bytes) (limit : Z) (entries : list LeafEntry) (first : bool) (rows : list Document)
    : M (bool * list Document) :=
  match entries with
  | [] => mret (false, rows)
  | entry :: entries' =>
      if first && match cursor with Some c => bytes_leb (Format.key entry) c | None => false end
      then query_entries v pk after cursor limit entries' first rows
      else
        dk ← lift_r (decode_leaf_key (Format.key entry));
        if negb (bytes_eqb (Key.pk dk) pk) then
          if bytes_ltb pk (Key.pk dk) then mret (true, rows)
          else query_entries v pk after cursor limit entries' false rows
        else if match after with Some c => bytes_leb (Key.sk dk) c | None => false end
        then query_entries v pk after cursor limit entries' false rows
        else
          match Format.value entry with
          | Some value =>
              rows ← push_document v dk entry value rows;
              if len rows =? limit then mret (true, rows)
              else query_entries v pk after cursor limit entries' false rows
          | None => query_entries v pk after cursor limit entries' false rows
          end
  end.

Fixpoint query_leaves (fuel : nat) (v : CommittedReadView) (pk : Key.PrimaryKey)
    (after : option Key.SortKey) (cursor : option bytes) (limit : Z) (leaf_id : PageId) (first : bool)
    (visited : gset PageId) (rows : list Document) : M (list Document) :=
  if limit <=? len rows then mret rows
  else
    match fuel with
    | O => lift_r (Stuck OutOfFuel)
    | S fuel' =>
        fail_when (bool_decide (leaf_id ∈ visited))
          (Corruption "leaf chain contains a cycle during query");;
        lf ← lift_r (leaf "query reached a non-leaf page" v leaf_id);
        '(returned, rows) ← query_entries v pk after cursor limit (leaf_entries lf) first rows;
        if (returned : bool) then mret rows
        else
          match leaf_next lf with
          | None => mret rows
          | Some next => query_leaves fuel' v pk after cursor limit next false ({[leaf_id]} ∪ visited) rows
          end
    end.

Definition query_with_budget (v : CommittedReadView) (pk : Key.PrimaryKey) (after : option Key.SortKey)
    (limit : Z) : M (list Document) :=
  if limit =? 0 then mret []
  else
    let start_key := Key.encode (Key.new pk []) in
    lift_r (validate_encoded_key start_key);;
    leaf_id ← lift_r (find_leaf v start_key);
    let cursor := (λ sk, Key.encode (Key.new pk sk)) <$> after in
    match cursor with Some c => lift_r (validate_encoded_key c) | None => mret tt end;;
    query_leaves (traversal_fuel v) v pk after cursor limit leaf_id true ∅ [].

Fixpoint scan_entries (v : CommittedReadView) (cursor : option bytes) (limit : Z)
    (entries : list LeafEntry) (rows : list Document) : M (bool * list Document) :=
  match entries with
  | [] => mret (false, rows)
  | entry :: entries' =>
      if match cursor with Some c => bytes_leb (Format.key entry) c | None => false end
      then scan_entries v cursor limit entries' rows
      else
        dk ← lift_r (decode_leaf_key (Format.key entry));
        match Format.value entry with
        | Some value =>
            rows ← push_document v dk entry value rows;
            if len rows =? limit then mret (true, rows)
            else scan_entries v cursor limit entries' rows
        | None => scan_entries v cursor limit entries' rows
        end
  end.

Fixpoint scan_leaves (fuel : nat) (v : CommittedReadView) (cursor : option bytes) (limit : Z)
    (leaf_id : PageId) (visited : gset PageId) (rows : list Document) : M (list Document) :=
  match fuel with
  | O => lift_r (Stuck OutOfFuel)
  | S fuel' =>
      fail_when (bool_decide (leaf_id ∈ visited))
        (Corruption "leaf chain contains a cycle during scan");;
      lf ← lift_r (leaf "scan reached a non-leaf page" v leaf_id);
      '(returned, rows) ← scan_entries v cursor limit (leaf_entries lf) rows;
      if (returned : bool) then mret rows
      else
        match leaf_next lf with
        | None => mret rows
        | Some next => scan_leaves fuel' v cursor limit next ({[leaf_id]} ∪ visited) rows
        end
  end.

Definition scan_with_budget (v : CommittedReadView) (cursor : option DocumentKey) (limit : Z)
    : M (list Document) :=
  if limit =? 0 then mret []
  else
    leaf_id ← match cursor with
      | Some key =>
          let encoded := Key.encode key in
          lift_r (validate_encoded_key encoded);;
          lift_r (find_leaf v encoded)
      | None => lift_r (leftmost_leaf v)
      end;
    scan_leaves (traversal_fuel v) v (Key.encode <$> cursor) limit leaf_id ∅ [].

End ReadView.
