(* ===== verification/ReadViewLaws.v ===== *)
(** * What the read view promises

    Every lookup of the view does what the overlay does on a store that holds the
    pages of the view and nothing else, up to the wording of corruption errors.  The
    specifications of the overlay's reads therefore hold of the view. *)

From S2P Require Import Prelude Wp Key Core Page Superblock Format FormatLaws Reference Overlay Tree TreeSearch.
From S2P Require Import TreeOps TreeTxn MemStore TreeScan Lockstep DurableFile StoreFile Store ReadView.

Module ReadViewLaws.
Import Core ReadView MemStore Lockstep.

Abbreviation Overlay := Overlay.Overlay.

(** The view as a store. *)
Definition mem_of (v : CommittedReadView) : MemStore :=
  mkMem (Overlay.mkStoreHeader false empty_superblock Superblock.A (root_page_id v) None (high_water_page_id v)
    1 1 1 Overlay.default_limits) (pages v).

Section reads.
Context (v : CommittedReadView).
Implicit Type o : Overlay MemStore.

(** An overlay that has only read. *)
Record reading o : Prop := {
  rd_store : mem_pages (Overlay.store o) = pages v;
  rd_pages : ∀ id p, Overlay.pages o !! id = Some p → pages v !! id = Some p;
  rd_root : Overlay.root_page_id o = root_page_id v;
  rd_high : Overlay.high_water_page_id o = high_water_page_id v;
}.

Lemma reading_new : reading (Overlay.overlay_new (mem_of v)).
Proof. by split. Qed.

(** The same error, or another wording of corruption. *)
Definition similar (e e' : Error) : Prop := e = e' ∨ corrupted e ∧ corrupted e'.

Lemma similar_refl e : similar e e.
Proof. by left. Qed.
Lemma similar_corruption x y : similar (Corruption x) (Corruption y).
Proof. right. by split; eexists. Qed.
#[local] Hint Resolve similar_refl similar_corruption : core.

(** ** Lookups without a budget *)

Definition shadows {A A'} (R : A → A' → Prop) (r : Result Error A) (m : St (Overlay MemStore) Error A') : Prop :=
  ∀ o, reading o →
  match r, m o with
  | Ok a, (Ok a', o') => R a a' ∧ reading o'
  | Err e, (Err e', o') => similar e e' ∧ reading o'
  | Stuck k, (Stuck k', _) => k = k'
  | _, _ => False
  end.

Lemma shadow_ret {A A'} (R : A → A' → Prop) a a' : R a a' → shadows R (Ok a) (mret a').
Proof. by intros HR o Ho. Qed.
Lemma shadow_throw {A A'} (R : A → A' → Prop) e e' : similar e e' → shadows R (Err e) (throw e').
Proof. by intros He o Ho. Qed.
Lemma shadow_lift {A} (r : Result Error A) : shadows eq r (lift_r r).
Proof. intros o Ho. unfold lift_r. by destruct r; auto. Qed.
Lemma shadow_fail c e e' : similar e e' → shadows eq (fail_if c e) (fail_when c e').
Proof. intros He o Ho. unfold fail_when, lift_r, fail_if. by destruct c. Qed.
Lemma shadow_bind {A A' D D'} (R : A → A' → Prop) (R' : D → D' → Prop) r m f g :
  shadows R r m → (∀ a a', R a a' → shadows R' (f a) (g a')) → shadows R' (r ≫= f) (m ≫= g).
Proof.
  intros Hm Hf o Ho. specialize (Hm o Ho). unfold mbind, Result_bind, St_bind.
  destruct r as [a|e|k], (m o) as [[a'|e'|k'] o']; try done. destruct Hm as [HR Ho']. by apply Hf.
Qed.
Lemma shadow_bind_eq {A D D'} (R' : D → D' → Prop) r (m : St _ _ A) f g :
  shadows eq r m → (∀ a, shadows R' (f a) (g a)) → shadows R' (r ≫= f) (m ≫= g).
Proof. intros Hm Hf. eapply shadow_bind; [exact Hm|]. by intros a ? <-. Qed.

Lemma shadow_page id : shadows eq (page v id) (Overlay.page id).
Proof.
  intros o Ho. pose proof Ho as [R1 R2 R3 R4]. unfold page, Overlay.page, Overlay.check_page_id.
  unfold mbind, Result_bind, St_bind, get_st, fail_when, lift_r, fail_if. rewrite R4.
  destruct (_ || _); [by auto|]. unfold ok_or. destruct (Overlay.pages o !! id) as [p|] eqn:Ep.
  { rewrite (R2 _ _ Ep). done. }
  cbn [Overlay.cache_get mem_store]. unfold modify_st, mret, St_ret, zoom.
  cbn [Overlay.read_page_from_file mem_store Overlay.store Overlay.set_store].
  unfold mbind, St_bind, get_st, lift_r, ok_or. rewrite R1. destruct (pages v !! id) as [p|] eqn:Em; [|by auto].
  split; [done|]. split; simpl; try done. intros i q. destruct (decide (i = id)) as [->|].
  - rewrite lookup_insert_eq. congruence.
  - rewrite lookup_insert_ne by done. apply R2.
Qed.

Lemma shadow_leaf message id : shadows eq (leaf message v id) (Overlay.leaf id).
Proof.
  unfold leaf, Overlay.leaf. apply shadow_bind_eq; [apply shadow_page|]. intros [| | |];
    first [by apply shadow_throw|by apply shadow_ret].
Qed.

Lemma shadow_find_leaf_loop fuel k id route visited :
  shadows (λ a a', a = a'.1) (find_leaf_loop fuel v k id visited) (Overlay.find_leaf_loop fuel k id route visited).
Proof.
  revert id route visited. induction fuel as [|fuel IH]; intros; cbn [find_leaf_loop Overlay.find_leaf_loop]; [done|].
  apply shadow_bind_eq; [by apply shadow_fail|]. intros _. apply shadow_bind_eq; [apply shadow_page|].
  intros [| | |]; try (by apply shadow_throw; auto); [by apply shadow_ret|]. apply shadow_bind_eq; [|auto].
  apply shadow_lift.
Qed.

Lemma reading_fuel o : reading o → Overlay.traversal_fuel o = traversal_fuel v.
Proof. intros Ho. unfold Overlay.traversal_fuel, traversal_fuel. by rewrite (rd_high _ Ho). Qed.

Lemma shadow_find_leaf k : shadows (λ a a', a = a'.1) (find_leaf v k) (Overlay.find_leaf k).
Proof.
  intros o Ho. unfold find_leaf, Overlay.find_leaf. unfold mbind, St_bind, get_st.
  rewrite (reading_fuel _ Ho), (rd_root _ Ho). by apply shadow_find_leaf_loop.
Qed.

Lemma shadow_leftmost_loop fuel id visited :
  shadows eq (leftmost_leaf_loop fuel v id visited) (Overlay.leftmost_leaf_loop fuel id visited).
Proof.
  revert id visited. induction fuel as [|fuel IH]; intros; cbn [leftmost_leaf_loop Overlay.leftmost_leaf_loop]; [done|].
  apply shadow_bind_eq; [by apply shadow_fail|]. intros _. apply shadow_bind_eq; [apply shadow_page|].
  intros [| | |]; try (by apply shadow_throw; auto); [by apply shadow_ret|]. apply IH.
Qed.

Lemma shadow_leftmost : shadows eq (leftmost_leaf v) Overlay.leftmost_leaf.
Proof.
  intros o Ho. unfold leftmost_leaf, Overlay.leftmost_leaf. unfold mbind, St_bind, get_st.
  rewrite (reading_fuel _ Ho), (rd_root _ Ho). by apply shadow_leftmost_loop.
Qed.

Lemma shadow_read_value_loop fuel n id visited c out :
  shadows eq (read_value_loop fuel v n id visited c out) (Overlay.read_value_loop fuel n id visited c out).
Proof.
  revert id visited c out. induction fuel as [|fuel IH]; intros [id|] visited c out;
    cbn [read_value_loop Overlay.read_value_loop]; try (by apply shadow_ret); [done|].
  apply shadow_bind_eq; [by apply shadow_fail|]. intros _. apply shadow_bind_eq; [apply shadow_page|].
  intros [| | |]; try (by apply shadow_throw; auto). apply shadow_bind_eq; [by apply shadow_fail|]. intros _. apply IH.
Qed.

Lemma shadow_read_value r : shadows eq (read_value v r) (Overlay.read_value r).
Proof.
  destruct r; cbn [read_value Overlay.read_value]; [by apply shadow_ret|].
  apply shadow_bind_eq; [apply shadow_read_value_loop|]. intros out.
  apply shadow_bind_eq; [by apply shadow_fail|]. intros _. by apply shadow_ret.
Qed.

(** ** Lookups with a budget *)

Definition agrees {A A'} (R : A → A' → Prop) (m1 : St Overlay.ResponseBudget Error A)
    (m2 : St (Overlay MemStore * Overlay.ResponseBudget) Error A') : Prop :=
  ∀ o bud, reading o →
  match m1 bud, m2 (o, bud) with
  | (Ok a, b1), (Ok a', (o', b2)) => R a a' ∧ b1 = b2 ∧ reading o'
  | (Err e, b1), (Err e', (o', b2)) => similar e e' ∧ b1 = b2
  | (Stuck k, _), (Stuck k', _) => k = k'
  | _, _ => False
  end.

Lemma agree_ret {A A'} (R : A → A' → Prop) a a' : R a a' → agrees R (mret a) (mret a').
Proof. by intros HR o bud Ho. Qed.
Lemma agree_overlay {A A'} (R : A → A' → Prop) r m : shadows R r m → agrees R (lift_r r) (Overlay.on_overlay m).
Proof.
  intros Hs o bud Ho. specialize (Hs o Ho). unfold lift_r, Overlay.on_overlay, zoom. cbn [fst].
  destruct r, (m o) as [[] o']; naive_solver.
Qed.
Lemma agree_lift {A} (r : Result Error A) : agrees eq (lift_r r) (lift_r r).
Proof. intros o bud Ho. unfold lift_r. by destruct r; auto. Qed.
Lemma agree_fail c e : agrees eq (fail_when c e) (fail_when c e).
Proof. apply agree_lift. Qed.
Lemma agree_budget {A} (m : St Overlay.ResponseBudget Error A) : agrees eq m (Overlay.on_budget m).
Proof.
  intros o bud Ho. unfold Overlay.on_budget, zoom. cbn [snd fst]. destruct (m bud) as [[] b']; by auto.
Qed.
Lemma agree_bind {A A' D D'} (R : A → A' → Prop) (R' : D → D' → Prop) m1 m2 f g :
  agrees R m1 m2 → (∀ a a', R a a' → agrees R' (f a) (g a')) → agrees R' (m1 ≫= f) (m2 ≫= g).
Proof.
  intros Hm Hf o bud Ho. specialize (Hm o bud Ho). unfold mbind, St_bind.
  destruct (m1 bud) as [[a|e|k] b1], (m2 (o, bud)) as [[a'|e'|k'] [o' b2]]; try done.
  destruct Hm as (HR & <- & Ho'). by apply Hf.
Qed.
Lemma agree_bind_eq {A D D'} (R' : D → D' → Prop) m1 m2 (f : A → _) g :
  agrees eq m1 m2 → (∀ a, agrees R' (f a) (g a)) → agrees R' (m1 ≫= f) (m2 ≫= g).
Proof. intros Hm Hf. eapply agree_bind; [exact Hm|]. by intros a ? <-. Qed.

Create HintDb agrees.
#[local] Hint Resolve agree_overlay agree_lift agree_fail agree_budget shadow_leaf shadow_leftmost shadow_read_value : agrees.
#[local] Hint Extern 1 (agrees _ (mret _) (mret _)) => by apply agree_ret : agrees.

Ltac agree_step :=
  lazymatch goal with
  | |- agrees _ (mbind _ _) _ => apply agree_bind_eq; [solve [eauto with agrees]|intros ?]
  | |- agrees _ (match ?x with _ => _ end) _ => destruct x
  | |- agrees _ (if ?x then _ else _) _ => destruct x
  | |- _ => solve [eauto with agrees]
  end.
Ltac agree := repeat agree_step.

Lemma agree_get k : agrees eq (get_with_budget v k) (Overlay.get_state_with_budget k).
Proof.
  unfold get_with_budget, Overlay.get_state_with_budget. cbv zeta. agree_step.
  eapply agree_bind; [by apply agree_overlay, shadow_find_leaf|]. intros id [id' route] ->. cbn [fst].
  agree.
Qed.

Lemma agree_push dk e r rows : agrees eq (push_document v dk e r rows) (Overlay.push_document dk e r rows).
Proof. unfold push_document, Overlay.push_document. agree. Qed.
#[local] Hint Resolve agree_push : agrees.

Lemma agree_query_entries pk after cursor limit es first rows :
  agrees eq (query_entries v pk after cursor limit es first rows) (Overlay.query_entries pk after cursor limit es first rows).
Proof. revert first rows. induction es; intros; cbn [query_entries Overlay.query_entries]; agree. Qed.
Lemma agree_scan_entries cursor limit es rows :
  agrees eq (scan_entries v cursor limit es rows) (Overlay.scan_entries cursor limit es rows).
Proof. revert rows. induction es; intros; cbn [scan_entries Overlay.scan_entries]; agree. Qed.
#[local] Hint Resolve agree_query_entries agree_scan_entries : agrees.

Lemma agree_query_leaves fuel pk after cursor limit id first visited rows :
  agrees eq (query_leaves fuel v pk after cursor limit id first visited rows)
    (Overlay.query_leaves fuel pk after cursor limit id first visited rows).
Proof.
  revert id first visited rows. induction fuel; intros; cbn [query_leaves Overlay.query_leaves]; agree.
Qed.
Lemma agree_scan_leaves fuel cursor limit id visited rows :
  agrees eq (scan_leaves fuel v cursor limit id visited rows) (Overlay.scan_leaves fuel cursor limit id visited rows).
Proof. revert id visited rows. induction fuel; intros; cbn [scan_leaves Overlay.scan_leaves]; agree. Qed.

(** The overlay's traversals read their fuel from the overlay. *)
Lemma agree_fuel {A A'} (R : A → A' → Prop) m (f : nat → St _ _ A') :
  agrees R m (f (traversal_fuel v)) → agrees R m (s ← get_st; f (Overlay.traversal_fuel s.1)).
Proof. intros Hm o bud Ho. unfold mbind, St_bind, get_st. cbn [fst]. rewrite (reading_fuel _ Ho). by apply Hm. Qed.

Lemma agree_query pk after limit : agrees eq (query_with_budget v pk after limit) (Overlay.query_with_budget pk after limit).
Proof.
  unfold query_with_budget, Overlay.query_with_budget. destruct (limit =? 0); [by apply agree_ret|]. cbv zeta.
  agree_step. eapply agree_bind; [by apply agree_overlay, shadow_find_leaf|]. intros id [id' route] ->. cbn [fst].
  apply agree_bind_eq; [destruct after; cbn; agree|intros ?].
  apply (agree_fuel eq _ (λ n, Overlay.query_leaves n _ _ _ _ _ _ _ _)), agree_query_leaves.
Qed.

Lemma agree_scan cursor limit : agrees eq (scan_with_budget v cursor limit) (Overlay.scan_with_budget cursor limit).
Proof.
  unfold scan_with_budget, Overlay.scan_with_budget. destruct (limit =? 0); [by apply agree_ret|]. cbv zeta.
  apply agree_bind_eq; last first.
  { intros id. apply (agree_fuel eq _ (λ n, Overlay.scan_leaves n _ _ _ _ _)), agree_scan_leaves. }
  destruct cursor as [k|]; [|agree]. agree_step. intros o bud Ho.
  pose proof (agree_overlay _ _ _ (shadow_find_leaf (Key.encode k)) o bud Ho) as Hf. unfold fmap, St_fmap.
  destruct (lift_r (find_leaf v (Key.encode k)) bud) as [[x|e|i] b1],
    (Overlay.on_overlay (Overlay.find_leaf (Key.encode k)) (o, bud)) as [[[x' r]|e'|i'] [o' b2]]; done.
Qed.
End reads.
End ReadViewLaws.
