(* ===== verification/ReadViewSpec.v ===== *)
(** * The read view follows the store

    [view_follows] is what keeps the read view right: it has the committed page of
    every page of the tree.  Loading establishes it, publishing a group of
    transactions preserves it, and under it the lookups of the view are those of the
    reference database. *)

From S2P Require Import Prelude Wp Key Core Page Superblock Format FormatLaws Reference Cache Overlay Tree TreeSearch.
From S2P Require Import OverlayReads TreeOps TreeTxn MemStore TreeScan Lockstep DurableFile Wal WalFrames WalReplay WalRecovery.
From S2P Require Import WalAppend StoreFile Store StoreSpec StorePublish StoreTxn StoreTheorems ReadView ReadViewLaws.

Module ReadViewSpec.
Import DurableFile WalReplay WalAppend.
Import Core Tree TreeOps TreeTxn TreeScan MemStore Lockstep StoreSpec StorePublish StoreTxn StoreTheorems ReadView ReadViewLaws.

Definition is_free (p : Format.PageData) : Prop := match p with Format.Free _ _ => True | _ => False end.

(** ** More pages do not hurt a tree *)

Section mono.
Context (V V' : view_t) (HV : ∀ id p, V id = Some p → ¬ is_free p → V' id = Some p).

Lemma chain_mono head total ids v : chain V head total ids v → chain V' head total ids v.
Proof.
  revert head v. induction ids as [|id ids IH]; intros head v; simpl; [done|].
  intros (-> & lsn & next & c & v' & Hv & -> & Hc). split; [done|]. exists lsn, next, c, v'.
  split; [by apply HV; auto|]. auto.
Qed.
Lemma value_at_mono G owner vr ov : value_at V G owner vr ov → value_at V' G owner vr ov.
Proof.
  destruct vr as [[v|head total]|]; simpl; [done| |done].
  intros (ids & v & -> & Hc & Hrest). exists ids, v. split; [done|]. split; [by apply chain_mono|done].
Qed.
Lemma page_ok_mono G Gc db id h lo hi : page_ok V G Gc db id (RTree h lo hi) → page_ok V' G Gc db id (RTree h lo hi).
Proof.
  destruct h as [|h]; simpl.
  - intros (lsn & next & es & Hp & Hst & [L1 L2 L3 L4]). exists lsn, next, es. split; [by apply HV; auto|].
    split; [done|]. split; [done|done|done|]. intros k Hk. specialize (L4 k Hk). revert L4. unfold denotes.
    destruct (Overlay.find_entry es k), (db !! k) as [[r ov]|]; try done. intros [-> Hv]. split; [done|]. by apply value_at_mono.
  - intros (lsn & lm & es & Hp & Hst & Hc). exists lsn, lm, es. split; [by apply HV; auto|done].
Qed.
End mono.

(** ** Lookups of a view *)

Lemma agrees_wp {A} v (m1 : St _ Error A) m2 (Q : A → Prop) bud :
  agrees v eq m1 m2 →
  wp m2 (λ a _, Q a) (λ e _, too_large e) (Overlay.overlay_new (mem_of v), bud) →
  wp m1 (λ a _, Q a) (λ e _, too_large e) bud.
Proof.
  intros Ha Hw. specialize (Ha _ bud (reading_new v)). unfold wp in *.
  destruct (m1 bud) as [[a|e|k] b1], (m2 (_, bud)) as [[a'|e'|k'] [o' b2]]; try done; destruct Ha as [Ha _].
  - by subst.
  - destruct Ha as [->|[[m ->] [m' ->]]]; [done|]. by destruct Hw.
Qed.

Section lookups.
Context (v : CommittedReadView) (G : labels) (H : nat) (db : Reference.ReferenceDb).
Context (Hi : inv (Overlay.overlay_new (mem_of v)) ∅ G G H [] (abs (Reference.states db))).

Lemma view_get_spec k bud :
  valid_key k → wp (get_with_budget v k) (λ s _, s = Reference.get db k) (λ e _, too_large e) bud.
Proof.
  intros Hk. eapply agrees_wp; [apply agree_get|]. wp_use (get_state_spec _ G H [] _ k bud Hi Hk).
  - intros s ob [-> _]. apply state_of_abs.
  - by intros e ob [He _].
Qed.

Lemma view_query_spec pk after limit bud :
  valid_key (Key.new pk []) → (∀ c, after = Some c → valid_key (Key.new pk c)) → 0 ≤ limit →
  wp (query_with_budget v pk after limit) (λ rows _, rows = row <$> Reference.query db pk after limit)
    (λ e _, too_large e) bud.
Proof.
  intros Hpk Hc Hl. eapply agrees_wp; [apply agree_query|]. wp_use (query_spec _ G H [] db pk after limit bud Hi); try done.
  - by intros rows ob [_ ->].
  - by intros e ob [He _].
Qed.

Lemma view_scan_spec cursor limit bud :
  (∀ c, cursor = Some c → valid_key c) → 0 ≤ limit →
  wp (scan_with_budget v cursor limit) (λ rows _, rows = row <$> Reference.scan db cursor limit)
    (λ e _, too_large e) bud.
Proof.
  intros Hc Hl. eapply agrees_wp; [apply agree_scan|]. wp_use (scan_spec _ G H [] db cursor limit bud Hi); try done.
  - by intros rows ob [_ ->].
  - by intros e ob [He _].
Qed.
End lookups.

(** ** Groups *)

(** The results of a group determine the database it leaves. *)
Lemma group_run_det lim db qs rs db1 db2 : group_run lim db qs rs db1 → group_run lim db qs rs db2 → db1 = db2.
Proof.
  intros Hrun. revert db2. induction Hrun; intros db2 Hrun2; inversion Hrun2; simplify_eq; eauto.
  apply IHHrun. congruence.
Qed.

(** ** Following the store *)

Section follows.
Context `{C : Crc32c} {CS : Crc32cSpec C} `{FS : DurableFileSpec F} `{WS : DurableFileSpec W} `{JS : FaultInjectorSpec J}.
Abbreviation Store := (Store.BTreeStore F W J).
Implicit Types (b : Store) (v : CommittedReadView) (P : gmap PageId Format.PageData).

(** The store, reduced to the pages [P]. *)
Definition reduced b P : MemStore := mkMem (Store.store_header b) P.

(** The pages of [v] are committed pages of [b], and those pages [P] of the tree that
    are not free are in [v]: enough to run the store on them. *)
Record view_follows (n : nat) v b (s : gmap DocumentKey RevisionState) : Prop := {
  vf_root : root_page_id v = Store.root_page_id b;
  vf_high : high_water_page_id v = Store.high_water_page_id b;
  vf_agree : ∀ id p, pages v !! id = Some p → committed_page b id = Some p;
  vf_pages : ∃ P, (∀ id p, P !! id = Some p → committed_page b id = Some p) ∧
    (∀ id p, P !! id = Some p → ¬ is_free p → pages v !! id = Some p) ∧
    represents n (Overlay.overlay_new (reduced b P)) s;
}.

Lemma view_follows_inv n v b s :
  view_follows n v b s → ∃ G ht, inv (Overlay.overlay_new (mem_of v)) ∅ G G ht [] (abs s).
Proof.
  intros [R1 R2 R3 (P & P1 & P2 & G & ht & fl & [I1 I2 I3 I4 I5 I6 I7 I8 I9 I10 I11 I12 I13] & _)]. exists G, ht.
  cbn in *. split; cbn; rewrite ?R1, ?R2; try done; [|constructor|by intros id ?%not_elem_of_nil].
  intros id [h lo hi| |] Hid HD; [|done..]. eapply page_ok_mono; [|by apply I7].
  intros i p. unfold view. cbn. apply P2.
Qed.

(** Reading the store does not disturb the view. *)
Lemma view_follows_same n m v b b' s :
  (m ≤ n)%nat → Store.store_header b' = Store.store_header b → (∀ i, committed_page b' i = committed_page b i) →
  view_follows n v b s → view_follows m v b' s.
Proof.
  intros Hm Hh Hc [R1 R2 R3 (P & P1 & P2 & P3)]. pose proof Hh as Hh'. injection Hh'. intros _ _ _ _ E1 _ E2 _ _ _.
  split; [congruence|congruence|intros id p; rewrite Hc; apply R3|]. exists P.
  split; [intros id p; rewrite Hc; apply P1|]. split; [done|]. unfold reduced. rewrite Hh. by eapply represents_le.
Qed.

(** What the batches of a group change. *)
Lemma stages_view {B} {CB : Overlay.CommittedStore B} {SP : CommittedStoreSpec B} o ps (o' : Overlay.Overlay B) m :
  stages o ps o' →
  ∀ i, match group_decoded ps m !! i with
       | Some q => view o' i = Some q ∨ m !! i = Some q ∧ view o' i = view o i
       | None => m !! i = None ∧ view o' i = view o i
       end.
Proof.
  intros Hs. revert m. induction Hs as [o o' S|o p c o1 ps o' Cb Hne Hr Hs IH]; intros m i; cbn [group_decoded foldl].
  { destruct (m !! i) eqn:E; [right|]; by rewrite (sim_view _ _ S). }
  specialize (IH (Overlay.changed_decoded p ∪ m) i). fold (group_decoded ps (Overlay.changed_decoded p ∪ m)).
  destruct (group_decoded ps _ !! i) as [q|]; rewrite (com_view _ _ _ _ Cb) in IH;
    destruct (Overlay.changed_decoded p !! i) as [x|] eqn:Ex.
  - destruct IH as [?|[Hm Hv]]; [by left|left]. erewrite lookup_union_Some_l in Hm by done. congruence.
  - destruct IH as [?|[Hm Hv]]; [by left|right]. by rewrite lookup_union_r in Hm.
  - destruct IH as [Hm _]. by erewrite lookup_union_Some_l in Hm.
  - destruct IH as [Hm Hv]. by rewrite lookup_union_r in Hm.
Qed.

Lemma group_decoded_same ps ps' m : Forall2 same_batch ps ps' → group_decoded ps' m = group_decoded ps m.
Proof.
  intros HF. revert m. induction HF as [|p q ps ps' Hp HF IH]; intros m; [done|]. cbn [group_decoded foldl].
  fold (group_decoded ps' (Overlay.changed_decoded q ∪ m)) (group_decoded ps (Overlay.changed_decoded p ∪ m)).
  rewrite IH. assert (Overlay.changed_decoded q = Overlay.changed_decoded p) as -> by (rewrite Hp; done). done.
Qed.

Lemma reduced_extends n b P s :
  represents n (Overlay.overlay_new b) s → (∀ id p, P !! id = Some p → committed_page b id = Some p) →
  extends (reduced b P) b.
Proof. intros (G & ht & fl & Hi & _) HP. split; [done|apply Hi|done]. Qed.

(** The pages an overlay of a reduced store has when it is done. *)
Definition reduced_after (o : Overlay.Overlay MemStore) : gmap PageId Format.PageData :=
  Overlay.pages o ∪ mem_pages (Overlay.store o).

Lemma reduced_after_view o i : reduced_after o !! i = view o i.
Proof.
  unfold reduced_after, view. destruct (Overlay.pages o !! i) as [p|] eqn:E.
  - by erewrite lookup_union_Some_l.
  - by rewrite lookup_union_r.
Qed.

(** A group on the reduced store is the group on the store. *)
Lemma group_reduced n b s db qs P ps rs o' :
  s = Reference.states db → represents n (Overlay.overlay_new b) s → (writes qs ≤ n)%nat → Forall keys_fit qs → short_keys s →
  (∀ id p, P !! id = Some p → committed_page b id = Some p) → represents n (Overlay.overlay_new (reduced b P)) s →
  Overlay.prepare_group qs (Overlay.overlay_new b) = (Ok (ps, rs), o') →
  ∃ ps1 db' o1, group_ok n db qs (Overlay.overlay_new (reduced b P)) ps1 rs db' o1 ∧ Forall2 same_batch ps1 ps ∧ twins o1 o'.
Proof.
  intros -> Hb Hn Hwf Hsh HP Hred Hrun. pose proof (twins_new _ _ (reduced_extends _ _ _ _ Hb HP)) as T.
  destruct (prepare_group_spec qs n _ db Hred Hn Hwf Hsh) as (ps1 & rs1 & db' & o1 & Hg).
  destruct (lock_group _ _ _ _ _ _ T (go_run _ _ _ _ _ _ _ _ Hg)) as (ps2 & o2 & E & HF & T').
  rewrite Hrun in E. injection E as <- <- <-. by exists ps1, db', o1.
Qed.

(** The reduced store takes over what the group has staged. *)
Lemma represents_reduced n o o' b s :
  represents n o s → twins o o' → follows o' b → represents n (Overlay.overlay_new (reduced b (reduced_after o))) s.
Proof.
  intros (G & ht & fl & Hi & Hc & [D1 D2 D3 D4 D5 D6] & Hr) T [F1 _ _].
  rewrite (tw_superblock _ _ T), (tw_slot _ _ T), (tw_root _ _ T), (tw_free _ _ T), (tw_high _ _ T), (tw_revision _ _ T),
    (tw_lsn _ _ T), (tw_batch _ _ T), (ext_header _ _ (tw_store _ _ T)) in F1. exists G, ht, fl.
  assert (Hv : ∀ i, view (Overlay.overlay_new (reduced b (reduced_after o))) i = view o i).
  { intros i. by rewrite <-(reduced_after_view o). }
  injection F1. intros El Eb En Er Eh Ef Ert Es Esb _. split_and!.
  - eapply inv_view; try done; cbn; apply empty_subseteq.
  - unfold capacity, reach in *. cbn. by rewrite En, Eh, Esb, Eb.
  - split; cbn; try done.
    + by rewrite Er, En.
    + intros id p. rewrite Hv, Er. apply D4.
    + by rewrite Esb.
    + unfold limits_ok in *. cbn. by rewrite El.
  - cbn. by rewrite Er.
Qed.

Lemma changed_decoded_ne {B} {CB : Overlay.CommittedStore B} {SP : CommittedStoreSpec B} (o o' : Overlay.Overlay B) p c :
  committed_by o p o' c → Overlay.changed_pages p ≠ ∅ → Overlay.changed_decoded p ≠ ∅.
Proof.
  intros Cb Hne E. apply Hne, map_empty. intros i. pose proof (com_images _ _ _ _ Cb i) as Hi.
  by rewrite E, lookup_empty in Hi.
Qed.

Lemma group_decoded_empty {B} {CB : Overlay.CommittedStore B} {SP : CommittedStoreSpec B} (o o' : Overlay.Overlay B) ps :
  stages o ps o' → group_decoded ps ∅ = ∅ → sim o o'.
Proof.
  assert (Hmono : ∀ ps m, m ≠ ∅ → group_decoded ps m ≠ ∅).
  { clear. induction ps as [|p ps IH]; intros m Hm; [done|]. cbn [group_decoded foldl]. apply IH.
    intros E. apply Hm, map_empty. intros i. apply (f_equal (.!! i)) in E. rewrite lookup_empty in E.
    by apply lookup_union_None in E as [_ E]. }
  intros [|? p c o1 ps' ? Cb Hne Hr Hs] E; [done|]. exfalso. cbn [group_decoded foldl] in E. revert E. apply Hmono.
  rewrite map_union_empty. by eapply changed_decoded_ne.
Qed.

(** [publish_read_updates] on the view: nothing happens without updates. *)
Definition refreshed b v : CommittedReadView :=
  if bool_decide (Store.published_page_updates b = ∅) then v
  else apply_updates (Store.published_page_updates b) (Store.root_page_id b) (Store.high_water_page_id b) v.

Lemma view_follows_group n v b b' ss db qs rs :
  view_follows n v b (Reference.states db) → store_ok n b ss (Reference.states db) → (writes qs ≤ n)%nat →
  Forall keys_fit qs → short_keys (Reference.states db) → group_done n b ss db qs rs b' → Store.track_published_pages b = true →
  Store.published_page_updates b = ∅ →
  ∃ db' cs, group_run (Store.limits (Store.config b)) db qs rs db' ∧
    store_ok (n - writes qs) b' (ss ++ segments_of (Store.next_lsn b) cs) (Reference.states db') ∧
    view_follows (n - writes qs) (refreshed b' v) b' (Reference.states db').
Proof.
  intros Hv Hok Hn Hwf Hsh [(cs & db' & Hrun & Hok') _ _ _ _ (ps & o' & Hp & Hfol & Hst & Hpub)] Ht Hu.
  specialize (Hpub Ht). rewrite Hu in Hpub. pose proof Hv as [R1 R2 R3 (P & P1 & P2 & P3)].
  destruct (group_reduced n b _ db qs P ps rs o' eq_refl (so_represents _ _ _ _ Hok) Hn Hwf Hsh P1 P3 Hp)
    as (ps1 & db1 & o1 & [G1 G2 G3 G4 G5] & HF & T).
  assert (db1 = db') as -> by (by eapply group_run_det). exists db', cs. split; [done|]. split; [done|].
  pose proof (fo_header _ _ Hfol) as Hh. injection Hh. intros _ _ _ _ Eh _ Er _ _ _.
  pose proof (stages_view _ _ _ ∅ Hst) as Hsv. pose proof (stages_view _ _ _ ∅ G4) as Hsr.
  rewrite <-Hpub in Hsv. rewrite <-(group_decoded_same _ _ ∅ HF), <-Hpub in Hsr.
  assert (HP' : ∀ id p, reduced_after o1 !! id = Some p → committed_page b' id = Some p).
  { intros id p. rewrite reduced_after_view, (fo_view _ _ Hfol). by apply twins_view. }
  assert (Hold : ∀ id, view (Overlay.overlay_new b) id = committed_page b id).
  { intros id. unfold view. done. }
  assert (Holdr : ∀ id, view (Overlay.overlay_new (reduced b P)) id = P !! id).
  { intros id. unfold view. done. }
  assert (Hpages : ∀ id p, pages (refreshed b' v) !! id = Some p ↔
    match Store.published_page_updates b' !! id with Some q => Some q | None => pages v !! id end = Some p).
  { intros id p. unfold refreshed. case_bool_decide as E; [by rewrite E, lookup_empty|]. cbn.
    destruct (Store.published_page_updates b' !! id) eqn:Eq; [by erewrite lookup_union_Some_l|by rewrite lookup_union_r]. }
  assert (Hagree : ∀ id p, pages (refreshed b' v) !! id = Some p → committed_page b' id = Some p).
  { intros id p. rewrite Hpages, (fo_view _ _ Hfol). specialize (Hsv id). rewrite Hold in Hsv.
    destruct (Store.published_page_updates b' !! id) as [q|].
    - intros [= <-]. destruct Hsv as [?|[E _]]; [done|by rewrite lookup_empty in E].
    - destruct Hsv as [_ ->]. apply R3. }
  assert (Hsame : Store.published_page_updates b' = ∅ →
    Store.root_page_id b' = Store.root_page_id b ∧ Store.high_water_page_id b' = Store.high_water_page_id b).
  { intros E. rewrite Hpub in E. pose proof (group_decoded_empty _ _ _ Hst E) as S. rewrite Er, Eh.
    by rewrite (sim_root _ _ S), (sim_high _ _ S). }
  split; [..|done|].
  - unfold refreshed. case_bool_decide as E; [|done]. destruct (Hsame E) as [-> _]. done.
  - unfold refreshed. case_bool_decide as E; [|done]. destruct (Hsame E) as [_ ->]. done.
  - exists (reduced_after o1). split; [done|]. split; [|by eapply represents_reduced].
    intros id p Hid Hf. apply Hpages. specialize (Hsr id). pose proof (HP' _ _ Hid) as Hcm.
    destruct (Store.published_page_updates b' !! id) as [q|] eqn:Eq.
    + assert (pages (refreshed b' v) !! id = Some q) as Hq by (apply Hpages; by rewrite Eq).
      apply Hagree in Hq. congruence.
    + destruct Hsr as [_ Hsr]. rewrite reduced_after_view, Hsr, Holdr in Hid. by apply P2.
Qed.
End follows.

(** ** Equivalence with the overlay *)

(** The same value, the same error up to the wording of corruption, or the same panic. *)
Definition same_result {A} (r r' : Result Error A) : Prop :=
  match r, r' with
  | Ok x, Ok y => x = y
  | Err e, Err e' => similar e e'
  | Stuck k, Stuck k' => k = k'
  | _, _ => False
  end.

Lemma agrees_same_result {A} v (m1 : St Overlay.ResponseBudget Error A) m2 bud :
  agrees v eq m1 m2 → same_result (m1 bud).1 (m2 (Overlay.overlay_new (mem_of v), bud)).1.
Proof.
  intros Ha. specialize (Ha _ bud (reading_new v)).
  destruct (m1 bud) as [[a|e|k] b1], (m2 (_, bud)) as [[a'|e'|k'] [o' b2]]; try done; by destruct Ha.
Qed.

(** C26: the read path of the view and the read path of a transaction are equivalent.
    On any set of pages, sound or corrupt, a get, a query and a scan of the view return
    what the code of the transaction overlay returns on a store with these pages: the
    same values, the same exhausted budgets, and corruption where it finds
    corruption. *)
Theorem view_reads_equal_overlay v key pk after cursor limit bud :
  let fresh := (Overlay.overlay_new (mem_of v), bud) in
  same_result (get_with_budget v key bud).1 (Overlay.get_state_with_budget key fresh).1 ∧
  same_result (query_with_budget v pk after limit bud).1 (Overlay.query_with_budget pk after limit fresh).1 ∧
  same_result (scan_with_budget v cursor limit bud).1 (Overlay.scan_with_budget cursor limit fresh).1.
Proof. split_and!; apply agrees_same_result; [apply agree_get|apply agree_query|apply agree_scan]. Qed.
End ReadViewSpec.
