(* ===== verification/ReadViewLoad.v ===== *)
(** * Loading the read view

    [from_store] succeeds on every store that holds a tree, and the view it returns
    follows the store. *)

From S2P Require Import Prelude Wp Key Core Page Superblock Format FormatLaws Reference Cache Overlay Tree TreeSearch TreeInsert.
From S2P Require Import OverlayReads TreeOps TreeTxn MemStore Lockstep DurableFile Wal StoreFile Store StoreSpec.
From S2P Require Import StorePublish StoreTxn ReadView ReadViewSpec.

Module ReadViewLoad.
Import DurableFile Core Tree TreeSearch TreeInsert TreeOps TreeTxn MemStore StoreSpec StorePublish StoreTxn ReadView ReadViewSpec.

(** ** The pages of the tree *)

Lemma in_option_list {A} (o : option A) x : x ∈ option_list o → o = Some x.
Proof. destruct o; cbn; [by intros ->%list_elem_of_singleton|by intros ?%not_elem_of_nil]. Qed.

(** A page that the tree uses: a page of the tree itself or of a value. *)
Definition live (V : view_t) (G : labels) (id : PageId) : Prop :=
  (∃ h lo hi, G !! id = Some (RTree h lo hi)) ∨
  (∃ k total ids v, chain V (Some id) total ids v ∧ Forall (λ i, G !! i = Some (RValue (Some k))) ids).

Section live.
Context {B : Type} {CB : Overlay.CommittedStore B} {SP : CommittedStoreSpec B}.
Context (o : Overlay.Overlay B) (G : labels) (ht : nat) (fl : list PageId) (db : database).
Context (Hi : inv o ∅ G G ht fl db).
Abbreviation V := (view o).

Lemma live_leaf lo hi lsn next es :
  leaf_ok V G db lo hi next es → ∀ r, r ∈ references (Format.Leaf lsn next es) → live V G r.
Proof.
  intros HL r [Hr|Hr]%elem_of_app.
  - left. apply in_option_list in Hr as ->. destruct (leaf_chain _ _ _ _ _ _ _ HL) as (b & hi' & _ & Hn). eauto.
  - right. apply list_elem_of_omap in Hr as (e & He & Hv). destruct (leaf_entry_in _ _ _ _ _ _ _ _ HL He) as (ov & _ & Ho).
    destruct (Format.value e) as [[x|head total]|]; simplify_eq/=. destruct Ho as (ids & v & _ & Hc & _ & _ & _ & _ & HF).
    by exists (Format.key e), total, ids, v.
Qed.

Lemma live_internal h lo hi lsn lm es :
  children_ok G h lo lm es hi → ∀ r, r ∈ references (Format.Internal lsn lm es) → live V G r.
Proof.
  intros Hc r Hr. left. destruct (children_in G h lo lm es hi r (inv_labels _ _ _ _ _ _ _ Hi) Hc Hr) as (a & b & ? & _). eauto.
Qed.

(** The pages of the tree are there, and name only pages of the tree. *)
Lemma live_page id :
  live V G id → Overlay.FIRST_DATA_PAGE ≤ id ≤ Overlay.high_water_page_id o ∧
  ∃ p, V id = Some p ∧ ¬ is_free p ∧ ∀ r, r ∈ references p → live V G r.
Proof.
  intros [(h & lo & hi & Hid)|(k & total & ids & v & Hc & HF)].
  - split; [by eapply (inv_range _ _ _ _ _ _ _ Hi)|].
    pose proof (inv_pages _ _ _ _ _ _ _ Hi _ _ Hid ltac:(set_solver)) as Hp. destruct h as [|h]; simpl in Hp.
    + destruct Hp as (lsn & next & es & Hv & _ & HL). eexists. split; [exact Hv|]. split; [naive_solver|].
      by eapply live_leaf.
    + destruct Hp as (lsn & lm & es & Hv & _ & Hch). eexists. split; [exact Hv|]. split; [naive_solver|].
      by eapply live_internal.
  - destruct ids as [|i ids]; [by destruct Hc|]. destruct Hc as ([= <-] & lsn & next & c & v' & Hv & -> & Hc).
    apply Forall_cons in HF as [Hl HF]. split; [by eapply (inv_range _ _ _ _ _ _ _ Hi)|].
    eexists. split; [exact Hv|]. split; [naive_solver|]. intros r Hr. cbn in Hr. apply in_option_list in Hr as ->.
    right. by exists k, total, ids, v'.
Qed.
End live.

(** ** The loop *)

(** Every page of [m] names pages of [m] or of [rest] only. *)
Definition closed_upto (m : gmap PageId Format.PageData) (rest : list PageId) : Prop :=
  ∀ id p, m !! id = Some p → ∀ r, r ∈ references p → r ∈ dom m ∨ r ∈ rest.

Section load.
Context `{C : Crc32c} `{FS : DurableFileSpec F} `{DW : DurableFile W} `{FI : FaultInjector J}.
Abbreviation Store := (Store.BTreeStore F W J).
Implicit Types (b : Store) (loaded : gmap PageId Format.PageData).

Lemma read_only_page b0 b id p :
  read_only b0 b → 0 ≤ id → committed_page b0 id = Some p →
  wp (Store.read_page_from_file id) (λ q b', q = p ∧ read_only b0 b') noerr b.
Proof.
  intros [R1 R2 R3 [R4 R5]] Hid Hp. pose proof (read_page_outcome id b R1 Hid) as Hr. unfold wp.
  destruct (Store.read_page_from_file id b) as [r b']. destruct Hr as (Hok & f' & -> & Hf).
  rewrite R3, Hp in Hok. destruct r as [q|e|k]; [|done..]. injection Hok as ->. split; [done|]. split.
  - by apply serving_same_file.
  - exact R2.
  - intros i. rewrite <-R3. apply committed_same_file, Hf.
  - destruct R4. split; [|done]. split; try done. cbn. by etrans.
Qed.

Lemma load_eq fuel hw pending loaded :
  load (F:=F) (W:=W) (J:=J) fuel hw pending loaded =
  match pending with
  | [] => mret loaded
  | page_id :: pending' =>
      fail_when ((page_id <? Overlay.FIRST_DATA_PAGE) || (hw <? page_id))
        (Corruption "committed read view contains an out-of-range page");;
      match loaded !! page_id with
      | Some _ => load fuel hw pending' loaded
      | None =>
          p ← Store.read_page_from_file page_id;
          match fuel with
          | O => lift_r (Stuck OutOfFuel)
          | S fuel' => load fuel' hw (reverse (references p) ++ pending') (<[page_id := p]> loaded)
          end
      end
  end.
Proof. by destruct fuel, pending. Qed.

Context (b0 : Store) (hw : Z) (L : PageId → Prop).
Context (Hhw : Overlay.FIRST_DATA_PAGE ≤ hw).
Context (HL : ∀ id, L id → Overlay.FIRST_DATA_PAGE ≤ id ≤ hw ∧
  ∃ p, committed_page b0 id = Some p ∧ ¬ is_free p ∧ ∀ r, r ∈ references p → L r).

(** What has been loaded so far. *)
Record loading loaded (pending : list PageId) : Prop := {
  ld_pending : ∀ id, id ∈ pending → L id;
  ld_loaded : ∀ id p, loaded !! id = Some p → L id ∧ committed_page b0 id = Some p;
  ld_closed : closed_upto loaded pending;
}.

Lemma loading_bound loaded pending : loading loaded pending → Z.of_nat (size loaded) ≤ hw - 1.
Proof.
  intros [_ Hl _]. rewrite <-size_dom. apply visited_bound; [done|]. intros i [p Hp]%elem_of_dom.
  by apply Hl in Hp as [[]%HL _].
Qed.

Lemma loading_skip loaded id p pending : loading loaded (id :: pending) → loaded !! id = Some p → loading loaded pending.
Proof.
  intros [L1 L2 L3] Hid. split; [intros; apply L1; by right|done|].
  intros i q Hq r Hr. destruct (L3 i q Hq r Hr) as [?|[->|?]%elem_of_cons]; [by left|left|by right]. by apply elem_of_dom_2 in Hid.
Qed.

Lemma loading_add loaded id p pending :
  loading loaded (id :: pending) → committed_page b0 id = Some p →
  loading (<[id := p]> loaded) (reverse (references p) ++ pending).
Proof.
  intros [L1 L2 L3] Hp. destruct (HL id) as (_ & p' & Hp' & _ & Hrefs); [apply L1; left|].
  assert (p' = p) as -> by congruence. split.
  - intros i Hin. apply elem_of_app in Hin as [Hr|Hr].
    { apply Hrefs.
      by apply elem_of_reverse. }
    apply L1. by right.
  - intros i q. rewrite lookup_insert_Some. intros [[<- <-]|[_ Hq]]; [|auto]. split; [|done]. apply L1. left.
  - intros i q. rewrite lookup_insert_Some, dom_insert_L. intros [[<- <-]|[_ Hq]] r Hr.
    + right. apply elem_of_app. left. by apply elem_of_reverse.
    + destruct (L3 i q Hq r Hr) as [?|[->|?]%elem_of_cons]; [left; set_solver|left; set_solver|right; set_solver].
Qed.

(** The specification of the loop for one stack. *)
Definition load_ok fuel (pending : list PageId) : Prop := ∀ loaded b,
  read_only b0 b → loading loaded pending → hw ≤ Z.of_nat fuel + Z.of_nat (size loaded) →
  wp (load fuel hw pending loaded)
    (λ loaded' b', read_only b0 b' ∧ loading loaded' [] ∧ loaded ⊆ loaded' ∧ ∀ id, id ∈ pending → id ∈ dom loaded')
    noerr b.

Lemma load_cons fuel id pending :
  load_ok fuel pending → (∀ fuel' stack, fuel = S fuel' → load_ok fuel' stack) → load_ok fuel (id :: pending).
Proof.
  intros IHp IHf loaded b Hb Hld Hfuel. rewrite load_eq.
  destruct (HL id) as (Hrange & p & Hp & _ & _); [apply (ld_pending _ _ Hld); left|]. wp_step.
  apply wp_fail_when; [intros [?%Z.ltb_lt|?%Z.ltb_lt]%orb_true_iff; lia|intros _].
  destruct (loaded !! id) as [q|] eqn:Eq.
  - wp_use (IHp loaded b Hb (loading_skip _ _ _ _ Hld Eq) Hfuel); [|done]. intros m b' (R1 & R2 & R3 & R4).
    split_and!; [done..|]. intros i [->|?]%elem_of_cons; [|auto]. apply elem_of_dom_2 in Eq.
    by apply (subseteq_dom _ _ R3).
  - wp_step. wp_use (read_only_page b0 b id p Hb); [unfold Overlay.FIRST_DATA_PAGE in *; lia|done| |done].
    intros x b1 [-> Hb1]. pose proof (loading_add _ _ _ _ Hld Hp) as Hld1. pose proof (loading_bound _ _ Hld1) as Hsize.
    rewrite map_size_insert_None in Hsize by done. destruct fuel as [|fuel]; [lia|].
    wp_use (IHf fuel (reverse (references p) ++ pending) eq_refl _ _ Hb1 Hld1);
      [rewrite map_size_insert_None by done; lia| |done].
    intros m b' (R1 & R2 & R3 & R4). split_and!; [done|done| |].
    + etrans; [|done]. by apply insert_subseteq.
    + intros i [->|Hpend]%elem_of_cons; [|apply R4, elem_of_app; by right]. apply (subseteq_dom _ _ R3).
      rewrite dom_insert_L. set_solver.
Qed.

Lemma load_spec fuel pending : load_ok fuel pending.
Proof.
  revert pending. induction fuel as [|fuel IHf]; intros pending; (induction pending as [|id pending IHp];
    [intros loaded b Hb Hld Hfuel; rewrite load_eq; apply wp_ret; split_and!; [done..|by intros i ?%not_elem_of_nil]|]);
    apply load_cons; [done|done|done|]. by intros fuel' stack [= <-].
Qed.
End load.

(** ** Keeping only some pages *)

Section reduce.
Context (V : view_t) (P : gmap PageId Format.PageData).
Context (HP : ∀ id p, P !! id = Some p → V id = Some p).
Context (HC : ∀ id p, P !! id = Some p → ¬ is_free p → ∀ r, r ∈ references p → r ∈ dom P).
Abbreviation V' := (λ id, P !! id).

(** The labels of the pages that are kept. *)
Definition kept_labels (G : labels) : labels := filter (λ x, x.1 ∈ dom P) G.

Lemma kept_lookup G id r : kept_labels G !! id = Some r ↔ G !! id = Some r ∧ id ∈ dom P.
Proof. apply map_lookup_filter_Some. Qed.

Lemma kept_page id p : V id = Some p → id ∈ dom P → P !! id = Some p.
Proof. intros Hv [q Hq]%elem_of_dom. apply HP in Hq as Hq'. congruence. Qed.

Lemma kept_chain head total ids v :
  chain V head total ids v → (∀ h, head = Some h → h ∈ dom P) →
  chain V' head total ids v ∧ Forall (λ i, i ∈ dom P) ids.
Proof.
  revert head v. induction ids as [|id ids IH]; intros head v; simpl; [by intros [-> ->]|].
  intros (-> & lsn & next & c & v' & Hv & -> & Hc) Hh. specialize (Hh _ eq_refl).
  apply kept_page in Hv; [|done]. destruct (IH _ _ Hc) as [IH1 IH2].
  { intros h ->. eapply HC; [done|by intros []|]. cbn. by apply list_elem_of_singleton. }
  split; [|by constructor]. split; [done|]. by exists lsn, next, c, v'.
Qed.

Lemma kept_value G owner vr ov :
  value_at V G owner vr ov → (∀ head total, vr = Some (Format.OverflowRef head total) → head ∈ dom P) →
  value_at V' (kept_labels G) owner vr ov.
Proof.
  destruct vr as [[v|head total]|]; simpl; [done| |done].
  intros (ids & v & -> & Hc & Hl & H0 & Hn & Hm & HF) Hh.
  destruct (kept_chain _ _ _ _ Hc) as [Hc' Hd]; [intros h [= <-]; by eapply Hh|].
  exists ids, v. split_and!; try done; try apply H0. clear -HF Hd.
  induction HF; inversion_clear Hd; constructor; [by apply kept_lookup|auto].
Qed.

Lemma kept_children G h lo lm es hi :
  children_ok G h lo lm es hi → (∀ c, c ∈ children lm es → c ∈ dom P) → children_ok (kept_labels G) h lo lm es hi.
Proof.
  revert lo lm. induction es as [|e es IH]; intros lo lm; simpl.
  - intros Hc Hd. apply kept_lookup. split; [done|]. apply Hd. left.
  - intros [Hc Hr] Hd. split; [apply kept_lookup; split; [done|apply Hd; left]|]. apply IH; [done|].
    intros c Hcc. apply Hd. by right.
Qed.

Lemma kept_page_ok G db id h lo hi :
  id ∈ dom P → page_ok V G G db id (RTree h lo hi) →
  page_ok V' (kept_labels G) (kept_labels G) db id (RTree h lo hi).
Proof.
  intros Hid. destruct h as [|h]; simpl.
  - intros (lsn & next & es & Hv & Hst & HL). apply kept_page in Hv; [|done].
    pose proof (HC _ _ Hv ltac:(by intros [])) as Hrefs. exists lsn, next, es. split; [done|]. split; [done|].
    pose proof HL as [L1 L2 L3 L4]. split; [done|done| |].
    + destruct next as [n|]; [|done]. destruct L3 as (b & hi' & -> & Hn). exists b, hi'. split; [done|].
      apply kept_lookup. split; [done|]. apply Hrefs. cbn. left.
    + intros k Hk. specialize (L4 k Hk). unfold denotes in *. destruct (Overlay.find_entry es k) as [e|] eqn:Ef; [|done].
      destruct (db !! k) as [[r ov]|]; [|done]. destruct L4 as [-> Hval]. split; [done|]. apply kept_value; [done|].
      intros head total E. apply Hrefs. cbn [references]. apply elem_of_app. right. apply list_elem_of_omap.
      apply find_entry_Some in Ef as [He _]. exists e. split; [done|]. by rewrite E.
  - intros (lsn & lm & es & Hv & Hst & Hc). apply kept_page in Hv; [|done].
    pose proof (HC _ _ Hv ltac:(by intros [])) as Hrefs. exists lsn, lm, es. split; [done|]. split; [done|].
    apply kept_children; [done|]. intros c Hcc. by apply Hrefs.
Qed.
End reduce.

(** ** The view of a store *)

(** Pages of a list, as a map. *)
Definition pages_of (V : view_t) (ids : list PageId) : gmap PageId Format.PageData :=
  list_to_map (omap (λ id, (id,.) <$> V id) ids).

Lemma pages_of_lookup V ids id p : pages_of V ids !! id = Some p → V id = Some p ∧ id ∈ ids.
Proof.
  intros Hp%elem_of_list_to_map_2. apply list_elem_of_omap in Hp as (i & Hi & Hv).
  destruct (V i) eqn:E; simplify_eq/=. by split.
Qed.

Lemma pages_of_elem V ids id p : id ∈ ids → V id = Some p → id ∈ dom (pages_of V ids).
Proof.
  intros Hid Hv. unfold pages_of. apply elem_of_dom. rewrite <-not_eq_None_Some. intros Hn%not_elem_of_list_to_map_2.
  apply Hn. change id with (fst (id, p)). apply list_elem_of_fmap_2, list_elem_of_omap. exists id. by rewrite Hv.
Qed.

Lemma free_chain_pages V head fl id : free_chain V head fl → id ∈ fl → ∃ lsn next, V id = Some (Format.Free lsn next).
Proof.
  revert head. induction fl as [|i fl IH]; intros head; simpl; [by intros _ ?%not_elem_of_nil|].
  intros (-> & lsn & next & Hv & Hc) [->|?]%elem_of_cons; eauto.
Qed.

Section from_store.
Context `{C : Crc32c} {CS : Crc32cSpec C} `{FS : DurableFileSpec F} `{WS : DurableFileSpec W} `{JS : FaultInjectorSpec J}.
Abbreviation Store := (Store.BTreeStore F W J).
Implicit Types (b : Store) (P : gmap PageId Format.PageData).

(** A closed part of the store that has the root and the free list runs alone. *)
Lemma represents_closed n b s G ht fl P :
  inv (Overlay.overlay_new b) ∅ G G ht fl (abs s) → capacity (Overlay.overlay_new b) ht n → idle (Overlay.overlay_new b) →
  revisions_lt (abs s) (Store.next_revision b) →
  (∀ id p, P !! id = Some p → committed_page b id = Some p) →
  (∀ id p, P !! id = Some p → ¬ is_free p → ∀ r, r ∈ references p → r ∈ dom P) →
  Store.root_page_id b ∈ dom P → (∀ id, id ∈ fl → id ∈ dom P) →
  represents n (Overlay.overlay_new (reduced b P)) s.
Proof.
  intros Hi Hcap [D1 D2 D3 D4 D5 D6] Hrev HP HC Hroot Hfl. exists (kept_labels P G), ht, fl.
  assert (Hv : ∀ i, view (Overlay.overlay_new b) i = committed_page b i) by done.
  assert (Hkl : ∀ id r, kept_labels P G !! id = Some r → G !! id = Some r ∧ id ∈ dom P) by (intros; by apply kept_lookup).
  split_and!; [|done| |done].
  - destruct Hi as [I1 I2 I3 I4 I5 I6 I7 I8 I9 I10 I11 I12 I13]. split; try done.
    + intros id r [Hid _]%Hkl. by eapply I2.
    + by apply kept_lookup.
    + intros id h lo hi [Hid _]%Hkl. eauto.
    + destruct I6 as [L1 L2]. split; [intros id h lo hi [Hid _]%Hkl; eauto|].
      intros id id' h lo hi lo' hi' k [Hid _]%Hkl [Hid' _]%Hkl. eauto.
    + intros id [h lo hi| |] [Hid Hd]%Hkl HD; [|done..]. eapply kept_page_ok; [exact HP|exact HC|done|]. by apply I7.
    + eapply free_chain_frame; [|exact I8]. intros id Hid. destruct (free_chain_pages _ _ _ _ I8 Hid) as (lsn & next & Hf).
      rewrite Hf. unfold view. cbn. by eapply kept_page; [exact HP|exact Hf|auto].
    + intros id Hid. apply kept_lookup. auto.
    + intros id h lo hi [Hid _]%Hkl. eauto.
  - split; try done. intros id p Hp. apply (D4 id). by apply HP.
Qed.

Lemma from_store_spec n b ss s :
  store_ok n b ss s → wp from_store (λ v b', view_follows n v b' s ∧ read_only b b') noerr b.
Proof.
  intros [(G & ht & fl & Hi & Hcap & Hd & Hr) _ _]. unfold from_store. wp_steps.
  set (L := live (view (Overlay.overlay_new b)) G).
  assert (HL : ∀ id, L id → Overlay.FIRST_DATA_PAGE ≤ id ≤ Store.high_water_page_id b ∧
    ∃ p, committed_page b id = Some p ∧ ¬ is_free p ∧ ∀ r, r ∈ references p → L r) by (intros id; by apply (live_page _ _ _ _ _ Hi)).
  pose proof (inv_high _ _ _ _ _ _ _ Hi) as Hhw. cbn in Hhw. pose proof (inv_root _ _ _ _ _ _ _ Hi) as Hroot. cbn in Hroot.
  wp_use (load_spec b (Store.high_water_page_id b) L (proj1 Hhw) HL (S (Z.to_nat (Store.high_water_page_id b)))
    [Store.root_page_id b] ∅ b); [split; [apply Hi|done|done|apply untouched_refl]| | | |done].
  { split; [|by intros id p Hp%lookup_empty_Some|by intros id p Hp%lookup_empty_Some].
    intros id ->%list_elem_of_singleton. left. eauto. }
  { rewrite map_size_empty. lia. }
  intros m b' (R1 & [_ M1 M2] & _ & Hin). apply wp_ret. split; [|done].
  eapply (view_follows_same n n _ b); [done|apply R1|apply R1|]. split; [done|done|intros id p Hp; by apply M1|].
  set (V := view (Overlay.overlay_new b)) in *. exists (m ∪ pages_of V fl).
  assert (Hu : ∀ id p, (m ∪ pages_of V fl) !! id = Some p →
    m !! id = Some p ∨ V id = Some p ∧ id ∈ fl).
  { intros id p [?|[_ Hp]]%lookup_union_Some_raw; [by left|right]. by apply pages_of_lookup. }
  assert (Hfree : ∀ id p, V id = Some p → id ∈ fl → is_free p).
  { intros id p Hp Hid. destruct (free_chain_pages _ _ _ _ (inv_free _ _ _ _ _ _ _ Hi) Hid) as (lsn & next & E).
    fold V in E. rewrite Hp in E. by injection E as ->. }
  assert (HP : ∀ id p, (m ∪ pages_of V fl) !! id = Some p → committed_page b id = Some p).
  { intros id p [Hp|[Hp _]]%Hu; [by apply M1|done]. }
  split; [done|]. split; [intros id p [?|[Hp Hid]]%Hu Hf; [done|by destruct Hf; eauto]|].
  eapply represents_closed; try done; rewrite dom_union_L.
  - intros id p [Hp|[Hp Hid]]%Hu Hf r Hrr; [|by destruct Hf; eauto]. apply elem_of_union. left.
    destruct (M2 _ _ Hp _ Hrr) as [?|?%not_elem_of_nil]; done.
  - apply elem_of_union. left. apply Hin. left.
  - intros id Hid. apply elem_of_union. right.
    destruct (free_chain_pages _ _ _ _ (inv_free _ _ _ _ _ _ _ Hi) Hid) as (lsn & next & E). by eapply pages_of_elem.
Qed.
End from_store.
End ReadViewLoad.
