(* ===== verification/Coordinator.v ===== *)
(** * The coordinator of a shard

    Models the rest of src/crates/dodb-storage/src/btree/coordinator.rs: clients put
    requests into a bounded queue, one task takes them out in groups, runs each run of
    mutations as one group commit and every other request alone, publishes the changed
    pages to the read view and then answers; plain reads use the read view and never
    enter the queue.

    The queue is a channel of the tokio library: the class [Mpsc], with the documented
    behaviour as its laws [MpscSpec].  A one-shot response channel is a ticket, and the
    answers that were sent are a map of tickets.  The task is a state machine: its
    phases are the places where it can be interrupted, and [coordinate] is the step
    from one to the next.  Where [select!] chooses, the step takes the choice.  The
    locks are never poisoned: no code that can panic runs while one is held for
    writing.  The close signal is the one-shot channel that [shutdown] sends on and that
    also fires when the shard is dropped.  Times are nanoseconds since some instant. *)

From S2P Require Import Prelude Key Core Page Format Overlay DurableFile Wal StoreFile Checker Store ReadView.

(** ** Channels *)

Inductive TrySendError : Type := Full | Closed.
Inductive TryRecvError : Type := Empty | Disconnected.

Class Mpsc (T Q : Type) : Type := {
  channel : Z → Q;
  try_send : T → Q → option TrySendError * Q;
  try_recv : Q → (TryRecvError + T) * Q;
  drop_receiver : Q → Q;
}.

Class MpscSpec (T Q : Type) {M : Mpsc T Q} : Type := {
  contents : Q → list T;
  queue_limit : Q → Z;
  receiving : Q → bool;
  channel_spec : ∀ n, 0 < n → contents (channel n) = [] ∧ queue_limit (channel n) = n ∧ receiving (channel n) = true;
  try_send_spec : ∀ x q,
    match try_send x q with
    | (None, q') => receiving q = true ∧ len (contents q) < queue_limit q ∧ contents q' = contents q ++ [x] ∧
        queue_limit q' = queue_limit q ∧ receiving q' = true
    | (Some Full, q') => q' = q ∧ receiving q = true ∧ queue_limit q ≤ len (contents q)
    | (Some Closed, q') => q' = q ∧ receiving q = false
    end;
  try_recv_spec : ∀ q, receiving q = true →
    match try_recv q with
    | (inr x, q') => contents q = x :: contents q' ∧ queue_limit q' = queue_limit q ∧ receiving q' = true
    | (inl _, q') => q' = q ∧ contents q = []
    end;
  drop_receiver_spec : ∀ q, contents (drop_receiver q) = [] ∧ receiving (drop_receiver q) = false;
}.

(** A queue that keeps its items in a list. *)
Record Fifo (T : Type) : Type := mkFifo { fifo_items : list T; fifo_capacity : Z; fifo_open : bool }.
#[global] Arguments mkFifo {T}.
#[global] Arguments fifo_items {T} _.
#[global] Arguments fifo_capacity {T} _.
#[global] Arguments fifo_open {T} _.

#[global] Instance fifo_mpsc {T} : Mpsc T (Fifo T) := {
  channel n := mkFifo [] n true;
  try_send x q :=
    if negb (fifo_open q) then (Some Closed, q)
    else if fifo_capacity q <=? len (fifo_items q) then (Some Full, q)
    else (None, mkFifo (fifo_items q ++ [x]) (fifo_capacity q) true);
  try_recv q :=
    match fifo_items q with
    | x :: l => (inr x, mkFifo l (fifo_capacity q) (fifo_open q))
    | [] => (inl Empty, q)
    end;
  drop_receiver q := mkFifo [] (fifo_capacity q) false;
}.

#[global] Program Instance fifo_spec {T} : MpscSpec T (Fifo T) := {
  contents := fifo_items;
  queue_limit := fifo_capacity;
  receiving := fifo_open;
}.
Next Obligation. done. Qed.
Next Obligation.
  intros T x [l n []]; cbn; [|done]. destruct (Z.leb_spec n (len l)); cbn; [done|]. done.
Qed.
Next Obligation. by intros T [[|x l] n []]. Qed.
Next Obligation. done. Qed.

Module Coordinator.
Import Core Overlay.

(** ** Requests *)

Record CoordinatorConfig : Type := mkCoordinatorConfig {
  queue_capacity : Z;
  max_group_requests : Z;
  max_group_bytes : Z;
  max_collection_delay : Z;
}.
Definition default_config : CoordinatorConfig := mkCoordinatorConfig 256 64 (4 * 1024 * 1024) 0.

(** The [effective_config] of [start_with_config]. *)
Definition effective (c : CoordinatorConfig) : CoordinatorConfig :=
  mkCoordinatorConfig (Z.max (queue_capacity c) 1) (Z.max (max_group_requests c) 1)
    (Z.max (max_group_bytes c) 1) (max_collection_delay c).

Record CoordinatorMetrics : Type := mkCoordinatorMetrics {
  groups : Z;
  queued_requests : Z;
  logical_transactions : Z;
  overloaded_requests : Z;
  queue_wait_nanos : Z;
  batch_collection_nanos : Z;
  processing_nanos : Z;
  metric_max_group_requests : Z;
  metric_max_group_bytes : Z;
}.
Definition no_metrics : CoordinatorMetrics := mkCoordinatorMetrics 0 0 0 0 0 0 0 0 0.

Inductive CoordinatorOperation : Type :=
  | Batch (request : BatchRequest) (max_response_bytes : Z)
  | Transaction (request : TransactionRequest)
  | TransactGet (keys : list DocumentKey) (max_response_bytes : Z)
  | Observe (keys : list DocumentKey)
  | Checkpoint
  | CheckInvariants.

Inductive CoordinatorResponse : Type :=
  | RBatch (response : BatchResponse)
  | RTransaction (r : TransactionResult)
  | RTransactGet (states : list RevisionState)
  | RObserve (states : list ObservedState)
  | RCheckpoint (report : Store.CheckpointReport)
  | RInvariants (report : Checker.InvariantReport).

Abbreviation Ticket := nat.
Abbreviation answer := (Result Error CoordinatorResponse).

Record QueuedRequest : Type := mkQueued {
  operation : CoordinatorOperation;
  response_tx : Ticket;
  enqueued_at : Z;
}.

Definition is_mutation (op : CoordinatorOperation) : bool :=
  match op with
  | Batch (ReqPut _ _) _ | Batch (ReqDelete _) _ | Transaction _ => true
  | _ => false
  end.

Definition as_transaction_request (op : CoordinatorOperation) : result TransactionRequest :=
  match op with
  | Batch (ReqPut key value) _ => Ok (mkRequest [] [Put key value])
  | Batch (ReqDelete key) _ => Ok (mkRequest [] [Delete key])
  | Transaction request => Ok request
  | _ => Err (InternalInvariantViolation "non-mutation operation cannot be committed")
  end.

Definition batch_error (e : Error) : Error :=
  match e with
  | InvalidInput m => InvalidInput ("batch was not published: " +:+ m)
  | InvalidRequest m => InvalidRequest ("batch was not published: " +:+ m)
  | Overloaded m => Overloaded m
  | ResponseTooLarge m => ResponseTooLarge m
  | Conflict c => Conflict c
  | Corruption m => Corruption ("batch was not published: " +:+ m)
  | Io kind m => Io kind ("batch was not published: " +:+ m)
  | UnsupportedFormat m => UnsupportedFormat ("batch was not published: " +:+ m)
  | DurabilityFailure m => DurabilityFailure ("batch was not published: " +:+ m)
  | RecoveryFailure m => RecoveryFailure ("batch was not published: " +:+ m)
  | CheckpointFailure m => CheckpointFailure ("batch was not published: " +:+ m)
  | InternalInvariantViolation m => InternalInvariantViolation ("batch was not published: " +:+ m)
  end.

(** [.fold(0usize, usize::saturating_add)]. *)
Definition saturating_sum (l : list Z) : Z := foldl saturating_add 0 l.

Definition encoded_len (key : DocumentKey) : Z := len (Key.encode key).

Definition mutation_size (m : TransactionMutation) : Z :=
  match m with
  | Put key value => saturating_add (saturating_add (encoded_len key) (len value)) 32
  | Delete key => saturating_add (encoded_len key) 32
  end.

Definition operation_size (op : CoordinatorOperation) : Z :=
  match op with
  | Batch (ReqPut key value) _ => saturating_add (saturating_add (encoded_len key) (len value)) 64
  | Batch (ReqDelete key) _ => saturating_add (encoded_len key) 64
  | Batch (ReqGet key) _ => encoded_len key
  | Batch (ReqQuery pk after _) _ =>
      saturating_add (len pk) (match after with Some sk => len sk | None => 0 end)
  | Batch (ReqScan after _) _ => match after with Some key => encoded_len key | None => 0 end
  | Transaction request =>
      saturating_sum
        (((λ c, saturating_add (encoded_len (condition_key c)) 32) <$> conditions request)
         ++ (mutation_size <$> mutations request))
  | TransactGet keys _ => saturating_sum (encoded_len <$> keys)
  | Observe keys => saturating_sum (encoded_len <$> keys)
  | Checkpoint => 0
  | CheckInvariants => 0
  end.

(** [started.elapsed().as_nanos().try_into().unwrap_or(u64::MAX)]. *)
Definition elapsed_nanos (started now : Z) : Z := Z.min (Z.max (now - started) 0) U64_MAX.

(** ** Metrics *)

Definition record_overload (m : CoordinatorMetrics) : CoordinatorMetrics :=
  mkCoordinatorMetrics (groups m) (queued_requests m) (logical_transactions m)
    (saturating_add (overloaded_requests m) 1) (queue_wait_nanos m) (batch_collection_nanos m)
    (processing_nanos m) (metric_max_group_requests m) (metric_max_group_bytes m).

Definition record_group (group_requests transactions group_bytes wait collection : Z)
    (m : CoordinatorMetrics) : CoordinatorMetrics :=
  mkCoordinatorMetrics (saturating_add (groups m) 1) (saturating_add (queued_requests m) group_requests)
    (saturating_add (logical_transactions m) transactions) (overloaded_requests m)
    (saturating_add (queue_wait_nanos m) wait) (saturating_add (batch_collection_nanos m) collection)
    (processing_nanos m) (Z.max (metric_max_group_requests m) group_requests)
    (Z.max (metric_max_group_bytes m) group_bytes).

Definition record_processing (nanos : Z) (m : CoordinatorMetrics) : CoordinatorMetrics :=
  mkCoordinatorMetrics (groups m) (queued_requests m) (logical_transactions m) (overloaded_requests m)
    (queue_wait_nanos m) (batch_collection_nanos m) (saturating_add (processing_nanos m) nanos)
    (metric_max_group_requests m) (metric_max_group_bytes m).

(** ** Collecting a group *)

Definition can_add (request_count current_bytes request_bytes : Z) (c : CoordinatorConfig) : bool :=
  (request_count =? 0)
  || (request_count <? max_group_requests c)
     && ((current_bytes =? 0) || (saturating_add current_bytes request_bytes <=? max_group_bytes c)).

(** The local variables of [collect_group]. *)
Record Collection : Type := mkCollection {
  started : Z;
  requests : list QueuedRequest;
  bytes_collected : Z;
  set_aside : option QueuedRequest;
}.

Definition collect_first (now : Z) (first : QueuedRequest) : Collection :=
  mkCollection now [first] (operation_size (operation first)) None.

(** What both loops do with a request they received. *)
Definition collect (c : CoordinatorConfig) (x : Collection) (request : QueuedRequest) : Collection :=
  let request_bytes := operation_size (operation request) in
  if can_add (len (requests x)) (bytes_collected x) request_bytes c then
    mkCollection (started x) (requests x ++ [request])
      (saturating_add (bytes_collected x) request_bytes) (set_aside x)
  else mkCollection (started x) (requests x) (bytes_collected x) (Some request).

(** Whether the second loop is entered. *)
Definition waits_for_more (c : CoordinatorConfig) (x : Collection) : bool :=
  (1 <? len (requests x)) && match set_aside x with None => true | Some _ => false end
  && (len (requests x) <? max_group_requests c) && (0 <? max_collection_delay c).

(** ** The read view *)

Record ReadViewState : Type := mkReadViewState {
  read_view : option ReadView.CommittedReadView;
  view_broken : option string;
}.

Definition mark_read_view_broken (message : string) (s : ReadViewState) : ReadViewState :=
  mkReadViewState (read_view s) (Some message).

(** [try_read]; [None] sends the request to the queue. *)
Definition try_read (s : ReadViewState) (request : BatchRequest) (max_response_bytes : Z)
    : option (Result Error BatchResponse) :=
  match view_broken s with
  | Some message => Some (Err (Store.not_serving message))
  | None =>
      match read_view s with
      | None => None
      | Some view =>
          match budget_new max_response_bytes with
          | Err e => Some (Err e)
          | Stuck k => Some (Stuck k)
          | Ok budget =>
              match request with
              | ReqGet key => Some (RespGet <$> (ReadView.get_with_budget view key budget).1)
              | ReqQuery pk after limit =>
                  Some (RespQuery <$> (ReadView.query_with_budget view pk after limit budget).1)
              | ReqScan after limit =>
                  Some (RespScan <$> (ReadView.scan_with_budget view after limit budget).1)
              | ReqPut _ _ | ReqDelete _ => None
              end
          end
      end
  end.

Section coordinator.
Context `{C : Crc32c} `{DF : DurableFile.DurableFile F} `{DW : DurableFile.DurableFile W} `{FI : DurableFile.FaultInjector J}.
Abbreviation Store := (Store.BTreeStore F W J).
Abbreviation SM := (St (Store.BTreeStore F W J) Error).

(** ** Running a segment *)

(** The answer to a mutation, from the result of its transaction. *)
Definition mutation_response (op : CoordinatorOperation) (r : Result Error TransactionResult) : answer :=
  transaction ← r;
  match op with
  | Batch (ReqPut _ _) _ =>
      commit_lsn ← ok_or (commit_lsn transaction) (InternalInvariantViolation "put transaction has no commit LSN");
      Ok (RBatch (RespPut (Revision_from commit_lsn)))
  | Batch (ReqDelete _) _ =>
      commit_lsn ← ok_or (commit_lsn transaction) (InternalInvariantViolation "delete transaction has no commit LSN");
      Ok (RBatch (RespDelete (Revision_from commit_lsn)))
  | Transaction _ => Ok (RTransaction transaction)
  | _ => Stuck Panicked
  end.

Fixpoint transaction_requests (ops : list CoordinatorOperation) : result (list TransactionRequest) :=
  match ops with
  | [] => Ok []
  | op :: ops' => q ← as_transaction_request op; qs ← transaction_requests ops'; Ok (q :: qs)
  end.

(** One request on its own; the error is the request's answer. *)
Definition process_one (op : CoordinatorOperation) : SM CoordinatorResponse :=
  match op with
  | Batch request max_response_bytes =>
      rs ← Store.apply_batch_with_response_budget [request] max_response_bytes;
      match rs with r :: _ => mret (RBatch r) | [] => lift_r (Stuck Panicked) end
  | Transaction request => RTransaction <$> Store.transact request
  | TransactGet keys max_response_bytes =>
      RTransactGet <$> Store.transact_get_with_response_budget keys max_response_bytes
  | Observe keys => RObserve <$> Store.observe keys
  | Checkpoint => RCheckpoint <$> Store.checkpoint
  | CheckInvariants => RInvariants <$> Store.check_invariants
  end.

(** Runs a computation and turns its error into a value; a panic stays one. *)
Definition attempt {A} (m : SM A) : SM (Result Error A) := λ b,
  match m b with
  | (Stuck k, b') => (Stuck k, b')
  | (r, b') => (Ok r, b')
  end.

Definition process_segment (ops : list CoordinatorOperation) : SM (list answer) :=
  if forallb is_mutation ops then
    qs ← lift_r (transaction_requests ops);
    results ← Store.apply_transaction_group qs;
    mret (zip_with mutation_response ops results)
  else map_each (λ op, attempt (process_one op)) ops.

(** [operation_end - operation_start]: a run of mutations, or a single request. *)
Definition segment_length (ops : list CoordinatorOperation) : nat :=
  match ops with
  | [] => 0
  | op :: _ => if is_mutation op then partition_point is_mutation ops else 1
  end.

Definition publish_read_updates (b : Store) (s : ReadViewState) : Store * ReadViewState :=
  let updates := Store.published_page_updates b in
  let b := Store.set_published (Store.track_published_pages b) ∅ b in
  if bool_decide (updates = ∅) then (b, s)
  else (b, mkReadViewState
             (ReadView.apply_updates updates (Store.root_page_id b) (Store.high_water_page_id b) <$> read_view s)
             (view_broken s)).

(** ** The task *)

Context {Q : Type} {CH : Mpsc QueuedRequest Q}.

(** Where the task is: at the head of its loop; in the first and in the second loop of
    [collect_group]; at the head of the [while], with the requests from
    [operation_start] on; after [process_segment]; sending the answers. *)
Inductive Phase : Type :=
  | Waiting (pending : option QueuedRequest)
  | Draining (x : Collection)
  | Collecting (x : Collection)
  | Processing (queued : list QueuedRequest) (pending : option QueuedRequest) (close_requested : bool)
  | Publishing (result : Result Error (list answer)) (n : nat) (queued : list QueuedRequest)
      (pending : option QueuedRequest) (close_requested : bool)
  | Answering (out : list (Ticket * answer)) (queued : list QueuedRequest) (pending : option QueuedRequest)
      (close_requested : bool)
  | Stopped.

Record AsyncShard : Type := mkShard {
  sh_store : Store;
  sh_queue : Q;
  sh_close : bool;
  sh_phase : Phase;
  sh_config : CoordinatorConfig;
  sh_wal_metrics : option Wal.WalMetrics;
  sh_metrics : CoordinatorMetrics;
  sh_view : ReadViewState;
  sh_answers : gmap Ticket answer;
  sh_next_ticket : Ticket;
}.

Definition set_phase (x : Phase) (s : AsyncShard) : AsyncShard :=
  mkShard (sh_store s) (sh_queue s) (sh_close s) x (sh_config s) (sh_wal_metrics s) (sh_metrics s) (sh_view s)
    (sh_answers s) (sh_next_ticket s).
Definition set_queue (x : Q) (s : AsyncShard) : AsyncShard :=
  mkShard (sh_store s) x (sh_close s) (sh_phase s) (sh_config s) (sh_wal_metrics s) (sh_metrics s) (sh_view s)
    (sh_answers s) (sh_next_ticket s).
Definition set_metrics (x : CoordinatorMetrics) (s : AsyncShard) : AsyncShard :=
  mkShard (sh_store s) (sh_queue s) (sh_close s) (sh_phase s) (sh_config s) (sh_wal_metrics s) x (sh_view s)
    (sh_answers s) (sh_next_ticket s).
Definition set_close (x : bool) (s : AsyncShard) : AsyncShard :=
  mkShard (sh_store s) (sh_queue s) x (sh_phase s) (sh_config s) (sh_wal_metrics s) (sh_metrics s) (sh_view s)
    (sh_answers s) (sh_next_ticket s).

(** [start_with_config]: the store that loading the view leaves, and the first state. *)
Definition start_with_config (b : Store) (config : CoordinatorConfig) : AsyncShard :=
  let '(view, b) := ReadView.from_store b in
  let b := Store.set_published true (Store.published_page_updates b) b in
  let config := effective config in
  mkShard b (channel (queue_capacity config)) false (Waiting None) config None no_metrics
    (mkReadViewState (match view with Ok v => Some v | _ => None end) None) ∅ 0.

Definition start (b : Store) (capacity : Z) : AsyncShard :=
  start_with_config b (mkCoordinatorConfig capacity (max_group_requests default_config)
    (max_group_bytes default_config) (max_collection_delay default_config)).

(** The task returns: the receiver of the queue is dropped with everything in it. *)
Definition stop (s : AsyncShard) : AsyncShard := set_phase Stopped (set_queue (drop_receiver (sh_queue s)) s).

(** The group is complete: the head of the loop body up to the [while]. *)
Definition begin_group (now : Z) (x : Collection) (close_requested : bool) (s : AsyncShard) : AsyncShard :=
  let wait := foldl saturating_add 0 ((λ r, elapsed_nanos (enqueued_at r) now) <$> requests x) in
  let group_bytes := saturating_sum ((λ r, operation_size (operation r)) <$> requests x) in
  let transactions := len (filter (λ r, is_mutation (operation r) = true) (requests x)) in
  let m := record_group (len (requests x)) transactions group_bytes wait (elapsed_nanos (started x) now)
             (sh_metrics s) in
  set_phase (Processing (requests x) (set_aside x) close_requested) (set_metrics m s).

(** The [while operation_start < operations.len()] loop up to [mark_read_view_broken]:
    the segment is processed.  Nothing between the two can be seen from outside, since
    the store belongs to the task.  A panic ends the task, and the store with it. *)
Definition run_segment (started now : Z) (queued : list QueuedRequest) (pending : option QueuedRequest)
    (close_requested : bool) (s : AsyncShard) : AsyncShard :=
  let n := segment_length (operation <$> queued) in
  let '(r, b) := process_segment (operation <$> take n queued) (sh_store s) in
  let m := record_processing (elapsed_nanos started now) (sh_metrics s) in
  let view := match Store.degraded_reason b with
              | Some message => mark_read_view_broken message (sh_view s)
              | None => sh_view s
              end in
  match r with
  | Stuck _ => stop s
  | _ => mkShard b (sh_queue s) (sh_close s) (Publishing r n queued pending close_requested) (sh_config s)
           (sh_wal_metrics s) m view (sh_answers s) (sh_next_ticket s)
  end.

(** The answers of a segment: to its own requests, or its error to all that are left,
    and the requests that remain. *)
Definition segment_answers (r : Result Error (list answer)) (n : nat) (queued : list QueuedRequest)
    : list (Ticket * answer) * list QueuedRequest :=
  match r with
  | Ok responses => (zip (response_tx <$> take n queued) responses, drop n queued)
  | Err e => ((λ q, (response_tx q, Err (batch_error e))) <$> queued, [])
  | Stuck _ => ([], [])
  end.

(** [publish_read_updates] and the metrics; from now on reads see the segment. *)
Definition publish_segment (r : Result Error (list answer)) (n : nat) (queued : list QueuedRequest)
    (pending : option QueuedRequest) (close_requested : bool) (s : AsyncShard) : AsyncShard :=
  let '(b, view) := publish_read_updates (sh_store s) (sh_view s) in
  let wal_metrics := match Store.wal_metrics b with Ok x => x | _ => None end in
  let '(out, rest) := segment_answers r n queued in
  mkShard b (sh_queue s) (sh_close s) (Answering out rest pending close_requested) (sh_config s) wal_metrics
    (sh_metrics s) view (sh_answers s) (sh_next_ticket s).

(** [response_tx.send(..)], for one request. *)
Definition send_answer (t : Ticket) (r : answer) (s : AsyncShard) : AsyncShard :=
  mkShard (sh_store s) (sh_queue s) (sh_close s) (sh_phase s) (sh_config s) (sh_wal_metrics s) (sh_metrics s)
    (sh_view s) (<[t := r]> (sh_answers s)) (sh_next_ticket s).

(** What [select!] takes. *)
Inductive Choice : Type := Receive | CloseSignal | Deadline.

(** A step of the task: [None] when it has to wait for something else. *)
Definition coordinate (choice : Choice) (started now : Z) (s : AsyncShard) : option AsyncShard :=
  match sh_phase s with
  | Waiting (Some request) => Some (set_phase (Draining (collect_first now request)) s)
  | Waiting None =>
      match choice with
      | Receive =>
          match try_recv (sh_queue s) with
          | (inr request, q) => Some (set_phase (Draining (collect_first now request)) (set_queue q s))
          | (inl Disconnected, q) => Some (stop s)
          | (inl Empty, q) => None
          end
      | CloseSignal => if sh_close s then Some (stop s) else None
      | Deadline => None
      end
  | Draining x =>
      let finish x s :=
        if waits_for_more (sh_config s) x then set_phase (Collecting x) s else begin_group now x false s in
      if max_group_requests (sh_config s) <=? len (requests x) then Some (finish x s)
      else
        match try_recv (sh_queue s) with
        | (inr request, q) =>
            let x' := collect (sh_config s) x request in
            let s := set_queue q s in
            match set_aside x' with
            | None => Some (set_phase (Draining x') s)
            | Some _ => Some (finish x' s)
            end
        | (inl _, q) => Some (finish x s)
        end
  | Collecting x =>
      match choice with
      | Receive =>
          match try_recv (sh_queue s) with
          | (inr request, q) =>
              let x' := collect (sh_config s) x request in
              let s := set_queue q s in
              if match set_aside x' with Some _ => true | None => false end
                 || (max_group_requests (sh_config s) <=? len (requests x'))
              then Some (begin_group now x' false s)
              else Some (set_phase (Collecting x') s)
          | (inl Disconnected, q) => Some (begin_group now x false s)
          | (inl Empty, q) => None
          end
      | Deadline => Some (begin_group now x false s)
      | CloseSignal => if sh_close s then Some (begin_group now x true s) else None
      end
  | Processing [] pending close_requested =>
      Some (if close_requested : bool then stop s else set_phase (Waiting pending) s)
  | Processing queued pending close_requested => Some (run_segment started now queued pending close_requested s)
  | Publishing r n queued pending close_requested => Some (publish_segment r n queued pending close_requested s)
  | Answering [] queued pending close_requested => Some (set_phase (Processing queued pending close_requested) s)
  | Answering ((t, r) :: out) queued pending close_requested =>
      Some (set_phase (Answering out queued pending close_requested) (send_answer t r s))
  | Stopped => None
  end.

(** ** Clients *)

(** [try_enqueue] and the part of [send] before it waits. *)
Definition send (now : Z) (op : CoordinatorOperation) (s : AsyncShard) : Result Error Ticket * AsyncShard :=
  let ticket := sh_next_ticket s in
  match try_send (mkQueued op ticket now) (sh_queue s) with
  | (None, q) =>
      (Ok ticket, mkShard (sh_store s) q (sh_close s) (sh_phase s) (sh_config s) (sh_wal_metrics s) (sh_metrics s)
                    (sh_view s) (sh_answers s) (S ticket))
  | (Some Full, q) =>
      (Err (Overloaded "storage coordinator queue is full"), set_metrics (record_overload (sh_metrics s)) s)
  | (Some Closed, q) => (Err (InternalInvariantViolation "storage coordinator is closed"), s)
  end.

(** [execute_with_response_budget]: the answer at once, or what is sent. *)
Definition execute (request : BatchRequest) (max_response_bytes : Z) (s : AsyncShard)
    : Result Error BatchResponse + CoordinatorOperation :=
  match try_read (sh_view s) request max_response_bytes with
  | Some r => inl r
  | None => inr (Batch request max_response_bytes)
  end.

(** The part of [send] after the response has come, or its sender was dropped, and the
    [match] of each caller. *)
Definition await (r : option answer) : answer :=
  match r with
  | Some r => r
  | None => Err (InternalInvariantViolation "storage coordinator dropped a response")
  end.
Definition batch_of (r : answer) : Result Error BatchResponse :=
  x ← r; match x with
         | RBatch response => Ok response
         | _ => Err (InternalInvariantViolation "coordinator returned the wrong batch response")
         end.
Definition transaction_of (r : answer) : Result Error TransactionResult :=
  x ← r; match x with
         | RTransaction t => Ok t
         | _ => Err (InternalInvariantViolation "coordinator returned the wrong transaction response")
         end.
Definition transact_get_of (r : answer) : Result Error (list RevisionState) :=
  x ← r; match x with
         | RTransactGet states => Ok states
         | _ => Err (InternalInvariantViolation "coordinator returned the wrong point-read response")
         end.
Definition observe_of (r : answer) : Result Error (list ObservedState) :=
  x ← r; match x with
         | RObserve states => Ok states
         | _ => Err (InternalInvariantViolation "coordinator returned the wrong observed state response")
         end.
Definition checkpoint_of (r : answer) : Result Error Store.CheckpointReport :=
  x ← r; match x with
         | RCheckpoint report => Ok report
         | _ => Err (InternalInvariantViolation "coordinator returned the wrong checkpoint response")
         end.
Definition invariants_of (r : answer) : Result Error Checker.InvariantReport :=
  x ← r; match x with
         | RInvariants report => Ok report
         | _ => Err (InternalInvariantViolation "coordinator returned the wrong invariant response")
         end.

(** ** The whole shard *)

Inductive label : Type :=
  | LSend (op : CoordinatorOperation) (r : Result Error Ticket)
  | LShutdown
  | LTask.

Inductive step : AsyncShard → label → AsyncShard → Prop :=
  | step_send now op r s s' : send now op s = (r, s') → step s (LSend op r) s'
  | step_shutdown s : step s LShutdown (set_close true s)
  | step_task choice started now s s' : coordinate choice started now s = Some s' → step s LTask s'.

Inductive steps : AsyncShard → list label → AsyncShard → Prop :=
  | steps_nil s : steps s [] s
  | steps_cons s l s1 ls s' : step s l s1 → steps s1 ls s' → steps s (l :: ls) s'.
End coordinator.

#[global] Arguments AsyncShard F W J Q : clear implicits.
End Coordinator.
