(* ===== verification/CoordinatorSpec.v ===== *)
(** * The coordinator serves requests one after the other

    The abstract shard [Sequential] is a queue of requests in front of the reference
    database: it takes the oldest request, runs it to its end and records the answer.
    The coordinator with its groups, its group commits and its read view simulates it:
    requests are answered in the order in which they were accepted, each exactly once,
    with the answers of the reference database. *)

From S2P Require Import Prelude Wp Key Core Page Superblock Format FormatLaws Reference Cache Overlay Tree TreeSearch.
From S2P Require Import OverlayReads TreeOps TreeTxn MemStore TreeScan Lockstep DurableFile Wal WalFrames WalReplay WalRecovery.
From S2P Require Import WalAppend StoreFile Checker Store StoreSpec StorePublish StoreTxn StoreTheorems ReadView ReadViewLaws.
From S2P Require Import ReadViewSpec ReadViewLoad Coordinator.

Module CoordinatorSpec.
Import WalReplay WalAppend DurableFile Core Tree TreeOps TreeTxn StoreSpec StorePublish StoreTxn StoreTheorems ReadViewSpec ReadViewLoad.
Import Coordinator.

(** ** The sequential shard *)

Abbreviation tag := (λ r : QueuedRequest, (response_tx r, operation r)).

Section sequential.
Context (lim : Overlay.StorageLimits).

Record Sequential : Type := mkSeq {
  seq_db : Reference.ReferenceDb;
  seq_queue : list (Ticket * CoordinatorOperation);
  seq_answers : gmap Ticket answer;
  seq_closing : bool;
}.

(** What the reference database answers to a request. *)
Inductive serves (db : Reference.ReferenceDb) : CoordinatorOperation → answer → Reference.ReferenceDb → Prop :=
  | serves_mutation op q r db' :
      as_transaction_request op = Ok q → group_run lim db [q] [r] db' → serves db op (mutation_response op r) db'
  | serves_get keys max :
      serves db (TransactGet keys max) (Ok (RTransactGet (Reference.transact_get db keys))) db
  | serves_too_large keys max m : serves db (TransactGet keys max) (Err (ResponseTooLarge m)) db
  | serves_observe keys :
      serves db (Observe keys) (Ok (RObserve (observed <$> Reference.transact_get db keys))) db.

(** The sequential shard works on its queue, and may stop after it was told to. *)
Inductive seq_step : Sequential → Sequential → Prop :=
  | seq_serve db queue answers closing t op r db' :
      answers !! t = None → serves db op r db' →
      seq_step (mkSeq db ((t, op) :: queue) answers closing) (mkSeq db' queue (<[t := r]> answers) closing)
  | seq_stop db queue answers : seq_step (mkSeq db queue answers true) (mkSeq db [] answers true).

(** What its clients do. *)
Inductive event : Type := Submitted (t : Ticket) (op : CoordinatorOperation) | ShutDown.

Definition seq_event (e : event) (a : Sequential) : Sequential :=
  match e with
  | Submitted t op => mkSeq (seq_db a) (seq_queue a ++ [(t, op)]) (seq_answers a) (seq_closing a)
  | ShutDown => mkSeq (seq_db a) (seq_queue a) (seq_answers a) true
  end.

Inductive seq_run : Sequential → list event → Sequential → Prop :=
  | seq_run_nil a : seq_run a [] a
  | seq_run_event a e es a' : seq_run (seq_event e a) es a' → seq_run a (e :: es) a'
  | seq_run_step a a1 es a' : seq_step a a1 → seq_run a1 es a' → seq_run a es a'.

Lemma seq_run_steps a a1 es a' : rtc seq_step a a1 → seq_run a1 es a' → seq_run a es a'.
Proof. induction 1; [done|]. intros Hr. eapply seq_run_step; eauto. Qed.

(** Nothing is lost before the shutdown. *)
Lemma seq_run_keeps a es a' t op :
  seq_run a es a' → seq_closing a = false → ShutDown ∉ es →
  Submitted t op ∈ es ∨ (t, op) ∈ seq_queue a ∨ t ∈ dom (seq_answers a) → (t, op) ∈ seq_queue a' ∨ t ∈ dom (seq_answers a').
Proof.
  induction 1 as [a|a e es a' Hr IH|a a1 es a' Hst Hr IH]; intros Hc Hes Ht.
  - destruct Ht as [?%not_elem_of_nil|Ht]; [done|exact Ht].
  - apply not_elem_of_cons in Hes as [He Hes]. destruct e as [t0 op0|]; [|done]. apply IH; [done|done|]. cbn.
    rewrite elem_of_cons, elem_of_app, list_elem_of_singleton in *. naive_solver.
  - destruct Hst as [db queue answers closing t0 op0 r db' Ha Hs|]; [|done]. apply IH; [done|done|]. cbn in *.
    rewrite elem_of_cons, dom_insert_L in *. set_solver.
Qed.

(** Several requests served in a row. *)
Inductive serves_all : Reference.ReferenceDb → list CoordinatorOperation → list answer → Reference.ReferenceDb → Prop :=
  | serves_nil db : serves_all db [] [] db
  | serves_cons db op r db1 ops rs db' :
      serves db op r db1 → serves_all db1 ops rs db' → serves_all db (op :: ops) (r :: rs) db'.

(** Requests that have no answer yet and whose tickets are distinct. *)
Definition unanswered (rs : list QueuedRequest) (m : gmap Ticket answer) : Prop :=
  NoDup (response_tx <$> rs) ∧ ∀ r, r ∈ rs → m !! response_tx r = None.

Lemma unanswered_app l l' m : unanswered (l ++ l') m → unanswered l m ∧ unanswered l' m.
Proof.
  intros [Hn Hm]. rewrite fmap_app in Hn. apply NoDup_app in Hn as (N1 & _ & N2).
  split; (split; [done|]); intros r Hr; apply Hm, elem_of_app; auto.
Qed.

(** The answers after some more were sent. *)
Definition send_answers (out : list (Ticket * answer)) (m : gmap Ticket answer) : gmap Ticket answer :=
  foldl (λ m x, <[x.1 := x.2]> m) m out.

Lemma serve_all db queued rs db' rest m closing :
  serves_all db (operation <$> queued) rs db' → unanswered queued m →
  rtc seq_step (mkSeq db ((tag <$> queued) ++ rest) m closing)
    (mkSeq db' rest (send_answers (zip (response_tx <$> queued) rs) m) closing).
Proof.
  revert db rs m. induction queued as [|q queued IH]; intros db rs m Hs [Hn Hm]; inversion Hs; subst; [done|].
  apply NoDup_cons in Hn as [Hq Hn]. eapply rtc_l.
  - rewrite fmap_cons. apply seq_serve; [|done]. apply Hm. left.
  - apply IH; [done|]. split; [done|]. intros x Hx. cbn [fst snd]. rewrite lookup_insert_ne; [apply Hm; by right|].
    intros E. apply Hq. rewrite E. by apply list_elem_of_fmap_2.
Qed.

Lemma send_answers_other out m t : t ∉ out.*1 → send_answers out m !! t = m !! t.
Proof.
  revert m. induction out as [|[t' r] out IH]; intros m Ht; [done|]. apply not_elem_of_cons in Ht as [Hne Ht].
  change (send_answers out (<[t' := r]> m) !! t = m !! t). rewrite IH by done. by apply lookup_insert_ne.
Qed.

Lemma send_answers_dom out m : dom (send_answers out m) = dom m ∪ list_to_set out.*1.
Proof.
  revert m. induction out as [|[t r] out IH]; intros m; [cbn; set_solver|].
  change (dom (send_answers out (<[t := r]> m)) = dom m ∪ list_to_set (t :: out.*1)).
  rewrite IH, dom_insert_L. cbn. set_solver.
Qed.

Lemma serves_all_length db ops rs db' : serves_all db ops rs db' → length rs = length ops.
Proof. induction 1; cbn; congruence. Qed.

(** A group is the sequence of its requests. *)
Lemma group_run_cons db q qs r rs db' :
  group_run lim db (q :: qs) (r :: rs) db' → ∃ db1, group_run lim db [q] [r] db1 ∧ group_run lim db1 qs rs db'.
Proof.
  inversion 1; subst; eexists; (split; [|eassumption]).
  - eapply run_commit; [done..|constructor].
  - eapply run_check; [done..|constructor].
  - eapply run_error; [done|constructor].
  - eapply run_reject; [done..|constructor].
Qed.

Lemma group_serves db ops qs rs db' :
  transaction_requests ops = Ok qs → group_run lim db qs rs db' → serves_all db ops (zip_with mutation_response ops rs) db'.
Proof.
  revert db qs rs. induction ops as [|op ops IH]; intros db qs rs; cbn [transaction_requests].
  { intros [= <-]. inversion 1; subst. constructor. }
  destruct (as_transaction_request op) as [q| |] eqn:Eq; [|done..]. cbn [mbind Result_bind].
  destruct (transaction_requests ops) as [qs'| |]; [|done..]. intros [= <-] Hr.
  assert (∃ r rs', rs = r :: rs') as (r & rs' & ->) by (inversion Hr; eauto).
  apply group_run_cons in Hr as (db1 & H1 & H2). econstructor; [by econstructor|]. by eapply IH.
Qed.

End sequential.

(** Mutations become transactions. *)
Lemma mutation_request op : is_mutation op = true → ∃ q, as_transaction_request op = Ok q.
Proof. destruct op as [[]| | | | |]; cbn; try done; eauto. Qed.

Lemma mutation_requests ops : forallb is_mutation ops = true → ∃ qs, transaction_requests ops = Ok qs.
Proof.
  induction ops as [|op ops IH]; cbn; [eauto|]. intros [Hop Hops]%andb_true_iff. apply mutation_request in Hop as [q ->].
  destruct (IH Hops) as [qs ->]. eauto.
Qed.

(** ** What the clients may send *)

(** Keys of the right size.  Plain reads are answered from the view; the two
    maintenance requests are left out here. *)
Definition admissible (op : CoordinatorOperation) : Prop :=
  match op with
  | Batch (Overlay.ReqPut _ _) _ | Batch (Overlay.ReqDelete _) _ | Transaction _ =>
      ∃ q, as_transaction_request op = Ok q ∧ keys_fit q
  | TransactGet keys _ | Observe keys => Forall valid_key keys
  | _ => False
  end.

Definition op_writes (op : CoordinatorOperation) : nat :=
  match as_transaction_request op with Ok q => length (mutations q) | _ => 0 end.
Definition total_writes (ops : list CoordinatorOperation) : nat := sum_list (op_writes <$> ops).

Lemma total_writes_app l l' : total_writes (l ++ l') = (total_writes l + total_writes l')%nat.
Proof. unfold total_writes. rewrite fmap_app. induction (op_writes <$> l) as [|x xs IH]; [done|]. cbn. rewrite IH. lia. Qed.

Lemma requests_writes ops qs :
  transaction_requests ops = Ok qs → Forall admissible ops → writes qs = total_writes ops ∧ Forall keys_fit qs.
Proof.
  revert qs. induction ops as [|op ops IH]; intros qs; cbn [transaction_requests]; [by intros [= <-]|].
  destruct (as_transaction_request op) as [q| |] eqn:Eq; [|done..]. cbn [mbind Result_bind].
  destruct (transaction_requests ops) as [qs'| |]; [|done..]. intros [= <-] [Ha Hs]%Forall_cons.
  destruct (IH _ eq_refl Hs) as [E Hk]. split.
  - rewrite writes_cons, E. unfold total_writes. cbn. unfold op_writes at 2. by rewrite Eq.
  - constructor; [|done]. destruct op as [[]| | | | |]; cbn in Ha; try done; destruct Ha as (q' & E' & Hw); cbn in *; congruence.
Qed.
End CoordinatorSpec.
