(* ===== verification/CoordinatorSim.v ===== *)
(** * The simulation

    [simulates] relates a state of the coordinator to the sequential shard: the
    requests it holds are the queue, the store and the read view hold the database.
    Every step of the coordinator is a sequence of steps of the sequential shard. *)

From S2P Require Import Prelude Wp Key Core Page Superblock Format FormatLaws Reference Cache Overlay Tree TreeSearch.
From S2P Require Import OverlayReads TreeOps TreeTxn MemStore TreeScan Lockstep DurableFile Wal WalFrames WalReplay WalRecovery.
From S2P Require Import WalAppend StoreFile Checker Store StoreSpec StorePublish StoreTxn StoreTheorems ReadView ReadViewLaws.
From S2P Require Import ReadViewSpec ReadViewLoad Coordinator CoordinatorSpec.

Module CoordinatorSim.
Import WalReplay WalAppend DurableFile Core Tree TreeOps TreeTxn StoreSpec StorePublish StoreTxn StoreTheorems ReadViewSpec ReadViewLoad.
Import Coordinator CoordinatorSpec.

Section simulation.
Context `{C : Crc32c} {CS : Crc32cSpec C} `{FS : DurableFileSpec F} `{WS : DurableFileSpec W} `{JS : FaultInjectorSpec J}.
Context `{QS : MpscSpec QueuedRequest Q}.
Abbreviation Store := (Store.BTreeStore F W J).
Abbreviation Shard := (AsyncShard F W J Q).
Context (lim : Overlay.StorageLimits).
Implicit Types (b : Store) (s : Shard) (a : Sequential).
Abbreviation seq_step := (seq_step lim).
Abbreviation seq_run := (seq_run lim).

(** ** What the coordinator holds *)

Definition held_phase (p : Phase) : list QueuedRequest :=
  match p with
  | Waiting pending => option_list pending
  | Draining x | Collecting x => requests x ++ option_list (set_aside x)
  | Processing queued pending _ | Publishing _ _ queued pending _ | Answering _ queued pending _ =>
      queued ++ option_list pending
  | Stopped => []
  end.
Definition held s : list QueuedRequest := held_phase (sh_phase s) ++ contents (sh_queue s).
Definition held_ops s : list CoordinatorOperation := operation <$> held s.

(** The answers that are about to be sent, and all that are or will have been. *)
Definition outgoing s : list (Ticket * answer) :=
  match sh_phase s with Answering out _ _ _ => out | _ => [] end.
Definition all_answers s : gmap Ticket answer := send_answers (outgoing s) (sh_answers s).

(** A store without faults that holds the database, and the view that follows it. *)
Record serving_store (n : nat) b (view : ReadViewState) (db : Reference.ReferenceDb) : Prop := {
  sv_store : ∃ ss, store_ok n b ss (Reference.states db);
  sv_view : ∃ v, view = mkReadViewState (Some v) None ∧ view_follows n v b (Reference.states db);
  sv_track : Store.track_published_pages b = true ∧ Store.published_page_updates b = ∅;
  sv_faultless : Store.fault_injector b = None ∧ wal_reliable b;
  sv_short : short_keys (Reference.states db);
  sv_limits : Store.limits (Store.config b) = lim;
}.

(** Between processing and publishing: the store is one segment ahead of the view. *)
Record unpublished (m : nat) b (view : ReadViewState) (r : Result Error (list answer)) (k : nat) (queued : list QueuedRequest)
    (db db' : Reference.ReferenceDb) : Prop := {
  up_segment : (0 < k ≤ length queued)%nat;
  up_serves : ∃ rs, r = Ok rs ∧ serves_all lim db (operation <$> take k queued) rs db';
  up_store : ∃ ss, store_ok m b ss (Reference.states db');
  up_view : ∃ m0 b0, serving_store m0 b0 view db;
  up_next : let out := publish_read_updates b view in serving_store m out.1 out.2 db';
}.

(** The database of the sequential shard in the store and in the view. *)
Definition serving (n : nat) s (db : Reference.ReferenceDb) : Prop :=
  match sh_phase s with
  | Publishing r k queued pending _ =>
      ∃ m db', (n + total_writes (operation <$> drop k (held s)) ≤ m)%nat ∧ unpublished m (sh_store s) (sh_view s) r k queued db db'
  | _ => ∃ m, (n + total_writes (held_ops s) ≤ m)%nat ∧ serving_store m (sh_store s) (sh_view s) db
  end.

(** Requests are set aside only when a group is complete, groups are not empty, and the
    task stops only when it was told to. *)
Definition phase_ok s : Prop :=
  match sh_phase s with
  | Draining x | Collecting x => set_aside x = None ∧ requests x ≠ []
  | Processing _ _ close | Publishing _ _ _ _ close | Answering _ _ _ close => close = true → sh_close s = true
  | _ => True
  end.

Record simulates (n : nat) s a : Prop := {
  sm_serving : serving n s (seq_db a);
  sm_queue : tag <$> held s = seq_queue a;
  sm_answers : all_answers s = seq_answers a;
  sm_admissible : Forall admissible (held_ops s);
  sm_unanswered : unanswered (held s) (all_answers s);
  sm_tickets : (∀ r, r ∈ held s → (response_tx r < sh_next_ticket s)%nat) ∧
               (∀ t, t ∈ dom (all_answers s) → (t < sh_next_ticket s)%nat);
  sm_receiving : sh_phase s ≠ Stopped → receiving (sh_queue s) = true;
  sm_phase : phase_ok s;
  sm_closing : sh_close s = seq_closing a;
}.

Lemma sm_set_aside n s a x :
  simulates n s a → sh_phase s = Draining x ∨ sh_phase s = Collecting x → set_aside x = None ∧ requests x ≠ [].
Proof. intros Hs Hph. pose proof (sm_phase _ _ _ Hs) as Hp. unfold phase_ok in Hp. by destruct Hph as [E|E]; rewrite E in Hp. Qed.

(** ** Scheduling *)

(** The store is not ahead of the view. *)
Definition published s : Prop := match sh_phase s with Publishing _ _ _ _ _ => False | _ => True end.

Lemma serving_published n s db :
  published s → serving n s db ↔ ∃ m, (n + total_writes (held_ops s) ≤ m)%nat ∧ serving_store m (sh_store s) (sh_view s) db.
Proof. unfold published, serving. by destruct (sh_phase s). Qed.

(** A step that only moves requests and answers around. *)
Record rearranged s s' : Prop := {
  re_store : sh_store s' = sh_store s;
  re_view : sh_view s' = sh_view s;
  re_answers : all_answers s' = all_answers s;
  re_tickets : sh_next_ticket s' = sh_next_ticket s;
  re_close : sh_close s' = sh_close s;
  re_held : held s' = held s;
  re_receiving : receiving (sh_queue s') = true;
  re_phase : phase_ok s';
  re_published : published s ∧ published s';
}.

Lemma rearranged_simulates n s s' a : rearranged s s' → simulates n s a → simulates n s' a.
Proof.
  intros [R1 R2 R3 R4 R5 R6 R7 R8 [R9 R10]] [S1 S2 S3 S4 S5 S6 S7 S8 S9].
  split; unfold held_ops in *; rewrite ?R3, ?R4, ?R5, ?R6; try done.
  apply serving_published; [done|]. apply serving_published in S1; [|done]. unfold held_ops in *. by rewrite R1, R2, R6.
Qed.

Lemma collect_requests c x r :
  set_aside x = None →
  requests (collect c x r) ++ option_list (set_aside (collect c x r)) = (requests x ++ option_list (set_aside x)) ++ [r].
Proof.
  intros E. unfold collect. destruct (can_add _ _ _ _); cbn; rewrite E; cbn; by rewrite ?app_nil_r.
Qed.

Lemma begin_group_held now x close s :
  held (begin_group now x close s) = (requests x ++ option_list (set_aside x)) ++ contents (sh_queue s).
Proof. done. Qed.

(** Receiving from the queue. *)
Lemma received n s a r q :
  simulates n s a → sh_phase s ≠ Stopped → try_recv (sh_queue s) = (inr r, q) →
  contents (sh_queue s) = r :: contents q ∧ receiving q = true.
Proof.
  intros Hs Hp Hr. pose proof (try_recv_spec (sh_queue s) (sm_receiving _ _ _ Hs Hp)) as Hq. rewrite Hr in Hq. naive_solver.
Qed.

(** Stopping drops what is held: after a shutdown, or nothing. *)
Lemma stop_simulates n s a :
  simulates n s a → published s → outgoing s = [] → sh_close s = true ∨ held s = [] →
  ∃ a', rtc seq_step a a' ∧ simulates n (stop s) a'.
Proof.
  intros [S1 S2 S3 S4 S5 S6 S7 S8 S9] Hp Ho Hst. apply serving_published in S1 as (m & Hm & S1); [|done].
  destruct a as [db queue answers closing]. cbn in *.
  exists (mkSeq db [] answers closing). split.
  { destruct Hst as [Hc|Hh]; [rewrite Hc in S9; subst closing; apply rtc_once; constructor|]. rewrite Hh in S2. by subst queue. }
  assert (Hh : held (stop s) = []) by (unfold held; cbn; apply drop_receiver_spec).
  assert (Ha : all_answers (stop s) = all_answers s) by (unfold all_answers; by rewrite Ho).
  split; unfold held_ops in *; rewrite ?Hh, ?Ha; try done.
  - apply serving_published; [done|]. exists m. unfold held_ops. rewrite Hh. split; [cbn; lia|done].
  - split; [constructor|by intros r ?%not_elem_of_nil].
  - split; [by intros r ?%not_elem_of_nil|apply S6].
Qed.

(** ** Segments *)

Lemma published_header t m b : Store.store_header (Store.set_published t m b) = Store.store_header b.
Proof. done. Qed.
Lemma published_committed t m b i : committed_page (Store.set_published t m b) i = committed_page b i.
Proof. done. Qed.

Lemma store_ok_published n b ss st t m : store_ok n b ss st → store_ok n (Store.set_published t m b) ss st.
Proof.
  intros [Hrep Hbr [w Hw]]. split; [|done|exists w; by eapply (wal_ok_same n n b)].
  eapply represents_follows; [exact Hrep|]. pose proof (represents_serving _ _ _ Hrep) as [V1 V2 V3 V4].
  split; [|done|by split]. cbn. unfold Store.store_header. cbn. by rewrite (wo_wal _ _ _ _ Hw).
Qed.

(** Publishing to the view after a segment. *)
Lemma publish_serving n b ss v db :
  store_ok n b ss (Reference.states db) → Store.track_published_pages b = true → Store.fault_injector b = None →
  wal_reliable b → view_follows n (refreshed b v) b (Reference.states db) →
  short_keys (Reference.states db) → Store.limits (Store.config b) = lim →
  let out := publish_read_updates b (mkReadViewState (Some v) None) in serving_store n out.1 out.2 db.
Proof.
  intros Hok Ht Hj Hw Hv Hsh Hlim. unfold publish_read_updates. cbv zeta.
  assert (Hserve : ∀ v', v' = refreshed b v →
    serving_store n (Store.set_published (Store.track_published_pages b) ∅ b) (mkReadViewState (Some v') None) db).
  { intros v' ->. split.
    - exists ss. by apply store_ok_published.
    - exists (refreshed b v). split; [done|]. by eapply view_follows_same; [| | |exact Hv].
    - by rewrite Ht.
    - by split.
    - done.
    - done. }
  unfold refreshed in Hserve. case_bool_decide as E; cbn; by apply Hserve.
Qed.

(** What a segment does to a store: the answers of the sequential shard, in a store and,
    once they are published, a view that hold its next database. *)
Definition segment_served (m : nat) b view db (ops : list CoordinatorOperation) : Prop :=
  ∃ rs b' db' ss, process_segment ops b = (Ok rs, b') ∧ serves_all lim db ops rs db' ∧ Store.degraded_reason b' = None ∧
    store_ok (m - total_writes ops) b' ss (Reference.states db') ∧
    let out := publish_read_updates b' view in serving_store (m - total_writes ops) out.1 out.2 db'.

(** A run of mutations. *)
Lemma mutations_spec m b view db ops :
  serving_store m b view db → Forall admissible ops → (total_writes ops ≤ m)%nat → forallb is_mutation ops = true →
  segment_served m b view db ops.
Proof.
  intros [[ss Hok] (v & -> & Hv) [Ht Hu] [Hj Hw] Hsh Hlim] Ha Hn Hmut. destruct (mutation_requests _ Hmut) as [qs Hqs].
  destruct (requests_writes _ _ Hqs Ha) as [Ew Hk]. rewrite <-Ew in Hn.
  pose proof (apply_group_spec m b ss db qs Hok Hn Hk Hsh) as Hg.
  unfold wp in Hg. destruct (Store.apply_transaction_group qs b) as [[rs|e|k] b'] eqn:Erun; [..|done].
  2:{ destruct Hg as [[?|?] _]; done. }
  destruct (view_follows_group m v b b' ss db qs rs Hv Hok Hn Hk Hsh Hg Ht Hu) as (db' & cs & Hrun & Hok' & Hv').
  exists (zip_with mutation_response ops rs), b', db', (ss ++ segments_of (Store.next_lsn b) cs).
  unfold process_segment. rewrite Hmut, Hqs, <-Ew. rewrite Hlim in Hrun.
  unfold mbind, St_bind, lift_r. rewrite Erun. split; [done|]. split; [by eapply group_serves|].
  split; [apply (so_broken _ _ _ _ Hok')|]. split; [done|]. destruct Hg as [_ G2 G3 G4 G5 _].
  eapply publish_serving; [exact Hok'|by rewrite G5|auto|auto|done|by eapply group_run_short|by rewrite G2].
Qed.

(** A single read. *)
Lemma read_spec m b view db op :
  serving_store m b view db → admissible op → is_mutation op = false → segment_served m b view db [op].
Proof.
  intros [[ss Hok] (v & -> & Hv) [Ht Hu] [Hj Hw] Hsh Hlim] Ha Hmut.
  assert (Ez : total_writes [op] = 0%nat) by (unfold total_writes, op_writes; by destruct op as [[]| | | | |]).
  assert (Hdone : ∀ r b', process_segment [op] b = (Ok [r], b') → serves lim db op r db →
    store_ok m b' ss (Reference.states db) → read_only b b' →
    segment_served m b (mkReadViewState (Some v) None) db [op]).
  { intros r b' Hp Hs Hok' [_ Hh Hc [[U1 U2 U3 U4 U5 U6] (U7 & _)]]. exists [r], b', db, ss. rewrite Ez, Nat.sub_0_r.
    split; [done|]. split; [by econstructor; [|constructor]|]. split; [apply (so_broken _ _ _ _ Hok')|]. split; [done|].
    eapply publish_serving; [exact Hok'|by rewrite U6|by rewrite U4| | |done|].
    - intros w. rewrite U2. apply Hw.
    - unfold refreshed. rewrite U7, Hu, bool_decide_true by done. by eapply view_follows_same; [| | |exact Hv].
    - injection Hh. congruence. }
  destruct op as [[]| |keys max|keys| |]; cbn in Ha; try done.
  - pose proof (transact_get_spec m b ss db keys max Hok Ha) as Hg. unfold wp in Hg.
    destruct (Store.transact_get_with_response_budget keys max b) as [[rs|e|k] b'] eqn:Er; [..|done].
    + destruct Hg as (-> & Hok' & Hro). eapply (Hdone _ b'); [..|done|done]; [|constructor].
      unfold process_segment. cbn [forallb is_mutation andb map_each].
      unfold mbind at 1, St_bind at 1, attempt. cbn [process_one]. unfold fmap, St_fmap. by rewrite Er.
    + destruct Hg as ([x ->] & Hok' & Hro). eapply (Hdone _ b'); [..|done|done]; [|apply serves_too_large].
      unfold process_segment. cbn [forallb is_mutation andb map_each].
      unfold mbind at 1, St_bind at 1, attempt. cbn [process_one]. unfold fmap, St_fmap. by rewrite Er.
  - pose proof (observe_spec m b ss db keys Hok Ha) as Hg. unfold wp in Hg.
    destruct (Store.observe keys b) as [[rs|e|k] b'] eqn:Er; [|done..].
    destruct Hg as (-> & Hok' & Hro). eapply (Hdone _ b'); [..|done|done]; [|constructor].
    unfold process_segment. cbn [forallb is_mutation andb map_each].
    unfold mbind at 1, St_bind at 1, attempt. cbn [process_one]. unfold fmap, St_fmap. by rewrite Er.
Qed.

(** What [segment_length] cuts off. *)
Definition segment_shape (ops : list CoordinatorOperation) : Prop :=
  forallb is_mutation ops = true ∨ ∃ op, ops = [op] ∧ is_mutation op = false.

Lemma segment_cut op ops :
  let n := segment_length (op :: ops) in
  (0 < n ≤ length (op :: ops))%nat ∧ segment_shape (take n (op :: ops)).
Proof.
  cbv zeta. unfold segment_length. destruct (is_mutation op) eqn:E.
  - destruct (partition_point_spec is_mutation (op :: ops)) as (l1 & l2 & El & Hl & HF & _). rewrite <-Hl. split.
    + rewrite El, length_app. split; [|lia]. rewrite Hl. cbn. rewrite E. lia.
    + left. rewrite El, take_app_length. clear -HF. induction HF as [|x l Hx HF IH]; [done|]. cbn. by rewrite Hx.
  - split; [cbn; lia|]. right. exists op. by rewrite firstn_cons, take_0.
Qed.

Lemma segment_spec m b view db ops :
  serving_store m b view db → Forall admissible ops → (total_writes ops ≤ m)%nat → segment_shape ops →
  segment_served m b view db ops.
Proof.
  intros Hs Ha Hn [Hmut|(op & -> & Hop)]; [by apply mutations_spec|]. apply Forall_cons in Ha as [Ha _]. by apply read_spec.
Qed.

(** Every request that was held is still held or has its answer. *)
Record settled s s' : Prop := {
  st_held : ∀ r, r ∈ held s → r ∈ held s' ∨ response_tx r ∈ dom (all_answers s');
  st_answers : dom (all_answers s) ⊆ dom (all_answers s');
}.

(** Processing a segment changes nothing that the clients see. *)
Lemma run_segment_simulates n s a st now queued pending close :
  simulates n s a → sh_phase s = Processing queued pending close → queued ≠ [] →
  let s' := run_segment st now queued pending close s in
  simulates n s' a ∧ held s' = held s ∧ all_answers s' = all_answers s ∧ sh_close s' = sh_close s ∧
  sh_queue s' = sh_queue s ∧ ∃ r k, sh_phase s' = Publishing r k queued pending close.
Proof.
  intros [S1 S2 S3 S4 S5 S6 S7 S8 S9] Hph Hne s'. destruct queued as [|q queued']; [done|].
  set (queued := q :: queued') in *. destruct (segment_cut (operation q) (operation <$> queued')) as [Hk Hshape].
  change (operation q :: (operation <$> queued')) with (operation <$> queued) in *.
  set (k := segment_length (operation <$> queued)) in *. rewrite <-fmap_take in Hshape. rewrite length_fmap in Hk.
  apply serving_published in S1 as (m & Hm & S1); [|unfold published; by rewrite Hph].
  assert (Hheld : held s = queued ++ option_list pending ++ contents (sh_queue s)).
  { unfold held. rewrite Hph. cbn [held_phase]. by rewrite app_assoc. }
  assert (Hcut : held s = take k queued ++ drop k (held s)).
  { rewrite Hheld, drop_app_le, (app_assoc (take k queued)) by lia. by rewrite take_drop. }
  unfold held_ops in *. rewrite Hcut, fmap_app, total_writes_app in Hm. rewrite Hcut, fmap_app in S4 at 1. apply Forall_app in S4 as [A1 A2].
  destruct (segment_spec m _ _ _ _ S1 A1 ltac:(lia) Hshape) as (rs & b' & db' & ss & Hp & Hserve & Hd & Hok & Hout).
  subst s'. unfold run_segment. fold k. rewrite Hp, Hd. set (s' := mkShard _ _ _ _ _ _ _ _ _ _).
  assert (Hheld' : held s' = held s) by (unfold held; by rewrite Hph).
  assert (Hans : all_answers s' = all_answers s) by (unfold all_answers, outgoing; by rewrite Hph).
  split; [|split_and!; [done..|by eexists _, _]].
  split; unfold held_ops; rewrite ?Hheld', ?Hans; try done.
  - exists (m - total_writes (operation <$> take k queued))%nat, db'. rewrite Hheld'. split; [lia|].
    split; [exact Hk|by exists rs|by exists ss|by exists m, (sh_store s)|done].
  - rewrite Hcut, fmap_app. by apply Forall_app.
  - intros _. apply S7. by rewrite Hph.
  - unfold phase_ok in *. by rewrite Hph in S8.
Qed.

(** Publishing a segment is the moment at which its requests are served. *)
Lemma publish_segment_simulates n s a r k queued pending close :
  simulates n s a → sh_phase s = Publishing r k queued pending close →
  let s' := publish_segment r k queued pending close s in
  (∃ a', rtc seq_step a a' ∧ simulates n s' a') ∧ settled s s' ∧ (length (held s') < length (held s))%nat ∧
  sh_close s' = sh_close s ∧ sh_phase s' ≠ Stopped.
Proof.
  intros [S1 S2 S3 S4 S5 S6 S7 S8 S9] Hph s'. unfold serving in S1. rewrite Hph in S1.
  destruct S1 as (m & db' & Hm & [Hk (rs & -> & Hserve) _ _ Hout]). set (seg := take k queued) in *.
  assert (Hcut : held s = seg ++ drop k (held s)).
  { assert (held s = queued ++ option_list pending ++ contents (sh_queue s)) as ->
      by (unfold held; rewrite Hph; cbn [held_phase]; by rewrite app_assoc).
    rewrite drop_app_le by lia. unfold seg. by rewrite (app_assoc (take k queued)), take_drop. }
  set (rest := drop k (held s)) in *. assert (Hlen : length rs = length seg) by (apply serves_all_length in Hserve; by rewrite length_fmap in Hserve).
  assert (Hout0 : all_answers s = sh_answers s) by (unfold all_answers, outgoing; by rewrite Hph).
  subst s'. unfold publish_segment. destruct (publish_read_updates _ _) as [b2 view2]. cbn [segment_answers]. fold seg.
  cbv zeta in Hout. cbn [fst snd] in Hout. set (s' := mkShard _ _ _ _ _ _ _ _ _ _).
  assert (Hheld' : held s' = rest).
  { unfold held, rest, held. rewrite Hph. cbn [held_phase sh_phase sh_queue s']. rewrite <-!app_assoc, drop_app_le by lia. done. }
  assert (Hans : all_answers s' = send_answers (zip (response_tx <$> seg) rs) (all_answers s)) by (by rewrite Hout0).
  assert (Hfst : (zip (response_tx <$> seg) rs).*1 = response_tx <$> seg) by (apply fst_zip; rewrite length_fmap; lia).
  assert (Hdom : dom (all_answers s') = dom (all_answers s) ∪ list_to_set (response_tx <$> seg))
    by (by rewrite Hans, send_answers_dom, Hfst).
  rewrite Hcut in S2, S5, S6. destruct (unanswered_app _ _ _ S5) as [U1 U2]. rewrite fmap_app in S2.
  unfold held_ops in S4. rewrite Hcut, fmap_app in S4. apply Forall_app in S4 as [_ A2].
  split; [|split_and!; [|rewrite Hheld'; rewrite Hcut, length_app; unfold seg; rewrite length_take; lia|done|done]].
  2:{ split; [|rewrite Hdom; set_solver]. intros x. rewrite Hcut, Hheld', Hdom.
      intros [Hx|Hx]%elem_of_app; [right|by left]. apply elem_of_union. right. apply elem_of_list_to_set. by apply list_elem_of_fmap_2. }
  destruct a as [db queue answers closing]. cbn [seq_db seq_queue seq_answers seq_closing] in *. subst queue answers.
  exists (mkSeq db' (tag <$> rest) (all_answers s') closing). split; [rewrite Hans; by apply serve_all|].
  split; unfold held_ops; rewrite ?Hheld'; try done.
  - apply serving_published; [done|]. exists m. unfold held_ops. by rewrite Hheld'.
  - destruct U2 as [N3 N4]. split; [done|]. intros x Hx. rewrite Hans, send_answers_other; [by apply N4|]. rewrite Hfst.
    destruct S5 as [N1 _]. rewrite fmap_app in N1. apply NoDup_app in N1 as (_ & Hdis & _).
    intros Hin. apply (Hdis _ Hin). by apply list_elem_of_fmap_2.
  - destruct S6 as [T1 T2]. split; [intros x Hx; apply T1, elem_of_app; by right|].
    intros t. rewrite Hdom, elem_of_union, elem_of_list_to_set. intros [Ht|(x & -> & Hx)%list_elem_of_fmap]; [by apply T2|].
    apply T1, elem_of_app. by left.
  - intros _. apply S7. by rewrite Hph.
  - unfold phase_ok in *. by rewrite Hph in S8.
Qed.

(** Answers that are sent, one by one. *)
Lemma answer_rearranged s out queued pending close s' choice st now :
  sh_phase s = Answering out queued pending close → phase_ok s → receiving (sh_queue s) = true →
  coordinate choice st now s = Some s' → rearranged s s'.
Proof.
  intros Hph Hok Hr Hc. unfold coordinate in Hc. rewrite Hph in Hc. unfold phase_ok in Hok. rewrite Hph in Hok.
  assert (Hp : published s) by (unfold published; by rewrite Hph).
  destruct out as [|[t r] out]; injection Hc as <-; split; try done;
    try (unfold all_answers, outgoing; by rewrite Hph); unfold held; by rewrite Hph.
Qed.

(** ** Steps *)

Lemma rearranged_step n s s' a :
  simulates n s a → rearranged s s' → ∃ a', rtc seq_step a a' ∧ simulates n s' a'.
Proof. intros Hs Hr. exists a. split; [done|]. by eapply rearranged_simulates. Qed.

(** The task has neither results to publish nor answers to send. *)
Definition quiet s : Prop := match sh_phase s with Publishing _ _ _ _ _ | Answering _ _ _ _ => False | _ => True end.

Lemma quiet_rearranged s s' :
  quiet s → quiet s' → sh_store s' = sh_store s → sh_view s' = sh_view s → sh_answers s' = sh_answers s →
  sh_next_ticket s' = sh_next_ticket s → sh_close s' = sh_close s → held s' = held s → receiving (sh_queue s') = true →
  phase_ok s' → rearranged s s'.
Proof.
  assert (Hq : ∀ s, quiet s → published s ∧ all_answers s = sh_answers s).
  { intros x. unfold quiet, published, all_answers, outgoing. by destruct (sh_phase x). }
  intros [? E]%Hq [? E']%Hq. intros. split; rewrite ?E, ?E'; done.
Qed.

(** A collection that is complete starts being processed. *)
Lemma finish_collection s x now close q :
  quiet s → receiving q = true → held s = (requests x ++ option_list (set_aside x)) ++ contents q →
  (close = true → sh_close s = true) → rearranged s (begin_group now x close (set_queue q s)).
Proof. intros Hq Hr Hh Hc. by apply quiet_rearranged. Qed.

(** Or waits for more requests. *)
Lemma wait_collection s x q ph :
  quiet s → ph = Draining x ∨ ph = Collecting x → set_aside x = None → requests x ≠ [] → receiving q = true →
  held s = requests x ++ contents q → rearranged s (set_phase ph (set_queue q s)).
Proof.
  intros Hq Hp Ha Hne Hr Hh. apply quiet_rearranged; try done.
  - by destruct Hp as [-> | ->].
  - rewrite Hh. unfold held. destruct Hp as [-> | ->]; cbn; rewrite Ha; cbn; by rewrite app_nil_r.
  - unfold phase_ok. cbn. by destruct Hp as [-> | ->].
Qed.

Lemma set_queue_id s : set_queue (sh_queue s) s = s.
Proof. by destruct s. Qed.

Lemma collect_ne c x r : requests x ≠ [] → requests (collect c x r) ≠ [].
Proof. unfold collect. destruct (can_add _ _ _ _); [|done]. cbn. by destruct (requests x). Qed.

Lemma drained s x now q :
  quiet s → requests x ≠ [] → receiving q = true → held s = (requests x ++ option_list (set_aside x)) ++ contents q →
  rearranged s (if waits_for_more (sh_config s) x then set_phase (Collecting x) (set_queue q s)
                else begin_group now x false (set_queue q s)).
Proof.
  intros Hqt Hne Hr Hh. destruct (waits_for_more _ x) eqn:E; [|by apply finish_collection].
  assert (Ha : set_aside x = None).
  { unfold waits_for_more in E. destruct (set_aside x); [|done]. by rewrite andb_false_r in E. }
  apply (wait_collection _ x); [done|by right|done|done|done|]. rewrite Hh, Ha. cbn. by rewrite app_nil_r.
Qed.

Lemma collected n s a x r q :
  simulates n s a → (sh_phase s = Draining x ∨ sh_phase s = Collecting x) → try_recv (sh_queue s) = (inr r, q) →
  receiving q = true ∧
  held s = (requests (collect (sh_config s) x r) ++ option_list (set_aside (collect (sh_config s) x r))) ++ contents q.
Proof.
  intros Hs Hph Hq. destruct (received n s a r q Hs ltac:(by destruct Hph as [-> | ->]) Hq) as [Hc Hr].
  split; [done|]. rewrite collect_requests by (by eapply (sm_set_aside _ _ _ _ Hs)). unfold held. rewrite Hc.
  destruct Hph as [-> | ->]; cbn; by rewrite <-!app_assoc.
Qed.

Lemma held_collection n s a x :
  simulates n s a → (sh_phase s = Draining x ∨ sh_phase s = Collecting x) →
  receiving (sh_queue s) = true ∧ held s = (requests x ++ option_list (set_aside x)) ++ contents (sh_queue s).
Proof.
  intros Hs Hph. split; [apply (sm_receiving _ _ _ Hs); by destruct Hph as [-> | ->]|].
  unfold held. by destruct Hph as [-> | ->].
Qed.

Lemma nothing_received n s a e q :
  simulates n s a → sh_phase s ≠ Stopped → try_recv (sh_queue s) = (inl e, q) → q = sh_queue s.
Proof.
  intros Hs Hp Hq. pose proof (try_recv_spec (sh_queue s) (sm_receiving _ _ _ Hs Hp)) as H'. rewrite Hq in H'. naive_solver.
Qed.

Lemma first_received n s a now r q :
  simulates n s a → sh_phase s = Waiting None → try_recv (sh_queue s) = (inr r, q) →
  rearranged s (set_phase (Draining (collect_first now r)) (set_queue q s)).
Proof.
  intros Hs Hph Hq. destruct (received n s a r q Hs ltac:(by rewrite Hph) Hq) as [Hc Hr].
  apply (wait_collection _ (collect_first now r)); [unfold quiet; by rewrite Hph|by left|done|done|done|]. unfold held. rewrite Hph, Hc. done.
Qed.

Lemma draining_step n s a x now :
  simulates n s a → sh_phase s = Draining x → ∀ choice st s', coordinate choice st now s = Some s' → rearranged s s'.
Proof.
  intros Hs Hph choice st s'. unfold coordinate. rewrite Hph. destruct (held_collection n s a x Hs ltac:(auto)) as [Hr Hh].
  destruct (sm_set_aside _ _ _ x Hs ltac:(auto)) as [_ Hne].
  assert (Hqt : quiet s) by (unfold quiet; by rewrite Hph).
  pose proof (drained s x now (sh_queue s) Hqt Hne Hr Hh) as Hd. rewrite !set_queue_id in Hd.
  destruct (_ <=? _); [by intros [= <-]|].
  destruct (try_recv (sh_queue s)) as [[e|r] q] eqn:Eq; [by intros [= <-]|].
  destruct (collected n s a x r q Hs ltac:(auto) Eq) as [Hr' Hh'].
  destruct (set_aside (collect (sh_config s) x r)) eqn:Ea; intros [= <-].
  - apply drained; [done|by apply collect_ne|done|]. by rewrite Ea.
  - eapply wait_collection; [done|by left|done|by apply collect_ne|done|]. rewrite Hh'. cbn. by rewrite app_nil_r.
Qed.

Lemma collecting_step n s a x now :
  simulates n s a → sh_phase s = Collecting x → ∀ choice st s', coordinate choice st now s = Some s' → rearranged s s'.
Proof.
  intros Hs Hph choice st s'. unfold coordinate. rewrite Hph. destruct (held_collection n s a x Hs ltac:(auto)) as [Hr Hh].
  destruct (sm_set_aside _ _ _ x Hs ltac:(auto)) as [_ Hne].
  assert (Hqt : quiet s) by (unfold quiet; by rewrite Hph).
  pose proof (λ c, finish_collection s x now c (sh_queue s) Hqt Hr Hh) as Hd. rewrite set_queue_id in Hd.
  destruct choice.
  - destruct (try_recv (sh_queue s)) as [[[]|r] q] eqn:Eq; [done|intros [= <-]; by apply Hd|].
    destruct (collected n s a x r q Hs ltac:(auto) Eq) as [Hr' Hh'].
    destruct (_ || _) eqn:E; intros [= <-].
    + by apply finish_collection.
    + apply orb_false_iff in E as [Ea _]. destruct (set_aside (collect (sh_config s) x r)) eqn:Ea'; [done|].
      eapply wait_collection; [done|by right|done|by apply collect_ne|done|]. rewrite Hh'. cbn. by rewrite app_nil_r.
  - destruct (sh_close s) eqn:Ec; [|done]. intros [= <-]. by apply Hd.
  - intros [= <-]. by apply Hd.
Qed.

Lemma task_step n s a choice st now s' :
  simulates n s a → coordinate choice st now s = Some s' → ∃ a', rtc seq_step a a' ∧ simulates n s' a'.
Proof.
  intros Hs Hc.
  destruct (sh_phase s) as [[r|]|x|x|[|q queued] pending close|r k queued pending close|out queued pending close|] eqn:Hph.
  - unfold coordinate in Hc. rewrite Hph in Hc. injection Hc as <-. eapply rearranged_step; [done|].
    rewrite <-(set_queue_id s) at 2. eapply wait_collection; [unfold quiet; by rewrite Hph|by left|done|done
      |apply (sm_receiving _ _ _ Hs); by rewrite Hph|]. unfold held. by rewrite Hph.
  - assert (Hp : published s ∧ outgoing s = []) by (unfold published, outgoing; by rewrite Hph). destruct Hp as [Hp Ho].
    unfold coordinate in Hc. rewrite Hph in Hc. destruct choice; [|destruct (sh_close s) eqn:Ec; [|done]|done].
    + destruct (try_recv (sh_queue s)) as [[[]|r] q] eqn:Eq; [done| |]; injection Hc as <-.
      * apply stop_simulates; [done..|right]. unfold held. rewrite Hph. cbn.
        pose proof (try_recv_spec (sh_queue s) ltac:(apply (sm_receiving _ _ _ Hs); by rewrite Hph)) as Hq. rewrite Eq in Hq. apply Hq.
      * eapply rearranged_step; [done|]. by eapply first_received.
    + injection Hc as <-. apply stop_simulates; auto.
  - eapply rearranged_step; [done|]. by eapply draining_step.
  - eapply rearranged_step; [done|]. by eapply collecting_step.
  - assert (Hp : published s ∧ outgoing s = []) by (unfold published, outgoing; by rewrite Hph). destruct Hp as [Hpb Ho].
    unfold coordinate in Hc. rewrite Hph in Hc. injection Hc as <-. pose proof (sm_phase _ _ _ Hs) as Hp.
    unfold phase_ok in Hp. rewrite Hph in Hp. destruct close; [apply stop_simulates; auto|].
    eapply rearranged_step; [done|]. apply quiet_rearranged; try done; [unfold quiet; by rewrite Hph|unfold held; by rewrite Hph|].
    cbn. apply (sm_receiving _ _ _ Hs). by rewrite Hph.
  - unfold coordinate in Hc. rewrite Hph in Hc. injection Hc as <-. exists a. split; [done|].
    by apply (run_segment_simulates n s a st now (q :: queued) pending close Hs Hph).
  - unfold coordinate in Hc. rewrite Hph in Hc. injection Hc as <-. by apply (publish_segment_simulates n s a r k queued pending close).
  - eapply rearranged_step; [done|]. eapply answer_rearranged; [done|apply Hs| |done].
    apply (sm_receiving _ _ _ Hs). by rewrite Hph.
  - unfold coordinate in Hc. by rewrite Hph in Hc.
Qed.

(** ** Clients *)

Definition label_writes (l : label) : nat := match l with LSend op (Ok _) => op_writes op | _ => 0 end.
Definition label_ok (l : label) : Prop := match l with LSend op (Ok _) => admissible op | _ => True end.

(** A request more in the queue. *)
Lemma serving_send n s db q x m t :
  serving n s db → contents q = contents (sh_queue s) ++ [x] → (op_writes (operation x) ≤ n)%nat →
  serving (n - op_writes (operation x))
    (mkShard (sh_store s) q (sh_close s) (sh_phase s) (sh_config s) (sh_wal_metrics s) (sh_metrics s) (sh_view s) m t) db.
Proof.
  intros Hs Hq Hn. set (s' := mkShard _ _ _ _ _ _ _ _ _ _).
  assert (Hh : held s' = held s ++ [x]) by (unfold held; cbn; by rewrite Hq, app_assoc).
  assert (Hw : total_writes (operation <$> [x]) = op_writes (operation x)) by (unfold total_writes; cbn; lia).
  unfold serving, held_ops in *. cbn [sh_phase sh_store sh_view s']. rewrite Hh.
  destruct (sh_phase s) as [p|c|c|queued p close|r k queued p close|out queued p close|] eqn:Hph;
    try (destruct Hs as (j & Hj & Hs); exists j; split; [rewrite fmap_app, total_writes_app; lia|done]).
  destruct Hs as (j & db' & Hj & Hs). exists j, db'. split; [|done]. pose proof (up_segment _ _ _ _ _ _ _ _ Hs) as Hk.
  rewrite drop_app_le, fmap_app, total_writes_app; [lia|]. unfold held. rewrite Hph. cbn [held_phase]. rewrite !length_app. lia.
Qed.

Definition label_events (l : label) : list event :=
  match l with
  | LSend op (Ok t) => [Submitted t op]
  | LShutdown => [ShutDown]
  | _ => []
  end.

Lemma send_step n s a now op r s' :
  simulates n s a → send now op s = (r, s') → (label_writes (LSend op r) ≤ n)%nat → label_ok (LSend op r) →
  simulates (n - label_writes (LSend op r)) s' (foldr seq_event a (label_events (LSend op r))).
Proof.
  intros Hs. unfold send. pose proof (try_send_spec (mkQueued op (sh_next_ticket s) now) (sh_queue s)) as Hq.
  destruct (try_send _ _) as [[[]|] q]; intros [= <- <-] Hn Ha; cbn [label_writes label_ok label_events foldr seq_event] in *.
  - rewrite Nat.sub_0_r. destruct Hs as [S1 S2 S3 S4 S5 S6 S7 S8 S9]. by split.
  - by rewrite Nat.sub_0_r.
  - destruct Hq as (Q1 & Q2 & Q3 & Q4 & Q5). destruct Hs as [S1 S2 S3 S4 S5 S6 S7 S8 S9]. destruct a as [db queue answers closing].
    cbn [seq_db seq_queue seq_answers seq_closing] in *. set (new := mkQueued op (sh_next_ticket s) now) in *.
    assert (Hh : ∀ x t, held (mkShard (sh_store s) q (sh_close s) (sh_phase s) (sh_config s) (sh_wal_metrics s) (sh_metrics s)
      (sh_view s) x t) = held s ++ [new]).
    { intros. unfold held. cbn. by rewrite Q3, app_assoc. }
    split; unfold held_ops; rewrite ?Hh;
      cbn [sh_store sh_view sh_answers sh_next_ticket sh_queue sh_phase sh_close seq_db seq_queue seq_answers seq_closing]; try done.
    + by apply (serving_send n s db q new).
    + rewrite fmap_app, S2. done.
    + rewrite fmap_app. apply Forall_app. split; [done|]. by constructor.
    + destruct S5 as [N1 N2], S6 as [T1 T2]. split.
      * rewrite fmap_app. apply NoDup_app. split_and!; [done| |apply NoDup_singleton].
        intros t (r & -> & Hr)%list_elem_of_fmap [E|E%not_elem_of_nil]%elem_of_cons; [|done]. apply T1 in Hr. cbn in E. lia.
      * intros r [Hr| ->%list_elem_of_singleton]%elem_of_app; [by apply N2|]. cbn.
        change (all_answers s !! sh_next_ticket s = None). destruct (all_answers s !! sh_next_ticket s) eqn:E; [|done]. apply elem_of_dom_2, T2 in E. lia.
    + destruct S6 as [T1 T2]. split.
      * intros r [Hr| ->%list_elem_of_singleton]%elem_of_app; [apply T1 in Hr; lia|cbn; lia].
      * intros t Ht. apply T2 in Ht. lia.
Qed.

Lemma shard_step n s a l s' :
  simulates n s a → step s l s' → (label_writes l ≤ n)%nat → label_ok l →
  ∃ a', seq_run a (label_events l) a' ∧ simulates (n - label_writes l) s' a'.
Proof.
  intros Hs Hst Hn Ha. destruct Hst as [now op r s s' Hsend|s|choice st now s s' Hc].
  - eexists. split; [|by eapply send_step]. destruct r; cbn [label_events foldr]; repeat constructor.
  - exists (seq_event ShutDown a). split; [repeat constructor|]. rewrite Nat.sub_0_r.
    destruct Hs as [S1 S2 S3 S4 S5 S6 S7 S8 S9]. split; try done.
    unfold phase_ok in *. cbn. by destruct (sh_phase s).
  - rewrite Nat.sub_0_r. destruct (task_step n s a choice st now s' Hs Hc) as (a' & Hr & Hs').
    exists a'. split; [|done]. eapply seq_run_steps; [done|constructor].
Qed.
End simulation.
End CoordinatorSim.
