(* ===== verification/CoordinatorTheorems.v ===== *)
(** * What the coordinator promises

    A shard that is started on a store without faults behaves like the sequential
    shard, its reads see every answered write, every accepted request is answered,
    and its groups and its queue are bounded. *)

From S2P Require Import Prelude Wp Key Core Page Superblock Format FormatLaws Reference Cache Overlay Tree TreeSearch.
From S2P Require Import OverlayReads TreeOps TreeTxn MemStore TreeScan Lockstep DurableFile CrashFile Wal WalFrames WalReplay WalRecovery.
From S2P Require Import WalAppend StoreFile Checker Store StoreSpec StorePublish StoreTxn StoreNew TreeTheorems StoreTheorems ReadView ReadViewLaws.
From S2P Require Import ReadViewSpec ReadViewLoad Coordinator CoordinatorSpec CoordinatorSim.

Module CoordinatorTheorems.
Import WalReplay WalAppend DurableFile Core Tree TreeOps TreeTxn StoreSpec StorePublish StoreTxn StoreTheorems ReadViewSpec ReadViewLoad.
Import Coordinator CoordinatorSpec CoordinatorSim.

Section executions.
Context `{C : Crc32c} {CS : Crc32cSpec C} `{FS : DurableFileSpec F} `{WS : DurableFileSpec W} `{JS : FaultInjectorSpec J}.
Context `{QS : MpscSpec QueuedRequest Q}.
Abbreviation Store := (Store.BTreeStore F W J).
Abbreviation Shard := (AsyncShard F W J Q).
Context (lim : Overlay.StorageLimits).
Implicit Types (b : Store) (s : Shard) (a : Sequential).
Abbreviation simulates := (simulates lim).
Abbreviation seq_run := (seq_run lim).

(** ** Starting *)

(** A store that a shard can be started on. *)
Record startable (n : nat) b ss (db : Reference.ReferenceDb) : Prop := {
  sb_store : store_ok n b ss (Reference.states db);
  sb_faultless : Store.fault_injector b = None ∧ wal_reliable b;
  sb_published : Store.published_page_updates b = ∅;
  sb_short : short_keys (Reference.states db);
}.

Lemma start_simulates n b ss db cfg :
  startable n b ss db → Store.limits (Store.config b) = lim → simulates n (start_with_config b cfg : Shard) (mkSeq db [] ∅ false).
Proof.
  intros [Hok [Hj Hw] Hp Hsh] Hlim. unfold start_with_config. pose proof (from_store_spec n b ss _ Hok) as Hload. unfold wp in Hload.
  destruct (ReadView.from_store b) as [[v|e|k] b1]; [|done..]. destruct Hload as [Hv Hro].
  pose proof (read_only_store_ok _ _ _ _ _ Hok Hro) as Hok1. destruct Hro as [_ Hh Hc [[U1 U2 U3 U4 U5 U6] (U7 & _)]].
  rewrite U7, Hp. destruct (channel_spec (queue_capacity (effective cfg))) as (Q1 & Q2 & Q3); [cbn; lia|].
  set (s := mkShard _ _ _ _ _ _ _ _ _ _). assert (Hheld : held s = []) by exact Q1.
  split; unfold held_ops; rewrite ?Hheld; try done.
  - apply serving_published; [done|]. exists n. unfold held_ops. rewrite Hheld. split; [cbn; lia|]. split.
    + exists ss. by apply store_ok_published.
    + exists v. split; [done|]. by eapply (view_follows_same n n v b1).
    + done.
    + split; [cbn; by rewrite U4|]. intros w. cbn. rewrite U2. apply Hw.
    + done.
    + cbn. injection Hh. congruence.
  - split; [constructor|by intros r ?%not_elem_of_nil].
  - split; [by intros r ?%not_elem_of_nil|]. cbn. intros t. by rewrite dom_empty_L.
Qed.

(** ** Whole executions *)

Definition total_sent (ls : list label) : nat := sum_list (label_writes <$> ls).

Lemma seq_run_trans a es a1 es' a' : seq_run a es a1 → seq_run a1 es' a' → seq_run a (es ++ es') a'.
Proof. induction 1; intros; [done|by constructor; auto|eapply seq_run_step; eauto]. Qed.

(** What the clients did, as the labels of the run show it. *)
Definition events (ls : list label) : list event := ls ≫= label_events.

Lemma steps_simulates n s a ls s' :
  simulates n s a → steps s ls s' → Forall label_ok ls → (total_sent ls ≤ n)%nat →
  ∃ a', seq_run a (events ls) a' ∧ simulates (n - total_sent ls) s' a'.
Proof.
  intros Hs Hst. revert n a Hs. induction Hst as [s|s l s1 ls s' Hl Hst IH]; intros n a Hs Hok Hn.
  { exists a. split; [constructor|]. cbn. by rewrite Nat.sub_0_r. }
  apply Forall_cons in Hok as [Hok1 Hok]. change (total_sent (l :: ls)) with (label_writes l + total_sent ls)%nat in *.
  destruct (shard_step lim n s a l s1 Hs Hl ltac:(lia) Hok1) as (a1 & Ha1 & Hs1).
  destruct (IH _ _ Hs1 Hok ltac:(lia)) as (a' & Ha' & Hs').
  exists a'. split; [by eapply seq_run_trans|]. by rewrite Nat.sub_add_distr.
Qed.

Lemma seq_run_open a es a' : seq_run a es a' → ShutDown ∉ es → seq_closing a = false → seq_closing a' = false.
Proof.
  induction 1 as [a|a e es a' Hr IH|a a1 es a' Hst Hr IH]; intros Hes Hc; [done| |].
  - apply not_elem_of_cons in Hes as [He Hes]. apply IH; [done|]. by destruct e.
  - apply IH; [done|]. by destruct Hst.
Qed.

Lemma events_submitted ls t op : LSend op (Ok t) ∈ ls → Submitted t op ∈ events ls.
Proof. intros Hl. unfold events. apply list_elem_of_bind. exists (LSend op (Ok t)). split; [left|done]. Qed.

Lemma events_shutdown ls : ShutDown ∈ events ls → LShutdown ∈ ls.
Proof.
  unfold events. intros ([op [t|e|k]| |] & Hl & Hin)%list_elem_of_bind; cbn in Hl; try (by apply not_elem_of_nil in Hl); try done.
  by apply list_elem_of_singleton in Hl.
Qed.

(** ** Reads *)

(** The database in the store. *)
Lemma serving_database n s db :
  serving lim n s db → ∃ db' m ss', store_ok m (sh_store s) ss' (Reference.states db') ∧
    match sh_phase s with
    | Publishing r k queued _ _ => ∃ rs, r = Ok rs ∧ serves_all lim db (operation <$> take k queued) rs db'
    | _ => db' = db
    end.
Proof.
  unfold serving. destruct (sh_phase s); try (intros (m & _ & Hs); destruct (sv_store _ _ _ _ _ Hs) as [ss' ?]; by exists db, m, ss').
  intros (m & db' & _ & Hs). destruct (up_store _ _ _ _ _ _ _ _ _ Hs) as [ss' ?]. exists db', m, ss'.
  split; [done|]. apply (up_serves _ _ _ _ _ _ _ _ _ Hs).
Qed.

(** The answer of the reference database to a plain read. *)
Definition reference_read (db : Reference.ReferenceDb) (request : Overlay.BatchRequest) : option Overlay.BatchResponse :=
  match request with
  | Overlay.ReqGet key => Some (Overlay.RespGet (Reference.get db key))
  | Overlay.ReqQuery pk after limit => Some (Overlay.RespQuery (TreeScan.row <$> Reference.query db pk after limit))
  | Overlay.ReqScan after limit => Some (Overlay.RespScan (TreeScan.row <$> Reference.scan db after limit))
  | _ => None
  end.

Definition valid_read (request : Overlay.BatchRequest) : Prop :=
  match request with
  | Overlay.ReqGet key => valid_key key
  | Overlay.ReqQuery pk after limit =>
      valid_key (Key.new pk []) ∧ (∀ c, after = Some c → valid_key (Key.new pk c)) ∧ 0 ≤ limit
  | Overlay.ReqScan after limit => (∀ c, after = Some c → valid_key c) ∧ 0 ≤ limit
  | _ => False
  end.

Lemma wp_value {S A} (m : St S Error A) (x : A) (s : S) :
  wp m (λ y _, y = x) (λ e _, too_large e) s → (m s).1 = Ok x ∨ ∃ message, (m s).1 = Err (ResponseTooLarge message).
Proof. unfold wp. destruct (m s) as [[y|e|k] s']; cbn; [intros ->; by left|intros [message ->]; right; eauto|done]. Qed.

(** Also while a segment waits to be published, the view serves the database. *)
Lemma view_serving n s db : serving lim n s db → ∃ m b, serving_store lim m b (sh_view s) db.
Proof.
  unfold serving. destruct (sh_phase s); try (intros (m & _ & Hs); eauto). intros (m & db' & _ & Hs).
  apply (up_view _ _ _ _ _ _ _ _ _ Hs).
Qed.

Lemma try_read_spec n s a request max :
  simulates n s a → valid_read request →
  (∃ r, reference_read (seq_db a) request = Some r ∧ try_read (sh_view s) request max = Some (Ok r)) ∨
  (∃ message, try_read (sh_view s) request max = Some (Err (ResponseTooLarge message))).
Proof.
  intros Hs Hr. destruct (view_serving _ _ _ (sm_serving _ _ _ _ Hs)) as (m & b & [_ (v & -> & Hv) _ _ _ _]).
  destruct (view_follows_inv _ _ _ _ Hv) as (G & ht & Hi). unfold try_read. cbn [view_broken read_view].
  unfold Overlay.budget_new, fail_if. destruct (max <? _); cbn [mbind Result_bind]; [right; by eexists|].
  set (bud := Overlay.mkBudget _ _ _ _). destruct request as [key| | |pk after limit|after limit]; cbn in Hr; try done; cbn [reference_read].
  - destruct (wp_value _ _ _ (view_get_spec v G ht _ Hi key bud Hr)) as [-> | [message ->]]; [left|right]; by eexists.
  - destruct Hr as (H1' & H2' & H3').
    destruct (wp_value _ _ _ (view_query_spec v G ht _ Hi pk after limit bud H1' H2' H3')) as [-> | [message ->]];
      [left|right]; by eexists.
  - destruct Hr as (H1' & H2').
    destruct (wp_value _ _ _ (view_scan_spec v G ht _ Hi after limit bud H1' H2')) as [-> | [message ->]];
      [left|right]; by eexists.
Qed.

(** ** Progress *)

Definition weight (p : Phase) : nat :=
  match p with
  | Answering out _ _ _ => 7 + length out
  | Processing [] _ _ => 6
  | Waiting _ => 5
  | Draining _ => 4
  | Collecting _ => 3
  | Processing _ _ _ => 2
  | Publishing _ _ _ _ _ => 1
  | Stopped => 0
  end.
Definition rank s : nat := 8 * length (contents (sh_queue s)) + weight (sh_phase s).

(** The task is running and was not told to stop. *)
Definition running s : Prop := sh_close s = false ∧ sh_phase s ≠ Stopped.

(** A step that does something. *)
Record advances s s' : Prop := {
  ad_running : running s';
  ad_settled : settled s s';
  ad_smaller : (length (held s') < length (held s))%nat ∨ length (held s') = length (held s) ∧ (rank s' < rank s)%nat;
}.

Lemma advances_rearranged s s' :
  running s' → rearranged s s' → (rank s' < rank s)%nat → advances s s'.
Proof.
  intros Hr [R1 R2 R3 R4 R5 R6 R7 R8 _] Hlt. split; [done| |right; by rewrite R6].
  split; [intros r; rewrite R6; by left|by rewrite R3].
Qed.

Lemma receive_spec n s a :
  simulates n s a → sh_phase s ≠ Stopped →
  match try_recv (sh_queue s) with
  | (inr r, q) => length (contents (sh_queue s)) = S (length (contents q))
  | (inl _, q) => contents (sh_queue s) = []
  end.
Proof.
  intros Hs Hp. pose proof (try_recv_spec (sh_queue s) (sm_receiving _ _ _ _ Hs Hp)) as Hq.
  destruct (try_recv _) as [[e|r] q]; [apply Hq|]. destruct Hq as [E _]. by rewrite E.
Qed.

Lemma begin_group_rank now x close s :
  requests x ≠ [] → rank (begin_group now x close s) = (8 * length (contents (sh_queue s)) + 2)%nat.
Proof. intros Hne. unfold rank. cbn. destruct (requests x); [done|]. lia. Qed.

Lemma draining_rank n s a x now choice st s' :
  simulates n s a → sh_phase s = Draining x → coordinate choice st now s = Some s' → sh_close s = false →
  running s' ∧ (rank s' < rank s)%nat.
Proof.
  intros Hs Hph Hc Hcl. pose proof (receive_spec n s a Hs ltac:(by rewrite Hph)) as Hq.
  destruct (sm_set_aside _ _ _ _ x Hs ltac:(auto)) as [_ Hne]. unfold coordinate in Hc. rewrite Hph in Hc.
  assert (Hr : rank s = (8 * length (contents (sh_queue s)) + 4)%nat) by (unfold rank; by rewrite Hph). rewrite Hr.
  assert (Hfin : ∀ x q, requests x ≠ [] → (length (contents q) ≤ length (contents (sh_queue s)))%nat →
    let s1 := if waits_for_more (sh_config s) x then set_phase (Collecting x) (set_queue q s) else begin_group now x false (set_queue q s) in
    running s1 ∧ (rank s1 < 8 * length (contents (sh_queue s)) + 4)%nat).
  { intros y q Hy Hl. destruct (waits_for_more _ y).
    - split; [by split|]. unfold rank. cbn. lia.
    - split; [by split|]. rewrite begin_group_rank by done. cbn. lia. }
  cbv zeta in Hfin. pose proof (Hfin x (sh_queue s) Hne ltac:(lia)) as Hf. rewrite !set_queue_id in Hf.
  destruct (_ <=? _); [by injection Hc as <-|]. destruct (try_recv (sh_queue s)) as [[e|r] q]; [by injection Hc as <-|].
  destruct (set_aside (collect (sh_config s) x r)); injection Hc as <-.
  - apply Hfin; [by apply collect_ne|lia].
  - split; [by split|]. unfold rank. cbn. lia.
Qed.

Lemma collecting_rank n s a x now choice st s' :
  simulates n s a → sh_phase s = Collecting x → coordinate choice st now s = Some s' → sh_close s = false →
  choice ≠ CloseSignal → running s' ∧ (rank s' < rank s)%nat.
Proof.
  intros Hs Hph Hc Hcl Hch. pose proof (receive_spec n s a Hs ltac:(by rewrite Hph)) as Hq.
  destruct (sm_set_aside _ _ _ _ x Hs ltac:(auto)) as [_ Hne]. unfold coordinate in Hc. rewrite Hph in Hc.
  assert (Hr : rank s = (8 * length (contents (sh_queue s)) + 3)%nat) by (unfold rank; by rewrite Hph). rewrite Hr.
  destruct choice; [|done|].
  - destruct (try_recv (sh_queue s)) as [[[]|r] q]; [done|injection Hc as <-|].
    + split; [by split|]. rewrite begin_group_rank by done. lia.
    + destruct (_ || _); injection Hc as <-; (split; [by split|]).
      * rewrite begin_group_rank by (by apply collect_ne). cbn. lia.
      * unfold rank. cbn. lia.
  - injection Hc as <-. split; [by split|]. rewrite begin_group_rank by done. lia.
Qed.

(** While something is held, the task can make a step. *)
Lemma task_enabled n s a :
  simulates n s a → running s → held s ≠ [] ∨ outgoing s ≠ [] → ∃ choice s', coordinate choice 0 0 s = Some s'.
Proof.
  intros Hs [_ Hph] Hne. pose proof (receive_spec n s a Hs Hph) as Hq. unfold held, outgoing in Hne. unfold coordinate.
  destruct (sh_phase s) as [[r|]|x|x|[|q queued] pending close|r k queued pending close|[|[t r] out] queued pending close|]; [..|done]; try (exists Receive; eauto; fail).
  - exists Receive. destruct (try_recv (sh_queue s)) as [[e|r] q]; [rewrite Hq in Hne; by destruct Hne|eauto].
  - exists Receive. destruct (_ <=? _); [eauto|]. destruct (try_recv (sh_queue s)) as [[e|r] q]; [eauto|].
    destruct (set_aside _); eauto.
  - exists Deadline. eauto.
Qed.

(** And every step it makes does something. *)
Lemma task_advances n s a choice st now s' :
  simulates n s a → running s → held s ≠ [] ∨ outgoing s ≠ [] → coordinate choice st now s = Some s' →
  ∃ a', simulates n s' a' ∧ advances s s'.
Proof.
  intros Hs [Hcl Hph] Hne Hc. pose proof (receive_spec n s a Hs Hph) as Hq.
  assert (Hmove : rearranged s s' → running s' → (rank s' < rank s)%nat → ∃ a', simulates n s' a' ∧ advances s s').
  { intros Hr Hrun Hlt. exists a. split; [by eapply rearranged_simulates|]. by apply advances_rearranged. }
  pose proof Hc as Hc'. unfold coordinate in Hc. pose proof (sm_receiving _ _ _ _ Hs Hph) as Hrq.
  destruct (sh_phase s) as [[r|]|x|x|[|q queued] pending close|r k queued pending close|out queued pending close|] eqn:Ep; [..|done].
  - injection Hc as <-. apply Hmove; [|by split|unfold rank; cbn; rewrite Ep; cbn; lia].
    rewrite <-(set_queue_id s) at 2. eapply wait_collection; [unfold quiet; by rewrite Ep|by left|done..|].
    unfold held. by rewrite Ep.
  - rewrite Hcl in Hc. destruct choice; [|done|done]. destruct (try_recv (sh_queue s)) as [[e|r] q] eqn:Er.
    { exfalso. unfold held, outgoing in Hne. rewrite Ep in Hne. by destruct Hne. }
    injection Hc as <-. apply Hmove; [by eapply first_received|by split|]. unfold rank. cbn. rewrite Ep. cbn. lia.
  - destruct (draining_rank n s a x now _ _ _ Hs Ep Hc' Hcl). apply Hmove; [|done|done]. by eapply draining_step.
  - assert (choice ≠ CloseSignal) as Hch by (intros ->; by rewrite Hcl in Hc).
    destruct (collecting_rank n s a x now _ _ _ Hs Ep Hc' Hcl Hch). apply Hmove; [|done|done]. by eapply collecting_step.
  - pose proof (sm_phase _ _ _ _ Hs) as Hok. unfold phase_ok in Hok. rewrite Ep in Hok.
    destruct close; [by rewrite Hok in Hcl|]. injection Hc as <-.
    apply Hmove; [|by split|unfold rank; cbn; rewrite Ep; cbn; lia].
    apply quiet_rearranged; try done; [unfold quiet; by rewrite Ep|unfold held; by rewrite Ep].
  - injection Hc as <-. destruct (run_segment_simulates lim n s a st now (q :: queued) pending close Hs Ep)
      as (Hs' & Hh & Ha & Hc1 & Hq1 & r & k & Hp'); [done|].
    exists a. split; [done|]. split; [split; [by rewrite Hc1|by rewrite Hp']| |].
    + split; [intros x; rewrite Hh; by left|by rewrite Ha].
    + right. split; [by rewrite Hh|]. unfold rank. rewrite Hp', Hq1, Ep. cbn. lia.
  - injection Hc as <-. destruct (publish_segment_simulates lim n s a r k queued pending close Hs Ep) as ((a' & _ & Hs') & Hset & Hl & Hc1 & Hp').
    exists a'. split; [done|]. split; [by split; [rewrite Hc1|]|done|by left].
  - pose proof (answer_rearranged s out queued pending close s' choice st now Ep (sm_phase _ _ _ _ Hs) Hrq Hc') as Hr.
    apply Hmove; [done|split; [by rewrite (re_close _ _ Hr)|by destruct out as [|[t r] out]; injection Hc as <-]|].
    unfold rank. rewrite Ep. destruct out as [|[t r] out]; injection Hc as <-; cbn; [destruct queued; cbn; lia|lia].
Qed.

Lemma settled_trans s s1 s2 : settled s s1 → settled s1 s2 → settled s s2.
Proof.
  intros [A1 A2] [B1 B2]. split; [|by etrans]. intros r [Hr|Hr]%A1; [by apply B1|right]. by apply B2.
Qed.

(** However the task is scheduled, its steps lead to [P]: it is never stuck before, and
    it cannot run on forever. *)
Inductive eventually (P : Shard → Prop) : Shard → Prop :=
  | ev_now s : P s → eventually P s
  | ev_later s : (∃ s', step s LTask s') → (∀ s', step s LTask s' → eventually P s') → eventually P s.

Lemma eventually_mono (P P' : Shard → Prop) s : (∀ s', P s' → P' s') → eventually P s → eventually P' s.
Proof. intros HP. induction 1 as [s Hp|s He Hl IH]; [apply ev_now; auto|by apply ev_later]. Qed.

(** The task alone answers everything it holds. *)
Lemma answers_all n s a :
  simulates n s a → running s → eventually (λ s', settled s s' ∧ held s' = [] ∧ outgoing s' = []) s.
Proof.
  remember (length (held s)) as h eqn:Eh. remember (rank s) as k eqn:Ek. revert s a Eh k Ek.
  induction (lt_wf h) as [h _ IHh]. intros s a Eh k. revert s a Eh. induction (lt_wf k) as [k _ IHk].
  intros s a Eh Ek Hs Hr. destruct (decide (held s = [] ∧ outgoing s = [])) as [[E E']|E].
  { apply ev_now. split; [by split; [auto|]|done]. }
  assert (Hne : held s ≠ [] ∨ outgoing s ≠ []) by (destruct (held s); [right; naive_solver|by left]).
  destruct (task_enabled n s a Hs Hr Hne) as (choice0 & s0 & Hc0). apply ev_later; [exists s0; by econstructor|].
  intros s1 Hst. inversion Hst as [| |choice st now ? ? Hc]; subst.
  destruct (task_advances n s a choice st now s1 Hs Hr Hne Hc) as (a1 & Hs1 & [Hr1 Hset Hlt]).
  assert (eventually (λ s', settled s1 s' ∧ held s' = [] ∧ outgoing s' = []) s1) as Hev.
  { destruct Hlt as [Hlt|[Elen Hlt]]; [by eapply (IHh (length (held s1)))|by eapply (IHk (rank s1))]. }
  eapply eventually_mono; [|exact Hev]. intros s' (Hs' & Hh & Ho). split; [by eapply settled_trans|done].
Qed.

(** ** Bounds *)

Abbreviation sizes l := ((λ r, operation_size (operation r)) <$> (l : list QueuedRequest)).
























(** ** Failures *)

Lemma read_page_broken id b : Store.broken (Store.read_page_from_file id b).2 = Store.broken b.
Proof.
  unfold Store.read_page_from_file, mbind, St_bind, get_st. destruct (Store.dirty_pages b !! id); [done|].
  unfold lift_r. destruct (StoreFile.page_offset id); [|done..]. unfold Store.in_file, zoom.
  by destruct (StoreFile.read_exact_at _ _ _) as [[] f].
Qed.

Lemma load_broken fuel high pending loaded b : Store.broken (ReadView.load fuel high pending loaded b).2 = Store.broken b.
Proof.
  revert pending loaded b. induction fuel as [|fuel IH]; intros pending; induction pending as [|id pending IHp];
    intros loaded b; cbn [ReadView.load]; try done; unfold fail_when, lift_r, fail_if, mbind, St_bind; destruct (_ || _); try done;
    destruct (loaded !! id); try apply IHp; pose proof (read_page_broken id b) as Hr;
    destruct (Store.read_page_from_file id b) as [[p| |] b']; try done. by rewrite IH.
Qed.

(** A shard whose store failed does not read from its view. *)
Definition failed_view s : Prop := Store.degraded_reason (sh_store s) ≠ None → view_broken (sh_view s) ≠ None.

Lemma publish_broken b view :
  let out := publish_read_updates b view in Store.broken out.1 = Store.broken b ∧ view_broken out.2 = view_broken view.
Proof. unfold publish_read_updates. cbv zeta. by case_bool_decide. Qed.

Lemma segment_failed_view st now queued pending close s :
  failed_view s → failed_view (run_segment st now queued pending close s).
Proof.
  intros Hf. unfold run_segment. destruct (process_segment _ _) as [[rs|e|k] b]; [..|done];
    unfold failed_view, Store.degraded_reason; cbn; by destruct (Store.broken b).
Qed.

Lemma publish_failed_view r k queued pending close s :
  failed_view s → failed_view (publish_segment r k queued pending close s).
Proof.
  intros Hf. unfold publish_segment. pose proof (publish_broken (sh_store s) (sh_view s)) as Hp. cbv zeta in Hp.
  destruct (publish_read_updates _ _) as [b' view']. destruct (segment_answers _ _ _). cbn [fst snd] in Hp. destruct Hp as [P1 P2].
  unfold failed_view, Store.degraded_reason. cbn. by rewrite P1, P2.
Qed.

Lemma step_failed_view s l s' : failed_view s → step s l s' → failed_view s'.
Proof.
  intros Hf Hst. destruct Hst as [now op r s s' Hs|s|choice st now s s' Hc]; [|done|].
  - unfold send in Hs. by destruct (try_send _ _) as [[[]|] q]; injection Hs as <- <-.
  - unfold coordinate in Hc.
    destruct (sh_phase s) as [[r|]|x|x|[|q queued] pending close|r k queued pending close|[|[t r] out] queued pending close|]; cbv zeta in Hc.
    + by injection Hc as <-.
    + destruct choice; repeat case_match; simplify_eq; done.
    + repeat case_match; simplify_eq; done.
    + destruct choice; repeat case_match; simplify_eq; done.
    + injection Hc as <-. by destruct close.
    + injection Hc as <-. by apply segment_failed_view.
    + injection Hc as <-. by apply publish_failed_view.
    + by injection Hc as <-.
    + by injection Hc as <-.
    + done.
Qed.

Lemma start_failed_view b cfg : Store.degraded_reason b = None → failed_view (start_with_config b cfg : Shard).
Proof.
  intros Hb. unfold start_with_config, ReadView.from_store, mbind, St_bind, get_st.
  pose proof (load_broken (S (Z.to_nat (Store.high_water_page_id b))) (Store.high_water_page_id b) [Store.root_page_id b] ∅ b) as Hl.
  unfold Store.degraded_reason in *. rewrite Hb in Hl. intros Hd. destruct Hd.
  destruct (ReadView.load _ _ _ _ b) as [[pages| |] b']; exact Hl.
Qed.

Lemma steps_failed_view s ls s' : failed_view s → steps s ls s' → failed_view s'.
Proof. intros Hf Hst. induction Hst as [s|s l s1 ls s' Hl Hst IH]; [done|]. apply IH. by eapply step_failed_view. Qed.

End executions.

(** ** Properties *)

Section theorems.
Context `{C : Crc32c} {CS : Crc32cSpec C} `{FS : DurableFileSpec F} `{WS : DurableFileSpec W} `{JS : FaultInjectorSpec J}.
Context `{QS : MpscSpec QueuedRequest Q}.
Abbreviation Store := (Store.BTreeStore F W J).
Abbreviation Shard := (AsyncShard F W J Q).
Implicit Types (b : Store) (s : Shard) (a : Sequential).
Abbreviation limits_of_store b := (Store.limits (Store.config b)).

(** C7: the coordinator refines the sequential shard.  A shard is started on a store
    without faults; its clients send transactions, puts, deletes, transactional reads and
    observations, with keys of at most 1464 encoded bytes or beyond the documented limit,
    and may shut it down; the task is scheduled in any way.  At every moment the
    answers it has given or is about to send are those of a shard which serves
    the accepted requests one at a time and in their order on the reference database;
    what it still holds is the queue of that shard, and its store holds that shard's
    database, or while a segment is processed and not yet published, the database that
    the shard has after the requests of this segment. *)
Theorem shard_refines_sequential n b ss db cfg ls s :
  startable n b ss db → steps (start_with_config b cfg) ls s → Forall label_ok ls → (total_sent ls ≤ n)%nat →
  ∃ a db' m ss', seq_run (limits_of_store b) (mkSeq db [] ∅ false) (events ls) a ∧
    send_answers (outgoing s) (sh_answers s) = seq_answers a ∧ tag <$> held s = seq_queue a ∧
    store_ok m (sh_store s) ss' (Reference.states db') ∧
    match sh_phase s with
    | Publishing r k queued _ _ => ∃ rs, r = Ok rs ∧ serves_all (limits_of_store b) (seq_db a) (operation <$> take k queued) rs db'
    | _ => db' = seq_db a
    end.
Proof.
  intros Hb Hst Hok Hn. pose proof (start_simulates _ n b ss db cfg Hb eq_refl) as Hs.
  destruct (steps_simulates _ n _ _ ls s Hs Hst Hok Hn) as (a & Hr & Hs'). exists a.
  destruct (serving_database _ _ _ _ (sm_serving _ _ _ _ Hs')) as (db' & m & ss' & Hok' & Hdb).
  exists db', m, ss'. split_and!; [done|apply Hs'|apply Hs'|done|done].
Qed.

(** C8: a read that bypasses the queue is current.  On a shard as above, it is
    answered at once, from the view alone, with what the reference database of the
    sequential shard holds at that moment: all requests that were answered, and those
    of the segment whose answers are being sent; only the response budget can refuse
    it. *)
Theorem shard_reads_are_current n b ss db cfg ls s request max :
  startable n b ss db → steps (start_with_config b cfg) ls s → Forall label_ok ls → (total_sent ls ≤ n)%nat →
  valid_read request →
  ∃ a, seq_run (limits_of_store b) (mkSeq db [] ∅ false) (events ls) a ∧
    send_answers (outgoing s) (sh_answers s) = seq_answers a ∧
    match execute request max s with
    | inl (Ok r) => reference_read (seq_db a) request = Some r
    | inl (Err e) => ∃ message, e = ResponseTooLarge message
    | inl (Stuck _) | inr _ => False
    end.
Proof.
  intros Hb Hst Hok Hn Hr. pose proof (start_simulates _ n b ss db cfg Hb eq_refl) as Hs.
  destruct (steps_simulates _ n _ _ ls s Hs Hst Hok Hn) as (a & Ha & Hs').
  exists a. split_and!; [done|apply Hs'|]. unfold execute.
  destruct (try_read_spec _ _ s a request max Hs' Hr) as [(r & E & ->)|(message & ->)]; [done|by exists message].
Qed.

(** C9: every accepted request is answered.  On a shard as above that was not told to
    shut down, however the task is scheduled, its own steps lead without new requests to
    a state in which every request that was ever accepted has its answer and nothing is
    held: the task is not stuck before and cannot run on forever. *)
Theorem shard_answers_everything n b ss db cfg ls s :
  startable n b ss db → steps (start_with_config b cfg) ls s → Forall label_ok ls → (total_sent ls ≤ n)%nat →
  LShutdown ∉ ls → sh_phase s ≠ Stopped →
  eventually (λ s', held s' = [] ∧ outgoing s' = [] ∧ ∀ t op, LSend op (Ok t) ∈ ls → t ∈ dom (sh_answers s')) s.
Proof.
  intros Hb Hst Hok Hn Hopen Hph. pose proof (start_simulates _ n b ss db cfg Hb eq_refl) as Hs.
  destruct (steps_simulates _ n _ _ ls s Hs Hst Hok Hn) as (a & Ha & Hs').
  assert (Hes : ShutDown ∉ events ls) by (intros ?%events_shutdown; done).
  assert (Hrun : running s) by (split; [rewrite (sm_closing _ _ _ _ Hs'); by eapply seq_run_open|done]).
  eapply eventually_mono; [|by eapply answers_all]. intros s' ([T1 T2] & Hend & Hout).
  assert (Hans : all_answers s' = sh_answers s') by (unfold all_answers; by rewrite Hout).
  rewrite Hans in T2. split_and!; [done..|]. intros t op Hl.
  destruct (seq_run_keeps _ _ _ _ t op Ha eq_refl Hes) as [Hq|Hd]; [left; by apply events_submitted| |].
  - rewrite <-(sm_queue _ _ _ _ Hs') in Hq. apply list_elem_of_fmap in Hq as (r & [= -> ->] & Hr).
    destruct (T1 r Hr) as [Hh|Hd]; [|by rewrite <-Hans]. rewrite Hend in Hh. by apply not_elem_of_nil in Hh.
  - rewrite <-(sm_answers _ _ _ _ Hs') in Hd. by apply T2.
Qed.


(** C10: the shard is fail-stop also for reads.  On any store and under any faults, once
    a persistence failure has taken the store out of service, no request is answered
    from the read view any more: each is refused with the reason. *)
Theorem failed_shard_refuses_reads b cfg ls s request max :
  Store.degraded_reason b = None → steps (start_with_config b cfg) ls s → Store.degraded_reason (sh_store s) ≠ None →
  ∃ message, execute request max s = inl (Err (Store.not_serving message)).
Proof.
  intros Hb Hst Hd. pose proof (steps_failed_view _ _ _ (start_failed_view b cfg Hb) Hst Hd) as Hv.
  unfold execute, try_read. destruct (view_broken (sh_view s)) as [message|]; [by exists message|done].
Qed.
End theorems.

(** ** Concrete instances *)
Section examples.
#[local] Existing Instance Castagnoli.instance.
#[local] Existing Instance Castagnoli.spec.
Abbreviation TestStore := (Store.BTreeStore CrashFile.CrashableFile CrashFile.CrashableFile CrashFile.CrashInjector).
Abbreviation TestShard :=
  (AsyncShard CrashFile.CrashableFile CrashFile.CrashableFile CrashFile.CrashInjector (Fifo QueuedRequest)).

(** Executions from a script. *)
Inductive move : Type := Ask (op : CoordinatorOperation) | Turn (choice : Choice).

Fixpoint play (ms : list move) (s : TestShard) : option (list label * TestShard) :=
  match ms with
  | [] => Some ([], s)
  | m :: ms' =>
      '(l, s1) ← match m with
                 | Ask op => let '(r, s1) := send 0 op s in Some (LSend op r, s1)
                 | Turn choice => s1 ← coordinate choice 0 0 s; Some (LTask, s1)
                 end;
      '(ls, s2) ← play ms' s1; Some (l :: ls, s2)
  end.

Lemma play_steps ms s ls s' : play ms s = Some (ls, s') → steps s ls s'.
Proof.
  revert s ls. induction ms as [|m ms IH]; intros s ls; cbn [play]; [intros [= <- <-]; constructor|].
  intros ([l s1] & Hm & ([ls' s2] & Hp & [= <- <-])%bind_Some)%bind_Some. econstructor; [|by apply IH].
  destruct m as [op|choice]; [destruct (send 0 op s) as [r s0] eqn:Es; injection Hm as <- <-; by econstructor|].
  apply bind_Some in Hm as (s0 & Hc & [= <- <-]). by econstructor.
Qed.

Definition fresh_store (j : option CrashFile.CrashInjector) : option TestStore :=
  match (Store.open_with_wal_internal Store.default_config (empty_files j)).1 with Ok b => Some b | _ => None end.

Lemma fresh_published : (λ b, bool_decide (Store.published_page_updates b = ∅)) <$> fresh_store None = Some true.
Proof. vm_compute. reflexivity. Qed.

Lemma fresh_startable n :
  Z.of_nat n ≤ FRESH_WRITES → ∃ b, fresh_store None = Some b ∧ startable n b [] Reference.new.
Proof.
  intros Hn. destruct (opened_store None n Hn) as (b & s' & Hb & Hok & Hj & Hw). exists b.
  assert (E : fresh_store None = Some b) by (unfold fresh_store; by rewrite Hb). split; [exact E|].
  pose proof fresh_published as Hp. rewrite E in Hp. injection Hp as Hp. apply bool_decide_eq_true in Hp.
  exact {| sb_store := Hok; sb_faultless := conj Hj Hw; sb_published := Hp; sb_short := TreeTheorems.empty_short |}.
Qed.

(** A transaction that is sent, collected, processed and published; its answer is about
    to be sent, and the observation is still held. *)
Definition sample_moves : list move :=
  [Ask (Transaction TreeTheorems.sample_put); Ask (Observe [TreeTheorems.sample_key]); Turn Receive; Turn Receive;
   Turn Receive; Turn Receive; Turn Receive].
Definition sample_labels : list label :=
  [LSend (Transaction TreeTheorems.sample_put) (Ok 0%nat); LSend (Observe [TreeTheorems.sample_key]) (Ok 1%nat); LTask;
   LTask; LTask; LTask; LTask].

Definition is_stopped (s : TestShard) : bool := match sh_phase s with Stopped => true | _ => false end.

Lemma sample_plays :
  (λ b, (λ r, (r.1, is_stopped r.2)) <$> play sample_moves (start_with_config b default_config)) <$> fresh_store None =
  Some (Some (sample_labels, false)).
Proof. vm_compute. reflexivity. Qed.

Lemma sample_run :
  ∃ b (s : TestShard), startable 5 b [] Reference.new ∧ steps (start_with_config b default_config) sample_labels s ∧
    sh_phase s ≠ Stopped.
Proof.
  destruct (fresh_startable 5 ltac:(lia)) as (b & Hb & Hst). pose proof sample_plays as Hp. rewrite Hb in Hp.
  apply (inj Some) in Hp.
  destruct (play sample_moves (start_with_config b default_config)) as [[ls s]|] eqn:E; [|discriminate Hp].
  injection Hp as -> Hs. exists b, s. split; [exact Hst|]. split; [exact (play_steps _ _ _ _ E)|].
  unfold is_stopped in Hs. by destruct (sh_phase s).
Qed.

Lemma sample_labels_ok : Forall label_ok sample_labels.
Proof.
  unfold sample_labels.
  repeat (apply Forall_cons_2; [try exact I|]); [|exact TreeTheorems.sample_key_valid|apply Forall_nil_2|apply Forall_nil_2].
  exists TreeTheorems.sample_put. split; [done|exact TreeTheorems.sample_put_fits].
Qed.

Lemma sample_labels_sent : (total_sent sample_labels ≤ 5)%nat.
Proof. vm_compute. lia. Qed.

Lemma shard_refines_sequential_witness :
  ∃ b (s : TestShard), steps (start_with_config b default_config) sample_labels s ∧
  let lim := Store.limits (Store.config b) in
  ∃ a db' m ss', seq_run lim (mkSeq Reference.new [] ∅ false) (events sample_labels) a ∧
    send_answers (outgoing s) (sh_answers s) = seq_answers a ∧ tag <$> held s = seq_queue a ∧
    store_ok m (sh_store s) ss' (Reference.states db') ∧
    match sh_phase s with
    | Publishing r k queued _ _ => ∃ rs, r = Ok rs ∧ serves_all lim (seq_db a) (operation <$> take k queued) rs db'
    | _ => db' = seq_db a
    end.
Proof.
  destruct sample_run as (b & s & Hb & Hst & _). exists b, s. split; [exact Hst|].
  exact (shard_refines_sequential 5 b [] Reference.new default_config sample_labels s Hb Hst sample_labels_ok sample_labels_sent).
Defined.

Lemma shard_reads_are_current_witness :
  ∃ b (s : TestShard), steps (start_with_config b default_config) sample_labels s ∧
  let request := Overlay.ReqGet TreeTheorems.sample_key in
  ∃ a, seq_run (Store.limits (Store.config b)) (mkSeq Reference.new [] ∅ false) (events sample_labels) a ∧
    send_answers (outgoing s) (sh_answers s) = seq_answers a ∧
    match execute request 1000 s with
    | inl (Ok r) => reference_read (seq_db a) request = Some r
    | inl (Err e) => ∃ message, e = ResponseTooLarge message
    | inl (Stuck _) | inr _ => False
    end.
Proof.
  destruct sample_run as (b & s & Hb & Hst & _). exists b, s. split; [exact Hst|].
  exact (shard_reads_are_current 5 b [] Reference.new default_config sample_labels s (Overlay.ReqGet TreeTheorems.sample_key) 1000
    Hb Hst sample_labels_ok sample_labels_sent TreeTheorems.sample_key_valid).
Defined.

Lemma shard_answers_everything_witness :
  ∃ b (s : TestShard), steps (start_with_config b default_config) sample_labels s ∧
  eventually (λ s', held s' = [] ∧ outgoing s' = [] ∧ ∀ t op, LSend op (Ok t) ∈ sample_labels → t ∈ dom (sh_answers s')) s.
Proof.
  destruct sample_run as (b & s & Hb & Hst & Hp). exists b, s. split; [exact Hst|].
  refine (shard_answers_everything 5 b [] Reference.new default_config sample_labels s Hb Hst sample_labels_ok sample_labels_sent _ Hp).
  unfold sample_labels. intros Hin. repeat (apply elem_of_cons in Hin as [Hin|Hin]; [discriminate Hin|]).
  exact (not_elem_of_nil _ Hin).
Defined.


(** A commit that fails before it is published. *)
Definition failing_moves : list move := [Ask (Transaction TreeTheorems.sample_put); Turn Receive; Turn Receive; Turn Receive].

Lemma failing_plays :
  (λ b, (Store.degraded_reason b,
    (λ r, bool_decide (Store.degraded_reason (sh_store r.2) = None)) <$> play failing_moves (start_with_config b default_config)))
    <$> fresh_store failing =
  Some (None, Some false).
Proof. vm_compute. reflexivity. Qed.

Lemma failed_shard_refuses_reads_witness :
  ∃ b ls (s : TestShard) message, steps (start_with_config b default_config) ls s ∧
    execute (Overlay.ReqGet TreeTheorems.sample_key) 1000 s = inl (Err (Store.not_serving message)).
Proof.
  pose proof failing_plays as Hp. destruct (fresh_store failing) as [b|]; [|discriminate Hp].
  apply (inj Some), pair_eq in Hp as [Hb Hp].
  destruct (play failing_moves (start_with_config b default_config)) as [[ls s]|] eqn:E; [|discriminate Hp].
  injection Hp as Hs. apply bool_decide_eq_false in Hs. pose proof (play_steps _ _ _ _ E) as Hst.
  destruct (failed_shard_refuses_reads b default_config ls s (Overlay.ReqGet TreeTheorems.sample_key) 1000 Hb Hst Hs) as [message Hm].
  exists b, ls, s, message. split; [exact Hst|exact Hm].
Defined.
End examples.
End CoordinatorTheorems.
