(* ===== verification/Transport.v ===== *)
(** * Streams

    The client and the server talk over bidirectional streams of the QUIC library quinn.
    The library is not part of the repository: a stream is the class [BiStream] of the
    four operations that the code uses, with their documented behaviour as the laws
    [BiStreamSpec].  [Wire] is an instance: the bytes that will arrive, whether the peer
    finishes its side, and what was written. *)

From S2P Require Import Prelude.

(** An operation fails with the text of its error. *)
Class BiStream (B : Type) : Type := {
  read_exact : Z → B → (string + bytes) * B;
  read_to_end : Z → B → (string + bytes) * B;
  write_all : bytes → B → option string * B;
  finish : B → option string * B;
}.

(** What is still to be read, whether the peer has finished after it, what was written
    and whether this side is finished. *)
Class BiStreamSpec (B : Type) {S : BiStream B} : Type := {
  incoming : B → bytes;
  peer_finished : B → bool;
  outgoing : B → bytes;
  own_finished : B → bool;
  read_exact_spec : ∀ n b, 0 ≤ n →
    match read_exact n b with
    | (inr x, b') => n ≤ len (incoming b) ∧ x = take (Z.to_nat n) (incoming b) ∧
        incoming b' = drop (Z.to_nat n) (incoming b) ∧ peer_finished b' = peer_finished b ∧
        outgoing b' = outgoing b ∧ own_finished b' = own_finished b
    | (inl _, b') => len (incoming b) < n ∧ outgoing b' = outgoing b ∧ own_finished b' = own_finished b
    end;
  read_to_end_spec : ∀ n b, 0 ≤ n →
    match read_to_end n b with
    | (inr x, b') => x = incoming b ∧ peer_finished b = true ∧ len x ≤ n ∧
        outgoing b' = outgoing b ∧ own_finished b' = own_finished b
    | (inl _, b') => (peer_finished b = false ∨ n < len (incoming b)) ∧
        outgoing b' = outgoing b ∧ own_finished b' = own_finished b
    end;
  write_all_spec : ∀ x b,
    match write_all x b with
    | (None, b') => outgoing b' = outgoing b ++ x ∧ own_finished b' = own_finished b
    | (Some _, b') => own_finished b' = own_finished b
    end;
  finish_spec : ∀ b,
    match finish b with
    | (None, b') => outgoing b' = outgoing b ∧ own_finished b' = true
    | (Some _, b') => own_finished b' = own_finished b
    end;
}.

(** ** A stream between two peers *)

Record Wire : Type := mkWire {
  wire_in : bytes;
  wire_in_finished : bool;
  wire_out : bytes;
  wire_out_finished : bool;
  wire_writable : bool;
}.

#[global] Instance wire_stream : BiStream Wire := {
  read_exact n b :=
    if len (wire_in b) <? n then (inl "finished early", b)
    else (inr (take (Z.to_nat n) (wire_in b)),
          mkWire (drop (Z.to_nat n) (wire_in b)) (wire_in_finished b) (wire_out b) (wire_out_finished b) (wire_writable b));
  read_to_end n b :=
    if negb (wire_in_finished b) then (inl "connection lost", b)
    else if n <? len (wire_in b) then (inl "stream too long", b)
    else (inr (wire_in b), mkWire [] true (wire_out b) (wire_out_finished b) (wire_writable b));
  write_all x b :=
    if wire_writable b
    then (None, mkWire (wire_in b) (wire_in_finished b) (wire_out b ++ x) (wire_out_finished b) true)
    else (Some "sending stopped by peer", b);
  finish b :=
    if wire_writable b
    then (None, mkWire (wire_in b) (wire_in_finished b) (wire_out b) true true)
    else (Some "closed stream", b);
}.

#[global] Program Instance wire_spec : BiStreamSpec Wire := {
  incoming := wire_in;
  peer_finished := wire_in_finished;
  outgoing := wire_out;
  own_finished := wire_out_finished;
}.
Next Obligation. intros n b Hn. cbn. destruct (Z.ltb_spec (len (wire_in b)) n); cbn; [done|]. by split_and!. Qed.
Next Obligation.
  intros n b Hn. cbn. destruct (wire_in_finished b) eqn:E; cbn; [|by auto].
  destruct (Z.ltb_spec n (len (wire_in b))); cbn; [by auto|]. by split_and!.
Qed.
Next Obligation. intros x b. cbn. by destruct (wire_writable b). Qed.
Next Obligation. intros b. cbn. by destruct (wire_writable b). Qed.
