(* ===== verification/TransportLaws.v ===== *)
(** * Frames on streams

    Client and server read a frame in the same steps: the header, a check of the length,
    the payload, and the end of the stream.  These steps succeed exactly when the bytes
    of the finished stream are one frame. *)

From S2P Require Import Prelude Key Core Service Protocol ProtocolLaws Transport.

Module TransportLaws.
Import Protocol ProtocolLaws.

Lemma header_length_range b h :
  is_bytes b → len b = HEADER_SIZE → decode_header b = Ok h → 0 ≤ payload_length h ≤ U32_MAX.
Proof.
  intros Hb Hl Hd. rewrite decode_header_whole in Hd by lia. unfold fail_if, mbind, Result_bind in Hd. repeat case_match; simplify_eq. cbn [payload_length].
  assert (u32 (from_be b.[7; 11))); [|ulia]. apply from_le_u32; [by apply Forall_reverse, is_bytes_slice|].
  assert (len b.[7; 11) = 4) as E by (rewrite len_slice; unfold HEADER_SIZE in *; lia).
  unfold len in *. rewrite length_reverse. lia.
Qed.

Lemma split_frame_ok f h :
  HEADER_SIZE ≤ len f → decode_header f.[0; HEADER_SIZE) = Ok h → len f = HEADER_SIZE + payload_length h →
  split_frame f = Ok (h, drop (Z.to_nat HEADER_SIZE) f).
Proof.
  intros Hl Hd He. unfold split_frame, fail_if. rewrite (proj2 (Z.ltb_ge _ _)) by lia. cbn [mbind Result_bind].
  rewrite Hd. cbn [mbind Result_bind]. by rewrite He, Z.eqb_refl.
Qed.

Lemma split_frame_parts f h payload :
  split_frame f = Ok (h, payload) →
  HEADER_SIZE ≤ len f ∧ decode_header f.[0; HEADER_SIZE) = Ok h ∧ len f = HEADER_SIZE + payload_length h ∧
  payload = drop (Z.to_nat HEADER_SIZE) f.
Proof.
  unfold split_frame, fail_if. destruct (Z.ltb_spec (len f) HEADER_SIZE); [done|]. cbn [mbind Result_bind].
  destruct (decode_header _) as [h'| |]; [|done..]. cbn [mbind Result_bind].
  destruct (Z.eqb_spec (len f) (HEADER_SIZE + payload_length h')) as [E|]; [|done]. cbn [negb mbind Result_bind].
  by intros [= -> <-].
Qed.

Lemma valid_length h payload maximum :
  validate_payload_length h payload maximum = Ok tt → HEADER_SIZE + payload_length h ≤ maximum.
Proof.
  unfold validate_payload_length. destruct (checked_add _ _) as [n|] eqn:E; [|done]. apply checked_add_Some in E as [-> _].
  cbn [ok_or mbind Result_bind]. unfold fail_if. by destruct (Z.ltb_spec maximum (HEADER_SIZE + payload_length h)).
Qed.

(** ** Reading *)

Section reading.
Context `{SB : BiStreamSpec B}.
Implicit Types (b : B).

(** The bytes of a stream are bytes. *)
Definition sane b : Prop := is_bytes (incoming b) ∧ len (incoming b) ≤ U64_MAX.

Lemma read_header b :
  sane b →
  match read_exact HEADER_SIZE b with
  | (inr x, b') => HEADER_SIZE ≤ len (incoming b) ∧ x = (incoming b).[0; HEADER_SIZE) ∧
      incoming b' = drop (Z.to_nat HEADER_SIZE) (incoming b) ∧ peer_finished b' = peer_finished b ∧
      outgoing b' = outgoing b ∧ own_finished b' = own_finished b
  | (inl _, b') => len (incoming b) < HEADER_SIZE ∧ outgoing b' = outgoing b ∧ own_finished b' = own_finished b
  end.
Proof.
  intros _. pose proof (read_exact_spec HEADER_SIZE b ltac:(done)) as Hr. destruct (read_exact HEADER_SIZE b) as [[e|x] b']; [done|].
  destruct Hr as (H1 & -> & H2). split; [done|]. split; [|done]. unfold slice. by rewrite drop_0, Z.sub_0_r.
Qed.

(** The payload, and then the end of the stream. *)
Lemma read_payload b n :
  0 ≤ n →
  match read_exact n b with
  | (inl _, b') => len (incoming b) < n ∧ outgoing b' = outgoing b ∧ own_finished b' = own_finished b
  | (inr x, b1) => outgoing b1 = outgoing b ∧ own_finished b1 = own_finished b ∧
      match read_to_end 1 b1 with
      | (inl _, b') => (peer_finished b = false ∨ len (incoming b) ≠ n) ∧ outgoing b' = outgoing b ∧ own_finished b' = own_finished b
      | (inr y, b') => outgoing b' = outgoing b ∧ own_finished b' = own_finished b ∧
          (y = [] → x = incoming b ∧ len (incoming b) = n ∧ peer_finished b = true) ∧ (y ≠ [] → len (incoming b) ≠ n)
      end
  end.
Proof.
  intros Hn. pose proof (read_exact_spec n b Hn) as Hr. destruct (read_exact n b) as [[e|x] b1]; [done|].
  destruct Hr as (H1 & -> & H2 & H3 & H4 & H5). split; [done|]. split; [done|].
  pose proof (read_to_end_spec 1 b1 ltac:(done)) as He. assert (Hd : len (incoming b1) = len (incoming b) - n).
  { rewrite H2. unfold len. rewrite length_drop. unfold len in H1. lia. }
  destruct (read_to_end 1 b1) as [[e|y] b'].
  - destruct He as ([Hf|Hlt] & E1 & E2); rewrite E1, E2, H4, H5; (split; [|done]); [left; congruence|right; lia].
  - destruct He as (-> & Hf & _ & E1 & E2). rewrite E1, E2, H4, H5. split_and!; [done|done| |].
    + intros E. rewrite E in Hd. change (len (@nil Z)) with 0 in Hd. split_and!; [|lia|congruence].
      apply take_ge. unfold len in *. lia.
    + intros E Hl. apply E. apply length_zero_iff_nil. unfold len in Hd. unfold len in Hl. lia.
Qed.
End reading.
End TransportLaws.
