(* ===== verification/Client.v ===== *)
(** * The client

    Models src/crates/dodb-client/src/lib.rs: the errors a caller sees, the exchange of one
    request on a stream, and the manager of the shared connection.  Its state is behind a
    mutex; every critical section is a function of that state, and the tasks that call
    them are a step relation.  A connection of the QUIC library is a value of a type [K];
    whether it has been closed, the result of dialling and the time are inputs.  The
    [Notify] of the tokio library is a counter of [notify_waiters] calls: a [Notified]
    future completes once it was called after the future was created. *)

From S2P Require Import Prelude Key Core Service Protocol Transport.

Module Client.
Import Core Protocol.

(** ** Errors *)

Inductive ClientError : Type :=
  | InvalidInput (detail : string)
  | Tls (detail : string)
  | Endpoint (detail : string)
  | Transport (detail : string)
  | ProtocolFailure (error : ProtocolError)
  | Application (error : ApplicationError)
  | UnknownMutationOutcome (detail : bytes) (cause : option ApplicationError).

Definition invalidates_connection (e : ClientError) : bool :=
  match e with
  | Endpoint _ | Transport _ | ProtocolFailure _ | UnknownMutationOutcome _ None => true
  | _ => false
  end.

Definition unexpected_response (expected actual : Z) : ClientError := ProtocolFailure (InvalidResponseType expected actual).

Definition uncertain_mutation (mutation : bool) (detail : string) : ClientError :=
  if mutation then UnknownMutationOutcome (string_bytes detail) None else Transport detail.

Definition uncertain_protocol (mutation : bool) (error : ProtocolError) : ClientError :=
  if mutation then UnknownMutationOutcome (string_bytes (error_to_string error)) None else ProtocolFailure error.

Definition response_opcode_for_request (request : Service.Request) : Z := request_opcode request.

(** ** Trusted certificates *)

Record ClientTlsConfig : Type := mkTls { root_certificates : list bytes }.

Definition from_der (certificates : list bytes) : Result ClientError ClientTlsConfig :=
  fail_if (bool_decide (certificates = [])) (Tls "at least one trusted root certificate is required");;
  Ok (mkTls certificates).

(** [certs] is [rustls_pemfile::certs]. *)
Definition from_pem (certs : bytes → string + list bytes) (pem : bytes) : Result ClientError ClientTlsConfig :=
  match certs pem with
  | inl error => Err (Tls error)
  | inr certificates => from_der certificates
  end.

(** ** One request *)

Section exchange.
Context `{BS : BiStream B} (limits : ProtocolLimits).

(** The frame that comes back, from its first byte to the decoded envelope. *)
Definition read_response (mutation : bool) (expected_response_type : Z) (b : B) : Result ClientError ResponseEnvelope * B :=
  match read_exact HEADER_SIZE b with
  | (inl error, b) => (Err (uncertain_mutation mutation ("response header failed: " +:+ error)), b)
  | (inr header_bytes, b) =>
      match decode_header header_bytes with
      | Err error => (Err (uncertain_protocol mutation error), b)
      | Stuck k => (Stuck k, b)
      | Ok header =>
          let frame_length := saturating_add HEADER_SIZE (payload_length header) in
          if max_response_frame_size limits <? frame_length then
            (Err (uncertain_protocol mutation (PayloadTooLarge frame_length (max_response_frame_size limits))), b)
          else
            match read_exact (payload_length header) b with
            | (inl error, b) => (Err (uncertain_mutation mutation ("response payload failed: " +:+ error)), b)
            | (inr payload, b) =>
                match read_to_end 1 b with
                | (inl _, b) => (Err (uncertain_protocol mutation TrailingBytes), b)
                | (inr trailing, b) =>
                    if negb (bool_decide (trailing = [])) then (Err (uncertain_protocol mutation TrailingBytes), b)
                    else
                      match decode_response_parts limits header payload (Some expected_response_type) with
                      | Err error => (Err (uncertain_protocol mutation error), b)
                      | Stuck k => (Stuck k, b)
                      | Ok envelope => (Ok envelope, b)
                      end
                end
            end
      end
  end.

(** The last [match] of [execute_on_connection]. *)
Definition response_of (mutation : bool) (envelope : ResponseEnvelope) : Result ClientError Service.Response :=
  match envelope with
  | SuccessEnvelope response => Ok response
  | ErrorEnvelope error =>
      match mutation, mutation_outcome error with
      | true, Unknown => Err (UnknownMutationOutcome (detail error) (Some error))
      | _, _ => Err (Application error)
      end
  end.

(** [opened] is the result of [open_bi]. *)
Definition execute_on_connection (opened : string + B) (mutation : bool) (expected_response_type : Z) (encoded_request : bytes)
    : Result ClientError Service.Response * option B :=
  match opened with
  | inl error => (Err (uncertain_mutation mutation error), None)
  | inr b =>
      match write_all encoded_request b with
      | (Some error, b) => (Err (uncertain_mutation mutation ("request write failed: " +:+ error)), Some b)
      | (None, b) =>
          match finish b with
          | (Some error, b) => (Err (uncertain_mutation mutation ("request finish failed: " +:+ error)), Some b)
          | (None, b) =>
              let '(r, b) := read_response mutation expected_response_type b in
              (r ≫= response_of mutation, Some b)
          end
      end
  end.
End exchange.

(** The responses of the typed methods. *)
Definition get_of (r : Result ClientError Service.Response) : Result ClientError RevisionState :=
  x ← r; match x with Service.GetResponse state => Ok state | _ => Err (unexpected_response 1 0) end.
Definition put_of (r : Result ClientError Service.Response) : Result ClientError Revision :=
  x ← r; match x with Service.PutResponse revision => Ok revision | _ => Err (unexpected_response 2 0) end.
Definition delete_of (r : Result ClientError Service.Response) : Result ClientError Revision :=
  x ← r; match x with Service.DeleteResponse revision => Ok revision | _ => Err (unexpected_response 3 0) end.
Definition query_of (r : Result ClientError Service.Response) : Result ClientError (list Service.Document) :=
  x ← r; match x with Service.QueryResponse rows => Ok rows | _ => Err (unexpected_response 4 0) end.
Definition scan_of (r : Result ClientError Service.Response) : Result ClientError (list Service.Document) :=
  x ← r; match x with Service.ScanResponse rows => Ok rows | _ => Err (unexpected_response 5 0) end.
Definition transact_of (r : Result ClientError Service.Response) : Result ClientError Service.TransactionOutcome :=
  x ← r; match x with Service.TransactResponse outcome => Ok outcome | _ => Err (unexpected_response 8 0) end.

(** ** Reconnecting *)

(** Durations and instants are in nanoseconds. *)
Definition RECONNECT_BACKOFF_BASE : Z := 50 * 1000000.
Definition RECONNECT_BACKOFF_MAX : Z := 1000000000.

(** A [Duration] has a [u64] of seconds. *)
Definition DURATION_MAX : Z := U64_MAX * 1000000000 + 999999999.

Definition reconnect_delay (failures : Z) : Z :=
  let shift := Z.min (Z.max (failures - 1) 0) 5 in
  let product := RECONNECT_BACKOFF_BASE * Z.shiftl 1 shift in
  Z.min (if product <=? DURATION_MAX then product else RECONNECT_BACKOFF_MAX) RECONNECT_BACKOFF_MAX.

Definition generation_is_current (current_generation : option Z) (failed_generation : Z) : bool :=
  bool_decide (current_generation = Some failed_generation).

Section manager.
Context {K : Type}.

Record InstalledConnection : Type := mkInstalled { connection : K; installed_generation : Z }.

Record ConnectionState : Type := mkState {
  current : option InstalledConnection;
  generation : Z;
  reconnecting : bool;
  failures : Z;
  next_attempt_at : option Z;
  closed : bool;
}.

(** [from_endpoint]. *)
Definition initial : ConnectionState := mkState None 0 false 0 None false.
Definition from_endpoint (limits : ProtocolLimits) : Result ClientError ConnectionState :=
  match validate_limits limits with
  | Ok _ => Ok initial
  | Err error => Err (ProtocolFailure error)
  | Stuck k => Stuck k
  end.

Definition set_current (x : option InstalledConnection) (s : ConnectionState) : ConnectionState :=
  mkState x (generation s) (reconnecting s) (failures s) (next_attempt_at s) (closed s).

Inductive ReconnectAction : Type := Wait | Sleep (duration : Z) | Dial.

Definition explicitly_closed : ClientError := Endpoint "client connection is explicitly closed".

(** The critical section of [ensure_connection].  [open k] says that [k] has no close
    reason; [now] and [later] are the two readings of the clock. *)
Definition ensure_section (open : K → bool) (now later : Z) (s : ConnectionState)
    : (Result ClientError InstalledConnection + ReconnectAction) * ConnectionState :=
  if closed s then (inl (Err explicitly_closed), s)
  else
    let reconnect :=
      let s := set_current None s in
      if reconnecting s then (inr Wait, s)
      else
        match next_attempt_at s with
        | Some at_ =>
            if now <? at_ then (inr (Sleep (Z.max (at_ - later) 0)), s)
            else (inr Dial, mkState (current s) (generation s) true (failures s) None (closed s))
        | None => (inr Dial, mkState (current s) (generation s) true (failures s) None (closed s))
        end in
    match current s with
    | Some c => if open (connection c) then (inl (Ok c), s) else reconnect
    | None => reconnect
    end.

(** The critical section of [dial], with the connection that it closes. *)
Definition dial_section (result : ClientError + K) (now : Z) (s : ConnectionState)
    : Result ClientError InstalledConnection * option K * ConnectionState :=
  match result with
  | inr connection =>
      if closed s then
        (Err explicitly_closed, Some connection,
         mkState (current s) (generation s) false (failures s) (next_attempt_at s) (closed s))
      else
        let g := wrapping_add (generation s) 1 in
        let installed := mkInstalled connection g in
        (Ok installed, None, mkState (Some installed) g false 0 None (closed s))
  | inl error =>
      if closed s then
        (Err error, None, mkState (current s) (generation s) false (failures s) (next_attempt_at s) (closed s))
      else
        let n := Z.min (failures s + 1) U32_MAX in
        (Err error, None, mkState (current s) (generation s) false n (Some (now + reconnect_delay n)) (closed s))
  end.

(** [invalidate], with the connection that it closes. *)
Definition invalidate (failed_generation : Z) (s : ConnectionState) : option K * ConnectionState :=
  if closed s || negb (generation_is_current (installed_generation <$> current s) failed_generation) then (None, s)
  else (connection <$> current s, set_current None s).

(** The critical section of [close], with the connection that it closes. *)
Definition close_section (s : ConnectionState) : option K * ConnectionState :=
  (connection <$> current s, mkState None (generation s) false (failures s) None true).

(** ** Tasks *)

(** Where a task is that needs a connection: before the critical section, with a
    [Notified] future that was created when [notify_waiters] had been called [seen]
    times; waiting for that future; asleep until the next attempt; in the handshake;
    about to call [notify_waiters]; or with its result.  [Announcing] is a call of
    [close] between its critical section and its [notify_waiters]. *)
Inductive TaskPhase : Type :=
  | Looping (seen : nat)
  | Waiting (seen : nat)
  | Sleeping
  | Dialing
  | Notifying (r : Result ClientError InstalledConnection)
  | Finished (r : Result ClientError InstalledConnection)
  | Announcing.

Record Manager : Type := mkManager {
  mg_state : ConnectionState;
  mg_tasks : gmap nat TaskPhase;
  mg_notified : nat;
}.

Definition set_task (id : nat) (p : TaskPhase) (m : Manager) : Manager :=
  mkManager (mg_state m) (<[id := p]> (mg_tasks m)) (mg_notified m).
Definition set_state (s : ConnectionState) (m : Manager) : Manager := mkManager s (mg_tasks m) (mg_notified m).

Definition new_manager : Manager := mkManager initial ∅ 0.

(** Where the result of the critical section sends the task. *)
Definition after_section (seen : nat) (r : Result ClientError InstalledConnection + ReconnectAction) : TaskPhase :=
  match r with
  | inl r => Finished r
  | inr Wait => Waiting seen
  | inr (Sleep _) => Sleeping
  | inr Dial => Dialing
  end.

Inductive task_label : Type :=
  | TCall | TEnter | TWake | TTimer | TDialed | TNotify | TCancel | TInvalidate | TClose.

#[global] Instance task_label_eq_dec : EqDecision task_label.
Proof. solve_decision. Defined.

Inductive task_step : Manager → task_label → Manager → Prop :=
  | task_call id m : mg_tasks m !! id = None → task_step m TCall (set_task id (Looping (mg_notified m)) m)
  | task_enter id seen open now later r s m :
      mg_tasks m !! id = Some (Looping seen) → ensure_section open now later (mg_state m) = (r, s) →
      task_step m TEnter (set_task id (after_section seen r) (set_state s m))
  | task_wake id seen m :
      mg_tasks m !! id = Some (Waiting seen) → (seen < mg_notified m)%nat →
      task_step m TWake (set_task id (Looping (mg_notified m)) m)
  | task_timer id m :
      mg_tasks m !! id = Some Sleeping → task_step m TTimer (set_task id (Looping (mg_notified m)) m)
  | task_dialed id result now r k s m :
      mg_tasks m !! id = Some Dialing → dial_section result now (mg_state m) = (r, k, s) →
      task_step m TDialed (set_task id (Notifying r) (set_state s m))
  | task_notify id r m :
      mg_tasks m !! id = Some (Notifying r) →
      task_step m TNotify (mkManager (mg_state m) (<[id := Finished r]> (mg_tasks m)) (S (mg_notified m)))
  | task_cancel id p m :
      mg_tasks m !! id = Some p → p = Sleeping ∨ p = Dialing ∨ (∃ seen, p = Waiting seen) →
      task_step m TCancel (mkManager (mg_state m) (delete id (mg_tasks m)) (mg_notified m))
  | task_invalidate id c k s m :
      mg_tasks m !! id = Some (Finished (Ok c)) → invalidate (installed_generation c) (mg_state m) = (k, s) →
      task_step m TInvalidate (set_state s m)
  | task_close id k s m :
      mg_tasks m !! id = None → close_section (mg_state m) = (k, s) →
      task_step m TClose (set_task id Announcing (set_state s m))
  | task_announce id m :
      mg_tasks m !! id = Some Announcing →
      task_step m TNotify (mkManager (mg_state m) (delete id (mg_tasks m)) (S (mg_notified m))).

Inductive task_steps : Manager → list task_label → Manager → Prop :=
  | task_steps_nil m : task_steps m [] m
  | task_steps_cons m l m1 ls m' : task_step m l m1 → task_steps m1 ls m' → task_steps m (l :: ls) m'.
End manager.

#[global] Arguments InstalledConnection K : clear implicits.
#[global] Arguments ConnectionState K : clear implicits.
#[global] Arguments TaskPhase K : clear implicits.
#[global] Arguments Manager K : clear implicits.

(** [execute]: [ensured] is the result of [ensure_connection] and [open_bi] opens a stream
    of a connection.  With the result it gives the generation that is invalidated. *)
Definition execute `{BS : BiStream B} {K} (limits : ProtocolLimits) (tenant : TenantId) (request : Service.Request)
    (ensured : Result ClientError (InstalledConnection K)) (open_bi : K → string + B)
    : Result ClientError Service.Response * option Z :=
  let mutation := Service.is_mutation request in
  let expected_response_type := response_opcode_for_request request in
  match encode_request limits tenant request with
  | Err error => (Err (ProtocolFailure error), None)
  | Stuck k => (Stuck k, None)
  | Ok encoded_request =>
      match ensured with
      | Err error => (Err error, None)
      | Stuck k => (Stuck k, None)
      | Ok installed =>
          let result := (execute_on_connection limits (open_bi (connection installed)) mutation expected_response_type encoded_request).1 in
          (result, match result with
                   | Err error => if invalidates_connection error then Some (installed_generation installed) else None
                   | _ => None
                   end)
      end
  end.
End Client.
