(* ===== verification/ClientTheorems.v ===== *)
(** * What the client promises

    The connection manager dials at most once at a time, loses no wakeup and lets no late
    failure close a newer connection; an exchange returns what the reply says and reports
    a mutation whose fate is not known as such. *)

From S2P Require Import Prelude Key Core Service Protocol ProtocolLaws ProtocolTheorems Transport TransportLaws Client.

Module ClientTheorems.
Import Core Protocol ProtocolLaws TransportLaws Client.

(** ** The connection manager *)

Section manager.
Context {K : Type}.
Implicit Types (m : Manager K) (s : ConnectionState K) (c d : InstalledConnection K).

(** A connection that some task got or that is installed. *)
Definition known m c : Prop :=
  current (mg_state m) = Some c ∨
  ∃ id r, mg_tasks m !! id = Some r ∧ (r = Finished (Ok c) ∨ r = Notifying (Ok c)).

(** Somebody is going to call [notify_waiters]. *)
Definition notifier m : Prop := ∃ id p, mg_tasks m !! id = Some p ∧ (p = Announcing ∨ ∃ r, p = Notifying r).

Record manager_ok m : Prop := {
  mo_single : ∀ i j, mg_tasks m !! i = Some Dialing → mg_tasks m !! j = Some Dialing → i = j;
  mo_dialing : ∀ i, mg_tasks m !! i = Some Dialing → reconnecting (mg_state m) = true ∨ closed (mg_state m) = true;
  mo_seen : ∀ i seen, mg_tasks m !! i = Some (Looping seen) ∨ mg_tasks m !! i = Some (Waiting seen) → (seen ≤ mg_notified m)%nat;
  mo_waiting : ∀ i seen, mg_tasks m !! i = Some (Waiting seen) →
    (seen < mg_notified m)%nat ∨ reconnecting (mg_state m) = true ∨ notifier m;
}.

(** Updating one task. *)
Lemma set_task_lookup m i p j q :
  mg_tasks (set_task i p m) !! j = Some q ↔ j = i ∧ q = p ∨ j ≠ i ∧ mg_tasks m !! j = Some q.
Proof. cbn. rewrite lookup_insert_Some. naive_solver. Qed.

(** [ensure_section] starts a dial only when none is under way, and waits only for one. *)
Lemma ensure_section_spec open now later s r s' :
  ensure_section open now later s = (r, s') →
  closed s' = closed s ∧ generation s' = generation s ∧
  (current s' = current s ∨ current s' = None) ∧
  match r with
  | inl (Ok c) => current s = Some c ∧ closed s = false ∧ reconnecting s' = reconnecting s
  | inl _ => s' = s
  | inr Wait => reconnecting s = true ∧ reconnecting s' = true
  | inr (Sleep _) => reconnecting s' = reconnecting s
  | inr Dial => reconnecting s = false ∧ reconnecting s' = true ∧ closed s = false
  end.
Proof.
  unfold ensure_section. destruct (closed s) eqn:Ec; [intros [= <- <-]; auto|]. cbv zeta.
  assert (Hr : ∀ out, (if reconnecting (set_current None s) then (inr Wait, set_current None s)
      else match next_attempt_at (set_current None s) with
           | Some at_ => if now <? at_ then (inr (Sleep (Z.max (at_ - later) 0)), set_current None s)
                         else (inr Dial, mkState (current (set_current None s)) (generation (set_current None s)) true
                                 (failures (set_current None s)) None (closed (set_current None s)))
           | None => (inr Dial, mkState (current (set_current None s)) (generation (set_current None s)) true
                        (failures (set_current None s)) None (closed (set_current None s)))
           end) = out → out = (r, s') →
    closed s' = false ∧ generation s' = generation s ∧ (current s' = current s ∨ current s' = None) ∧
    match r with
    | inl (Ok c) => current s = Some c ∧ false = false ∧ reconnecting s' = reconnecting s
    | inl _ => s' = s
    | inr Wait => reconnecting s = true ∧ reconnecting s' = true
    | inr (Sleep _) => reconnecting s' = reconnecting s
    | inr Dial => reconnecting s = false ∧ reconnecting s' = true ∧ false = false
    end).
  { intros out <-. destruct s as [cur g rc f na cl]. cbn in *. subst cl.
    destruct rc; [intros [= <- <-]; cbn; auto 10|]. destruct na as [t|]; [destruct (now <? t)|]; intros [= <- <-]; cbn; auto 10. }
  destruct (current s) as [c|] eqn:Ecur; [|by apply Hr].
  destruct (open (connection c)); [|by apply Hr]. intros [= <- <-]. rewrite Ec. auto 10.
Qed.

Lemma dial_section_spec result now s r k s' :
  dial_section result now s = (r, k, s') → closed s' = closed s ∧ reconnecting s' = false.
Proof. unfold dial_section. destruct result, (closed s); intros [= <- <- <-]; auto. Qed.

Lemma invalidate_spec g s k s' :
  invalidate g s = (k, s') →
  closed s' = closed s ∧ reconnecting s' = reconnecting s ∧ generation s' = generation s ∧
  (s' = s ∨ (∃ c, current s = Some c ∧ installed_generation c = g) ∧ current s' = None).
Proof.
  unfold invalidate. destruct (closed s || _) eqn:E; intros [= <- <-]; [auto|].
  apply orb_false_iff in E as [Ec E]. apply negb_false_iff, bool_decide_eq_true in E. split_and!; try done. right.
  destruct (current s) as [c|]; [|done]. injection E as <-. eauto.
Qed.

(** A task that was not notifying moves on. *)
Lemma notifier_set_task m i p s :
  (∀ q, mg_tasks m !! i = Some q → q ≠ Announcing ∧ ∀ r, q ≠ Notifying r) → notifier m → notifier (set_task i p (set_state s m)).
Proof.
  intros Hi (j & q & Hj & Hq). exists j, q. split; [|done]. apply set_task_lookup. right. split; [|done].
  intros ->. apply Hi in Hj. naive_solver.
Qed.

(** A task moves to a phase that neither dials nor waits. *)
Lemma manager_ok_move m i p s :
  manager_ok m → (∀ q, mg_tasks m !! i = Some q → q ≠ Announcing ∧ ∀ r, q ≠ Notifying r) →
  (reconnecting (mg_state m) = true → reconnecting s = true ∨ p = Announcing ∨ ∃ r, p = Notifying r) →
  (∀ j, j ≠ i → mg_tasks m !! j = Some Dialing → reconnecting s = true ∨ closed s = true) →
  p ≠ Dialing → (∀ seen, p = Looping seen → (seen ≤ mg_notified m)%nat) → (∀ seen, p ≠ Waiting seen) →
  manager_ok (set_task i p (set_state s m)).
Proof.
  intros [M1 M2 M3 M4] Hi Hrec Hdial Hp Hloop Hwait. split.
  - intros j j' [[-> ?]|[? Hj]]%set_task_lookup [[-> ?]|[? Hj']]%set_task_lookup; try congruence. eauto.
  - intros j [[-> ?]|[Hne Hj]]%set_task_lookup; [congruence|]. by eapply Hdial.
  - intros j seen [[[-> <-]|[Hne Hj]]%set_task_lookup|[[-> <-]|[Hne Hj]]%set_task_lookup]; eauto. by destruct (Hwait seen).
  - intros j seen [[-> E]|[Hne Hj]]%set_task_lookup; [by destruct (Hwait seen)|].
    destruct (M4 j seen Hj) as [Hs|[Hr|Hn]]; [by left| |right; right; by apply notifier_set_task].
    right. destruct (Hrec Hr) as [?|Hp']; [by left|right]. exists i, p. split; [apply set_task_lookup; by left|done].
Qed.

Lemma manager_ok_enter m i seen open now later r s :
  manager_ok m → mg_tasks m !! i = Some (Looping seen) → ensure_section open now later (mg_state m) = (r, s) →
  manager_ok (set_task i (after_section seen r) (set_state s m)).
Proof.
  intros Hm Hi He. pose proof (ensure_section_spec _ _ _ _ _ _ He) as (Hc & _ & _ & Hr).
  assert (Hnot : ∀ q, mg_tasks m !! i = Some q → q ≠ Announcing ∧ ∀ r, q ≠ Notifying r) by (rewrite Hi; naive_solver).
  destruct r as [r|[|d|]]; cbn [after_section].
  - assert (Er : reconnecting s = reconnecting (mg_state m)) by (destruct r; [apply Hr|by rewrite Hr..]).
    apply manager_ok_move; try done; rewrite ?Er; [auto|]. intros j Hne Hj. rewrite Hc. by eapply mo_dialing.
  - destruct Hm as [M1 M2 M3 M4]. destruct Hr as [R1 R2]. split.
    + intros j j' [[-> ?]|[? Hj]]%set_task_lookup [[-> ?]|[? Hj']]%set_task_lookup; try congruence. eauto.
    + intros j _. left. done.
    + intros j seen' [[[-> ?]|[Hne Hj]]%set_task_lookup|[[-> [= ->]]|[Hne Hj]]%set_task_lookup]; [done|eauto..].
    + intros j seen' _. right. by left.
  - apply manager_ok_move; try done; rewrite ?Hr; [auto|]. intros j Hne Hj. rewrite Hc. by eapply mo_dialing.
  - destruct Hm as [M1 M2 M3 M4]. destruct Hr as (R1 & R2 & R3).
    assert (Hno : ∀ j, mg_tasks m !! j ≠ Some Dialing) by (intros j [E|E]%M2; congruence). split.
    + intros j j' [[-> ?]|[? Hj]]%set_task_lookup [[-> ?]|[? Hj']]%set_task_lookup; try done; by apply Hno in Hj || by apply Hno in Hj'.
    + intros j _. by left.
    + intros j seen' [[[-> ?]|[Hne Hj]]%set_task_lookup|[[-> ?]|[Hne Hj]]%set_task_lookup]; try done; eauto.
    + intros j seen' _. right. by left.
Qed.

(** Calling [notify_waiters]: every future that exists completes. *)
Lemma manager_ok_notified m tasks :
  manager_ok m → (∀ j q, tasks !! j = Some q → mg_tasks m !! j = Some q ∨ ∃ r, q = Finished r) →
  manager_ok (mkManager (mg_state m) tasks (S (mg_notified m))).
Proof.
  intros [M1 M2 M3 M4] Ht. split; cbn.
  - intros j j' [Hj|[? ?]]%Ht [Hj'|[? ?]]%Ht; try done. eauto.
  - intros j [Hj|[? ?]]%Ht; [eauto|done].
  - intros j seen [[Hj|[? ?]]%Ht|[Hj|[? ?]]%Ht]; try done; (transitivity (mg_notified m); [eauto|lia]).
  - intros j seen [Hj|[? ?]]%Ht; [|done]. left. apply Nat.lt_succ_r. eauto.
Qed.

(** Without cancellation the mark of a reconnection belongs to a task in the handshake. *)
Definition has_dialer m : Prop := reconnecting (mg_state m) = true → ∃ j, mg_tasks m !! j = Some Dialing.

Lemma has_dialer_move m i p s :
  has_dialer m → mg_tasks m !! i ≠ Some Dialing → reconnecting s = reconnecting (mg_state m) →
  has_dialer (set_task i p (set_state s m)).
Proof.
  intros Hm Hi Hs Hr. cbn in Hr. rewrite Hs in Hr. destruct (Hm Hr) as [j Hj]. exists j. apply set_task_lookup. right.
  split; [|done]. by intros ->.
Qed.

Lemma set_state_id m : set_state (mg_state m) m = m.
Proof. by destruct m. Qed.

Lemma task_step_ok m l m' : manager_ok m → task_step m l m' → manager_ok m'.
Proof.
  intros Hm Hst. destruct Hst as [id m Hi|id seen open now later r s m Hi He|id seen m Hi Hs|id m Hi|id result now r k s m Hi Hd
    |id r m Hi|id p m Hi Hp|id c k s m Hi Hv|id k s m Hi Hc|id m Hi].
  - rewrite <-(set_state_id m) at 2. apply manager_ok_move; try done; [by rewrite Hi|auto| |naive_solver].
    intros j _ Hj. by eapply mo_dialing.
  - by eapply manager_ok_enter.
  - rewrite <-(set_state_id m) at 2. apply manager_ok_move; try done; [rewrite Hi; naive_solver|auto| |naive_solver].
    intros j _ Hj. by eapply mo_dialing.
  - rewrite <-(set_state_id m) at 2. apply manager_ok_move; try done; [rewrite Hi; naive_solver|auto| |naive_solver].
    intros j _ Hj. by eapply mo_dialing.
  - apply manager_ok_move; try done; [rewrite Hi; naive_solver|intros _; right; right; by eexists|].
    intros j Hne Hj. by destruct (Hne (mo_single _ Hm _ _ Hj Hi)).
  - apply manager_ok_notified; [done|]. intros j q [[-> <-]|[? Hj]]%lookup_insert_Some; [right; by eexists|by left].
  - destruct Hm as [M1 M2 M3 M4]. split; cbn.
    + intros j j' [_ Hj]%lookup_delete_Some [_ Hj']%lookup_delete_Some. eauto.
    + intros j [_ Hj]%lookup_delete_Some. eauto.
    + intros j seen [[_ Hj]%lookup_delete_Some|[_ Hj]%lookup_delete_Some]; eauto.
    + intros j seen [_ Hj]%lookup_delete_Some. destruct (M4 j seen Hj) as [?|[?|(i & q & Hq & Hn)]]; [by left|right; by left|].
      right; right. exists i, q. split; [|done]. apply lookup_delete_Some. split; [|done]. intros <-. naive_solver.
  - apply invalidate_spec in Hv as (V1 & V2 & _). destruct Hm as [M1 M2 M3 M4]. split; cbn; rewrite ?V1, ?V2; done.
  - apply (manager_ok_move m id Announcing s); try done; [by rewrite Hi|auto|].
    intros j _ Hj. right. unfold close_section in Hc. by injection Hc as <- <-.
  - apply manager_ok_notified; [done|]. intros j q [_ Hj]%lookup_delete_Some. by left.
Qed.

Lemma new_manager_ok : manager_ok (new_manager : Manager K).
Proof. split; cbn; intros *; rewrite ?lookup_empty; naive_solver. Qed.

Lemma task_steps_ok m ls m' : manager_ok m → task_steps m ls m' → manager_ok m'.
Proof. intros Hm Hst. induction Hst as [m|m l m1 ls m' Hl Hst IH]; [done|]. apply IH. by eapply task_step_ok. Qed.

Lemma task_step_dialer m l m' : has_dialer m → task_step m l m' → l ≠ TCancel → has_dialer m'.
Proof.
  intros Hm Hst Hl. destruct Hst as [id m Hi|id seen open now later r s m Hi He|id seen m Hi Hs|id m Hi|id result now r k s m Hi Hd
    |id r m Hi|id p m Hi Hp|id c k s m Hi Hv|id k s m Hi Hc|id m Hi]; try done.
  - rewrite <-(set_state_id m) at 2. apply has_dialer_move; [done|by rewrite Hi|done].
  - pose proof (ensure_section_spec _ _ _ _ _ _ He) as (_ & _ & _ & Hr).
    destruct r as [r|[|d|]]; cbn [after_section].
    + apply has_dialer_move; [done|by rewrite Hi|]. destruct r; [apply Hr|by rewrite Hr..].
    + apply has_dialer_move; [done|by rewrite Hi|]. by destruct Hr as [-> ->].
    + by apply has_dialer_move; [|rewrite Hi|].
    + intros _. exists id. apply set_task_lookup. by left.
  - rewrite <-(set_state_id m) at 2. apply has_dialer_move; [done|by rewrite Hi|done].
  - rewrite <-(set_state_id m) at 2. apply has_dialer_move; [done|by rewrite Hi|done].
  - apply dial_section_spec in Hd as [_ Hr]. unfold has_dialer. cbn. by rewrite Hr.
  - intros [j Hj]%Hm. exists j. cbn. apply lookup_insert_Some. right. split; [|done]. intros ->. congruence.
  - apply invalidate_spec in Hv as (_ & V2 & _). unfold has_dialer in *. cbn. by rewrite V2.
  - unfold close_section in Hc. by injection Hc as <- <-.
  - intros [j Hj]%Hm. exists j. cbn. apply lookup_delete_Some. split; [|done]. intros ->. congruence.
Qed.

Lemma task_steps_dialer m ls m' :
  has_dialer m → task_steps m ls m' → TCancel ∉ ls → has_dialer m'.
Proof.
  intros Hm Hst. induction Hst as [m|m l m1 ls m' Hl Hst IH]; [done|]. rewrite not_elem_of_cons. intros [Hne Hls].
  apply IH; [|done]. by eapply task_step_dialer.
Qed.

(** ** Generations *)

(** After [n] dials: a generation names one connection, and the installed one is the
    newest. *)
Record generations (n : nat) m : Prop := {
  ge_known : ∀ c, known m c → 0 < installed_generation c ≤ generation (mg_state m);
  ge_unique : ∀ c d, known m c → known m d → installed_generation c = installed_generation d → c = d;
  ge_current : ∀ c, current (mg_state m) = Some c → installed_generation c = generation (mg_state m);
  ge_count : 0 ≤ generation (mg_state m) ≤ Z.of_nat n;
}.

Lemma generations_sub n m m' :
  generations n m → (∀ c, known m' c → known m c) → generation (mg_state m') = generation (mg_state m) →
  (∀ c, current (mg_state m') = Some c → current (mg_state m) = Some c) → generations n m'.
Proof. intros [G1 G2 G3 G4] Hk Hg Hc. split; rewrite ?Hg; eauto. Qed.

Lemma known_set_task m i p s c :
  known (set_task i p (set_state s m)) c →
  current s = Some c ∨ p = Finished (Ok c) ∨ p = Notifying (Ok c) ∨
  ∃ id r, mg_tasks m !! id = Some r ∧ (r = Finished (Ok c) ∨ r = Notifying (Ok c)).
Proof. intros [?|(id & r & [[-> ->]|[Hne Hr]]%set_task_lookup & Hc)]; [by left|naive_solver|]. right; right; right. eauto. Qed.

(** A task moves on without a new connection. *)
Lemma generations_move n m i p s :
  generations n m → generation s = generation (mg_state m) →
  (∀ c, current s = Some c → current (mg_state m) = Some c) →
  (∀ c, p = Finished (Ok c) ∨ p = Notifying (Ok c) → known m c) → generations n (set_task i p (set_state s m)).
Proof.
  intros Hg Hs Hc Hp. eapply generations_sub; [done| |done|done]. intros c Hk.
  apply known_set_task in Hk as [?|[?|[?|?]]]; [left; auto|auto|auto|by right].
Qed.

Lemma generations_dialed n m i result now r k s :
  generations n m → Z.of_nat n < U64_MAX → dial_section result now (mg_state m) = (r, k, s) →
  generations (S n) (set_task i (Notifying r) (set_state s m)).
Proof.
  intros Hg Hn Hd. assert (Hsame : ∀ s e, generation s = generation (mg_state m) → current s = current (mg_state m) →
    generations (S n) (set_task i (Notifying (Err e)) (set_state s m))).
  { intros s0 e H1' H2'. apply (generations_move n) with (i := i) (p := Notifying (Err e)) (s := s0) in Hg as [G1 G2 G3 G4].
    - split; [done|done|done|lia].
    - done.
    - by rewrite H2'.
    - intros c [?|?]; done. }
  unfold dial_section in Hd. destruct result as [error|kk], (closed (mg_state m)) eqn:Ec; injection Hd as <- <- <-; try (by apply Hsame).
  destruct Hg as [G1 G2 G3 G4]. assert (Hw : wrapping_add (generation (mg_state m)) 1 = generation (mg_state m) + 1).
  { unfold wrapping_add. apply Z.mod_small. unfold U64_MAX in Hn. lia. }
  rewrite Hw. set (new := mkInstalled kk _).
  assert (Hk : ∀ c, known (set_task i (Notifying (Ok new)) (set_state (mkState (Some new) (generation (mg_state m) + 1) false 0 None false) m)) c →
    c = new ∨ known m c).
  { intros c [[= <-]|[?|[[= <-]|?]]]%known_set_task; [by left|done|by left|right; by right]. }
  assert (Hlt : ∀ c, known m c → installed_generation c < installed_generation new) by (intros c ?%G1; cbn; lia).
  split; cbn.
  - intros c [->|Hc]%Hk; [cbn; lia|]. apply G1 in Hc. lia.
  - intros c d [->|Hc]%Hk [->|Hd]%Hk E; [done|apply Hlt in Hd; lia|apply Hlt in Hc; lia|auto].
  - by intros c [= <-].
  - lia.
Qed.

Definition dials (ls : list task_label) : nat := length (filter (λ l, l = TDialed) ls).

Lemma generations_step n m l m' :
  generations n m → task_step m l m' → Z.of_nat n < U64_MAX → generations (n + dials [l]) m'.
Proof.
  intros Hg Hst Hn.
  destruct Hst as [id m Hi|id seen open now later r s m Hi He|id seen m Hi Hs|id m Hi|id result now r k s m Hi Hd
    |id r m Hi|id p m Hi Hp|id c k s m Hi Hv|id k s m Hi Hc|id m Hi]; change (n + dials _)%nat with (n + 0)%nat || change (n + dials _)%nat with (n + 1)%nat;
    rewrite ?Nat.add_0_r, ?Nat.add_1_r.
  - rewrite <-(set_state_id m) at 2. apply generations_move; naive_solver.
  - pose proof (ensure_section_spec _ _ _ _ _ _ He) as (_ & Egen & Ecur & Hr). apply generations_move; [done|done| |].
    + intros c E. destruct Ecur; congruence.
    + intros c Hp. left. destruct r as [r|[]]; cbn in Hp; [|naive_solver..]. destruct Hp as [[= ->]|?]; [apply Hr|done].
  - rewrite <-(set_state_id m) at 2. apply generations_move; naive_solver.
  - rewrite <-(set_state_id m) at 2. apply generations_move; naive_solver.
  - by eapply generations_dialed.
  - eapply generations_sub; [done| |done|done]. intros c [?|(j & q & Hj & Hq)]; [by left|].
    cbn [mg_tasks] in Hj. apply lookup_insert_Some in Hj as [[-> <-]|[? Hj]]; right; naive_solver.
  - eapply generations_sub; [done| |done|done]. intros c [?|(j & q & Hj & Hq)]; [by left|].
    cbn [mg_tasks] in Hj. apply lookup_delete_Some in Hj as [_ Hj]. right; eauto.
  - apply invalidate_spec in Hv as (_ & _ & Eg & Hs). eapply generations_sub; [done| |done|].
    + intros d [?|?]; [left|by right]. cbn in *. destruct Hs as [->|[_ ?]]; congruence.
    + intros d E. cbn in *. destruct Hs as [->|[_ ?]]; congruence.
  - unfold close_section in Hc. injection Hc as <- <-. apply generations_move; naive_solver.
  - eapply generations_sub; [done| |done|done]. intros c [?|(j & q & Hj & Hq)]; [by left|].
    cbn [mg_tasks] in Hj. apply lookup_delete_Some in Hj as [_ Hj]. right; eauto.
Qed.

Lemma generations_steps n m ls m' :
  generations n m → task_steps m ls m' → Z.of_nat (n + dials ls) < U64_MAX → generations (n + dials ls) m'.
Proof.
  intros Hg Hst. revert n Hg. induction Hst as [m|m l m1 ls m' Hl Hst IH]; intros n Hg Hn.
  { unfold dials. cbn. by rewrite Nat.add_0_r. }
  assert (dials (l :: ls) = (dials [l] + dials ls)%nat) as E by (destruct l; done).
  rewrite E, Nat.add_assoc in *. apply IH; [|done]. eapply generations_step; [done|done|lia].
Qed.

Lemma new_generations : generations 0 (new_manager : Manager K).
Proof.
  assert (Hk : ∀ c, ¬ known (new_manager : Manager K) c) by (intros c [?|(id & r & Hr & _)]; [done|cbn in Hr; by rewrite lookup_empty in Hr]).
  split; [by intros c ?%Hk|by intros c d ?%Hk|done|cbn; lia].
Qed.

(** ** A cancelled dial *)

(** Nobody dials, nobody will notify, and every task goes to wait. *)
Record abandoned m : Prop := {
  ab_state : reconnecting (mg_state m) = true ∧ closed (mg_state m) = false ∧ current (mg_state m) = None;
  ab_tasks : ∀ i p, mg_tasks m !! i = Some p → p = Looping (mg_notified m) ∨ p = Waiting (mg_notified m);
}.

Lemma abandoned_step m l m' : abandoned m → task_step m l m' → l ≠ TClose → abandoned m'.
Proof.
  intros [(A1 & A2 & A3) A4] Hst Hl.
  assert (Hset : ∀ i p, p = Looping (mg_notified m) ∨ p = Waiting (mg_notified m) → abandoned (set_task i p m)).
  { intros i p Hp. split; [done|]. intros j q [[-> ->]|[_ Hj]]%set_task_lookup; [done|eauto]. }
  destruct Hst as [id m Hi|id seen open now later r s m Hi He|id seen m Hi Hs|id m Hi|id result now r k s m Hi Hd
    |id r m Hi|id p m Hi Hp|id c k s m Hi Hv|id k s m Hi Hc|id m Hi]; try (apply A4 in Hi; naive_solver).
  - apply Hset. by left.
  - unfold ensure_section in He. rewrite A2, A3 in He. cbn in He. rewrite A1 in He. injection He as <- <-.
    assert (set_state (set_current None (mg_state m)) m = m) as ->.
    { destruct m as [[cu g rc f na cl] tasks n]. cbn in *. by rewrite A3. }
    apply Hset. right. apply A4 in Hi. naive_solver.
  - split; [done|]. cbn. intros i q [_ Hq]%lookup_delete_Some. eauto.
  - done.
Qed.

Lemma abandoned_steps m ls m' : abandoned m → task_steps m ls m' → TClose ∉ ls → abandoned m'.
Proof.
  intros Ha Hst. induction Hst as [m|m l m1 ls m' Hl Hst IH]; intros Hc; [done|].
  apply not_elem_of_cons in Hc as [Hne Hc]. apply IH; [|done]. eapply abandoned_step; [done|done|congruence].
Qed.

End manager.

(** ** Backoff *)

Lemma reconnect_delay_eq n : 1 ≤ n → reconnect_delay n = Z.min (RECONNECT_BACKOFF_BASE * 2 ^ (n - 1)) RECONNECT_BACKOFF_MAX.
Proof.
  intros Hn. unfold reconnect_delay. cbv zeta. rewrite (Z.max_l (n - 1)) by lia. rewrite Z.shiftl_1_l.
  rewrite (proj2 (Z.leb_le _ _)).
  - destruct (Z.le_gt_cases (n - 1) 5); [by rewrite (Z.min_l (n - 1)) by done|]. rewrite (Z.min_r (n - 1)) by lia.
    rewrite (Z.min_r (_ * 2 ^ (n - 1))); [done|]. assert (2 ^ 5 ≤ 2 ^ (n - 1)) by (apply Z.pow_le_mono_r; lia).
    unfold RECONNECT_BACKOFF_BASE, RECONNECT_BACKOFF_MAX. lia.
  - assert (2 ^ Z.min (n - 1) 5 ≤ 2 ^ 5) by (apply Z.pow_le_mono_r; lia).
    unfold RECONNECT_BACKOFF_BASE, DURATION_MAX, U64_MAX. lia.
Qed.

(** ** Exchanges *)

Section exchange.
Context `{SB : BiStreamSpec B} (l : ProtocolLimits).
Implicit Types (b : B).

(** How a failure shows that is not in the reply: the fate of a mutation is unknown. *)
Definition uncertain (mutation : bool) (e : ClientError) : Prop :=
  if mutation then ∃ d, e = UnknownMutationOutcome d None else (∃ d, e = Transport d) ∨ ∃ p, e = ProtocolFailure p.

Lemma uncertain_mutation_spec mutation d : uncertain mutation (uncertain_mutation mutation d).
Proof. destruct mutation; cbn; eauto. Qed.
Lemma uncertain_protocol_spec mutation p : uncertain mutation (uncertain_protocol mutation p).
Proof. destruct mutation; cbn; eauto. Qed.
#[local] Hint Resolve uncertain_mutation_spec uncertain_protocol_spec : core.

(** The reply on a finished stream. *)
Definition reply (t : Z) b : option ResponseEnvelope :=
  if peer_finished b then
    match decode_response_frame l (incoming b) (Some t) with Ok env => Some env | _ => None end
  else None.

Lemma reply_Some t b env :
  reply t b = Some env →
  peer_finished b = true ∧ decode_response_frame l (incoming b) (Some t) = Ok env ∧
  ∃ h, decode_header (incoming b).[0; HEADER_SIZE) = Ok h ∧ HEADER_SIZE ≤ len (incoming b) ∧
    len (incoming b) = HEADER_SIZE + payload_length h ∧ HEADER_SIZE + payload_length h ≤ max_response_frame_size l ∧
    decode_response_parts l h (drop (Z.to_nat HEADER_SIZE) (incoming b)) (Some t) = Ok env.
Proof.
  unfold reply, decode_response_frame. destruct (peer_finished b); [|done].
  destruct (split_frame _) as [[h payload]| |] eqn:Es; [|done..]. cbn [mbind Result_bind].
  apply split_frame_parts in Es as (P1 & P2 & P3 & ->). destruct (decode_response_parts _ _ _ _) as [e| |] eqn:Ed; [|done..].
  intros [= ->]. split_and!; [done..|]. exists h. split_and!; try done.
  unfold decode_response_parts in Ed. destruct (validate_limits l); [|done..]. cbn [mbind Result_bind] in Ed.
  destruct (validate_payload_length _ _ _) as [[]| |] eqn:Ev; [|done..]. by eapply valid_length.
Qed.

(** The client returns the reply, and an uncertain error when there is none. *)
Lemma read_response_spec mutation t b :
  sane b →
  match read_response l mutation t b with
  | (Ok env, _) => reply t b = Some env
  | (Err e, _) => reply t b = None ∧ uncertain mutation e
  | (Stuck _, _) => False
  end.
Proof.
  intros Hs. pose proof Hs as [Hb Hmax]. unfold read_response.
  assert (Hnone : (∀ env, reply t b ≠ Some env) → reply t b = None) by (destruct (reply t b); naive_solver).
  pose proof (read_header b Hs) as Hh. destruct (read_exact HEADER_SIZE b) as [[e|x] b1].
  { split; [|done]. apply Hnone. intros env (_ & _ & h & _ & ? & _)%reply_Some. lia. }
  destruct Hh as (H1 & -> & H2 & H3 & _). assert (Hlb : len (incoming b).[0; HEADER_SIZE) = HEADER_SIZE).
  { rewrite len_slice; unfold HEADER_SIZE in *; lia. }
  pose proof (decode_header_returns _ Hlb) as Hret.
  destruct (decode_header _) as [h|e|] eqn:Ed; [| |done].
  2:{ split; [|done]. apply Hnone. intros env (_ & _ & h & Hd & _)%reply_Some. congruence. }
  pose proof (header_length_range _ h (is_bytes_slice _ _ _ Hb) Hlb Ed) as Hp.
  assert (saturating_add HEADER_SIZE (payload_length h) = HEADER_SIZE + payload_length h) as ->.
  { unfold saturating_add, HEADER_SIZE. unfold U32_MAX, U64_MAX in *. lia. }
  destruct (Z.ltb_spec (max_response_frame_size l) (HEADER_SIZE + payload_length h)) as [Hlt|Hle].
  { split; [|done]. apply Hnone. intros env (_ & _ & h' & Hd & _ & _ & ? & _)%reply_Some. rewrite Ed in Hd. injection Hd as <-. lia. }
  assert (Hlen : len (incoming b1) = len (incoming b) - HEADER_SIZE) by (rewrite H2; unfold len in *; rewrite length_drop; unfold HEADER_SIZE in *; lia).
  assert (Hbad : peer_finished b = false ∨ len (incoming b1) ≠ payload_length h → reply t b = None).
  { intros Hbad. apply Hnone. intros env (Hf & _ & h' & Hd & _ & He & _)%reply_Some. rewrite Ed in Hd. injection Hd as <-.
    destruct Hbad as [?|[]]; [congruence|lia]. }
  pose proof (read_payload b1 (payload_length h) ltac:(lia)) as Hr.
  destruct (read_exact (payload_length h) b1) as [[e|x] b2]; [split; [apply Hbad; right; lia|done]|].
  destruct Hr as (_ & _ & Hr). destruct (read_to_end 1 b2) as [[e|y] b3].
  { split; [|done]. apply Hbad. rewrite <-H3. apply Hr. }
  destruct Hr as (_ & _ & R1 & R2). case_bool_decide as Ey; cbn [negb]; [|split; [apply Hbad; right; auto|done]].
  destruct (R1 Ey) as (-> & E1 & E2).
  assert (Hframe : decode_response_frame l (incoming b) (Some t) = decode_response_parts l h (incoming b1) (Some t)).
  { unfold decode_response_frame. rewrite (split_frame_ok _ h H1 Ed) by lia. cbn [mbind Result_bind]. by rewrite H2. }
  pose proof (ProtocolTheorems.decode_response_inv l (incoming b) (Some t) Hb Hmax) as Hi. unfold reply. rewrite <-H3, E2.
  rewrite Hframe in Hi |- *. destruct (decode_response_parts _ _ _ _); [done|by split|done].
Qed.

(** The stream once the request was sent. *)
Definition request_sent (opened : string + B) (request : bytes) : option B :=
  match opened with
  | inl _ => None
  | inr b => match write_all request b with
             | (Some _, _) => None
             | (None, b) => match finish b with (Some _, _) => None | (None, b) => Some b end
             end
  end.

Lemma execute_on_connection_spec opened mutation t request :
  (∀ b, request_sent opened request = Some b → sane b) →
  match (execute_on_connection l opened mutation t request).1 with
  | Ok r => ∃ b, request_sent opened request = Some b ∧ reply t b = Some (SuccessEnvelope r)
  | Err e => uncertain mutation e ∨
      ∃ b a, request_sent opened request = Some b ∧ reply t b = Some (ErrorEnvelope a) ∧ response_of mutation (ErrorEnvelope a) = Err e
  | Stuck _ => False
  end.
Proof.
  intros Hs. unfold execute_on_connection, request_sent in *. destruct opened as [e|b]; [by left|].
  destruct (write_all request b) as [[e|] b1]; [by left|]. destruct (finish b1) as [[e|] b2]; [by left|].
  pose proof (read_response_spec mutation t b2 (Hs b2 eq_refl)) as Hr.
  destruct (read_response l mutation t b2) as [[env|e|k] b3]; cbn [fst mbind Result_bind]; [|left; apply Hr|done].
  destruct env as [r|a]; cbn [response_of]; [by exists b2|].
  destruct mutation, (mutation_outcome a) eqn:Eo; right; exists b2, a; split_and!; try done; cbn; by rewrite Eo.
Qed.
End exchange.

(** ** Properties *)

(** C16: the manager of the shared connection dials at most once at a time and loses no
    wakeup.  Whatever the tasks do, cancellation included, at most one of them is in a
    handshake.  A task that waits for a notification has been notified already, or a
    task is about to notify, or the reconnection is still marked as under way, and then a
    task is in the handshake, which will clear the mark and notify, or some task was
    cancelled.  (A cancelled handshake leaves the mark set for good.) *)
Theorem single_flight_without_lost_wakeups {K} ls (m : Manager K) :
  task_steps new_manager ls m →
  (∀ i j, mg_tasks m !! i = Some Dialing → mg_tasks m !! j = Some Dialing → i = j) ∧
  (∀ i seen, mg_tasks m !! i = Some (Waiting seen) →
     (seen < mg_notified m)%nat ∨ notifier m ∨
     reconnecting (mg_state m) = true ∧ (TCancel ∈ ls ∨ ∃ j, mg_tasks m !! j = Some Dialing)).
Proof.
  intros Hst. destruct (task_steps_ok _ _ _ new_manager_ok Hst) as [M1 _ _ M4]. split; [done|].
  intros i seen [Hs|[Hr|Hn]]%M4; [by left| |by right; left]. right; right. split; [done|].
  destruct (decide (TCancel ∈ ls)) as [Hc|Hc]; [by left|right]. by eapply (task_steps_dialer new_manager).
Qed.

(** C35: a late failure does not close a newer connection.  When a task reports a failure
    of the connection that it was given, the installed connection is dropped only if it is
    that very connection; the generation counter tells them apart as long as it does not
    wrap around. *)
Theorem late_failure_spares_newer_connection {K} ls (m : Manager K) id c d :
  task_steps new_manager ls m → Z.of_nat (dials ls) < U64_MAX →
  mg_tasks m !! id = Some (Finished (Ok c)) → current (mg_state m) = Some d → d ≠ c →
  invalidate (installed_generation c) (mg_state m) = (None, mg_state m).
Proof.
  intros Hst Hn Hi Hd Hne. destruct (generations_steps 0 _ _ _ new_generations Hst Hn) as [_ G2 _ _].
  unfold invalidate, generation_is_current. rewrite Hd. cbn. rewrite bool_decide_false, orb_true_r; [done|].
  intros [= E]. apply Hne, G2; [by left|right; eauto|done].
Qed.

(** C36: a handshake whose future is dropped blocks the client for good.  The dropped task
    leaves the reconnection marked as under way, nobody dials and nobody notifies: until
    [close] is called, every task that needs a connection stays before or in its wait. *)
Theorem cancelled_dial_blocks_client {K} :
  ∃ m : Manager K, task_steps new_manager [TCall; TEnter; TCancel] m ∧
  ∀ ls m', task_steps m ls m' → TClose ∉ ls →
    ∀ id p, mg_tasks m' !! id = Some p → p = Looping (mg_notified m') ∨ p = Waiting (mg_notified m').
Proof.
  set (s1 := mkState None 0 true 0 None false : ConnectionState K). exists (mkManager s1 ∅ 0). split.
  - eapply task_steps_cons; [by apply (task_call 0)|].
    eapply task_steps_cons; [by eapply (task_enter 0 0 (λ _, true) 0 0 (inr Dial) s1)|].
    eapply task_steps_cons; [|constructor].
    eapply eq_rect; [eapply (task_cancel 0 Dialing); [done|by right; left]|]. cbn. by rewrite !delete_insert_eq, delete_empty.
  - intros ls m' Hst Hc. assert (Ha : abandoned (mkManager s1 ∅ 0)).
    { split; [done|]. intros i p Hp. cbn in Hp. by rewrite lookup_empty in Hp. }
    apply (abandoned_steps _ _ _ Ha Hst Hc).
Qed.

(** C15: the client does not misreport a mutation.  The caller gets a response only if the
    request was sent and the finished reply stream is one frame with that response.  An
    error that is not marked as an unknown outcome means that nothing was sent, because the
    request did not encode or there was no connection, or it is the decoded error of the
    reply, whose outcome is known.  Every other failure, of the transport or of the reply,
    is reported as an unknown outcome. *)
Theorem mutation_errors_are_honest `{SB : BiStreamSpec B} {K} l tenant request ensured (open_bi : K → string + B) :
  Service.is_mutation request = true →
  (∀ f c b, encode_request l tenant request = Ok f → ensured = Ok c → request_sent (open_bi (connection c)) f = Some b → sane b) →
  let exchanged b := ∃ f c, encode_request l tenant request = Ok f ∧ ensured = Ok c ∧
    request_sent (open_bi (connection c)) f = Some b ∧ peer_finished b = true in
  let answer b := decode_response_frame l (incoming b) (Some (request_opcode request)) in
  match (execute l tenant request ensured open_bi).1 with
  | Ok r => ∃ b, exchanged b ∧ answer b = Ok (SuccessEnvelope r)
  | Err (UnknownMutationOutcome _ _) => True
  | Err e => (∃ p, encode_request l tenant request = Err p) ∨ ensured = Err e ∨
      ∃ b a, exchanged b ∧ answer b = Ok (ErrorEnvelope a) ∧ e = Application a ∧ mutation_outcome a ≠ Unknown
  | Stuck k => encode_request l tenant request = Stuck k ∨ ensured = Stuck k
  end.
Proof.
  intros Hm Hs exchanged answer. unfold execute. rewrite Hm.
  destruct (encode_request l tenant request) as [f|e|k] eqn:Ef; [|by left; eexists|by left].
  destruct ensured as [c|e|k]; [|destruct e; try done; by right; left|by right].
  pose proof (execute_on_connection_spec l (open_bi (connection c)) true (request_opcode request) f (λ b, Hs f c b eq_refl eq_refl)) as Hx.
  cbn [fst]. unfold response_opcode_for_request.
  destruct (execute_on_connection l _ true _ f).1 as [r|e|k]; [|destruct Hx as [[d ->]|(b & a & Hb & Hr & He)]; [done|]|done].
  - destruct Hx as (b & Hb & Hr). apply reply_Some in Hr as (H1 & H2 & _). exists b. split; [|done]. by exists f, c.
  - apply reply_Some in Hr as (H1 & H2 & _). cbn in He.
    destruct (mutation_outcome a) eqn:Eo; injection He as <-; try done; right; right; exists b, a; rewrite Eo;
      (split_and!; [by exists f, c|done..]).
Qed.

(** ** Concrete instances *)

(** One task is in the handshake, a second one waits for it. *)
Definition two_tasks : Manager nat :=
  mkManager (mkState None 0 true 0 None false) {[0%nat := Dialing; 1%nat := Waiting 0]} 0.

Lemma two_tasks_steps : task_steps new_manager [TCall; TEnter; TCall; TEnter] two_tasks.
Proof.
  eapply task_steps_cons; [by apply (task_call 0)|].
  eapply task_steps_cons; [by eapply (task_enter 0 0 (λ _, true) 0 0 (inr Dial) (mkState None 0 true 0 None false))|].
  eapply task_steps_cons; [by apply (task_call 1)|].
  eapply task_steps_cons; [by eapply (task_enter 1 0 (λ _, true) 0 0 (inr Wait) (mkState None 0 true 0 None false))|].
  eapply eq_rect; [constructor|]. unfold two_tasks, set_task, set_state. cbn. f_equal.
Qed.

Lemma single_flight_without_lost_wakeups_witness :
  (0 < mg_notified two_tasks)%nat ∨ notifier two_tasks ∨
  reconnecting (mg_state two_tasks) = true ∧
    (TCancel ∈ [TCall; TEnter; TCall; TEnter] ∨ ∃ j, mg_tasks two_tasks !! j = Some Dialing).
Proof.
  destruct (single_flight_without_lost_wakeups [TCall; TEnter; TCall; TEnter] two_tasks two_tasks_steps) as [_ H].
  apply (H 1%nat 0%nat). reflexivity.
Defined.

(** The first connection broke, the second task has dialled again. *)
Definition first_connection : InstalledConnection nat := mkInstalled 7%nat 1.
Definition second_connection : InstalledConnection nat := mkInstalled 8%nat 2.
Definition redialled : Manager nat :=
  mkManager (mkState (Some second_connection) 2 false 0 None false)
    {[0%nat := Finished (Ok first_connection); 1%nat := Notifying (Ok second_connection)]} 1.
Definition redialled_labels : list task_label := [TCall; TEnter; TDialed; TNotify; TCall; TEnter; TDialed].

Lemma redialled_steps : task_steps new_manager redialled_labels redialled.
Proof.
  eapply task_steps_cons; [by apply (task_call 0)|].
  eapply task_steps_cons; [by eapply (task_enter 0 0 (λ _, true) 0 0 (inr Dial) (mkState None 0 true 0 None false))|].
  eapply task_steps_cons; [by eapply (task_dialed 0 (inr 7%nat) 0 (Ok first_connection) None (mkState (Some first_connection) 1 false 0 None false))|].
  eapply task_steps_cons; [by apply (task_notify 0 (Ok first_connection))|].
  eapply task_steps_cons; [by apply (task_call 1)|].
  eapply task_steps_cons; [by eapply (task_enter 1 1 (λ _, false) 0 0 (inr Dial) (mkState None 1 true 0 None false))|].
  eapply task_steps_cons; [by eapply (task_dialed 1 (inr 8%nat) 0 (Ok second_connection) None (mkState (Some second_connection) 2 false 0 None false))|].
  eapply eq_rect; [constructor|]. unfold redialled, set_task, set_state. cbn. f_equal.
Qed.

Lemma late_failure_spares_newer_connection_witness : invalidate 1 (mg_state redialled) = (None, mg_state redialled).
Proof.
  apply (late_failure_spares_newer_connection redialled_labels redialled 0%nat first_connection second_connection redialled_steps).
  - vm_compute. reflexivity.
  - reflexivity.
  - reflexivity.
  - discriminate.
Defined.

(** The reply to a put that got revision 7. *)
Definition put_reply : bytes :=
  match encode_response default_limits (SuccessEnvelope (Service.PutResponse 7)) with Ok f => f | _ => [] end.
Definition put_stream : Wire := mkWire put_reply true [] false true.

Lemma put_reply_bytes : is_bytes put_reply ∧ len put_reply ≤ U64_MAX.
Proof. split; [|vm_compute; congruence]. apply (bool_decide_unpack _). vm_compute. exact I. Qed.

Definition sample_put_request : Service.Request := Service.Put (Key.new [1] [2]) [3].

Lemma mutation_errors_are_honest_witness :
  decode_response_frame default_limits put_reply (Some 2) = Ok (SuccessEnvelope (Service.PutResponse 7)).
Proof.
  pose proof (mutation_errors_are_honest default_limits 5 sample_put_request (Ok (mkInstalled tt 1)) (λ _, inr put_stream)) as H.
  assert (E : (execute default_limits 5 sample_put_request (Ok (mkInstalled tt 1)) (λ _, inr put_stream)).1 = Ok (Service.PutResponse 7))
    by (vm_compute; reflexivity).
  rewrite E in H. destruct H as (b & (f & c & _ & _ & Hb & _) & Hd).
  - reflexivity.
  - intros f c b _ _ Hb. cbn in Hb. injection Hb as <-. exact put_reply_bytes.
  - cbn in Hb. injection Hb as <-. exact Hd.
Defined.
End ClientTheorems.
