(* ===== verification/Server.v ===== *)
(** * The server

    Models the transport half of src/crates/dodb-server/src/lib.rs: the configuration, the
    metrics, the service of one request stream, and the tasks that accept connections and
    streams under the two semaphores.  The service behind the server is the class
    [DodbService]; QUIC streams are [BiStream]s.  Certificates, the endpoint and the
    handshake are the library's; their results are inputs of the steps. *)

From S2P Require Import Prelude Key Core Service Protocol Transport.

(** [DodbService]: a request that runs to its end.  The error is the answer. *)
Class DodbService (S : Type) : Type := {
  service_execute : Core.TenantId → Service.Request → Service.ExecutionBudget → St S Core.Error Service.Response;
}.

(** The counting semaphores of tokio.  [semaphore_new] panics on more than
    [MAX_PERMITS] permits; a permit that was taken is given back when it is dropped. *)
Class Semaphore (P : Type) : Type := {
  semaphore_new : Z → option P;
  try_acquire : P → option P;
  release : P → P;
}.
Definition MAX_PERMITS : Z := U64_MAX / 8.

Class SemaphoreSpec (P : Type) {S : Semaphore P} : Type := {
  available : P → Z;
  semaphore_new_spec : ∀ n, 0 ≤ n →
    match semaphore_new n with Some p => available p = n ∧ n ≤ MAX_PERMITS | None => MAX_PERMITS < n end;
  try_acquire_spec : ∀ p,
    match try_acquire p with Some p' => 0 < available p ∧ available p' = available p - 1 | None => available p ≤ 0 end;
  release_spec : ∀ p, available (release p) = available p + 1;
}.

(** The number of free permits. *)
#[global] Instance counting_semaphore : Semaphore Z := {
  semaphore_new n := if n <=? MAX_PERMITS then Some n else None;
  try_acquire p := if 0 <? p then Some (p - 1) else None;
  release p := p + 1;
}.
#[global] Program Instance counting_semaphore_spec : SemaphoreSpec Z := { available p := p }.
Next Obligation. intros n Hn. cbn. destruct (Z.leb_spec n MAX_PERMITS); [by split|done]. Qed.
Next Obligation. intros p. cbn. destruct (Z.ltb_spec 0 p); [by split|done]. Qed.
Next Obligation. done. Qed.

Module Server.
Import Core Protocol.

(** ** Configuration *)

Inductive ServerError : Type :=
  | ServerIo (detail : string)
  | ServerTls (detail : string)
  | ServerEndpoint (detail : string).

Record ServerTlsConfig : Type := mkServerTls { certificate_chain : list bytes; private_key : bytes }.

Definition from_der (certificates : list bytes) (key : bytes) : Result ServerError ServerTlsConfig :=
  fail_if (bool_decide (certificates = []) || bool_decide (key = []))
    (ServerTls "certificate chain and private key are required");;
  Ok (mkServerTls certificates key).

(** [certs] and [key] are the parsers of [rustls_pemfile]. *)
Definition from_pem (certs : bytes → string + list bytes) (key : bytes → string + option bytes)
    (certificate_pem private_key_pem : bytes) : Result ServerError ServerTlsConfig :=
  certificates ← match certs certificate_pem with inl e => Err (ServerTls e) | inr x => Ok x end;
  found ← match key private_key_pem with inl e => Err (ServerTls e) | inr x => Ok x end;
  k ← ok_or found (ServerTls "private key PEM section is missing");
  from_der certificates k.

Record DodbServerConfig : Type := mkServerConfig {
  tls : ServerTlsConfig;
  protocol_limits : ProtocolLimits;
  max_connections : Z;
  max_concurrent_streams : Z;
  max_concurrent_requests : Z;
}.

Definition validate (c : DodbServerConfig) : Result ServerError unit :=
  match validate_limits (protocol_limits c) with
  | Err e => Err (ServerEndpoint (error_to_string e))
  | Stuck k => Stuck k
  | Ok _ =>
      fail_if ((max_connections c =? 0) || (max_concurrent_streams c =? 0) || (max_concurrent_requests c =? 0))
        (ServerEndpoint "connection, stream, and request limits must be nonzero")
  end.

(** ** Metrics *)

Record ServerMetrics : Type := mkMetrics {
  connections_total : Z;
  active_connections : Z;
  active_streams : Z;
  requests_total : Z;
  request_bytes : Z;
  response_bytes : Z;
  protocol_errors : Z;
  transport_errors : Z;
  application_errors : Z;
  overloaded_responses : Z;
  request_latency_nanos : Z;
  operations : list Z;
}.
Definition no_metrics : ServerMetrics := mkMetrics 0 0 0 0 0 0 0 0 0 0 0 (repeat 0 8).

Inductive Counter : Type :=
  | ConnectionsTotal | ActiveConnections | ActiveStreams | RequestsTotal | RequestBytes | ResponseBytes
  | ProtocolErrors | TransportErrors | ApplicationErrors | OverloadedResponses | RequestLatencyNanos
  | Operation (index : Z).

#[global] Instance counter_eq_dec : EqDecision Counter.
Proof. solve_decision. Defined.

(** [fetch_add] on an [AtomicU64]; a negative amount is a [fetch_sub]. *)
Definition fetch_add (c : Counter) (n : Z) (m : ServerMetrics) : ServerMetrics :=
  let bump d x := match decide (c = d) with left _ => wrapping_add x n | right _ => x end in
  mkMetrics (bump ConnectionsTotal (connections_total m)) (bump ActiveConnections (active_connections m))
    (bump ActiveStreams (active_streams m)) (bump RequestsTotal (requests_total m)) (bump RequestBytes (request_bytes m))
    (bump ResponseBytes (response_bytes m)) (bump ProtocolErrors (protocol_errors m))
    (bump TransportErrors (transport_errors m)) (bump ApplicationErrors (application_errors m))
    (bump OverloadedResponses (overloaded_responses m)) (bump RequestLatencyNanos (request_latency_nanos m))
    (imap (λ i x, bump (Operation (Z.of_nat i)) x) (operations m)).

(** ** One request *)

Section stream.
Context `{BS : BiStream B} `{DS : DodbService V} (limits : ProtocolLimits).

Record StreamState : Type := mkStream { st_stream : B; st_service : V; st_metrics : ServerMetrics }.

(** The task of a stream has no error of its own. *)
Abbreviation SM := (St StreamState Empty_set).

Definition on_stream {A} (f : B → A * B) : SM A := λ s,
  let '(r, b) := f (st_stream s) in (Ok r, mkStream b (st_service s) (st_metrics s)).
Definition count (c : Counter) (n : Z) : SM unit := modify_st (λ s, mkStream (st_stream s) (st_service s) (fetch_add c n (st_metrics s))).
(** The result of the service is a value; a panic ends the task. *)
Definition on_service {A} (m : St V Error A) : SM (Result Error A) := λ s,
  match m (st_service s) with
  | (Stuck k, v) => (Stuck k, mkStream (st_stream s) v (st_metrics s))
  | (r, v) => (Ok r, mkStream (st_stream s) v (st_metrics s))
  end.

Definition send_protocol_error (error : ProtocolError) : SM unit :=
  match encode_response limits (ErrorEnvelope (from_protocol error)) with
  | Err _ => mret tt
  | Stuck k => lift_r (Stuck k)
  | Ok response =>
      w ← on_stream (write_all response);
      match w with Some _ => mret tt | None => on_stream finish;; mret tt end
  end.

(** From the answer of the service to the bytes of the response. *)
Definition respond (is_mutation : bool) (r : Result Error Service.Response) (elapsed : Z) : SM unit :=
  envelope ← match r with
             | Ok response => mret (SuccessEnvelope response)
             | Err error =>
                 let application_error := from_core_for_request error is_mutation in
                 match kind application_error with
                 | KindOverloaded => count OverloadedResponses 1
                 | _ => mret tt
                 end;;
                 mret (ErrorEnvelope application_error)
             | Stuck k => lift_r (Stuck k)
             end;
  match envelope with ErrorEnvelope _ => count ApplicationErrors 1 | SuccessEnvelope _ => mret tt end;;
  match encode_response limits envelope with
  | Stuck k => lift_r (Stuck k)
  | Err error => count ProtocolErrors 1;; send_protocol_error error
  | Ok encoded =>
      w ← on_stream (write_all encoded);
      f ← match w with Some e => mret (Some e) | None => on_stream finish end;
      match f with
      | Some _ => count TransportErrors 1
      | None => count ResponseBytes (len encoded);; count RequestLatencyNanos elapsed
      end
  end.

(** A decoded request. *)
Definition execute_request (tenant : TenantId) (request : Service.Request) (payload_length elapsed : Z) : SM unit :=
  count RequestsTotal 1;;
  count RequestBytes (HEADER_SIZE + payload_length);;
  count (Operation (Z.max (request_opcode request - 1) 0)) 1;;
  r ← on_service (service_execute tenant request (Service.mkBudget (max_response_frame_size limits)));
  respond (Service.is_mutation request) r elapsed.

Definition serve_stream (elapsed : Z) : SM unit :=
  header ← on_stream (read_exact HEADER_SIZE);
  match header with
  | inl _ => count TransportErrors 1
  | inr header_bytes =>
      match decode_header header_bytes with
      | Stuck k => lift_r (Stuck k)
      | Err error => count ProtocolErrors 1;; send_protocol_error error
      | Ok header =>
          let frame_length := saturating_add HEADER_SIZE (payload_length header) in
          if max_request_frame_size limits <? frame_length then
            count ProtocolErrors 1;; send_protocol_error (PayloadTooLarge frame_length (max_request_frame_size limits))
          else
            payload ← on_stream (read_exact (payload_length header));
            match payload with
            | inl _ => count ProtocolErrors 1
            | inr payload =>
                trailing ← on_stream (read_to_end 1);
                match trailing with
                | inl _ | inr (_ :: _) => count ProtocolErrors 1
                | inr [] =>
                    match decode_request_parts limits header payload with
                    | Stuck k => lift_r (Stuck k)
                    | Err error => count ProtocolErrors 1;; send_protocol_error error
                    | Ok (tenant, request) => execute_request tenant request (len payload) elapsed
                    end
                end
            end
      end
  end.
End stream.

#[global] Arguments StreamState B V : clear implicits.
#[global] Arguments mkStream {B V}.
#[global] Arguments st_stream {B V}.
#[global] Arguments st_service {B V}.
#[global] Arguments st_metrics {B V}.

(** ** Accepting connections and streams *)

(** A connection task: in the handshake, waiting for a stream, or with a stream for which
    it waits for a request permit.  It holds its connection permit until it returns. *)
Inductive ConnectionPhase : Type := Handshaking | Accepting | Acquiring.

(** A stream task: before its first instruction, in [serve_stream], and at the end, when it
    drops its request permit. *)
Inductive StreamPhase : Type := Spawned | Serving | Served.

Section tasks.
Context `{BS : BiStream B} `{DS : DodbService V} `{SP : Semaphore P} (config : DodbServerConfig).

Record ServerTasks : Type := mkTasks {
  sv_connections : gmap nat ConnectionPhase;
  sv_streams : gmap nat StreamPhase;
  sv_connection_slots : P;
  sv_request_slots : P;
  sv_metrics : ServerMetrics;
  sv_service : V;
}.

Definition counted (c : Counter) (n : Z) (s : ServerTasks) : ServerTasks :=
  mkTasks (sv_connections s) (sv_streams s) (sv_connection_slots s) (sv_request_slots s) (fetch_add c n (sv_metrics s))
    (sv_service s).
Definition set_connection (id : nat) (p : option ConnectionPhase) (s : ServerTasks) : ServerTasks :=
  mkTasks (partial_alter (λ _, p) id (sv_connections s)) (sv_streams s) (sv_connection_slots s) (sv_request_slots s)
    (sv_metrics s) (sv_service s).
Definition set_stream (id : nat) (p : option StreamPhase) (s : ServerTasks) : ServerTasks :=
  mkTasks (sv_connections s) (partial_alter (λ _, p) id (sv_streams s)) (sv_connection_slots s) (sv_request_slots s)
    (sv_metrics s) (sv_service s).
Definition set_connection_slots (p : P) (s : ServerTasks) : ServerTasks :=
  mkTasks (sv_connections s) (sv_streams s) p (sv_request_slots s) (sv_metrics s) (sv_service s).
Definition set_request_slots (p : P) (s : ServerTasks) : ServerTasks :=
  mkTasks (sv_connections s) (sv_streams s) (sv_connection_slots s) p (sv_metrics s) (sv_service s).

(** [connection_slots.try_acquire_owned()] and [request_slots.acquire_owned()]; a permit
    is moved into the task that is spawned, and dropped by it. *)
Definition acquire_connection (s : ServerTasks) : option ServerTasks :=
  p ← try_acquire (sv_connection_slots s); Some (set_connection_slots p s).
Definition acquire_request (s : ServerTasks) : option ServerTasks :=
  p ← try_acquire (sv_request_slots s); Some (set_request_slots p s).
Definition drop_connection_permit (s : ServerTasks) : ServerTasks :=
  set_connection_slots (release (sv_connection_slots s)) s.
Definition drop_stream_permit (s : ServerTasks) : ServerTasks :=
  set_request_slots (release (sv_request_slots s)) s.

(** The server that [bind] returns; [endpoint] is the result of [to_quinn_config] and
    [Endpoint::server]. *)
Definition bind (endpoint : Result ServerError unit) (v : V) : Result ServerError ServerTasks :=
  validate config;;
  endpoint;;
  match semaphore_new (max_connections config), semaphore_new (max_concurrent_requests config) with
  | Some connection_slots, Some request_slots => Ok (mkTasks ∅ ∅ connection_slots request_slots no_metrics v)
  | _, _ => Stuck Panicked
  end.

(** A connection task returns: its argument [_connection_permit] is dropped. *)
Definition end_connection (id : nat) (s : ServerTasks) : ServerTasks :=
  drop_connection_permit (set_connection id None s).

(** What [serve_stream] leaves. *)
Definition after_stream (t : StreamState B V) (s : ServerTasks) : ServerTasks :=
  mkTasks (sv_connections s) (sv_streams s) (sv_connection_slots s) (sv_request_slots s) (st_metrics t) (st_service t).

Inductive server_label : Type :=
  | SAccepted | SRefused | SHandshake (ok : bool) | SStream (ok : bool) | SPermit | SClosed | SStarted | SServed | SDropped
  | SPanicked.

Inductive server_step : ServerTasks → server_label → ServerTasks → Prop :=
  | server_accepted id s s1 :
      sv_connections s !! id = None → acquire_connection s = Some s1 →
      server_step s SAccepted (set_connection id (Some Handshaking) s1)
  | server_refused s : acquire_connection s = None → server_step s SRefused (counted OverloadedResponses 1 s)
  | server_connected id s :
      sv_connections s !! id = Some Handshaking →
      server_step s (SHandshake true)
        (set_connection id (Some Accepting) (counted ActiveConnections 1 (counted ConnectionsTotal 1 s)))
  | server_handshake_failed id s :
      sv_connections s !! id = Some Handshaking →
      server_step s (SHandshake false) (end_connection id (counted TransportErrors 1 s))
  | server_stream id s :
      sv_connections s !! id = Some Accepting → server_step s (SStream true) (set_connection id (Some Acquiring) s)
  | server_stream_failed id s :
      sv_connections s !! id = Some Accepting →
      server_step s (SStream false) (end_connection id (counted ActiveConnections (-1) (counted TransportErrors 1 s)))
  | server_permit id stream s s1 :
      sv_connections s !! id = Some Acquiring → sv_streams s !! stream = None → acquire_request s = Some s1 →
      server_step s SPermit (set_connection id (Some Accepting) (set_stream stream (Some Spawned) s1))
  | server_closed id p s :
      sv_connections s !! id = Some p → p = Accepting ∨ p = Acquiring →
      server_step s SClosed (end_connection id (counted ActiveConnections (-1) s))
  | server_started stream s :
      sv_streams s !! stream = Some Spawned →
      server_step s SStarted (set_stream stream (Some Serving) (counted ActiveStreams 1 s))
  | server_served stream (b : B) elapsed t s :
      sv_streams s !! stream = Some Serving →
      serve_stream (protocol_limits config) elapsed (mkStream b (sv_service s) (sv_metrics s)) = (Ok tt, t) →
      server_step s SServed (set_stream stream (Some Served) (counted ActiveStreams (-1) (after_stream t s)))
  | server_dropped stream s :
      sv_streams s !! stream = Some Served →
      server_step s SDropped (set_stream stream None (drop_stream_permit s))
  | server_panicked stream (b : B) elapsed k t s :
      sv_streams s !! stream = Some Serving →
      serve_stream (protocol_limits config) elapsed (mkStream b (sv_service s) (sv_metrics s)) = (Stuck k, t) →
      server_step s SPanicked (set_stream stream None (drop_stream_permit (after_stream t s))).

Inductive server_steps : ServerTasks → list server_label → ServerTasks → Prop :=
  | server_steps_nil s : server_steps s [] s
  | server_steps_cons s l s1 ls s' : server_step s l s1 → server_steps s1 ls s' → server_steps s (l :: ls) s'.
End tasks.

#[global] Arguments ServerTasks V P : clear implicits.
End Server.
