(* ===== verification/ServerTheorems.v ===== *)
(** * What the server promises

    A stream task runs the service exactly once for a stream that is one well-formed
    request and never otherwise; its load stays within the configured limits; and with
    the client on the other side a call returns the answer of the service. *)

From stdpp Require Import pretty.
From S2P Require Import Prelude Wp Key Core Service Protocol ProtocolLaws ProtocolTheorems Transport TransportLaws Client.
From S2P Require Import ClientTheorems Server.

Module ServerTheorems.
Import Core Protocol ProtocolLaws ProtocolTheorems TransportLaws Server.

(** ** Encoders do not panic *)

Definition total (m : PW) : Prop := ∀ w, wp m (λ _ _, True) (λ _ _, True) w.

Lemma total_bind m f : total m → (∀ x, total (f x)) → total (m ≫= f).
Proof. intros Hm Hf w. apply wp_bind. eapply wp_mono; [apply Hm|intros x s' _; apply Hf|done]. Qed.
Lemma total_raw b : total (write_raw b).
Proof. done. Qed.
Lemma total_fail c e : total (fail_when c e).
Proof. intros w. by destruct c. Qed.
Lemma total_u32 {n} (f : Z → PW) : (∀ x, total (f x)) → total (lift_r (try_u32 n) ≫= f).
Proof. intros Hf w. unfold try_u32. destruct (_ <=? _); [apply Hf|done]. Qed.
Lemma total_for_each {A} (f : A → PW) xs : (∀ x, total (f x)) → total (for_each f xs).
Proof. intros Hf. induction xs; cbn [for_each]; [done|]. by apply total_bind. Qed.
Lemma total_key_parts l pk sk : total (lift_r (validate_key_parts l pk sk)).
Proof. intros w. pose proof (validate_key_parts_returns l pk sk). unfold wp, lift_r. by destruct (validate_key_parts l pk sk). Qed.

Ltac total :=
  repeat first
    [ apply total_raw | apply total_fail | apply total_key_parts | apply total_u32; intros | apply total_for_each; intros
    | apply total_bind; [|intros] | progress unfold write_u8, write_u32, write_u64
    | progress unfold write_bytes, encode_bytes, bytes_raw, encode_count, encode_key, validate_key ].

Lemma encode_envelope_total l e : total (encode_envelope l e).
Proof.
  unfold encode_envelope. destruct e as [r|[k d o c]].
  - destruct r as [[]| | | | |[[]]]; unfold encode_response_payload, encode_revision_state, encode_documents, encode_document,
      encode_transaction_outcome; cbn [Service.outcome_commit_lsn]; total.
  - unfold encode_application_error. cbn [kind detail mutation_outcome conflict].
    destruct c as [[key [] []]|]; unfold encode_optional_conflict, encode_conflict, encode_expectation, encode_observed_state;
      cbn [details_key details_expected details_actual]; total.
Qed.

Lemma encode_response_returns l e : returns (encode_response l e).
Proof.
  unfold encode_response. pose proof (validate_limits_returns l). destruct (validate_limits l) as [[]| |]; [|done..].
  cbn [mbind Result_bind]. pose proof (encode_envelope_total l e []) as Ht. unfold wp in Ht. unfold written.
  destruct (encode_envelope l e []) as [[[]| |] w]; [|done..]. cbn [mbind Result_bind]. unfold encode_frame.
  destruct (checked_add _ _); [|done]. cbn [ok_or mbind Result_bind]. unfold fail_if. destruct (_ <? _); [done|].
  cbn [mbind Result_bind]. unfold try_u32. by destruct (_ <=? _).
Qed.

(** ** One stream *)

Section stream.
Context `{SB : BiStreamSpec B} `{DS : DodbService V} (l : ProtocolLimits).
Implicit Types (s : StreamState B V) (b : B).

(** The request of a finished stream. *)
Definition request_in b : option (TenantId * Service.Request) :=
  if peer_finished b then match decode_request_frame l (incoming b) with Ok x => Some x | _ => None end else None.

Definition envelope_of (mutation : bool) (r : Result Error Service.Response) : ResponseEnvelope :=
  match r with
  | Ok response => SuccessEnvelope response
  | Err e => ErrorEnvelope (from_core_for_request e mutation)
  | Stuck _ => ErrorEnvelope (invalid_request [])
  end.

(** The frame that is sent, if any. *)
Definition error_frame (e : ProtocolError) : option bytes :=
  match encode_response l (ErrorEnvelope (from_protocol e)) with Ok f => Some f | _ => None end.
Definition response_frame (env : ResponseEnvelope) : option bytes :=
  match encode_response l env with
  | Ok f => Some f
  | Err e => error_frame e
  | Stuck _ => None
  end.

(** [write_all] and then [finish]. *)
Definition transmit (f : option bytes) b : B :=
  match f with
  | None => b
  | Some f => match write_all f b with (Some _, b) => b | (None, b) => (finish b).2 end
  end.

Lemma send_error_spec e s :
  ∃ s', send_protocol_error l e s = (Ok tt, s') ∧ st_service s' = st_service s ∧ st_stream s' = transmit (error_frame e) (st_stream s) ∧
    st_metrics s' = st_metrics s.
Proof.
  unfold send_protocol_error, error_frame. pose proof (encode_response_returns l (ErrorEnvelope (from_protocol e))) as Hr.
  destruct (encode_response l _) as [f| |]; [|by eexists|done]. unfold on_stream, mbind, St_bind, transmit.
  destruct (write_all f (st_stream s)) as [[x|] b1] eqn:Ew; [by eexists|]. cbn [st_stream st_service st_metrics].
  destruct (finish b1) as [y b2]. by eexists.
Qed.

Lemma count_run c n s : count c n s = (Ok tt, mkStream (st_stream s) (st_service s) (fetch_add c n (st_metrics s))).
Proof. done. Qed.

Lemma on_stream_bind {A D} (f : B → A * B) (k : A → St _ Empty_set D) s :
  (on_stream f ≫= k) s = k (f (st_stream s)).1 (mkStream (f (st_stream s)).2 (st_service s) (st_metrics s)).
Proof. unfold on_stream, mbind, St_bind. by destruct (f (st_stream s)). Qed.

Lemma respond_spec mutation r elapsed s :
  returns r →
  ∃ s', respond l mutation r elapsed s = (Ok tt, s') ∧ st_service s' = st_service s ∧
    st_stream s' = transmit (response_frame (envelope_of mutation r)) (st_stream s).
Proof.
  intros Hret. unfold respond.
  assert (Henv : ∃ s1, (match r with
             | Ok response => mret (SuccessEnvelope response)
             | Err error =>
                 match kind (from_core_for_request error mutation) with
                 | KindOverloaded => count OverloadedResponses 1
                 | _ => mret tt
                 end;;
                 mret (ErrorEnvelope (from_core_for_request error mutation))
             | Stuck k => lift_r (Stuck k)
             end) s = (Ok (envelope_of mutation r), s1) ∧ st_service s1 = st_service s ∧ st_stream s1 = st_stream s).
  { destruct r as [x|e|]; [by eexists| |done]. unfold mbind, St_bind. destruct (kind _); by eexists. }
  destruct Henv as (s1 & E1 & V1 & B1). cbv zeta. unfold mbind at 1, St_bind at 1. rewrite E1.
  set (env := envelope_of mutation r).
  assert (Hcount : ∃ s2, (match env with ErrorEnvelope _ => count ApplicationErrors 1 | SuccessEnvelope _ => mret tt end) s1 = (Ok tt, s2) ∧
    st_service s2 = st_service s1 ∧ st_stream s2 = st_stream s1) by (destruct env; by eexists).
  destruct Hcount as (s2 & E2 & V2 & B2). unfold mbind at 1, St_bind at 1. rewrite E2.
  unfold response_frame. pose proof (encode_response_returns l env) as He. destruct (encode_response l env) as [f|e|]; [| |done].
  - unfold on_stream, mbind, St_bind, transmit. rewrite B2, B1. destruct (write_all f (st_stream s)) as [[x|] b1]; [eexists; split_and!; [done|cbn; congruence|done]|].
    cbn [st_stream st_service st_metrics mret St_ret]. destruct (finish b1) as [[y|] b2]; eexists; split_and!; try done; cbn; congruence.
  - unfold mbind, St_bind. rewrite count_run. destruct (send_error_spec e (mkStream (st_stream s2) (st_service s2)
      (fetch_add ProtocolErrors 1 (st_metrics s2)))) as (s3 & -> & E3 & E4 & _). cbn in *. exists s3. split_and!; [done|congruence|congruence].
Qed.

Lemma request_in_Some b x :
  request_in b = Some x →
  peer_finished b = true ∧
  ∃ h, decode_header (incoming b).[0; HEADER_SIZE) = Ok h ∧ HEADER_SIZE ≤ len (incoming b) ∧
    len (incoming b) = HEADER_SIZE + payload_length h ∧ HEADER_SIZE + payload_length h ≤ max_request_frame_size l ∧
    decode_request_parts l h (drop (Z.to_nat HEADER_SIZE) (incoming b)) = Ok x.
Proof.
  unfold request_in, decode_request_frame. destruct (peer_finished b); [|done].
  destruct (split_frame _) as [[h payload]| |] eqn:Es; [|done..]. cbn [mbind Result_bind].
  apply split_frame_parts in Es as (P1 & P2 & P3 & ->). destruct (decode_request_parts _ _ _) as [e| |] eqn:Ed; [|done..].
  intros [= ->]. split; [done|]. exists h. split_and!; try done.
  unfold decode_request_parts in Ed. destruct (validate_limits l); [|done..]. cbn [mbind Result_bind] in Ed.
  destruct (validate_payload_length _ _ _) as [[]| |] eqn:Ev; [|done..]. by eapply valid_length.
Qed.

(** What happens to a stream that is not a request: at most an error is sent. *)
Definition refused s s' : Prop :=
  st_service s' = st_service s ∧
  ∃ b1 f, outgoing b1 = outgoing (st_stream s) ∧ own_finished b1 = own_finished (st_stream s) ∧
    st_stream s' = transmit f b1 ∧ (f = None ∨ ∃ e, f = error_frame e).

Lemma refuse_silently c n s b1 :
  outgoing b1 = outgoing (st_stream s) → own_finished b1 = own_finished (st_stream s) →
  ∃ s', count c n (mkStream b1 (st_service s) (st_metrics s)) = (Ok tt, s') ∧ refused s s'.
Proof. intros Ho Hf. eexists. split; [done|]. split; [done|]. exists b1, None. split_and!; auto. Qed.

Lemma refuse_with_error e s b1 :
  outgoing b1 = outgoing (st_stream s) → own_finished b1 = own_finished (st_stream s) →
  ∃ s', (count ProtocolErrors 1;; send_protocol_error l e) (mkStream b1 (st_service s) (st_metrics s)) = (Ok tt, s') ∧ refused s s'.
Proof.
  intros Ho Hf. unfold mbind, St_bind. rewrite count_run. cbn [st_stream st_service st_metrics].
  destruct (send_error_spec e (mkStream b1 (st_service s) (fetch_add ProtocolErrors 1 (st_metrics s)))) as (s' & -> & E1 & E2 & _).
  exists s'. split; [done|]. split; [done|]. exists b1, (error_frame e). split_and!; eauto.
Qed.

Definition budget : Service.ExecutionBudget := Service.mkBudget (max_response_frame_size l).

(** The stream after a frame with a payload of [n] bytes was read. *)
Definition read_through n b : B := (read_to_end 1 (read_exact n (read_exact HEADER_SIZE b).2).2).2.

(** The stream task reads the whole request first, and only then runs the service. *)
Lemma serve_stream_spec elapsed s :
  sane (st_stream s) →
  match request_in (st_stream s) with
  | Some (t, r) => ∃ n, let b1 := read_through n (st_stream s) in
      outgoing b1 = outgoing (st_stream s) ∧ own_finished b1 = own_finished (st_stream s) ∧
      serve_stream l elapsed s = execute_request l t r n elapsed (mkStream b1 (st_service s) (st_metrics s))
  | None => ∃ s', serve_stream l elapsed s = (Ok tt, s') ∧ refused s s'
  end.
Proof.
  intros Hs. pose proof Hs as [Hb Hmax]. destruct s as [b v m]. cbn [st_stream st_service st_metrics] in *.
  unfold read_through. assert (Hnone : ∀ P : Prop, (∀ x, request_in b ≠ Some x) → (request_in b = None → P) → P).
  { intros P Hn HP. apply HP. destruct (request_in b) as [x|]; [by destruct (Hn x)|done]. }
  unfold serve_stream. rewrite on_stream_bind. cbn [st_stream st_service st_metrics].
  pose proof (read_header b Hs) as Hh. destruct (read_exact HEADER_SIZE b) as [[e|x] b1]; cbn [fst snd].
  { destruct Hh as (Hl & Ho & Hf). eapply Hnone; [|intros ->; by apply (refuse_silently _ _ (mkStream b v m))].
    intros x (_ & h & _ & ? & _)%request_in_Some. lia. }
  destruct Hh as (H1 & -> & H2 & H3 & H4 & H5). assert (Hlb : len (incoming b).[0; HEADER_SIZE) = HEADER_SIZE).
  { rewrite len_slice; unfold HEADER_SIZE in *; lia. }
  pose proof (decode_header_returns _ Hlb) as Hret.
  destruct (decode_header _) as [h|e|] eqn:Ed; [| |done].
  2:{ eapply Hnone; [|intros ->; by apply (refuse_with_error e (mkStream b v m))].
      intros x (_ & h & Hd & _)%request_in_Some. congruence. }
  pose proof (header_length_range _ h (is_bytes_slice _ _ _ Hb) Hlb Ed) as Hp. cbv zeta.
  assert (saturating_add HEADER_SIZE (payload_length h) = HEADER_SIZE + payload_length h) as ->.
  { unfold saturating_add, HEADER_SIZE. unfold U32_MAX, U64_MAX in *. lia. }
  destruct (Z.ltb_spec (max_request_frame_size l) (HEADER_SIZE + payload_length h)) as [Hlt|Hle].
  { eapply Hnone; [|intros ->; by apply (refuse_with_error _ (mkStream b v m))].
    intros x (_ & h' & Hd & _ & _ & ? & _)%request_in_Some. rewrite Ed in Hd. injection Hd as <-. lia. }
  assert (Hlen : len (incoming b1) = len (incoming b) - HEADER_SIZE) by (rewrite H2; unfold len in *; rewrite length_drop; unfold HEADER_SIZE in *; lia).
  assert (Hbad : peer_finished b = false ∨ len (incoming b1) ≠ payload_length h → ∀ x, request_in b ≠ Some x).
  { intros Hbad x (Hf & h' & Hd & _ & He & _)%request_in_Some. rewrite Ed in Hd. injection Hd as <-.
    destruct Hbad as [?|[]]; [congruence|lia]. }
  rewrite on_stream_bind. cbn [st_stream st_service st_metrics].
  pose proof (read_payload b1 (payload_length h) ltac:(lia)) as Hr. rewrite H4, H5 in Hr.
  destruct (read_exact (payload_length h) b1) as [[e|x] b2] eqn:Eb2; cbn [fst snd].
  { eapply Hnone; [apply Hbad; right; lia|intros ->]. apply (refuse_silently _ _ (mkStream b v m)); apply Hr. }
  destruct Hr as (_ & _ & Hr). rewrite on_stream_bind. cbn [st_stream st_service st_metrics].
  destruct (read_to_end 1 b2) as [[e|y] b3] eqn:Eb3; cbn [fst snd].
  { eapply Hnone; [apply Hbad; rewrite <-H3; apply Hr|intros ->]. apply (refuse_silently _ _ (mkStream b v m)); apply Hr. }
  destruct Hr as (R1 & R2 & R3 & R4). destruct y as [|z y].
  2:{ eapply Hnone; [apply Hbad; right; by apply R4|intros ->]. by apply (refuse_silently _ _ (mkStream b v m)). }
  destruct (R3 eq_refl) as (-> & E1 & E2).
  assert (Hframe : decode_request_frame l (incoming b) = decode_request_parts l h (incoming b1)).
  { unfold decode_request_frame. rewrite (split_frame_ok _ h H1 Ed) by lia. cbn [mbind Result_bind]. by rewrite H2. }
  pose proof (decode_request_inv l (incoming b) Hb Hmax) as Hi. unfold request_in. rewrite <-H3, E2, Hframe. rewrite Hframe in Hi.
  destruct (decode_request_parts _ _ _) as [[t r]|e|]; [|by apply (refuse_with_error e (mkStream b v m))|done].
  exists (payload_length h). cbv zeta. rewrite Eb2. cbn [snd]. rewrite Eb3, <-E1. by split_and!.
Qed.

(** Running the request. *)
Lemma execute_request_spec t r n elapsed s :
  match service_execute t r budget (st_service s) with
  | (Stuck k, v') => ∃ s', execute_request l t r n elapsed s = (Stuck k, s') ∧ st_service s' = v' ∧ st_stream s' = st_stream s
  | (res, v') => ∃ s', execute_request l t r n elapsed s = (Ok tt, s') ∧ st_service s' = v' ∧
      st_stream s' = transmit (response_frame (envelope_of (Service.is_mutation r) res)) (st_stream s)
  end.
Proof.
  assert (∃ m, execute_request l t r n elapsed s =
    match service_execute t r budget (st_service s) with
    | (Stuck k, v') => (Stuck k, mkStream (st_stream s) v' m)
    | (res, v') => respond l (Service.is_mutation r) res elapsed (mkStream (st_stream s) v' m)
    end) as [m ->].
  { eexists. unfold execute_request, on_service, count, modify_st. unfold mbind, St_bind. cbn [st_stream st_service st_metrics].
    fold budget. by destruct (service_execute t r budget (st_service s)) as [[]]. }
  destruct (service_execute t r budget (st_service s)) as [[x|e|k] v']; [| |by eexists].
  - destruct (respond_spec (Service.is_mutation r) (Ok x) elapsed (mkStream (st_stream s) v' m) I) as (s' & -> & Ev & Eb).
    exists s'. by rewrite Ev, Eb.
  - destruct (respond_spec (Service.is_mutation r) (Err e) elapsed (mkStream (st_stream s) v' m) I) as (s' & -> & Ev & Eb).
    exists s'. by rewrite Ev, Eb.
Qed.
End stream.

(** ** A client and a server *)

(** The texts of protocol errors are ASCII. *)
Fixpoint ascii (s : string) : bool :=
  match s with
  | String.EmptyString => true
  | String.String c s' => (Ascii.nat_of_ascii c <? 128)%nat && ascii s'
  end.

Lemma ascii_app s s' : ascii (s +:+ s') = ascii s && ascii s'.
Proof.
  induction s as [|c s IH]; [done|]. change (String.String c s +:+ s') with (String.String c (s +:+ s')).
  cbn [ascii]. by rewrite IH, andb_assoc.
Qed.

Lemma ascii_digit x : (Ascii.nat_of_ascii (pretty_N_char (x `mod` 10)) <? 128)%nat = true.
Proof.
  assert (x `mod` 10 < 10)%N by (by apply N.mod_lt).
  destruct (x `mod` 10)%N as [|p] eqn:E; [done|]. do 4 (destruct p as [p|p|]; try done); lia.
Qed.

Lemma ascii_pretty (z : Z) : ascii (pretty z) = true.
Proof.
  assert (Hgo : ∀ x s, ascii s = true → ascii (pretty_N_go x s) = true).
  { intros x. induction (N.lt_wf_0 x) as [x _ IH]. intros s Hs. destruct (decide (0 < x)%N) as [Hx|Hx].
    - rewrite pretty_N_go_step by done. apply IH; [apply N.div_lt; lia|]. cbn [ascii]. by rewrite ascii_digit.
    - assert (x = 0%N) as -> by lia. by rewrite pretty_N_go_0. }
  assert (HN : ∀ x : N, ascii (pretty x) = true) by (intros x; unfold pretty, pretty_N; case_decide; [done|by apply Hgo]).
  destruct z as [|p|p]; [done|apply (HN (N.pos p))|]. change (ascii ("-" +:+ pretty (N.pos p)) = true). by rewrite ascii_app, HN.
Qed.

Lemma ascii_error e : ascii (error_to_string e) = true.
Proof. destruct e; cbn [error_to_string]; rewrite ?ascii_app, ?ascii_pretty; done. Qed.

Lemma ascii_bytes s : ascii s = true → is_bytes (string_bytes s) ∧ is_Some (chars (string_bytes s)).
Proof.
  unfold string_bytes, chars. rewrite length_fmap.
  induction s as [|c s IH]; [intros _; split; [constructor|by eexists]|]. cbn -[Nat.ltb Z.of_nat between].
  intros [Hc%Nat.ltb_lt Hl]%andb_true_iff. destruct (IH Hl) as [Hb [cs Hcs]]. split; [apply Forall_cons_2; [|done]; unfold u8, compose; lia|].
  assert (between 0 127 (Z.of_nat (Ascii.nat_of_ascii c)) = true) as ->
    by (unfold between; apply andb_true_iff; split; apply Z.leb_le; lia).
  cbn. rewrite Hcs. by eexists.
Qed.

Section call.
Context `{SB : BiStreamSpec B} `{DS : DodbService V} (l : ProtocolLimits).
Context `{SC : BiStreamSpec K}.
Implicit Types (s : StreamState B V) (b : B) (c : K).

(** The envelope that reaches the client: an answer that cannot be encoded is replaced by
    the error of the encoder. *)
Definition delivered (env : ResponseEnvelope) : ResponseEnvelope :=
  match encode_response l env with
  | Err e => ErrorEnvelope (from_protocol e)
  | _ => env
  end.

Lemma delivered_frame env g :
  response_frame l env = Some g → encode_response l (delivered env) = Ok g.
Proof.
  unfold response_frame, delivered, error_frame. destruct (encode_response l env) as [f|e|k] eqn:E; [congruence| |done].
  destruct (encode_response l (ErrorEnvelope (from_protocol e))); congruence.
Qed.

Lemma delivered_wf t env :
  wf_envelope_sent env → expected_type t env → wf_envelope_sent (delivered env) ∧ expected_type t (delivered env).
Proof.
  intros Hw Ht. unfold delivered. destruct (encode_response l env) as [f|e|k]; [done| |done]. split; [|by intros r x ?].
  destruct (ascii_bytes _ (ascii_error e)). split_and!; done.
Qed.

(** A transmission that was completed. *)
Lemma transmit_whole f b :
  own_finished b = false → own_finished (transmit f b) = true → ∃ g, f = Some g ∧ outgoing (transmit f b) = outgoing b ++ g.
Proof.
  intros Hb. destruct f as [g|]; cbn [transmit]; [|congruence]. intros Hf. exists g. split; [done|].
  pose proof (write_all_spec g b) as Hw. destruct (write_all g b) as [[e|] b1]; [congruence|]. destruct Hw as [W1 W2].
  pose proof (finish_spec b1) as Hn. destruct (finish b1) as [[e|] b2]; cbn [snd] in *; [congruence|]. destruct Hn as [N1 _]. congruence.
Qed.

(** The server's half of a call. *)
Lemma served_request elapsed tenant r f s res v' :
  u64 tenant → wf_request r → encode_request l tenant r = Ok f → incoming (st_stream s) = f → peer_finished (st_stream s) = true →
  service_execute tenant r (budget l) (st_service s) = (res, v') → returns res →
  ∃ s' b1, serve_stream l elapsed s = (Ok tt, s') ∧ st_service s' = v' ∧
    outgoing b1 = outgoing (st_stream s) ∧ own_finished b1 = own_finished (st_stream s) ∧
    st_stream s' = transmit (response_frame l (envelope_of (Service.is_mutation r) res)) b1.
Proof.
  intros Ht Hr He Hin Hfin Hx Hret. destruct (request_survives _ _ _ _ Ht Hr He) as (Hb & Hl & Hd).
  assert (Hreq : request_in l (st_stream s) = Some (tenant, r)) by (unfold request_in; by rewrite Hfin, Hin, Hd).
  pose proof (serve_stream_spec l elapsed s) as Hs. rewrite Hreq in Hs.
  destruct Hs as (n & H1 & H2 & Hrun); [by split; rewrite Hin|]. rewrite Hrun.
  pose proof (execute_request_spec l tenant r n elapsed (mkStream (read_through n (st_stream s)) (st_service s) (st_metrics s))) as Hq.
  cbn [st_stream st_service] in Hq. rewrite Hx in Hq.
  destruct res as [x|e|]; [..|done]; destruct Hq as (s' & -> & Ev & Es); by exists s', (read_through n (st_stream s)).
Qed.

(** The client's half: the reply, or an uncertain error without one. *)
Lemma received_reply mutation t f c c1 c2 :
  write_all f c = (None, c1) → finish c1 = (None, c2) → sane c2 →
  match ClientTheorems.reply l t c2 with
  | Some env => (Client.execute_on_connection l (inr c) mutation t f).1 = Client.response_of mutation env
  | None => ∃ e, (Client.execute_on_connection l (inr c) mutation t f).1 = Err e ∧ ClientTheorems.uncertain mutation e
  end.
Proof.
  intros Hw Hf Hs. unfold Client.execute_on_connection. rewrite Hw, Hf.
  pose proof (ClientTheorems.read_response_spec l mutation t c2 Hs) as Hc.
  destruct (Client.read_response l mutation t c2) as [[env|e|k] c3]; [by rewrite Hc| |done].
  destruct Hc as [-> Hu]. by exists e.
Qed.
End call.

(** ** Load *)

(** How many tasks are in a phase that [P] selects. *)
Definition tally {A} (P : A → bool) (m : gmap nat A) : nat := length (filter (λ p, P p.2 = true) (map_to_list m)).
Definition weigh {A} (P : A → bool) (x : option A) : nat := match x with Some x => Nat.b2n (P x) | None => 0 end.

Lemma tally_insert {A} (P : A → bool) (m : gmap nat A) i x :
  m !! i = None → tally P (<[i := x]> m) = (Nat.b2n (P x) + tally P m)%nat.
Proof.
  intros Hi. unfold tally. rewrite (map_to_list_insert m i x Hi), filter_cons. cbn. by destruct (P x).
Qed.

Lemma tally_alter {A} (P : A → bool) (m : gmap nat A) i x :
  (tally P (partial_alter (λ _, x) i m) + weigh P (m !! i) = tally P m + weigh P x)%nat.
Proof.
  assert (Hdel : (tally P m = tally P (delete i m) + weigh P (m !! i))%nat).
  { destruct (m !! i) as [y|] eqn:E; cbn [weigh].
    - rewrite <-(insert_delete_id m i y E) at 1. rewrite tally_insert by apply lookup_delete_eq. lia.
    - rewrite delete_id by done. lia. }
  rewrite Hdel. destruct x as [x|]; cbn [weigh].
  - change (partial_alter (λ _, Some x) i m) with (<[i := x]> m). rewrite <-insert_delete_eq.
    rewrite tally_insert by apply lookup_delete_eq. lia.
  - change (partial_alter (λ _, None) i m) with (delete i m). lia.
Qed.

Lemma tally_size {A} (m : gmap nat A) : tally (λ _, true) m = size m.
Proof.
  unfold tally. rewrite <-length_map_to_list. f_equal. induction (map_to_list m) as [|x xs IH]; [done|].
  by rewrite filter_cons_True, IH.
Qed.

Section load.
Context `{SB : BiStream B} `{DS : DodbService V} `{PS : SemaphoreSpec P} (config : DodbServerConfig).
Implicit Types (s : ServerTasks V P).

(** ** The metrics of the load *)

(** A computation that does not touch the two gauges. *)
Definition gauges (m : ServerMetrics) : Z * Z := (active_connections m, active_streams m).
Definition quiet {A} (m : St (StreamState B V) Empty_set A) : Prop := ∀ t, gauges (st_metrics (m t).2) = gauges (st_metrics t).

Lemma quiet_ret {A} (x : A) : quiet (mret x).
Proof. done. Qed.
Lemma quiet_lift {A} (r : Result Empty_set A) : quiet (lift_r r).
Proof. intros t. unfold lift_r. by destruct r. Qed.
Lemma quiet_bind {A D} (m : St (StreamState B V) Empty_set A) (f : A → St _ Empty_set D) : quiet m → (∀ x, quiet (f x)) → quiet (m ≫= f).
Proof.
  intros Hm Hf t. specialize (Hm t). unfold mbind, St_bind. destruct (m t) as [[x|[]|k] t']; cbn [snd] in *; [|done].
  by rewrite Hf.
Qed.
Lemma quiet_count c n : c ≠ ActiveConnections → c ≠ ActiveStreams → quiet (count c n).
Proof. intros H1 H2 t. unfold gauges, count, modify_st. cbn. by rewrite !decide_False. Qed.
Lemma quiet_stream {A} (f : B → A * B) : quiet (on_stream f).
Proof. intros t. unfold on_stream. by destruct (f _). Qed.
Lemma quiet_service {A} (m : St V Error A) : quiet (on_service m).
Proof. intros t. unfold on_service. by destruct (m _) as [[]]. Qed.

Lemma quiet_serve_stream l elapsed : quiet (serve_stream l elapsed).
Proof.
  unfold serve_stream, execute_request, respond, send_protocol_error.
  repeat first
    [ apply quiet_ret | apply quiet_lift | apply quiet_stream | apply quiet_service | apply quiet_count; done
    | apply quiet_bind; [|intros] | case_match | progress cbv zeta ].
Qed.

(** ** Bounds *)

Definition established (p : ConnectionPhase) : bool := match p with Handshaking => false | _ => true end.
Definition serving (p : StreamPhase) : bool := match p with Serving => true | _ => false end.

(** Every permit is free or in a task, and the gauges count the tasks; [panics] streams
    ended without lowering theirs. *)
Record load_ok (panics : nat) s : Prop := {
  lo_connections : 0 ≤ available (sv_connection_slots s) ∧
    available (sv_connection_slots s) + Z.of_nat (size (sv_connections s)) = max_connections config;
  lo_streams : 0 ≤ available (sv_request_slots s) ∧
    available (sv_request_slots s) + Z.of_nat (size (sv_streams s)) = max_concurrent_requests config;
  lo_established : active_connections (sv_metrics s) = Z.of_nat (tally established (sv_connections s)) mod 2 ^ 64;
  lo_serving : active_streams (sv_metrics s) = Z.of_nat (tally serving (sv_streams s) + panics) mod 2 ^ 64;
}.

Lemma size_alter {A} (m : gmap nat A) i x :
  (size (partial_alter (λ _, x) i m) + weigh (λ _, true) (m !! i) = size m + weigh (λ _, true) x)%nat.
Proof. rewrite <-!tally_size. apply tally_alter. Qed.

Lemma wrapping_gauge x y n : y = x + n → wrapping_add (x mod 2 ^ 64) n = y mod 2 ^ 64.
Proof. intros ->. unfold wrapping_add. by rewrite Zplus_mod_idemp_l. Qed.

(** A connection task with its permit and its gauge. *)
Lemma load_connection panics s id p q d m slots :
  load_ok panics s → sv_connections s !! id = q →
  available slots + Z.of_nat (weigh (λ _, true) p) = available (sv_connection_slots s) + Z.of_nat (weigh (λ _, true) q) →
  0 ≤ available slots →
  gauges m = (wrapping_add (active_connections (sv_metrics s)) d, active_streams (sv_metrics s)) →
  Z.of_nat (weigh established p) = Z.of_nat (weigh established q) + d →
  load_ok panics (mkTasks (partial_alter (λ _, p) id (sv_connections s)) (sv_streams s) slots (sv_request_slots s) m (sv_service s)).
Proof.
  intros [[_ L1] L2 L3 L4] Hq Hslots Hnn Hm Hd. injection Hm as Hm1 Hm2. pose proof (size_alter (sv_connections s) id p) as Hz.
  pose proof (tally_alter established (sv_connections s) id p) as Ht. rewrite Hq in Hz, Ht. split; cbn; [split; [done|lia]|done| |congruence].
  rewrite Hm1, L3. apply wrapping_gauge. lia.
Qed.

(** A stream task with its permit and its gauge. *)
Lemma load_stream panics panics' s id p q d m v slots :
  load_ok panics s → sv_streams s !! id = q →
  available slots + Z.of_nat (weigh (λ _, true) p) = available (sv_request_slots s) + Z.of_nat (weigh (λ _, true) q) →
  0 ≤ available slots →
  gauges m = (active_connections (sv_metrics s), wrapping_add (active_streams (sv_metrics s)) d) →
  Z.of_nat (weigh serving p) + Z.of_nat panics' = Z.of_nat (weigh serving q) + Z.of_nat panics + d →
  load_ok panics' (mkTasks (sv_connections s) (partial_alter (λ _, p) id (sv_streams s)) (sv_connection_slots s) slots m v).
Proof.
  intros [L1 [_ L2] L3 L4] Hq Hslots Hnn Hm Hd. injection Hm as Hm1 Hm2. pose proof (size_alter (sv_streams s) id p) as Hz.
  pose proof (tally_alter serving (sv_streams s) id p) as Ht. rewrite Hq in Hz, Ht. split; cbn; [done|split; [done|lia]|congruence|].
  rewrite Hm2, L4. apply wrapping_gauge. lia.
Qed.

(** Taking a permit. *)
Lemma acquired (p p' : P) : try_acquire p = Some p' → 0 ≤ available p' ∧ available p' + 1 = available p.
Proof. intros E. pose proof (try_acquire_spec p) as Hp. rewrite E in Hp. lia. Qed.

Definition panicked (l : server_label) : nat := match l with SPanicked => 1 | _ => 0 end.

Lemma wrapping_zero x : 0 ≤ x < 2 ^ 64 → wrapping_add x 0 = x.
Proof. intros Hx. unfold wrapping_add. rewrite Z.add_0_r. by apply Z.mod_small. Qed.

Lemma load_step panics s l s' :
  load_ok panics s → server_step (B := B) config s l s' → load_ok (panics + panicked l) s'.
Proof.
  intros Hl Hst. assert (Hac : wrapping_add (active_connections (sv_metrics s)) 0 = active_connections (sv_metrics s)).
  { apply wrapping_zero. rewrite (lo_established _ _ Hl). by apply Z.mod_pos_bound. }
  assert (Has : wrapping_add (active_streams (sv_metrics s)) 0 = active_streams (sv_metrics s)).
  { apply wrapping_zero. rewrite (lo_serving _ _ Hl). by apply Z.mod_pos_bound. }
  destruct (lo_connections _ _ Hl) as [Lc _]. destruct (lo_streams _ _ Hl) as [Ls _].
  destruct Hst as [id s s1 Hi Hslot|s Hslot|id s Hi|id s Hi|id s Hi|id s Hi|id stream s s1 Hi Hs Hslot|id p s Hi Hp|stream s Hi|
    stream b elapsed t s Hi Hr|stream s Hi|stream b elapsed k t s Hi Hr]; cbn [panicked]; rewrite ?Nat.add_0_r.
  - unfold acquire_connection in Hslot. apply bind_Some in Hslot as (p & [Hp0 Hp]%acquired & [= <-]).
    eapply (load_connection panics s id _ _ 0); [done|done|cbn; lia|done|by rewrite Hac|done].
  - destruct Hl. by split.
  - eapply (load_connection panics s id _ _ 1); [done|done|cbn; lia|done|done|done].
  - eapply (load_connection panics s id _ _ 0); [done|done|cbn; rewrite release_spec; cbn; lia|cbn; rewrite release_spec; cbn; lia|by rewrite Hac|done].
  - eapply (load_connection panics s id _ _ 0); [done|done|cbn; lia|done|by rewrite Hac|done].
  - eapply (load_connection panics s id _ _ (-1)); [done|done|cbn; rewrite release_spec; cbn; lia|cbn; rewrite release_spec; cbn; lia|done|done].
  - unfold acquire_request in Hslot. apply bind_Some in Hslot as (p & [Hp0 Hp]%acquired & [= <-]).
    assert (Hl1 : load_ok panics (set_stream stream (Some Spawned) (set_request_slots p s))).
    { eapply (load_stream panics panics s stream _ _ 0); [done|done|cbn; lia|done|by rewrite Has|cbn; lia]. }
    eapply (load_connection panics (set_stream stream (Some Spawned) (set_request_slots p s)) id _ _ 0);
      [done|done|cbn; lia|done|by cbn; rewrite Hac|done].
  - eapply (load_connection panics s id _ _ (-1)); [done|done|cbn; rewrite release_spec; cbn; lia|cbn; rewrite release_spec; cbn; lia|done|by destruct Hp as [-> | ->]].
  - eapply (load_stream panics panics s stream _ _ 1); [done|done|cbn; lia|done|done|cbn; lia].
  - pose proof (quiet_serve_stream (protocol_limits config) elapsed (mkStream b (sv_service s) (sv_metrics s))) as Hq.
    rewrite Hr in Hq. cbn in Hq. injection Hq as Q1 Q2.
    eapply (load_stream panics panics s stream _ _ (-1)); [done|done|cbn; lia|done|unfold gauges; cbn; by rewrite Q1, Q2|cbn; lia].
  - eapply (load_stream panics panics s stream _ _ 0); [done|done|cbn; rewrite release_spec; cbn; lia|cbn; rewrite release_spec; cbn; lia|by rewrite Has|cbn; lia].
  - pose proof (quiet_serve_stream (protocol_limits config) elapsed (mkStream b (sv_service s) (sv_metrics s))) as Hq.
    rewrite Hr in Hq. cbn in Hq. injection Hq as Q1 Q2.
    eapply (load_stream panics _ s stream _ _ 0); [done|done|cbn; rewrite release_spec; lia|cbn; rewrite release_spec; lia
      |unfold gauges; cbn; by rewrite Q1, Q2, Has|cbn; lia].
Qed.

Lemma load_steps panics s ls s' :
  load_ok panics s → server_steps (B := B) config s ls s' → load_ok (panics + sum_list (panicked <$> ls)) s'.
Proof.
  intros Hl Hst. revert panics Hl. induction Hst as [s|s l s1 ls s' H1 Hst IH]; intros panics Hl; cbn.
  - by rewrite Nat.add_0_r.
  - rewrite Nat.add_assoc. apply IH. by eapply load_step.
Qed.

(** The validated configuration makes two semaphores. *)
Lemma initial_load endpoint (v : V) s :
  bind config endpoint v = Ok s → 0 ≤ max_connections config → 0 ≤ max_concurrent_requests config →
  load_ok 0 s ∧ max_connections config ≤ MAX_PERMITS ∧ max_concurrent_requests config ≤ MAX_PERMITS.
Proof.
  unfold bind. destruct (Server.validate config); [|done..]. destruct endpoint; [|done..]. cbn [mbind Result_bind]. intros Hb H1 H2.
  pose proof (semaphore_new_spec _ H1) as Hc. pose proof (semaphore_new_spec _ H2) as Hr.
  destruct (semaphore_new (max_connections config)) as [c|]; [|done]. destruct (semaphore_new _) as [r|]; [|done].
  injection Hb as <-. destruct Hc as [Hc ?], Hr as [Hr ?]. split; [|done].
  split; cbn; rewrite ?map_size_empty, ?Hc, ?Hr; lia || done.
Qed.
End load.

(** ** Properties *)

(** C13: a call over the wire is a call of the service, on any transport that obeys the
    laws of streams.  The client's request has arrived whole at the server: the server
    runs the service once, and its state is the one that the service leaves.  What the
    server wrote arrives at the client.  If the server could write its answer and finish,
    the client returns exactly that answer: the response, or the error of the service as
    the protocol represents it, with its detail cut to the limit; an answer that cannot be
    encoded is replaced by the encoder's error.  Otherwise the client returns an
    error, and for a mutation one that says that the outcome is unknown. *)
Theorem call_returns_service_answer `{SB : BiStreamSpec B} `{SC : BiStreamSpec K} `{DS : DodbService V}
    l elapsed tenant r f (s : StreamState B V) res v' :
  u64 tenant → wf_request r → encode_request l tenant r = Ok f →
  incoming (st_stream s) = f → peer_finished (st_stream s) = true → outgoing (st_stream s) = [] → own_finished (st_stream s) = false →
  service_execute tenant r (budget l) (st_service s) = (res, v') → returns res →
  let mutation := Service.is_mutation r in
  let env := envelope_of mutation res in
  wf_envelope_sent env → expected_type (Some (request_opcode r)) env →
  ∃ s', serve_stream l elapsed s = (Ok tt, s') ∧ st_service s' = v' ∧
    ∀ c c1 c2 : K, write_all f c = (None, c1) → finish c1 = (None, c2) → sane c2 →
      incoming c2 = outgoing (st_stream s') → peer_finished c2 = own_finished (st_stream s') →
      let out := (Client.execute_on_connection l (inr c) mutation (Client.response_opcode_for_request r) f).1 in
      if own_finished (st_stream s') then out = Client.response_of mutation (sent l (delivered l env))
      else ∃ e, out = Err e ∧ ClientTheorems.uncertain mutation e.
Proof.
  intros Ht Hr He Hin Hfin Hout Hown Hx Hret mutation env Hw Hty.
  destruct (served_request l elapsed tenant r f s res v' Ht Hr He Hin Hfin Hx Hret) as (s' & b1 & Hrun & Hv & O1 & O2 & Hs').
  exists s'. split_and!; [done..|]. intros c c1 c2 Hwc Hfc Hsane Hi Hp.
  pose proof (received_reply l mutation (Client.response_opcode_for_request r) f c c1 c2 Hwc Hfc Hsane) as Hc.
  unfold ClientTheorems.reply in Hc. rewrite Hp, Hi in Hc.
  destruct (own_finished (st_stream s')) eqn:Eo; [|done]. rewrite Hs' in Eo.
  assert (Hb1 : own_finished b1 = false) by (by rewrite O2).
  destruct (transmit_whole _ b1 Hb1 Eo) as (g & Eg & Hg). rewrite <-Hs', O1, Hout in Hg.
  destruct (delivered_wf l (Some (request_opcode r)) env Hw Hty) as [Hw' Hty'].
  destruct (response_survives _ _ _ _ Hw' Hty' (delivered_frame l env g Eg)) as (_ & _ & Hd).
  rewrite Hg in Hc. unfold Client.response_opcode_for_request in *. cbn [app] in Hc. by rewrite Hd in Hc.
Qed.

(** C33: a stream task runs the service once for a stream that is one whole well-formed
    request frame within the limits, and never for anything else.  It then sends the
    frame of the answer; what it sends otherwise is at most a protocol error, which says
    that nothing was applied.  Reading never panics. *)
Theorem server_executes_once `{SB : BiStreamSpec B} `{DS : DodbService V} l elapsed (s : StreamState B V) :
  sane (st_stream s) →
  match request_in l (st_stream s) with
  | Some (t, r) =>
      match service_execute t r (budget l) (st_service s) with
      | (Stuck k, v') => ∃ s', serve_stream l elapsed s = (Stuck k, s') ∧ st_service s' = v'
      | (res, v') => ∃ s' b1, serve_stream l elapsed s = (Ok tt, s') ∧ st_service s' = v' ∧
          outgoing b1 = outgoing (st_stream s) ∧
          st_stream s' = transmit (response_frame l (envelope_of (Service.is_mutation r) res)) b1
      end
  | None => ∃ s', serve_stream l elapsed s = (Ok tt, s') ∧ refused l s s'
  end.
Proof.
  intros Hs. pose proof (serve_stream_spec l elapsed s Hs) as Hspec. destruct (request_in l (st_stream s)) as [[t r]|]; [|done].
  destruct Hspec as (n & Ho & _ & ->).
  pose proof (execute_request_spec l t r n elapsed (mkStream (read_through n (st_stream s)) (st_service s) (st_metrics s))) as Hx.
  cbn [st_stream st_service] in Hx. destruct (service_execute t r (budget l) (st_service s)) as [[x|e|k] v'].
  - destruct Hx as (s' & H1 & H2 & H3). by exists s', (read_through n (st_stream s)).
  - destruct Hx as (s' & H1 & H2 & H3). by exists s', (read_through n (st_stream s)).
  - destruct Hx as (s' & H1 & H2 & _). by exists s'.
Qed.

(** C34: the load of the server is bounded by its configuration.  Whatever connects, every
    permit of the two semaphores is free or held by a running task, so there are
    never more connection tasks than [max_connections] nor more stream tasks than
    [max_concurrent_requests]; the gauge of active connections is
    exact, and that of active streams is too large by the number of requests that
    panicked. *)
Theorem server_load_is_bounded `{SB : BiStream B} `{DS : DodbService V} `{PS : SemaphoreSpec P} config endpoint (v : V)
    (s0 : ServerTasks V P) ls s :
  bind config endpoint v = Ok s0 → server_steps (B := B) config s0 ls s →
  0 ≤ max_connections config → 0 ≤ max_concurrent_requests config →
  (0 ≤ available (sv_connection_slots s) ∧
   available (sv_connection_slots s) + Z.of_nat (size (sv_connections s)) = max_connections config) ∧
  (0 ≤ available (sv_request_slots s) ∧
   available (sv_request_slots s) + Z.of_nat (size (sv_streams s)) = max_concurrent_requests config) ∧
  active_connections (sv_metrics s) = Z.of_nat (tally established (sv_connections s)) ∧
  active_streams (sv_metrics s) = Z.of_nat (tally serving (sv_streams s) + sum_list (panicked <$> ls)) mod 2 ^ 64.
Proof.
  intros Hb Hst Hc Hr. destruct (initial_load config endpoint v s0 Hb Hc Hr) as (H0 & M1 & _).
  destruct (load_steps config 0 _ _ _ H0 Hst) as [L1 L2 L3 L4]. split_and!; [apply L1|apply L1|apply L2|apply L2| |done].
  assert (Hle : (tally established (sv_connections s) ≤ size (sv_connections s))%nat).
  { rewrite <-length_map_to_list. apply length_filter. }
  rewrite L3. apply Z.mod_small. assert (MAX_PERMITS < 2 ^ 64) by (by vm_compute). lia.
Qed.

(** ** Concrete instances *)

(** A service that counts puts. *)
#[local] Instance counting_service : DodbService Z := {
  service_execute _ request _ := λ n,
    match request with
    | Service.Put _ _ => (Ok (Service.PutResponse (n + 1)), n + 1)
    | _ => (Err (Overloaded "busy"), n)
    end;
}.
Definition sample_request : Service.Request := Service.Put (Key.new [1] [2]) [3; 4].
Definition sample_frame : bytes :=
  match encode_request default_limits 5 sample_request with Ok f => f | _ => [] end.
Definition sample_reply : bytes :=
  match encode_response default_limits (SuccessEnvelope (Service.PutResponse 11)) with Ok f => f | _ => [] end.

Lemma sample_request_wf : wf_request sample_request.
Proof. split; [split|]; repeat constructor; done. Qed.

Lemma sample_frame_bytes : is_bytes sample_reply ∧ len sample_reply ≤ U64_MAX.
Proof. split; [|vm_compute; discriminate]. apply (bool_decide_unpack _). vm_compute. exact I. Qed.

Lemma sample_served :
  let s' := (serve_stream default_limits 0 (mkStream (mkWire sample_frame true [] false true) 10 no_metrics)).2 in
  wire_out (st_stream s') = sample_reply ∧ wire_out_finished (st_stream s') = true.
Proof. vm_compute. split; reflexivity. Qed.

(** The two ends of a lossless stream: what the client will read is what the server
    writes. *)
Lemma call_returns_service_answer_witness :
  ∃ c : Wire,
    (Client.execute_on_connection default_limits (inr c) true (Client.response_opcode_for_request sample_request) sample_frame).1 =
    Ok (Service.PutResponse 11).
Proof.
  destruct (call_returns_service_answer (K := Wire) default_limits 0 5 sample_request sample_frame
    (mkStream (mkWire sample_frame true [] false true) 10 no_metrics) (Ok (Service.PutResponse 11)) 11)
    as (s' & Hrun & _ & Hcall).
  - vm_compute. split; [discriminate|reflexivity].
  - exact sample_request_wf.
  - vm_compute. reflexivity.
  - reflexivity.
  - reflexivity.
  - reflexivity.
  - reflexivity.
  - reflexivity.
  - exact I.
  - vm_compute. split; [discriminate|reflexivity].
  - intros r x [= <-] [= <-]. reflexivity.
  - pose proof sample_served as Hs. rewrite Hrun in Hs. cbv zeta in Hs. cbn [snd] in Hs. destruct Hs as [H1 H2].
    exists (mkWire sample_reply true [] false true).
    specialize (Hcall (mkWire sample_reply true [] false true) _ _ eq_refl eq_refl sample_frame_bytes (eq_sym H1) (eq_sym H2)).
    cbv zeta in Hcall. cbn [own_finished wire_spec] in Hcall. rewrite H2 in Hcall. exact Hcall.
Defined.

Lemma server_executes_once_witness :
  ∃ (s' : StreamState Wire Z) b1,
    serve_stream default_limits 0 (mkStream (mkWire sample_frame true [] false true) 10 no_metrics) = (Ok tt, s') ∧ st_service s' = 11 ∧
    outgoing b1 = [] ∧ st_stream s' = transmit (response_frame default_limits (SuccessEnvelope (Service.PutResponse 11))) b1.
Proof.
  pose proof (server_executes_once default_limits 0 (mkStream (mkWire sample_frame true [] false true) 10 no_metrics)) as H.
  assert (E : request_in default_limits (mkWire sample_frame true [] false true) = Some (5, sample_request)) by (vm_compute; reflexivity).
  cbn [st_stream st_service] in H. rewrite E in H. apply H. split; [|vm_compute; discriminate].
  apply (bool_decide_unpack _). vm_compute. exact I.
Defined.

Definition small_config : DodbServerConfig := mkServerConfig (mkServerTls [[1]] [2]) default_limits 1 8 4.

(** A server with one connection permit: a connection takes it, and the next one is
    refused. *)
Definition empty_server : ServerTasks Z Z := mkTasks ∅ ∅ 1 4 no_metrics 10.
Definition connected : ServerTasks Z Z :=
  counted OverloadedResponses 1 (set_connection 0 (Some Accepting) (counted ActiveConnections 1 (counted ConnectionsTotal 1
    (set_connection 0 (Some Handshaking) (set_connection_slots 0 empty_server))))).

Lemma server_load_is_bounded_witness :
  available (sv_connection_slots connected) + Z.of_nat (size (sv_connections connected)) = 1 ∧
  active_connections (sv_metrics connected) = Z.of_nat (tally established (sv_connections connected)).
Proof.
  assert (Hst : server_steps (B := Wire) small_config empty_server [SAccepted; SHandshake true; SRefused] connected).
  { eapply server_steps_cons; [apply (server_accepted small_config 0 empty_server); [reflexivity|vm_compute; reflexivity]|].
    eapply server_steps_cons; [apply (server_connected small_config 0); reflexivity|].
    eapply server_steps_cons; [apply (server_refused small_config); vm_compute; reflexivity|constructor]. }
  assert (Hb : bind small_config (Ok tt) 10 = Ok empty_server) by (vm_compute; reflexivity).
  destruct (server_load_is_bounded small_config (Ok tt) 10 empty_server _ connected Hb Hst) as ((_ & H1) & _ & H2 & _).
  - vm_compute. discriminate.
  - vm_compute. discriminate.
  - split; [exact H1|exact H2].
Defined.
End ServerTheorems.
