(* ===== verification/Tenant.v ===== *)
(** * Tenants

    Models [LocalTenantService] of src/crates/dodb-server/src/lib.rs: the shards of a
    process, one per tenant, opened on first use.  The file system is the class
    [FileSystem]; opened files are [DurableFile]s.  A handle ([Arc<AsyncShard>]) is the
    position of the shard in a heap, so that clones of it share the shard.

    A request runs in two parts.  [plan_request] is what happens before the shard is
    asked: checks, opening, or an answer without a shard; it ends with at most one call of
    a shard and the function that turns its result into the response. *)

From stdpp Require Import pretty.
From S2P Require Import Prelude Key Core Page Superblock Format Overlay DurableFile Wal StoreFile Checker Store ReadView.
From S2P Require Import Coordinator Service Protocol Server.

(** [Path::exists], [std::fs::create_dir_all] and [ProductionFile::open]. *)
Class FileSystem (D F : Type) : Type := {
  path_exists : string → D → bool;
  create_dir_all : string → St D Core.Error unit;
  open_file : string → St D Core.Error F;
}.

Module Tenant.
Import Core.

(** ** Identity *)

Definition FNV_OFFSET : Z := 0xcbf29ce484222325.
Definition FNV_PRIME : Z := 0x100000001b3.

Definition wrapping_mul (a b : Z) : Z := (a * b) mod 2 ^ 64.
Definition rotate_left (x n : Z) : Z := Z.lor (Z.shiftl x n mod 2 ^ 64) (Z.shiftr x (64 - n)).

(** The loop over the bytes, with their indices. *)
Fixpoint digest (index : Z) (input : bytes) (first second : Z) : Z * Z :=
  match input with
  | [] => (first, second)
  | byte :: input' =>
      let first := wrapping_mul (Z.lxor first byte) FNV_PRIME in
      let second := wrapping_mul (rotate_left (Z.lxor second (wrapping_add byte index)) 5) FNV_PRIME in
      digest (index + 1) input' first second
  end.

Definition database_uuid (tenant : TenantId) (shard : ShardId) : bytes :=
  let input := Protocol.string_bytes "DODB logical database identity" ++ to_be 8 tenant ++ to_be 8 shard in
  let '(first, second) := digest 0 input FNV_OFFSET (Z.lxor FNV_OFFSET 0x9e3779b97f4a7c15) in
  to_be 8 first ++ to_be 8 second.

Definition file_name (tenant : TenantId) (shard : ShardId) (extension : string) : string :=
  "tenant-" +:+ pretty tenant +:+ "-shard-" +:+ pretty shard +:+ "." +:+ extension.
Definition join (directory name : string) : string := directory +:+ "/" +:+ name.

(** [with_extension("wal")] replaces what follows the last dot of the file name. *)
Definition database_path (data_dir : string) (tenant : TenantId) (shard : ShardId) : string :=
  join data_dir (file_name tenant shard "db").
Definition wal_path (data_dir : string) (tenant : TenantId) (shard : ShardId) : string :=
  join data_dir (file_name tenant shard "wal").

(** A path of one component that is a name. *)
Fixpoint slashless (name : string) : bool :=
  match name with
  | String.EmptyString => true
  | String.String c name' => negb (Ascii.eqb c (Ascii.ascii_of_nat 47)) && slashless name'
  end.
Definition plain (name : string) : Prop := slashless name = true ∧ name ≠ "" ∧ name ≠ "." ∧ name ≠ "..".

(** What the file system promises of a directory in which nothing goes wrong
    ([healthy]): it can be created, files in it can be opened and are created empty, and
    opening a file does not make another one appear. *)
Class FileSystemSpec (D F : Type) `{FSys : FileSystem D F} `{FSpec : DurableFile.DurableFileSpec F} : Type := {
  healthy : string → D → Prop;
  create_dir_all_spec dir d : healthy dir d →
    ∃ d', create_dir_all dir d = (Ok tt, d') ∧ healthy dir d' ∧ path_exists dir d' = true ∧
      ∀ path, (String.length dir < String.length path)%nat → path_exists path d' = path_exists path d;
  open_file_spec dir name d : healthy dir d → path_exists dir d = true → plain name →
    ∃ f d', open_file (join dir name) d = (Ok f, d') ∧ healthy dir d' ∧ path_exists dir d' = true ∧
      DurableFile.reliable f ∧ (path_exists (join dir name) d = false → DurableFile.volatile f = []) ∧
      ∀ name', plain name' → name' ≠ name → path_exists (join dir name') d' = path_exists (join dir name') d;
}.

(** [OneTenantOneShard]. *)
Definition one_tenant_one_shard (tenant : TenantId) : ShardId := tenant.

(** ** Responses *)

Definition storage_document (d : Overlay.Document) : Service.Document :=
  Service.mkDocument (Overlay.doc_key d) (Overlay.doc_value d) (Overlay.doc_revision d).

Definition ensure_synthesized_response_budget (response : Service.Response) (maximum : Z) : result unit :=
  let d := Protocol.default_limits in
  let limits := Protocol.mkLimits (Protocol.max_request_frame_size d) maximum (Protocol.max_key_component_size d)
    (Protocol.max_encoded_key_size d) (Protocol.max_value_size d) (Protocol.max_keys d) (Protocol.max_conditions d)
    (Protocol.max_mutations d) (Protocol.max_query_limit d) (Protocol.max_scan_limit d) (Protocol.max_error_detail_size d) in
  match Protocol.encode_response limits (Protocol.SuccessEnvelope response) with
  | Ok _ => Ok tt
  | Err error =>
      Err (ResponseTooLarge ("synthesized response exceeds the configured response limit: " +:+ Protocol.error_to_string error))
  | Stuck k => Stuck k
  end.

Definition condition_matches (condition : TransactionCondition) (actual : ObservedState) : bool :=
  match condition with
  | RevisionEquals _ expected_revision => observed_revision actual =? expected_revision
  | Exists _ => negb (observed_is_missing actual)
  | NotExists _ => observed_is_missing actual
  end.

(** The loop over the conditions of a transaction on a tenant that does not exist. *)
Fixpoint check_missing (conditions : list TransactionCondition) : result unit :=
  match conditions with
  | [] => Ok tt
  | condition :: conditions' =>
      let actual := ObservedMissing ZERO in
      fail_if (negb (condition_matches condition actual))
        (Conflict (mkConflict (condition_key condition) (expectation condition) actual));;
      check_missing conditions'
  end.

(** What follows the call of a shard. *)
Definition get_response (r : Result Error Overlay.BatchResponse) : Result Error Service.Response :=
  x ← r; match x with
         | Overlay.RespGet state => Ok (Service.GetResponse state)
         | _ => Err (InternalInvariantViolation "local get returned the wrong response")
         end.
Definition put_response (r : Result Error Overlay.BatchResponse) : Result Error Service.Response :=
  x ← r; match x with
         | Overlay.RespPut revision => Ok (Service.PutResponse revision)
         | _ => Err (InternalInvariantViolation "local put returned the wrong response")
         end.
Definition delete_response (r : Result Error Overlay.BatchResponse) : Result Error Service.Response :=
  x ← r; match x with
         | Overlay.RespDelete revision => Ok (Service.DeleteResponse revision)
         | _ => Err (InternalInvariantViolation "local delete returned the wrong response")
         end.
Definition query_response (r : Result Error Overlay.BatchResponse) : Result Error Service.Response :=
  x ← r; match x with
         | Overlay.RespQuery rows => Ok (Service.QueryResponse (storage_document <$> rows))
         | _ => Err (InternalInvariantViolation "local query returned the wrong response")
         end.
Definition scan_response (r : Result Error Overlay.BatchResponse) : Result Error Service.Response :=
  x ← r; match x with
         | Overlay.RespScan rows => Ok (Service.ScanResponse (storage_document <$> rows))
         | _ => Err (InternalInvariantViolation "local scan returned the wrong response")
         end.

(** The last expression of [execute_transaction]. *)
Definition transact_response (commit_lsn : option Lsn) : Service.Response :=
  Service.TransactResponse
    match commit_lsn with
    | Some commit_lsn => Service.outcome_committed commit_lsn
    | None => Service.conditions_satisfied
    end.
Definition checked_response (r : Result Error TransactionResult) : Result Error Service.Response :=
  x ← r; Ok (transact_response (commit_lsn x)).
Definition committed_response (r : Result Error TransactionResult) : Result Error Service.Response :=
  x ← r;
  commit_lsn ← ok_or (commit_lsn x) (InternalInvariantViolation "mutation transaction returned no commit LSN");
  Ok (transact_response (Some commit_lsn)).

(** ** The service *)

Record LocalTenantServiceConfig : Type := mkServiceConfig {
  data_dir : string;
  max_open_shards : Z;
  database_config : Store.DatabaseConfig;
  coordinator_config : Coordinator.CoordinatorConfig;
}.
Definition default_service_config : LocalTenantServiceConfig :=
  mkServiceConfig "." 1024 Store.default_config Coordinator.default_config.

Section service.
Context `{C : Crc32c} `{DF : DurableFile.DurableFile F} `{FI : DurableFile.FaultInjector J}.
Context {Q : Type} {CH : Mpsc Coordinator.QueuedRequest Q} `{FSys : FileSystem D F}.
Context (resolve : TenantId → ShardId).
Abbreviation Shard := (Coordinator.AsyncShard F F J Q).
Abbreviation ShardRef := nat.

Record LocalTenantService : Type := mkService {
  config : LocalTenantServiceConfig;
  shards : gmap TenantId ShardRef;
  fault_injector_factory : option (TenantId → ShardId → J);
  heap : list Shard;
  disk : D;
}.
Abbreviation M := (St LocalTenantService Error).

Definition set_disk (x : D) (s : LocalTenantService) : LocalTenantService :=
  mkService (config s) (shards s) (fault_injector_factory s) (heap s) x.
Definition on_disk {A} (m : St D Error A) : M A := zoom disk set_disk m.

Definition new (c : LocalTenantServiceConfig) (d : D) : result LocalTenantService * D :=
  if max_open_shards c =? 0 then (Err (InvalidRequest "max_open_shards must be nonzero"), d)
  else
    match create_dir_all (data_dir c) d with
    | (Ok _, d) => (Ok (mkService c ∅ None [] d), d)
    | (Err e, d) => (Err e, d)
    | (Stuck k, d) => (Stuck k, d)
    end.

Definition set_fault_injector_factory (factory : TenantId → ShardId → J) (s : LocalTenantService) : LocalTenantService :=
  mkService (config s) (shards s) (Some factory) (heap s) (disk s).

(** [BTreeStore::open_path]. *)
Definition open_path (path wal : string) (c : Store.DatabaseConfig) : M (Store.BTreeStore F F J) :=
  file ← on_disk (open_file path);
  wal_file ← on_disk (open_file wal);
  lift_r (Store.open_with_wal file wal_file c).1.

Definition tenant_config (c : Store.DatabaseConfig) (tenant : TenantId) (shard : ShardId) : Store.DatabaseConfig :=
  Store.mkConfig (database_uuid tenant shard) tenant shard (Store.config_shard_epoch c) (Store.cache_capacity c) (Store.limits c).

(** The shard that is started on an opened store. *)
Definition start_shard (store : Store.BTreeStore F F J) (tenant : TenantId) (shard : ShardId) (s : LocalTenantService) : Shard :=
  let store := match fault_injector_factory s with
               | Some factory => Store.set_injector (Some (factory tenant shard)) store
               | None => store
               end in
  Coordinator.start_with_config store (coordinator_config (config s)).

Definition open_shard (tenant : TenantId) : M ShardRef :=
  s ← get_st;
  match shards s !! tenant with
  | Some shard => mret shard
  | None =>
      fail_when (max_open_shards (config s) <=? Z.of_nat (size (shards s))) (Overloaded "open shard cache is full");;
      let shard_id := resolve tenant in
      on_disk (create_dir_all (data_dir (config s)));;
      store ← open_path (database_path (data_dir (config s)) tenant shard_id) (wal_path (data_dir (config s)) tenant shard_id)
                (tenant_config (database_config (config s)) tenant shard_id);
      modify_st (λ s, mkService (config s) (<[tenant := length (heap s)]> (shards s)) (fault_injector_factory s)
                        (heap s ++ [start_shard store tenant shard_id s]) (disk s));;
      mret (length (heap s))
  end.

Definition read_shard (tenant : TenantId) : M (option ShardRef) :=
  s ← get_st;
  let shard_id := resolve tenant in
  if negb (path_exists (database_path (data_dir (config s)) tenant shard_id) (disk s))
     && negb (path_exists (wal_path (data_dir (config s)) tenant shard_id) (disk s))
  then mret None
  else Some <$> open_shard tenant.

(** ** Requests *)

Inductive Plan : Type :=
  | Answered (response : Service.Response)
  | CallBatch (shard : ShardRef) (request : Overlay.BatchRequest) (max_response_bytes : Z)
      (k : Result Error Overlay.BatchResponse → Result Error Service.Response)
  | CallTransaction (shard : ShardRef) (request : TransactionRequest)
      (k : Result Error TransactionResult → Result Error Service.Response).

(** A response that is made without a shard. *)
Definition synthesize (response : Service.Response) (maximum : Z) : M Plan :=
  lift_r (ensure_synthesized_response_budget response maximum);;
  mret (Answered response).

Definition plan_transaction (tenant : TenantId) (request : TransactionRequest) : M Plan :=
  lift_r (validate request);;
  match mutations request with
  | [] =>
      shard ← read_shard tenant;
      match shard with
      | Some shard => mret (CallTransaction shard request checked_response)
      | None => lift_r (check_missing (conditions request));; mret (Answered (transact_response None))
      end
  | _ :: _ => shard ← open_shard tenant; mret (CallTransaction shard request committed_response)
  end.

(** [execute_request] up to the call of the shard. *)
Definition plan_request (tenant : TenantId) (request : Service.Request) (budget : Service.ExecutionBudget) : M Plan :=
  let maximum := Service.max_response_bytes budget in
  match request with
  | Service.Get key =>
      shard ← read_shard tenant;
      match shard with
      | Some shard => mret (CallBatch shard (Overlay.ReqGet key) maximum get_response)
      | None => synthesize (Service.GetResponse (Missing ZERO)) maximum
      end
  | Service.Put key value =>
      shard ← open_shard tenant; mret (CallBatch shard (Overlay.ReqPut key value) maximum put_response)
  | Service.Delete key =>
      shard ← open_shard tenant; mret (CallBatch shard (Overlay.ReqDelete key) maximum delete_response)
  | Service.Query pk after limit =>
      shard ← read_shard tenant;
      match shard with
      | Some shard => mret (CallBatch shard (Overlay.ReqQuery pk after limit) maximum query_response)
      | None => synthesize (Service.QueryResponse []) maximum
      end
  | Service.Scan after limit =>
      shard ← read_shard tenant;
      match shard with
      | Some shard => mret (CallBatch shard (Overlay.ReqScan after limit) maximum scan_response)
      | None => synthesize (Service.ScanResponse []) maximum
      end
  | Service.Transact request => plan_transaction tenant request
  end.

(** [shutdown]: the handles are forgotten and the shards told to close. *)
Definition shutdown (s : LocalTenantService) : LocalTenantService :=
  let open_shards := (map_to_list (shards s)).*2 in
  mkService (config s) ∅ (fault_injector_factory s)
    (imap (λ i x, if bool_decide (i ∈ open_shards) then Coordinator.set_close true x else x) (heap s)) (disk s).

(** [open_shard_handles], in the order of the map. *)
Definition open_shard_handles (s : LocalTenantService) : list (TenantId * ShardRef) := map_iter (shards s).

(** [checkpoint_all] and [check_invariants_all], whose loops differ in the call only:
    the shards are asked one after the other and the first error ends the loop.  [ask] is
    what awaiting the call of a shard gives. *)
Fixpoint ask_all {A} (ask : ShardRef → Result Error A) (handles : list (TenantId * ShardRef)) : Result Error (list (TenantId * A)) :=
  match handles with
  | [] => Ok []
  | (tenant, shard) :: handles' =>
      report ← ask shard;
      reports ← ask_all ask handles';
      Ok ((tenant, report) :: reports)
  end.
Definition checkpoint_all (ask : ShardRef → Result Error Store.CheckpointReport) (s : LocalTenantService)
    : Result Error (list (TenantId * Store.CheckpointReport)) := ask_all ask (open_shard_handles s).
Definition check_invariants_all (ask : ShardRef → Result Error Checker.InvariantReport) (s : LocalTenantService)
    : Result Error (list (TenantId * Checker.InvariantReport)) := ask_all ask (open_shard_handles s).

(** ** The process

    Requests are planned under the lock of [shards]; between them the shards take their
    own steps in any order, and so do the callers that hold a handle. *)

Inductive service_label : Type :=
  | Planned (tenant : TenantId) (request : Service.Request) (budget : Service.ExecutionBudget) (r : Result Error Plan)
  | ShardMoved (shard : ShardRef) (l : Coordinator.label)
  | AllShutDown (closed : list ShardRef).

Inductive service_step : LocalTenantService → service_label → LocalTenantService → Prop :=
  | service_plans s tenant request budget r s' :
      plan_request tenant request budget s = (r, s') → service_step s (Planned tenant request budget r) s'
  | service_shard s i l x x' :
      heap s !! i = Some x → Coordinator.step x l x' →
      service_step s (ShardMoved i l)
        (mkService (config s) (shards s) (fault_injector_factory s) (<[i := x']> (heap s)) (disk s))
  | service_shuts_down s : service_step s (AllShutDown (map_to_list (shards s)).*2) (shutdown s).

Inductive service_steps : LocalTenantService → list service_label → LocalTenantService → Prop :=
  | service_steps_nil s : service_steps s [] s
  | service_steps_snoc s ls s1 l s' : service_steps s ls s1 → service_step s1 l s' → service_steps s (ls ++ [l]) s'.
End service.
End Tenant.
