(* ===== verification/TenantTheorems.v ===== *)
(** * What the tenants are promised

    Tenants do not share files or shards, a tenant that was never written reads as the
    empty database without being created, and the shard that the first write opens
    refines the sequential shard on the empty database. *)

From stdpp Require Import pretty.
From S2P Require Import Prelude Wp Key Core Page Superblock Format FormatLaws Reference Cache Overlay Tree TreeSearch.
From S2P Require Import OverlayReads TreeOps TreeTxn MemStore TreeScan Lockstep DurableFile CrashFile Wal WalFrames WalReplay WalRecovery.
From S2P Require Import WalAppend StoreFile Checker Store StoreSpec StorePublish StoreTxn StoreNew TreeTheorems StoreTheorems ReadView ReadViewLaws.
From S2P Require Import ReadViewSpec ReadViewLoad Coordinator CoordinatorSpec CoordinatorSim CoordinatorTheorems Service Protocol.
From S2P Require Import ProtocolLaws ProtocolTheorems Transport TransportLaws Client ClientTheorems Server ServerTheorems Tenant.

Module TenantTheorems.
Import Core Tenant.

(** ** File names *)

Definition digit (c : Ascii.ascii) : bool :=
  (48 <=? Z.of_nat (Ascii.nat_of_ascii c)) && (Z.of_nat (Ascii.nat_of_ascii c) <=? 57).

Fixpoint digits (s : string) : bool :=
  match s with String.EmptyString => true | String.String c s' => digit c && digits s' end.

Lemma digit_char x : digit (pretty_N_char (x `mod` 10)) = true.
Proof.
  assert (x `mod` 10 < 10)%N by (by apply N.mod_lt).
  destruct (x `mod` 10)%N as [|p] eqn:E; [done|]. do 4 (destruct p as [p|p|]; try done); lia.
Qed.

Lemma digits_go x s : digits s = true → digits (pretty_N_go x s) = true.
Proof.
  revert s. induction (N.lt_wf_0 x) as [x _ IH]. intros s Hs. destruct (decide (0 < x)%N) as [Hx|Hx].
  - rewrite pretty_N_go_step by done. apply IH; [apply N.div_lt; lia|]. cbn. by rewrite digit_char.
  - assert (x = 0%N) as -> by lia. by rewrite pretty_N_go_0.
Qed.

Lemma digits_pretty (x : Z) : 0 ≤ x → digits (pretty x) = true.
Proof.
  intros Hx. destruct x as [|p|p]; [done| |lia]. change (pretty (Z.pos p)) with (pretty (N.pos p)).
  unfold pretty, pretty_N. case_decide; [done|]. by apply digits_go.
Qed.

(** A number ends where the digits end. *)
Lemma digits_split a b c c' u v :
  digits a = true → digits b = true → digit c = false → digit c' = false →
  a +:+ String.String c u = b +:+ String.String c' v → a = b ∧ c = c' ∧ u = v.
Proof.
  revert b. induction a as [|x a IH]; intros [|y b] Ha Hb Hc Hc' E; cbn in *.
  - by injection E as -> ->.
  - injection E as -> _. by rewrite Hc in Hb.
  - injection E as <- _. by rewrite Hc' in Ha.
  - injection E as <- E. apply andb_true_iff in Ha as [_ Ha], Hb as [_ Hb].
    by destruct (IH _ Ha Hb Hc Hc' E) as (-> & -> & ->).
Qed.

Lemma app_inj (p a b : string) : p +:+ a = p +:+ b → a = b.
Proof. induction p as [|c p IH]; cbn; [done|]. intros [= E]. auto. Qed.

Lemma file_name_inj t h e t' h' e' :
  0 ≤ t → 0 ≤ t' → 0 ≤ h → 0 ≤ h' → file_name t h e = file_name t' h' e' → t = t' ∧ h = h' ∧ e = e'.
Proof.
  intros Ht Ht' Hh Hh' E. unfold file_name in E. apply app_inj in E.
  apply (digits_split _ _ (Ascii.ascii_of_nat 45) (Ascii.ascii_of_nat 45) ("shard-" +:+ _) ("shard-" +:+ _) (digits_pretty _ Ht) (digits_pretty _ Ht') eq_refl eq_refl)
    in E as (E1 & _ & E2).
  apply app_inj in E2.
  apply (digits_split _ _ (Ascii.ascii_of_nat 46) (Ascii.ascii_of_nat 46) _ _ (digits_pretty _ Hh) (digits_pretty _ Hh') eq_refl eq_refl) in E2 as (E3 & _ & E4).
  by apply (inj pretty) in E1, E3.
Qed.

Lemma paths_inj dir t h t' h' :
  0 ≤ t → 0 ≤ t' → 0 ≤ h → 0 ≤ h' →
  (database_path dir t h = database_path dir t' h' ∨ wal_path dir t h = wal_path dir t' h' → t = t' ∧ h = h') ∧
  database_path dir t h ≠ wal_path dir t' h'.
Proof.
  intros Ht Ht' Hh Hh'. unfold database_path, wal_path, join. split.
  - intros [E|E]; apply app_inj, (app_inj "/") in E; by apply file_name_inj in E as (-> & -> & _).
  - intros E. apply app_inj, (app_inj "/") in E. by apply file_name_inj in E as (_ & _ & ?).
Qed.

Lemma slashless_app a b : slashless (a +:+ b) = slashless a && slashless b.
Proof. induction a as [|c a IH]; [done|]. cbn -[String.append]. rewrite <-andb_assoc, <-IH. done. Qed.

Lemma slashless_digits s : digits s = true → slashless s = true.
Proof.
  induction s as [|c s IH]; [done|]. cbn. intros [Hc Hs]%andb_true_iff. apply andb_true_iff. split; [|auto].
  apply negb_true_iff, Ascii.eqb_neq. by intros ->.
Qed.

Lemma file_name_plain t h e : 0 ≤ t → 0 ≤ h → slashless e = true → plain (file_name t h e).
Proof.
  intros Ht Hh He. split; [|done]. unfold file_name. rewrite !slashless_app, He.
  by rewrite (slashless_digits _ (digits_pretty _ Ht)), (slashless_digits _ (digits_pretty _ Hh)).
Qed.

Lemma string_length_app a b : String.length (a +:+ b) = (String.length a + String.length b)%nat.
Proof. induction a as [|c a IH]; [done|]. cbn -[String.append]. rewrite <-IH. done. Qed.

Lemma join_longer dir name : (String.length dir < String.length (join dir name))%nat.
Proof. unfold join. rewrite !string_length_app. change (String.length "/") with 1%nat. lia. Qed.

(** ** Identity *)

Lemma database_uuid_ok t h : is_bytes (database_uuid t h) ∧ len (database_uuid t h) = 16.
Proof.
  unfold database_uuid. destruct (digest _ _ _ _) as [a b]. split.
  - apply Forall_app. split; apply Forall_reverse, to_le_bytes.
  - rewrite len_app, !len_to_be. done.
Qed.

(** ** Planning *)

(** [m] ends in [P], with a result of any kind. *)
Definition ends {T E A} (m : St T E A) (P : Result E A → T → Prop) (s : T) : Prop := let '(r, s') := m s in P r s'.

Lemma ends_bind {T E A B} (m : St T E A) (f : A → St T E B) P (s : T) :
  ends m (λ r s', match r with Ok x => ends (f x) P s' | Err e => P (Err e) s' | Stuck k => P (Stuck k) s' end) s →
  ends (m ≫= f) P s.
Proof. unfold ends, mbind, St_bind. by destruct (m s) as [[x|e|k] s']. Qed.

Lemma ends_mono {T E A} (m : St T E A) P P' (s : T) : (∀ r s', P r s' → P' r s') → ends m P s → ends m P' s.
Proof. unfold ends. destruct (m s). auto. Qed.

Section planning.
Context `{C : Crc32c} `{DF : DurableFile.DurableFile F} `{FI : DurableFile.FaultInjector J}.
Context {Q : Type} {CH : Mpsc Coordinator.QueuedRequest Q} `{FSys : FileSystem D F}.
Context (resolve : TenantId → ShardId).
Abbreviation Shard := (Coordinator.AsyncShard F F J Q).
Abbreviation Svc := (@LocalTenantService F J Q D).
Implicit Types (s : Svc) (t : TenantId).

(** The files of a tenant. *)
Definition db_path s t : string := database_path (data_dir (config s)) t (resolve t).
Definition log_path s t : string := wal_path (data_dir (config s)) t (resolve t).

(** What planning a request of a tenant does to the disk. *)
Inductive touches s t : D → D → Prop :=
  | touches_dir d : touches s t d (create_dir_all (data_dir (config s)) d).2
  | touches_db d : touches s t d (open_file (db_path s t) d).2
  | touches_wal d : touches s t d (open_file (log_path s t) d).2.

(** A shard of the tenant was started on its files. *)
Record started s t (d : D) (x : Shard) : Prop := {
  st_absent : shards s !! t = None;
  st_room : Z.of_nat (size (shards s)) < max_open_shards (config s);
  st_files : ∃ f w d1 d2 store, create_dir_all (data_dir (config s)) (disk s) = (Ok tt, d1) ∧
    open_file (db_path s t) d1 = (Ok f, d2) ∧ open_file (log_path s t) d2 = (Ok w, d) ∧
    (Store.open_with_wal f w (tenant_config (database_config (config s)) t (resolve t))).1 = Ok store ∧
    x = start_shard store t (resolve t) s;
}.

(** What planning a request of a tenant does to the service. *)
Inductive plans s t : Svc → Prop :=
  | plans_keep d : rtc (touches s t) (disk s) d → plans s t (set_disk d s)
  | plans_start d x : rtc (touches s t) (disk s) d → started s t d x →
      plans s t (mkService (config s) (<[t := length (heap s)]> (shards s)) (fault_injector_factory s) (heap s ++ [x]) d).

Lemma plans_refl s t : plans s t s.
Proof. assert (E : s = set_disk (disk s) s) by (by destruct s). rewrite E at 2. by constructor. Qed.

Lemma open_shard_plans t s :
  ends (open_shard resolve t) (λ r s', plans s t s' ∧ ∀ i, r = Ok i → shards s' !! t = Some i) s.
Proof.
  unfold open_shard. apply ends_bind. unfold ends at 1, get_st. destruct (shards s !! t) as [i|] eqn:Ht.
  { unfold ends. cbn. split; [apply plans_refl|]. by intros ? [= <-]. }
  apply ends_bind. unfold ends at 1, fail_when, lift_r, fail_if.
  destruct (_ <=? _) eqn:Hfull; [split; [apply plans_refl|done]|].
  apply Z.leb_gt in Hfull. apply ends_bind. unfold ends at 1, on_disk, zoom.
  pose proof (touches_dir s t (disk s)) as T1. destruct (create_dir_all _ (disk s)) as [[[]|e|k] d1] eqn:E1; cbn [snd] in T1;
    [|by split; [constructor; by apply rtc_once|]..].
  apply ends_bind. unfold open_path. apply ends_bind. unfold ends at 1, on_disk, zoom. cbn [set_disk disk].
  fold (db_path s t) (log_path s t).
  pose proof (touches_db s t d1) as T2. destruct (open_file (db_path s t) d1) as [[f|e|k] d2] eqn:E2; cbn [snd] in T2;
    [|by split; [apply (plans_keep s t d2); by repeat (eapply rtc_l; [done|])|]..].
  apply ends_bind. unfold ends at 1, on_disk, zoom. cbn [set_disk disk].
  pose proof (touches_wal s t d2) as T3. destruct (open_file (log_path s t) d2) as [[w|e|k] d3] eqn:E3; cbn [snd] in T3;
    [|by split; [apply (plans_keep s t d3); by repeat (eapply rtc_l; [done|])|]..].
  assert (T : rtc (touches s t) (disk s) d3) by (by repeat (eapply rtc_l; [done|])).
  unfold ends at 1, lift_r. destruct (Store.open_with_wal f w _).1 as [store|e|k] eqn:Eo;
    [|by split; [apply (plans_keep s t d3)|]..].
  unfold ends. cbn. split.
  - apply (plans_start s t d3); [done|]. split; [done|done|]. by exists f, w, d1, d2, store.
  - intros i [= <-]. cbn [shards]. by rewrite lookup_insert_eq.
Qed.

(** Planning opens the shard or leaves the service as it is, and calls the shard that is
    the tenant's afterwards. *)
Definition planned {A} t s (call : Result Error A → option nat) (r : Result Error A) s' : Prop :=
  plans s t s' ∧ (s' = s ∨ s' = (open_shard resolve t s).2) ∧ ∀ i, call r = Some i → shards s' !! t = Some i.

Definition obtained {A} (r : Result Error A) : option A := match r with Ok x => Some x | _ => None end.

Lemma planned_nothing {A} t s call (r : Result Error A) : call r = None → planned t s call r s.
Proof. intros Hr. split; [apply plans_refl|]. split; [by left|]. by rewrite Hr. Qed.

Lemma planned_call {A B} t s (call : Result Error A → option nat) (call' : Result Error B → option nat) r r' s' :
  planned t s call r s' → (∀ i, call' r' = Some i → call r = Some i) → planned t s call' r' s'.
Proof. intros (P1 & P2 & P3) Hc. split_and!; [done|done|]. eauto. Qed.

Lemma open_shard_planned t s : ends (open_shard resolve t) (planned t s obtained) s.
Proof.
  pose proof (open_shard_plans t s) as Ho. unfold ends, planned in *. destruct (open_shard resolve t s) as [r s'].
  destruct Ho as [Ho Hi]. split_and!; [done|by right|]. intros i Hr. apply Hi. by destruct r; simplify_eq/=.
Qed.

Lemma read_shard_planned t s : ends (read_shard resolve t) (planned t s (λ r, obtained r ≫= id)) s.
Proof.
  unfold read_shard. apply ends_bind. unfold ends at 1, get_st. destruct (_ && _); [by apply planned_nothing|].
  pose proof (open_shard_planned t s) as Ho. unfold ends, fmap, St_fmap in *.
  destruct (open_shard resolve t s) as [[i|e|k] s']; by eapply planned_call.
Qed.

(** The shard that a plan calls. *)
Definition called (r : Result Error Plan) : option nat :=
  match r with
  | Ok (CallBatch i _ _ _) | Ok (CallTransaction i _ _) => Some i
  | _ => None
  end.

Lemma plan_open t s (f : nat → Plan) :
  (∀ i, called (Ok (f i)) = Some i) → ends (i ← open_shard resolve t; mret (f i)) (planned t s called) s.
Proof.
  intros Hf. apply ends_bind. eapply ends_mono; [|apply open_shard_planned].
  intros [i|e|k] s' Hp; (eapply planned_call; [exact Hp|]); cbn [obtained]; [|done..]. intros j. by rewrite Hf.
Qed.

Lemma plan_read t s (f : nat → Plan) (m : St Svc Error Plan) :
  (∀ i, called (Ok (f i)) = Some i) → (∀ s', (m s').2 = s' ∧ called (m s').1 = None) →
  ends (o ← read_shard resolve t; match o with Some i => mret (f i) | None => m end) (planned t s called) s.
Proof.
  intros Hf Hm. apply ends_bind. eapply ends_mono; [|apply read_shard_planned].
  intros [[i|]|e|k] s' Hp; try (by eapply planned_call).
  - eapply planned_call; [exact Hp|]. intros j. cbn. change (called (Ok (f i)) = Some j → Some i = Some j). by rewrite Hf.
  - destruct (Hm s') as [E1 E2]. unfold ends. destruct (m s') as [r s2]. cbn [fst snd] in *. subst s2.
    eapply planned_call; [exact Hp|]. by rewrite E2.
Qed.

Lemma synthesize_pure r m s : (synthesize r m s).2 = s ∧ called (synthesize r m s).1 = None.
Proof. unfold synthesize, mbind, St_bind, lift_r. by destruct (ensure_synthesized_response_budget r m). Qed.

Lemma plan_request_planned t request budget s : ends (plan_request resolve t request budget) (planned t s called) s.
Proof.
  destruct request; cbn [plan_request]; try (by apply plan_open); try (apply plan_read; [done|intros; apply synthesize_pure]).
  unfold plan_transaction. apply ends_bind. unfold ends at 1, lift_r.
  destruct (validate request) as [[]|e|k]; [|by apply planned_nothing..].
  destruct (mutations request); [|by apply plan_open]. apply plan_read; [done|]. intros s'. unfold mbind, St_bind.
  by destruct (check_missing _).
Qed.

(** ** The shards of the tenants *)

(** The steps that a shard took. *)
Definition moves_of (i : nat) (l : service_label) : list Coordinator.label :=
  match l with
  | ShardMoved j l => if decide (j = i) then [l] else []
  | AllShutDown closed => if decide (i ∈ closed) then [Coordinator.LShutdown] else []
  | Planned _ _ _ _ => []
  end.

(** [owners] assigns the shards to tenants: each was started on its tenant's files at some
    point, is reached through its tenant's handle only, and has taken its own steps since. *)
Record isolated s0 (ls : list service_label) s (owners : list TenantId) : Prop := {
  iso_config : config s = config s0 ∧ fault_injector_factory s = fault_injector_factory s0;
  iso_heap : length (heap s) = length owners;
  iso_handles : ∀ t i, shards s !! t = Some i → owners !! i = Some t;
  iso_size : Z.of_nat (size (shards s)) ≤ max_open_shards (config s0);
  iso_calls : ∀ t request budget r i, Planned t request budget r ∈ ls → called r = Some i → owners !! i = Some t;
  iso_shards : ∀ i t x, owners !! i = Some t → heap s !! i = Some x →
    ∃ ls1 s1 d x0, ls1 `prefix_of` ls ∧ service_steps resolve s0 ls1 s1 ∧ started s1 t d x0 ∧
      Coordinator.steps x0 (ls ≫= moves_of i) x;
  iso_new : ∀ i, (length (heap s) ≤ i)%nat → ls ≫= moves_of i = [];
}.

Lemma shard_steps_snoc (x : Shard) ls x1 l x' :
  Coordinator.steps x ls x1 → Coordinator.step x1 l x' → Coordinator.steps x (ls ++ [l]) x'.
Proof. induction 1; intros; [by repeat econstructor|econstructor; eauto]. Qed.

Lemma moves_snoc i ls l : (ls ++ [l]) ≫= moves_of i = (ls ≫= moves_of i) ++ moves_of i l.
Proof. rewrite bind_app. cbn. by rewrite app_nil_r. Qed.

Lemma isolated_keep s0 ls s owners l s' :
  isolated s0 ls s owners → (∀ i, moves_of i l = []) →
  config s' = config s → fault_injector_factory s' = fault_injector_factory s → shards s' = shards s → heap s' = heap s →
  (∀ t request budget r i, l = Planned t request budget r → called r = Some i → owners !! i = Some t) →
  isolated s0 (ls ++ [l]) s' owners.
Proof.
  intros [I1 I2 I3 I4 I5 I6 I7] Hl E1 E2 E3 E4 Hc. split; rewrite ?E1, ?E2, ?E3, ?E4; try done.
  - intros t request budget r i [Hin|<-%list_elem_of_singleton]%elem_of_app Hr; eauto.
  - intros i t x Hi Hx. rewrite moves_snoc, Hl, app_nil_r. destruct (I6 i t x Hi Hx) as (ls1 & s1 & d & x0 & P1 & P2).
    exists ls1, s1, d, x0. split; [by apply prefix_app_r|done].
  - intros i Hi. rewrite moves_snoc, Hl, app_nil_r. auto.
Qed.

Lemma isolated_start s0 ls s owners t d x request budget r :
  isolated s0 ls s owners → service_steps resolve s0 ls s → started s t d x →
  (∀ i, called r = Some i → i = length (heap s)) →
  isolated s0 (ls ++ [Planned t request budget r])
    (mkService (config s) (<[t := length (heap s)]> (shards s)) (fault_injector_factory s) (heap s ++ [x]) d) (owners ++ [t]).
Proof.
  intros [I1 I2 I3 I4 I5 I6 I7] Hst Hx Hr. split; cbn [config shards heap fault_injector_factory]; [done| | | | | |].
  - rewrite !length_app. cbn. lia.
  - intros t' i. rewrite lookup_insert_Some. intros [[<- <-]|[_ Hi]].
    + rewrite I2. by apply list_lookup_middle.
    + apply lookup_app_l_Some. auto.
  - rewrite map_size_insert_None by apply Hx. pose proof (st_room _ _ _ _ Hx). destruct I1 as [<- _]. lia.
  - intros t' request' budget' r' i [Hin|[= -> -> -> ->]%list_elem_of_singleton]%elem_of_app Hi.
    + apply lookup_app_l_Some. eauto.
    + rewrite (Hr i Hi), I2. by apply list_lookup_middle.
  - intros i t' y Hi Hy. rewrite moves_snoc. cbn [moves_of]. rewrite app_nil_r. apply lookup_app_Some in Hy as [Hy|[Hle Hy]].
    + rewrite lookup_app_l in Hi by (rewrite <-I2; by eapply lookup_lt_Some).
      destruct (I6 i t' y Hi Hy) as (ls1 & s1 & d1 & x0 & P1 & P2). exists ls1, s1, d1, x0. split; [by apply prefix_app_r|done].
    + apply list_lookup_singleton_Some in Hy as [Hz <-]. assert (i = length (heap s)) as -> by lia.
      rewrite I2, list_lookup_middle in Hi by done. injection Hi as <-. exists ls, s, d, x.
      split_and!; [by apply prefix_app_r|done|done|]. rewrite I7 by done. constructor.
  - intros i. rewrite length_app. intros Hi. rewrite moves_snoc. cbn [moves_of]. rewrite app_nil_r. apply I7. lia.
Qed.

(** Shards take steps, and handles are forgotten. *)
Lemma isolated_moves s0 ls s owners l s' :
  isolated s0 ls s owners → (∀ t request budget r, l ≠ Planned t request budget r) →
  config s' = config s → fault_injector_factory s' = fault_injector_factory s → shards s' ⊆ shards s →
  length (heap s') = length (heap s) →
  (∀ i x', heap s' !! i = Some x' → ∃ x, heap s !! i = Some x ∧
     ((moves_of i l = [] ∧ x' = x) ∨ (∃ m, moves_of i l = [m] ∧ Coordinator.step x m x'))) →
  (∀ i, (length (heap s) ≤ i)%nat → moves_of i l = []) →
  isolated s0 (ls ++ [l]) s' owners.
Proof.
  intros [I1 I2 I3 I4 I5 I6 I7] Hl E1 E2 E3 E4 Hm Hn. split; rewrite ?E1, ?E2, ?E4; try done.
  - intros t i Hi. apply I3. by eapply lookup_weaken.
  - apply map_subseteq_size in E3. lia.
  - intros t request budget r i [Hin|<-%list_elem_of_singleton]%elem_of_app Hr; [eauto|]. by destruct (Hl t request budget r).
  - intros i t x' Hi Hx'. destruct (Hm i x' Hx') as (x & Hx & Hstep). rewrite moves_snoc.
    destruct (I6 i t x Hi Hx) as (ls1 & s1 & d & x0 & P1 & P2 & P3 & P4). exists ls1, s1, d, x0.
    split_and!; [by apply prefix_app_r|done|done|].
    destruct Hstep as [[-> ->]|(m & -> & Hstep)]; [by rewrite app_nil_r|by eapply shard_steps_snoc].
  - intros i Hi. rewrite moves_snoc, (Hn i Hi), app_nil_r. auto.
Qed.

Lemma isolated_step s0 ls s owners l s' :
  isolated s0 ls s owners → service_steps resolve s0 ls s → service_step resolve s l s' →
  ∃ owners', isolated s0 (ls ++ [l]) s' owners'.
Proof.
  intros Hi Hst Hl. destruct Hl as [s t request budget r s' Hp|s i m x x' Hx Hm|s].
  - pose proof (plan_request_planned t request budget s) as Hr. unfold ends in Hr. rewrite Hp in Hr.
    destruct Hr as (Hr & _ & Hc). destruct Hr as [d Hd|d x Hd Hx].
    + exists owners. eapply isolated_keep; try done. intros t' ? ? r' i [= <- <- <- <-] Hr. eapply iso_handles; [exact Hi|].
      by apply Hc.
    + exists (owners ++ [t]). apply isolated_start; [done|done|done|]. intros i Hr. apply Hc in Hr. cbn [shards] in Hr.
      rewrite lookup_insert_eq in Hr. by injection Hr.
  - exists owners. eapply isolated_moves; try done; cbn [heap].
    + apply length_insert.
    + intros j y. cbn [moves_of]. destruct (decide (i = j)) as [->|Hne].
      * rewrite list_lookup_insert_eq by (by eapply lookup_lt_Some). intros [= <-]. exists x. split; [done|]. right. by exists m.
      * rewrite list_lookup_insert_ne by done. intros Hy. exists y. split; [done|]. by left.
    + intros j Hj. cbn [moves_of]. rewrite decide_False; [done|]. intros <-. apply lookup_lt_Some in Hx. lia.
  - exists owners. eapply isolated_moves; try done; cbn [heap shutdown shards].
    + apply map_empty_subseteq.
    + apply length_imap.
    + intros j y. rewrite list_lookup_imap. intros (x & Hx & ->)%fmap_Some. exists x. split; [done|]. cbn [moves_of].
      destruct (decide (j ∈ (map_to_list (shards s)).*2)) as [Hj|Hj]; [rewrite bool_decide_true by done; right|rewrite bool_decide_false by done; by left].
      eexists. split; [done|constructor].
    + intros j Hj. cbn [moves_of]. rewrite decide_False; [done|]. intros ([t i] & -> & Ht)%list_elem_of_fmap.
      apply elem_of_map_to_list, (iso_handles _ _ _ _ Hi), lookup_lt_Some in Ht. cbn in Hj. rewrite (iso_heap _ _ _ _ Hi) in Hj. lia.
Qed.

Lemma isolated_new cfg d s0 d0 : new cfg d = (Ok s0, d0) → 0 ≤ max_open_shards cfg → isolated s0 [] s0 [] ∧ config s0 = cfg.
Proof.
  unfold new. destruct (_ =? 0); [done|]. destruct (create_dir_all _ d) as [[[]|e|k] d1]; [|done..].
  intros [= <- <-] Hm. split; [|done]. split; try done. by intros t request budget r i ?%not_elem_of_nil.
Qed.

Lemma isolated_steps s0 ls s :
  isolated s0 [] s0 [] → service_steps resolve s0 ls s → ∃ owners, isolated s0 ls s owners.
Proof.
  intros Hi Hst. induction Hst as [s0|s0 ls s1 l s' Hst IH Hl]; [by exists []|].
  destruct (IH Hi) as [owners Ho]. by eapply isolated_step.
Qed.
End planning.

(** ** Reads of tenants that do not exist *)

(** What the reference database answers to a request that does not change it. *)
Definition reference_response (db : Reference.ReferenceDb) (request : Service.Request) : option (Result Error Service.Response) :=
  match request with
  | Service.Get key => Some (Ok (Service.GetResponse (Reference.get db key)))
  | Service.Query pk after limit =>
      Some (Ok (Service.QueryResponse (storage_document <$> (TreeScan.row <$> Reference.query db pk after limit))))
  | Service.Scan after limit =>
      Some (Ok (Service.ScanResponse (storage_document <$> (TreeScan.row <$> Reference.scan db after limit))))
  | Service.Transact request =>
      if Service.is_mutation (Service.Transact request) then None
      else Some (validate request;;
                 (for_each Reference.check_condition (conditions request) db).1;;
                 Ok (Service.TransactResponse Service.conditions_satisfied))
  | Service.Put _ _ | Service.Delete _ => None
  end.

(** Room for a response without rows. *)
Definition EMPTY_RESPONSE_FRAME : Z := 64.

Lemma synthesized_fits response maximum :
  EMPTY_RESPONSE_FRAME ≤ maximum →
  response = Service.GetResponse (Missing ZERO) ∨ response = Service.QueryResponse [] ∨ response = Service.ScanResponse [] →
  ensure_synthesized_response_budget response maximum = Ok tt.
Proof.
  unfold EMPTY_RESPONSE_FRAME. intros Hm Hr. unfold ensure_synthesized_response_budget, Protocol.encode_response.
  unfold Protocol.validate_limits. set (l := Protocol.mkLimits _ _ _ _ _ _ _ _ _ _ _).
  assert (E : (Protocol.max_response_frame_size l <? Protocol.HEADER_SIZE) = false) by (apply Z.ltb_ge; cbn; unfold Protocol.HEADER_SIZE; lia).
  rewrite E. change (fail_if _ Protocol.InvalidLimits) with (@Ok Protocol.ProtocolError unit tt) at 1.
  change (fail_if _ Protocol.InvalidLimits) with (@Ok Protocol.ProtocolError unit tt) at 1. cbn [mbind Result_bind].
  assert (Hp : ∃ payload, Protocol.written (Protocol.encode_envelope l (Protocol.SuccessEnvelope response)) = Ok payload ∧ len payload ≤ 30).
  { destruct Hr as [-> | [-> | ->]]; eexists; (split; [reflexivity|by vm_compute]). }
  destruct Hp as (payload & -> & Hp). cbn [mbind Result_bind]. unfold Protocol.encode_frame.
  pose proof (len_nonneg payload). change (Protocol.max_response_frame_size l) with maximum. unfold Protocol.HEADER_SIZE in *.
  assert (E1 : checked_add 11 (len payload) = Some (11 + len payload)) by (unfold checked_add; case_match; [done|ulia]).
  assert (E2 : Protocol.try_u32 (len payload) = Ok (len payload)) by (unfold Protocol.try_u32; case_match; [done|ulia]).
  rewrite E1, E2. unfold ok_or, mbind, Result_bind, fail_if. by rewrite (proj2 (Z.ltb_ge maximum (11 + len payload))) by lia.
Qed.

Lemma check_missing_reference cs : check_missing cs = (for_each Reference.check_condition cs Reference.new).1.
Proof.
  induction cs as [|c cs IH]; [done|]. cbn [check_missing for_each]. unfold mbind at 2, St_bind.
  unfold Reference.check_condition, mbind at 2, St_bind, get_st, fail_when, lift_r.
  assert (E : Reference.get Reference.new (condition_key c) = Missing ZERO) by (unfold Reference.get; cbn; by rewrite lookup_empty).
  rewrite E. destruct c; cbn -[check_missing for_each Z.eqb ZERO fail_if]; unfold fail_if; try (destruct (_ =? _)); cbn -[for_each]; auto.
Qed.

(** ** Tenants without files *)

Section fresh.
Context `{C : Crc32c} {CS : Crc32cSpec C} `{FSpec : DurableFile.DurableFileSpec F} `{JS : DurableFile.FaultInjectorSpec J}.
Context `{QS : MpscSpec Coordinator.QueuedRequest Q} `{DFS : !FileSystem D F} {DS : FileSystemSpec D F}.
Context (resolve : TenantId → ShardId) (Hres : ∀ t, u64 t → u64 (resolve t)).
Abbreviation Shard := (Coordinator.AsyncShard F F J Q).
Abbreviation Svc := (@LocalTenantService F J Q D).
Implicit Types (s : Svc) (t : TenantId).

Definition disk_ok (dir : string) (d : D) : Prop := healthy dir d ∧ path_exists dir d = true.
Definition absent (dir : string) t (d : D) : Prop :=
  path_exists (database_path dir t (resolve t)) d = false ∧ path_exists (wal_path dir t (resolve t)) d = false.

Lemma touches_spec s t t' d d' :
  u64 t → u64 t' → t' ≠ t → touches resolve s t d d' → disk_ok (data_dir (config s)) d →
  disk_ok (data_dir (config s)) d' ∧ (absent (data_dir (config s)) t' d → absent (data_dir (config s)) t' d').
Proof.
  intros Ht Ht' Hne Htouch [Hh Hd]. pose proof (Hres t Ht). pose proof (Hres t' Ht').
  assert (Hplain : ∀ e, slashless e = true → plain (file_name t' (resolve t') e)).
  { intros e He. apply file_name_plain; [ulia..|done]. }
  assert (Hname : ∀ e e', file_name t' (resolve t') e' ≠ file_name t (resolve t) e).
  { intros e e' (? & _)%file_name_inj; [done|ulia..]. }
  assert (Hopen : ∀ e d1, slashless e = true → (open_file (join (data_dir (config s)) (file_name t (resolve t) e)) d).2 = d1 →
    disk_ok (data_dir (config s)) d1 ∧ (absent (data_dir (config s)) t' d → absent (data_dir (config s)) t' d1)).
  { intros e d1 He <-. destruct (open_file_spec (data_dir (config s)) (file_name t (resolve t) e) d Hh Hd)
      as (f & d2 & -> & O1 & O2 & _ & _ & O3); [by apply file_name_plain; [ulia..|]|].
    split; [done|]. unfold absent, database_path, wal_path. rewrite !O3; auto. }
  destruct Htouch as [d|d|d]; [|by apply (Hopen "db")|by apply (Hopen "wal")].
  destruct (create_dir_all_spec _ d Hh) as (d1 & -> & D1 & D2 & D3). split; [done|].
  unfold absent, database_path, wal_path. by rewrite !D3 by apply join_longer.
Qed.

Lemma touches_all s t t' d d' :
  u64 t → u64 t' → t' ≠ t → rtc (touches resolve s t) d d' → disk_ok (data_dir (config s)) d →
  disk_ok (data_dir (config s)) d' ∧ (absent (data_dir (config s)) t' d → absent (data_dir (config s)) t' d').
Proof.
  intros Ht Ht' Hne. induction 1 as [d|d d1 d' Hone _ IH]; intros Hd; [done|].
  destruct (touches_spec s t t' d d1 Ht Ht' Hne Hone Hd) as [Hd1 Ha]. destruct (IH Hd1) as [? ?]. auto.
Qed.

(** A configuration of the types that the fields have. *)
Record service_config_ok (c : LocalTenantServiceConfig) : Prop := {
  sc_open : 0 ≤ max_open_shards c;
  sc_epoch : u64 (Store.config_shard_epoch (database_config c));
  sc_cache : 0 ≤ Store.cache_capacity (database_config c);
  sc_limits : 0 ≤ Overlay.inline_value_limit (Store.limits (database_config c));
}.

Lemma tenant_config_ok c t : service_config_ok c → u64 t → StoreNew.config_ok (tenant_config (database_config c) t (resolve t)).
Proof. intros [_ ? ? ?] Ht. split; cbn; auto using database_uuid_ok. Qed.

(** A store that is ready for a shard, with the limits of the service. *)
Definition fresh_start (n : nat) (c : LocalTenantServiceConfig) (store : Store.BTreeStore F F J) : Prop :=
  CoordinatorTheorems.startable n store [] Reference.new ∧ Store.limits (Store.config store) = Store.limits (database_config c).

(** Opening a tenant that has no files. *)
Lemma open_fresh n s t :
  Z.of_nat n ≤ TreeTxn.FRESH_WRITES → service_config_ok (config s) → u64 t → disk_ok (data_dir (config s)) (disk s) → absent (data_dir (config s)) t (disk s) →
  ∃ f w d1 d2 d3 store, create_dir_all (data_dir (config s)) (disk s) = (Ok tt, d1) ∧
    open_file (db_path resolve s t) d1 = (Ok f, d2) ∧ open_file (log_path resolve s t) d2 = (Ok w, d3) ∧
    disk_ok (data_dir (config s)) d3 ∧
    (Store.open_with_wal (J:=J) f w (tenant_config (database_config (config s)) t (resolve t))).1 = Ok store ∧
    fresh_start n (config s) store.
Proof.
  intros Hn Hc Ht [Hh _] [A1 A2]. pose proof (Hres t Ht). unfold db_path, log_path, database_path, wal_path in *.
  destruct (create_dir_all_spec _ _ Hh) as (d1 & E1 & H1' & H2' & H3').
  rewrite <-(H3' _ (join_longer _ _)) in A1. rewrite <-(H3' _ (join_longer _ _)) in A2.
  assert (Hplain : ∀ e, slashless e = true → plain (file_name t (resolve t) e)).
  { intros e He. apply file_name_plain; [ulia..|done]. }
  destruct (open_file_spec _ (file_name t (resolve t) "db") d1 H1' H2' (Hplain "db" eq_refl))
    as (f & d2 & E2 & O1 & O2 & O3 & O4 & O5).
  rewrite <-O5 in A2; [|by apply Hplain|by intros (_ & _ & ?)%file_name_inj; [|ulia..]].
  destruct (open_file_spec _ (file_name t (resolve t) "wal") d2 O1 O2 (Hplain "wal" eq_refl))
    as (w & d3 & E3 & W1 & W2 & W3 & W4 & _).
  pose proof (StoreNew.open_new_spec (J:=J) _ n (Store.mkFiles f w None) (tenant_config_ok _ _ Hc Ht) (O4 A1) (W4 A2)
    Hn O3 W3) as Ho. unfold wp in Ho.
  destruct (Store.open_with_wal_internal _ _) as [[store|e|k] fs] eqn:Eo; [|done..].
  destruct Ho as (S1 & S0 & S2 & S3 & S4 & _). exists f, w, d1, d2, d3, store.
  split_and!; [done..|by unfold Store.open_with_wal; rewrite Eo|]. split; [|by rewrite S0].
  split; [done..|]. exact TreeTheorems.empty_short.
Qed.

(** The first request that opens the tenant starts a shard on an empty store. *)
Lemma started_fresh n s t d x :
  Z.of_nat n ≤ TreeTxn.FRESH_WRITES → service_config_ok (config s) → u64 t → disk_ok (data_dir (config s)) (disk s) → absent (data_dir (config s)) t (disk s) →
  fault_injector_factory s = None → started resolve s t d x →
  ∃ store, fresh_start n (config s) store ∧
    x = Coordinator.start_with_config store (coordinator_config (config s)).
Proof.
  intros Hn Hc Ht Hd Ha Hj [_ _ (f & w & d1 & d2 & store & E1 & E2 & E3 & E4 & ->)].
  destruct (open_fresh n s t Hn Hc Ht Hd Ha) as (f' & w' & d1' & d2' & d3' & store' & F1 & F2 & F3 & _ & F4 & F5).
  rewrite E1 in F1. injection F1 as <-. rewrite E2 in F2. injection F2 as <- <-. rewrite E3 in F3. injection F3 as <- <-.
  rewrite E4 in F4. injection F4 as <-. exists store. split; [done|]. unfold start_shard. by rewrite Hj.
Qed.

(** As long as the tenant has no shard it has no files. *)
Lemma open_shard_absent s t :
  service_config_ok (config s) → u64 t → disk_ok (data_dir (config s)) (disk s) →
  (shards s !! t = None → absent (data_dir (config s)) t (disk s)) →
  let s' := (open_shard resolve t s).2 in
  disk_ok (data_dir (config s)) (disk s') ∧ (shards s' !! t = None → absent (data_dir (config s)) t (disk s')).
Proof.
  intros Hc Ht Hd Ha s'. unfold s', open_shard, mbind, St_bind, get_st. destruct (shards s !! t) as [i|] eqn:Es.
  { cbn. by rewrite Es. }
  unfold fail_when, lift_r, fail_if. destruct (_ <=? _); [cbn; auto|].
  destruct (open_fresh 0 s t ltac:(lia) Hc Ht Hd (Ha eq_refl)) as (f & w & d1 & d2 & d3 & store & F1 & F2 & F3 & F4 & F5 & _).
  unfold open_path, on_disk, zoom, mbind, St_bind. rewrite F1. cbn [set_disk disk].
  fold (db_path resolve s t) (log_path resolve s t). rewrite F2. cbn [set_disk disk]. rewrite F3. unfold lift_r. rewrite F5.
  cbn [set_disk disk snd mret St_ret modify_st shards]. split; [done|]. by rewrite lookup_insert_eq.
Qed.

(** Tenants are 64-bit numbers, and the service is in use. *)
Definition in_use (l : service_label) : Prop :=
  match l with Planned t _ _ _ => u64 t | AllShutDown _ => False | ShardMoved _ _ => True end.

(** The disk of the service, and a tenant that had no files. *)
Record unopened (dir : string) t s : Prop := {
  uo_disk : disk_ok dir (disk s);
  uo_absent : shards s !! t = None → absent dir t (disk s);
}.

Lemma unopened_step s0 ls s owners t l s' :
  service_config_ok (config s0) → u64 t → isolated resolve s0 ls s owners → in_use l → service_step resolve s l s' →
  unopened (data_dir (config s0)) t s → unopened (data_dir (config s0)) t s'.
Proof.
  intros Hc Ht Hi Hl Hs [U1 U2]. destruct (iso_config _ _ _ _ _ Hi) as [Ec _].
  destruct Hs as [s t' request budget r s' Hp|s i m x x' Hx Hm|s]; [|by split|done]. cbn in Hl.
  pose proof (plan_request_planned resolve t' request budget s) as Hr. unfold ends in Hr. rewrite Hp in Hr.
  destruct Hr as (Hplan & Hs & _). destruct (decide (t' = t)) as [->|Hne].
  - destruct Hs as [-> | ->]; [done|]. rewrite <-Ec in Hc, U1, U2 |- *.
    destruct (open_shard_absent s t Hc Ht U1 U2) as [? ?]. by split.
  - rewrite <-Ec in U1, U2 |- *.
    assert (Hother : ∀ d, rtc (touches resolve s t') (disk s) d →
      disk_ok (data_dir (config s)) d ∧ (absent (data_dir (config s)) t (disk s) → absent (data_dir (config s)) t d)).
    { intros d Hd. by eapply touches_all. }
    destruct Hplan as [d Hd|d x Hd _]; destruct (Hother d Hd) as [D1 D2]; split; cbn [disk set_disk shards]; auto.
    intros Hn. rewrite lookup_insert_ne in Hn by done. auto.
Qed.

Lemma unopened_steps s0 ls s t :
  service_config_ok (config s0) → u64 t → isolated resolve s0 [] s0 [] → Forall in_use ls → service_steps resolve s0 ls s →
  unopened (data_dir (config s0)) t s0 → unopened (data_dir (config s0)) t s.
Proof.
  intros Hc Ht Hi Hls Hst Hu. induction Hst as [s0|s0 ls s1 l s' Hst IH Hl]; [done|].
  apply Forall_app in Hls as [Hls Hl']. apply Forall_cons in Hl' as [Hl' _].
  destruct (isolated_steps resolve s0 ls s1 Hi Hst) as [owners Ho].
  eapply unopened_step; [done|done|exact Ho|done|done|]. by apply IH.
Qed.

Lemma new_unopened cfg d (s0 : Svc) d0 t :
  new cfg d = (Ok s0, d0) → healthy (data_dir cfg) d → absent (data_dir cfg) t d →
  unopened (data_dir cfg) t s0 ∧ fault_injector_factory s0 = None.
Proof.
  unfold new. intros E Hh [A1 A2]. destruct (_ =? 0); [done|].
  destruct (create_dir_all_spec _ _ Hh) as (d1 & E1 & H1' & H2' & H3'). rewrite E1 in E. injection E as <- <-.
  split; [|done]. split; [done|]. intros _. unfold absent, database_path, wal_path in *. by rewrite !H3' by apply join_longer.
Qed.

(** The shard of a tenant that had no files. *)
Lemma tenant_shard n cfg d (s0 : Svc) d0 ls s t i x :
  Z.of_nat n ≤ TreeTxn.FRESH_WRITES → service_config_ok cfg → healthy (data_dir cfg) d → absent (data_dir cfg) t d → new cfg d = (Ok s0, d0) →
  service_steps resolve s0 ls s → Forall in_use ls → u64 t → shards s !! t = Some i → heap s !! i = Some x →
  ∃ store, fresh_start n cfg store ∧
    Coordinator.steps (Coordinator.start_with_config store (coordinator_config cfg)) (ls ≫= moves_of i) x.
Proof.
  intros Hn Hc Hh Ha Hnew Hst Hls Ht Hi Hx. destruct (isolated_new resolve cfg d s0 d0 Hnew (sc_open _ Hc)) as [Hiso <-].
  destruct (new_unopened _ d s0 d0 t Hnew Hh Ha) as [Hu Hj].
  destruct (isolated_steps resolve s0 ls s Hiso Hst) as [owners Ho].
  destruct (iso_shards _ _ _ _ _ Ho i t x (iso_handles _ _ _ _ _ Ho t i Hi) Hx) as (ls1 & s1 & d1 & x0 & [ls2 ->] & P2 & P3 & P4).
  apply Forall_app in Hls as [Hls _]. destruct (isolated_steps resolve s0 ls1 s1 Hiso P2) as [owners1 Ho1].
  destruct (iso_config _ _ _ _ _ Ho1) as [Ec Ej]. destruct (unopened_steps s0 ls1 s1 t Hc Ht Hiso Hls P2 Hu) as [U1 U2].
  rewrite <-Ec in Hc, U1, U2 |- *. rewrite Hj in Ej.
  destruct (started_fresh n s1 t d1 x0 Hn Hc Ht U1 (U2 (st_absent _ _ _ _ _ P3)) Ej P3) as (store & S1 & ->). eauto.
Qed.
End fresh.

(** ** The promises *)

Section theorems.
Context `{C : Crc32c} {CS : Crc32cSpec C} `{FSpec : DurableFile.DurableFileSpec F} `{JS : DurableFile.FaultInjectorSpec J}.
Context `{QS : MpscSpec Coordinator.QueuedRequest Q} `{DFS : !FileSystem D F} {DS : FileSystemSpec D F}.
Context (resolve : TenantId → ShardId).
Abbreviation Svc := (@LocalTenantService F J Q D).

(** C14: the service keeps its tenants apart, on any file system and under any faults.
    However the requests of the tenants and the steps of the shards are interleaved, every
    shard has one owner: it was started on the files of that tenant, handles and calls of
    other tenants never lead to it, and its state is the result of its own steps only.  The
    files of different tenants are different files, and no more shards than configured are
    open. *)
Theorem tenants_are_isolated cfg d (s0 : Svc) d0 ls s :
  new cfg d = (Ok s0, d0) → 0 ≤ max_open_shards cfg → service_steps resolve s0 ls s →
  Z.of_nat (size (shards s)) ≤ max_open_shards cfg ∧
  (∃ owners : list TenantId, length owners = length (heap s) ∧
     (∀ t i, shards s !! t = Some i → owners !! i = Some t) ∧
     (∀ t request budget r i, Planned t request budget r ∈ ls → called r = Some i → owners !! i = Some t) ∧
     (∀ i t x, owners !! i = Some t → heap s !! i = Some x →
        ∃ s1 d1 x0, config s1 = cfg ∧ started resolve s1 t d1 x0 ∧ Coordinator.steps x0 (ls ≫= moves_of i) x)) ∧
  (∀ t t', u64 t → u64 t' → u64 (resolve t) → u64 (resolve t') → t ≠ t' →
     db_path resolve s t ≠ db_path resolve s t' ∧ log_path resolve s t ≠ log_path resolve s t' ∧
     db_path resolve s t ≠ log_path resolve s t').
Proof.
  intros Hnew Hmax Hst. destruct (isolated_new resolve cfg d s0 d0 Hnew Hmax) as [Hi <-].
  destruct (isolated_steps resolve s0 ls s Hi Hst) as [owners Ho]. split; [apply Ho|]. split.
  - exists owners. split_and!; [by rewrite (iso_heap _ _ _ _ _ Ho)|apply Ho|apply Ho|]. intros i t x Ht Hx.
    destruct (iso_shards _ _ _ _ _ Ho i t x Ht Hx) as (ls1 & s1 & d1 & x0 & _ & P2 & P3 & P4).
    destruct (isolated_steps resolve s0 ls1 s1 Hi P2) as [owners1 Ho1]. exists s1, d1, x0. split; [apply Ho1|done].
  - intros t t' Ht Ht' Hr Hr' Hne. destruct (paths_inj (data_dir (config s)) t (resolve t) t' (resolve t')) as [P1 P2]; [ulia..|].
    unfold db_path, log_path. split_and!; [intros E..|done]; by destruct P1 as [? _]; [auto|].
Qed.

(** C12: the shard of a tenant that had no files refines the reference database, started
    empty.  The file system of the service is healthy, the service has no fault injector
    and is not shut down; the clients of the shard send transactions, puts, deletes,
    transactional reads and observations, with keys of at most 1464 encoded bytes or
    beyond the documented limit and at most 50000 mutations.  Whatever other tenants do, at
    every moment the answers that the tenant's shard has given or is about to send are
    those of the sequential shard on the empty database, what it holds is the queue of
    that shard, and a read is answered with what its database holds. *)
Theorem new_tenant_refines_reference cfg d (s0 : Svc) d0 ls s t i x :
  (∀ t, u64 t → u64 (resolve t)) → service_config_ok cfg → healthy (data_dir cfg) d → absent resolve (data_dir cfg) t d →
  new cfg d = (Ok s0, d0) → service_steps resolve s0 ls s → Forall in_use ls → u64 t →
  shards s !! t = Some i → heap s !! i = Some x →
  let moves := ls ≫= moves_of i in
  Forall CoordinatorSim.label_ok moves → Z.of_nat (CoordinatorTheorems.total_sent moves) ≤ TreeTxn.FRESH_WRITES →
  ∃ a, CoordinatorSpec.seq_run (Store.limits (database_config cfg)) (CoordinatorSpec.mkSeq Reference.new [] ∅ false)
      (CoordinatorTheorems.events moves) a ∧
    CoordinatorSpec.send_answers (CoordinatorSim.outgoing x) (Coordinator.sh_answers x) = CoordinatorSpec.seq_answers a ∧
    CoordinatorSpec.tag <$> CoordinatorSim.held x = CoordinatorSpec.seq_queue a ∧
    ∀ request max, CoordinatorTheorems.valid_read request →
      match Coordinator.execute request max x with
      | inl (Ok r) => CoordinatorTheorems.reference_read (CoordinatorSpec.seq_db a) request = Some r
      | inl (Err e) => ∃ message, e = ResponseTooLarge message
      | inl (Stuck _) | inr _ => False
      end.
Proof.
  intros Hres Hc Hh Ha Hnew Hst Hls Ht Hi Hx moves Hok Hsent.
  destruct (tenant_shard resolve Hres _ cfg d s0 d0 ls s t i x Hsent Hc Hh Ha Hnew Hst Hls Ht Hi Hx) as (store & [Hb Hlim] & Hsteps).
  pose proof (CoordinatorTheorems.start_simulates _ _ store [] Reference.new (coordinator_config cfg) Hb Hlim) as Hs.
  destruct (CoordinatorTheorems.steps_simulates _ _ _ _ moves x Hs Hsteps Hok (le_n _)) as (a & Hr & Hs').
  exists a. split_and!; [done|apply Hs'|apply Hs'|]. intros request max Hread. unfold Coordinator.execute.
  destruct (CoordinatorTheorems.try_read_spec _ _ x a request max Hs' Hread) as [(r & E & ->)|(message & ->)]; [done|by exists message].
Qed.

(** C37: a tenant that does not exist reads as the empty database and is not created.  A
    request that changes nothing, of a tenant without files and with room for an empty
    response (64 bytes), is answered exactly as the empty reference database answers it,
    without a shard and without touching the service or the disk. *)
Theorem absent_tenant_reads_empty (s : Svc) t request budget :
  absent resolve (data_dir (config s)) t (disk s) → Service.is_mutation request = false →
  EMPTY_RESPONSE_FRAME ≤ Service.max_response_bytes budget →
  ∃ r, reference_response Reference.new request = Some r ∧ plan_request resolve t request budget s = (Answered <$> r, s).
Proof.
  intros [A1 A2] Hm Hb.
  assert (Hread : read_shard resolve t s = (Ok None, s)).
  { unfold read_shard, mbind, St_bind, get_st. by rewrite A1, A2. }
  assert (Hsynth : ∀ response, ensure_synthesized_response_budget response (Service.max_response_bytes budget) = Ok tt →
    synthesize response (Service.max_response_bytes budget) s = (Ok (Answered response), s)).
  { intros response E. unfold synthesize, mbind, St_bind, lift_r. by rewrite E. }
  destruct request as [key|key value|key|pk after limit|after limit|request]; try done; cbn [plan_request reference_response].
  1-3: unfold mbind, St_bind; rewrite Hread; eexists; (split; [done|]); (rewrite Hsynth; [|by apply synthesized_fits; auto]).
  - unfold Reference.get. cbn. by rewrite lookup_empty.
  - unfold Reference.query. change (btree_iter (Reference.states Reference.new)) with (@nil (DocumentKey * RevisionState)).
    cbn [omap list_omap]. by rewrite take_nil.
  - unfold Reference.scan. change (btree_iter (Reference.states Reference.new)) with (@nil (DocumentKey * RevisionState)).
    cbn [omap list_omap]. by rewrite take_nil.
  - rewrite Hm. eexists. split; [done|]. rewrite <-check_missing_reference. unfold plan_transaction, mbind, St_bind, Result_bind, lift_r.
    destruct (validate request) as [[]|e|k]; [|done..]. cbn in Hm. destruct (mutations request); [|done]. rewrite Hread.
    by destruct (check_missing _) as [[]|e|k].
Qed.
End theorems.

(** ** Concrete instances *)

(** A disk in memory, with files that can crash. *)
Record MemDisk : Type := mkDisk { files : gmap string CrashFile.CrashableFile; dirs : gset string }.

#[local] Instance mem_file_system : FileSystem MemDisk CrashFile.CrashableFile := {
  path_exists path d := bool_decide (path ∈ dom (files d)) || bool_decide (path ∈ dirs d);
  create_dir_all path d := (Ok tt, mkDisk (files d) ({[path]} ∪ dirs d));
  open_file path d :=
    match files d !! path with
    | Some f => (Ok f, d)
    | None => (Ok CrashFile.new, mkDisk (<[path := CrashFile.new]> (files d)) (dirs d))
    end;
}.

#[local] Program Instance mem_file_system_spec : FileSystemSpec MemDisk CrashFile.CrashableFile := {
  healthy _ d := ∀ path f, files d !! path = Some f → DurableFile.reliable f;
}.
Next Obligation.
  intros dir d Hd. eexists. split_and!; [done|done| |]; cbn.
  - rewrite orb_true_iff, !bool_decide_eq_true. set_solver.
  - intros path Hp. f_equal. apply bool_decide_ext. assert (path ≠ dir) by (intros ->; lia). set_solver.
Qed.
Next Obligation.
  intros dir name d Hd Hdir Hp. cbn in *. destruct (files d !! join dir name) as [f|] eqn:E.
  - exists f, d. split_and!; try done; [by eapply Hd|]. intros Hn. rewrite orb_false_iff, !bool_decide_eq_false in Hn.
    destruct Hn as [Hn _]. by apply not_elem_of_dom in Hn; simplify_eq.
  - eexists _, _. split_and!; [done| | |done|done|]; cbn.
    + intros path f. rewrite lookup_insert_Some. intros [[_ <-]|[_ Hf]]; [done|by eapply Hd].
    + rewrite orb_true_iff, !bool_decide_eq_true in Hdir |- *. set_solver.
    + intros name' _ Hne. f_equal. apply bool_decide_ext. rewrite dom_insert_L.
      assert (join dir name' ≠ join dir name) by (unfold join; by intros ?%app_inj%(app_inj "/")). set_solver.
Qed.

Section examples.
#[local] Existing Instance Castagnoli.instance.
#[local] Existing Instance Castagnoli.spec.
Abbreviation TestService :=
  (@LocalTenantService CrashFile.CrashableFile CrashFile.CrashInjector (Fifo Coordinator.QueuedRequest) MemDisk).

Inductive service_move : Type :=
  | Request (tenant : TenantId) (request : Service.Request)
  | Ask (shard : nat) (op : Coordinator.CoordinatorOperation)
  | Turn (shard : nat).

Definition play_move (m : service_move) (s : TestService) : option (service_label * TestService) :=
  match m with
  | Request t request =>
      let budget := Service.mkBudget 1000 in
      let '(r, s') := plan_request one_tenant_one_shard t request budget s in Some (Planned t request budget r, s')
  | Ask i op =>
      x ← heap s !! i;
      let '(r, x') := Coordinator.send 0 op x in
      Some (ShardMoved i (Coordinator.LSend op r),
            mkService (config s) (shards s) (fault_injector_factory s) (<[i := x']> (heap s)) (disk s))
  | Turn i =>
      x ← heap s !! i;
      x' ← Coordinator.coordinate Coordinator.Receive 0 0 x;
      Some (ShardMoved i Coordinator.LTask,
            mkService (config s) (shards s) (fault_injector_factory s) (<[i := x']> (heap s)) (disk s))
  end.

Lemma play_move_step m s l s' : play_move m s = Some (l, s') → service_step one_tenant_one_shard s l s'.
Proof.
  destruct m as [t request|i op|i]; cbn [play_move].
  - destruct (plan_request _ _ _ _ _) as [r s1] eqn:E. intros [= <- <-]. by constructor.
  - intros (x & Hx & E)%bind_Some. destruct (Coordinator.send 0 op x) as [r x'] eqn:Es. injection E as <- <-.
    econstructor; [done|by econstructor].
  - intros (x & Hx & (x' & Hc & [= <- <-])%bind_Some)%bind_Some. econstructor; [done|by econstructor].
Qed.

Fixpoint play_service (ms : list service_move) (ls : list service_label) (s : TestService) : option (list service_label * TestService) :=
  match ms with
  | [] => Some (ls, s)
  | m :: ms' => '(l, s1) ← play_move m s; play_service ms' (ls ++ [l]) s1
  end.

Lemma play_service_steps s0 ms ls s ls' s' :
  service_steps one_tenant_one_shard s0 ls s → play_service ms ls s = Some (ls', s') →
  service_steps one_tenant_one_shard s0 ls' s'.
Proof.
  revert ls s. induction ms as [|m ms IH]; intros ls s Hst; cbn [play_service]; [by intros [= <- <-]|].
  intros ([l s1] & Hm & Hp)%bind_Some. eapply IH; [|done]. econstructor; [done|]. by apply play_move_step in Hm.
Qed.

Definition empty_disk : MemDisk := mkDisk ∅ ∅.
Definition first_service : option TestService :=
  match new default_service_config empty_disk with (Ok s, _) => Some s | _ => None end.

(** Two tenants write, and the shard of the first answers. *)
Definition sample_moves : list service_move :=
  [Request 7 (Service.Transact TreeTheorems.sample_put); Ask 0 (Coordinator.Transaction TreeTheorems.sample_put);
   Request 8 (Service.Transact TreeTheorems.sample_put); Turn 0; Ask 1 (Coordinator.Transaction TreeTheorems.sample_put);
   Turn 0; Turn 1; Turn 0; Turn 0; Turn 0].
Definition sample_shard_moves : list Coordinator.label :=
  [Coordinator.LSend (Coordinator.Transaction TreeTheorems.sample_put) (Ok 0%nat); Coordinator.LTask; Coordinator.LTask;
   Coordinator.LTask; Coordinator.LTask; Coordinator.LTask].

Definition tenant_of (l : service_label) : option TenantId := match l with Planned t _ _ _ => Some t | _ => None end.
Definition stops (l : service_label) : bool := match l with AllShutDown _ => true | _ => false end.

Lemma service_plays :
  (s0 ← first_service; '(ls, s) ← play_service sample_moves [] s0;
   Some (omap tenant_of ls, existsb stops ls, ls ≫= moves_of 0, shards s !! 7, length (heap s))) =
  Some ([7; 8], false, sample_shard_moves, Some 0%nat, 2%nat).
Proof. vm_compute. reflexivity. Qed.

Lemma tenants_in_use ls : Forall u64 (omap tenant_of ls) → existsb stops ls = false → Forall in_use ls.
Proof.
  induction ls as [|l ls IH]; [constructor|]. cbn [omap list_omap existsb]. intros Ht [Hs Hss]%orb_false_iff.
  destruct l as [t request budget r|i l|closed]; cbn [tenant_of] in Ht; [|constructor; [exact I|auto]|done].
  apply Forall_cons in Ht as [Ht Hts]. constructor; [exact Ht|auto].
Qed.

Lemma sample_service_run :
  ∃ (s0 s : TestService) d0 ls x, new default_service_config empty_disk = (Ok s0, d0) ∧
    service_steps one_tenant_one_shard s0 ls s ∧ Forall in_use ls ∧ shards s !! 7 = Some 0%nat ∧ heap s !! 0%nat = Some x ∧
    ls ≫= moves_of 0 = sample_shard_moves.
Proof.
  pose proof service_plays as Hp. unfold first_service in Hp.
  destruct (new default_service_config empty_disk) as [[s0|e|k] d0] eqn:E; [|discriminate Hp..].
  apply bind_Some in Hp as (s0' & E0 & Hp). apply (inj Some) in E0 as <-.
  apply bind_Some in Hp as ([ls s] & Es & Hp). apply (inj Some) in Hp. apply pair_eq in Hp as [Hp Hlen].
  apply pair_eq in Hp as [Hp Hs]. apply pair_eq in Hp as [Hp Hmoves]. apply pair_eq in Hp as [Ht Hstop].
  destruct (lookup_lt_is_Some_2 (heap s) 0) as [x Hx]; [rewrite Hlen; lia|]. exists s0, s, d0, ls, x.
  split_and!; [reflexivity| | |exact Hs|exact Hx|exact Hmoves].
  - eapply play_service_steps; [constructor|exact Es].
  - apply tenants_in_use; [|exact Hstop]. rewrite Ht. repeat (apply Forall_cons_2; [ulia|]). apply Forall_nil_2.
Qed.

Lemma sample_shard_ok : Forall CoordinatorSim.label_ok sample_shard_moves.
Proof.
  unfold sample_shard_moves. apply Forall_cons_2; [|repeat (apply Forall_cons_2; [exact I|]); apply Forall_nil_2].
  exists TreeTheorems.sample_put. split; [done|exact TreeTheorems.sample_put_fits].
Qed.

Lemma default_service_config_ok : service_config_ok default_service_config.
Proof. split; vm_compute; try split; congruence. Qed.

Lemma tenants_are_isolated_witness :
  ∃ s : TestService, Z.of_nat (size (shards s)) ≤ 1024 ∧ db_path one_tenant_one_shard s 7 ≠ db_path one_tenant_one_shard s 8.
Proof.
  destruct sample_service_run as (s0 & s & d0 & ls & x & E & Hst & _). exists s.
  destruct (tenants_are_isolated one_tenant_one_shard default_service_config empty_disk s0 d0 ls s E ltac:(by vm_compute) Hst)
    as (H1' & _ & H2').
  split; [exact H1'|]. destruct (H2' 7 8) as [Hne _]; [unfold one_tenant_one_shard; ulia..|exact Hne].
Defined.

Lemma new_tenant_refines_reference_witness :
  ∃ (x : Coordinator.AsyncShard CrashFile.CrashableFile CrashFile.CrashableFile CrashFile.CrashInjector (Fifo Coordinator.QueuedRequest)) a,
    CoordinatorSpec.seq_run (Store.limits (database_config default_service_config)) (CoordinatorSpec.mkSeq Reference.new [] ∅ false)
      (CoordinatorTheorems.events sample_shard_moves) a ∧
    CoordinatorSpec.send_answers (CoordinatorSim.outgoing x) (Coordinator.sh_answers x) = CoordinatorSpec.seq_answers a ∧
    CoordinatorSpec.tag <$> CoordinatorSim.held x = CoordinatorSpec.seq_queue a.
Proof.
  destruct sample_service_run as (s0 & s & d0 & ls & x & E & Hst & Hls & Hs & Hx & Hm). exists x. rewrite <-Hm.
  destruct (new_tenant_refines_reference one_tenant_one_shard default_service_config empty_disk s0 d0 ls s 7 0 x)
    as (a & Ha & Hans & Hq & _).
  - intros t Ht. exact Ht.
  - exact default_service_config_ok.
  - intros path f Hf. cbn in Hf. by rewrite lookup_empty in Hf.
  - split; vm_compute; reflexivity.
  - exact E.
  - exact Hst.
  - exact Hls.
  - ulia.
  - exact Hs.
  - exact Hx.
  - rewrite Hm. exact sample_shard_ok.
  - rewrite Hm. by vm_compute.
  - exists a. split; [exact Ha|]. split; [exact Hans|exact Hq].
Defined.

Lemma absent_tenant_reads_empty_witness :
  ∃ s : TestService,
  let request := Service.Get TreeTheorems.sample_key in
  ∃ r, reference_response Reference.new request = Some r ∧
    plan_request one_tenant_one_shard 9 request (Service.mkBudget 1000) s = (Answered <$> r, s).
Proof.
  exists (mkService default_service_config ∅ None [] empty_disk). cbv zeta.
  apply (absent_tenant_reads_empty one_tenant_one_shard).
  - split; vm_compute; reflexivity.
  - reflexivity.
  - by vm_compute.
Defined.
End examples.
End TenantTheorems.
